(* ===== verification/_CoqProject ===== *)
-Q . S2P
Prelude.v
Float64.v
Words.v
GoStrings.v
Extension.v
Money.v
Isop.v
Policy.v
PolicyAnalysis.v
RecordData.v
HermesKeys.v
Bitmap.v
BitmapIndex.v
IndexSnap.v
RangeIndex.v
Mutation.v
Partition.v
Reads.v
TopK.v
Listing.v
CircuitBreaker.v
Cache.v
SharedLoad.v
MemoryDB.v
CachedStore.v
Hub.v
Gateway.v
SnapshotCache.v
Accumulator.v
MirrorSweep.v
ScopeSignal.v
FeatureFlags.v
Retry.v
Arena.v
Degradation.v
RateLimiter.v
Rbac.v
Routes.v
EventLog.v
WorkerDedupe.v
Worker.v
Segments.v
EventTypes.v
Transfer.v
ObjectStore.v
Bulk.v
Compress.v
AcceptEncoding.v
Chain.v
Binding.v
