(* ===== verification/Prelude.v ===== *)
(** * Foundation: a verification development

    The repository is a Go server kit ([src/server-kit/go]).  Its core is
    Hermes, an in-memory projection of tenant-scoped records with several kinds
    of index, in front of which sit the record stores, caches, the policy engine
    and the helpers that guard calls.  This library models that code as
    executable definitions, operation by operation, and proves what makes each
    part correct.

    ** Parts, files and the code they model

    Shared: [Prelude] (results of fallible calls, machine integers and their
    tactic, sums, sorted lists, [sort.Search]), [Float64] (the arithmetic of
    [float64], and when it is exact), [Words] (bit vectors in 64-bit words, hint
    database [words]), [GoStrings] (package [strings], decimal and hexadecimal
    texts), [Segments] (positions of a separator and the parts it splits a text in).

    Hermes, the hot plane ([hermes/]):
    - [HermesKeys] ([helpers.go], [types.go]): specs, escaped record keys,
      scopes, query plans and matching;
    - [Bitmap] ([columnar_bitmap.go], [columnar_mlp.go], [bitmap_dispatch.go]):
      packed bitmaps and their kernels, behind the type class of hooks;
      [BitmapIndex] ([bitmap_index.go]): the inverted index of one scope;
    - [IndexSnap] ([indexes.go]): copy-on-write key indexes as chains of deltas;
      [RangeIndex] ([range_indexes.go], [columnar_pushdown.go]): ordered
      numeric indexes;
    - [Partition] ([apply.go], [rebuild.go], [store.go]): events applied under
      the partition's lock, versions, tombstones, applied sources and
      watermarks, limits, eviction, bulk load and snapshots of state;
    - [Reads] ([store.go], [indexes.go], [columnar.go]): fences, point reads,
      candidate selection, counts, range plans;
    - [TopK] ([columnar_candidates.go]) and [Listing] ([columnar.go],
      [snapshot.go]): the bounded heap, canonical lists and version pages;
    - [Mutation] ([snapshot.go], [contract.go]): records as wire mutations and
      back;
    - [Accumulator] ([accumulator_store.go]): incremental facets and metrics;
    - [MirrorSweep] ([mirror_sweep.go]): the sweeper that converges sources past
      their cursors, woken by signals; [ScopeSignal] ([scope_signal.go]): the
      lane that announces writes to the other processes and flags their
      sweepers, on top of [MirrorSweep].

    The projection gateway ([projectiongw/]): [Hub] ([hub.go]) fans frames out
    to subscribers; [Gateway] ([audience.go], [gateway.go]) partitions applied
    mutations by audience into the hub's topics and serves audience snapshots
    from pages of the hot plane; [SnapshotCache] ([snapshot_cache.go],
    [snapshot_serve.go]) keeps assembled snapshots by epoch and audience.

    Admission and routing: [RateLimiter] ([security/rate_limiter.go]), [Rbac]
    ([security/rbac.go]) and [Routes] ([wsrouting/route_maplet.go]), whose
    capability checks are stated over [Rbac]'s masks.

    Events and jobs: [EventTypes] ([events/contract.go]), the grammar of event
    types; [EventLog] ([eventlog/eventlog.go]), the table of facts and the
    publishers that move them to a stream; [WorkerDedupe] ([worker/dedupe.go]),
    the set of keys seen, and on it [Worker] ([worker/engine.go], [job.go],
    [health.go], [predictor.go]), queues, attempts and scaling; [Chain]
    ([chain/chain.go]), operations in parallel under one cancellation; [Binding]
    ([placement/binding.go], [binding_execute.go]), the registry of resource
    versions and of the operations bound to them.

    Bytes: [Transfer] ([transfer/]), trackers of transfers and the events that
    bracket them; [ObjectStore] ([objectstore/object_store.go], in memory) and on
    it [Bulk] ([bulk/manager.go], [state.go], [status.go]), multipart transfers
    from their plan to reads by range; [Compress] ([compress/compress.go],
    [frame.go]), bounded decoding and frames, and [AcceptEncoding], the choice of
    an encoding.

    Records and stores: [RecordData] ([database/record_data.go]), [MemoryDB]
    ([database/database.go]), [Cache] and [SharedLoad] ([cache/]), [CachedStore]
    ([database/cached_state_store.go]).  [Cache] is proved against the class
    [BackendLaws], which its in-memory backend discharges; [CachedStore] is
    proved against [StateStoreLaws], which [MemoryDB] discharges, over any
    lawful backend.

    Decisions and guards: [Extension] ([extension/value.go]), [Policy] and
    [PolicyAnalysis] ([policy/policy.go], [policy/isop.go]) with [Isop], [Money]
    ([money/money.go]), [CircuitBreaker] ([circuitbreaker/]), [FeatureFlags]
    ([featureflags/]), [Retry] ([retry/retry.go]), [Arena] ([scratch/]),
    [Degradation] ([degradation/degradation.go]).

    ** How the code is read

    A method that holds one lock for its body is one step on a state record.
    Where the code runs without a lock, or several goroutines meet, there is a
    step relation and the theorems are about every reachable state:
    partitions ([Partition.reachable]), the breaker's lock-free paths, shared
    loads, goroutines of health checks, the snapshot of flag states read while
    it is replaced, the hub's broadcasts against readers and cancellations, the
    sweep loop against signallers, the announcement lane's writers,
    publisher and [Close], publishers of the event log (programs over the calls
    they make, any of which may fail or lose its answer) against writers and each
    other, workers against callers, the transfer manager's calls against those
    who hold a tracker, the goroutines of a chain, and executions of a binding
    registry against publications and [Close].  The bulk manager is read
    one call at a time.  The clock and the state of a context are inputs of each
    operation.  Go maps are [gmap]s; where a map's iteration order could be
    seen, the result is proved independent of it or stated up to permutation.
    Integers are [Z] with the wrap-around of their width written out wherever
    it can occur; byte counts of data in memory are unbounded.

    Parameters stand for what is not readable here or is floating point:
    [strconv]'s float parser and printer ([parseFloat] composed with the rank
    of a float in its order, [double] in [Mutation]), regular expressions and
    float printing in [Policy], the rate comparison [rateTrips] of the breaker,
    the serializer of a cache, the SHA-256 sum in an audience digest and the encoding
    of a page, digests, codecs and the JSON of a manifest in [Bulk] and [Compress],
    whether a weight parses as a positive number in [AcceptEncoding], generated
    identifiers, the answer of the functions callers pass.  What
    is needed of them is a named hypothesis, satisfied in the witnesses by a
    concrete function.  A cache's serializer may refuse records and change their
    values, and SHA-256 sums may collide: the theorems say what follows.  Retry
    budgets use exact tokens in place of float64.

    ** What the theorems show

    - Writes: in every reachable partition the counters and limits are exact
      ([partition_books_balance]); events are last-writer-wins and replays are
      duplicates; bulk loads replace everything or nothing; keys isolate
      tenants.
    - Reads: counts, point reads, lists with and without predicates and pages
      agree with the plain filter and sort of the live records, whatever index
      answers, as long as a bitmap index has not run over its value budget ([count_exact], [get_record_exact], [list_canonical],
      [list_where_canonical], [snapshot_pages_tile]); each index alone is exact
      over all histories of batches and compactions.
    - Stores: [MemoryDB]'s indexed queries agree with a scan when writes come at
      rising instants, and it refines a map of identities; the cache refines a map
      of expiring entries; the cached store answers as the wrapped store, but for
      what the serializer makes of a record; shared loads are bounded.
    - Fan-out: a subscriber receives only mutations its audiences may see (of
      records whose scope holds no colon), a topic carries exactly its audience's mutations, frames are dropped only
      with a count and a wake, and snapshots hold only what the caller may see.
    - Convergence: accumulators equal a scan of the live records, their sums where
      no rounding happens; a sweep moves
      its cursor past everything it pushed or not at all; no change signal is
      lost, passes drain their sources, announcements are neither lost nor
      doubled, [Close] drains the queue, and a write wakes the peer's source.
    - Admission: a rate limit holds in every interval the limiter watches, the
      mask fast path answers as the scan of grants, routes let through exactly the
      granted, and a cached snapshot is served only to the callers it was read for,
      up to collisions of their digests.
    - Events and jobs: what a stream holds are facts of the log, delivered at
      most once more than failures were counted, and pending facts drain; an
      accepted job is in exactly one place and runs no more than its attempts,
      and a success is not repeated within its window; scaling is bounded; the
      validator of event types agrees with their parser; a cancelled chain
      cancels everyone who waits, and its results are those of its operations; a
      binding registry stays within its limits and an execution reads what its
      tenant published until it ends.
    - Bytes: transfers move forward, are announced and ended once and can be
      settled; the parts of a completed bulk transfer lie end to end over its size
      with the digests recorded, every range of it reads its bytes, whole or piece
      by piece, where they are not compressed; no decode exceeds its limit; the scan of Accept-Encoding reads the
      list it is.
    - Round trips: wireable records to mutations and back, resume tokens, event types,
      compressed frames, hex.
    - Policy: deny overrides, priorities decide the named policy, the cover
      computed by the analysis is the effective function and irredundant.
    - Money: allocation conserves and is Hamilton's; arithmetic is exact or an
      error.
    - Guards: the breaker's counters and announcements are well formed, it
      admits few calls half open and recovers; retries stop and cannot amplify
      past their budget; flag reads are linear; arena memory is disjoint;
      health follows the checks.

    Theorems whose names state a surprising behaviour (for example
    [prefixed_entry_survives_invalidation] or [zero_percent_enables_everyone])
    are concrete runs in which the code departs from its documentation or from
    what it means to do.

    ** Bounds and fuel

    Every fuel is shown to be enough where the result is used: the cover
    recursion has one level per variable (at most 16, fuel 17); bit scans run
    64 steps; the slot maplet has 32 buckets; binary searches take the length of
    the list; a heap sift takes the heap's length; delta chains are compacted
    past depth 512, range chains past 32; the walk over types stops at depth 32;
    the retry loop takes [MaxAttempts] rounds; the sweep loop takes at most one
    pass per row of the backlog and one more; the publisher takes three actions
    per queued scope; the loops over a text (event types, encodings) and over the
    entries to evict take its length; a backoff doubles at most as often as its
    attempt.

    ** Not modelled

    Network and database clients ([redis/], [database/postgres.go], [connector/],
    [adapter/], S3 and the file system in [objectstore/]), HTTP, websocket and gRPC
    plumbing ([httpserver/], [httpapi/], [grpcsvc/], the middleware of [compress/]
    and [security/]), generated code, JSON text, SQL text, cryptography, tickers
    and time-outs as such, float reductions and SIMD kernels of column batches,
    and the native runtime host: what they do is I/O or lies in code outside this
    repository.  Pure logic that remains: version negotiation ([versioning/]),
    remote placement, the service registry, the metadata maplet, and the choice of a
    bulk lane. *)

From Stdlib Require Import ZArith Lia Ascii String Sorting.Sorted.
From stdpp Require Import base strings gmap numbers sorting list.

#[global] Open Scope Z_scope.

(** ** Results of fallible Go calls

    A Go function that returns [(T, error)] is modelled by [res E T], where [E]
    enumerates the errors that function can produce. *)
Inductive res (E A : Type) : Type :=
| Ok (a : A)
| Err (e : E).
Arguments Ok {E A} a.
Arguments Err {E A} e.

Definition res_bind {E A B} (m : res E A) (k : A → res E B) : res E B :=
  match m with Ok a => k a | Err e => Err e end.

Declare Scope go_scope.
Delimit Scope go_scope with go.
Notation "'try' x <- m ; k" := (res_bind m (fun x => k))
  (at level 10, x name, m at level 100, k at level 200, only parsing) : go_scope.

(** ** Machine integers

    A w-bit integer is a [Z]; every operation that can leave the range writes
    its wrap-around out. *)
Definition u64 (z : Z) : Z := z mod 2 ^ 64.
Definition u32 (z : Z) : Z := z mod 2 ^ 32.
Definition i64 (z : Z) : Z := (z + 2 ^ 63) mod 2 ^ 64 - 2 ^ 63.
Definition minInt64 : Z := -9223372036854775808.
Definition maxInt64 : Z := 9223372036854775807.

Definition in_i64 (z : Z) : Prop := minInt64 ≤ z ≤ maxInt64.
Definition in_u64 (z : Z) : Prop := 0 ≤ z < 2 ^ 64.

Definition in_i64b (z : Z) : bool := (minInt64 <=? z) && (z <=? maxInt64).

(** Go's [/] and [%] on int64 truncate toward zero, and [minInt64 / -1] wraps. *)
Definition go_div (a b : Z) : Z := i64 (Z.quot a b).
Definition go_mod (a b : Z) : Z := Z.rem a b.

Lemma pow63 : 2 ^ 63 = 9223372036854775808. Proof. reflexivity. Qed.
Lemma pow64 : 2 ^ 64 = 18446744073709551616. Proof. reflexivity. Qed.

Ltac zrange :=
  unfold in_i64, in_u64, minInt64, maxInt64 in *; rewrite ?pow63, ?pow64 in *; lia.

Lemma in_i64b_spec z : in_i64b z = true ↔ in_i64 z.
Proof. unfold in_i64b, in_i64. rewrite andb_true_iff, !Z.leb_le. done. Qed.

Lemma i64_range z : in_i64 (i64 z).
Proof.
  unfold i64. pose proof (Z.mod_pos_bound (z + 2 ^ 63) (2 ^ 64)). zrange.
Qed.

Lemma i64_id z : in_i64 z → i64 z = z.
Proof. intros H. unfold i64. rewrite Z.mod_small; zrange. Qed.

Lemma i64_plus a k : i64 (a + k * 2 ^ 64) = i64 a.
Proof.
  unfold i64. replace (a + k * 2 ^ 64 + 2 ^ 63) with (a + 2 ^ 63 + k * 2 ^ 64) by lia.
  by rewrite Z.mod_add by done.
Qed.

Lemma i64_eqm a : ∃ k, i64 a = a + k * 2 ^ 64.
Proof.
  unfold i64. exists (- ((a + 2 ^ 63) / 2 ^ 64)).
  pose proof (Z.div_mod (a + 2 ^ 63) (2 ^ 64)). rewrite ?pow63, ?pow64 in *. lia.
Qed.

Lemma i64_add_l a b : i64 (i64 a + b) = i64 (a + b).
Proof.
  destruct (i64_eqm a) as [k ->].
  replace (a + k * 2 ^ 64 + b) with (a + b + k * 2 ^ 64) by lia. apply i64_plus.
Qed.

Lemma i64_sub_r a b : i64 (a - i64 b) = i64 (a - b).
Proof.
  destruct (i64_eqm b) as [k ->].
  replace (a - (b + k * 2 ^ 64)) with (a - b + (- k) * 2 ^ 64) by lia. apply i64_plus.
Qed.

Lemma i64_opp a : i64 (- i64 a) = i64 (- a).
Proof. replace (- i64 a) with (0 - i64 a) by lia. rewrite i64_sub_r. f_equal. Qed.

(** The bits of a wrapped value that is out of range cannot equal it. *)
Lemma i64_inv z : i64 z = z → in_i64 z.
Proof. intros <-. apply i64_range. Qed.

Lemma u64_id z : in_u64 z → u64 z = z.
Proof. intros H. unfold u64. by apply Z.mod_small. Qed.

Lemma u64_range z : in_u64 (u64 z).
Proof. unfold u64, in_u64. by apply Z.mod_pos_bound. Qed.

Lemma u32_range z : 0 ≤ u32 z < 2 ^ 32.
Proof using. apply Z.mod_pos_bound. lia. Qed.

Lemma u32_id z : 0 ≤ z < 2 ^ 32 → u32 z = z.
Proof using. apply Z.mod_small. Qed.

Lemma lxor_neg a b : Z.lxor a b < 0 ↔ (a < 0 ↔ 0 ≤ b).
Proof. pose proof (Z.lxor_nonneg a b). lia. Qed.

(** ** Sums over lists of integers *)
Fixpoint zsum (l : list Z) : Z :=
  match l with [] => 0 | x :: l' => x + zsum l' end.

Lemma zsum_app l k : zsum (l ++ k) = zsum l + zsum k.
Proof. induction l; simpl; lia. Qed.

Lemma zsum_perm l k : l ≡ₚ k → zsum l = zsum k.
Proof. induction 1; cbn; lia. Qed.

Lemma zsum_insert l i x y :
  l !! i = Some x → zsum (<[i:=y]> l) = zsum l - x + y.
Proof.
  revert i. induction l as [|a l IH]; intros [|i] H; simplify_eq/=; [lia|].
  rewrite (IH _ H). lia.
Qed.

Lemma zsum_nonneg l : Forall (λ x, 0 ≤ x) l → 0 ≤ zsum l.
Proof. induction 1; simpl; lia. Qed.

Lemma zsum_lookup_le l i x : Forall (λ x, 0 ≤ x) l → l !! i = Some x → x ≤ zsum l.
Proof.
  intros Hl. revert i. induction Hl as [|y l Hy Hl IH]; intros [|i] Hi; simplify_eq/=.
  - pose proof (zsum_nonneg l Hl). lia.
  - specialize (IH _ Hi). lia.
Qed.

Lemma zsum_nonzero l : zsum l ≠ 0 → ∃ i x, l !! i = Some x ∧ x ≠ 0.
Proof.
  induction l as [|y l IH]; simpl; [done|]. intros H.
  destruct (decide (y = 0)) as [->|]; [|by exists 0%nat, y].
  destruct IH as (i & x & ? & ?); [lia|]. by exists (S i), x.
Qed.

(** The sum of a measure over the values of a map. *)
Section MapSum.
Context {K V : Type} `{Countable K} (f : V → Z).

Definition msum (m : gmap K V) : Z := zsum (map (λ kv, f kv.2) (map_to_list m)).

Lemma msum_empty : msum ∅ = 0.
Proof. unfold msum. by rewrite map_to_list_empty. Qed.

Lemma msum_insert m k v : m !! k = None → msum (<[k := v]> m) = f v + msum m.
Proof. intros E. unfold msum. rewrite (zsum_perm _ (map (λ kv, f kv.2) ((k, v) :: map_to_list m))); [done|]. by rewrite map_to_list_insert. Qed.

Lemma msum_delete m k v : m !! k = Some v → msum (delete k m) = msum m - f v.
Proof. intros E. rewrite <- (insert_delete_id m k v) at 2 by done. rewrite msum_insert by apply lookup_delete_eq. lia. Qed.

Lemma msum_update m k v w : m !! k = Some w → msum (<[k := v]> m) = msum m - f w + f v.
Proof. intros E. rewrite <- insert_delete_eq, msum_insert by apply lookup_delete_eq. rewrite (msum_delete _ _ _ E). lia. Qed.

Lemma msum_nonneg m : (∀ v, 0 ≤ f v) → 0 ≤ msum m.
Proof. intros Hf. unfold msum. apply zsum_nonneg, Forall_map, Forall_forall. intros x _. apply Hf. Qed.

End MapSum.

Lemma zsum_map_mul {A} (f : A → Z) (l : list A) k : zsum (map (λ x, k * f x) l) = k * zsum (map f l).
Proof. induction l; simpl; lia. Qed.

(** ** Lists updated by index *)
Lemma list_alter_as_insert {A} (f : A → A) (l : list A) i x :
  l !! i = Some x → alter f i l = <[i := f x]> l.
Proof.
  revert i. induction l as [|a l IH]; intros [|i] H; simplify_eq/=; [done|].
  f_equal. by apply IH.
Qed.

(** ** Sorted lists *)

Lemma sorted_sublist {A} (R : A → A → Prop) (l k : list A) : sublist l k → StronglySorted R k → StronglySorted R l.
Proof.
  induction 1 as [|x l k Hs IH|x l k Hs IH]; intros Hk; [done| |]; apply StronglySorted_inv in Hk as [Hk Hx]; [|by apply IH].
  constructor; [by apply IH|]. rewrite Forall_forall in *. intros y Hy. apply Hx. eapply elem_of_submseteq; [exact Hy|by apply sublist_submseteq].
Qed.

Lemma sorted_lookup {A} (R : A → A → Prop) (l : list A) i j a b : StronglySorted R l →
  l !! i = Some a → l !! j = Some b → (i < j)%nat → R a b.
Proof.
  intros Hs. revert i j. induction Hs as [|x l _ IH Hx]; intros i j Hi Hj Hlt; [done|].
  destruct j as [|j]; [lia|]. destruct i as [|i]; cbn in Hi, Hj.
  - injection Hi as ->. rewrite Forall_forall in Hx. apply Hx. by eapply list_elem_of_lookup_2.
  - apply (IH i j); [done..|lia].
Qed.

(** ** [sort.Search]

    The smallest index in [0, n] whose test holds, by bisection: [i, j) is the
    range still open, and the range shrinks at every step, so fuel [n] is
    enough. *)
Fixpoint searchLoop (fuel : nat) (f : nat → bool) (i j : nat) : nat :=
  match fuel with
  | O => i
  | S fuel' =>
      if (i <? j)%nat then
        let h := ((i + j) / 2)%nat in
        if f h then searchLoop fuel' f i h else searchLoop fuel' f (S h) j
      else i
  end.

Definition sortSearch (n : nat) (f : nat → bool) : nat := searchLoop n f 0 n.

Lemma search_loop_spec fuel f i j : (i ≤ j)%nat → (j - i ≤ fuel)%nat →
  (∀ a b, (a ≤ b)%nat → f a = true → f b = true) →
  (∀ a, (a < i)%nat → f a = false) →
  let k := searchLoop fuel f i j in
  (i ≤ k ≤ j)%nat ∧ (∀ a, (a < k)%nat → f a = false) ∧ (k < j → ∀ a, (k ≤ a)%nat → f a = true)%nat.
Proof.
  revert i j. induction fuel as [|fuel IH]; intros i j Hij Hf Hmono Hlow; cbn [searchLoop].
  { split_and!; [lia|lia|done|lia]. }
  destruct (Nat.ltb_spec i j) as [Hlt|Hge]; [|split_and!; [lia|lia|done|lia]].
  assert (i ≤ (i + j) / 2 < j)%nat as Hh.
  { split; [apply Nat.div_le_lower_bound; lia|apply Nat.Div0.div_lt_upper_bound; lia]. }
  destruct (f ((i + j) / 2)%nat) eqn:E.
  - destruct (IH i ((i + j) / 2)%nat) as (H1 & H2 & H3); [lia|lia|done|done|].
    split_and!; [lia|lia|done|]. intros Hk a Ha. destruct (decide (searchLoop fuel f i ((i + j) / 2) < (i + j) / 2)%nat).
    + by apply H3.
    + apply (Hmono ((i + j) / 2)%nat); [lia|done].
  - destruct (IH (S ((i + j) / 2))%nat j) as (H1 & H2 & H3); [lia|lia|done| |].
    { intros a Ha. apply not_true_iff_false. intros Hfa. apply not_true_iff_false in E. apply E.
      apply (Hmono a); [lia|done]. }
    split_and!; [lia|lia|done|done].
Qed.

(** On a test that never falls back to false, [sort.Search] finds its first
    index, or [n]. *)
Lemma sort_search_spec n f : (∀ a b, (a ≤ b)%nat → f a = true → f b = true) →
  (sortSearch n f ≤ n)%nat ∧ (∀ a, (a < sortSearch n f)%nat → f a = false) ∧
  (∀ a, (sortSearch n f ≤ a < n)%nat → f a = true).
Proof.
  intros Hmono. destruct (search_loop_spec n f 0 n) as (H1 & H2 & H3); [lia|lia|done|lia|].
  unfold sortSearch. split_and!; [lia|done|]. intros a Ha. apply H3; lia.
Qed.
