(* ===== verification/Float64.v ===== *)
(** * Float64: the language's double-precision arithmetic

    Go's [float64] is IEEE 754 binary64, rounded to nearest, ties to even. The Standard
    Library specifies it bit by bit ([SpecFloat], a finite number as a sign, a mantissa
    and an exponent); this file fixes the width, names the operations the components use
    and proves when a sum is exact: numbers that are integers in one unit, a power of
    two, add and subtract without rounding while they stay below 2^53 units. *)

From Stdlib Require Import ZArith Lia SpecFloat.
From stdpp Require Import base numbers list.
From S2P Require Import Prelude.

Open Scope Z_scope.

Abbreviation float64 := spec_float.

#[export] Instance float64_eq_dec : EqDecision float64.
Proof. solve_decision. Defined.

Definition fzero : float64 := S754_zero false.
Definition fadd : float64 → float64 → float64 := SFadd 53 1024.
Definition fsub : float64 → float64 → float64 := SFsub 53 1024.
Definition fdiv : float64 → float64 → float64 := SFdiv 53 1024.
Definition fless : float64 → float64 → bool := SFltb.
Definition fneg : float64 → float64 := SFopp.
Definition IsNaN (x : float64) : bool := match x with S754_nan => true | _ => false end.
Definition IsInf (x : float64) : bool := match x with S754_infinity _ => true | _ => false end.

(** The float nearest to [z] units of [2 ^ e]; [float64(z)] is [fscale 0 z]. *)
Definition fscale (e z : Z) : float64 := binary_normalize 53 1024 z e false.

(** A finite float as a number of units of [2 ^ e], cut off below the unit. *)
Definition units (e : Z) (x : float64) : Z :=
  match x with
  | S754_finite s m e' => let n := Z.shiftl (Zpos m) (e' - e) in if s then - n else n
  | _ => 0
  end.

Definition exactIn (e : Z) (x : float64) : bool := bool_decide (x = fscale e (units e x)).

(** Units whose integers below 2^53 are all floats. *)
Definition unitRange (e : Z) : Prop := -1074 ≤ e ≤ 970.

(** ** Mantissas *)

Lemma digits_spec p : 2 ^ (Zpos (digits2_pos p) - 1) ≤ Zpos p < 2 ^ Zpos (digits2_pos p).
Proof.
  induction p as [p IH|p IH|]; cbn [digits2_pos]; [| |done]; rewrite Pos2Z.inj_succ;
    replace (Z.succ (Zpos (digits2_pos p)) - 1) with (Zpos (digits2_pos p)) by lia;
    rewrite Z.pow_succ_r by lia; replace (Zpos (digits2_pos p)) with (Z.succ (Zpos (digits2_pos p) - 1)) at 1 by lia;
    rewrite Z.pow_succ_r by lia; lia.
Qed.

Lemma digits_unique p d : 0 < d → 2 ^ (d - 1) ≤ Zpos p < 2 ^ d → Zpos (digits2_pos p) = d.
Proof.
  intros Hd [H1 H2]. pose proof (digits_spec p) as [H3 H4].
  assert (d - 1 < Zpos (digits2_pos p)) by (apply (Z.pow_lt_mono_r_iff 2); lia).
  assert (Zpos (digits2_pos p) - 1 < d) by (apply (Z.pow_lt_mono_r_iff 2); lia). lia.
Qed.

Lemma digits_scaled p q k : 0 ≤ k → Zpos q = Zpos p * 2 ^ k → Zpos (digits2_pos q) = Zpos (digits2_pos p) + k.
Proof.
  intros Hk E. pose proof (digits_spec p) as [H1 H2]. apply digits_unique; [lia|]. rewrite E.
  replace (Zpos (digits2_pos p) + k - 1) with (Zpos (digits2_pos p) - 1 + k) by lia. rewrite !Z.pow_add_r by lia.
  assert (0 < 2 ^ k) by (apply Z.pow_pos_nonneg; lia). nia.
Qed.

Lemma digits_small p : Zpos p < 2 ^ 53 → Zpos (digits2_pos p) ≤ 53.
Proof.
  intros Hp. pose proof (digits_spec p) as [H _]. enough (Zpos (digits2_pos p) - 1 < 53) by lia.
  apply (Z.pow_lt_mono_r_iff 2); lia.
Qed.

Lemma shift_left_pos (p d : positive) : Zpos (Pos.iter xO p d) = Zpos p * 2 ^ Zpos d.
Proof.
  induction d as [|d IH] using Pos.peano_ind; [cbn; lia|].
  rewrite Pos.iter_succ, Pos2Z.inj_succ, Z.pow_succ_r by lia. change (Zpos (Pos.iter xO p d)~0) with (2 * Zpos (Pos.iter xO p d)). lia.
Qed.

Lemma shl_align_spec m e e' : e' ≤ e → shl_align m e e' = (Z.to_pos (Zpos m * 2 ^ (e - e')), e').
Proof.
  intros Hle. unfold shl_align. destruct (e' - e) as [|p|p] eqn:E; [|lia|].
  - replace (e - e') with 0 by lia. rewrite Z.mul_1_r. by replace e with e' by lia.
  - replace (e - e') with (Zpos p) by lia. by rewrite <- shift_left_pos.
Qed.

Lemma shl_align_id m e e' : e ≤ e' → shl_align m e e' = (m, e).
Proof.
  intros Hle. destruct (Z.eq_dec e e') as [<-|]; [|unfold shl_align; by destruct (e' - e) eqn:E; [..|lia]].
  rewrite shl_align_spec by lia. rewrite Z.sub_diag, Z.mul_1_r. done.
Qed.

(** ** Rounding what needs no rounding *)

Lemma shift_right_one p : shr_1 {| shr_m := Zpos p~0; shr_r := false; shr_s := false |} = {| shr_m := Zpos p; shr_r := false; shr_s := false |}.
Proof. done. Qed.

Lemma iter_pos_iter {A} (f : A → A) n x : SpecFloat.iter_pos f n x = Pos.iter f x n.
Proof.
  revert x. induction n as [n IH|n IH|]; intros x; cbn [SpecFloat.iter_pos Pos.iter]; rewrite ?IH; [|done|done].
  by rewrite !Pos.iter_swap.
Qed.

Lemma shift_right_exact (n q p : positive) : Zpos q = Zpos p * 2 ^ Zpos n →
  SpecFloat.iter_pos shr_1 n {| shr_m := Zpos q; shr_r := false; shr_s := false |} = {| shr_m := Zpos p; shr_r := false; shr_s := false |}.
Proof.
  rewrite <- shift_left_pos. intros [= ->]. rewrite iter_pos_iter.
  induction n as [|n IH] using Pos.peano_ind; [done|]. rewrite (Pos.iter_succ _ _ xO), Pos.iter_succ_r. by rewrite shift_right_one.
Qed.

Abbreviation exponentOf m e := (fexp 53 1024 (Zpos (digits2_pos m) + e)).

Lemma exponent_of_scaled q p e k : 0 ≤ k → Zpos q = Zpos p * 2 ^ k → exponentOf q (e - k) = exponentOf p e.
Proof. intros Hk E. rewrite (digits_scaled p q k Hk E). f_equal. lia. Qed.

Lemma round_aux_exact s m e p : e ≤ exponentOf m e → exponentOf m e ≤ 971 → Zpos m = Zpos p * 2 ^ (exponentOf m e - e) →
  binary_round_aux 53 1024 s (Zpos m) e loc_Exact = S754_finite s p (exponentOf m e).
Proof.
  intros Hle Hmax E. assert (exponentOf p (exponentOf m e) = exponentOf m e) as Hp.
  { symmetry. replace e with (exponentOf m e - (exponentOf m e - e)) at 1 by lia. apply exponent_of_scaled; [lia|done]. }
  unfold binary_round_aux, shr_fexp. cbn [Zdigits2 shr_record_of_loc]. set (fe := exponentOf m e) in *.
  assert (shr {| shr_m := Zpos m; shr_r := false; shr_s := false |} e (fe - e) = ({| shr_m := Zpos p; shr_r := false; shr_s := false |}, fe)) as ->.
  { destruct (fe - e) as [|n|n] eqn:En; [|cbn [shr]|lia].
    - rewrite Z.mul_1_r in E. injection E as ->. cbn [shr]. f_equal. lia.
    - rewrite (shift_right_exact n m p E). f_equal. lia. }
  cbn [shr_m loc_of_shr_record round_nearest_even Zdigits2]. rewrite Hp, Z.sub_diag. cbn [shr shr_m].
  by rewrite (proj2 (Z.leb_le _ _)).
Qed.

Lemma round_exact s m e p : exponentOf m e ≤ 971 → Zpos m * 2 ^ Z.max 0 (e - exponentOf m e) = Zpos p * 2 ^ Z.max 0 (exponentOf m e - e) →
  binary_round 53 1024 s m e = S754_finite s p (exponentOf m e).
Proof.
  intros Hmax E. unfold binary_round. set (fe := exponentOf m e) in *. destruct (Z.le_gt_cases fe e) as [Hle|Hgt].
  - rewrite shl_align_spec by done. rewrite (Z.max_l 0 (fe - e)), Z.max_r, Z.mul_1_r in E by lia. rewrite E. cbn [Z.to_pos].
    assert (exponentOf p fe = fe) as Hp.
    { replace fe with (e - (e - fe)) at 1 by lia. rewrite (exponent_of_scaled p m e (e - fe)); [done|lia|done]. }
    rewrite <- Hp at 2. apply round_aux_exact; rewrite Hp; [lia|done|]. by rewrite Z.sub_diag, Z.mul_1_r.
  - rewrite shl_align_id by lia. rewrite (Z.max_l 0 (e - fe)), Z.mul_1_r, Z.max_r in E by lia. apply round_aux_exact; fold fe; [lia|done|done].
Qed.

(** ** Integers below 2^53 units *)

Lemma exponent_of_small z e : unitRange e → Zpos z < 2 ^ 53 → -1074 ≤ exponentOf z e ≤ e.
Proof. intros [] Hz%digits_small. unfold fexp, emin. lia. Qed.

Lemma round_scaled s z m e k : unitRange e → Zpos z < 2 ^ 53 → 0 ≤ k → Zpos m = Zpos z * 2 ^ k →
  binary_round 53 1024 s m (e - k) = S754_finite s (Z.to_pos (Zpos z * 2 ^ (e - exponentOf z e))) (exponentOf z e).
Proof.
  intros He Hz Hk E. pose proof (exponent_of_small z e He Hz) as Hfe. pose proof (exponent_of_scaled m z e k Hk E) as Hs.
  assert (0 < 2 ^ (e - exponentOf z e)) by (apply Z.pow_pos_nonneg; lia). destruct He. rewrite <- Hs at 2.
  apply round_exact; rewrite Hs; [lia|]. set (fe := exponentOf z e) in *. rewrite Z2Pos.id by lia. rewrite E, <- !Z.mul_assoc, <- !Z.pow_add_r by lia.
  do 2 f_equal. lia.
Qed.

Lemma normalize_scaled z e k b : unitRange e → Z.abs z < 2 ^ 53 → 0 ≤ k → z ≠ 0 → binary_normalize 53 1024 (z * 2 ^ k) (e - k) b = fscale e z.
Proof.
  intros He Hz Hk Hn. unfold fscale, binary_normalize. assert (0 < 2 ^ k) by (apply Z.pow_pos_nonneg; lia).
  destruct z as [|z|z]; [done| |].
  - destruct (Zpos z * 2 ^ k) as [|m|m] eqn:E; [lia| |lia]. rewrite (round_scaled false z m e k) by (done || lia).
    pose proof (round_scaled false z z e 0) as H0. rewrite Z.sub_0_r in H0. by rewrite H0 by (done || lia).
  - destruct (Zneg z * 2 ^ k) as [|m|m] eqn:E; [lia|lia|]. rewrite (round_scaled true z m e k) by (done || lia).
    pose proof (round_scaled true z z e 0) as H0. rewrite Z.sub_0_r in H0. by rewrite H0 by (done || lia).
Qed.

(** A number that is not zero, as a float: sign, mantissa and exponent. *)
Lemma fscale_finite e z : unitRange e → Z.abs z < 2 ^ 53 → z ≠ 0 →
  ∃ m e', fscale e z = S754_finite (z <? 0) m e' ∧ e' ≤ e ∧ cond_Zopp (z <? 0) (Zpos m) = z * 2 ^ (e - e').
Proof.
  intros He Hz Hn. unfold fscale, binary_normalize. destruct z as [|z|z]; [done| |];
    pose proof (exponent_of_small z e He ltac:(lia)) as Hfe; assert (0 < 2 ^ (e - exponentOf z e)) by (apply Z.pow_pos_nonneg; lia);
    (eexists _, _; split; [|split; [apply Hfe|]]).
  1, 3: match goal with |- binary_round _ _ ?s _ _ = _ => pose proof (round_scaled s z z e 0) as H0 end;
    rewrite Z.sub_0_r in H0; rewrite H0 by (done || lia); reflexivity.
  all: cbn [Z.ltb Z.compare cond_Zopp]; rewrite Z2Pos.id by lia; lia.
Qed.

Lemma fscale_zero e : fscale e 0 = fzero.
Proof. done. Qed.

Lemma fscale_not_zero e z : unitRange e → Z.abs z < 2 ^ 53 → fscale e z = fzero → z = 0.
Proof. intros He Hz E. destruct (Z.eq_dec z 0) as [|Hn]; [done|]. by destruct (fscale_finite e z He Hz Hn) as (m & e' & E' & _); rewrite E in E'. Qed.

Lemma fscale_neg e z : unitRange e → Z.abs z < 2 ^ 53 → z ≠ 0 → fscale e (- z) = fneg (fscale e z).
Proof.
  intros He Hz Hn. unfold fscale, binary_normalize. destruct z as [|z|z]; [done| |]; unfold Z.opp;
    pose proof (round_scaled true z z e 0) as H1; pose proof (round_scaled false z z e 0) as H2; rewrite Z.sub_0_r in H1, H2;
    cbv beta iota; by rewrite H1, H2 by (done || lia).
Qed.

(** Both mantissas at a common exponent. *)
Lemma aligned e z b m e' ez : ez ≤ e' → e' ≤ e → cond_Zopp b (Zpos m) = z * 2 ^ (e - e') →
  cond_Zopp b (Zpos (fst (shl_align m e' ez))) = z * 2 ^ (e - ez).
Proof.
  intros H1 H2 E. rewrite shl_align_spec by done. cbn [fst]. assert (0 < 2 ^ (e' - ez)) by (apply Z.pow_pos_nonneg; lia).
  rewrite Z2Pos.id by lia. replace (e - ez) with ((e - e') + (e' - ez)) by lia. rewrite Z.pow_add_r, Z.mul_assoc, <- E by lia.
  destruct b; cbn [cond_Zopp]; lia.
Qed.

(** An aligned sum is rounded at most where it is not exact. *)
Lemma sum_at e s b e1 : unitRange e → Z.abs s < 2 ^ 53 → e1 ≤ e → binary_normalize 53 1024 (s * 2 ^ (e - e1)) e1 b = if s =? 0 then S754_zero b else fscale e s.
Proof.
  intros He Hs Hle. destruct (Z.eqb_spec s 0) as [->|Hn]; [done|]. replace e1 with (e - (e - e1)) at 2 by lia. apply normalize_scaled; [done|done|lia|done].
Qed.

Lemma fadd_exact e x y : unitRange e → Z.abs x < 2 ^ 53 → Z.abs y < 2 ^ 53 → Z.abs (x + y) < 2 ^ 53 →
  fadd (fscale e x) (fscale e y) = fscale e (x + y).
Proof.
  intros He Hx Hy Hs. destruct (Z.eq_dec x 0) as [->|Nx].
  { rewrite fscale_zero, Z.add_0_l. destruct (Z.eq_dec y 0) as [->|Ny]; [done|]. by destruct (fscale_finite e y He Hy Ny) as (m & e' & -> & _). }
  destruct (fscale_finite e x He Hx Nx) as (m & e1 & E1 & L1 & M1). destruct (Z.eq_dec y 0) as [->|Ny]; [rewrite fscale_zero, Z.add_0_r; by rewrite E1|].
  destruct (fscale_finite e y He Hy Ny) as (n & e2 & E2 & L2 & M2). rewrite E1, E2. unfold fadd, SFadd.
  rewrite (aligned e x _ m e1), (aligned e y _ n e2), <- Z.mul_add_distr_r, sum_at by (done || lia).
  by destruct (Z.eqb_spec (x + y) 0) as [->|].
Qed.

Lemma fsub_exact e x y : unitRange e → Z.abs x < 2 ^ 53 → Z.abs y < 2 ^ 53 → Z.abs (x - y) < 2 ^ 53 →
  fsub (fscale e x) (fscale e y) = fscale e (x - y).
Proof.
  intros He Hx Hy Hs. destruct (Z.eq_dec y 0) as [->|Ny].
  { rewrite fscale_zero, Z.sub_0_r. destruct (Z.eq_dec x 0) as [->|Nx]; [done|]. by destruct (fscale_finite e x He Hx Nx) as (m & e' & -> & _). }
  destruct (Z.eq_dec x 0) as [->|Nx].
  { rewrite fscale_zero, Z.sub_0_l, fscale_neg by done. by destruct (fscale_finite e y He Hy Ny) as (n & e2 & -> & _). }
  destruct (fscale_finite e x He Hx Nx) as (m & e1 & E1 & L1 & M1). destruct (fscale_finite e y He Hy Ny) as (n & e2 & E2 & L2 & M2). rewrite E1, E2. unfold fsub, SFsub.
  rewrite (aligned e x _ m e1), (aligned e y _ n e2), <- Z.mul_sub_distr_r, sum_at by (done || lia).
  by destruct (Z.eqb_spec (x - y) 0) as [->|].
Qed.

(** Adding integers below 2^53 units, one by one from the left, is exact, so the order of
    the list does not matter. *)
Definition fsum (l : list float64) : float64 := foldl fadd fzero l.

Lemma fsum_from e l : unitRange e → forallb (exactIn e) l = true → ∀ z, Z.abs z + zsum (map (λ x, Z.abs (units e x)) l) < 2 ^ 53 →
  foldl fadd (fscale e z) l = fscale e (z + zsum (map (units e) l)).
Proof.
  intros He. induction l as [|x l IH]; intros Hl z Hz; cbn [foldl map zsum forallb] in *; [by rewrite Z.add_0_r|].
  apply andb_true_iff in Hl as [Hx%bool_decide_eq_true Hl]. assert (0 ≤ zsum (map (λ x, Z.abs (units e x)) l)) by (apply zsum_nonneg, Forall_map, Forall_forall; intros; lia).
  rewrite Hx at 1. rewrite fadd_exact, IH by (done || lia). f_equal. lia.
Qed.

Lemma fsum_exact e l : unitRange e → forallb (exactIn e) l = true → zsum (map (λ x, Z.abs (units e x)) l) < 2 ^ 53 →
  fsum l = fscale e (zsum (map (units e) l)).
Proof. intros He Hl Hz. unfold fsum. rewrite <- (fscale_zero e), fsum_from by (done || lia). done. Qed.

(** ** Order *)

Definition magnitudeLt (x y : positive * Z) : Prop := x.2 < y.2 ∨ (x.2 = y.2 ∧ Zpos x.1 < Zpos y.1).

Lemma fless_spec x y : fless x y = true ↔
  match x, y with
  | S754_nan, _ | _, S754_nan => False
  | S754_infinity s, S754_infinity t => s = true ∧ t = false
  | S754_infinity s, _ => s = true
  | _, S754_infinity t => t = false
  | S754_finite s _ _, S754_zero _ => s = true
  | S754_zero _, S754_finite t _ _ => t = false
  | S754_zero _, S754_zero _ => False
  | S754_finite s m e, S754_finite t n f =>
      (s = true ∧ t = false) ∨ (s = false ∧ t = false ∧ magnitudeLt (m, e) (n, f)) ∨ (s = true ∧ t = true ∧ magnitudeLt (n, f) (m, e))
  end.
Proof.
  unfold fless, SFltb, magnitudeLt. destruct x as [[]|[]| |[] m e], y as [[]|[]| |[] n f]; cbn -[Pos.compare_cont]; try solve [intuition discriminate];
    change (Pos.compare_cont Eq m n) with (Pos.compare m n);
    (destruct (Z.compare_spec e f); [destruct (Pos.compare_spec m n)|..]); cbn; intuition (discriminate || lia).
Qed.

Lemma fless_trans x y z : fless x y = true → fless y z = true → fless x z = true.
Proof.
  rewrite !fless_spec. destruct x as [s|s| |s m e], y as [t|t| |t n f], z as [u|u| |u p g]; try done; unfold magnitudeLt; cbn [fst snd]; naive_solver lia.
Qed.

Lemma fless_irrefl x : fless x x = false.
Proof. apply not_true_is_false. rewrite fless_spec. destruct x as [[]|[]| |[] m e]; unfold magnitudeLt; cbn [fst snd]; naive_solver lia. Qed.
