(* ===== verification/Words.v ===== *)
(** * Words: vectors packed in 64-bit words

    Shared by the truth tables of the policy analysis and the bitmaps of the
    columnar engine: bits of uint64 words, population counts, and the reading
    of a word list as one bit vector. *)

From Stdlib Require Import ZArith Lia.
From stdpp Require Import base sets numbers list.
From S2P Require Import Prelude.

Lemma land_63 a : 0 ≤ a → Z.land a 63 = a mod 64.
Proof. intros. change 63 with (Z.ones 6). by rewrite Z.land_ones. Qed.

Lemma shiftr_6 a : Z.shiftr a 6 = a / 64.
Proof. by rewrite Z.shiftr_div_pow2. Qed.

Lemma land_1_eqb z : (Z.land z 1 =? 1) = Z.testbit z 0.
Proof.
  change 1 with (Z.ones 1) at 1. rewrite Z.land_ones, Z.bit0_odd by done.
  change (2 ^ 1) with 2. rewrite Zmod_odd. by destruct (Z.odd z).
Qed.

Lemma in_u64_testbit w i : in_u64 w → 64 ≤ i → Z.testbit w i = false.
Proof.
  intros Hw Hi. destruct (decide (w = 0)) as [->|]; [apply Z.bits_0|].
  apply Z.bits_above_log2; [zrange|].
  assert (Z.log2 w < 64); [|lia]. apply Z.log2_lt_pow2; unfold in_u64 in *; lia.
Qed.

(** Words with no bit at or above 64 are uint64. *)
Lemma in_u64_intro w : 0 ≤ w → (∀ i, 64 ≤ i → Z.testbit w i = false) → in_u64 w.
Proof.
  intros H0 H. split; [done|]. destruct (decide (w = 0)) as [->|]; [done|].
  apply Z.log2_lt_pow2; [lia|]. destruct (Z.lt_ge_cases (Z.log2 w) 64) as [|Hge]; [done|].
  specialize (H _ Hge). rewrite Z.bit_log2 in H by lia. done.
Qed.

Lemma in_u64_lor a b : in_u64 a → in_u64 b → in_u64 (Z.lor a b).
Proof.
  intros Ha Hb. apply in_u64_intro; [apply Z.lor_nonneg; unfold in_u64 in *; lia|].
  intros i Hi. by rewrite Z.lor_spec, !in_u64_testbit.
Qed.

Lemma in_u64_land a b : in_u64 a → in_u64 b → in_u64 (Z.land a b).
Proof.
  intros Ha Hb. apply in_u64_intro; [apply Z.land_nonneg; unfold in_u64 in *; lia|].
  intros i Hi. by rewrite Z.land_spec, !in_u64_testbit.
Qed.

Lemma in_u64_ldiff a b : in_u64 a → in_u64 b → in_u64 (Z.ldiff a b).
Proof.
  intros Ha Hb. apply in_u64_intro; [apply Z.ldiff_nonneg; unfold in_u64 in *; lia|].
  intros i Hi. by rewrite Z.ldiff_spec, (in_u64_testbit a).
Qed.

Lemma in_u64_bit b : 0 ≤ b < 64 → in_u64 (Z.shiftl 1 b).
Proof.
  intros Hb. rewrite Z.shiftl_1_l. split; [lia|]. by apply Z.pow_lt_mono_r; lia.
Qed.

(** [bits.OnesCount64] *)
Definition onesCount64 (w : Z) : Z :=
  Z.of_nat (length (filter (λ i, Z.testbit w (Z.of_nat i) = true) (seq 0 64))).

(** Bit [a] of a word list; false past its end. *)
Definition getWord (ws : list Z) (a : nat) : bool :=
  match ws !! (a / 64)%nat with None => false | Some w => Z.testbit w (Z.of_nat (a mod 64)) end.

Lemma filter_length_ext {A} (P Q : A → bool) l : (∀ x, x ∈ l → P x = Q x) →
  length (filter (λ x, P x = true) l) = length (filter (λ x, Q x = true) l).
Proof.
  intros H. f_equal. induction l as [|x l IH]; [done|]. rewrite !filter_cons.
  rewrite (H x) by set_solver. rewrite IH by (intros; apply H; set_solver). done.
Qed.

Lemma filter_length_fmap {A B} (f : A → B) (P : B → bool) l :
  length (filter (λ y, P y = true) (f <$> l)) = length (filter (λ x, P (f x) = true) l).
Proof.
  induction l as [|x l IH]; [done|]. rewrite fmap_cons, !filter_cons.
  destruct (decide (P (f x) = true)); cbn; [by f_equal|done].
Qed.

Lemma ones_count_words ws :
  zsum (map onesCount64 ws) =
  Z.of_nat (length (filter (λ a, getWord ws a = true) (seq 0 (64 * length ws)))).
Proof.
  induction ws as [|w ws IH] using rev_ind; [done|].
  rewrite map_app, zsum_app, IH, length_app. cbn [map zsum length].
  replace (64 * (length ws + 1))%nat with (64 * length ws + 64)%nat by lia.
  rewrite seq_app, filter_app, length_app, Nat2Z.inj_add, Z.add_0_r. f_equal.
  - f_equal. apply filter_length_ext. intros a Ha%elem_of_seq. unfold getWord.
    rewrite lookup_app_l; [done|]. apply Nat.Div0.div_lt_upper_bound. lia.
  - unfold onesCount64. f_equal.
    rewrite Nat.add_0_l. rewrite <- (Nat.add_0_r (64 * length ws)) at 1.
    rewrite <- fmap_add_seq, (filter_length_fmap _ (getWord (ws ++ [w]))).
    apply filter_length_ext. intros i Hi%elem_of_seq. unfold getWord.
    replace (64 * length ws + i)%nat with (i + length ws * 64)%nat by lia.
    rewrite Nat.div_add, Nat.Div0.mod_add, Nat.div_small, Nat.mod_small by lia.
    by rewrite Nat.add_0_l, list_lookup_middle.
Qed.


Create HintDb words.
#[export] Hint Resolve in_u64_lor in_u64_land in_u64_ldiff in_u64_bit : words.
