(* ===== verification/GoStrings.v ===== *)
(** * GoStrings: Go strings and the functions of package [strings] the code uses

    A Go string is a byte sequence, here a [string] of 8-bit characters.
    Indices are byte offsets, comparison is bytewise. *)

From Stdlib Require Import ZArith Lia Ascii String.
From stdpp Require Import base list strings pretty.
From S2P Require Import Prelude.

Open Scope string_scope.

(** [strings.HasPrefix(s, p)] *)
Fixpoint HasPrefix (s p : string) : bool :=
  match p, s with
  | EmptyString, _ => true
  | String c p', String d s' => Ascii.eqb c d && HasPrefix s' p'
  | String _ _, EmptyString => false
  end.

(** [strings.HasSuffix(s, suf)] *)
Fixpoint HasSuffix (s suf : string) : bool :=
  String.eqb s suf ||
  match s with EmptyString => false | String _ s' => HasSuffix s' suf end.

(** [strings.TrimSuffix(s, suf)] *)
Definition TrimSuffix (s suf : string) : string :=
  if HasSuffix s suf then String.substring 0 (String.length s - String.length suf) s else s.

(** [strings.Contains(s, p)] *)
Fixpoint Contains (s p : string) : bool :=
  HasPrefix s p || match s with EmptyString => false | String _ s' => Contains s' p end.

(** [strings.Split(s, sep)] for a one-byte separator: never empty. *)
Fixpoint Split (sep : ascii) (s : string) : list string :=
  match s with
  | EmptyString => [""]
  | String c s' =>
      if Ascii.eqb c sep then "" :: Split sep s'
      else match Split sep s' with
           | w :: ws => String c w :: ws
           | [] => [String c ""]
           end
  end.

(** [strings.Join(l, sep)] *)
Fixpoint Join (sep : string) (l : list string) : string :=
  match l with
  | [] => ""
  | [x] => x
  | x :: l' => x +:+ sep +:+ Join sep l'
  end.

(** [strings.ToLower] on ASCII letters. *)
Definition toLowerASCII (c : ascii) : ascii :=
  let n := nat_of_ascii c in
  if (65 <=? n)%nat && (n <=? 90)%nat then ascii_of_nat (n + 32) else c.

Fixpoint ToLower (s : string) : string :=
  match s with EmptyString => "" | String c s' => String (toLowerASCII c) (ToLower s') end.

(** [strings.EqualFold(s, t)] for an ASCII [t] without the letters k and s
    (the only ones with non-ASCII case variants). *)
Definition EqualFold (s t : string) : bool := String.eqb (ToLower s) (ToLower t).

(** [strings.Cut(s, sep)] for a one-byte separator; [None] when not found. *)
Fixpoint Cut (sep : ascii) (s : string) : option (string * string) :=
  match s with
  | EmptyString => None
  | String c s' =>
      if Ascii.eqb c sep then Some ("", s')
      else match Cut sep s' with
           | Some (before, after) => Some (String c before, after)
           | None => None
           end
  end.

(** ** [strings.TrimSpace]

    Go trims the runes of Unicode's White_Space property.  In UTF-8 these are
    the bytes 09-0D and 20, the pairs C2 85 and C2 A0, and the triples E1 9A
    80, E2 80 80-8A, E2 80 A8, E2 80 A9, E2 80 AF, E2 81 9F and E3 80 80. *)
Definition byteIn (c : ascii) (lo hi : nat) : bool :=
  (lo <=? nat_of_ascii c)%nat && (nat_of_ascii c <=? hi)%nat.
Definition byteIs (c : ascii) (b : nat) : bool := (nat_of_ascii c =? b)%nat.

Definition space1 (c : ascii) : bool := byteIn c 9 13 || byteIs c 32.
Definition space2 (c d : ascii) : bool := byteIs c 194 && (byteIs d 133 || byteIs d 160).
Definition space3 (c d e : ascii) : bool :=
  (byteIs c 225 && byteIs d 154 && byteIs e 128)
  || (byteIs c 226 && byteIs d 128
      && (byteIn e 128 138 || byteIs e 168 || byteIs e 169 || byteIs e 175))
  || (byteIs c 226 && byteIs d 129 && byteIs e 159)
  || (byteIs c 227 && byteIs d 128 && byteIs e 128).

(** Drop the white-space tokens at the head of a byte list. *)
Fixpoint trimBy (p1 : ascii → bool) (p2 : ascii → ascii → bool) (p3 : ascii → ascii → ascii → bool)
    (l : list ascii) : list ascii :=
  match l with
  | [] => []
  | c :: l1 =>
      if p1 c then trimBy p1 p2 p3 l1
      else match l1 with
           | [] => l
           | d :: l2 =>
               if p2 c d then trimBy p1 p2 p3 l2
               else match l2 with
                    | [] => l
                    | e :: l3 => if p3 c d e then trimBy p1 p2 p3 l3 else l
                    end
           end
  end.

Definition trimLeft : list ascii → list ascii := trimBy space1 space2 space3.
Definition trimRight (l : list ascii) : list ascii :=
  reverse (trimBy space1 (λ c d, space2 d c) (λ c d e, space3 e d c) (reverse l)).

Definition TrimSpace (s : string) : string :=
  string_of_list_ascii (trimRight (trimLeft (list_ascii_of_string s))).
#[global] Arguments TrimSpace _ : simpl never.

(** ** Lemmas *)

Lemma append_cons c (s t : string) : String c s +:+ t = String c (s +:+ t).
Proof. done. Qed.

Lemma append_empty_l (t : string) : "" +:+ t = t.
Proof. done. Qed.

Ltac str_simpl := repeat (rewrite append_cons || rewrite append_empty_l); cbn [String.length].

Lemma append_nil_r (s : string) : s +:+ "" = s.
Proof. induction s as [|c s IH]; str_simpl; [done|by rewrite IH]. Qed.

Lemma append_assoc (a b c : string) : (a +:+ b) +:+ c = a +:+ (b +:+ c).
Proof. induction a as [|x a IH]; str_simpl; [done|by rewrite IH]. Qed.

Lemma length_append (a b : string) :
  String.length (a +:+ b) = (String.length a + String.length b)%nat.
Proof. induction a as [|x a IH]; str_simpl; [done|by rewrite IH]. Qed.

Lemma append_inj_l (a b c : string) : a +:+ b = a +:+ c → b = c.
Proof. induction a as [|x a IH]; [done|]. rewrite !append_cons. intros [= H]. by apply IH. Qed.

Lemma append_inj_length (a b c d : string) :
  String.length a = String.length c → a +:+ b = c +:+ d → a = c ∧ b = d.
Proof.
  revert c. induction a as [|x a IH]; intros [|y c] Hl H; try done. rewrite !append_cons in H.
  injection Hl as Hl. injection H as -> H. destruct (IH c Hl H) as [-> ->]. done.
Qed.

Lemma has_prefix_spec (s p : string) : HasPrefix s p = true ↔ ∃ r, s = p +:+ r.
Proof.
  revert s. induction p as [|c p IH]; intros s.
  - split; [by exists s|by destruct s].
  - destruct s as [|d s]; [split; [done|by intros [? ?]]|]. cbn [HasPrefix].
    rewrite andb_true_iff, Ascii.eqb_eq, IH. split.
    + intros [-> [r ->]]. by exists r.
    + intros [r Hr]. rewrite append_cons in Hr. injection Hr as -> ->. split; [done|by exists r].
Qed.

Lemma has_suffix_spec (s suf : string) : HasSuffix s suf = true ↔ ∃ p, s = p +:+ suf.
Proof.
  induction s as [|c s IH]; cbn [HasSuffix]; rewrite orb_true_iff, String.eqb_eq.
  - split; [intros [<-|]; [by exists ""|done]|]. intros [[|] Hp]; [by left|done].
  - rewrite IH. split.
    + intros [<-|[p ->]]; [by exists ""|by exists (String c p)].
    + intros [[|d p] Hp]; [by left|]. rewrite append_cons in Hp. injection Hp as -> ->.
      right. by exists p.
Qed.

Lemma substring_all (s : string) : String.substring 0 (String.length s) s = s.
Proof. induction s as [|c s IH]; simpl; [done|by rewrite IH]. Qed.

Lemma substring_prefix (p r : string) : String.substring 0 (String.length p) (p +:+ r) = p.
Proof. induction p as [|c p IH]; [by destruct r|]. rewrite append_cons. simpl. by rewrite IH. Qed.

Lemma trim_suffix_app (p suf : string) : TrimSuffix (p +:+ suf) suf = p.
Proof.
  unfold TrimSuffix. rewrite (proj2 (has_suffix_spec _ _)) by (by exists p).
  rewrite length_append.
  replace (String.length p + String.length suf - String.length suf)%nat with (String.length p) by lia.
  apply substring_prefix.
Qed.

Lemma split_nonempty sep s : Split sep s ≠ [].
Proof. destruct s; simpl; [done|]. destruct (Ascii.eqb _ _); [done|]. by destruct (Split sep s). Qed.

(** ** Order

    Go compares strings bytewise; [slt] is its strict order. *)
Definition slt (a b : string) : Prop := String.le a b ∧ a ≠ b.

Lemma ltb_slt a b : String.ltb a b = true ↔ slt a b.
Proof.
  unfold slt, String.le, String.leb, String.ltb. destruct (String.compare a b) eqn:E.
  - apply String.compare_eq_iff in E as ->. split; [done|]. by intros [_ ?].
  - split; [|done]. intros _. split; [done|]. intros ->.
    pose proof (String.compare_antisym b b) as Ha. rewrite E in Ha. done.
  - split; [done|]. by intros [? _].
Qed.

Lemma leb_le a b : String.leb a b = true ↔ String.le a b.
Proof. unfold String.le. destruct (String.leb a b); done. Qed.

Lemma slt_trans a b c : slt a b → slt b c → slt a c.
Proof.
  intros [H1 N1] [H2 N2]. split; [by etrans|]. intros ->. apply N1. by apply (anti_symm String.le).
Qed.

Lemma slt_irrefl a : ¬ slt a a.
Proof. by intros [_ ?]. Qed.

Lemma slt_total a b : slt a b ∨ a = b ∨ slt b a.
Proof.
  destruct (decide (a = b)) as [->|Hne]; [by right; left|].
  destruct (total String.le a b); [left|right; right]; split; done.
Qed.

Lemma ltb_not_le a b : String.ltb a b = false ↔ String.le b a.
Proof.
  rewrite <- not_true_iff_false, ltb_slt. split.
  - intros H. destruct (slt_total a b) as [?|[->|[? _]]]; [done|reflexivity|done].
  - intros H [H1 H2]. apply H2. by apply (anti_symm String.le).
Qed.

(** ** Trimming twice trims once *)

Section Trim.
Context (p1 : ascii → bool) (p2 : ascii → ascii → bool) (p3 : ascii → ascii → ascii → bool).

(** No white-space token at the head. *)
Definition noToken (l : list ascii) : Prop :=
  match l with
  | [] => True
  | c :: l1 =>
      p1 c = false ∧
      match l1 with
      | [] => True
      | d :: l2 => p2 c d = false ∧ match l2 with [] => True | e :: _ => p3 c d e = false end
      end
  end.

Lemma trim_by_no_token l : noToken (trimBy p1 p2 p3 l).
Proof.
  remember (length l) as n eqn:Hn. revert l Hn. induction n as [n IH] using lt_wf_ind. intros l ->.
  destruct l as [|c l1]; [done|]. cbn [trimBy].
  destruct (p1 c) eqn:E1; [eapply IH; [|reflexivity]; simpl; lia|].
  destruct l1 as [|d l2]; [done|].
  destruct (p2 c d) eqn:E2; [eapply IH; [|reflexivity]; simpl; lia|].
  destruct l2 as [|e l3]; [done|].
  destruct (p3 c d e) eqn:E3; [eapply IH; [|reflexivity]; simpl; lia|]. done.
Qed.

Lemma trim_by_id l : noToken l → trimBy p1 p2 p3 l = l.
Proof.
  destruct l as [|c [|d [|e l]]]; cbn; [done|by intros [-> _]| |].
  - by intros (-> & -> & _).
  - by intros (-> & -> & ->).
Qed.

Lemma trim_by_suffix l : trimBy p1 p2 p3 l `suffix_of` l.
Proof.
  remember (length l) as n eqn:Hn. revert l Hn. induction n as [n IH] using lt_wf_ind. intros l ->.
  destruct l as [|c l1]; [done|]. cbn [trimBy].
  destruct (p1 c) eqn:E1; [apply suffix_cons_r; eapply IH; [|reflexivity]; simpl; lia|].
  destruct l1 as [|d l2]; [done|].
  destruct (p2 c d) eqn:E2; [do 2 apply suffix_cons_r; eapply IH; [|reflexivity]; simpl; lia|].
  destruct l2 as [|e l3]; [done|].
  destruct (p3 c d e) eqn:E3; [do 3 apply suffix_cons_r; eapply IH; [|reflexivity]; simpl; lia|]. done.
Qed.

Lemma no_token_prefix l k : l `prefix_of` k → noToken k → noToken l.
Proof.
  intros [r ->]. destruct l as [|c [|d [|e l]]]; cbn; [done| | |done].
  - destruct r; naive_solver.
  - destruct r; naive_solver.
Qed.

End Trim.

Lemma trim_right_prefix l : trimRight l `prefix_of` l.
Proof.
  unfold trimRight. rewrite <- (reverse_involutive l) at 2. apply suffix_prefix_reverse.
  apply trim_by_suffix.
Qed.

Lemma trim_space_idemp s : TrimSpace (TrimSpace s) = TrimSpace s.
Proof.
  unfold TrimSpace. rewrite list_ascii_of_string_of_list_ascii.
  set (l := trimLeft (list_ascii_of_string s)). f_equal.
  assert (trimLeft (trimRight l) = trimRight l) as ->.
  { apply trim_by_id. eapply no_token_prefix; [apply trim_right_prefix|]. apply trim_by_no_token. }
  unfold trimRight. rewrite reverse_involutive. f_equal. apply trim_by_id, trim_by_no_token.
Qed.

(** ** Prefixes and hexadecimal text *)

(** [strings.TrimPrefix(s, p)] *)
Definition TrimPrefix (s p : string) : string :=
  if HasPrefix s p then String.substring (String.length p) (String.length s - String.length p) s else s.

Lemma has_prefix_app (p r : string) : HasPrefix (p +:+ r) p = true.
Proof. apply has_prefix_spec. by exists r. Qed.

Lemma has_prefix_app_l (a b p : string) : HasPrefix (a +:+ b) (a +:+ p) = HasPrefix b p.
Proof.
  induction a as [|c a IH]; [by rewrite !append_empty_l|].
  rewrite !append_cons. cbn [HasPrefix]. by rewrite Ascii.eqb_refl, IH.
Qed.

Lemma substring_skip (p r : string) n :
  String.substring (String.length p) n (p +:+ r) = String.substring 0 n r.
Proof. induction p as [|c p IH]; [done|]. rewrite append_cons. cbn. exact IH. Qed.

Lemma trim_prefix_app (p r : string) : TrimPrefix (p +:+ r) p = r.
Proof.
  unfold TrimPrefix. rewrite has_prefix_app, substring_skip, length_append.
  replace (String.length p + String.length r - String.length p)%nat with (String.length r) by lia.
  apply substring_all.
Qed.

(** [hex.EncodeToString]: two lower-case digits per byte. *)
Definition hexDigit (n : nat) : ascii :=
  ascii_of_nat (if (n <? 10)%nat then 48 + n else 87 + n).

Fixpoint hexEncode (s : string) : string :=
  match s with
  | EmptyString => ""
  | String c s' =>
      String (hexDigit (nat_of_ascii c / 16)) (String (hexDigit (nat_of_ascii c mod 16)) (hexEncode s'))
  end.

(** [hex.DecodeString]: both letter cases, [None] for its errors (a byte that
    is no digit, an odd number of digits). *)
Definition hexValue (c : ascii) : option nat :=
  if byteIn c 48 57 then Some (nat_of_ascii c - 48)%nat
  else if byteIn c 97 102 then Some (nat_of_ascii c - 87)%nat
  else if byteIn c 65 70 then Some (nat_of_ascii c - 55)%nat
  else None.

Fixpoint hexDecode (s : string) : option string :=
  match s with
  | EmptyString => Some ""
  | String _ EmptyString => None
  | String a (String b s') =>
      match hexValue a, hexValue b, hexDecode s' with
      | Some x, Some y, Some t => Some (String (ascii_of_nat (16 * x + y)) t)
      | _, _, _ => None
      end
  end.

Lemma hex_digit_value n : (n < 16)%nat → hexValue (hexDigit n) = Some n.
Proof. intros H. do 16 (destruct n as [|n]; [done|]). lia. Qed.

(** A text without white space or bytes above 127 is left as it is. *)
Definition plainText (s : string) : Prop := Forall (λ c, byteIn c 33 127 = true) (list_ascii_of_string s).

Lemma trim_space_plain s : plainText s → TrimSpace s = s.
Proof.
  unfold plainText, TrimSpace. intros H. rewrite <- (string_of_list_ascii_of_string s) at 2. f_equal.
  assert (∀ c, byteIn c 33 127 = true → space1 c = false ∧ byteIs c 194 = false ∧ byteIs c 225 = false ∧ byteIs c 226 = false ∧ byteIs c 227 = false) as Hc.
  { intros c. unfold space1, byteIn, byteIs. rewrite andb_true_iff, !Nat.leb_le. intros [? ?]. rewrite orb_false_iff, andb_false_iff, !Nat.leb_gt, !Nat.eqb_neq. lia. }
  assert (∀ l, Forall (λ c, byteIn c 33 127 = true) l → trimLeft l = l) as Hl.
  { intros l Hf. apply trim_by_id. destruct Hf as [|c l1 C [|d l2 D [|e l3 F Hf]]]; cbn; [done|by destruct (Hc c C)|..];
      destruct (Hc c C) as (-> & E1 & E2 & E3 & E4); unfold space2, space3; rewrite ?E1, ?E2, ?E3, ?E4; done. }
  assert (∀ l, Forall (λ c, byteIn c 33 127 = true) l → trimRight l = l) as Hr.
  { intros l Hf. unfold trimRight. rewrite trim_by_id; [apply reverse_involutive|]. apply Forall_reverse in Hf.
    destruct Hf as [|c l1 C [|d l2 D [|e l3 F Hf]]]; cbn; [done|by destruct (Hc c C)| |]; destruct (Hc c C) as (-> & _), (Hc d D) as (_ & E1 & _); 
      unfold space2, space3; rewrite ?E1; [done|]. destruct (Hc e F) as (_ & _ & E2 & E3 & E4). by rewrite ?E2, ?E3, ?E4. }
  rewrite Hl by done. by apply Hr.
Qed.

Lemma plain_append a b : plainText a → plainText b → plainText (a +:+ b).
Proof. unfold plainText. intros Ha Hb. induction a as [|c a IH]; [done|]. rewrite append_cons. cbn. inversion Ha; subst. constructor; [done|by apply IH]. Qed.

Lemma plain_substring s : ∀ i n, plainText s → plainText (String.substring i n s).
Proof.
  unfold plainText. induction s as [|c s IH]; intros i n H; [by destruct i, n|]. inversion H; subst. destruct i, n; cbn; [done| |by apply IH..].
  constructor; [done|by apply IH].
Qed.

Lemma hex_digit_plain n : (n < 16)%nat → byteIn (hexDigit n) 33 127 = true.
Proof. intros H. do 16 (destruct n as [|n]; [reflexivity|]). lia. Qed.

Lemma hex_encode_plain s : plainText (hexEncode s).
Proof.
  unfold plainText. induction s as [|c s IH]; cbn [hexEncode list_ascii_of_string]; [constructor|]. pose proof (nat_ascii_bounded c).
  constructor; [apply hex_digit_plain, Nat.Div0.div_lt_upper_bound; lia|]. constructor; [apply hex_digit_plain, Nat.mod_upper_bound; lia|done].
Qed.

Lemma hex_round_trip s : hexDecode (hexEncode s) = Some s.
Proof.
  induction s as [|c s IH]; [done|]. cbn [hexEncode hexDecode].
  pose proof (nat_ascii_bounded c).
  rewrite !hex_digit_value, IH.
  - rewrite <- Nat.div_mod_eq. by rewrite ascii_nat_embedding.
  - apply Nat.mod_upper_bound. lia.
  - apply Nat.Div0.div_lt_upper_bound. lia.
Qed.

(** ** Splitting at a separator *)

Lemma contains_char_cons (c sep : ascii) s :
  Contains (String c s) (String sep "") = false ↔ c ≠ sep ∧ Contains s (String sep "") = false.
Proof.
  change (Contains (String c s) (String sep ""))
    with (Ascii.eqb sep c && HasPrefix s "" || Contains s (String sep "")).
  assert (HasPrefix s "" = true) as -> by (by destruct s). rewrite andb_true_r, orb_false_iff, Ascii.eqb_neq.
  split; intros [H1 H2]; split; congruence.
Qed.

(** A part that does not hold the separator ends at the first one. *)
Lemma split_at_separator (sep : ascii) a : ∀ a' x y,
  Contains a (String sep "") = false → Contains a' (String sep "") = false →
  a +:+ String sep x = a' +:+ String sep y → a = a' ∧ x = y.
Proof.
  induction a as [|h a IH]; intros [|h' a'] x y Ha Ha' E; rewrite ?append_empty_l, ?append_cons in E.
  - by injection E.
  - injection E as <- _. by apply contains_char_cons in Ha' as [? _].
  - injection E as -> _. by apply contains_char_cons in Ha as [? _].
  - injection E as -> E. apply contains_char_cons in Ha as [_ Ha], Ha' as [_ Ha'].
    by destruct (IH a' x y Ha Ha' E) as [-> ->].
Qed.

(** ** Decimal texts *)

#[local] Open Scope Z_scope.

Fixpoint parseDigits (s : string) (acc : Z) : option Z :=
  match s with
  | "" => Some acc
  | String c rest =>
      let d := Z.of_nat (nat_of_ascii c) - 48 in
      if (0 <=? d) && (d <=? 9) then parseDigits rest (acc * 10 + d) else None
  end.

(** [strconv.ParseInt(s, 10, 64)], [None] on a syntax or range error. *)
Definition parseInt64 (s : string) : option Z :=
  let '(neg, body) :=
    match s with
    | String "-" rest => (true, rest)
    | String "+" rest => (false, rest)
    | _ => (false, s)
    end in
  if String.eqb body "" then None
  else
    match parseDigits body 0 with
    | Some v => let v := if (neg : bool) then - v else v in if in_i64b v then Some v else None
    | None => None
    end.

(** [strings.ReplaceAll(s, old, new)] for one-byte texts. *)
Fixpoint replaceByte (old new : ascii) (s : string) : string :=
  match s with
  | EmptyString => ""
  | String c s' => String (if Ascii.eqb c old then new else c) (replaceByte old new s')
  end.
