(* ===== verification/Extension.v ===== *)
(** * Extension: typed open values

    Models the part of [server-kit/go/extension/value.go] the policy engine
    uses: the tagged union [Value], the open map [Object], their accessors,
    the conversion to [any], and the [%v] formatting of the values that
    conversion can produce.  A float64 is its 64-bit pattern; a Go map is an
    association list with distinct keys, so its order is never observed except
    through the sorted printing of [%v]. *)

From Stdlib Require Import ZArith Lia Ascii String.
From stdpp Require Import base list strings pretty.
From S2P Require Import Prelude GoStrings.

Open Scope string_scope.

(** A [Value] has a kind and the one payload of that kind. *)
Inductive Value :=
| VNull
| VString (s : string)
| VBool (b : bool)
| VInt (z : Z)
| VUint (z : Z)
| VFloat (bits : Z)
| VBytes (l : list Z)
| VList (l : list Value)
| VObject (o : list (string * Value)).

Definition Object := list (string * Value).

Inductive Kind := KindNull | KindString | KindBool | KindInt | KindUint | KindFloat
  | KindBytes | KindList | KindObject.

Definition kindOf (v : Value) : Kind :=
  match v with
  | VNull => KindNull | VString _ => KindString | VBool _ => KindBool | VInt _ => KindInt
  | VUint _ => KindUint | VFloat _ => KindFloat | VBytes _ => KindBytes
  | VList _ => KindList | VObject _ => KindObject
  end.

(** [m[key]] with its presence flag, for any Go map kept as pairs. *)
Fixpoint mapGet {A} (m : list (string * A)) (key : string) : option A :=
  match m with
  | [] => None
  | (k, v) :: m' => if String.eqb k key then Some v else mapGet m' key
  end.

Definition ObjectValue (v : Value) : option Object :=
  match v with VObject o => Some o | _ => None end.

Definition allListItemsAreObjects (values : list Value) : bool :=
  match values with
  | [] => false
  | _ => forallb (λ v, match v with VObject _ => true | _ => false end) values
  end.

(** ** Interface values *)

(** What [Interface()] can return. *)
Inductive Any :=
| ANil
| AString (s : string)
| ABool (b : bool)
| AInt (z : Z)
| AUint (z : Z)
| AFloat (bits : Z)
| ABytes (l : list Z)
| ASlice (l : list Any)
| AMap (m : list (string * Any))
| AMaps (l : list (list (string * Any))).

Fixpoint Interface (v : Value) : Any :=
  match v with
  | VNull => ANil
  | VString s => AString s
  | VBool b => ABool b
  | VInt z => AInt z
  | VUint z => AUint z
  | VFloat f => AFloat f
  | VBytes l => ABytes l
  | VList l =>
      if allListItemsAreObjects l
      then AMaps (map (λ v, match v with
                            | VObject o => map (λ kv, (kv.1, Interface kv.2)) o
                            | _ => []
                            end) l)
      else ASlice (map Interface l)
  | VObject o => AMap (map (λ kv, (kv.1, Interface kv.2)) o)
  end.

Definition InterfaceMap (o : Object) : list (string * Any) :=
  map (λ kv, (kv.1, Interface kv.2)) o.

(** ** Formatting with [%v] *)

Fixpoint insertKey {A} (kv : string * A) (l : list (string * A)) : list (string * A) :=
  match l with
  | [] => [kv]
  | kv' :: l' => if String.leb kv.1 kv'.1 then kv :: l else kv' :: insertKey kv l'
  end.

(** [fmt] prints maps with sorted keys. *)
Definition sortKeys {A} (m : list (string * A)) : list (string * A) := foldr insertKey [] m.

Definition sprintList (l : list string) : string := "[" +:+ Join " " l +:+ "]".
Definition sprintMap (m : list (string * string)) : string :=
  "map[" +:+ Join " " (map (λ kv, kv.1 +:+ ":" +:+ kv.2) (sortKeys m)) +:+ "]".

Definition sprintBool (b : bool) : string := if b then "true" else "false".
Definition sprintInts (l : list Z) : string := sprintList (map pretty l).

Section Sprint.
(** [strconv.FormatFloat(f, 'g', -1, 64)] of the float with these bits. *)
Variable fmtFloat : Z → string.

Fixpoint sprintAny (a : Any) : string :=
  match a with
  | ANil => "<nil>"
  | AString s => s
  | ABool b => sprintBool b
  | AInt z => pretty z
  | AUint z => pretty z
  | AFloat f => fmtFloat f
  | ABytes l => sprintInts l
  | ASlice l => sprintList (map sprintAny l)
  | AMap m => sprintMap (map (λ kv, (kv.1, sprintAny kv.2)) m)
  | AMaps l => sprintList (map (λ m, sprintMap (map (λ kv, (kv.1, sprintAny kv.2)) m)) l)
  end.

(** A [Value] inside a struct or map is printed field by field:
    [{kind str i64 u64 f64 b bytes list obj}]. *)
Fixpoint sprintValue (v : Value) : string :=
  let fields k s i u f b bs l o := "{" +:+ Join " " [k; s; i; u; f; b; bs; l; o] +:+ "}" in
  match v with
  | VNull => fields "0" "" "0" "0" "0" "false" "[]" "[]" "map[]"
  | VString s => fields "1" s "0" "0" "0" "false" "[]" "[]" "map[]"
  | VBool b => fields "2" "" "0" "0" "0" (sprintBool b) "[]" "[]" "map[]"
  | VInt z => fields "3" "" (pretty z) "0" "0" "false" "[]" "[]" "map[]"
  | VUint z => fields "4" "" "0" (pretty z) "0" "false" "[]" "[]" "map[]"
  | VFloat f => fields "5" "" "0" "0" (fmtFloat f) "false" "[]" "[]" "map[]"
  | VBytes l => fields "6" "" "0" "0" "0" "false" (sprintInts l) "[]" "map[]"
  | VList l => fields "7" "" "0" "0" "0" "false" "[]" (sprintList (map sprintValue l)) "map[]"
  | VObject o => fields "8" "" "0" "0" "0" "false" "[]" "[]"
                   (sprintMap (map (λ kv, (kv.1, sprintValue kv.2)) o))
  end.

Definition sprintObject (o : Object) : string :=
  sprintMap (map (λ kv, (kv.1, sprintValue kv.2)) o).

End Sprint.
