(* ===== verification/Money.v ===== *)
(** * Money: checked arithmetic and allocation

    Models [server-kit/go/money/money.go]: the checked operations [Add], [Sub],
    [Mul] and [Scale], and the three allocation routines.  Amounts are int64 in
    minor units; every int64 and uint64 operation that can leave its range wraps
    as Go's does, and [math/bits] 128-bit helpers are modelled by their
    documented results. *)

From Stdlib Require Import ZArith Lia.
From stdpp Require Import base list strings numbers.
From S2P Require Import Prelude.

(** ** Data *)

Record Currency := mkCurrency { Code : string; Exponent : Z }.
Record Money := mkMoney { Amount : Z; Cur : Currency }.

Definition USD := mkCurrency "USD" 2.
Definition EUR := mkCurrency "EUR" 2.
Definition GBP := mkCurrency "GBP" 2.
Definition JPY := mkCurrency "JPY" 0.
Definition KWD := mkCurrency "KWD" 3.

(** [New]. *)
Definition New (amount : Z) (currency : Currency) : Money := mkMoney amount currency.

(** One constructor per error value the file returns. *)
Inductive money_error :=
| ErrAddMismatch | ErrAddOverflow
| ErrSubMismatch | ErrSubOverflow
| ErrMulOverflow
| ErrDivisorZero | ErrScaleMulOverflow | ErrScaleNegOverflow | ErrRoundOverflow
| ErrAllocMulOverflow
| ErrNoRatios | ErrNegativeRatio | ErrRatioSumOverflow | ErrRatioSumZero.

Inductive RoundingMode := RoundHalfToEven | RoundHalfUp | RoundDown | RoundUp.

Abbreviation mres := (res money_error).

(** ** Checked arithmetic *)

Definition Add (m other : Money) : mres Money :=
  if negb (bool_decide (Code (Cur m) = Code (Cur other))) then Err ErrAddMismatch
  else
    let sum := i64 (Amount m + Amount other) in
    if (Z.lxor (Amount m) sum <? 0) && (Z.lxor (Amount other) sum <? 0)
    then Err ErrAddOverflow
    else Ok (mkMoney sum (Cur m)).

Definition Sub (m other : Money) : mres Money :=
  if negb (bool_decide (Code (Cur m) = Code (Cur other))) then Err ErrSubMismatch
  else
    let diff := i64 (Amount m - Amount other) in
    if (Z.lxor (Amount m) (Amount other) <? 0) && (Z.lxor diff (Amount m) <? 0)
    then Err ErrSubOverflow
    else Ok (mkMoney diff (Cur m)).

Definition Mul (m : Money) (scalar : Z) : mres Money :=
  if (scalar =? 0) || (Amount m =? 0) then Ok (mkMoney 0 (Cur m))
  else if ((Amount m =? minInt64) && (scalar =? -1))
       || ((scalar =? minInt64) && (Amount m =? -1)) then Err ErrMulOverflow
  else
    let prod := i64 (Amount m * scalar) in
    if negb (go_div prod scalar =? Amount m) then Err ErrMulOverflow
    else Ok (mkMoney prod (Cur m)).

(** The switch over the rounding mode inside [Scale]. *)
Definition scaleRoundsUp (mode : RoundingMode) (absQuotient absRemainder absDivisor : Z) : bool :=
  match mode with
  | RoundDown => false
  | RoundUp => true
  | RoundHalfUp => absDivisor <=? i64 (absRemainder * 2)
  | RoundHalfToEven =>
      let half := i64 (absRemainder * 2) in
      if absDivisor <? half then true
      else if half =? absDivisor then negb (go_mod absQuotient 2 =? 0)
      else false
  end.

Definition Scale (m : Money) (factor divisor : Z) (mode : RoundingMode) : mres Money :=
  if divisor =? 0 then Err ErrDivisorZero
  else if ((Amount m =? minInt64) && (factor =? -1))
       || ((factor =? minInt64) && (Amount m =? -1)) then Err ErrScaleMulOverflow
  else
    let prod := i64 (Amount m * factor) in
    if negb (factor =? 0) && negb (go_div prod factor =? Amount m) then Err ErrScaleMulOverflow
    else
      let quotient := go_div prod divisor in
      let remainder := go_mod prod divisor in
      if remainder =? 0 then Ok (mkMoney quotient (Cur m))
      else if (prod <? 0) && (prod =? minInt64) then Err ErrScaleNegOverflow
      else
        let absProd := if prod <? 0 then i64 (- prod) else prod in
        if (divisor <? 0) && (divisor =? minInt64) then Err ErrScaleNegOverflow
        else
          let absDivisor := if divisor <? 0 then i64 (- divisor) else divisor in
          let absQuotient := go_div absProd absDivisor in
          let absRemainder := go_mod absProd absDivisor in
          let roundUp := scaleRoundsUp mode absQuotient absRemainder absDivisor in
          let finalAbs := if roundUp then i64 (absQuotient + 1) else absQuotient in
          if roundUp && (finalAbs <? 0) then Err ErrRoundOverflow
          else
            let finalAmount :=
              if xorb (prod <? 0) (divisor <? 0) then i64 (- finalAbs) else finalAbs in
            Ok (mkMoney finalAmount (Cur m)).

(** ** Allocation *)

(** The accumulating loop of [sumRatios], from [totalRatio]. *)
Fixpoint sumRatiosFrom (totalRatio : Z) (ratios : list Z) : mres Z :=
  match ratios with
  | [] => if totalRatio =? 0 then Err ErrRatioSumZero else Ok totalRatio
  | r :: rs =>
      if r <? 0 then Err ErrNegativeRatio
      else
        let next := i64 (totalRatio + r) in
        if next <? totalRatio then Err ErrRatioSumOverflow
        else sumRatiosFrom next rs
  end.

Definition sumRatios (ratios : list Z) : mres Z :=
  match ratios with [] => Err ErrNoRatios | _ => sumRatiosFrom 0 ratios end.

(** [absUint64]: the magnitude as a uint64 and the sign; [^v] is [-v - 1]. *)
Definition absUint64 (v : Z) : Z * bool :=
  if v <? 0 then (u64 (u64 (Z.lnot v) + 1), true) else (v, false).

(** [bits.Mul64] and [bits.Div64] ([Div64] panics unless [hi < y]). *)
Definition Mul64 (x y : Z) : Z * Z := (x * y / 2 ^ 64, (x * y) mod 2 ^ 64).
Definition Div64 (hi lo y : Z) : option (Z * Z) :=
  if (y =? 0) || (y <=? hi) then None
  else Some ((hi * 2 ^ 64 + lo) / y, (hi * 2 ^ 64 + lo) mod y).

(** The scan of [distributeLeftover] for the largest remainder, ties to the
    lowest index: [(bestIdx, bestRem)] over the suffix that starts at [i]. *)
Fixpoint bestRemainder (i : nat) (remainders : list Z) (bestIdx : nat) (bestRem : Z) : nat * Z :=
  match remainders with
  | [] => (bestIdx, bestRem)
  | rem :: rest =>
      if bestRem <? rem then bestRemainder (S i) rest i rem
      else bestRemainder (S i) rest bestIdx bestRem
  end.

(** One pass of the leftover loop, and the loop itself ([count] passes). *)
Definition distributeOne (step : Z) (st : list Z * list Z) : list Z * list Z :=
  let '(shares, remainders) := st in
  let '(bestIdx, _) := bestRemainder 0 remainders 0 (-1) in
  (alter (λ a, i64 (a + step)) bestIdx shares, <[bestIdx := -1]> remainders).

Definition distributeLeftover (shares remainders : list Z) (leftover : Z) : list Z * list Z :=
  if leftover =? 0 then (shares, remainders)
  else
    let '(step, count) := if leftover <? 0 then (-1, i64 (- leftover)) else (1, leftover) in
    Nat.iter (Z.to_nat count) (distributeOne step) (shares, remainders).

(** The first loop of [Allocate]: shares, remainders and the running total. *)
Fixpoint allocateLoop (amount totalRatio : Z) (ratios : list Z) (allocated : Z)
  : mres (list Z * list Z * Z) :=
  match ratios with
  | [] => Ok ([], [], allocated)
  | r :: rs =>
      if ((amount =? minInt64) && (r =? -1)) || ((r =? minInt64) && (amount =? -1))
      then Err ErrAllocMulOverflow
      else
        let prod := i64 (amount * r) in
        if negb (r =? 0) && negb (go_div prod r =? amount) then Err ErrAllocMulOverflow
        else
          let share := go_div prod totalRatio in
          let rem := go_mod prod totalRatio in
          let rem := if rem <? 0 then i64 (- rem) else rem in
          match allocateLoop amount totalRatio rs (i64 (allocated + share)) with
          | Ok (shares, rems, total) => Ok (share :: shares, rem :: rems, total)
          | Err e => Err e
          end
  end.

Definition withCurrency (c : Currency) (shares : list Z) : list Money :=
  map (λ a, mkMoney a c) shares.

Definition Allocate (m : Money) (ratios : list Z) : mres (list Money) :=
  match sumRatios ratios with
  | Err e => Err e
  | Ok totalRatio =>
      match allocateLoop (Amount m) totalRatio ratios 0 with
      | Err e => Err e
      | Ok (shares, remainders, allocated) =>
          let '(shares, _) := distributeLeftover shares remainders (i64 (Amount m - allocated)) in
          Ok (withCurrency (Cur m) shares)
      end
  end.

(** The loop of [AllocateWide]; [None] is the [bits.Div64] panic. *)
Fixpoint allocateWideLoop (absAmount : Z) (neg : bool) (uTotal : Z) (ratios : list Z) (allocated : Z)
  : option (list Z * list Z * Z) :=
  match ratios with
  | [] => Some ([], [], allocated)
  | r :: rs =>
      let '(hi, lo) := Mul64 absAmount (u64 r) in
      match Div64 hi lo uTotal with
      | None => None
      | Some (q, rem) =>
          let share := if neg then i64 (- i64 q) else i64 q in
          match allocateWideLoop absAmount neg uTotal rs (i64 (allocated + share)) with
          | Some (shares, rems, total) => Some (share :: shares, i64 rem :: rems, total)
          | None => None
          end
      end
  end.

Definition AllocateWide (m : Money) (ratios : list Z) : option (mres (list Money)) :=
  match sumRatios ratios with
  | Err e => Some (Err e)
  | Ok totalRatio =>
      let '(absAmount, neg) := absUint64 (Amount m) in
      match allocateWideLoop absAmount neg (u64 totalRatio) ratios 0 with
      | None => None
      | Some (shares, remainders, allocated) =>
          let '(shares, _) := distributeLeftover shares remainders (i64 (Amount m - allocated)) in
          Some (Ok (withCurrency (Cur m) shares))
      end
  end.

(** [websterHigherPriority]: exact 128-bit cross-multiplication. *)
Definition websterHigherPriority (ratioA countA ratioB countB : Z) : bool :=
  let denB := u64 (u64 (2 * countB) + 1) in
  let denA := u64 (u64 (2 * countA) + 1) in
  let '(hiA, loA) := Mul64 ratioA denB in
  let '(hiB, loB) := Mul64 ratioB denA in
  if negb (hiA =? hiB) then hiB <? hiA else loB <? loA.

(** The lower-bound jump of [AllocateMonotone]: the starting counts and their
    total; [None] is the [bits.Div64] panic. *)
Fixpoint monotoneBases (absAmount uTotal : Z) (ratios : list Z) (assigned : Z)
  : option (list Z * Z) :=
  match ratios with
  | [] => Some ([], assigned)
  | r :: rs =>
      if r =? 0 then
        match monotoneBases absAmount uTotal rs assigned with
        | Some (cs, t) => Some (0 :: cs, t) | None => None end
      else
        let '(hi, lo) := Mul64 absAmount (u64 r) in
        match Div64 hi lo uTotal with
        | None => None
        | Some (q, _) =>
            let base := if 1 <? q then q - 1 else 0 in
            match monotoneBases absAmount uTotal rs (u64 (assigned + base)) with
            | Some (cs, t) => Some (base :: cs, t) | None => None end
        end
  end.

(** The scan for the recipient of the next unit: [best] is [bestIdx] with the
    ratio and count found there ([None] is Go's [-1]). *)
Fixpoint bestWebster (i : nat) (rcs : list (Z * Z)) (best : option (nat * Z * Z))
  : option (nat * Z * Z) :=
  match rcs with
  | [] => best
  | (r, c) :: rest =>
      if r =? 0 then bestWebster (S i) rest best
      else
        let take := match best with
                    | None => true
                    | Some (_, rb, cb) => websterHigherPriority (u64 r) c (u64 rb) cb
                    end in
        bestWebster (S i) rest (if take then Some (i, r, c) else best)
  end.

(** The divisor loop, with fuel; [None] when the fuel runs out or no ratio is
    positive ([counts[-1]] panics). *)
Fixpoint monotoneLoop (fuel : nat) (absAmount : Z) (ratios counts : list Z) (assigned : Z)
  : option (list Z) :=
  if absAmount <=? assigned then Some counts
  else
    match fuel with
    | O => None
    | S fuel' =>
        match bestWebster 0 (zip ratios counts) None with
        | None => None
        | Some (bestIdx, _, _) =>
            monotoneLoop fuel' absAmount ratios
              (alter (λ c, u64 (c + 1)) bestIdx counts) (u64 (assigned + 1))
        end
    end.

Definition AllocateMonotone (fuel : nat) (m : Money) (ratios : list Z) : option (mres (list Money)) :=
  match sumRatios ratios with
  | Err e => Some (Err e)
  | Ok totalRatio =>
      let '(absAmount, neg) := absUint64 (Amount m) in
      match monotoneBases absAmount (u64 totalRatio) ratios 0 with
      | None => None
      | Some (counts, assigned) =>
          match monotoneLoop fuel absAmount ratios counts assigned with
          | None => None
          | Some counts =>
              Some (Ok (withCurrency (Cur m)
                (map (λ c, if neg then i64 (- i64 c) else i64 c) counts)))
          end
      end
  end.


(** ** Checked arithmetic is exact *)

Lemma go_div_exact a s :
  s ≠ 0 → in_i64 a → go_div (a * s) s = a.
Proof.
  intros. unfold go_div. rewrite Z.quot_mul by done. by apply i64_id.
Qed.

(** The division test of [Mul], [Scale] and [Allocate] detects overflow. *)
Lemma mul_check a s :
  in_i64 a → in_i64 s → s ≠ 0 → ¬ (a = minInt64 ∧ s = -1) →
  (go_div (i64 (a * s)) s =? a) = in_i64b (a * s).
Proof.
  intros Ha Hs Hs0 Hmin. apply Bool.eq_iff_eq_true.
  rewrite Z.eqb_eq, in_i64b_spec. split; intros H.
  - destruct (i64_eqm (a * s)) as [k Hk]. pose proof (i64_range (a * s)) as Hr.
    set (p := i64 (a * s)) in *. apply i64_inv. change (p = a * s).
    pose proof (Z.quot_rem p s Hs0) as Hqr.
    pose proof (Z.rem_bound_abs p s Hs0) as Hb.
    unfold go_div in H. destruct (decide (in_i64 (Z.quot p s))) as [Hq|Hq].
    + rewrite (i64_id _ Hq) in H. rewrite H in Hqr.
      assert (Z.rem p s = k * 2 ^ 64) by lia.
      assert (k = 0) by zrange. zrange.
    + exfalso. apply Hmin.
      assert (p = minInt64 ∧ s = -1) as [-> ->].
      { destruct (decide (s = -1)) as [->|]; [|destruct (decide (s = 1)) as [->|]].
        - change (-1) with (- (1)) in Hq. rewrite Z.quot_opp_r, Z.quot_1_r in Hq by done. zrange.
        - rewrite Z.quot_1_r in Hq. done.
        - exfalso. apply Hq.
          assert (Z.abs (Z.quot p s) * 2 ≤ Z.abs p).
          { rewrite <- Z.quot_abs by done.
            pose proof (Z.mul_quot_le (Z.abs p) (Z.abs s)).
            pose proof (Z.quot_pos (Z.abs p) (Z.abs s)). nia. }
          zrange. }
      rewrite <- H. done.
  - rewrite (i64_id _ H). by apply go_div_exact.
Qed.

Lemma add_exact m o :
  in_i64 (Amount m) → in_i64 (Amount o) →
  Add m o =
    if bool_decide (Code (Cur m) = Code (Cur o)) then
      if in_i64b (Amount m + Amount o) then Ok (mkMoney (Amount m + Amount o) (Cur m))
      else Err ErrAddOverflow
    else Err ErrAddMismatch.
Proof.
  intros Hm Ho. unfold Add. case_bool_decide; [|done]. cbn [negb].
  destruct (i64_eqm (Amount m + Amount o)) as [k Hk].
  pose proof (i64_range (Amount m + Amount o)) as Hr.
  set (s := i64 (Amount m + Amount o)) in *.
  destruct (in_i64b _) eqn:E.
  - apply in_i64b_spec in E. subst s. rewrite (i64_id _ E) in *.
    replace (_ && _)%bool with false; [done|].
    symmetry. rewrite andb_false_iff, !Z.ltb_ge, !Z.lxor_nonneg. lia.
  - assert (¬ in_i64 (Amount m + Amount o)) as E' by (rewrite <- in_i64b_spec; by rewrite E).
    replace (_ && _)%bool with true; [done|].
    symmetry. rewrite andb_true_iff, !Z.ltb_lt, !lxor_neg. zrange.
Qed.

Lemma sub_exact m o :
  in_i64 (Amount m) → in_i64 (Amount o) →
  Sub m o =
    if bool_decide (Code (Cur m) = Code (Cur o)) then
      if in_i64b (Amount m - Amount o) then Ok (mkMoney (Amount m - Amount o) (Cur m))
      else Err ErrSubOverflow
    else Err ErrSubMismatch.
Proof.
  intros Hm Ho. unfold Sub. case_bool_decide; [|done]. cbn [negb].
  destruct (i64_eqm (Amount m - Amount o)) as [k Hk].
  pose proof (i64_range (Amount m - Amount o)) as Hr.
  set (s := i64 (Amount m - Amount o)) in *.
  destruct (in_i64b _) eqn:E.
  - apply in_i64b_spec in E. subst s. rewrite (i64_id _ E) in *.
    replace (_ && _)%bool with false; [done|].
    symmetry. rewrite andb_false_iff, !Z.ltb_ge, !Z.lxor_nonneg. lia.
  - assert (¬ in_i64 (Amount m - Amount o)) as E' by (rewrite <- in_i64b_spec; by rewrite E).
    replace (_ && _)%bool with true; [done|].
    symmetry. rewrite andb_true_iff, !Z.ltb_lt, !lxor_neg. zrange.
Qed.

Lemma min_neg_one_guard a s :
  ((a =? minInt64) && (s =? -1)) || ((s =? minInt64) && (a =? -1)) = true →
  in_i64b (a * s) = false.
Proof.
  rewrite orb_true_iff, !andb_true_iff, !Z.eqb_eq. intros [[-> ->]|[-> ->]]; done.
Qed.

Lemma min_neg_one_guard_false a s :
  ((a =? minInt64) && (s =? -1)) || ((s =? minInt64) && (a =? -1)) = false →
  ¬ (a = minInt64 ∧ s = -1).
Proof. intros H [-> ->]. done. Qed.

Lemma mul_exact m k :
  in_i64 (Amount m) → in_i64 k →
  Mul m k = if in_i64b (Amount m * k) then Ok (mkMoney (Amount m * k) (Cur m))
            else Err ErrMulOverflow.
Proof.
  intros Hm Hk. unfold Mul.
  destruct (k =? 0) eqn:E0; [apply Z.eqb_eq in E0 as ->; by rewrite Z.mul_0_r|].
  destruct (Amount m =? 0) eqn:E1; [apply Z.eqb_eq in E1 as ->; done|].
  cbn [orb]. destruct (_ || _)%bool eqn:G.
  { by rewrite (min_neg_one_guard _ _ G). }
  apply min_neg_one_guard_false in G. apply Z.eqb_neq in E0.
  rewrite mul_check by done. destruct (in_i64b (Amount m * k)) eqn:E; [|done].
  apply in_i64b_spec in E. by rewrite (i64_id _ E).
Qed.

(** ** Scaling rounds to the exact rational *)

(** [x] is what [mode] promises for the exact quotient [p / d]. *)
Definition rounds_to (mode : RoundingMode) (p d x : Z) : Prop :=
  match mode with
  | RoundDown => x = Z.quot p d
  | RoundUp => 0 ≤ x * d * p ∧ Z.abs p ≤ Z.abs (x * d) < Z.abs p + Z.abs d
  | RoundHalfUp =>
      2 * Z.abs (x * d - p) ≤ Z.abs d
      ∧ (2 * Z.abs (x * d - p) = Z.abs d → Z.abs p < Z.abs (x * d))
  | RoundHalfToEven =>
      2 * Z.abs (x * d - p) ≤ Z.abs d
      ∧ (2 * Z.abs (x * d - p) = Z.abs d → Z.even x = true)
  end.

Lemma scale_rounds_up_bool mode q r D :
  0 ≤ r < D → D ≤ 2 ^ 62 → 0 ≤ q →
  scaleRoundsUp mode q r D =
    match mode with
    | RoundDown => false
    | RoundUp => true
    | RoundHalfUp => D <=? 2 * r
    | RoundHalfToEven => (D <? 2 * r) || ((2 * r =? D) && Z.odd q)
    end.
Proof.
  intros Hr HD Hq. unfold scaleRoundsUp, go_mod.
  rewrite i64_id by (change (2 ^ 62) with 4611686018427387904 in HD; zrange).
  rewrite (Z.mul_comm r 2).
  assert (negb (Z.rem q 2 =? 0) = Z.odd q) as ->.
  { rewrite Z.rem_mod_nonneg, Zmod_odd by lia. by destruct (Z.odd q). }
  by destruct mode.
Qed.

(** Putting the sign of [p / d] back on a magnitude [A]. *)
Definition signed (p d A : Z) : Z := if xorb (p <? 0) (d <? 0) then - A else A.

Lemma signed_mul p d A :
  signed p d A * d = if p <? 0 then - A * Z.abs d else A * Z.abs d.
Proof.
  unfold signed. destruct (p <? 0) eqn:Ep, (d <? 0) eqn:Ed; cbn [xorb];
    rewrite ?Z.ltb_lt, ?Z.ltb_ge in *; lia.
Qed.

Lemma signed_diff p d A :
  Z.abs (signed p d A * d - p) = Z.abs (A * Z.abs d - Z.abs p).
Proof. rewrite signed_mul. destruct (p <? 0) eqn:Ep; rewrite ?Z.ltb_lt, ?Z.ltb_ge in *; lia. Qed.

Lemma signed_abs p d A : 0 ≤ A → Z.abs (signed p d A * d) = A * Z.abs d.
Proof. intros HA. rewrite signed_mul. destruct (p <? 0); nia. Qed.

Lemma signed_even p d A : Z.even (signed p d A) = Z.even A.
Proof. unfold signed. destruct (xorb _ _); [apply Z.even_opp | done]. Qed.

Lemma signed_quot p d : d ≠ 0 → signed p d (Z.abs p / Z.abs d) = Z.quot p d.
Proof.
  intros Hd. unfold signed. rewrite <- Z.quot_div_nonneg by lia.
  destruct (p <? 0) eqn:Ep, (d <? 0) eqn:Ed; cbn [xorb]; rewrite ?Z.ltb_lt, ?Z.ltb_ge in *.
  - rewrite (Z.abs_neq p), (Z.abs_neq d) by lia. by rewrite Z.quot_opp_opp by lia.
  - rewrite (Z.abs_neq p), (Z.abs_eq d), Z.quot_opp_l by lia. lia.
  - rewrite (Z.abs_eq p), (Z.abs_neq d), Z.quot_opp_r by lia. lia.
  - by rewrite (Z.abs_eq p), (Z.abs_eq d) by lia.
Qed.

(** The value of the rounding branch: [finalAbs] with the sign put back. *)
Lemma rounding_branch_spec mode p d :
  d ≠ 0 → Z.abs p mod Z.abs d ≠ 0 →
  let q := Z.abs p / Z.abs d in
  let r := Z.abs p mod Z.abs d in
  let up := match mode with
            | RoundDown => false
            | RoundUp => true
            | RoundHalfUp => Z.abs d <=? 2 * r
            | RoundHalfToEven => (Z.abs d <? 2 * r) || ((2 * r =? Z.abs d) && Z.odd q)
            end in
  rounds_to mode p d (signed p d (if up then q + 1 else q)).
Proof.
  intros Hd Hr q r.
  pose proof (Z.div_mod (Z.abs p) (Z.abs d)) as Hdm. fold q r in Hdm, Hr.
  pose proof (Z.mod_pos_bound (Z.abs p) (Z.abs d)) as Hb. fold r in Hb.
  assert (0 ≤ q) by (apply Z.div_pos; lia).
  destruct mode; cbn [rounds_to]; cbv zeta.
  - rewrite signed_diff, signed_even.
    destruct (Z.abs d <? 2 * r) eqn:E1; rewrite ?Z.ltb_lt, ?Z.ltb_ge in E1; cbn [orb].
    { split; nia. }
    destruct (2 * r =? Z.abs d) eqn:E2; rewrite ?Z.eqb_eq, ?Z.eqb_neq in E2; cbn [andb];
      [|split; nia].
    rewrite <- Z.negb_even. destruct (Z.even q) eqn:Ev; cbn [negb]; (split; [nia|]); [done|].
    intros _. by rewrite Z.even_add, Ev.
  - rewrite signed_diff. destruct (Z.abs d <=? 2 * r) eqn:E1; rewrite ?Z.leb_le, ?Z.leb_gt in E1;
      rewrite signed_abs by lia; split; nia.
  - by apply signed_quot.
  - rewrite signed_abs by lia. split; [|nia]. rewrite signed_mul.
    destruct (p <? 0) eqn:Ep; rewrite ?Z.ltb_lt, ?Z.ltb_ge in *; nia.
Qed.

Lemma rem_abs_mod p d : d ≠ 0 → Z.abs (Z.rem p d) = Z.abs p mod Z.abs d.
Proof. intros Hd. rewrite <- Z.rem_abs by done. apply Z.rem_mod_nonneg; lia. Qed.

(** Without a remainder the truncated quotient is exact in every mode. *)
Lemma exact_rounds_to mode p d :
  d ≠ 0 → Z.rem p d = 0 → rounds_to mode p d (Z.quot p d).
Proof.
  intros Hd Hr. pose proof (Z.quot_rem p d Hd) as Hq. rewrite Hr in Hq.
  assert (Z.quot p d * d = p) as He by lia.
  destruct mode; cbn [rounds_to]; rewrite ?He; repeat split; nia.
Qed.

(** With a remainder, the magnitude is below [2^62], so nothing later wraps. *)
Lemma quot_magnitude P D : in_i64 P → 0 ≤ P → 1 < D → 0 ≤ P / D ≤ 4611686018427387903.
Proof.
  intros HP HP0 HD. split; [apply Z.div_pos; lia|].
  apply Z.lt_succ_r, Z.div_lt_upper_bound; [lia|]. unfold Z.succ. zrange.
Qed.

(** The code from the remainder test on, for a product that fits. *)
Definition scaleTail (cur : Currency) (p divisor : Z) (mode : RoundingMode) : mres Money :=
  let absProd := if p <? 0 then i64 (- p) else p in
  let absDivisor := if divisor <? 0 then i64 (- divisor) else divisor in
  let absQuotient := go_div absProd absDivisor in
  let absRemainder := go_mod absProd absDivisor in
  let roundUp := scaleRoundsUp mode absQuotient absRemainder absDivisor in
  let finalAbs := if roundUp then i64 (absQuotient + 1) else absQuotient in
  if roundUp && (finalAbs <? 0) then Err ErrRoundOverflow
  else Ok (mkMoney (if xorb (p <? 0) (divisor <? 0) then i64 (- finalAbs) else finalAbs) cur).

Lemma abs_i64 z : in_i64 z → z ≠ minInt64 → (if z <? 0 then i64 (- z) else z) = Z.abs z.
Proof.
  intros Hz Hm. destruct (Z.ltb_spec z 0); [rewrite i64_id|]; zrange.
Qed.

Lemma scale_tail_ok cur p d mode :
  in_i64 p → p ≠ minInt64 → d ≠ 0 → Z.abs d ≤ 4611686018427387904 → Z.rem p d ≠ 0 →
  ∃ x, scaleTail cur p d mode = Ok (mkMoney x cur) ∧ rounds_to mode p d x.
Proof.
  intros Hp Hpm Hd HD Hr. unfold scaleTail. cbv zeta.
  rewrite !abs_i64 by zrange.
  assert (Z.abs p mod Z.abs d ≠ 0) as Hm by (rewrite <- rem_abs_mod; lia).
  assert (1 < Z.abs d) as HD1.
  { destruct (decide (Z.abs d = 1)) as [E|]; [|lia]. rewrite E, Z.mod_1_r in Hm. lia. }
  pose proof (quot_magnitude (Z.abs p) (Z.abs d) ltac:(zrange) ltac:(lia) HD1) as Hq.
  unfold go_div, go_mod. rewrite Z.quot_div_nonneg, Z.rem_mod_nonneg by lia.
  rewrite (i64_id (Z.abs p / Z.abs d)) by zrange.
  pose proof (Z.mod_pos_bound (Z.abs p) (Z.abs d) ltac:(lia)).
  rewrite scale_rounds_up_bool; [|lia|change (2 ^ 62) with 4611686018427387904; lia|lia].
  pose proof (rounding_branch_spec mode p d Hd Hm) as Hspec. cbv zeta in Hspec.
  set (up := match mode with RoundDown => _ | _ => _ end) in *.
  rewrite (i64_id (Z.abs p / Z.abs d + 1)) by zrange.
  set (A := if up then _ else _) in *.
  assert (0 ≤ A ≤ 4611686018427387904) as HA by (subst A; destruct up; lia).
  rewrite (i64_id (- A)) by zrange.
  rewrite (proj2 (Z.ltb_ge A 0)), andb_false_r by lia.
  by exists (signed p d A).
Qed.

Lemma scale_ok m factor divisor mode :
  in_i64 (Amount m) → in_i64 factor → in_i64 divisor → divisor ≠ 0 →
  in_i64 (Amount m * factor) → Amount m * factor ≠ minInt64 → Z.abs divisor ≤ 2 ^ 62 →
  ∃ x, Scale m factor divisor mode = Ok (mkMoney x (Cur m))
       ∧ rounds_to mode (Amount m * factor) divisor x.
Proof.
  intros Ha Hf Hd Hd0 Hp Hpm HD. unfold Scale.
  rewrite (proj2 (Z.eqb_neq divisor 0)) by done.
  destruct (_ || _)%bool eqn:G.
  { apply min_neg_one_guard in G. apply in_i64b_spec in Hp. congruence. }
  apply min_neg_one_guard_false in G. rewrite (i64_id _ Hp).
  assert ((negb (factor =? 0) && negb (go_div (Amount m * factor) factor =? Amount m))%bool = false)
    as ->.
  { destruct (Z.eqb_spec factor 0) as [|Hf0]; [done|].
    by rewrite go_div_exact, Z.eqb_refl by done. }
  set (p := Amount m * factor) in *. change (2 ^ 62) with 4611686018427387904 in HD.
  unfold go_mod at 1. destruct (Z.eqb_spec (Z.rem p divisor) 0) as [Hr|Hr].
  { exists (Z.quot p divisor). split; [|by apply exact_rounds_to].
    unfold go_div. rewrite i64_id; [done|].
    pose proof (Z.quot_rem p divisor Hd0). rewrite Hr in *. zrange || nia. }
  rewrite (proj2 (Z.eqb_neq p minInt64)), andb_false_r by done.
  assert ((divisor =? minInt64) = false) as -> by (apply Z.eqb_neq; zrange).
  rewrite andb_false_r. by apply scale_tail_ok.
Qed.

Lemma scale_errors m factor divisor mode :
  in_i64 (Amount m) → in_i64 factor →
  (divisor = 0 → Scale m factor divisor mode = Err ErrDivisorZero) ∧
  (divisor ≠ 0 → ¬ in_i64 (Amount m * factor) →
     Scale m factor divisor mode = Err ErrScaleMulOverflow).
Proof.
  intros Ha Hf. unfold Scale. split; [by intros ->|intros Hd Hp].
  rewrite (proj2 (Z.eqb_neq divisor 0)) by done.
  destruct (_ || _)%bool eqn:G; [done|]. apply min_neg_one_guard_false in G.
  destruct (Z.eqb_spec factor 0) as [->|Hf0]; [rewrite Z.mul_0_r in Hp; zrange|].
  rewrite mul_check by done. destruct (in_i64b _) eqn:E; [|done].
  by apply in_i64b_spec in E.
Qed.

(** ** Hamilton allocation *)

(** What one party gets before the leftovers, and its remainder. *)
Definition baseShare (A T r : Z) : Z := Z.quot (A * r) T.
Definition baseRem (A T r : Z) : Z := Z.abs (Z.rem (A * r) T).

Lemma sum_ratios_from_ok t rs T :
  0 ≤ t → in_i64 t → Forall in_i64 rs →
  sumRatiosFrom t rs = Ok T ↔ Forall (λ r, 0 ≤ r) rs ∧ T = t + zsum rs ∧ 0 < T ∧ in_i64 T.
Proof.
  revert t. induction rs as [|r rs IH]; intros t Ht Hti Hrs; simpl.
  - destruct (Z.eqb_spec t 0) as [->|]; split; intros H.
    + done.
    + lia.
    + simplify_eq. repeat split; [constructor|zrange..].
    + f_equal. lia.
  - apply Forall_cons_iff in Hrs as [Hr Hrs]. rewrite Forall_cons_iff.
    destruct (Z.ltb_spec r 0); [split; [done|lia]|].
    destruct (decide (in_i64 (t + r))) as [Hi|Hi].
    + rewrite (i64_id _ Hi). destruct (Z.ltb_spec (t + r) t); [lia|].
      rewrite IH by (done || lia). rewrite Z.add_assoc. tauto.
    + destruct (i64_eqm (t + r)) as [k Hk]. pose proof (i64_range (t + r)).
      destruct (Z.ltb_spec (i64 (t + r)) t) as [|Hge]; [|zrange].
      split; [done|]. intros [[_ Hn] [-> [_ HT]]]. apply zsum_nonneg in Hn. zrange.
Qed.

Lemma sum_ratios_ok rs T :
  Forall in_i64 rs →
  sumRatios rs = Ok T ↔ Forall (λ r, 0 ≤ r) rs ∧ T = zsum rs ∧ 0 < T ∧ in_i64 T.
Proof.
  intros Hrs. unfold sumRatios. destruct rs as [|r rs].
  - simpl. split; [done|]. lia.
  - by rewrite sum_ratios_from_ok by (done || zrange).
Qed.

Lemma sum_ratios_parts rs : Forall (λ r, 0 ≤ r) rs → Forall (λ r, 0 ≤ r ≤ zsum rs) rs.
Proof.
  intros H. apply Forall_lookup. intros i r Hi. split; [|by apply (zsum_lookup_le _ i)].
  by apply (Forall_lookup_1 _ _ _ _ H Hi).
Qed.

Lemma base_share_range A T r : in_i64 A → 0 < T → 0 ≤ r ≤ T →
  Z.abs (baseShare A T r) ≤ Z.abs A ∧ 0 ≤ A * baseShare A T r ∧
  A * r = T * baseShare A T r + Z.rem (A * r) T ∧ baseRem A T r < T ∧
  Z.sgn A * baseRem A T r = Z.rem (A * r) T.
Proof.
  intros HA HT Hr. unfold baseShare, baseRem.
  pose proof (Z.quot_rem (A * r) T ltac:(lia)) as Hqr.
  pose proof (Z.rem_bound_abs (A * r) T ltac:(lia)) as Hb.
  assert (0 ≤ Z.rem (A * r) T * A ∧ 0 ≤ A * Z.quot (A * r) T) as [Hs1 Hs2].
  { destruct (Z.le_ge_cases 0 A).
    - pose proof (Z.rem_nonneg (A * r) T). pose proof (Z.quot_pos (A * r) T). nia.
    - pose proof (Z.rem_nonpos (A * r) T). pose proof (Z.quot_pos (- (A * r)) T) as Hq.
      rewrite Z.quot_opp_l in Hq by lia. nia. }
  repeat split; [|done|lia|lia|]; cycle 1.
  { destruct (Z.lt_trichotomy A 0) as [Hn|[->|Hp]];
      [rewrite Z.sgn_neg by done; nia|by rewrite Z.mul_0_l, Z.rem_0_l by lia|].
    rewrite Z.sgn_pos by done; nia. }
  rewrite <- Z.quot_abs by lia. rewrite (Z.abs_eq T) by lia.
  rewrite Z.quot_div_nonneg by lia. apply Z.div_le_upper_bound; [lia|].
  rewrite Z.abs_mul. nia.
Qed.

Lemma base_share_in A T r : in_i64 A → 0 < T → 0 ≤ r ≤ T → in_i64 (baseShare A T r).
Proof.
  intros HA HT Hr. destruct (base_share_range A T r HA HT Hr) as (Hb1 & Hb2 & _).
  zrange || nia.
Qed.

Lemma allocate_loop_ok A T rs acc :
  in_i64 A → 0 < T → in_i64 T → Forall (λ r, 0 ≤ r ≤ T) rs → in_i64 acc →
  allocateLoop A T rs acc =
    if forallb (λ r, in_i64b (A * r)) rs then
      Ok (map (baseShare A T) rs, map (baseRem A T) rs,
          i64 (acc + zsum (map (baseShare A T) rs)))
    else Err ErrAllocMulOverflow.
Proof.
  intros HA HT HTi Hrs. revert acc.
  induction Hrs as [|r rs Hr Hrs IH]; intros acc Hacc; simpl.
  { by rewrite Z.add_0_r, i64_id. }
  assert (in_i64 r) by zrange.
  destruct (_ || _)%bool eqn:G; [by rewrite (min_neg_one_guard _ _ G)|].
  apply min_neg_one_guard_false in G.
  assert ((negb (r =? 0) && negb (go_div (i64 (A * r)) r =? A))%bool = negb (in_i64b (A * r))) as ->.
  { destruct (Z.eqb_spec r 0) as [->|]; [by rewrite Z.mul_0_r|]. by rewrite mul_check by done. }
  destruct (in_i64b (A * r)) eqn:E; [|done]. cbn [negb andb].
  apply in_i64b_spec in E. rewrite (i64_id _ E).
  destruct (base_share_range A T r HA HT Hr) as (Hb1 & Hb2 & Hb3 & Hb4 & Hb5).
  rewrite IH by apply i64_range. destruct (forallb _ rs); [|done].
  unfold go_div, go_mod. fold (baseShare A T r).
  rewrite (i64_id (baseShare A T r)) by (by apply base_share_in).
  rewrite abs_i64 by (unfold baseRem in *; zrange). fold (baseRem A T r).
  by rewrite i64_add_l, Z.add_assoc.
Qed.

Lemma abs_uint64_spec v : in_i64 v → absUint64 v = (Z.abs v, v <? 0).
Proof.
  intros Hv. unfold absUint64. destruct (Z.ltb_spec v 0); [|f_equal; lia].
  rewrite (u64_id (Z.lnot v)), u64_id; unfold Z.lnot; try zrange.
  f_equal. lia.
Qed.

Lemma wide_div a r T : 0 ≤ a ≤ 2 ^ 63 → 0 ≤ r ≤ T → 0 < T → in_i64 T →
  Div64 (fst (Mul64 a (u64 r))) (snd (Mul64 a (u64 r))) T = Some (a * r / T, (a * r) mod T).
Proof.
  intros Ha Hr HT HTi. unfold Div64, Mul64. rewrite (u64_id r) by zrange. cbn [fst snd].
  rewrite (proj2 (Z.eqb_neq T 0)) by lia. cbn [orb].
  assert (a * r / 2 ^ 64 < T).
  { apply Z.div_lt_upper_bound; [done|]. rewrite pow63, pow64 in *. nia. }
  rewrite (proj2 (Z.leb_gt T _)) by done.
  pose proof (Z.div_mod (a * r) (2 ^ 64) ltac:(done)).
  by replace (a * r / 2 ^ 64 * 2 ^ 64 + (a * r) mod 2 ^ 64) with (a * r) by lia.
Qed.

Lemma base_share_abs A T r :
  0 < T → 0 ≤ r →
  baseShare A T r = (if A <? 0 then - (Z.abs A * r / T) else Z.abs A * r / T)
  ∧ baseRem A T r = (Z.abs A * r) mod T.
Proof.
  intros HT Hr. unfold baseShare, baseRem. split.
  - destruct (Z.ltb_spec A 0).
    + rewrite (Z.abs_neq A), <- Z.quot_div_nonneg by nia.
      rewrite Z.mul_opp_l, Z.quot_opp_l by lia. lia.
    + rewrite (Z.abs_eq A), <- Z.quot_div_nonneg by nia. done.
  - rewrite rem_abs_mod, Z.abs_mul, (Z.abs_eq r), (Z.abs_eq T) by lia. done.
Qed.

Lemma base_share_lt A T r :
  in_i64 A → 0 < T → 0 ≤ r ≤ T → 0 < baseRem A T r → Z.abs (baseShare A T r) < Z.abs A.
Proof.
  intros HA HT Hr. destruct (base_share_abs A T r HT ltac:(lia)) as [-> ->]. intros Hm.
  pose proof (Z.div_mod (Z.abs A * r) T ltac:(lia)) as Hd.
  set (q := Z.abs A * r / T) in *. assert (0 ≤ q) by (apply Z.div_pos; nia).
  assert (T * q < Z.abs A * T) by nia. destruct (A <? 0); nia.
Qed.

Lemma allocate_wide_loop_ok A T rs acc :
  in_i64 A → 0 < T → in_i64 T → Forall (λ r, 0 ≤ r ≤ T) rs → in_i64 acc →
  allocateWideLoop (Z.abs A) (A <? 0) T rs acc =
    Some (map (baseShare A T) rs, map (baseRem A T) rs,
          i64 (acc + zsum (map (baseShare A T) rs))).
Proof.
  intros HA HT HTi Hrs. revert acc.
  induction Hrs as [|r rs Hr Hrs IH]; intros acc Hacc; simpl.
  { by rewrite Z.add_0_r, i64_id. }
  pose proof (wide_div (Z.abs A) r T ltac:(zrange) Hr HT HTi) as Hdiv. cbn [fst snd Mul64] in Hdiv.
  unfold Mul64. rewrite Hdiv. rewrite IH by apply i64_range.
  destruct (base_share_range A T r HA HT Hr) as (Hb1 & _ & _ & Hb4 & _).
  destruct (base_share_abs A T r HT ltac:(lia)) as [Hs Hm].
  assert ((if A <? 0 then i64 (- i64 (Z.abs A * r / T)) else i64 (Z.abs A * r / T))
          = baseShare A T r) as ->.
  { pose proof (base_share_in A T r HA HT Hr).
    rewrite i64_opp. destruct (A <? 0); by rewrite <- Hs, i64_id. }
  rewrite <- Hm, (i64_id (baseRem A T r)) by (unfold baseRem in *; zrange).
  by rewrite i64_add_l, Z.add_assoc.
Qed.

(** The scan returns the first index of the maximum, or its start values. *)
Lemma best_remainder_spec l i bi br bi' br' :
  bestRemainder i l bi br = (bi', br') →
  (bi' = bi ∧ br' = br ∧ ∀ j x, l !! j = Some x → x ≤ br) ∨
  (∃ j, bi' = (i + j)%nat ∧ l !! j = Some br' ∧ br < br' ∧
        (∀ j' x, l !! j' = Some x → x ≤ br') ∧
        (∀ j' x, (j' < j)%nat → l !! j' = Some x → x < br')).
Proof.
  revert i bi br. induction l as [|a l IH]; intros i bi br H; simpl in H.
  { simplify_eq. left. split; [done|split; [done|]]. intros [] ? ?; done. }
  destruct (Z.ltb_spec br a).
  - destruct (IH _ _ _ H) as [(-> & -> & Hle)|(j & -> & Hj & Hlt & Hle & Hfst)]; right.
    + exists 0%nat. repeat split; try done; try lia.
      intros [|j'] x Hx; simplify_eq/=; [lia|by eapply Hle].
    + exists (S j). repeat split; try done; try lia.
      * intros [|j'] x Hx; simplify_eq/=; [lia|by eapply Hle].
      * intros [|j'] x ? Hx; simplify_eq/=; [lia|]. apply (Hfst j'); [lia|done].
  - destruct (IH _ _ _ H) as [(-> & -> & Hle)|(j & -> & Hj & Hlt & Hle & Hfst)]; [left|right].
    + split; [done|split; [done|]]. intros [|j'] x Hx; simplify_eq/=; [lia|by eapply Hle].
    + exists (S j). repeat split; try done; try lia.
      * intros [|j'] x Hx; simplify_eq/=; [lia|by eapply Hle].
      * intros [|j'] x ? Hx; simplify_eq/=; [lia|]. apply (Hfst j'); [lia|done].
Qed.

Lemma base_share_zero T l : 0 < T → zsum (map (baseShare 0 T) l) = 0.
Proof.
  intros HT. induction l as [|r l IH]; simpl; [done|]. rewrite IH. unfold baseShare.
  by rewrite Z.mul_0_l, Z.quot_0_l by lia.
Qed.

(** What is still owed to a party: a chosen one is marked [-1]. *)
Definition posPart (z : Z) : Z := Z.max 0 z.

Section hamilton.
Context (A T : Z) (rs : list Z).
Context (HA : in_i64 A) (HT : 0 < T) (HTs : T = zsum rs).
Context (Hrs : Forall (λ r, 0 ≤ r ≤ T) rs).

Abbreviation step := (Z.sgn A).
Abbreviation total := (zsum (map (baseShare A T) rs)).
Abbreviation count := (Z.abs (A - total)).

Lemma base_owed r : 0 ≤ r ≤ T →
  step * (A * r) = T * (step * baseShare A T r) + baseRem A T r.
Proof using HA HT.
  intros Hr. destruct (decide (A = 0)) as [->|HA0].
  { unfold baseShare, baseRem. rewrite !Z.mul_0_l, Z.rem_0_l by lia. simpl. lia. }
  destruct (base_share_range A T r HA HT Hr) as (_ & _ & Hb3 & _ & Hb5).
  assert (step * step = 1) by lia. nia.
Qed.

Lemma leftover_sum l : Forall (λ r, 0 ≤ r ≤ T) l →
  step * (A * zsum l) = T * (step * zsum (map (baseShare A T) l)) + zsum (map (baseRem A T) l).
Proof using HA HT.
  induction 1 as [|r l Hr _ IH]; simpl; [lia|].
  pose proof (base_owed r Hr). nia.
Qed.

(** The leftover after the truncated shares is what the remainders owe. *)
Lemma leftover_owed :
  count * T = zsum (map (baseRem A T) rs) ∧ A - total = step * count ∧ count ≤ Z.abs A.
Proof using HA HT HTs Hrs.
  pose proof (leftover_sum rs Hrs) as H. rewrite <- HTs in H.
  assert (0 ≤ zsum (map (baseRem A T) rs)) as Hp.
  { apply zsum_nonneg, Forall_fmap, Forall_true. intros; unfold baseRem; simpl; lia. }
  assert (0 ≤ step * total) as Hst.
  { assert (∀ l, Forall (λ r, 0 ≤ r ≤ T) l → 0 ≤ step * zsum (map (baseShare A T) l)) as Hl.
    { induction 1 as [|r l Hr _ IH]; simpl; [lia|].
      destruct (base_share_range A T r HA HT Hr) as (_ & Hb & _).
      assert (0 ≤ step * baseShare A T r) by nia. lia. }
    by apply Hl. }
  assert (0 ≤ step * A - step * total) by nia.
  assert (count = step * A - step * total ∧ A - total = step * (step * A - step * total)) as [-> ->].
  { destruct (decide (A = 0)) as [E|]; [|nia].
    assert (total = 0) as -> by (rewrite E; by apply base_share_zero).
    rewrite E. done. }
  repeat split; nia.
Qed.

(** The state of the leftover loop after [k] passes. *)
Record hstate (k : Z) (st : list Z * list Z) : Prop := {
  h_len1 : length st.1 = length rs;
  h_len2 : length st.2 = length rs;
  h_sum : zsum st.1 = total + k * step;
  h_owed : (count - k) * T ≤ zsum (map posPart st.2);
  h_each : ∀ i r, rs !! i = Some r →
    (st.1 !! i = Some (baseShare A T r) ∧ st.2 !! i = Some (baseRem A T r)) ∨
    (st.1 !! i = Some (baseShare A T r + step) ∧ st.2 !! i = Some (-1) ∧ 0 < baseRem A T r);
  h_prio : ∀ i j ri rj, rs !! i = Some ri → rs !! j = Some rj →
    st.2 !! i = Some (-1) → st.2 !! j = Some (baseRem A T rj) →
    baseRem A T rj < baseRem A T ri ∨ (baseRem A T rj = baseRem A T ri ∧ (i < j)%nat)
}.

Lemma hstate_init : hstate 0 (map (baseShare A T) rs, map (baseRem A T) rs).
Proof using HA HT HTs Hrs.
  destruct leftover_owed as (Hc & _ & _). split; simpl.
  - by rewrite length_map.
  - by rewrite length_map.
  - lia.
  - rewrite Z.sub_0_r, Hc. apply Z.eq_le_incl.
    clear. induction rs as [|r l IH]; cbn [map zsum]; [done|].
    rewrite IH. f_equal. unfold posPart, baseRem. lia.
  - intros i r Hi. left. by rewrite !list_lookup_fmap, Hi.
  - intros i j ri rj Hi _ H1. rewrite list_lookup_fmap, Hi in H1. simplify_eq/=.
    unfold baseRem in H1. lia.
Qed.

Lemma owed_positive l : 0 < zsum (map posPart l) → ∃ i x, l !! i = Some x ∧ 0 < x.
Proof using.
  induction l as [|x l IH]; cbn [map zsum]; intros H; [lia|].
  destruct (decide (0 < x)); [by exists 0%nat, x|].
  destruct IH as (i & y & ? & ?); [unfold posPart in H at 1; lia|]. by exists (S i), y.
Qed.

Lemma zsum_max_insert l i x :
  l !! i = Some x → 0 ≤ x → zsum (map posPart (<[i := -1]> l)) = zsum (map posPart l) - x.
Proof using.
  intros Hi Hx. rewrite list_fmap_insert.
  rewrite (zsum_insert _ i x); [change (zsum (map posPart l) - x + 0 = zsum (map posPart l) - x); lia|]. rewrite list_lookup_fmap, Hi. cbn. f_equal. unfold posPart. lia.
Qed.

Lemma hstate_step k st :
  hstate k st → 0 ≤ k < count → hstate (k + 1) (distributeOne step st).
Proof using HA HT HTs Hrs.
  intros [Hl1 Hl2 Hsum Howed Heach Hprio] Hk. destruct st as [shares rems]; simpl in *.
  destruct (owed_positive rems) as (i0 & x0 & Hi0 & Hx0); [nia|].
  unfold distributeOne. destruct (bestRemainder 0 rems 0 (-1)) as [bi br] eqn:Hbest.
  apply best_remainder_spec in Hbest as [(_ & _ & Hle)|(j & -> & Hj & Hlt & Hle & Hfst)].
  { apply Hle in Hi0. lia. }
  simpl. pose proof (Hle _ _ Hi0) as Hbr.
  destruct (rs !! j) as [r|] eqn:Hr; cycle 1.
  { apply lookup_ge_None in Hr. apply lookup_lt_Some in Hj. lia. }
  destruct (Heach j r Hr) as [[Hs Hm]|(_ & Hm & _)]; [|simplify_eq; lia].
  assert (br = baseRem A T r) as -> by congruence.
  pose proof (Forall_lookup_1 _ _ _ _ Hrs Hr) as Hr0. simpl in Hr0.
  destruct (base_share_range A T r HA HT Hr0) as (Hb1 & Hb2 & Hb3 & Hb4 & Hb5).
  assert (in_i64 (baseShare A T r + step)) as Hin.
  { pose proof (base_share_lt A T r HA HT Hr0 ltac:(lia)). zrange || nia. }
  assert (alter (λ a, i64 (a + step)) j shares = <[j := baseShare A T r + step]> shares) as ->.
  { rewrite (list_alter_as_insert _ _ _ _ Hs). by rewrite i64_id. }
  split; simpl.
  - by rewrite length_insert.
  - by rewrite length_insert.
  - rewrite (zsum_insert _ _ _ _ Hs). lia.
  - rewrite (zsum_max_insert _ _ _ Hj) by lia. lia.
  - intros i r' Hi. destruct (decide (i = j)) as [->|Hne].
    + right. rewrite !list_lookup_insert_eq by (by eapply lookup_lt_Some).
      simplify_eq. repeat split; try done. lia.
    + rewrite !list_lookup_insert_ne by done. by apply Heach.
  - intros i i' ri ri' Hi Hi' H1 H2.
    destruct (decide (i' = j)) as [->|Hne'].
    { rewrite list_lookup_insert_eq in H2 by (by eapply lookup_lt_Some).
      unfold baseRem in H2. simplify_eq. lia. }
    rewrite list_lookup_insert_ne in H2 by done.
    destruct (decide (i = j)) as [->|Hne]; cycle 1.
    { rewrite list_lookup_insert_ne in H1 by done. by eapply Hprio. }
    assert (ri = r) as -> by congruence.
    pose proof (Hle _ _ H2). destruct (decide (i' < j)%nat) as [Hlt'|].
    + left. by eapply Hfst.
    + destruct (decide (baseRem A T ri' = baseRem A T r)); [right; lia|left; lia].
Qed.
End hamilton.

(** The contract of a largest-remainder split: conservation, quota (each share
    within one minor unit of its exact rational share), and the extra units go
    to the largest remainders, ties to the lowest index. *)
Definition hamilton (A : Z) (rs shares : list Z) : Prop :=
  let T := zsum rs in
  length shares = length rs ∧ zsum shares = A ∧
  (∀ i r s, rs !! i = Some r → shares !! i = Some s → Z.abs (s * T - A * r) < T) ∧
  (∀ i j ri rj si sj, rs !! i = Some ri → rs !! j = Some rj →
     shares !! i = Some si → shares !! j = Some sj →
     si ≠ baseShare A T ri → sj = baseShare A T rj →
     baseRem A T rj < baseRem A T ri ∨ (baseRem A T rj = baseRem A T ri ∧ (i < j)%nat)).

(** Valid ratios: what [sumRatios] accepts, for a slice whose length is an int. *)
Definition valid_ratios (rs : list Z) : Prop :=
  Forall in_i64 rs ∧ Forall (λ r, 0 ≤ r) rs ∧ 0 < zsum rs ∧ in_i64 (zsum rs)
  ∧ Z.of_nat (length rs) ≤ maxInt64.

Section hamilton_result.
Context (A : Z) (rs : list Z).
Context (HA : in_i64 A) (Hv : valid_ratios rs).
Abbreviation T := (zsum rs).
Abbreviation total := (zsum (map (baseShare A T) rs)).

Lemma valid_parts : 0 < T ∧ in_i64 T ∧ Forall (λ r, 0 ≤ r ≤ T) rs.
Proof using Hv. destruct Hv as (_ & ? & ? & ? & _). by auto using sum_ratios_parts. Qed.

Lemma leftover_small : Z.abs (A - total) < Z.of_nat (length rs).
Proof using HA Hv.
  destruct valid_parts as (HT & HTi & Hrs).
  destruct (leftover_owed A T rs HA HT eq_refl Hrs) as (Hc & _ & _).
  assert (∀ l, Forall (λ r, 0 ≤ r ≤ T) l → zsum (map (baseRem A T) l) ≤ (T - 1) * Z.of_nat (length l))
    as Hl.
  { induction 1 as [|r l Hr _ IH]; [simpl; lia|].
    destruct (base_share_range A T r HA HT Hr) as (_ & _ & _ & Hb & _).
    cbn [map zsum length]. nia. }
  specialize (Hl rs Hrs). destruct rs; [simpl in *; lia|]. simpl length in *. nia.
Qed.

Lemma iter_hstate n :
  Z.of_nat n ≤ Z.abs (A - total) →
  hstate A T rs (Z.of_nat n)
    (Nat.iter n (distributeOne (Z.sgn A)) (map (baseShare A T) rs, map (baseRem A T) rs)).
Proof using HA Hv.
  destruct valid_parts as (HT & HTi & Hrs).
  induction n as [|n IH]; intros Hn; [by apply hstate_init|].
  rewrite Nat2Z.inj_succ. apply hstate_step; try done; [apply IH|]; lia.
Qed.

Lemma distribute_hstate :
  hstate A T rs (Z.abs (A - total))
    (distributeLeftover (map (baseShare A T) rs) (map (baseRem A T) rs) (A - total)).
Proof using HA Hv.
  destruct valid_parts as (HT & HTi & Hrs). pose proof leftover_small as Hs.
  destruct (leftover_owed A T rs HA HT eq_refl Hrs) as (_ & Hl & Hc).
  destruct Hv as (_ & _ & _ & _ & Hlen).
  unfold distributeLeftover. destruct (Z.eqb_spec (A - total) 0) as [E|E].
  { rewrite E. by apply hstate_init. }
  assert (Z.sgn A = Z.sgn (A - total)) as Hsg by nia.
  destruct (Z.ltb_spec (A - total) 0).
  - rewrite i64_id by zrange. rewrite (Z.sgn_neg (A - total)) in Hsg by done.
    pose proof (iter_hstate (Z.to_nat (- (A - total)))) as Hi.
    rewrite Hsg, Z2Nat.id in Hi by lia. rewrite (Z.abs_neq (A - total)) in * by lia. apply Hi. lia.
  - rewrite (Z.sgn_pos (A - total)) in Hsg by lia.
    pose proof (iter_hstate (Z.to_nat (A - total))) as Hi.
    rewrite Hsg, Z2Nat.id in Hi by lia. rewrite (Z.abs_eq (A - total)) in * by lia. apply Hi. lia.
Qed.

Lemma hstate_final st : hstate A T rs (Z.abs (A - total)) st → hamilton A rs st.1.
Proof using HA Hv.
  destruct valid_parts as (HT & HTi & Hrs).
  destruct (leftover_owed A T rs HA HT eq_refl Hrs) as (_ & Hl & _).
  intros [Hl1 _ Hsum _ Heach Hprio]. repeat split; [done|lia|..].
  - intros i r s Hr Hs. pose proof (Forall_lookup_1 _ _ _ _ Hrs Hr) as Hr0. simpl in Hr0.
    destruct (base_share_range A T r HA HT Hr0) as (_ & _ & Hb3 & Hb4 & Hb5).
    destruct (Heach i r Hr) as [[Hs' _]|(Hs' & _ & Hp)]; simplify_eq.
    + unfold baseRem in Hb4. nia.
    + assert (Z.rem (A * r) T = Z.sgn A * baseRem A T r) by lia.
      assert (Z.abs (Z.sgn A * (T - baseRem A T r)) < T); [|nia].
      destruct (Z.sgn_spec A) as [[? ->]|[[? ->]|[? ->]]]; lia.
  - intros i j ri rj si sj Hi Hj Hsi Hsj Hn He.
    destruct (Heach i ri Hi) as [[? _]|(_ & Hm & _)]; [congruence|].
    destruct (Heach j rj Hj) as [[_ Hmj]|(Hsj' & Hmj & _)]; [by eapply Hprio|].
    simplify_eq. exfalso. destruct (Heach i ri Hi) as [[? _]|(? & _)]; [congruence|].
    assert (Z.sgn A = 0) by lia. simplify_eq. apply Hn. lia.
Qed.

(** The leftover the code computes with wrap-around is the exact one. *)
Lemma leftover_exact : i64 (A - i64 (0 + total)) = A - total.
Proof using HA Hv.
  pose proof leftover_small. destruct Hv as (_ & _ & _ & _ & Hlen).
  rewrite i64_sub_r, Z.add_0_l. apply i64_id. zrange.
Qed.
End hamilton_result.

Lemma sum_ratios_valid rs : valid_ratios rs → sumRatios rs = Ok (zsum rs).
Proof. intros (? & ? & ? & ? & ?). by apply sum_ratios_ok. Qed.

Lemma allocate_wide_ok m rs :
  in_i64 (Amount m) → valid_ratios rs →
  ∃ shares, AllocateWide m rs = Some (Ok (withCurrency (Cur m) shares))
            ∧ hamilton (Amount m) rs shares
            ∧ shares = (distributeLeftover (map (baseShare (Amount m) (zsum rs)) rs)
                          (map (baseRem (Amount m) (zsum rs)) rs)
                          (Amount m - zsum (map (baseShare (Amount m) (zsum rs)) rs))).1.
Proof.
  intros HA Hv. destruct (valid_parts rs Hv) as (HT & HTi & Hrs).
  unfold AllocateWide. rewrite sum_ratios_valid, abs_uint64_spec, u64_id by (done || zrange).
  rewrite allocate_wide_loop_ok by (done || zrange). rewrite leftover_exact by done.
  pose proof (hstate_final _ _ HA Hv _ (distribute_hstate _ _ HA Hv)) as Hh.
  destruct (distributeLeftover _ _ _) as [shares ?]. by exists shares.
Qed.

Lemma allocate_agree m rs :
  in_i64 (Amount m) → Forall in_i64 rs → Z.of_nat (length rs) ≤ maxInt64 →
  ∃ r, AllocateWide m rs = Some r
       ∧ Allocate m rs = match sumRatios rs with
                         | Err e => Err e
                         | Ok _ => if forallb (λ r, in_i64b (Amount m * r)) rs then r
                                   else Err ErrAllocMulOverflow
                         end
       ∧ (∀ e, sumRatios rs = Err e → r = Err e).
Proof.
  intros HA Hrs Hlen. destruct (sumRatios rs) as [T|e] eqn:E; cycle 1.
  { exists (Err e). unfold AllocateWide, Allocate. rewrite E. naive_solver. }
  assert (valid_ratios rs) as Hv.
  { apply sum_ratios_ok in E as (? & -> & ? & ?); [|done]. by split_and!. }
  destruct (allocate_wide_ok m rs HA Hv) as (shares & HW & _ & Hsh).
  exists (Ok (withCurrency (Cur m) shares)). split; [done|]. split; [|done].
  destruct (valid_parts rs Hv) as (HT & HTi & Hr).
  unfold Allocate. rewrite (sum_ratios_valid rs Hv), allocate_loop_ok by (done || zrange).
  destruct (forallb _ rs); [|done]. rewrite leftover_exact by done.
  destruct (distributeLeftover _ _ _) as [sh ?]. simpl in Hsh. by subst.
Qed.

(** ** Divisor allocation *)

Lemma webster_priority_spec ra ca rb cb :
  0 ≤ ca < 2 ^ 63 → 0 ≤ cb < 2 ^ 63 →
  websterHigherPriority ra ca rb cb = (rb * (2 * ca + 1) <? ra * (2 * cb + 1)).
Proof.
  intros Ha Hb. unfold websterHigherPriority, Mul64.
  rewrite !(u64_id (2 * _)), !u64_id by zrange.
  set (x := ra * (2 * cb + 1)). set (y := rb * (2 * ca + 1)).
  pose proof (Z.div_mod x (2 ^ 64) ltac:(done)) as Hx.
  pose proof (Z.div_mod y (2 ^ 64) ltac:(done)) as Hy.
  pose proof (Z.mod_pos_bound x (2 ^ 64) ltac:(done)).
  pose proof (Z.mod_pos_bound y (2 ^ 64) ltac:(done)). rewrite !pow64 in *.
  apply Bool.eq_iff_eq_true. destruct (Z.eqb_spec (x / 18446744073709551616) (y / 18446744073709551616)); cbn [negb];
    rewrite !Z.ltb_lt; lia.
Qed.

(** The starting count of a party: [max(0, floor(quota) - 1)]. *)
Definition monotoneBase (a T r : Z) : Z := Z.max 0 (a * r / T - 1).

Lemma monotone_bases_ok a T rs acc :
  0 ≤ a ≤ 2 ^ 63 → 0 < T → in_i64 T → Forall (λ r, 0 ≤ r ≤ T) rs →
  0 ≤ acc → acc + zsum (map (monotoneBase a T) rs) ≤ 2 ^ 63 →
  monotoneBases a T rs acc =
    Some (map (monotoneBase a T) rs, acc + zsum (map (monotoneBase a T) rs)).
Proof.
  intros Ha HT HTi Hrs. revert acc.
  induction Hrs as [|r rs Hr Hrs IH]; intros acc Hacc Hsum; cbn [map zsum monotoneBases] in *.
  { by rewrite Z.add_0_r. }
  assert (0 ≤ zsum (map (monotoneBase a T) rs)).
  { apply zsum_nonneg, Forall_fmap, Forall_true. intros; unfold monotoneBase; simpl; lia. }
  destruct (Z.eqb_spec r 0) as [->|Hr0].
  - assert (monotoneBase a T 0 = 0) as E.
    { unfold monotoneBase. by rewrite Z.mul_0_r, Z.div_0_l by lia. }
    rewrite E in Hsum |- *. rewrite IH by lia. by do 2 f_equal.
  - pose proof (wide_div a r T Ha Hr HT HTi) as Hdiv. cbn [fst snd Mul64] in Hdiv.
    unfold Mul64. rewrite Hdiv.
    assert ((if 1 <? a * r / T then a * r / T - 1 else 0) = monotoneBase a T r) as ->.
    { unfold monotoneBase. destruct (Z.ltb_spec 1 (a * r / T)); lia. }
    assert (0 ≤ monotoneBase a T r) by (unfold monotoneBase; lia).
    rewrite u64_id by zrange. rewrite IH by lia. by rewrite Z.add_assoc.
Qed.

Lemma best_webster_some l i best :
  (∀ j r c, best = Some (j, r, c) → (j < i)%nat) →
  (best ≠ None ∨ ∃ k r c, l !! k = Some (r, c) ∧ r ≠ 0) →
  ∃ j r c, bestWebster i l best = Some (j, r, c)
           ∧ (best = Some (j, r, c) ∨ (i ≤ j)%nat ∧ l !! (j - i)%nat = Some (r, c) ∧ r ≠ 0).
Proof.
  revert i best. induction l as [|[r c] l IH]; intros i best Hb Hex; simpl.
  { destruct Hex as [Hn|(k & ? & ? & ? & _)]; [|done]. destruct best as [[[j r] c]|]; [|done].
    exists j, r, c. by auto. }
  destruct (Z.eqb_spec r 0) as [->|Hr].
  - destruct (IH (S i) best) as (j & r & c' & Hj & Hc).
    { intros j r' c' E. specialize (Hb _ _ _ E). lia. }
    { destruct Hex as [|([|k] & r' & c' & Hk & Hr')]; [by auto|by simplify_eq/=|].
      right. by exists k, r', c'. }
    exists j, r, c'. split; [done|]. destruct Hc as [|(? & Hl & ?)]; [by auto|]. right.
    split; [lia|]. by replace (j - i)%nat with (S (j - S i)) by lia.
  - set (take := match best with None => _ | Some _ => _ end).
    destruct (IH (S i) (if take then Some (i, r, c) else best)) as (j & r' & c' & Hj & Hc).
    { intros j r' c'. destruct take; intros E; [simplify_eq; lia|]. specialize (Hb _ _ _ E). lia. }
    { left. subst take. by destruct best as [[[]]|]; [destruct (websterHigherPriority _ _ _ _)|]. }
    exists j, r', c'. split; [done|]. destruct Hc as [E|(? & Hl & ?)].
    + destruct take; simplify_eq; [|by auto]. right. by rewrite Nat.sub_diag.
    + right. split; [lia|]. by replace (j - i)%nat with (S (j - S i)) by lia.
Qed.

Lemma monotone_loop_ok fuel a rs cs :
  0 ≤ a ≤ 2 ^ 63 → length cs = length rs → Forall (λ c, 0 ≤ c) cs →
  (∃ k r, rs !! k = Some r ∧ r ≠ 0) →
  zsum cs ≤ a → a - zsum cs ≤ Z.of_nat fuel →
  ∃ cs', monotoneLoop fuel a rs cs (zsum cs) = Some cs'
         ∧ length cs' = length rs ∧ zsum cs' = a ∧ Forall2 Z.le cs cs'
         ∧ ∀ i c, rs !! i = Some 0 → cs' !! i = Some c → cs !! i = Some c.
Proof.
  intros Ha. revert cs. induction fuel as [|fuel IH]; intros cs Hlen Hcs Hpos Hle Hfuel; simpl.
  - rewrite (proj2 (Z.leb_le _ _)) by lia. exists cs. split_and!; try done; lia.
  - destruct (Z.leb_spec a (zsum cs)) as [|Hlt].
    { exists cs. split_and!; try done; lia. }
    destruct (best_webster_some (zip rs cs) 0 None) as (j & r & c & -> & Hj); [done|..].
    { right. destruct Hpos as (k & r & Hk & Hr).
      destruct (lookup_lt_is_Some_2 cs k) as [c Hc]; [by apply lookup_lt_Some in Hk; lia|].
      exists k, r, c. split; [|done]. apply lookup_zip_with_Some. by exists r, c. }
    destruct Hj as [|(_ & Hj & Hr)]; [done|]. rewrite Nat.sub_0_r in Hj.
    apply lookup_zip_with_Some in Hj as (? & ? & [= <- <-] & Hrj & Hcj).
    assert (0 ≤ c ≤ zsum cs) as Hc.
    { split; [by apply (Forall_lookup_1 _ _ _ _ Hcs Hcj)|].
      by apply (zsum_lookup_le _ j). }
    rewrite (list_alter_as_insert _ _ _ _ Hcj), !u64_id by zrange.
    assert (zsum (<[j:=c + 1]> cs) = zsum cs + 1) as Hz by (rewrite (zsum_insert _ _ _ _ Hcj); lia).
    rewrite <- Hz.
    destruct (IH (<[j:=c + 1]> cs)) as (cs' & -> & Hl' & Hs' & H2 & H0); try lia; try done.
    { by rewrite length_insert. }
    { apply Forall_insert; [done|lia]. }
    exists cs'. split_and!; try done.
    + apply Forall2_same_length_lookup. apply Forall2_same_length_lookup in H2 as [Hl2 H2].
      rewrite length_insert in Hl2. split; [done|]. intros i x y Hx Hy.
      destruct (decide (i = j)) as [->|]; [|eapply H2; [|done]; by rewrite list_lookup_insert_ne].
      simplify_eq. cut (c + 1 ≤ y); [lia|]. eapply H2; [|done].
      apply list_lookup_insert_eq. by eapply lookup_lt_Some.
    + intros i x Hi Hx. specialize (H0 i x Hi Hx).
      destruct (decide (i = j)) as [->|]; [congruence|]. by rewrite list_lookup_insert_ne in H0.
Qed.

Lemma monotone_bases_sum a rs :
  0 ≤ a → 0 < zsum rs → Forall (λ r, 0 ≤ r) rs →
  a - 2 * Z.of_nat (length rs) ≤ zsum (map (monotoneBase a (zsum rs)) rs) ≤ a.
Proof.
  intros Ha HT Hrs. set (T := zsum rs) in *.
  assert (∀ l, Forall (λ r, 0 ≤ r) l →
     a * zsum l - 2 * Z.of_nat (length l) * T ≤ T * zsum (map (monotoneBase a T) l) ≤ a * zsum l) as H.
  { induction 1 as [|r l Hr _ IH]; cbn [map zsum length]; [simpl; lia|].
    pose proof (Z.div_mod (a * r) T ltac:(lia)) as Hd.
    pose proof (Z.mod_pos_bound (a * r) T HT). 
    assert (0 ≤ a * r / T) by (apply Z.div_pos; nia).
    unfold monotoneBase at 1 3. rewrite Nat2Z.inj_succ.
    destruct (Z.max_spec 0 (a * r / T - 1)) as [[? ->]|[? ->]]; nia. }
  specialize (H rs Hrs). fold T in H. nia.
Qed.

Lemma allocate_monotone_ok fuel m rs :
  in_i64 (Amount m) → valid_ratios rs → (2 * length rs ≤ fuel)%nat →
  ∃ cs, AllocateMonotone fuel m rs
          = Some (Ok (withCurrency (Cur m) (map (λ c, if Amount m <? 0 then - c else c) cs)))
        ∧ length cs = length rs ∧ zsum cs = Z.abs (Amount m)
        ∧ (∀ i r c, rs !! i = Some r → cs !! i = Some c →
             Z.abs (Amount m) * r / zsum rs - 1 ≤ c ∧ 0 ≤ c ∧ (r = 0 → c = 0)).
Proof.
  intros HA Hv Hfuel. destruct (valid_parts rs Hv) as (HT & HTi & Hrs).
  assert (Forall (λ r, 0 ≤ r) rs) as Hnn by apply Hv.
  set (a := Z.abs (Amount m)). set (T := zsum rs) in *.
  assert (0 ≤ a ≤ 2 ^ 63) as Ha by zrange.
  pose proof (monotone_bases_sum a rs ltac:(lia) HT Hnn) as Hsum. fold T in Hsum.
  assert (Forall (λ c, 0 ≤ c) (map (monotoneBase a T) rs)) as Hb0.
  { apply Forall_fmap, Forall_true. intros; unfold monotoneBase; simpl; lia. }
  unfold AllocateMonotone. rewrite sum_ratios_valid, abs_uint64_spec by done.
  fold a T. rewrite (u64_id T) by zrange.
  rewrite monotone_bases_ok by (done || lia). rewrite Z.add_0_l.
  destruct (monotone_loop_ok fuel a rs (map (monotoneBase a T) rs))
    as (cs & -> & Hlen & Hs & H2 & H0); try done; try lia.
  { by rewrite length_map. }
  { apply zsum_nonzero. subst T; lia. }
  apply Forall2_same_length_lookup in H2 as [_ H2].
  assert (∀ i r c, rs !! i = Some r → cs !! i = Some c →
            a * r / T - 1 ≤ c ∧ 0 ≤ c ∧ (r = 0 → c = 0)) as Hper.
  { intros i r c Hr Hc.
    assert (monotoneBase a T r ≤ c) as Hle.
    { eapply H2; [|done]. by rewrite list_lookup_fmap, Hr. }
    unfold monotoneBase in Hle. split_and!; [lia|lia|]. intros ->.
    specialize (H0 i c Hr Hc). rewrite list_lookup_fmap, Hr in H0. injection H0 as <-.
    unfold monotoneBase. by rewrite Z.mul_0_r, Z.div_0_l by lia. }
  exists cs. split; [|done]. do 3 f_equal. apply map_ext_in. intros c Hc.
  apply list_elem_of_In, list_elem_of_lookup in Hc as [i Hi].
  destruct (lookup_lt_is_Some_2 rs i) as [r Hr]; [apply lookup_lt_Some in Hi; lia|].
  destruct (Hper i r c Hr Hi) as (_ & Hc0 & _).
  assert (c ≤ a).
  { rewrite <- Hs. apply (zsum_lookup_le _ i); [|done]. apply Forall_lookup. intros k x Hx.
    destruct (lookup_lt_is_Some_2 rs k) as [r' Hr']; [apply lookup_lt_Some in Hx; lia|].
    by apply (Hper k r' x). }
  rewrite i64_opp. subst a. destruct (Z.ltb_spec (Amount m) 0); apply i64_id; zrange.
Qed.

(** ** Properties *)

(** [Add], [Sub] and [Mul] return the exact integer result with the
    receiver's currency exactly when it fits an int64 (and, for [Add] and [Sub],
    the currency codes agree), and the overflow or mismatch error otherwise. *)
Theorem checked_arithmetic_exact m o k :
  in_i64 (Amount m) → in_i64 (Amount o) → in_i64 k →
  Add m o = (if bool_decide (Code (Cur m) = Code (Cur o)) then
               if in_i64b (Amount m + Amount o) then Ok (mkMoney (Amount m + Amount o) (Cur m))
               else Err ErrAddOverflow
             else Err ErrAddMismatch) ∧
  Sub m o = (if bool_decide (Code (Cur m) = Code (Cur o)) then
               if in_i64b (Amount m - Amount o) then Ok (mkMoney (Amount m - Amount o) (Cur m))
               else Err ErrSubOverflow
             else Err ErrSubMismatch) ∧
  Mul m k = (if in_i64b (Amount m * k) then Ok (mkMoney (Amount m * k) (Cur m))
             else Err ErrMulOverflow).
Proof. intros. auto using add_exact, sub_exact, mul_exact. Qed.

Lemma checked_arithmetic_exact_witness :
  Add (New 7 USD) (New maxInt64 USD) = Err ErrAddOverflow ∧
  Sub (New 7 USD) (New maxInt64 USD) = Ok (New (-9223372036854775800) USD) ∧
  Mul (New 7 USD) minInt64 = Err ErrMulOverflow.
Proof.
  destruct (checked_arithmetic_exact (New 7 USD) (New maxInt64 USD) minInt64) as (H1 & H2 & H3);
    [split; vm_compute; discriminate..|].
  rewrite H1, H2, H3. repeat split; vm_compute; reflexivity.
Defined.

(** [Scale] rejects a zero divisor and a product that does not fit, and
    otherwise returns the exact rational [amount * factor / divisor] rounded as
    its mode promises (truncated; away from zero; to nearest with ties away from
    zero; to nearest with ties to even), for every divisor of magnitude at most
    [2^62] and every product other than [-2^63]. *)
Theorem scale_rounds_exactly m factor divisor mode :
  in_i64 (Amount m) → in_i64 factor → in_i64 divisor →
  (divisor = 0 → Scale m factor divisor mode = Err ErrDivisorZero) ∧
  (divisor ≠ 0 → ¬ in_i64 (Amount m * factor) →
     Scale m factor divisor mode = Err ErrScaleMulOverflow) ∧
  (divisor ≠ 0 → in_i64 (Amount m * factor) →
   Amount m * factor ≠ minInt64 → Z.abs divisor ≤ 2 ^ 62 →
     ∃ x, Scale m factor divisor mode = Ok (mkMoney x (Cur m))
          ∧ rounds_to mode (Amount m * factor) divisor x).
Proof.
  intros Ha Hf Hd. destruct (scale_errors m factor divisor mode Ha Hf) as [H1 H2].
  split_and!; [done..|]. intros. by apply scale_ok.
Qed.

Lemma scale_rounds_exactly_witness :
  ∃ x, Scale (New (-25) USD) 1 10 RoundHalfToEven = Ok (mkMoney x USD)
       ∧ rounds_to RoundHalfToEven (-25) 10 x.
Proof.
  destruct (scale_rounds_exactly (New (-25) USD) 1 10 RoundHalfToEven) as (_ & _ & H);
    [split; vm_compute; discriminate..|].
  apply H; vm_compute; intuition discriminate.
Defined.

(** Outside those bounds [Scale] is wrong without an error: doubling the
    remainder wraps for divisors above [2^62], so half-up rounding of
    [(2^62+1)/(2^63-1) > 1/2] gives [0]; and [-2^63 / -1] wraps to [-2^63],
    although the exact result [2^63] does not fit. *)
Theorem scale_wraps_silently :
  Scale (New (2 ^ 62 + 1) USD) 1 maxInt64 RoundHalfUp = Ok (New 0 USD)
  ∧ 2 * (2 ^ 62 + 1) > maxInt64
  ∧ ∀ mode, Scale (New minInt64 USD) 1 (-1) mode = Ok (New minInt64 USD).
Proof. split_and!; [vm_compute; reflexivity|done|]. by intros []. Qed.

(** [AllocateWide] never panics and always succeeds on valid ratios: the
    shares sum to the amount, each lies within one minor unit of its exact
    rational share, and the extra units go to the largest remainders, ties to
    the lowest index; this includes the amount [-2^63]. *)
Theorem allocate_wide_hamilton m rs :
  in_i64 (Amount m) → valid_ratios rs →
  ∃ shares, AllocateWide m rs = Some (Ok (withCurrency (Cur m) shares))
            ∧ hamilton (Amount m) rs shares.
Proof. intros HA Hv. destruct (allocate_wide_ok m rs HA Hv) as (s & ? & ? & _). by exists s. Qed.

Lemma allocate_wide_hamilton_witness :
  ∃ shares, AllocateWide (New minInt64 USD) [3; 0; 4] = Some (Ok (withCurrency USD shares))
            ∧ hamilton minInt64 [3; 0; 4] shares.
Proof.
  apply (allocate_wide_hamilton (New minInt64 USD)); [split; vm_compute; discriminate|].
  split_and!; [repeat constructor; vm_compute; discriminate..|done|
               split; vm_compute; discriminate|vm_compute; discriminate].
Defined.

(** The 64-bit [Allocate] agrees with [AllocateWide] on every input: it
    returns the same ratio error or the same shares, except that it rejects with
    its overflow error exactly when some product [amount * ratio] does not fit
    an int64. *)
Theorem allocate_refines_wide m rs :
  in_i64 (Amount m) → Forall in_i64 rs → Z.of_nat (length rs) ≤ maxInt64 →
  ∃ r, AllocateWide m rs = Some r
       ∧ Allocate m rs = match sumRatios rs with
                         | Err e => Err e
                         | Ok _ => if forallb (λ r, in_i64b (Amount m * r)) rs then r
                                   else Err ErrAllocMulOverflow
                         end
       ∧ (∀ e, sumRatios rs = Err e → r = Err e).
Proof. apply allocate_agree. Qed.

Lemma allocate_refines_wide_witness :
  Allocate (New maxInt64 USD) [1; 2] = Err ErrAllocMulOverflow
  ∧ Allocate (New 100 USD) [1; 1; 1] = Ok (withCurrency USD [34; 33; 33]).
Proof.
  split.
  - destruct (allocate_refines_wide (New maxInt64 USD) [1; 2]) as (r & _ & H & _);
      [split; vm_compute; discriminate|repeat constructor; vm_compute; discriminate
      |vm_compute; discriminate|]. by rewrite H.
  - vm_compute. reflexivity.
Defined.

(** C40: [AllocateMonotone] terminates within two divisor steps per ratio and
    conserves the amount: the counts sum to its magnitude, carry its sign, give
    nothing to a zero ratio and never fall more than one below the floor of the
    quota. *)
Theorem allocate_monotone_conserves fuel m rs :
  in_i64 (Amount m) → valid_ratios rs → (2 * length rs ≤ fuel)%nat →
  ∃ cs, AllocateMonotone fuel m rs
          = Some (Ok (withCurrency (Cur m) (map (λ c, if Amount m <? 0 then - c else c) cs)))
        ∧ length cs = length rs ∧ zsum cs = Z.abs (Amount m)
        ∧ (∀ i r c, rs !! i = Some r → cs !! i = Some c →
             Z.abs (Amount m) * r / zsum rs - 1 ≤ c ∧ 0 ≤ c ∧ (r = 0 → c = 0)).
Proof. apply allocate_monotone_ok. Qed.

Lemma allocate_monotone_conserves_witness :
  ∃ cs, AllocateMonotone 6 (New (-10) USD) [5; 0; 2]
          = Some (Ok (withCurrency USD (map (λ c, - c) cs))) ∧ zsum cs = 10.
Proof.
  destruct (allocate_monotone_conserves 6 (New (-10) USD) [5; 0; 2]) as (cs & H1 & _ & H2 & _);
    [split; vm_compute; discriminate| |simpl; lia|exists cs; split; [exact H1|exact H2]].
  split_and!; [repeat constructor; vm_compute; discriminate..|done|
               split; vm_compute; discriminate|vm_compute; discriminate].
Defined.

(** [AllocateMonotone] is not house-monotone, against its documentation:
    raising the amount from 35 to 36 with ratios [28, 28] and seven times [1]
    takes the last recipient from 1 to 0, because the starting jump to
    [floor(quota) - 1] gives both large recipients a unit at once. *)
Theorem allocate_monotone_not_house_monotone :
  let rs := [28; 28; 1; 1; 1; 1; 1; 1; 1] in
  AllocateMonotone 18 (New 35 USD) rs = Some (Ok (withCurrency USD [14; 14; 1; 1; 1; 1; 1; 1; 1]))
  ∧ AllocateMonotone 18 (New 36 USD) rs = Some (Ok (withCurrency USD [15; 15; 1; 1; 1; 1; 1; 1; 0])).
Proof. split; vm_compute; reflexivity. Qed.
