(* ===== verification/Isop.v ===== *)
(** * Isop: truth tables and the Minato-Morreale cover

    Models the boolean part of [server-kit/go/policy/isop.go]: cubes, truth
    tables packed in 64-bit words, their cofactors, and the recursive
    irredundant sum-of-products construction.  A table over [n] variables is
    read through [Get]; the recursion is on the number of variables, so fuel
    [n + 1] is enough (proved below). *)

From Stdlib Require Import ZArith Lia.
From stdpp Require Import base list numbers.
From S2P Require Import Prelude Words.

Definition MaxISOPAtoms : Z := 16.

(** ** Cubes *)

Record Cube := mkCube { Pos : Z; Neg : Z }.

(** [Covers]: uint32 masks; [^assignment] is the 32-bit complement. *)
Definition Covers (c : Cube) (assignment : Z) : bool :=
  (Z.land assignment (Pos c) =? Pos c) && (Z.land (u32 (Z.lnot assignment)) (Neg c) =? Neg c).

(** ** Truth tables *)

Record TruthTable := mkTable { nVars : Z; words : list Z }.

Definition NewTruthTable (n : Z) : TruthTable :=
  let n := if (n <? 0) || (MaxISOPAtoms <? n) then MaxISOPAtoms else n in
  let size := Z.shiftl 1 n in
  mkTable n (replicate (Z.to_nat ((size + 63) / 64)) 0).

Definition maskLast (t : TruthTable) : Z :=
  if 6 <=? nVars t then 2 ^ 64 - 1
  else u64 (Z.shiftl 1 (Z.shiftl 1 (nVars t)) - 1).

(** The words with the mask applied to the last one: what the three loops of
    [IsZero], [IsOne] and [Equal] compare. *)
Fixpoint maskedWords (m : Z) (ws : list Z) : list Z :=
  match ws with
  | [] => []
  | [w] => [Z.land w m]
  | w :: rest => w :: maskedWords m rest
  end.

Definition IsZero (t : TruthTable) : bool :=
  forallb (λ w, w =? 0) (maskedWords (maskLast t) (words t)).

Fixpoint isOneWords (m : Z) (ws : list Z) : bool :=
  match ws with
  | [] => true
  | [w] => Z.land w m =? m
  | w :: rest => (w =? 2 ^ 64 - 1) && isOneWords m rest
  end.

Definition IsOne (t : TruthTable) : bool := isOneWords (maskLast t) (words t).

Definition Equal (t other : TruthTable) : bool :=
  (nVars t =? nVars other) && (length (words t) =? length (words other))%nat
  && bool_decide (maskedWords (maskLast t) (words t) = maskedWords (maskLast t) (words other)).

Definition Get (t : TruthTable) (assignment : Z) : bool :=
  let idx := Z.shiftr assignment 6 in
  let bit := Z.land assignment 63 in
  match words t !! Z.to_nat idx with
  | None => false
  | Some w => Z.land (Z.shiftr w bit) 1 =? 1
  end.

(** [Set] writes through the shared word slice; the model returns the table. *)
Definition Set_ (t : TruthTable) (assignment : Z) (val : bool) : TruthTable :=
  let idx := Z.to_nat (Z.shiftr assignment 6) in
  let bit := Z.land assignment 63 in
  match words t !! idx with
  | None => t
  | Some w =>
      mkTable (nVars t)
        (<[idx := if val then Z.lor w (Z.shiftl 1 bit) else Z.ldiff w (Z.shiftl 1 bit)]> (words t))
  end.

Definition and_ (t other : TruthTable) : TruthTable :=
  mkTable (nVars (NewTruthTable (nVars t))) (zip_with Z.land (words t) (words other)).
Definition andNot (t other : TruthTable) : TruthTable :=
  mkTable (nVars (NewTruthTable (nVars t))) (zip_with Z.ldiff (words t) (words other)).
Definition or_ (t other : TruthTable) : TruthTable :=
  mkTable (nVars (NewTruthTable (nVars t))) (zip_with Z.lor (words t) (words other)).

(** [for a := range limit { if p(a) { out.Set(a, true) } }] *)
Definition setWhere (limit : Z) (p : Z → bool) (out : TruthTable) : TruthTable :=
  foldl (λ t a, if p (Z.of_nat a) then Set_ t (Z.of_nat a) true else t) out
        (seq 0 (Z.to_nat limit)).

Definition cofactors (t : TruthTable) : TruthTable * TruthTable :=
  let v := nVars t - 1 in
  let half := Z.shiftl 1 v in
  (setWhere half (λ a, Get t a) (NewTruthTable v),
   setWhere half (λ a, Get t (Z.lor a half)) (NewTruthTable v)).

Definition tableFromCubes (n : Z) (cubes : list Cube) : TruthTable :=
  let out := NewTruthTable n in
  match cubes with
  | [] => out
  | _ => setWhere (Z.shiftl 1 n) (λ a, existsb (λ c, Covers c a) cubes) out
  end.

(** ** The recursion *)

Fixpoint MinatoMorrealeISOP (fuel : nat) (lower upper : TruthTable) : option (list Cube) :=
  if IsZero lower then Some []
  else if IsOne upper then Some [mkCube 0 0]
  else if nVars lower =? 0 then Some [mkCube 0 0]
  else
    match fuel with
    | O => None
    | S fuel' =>
        let v := nVars lower - 1 in
        let bit := Z.shiftl 1 v in
        let '(l0, l1) := cofactors lower in
        let '(u0, u1) := cofactors upper in
        match MinatoMorrealeISOP fuel' (andNot l0 u1) u0,
              MinatoMorrealeISOP fuel' (andNot l1 u0) u1 with
        | Some c0, Some c1 =>
            let cov0 := tableFromCubes v c0 in
            let cov1 := tableFromCubes v c1 in
            let lStar := or_ (andNot l0 cov0) (andNot l1 cov1) in
            let uStar := and_ u0 u1 in
            match MinatoMorrealeISOP fuel' lStar uStar with
            | Some cStar =>
                Some (map (λ c, mkCube (Pos c) (Z.lor (Neg c) bit)) c0
                      ++ map (λ c, mkCube (Z.lor (Pos c) bit) (Neg c)) c1
                      ++ cStar)
            | None => None
            end
        | _, _ => None
        end
    end.

(** ** Reading tables *)

(** A table the package builds: [n] variables, the word count of
    [NewTruthTable], words that are uint64. *)
Record wf_table (n : Z) (t : TruthTable) : Prop := {
  wf_vars : nVars t = n;
  wf_n : 0 ≤ n ≤ MaxISOPAtoms;
  wf_len : length (words t) = Z.to_nat ((2 ^ n + 63) / 64);
  wf_words : Forall in_u64 (words t)
}.

Lemma get_spec t a : 0 ≤ a →
  Get t a = match words t !! Z.to_nat (a / 64) with
            | None => false | Some w => Z.testbit w (a mod 64) end.
Proof.
  intros Ha. unfold Get. rewrite shiftr_6, land_63 by done.
  destruct (words t !! _); [|done]. rewrite land_1_eqb, Z.shiftr_spec by done.
  by rewrite Z.add_0_l.
Qed.

(** The case split on the word count: 17 possible table sizes. *)
Lemma table_size n : 0 ≤ n ≤ MaxISOPAtoms →
  (n < 6 ∧ (2 ^ n + 63) / 64 = 1 ∧ 2 ^ n ≤ 32) ∨
  (6 ≤ n ∧ 64 * ((2 ^ n + 63) / 64) = 2 ^ n).
Proof.
  unfold MaxISOPAtoms. intros Hn.
  assert (n = 0 ∨ n = 1 ∨ n = 2 ∨ n = 3 ∨ n = 4 ∨ n = 5 ∨ n = 6 ∨ n = 7 ∨ n = 8 ∨ n = 9 ∨ n = 10
          ∨ n = 11 ∨ n = 12 ∨ n = 13 ∨ n = 14 ∨ n = 15 ∨ n = 16) as Hcase by lia.
  repeat (destruct Hcase as [->|Hcase]); subst; by (left; vm_compute; repeat split; discriminate) || (right; vm_compute; split; [discriminate|reflexivity]).
Qed.

Lemma new_table_wf n : 0 ≤ n ≤ MaxISOPAtoms → wf_table n (NewTruthTable n).
Proof.
  intros Hn. unfold NewTruthTable.
  rewrite (proj2 (Z.ltb_ge n 0)), (proj2 (Z.ltb_ge MaxISOPAtoms n)) by lia. cbn [orb].
  split; cbn [nVars words]; [done|done|..].
  - by rewrite length_replicate, Z.shiftl_1_l.
  - apply Forall_replicate. split; [done|reflexivity].
Qed.

Lemma new_vars n : 0 ≤ n ≤ MaxISOPAtoms → nVars (NewTruthTable n) = n.
Proof. intros H. apply (wf_vars _ _ (new_table_wf n H)). Qed.

Lemma get_new n a : 0 ≤ a → Get (NewTruthTable n) a = false.
Proof.
  intros Ha. rewrite get_spec by done. unfold NewTruthTable. cbn [words].
  destruct (replicate _ 0 !! _) eqn:E; [|done].
  apply lookup_replicate in E as [-> _]. apply Z.bits_0.
Qed.

(** Every assignment below [2^n] has its word. *)
Lemma table_word n t a : wf_table n t → 0 ≤ a < 2 ^ n →
  ∃ w, words t !! Z.to_nat (a / 64) = Some w ∧ in_u64 w.
Proof.
  intros [_ Hn Hlen Hw] Ha.
  destruct (lookup_lt_is_Some_2 (words t) (Z.to_nat (a / 64))) as [w E].
  { rewrite Hlen. apply Z2Nat.inj_lt; [apply Z.div_pos; lia|apply Z.div_pos; lia|].
    apply Z.div_lt_upper_bound; [done|].
    destruct (table_size n Hn) as [(? & -> & ?)|(? & ?)]; lia. }
  exists w. split; [done|]. by apply (Forall_lookup_1 _ _ _ _ Hw E).
Qed.

Lemma mod_64 a : 0 ≤ a mod 64 < 64.
Proof. by apply Z.mod_pos_bound. Qed.

Lemma set_wf n t a v : 0 ≤ a → wf_table n t → wf_table n (Set_ t a v).
Proof.
  intros Ha [Hv Hn Hlen Hw]. unfold Set_. rewrite shiftr_6, land_63 by done.
  destruct (words t !! _) as [w|] eqn:E; [|by split].
  pose proof (Forall_lookup_1 _ _ _ _ Hw E) as Hwu. simpl in Hwu. pose proof (mod_64 a) as Hm.
  split; cbn [nVars words]; [done|done|by rewrite length_insert|].
  apply Forall_insert; [done|].
  destruct v; auto using in_u64_lor, in_u64_ldiff, in_u64_bit.
Qed.

Lemma div_mod_64_inj a b : a / 64 = b / 64 → a mod 64 = b mod 64 → a = b.
Proof. intros H1 H2. pose proof (Z.div_mod a 64). pose proof (Z.div_mod b 64). lia. Qed.

Lemma get_set_true n t a b : wf_table n t → 0 ≤ a < 2 ^ n → 0 ≤ b →
  Get (Set_ t a true) b = (a =? b) || Get t b.
Proof.
  intros Hwf Ha Hb. destruct (table_word n t a Hwf Ha) as (w & E & Hw).
  rewrite !get_spec by lia. unfold Set_. rewrite shiftr_6, land_63, E by lia. cbn [words].
  pose proof (mod_64 a) as Hma. pose proof (mod_64 b) as Hmb.
  destruct (decide (a / 64 = b / 64)) as [Hd|Hd].
  - rewrite <- Hd, list_lookup_insert_eq, E by (by eapply lookup_lt_Some).
    rewrite Z.lor_spec, Z.shiftl_1_l, Z.pow2_bits_eqb by lia.
    destruct (Z.eqb_spec a b) as [->|Hne].
    + rewrite Z.eqb_refl. apply orb_true_r.
    + rewrite (proj2 (Z.eqb_neq _ _)); [apply orb_false_r|].
      intros Hm. apply Hne. by apply div_mod_64_inj.
  - rewrite list_lookup_insert_ne.
    + rewrite (proj2 (Z.eqb_neq a b)); [done|]. by intros ->.
    + intros Hn. apply Z2Nat.inj in Hn; [done|apply Z.div_pos; lia|apply Z.div_pos; lia].
Qed.

Lemma set_where_spec n limit p t : wf_table n t → 0 ≤ limit ≤ 2 ^ n →
  wf_table n (setWhere limit p t) ∧
  ∀ b, 0 ≤ b → Get (setWhere limit p t) b = (b <? limit) && p b || Get t b.
Proof.
  intros Hwf Hl. unfold setWhere.
  assert (∀ k s u, wf_table n u → Z.of_nat (s + k) ≤ 2 ^ n →
    let r := foldl (λ t a, if p (Z.of_nat a) then Set_ t (Z.of_nat a) true else t) u (seq s k) in
    wf_table n r ∧
    ∀ b, 0 ≤ b → Get r b = (Z.of_nat s <=? b) && (b <? Z.of_nat (s + k)) && p b || Get u b) as H.
  { induction k as [|k IH]; intros s u Hu Hs; cbn [seq foldl].
    { split; [done|]. intros b Hb. replace ((_ <=? b) && (b <? _))%bool with false; [done|].
      rewrite Nat.add_0_r. symmetry. apply andb_false_iff. lia. }
    destruct (IH (S s) (if p (Z.of_nat s) then Set_ u (Z.of_nat s) true else u)) as [Hw Hg].
    { destruct (p _); [apply set_wf; [lia|done]|done]. }
    { lia. }
    split; [done|]. intros b Hb. rewrite Hg by done.
    assert (Get (if p (Z.of_nat s) then Set_ u (Z.of_nat s) true else u) b
            = (Z.of_nat s =? b) && p b || Get u b) as ->.
    { destruct (Z.eqb_spec (Z.of_nat s) b) as [<-|Hne].
      - destruct (p (Z.of_nat s)); [|done]. rewrite (get_set_true n) by (done || lia).
        by rewrite Z.eqb_refl.
      - destruct (p (Z.of_nat s)); [|done]. rewrite (get_set_true n) by (done || lia).
        by rewrite (proj2 (Z.eqb_neq _ _)). }
    rewrite orb_assoc. f_equal. rewrite <- andb_orb_distrib_l. f_equal.
    apply Bool.eq_iff_eq_true.
    rewrite orb_true_iff, !andb_true_iff, !Z.leb_le, !Z.ltb_lt, Z.eqb_eq. lia. }
  destruct (H (Z.to_nat limit) 0%nat t Hwf) as [Hw Hg]; [lia|].
  split; [done|]. intros b Hb. rewrite Hg by done. f_equal. f_equal.
  apply Bool.eq_iff_eq_true. rewrite !andb_true_iff, !Z.ltb_lt, Z.leb_le. lia.
Qed.

Lemma zip_table_spec n (f : Z → Z → Z) (g : bool → bool → bool) t u r :
  (∀ a b, in_u64 a → in_u64 b → in_u64 (f a b)) →
  (∀ a b i, 0 ≤ i → Z.testbit (f a b) i = g (Z.testbit a i) (Z.testbit b i)) →
  wf_table n t → wf_table n u →
  r = mkTable (nVars (NewTruthTable (nVars t))) (zip_with f (words t) (words u)) →
  wf_table n r ∧ ∀ a, 0 ≤ a < 2 ^ n → Get r a = g (Get t a) (Get u a).
Proof.
  intros Hf Hg Ht Hu ->. split.
  - destruct Ht as [-> Hn Hlt Hwt], Hu as [_ _ Hlu Hwu]. split; cbn [nVars words].
    + by apply new_vars.
    + done.
    + rewrite length_zip_with. lia.
    + apply Forall_lookup. intros i w Hi.
      apply lookup_zip_with_Some in Hi as (x & y & -> & Hx & Hy).
      apply Hf; [exact (Forall_lookup_1 _ _ _ _ Hwt Hx)|exact (Forall_lookup_1 _ _ _ _ Hwu Hy)].
  - intros a Ha. rewrite !get_spec by lia. cbn [words].
    destruct (table_word n t a Ht Ha) as (x & Hx & _).
    destruct (table_word n u a Hu Ha) as (y & Hy & _).
    rewrite lookup_zip_with, Hx, Hy. cbn. pose proof (mod_64 a). apply Hg. lia.
Qed.

Lemma and_spec n t u : wf_table n t → wf_table n u →
  wf_table n (and_ t u) ∧ ∀ a, 0 ≤ a < 2 ^ n → Get (and_ t u) a = Get t a && Get u a.
Proof.
  intros. apply (zip_table_spec n Z.land andb); eauto using in_u64_land.
  intros. by apply Z.land_spec.
Qed.

Lemma or_spec n t u : wf_table n t → wf_table n u →
  wf_table n (or_ t u) ∧ ∀ a, 0 ≤ a < 2 ^ n → Get (or_ t u) a = Get t a || Get u a.
Proof.
  intros. apply (zip_table_spec n Z.lor orb); eauto using in_u64_lor.
  intros. by apply Z.lor_spec.
Qed.

Lemma andNot_spec n t u : wf_table n t → wf_table n u →
  wf_table n (andNot t u) ∧ ∀ a, 0 ≤ a < 2 ^ n → Get (andNot t u) a = Get t a && negb (Get u a).
Proof.
  intros. apply (zip_table_spec n Z.ldiff (λ x y, x && negb y)); eauto using in_u64_ldiff.
  intros. by apply Z.ldiff_spec.
Qed.

(** ** Masked words *)

Lemma masked_lookup m ws i :
  maskedWords m ws !! i =
    match ws !! i with
    | None => None
    | Some w => Some (if bool_decide (S i = length ws) then Z.land w m else w)
    end.
Proof.
  revert i. induction ws as [|w ws IH]; intros i; [done|].
  destruct ws as [|w' ws].
  { destruct i as [|i]; [by rewrite bool_decide_eq_true_2|done]. }
  destruct i as [|i]; [by rewrite bool_decide_eq_false_2|].
  change (maskedWords m (w' :: ws) !! i = match (w' :: ws) !! i with
    | None => None
    | Some w0 => Some (if bool_decide (S (S i) = length (w :: w' :: ws)) then Z.land w0 m else w0) end).
  rewrite IH. destruct ((w' :: ws) !! i); [|done].
  rewrite (bool_decide_ext (S (S i) = _) (S i = length (w' :: ws))); [done|simpl; lia].
Qed.

Lemma mask_last_bits n t i : wf_table n t → 0 ≤ i →
  Z.testbit (maskLast t) i = (i <? (if 6 <=? n then 64 else 2 ^ n)).
Proof.
  intros [Hv Hn _ _] Hi. unfold maskLast. rewrite Hv.
  destruct (Z.leb_spec 6 n).
  - change (2 ^ 64 - 1) with (Z.ones 64). by rewrite Z.testbit_ones_nonneg by lia.
  - destruct (table_size n Hn) as [(_ & _ & Hs)|[? _]]; [|lia].
    rewrite !Z.shiftl_1_l, u64_id.
    + rewrite <- Z.sub_1_r, <- Z.ones_equiv || rewrite Z.sub_1_r, <- Z.ones_equiv.
      by rewrite Z.testbit_ones_nonneg by lia.
    + assert (0 < 2 ^ 2 ^ n) by (apply Z.pow_pos_nonneg; lia).
      assert (2 ^ 2 ^ n ≤ 2 ^ 32) by (apply Z.pow_le_mono_r; lia).
      change (2 ^ 32) with 4294967296 in *. zrange.
Qed.

(** Bit [b] of masked word [i] is the truth value at [64 i + b], if that is an
    assignment of the table at all. *)
Lemma masked_bit n t i w b : wf_table n t →
  maskedWords (maskLast t) (words t) !! i = Some w → 0 ≤ b < 64 →
  Z.testbit w b = (64 * Z.of_nat i + b <? 2 ^ n) && Get t (64 * Z.of_nat i + b).
Proof.
  intros Hwf Hi Hb. rewrite masked_lookup in Hi.
  destruct (words t !! i) as [w0|] eqn:E; [|done]. injection Hi as <-.
  pose proof Hwf as [_ Hn Hlen _]. pose proof (lookup_lt_Some _ _ _ E) as Hlt.
  assert ((64 * Z.of_nat i + b) / 64 = Z.of_nat i ∧ (64 * Z.of_nat i + b) mod 64 = b) as [Hd Hm].
  { split; [symmetry; apply (Z.div_unique _ _ _ b)|symmetry; apply (Z.mod_unique _ _ (Z.of_nat i))]; lia. }
  rewrite get_spec, Hd, Hm, Nat2Z.id, E by lia.
  destruct (table_size n Hn) as [(? & Hs & ?)|(? & Hs)].
  - rewrite Hs in Hlen. assert (i = 0%nat) as -> by lia.
    rewrite bool_decide_eq_true_2 by lia.
    rewrite Z.land_spec, (mask_last_bits n) by (done || lia).
    rewrite (proj2 (Z.leb_gt 6 n)) by lia. rewrite andb_comm. f_equal.
  - assert ((64 * Z.of_nat i + b <? 2 ^ n) = true) as -> by (apply Z.ltb_lt; lia).
    case_bool_decide; [|done]. rewrite Z.land_spec, (mask_last_bits n) by (done || lia).
    rewrite (proj2 (Z.leb_le 6 n)), (proj2 (Z.ltb_lt b 64)) by lia. apply andb_true_r.
Qed.

Lemma masked_in_u64 n t i w : wf_table n t →
  maskedWords (maskLast t) (words t) !! i = Some w → in_u64 w.
Proof.
  intros Hwf Hi. rewrite masked_lookup in Hi. pose proof Hwf as [_ _ _ Hw].
  destruct (words t !! i) as [w0|] eqn:E; [|done].
  pose proof (Forall_lookup_1 _ _ _ _ Hw E) as Hu. simpl in Hu.
  case_bool_decide; simplify_eq; [|done].
  apply in_u64_intro; [apply Z.land_nonneg; unfold in_u64 in *; lia|].
  intros j Hj. by rewrite Z.land_spec, in_u64_testbit.
Qed.

(** Equality of uint64 words from their 64 bits. *)
Lemma in_u64_bits_eq w w' : in_u64 w → in_u64 w' →
  (∀ b, 0 ≤ b < 64 → Z.testbit w b = Z.testbit w' b) → w = w'.
Proof.
  intros Hw Hw' H. apply Z.bits_inj'. intros b Hb.
  destruct (Z.lt_ge_cases b 64); [by apply H|]. by rewrite !in_u64_testbit.
Qed.

Lemma assignment_word n t a : wf_table n t → 0 ≤ a < 2 ^ n →
  ∃ w, maskedWords (maskLast t) (words t) !! Z.to_nat (a / 64) = Some w
       ∧ Get t a = Z.testbit w (a mod 64)
       ∧ 64 * Z.of_nat (Z.to_nat (a / 64)) + a mod 64 = a.
Proof.
  intros Hwf Ha. destruct (table_word n t a Hwf Ha) as (w & E & _).
  pose proof (Z.div_pos a 64 ltac:(lia) ltac:(lia)). pose proof (mod_64 a) as Hm.
  assert (64 * Z.of_nat (Z.to_nat (a / 64)) + a mod 64 = a) as He.
  { rewrite Z2Nat.id by done. pose proof (Z.div_mod a 64). lia. }
  destruct (maskedWords (maskLast t) (words t) !! Z.to_nat (a / 64)) as [w'|] eqn:E'.
  - exists w'. split; [done|]. split; [|done].
    rewrite (masked_bit n t _ _ _ Hwf E' Hm), He.
    by rewrite (proj2 (Z.ltb_lt _ _)) by lia.
  - rewrite masked_lookup, E in E'. done.
Qed.

Lemma is_zero_spec n t : wf_table n t →
  IsZero t = true ↔ ∀ a, 0 ≤ a < 2 ^ n → Get t a = false.
Proof.
  intros Hwf. unfold IsZero. rewrite forallb_forall. split; intros H.
  - intros a Ha. destruct (assignment_word n t a Hwf Ha) as (w & Hw & -> & _).
    assert (w = 0) as ->; [|apply Z.bits_0].
    apply Z.eqb_eq, H, list_elem_of_In. by eapply list_elem_of_lookup_2.
  - intros w Hw. apply list_elem_of_In, list_elem_of_lookup in Hw as [i Hi].
    apply Z.eqb_eq, in_u64_bits_eq; [by eapply masked_in_u64|split; [done|reflexivity]|].
    intros b Hb. rewrite (masked_bit n t i w b), Z.bits_0 by done.
    destruct (Z.ltb_spec (64 * Z.of_nat i + b) (2 ^ n)); [|done].
    rewrite H by lia. done.
Qed.

Lemma is_one_words m ws i w :
  isOneWords m ws = true → maskedWords m ws !! i = Some w →
  w = if bool_decide (S i = length ws) then m else 2 ^ 64 - 1.
Proof.
  revert i. induction ws as [|x ws IH]; intros i H Hi; [done|].
  destruct ws as [|y ws].
  { simpl in H. apply Z.eqb_eq in H. destruct i as [|i]; [|done].
    rewrite bool_decide_eq_true_2 by done. simpl in Hi. congruence. }
  change ((x =? 2 ^ 64 - 1) && isOneWords m (y :: ws) = true) in H.
  apply andb_true_iff in H as [Hx H]. apply Z.eqb_eq in Hx.
  destruct i as [|i].
  { rewrite bool_decide_eq_false_2 by done. simpl in Hi. congruence. }
  rewrite (IH i H Hi). rewrite (bool_decide_ext (S (S i) = _) (S i = length (y :: ws))); [done|simpl; lia].
Qed.

Lemma is_one_get n t a : wf_table n t → IsOne t = true → 0 ≤ a < 2 ^ n → Get t a = true.
Proof.
  intros Hwf H Ha. destruct (assignment_word n t a Hwf Ha) as (w & Hw & -> & He).
  pose proof (mod_64 a) as Hm. pose proof Hwf as [_ Hn Hlen _].
  rewrite (is_one_words _ _ _ _ H Hw). case_bool_decide as Hl.
  - rewrite (mask_last_bits n) by (done || lia). destruct (Z.leb_spec 6 n); apply Z.ltb_lt; [lia|].
    destruct (table_size n Hn) as [(_ & Hs & _)|[? _]]; [|lia]. rewrite Hs in Hlen. lia.
  - change (2 ^ 64 - 1) with (Z.ones 64). rewrite Z.testbit_ones_nonneg by lia. apply Z.ltb_lt. lia.
Qed.

Lemma equal_spec n t u : wf_table n t → wf_table n u →
  Equal t u = true ↔ ∀ a, 0 ≤ a < 2 ^ n → Get t a = Get u a.
Proof.
  intros Ht Hu. pose proof Ht as [Hvt _ Hlt _]. pose proof Hu as [Hvu _ Hlu _].
  assert (maskLast t = maskLast u) as Hm by (unfold maskLast; by rewrite Hvt, Hvu).
  unfold Equal. rewrite !andb_true_iff, bool_decide_eq_true, Z.eqb_eq, Nat.eqb_eq.
  split.
  - intros [_ He] a Ha. destruct (assignment_word n t a Ht Ha) as (w & Hw & -> & _).
    destruct (assignment_word n u a Hu Ha) as (w' & Hw' & -> & _).
    rewrite He, Hm in Hw. congruence.
  - intros H. split; [split; congruence|]. apply list_eq. intros i. rewrite Hm at 2.
    destruct (maskedWords (maskLast t) (words t) !! i) as [w|] eqn:E,
             (maskedWords (maskLast u) (words u) !! i) as [w'|] eqn:E'.
    + f_equal. apply in_u64_bits_eq; [exact (masked_in_u64 n t i w Ht E)|exact (masked_in_u64 n u i w' Hu E')|].
      intros b Hb.
      rewrite (masked_bit n t i w b), (masked_bit n u i w' b) by done.
      destruct (Z.ltb_spec (64 * Z.of_nat i + b) (2 ^ n)); [|done]. rewrite H by lia. done.
    + rewrite masked_lookup in E, E'. destruct (words t !! i) eqn:E1, (words u !! i) eqn:E2; try done.
      apply lookup_lt_Some in E1. apply lookup_ge_None in E2. lia.
    + rewrite masked_lookup in E, E'. destruct (words t !! i) eqn:E1, (words u !! i) eqn:E2; try done.
      apply lookup_ge_None in E1. apply lookup_lt_Some in E2. lia.
    + done.
Qed.

(** ** Cofactors and covers *)

Lemma lor_half v a : 0 ≤ v → 0 ≤ a < 2 ^ v → Z.lor a (2 ^ v) = a + 2 ^ v.
Proof.
  intros Hv Ha. symmetry. rewrite <- Z.lxor_lor; [apply Z.add_nocarry_lxor|].
  all: apply Z.bits_inj'; intros i Hi; rewrite Z.land_spec, Z.bits_0, Z.pow2_bits_eqb by lia;
    destruct (Z.eqb_spec v i) as [<-|]; [|apply andb_false_r];
    rewrite andb_true_r; destruct (decide (a = 0)) as [->|]; [apply Z.bits_0|];
    apply Z.bits_above_log2; [lia|]; apply Z.log2_lt_pow2; lia.
Qed.

Lemma pow_split n : 1 ≤ n → 2 ^ n = 2 ^ (n - 1) + 2 ^ (n - 1).
Proof. intros H. replace n with (Z.succ (n - 1)) at 1 by lia. rewrite Z.pow_succ_r by lia. lia. Qed.

Lemma cofactors_spec n t : wf_table n t → 1 ≤ n →
  let '(f0, f1) := cofactors t in
  wf_table (n - 1) f0 ∧ wf_table (n - 1) f1 ∧
  ∀ a, 0 ≤ a < 2 ^ (n - 1) → Get f0 a = Get t a ∧ Get f1 a = Get t (a + 2 ^ (n - 1)).
Proof.
  intros Hwf Hn. pose proof Hwf as [Hv Hn' _ _]. unfold cofactors. rewrite Hv, Z.shiftl_1_l.
  assert (0 < 2 ^ (n - 1)) by (apply Z.pow_pos_nonneg; lia).
  destruct (set_where_spec (n - 1) (2 ^ (n - 1)) (λ a, Get t a) (NewTruthTable (n - 1))) as [H0 G0];
    [apply new_table_wf; lia|lia|].
  destruct (set_where_spec (n - 1) (2 ^ (n - 1)) (λ a, Get t (Z.lor a (2 ^ (n - 1))))
              (NewTruthTable (n - 1))) as [H1 G1]; [apply new_table_wf; lia|lia|].
  split_and!; [done..|]. intros a Ha. rewrite G0, G1, !get_new, lor_half by lia.
  rewrite (proj2 (Z.ltb_lt a _)) by lia. cbn [andb]. by rewrite !orb_false_r.
Qed.

Lemma table_from_cubes_spec n cubes : 0 ≤ n ≤ MaxISOPAtoms →
  wf_table n (tableFromCubes n cubes) ∧
  ∀ a, 0 ≤ a < 2 ^ n → Get (tableFromCubes n cubes) a = existsb (λ c, Covers c a) cubes.
Proof.
  intros Hn. unfold tableFromCubes. pose proof (new_table_wf n Hn) as Hw.
  destruct cubes as [|c cubes].
  { split; [done|]. intros a Ha. by rewrite get_new by lia. }
  rewrite Z.shiftl_1_l.
  assert (0 < 2 ^ n) by (apply Z.pow_pos_nonneg; lia).
  destruct (set_where_spec n (2 ^ n) (λ a, existsb (λ c, Covers c a) (c :: cubes)) _ Hw) as [H1 H2];
    [lia|].
  split; [done|]. intros a Ha. rewrite H2, get_new by lia.
  rewrite (proj2 (Z.ltb_lt a _)) by lia. by rewrite orb_false_r.
Qed.

(** A cube over the variables below [v]. *)
Definition cube_in (v : Z) (c : Cube) : Prop := 0 ≤ Pos c < 2 ^ v ∧ 0 ≤ Neg c < 2 ^ v.

Lemma bits_below v z i : 0 ≤ z < 2 ^ v → 0 ≤ v ≤ i → Z.testbit z i = false.
Proof.
  intros Hz Hi. destruct (decide (z = 0)) as [->|]; [apply Z.bits_0|].
  apply Z.bits_above_log2; [lia|]. assert (Z.log2 z < v); [|lia]. apply Z.log2_lt_pow2; lia.
Qed.

Lemma below_bits v z : 0 ≤ v → 0 ≤ z → (∀ i, v ≤ i → Z.testbit z i = false) → z < 2 ^ v.
Proof.
  intros Hv Hz H. destruct (decide (z = 0)) as [->|]; [apply Z.pow_pos_nonneg; lia|].
  apply Z.log2_lt_pow2; [lia|]. destruct (Z.lt_ge_cases (Z.log2 z) v) as [|Hge]; [done|].
  specialize (H _ Hge). rewrite Z.bit_log2 in H by lia. done.
Qed.

Lemma land_eq_iff a p : 0 ≤ p →
  (Z.land a p =? p) = true ↔ ∀ i, 0 ≤ i → Z.testbit p i = true → Z.testbit a i = true.
Proof.
  intros Hp. rewrite Z.eqb_eq. split.
  - intros H i Hi Hb. rewrite <- H in Hb. rewrite Z.land_spec in Hb.
    by apply andb_true_iff in Hb as [? _].
  - intros H. apply Z.bits_inj'. intros i Hi. rewrite Z.land_spec.
    destruct (Z.testbit p i) eqn:E; [|apply andb_false_r]. by rewrite H.
Qed.

Lemma covers_iff v c a : 0 ≤ v ≤ 32 → cube_in v c → 0 ≤ a →
  Covers c a = true ↔
  ∀ i, 0 ≤ i → (Z.testbit (Pos c) i = true → Z.testbit a i = true)
             ∧ (Z.testbit (Neg c) i = true → Z.testbit a i = false).
Proof.
  intros Hv [HP HN] Ha. unfold Covers. rewrite andb_true_iff, !land_eq_iff by lia.
  assert (∀ i, 0 ≤ i → Z.testbit (Neg c) i = true →
            Z.testbit (u32 (Z.lnot a)) i = negb (Z.testbit a i)) as Hn.
  { intros i Hi Hb. unfold u32. destruct (Z.lt_ge_cases i 32) as [Hl|Hg].
    - by rewrite Z.mod_pow2_bits_low, Z.lnot_spec.
    - rewrite (bits_below v) in Hb by lia. done. }
  split.
  - intros [H1 H2] i Hi. split; [by apply H1|]. intros Hb.
    specialize (H2 i Hi Hb). rewrite Hn in H2 by done. by apply negb_true_iff.
  - intros H. split; intros i Hi Hb; [by apply H|]. rewrite Hn by done.
    apply negb_true_iff. by apply H.
Qed.

Lemma testbit_plus_half v a i : 0 ≤ v → 0 ≤ a < 2 ^ v → 0 ≤ i →
  Z.testbit (a + 2 ^ v) i = (v =? i) || Z.testbit a i.
Proof.
  intros Hv Ha Hi. rewrite <- lor_half, Z.lor_spec, Z.pow2_bits_eqb by lia. apply orb_comm.
Qed.

Lemma testbit_or_bit v p i : 0 ≤ v → 0 ≤ i →
  Z.testbit (Z.lor p (2 ^ v)) i = (v =? i) || Z.testbit p i.
Proof. intros. rewrite Z.lor_spec, Z.pow2_bits_eqb by lia. apply orb_comm. Qed.

Lemma cube_in_weaken v c : 0 ≤ v → cube_in v c → cube_in (v + 1) c.
Proof.
  intros Hv [H1 H2]. assert (2 ^ v < 2 ^ (v + 1)) by (apply Z.pow_lt_mono_r; lia).
  split; lia.
Qed.

Lemma or_bit_below v p : 0 ≤ v → 0 ≤ p < 2 ^ v → 0 ≤ Z.lor p (2 ^ v) < 2 ^ (v + 1).
Proof.
  intros Hv Hp. rewrite lor_half by lia. replace (v + 1) with (Z.succ v) by lia.
  rewrite Z.pow_succ_r by lia. lia.
Qed.

(** Decide a bit of a cube or assignment extended with variable [v]. *)
Ltac split_bit H v i E1 E2 E3 :=
  try rewrite testbit_or_bit in H by lia; try rewrite testbit_plus_half in H by lia;
  try rewrite testbit_or_bit by lia; try rewrite testbit_plus_half by lia;
  destruct (Z.eqb_spec v i); [subst i|]; cbn [orb] in *; try done;
  rewrite ?E1, ?E2, ?E3; split; intros; congruence.

Section cube_bits.
Context (v : Z) (c : Cube) (a : Z).
Context (Hv : 0 ≤ v < 32) (Hc : cube_in v c) (Ha : 0 ≤ a < 2 ^ v).

Lemma low_bit_false : Z.testbit a v = false ∧ Z.testbit (Pos c) v = false ∧ Z.testbit (Neg c) v = false.
Proof using Hv Hc Ha. destruct Hc. split_and!; apply (bits_below v); lia. Qed.

Lemma covers_high : Covers c (a + 2 ^ v) = Covers c a.
Proof using Hv Hc Ha.
  destruct low_bit_false as (E1 & E2 & E3). apply Bool.eq_iff_eq_true.
  rewrite !(covers_iff v) by (done || lia).
  split; intros H i Hi; specialize (H i Hi); split_bit H v i E1 E2 E3.
Qed.

Lemma covers_neg_low :
  Covers (mkCube (Pos c) (Z.lor (Neg c) (2 ^ v))) a = Covers c a
  ∧ Covers (mkCube (Pos c) (Z.lor (Neg c) (2 ^ v))) (a + 2 ^ v) = false.
Proof using Hv Hc Ha.
  destruct low_bit_false as (E1 & E2 & E3). pose proof Hc as [HP HN].
  assert (cube_in (v + 1) (mkCube (Pos c) (Z.lor (Neg c) (2 ^ v)))) as Hc'.
  { split; [apply (cube_in_weaken v c ltac:(lia) Hc)|by apply or_bit_below; lia]. }
  split.
  - apply Bool.eq_iff_eq_true. rewrite (covers_iff (v + 1)), (covers_iff v) by (done || lia). cbn [Pos Neg].
    split; intros H i Hi; specialize (H i Hi); split_bit H v i E1 E2 E3.
  - apply not_true_iff_false. rewrite (covers_iff (v + 1)) by (done || lia).
    intros H. destruct (H v ltac:(lia)) as [_ H2]. cbn [Neg] in H2.
    rewrite testbit_or_bit, testbit_plus_half, Z.eqb_refl in H2 by lia. by specialize (H2 eq_refl).
Qed.

Lemma covers_pos_low :
  Covers (mkCube (Z.lor (Pos c) (2 ^ v)) (Neg c)) a = false
  ∧ Covers (mkCube (Z.lor (Pos c) (2 ^ v)) (Neg c)) (a + 2 ^ v) = Covers c a.
Proof using Hv Hc Ha.
  destruct low_bit_false as (E1 & E2 & E3). pose proof Hc as [HP HN].
  assert (cube_in (v + 1) (mkCube (Z.lor (Pos c) (2 ^ v)) (Neg c))) as Hc'.
  { split; [by apply or_bit_below; lia|apply (cube_in_weaken v c ltac:(lia) Hc)]. }
  split.
  - apply not_true_iff_false. rewrite (covers_iff (v + 1)) by (done || lia).
    intros H. destruct (H v ltac:(lia)) as [H1 _]. cbn [Pos] in H1.
    rewrite testbit_or_bit, Z.eqb_refl in H1 by lia. specialize (H1 eq_refl). congruence.
  - apply Bool.eq_iff_eq_true. rewrite (covers_iff (v + 1)), (covers_iff v) by (done || lia). cbn [Pos Neg].
    split; intros H i Hi; specialize (H i Hi); split_bit H v i E1 E2 E3.
Qed.
End cube_bits.

(** ** The cover is sound and complete *)

(** Existence over the three groups of cubes that one level returns. *)
Definition negCubes (v : Z) (cs : list Cube) := map (λ c, mkCube (Pos c) (Z.lor (Neg c) (2 ^ v))) cs.
Definition posCubes (v : Z) (cs : list Cube) := map (λ c, mkCube (Z.lor (Pos c) (2 ^ v)) (Neg c)) cs.
Definition covered (cs : list Cube) (a : Z) : bool := existsb (λ c, Covers c a) cs.

Lemma covered_app cs ds a : covered (cs ++ ds) a = covered cs a || covered ds a.
Proof. apply existsb_app. Qed.

Lemma covered_groups v cs a : 0 ≤ v < 32 → Forall (cube_in v) cs → 0 ≤ a < 2 ^ v →
  covered cs (a + 2 ^ v) = covered cs a ∧
  covered (negCubes v cs) a = covered cs a ∧ covered (negCubes v cs) (a + 2 ^ v) = false ∧
  covered (posCubes v cs) a = false ∧ covered (posCubes v cs) (a + 2 ^ v) = covered cs a.
Proof.
  intros Hv Hcs Ha. induction Hcs as [|c cs Hc _ (I1 & I2 & I3 & I4 & I5)]; [done|].
  destruct (covers_neg_low v c a Hv Hc Ha) as [N1 N2].
  destruct (covers_pos_low v c a Hv Hc Ha) as [P1 P2].
  unfold covered, negCubes, posCubes in *. cbn [map existsb].
  rewrite I1, I2, I3, I4, I5, N1, N2, P1, P2, (covers_high v c a Hv Hc Ha). done.
Qed.

Lemma group_cubes_in v cs : 0 ≤ v → Forall (cube_in v) cs →
  Forall (cube_in (v + 1)) (negCubes v cs) ∧ Forall (cube_in (v + 1)) (posCubes v cs)
  ∧ Forall (cube_in (v + 1)) cs.
Proof.
  intros Hv Hcs. unfold negCubes, posCubes.
  split_and!; [apply Forall_fmap|apply Forall_fmap|]; (eapply Forall_impl; [|exact Hcs]);
    intros c Hc; pose proof (cube_in_weaken v c Hv Hc) as [W1 W2]; destruct Hc;
    split; simpl; auto using or_bit_below.
Qed.

(** No other cube than the [i]-th covers [a]. *)
Definition only_at (cs : list Cube) (i : nat) (a : Z) : Prop :=
  ∀ j c, j ≠ i → cs !! j = Some c → Covers c a = false.

(** Every cube is needed: some assignment of [lower] is covered by it alone. *)
Definition irredundant (n : Z) (lower : TruthTable) (cs : list Cube) : Prop :=
  ∀ i c, cs !! i = Some c →
    ∃ a, 0 ≤ a < 2 ^ n ∧ Get lower a = true ∧ Covers c a = true ∧ only_at cs i a.

(** What a call promises for the interval [lower, upper]: cubes over its
    variables that cover all of [lower] and nothing outside [upper], and none of
    which can be dropped. *)
Definition isop_ok (n : Z) (lower upper : TruthTable) (cs : list Cube) : Prop :=
  Forall (cube_in n) cs ∧
  (∀ a, 0 ≤ a < 2 ^ n →
    (Get lower a = true → covered cs a = true) ∧ (covered cs a = true → Get upper a = true)) ∧
  irredundant n lower cs.

Lemma covered_false cs a : covered cs a = false → ∀ i c, cs !! i = Some c → Covers c a = false.
Proof.
  intros H i c Hi. apply not_true_iff_false. intros Hc. apply not_true_iff_false in H. apply H.
  apply existsb_exists. exists c. split; [|done]. apply list_elem_of_In. by eapply list_elem_of_lookup_2.
Qed.

Lemma only_at_l cs ds i a : only_at cs i a → covered ds a = false → only_at (cs ++ ds) i a.
Proof.
  intros H Hd j c Hj Hc. apply lookup_app_Some in Hc as [Hc|[_ Hc]]; [by eapply H|].
  by eapply covered_false.
Qed.

Lemma only_at_r cs ds i a :
  only_at ds i a → covered cs a = false → only_at (cs ++ ds) (length cs + i) a.
Proof.
  intros H Hd j c Hj Hc. apply lookup_app_Some in Hc as [Hc|[Hl Hc]]; [by eapply covered_false|].
  eapply H; [|done]. lia.
Qed.

Definition interval (n : Z) (lower upper : TruthTable) : Prop :=
  wf_table n lower ∧ wf_table n upper ∧
  ∀ a, 0 ≤ a < 2 ^ n → Get lower a = true → Get upper a = true.

Lemma covers_everything a : Covers (mkCube 0 0) a = true.
Proof. unfold Covers. cbn [Pos Neg]. by rewrite !Z.land_0_r. Qed.

Lemma not_zero_witness n t : wf_table n t → IsZero t = false →
  ∃ a, 0 ≤ a < 2 ^ n ∧ Get t a = true.
Proof.
  intros Hwf Hz. pose proof Hwf as [_ Hn _ _].
  destruct (decide (Exists (λ i, Get t (Z.of_nat i) = true) (seq 0 (Z.to_nat (2 ^ n))))) as [He|He].
  - apply Exists_exists in He as (i & Hi & Hg). apply in_seq in Hi.
    exists (Z.of_nat i). split; [lia|done].
  - exfalso. apply not_true_iff_false in Hz. apply Hz, (is_zero_spec n t Hwf). intros a Ha.
    apply not_true_iff_false. intros Hg. apply He, Exists_exists.
    exists (Z.to_nat a). rewrite in_seq, Z2Nat.id by lia. split; [lia|done].
Qed.

Lemma isop_full_cube n lower upper : interval n lower upper → IsZero lower = false →
  (∀ a, 0 ≤ a < 2 ^ n → Get upper a = true) → isop_ok n lower upper [mkCube 0 0].
Proof.
  intros (Hl & Hu & _) Hz H. pose proof Hu as [_ Hn _ _].
  assert (0 < 2 ^ n) by (apply Z.pow_pos_nonneg; lia). split_and!.
  - repeat constructor; simpl; lia.
  - intros a Ha. split; [|by intros; apply H]. intros _. unfold covered. cbn [existsb].
    by rewrite covers_everything.
  - intros [|i] c Hc; [|done]. injection Hc as <-.
    destruct (not_zero_witness n lower Hl Hz) as (a & Ha & Hg).
    exists a. split_and!; [lia|lia|done|apply covers_everything|].
    intros [|j] c'; [done|]. done.
Qed.

(** One level of the recurrence, pointwise: [b] ranges over the assignments of
    the variables below [v], and [lo], [hi] are the two cofactors there. *)
Lemma isop_pointwise (l0 l1 u0 u1 k0 k1 ks : bool) :
  (l0 = true → u0 = true) → (l1 = true → u1 = true) →
  (l0 && negb u1 = true → k0 = true) ∧ (k0 = true → u0 = true) →
  (l1 && negb u0 = true → k1 = true) ∧ (k1 = true → u1 = true) →
  (l0 && negb k0 || l1 && negb k1 = true → ks = true) ∧ (ks = true → u0 && u1 = true) →
  ((l0 = true → k0 || (false || ks) = true) ∧ (k0 || (false || ks) = true → u0 = true)) ∧
  ((l1 = true → false || (k1 || ks) = true) ∧ (false || (k1 || ks) = true → u1 = true)).
Proof. destruct l0, l1, u0, u1, k0, k1, ks; simpl; tauto. Qed.

(** The three sub-problems of one level, with their tables read pointwise. *)
Lemma isop_level_tables n lower upper l0 l1 u0 u1 v :
  interval n lower upper → n = v + 1 → 0 ≤ v →
  cofactors lower = (l0, l1) → cofactors upper = (u0, u1) →
  wf_table v l0 ∧ wf_table v l1 ∧ wf_table v u0 ∧ wf_table v u1 ∧
  ∀ b, 0 ≤ b < 2 ^ v →
    Get l0 b = Get lower b ∧ Get l1 b = Get lower (b + 2 ^ v) ∧
    Get u0 b = Get upper b ∧ Get u1 b = Get upper (b + 2 ^ v) ∧
    (Get l0 b = true → Get u0 b = true) ∧ (Get l1 b = true → Get u1 b = true).
Proof.
  intros (Hl & Hu & Hlu) -> Hv El Eu.
  pose proof (cofactors_spec (v + 1) lower Hl ltac:(lia)) as Hcl. rewrite El in Hcl.
  pose proof (cofactors_spec (v + 1) upper Hu ltac:(lia)) as Hcu. rewrite Eu in Hcu.
  pose proof (pow_split (v + 1) ltac:(lia)) as Hp.
  replace (v + 1 - 1) with v in * by lia.
  destruct Hcl as (? & ? & Hgl), Hcu as (? & ? & Hgu). split_and!; [done..|].
  intros b Hb. destruct (Hgl b Hb) as [-> ->], (Hgu b Hb) as [-> ->].
  split_and!; [done..|apply Hlu; lia|apply Hlu; lia].
Qed.

(** Restricting or extending by variable [v] keeps the witness of a cube. *)
Lemma only_at_neg v cs i b : 0 ≤ v < 32 → Forall (cube_in v) cs → 0 ≤ b < 2 ^ v →
  only_at cs i b → only_at (negCubes v cs) i b.
Proof.
  intros Hv Hcs Hb H j c Hj Hc. unfold negCubes in Hc. apply list_lookup_fmap_Some in Hc as (d & -> & Hd).
  pose proof (Forall_lookup_1 _ _ _ _ Hcs Hd) as Hin.
  rewrite (proj1 (covers_neg_low v d b Hv Hin Hb)). by eapply H.
Qed.

Lemma only_at_pos v cs i b : 0 ≤ v < 32 → Forall (cube_in v) cs → 0 ≤ b < 2 ^ v →
  only_at cs i b → only_at (posCubes v cs) i (b + 2 ^ v).
Proof.
  intros Hv Hcs Hb H j c Hj Hc. unfold posCubes in Hc. apply list_lookup_fmap_Some in Hc as (d & -> & Hd).
  pose proof (Forall_lookup_1 _ _ _ _ Hcs Hd) as Hin.
  rewrite (proj2 (covers_pos_low v d b Hv Hin Hb)). by eapply H.
Qed.

Lemma only_at_high v cs i b : 0 ≤ v < 32 → Forall (cube_in v) cs → 0 ≤ b < 2 ^ v →
  only_at cs i b → only_at cs i (b + 2 ^ v).
Proof.
  intros Hv Hcs Hb H j c Hj Hc. pose proof (Forall_lookup_1 _ _ _ _ Hcs Hc) as Hin.
  rewrite (covers_high v c b Hv Hin Hb). by eapply H.
Qed.

(** The sub-covers never spill: a point outside an upper cofactor is not
    covered by the shared cubes, nor by cubes of the other polarity. *)
Lemma level_uncovered v u0 u1 L c0 c1 cs b :
  0 ≤ v < 32 → wf_table v u0 → wf_table v u1 →
  Forall (cube_in v) c0 → Forall (cube_in v) c1 → isop_ok v L (and_ u0 u1) cs → 0 ≤ b < 2 ^ v →
  (Get u1 b = false → covered (posCubes v c1 ++ cs) b = false) ∧
  (Get u0 b = false → covered (negCubes v c0) (b + 2 ^ v) = false ∧ covered cs (b + 2 ^ v) = false).
Proof.
  intros Hv Hu0 Hu1 Hc0 Hc1 (Hcs & Hs & _) Hb.
  destruct (and_spec v _ _ Hu0 Hu1) as [_ GU]. destruct (Hs b Hb) as [_ Hs2]. rewrite GU in Hs2 by done.
  destruct (covered_groups v c0 b Hv Hc0 Hb) as (_ & _ & E2 & _).
  destruct (covered_groups v c1 b Hv Hc1 Hb) as (_ & _ & _ & E3 & _).
  destruct (covered_groups v cs b Hv Hcs Hb) as (E5 & _).
  rewrite covered_app, E2, E3, E5. cbn [orb].
  split; intros Hn; rewrite Hn in Hs2; [|split; [done|]]; apply not_true_iff_false; intros Hc;
    specialize (Hs2 Hc); rewrite ?andb_false_r in Hs2; done.
Qed.

(** A point of the third lower bound comes from one cofactor the first two
    covers miss. *)
Lemma star_witness v l0 l1 c0 c1 b : wf_table v l0 → wf_table v l1 → 0 ≤ v ≤ MaxISOPAtoms → 0 ≤ b < 2 ^ v →
  Get (or_ (andNot l0 (tableFromCubes v c0)) (andNot l1 (tableFromCubes v c1))) b = true →
  (Get l0 b = true ∧ covered c0 b = false) ∨ (Get l1 b = true ∧ covered c1 b = false).
Proof.
  intros Hl0 Hl1 Hv Hb.
  destruct (table_from_cubes_spec v c0 Hv) as [Hwt0 Hgt0], (table_from_cubes_spec v c1 Hv) as [Hwt1 Hgt1].
  destruct (andNot_spec v _ _ Hl0 Hwt0) as [Hwa0 GB0], (andNot_spec v _ _ Hl1 Hwt1) as [Hwa1 GB1].
  destruct (or_spec v _ _ Hwa0 Hwa1) as [_ GO]. rewrite GO, GB0, GB1, Hgt0, Hgt1 by done.
  rewrite orb_true_iff, !andb_true_iff, !negb_true_iff. done.
Qed.

Lemma isop_level_irr lower upper l0 l1 u0 u1 c0 c1 cs v :
  interval (v + 1) lower upper → 0 ≤ v →
  cofactors lower = (l0, l1) → cofactors upper = (u0, u1) →
  isop_ok v (andNot l0 u1) u0 c0 → isop_ok v (andNot l1 u0) u1 c1 →
  isop_ok v (or_ (andNot l0 (tableFromCubes v c0)) (andNot l1 (tableFromCubes v c1))) (and_ u0 u1) cs →
  irredundant (v + 1) lower (negCubes v c0 ++ posCubes v c1 ++ cs).
Proof.
  intros Hi Hv0 El Eu (Hc0 & H0 & R0) (Hc1 & H1 & R1) Hstar.
  destruct (isop_level_tables _ _ _ _ _ _ _ v Hi eq_refl Hv0 El Eu)
    as (Hwl0 & Hwl1 & Hwu0 & Hwu1 & Hg).
  destruct Hi as (Hl & _ & _). pose proof Hl as [_ Hn _ _]. unfold MaxISOPAtoms in Hn.
  assert (Hv : 0 ≤ v < 32) by lia. assert (0 ≤ v ≤ MaxISOPAtoms) as Hvm by (unfold MaxISOPAtoms; lia).
  pose proof (pow_split (v + 1) ltac:(lia)) as Hp. replace (v + 1 - 1) with v in Hp by lia.
  pose proof (λ b, level_uncovered v u0 u1 _ c0 c1 cs b Hv Hwu0 Hwu1 Hc0 Hc1 Hstar) as Hun.
  destruct (andNot_spec v l0 u1 Hwl0 Hwu1) as [_ GA0], (andNot_spec v l1 u0 Hwl1 Hwu0) as [_ GA1].
  intros i c Hi. apply lookup_app_Some in Hi as [Hi|[Hli Hi]];
    [|apply lookup_app_Some in Hi as [Hi|[Hli2 Hi]]].
  - unfold negCubes in Hi. apply list_lookup_fmap_Some in Hi as (d & -> & Hd).
    destruct (R0 i d Hd) as (b & Hb & Hgb & Hcb & Ho). rewrite GA0 in Hgb by done.
    apply andb_true_iff in Hgb as [Hg0 Hg1%negb_true_iff].
    pose proof (Forall_lookup_1 _ _ _ _ Hc0 Hd) as Hin. exists b.
    rewrite <- (proj1 (Hg b Hb)), (proj1 (covers_neg_low v d b Hv Hin Hb)).
    split_and!; [lia|lia|done|done|]. apply only_at_l; [by apply only_at_neg|]. by apply Hun.
  - unfold posCubes in Hi. apply list_lookup_fmap_Some in Hi as (d & -> & Hd).
    destruct (R1 _ d Hd) as (b & Hb & Hgb & Hcb & Ho). rewrite GA1 in Hgb by done.
    apply andb_true_iff in Hgb as [Hg0 Hg1%negb_true_iff].
    pose proof (Forall_lookup_1 _ _ _ _ Hc1 Hd) as Hin. exists (b + 2 ^ v).
    rewrite <- (proj1 (proj2 (Hg b Hb))), (proj2 (covers_pos_low v d b Hv Hin Hb)).
    split_and!; [lia|lia|done|done|]. destruct (Hun b Hb) as [_ Hu]. destruct (Hu Hg1) as [Hu1 Hu2].
    replace i with (length (negCubes v c0) + (i - length (negCubes v c0)))%nat by lia.
    apply only_at_r; [|done]. apply only_at_l; [by apply only_at_pos|done].
  - destruct Hstar as (Hcs & Hs & Rs). destruct (Rs _ c Hi) as (b & Hb & Hgb & Hcb & Ho).
    eapply star_witness in Hgb; [|done..]. fold (covered c0 b) (covered c1 b) in Hgb.
    destruct (covered_groups v c0 b Hv Hc0 Hb) as (_ & E1 & E2 & _).
    destruct (covered_groups v c1 b Hv Hc1 Hb) as (_ & _ & _ & E3 & E4).
    pose proof (Forall_lookup_1 _ _ _ _ Hcs Hi) as Hin.
    replace i with (length (negCubes v c0) + (length (posCubes v c1)
                    + (i - length (negCubes v c0) - length (posCubes v c1))))%nat by lia.
    destruct Hgb as [[Hg0 Hk]|[Hg1 Hk]].
    + exists b. rewrite <- (proj1 (Hg b Hb)). split_and!; [lia|lia|done|done|].
      do 2 (apply only_at_r; [|congruence]). done.
    + exists (b + 2 ^ v). rewrite <- (proj1 (proj2 (Hg b Hb))), (covers_high v c b Hv Hin Hb).
      split_and!; [lia|lia|done|done|]. do 2 (apply only_at_r; [|congruence]). by apply only_at_high.
Qed.

Lemma isop_level n lower upper l0 l1 u0 u1 c0 c1 cs v :
  interval n lower upper → n = v + 1 → 0 ≤ v →
  cofactors lower = (l0, l1) → cofactors upper = (u0, u1) →
  isop_ok v (andNot l0 u1) u0 c0 → isop_ok v (andNot l1 u0) u1 c1 →
  isop_ok v (or_ (andNot l0 (tableFromCubes v c0)) (andNot l1 (tableFromCubes v c1))) (and_ u0 u1) cs →
  isop_ok n lower upper (negCubes v c0 ++ posCubes v c1 ++ cs).
Proof.
  intros Hi -> Hv0 El Eu H0' H1' Hs'.
  assert (irredundant (v + 1) lower (negCubes v c0 ++ posCubes v c1 ++ cs)) as Hirr
    by (by eapply isop_level_irr).
  destruct H0' as (Hc0 & H0 & _), H1' as (Hc1 & H1 & _), Hs' as (Hcs & Hs & _).
  destruct (isop_level_tables _ _ _ _ _ _ _ v Hi eq_refl Hv0 El Eu)
    as (Hwl0 & Hwl1 & Hwu0 & Hwu1 & Hg).
  destruct Hi as (Hl & _ & _). pose proof Hl as [_ Hn _ _]. unfold MaxISOPAtoms in Hn.
  assert (Hv : 0 ≤ v < 32) by lia.
  destruct (table_from_cubes_spec v c0) as [Hwt0 Hgt0]; [unfold MaxISOPAtoms; lia|].
  destruct (table_from_cubes_spec v c1) as [Hwt1 Hgt1]; [unfold MaxISOPAtoms; lia|].
  destruct (andNot_spec v l0 u1 Hwl0 Hwu1) as [_ GA0], (andNot_spec v l1 u0 Hwl1 Hwu0) as [_ GA1].
  destruct (andNot_spec v _ _ Hwl0 Hwt0) as [Hwa0 GB0], (andNot_spec v _ _ Hwl1 Hwt1) as [Hwa1 GB1].
  destruct (or_spec v _ _ Hwa0 Hwa1) as [_ GO], (and_spec v _ _ Hwu0 Hwu1) as [_ GU].
  split.
  { rewrite !Forall_app. split_and!.
    - by apply (group_cubes_in v c0).
    - by apply (group_cubes_in v c1).
    - by apply (group_cubes_in v cs). }
  split; [|done]. intros a Ha. rewrite !covered_app.
  assert (∃ b, 0 ≤ b < 2 ^ v ∧ (a = b ∨ a = b + 2 ^ v)) as (b & Hb & Hab).
  { pose proof (pow_split (v + 1) ltac:(lia)) as Hp. replace (v + 1 - 1) with v in Hp by lia.
    destruct (Z.lt_ge_cases a (2 ^ v)); [exists a; split; [lia|by left]|].
    exists (a - 2 ^ v). split; [lia|right; lia]. }
  specialize (H0 b Hb). specialize (H1 b Hb). specialize (Hs b Hb).
  rewrite GA0 in H0 by done. rewrite GA1 in H1 by done.
  rewrite GO, GB0, GB1, GU, Hgt0, Hgt1 in Hs by done. fold (covered c0 b) (covered c1 b) in Hs.
  destruct (Hg b Hb) as (El0 & El1 & Eu0 & Eu1 & Hi0 & Hi1).
  destruct (covered_groups v c0 b Hv Hc0 Hb) as (_ & E1 & E2 & _).
  destruct (covered_groups v c1 b Hv Hc1 Hb) as (_ & _ & _ & E3 & E4).
  destruct (covered_groups v cs b Hv Hcs Hb) as (E5 & _).
  destruct (isop_pointwise _ _ _ _ _ _ _ Hi0 Hi1 H0 H1 Hs) as [Hlow Hhigh].
  destruct Hab as [->| ->].
  - by rewrite E1, E3, <- El0, <- Eu0.
  - by rewrite E2, E4, E5, <- El1, <- Eu1.
Qed.

Lemma sub_interval v l u x y : wf_table v l → wf_table v u → wf_table v x →
  (∀ b, 0 ≤ b < 2 ^ v → Get l b = true → Get u b = true) →
  y = andNot l x → interval v y u.
Proof.
  intros Hl Hu Hx H ->. destruct (andNot_spec v l x Hl Hx) as [Hw Hg]. split_and!; [done..|].
  intros a Ha. rewrite Hg, andb_true_iff by done. intros [? _]. by apply H.
Qed.

(** The last sub-problem is an interval again: what the first two covers leave
    of the lower bound lies in both upper cofactors. *)
Lemma star_interval n lower upper l0 l1 u0 u1 c0 c1 v :
  interval n lower upper → n = v + 1 → 0 ≤ v →
  cofactors lower = (l0, l1) → cofactors upper = (u0, u1) →
  isop_ok v (andNot l0 u1) u0 c0 → isop_ok v (andNot l1 u0) u1 c1 →
  interval v (or_ (andNot l0 (tableFromCubes v c0)) (andNot l1 (tableFromCubes v c1))) (and_ u0 u1).
Proof.
  intros Hi Hnv Hv0 El Eu H0 H1.
  destruct (isop_level_tables _ _ _ _ _ _ _ v Hi Hnv Hv0 El Eu) as (Hwl0 & Hwl1 & Hwu0 & Hwu1 & Hg).
  destruct Hi as (Hl & _ & _). pose proof Hl as [_ Hn _ _]. assert (0 ≤ v ≤ MaxISOPAtoms) as Hvm by lia.
  destruct (table_from_cubes_spec v c0 Hvm) as [Hwt0 Hgt0], (table_from_cubes_spec v c1 Hvm) as [Hwt1 Hgt1].
  destruct (andNot_spec v _ _ Hwl0 Hwt0) as [Hwa0 GB0], (andNot_spec v _ _ Hwl1 Hwt1) as [Hwa1 GB1].
  destruct (or_spec v _ _ Hwa0 Hwa1) as [HwO GO], (and_spec v _ _ Hwu0 Hwu1) as [HwU GU].
  split_and!; [done..|]. intros b Hb. rewrite GO, GB0, GB1, GU, Hgt0, Hgt1 by done.
  destruct (Hg b Hb) as (_ & _ & _ & _ & Hi0 & Hi1), H0 as (_ & H0 & _), H1 as (_ & H1 & _).
  destruct (H0 b Hb) as [P0 _], (H1 b Hb) as [P1 _].
  destruct (andNot_spec v l0 u1 Hwl0 Hwu1) as [_ GA0], (andNot_spec v l1 u0 Hwl1 Hwu0) as [_ GA1].
  rewrite GA0 in P0 by done. rewrite GA1 in P1 by done.
  fold (covered c0 b) (covered c1 b).
  destruct (Get l0 b), (Get l1 b), (Get u0 b), (Get u1 b), (covered c0 b), (covered c1 b);
    simpl in *; try done; intuition congruence.
Qed.

(** Enough fuel gives an irredundant cover of the interval. *)
Lemma isop_correct fuel n lower upper :
  interval n lower upper → n < Z.of_nat fuel →
  ∃ cs, MinatoMorrealeISOP fuel lower upper = Some cs ∧ isop_ok n lower upper cs.
Proof.
  revert n lower upper. induction fuel as [|fuel IH]; intros n lower upper Hi Hf.
  { destruct Hi as ([_ ? _ _] & _). lia. }
  pose proof Hi as (Hl & Hu & Hlu). pose proof Hl as [Hv Hn _ _]. cbn [MinatoMorrealeISOP].
  destruct (IsZero lower) eqn:Ez.
  { exists []. split; [done|]. split_and!; [constructor| |done]. intros a Ha.
    by rewrite (proj1 (is_zero_spec n lower Hl) Ez a Ha). }
  destruct (IsOne upper) eqn:Eo.
  { exists [mkCube 0 0]. split; [done|]. apply isop_full_cube; [done..|].
    intros a Ha. by apply (is_one_get n). }
  rewrite Hv. destruct (Z.eqb_spec n 0) as [->|Hn0].
  { exists [mkCube 0 0]. split; [done|]. apply isop_full_cube; [done..|].
    intros a Ha. change (2 ^ 0) with 1 in *. assert (a = 0) as -> by lia.
    apply Hlu; [lia|]. apply not_false_iff_true. intros E0. apply not_true_iff_false in Ez.
    apply Ez, (is_zero_spec 0 lower Hl). intros b Hb. change (2 ^ 0) with 1 in Hb.
    by assert (b = 0) as -> by lia. }
  destruct (cofactors lower) as [l0 l1] eqn:El, (cofactors upper) as [u0 u1] eqn:Eu.
  rewrite Z.shiftl_1_l. set (v := n - 1). assert (Hnv : n = v + 1) by (subst v; lia).
  assert (Hv0 : 0 ≤ v) by (subst v; lia). clearbody v.
  destruct (isop_level_tables _ _ _ _ _ _ _ v Hi Hnv Hv0 El Eu) as (Hwl0 & Hwl1 & Hwu0 & Hwu1 & Hg).
  assert (0 ≤ v ≤ MaxISOPAtoms) as Hvm by lia.
  destruct (IH v (andNot l0 u1) u0) as (c0 & -> & H0);
    [eapply (sub_interval v l0 u0 u1); try done; intros b Hb; by apply Hg|lia|].
  destruct (IH v (andNot l1 u0) u1) as (c1 & -> & H1);
    [eapply (sub_interval v l1 u1 u0); try done; intros b Hb; by apply Hg|lia|].
  destruct (IH v (or_ (andNot l0 (tableFromCubes v c0)) (andNot l1 (tableFromCubes v c1))) (and_ u0 u1))
    as (cs & -> & Hs); [|lia|].
  - by eapply star_interval.
  - exists (negCubes v c0 ++ posCubes v c1 ++ cs). split; [done|]. by eapply isop_level.
Qed.

(** ** The contracts *)

(** C39: for every interval of tables over at most [MaxISOPAtoms] variables the
    recursion of [MinatoMorrealeISOP] stops (17 levels are enough) and returns
    cubes that cover every assignment of the lower table, cover none outside
    the upper table, and none of which can be dropped. *)
Theorem isop_irredundant_cover n lower upper : interval n lower upper →
  ∃ cs, MinatoMorrealeISOP 17 lower upper = Some cs ∧
    Forall (cube_in n) cs ∧
    (∀ a, 0 ≤ a < 2 ^ n →
       (Get lower a = true → existsb (λ c, Covers c a) cs = true) ∧
       (existsb (λ c, Covers c a) cs = true → Get upper a = true)) ∧
    (∀ i c, cs !! i = Some c → ∃ a, 0 ≤ a < 2 ^ n ∧ Get lower a = true ∧ Covers c a = true ∧
       ∀ j d, j ≠ i → cs !! j = Some d → Covers d a = false).
Proof.
  intros Hi. apply isop_correct; [done|]. destruct Hi as ([_ Hn _ _] & _).
  unfold MaxISOPAtoms in Hn. lia.
Qed.

Definition xor2 : TruthTable := mkTable 2 [6].

Lemma xor2_wf : wf_table 2 xor2.
Proof. split; [done|unfold MaxISOPAtoms; lia|done|]. constructor; [unfold in_u64; lia|constructor]. Qed.

Lemma isop_irredundant_cover_witness :
  interval 2 xor2 xor2 ∧ ∃ cs, MinatoMorrealeISOP 17 xor2 xor2 = Some cs ∧ cs = [mkCube 1 2; mkCube 2 1].
Proof.
  assert (interval 2 xor2 xor2) as Hi by (split_and!; [apply xor2_wf|apply xor2_wf|done]).
  split; [exact Hi|]. destruct (isop_irredundant_cover 2 xor2 xor2 Hi) as (cs & Hcs & _).
  exists cs. split; [exact Hcs|]. vm_compute in Hcs. congruence.
Defined.

(** On the tables the package builds, the word-level tests decide the
    functions the tables stand for: [Equal], [IsZero] and [IsOne] ignore the
    bits of the last word beyond the assignments, and the word-level
    connectives are the pointwise ones. *)
Theorem tables_are_functions n t u : wf_table n t → wf_table n u →
  (Equal t u = true ↔ ∀ a, 0 ≤ a < 2 ^ n → Get t a = Get u a) ∧
  (IsZero t = true ↔ ∀ a, 0 ≤ a < 2 ^ n → Get t a = false) ∧
  (∀ a, 0 ≤ a < 2 ^ n →
     Get (and_ t u) a = Get t a && Get u a ∧
     Get (or_ t u) a = Get t a || Get u a ∧
     Get (andNot t u) a = Get t a && negb (Get u a) ∧
     Get (Set_ t a true) a = true).
Proof.
  intros Ht Hu. split_and!; [by apply equal_spec|by apply is_zero_spec|].
  intros a Ha. destruct (and_spec n t u Ht Hu) as [_ G1], (or_spec n t u Ht Hu) as [_ G2],
    (andNot_spec n t u Ht Hu) as [_ G3].
  rewrite (get_set_true n) by (done || lia). rewrite Z.eqb_refl. auto.
Qed.

Lemma tables_are_functions_witness :
  wf_table 2 xor2 ∧ Get (or_ xor2 (Set_ xor2 0 true)) 0 = true.
Proof.
  assert (wf_table 2 (Set_ xor2 0 true)) as H by (apply set_wf; [lia|apply xor2_wf]).
  split; [apply xor2_wf|].
  destruct (tables_are_functions 2 xor2 (Set_ xor2 0 true) xor2_wf H) as (_ & _ & G).
  destruct (G 0 ltac:(lia)) as (_ & E & _). rewrite E. reflexivity.
Defined.
