(* ===== verification/Policy.v ===== *)
(** * Policy: the authorization engine

    Models [server-kit/go/policy/policy.go]: the policy and request data, the
    engine's policy list with [AddPolicy], [RemovePolicy] and [LoadPolicies],
    the matchers, condition evaluation, [Evaluate] and the HTTP middleware.
    Every method holds the engine's lock for its whole body, so a method is one
    step on the list.  Decoding JSON, [regexp] and the printing of floats are
    parameters. *)

From Stdlib Require Import ZArith Lia Ascii String Sorting.Sorted.
From stdpp Require Import base sets list strings sorting relations.
From S2P Require Import Prelude GoStrings Extension.

Open Scope string_scope.
Open Scope list_scope.
Open Scope Z_scope.

(** ** Data *)

Abbreviation Effect := string.
Definition Allow : Effect := "allow".
Definition Deny : Effect := "deny".

Inductive Decision := DecisionAllow | DecisionDeny.

Module Principal.
Record Principal := mk { ID : string; Type_ : string; Roles : list string; Groups : list string;
                 Attributes : Object }.
End Principal.

Module Resource.
Record Resource := mk { ID : string; Type_ : string; Owner : string; OrgID : string;
                 Attributes : Object }.
End Resource.

(** The declared operators; an operator may hold any other string. *)
Abbreviation ConditionOperator := string.
Definition OpEquals : ConditionOperator := "equals".
Definition OpNotEquals : ConditionOperator := "not_equals".
Definition OpContains : ConditionOperator := "contains".
Definition OpIn : ConditionOperator := "in".
Definition OpNotIn : ConditionOperator := "not_in".
Definition OpMatches : ConditionOperator := "matches".
Definition OpGreaterThan : ConditionOperator := "gt".
Definition OpLessThan : ConditionOperator := "lt".
Definition OpExists : ConditionOperator := "exists".

Module Condition.
Record Condition := mk { Field : string; Operator : ConditionOperator; Value : Any }.
End Condition.

Module PrincipalMatcher.
Record PrincipalMatcher := mk { Type_ : string; IDs : list string; Roles : list string; Groups : list string;
                 AnyOf : bool }.
End PrincipalMatcher.

Module ResourceMatcher.
Record ResourceMatcher := mk { Type_ : string; IDs : list string; Owner : string; OrgID : string }.
End ResourceMatcher.

Module Policy.
Record Policy := mk { ID : string; Description : string; Effect : string; Priority : Z;
                 Principal : option PrincipalMatcher.PrincipalMatcher; Actions : list string;
                 Resource : option ResourceMatcher.ResourceMatcher; Conditions : list Condition.Condition }.
End Policy.

Module Request.
Record Request := mk { Principal : Principal.Principal; Action : string; Resource : Resource.Resource;
                 Context_ : Object }.
End Request.

Module Result.
Record Result := mk { Decision : Decision; PolicyID : string; Reason : string;
                 Diagnostics : list string }.
End Result.

(** The engine is its policy list, in evaluation order. *)
Abbreviation Engine := (list Policy.Policy).

Definition NewEngine : Engine := [].

(** ** Changing the policy set *)

Definition defaultEffect (p : Policy.Policy) : Policy.Policy :=
  if String.eqb (Policy.Effect p) ""
  then Policy.mk (Policy.ID p) (Policy.Description p) Allow (Policy.Priority p)
         (Policy.Principal p) (Policy.Actions p) (Policy.Resource p) (Policy.Conditions p)
  else p.

(** The loop [for i := len-1; i > 0; i--] that swaps neighbours. *)
Fixpoint bubble (i : nat) (ps : Engine) : Engine :=
  match i with
  | O => ps
  | S j =>
      bubble j
        (match ps !! i, ps !! j with
         | Some a, Some b =>
             if Policy.Priority b <? Policy.Priority a then <[i := b]> (<[j := a]> ps) else ps
         | _, _ => ps
         end)
  end.

Definition AddPolicy (e : Engine) (p : Policy.Policy) : Engine :=
  let ps := e ++ [defaultEffect p] in bubble (length ps - 1) ps.

Fixpoint RemovePolicy (e : Engine) (id : string) : Engine :=
  match e with
  | [] => []
  | p :: e' => if String.eqb (Policy.ID p) id then e' else p :: RemovePolicy e' id
  end.

(** [unmarshal] stands for [json.Unmarshal] into a policy slice. *)
Definition LoadPolicies {E} (unmarshal : string → res E (list Policy.Policy)) (e : Engine) (data : string)
  : res E Engine :=
  match unmarshal data with
  | Err err => Err err
  | Ok ps => Ok (foldl AddPolicy e ps)
  end.

(** ** Matching *)

Definition anyMatch (wanted : list string) (have : string) : bool :=
  existsb (λ id, String.eqb id have || String.eqb id "*") wanted.

(** Some entry of [have] satisfies the matcher entry [m]. *)
Definition oneOf (m : string) (have : list string) : bool :=
  existsb (λ h, String.eqb m h || String.eqb m "*") have.

Definition matchPrincipal (m : PrincipalMatcher.PrincipalMatcher) (p : Principal.Principal) : bool :=
  let mt := PrincipalMatcher.Type_ m in
  if negb (String.eqb mt "") && negb (String.eqb mt "*") && negb (String.eqb mt (Principal.Type_ p))
  then false
  else if (0 <? length (PrincipalMatcher.IDs m))%nat
          && negb (anyMatch (PrincipalMatcher.IDs m) (Principal.ID p))
  then false
  else if (0 <? length (PrincipalMatcher.Roles m))%nat
          && negb (if PrincipalMatcher.AnyOf m
                   then existsb (λ mr, oneOf mr (Principal.Roles p)) (PrincipalMatcher.Roles m)
                   else forallb (λ mr, oneOf mr (Principal.Roles p)) (PrincipalMatcher.Roles m))
  then false
  else if (0 <? length (PrincipalMatcher.Groups m))%nat
          && negb (existsb (λ mg, oneOf mg (Principal.Groups p)) (PrincipalMatcher.Groups m))
  then false
  else true.

Fixpoint matchAction (allowed : list string) (action : string) : bool :=
  match allowed with
  | [] => false
  | a :: rest =>
      if String.eqb a "*" || String.eqb a action then true
      else if HasSuffix a ":*" && HasPrefix action (TrimSuffix a "*") then true
      else matchAction rest action
  end.

Definition matchResource (m : ResourceMatcher.ResourceMatcher) (r : Resource.Resource) (p : Principal.Principal) : bool :=
  let mt := ResourceMatcher.Type_ m in
  if negb (String.eqb mt "") && negb (String.eqb mt "*") && negb (String.eqb mt (Resource.Type_ r))
  then false
  else if (0 <? length (ResourceMatcher.IDs m))%nat
          && negb (anyMatch (ResourceMatcher.IDs m) (Resource.ID r))
  then false
  else if negb (String.eqb (ResourceMatcher.Owner m) "")
          && negb (String.eqb (if String.eqb (ResourceMatcher.Owner m) "${principal.id}"
                               then Principal.ID p else ResourceMatcher.Owner m)
                              (Resource.Owner r))
  then false
  else if negb (String.eqb (ResourceMatcher.OrgID m) "")
          && negb (String.eqb (ResourceMatcher.OrgID m) (Resource.OrgID r))
  then false
  else true.

(** ** Fields *)

(** What [resolveField] can return: the values of [Interface()] and the typed
    values the switch returns directly. *)
Inductive Field :=
| FAny (a : Any)
| FStrings (l : list string)
| FPrincipal (p : Principal.Principal)
| FResource (r : Resource.Resource)
| FObject (o : Object).

Definition maxFieldDepth : nat := 32.

(** The loop over the keys of a path; [parts] is not empty. *)
Fixpoint resolvePath (cur : Object) (parts : list string) : Any :=
  match parts with
  | [] => ANil
  | key :: rest =>
      match mapGet cur key with
      | None => ANil
      | Some value =>
          match rest with
          | [] => Interface value
          | _ => match ObjectValue value with
                 | None => ANil
                 | Some next => resolvePath next rest
                 end
          end
      end
  end.

Definition resolveObjectField (object : Object) (parts : list string) : Field :=
  match parts with
  | [] => FObject object
  | _ => if (maxFieldDepth <? length parts)%nat then FAny ANil else FAny (resolvePath object parts)
  end.

Definition resolvePrincipalField (p : Principal.Principal) (parts : list string) : Field :=
  match parts with
  | [] => FPrincipal p
  | h :: rest =>
      if String.eqb h "id" then FAny (AString (Principal.ID p))
      else if String.eqb h "type" then FAny (AString (Principal.Type_ p))
      else if String.eqb h "roles" then FStrings (Principal.Roles p)
      else if String.eqb h "groups" then FStrings (Principal.Groups p)
      else if String.eqb h "attributes" then resolveObjectField (Principal.Attributes p) rest
      else FAny ANil
  end.

Definition resolveResourceField (r : Resource.Resource) (parts : list string) : Field :=
  match parts with
  | [] => FResource r
  | h :: rest =>
      if String.eqb h "id" then FAny (AString (Resource.ID r))
      else if String.eqb h "type" then FAny (AString (Resource.Type_ r))
      else if String.eqb h "owner" then FAny (AString (Resource.Owner r))
      else if String.eqb h "org_id" then FAny (AString (Resource.OrgID r))
      else if String.eqb h "attributes" then resolveObjectField (Resource.Attributes r) rest
      else FAny ANil
  end.

Definition resolveField (field : string) (req : Request.Request) : Field :=
  match Split "." field with
  | [] => FAny ANil
  | h :: rest =>
      if String.eqb h "principal" then resolvePrincipalField (Request.Principal req) rest
      else if String.eqb h "resource" then resolveResourceField (Request.Resource req) rest
      else if String.eqb h "action" then FAny (AString (Request.Action req))
      else if String.eqb h "context" then resolveObjectField (Request.Context_ req) rest
      else FAny ANil
  end.

Definition isNil (f : Field) : bool := match f with FAny ANil => true | _ => false end.

(** ** Evaluation *)

Section Evaluate.
Variable fmtFloat : Z → string.
(** [regexp.Compile(pattern)] followed by [MatchString]; [None] when the
    pattern does not compile. *)
Variable regexMatch : string → string → option bool.

(** [fmt.Sprintf("%v", value)] *)
Definition sprintField (f : Field) : string :=
  match f with
  | FAny a => sprintAny fmtFloat a
  | FStrings l => sprintList l
  | FPrincipal p =>
      "{" +:+ Join " " [Principal.ID p; Principal.Type_ p; sprintList (Principal.Roles p);
                       sprintList (Principal.Groups p); sprintObject fmtFloat (Principal.Attributes p)] +:+ "}"
  | FResource r =>
      "{" +:+ Join " " [Resource.ID r; Resource.Type_ r; Resource.Owner r; Resource.OrgID r;
                       sprintObject fmtFloat (Resource.Attributes r)] +:+ "}"
  | FObject o => sprintObject fmtFloat o
  end.

Definition evaluateCondition (cond : Condition.Condition) (req : Request.Request) : bool :=
  let value := resolveField (Condition.Field cond) req in
  let cv := Condition.Value cond in
  let needle := sprintAny fmtFloat cv in
  let op := Condition.Operator cond in
  if String.eqb op OpEquals then String.eqb (sprintField value) needle
  else if String.eqb op OpNotEquals then negb (String.eqb (sprintField value) needle)
  else if String.eqb op OpContains then
    match value with
    | FStrings arr => existsb (λ s, String.eqb s needle) arr
    | FAny (ASlice arr) => existsb (λ i, String.eqb (sprintAny fmtFloat i) needle) arr
    | FAny (AString str) => Contains str needle
    | _ => false
    end
  else if String.eqb op OpIn then
    match cv with
    | ASlice arr => existsb (λ v, String.eqb (sprintAny fmtFloat v) (sprintField value)) arr
    | _ => false
    end
  else if String.eqb op OpNotIn then
    match cv with
    | ASlice arr => negb (existsb (λ v, String.eqb (sprintAny fmtFloat v) (sprintField value)) arr)
    | _ => true
    end
  else if String.eqb op OpMatches then
    match cv with
    | AString pattern =>
        match regexMatch pattern (sprintField value) with Some b => b | None => false end
    | _ => false
    end
  else if String.eqb op OpExists then negb (isNil value)
  else false.

(** The loop over the conditions: the first failing one gives the reason. *)
Fixpoint checkConditions (conds : list Condition.Condition) (req : Request.Request) : bool * string :=
  match conds with
  | [] => (true, "matched")
  | c :: rest =>
      if negb (evaluateCondition c req)
      then (false, "condition " +:+ Condition.Field c +:+ " "
                   +:+ Condition.Operator c +:+ " failed")
      else checkConditions rest req
  end.

Definition matchPolicy (p : Policy.Policy) (req : Request.Request) : bool * string :=
  if match Policy.Principal p with
     | Some m => negb (matchPrincipal m (Request.Principal req)) | None => false end
  then (false, "principal mismatch")
  else if negb (matchAction (Policy.Actions p) (Request.Action req))
  then (false, "action mismatch")
  else if match Policy.Resource p with
          | Some m => negb (matchResource m (Request.Resource req) (Request.Principal req))
          | None => false end
  then (false, "resource mismatch")
  else checkConditions (Policy.Conditions p) req.

(** The loop of [Evaluate], with its two accumulators. *)
Fixpoint evaluateFrom (ps : Engine) (req : Request.Request) (matchedAllow : option Policy.Policy)
    (diagnostics : list string) : Result.Result :=
  match ps with
  | [] =>
      match matchedAllow with
      | Some p => Result.mk DecisionAllow (Policy.ID p) ("allowed by policy " +:+ Policy.ID p) diagnostics
      | None => Result.mk DecisionDeny "" "no matching policy found (default deny)" diagnostics
      end
  | p :: rest =>
      let '(matched, reason) := matchPolicy p req in
      let diagnostics := diagnostics ++ ["policy " +:+ Policy.ID p +:+ ": " +:+ reason] in
      if matched then
        if String.eqb (Policy.Effect p) Deny
        then Result.mk DecisionDeny (Policy.ID p)
               ("explicitly denied by policy " +:+ Policy.ID p) diagnostics
        else evaluateFrom rest req (match matchedAllow with None => Some p | some => some end) diagnostics
      else evaluateFrom rest req matchedAllow diagnostics
  end.

Definition Evaluate (e : Engine) (req : Request.Request) : Result.Result := evaluateFrom e req None [].

(** ** The HTTP middleware *)

Inductive Response :=
| Unauthorized
| Forbidden (reason : string)
| ServeNext.

Definition Middleware (e : Engine) (principal : option Principal.Principal) (method path : string)
    (resource : Resource.Resource) : Response :=
  match principal with
  | None => Unauthorized
  | Some p =>
      let result := Evaluate e (Request.mk p (ToLower method +:+ ":" +:+ path) resource []) in
      match Result.Decision result with
      | DecisionDeny => Forbidden (Result.Reason result)
      | DecisionAllow => ServeNext
      end
  end.

End Evaluate.

(** ** The engine's order *)

Definition prio_ge (a b : Policy.Policy) : Prop := Policy.Priority b ≤ Policy.Priority a.

(** Evaluation order: higher priority first. *)
Definition ordered (e : Engine) : Prop := StronglySorted prio_ge e.

Lemma bubble_ordered i e : (i < length e)%nat → ordered (take (S i) e) → bubble i e = e.
Proof.
  revert e. induction i as [|j IH]; intros e Hlen Ho; [done|]. cbn [bubble].
  destruct (lookup_lt_is_Some_2 e (S j) Hlen) as [a Ha].
  destruct (lookup_lt_is_Some_2 e j ltac:(lia)) as [b Hb]. rewrite Ha, Hb.
  assert (Policy.Priority a ≤ Policy.Priority b) as Hab.
  { apply (StronglySorted_app_1_elem_of prio_ge (take (S j) e) [a]).
    - by rewrite <- take_S_r.
    - apply list_elem_of_lookup_2 with j. rewrite lookup_take_lt by lia. done.
    - set_solver. }
  rewrite (proj2 (Z.ltb_ge _ _)) by done. apply IH; [lia|].
  erewrite take_S_r in Ho by done. by eapply StronglySorted_app_1_l.
Qed.

Lemma insert_middle {A} (l1 l2 : list A) a b x :
  <[length l1 := x]> (l1 ++ a :: b :: l2) = l1 ++ x :: b :: l2.
Proof. by rewrite insert_app_r_alt, Nat.sub_diag by lia. Qed.

(** Carrying a new entry up through an ordered prefix puts it behind every
    policy of at least its priority and before all others. *)
Lemma bubble_insert l1 : ∀ l2 p, ordered l1 →
  ∃ k1 k2, l1 = k1 ++ k2 ∧ bubble (length l1) (l1 ++ p :: l2) = k1 ++ p :: k2 ++ l2 ∧
    Forall (λ q, Policy.Priority p ≤ Policy.Priority q) k1 ∧
    Forall (λ q, Policy.Priority q < Policy.Priority p) k2.
Proof.
  induction l1 as [|q l1 IH] using rev_ind; intros l2 p Ho.
  { exists [], []. split_and!; [done|done|constructor|constructor]. }
  pose proof (StronglySorted_app_1_l _ _ _ Ho) as Ho1.
  rewrite length_app. cbn [length]. rewrite Nat.add_1_r. cbn [bubble].
  rewrite <- app_assoc. cbn [app].
  rewrite !lookup_app_r, Nat.sub_diag by lia.
  replace (S (length l1) - length l1)%nat with 1%nat by lia. cbn [lookup list_lookup].
  destruct (Z.ltb_spec (Policy.Priority q) (Policy.Priority p)) as [Hlt|Hge].
  - rewrite insert_middle. rewrite insert_app_r_alt by lia.
    replace (S (length l1) - length l1)%nat with 1%nat by lia. cbn [insert list_insert].
    destruct (IH (q :: l2) p Ho1) as (k1 & k2 & -> & -> & H1 & H2).
    exists k1, (k2 ++ [q]). rewrite <- !app_assoc. split_and!; [done|done|done|].
    apply Forall_app. split; [done|]. by repeat constructor.
  - rewrite bubble_ordered.
    + exists (l1 ++ [q]), []. split_and!; [by rewrite app_nil_r|by rewrite <- app_assoc| |constructor].
      apply Forall_app. split; [|by repeat constructor].
      apply Forall_forall. intros x Hx.
      assert (prio_ge x q) by (eapply StronglySorted_app_1_elem_of; [done|done|set_solver]).
      unfold prio_ge in *. lia.
    + rewrite length_app. simpl. lia.
    + replace (take (S (length l1)) (l1 ++ q :: p :: l2)) with (l1 ++ [q]); [done|].
      by rewrite take_app, take_ge, Nat.sub_succ_l, Nat.sub_diag by lia.
Qed.

Lemma add_policy_insert e p : ordered e →
  ∃ k1 k2, e = k1 ++ k2 ∧ AddPolicy e p = k1 ++ defaultEffect p :: k2 ∧
    Forall (λ q, Policy.Priority p ≤ Policy.Priority q) k1 ∧
    Forall (λ q, Policy.Priority q < Policy.Priority p) k2.
Proof.
  intros Ho. destruct (bubble_insert e [] (defaultEffect p) Ho) as (k1 & k2 & He & Hb & H1 & H2).
  assert (Policy.Priority (defaultEffect p) = Policy.Priority p) as Hp
    by (unfold defaultEffect; by destruct (String.eqb _ _)).
  rewrite Hp in H1, H2. exists k1, k2. split_and!; [done| |done|done].
  unfold AddPolicy. rewrite length_app. cbn [length]. rewrite Nat.add_sub, Hb. by rewrite app_nil_r.
Qed.

Lemma ordered_insert k1 p k2 : ordered (k1 ++ k2) →
  Forall (λ q, Policy.Priority p ≤ Policy.Priority q) k1 →
  Forall (λ q, Policy.Priority q ≤ Policy.Priority p) k2 → ordered (k1 ++ p :: k2).
Proof.
  intros Ho H1 H2. apply StronglySorted_app in Ho as (Hx & Ho1 & Ho2).
  apply StronglySorted_app. split_and!; [|done|by apply StronglySorted_cons].
  intros x1 x2 Hx1 [->|Hx2]%elem_of_cons; [|by apply Hx].
  by apply (proj1 (Forall_forall _ _) H1).
Qed.

Lemma add_policy_ordered e p : ordered e → ordered (AddPolicy e p).
Proof.
  intros Ho. destruct (add_policy_insert e p Ho) as (k1 & k2 & -> & -> & H1 & H2).
  assert (Policy.Priority (defaultEffect p) = Policy.Priority p) as Hp
    by (unfold defaultEffect; by destruct (String.eqb _ _)).
  apply ordered_insert; rewrite ?Hp; [done|done|]. eapply Forall_impl; [done|]. simpl. lia.
Qed.

Lemma remove_policy_sublist e id : RemovePolicy e id `sublist_of` e.
Proof.
  induction e as [|p e IH]; simpl; [done|]. destruct (String.eqb _ _); [by apply sublist_cons|].
  by apply sublist_skip.
Qed.

Lemma ordered_sublist e k : k `sublist_of` e → ordered e → ordered k.
Proof.
  induction 1 as [|x k e Hs IH|x k e Hs IH]; [done| |].
  - intros [Hf Ho]%StronglySorted_cons. apply StronglySorted_cons. split; [|by apply IH].
    apply Forall_forall. intros y Hy. apply (proj1 (Forall_forall _ _) Hf).
    by eapply sublist_subseteq.
  - intros [_ Ho]%StronglySorted_cons. by apply IH.
Qed.

(** ** What [Evaluate] decides *)

Section Spec.
Context (fmtFloat : Z → string) (regexMatch : string → string → option bool).
Abbreviation eval := (Evaluate fmtFloat regexMatch).

Definition matches (req : Request.Request) (p : Policy.Policy) : bool :=
  fst (matchPolicy fmtFloat regexMatch p req).
Definition denies (req : Request.Request) (p : Policy.Policy) : bool :=
  matches req p && String.eqb (Policy.Effect p) Deny.
Definition permits (req : Request.Request) (p : Policy.Policy) : bool :=
  matches req p && negb (String.eqb (Policy.Effect p) Deny).

(** The reference: the first denying policy decides, else the first
    permitting one, else the request is denied. *)
Definition verdict (req : Request.Request) (e : Engine) (earlier : option Policy.Policy) : Decision * string :=
  match find (denies req) e with
  | Some p => (DecisionDeny, Policy.ID p)
  | None =>
      match (match earlier with Some p => Some p | None => find (permits req) e end) with
      | Some p => (DecisionAllow, Policy.ID p)
      | None => (DecisionDeny, "")
      end
  end.

Lemma evaluate_from_verdict req e ma ds :
  let r := evaluateFrom fmtFloat regexMatch e req ma ds in
  (Result.Decision r, Result.PolicyID r) = verdict req e ma.
Proof.
  revert ma ds. induction e as [|p e IH]; intros ma ds; cbn [evaluateFrom].
  { by destruct ma. }
  unfold verdict. cbn [find]. unfold denies at 1, permits at 1, matches at 1 2.
  destruct (matchPolicy _ _ p req) as [[] reason]; cbn [fst andb].
  - destruct (String.eqb (Policy.Effect p) Deny); cbn [negb]; [done|].
    rewrite (IH _ _). unfold verdict. destruct (find (denies req) e); [done|]. by destruct ma.
  - rewrite (IH _ _). done.
Qed.

Lemma evaluate_verdict req e :
  (Result.Decision (eval e req), Result.PolicyID (eval e req)) = verdict req e None.
Proof. apply evaluate_from_verdict. Qed.

Lemma verdict_allow req e :
  fst (verdict req e None) = DecisionAllow ↔
  (∃ p, p ∈ e ∧ permits req p = true) ∧ ∀ p, p ∈ e → denies req p = false.
Proof.
  unfold verdict. destruct (find (denies req) e) as [p|] eqn:Hd.
  - apply find_some in Hd as [Hin%list_elem_of_In Hp]. split; [done|]. intros [_ H].
    by rewrite (H p Hin) in Hp.
  - pose proof (find_none _ _ Hd) as Hnone.
    destruct (find (permits req) e) as [p|] eqn:Hp; cbn [fst].
    + apply find_some in Hp as [Hin%list_elem_of_In Hp]. split; [|done]. intros _.
      split; [by exists p|]. intros q Hq. by apply Hnone, list_elem_of_In.
    + split; [done|]. intros [(p & Hin%list_elem_of_In & Hpp) _].
      by rewrite (find_none _ _ Hp p Hin) in Hpp.
Qed.

Lemma evaluate_allow req e :
  Result.Decision (eval e req) = DecisionAllow ↔
  (∃ p, p ∈ e ∧ permits req p = true) ∧ ∀ p, p ∈ e → denies req p = false.
Proof. rewrite <- verdict_allow, <- evaluate_verdict. done. Qed.

Lemma not_allow_deny (d : Decision) : d = DecisionDeny ↔ d ≠ DecisionAllow.
Proof. by destruct d. Qed.

(** An ordered list lists what satisfies a test by falling priority. *)
Lemma find_first_prio (f : Policy.Policy → bool) e p : ordered e → find f e = Some p →
  ∀ q, q ∈ e → f q = true → Policy.Priority q ≤ Policy.Priority p.
Proof.
  induction e as [|a e IH]; [done|]. intros [Ha Ho]%StronglySorted_cons. cbn [find].
  destruct (f a) eqn:Hf.
  - intros [= ->] q [->|Hq]%elem_of_cons _; [done|]. by apply (proj1 (Forall_forall _ _) Ha).
  - intros Hp q [->|Hq]%elem_of_cons Hfq; [congruence|]. by apply IH.
Qed.

(** Which policies the engine holds after an addition or a removal. *)
Lemma elem_of_add e p q : ordered e → q ∈ AddPolicy e p ↔ q = defaultEffect p ∨ q ∈ e.
Proof.
  intros Ho. destruct (add_policy_insert e p Ho) as (k1 & k2 & -> & -> & _). set_solver.
Qed.

End Spec.

(** ** Reachable engines *)

Inductive engine_step : Engine → Engine → Prop :=
| step_add e p : engine_step e (AddPolicy e p)
| step_remove e id : engine_step e (RemovePolicy e id)
| step_load {E} (unmarshal : string → res E (list Policy.Policy)) e data e' :
    LoadPolicies unmarshal e data = Ok e' → engine_step e e'.

Definition reachable : Engine → Prop := rtc engine_step NewEngine.

Lemma foldl_add_ordered ps : ∀ e, ordered e → ordered (foldl AddPolicy e ps).
Proof. induction ps as [|p ps IH]; intros e He; [done|]. by apply IH, add_policy_ordered. Qed.

Lemma reachable_ordered e : reachable e → ordered e.
Proof.
  intros Hr. assert (∀ e0, rtc engine_step e0 e → ordered e0 → ordered e) as H.
  { clear Hr. induction 1 as [|e1 e2 e3 Hs _ IH]; [done|]. intros Ho. apply IH.
    destruct Hs as [e p|e id|E um e data e' Hl].
    - by apply add_policy_ordered.
    - eapply ordered_sublist; [apply remove_policy_sublist|done].
    - unfold LoadPolicies in Hl. destruct (um data); simplify_eq. by apply foldl_add_ordered. }
  apply (H NewEngine); [done|constructor].
Qed.

(** A policy with a condition on a declared but unimplemented operator. *)
Definition ordering_condition (c : Condition.Condition) : bool :=
  String.eqb (Condition.Operator c) OpGreaterThan || String.eqb (Condition.Operator c) OpLessThan.

Lemma check_conditions_ordering ff rx cs req :
  existsb ordering_condition cs = true → fst (checkConditions ff rx cs req) = false.
Proof.
  induction cs as [|c cs IH]; [done|]. cbn [existsb checkConditions].
  destruct (evaluateCondition ff rx c req) eqn:He; cbn [negb]; [|done].
  destruct (ordering_condition c) eqn:Ho; cbn [orb]; [|apply IH].
  unfold ordering_condition in Ho. unfold evaluateCondition in He.
  apply orb_true_iff in Ho as [Ho|Ho]; apply String.eqb_eq in Ho; by rewrite Ho in He.
Qed.

Lemma match_action_spec allowed action :
  matchAction allowed action = true ↔
  ∃ a, a ∈ allowed ∧ (a = "*" ∨ a = action ∨ ∃ d r, a = d +:+ ":*" ∧ action = d +:+ ":" +:+ r).
Proof.
  induction allowed as [|a l IH]; cbn [matchAction].
  { split; [done|]. intros (a & Ha%elem_of_nil & _). done. }
  assert (HasSuffix a ":*" && HasPrefix action (TrimSuffix a "*") = true ↔
          ∃ d r, a = d +:+ ":*" ∧ action = d +:+ ":" +:+ r) as Hw.
  { rewrite andb_true_iff, has_suffix_spec, has_prefix_spec. split.
    - intros [[d ->] [r Hr]]. exists d, r. split; [done|].
      replace (d +:+ ":*") with ((d +:+ ":") +:+ "*") in Hr by (by rewrite append_assoc).
      by rewrite trim_suffix_app, append_assoc in Hr.
    - intros (d & r & -> & ->). split; [by exists d|]. exists r.
      replace (d +:+ ":*") with ((d +:+ ":") +:+ "*") by (by rewrite append_assoc).
      by rewrite trim_suffix_app, append_assoc. }
  destruct (String.eqb a "*" || String.eqb a action) eqn:E1.
  - split; [|done]. intros _. exists a. split; [set_solver|].
    apply orb_true_iff in E1 as [?%String.eqb_eq|?%String.eqb_eq]; auto.
  - apply orb_false_iff in E1 as [?%String.eqb_neq ?%String.eqb_neq].
    destruct (_ && _).
    + split; [|done]. intros _. exists a. split; [set_solver|]. right. right. by apply Hw.
    + rewrite IH. split; intros (b & Hb & H'); [exists b; split; [set_solver|done]|].
      apply elem_of_cons in Hb as [->|Hb]; [|by exists b].
      destruct H' as [?|[?|H']]; [done|done|]. by apply Hw in H'.
Qed.

(** ** The contracts *)

Section Contracts.
Context (fmtFloat : Z → string) (regexMatch : string → string → option bool).

(** C3: [Evaluate] allows a request exactly when some policy that is not a
    deny matches it and no deny policy matches it, whatever the order and
    priorities: deny overrides, and without any match the answer is deny. *)
Theorem evaluate_deny_overrides e req :
  Result.Decision (Evaluate fmtFloat regexMatch e req) = DecisionAllow ↔
  (∃ p, p ∈ e ∧ fst (matchPolicy fmtFloat regexMatch p req) = true ∧ Policy.Effect p ≠ Deny) ∧
  (∀ p, p ∈ e → Policy.Effect p = Deny → fst (matchPolicy fmtFloat regexMatch p req) = false).
Proof.
  rewrite evaluate_allow. unfold permits, denies, matches. split.
  - intros [(p & Hin & [Hm Hp%negb_true_iff]%andb_true_iff) Hd]. apply String.eqb_neq in Hp.
    split; [by exists p|]. intros q Hq He. specialize (Hd q Hq).
    by rewrite He, andb_true_r in Hd.
  - intros [(p & Hin & Hm & Hp) Hd]. split.
    + exists p. split; [done|]. apply String.eqb_neq in Hp. by rewrite Hm, Hp.
    + intros q Hq. destruct (String.eqb_spec (Policy.Effect q) Deny) as [He|]; [|by rewrite andb_false_r].
      by rewrite (Hd q Hq He).
Qed.

(** Every engine reachable from [NewEngine] by [AddPolicy], [RemovePolicy]
    and [LoadPolicies] lists its policies by falling priority, so the policy
    [Evaluate] names is one of the highest priority among those that decide:
    the denying policies for an explicit deny, the permitting ones for an
    allow. *)
Theorem evaluate_names_highest_priority e req p : reachable e →
  (find (denies fmtFloat regexMatch req) e = Some p →
     Result.Decision (Evaluate fmtFloat regexMatch e req) = DecisionDeny ∧
     Result.PolicyID (Evaluate fmtFloat regexMatch e req) = Policy.ID p ∧
     ∀ q, q ∈ e → denies fmtFloat regexMatch req q = true → Policy.Priority q ≤ Policy.Priority p) ∧
  (find (denies fmtFloat regexMatch req) e = None → find (permits fmtFloat regexMatch req) e = Some p →
     Result.Decision (Evaluate fmtFloat regexMatch e req) = DecisionAllow ∧
     Result.PolicyID (Evaluate fmtFloat regexMatch e req) = Policy.ID p ∧
     ∀ q, q ∈ e → permits fmtFloat regexMatch req q = true → Policy.Priority q ≤ Policy.Priority p).
Proof.
  intros Ho%reachable_ordered. pose proof (evaluate_verdict fmtFloat regexMatch req e) as Hv.
  unfold verdict in Hv. split.
  - intros Hd. rewrite Hd in Hv. injection Hv as -> ->. split_and!; [done..|].
    by apply find_first_prio.
  - intros Hd Hp. rewrite Hd, Hp in Hv. injection Hv as -> ->. split_and!; [done..|].
    by apply find_first_prio.
Qed.

(** Adding a policy keeps the engine ordered, puts the policy behind all of
    at least its priority and before all others, and never changes a decision
    against its effect: a new deny policy cannot turn a deny into an allow, a
    new allow policy cannot turn an allow into a deny. *)
Theorem add_policy_respects_effect e p req : reachable e →
  (∃ k1 k2, e = k1 ++ k2 ∧ AddPolicy e p = k1 ++ defaultEffect p :: k2 ∧
     Forall (λ q, Policy.Priority p ≤ Policy.Priority q) k1 ∧
     Forall (λ q, Policy.Priority q < Policy.Priority p) k2) ∧
  (Policy.Effect p = Deny →
     Result.Decision (Evaluate fmtFloat regexMatch (AddPolicy e p) req) = DecisionAllow →
     Result.Decision (Evaluate fmtFloat regexMatch e req) = DecisionAllow) ∧
  (Policy.Effect p ≠ Deny →
     Result.Decision (Evaluate fmtFloat regexMatch e req) = DecisionAllow →
     Result.Decision (Evaluate fmtFloat regexMatch (AddPolicy e p) req) = DecisionAllow).
Proof.
  intros Ho%reachable_ordered. split; [by apply add_policy_insert|].
  rewrite !evaluate_allow. split; intros He [(q & Hq & Hp) Hd].
  - split.
    + exists q. split; [|done]. apply elem_of_add in Hq as [->|Hq]; [|done|done].
      exfalso. unfold permits, defaultEffect in Hp. rewrite He in Hp. cbn in Hp.
      by rewrite He, andb_false_r in Hp.
    + intros q' Hq'. apply Hd, elem_of_add; auto.
  - split; [exists q; split; [apply elem_of_add; auto|done]|].
    intros q' [->|Hq']%elem_of_add; [|by apply Hd|done].
    unfold denies, defaultEffect. destruct (String.eqb_spec (Policy.Effect p) ""); cbn [Policy.Effect].
    + by rewrite andb_false_r.
    + apply String.eqb_neq in He. by rewrite He, andb_false_r.
Qed.

(** An action matches a list exactly when an entry is the wildcard, the
    action itself, or ["d:*"] for a domain [d] the action starts with. *)
Theorem match_action_wildcards allowed action :
  matchAction allowed action = true ↔
  ∃ a, a ∈ allowed ∧ (a = "*" ∨ a = action ∨ ∃ d r, a = d +:+ ":*" ∧ action = d +:+ ":" +:+ r).
Proof. apply match_action_spec. Qed.

(** The middleware serves the request only for a known principal the engine
    allows; without a principal the answer is 401, otherwise 403. *)
Theorem middleware_serves_only_allowed e principal method path resource :
  Middleware fmtFloat regexMatch e principal method path resource = ServeNext ↔
  ∃ p, principal = Some p ∧
    Result.Decision (Evaluate fmtFloat regexMatch e
      (Request.mk p (ToLower method +:+ ":" +:+ path) resource [])) = DecisionAllow.
Proof.
  unfold Middleware. destruct principal as [p|]; [|split; [done|intros (p & ? & _); done]].
  destruct (Result.Decision _) eqn:E.
  - split; [by exists p|done].
  - split; [done|]. intros (q & [= <-] & Hq). congruence.
Qed.

(** A policy with a condition that uses one of the declared ordering
    operators [gt] and [lt] never matches, so as a deny policy it never
    denies. *)
Theorem ordering_operators_never_match p req :
  existsb ordering_condition (Policy.Conditions p) = true →
  fst (matchPolicy fmtFloat regexMatch p req) = false.
Proof.
  intros H. unfold matchPolicy.
  repeat (match goal with |- context [if ?b then (false, _) else _] => destruct b; [done|] end).
  by apply check_conditions_ordering.
Qed.

End Contracts.

(** ** Witnesses *)

Definition userAlice : Principal.Principal := Principal.mk "u1" "User" ["admin"] [] [].
Definition docA : Resource.Resource := Resource.mk "d1" "Document" "u1" "o1" [("size", VInt 10)].
Definition readReq : Request.Request := Request.mk userAlice "document:read" docA [].
Definition allowOwner : Policy.Policy :=
  Policy.mk "own" "" "" 5 None ["document:*"]
    (Some (ResourceMatcher.mk "Document" [] "${principal.id}" "")) [].
Definition denyBig : Policy.Policy :=
  Policy.mk "big" "" Deny 9 None ["*"] None
    [Condition.mk "resource.attributes.size" OpGreaterThan (AInt 5)].
Definition noFloat (_ : Z) : string := "".
Definition noRegex (_ _ : string) : option bool := None.

Lemma reachable_alice : reachable (AddPolicy (AddPolicy NewEngine allowOwner) denyBig).
Proof.
  eapply rtc_l; [apply (step_add _ allowOwner)|]. eapply rtc_l; [apply (step_add _ denyBig)|].
  constructor.
Qed.

Lemma evaluate_names_highest_priority_witness :
  Result.PolicyID (Evaluate noFloat noRegex (AddPolicy (AddPolicy NewEngine allowOwner) denyBig) readReq)
  = "own".
Proof.
  destruct (evaluate_names_highest_priority noFloat noRegex _ readReq (defaultEffect allowOwner)
              reachable_alice) as [_ H].
  destruct H as (_ & H & _); [reflexivity|reflexivity|]. exact H.
Defined.

Lemma add_policy_respects_effect_witness :
  Result.Decision (Evaluate noFloat noRegex (AddPolicy (AddPolicy NewEngine allowOwner) allowOwner) readReq)
  = DecisionAllow.
Proof.
  assert (reachable (AddPolicy NewEngine allowOwner)) as Hr
    by (eapply rtc_l; [apply (step_add _ allowOwner)|constructor]).
  destruct (add_policy_respects_effect noFloat noRegex _ allowOwner readReq Hr) as (_ & _ & H).
  apply H; [discriminate|reflexivity].
Defined.

Lemma ordering_operators_never_match_witness :
  fst (matchPolicy noFloat noRegex denyBig readReq) = false.
Proof. apply ordering_operators_never_match. reflexivity. Defined.
