(* ===== verification/PolicyAnalysis.v ===== *)
(** * PolicyAnalysis: static analysis of a policy set

    Models [Engine.Analyze] of [server-kit/go/policy/isop.go]: the extraction
    of atomic predicates and of the cube of each policy, the care set given by
    mutually exclusive atoms, the effective allow function, and the report.
    The maps of the Go code are [gmap]s; ranging over [exclusiveMap] only
    collects a conjunction, so its order is not observable. *)

From Stdlib Require Import ZArith Lia Ascii String.
From stdpp Require Import base sets list strings gmap.
From S2P Require Import Prelude Words GoStrings Extension Isop Policy.

Open Scope string_scope.
Open Scope list_scope.
Open Scope Z_scope.
Open Scope go_scope.

Inductive analysis_error := TooManyAtoms.

(** ** Atoms *)

Abbreviation groupKey := (string * string)%type.

Record atom_table := mkAtoms {
  atoms : list string;
  atomIndex : gmap string nat;
  exclusiveMap : gmap groupKey (list nat)
}.

Definition noAtoms : atom_table := mkAtoms [] ∅ ∅.

Definition addAtom (t : atom_table) (label : string) (excl : option groupKey)
  : res analysis_error (atom_table * nat) :=
  match atomIndex t !! label with
  | Some idx => Ok (t, idx)
  | None =>
      if MaxISOPAtoms <=? Z.of_nat (length (atoms t)) then Err TooManyAtoms
      else
        let idx := length (atoms t) in
        Ok (mkAtoms (atoms t ++ [label]) (<[label := idx]> (atomIndex t))
              (match excl with
               | Some g => <[g := default [] (exclusiveMap t !! g) ++ [idx]]> (exclusiveMap t)
               | None => exclusiveMap t
               end), idx)
  end.

(** [addAtom] followed by [c.Pos |= 1 << idx] or [c.Neg |= 1 << idx]. *)
Definition addLit (pos : bool) (label : string) (excl : option groupKey) (tc : atom_table * Cube)
  : res analysis_error (atom_table * Cube) :=
  try r <- addAtom (fst tc) label excl;
  let bit := u32 (Z.shiftl 1 (Z.of_nat (snd r))) in
  let c := snd tc in
  Ok (fst r, if pos then mkCube (Z.lor (Pos c) bit) (Neg c) else mkCube (Pos c) (Z.lor (Neg c) bit)).

Definition addLitIf (cond : bool) (label : string) (excl : option groupKey) (tc : atom_table * Cube)
  : res analysis_error (atom_table * Cube) :=
  if cond then addLit true label excl tc else Ok tc.

Definition named (s : string) : bool := negb (String.eqb s "") && negb (String.eqb s "*").

Fixpoint roleLits (roles : list string) (tc : atom_table * Cube)
  : res analysis_error (atom_table * Cube) :=
  match roles with
  | [] => Ok tc
  | role :: rest =>
      try tc <- addLitIf (negb (String.eqb role "*")) ("principal.role:" +:+ role) None tc;
      roleLits rest tc
  end.

Definition principalLits (m : option PrincipalMatcher.PrincipalMatcher) (tc : atom_table * Cube)
  : res analysis_error (atom_table * Cube) :=
  match m with
  | None => Ok tc
  | Some m =>
      try tc <- addLitIf (named (PrincipalMatcher.Type_ m))
                  ("principal.type==" +:+ PrincipalMatcher.Type_ m) (Some ("p.type", "")) tc;
      roleLits (PrincipalMatcher.Roles m) tc
  end.

Definition actionLits (actions : list string) (tc : atom_table * Cube)
  : res analysis_error (atom_table * Cube) :=
  match actions with
  | [] => Ok tc
  | a :: rest =>
      if (length rest =? 0)%nat && negb (String.eqb a "*") && negb (HasSuffix a ":*")
      then addLit true ("action==" +:+ a) (Some ("action", "")) tc
      else if negb (String.eqb a "*")
      then addLit true ("action in [" +:+ Join "," actions +:+ "]") None tc
      else Ok tc
  end.

Definition resourceLits (m : option ResourceMatcher.ResourceMatcher) (tc : atom_table * Cube)
  : res analysis_error (atom_table * Cube) :=
  match m with
  | None => Ok tc
  | Some m =>
      try tc <- addLitIf (named (ResourceMatcher.Type_ m))
                  ("resource.type==" +:+ ResourceMatcher.Type_ m) (Some ("r.type", "")) tc;
      try tc <- addLitIf (negb (String.eqb (ResourceMatcher.Owner m) ""))
                  ("resource.owner==" +:+ ResourceMatcher.Owner m) (Some ("r.owner", "")) tc;
      addLitIf (negb (String.eqb (ResourceMatcher.OrgID m) ""))
        ("resource.org_id==" +:+ ResourceMatcher.OrgID m) (Some ("r.org", "")) tc
  end.

Section Analyze.
Variable fmtFloat : Z → string.

Definition conditionLit (cond : Condition.Condition) (tc : atom_table * Cube)
  : res analysis_error (atom_table * Cube) :=
  let valStr := sprintAny fmtFloat (Condition.Value cond) in
  let field := Condition.Field cond in
  let op := Condition.Operator cond in
  if String.eqb op OpEquals then addLit true (field +:+ "==" +:+ valStr) (Some ("cond.eq", field)) tc
  else if String.eqb op OpNotEquals then addLit false (field +:+ "==" +:+ valStr) (Some ("cond.eq", field)) tc
  else addLit true (field +:+ " " +:+ op +:+ " " +:+ valStr) None tc.

Fixpoint conditionLits (conds : list Condition.Condition) (tc : atom_table * Cube)
  : res analysis_error (atom_table * Cube) :=
  match conds with
  | [] => Ok tc
  | c :: rest => try tc <- conditionLit c tc; conditionLits rest tc
  end.

(** The body of the first loop: the cube of one policy. *)
Definition policyCube (t : atom_table) (p : Policy.Policy) : res analysis_error (atom_table * Cube) :=
  try tc <- principalLits (Policy.Principal p) (t, mkCube 0 0);
  try tc <- actionLits (Policy.Actions p) tc;
  try tc <- resourceLits (Policy.Resource p) tc;
  conditionLits (Policy.Conditions p) tc.

Fixpoint policyCubes (t : atom_table) (ps : Engine) : res analysis_error (atom_table * list Cube) :=
  match ps with
  | [] => Ok (t, [])
  | p :: rest =>
      try tc <- policyCube t p;
      try r <- policyCubes (fst tc) rest;
      Ok (fst r, snd tc :: snd r)
  end.

(** ** Care set and effective function *)

Definition groupsOf (t : atom_table) : list (list nat) :=
  filter (λ g, (1 < length g)%nat) (map snd (map_to_list (exclusiveMap t))).

(** The counting loop over one group, with its early exit. *)
Fixpoint groupPossible (a : Z) (g : list nat) (setCount : Z) : bool :=
  match g with
  | [] => true
  | bitIdx :: rest =>
      if Z.land (Z.shiftr a (Z.of_nat bitIdx)) 1 =? 1
      then if 1 <? setCount + 1 then false else groupPossible a rest (setCount + 1)
      else groupPossible a rest setCount
  end.

Definition possible (groups : list (list nat)) (a : Z) : bool :=
  forallb (λ g, groupPossible a g 0) groups.

Definition cubeTable (n : Z) (care : TruthTable) (c : Cube) : TruthTable :=
  and_ (tableFromCubes n [c]) care.

(** The loop of [evalSubset]: allow and deny tables of the policies other than
    the skipped one. *)
Fixpoint evalLoop (n : Z) (care : TruthTable) (i skip : Z) (pcs : list (Policy.Policy * Cube))
    (allow deny : TruthTable) : TruthTable * TruthTable :=
  match pcs with
  | [] => (allow, deny)
  | (p, c) :: rest =>
      if i =? skip then evalLoop n care (i + 1) skip rest allow deny
      else
        let t := cubeTable n care c in
        if String.eqb (Policy.Effect p) Deny
        then evalLoop n care (i + 1) skip rest allow (or_ deny t)
        else evalLoop n care (i + 1) skip rest (or_ allow t) deny
  end.

Definition evalSubset (n : Z) (care : TruthTable) (pcs : list (Policy.Policy * Cube)) (skip : Z)
  : TruthTable * TruthTable * TruthTable :=
  let '(allow, deny) := evalLoop n care 0 skip pcs (NewTruthTable n) (NewTruthTable n) in
  (allow, deny, andNot allow deny).

Definition isShadowed (n : Z) (care denyAll : TruthTable) (pc : Policy.Policy * Cube) : bool :=
  String.eqb (Policy.Effect (fst pc)) Allow &&
  (let pTable := cubeTable n care (snd pc) in
   negb (IsZero pTable) && IsZero (andNot pTable denyAll)).

Fixpoint reportLoop (n : Z) (care denyAll effective : TruthTable) (all : list (Policy.Policy * Cube))
    (i : Z) (pcs : list (Policy.Policy * Cube)) : list string * list string :=
  match pcs with
  | [] => ([], [])
  | (p, c) :: rest =>
      let '(redundant, shadowed) := reportLoop n care denyAll effective all (i + 1) rest in
      (if Equal (snd (evalSubset n care all i)) effective then Policy.ID p :: redundant else redundant,
       if isShadowed n care denyAll (p, c) then Policy.ID p :: shadowed else shadowed)
  end.

Record AnalysisReport := mkReport {
  Atoms : list string;
  IrredundantCover : list Cube;
  RedundantPolicies : list string;
  ShadowedAllowPolicies : list string;
  AllowedMintermCount : Z
}.

(** [None] only when the recursion of the cover runs out of fuel. *)
Definition Analyze (policies : Engine) : option (res analysis_error AnalysisReport) :=
  match policyCubes noAtoms policies with
  | Err e => Some (Err e)
  | Ok (t, pCubes) =>
      let groups := groupsOf t in
      let n := Z.of_nat (length (atoms t)) in
      let limit := Z.shiftl 1 n in
      let care := setWhere limit (possible groups) (NewTruthTable n) in
      let dontCare := setWhere limit (λ a, negb (possible groups a)) (NewTruthTable n) in
      let pcs := zip policies pCubes in
      let '(_, denyAll, effective) := evalSubset n care pcs (-1) in
      let '(redundant, shadowed) := reportLoop n care denyAll effective pcs 0 pcs in
      let upper := or_ effective dontCare in
      match MinatoMorrealeISOP 17 effective upper with
      | None => None
      | Some cover =>
          Some (Ok (mkReport (atoms t) cover redundant shadowed
                      (zsum (map onesCount64 (words effective)))))
      end
  end.

End Analyze.

(** ** Extraction *)

(** The atom table: at most [MaxISOPAtoms] labels, indexed without
    duplicates; exclusion groups hold distinct indices of atoms. *)
Record atoms_ok (t : atom_table) : Prop := {
  ao_len : Z.of_nat (length (atoms t)) ≤ MaxISOPAtoms;
  ao_index : ∀ l i, atomIndex t !! l = Some i ↔ atoms t !! i = Some l;
  ao_groups : ∀ g idxs, exclusiveMap t !! g = Some idxs →
    NoDup idxs ∧ Forall (λ i, (i < length (atoms t))%nat) idxs
}.

Lemma no_atoms_ok : atoms_ok noAtoms.
Proof.
  split; [unfold MaxISOPAtoms; simpl; lia| |].
  - intros l i. cbn. rewrite lookup_empty, lookup_nil. done.
  - intros g idxs. cbn. by rewrite lookup_empty.
Qed.

Lemma add_atom_groups t g idxs : atoms_ok t → exclusiveMap t !! g = Some idxs ∨ idxs = [] →
  NoDup (idxs ++ [length (atoms t)]) ∧ Forall (λ i, (i < S (length (atoms t)))%nat) (idxs ++ [length (atoms t)]).
Proof.
  intros Ht Hg. assert (NoDup idxs ∧ Forall (λ i, (i < length (atoms t))%nat) idxs) as [Hn Hf].
  { destruct Hg as [Hg| ->]; [by apply (ao_groups t Ht g)|]. split; constructor. }
  split.
  - apply NoDup_app. split_and!; [done| |apply NoDup_singleton].
    intros i Hi ->%list_elem_of_singleton. pose proof (proj1 (Forall_forall _ _) Hf _ Hi). simpl in *. lia.
  - apply Forall_app. split; [|repeat constructor]. eapply Forall_impl; [done|]. simpl. lia.
Qed.

Lemma add_atom_index t label : atoms_ok t → atomIndex t !! label = None → ∀ l i,
  <[label := length (atoms t)]> (atomIndex t) !! l = Some i ↔ (atoms t ++ [label]) !! i = Some l.
Proof.
  intros Ht Hnone l i. rewrite lookup_insert_Some, lookup_app_Some, list_lookup_singleton_Some.
  rewrite (ao_index t Ht). split.
  - intros [[-> <-]|[? ?]]; [right; split; [lia|split; [lia|done]]|by left].
  - intros [Hi|(Hge & Hi & ->)]; [right|left; split; [done|lia]]. split; [|done].
    intros ->. apply (ao_index t Ht) in Hi. congruence.
Qed.

Lemma add_atom_ok t label ex t' i : atoms_ok t → addAtom t label ex = Ok (t', i) →
  atoms_ok t' ∧ atoms t `prefix_of` atoms t' ∧ atoms t' !! i = Some label.
Proof.
  intros Ht. unfold addAtom. destruct (atomIndex t !! label) as [j|] eqn:E.
  { intros [= <- <-]. split_and!; [done|done|by apply ao_index]. }
  destruct (Z.leb_spec MaxISOPAtoms (Z.of_nat (length (atoms t)))) as [|Hlt]; [done|].
  intros [= <- <-]. cbn [atoms]. split_and!; [|by apply prefix_app_r|by apply list_lookup_middle].
  split; cbn [atoms atomIndex exclusiveMap].
  - rewrite length_app. simpl. lia.
  - by apply add_atom_index.
  - intros g idxs. rewrite length_app. cbn [length]. rewrite Nat.add_1_r.
    assert (∀ idxs', exclusiveMap t !! g = Some idxs' →
      NoDup idxs' ∧ Forall (λ i, (i < S (length (atoms t)))%nat) idxs') as Hold.
    { intros idxs' [H1 H2]%(ao_groups t Ht). split; [done|]. eapply Forall_impl; [done|]. simpl. lia. }
    destruct ex as [g'|]; [|by apply Hold].
    intros [[-> <-]|[_ Hg]]%lookup_insert_Some; [|by apply Hold].
    apply (add_atom_groups t g); [done|]. destruct (exclusiveMap t !! g); [by left|by right].
Qed.

Definition nAtoms (t : atom_table) : Z := Z.of_nat (length (atoms t)).

(** A step of the extraction keeps the table well-formed, only appends atoms,
    and leaves a cube over the atoms known so far. *)
Definition lit_ok (f : atom_table * Cube → res analysis_error (atom_table * Cube)) : Prop :=
  ∀ t c t' c', atoms_ok t → cube_in (nAtoms t) c → f (t, c) = Ok (t', c') →
    atoms_ok t' ∧ cube_in (nAtoms t') c' ∧ atoms t `prefix_of` atoms t'.

Lemma cube_in_le v w c : 0 ≤ v ≤ w → cube_in v c → cube_in w c.
Proof.
  intros Hvw [H1 H2]. assert (2 ^ v ≤ 2 ^ w) by (apply Z.pow_le_mono_r; lia). split; lia.
Qed.

Lemma lor_bit_in v i p : 0 ≤ i < v → 0 ≤ p < 2 ^ v → 0 ≤ Z.lor p (2 ^ i) < 2 ^ v.
Proof.
  intros Hi Hp. assert (0 ≤ 2 ^ i) by (apply Z.pow_nonneg; lia).
  assert (0 ≤ Z.lor p (2 ^ i)) by (apply Z.lor_nonneg; lia). split; [done|].
  destruct (decide (Z.lor p (2 ^ i) = 0)) as [->|]; [apply Z.pow_pos_nonneg; lia|].
  apply Z.log2_lt_pow2; [lia|]. rewrite Z.log2_lor by lia. rewrite Z.log2_pow2 by lia.
  destruct (decide (p = 0)) as [->|]; [cbn; lia|].
  apply Z.max_lub_lt; [|lia]. apply Z.log2_lt_pow2; lia.
Qed.


Lemma lit_ok_ret : lit_ok Ok.
Proof. intros t c t' c' Ht Hc [= <- <-]. done. Qed.

Lemma lit_ok_add pos label ex : lit_ok (addLit pos label ex).
Proof.
  intros t c t' c' Ht Hc. unfold addLit, res_bind. cbn [fst snd].
  destruct (addAtom t label ex) as [[t1 i]|] eqn:E; [|done]. cbn [fst snd].
  destruct (add_atom_ok _ _ _ _ _ Ht E) as (H1 & Hp & Hi). intros [= <- <-].
  apply lookup_lt_Some in Hi. pose proof (ao_len _ H1) as Hl. unfold MaxISOPAtoms in Hl.
  apply prefix_length in Hp as Hpl.
  assert (cube_in (nAtoms t1) c) as [P1 P2] by (eapply cube_in_le; [|done]; unfold nAtoms; lia).
  assert (u32 (Z.shiftl 1 (Z.of_nat i)) = 2 ^ Z.of_nat i) as ->.
  { rewrite Z.shiftl_1_l. apply Z.mod_small. split; [apply Z.pow_nonneg; lia|].
    apply Z.pow_lt_mono_r; lia. }
  split_and!; [done| |done].
  destruct pos; split; cbn [Pos Neg]; try done; apply lor_bit_in; unfold nAtoms; try lia; done.
Qed.

Lemma lit_ok_bind f g : lit_ok f → lit_ok g → lit_ok (λ tc, try x <- f tc; g x).
Proof.
  intros Hf Hg t c t' c' Ht Hc. unfold res_bind. destruct (f (t, c)) as [[t1 c1]|] eqn:E; [|done].
  destruct (Hf _ _ _ _ Ht Hc E) as (H1 & H2 & H3). intros Hgo.
  destruct (Hg _ _ _ _ H1 H2 Hgo) as (? & ? & ?). split_and!; [done..|]. by etrans.
Qed.

Create HintDb analysis.
#[export] Hint Resolve lit_ok_ret lit_ok_add : analysis.

Lemma lit_ok_if b label ex : lit_ok (addLitIf b label ex).
Proof. unfold addLitIf. destruct b; auto with analysis. Qed.
#[export] Hint Resolve lit_ok_if : analysis.

Lemma lit_ok_roles roles : lit_ok (roleLits roles).
Proof.
  induction roles as [|r rs IH]; [apply lit_ok_ret|].
  apply (lit_ok_bind (addLitIf (negb (String.eqb r "*")) ("principal.role:" +:+ r) None) (roleLits rs));
    auto with analysis.
Qed.
#[export] Hint Resolve lit_ok_roles : analysis.

Lemma lit_ok_principal m : lit_ok (principalLits m).
Proof. destruct m as [m|]; [|apply lit_ok_ret]. apply lit_ok_bind; auto with analysis. Qed.

Lemma lit_ok_action acts : lit_ok (actionLits acts).
Proof.
  destruct acts as [|a acts]; [apply lit_ok_ret|]. unfold actionLits.
  destruct (_ && _); [apply lit_ok_add|]. destruct (negb _); auto with analysis.
Qed.

Lemma lit_ok_resource m : lit_ok (resourceLits m).
Proof.
  destruct m as [m|]; [|apply lit_ok_ret].
  apply lit_ok_bind; [auto with analysis|]. apply lit_ok_bind; auto with analysis.
Qed.

Lemma lit_ok_condition ff c : lit_ok (conditionLit ff c).
Proof. unfold conditionLit. destruct (String.eqb _ _); [|destruct (String.eqb _ _)]; auto with analysis. Qed.
#[export] Hint Resolve lit_ok_principal lit_ok_action lit_ok_resource lit_ok_condition : analysis.

Lemma lit_ok_conditions ff cs : lit_ok (conditionLits ff cs).
Proof.
  induction cs as [|c cs IH]; [apply lit_ok_ret|].
  apply (lit_ok_bind (conditionLit ff c) (conditionLits ff cs)); auto with analysis.
Qed.
#[export] Hint Resolve lit_ok_conditions : analysis.

Lemma policy_cube_ok ff t p t' c : atoms_ok t → policyCube ff t p = Ok (t', c) →
  atoms_ok t' ∧ cube_in (nAtoms t') c ∧ atoms t `prefix_of` atoms t'.
Proof.
  intros Ht.
  assert (lit_ok (λ tc, try tc <- principalLits (Policy.Principal p) tc;
    try tc <- actionLits (Policy.Actions p) tc;
    try tc <- resourceLits (Policy.Resource p) tc; conditionLits ff (Policy.Conditions p) tc)) as H.
  { repeat (apply lit_ok_bind; [auto with analysis|]). auto with analysis. }
  apply (H t (mkCube 0 0)); [done|]. assert (0 < 2 ^ nAtoms t) by (apply Z.pow_pos_nonneg; unfold nAtoms; lia).
  split; cbn [Pos Neg]; lia.
Qed.

Lemma policy_cubes_ok ff ps : ∀ t t' cs, atoms_ok t → policyCubes ff t ps = Ok (t', cs) →
  atoms_ok t' ∧ Forall (cube_in (nAtoms t')) cs ∧ atoms t `prefix_of` atoms t' ∧ length cs = length ps.
Proof.
  induction ps as [|p ps IH]; intros t t' cs Ht; cbn [policyCubes].
  { intros [= <- <-]. split_and!; [done|constructor|done|done]. }
  unfold res_bind. destruct (policyCube ff t p) as [[t1 c]|] eqn:E; [|done]. cbn [fst snd].
  destruct (policy_cube_ok _ _ _ _ _ Ht E) as (H1 & H2 & H3).
  destruct (policyCubes ff t1 ps) as [[t2 cs']|] eqn:E2; [|done]. intros [= <- <-]. cbn [fst snd].
  destruct (IH _ _ _ H1 E2) as (H4 & H5 & H6 & H7). split_and!; [done| |by etrans|simpl; lia].
  apply Forall_cons_iff. split; [|done]. eapply cube_in_le; [|done].
  apply prefix_length in H6. unfold nAtoms. lia.
Qed.

(** ** The effective function *)

(** The reference: assignment [a] is granted by the policies other than the
    skipped one. *)
Definition some_cube (pcs : list (Policy.Policy * Cube)) (i skip : Z) (isDeny : bool) (a : Z) : Prop :=
  ∃ j p c, pcs !! j = Some (p, c) ∧ i + Z.of_nat j ≠ skip ∧
    String.eqb (Policy.Effect p) Deny = isDeny ∧ Covers c a = true.

Definition grants (pcs : list (Policy.Policy * Cube)) (skip : Z) (a : Z) : Prop :=
  some_cube pcs 0 skip false a ∧ ¬ some_cube pcs 0 skip true a.

Lemma some_cube_cons p c pcs i skip d a :
  some_cube ((p, c) :: pcs) i skip d a ↔
  (i ≠ skip ∧ String.eqb (Policy.Effect p) Deny = d ∧ Covers c a = true) ∨ some_cube pcs (i + 1) skip d a.
Proof.
  split.
  - intros ([|j] & p' & c' & Hj & Hne & Hd & Hc).
    + injection Hj as <- <-. left. split_and!; [lia|done|done].
    + right. exists j, p', c'. split_and!; [done|lia|done|done].
  - intros [(Hne & Hd & Hc)|(j & p' & c' & Hj & Hne & Hd & Hc)].
    + exists 0%nat, p, c. split_and!; [done|lia|done|done].
    + exists (S j), p', c'. split_and!; [done|lia|done|done].
Qed.

Lemma some_cube_nil i skip d a : ¬ some_cube [] i skip d a.
Proof. by intros (j & p & c & Hj & _). Qed.

Lemma cube_table_spec n care c : 0 ≤ n ≤ MaxISOPAtoms → wf_table n care →
  wf_table n (cubeTable n care c) ∧
  ∀ a, 0 ≤ a < 2 ^ n → Get (cubeTable n care c) a = Covers c a && Get care a.
Proof.
  intros Hn Hc. destruct (table_from_cubes_spec n [c] Hn) as [Hw Hg].
  destruct (and_spec n _ _ Hw Hc) as [Hw' Hg']. split; [done|]. intros a Ha.
  unfold cubeTable. rewrite Hg', Hg by done. cbn [existsb]. by rewrite orb_false_r.
Qed.

Lemma eval_loop_spec n care pcs skip : 0 ≤ n ≤ MaxISOPAtoms → wf_table n care →
  ∀ i allow deny, wf_table n allow → wf_table n deny →
  let '(allow', deny') := evalLoop n care i skip pcs allow deny in
  wf_table n allow' ∧ wf_table n deny' ∧
  ∀ a, 0 ≤ a < 2 ^ n →
    (Get allow' a = true ↔ Get allow a = true ∨ (Get care a = true ∧ some_cube pcs i skip false a)) ∧
    (Get deny' a = true ↔ Get deny a = true ∨ (Get care a = true ∧ some_cube pcs i skip true a)).
Proof.
  intros Hn Hc. induction pcs as [|[p c] pcs IH]; intros i allow deny Ha Hd; cbn [evalLoop].
  { split_and!; [done..|]. intros a _. pose proof (some_cube_nil i skip). naive_solver. }
  destruct (cube_table_spec n care c Hn Hc) as [Hwt Hgt].
  destruct (Z.eqb_spec i skip) as [->|Hne].
  { specialize (IH (skip + 1) _ _ Ha Hd). destruct (evalLoop _ _ _ _ _ _ _) as [al de].
    destruct IH as (? & ? & IH). split_and!; [done..|]. intros a Hr. rewrite !some_cube_cons.
    destruct (IH a Hr) as [-> ->]. naive_solver. }
  destruct (String.eqb (Policy.Effect p) Deny) eqn:He.
  - destruct (or_spec n deny _ Hd Hwt) as [Hwo Hgo]. specialize (IH (i + 1) _ _ Ha Hwo).
    destruct (evalLoop _ _ _ _ _ _ _) as [al de]. destruct IH as (? & ? & IH). split_and!; [done..|].
    intros a Hr. rewrite !some_cube_cons, He. destruct (IH a Hr) as [-> ->].
    rewrite Hgo, Hgt, orb_true_iff, andb_true_iff by done. clear - Hne. intuition congruence.
  - destruct (or_spec n allow _ Ha Hwt) as [Hwo Hgo]. specialize (IH (i + 1) _ _ Hwo Hd).
    destruct (evalLoop _ _ _ _ _ _ _) as [al de]. destruct IH as (? & ? & IH). split_and!; [done..|].
    intros a Hr. rewrite !some_cube_cons, He. destruct (IH a Hr) as [-> ->].
    rewrite Hgo, Hgt, orb_true_iff, andb_true_iff by done. clear - Hne. intuition congruence.
Qed.

Lemma eval_subset_spec n care pcs skip : 0 ≤ n ≤ MaxISOPAtoms → wf_table n care →
  let '(_, deny, eff) := evalSubset n care pcs skip in
  wf_table n deny ∧ wf_table n eff ∧
  ∀ a, 0 ≤ a < 2 ^ n →
    (Get deny a = true ↔ Get care a = true ∧ some_cube pcs 0 skip true a) ∧
    (Get eff a = true ↔ Get care a = true ∧ grants pcs skip a).
Proof.
  intros Hn Hc. unfold evalSubset.
  pose proof (eval_loop_spec n care pcs skip Hn Hc 0 _ _ (new_table_wf n Hn) (new_table_wf n Hn)) as H.
  destruct (evalLoop _ _ _ _ _ _ _) as [al de]. destruct H as (Ha & Hd & H).
  destruct (andNot_spec n al de Ha Hd) as [He Hg]. split_and!; [done..|]. intros a Hr.
  destruct (H a Hr) as [Hal Hde]. rewrite get_new in Hal, Hde by lia.
  rewrite Hg, andb_true_iff, negb_true_iff, <- not_true_iff_false by done.
  unfold grants. rewrite Hal, Hde. naive_solver.
Qed.

(** Two tables over the care set agree exactly when the functions agree on
    every possible assignment. *)
Lemma effective_equal n care pcs skip : 0 ≤ n ≤ MaxISOPAtoms → wf_table n care →
  Equal (snd (evalSubset n care pcs skip)) (snd (evalSubset n care pcs (-1))) = true ↔
  ∀ a, 0 ≤ a < 2 ^ n → Get care a = true → grants pcs skip a ↔ grants pcs (-1) a.
Proof.
  intros Hn Hc. pose proof (eval_subset_spec n care pcs skip Hn Hc) as H1.
  pose proof (eval_subset_spec n care pcs (-1) Hn Hc) as H2.
  destruct (evalSubset n care pcs skip) as [[x1 d1] e1], (evalSubset n care pcs (-1)) as [[x2 d2] e2].
  destruct H1 as (_ & Hw1 & H1), H2 as (_ & Hw2 & H2). cbn [snd].
  rewrite (equal_spec n) by done. split; intros H a Ha.
  - intros Hca. destruct (H1 a Ha) as [_ G1], (H2 a Ha) as [_ G2]. rewrite (H a Ha) in G1.
    rewrite G1 in G2. clear -G2 Hca. tauto.
  - destruct (H1 a Ha) as [_ G1], (H2 a Ha) as [_ G2]. apply Bool.eq_iff_eq_true.
    rewrite G1, G2. split; intros [? ?]; (split; [done|]); by apply (H a Ha).
Qed.

Lemma shadowed_spec n care pcs p c : 0 ≤ n ≤ MaxISOPAtoms → wf_table n care →
  isShadowed n care (snd (fst (evalSubset n care pcs (-1)))) (p, c) = true ↔
  Policy.Effect p = Allow ∧ (∃ a, 0 ≤ a < 2 ^ n ∧ Get care a = true ∧ Covers c a = true) ∧
  ∀ a, 0 ≤ a < 2 ^ n → Get care a = true → Covers c a = true → some_cube pcs 0 (-1) true a.
Proof.
  intros Hn Hc. pose proof (eval_subset_spec n care pcs (-1) Hn Hc) as H.
  destruct (evalSubset n care pcs (-1)) as [[x d] e]. destruct H as (Hd & _ & H). cbn [fst snd].
  destruct (cube_table_spec n care c Hn Hc) as [Hwt Hgt].
  destruct (andNot_spec n _ d Hwt Hd) as [Hwa Hga].
  unfold isShadowed. cbn [fst snd]. rewrite !andb_true_iff, String.eqb_eq, negb_true_iff.
  rewrite (is_zero_spec n _ Hwa). split.
  - intros (He & Hnz & Hz). split_and!; [done| |].
    + destruct (not_zero_witness n _ Hwt Hnz) as (a & Ha & Hg). rewrite Hgt in Hg by done.
      apply andb_true_iff in Hg as [? ?]. by exists a.
    + intros a Ha Hca Hcov. specialize (Hz a Ha). rewrite Hga, Hgt, Hcov, Hca in Hz by done.
      cbn in Hz. apply negb_false_iff in Hz. by apply (H a Ha).
  - intros (He & (a & Ha & Hca & Hcov) & Hall). split_and!; [done| |].
    + apply not_true_iff_false. intros Hz. pose proof (proj1 (is_zero_spec n _ Hwt) Hz a Ha) as Hf.
      by rewrite Hgt, Hcov, Hca in Hf.
    + intros b Hb. rewrite Hga, Hgt by done. destruct (Covers c b) eqn:Hcb, (Get care b) eqn:Hgb; try done.
      cbn. apply negb_false_iff. apply (H b Hb). split; [done|]. by apply Hall.
Qed.

(** The report loop collects the identifiers of the policies that pass its two
    tests. *)
Lemma report_loop_spec n care denyAll eff all pcs : ∀ i,
  let '(redundant, shadowed) := reportLoop n care denyAll eff all i pcs in
  (∀ id, id ∈ redundant ↔ ∃ j p c, pcs !! j = Some (p, c) ∧ Policy.ID p = id ∧
     Equal (snd (evalSubset n care all (i + Z.of_nat j))) eff = true) ∧
  (∀ id, id ∈ shadowed ↔ ∃ j p c, pcs !! j = Some (p, c) ∧ Policy.ID p = id ∧
     isShadowed n care denyAll (p, c) = true).
Proof.
  induction pcs as [|[p c] pcs IH]; intros i; cbn [reportLoop].
  { split; intros id; (split; [by intros ?%elem_of_nil|by intros (j & ? & ? & Hj & _)]). }
  specialize (IH (i + 1)). destruct (reportLoop _ _ _ _ _ (i + 1) pcs) as [rs ss].
  destruct IH as [IHr IHs].
  assert (∀ (b : bool) (Q : nat → Policy.Policy → Cube → bool) l id, Q 0%nat p c = b →
    (id ∈ l ↔ ∃ j p c, pcs !! j = Some (p, c) ∧ Policy.ID p = id ∧ Q (S j) p c = true) →
    id ∈ (if b then Policy.ID p :: l else l) ↔
    ∃ j p' c', ((p, c) :: pcs) !! j = Some (p', c') ∧ Policy.ID p' = id ∧ Q j p' c' = true) as Hgen.
  { intros b Q l id Hb Hl.
    assert (id ∈ (if b then Policy.ID p :: l else l) ↔ (b = true ∧ id = Policy.ID p) ∨ id ∈ l) as ->
      by (destruct b; rewrite ?elem_of_cons; naive_solver).
    rewrite Hl. split.
    - intros [[-> ->]|(j & p' & c' & Hj & Hr)]; [by exists 0%nat, p, c|by exists (S j), p', c'].
    - intros ([|j] & p' & c' & Hj & Hid & HQ).
      + injection Hj as <- <-. left. split; congruence.
      + right. by exists j, p', c'. }
  split; intros id.
  - apply (Hgen _ (λ j _ _, Equal (snd (evalSubset n care all (i + Z.of_nat j))) eff)).
    + by rewrite Z.add_0_r.
    + rewrite IHr. repeat (apply exist_proper; intros ?). do 2 (apply and_iff_compat_l).
      by replace (i + 1 + Z.of_nat x) with (i + Z.of_nat (S x)) by lia.
  - by apply (Hgen _ (λ _ p c, isShadowed n care denyAll (p, c))).
Qed.

(** ** The care set *)

Definition bitSet (a : Z) (i : nat) : bool := Z.land (Z.shiftr a (Z.of_nat i)) 1 =? 1.

Lemma group_possible_1 a g : groupPossible a g 1 = true ↔ ∀ x, x ∈ g → bitSet a x = false.
Proof.
  induction g as [|y g IH]; cbn [groupPossible]; [split; [intros _ x ?%elem_of_nil; done|done]|].
  fold (bitSet a y). destruct (bitSet a y) eqn:E.
  - split; [done|]. intros H. by rewrite (H y) in E by set_solver.
  - rewrite IH. split; [|set_solver]. intros H x [->|?]%elem_of_cons; [done|]. by apply H.
Qed.

(** A group is possible when at most one of its (distinct) atoms is true. *)
Lemma group_possible_0 a g : NoDup g →
  groupPossible a g 0 = true ↔
  ∀ x y, x ∈ g → y ∈ g → bitSet a x = true → bitSet a y = true → x = y.
Proof.
  induction g as [|z g IH]; cbn [groupPossible]; [split; [intros _ x y ?%elem_of_nil; done|done]|].
  intros [Hz Hn]%NoDup_cons. fold (bitSet a z). destruct (bitSet a z) eqn:E.
  - cbn [Z.add Z.ltb]. change (1 <? 0 + 1) with false. cbn iota. rewrite group_possible_1. split.
    + intros H x y [->|Hx]%elem_of_cons [->|Hy]%elem_of_cons; try done.
      * intros _. by rewrite (H y Hy).
      * by rewrite (H x Hx).
      * by rewrite (H x Hx).
    + intros H x Hx. apply not_true_iff_false. intros Hb. apply Hz.
      rewrite (H z x); [done|set_solver|set_solver|done|done].
  - rewrite (IH Hn). split.
    + intros H x y [->|Hx]%elem_of_cons [->|Hy]%elem_of_cons Hbx Hby; try congruence. by apply H.
    + intros H x y Hx Hy. apply H; set_solver.
Qed.

Lemma possible_spec t a : atoms_ok t →
  possible (groupsOf t) a = true ↔
  ∀ k g x y, exclusiveMap t !! k = Some g → x ∈ g → y ∈ g → bitSet a x = true → bitSet a y = true → x = y.
Proof.
  intros Ht. unfold possible. rewrite forallb_forall. split.
  - intros H k g x y Hk Hx Hy. destruct (ao_groups t Ht k g Hk) as [Hn _].
    destruct (decide (1 < length g)%nat) as [Hl|Hl].
    + apply (group_possible_0 a g Hn); [|done|done]. apply H, list_elem_of_In. unfold groupsOf.
      apply list_elem_of_filter. split; [done|]. apply list_elem_of_fmap. exists (k, g).
      split; [done|]. by apply elem_of_map_to_list.
    + intros _ _. destruct g as [|z [|]]; [set_solver|set_solver|simpl in Hl; lia].
  - intros H g Hg. apply list_elem_of_In in Hg. unfold groupsOf in Hg.
    apply list_elem_of_filter in Hg as [_ Hg]. apply list_elem_of_fmap in Hg as ([k g'] & -> & Hk).
    apply elem_of_map_to_list in Hk. destruct (ao_groups t Ht k g' Hk) as [Hn _].
    apply group_possible_0; [done|]. intros x y. by apply (H k).
Qed.

(** ** Counting *)

Lemma get_word t a : Get t (Z.of_nat a) = getWord (words t) a.
Proof.
  rewrite get_spec by lia. unfold getWord.
  change 64 with (Z.of_nat 64) at 1 2.
  rewrite <- (Nat2Z.inj_div a 64), Nat2Z.id. destruct (words t !! _); [|done].
  by rewrite (Nat2Z.inj_mod a 64).
Qed.

(** A table is clean when no bit beyond its assignments is set. *)
Definition clean (n : Z) (t : TruthTable) : Prop := ∀ a, 2 ^ n ≤ a → Get t a = false.

Lemma clean_zip n f g t u : (∀ x y i, 0 ≤ i → Z.testbit (f x y) i = g (Z.testbit x i) (Z.testbit y i)) →
  (∀ b, g false b = false) → 0 ≤ n → clean n t →
  clean n (mkTable (nVars (NewTruthTable (nVars t))) (zip_with f (words t) (words u))).
Proof.
  intros Hf Hg Hn Ht a Ha. assert (0 ≤ 2 ^ n) by (apply Z.pow_nonneg; lia).
  pose proof (Ht a Ha) as Hta. rewrite get_spec in Hta |- * by lia. cbn [words].
  rewrite lookup_zip_with. destruct (words t !! _); [|done]. cbn.
  destruct (words u !! _); [|done]. cbn. rewrite Hf by (apply Z.mod_pos_bound; lia). by rewrite Hta, Hg.
Qed.

Lemma clean_or n t u : 0 ≤ n → length (words t) = length (words u) → clean n t → clean n u → clean n (or_ t u).
Proof.
  intros Hn Hl Ht Hu a Ha. assert (0 ≤ 2 ^ n) by (apply Z.pow_nonneg; lia).
  pose proof (Ht a Ha) as Hta. pose proof (Hu a Ha) as Hua. rewrite get_spec in Hta, Hua |- * by lia.
  cbn [words or_]. rewrite lookup_zip_with. destruct (words t !! _); [|done]. cbn.
  destruct (words u !! _); [|done]. cbn. rewrite Z.lor_spec. by rewrite Hta, Hua.
Qed.

Lemma clean_new n m : 0 ≤ n → clean n (NewTruthTable m).
Proof. intros Hn a Ha. apply get_new. assert (0 ≤ 2 ^ n) by (apply Z.pow_nonneg; lia). lia. Qed.

Lemma clean_cube_table n care c : 0 ≤ n ≤ MaxISOPAtoms → clean n (cubeTable n care c).
Proof.
  intros Hn. apply (clean_zip n Z.land andb); [intros; by apply Z.land_spec|done|lia|].
  unfold tableFromCubes. intros a Ha. assert (0 ≤ 2 ^ n) by (apply Z.pow_nonneg; lia).
  rewrite Z.shiftl_1_l.
  destruct (set_where_spec n (2 ^ n) (λ a, existsb (λ c, Covers c a) [c]) _ (new_table_wf n Hn)) as [_ ->];
    [lia| |lia]. rewrite (proj2 (Z.ltb_ge a (2 ^ n))) by lia.
  cbn [andb orb]. apply get_new. lia.
Qed.

Lemma clean_eval_loop n care pcs skip : 0 ≤ n ≤ MaxISOPAtoms → wf_table n care →
  ∀ i allow deny, wf_table n allow → wf_table n deny → clean n allow →
  clean n (fst (evalLoop n care i skip pcs allow deny)).
Proof.
  intros Hn Hc. induction pcs as [|[p c] pcs IH]; intros i allow deny Ha Hd Hcl; cbn [evalLoop]; [done|].
  destruct (cube_table_spec n care c Hn Hc) as [Hwt _].
  destruct (i =? skip); [by apply IH|]. destruct (String.eqb _ _).
  - apply IH; [done|by apply (or_spec n)|done].
  - apply IH; [by apply (or_spec n)|done|]. apply clean_or; [lia| |done|by apply clean_cube_table].
    by rewrite (wf_len n _ Ha), (wf_len n _ Hwt).
Qed.

(** The sum of the population counts is the number of assignments a clean
    table holds. *)
Lemma ones_count_assignments n t : wf_table n t → clean n t →
  ∃ l : list Z, NoDup l ∧ (∀ a, a ∈ l ↔ 0 ≤ a < 2 ^ n ∧ Get t a = true) ∧
    zsum (map onesCount64 (words t)) = Z.of_nat (length l).
Proof.
  intros Hw Hc. rewrite ones_count_words.
  exists (Z.of_nat <$> filter (λ a, getWord (words t) a = true) (seq 0 (64 * length (words t)))).
  split_and!; [apply NoDup_fmap_2; [apply _|]; apply NoDup_filter, NoDup_seq| |by rewrite length_fmap].
  intros a. rewrite list_elem_of_fmap. split.
  - intros (x & -> & [Hx _]%list_elem_of_filter). rewrite get_word. split; [|done]. split; [lia|].
    apply Z.nle_gt. intros Hle. specialize (Hc _ Hle). rewrite get_word in Hc. congruence.
  - intros [Ha Hg]. exists (Z.to_nat a). split; [lia|]. apply list_elem_of_filter.
    rewrite <- get_word, Z2Nat.id by lia. split; [done|]. apply elem_of_seq. split; [lia|].
    rewrite get_spec in Hg by lia. destruct (words t !! _) eqn:E; [|done].
    apply lookup_lt_Some in E. pose proof (Z.div_mod a 64). pose proof (Z.mod_pos_bound a 64). lia.
Qed.

(** ** The report *)

Section Report.
Context (fmtFloat : Z → string) (e : Engine) (t : atom_table) (cs : list Cube).
Hypothesis extracted : policyCubes fmtFloat noAtoms e = Ok (t, cs).

Let n := nAtoms t.
Let pcs := zip e cs.
Let care := setWhere (Z.shiftl 1 n) (possible (groupsOf t)) (NewTruthTable n).
Let dontCare := setWhere (Z.shiftl 1 n) (λ a, negb (possible (groupsOf t) a)) (NewTruthTable n).

Lemma n_range : atoms_ok t ∧ 0 ≤ n ≤ MaxISOPAtoms.
Proof using extracted.
  destruct (policy_cubes_ok _ _ _ _ _ no_atoms_ok extracted) as (Ht & _ & _ & _).
  pose proof (ao_len t Ht). split; [done|]. unfold n, nAtoms. lia.
Qed.

Lemma set_where_new p : wf_table n (setWhere (Z.shiftl 1 n) p (NewTruthTable n)) ∧
  ∀ a, 0 ≤ a < 2 ^ n → Get (setWhere (Z.shiftl 1 n) p (NewTruthTable n)) a = p a.
Proof using extracted.
  destruct n_range as [_ Hn]. rewrite Z.shiftl_1_l. assert (0 ≤ 2 ^ n) by (apply Z.pow_nonneg; lia).
  destruct (set_where_spec n (2 ^ n) p _ (new_table_wf n Hn)) as [Hw Hg]; [lia|]. split; [done|].
  intros a Ha. rewrite Hg by lia. rewrite (proj2 (Z.ltb_lt _ _)), get_new by lia. by rewrite orb_false_r.
Qed.

Lemma effective_interval : let '(_, _, eff) := evalSubset n care pcs (-1) in
  interval n eff (or_ eff dontCare) ∧ clean n eff ∧
  ∀ a, 0 ≤ a < 2 ^ n →
    (Get eff a = true ↔ possible (groupsOf t) a = true ∧ grants pcs (-1) a) ∧
    Get (or_ eff dontCare) a = Get eff a || negb (possible (groupsOf t) a).
Proof using extracted.
  destruct n_range as [_ Hn]. destruct (set_where_new (possible (groupsOf t))) as [Hc Gc].
  destruct (set_where_new (λ a, negb (possible (groupsOf t) a))) as [Hd Gd]. fold care in Hc, Gc.
  fold dontCare in Hd, Gd.
  pose proof (eval_subset_spec n care pcs (-1) Hn Hc) as H.
  pose proof (clean_eval_loop n care pcs (-1) Hn Hc 0 _ _ (new_table_wf n Hn) (new_table_wf n Hn)
                (clean_new n n (proj1 Hn))) as Hcl.
  unfold evalSubset in *. destruct (evalLoop _ _ _ _ _ _ _) as [al de]. cbn [fst] in Hcl.
  destruct H as (_ & He & H). destruct (or_spec n _ _ He Hd) as [Hwo Hgo]. split_and!.
  - split_and!; [done..|]. intros a Ha Hg. by rewrite Hgo, Hg by done.
  - apply (clean_zip n Z.ldiff (λ x y, x && negb y)); [intros; by apply Z.ldiff_spec|done|lia|done].
  - intros a Ha. rewrite Hgo, Gd by done. split; [|done]. rewrite (proj2 (H a Ha)), Gc; done.
Qed.

Lemma analyze_report : ∃ rep, Analyze fmtFloat e = Some (Ok rep) ∧
  Atoms rep = atoms t ∧
  (∀ a, 0 ≤ a < 2 ^ n → possible (groupsOf t) a = true →
     existsb (λ c, Covers c a) (IrredundantCover rep) = true ↔ grants pcs (-1) a) ∧
  (∀ i c, IrredundantCover rep !! i = Some c → ∃ a, 0 ≤ a < 2 ^ n ∧
     possible (groupsOf t) a = true ∧ grants pcs (-1) a ∧ Covers c a = true ∧
     ∀ j d, j ≠ i → IrredundantCover rep !! j = Some d → Covers d a = false) ∧
  (∀ id, id ∈ RedundantPolicies rep ↔ ∃ j p c, pcs !! j = Some (p, c) ∧ Policy.ID p = id ∧
     ∀ a, 0 ≤ a < 2 ^ n → possible (groupsOf t) a = true →
       grants pcs (Z.of_nat j) a ↔ grants pcs (-1) a) ∧
  (∀ id, id ∈ ShadowedAllowPolicies rep ↔ ∃ j p c, pcs !! j = Some (p, c) ∧ Policy.ID p = id ∧
     Policy.Effect p = Allow ∧
     (∃ a, 0 ≤ a < 2 ^ n ∧ possible (groupsOf t) a = true ∧ Covers c a = true) ∧
     ∀ a, 0 ≤ a < 2 ^ n → possible (groupsOf t) a = true → Covers c a = true →
       some_cube pcs 0 (-1) true a) ∧
  (∃ l : list Z, NoDup l ∧
     (∀ a, a ∈ l ↔ 0 ≤ a < 2 ^ n ∧ possible (groupsOf t) a = true ∧ grants pcs (-1) a) ∧
     AllowedMintermCount rep = Z.of_nat (length l)).
Proof using extracted.
  destruct n_range as [Ht Hn]. destruct (set_where_new (possible (groupsOf t))) as [Hc Gc]. fold care in Hc, Gc.
  pose proof effective_interval as He. unfold Analyze. rewrite extracted. cbn zeta. fold (nAtoms t).
  fold n care dontCare pcs.
  pose proof (λ skip, effective_equal n care pcs skip Hn Hc) as Heq.
  pose proof (λ p c, shadowed_spec n care pcs p c Hn Hc) as Hsh.
  destruct (evalSubset n care pcs (-1)) as [[al de] eff] eqn:Eall. cbn [fst snd] in Heq, Hsh.
  destruct He as (Hi & Hcl & Hg).
  pose proof (report_loop_spec n care de eff pcs pcs 0) as Hr.
  destruct (reportLoop n care de eff pcs 0 pcs) as [red sha]. destruct Hr as [Hred Hsha].
  destruct (isop_correct 17 n eff _ Hi) as (cover & -> & _ & Hcov & Hirr); [unfold MaxISOPAtoms in Hn; lia|].
  eexists. split; [done|]. cbn [Atoms IrredundantCover RedundantPolicies ShadowedAllowPolicies AllowedMintermCount].
  split_and!; [done| | | | |].
  - intros a Ha Hp. destruct (Hcov a Ha) as [C1 C2], (Hg a Ha) as [G1 G2]. rewrite Hp, orb_false_r in G2.
    rewrite G2 in C2. split; [intros H; by apply G1, C2|]. intros H. by apply C1, G1.
  - intros i c Hic. destruct (Hirr i c Hic) as (a & Ha & Hl & Hca & Ho). exists a.
    apply (Hg a Ha) in Hl as [? ?]. done.
  - intros id. rewrite Hred. repeat (apply exist_proper; intros ?). do 2 apply and_iff_compat_l.
    rewrite Z.add_0_l, Heq. split; intros H a Ha; [rewrite <- (Gc a Ha)|rewrite (Gc a Ha)]; by apply H.
  - intros id. rewrite Hsha. repeat (apply exist_proper; intros ?). do 2 apply and_iff_compat_l.
    rewrite Hsh. apply and_iff_compat_l. split; intros [(a & Ha & H1 & H2) H]; (split; [exists a|intros b Hb]).
    + by rewrite <- Gc.
    + rewrite <- (Gc b Hb). by apply H.
    + by rewrite Gc.
    + rewrite (Gc b Hb). by apply H.
  - destruct Hi as (Hw & _). destruct (ones_count_assignments n eff Hw Hcl) as (l & Hnd & Hin & Hlen).
    exists l. split_and!; [done| |done]. intros a. rewrite Hin. split; intros [Ha H]; (split; [done|]);
      by apply (Hg a Ha).
Qed.

End Report.

(** ** The contracts *)

(** Whenever the policies have at most [MaxISOPAtoms] distinct atoms,
    [Analyze] returns a report whose cover is, on every possible assignment of
    the atoms (no two mutually exclusive ones true), exactly the effective
    allow function "some allow policy and no deny policy"; and no cube of the
    cover can be dropped. *)
Theorem analyze_cover_is_effective fmtFloat e t cs :
  policyCubes fmtFloat noAtoms e = Ok (t, cs) →
  ∃ rep, Analyze fmtFloat e = Some (Ok rep) ∧ Atoms rep = atoms t ∧
  (∀ a, 0 ≤ a < 2 ^ Z.of_nat (length (atoms t)) → possible (groupsOf t) a = true →
     existsb (λ c, Covers c a) (IrredundantCover rep) = true ↔ grants (zip e cs) (-1) a) ∧
  (∀ i c, IrredundantCover rep !! i = Some c → ∃ a, 0 ≤ a < 2 ^ Z.of_nat (length (atoms t)) ∧
     possible (groupsOf t) a = true ∧ grants (zip e cs) (-1) a ∧ Covers c a = true ∧
     ∀ j d, j ≠ i → IrredundantCover rep !! j = Some d → Covers d a = false).
Proof.
  intros H. destruct (analyze_report fmtFloat e t cs H) as (rep & H1 & H2 & H3 & H4 & _).
  exists rep. split_and!; [done|done|exact H3|exact H4].
Qed.

(** The report names a policy redundant exactly when dropping it changes
    the effective function on no possible assignment, shadowed exactly when it
    is an allow policy that applies somewhere and only where a deny policy
    applies, and counts exactly the possible assignments that are allowed. *)
Theorem analyze_diagnoses_exactly fmtFloat e t cs rep :
  policyCubes fmtFloat noAtoms e = Ok (t, cs) → Analyze fmtFloat e = Some (Ok rep) →
  (∀ id, id ∈ RedundantPolicies rep ↔ ∃ j p c, zip e cs !! j = Some (p, c) ∧ Policy.ID p = id ∧
     ∀ a, 0 ≤ a < 2 ^ Z.of_nat (length (atoms t)) → possible (groupsOf t) a = true →
       grants (zip e cs) (Z.of_nat j) a ↔ grants (zip e cs) (-1) a) ∧
  (∀ id, id ∈ ShadowedAllowPolicies rep ↔ ∃ j p c, zip e cs !! j = Some (p, c) ∧ Policy.ID p = id ∧
     Policy.Effect p = Allow ∧
     (∃ a, 0 ≤ a < 2 ^ Z.of_nat (length (atoms t)) ∧ possible (groupsOf t) a = true ∧ Covers c a = true) ∧
     ∀ a, 0 ≤ a < 2 ^ Z.of_nat (length (atoms t)) → possible (groupsOf t) a = true → Covers c a = true →
       some_cube (zip e cs) 0 (-1) true a) ∧
  (∃ l : list Z, NoDup l ∧
     (∀ a, a ∈ l ↔ 0 ≤ a < 2 ^ Z.of_nat (length (atoms t)) ∧
                    possible (groupsOf t) a = true ∧ grants (zip e cs) (-1) a) ∧
     AllowedMintermCount rep = Z.of_nat (length l)).
Proof.
  intros H Hrep. destruct (analyze_report fmtFloat e t cs H) as (rep' & H1 & _ & _ & _ & H5).
  rewrite Hrep in H1. injection H1 as <-. exact H5.
Qed.

(** Extraction yields at most [MaxISOPAtoms] distinct atoms and, for each
    policy, a cube over those atoms; an assignment is possible exactly when no
    two atoms of one exclusion group are true in it. *)
Theorem extraction_well_formed fmtFloat e t cs :
  policyCubes fmtFloat noAtoms e = Ok (t, cs) →
  Z.of_nat (length (atoms t)) ≤ MaxISOPAtoms ∧ NoDup (atoms t) ∧ length cs = length e ∧
  Forall (λ c, 0 ≤ Pos c < 2 ^ Z.of_nat (length (atoms t)) ∧ 0 ≤ Neg c < 2 ^ Z.of_nat (length (atoms t))) cs ∧
  (∀ a, possible (groupsOf t) a = true ↔
     ∀ k g x y, exclusiveMap t !! k = Some g → x ∈ g → y ∈ g →
       bitSet a x = true → bitSet a y = true → x = y).
Proof.
  intros H. destruct (policy_cubes_ok _ _ _ _ _ no_atoms_ok H) as (Ht & Hc & _ & Hl).
  split_and!; [by apply ao_len| |done|exact Hc|by intros; apply possible_spec].
  apply NoDup_alt. intros i j l Hi Hj. apply (ao_index t Ht) in Hi, Hj. congruence.
Qed.

(** ** Witnesses *)

Definition allowAdmin : Policy.Policy :=
  Policy.mk "admin" "" Allow 1 (Some (PrincipalMatcher.mk "User" [] ["admin"] [] false)) ["*"] None [].
Definition allowAdminRead : Policy.Policy :=
  Policy.mk "admin-read" "" Allow 1 (Some (PrincipalMatcher.mk "User" [] ["admin"] [] false)) ["read"] None [].
Definition denyService : Policy.Policy :=
  Policy.mk "no-service" "" Deny 1 (Some (PrincipalMatcher.mk "Service" [] [] [] false)) ["*"] None [].
Definition demoEngine : Engine := [allowAdmin; allowAdminRead; denyService].

Definition demoExtraction : atom_table * list Cube :=
  match policyCubes noFloat noAtoms demoEngine with Ok r => r | Err _ => (noAtoms, []) end.

Lemma analyze_cover_is_effective_witness : ∃ rep, Analyze noFloat demoEngine = Some (Ok rep) ∧
  IrredundantCover rep = [mkCube 3 0].
Proof.
  destruct (analyze_cover_is_effective noFloat demoEngine (fst demoExtraction) (snd demoExtraction))
    as (rep & Hr & _); [vm_compute; reflexivity|].
  exists rep. split; [exact Hr|]. vm_compute in Hr. injection Hr as <-. reflexivity.
Defined.

Lemma analyze_diagnoses_exactly_witness : ∃ rep, Analyze noFloat demoEngine = Some (Ok rep) ∧
  ∃ l : list Z, AllowedMintermCount rep = Z.of_nat (length l) ∧ RedundantPolicies rep = ["admin-read"; "no-service"].
Proof.
  destruct (Analyze noFloat demoEngine) as [[rep|]|] eqn:Hr; [|vm_compute in Hr; discriminate..].
  exists rep. split; [reflexivity|].
  destruct (analyze_diagnoses_exactly noFloat demoEngine (fst demoExtraction) (snd demoExtraction) rep)
    as (_ & _ & l & _ & _ & Hl); [vm_compute; reflexivity|exact Hr|].
  exists l. split; [exact Hl|]. vm_compute in Hr. injection Hr as <-. reflexivity.
Defined.

Lemma extraction_well_formed_witness : length (snd demoExtraction) = 3%nat.
Proof.
  destruct (extraction_well_formed noFloat demoEngine (fst demoExtraction) (snd demoExtraction))
    as (_ & _ & H & _); [vm_compute; reflexivity|]. exact H.
Defined.
