(* ===== verification/RecordData.v ===== *)
(** * RecordData: record values and ordered record data

    Models [server-kit/go/database/record_data.go] and [DomainRecord] of
    [db_interface.go]: record values and their scalar index, and record data, a
    list of named fields that the code keeps sorted by name.  Byte slices are
    strings; sharing of backing arrays is not observable here because every
    operation copies what it changes.  Times are nanoseconds, 0 is the zero
    time. *)

From Stdlib Require Import ZArith Lia Ascii String Sorting.Sorted Permutation.
From stdpp Require Import base sets list strings gmap sorting pretty.
From S2P Require Import Prelude GoStrings Extension.

Open Scope string_scope.
Open Scope list_scope.
Open Scope Z_scope.

(** ** Lists of named items

    Record data and record filters are handled alike: deduplicated with the
    last occurrence of a name winning, then sorted by name. *)

Section Named.
Context {A : Type} (nm : A → string).

(** The loop with its [seen] map from names to positions in [out]. *)
Fixpoint dedupLoop (l out : list A) (seen : gmap string nat) : list A :=
  match l with
  | [] => out
  | x :: rest =>
      match seen !! nm x with
      | Some idx => dedupLoop rest (<[idx := x]> out) seen
      | None => dedupLoop rest (out ++ [x]) (<[nm x := length out]> seen)
      end
  end.

Fixpoint insertBy (x : A) (l : list A) : list A :=
  match l with
  | [] => [x]
  | y :: l' => if String.ltb (nm x) (nm y) then x :: l else y :: insertBy x l'
  end.

(** [sort.Slice] by name: with distinct names there is one sorted order. *)
Definition sortBy (l : list A) : list A := foldr insertBy [] l.

(** The first item with a name. *)
Fixpoint getBy (l : list A) (n : string) : option A :=
  match l with
  | [] => None
  | x :: l' => if String.eqb (nm x) n then Some x else getBy l' n
  end.

Definition ssorted (l : list A) : Prop := StronglySorted (λ a b, slt (nm a) (nm b)) l.

Lemma getBy_app l k n :
  getBy (l ++ k) n = match getBy l n with Some x => Some x | None => getBy k n end.
Proof. induction l as [|x l IH]; cbn; [done|]. by destruct (String.eqb _ _). Qed.

Lemma getBy_Some l n x : getBy l n = Some x → x ∈ l ∧ nm x = n.
Proof.
  induction l as [|y l IH]; cbn; [done|]. destruct (String.eqb_spec (nm y) n) as [Hn|].
  - intros [= ->]. split; [set_solver|done].
  - intros [? ?]%IH. split; [set_solver|done].
Qed.

Lemma getBy_None l n : getBy l n = None ↔ n ∉ map nm l.
Proof.
  induction l as [|y l IH]; cbn; [split; [set_solver|done]|].
  destruct (String.eqb_spec (nm y) n) as [Hn|]; [split; [done|set_solver]|].
  rewrite IH. set_solver.
Qed.

Lemma getBy_unique l n x : NoDup (map nm l) → x ∈ l → nm x = n → getBy l n = Some x.
Proof.
  induction l as [|y l IH]; [set_solver|]. cbn. intros [Hy Hn]%NoDup_cons [->|Hx]%elem_of_cons Hnm.
  - by rewrite (proj2 (String.eqb_eq _ _) Hnm).
  - destruct (String.eqb_spec (nm y) n) as [Heq|]; [|by apply IH].
    exfalso. apply Hy. rewrite Heq, <- Hnm. by apply list_elem_of_fmap_2.
Qed.

Lemma getBy_perm l k n : NoDup (map nm l) → Permutation l k → getBy l n = getBy k n.
Proof.
  intros Hn Hp. assert (NoDup (map nm k)) as Hk by (by rewrite <- Hp).
  destruct (getBy k n) as [x|] eqn:E.
  - apply getBy_Some in E as [Hx Hnm]. apply getBy_unique; [done|by rewrite Hp|done].
  - apply getBy_None in E. apply getBy_None. by rewrite Hp.
Qed.

Lemma getBy_insert l i y n x : l !! i = Some y → nm y = nm x → NoDup (map nm l) →
  getBy (<[i := x]> l) n = if String.eqb (nm x) n then Some x else getBy l n.
Proof.
  revert i. induction l as [|z l IH]; intros [|i] Hi Hnm; [done|done|..]; cbn [map getBy]; intros [Hz Hn]%NoDup_cons.
  - injection Hi as ->. cbn. rewrite Hnm. by destruct (String.eqb _ _).
  - change (<[S i := x]> (z :: l)) with (z :: <[i := x]> l). cbn [getBy].
    rewrite (IH i) by done. destruct (String.eqb_spec (nm z) n) as [<-|]; [|done].
    destruct (String.eqb_spec (nm x) (nm z)) as [Heq|]; [|done].
    exfalso. apply Hz. rewrite <- Heq, <- Hnm. apply list_elem_of_fmap_2. by eapply list_elem_of_lookup_2.
Qed.

(** [seen] is the index of [out] by name. *)
Definition indexes (out : list A) (seen : gmap string nat) : Prop :=
  ∀ n i, seen !! n = Some i ↔ ∃ x, out !! i = Some x ∧ nm x = n.

Lemma indexes_nodup out seen : indexes out seen → NoDup (map nm out).
Proof.
  intros H. apply NoDup_alt. intros i j n Hi Hj. rewrite list_lookup_fmap in Hi, Hj.
  destruct (out !! i) as [x|] eqn:Ei, (out !! j) as [y|] eqn:Ej; simplify_eq/=.
  assert (seen !! nm x = Some i) by (apply H; eauto).
  assert (seen !! nm x = Some j) by (apply H; eauto). congruence.
Qed.

Lemma indexes_append out seen x : indexes out seen → seen !! nm x = None →
  indexes (out ++ [x]) (<[nm x := length out]> seen).
Proof.
  intros H Hnone n i. rewrite lookup_insert_Some. split.
  - intros [[<- <-]|[Hne (y & Hy & <-)%H]].
    + exists x. by rewrite list_lookup_middle.
    + exists y. rewrite lookup_app_l by (by eapply lookup_lt_Some). done.
  - intros (y & Hy & <-). apply lookup_app_Some in Hy as [Hy|[Hge Hy]].
    + right. assert (seen !! nm y = Some i) as Hs by (apply H; eauto). split; [congruence|done].
    + left. apply list_lookup_singleton_Some in Hy as [? <-]. split; [done|lia].
Qed.

Lemma indexes_insert out seen x i : indexes out seen → seen !! nm x = Some i →
  indexes (<[i := x]> out) seen.
Proof.
  intros H Hi n j. rewrite (H n j). apply H in Hi as (y & Hy & Hnm).
  destruct (decide (i = j)) as [->|Hne].
  - rewrite list_lookup_insert_eq by (by eapply lookup_lt_Some). split.
    + intros (z & Hz & <-). simplify_eq. by exists x.
    + intros (z & [= <-] & <-). by exists y.
  - by rewrite list_lookup_insert_ne by done.
Qed.

(** The loop keeps one item per name, the last one given. *)
Lemma dedup_spec l : ∀ out seen, indexes out seen →
  NoDup (map nm (dedupLoop l out seen)) ∧
  (∀ n, getBy (dedupLoop l out seen) n =
        match getBy (reverse l) n with Some x => Some x | None => getBy out n end) ∧
  (∀ x, x ∈ dedupLoop l out seen → x ∈ out ∨ x ∈ l).
Proof.
  induction l as [|x l IH]; intros out seen H; cbn [dedupLoop].
  { split_and!; [by eapply indexes_nodup|done|by left]. }
  assert (∀ n, getBy (reverse (x :: l)) n = match getBy (reverse l) n with
            | Some y => Some y | None => if String.eqb (nm x) n then Some x else None end) as Hrev.
  { intros n. by rewrite reverse_cons, getBy_app. }
  destruct (seen !! nm x) as [i|] eqn:E.
  - destruct (IH _ _ (indexes_insert _ _ _ _ H E)) as (H1 & H2 & H3). split_and!; [done| |].
    + intros n. rewrite H2, Hrev. apply H in E as (y & Hy & Hnm).
      rewrite (getBy_insert _ _ _ _ _ Hy Hnm) by (by eapply indexes_nodup).
      destruct (getBy (reverse l) n); [done|]. by destruct (String.eqb _ _).
    + intros z [Hz|Hz]%H3; [|set_solver]. apply list_elem_of_lookup in Hz as [j Hj].
      apply list_lookup_insert_Some in Hj as [(_ & -> & _)|[_ Hj]]; [set_solver|].
      left. by eapply list_elem_of_lookup_2.
  - destruct (IH _ _ (indexes_append _ _ _ H E)) as (H1 & H2 & H3). split_and!; [done| |set_solver].
    intros n. rewrite H2, Hrev, getBy_app. destruct (getBy (reverse l) n); [done|]. cbn.
    destruct (String.eqb_spec (nm x) n) as [<-|]; [|by destruct (getBy out n)].
    destruct (getBy out (nm x)) as [y|] eqn:Ey; [|done]. exfalso.
    apply getBy_Some in Ey as [[j Hj]%list_elem_of_lookup Hnm].
    assert (seen !! nm x = Some j) by (apply H; eauto). congruence.
Qed.

Lemma insertBy_perm x l : Permutation (insertBy x l) (x :: l).
Proof.
  induction l as [|y l IH]; cbn; [done|]. destruct (String.ltb _ _); [done|].
  rewrite IH. by rewrite Permutation_swap.
Qed.

Lemma sortBy_perm l : Permutation (sortBy l) l.
Proof. induction l as [|x l IH]; cbn; [done|]. by rewrite insertBy_perm, IH. Qed.

Lemma insertBy_sorted x l : nm x ∉ map nm l → ssorted l → ssorted (insertBy x l).
Proof.
  induction l as [|y l IH]; cbn; [intros _ _; repeat constructor|].
  intros Hx [Hy Hs]%StronglySorted_cons. destruct (String.ltb (nm x) (nm y)) eqn:E.
  - apply ltb_slt in E. apply StronglySorted_cons. split; [|by apply StronglySorted_cons].
    apply Forall_cons_iff. split; [done|]. eapply Forall_impl; [done|]. intros z Hz. by eapply slt_trans.
  - apply ltb_not_le in E. apply StronglySorted_cons. split; [|apply IH; [set_solver|done]].
    rewrite insertBy_perm. apply Forall_cons_iff. split; [|done]. split; [done|]. set_solver.
Qed.

Lemma sortBy_sorted l : NoDup (map nm l) → ssorted (sortBy l).
Proof.
  induction l as [|x l IH]; cbn; [intros _; constructor|]. intros [Hx Hn]%NoDup_cons.
  apply insertBy_sorted; [|by apply IH]. by rewrite sortBy_perm.
Qed.

Lemma ssorted_nodup l : ssorted l → NoDup (map nm l).
Proof.
  induction l as [|x l IH]; cbn; [intros _; constructor|].
  intros [Hx Hs]%StronglySorted_cons. apply NoDup_cons. split; [|by apply IH].
  intros (y & Hy & Hin)%list_elem_of_fmap. pose proof (proj1 (Forall_forall _ _) Hx y Hin) as Hlt. cbn in Hlt.
  rewrite Hy in Hlt. by apply slt_irrefl in Hlt.
Qed.

(** Sorting a duplicate-free list keeps every lookup. *)
Lemma sortBy_get l n : NoDup (map nm l) → getBy (sortBy l) n = getBy l n.
Proof. intros H. symmetry. apply getBy_perm; [done|]. by rewrite sortBy_perm. Qed.

End Named.

(** ** Values *)

Inductive RecordValueKind :=
| RecordValueNull | RecordValueString | RecordValueBool | RecordValueInt | RecordValueUint
| RecordValueFloat | RecordValueRaw.

#[export] Instance RecordValueKind_eq_dec : EqDecision RecordValueKind.
Proof. solve_decision. Defined.

Record RecordValue := mkValue { Kind_ : RecordValueKind; Text : string; Raw : string }.

#[export] Instance RecordValue_eq_dec : EqDecision RecordValue.
Proof. solve_decision. Defined.

Record RecordField := mkField { Name : string; FValue : RecordValue }.

#[export] Instance RecordField_eq_dec : EqDecision RecordField.
Proof. solve_decision. Defined.

Abbreviation RecordData := (list RecordField).

Record RecordFilter := mkFilter { Field_ : string; Wanted : RecordValue }.
Record RecordQuery := mkQuery { Filters : list RecordFilter; QLimit : Z }.

Record DomainRecord := mkRecord {
  Domain : string; Collection : string; OrganizationID : string; RecordID : string;
  Data : RecordData; Vector_ : list Z; CreatedAt : Z; UpdatedAt : Z
}.

Definition StringValue (value : string) : RecordValue := mkValue RecordValueString value "".
Definition BoolValue (value : bool) : RecordValue :=
  if value then mkValue RecordValueBool "true" "" else mkValue RecordValueBool "false" "".
Definition IntValue (value : Z) : RecordValue := mkValue RecordValueInt (pretty value) "".
Definition UintValue (value : Z) : RecordValue := mkValue RecordValueUint (pretty value) "".
(** [text] is the shortest decimal form of the float. *)
Definition FloatValue (text : string) : RecordValue := mkValue RecordValueFloat text "".
Definition RawValue (value : string) : RecordValue :=
  let trimmed := TrimSpace value in
  if String.eqb trimmed "" then mkValue RecordValueNull "" ""
  else mkValue RecordValueRaw "" trimmed.

(** The index form of a scalar: its kind letter and canonical text. *)
Definition ScalarIndex (v : RecordValue) : option (ascii * string) :=
  match Kind_ v with
  | RecordValueString => Some ("s"%char, Text v)
  | RecordValueBool =>
      if EqualFold (Text v) "true" || String.eqb (Text v) "1"
      then Some ("b"%char, "1") else Some ("b"%char, "0")
  | RecordValueInt => Some ("i"%char, TrimSpace (Text v))
  | RecordValueUint => Some ("u"%char, TrimSpace (Text v))
  | RecordValueFloat => Some ("f"%char, TrimSpace (Text v))
  | _ => None
  end.

Definition Equal (v other : RecordValue) : bool :=
  match ScalarIndex v, ScalarIndex other with
  | Some (ak, av), Some (bk, bv) => Ascii.eqb ak bk && String.eqb av bv
  | _, _ =>
      if negb (bool_decide (Kind_ v = Kind_ other)) then false
      else if bool_decide (Kind_ v = RecordValueRaw)
      then String.eqb (TrimSpace (Raw v)) (TrimSpace (Raw other))
      else String.eqb (TrimSpace (Text v)) (TrimSpace (Text other))
  end.

(** ** Data *)

Fixpoint isSortedFrom (previous : string) (d : RecordData) : bool :=
  match d with
  | [] => true
  | f :: rest =>
      let name := TrimSpace (Name f) in
      if String.eqb name "" || String.leb name previous then false
      else isSortedFrom name rest
  end.

Definition IsSortedUnique (d : RecordData) : bool := isSortedFrom "" d.

Definition trimField (f : RecordField) : RecordField := mkField (TrimSpace (Name f)) (FValue f).

(** The fields of the slow path: trimmed, without empty names. *)
Definition namedFields (d : RecordData) : RecordData :=
  filter (λ f, Name f ≠ "") (map trimField d).

Definition Normalize (d : RecordData) : RecordData :=
  if IsSortedUnique d then map trimField d
  else sortBy Name (dedupLoop Name (namedFields d) [] ∅).

(** [RecordDataFromPairs] drops empty names before normalizing. *)
Definition RecordDataFromPairs (pairs : list RecordField) : RecordData :=
  Normalize (namedFields pairs).

Definition Get (d : RecordData) (name : string) : option RecordValue :=
  FValue <$> getBy Name d (TrimSpace name).

Definition With_ (d : RecordData) (name : string) (value : RecordValue) : RecordData :=
  Normalize (d ++ [mkField name value]).

(** The two-cursor merge of sorted data; the right side wins on equal names. *)
Fixpoint mergeLoop (base overrides : RecordData) : RecordData :=
  match base with
  | [] => overrides
  | l :: base' =>
      (fix go (overrides : RecordData) : RecordData :=
         match overrides with
         | [] => base
         | r :: overrides' =>
             if String.ltb (Name l) (Name r) then l :: mergeLoop base' overrides
             else if String.ltb (Name r) (Name l) then r :: go overrides'
             else r :: mergeLoop base' overrides'
         end) overrides
  end.

Definition Merge (d patch : RecordData) : RecordData :=
  let base := Normalize d in
  let overrides := Normalize patch in
  match base, overrides with
  | [], _ => overrides
  | _, [] => base
  | _, _ => mergeLoop base overrides
  end.

Definition Matches (d : RecordData) (filters : list RecordFilter) : bool :=
  forallb (λ f, match Get d (Field_ f) with
                | Some actual => Equal actual (Wanted f)
                | None => false
                end) filters.

Definition trimFilter (f : RecordFilter) : RecordFilter := mkFilter (TrimSpace (Field_ f)) (Wanted f).

Definition normalizeRecordFilters (filters : list RecordFilter) : list RecordFilter :=
  match filters with
  | [] => []
  | [f] => let f := trimFilter f in if String.eqb (Field_ f) "" then [] else [f]
  | _ => sortBy Field_ (dedupLoop Field_ (filter (λ f, Field_ f ≠ "") (map trimFilter filters)) [] ∅)
  end.

Definition NormalizeQuery (q : RecordQuery) : RecordQuery :=
  mkQuery (normalizeRecordFilters (Filters q)) (QLimit q).

(** ** Canonical data *)

(** Sorted by strictly rising, trimmed, non-empty names. *)
Record canonical (d : RecordData) : Prop := {
  can_sorted : ssorted Name d;
  can_names : Forall (λ f, TrimSpace (Name f) = Name f ∧ Name f ≠ "") d
}.

Lemma is_sorted_from_spec d : ∀ prev,
  isSortedFrom prev d = true ↔
  Forall (λ f, TrimSpace (Name f) ≠ "" ∧ slt prev (TrimSpace (Name f))) d ∧ ssorted Name (map trimField d).
Proof.
  induction d as [|f d IH]; intros prev; cbn [isSortedFrom map].
  { split; [intros _; split; constructor|done]. }
  unfold ssorted. rewrite StronglySorted_cons, Forall_cons_iff. cbn [trimField Name].
  destruct (String.eqb_spec (TrimSpace (Name f)) "") as [E|E]; cbn [orb]; [naive_solver|].
  destruct (String.leb (TrimSpace (Name f)) prev) eqn:L.
  { split; [done|]. intros [[[_ [H1 H2]] _] _]. apply leb_le in L. exfalso. apply H2.
    by apply (anti_symm String.le). }
  assert (slt prev (TrimSpace (Name f))) as Hlt.
  { destruct (slt_total prev (TrimSpace (Name f))) as [?|[Heq|[Hle _]]]; [done|..]; exfalso;
      apply not_true_iff_false in L; apply L, leb_le; [by rewrite Heq|done]. }
  rewrite IH. unfold ssorted. rewrite Forall_fmap. unfold compose. cbn. split.
  - intros [Hf Hs]. split_and!; try done.
    + eapply Forall_impl; [done|]. cbn. intros g [? ?]. split; [done|]. by eapply slt_trans.
    + eapply Forall_impl; [done|]. by intros g [? ?].
  - intros [[_ Hf] [Hg Hs]]. split; [|done]. rewrite Forall_forall in Hf, Hg |- *. naive_solver.
Qed.

Lemma slt_empty s : s ≠ "" → slt "" s.
Proof. intros H. split; [|done]. by destruct s. Qed.

Lemma is_sorted_unique_spec d :
  IsSortedUnique d = true ↔ ssorted Name (map trimField d) ∧ Forall (λ f, TrimSpace (Name f) ≠ "") d.
Proof.
  unfold IsSortedUnique. rewrite is_sorted_from_spec. rewrite !Forall_forall.
  split; intros [H1 H2]; split; try done; intros f Hf; [by apply H1|].
  split; [by apply H2|]. apply slt_empty. by apply H2.
Qed.

Lemma canonical_trim d : canonical d → map trimField d = d.
Proof.
  intros [_ H]. induction H as [|f d [Hf _] _ IH]; [done|]. cbn. rewrite IH. f_equal.
  destruct f. unfold trimField. cbn in *. by rewrite Hf.
Qed.

Lemma canonical_sorted_unique d : canonical d → IsSortedUnique d = true.
Proof.
  intros H. apply is_sorted_unique_spec. rewrite canonical_trim by done. destruct H as [Hs Hn].
  split; [done|]. eapply Forall_impl; [done|]. cbn. by intros f [-> ?].
Qed.

Lemma indexes_empty {A} (nm : A → string) : indexes nm [] ∅.
Proof. intros n i. rewrite lookup_empty, lookup_nil. naive_solver. Qed.

Lemma normalize_canonical_data d : canonical (Normalize d).
Proof.
  unfold Normalize. destruct (IsSortedUnique d) eqn:E.
  - apply is_sorted_unique_spec in E as [Hs Hn]. split; [done|]. apply Forall_fmap. unfold compose.
    eapply Forall_impl; [done|]. cbn. intros f Hf. by rewrite trim_space_idemp.
  - destruct (dedup_spec Name (namedFields d) [] ∅ (indexes_empty _)) as (Hn & _ & Hin).
    split; [by apply sortBy_sorted|]. rewrite sortBy_perm. apply Forall_forall. intros f Hf.
    destruct (Hin f Hf) as [Hx|Hx]; [set_solver|]. unfold namedFields in Hx.
    apply list_elem_of_filter in Hx as [Hne Hx]. apply list_elem_of_fmap in Hx as (g & -> & _).
    split; [|done]. cbn. apply trim_space_idemp.
Qed.

Lemma normalize_id d : canonical d → Normalize d = d.
Proof. intros H. unfold Normalize. rewrite canonical_sorted_unique by done. by apply canonical_trim. Qed.

(** The last field given under a name. *)
Definition lastField (d : RecordData) (n : string) : option RecordValue :=
  FValue <$> getBy Name (reverse (map trimField d)) n.

Lemma getBy_reverse_nodup {A} (nm : A → string) l n : NoDup (map nm l) →
  getBy nm (reverse l) n = getBy nm l n.
Proof. intros H. symmetry. apply getBy_perm; [done|]. by rewrite reverse_Permutation. Qed.

Lemma getBy_filter_named l n : n ≠ "" →
  getBy Name (filter (λ f, Name f ≠ "") l) n = getBy Name l n.
Proof.
  intros Hn. induction l as [|f l IH]; [done|]. rewrite filter_cons. cbn [getBy].
  destruct (decide (Name f ≠ "")) as [H|H]; cbn [getBy]; [by rewrite IH|].
  destruct (String.eqb_spec (Name f) n) as [<-|]; [|done]. by destruct H.
Qed.

Lemma filter_reverse_list {A} (P : A → Prop) `{!∀ x, Decision (P x)} l :
  filter P (reverse l) = reverse (filter P l).
Proof.
  induction l as [|x l IH]; [done|]. rewrite reverse_cons, filter_app, IH, !filter_cons, filter_nil.
  destruct (decide (P x)); [by rewrite reverse_cons|by rewrite app_nil_r].
Qed.

Lemma get_normalize d n : TrimSpace n ≠ "" →
  Get (Normalize d) n = lastField d (TrimSpace n).
Proof.
  intros Hn. unfold Get, lastField, Normalize. f_equal. destruct (IsSortedUnique d) eqn:E.
  - apply is_sorted_unique_spec in E as [Hs _]. symmetry. apply getBy_reverse_nodup.
    by apply ssorted_nodup.
  - destruct (dedup_spec Name (namedFields d) [] ∅ (indexes_empty _)) as (Hnd & Hget & _).
    rewrite sortBy_get, Hget by done. unfold namedFields.
    rewrite <- filter_reverse_list, getBy_filter_named by done. cbn. by destruct (getBy _ _ _).
Qed.

Lemma canonical_get_last d n : canonical d → Get d n = lastField d (TrimSpace n).
Proof.
  intros H. unfold Get, lastField. rewrite canonical_trim by done. f_equal. symmetry.
  apply getBy_reverse_nodup, ssorted_nodup, H.
Qed.

(** ** Merging *)

Lemma merge_loop_nil_r base : mergeLoop base [] = base.
Proof. by destruct base. Qed.

Lemma merge_loop_cons l base r over :
  mergeLoop (l :: base) (r :: over) =
  if String.ltb (Name l) (Name r) then l :: mergeLoop base (r :: over)
  else if String.ltb (Name r) (Name l) then r :: mergeLoop (l :: base) over
  else r :: mergeLoop base over.
Proof. done. Qed.

Lemma ssorted_head_get f d n : ssorted Name (f :: d) → slt n (Name f) → getBy Name (f :: d) n = None.
Proof.
  intros [Hf _]%StronglySorted_cons Hlt. apply getBy_None. cbn. intros [->|Hin]%elem_of_cons.
  - by apply slt_irrefl in Hlt.
  - apply list_elem_of_fmap in Hin as (g & -> & Hg).
    pose proof (proj1 (Forall_forall _ _) Hf g Hg) as Hgt. cbn in Hgt.
    by eapply slt_irrefl, slt_trans.
Qed.

(** What the merge of two sorted lists keeps. *)
Definition merged (base over r : RecordData) : Prop :=
  ssorted Name r ∧
  (∀ n, getBy Name r n = match getBy Name over n with Some x => Some x | None => getBy Name base n end) ∧
  (∀ f, f ∈ r → f ∈ base ∨ f ∈ over).

Lemma merged_cons f base over r base' over' :
  merged base over r →
  (∀ g, g ∈ base ∨ g ∈ over → slt (Name f) (Name g)) →
  (f ∈ base' ∨ f ∈ over') → (∀ g, g ∈ base → g ∈ base') → (∀ g, g ∈ over → g ∈ over') →
  (∀ n, match getBy Name over' n with Some x => Some x | None => getBy Name base' n end =
        if String.eqb (Name f) n then Some f
        else match getBy Name over n with Some x => Some x | None => getBy Name base n end) →
  merged base' over' (f :: r).
Proof.
  intros (Hs & Hg & Hin) Hlt Hf Hb Ho Hget. split_and!.
  - apply StronglySorted_cons. split; [|done]. apply Forall_forall. intros g Hgr. by apply Hlt, Hin.
  - intros n. rewrite Hget, <- Hg. done.
  - intros g [->|Hgr]%elem_of_cons; [done|]. destruct (Hin g Hgr); auto.
Qed.

Lemma ssorted_cons_lt f d : ssorted Name (f :: d) → ssorted Name d ∧ ∀ g, g ∈ d → slt (Name f) (Name g).
Proof.
  intros [Hf Hs]%StronglySorted_cons. split; [done|]. intros g Hg.
  by apply (proj1 (Forall_forall _ _) Hf).
Qed.

Lemma merge_loop_merged base : ∀ over, ssorted Name base → ssorted Name over →
  merged base over (mergeLoop base over).
Proof.
  induction base as [|l base IHb]; intros over Hb Ho.
  { split_and!; [done| |by right]. intros n. cbn. by destruct (getBy _ _ _). }
  induction over as [|r over IHo].
  { rewrite merge_loop_nil_r. split_and!; [done|done|by left]. }
  rewrite merge_loop_cons.
  destruct (ssorted_cons_lt _ _ Hb) as [Hb' Hbl], (ssorted_cons_lt _ _ Ho) as [Ho' Hol].
  destruct (String.ltb (Name l) (Name r)) eqn:E1; [|destruct (String.ltb (Name r) (Name l)) eqn:E2].
  - apply ltb_slt in E1. eapply merged_cons; [by apply IHb| |set_solver|set_solver|done|].
    + intros g [Hg|[->|Hg]%elem_of_cons]; [by apply Hbl|done|]. eapply slt_trans; [done|by apply Hol].
    + intros n. cbn [getBy]. destruct (String.eqb_spec (Name l) n) as [<-|]; [|done].
      pose proof (ssorted_head_get r over (Name l) Ho E1) as Hn. cbn [getBy] in Hn. by rewrite Hn.
  - apply ltb_slt in E2. eapply merged_cons; [by apply IHo| |set_solver|done|set_solver|].
    + intros g [[->|Hg]%elem_of_cons|Hg]; [done| |by apply Hol]. eapply slt_trans; [done|by apply Hbl].
    + intros n. cbn [getBy]. by destruct (String.eqb (Name r) n).
  - assert (Name l = Name r) as Heq.
    { apply ltb_not_le in E1, E2. by apply (anti_symm String.le). }
    eapply merged_cons; [by apply IHb| |set_solver|set_solver|set_solver|].
    + intros g [Hg|Hg]; [rewrite <- Heq; by apply Hbl|by apply Hol].
    + intros n. cbn [getBy]. rewrite Heq. by destruct (String.eqb (Name r) n).
Qed.

Lemma merge_merged d patch : merged (Normalize d) (Normalize patch) (Merge d patch).
Proof.
  pose proof (can_sorted _ (normalize_canonical_data d)) as Hd.
  pose proof (can_sorted _ (normalize_canonical_data patch)) as Hp.
  pose proof (merge_loop_merged _ _ Hd Hp) as H. unfold Merge.
  destruct (Normalize d); [done|]. destruct (Normalize patch); [|done].
  by rewrite merge_loop_nil_r in H.
Qed.

Lemma merge_canonical d patch : canonical (Merge d patch).
Proof.
  destruct (merge_merged d patch) as (Hs & _ & Hin). split; [done|].
  pose proof (can_names _ (normalize_canonical_data d)) as Hd.
  pose proof (can_names _ (normalize_canonical_data patch)) as Hp.
  rewrite Forall_forall in Hd, Hp |- *. intros f Hf. destruct (Hin f Hf); auto.
Qed.

Lemma merge_get d patch n :
  Get (Merge d patch) n = match Get (Normalize patch) n with
                          | Some v => Some v | None => Get (Normalize d) n end.
Proof.
  destruct (merge_merged d patch) as (_ & Hg & _). unfold Get. rewrite Hg.
  by destruct (getBy Name (Normalize patch) _).
Qed.

(** ** Equality of values *)

(** What [Equal] compares: the scalar index, or the kind and trimmed payload. *)
Definition valueKey (v : RecordValue) : ascii * string + RecordValueKind * string :=
  match ScalarIndex v with
  | Some ix => inl ix
  | None => inr (Kind_ v, TrimSpace (if bool_decide (Kind_ v = RecordValueRaw) then Raw v else Text v))
  end.

Lemma equal_value_key v w : Equal v w = true ↔ valueKey v = valueKey w.
Proof.
  unfold Equal, valueKey. destruct (ScalarIndex v) as [[ak av]|] eqn:Ev, (ScalarIndex w) as [[bk bv]|] eqn:Ew.
  - rewrite andb_true_iff, Ascii.eqb_eq, String.eqb_eq. naive_solver.
  - split; [|done]. case_bool_decide as Hk; [|done]. exfalso.
    unfold ScalarIndex in *. rewrite Hk in Ev. destruct (Kind_ w); try done.
    by destruct (EqualFold (Text w) "true" || _).
  - split; [|done]. case_bool_decide as Hk; [|done]. exfalso.
    unfold ScalarIndex in *. rewrite Hk in Ev. destruct (Kind_ w); try done.
    by destruct (EqualFold (Text v) "true" || _).
  - case_bool_decide as Hk; cbn [negb]; [|split; [done|congruence]]. rewrite Hk.
    destruct (bool_decide (Kind_ w = RecordValueRaw)); rewrite String.eqb_eq;
      (split; [by intros ->|by intros [= ?]]).
Qed.

(** Values the store cannot tell apart; [Equal] decides it. *)
Definition value_equiv (v w : RecordValue) : Prop := Equal v w = true.

#[export] Instance value_equiv_equivalence : Equivalence value_equiv.
Proof.
  unfold value_equiv. split.
  - intros v. by apply equal_value_key.
  - intros v w H. apply equal_value_key in H. by apply equal_value_key.
  - intros u v w H1 H2. apply equal_value_key in H1, H2. apply equal_value_key. congruence.
Qed.

(** Matching respects it, in the data's values and in the wanted ones. *)
#[export] Instance equal_proper : Proper (value_equiv ==> value_equiv ==> eq) Equal.
Proof.
  intros v v' Hv w w' Hw. apply Bool.eq_iff_eq_true. unfold value_equiv in *.
  rewrite !equal_value_key in *. split; congruence.
Qed.

#[export] Instance scalar_index_proper : Proper (value_equiv ==> eq) ScalarIndex.
Proof.
  intros v w H. apply equal_value_key in H. unfold valueKey in H.
  destruct (ScalarIndex v), (ScalarIndex w); congruence.
Qed.

(** ** The contracts *)

(** [Normalize] gives record data its canonical form: strictly rising,
    trimmed, non-empty names; reading a name yields the last value given for
    it (names compared after trimming); and normalizing again changes
    nothing. *)
Theorem normalize_normal_form d :
  ssorted Name (Normalize d) ∧
  Forall (λ f, TrimSpace (Name f) = Name f ∧ Name f ≠ "") (Normalize d) ∧
  Normalize (Normalize d) = Normalize d ∧
  ∀ n, TrimSpace n ≠ "" → Get (Normalize d) n = lastField d (TrimSpace n).
Proof.
  pose proof (normalize_canonical_data d) as H. split_and!; [apply H|apply H|by apply normalize_id|].
  intros n Hn. by apply get_normalize.
Qed.

(** Merging a patch into record data yields canonical data in which every
    field of the patch overrides and every other field of the data stays;
    [With] sets one field and keeps the others. *)
Theorem merge_overrides d patch n : TrimSpace n ≠ "" →
  canonical (Merge d patch) ∧
  Get (Merge d patch) n = match lastField patch (TrimSpace n) with
                          | Some v => Some v | None => lastField d (TrimSpace n) end ∧
  (∀ m v, Get (With_ d m v) n = if String.eqb (TrimSpace m) (TrimSpace n) then Some v
                               else lastField d (TrimSpace n)).
Proof.
  intros Hn. split_and!; [apply merge_canonical|by rewrite merge_get, !get_normalize|].
  intros m v. unfold With_. rewrite get_normalize by done. unfold lastField.
  rewrite map_app, reverse_app. cbn [map reverse]. rewrite getBy_app. cbn.
  by destruct (String.eqb _ _).
Qed.

Lemma merge_overrides_witness :
  Get (Merge [mkField "b" (IntValue 1); mkField "a" (IntValue 2)] [mkField " b " (IntValue 3)]) "b"
  = Some (IntValue 3).
Proof.
  destruct (merge_overrides [mkField "b" (IntValue 1); mkField "a" (IntValue 2)]
              [mkField " b " (IntValue 3)] "b") as (_ & H & _); [by vm_compute|].
  rewrite H. by vm_compute.
Defined.

(** [Equal] is an equivalence, compares scalars by their index form only,
    and a record filter cannot tell equal values apart. *)
Theorem equal_is_index_equality v w :
  (Equal v w = true ↔ valueKey v = valueKey w) ∧
  (Equal v w = true → ScalarIndex v = ScalarIndex w ∧
     ∀ n d fs, Matches (mkField n v :: d) fs = Matches (mkField n w :: d) fs).
Proof.
  split; [apply equal_value_key|]. intros H. assert (value_equiv v w) as He by exact H. split.
  - by apply scalar_index_proper.
  - intros n d fs. unfold Matches. apply Bool.eq_iff_eq_true. rewrite !forallb_forall.
    split; intros Hall f Hf; specialize (Hall f Hf); unfold Get in *; cbn [getBy Name FValue] in *;
      destruct (String.eqb _ _); try done; cbn in *.
    + by rewrite <- He.
    + by rewrite He.
Qed.

Lemma equal_is_index_equality_witness :
  ScalarIndex (mkValue RecordValueBool "TRUE" "") = ScalarIndex (BoolValue true).
Proof.
  destruct (equal_is_index_equality (mkValue RecordValueBool "TRUE" "") (BoolValue true)) as [_ H].
  destruct H as [H _]; [by vm_compute|]. exact H.
Defined.
