(* ===== verification/HermesKeys.v ===== *)
(** * HermesKeys: projection specs, record keys and queries

    Models [server-kit/go/hermes/helpers.go] and the data types of
    [hermes/types.go]: normalization of projection specs and records, the
    escaped partition key, index scopes, and query plans with their matching.
    [now] is the clock reading the code takes. *)

From Stdlib Require Import ZArith Lia Ascii String Sorting.Sorted Permutation.
From stdpp Require Import base sets list strings gmap sorting.
From S2P Require Import Prelude GoStrings RecordData.

Open Scope string_scope.
Open Scope list_scope.
Open Scope Z_scope.

(** ** Data *)

Inductive hermes_error :=
| ErrProjectionNotFound | ErrProjectionLimit | ErrInvalidProjection | ErrInvalidEvent
| ErrFenceNotSatisfied | ErrContext.

#[export] Instance hermes_error_eq_dec : EqDecision hermes_error.
Proof. solve_decision. Defined.

Abbreviation Operation := string.
Definition OperationUpsert : Operation := "upsert".
Definition OperationPatch : Operation := "patch".
Definition OperationDelete : Operation := "delete".

Record ProjectionSpec := mkSpec {
  SName : string; SDomain : string; SCollection : string;
  IndexedFields : list string; RangeIndexedFields : list string;
  ColumnarPK : string; ColumnarFields : list string;
  MaxRecords : Z; MaxBytes : Z; MaxIndexes : Z; MaxRangeIndexes : Z;
  MaxTombstones : Z; MaxAppliedEvents : Z; Freshness : Z; TTL : Z
}.

Record Event := mkEvent {
  EOperation : Operation; SourceID : string; Version : Z; CorrelationID : string;
  ERecord : DomainRecord
}.

Record QueryFilter := mkQF { QField : string; QKind : ascii; QValue : string }.
Record QueryPlan := mkPlan { first : QueryFilter; filters : list QueryFilter; count : Z }.
Record Query := mkQ { QOrganizationID : string; QueryLimit : Z; Plan : QueryPlan }.

Record recordScope := mkScope { domain : string; collection : string; organizationID : string }.

#[export] Instance recordScope_eq_dec : EqDecision recordScope.
Proof. solve_decision. Defined.

#[export] Instance recordScope_countable : Countable recordScope.
Proof.
  apply (inj_countable' (λ s, (domain s, collection s, organizationID s))
           (λ t, mkScope t.1.1 t.1.2 t.2)). by intros [].
Defined.

(** ** Specs *)

Definition defaultMaxRecords : Z := 100000.
Definition defaultMaxBytes : Z := 64 * 2 ^ 20.
Definition defaultMaxTombstones : Z := 10000.
Definition defaultMaxAppliedEvents : Z := 100000.

Fixpoint indexedFieldsLoop (fields out : list string) (seen : gset string) (limit : nat) : list string :=
  match fields with
  | [] => out
  | f :: rest =>
      let field := TrimSpace f in
      if String.eqb field "" || String.eqb field "organization_id"
      then indexedFieldsLoop rest out seen limit
      else if bool_decide (field ∈ seen) then indexedFieldsLoop rest out seen limit
      else
        let out := out ++ [field] in
        if (length out =? limit)%nat then out
        else indexedFieldsLoop rest out ({[field]} ∪ seen) limit
  end.

Definition normalizeIndexedFields (fields : list string) (maxIndexes : Z) : list string :=
  let limit := length fields in
  let limit := if (0 <? maxIndexes) && (maxIndexes <? Z.of_nat limit) then Z.to_nat maxIndexes else limit in
  indexedFieldsLoop fields [] ∅ limit.
#[global] Arguments normalizeIndexedFields _ _ : simpl never.

Definition normalizeSpec (spec : ProjectionSpec) : res hermes_error ProjectionSpec :=
  let name := TrimSpace (SName spec) in
  let dom := TrimSpace (SDomain spec) in
  let coll := TrimSpace (SCollection spec) in
  if String.eqb name "" || String.eqb dom "" || String.eqb coll "" then Err ErrInvalidProjection
  else
    let maxRecords := if MaxRecords spec <=? 0 then defaultMaxRecords else MaxRecords spec in
    let maxTombstones := if MaxTombstones spec <? 0 then 0 else MaxTombstones spec in
    Ok (mkSpec name dom coll
          (normalizeIndexedFields (IndexedFields spec) (MaxIndexes spec))
          (normalizeIndexedFields (RangeIndexedFields spec) (MaxRangeIndexes spec))
          (ColumnarPK spec) (ColumnarFields spec)
          maxRecords
          (if MaxBytes spec <=? 0 then defaultMaxBytes else MaxBytes spec)
          (MaxIndexes spec) (MaxRangeIndexes spec)
          (if maxTombstones =? 0 then Z.min maxRecords defaultMaxTombstones else maxTombstones)
          (if MaxAppliedEvents spec <=? 0 then defaultMaxAppliedEvents else MaxAppliedEvents spec)
          (Freshness spec) (TTL spec)).

(** ** Keys *)

Definition keySeparator : ascii := "|".
Definition keyEscape : ascii := "\".

Fixpoint hasKeySeparator (value : string) : bool :=
  match value with
  | "" => false
  | String c rest => Ascii.eqb c keySeparator || Ascii.eqb c keyEscape || hasKeySeparator rest
  end.

(** The byte loop of [escapeKeyComponent]. *)
Fixpoint escapeBytes (value : string) : string :=
  match value with
  | "" => ""
  | String c rest =>
      if Ascii.eqb c keyEscape then "\\" +:+ escapeBytes rest
      else if Ascii.eqb c keySeparator then "\|" +:+ escapeBytes rest
      else String c (escapeBytes rest)
  end.

Definition escapeKeyComponent (value : string) : string :=
  let value := TrimSpace value in
  if hasKeySeparator value then escapeBytes value else value.

Definition recordKeyFromEscaped (d c o r : string) : string :=
  d +:+ "|" +:+ c +:+ "|" +:+ o +:+ "|" +:+ r.

(** Trim, then escape only when the separator or the escape occurs. *)
Definition keyComponent (value : string) : string :=
  let value := TrimSpace value in
  if hasKeySeparator value then escapeKeyComponent value else value.

Definition recordKey (d c o r : string) : string :=
  recordKeyFromEscaped (keyComponent d) (keyComponent c) (keyComponent o) (keyComponent r).

Definition scopeKey (d c o : string) : recordScope :=
  mkScope (TrimSpace d) (TrimSpace c) (TrimSpace o).

(** ** Records *)

Definition fieldName (data : RecordData) (i : nat) : string :=
  match data !! i with Some f => Name f | None => "" end.

(** [sort.Search] for the first name not below ["organization_id"]; past the
    end the test is never asked. *)
Definition organizationIndex (data : RecordData) : nat :=
  sortSearch (length data)
    (λ i, if (i <? length data)%nat then String.leb "organization_id" (fieldName data i) else true).

Definition setFieldValue (f : RecordField) (v : RecordValue) : RecordField := mkField (Name f) v.

Definition normalizeRecordDataWithOrganization (data : RecordData) (org : string) : RecordData :=
  let orgValue := StringValue org in
  if IsSortedUnique data then
    let idx := organizationIndex data in
    match data !! idx with
    | Some f =>
        if String.eqb (Name f) "organization_id"
        then if Equal (FValue f) orgValue then data
             else <[idx := setFieldValue f orgValue]> data
        else take idx data ++ mkField "organization_id" orgValue :: drop idx data
    | None => take idx data ++ mkField "organization_id" orgValue :: drop idx data
    end
  else
    let normalized := Normalize data in
    let idx := organizationIndex normalized in
    match normalized !! idx with
    | Some f =>
        if String.eqb (Name f) "organization_id" then <[idx := setFieldValue f orgValue]> normalized
        else take idx normalized ++ mkField "organization_id" orgValue :: drop idx normalized
    | None => take idx normalized ++ mkField "organization_id" orgValue :: drop idx normalized
    end.

Definition trimmedScope (rec : DomainRecord) : option (string * string * string * string) :=
  let d := TrimSpace (Domain rec) in
  let c := TrimSpace (Collection rec) in
  let o := TrimSpace (OrganizationID rec) in
  let r := TrimSpace (RecordID rec) in
  if String.eqb d "" || String.eqb c "" || String.eqb o "" || String.eqb r "" then None
  else Some (d, c, o, r).

Definition normalizeRecord (now : Z) (rec : DomainRecord) : res hermes_error DomainRecord :=
  match trimmedScope rec with
  | None => Err ErrInvalidEvent
  | Some (d, c, o, r) =>
      Ok (mkRecord d c o r (normalizeRecordDataWithOrganization (Data rec) o) (Vector_ rec)
            (if CreatedAt rec =? 0 then now else CreatedAt rec)
            (if UpdatedAt rec =? 0 then now else UpdatedAt rec))
  end.

Definition normalizePatchRecord (now : Z) (rec : DomainRecord) : res hermes_error DomainRecord :=
  match trimmedScope rec with
  | None => Err ErrInvalidEvent
  | Some (d, c, o, r) =>
      Ok (mkRecord d c o r (normalizeRecordDataWithOrganization (Data rec) o) (Vector_ rec)
            (CreatedAt rec)
            (if UpdatedAt rec =? 0 then now else UpdatedAt rec))
  end.

(** ** Queries *)

(** What [forEachPlannedFilter] visits. *)
Definition plannedFilters (plan : QueryPlan) : list QueryFilter :=
  if count plan =? 0 then []
  else if count plan =? 1 then [first plan]
  else filters plan.

Definition filterMatches (data : RecordData) (f : QueryFilter) : bool :=
  match Get data (QField f) with
  | None => false
  | Some actual =>
      match ScalarIndex actual with
      | Some (kind, value) => Ascii.eqb kind (QKind f) && String.eqb value (QValue f)
      | None => false
      end
  end.

Definition matchesPlannedFilters (data : RecordData) (plan : QueryPlan) : bool :=
  forallb (filterMatches data) (plannedFilters plan).

Definition recordMatches (rec : DomainRecord) (spec : ProjectionSpec) (query : Query) : bool :=
  if negb (String.eqb (Domain rec) (SDomain spec)) || negb (String.eqb (Collection rec) (SCollection spec))
  then false
  else
    let wantOrg := TrimSpace (QOrganizationID query) in
    if negb (String.eqb wantOrg "") && negb (String.eqb (OrganizationID rec) wantOrg) then false
    else if 0 <? count (Plan query) then matchesPlannedFilters (Data rec) (Plan query) else true.

Definition normalizeQuery (query : Query) : Query :=
  mkQ (TrimSpace (QOrganizationID query)) (QueryLimit query) (Plan query).

Definition emptyFilter : QueryFilter := mkQF "" "000" "".
Definition emptyPlan : QueryPlan := mkPlan emptyFilter [] 0.

Definition QueryWithFilters (org : string) (limit : Z) (fs : list QueryFilter) : Query :=
  let planned := filter (λ f, QField f ≠ "")
                   (map (λ f, mkQF (TrimSpace (QField f)) (QKind f) (QValue f)) fs) in
  let planned := sortBy QField planned in
  mkQ org limit
    (match planned with
     | [] => emptyPlan
     | [f] => mkPlan f [] 1
     | f :: _ => mkPlan f planned (Z.of_nat (length planned))
     end).

(** The filter of a record query, when it names a field and a scalar. *)
Definition queryFilterOf (f : RecordFilter) : option QueryFilter :=
  let field := TrimSpace (Field_ f) in
  if String.eqb field "" then None
  else match ScalarIndex (Wanted f) with
       | Some (kind, encoded) => Some (mkQF field kind encoded)
       | None => None
       end.

Definition QueryFromRecordQuery (org : string) (query : RecordQuery) : Query :=
  match Filters query with
  | [f] =>
      match queryFilterOf f with
      | None => mkQ org (QLimit query) emptyPlan
      | Some qf => mkQ org (QLimit query) (mkPlan qf [] 1)
      end
  | fs => QueryWithFilters org (QLimit query) (omap queryFilterOf fs)
  end.

(** ** Keys are injective *)

Lemma escape_no_separator s : hasKeySeparator s = false → escapeBytes s = s.
Proof.
  induction s as [|c s IH]; [done|]. cbn [hasKeySeparator escapeBytes].
  rewrite !orb_false_iff. intros [[-> ->] H]. by rewrite IH.
Qed.

Lemma key_component_escape v : keyComponent v = escapeBytes (TrimSpace v).
Proof.
  unfold keyComponent, escapeKeyComponent. rewrite trim_space_idemp.
  destruct (hasKeySeparator (TrimSpace v)) eqn:E; [done|]. by rewrite escape_no_separator.
Qed.

Lemma escape_cons c s :
  escapeBytes (String c s) =
  if Ascii.eqb c keyEscape then String "\" (String "\" (escapeBytes s))
  else if Ascii.eqb c keySeparator then String "\" (String "|" (escapeBytes s))
  else String c (escapeBytes s).
Proof. done. Qed.

(** An escaped component ends at the first unescaped separator. *)
Lemma escape_split s s' r r' :
  escapeBytes s +:+ String "|" r = escapeBytes s' +:+ String "|" r' → s = s' ∧ r = r'.
Proof.
  revert s'. induction s as [|c s IH]; intros [|c' s']; rewrite ?escape_cons.
  - intros H. cbn in H. rewrite !append_empty_l in H. by injection H.
  - cbn [escapeBytes]. rewrite append_empty_l.
    destruct (Ascii.eqb_spec c' keyEscape), (Ascii.eqb_spec c' keySeparator) as [|Hs]; rewrite append_cons;
      try done. intros [= <- _]. by destruct Hs.
  - cbn [escapeBytes]. rewrite append_empty_l.
    destruct (Ascii.eqb_spec c keyEscape), (Ascii.eqb_spec c keySeparator) as [|Hs]; rewrite append_cons;
      try done. intros [= -> _]. by destruct Hs.
  - destruct (Ascii.eqb_spec c keyEscape) as [->|He], (Ascii.eqb_spec c' keyEscape) as [->|He'];
      [..|destruct (Ascii.eqb_spec c keySeparator) as [->|Hs], (Ascii.eqb_spec c' keySeparator) as [->|Hs']];
      try destruct (Ascii.eqb_spec c' keySeparator) as [->|Hs'];
      try destruct (Ascii.eqb_spec c keySeparator) as [->|Hs];
      rewrite !append_cons; try done; intros H; injection H;
      try (intros H1; by destruct (IH _ H1) as [-> ->]);
      try (intros H1 ->; by destruct (IH _ H1) as [-> ->]);
      try (intros _ ?; by subst).
Qed.

Lemma escape_inj s s' : escapeBytes s = escapeBytes s' → s = s'.
Proof.
  intros H. apply (escape_split s s' "" ""). by rewrite H.
Qed.

(** Go maps and prints keys through [recordKey]; equal keys mean the same
    record of the same tenant. *)
Lemma record_key_inj d c o r d' c' o' r' :
  recordKey d c o r = recordKey d' c' o' r' ↔
  TrimSpace d = TrimSpace d' ∧ TrimSpace c = TrimSpace c' ∧
  TrimSpace o = TrimSpace o' ∧ TrimSpace r = TrimSpace r'.
Proof.
  unfold recordKey, recordKeyFromEscaped. rewrite !key_component_escape. split.
  - intros H. apply escape_split in H as [H1 H]. apply escape_split in H as [H2 H].
    apply escape_split in H as [H3 H]. apply escape_inj in H. done.
  - by intros (-> & -> & -> & ->).
Qed.

Lemma escape_nonempty s : s ≠ "" → escapeBytes s ≠ "".
Proof.
  destruct s as [|c s]; [done|]. intros _. rewrite escape_cons.
  by destruct (Ascii.eqb c keyEscape), (Ascii.eqb c keySeparator).
Qed.

Lemma record_key_nonempty d c o r : recordKey d c o r ≠ "".
Proof.
  unfold recordKey, recordKeyFromEscaped. intros H. apply (f_equal String.length) in H.
  rewrite !length_append in H. cbn in H. lia.
Qed.

(** ** Specs *)

(** What the fields of a normalized spec look like. *)
Definition good_fields (l : list string) : Prop :=
  NoDup l ∧ Forall (λ f, TrimSpace f = f ∧ f ≠ "" ∧ f ≠ "organization_id") l.

Lemma indexed_fields_loop_good fields : ∀ out seen limit,
  good_fields out → (∀ f, f ∈ out ↔ f ∈ seen) → (length out < limit)%nat ∨ fields = [] →
  good_fields (indexedFieldsLoop fields out seen limit) ∧
  (length (indexedFieldsLoop fields out seen limit) ≤ Nat.max limit (length out))%nat.
Proof.
  induction fields as [|f rest IH]; intros out seen limit Hg Hs Hl; cbn [indexedFieldsLoop].
  { split; [done|lia]. }
  destruct Hl as [Hl|?]; [|done].
  assert ((length out < limit)%nat ∨ rest = []) as Hl' by (by left).
  destruct (String.eqb_spec (TrimSpace f) "") as [|Hne]; cbn [orb]; [by apply IH|].
  destruct (String.eqb_spec (TrimSpace f) "organization_id") as [|Hno]; [by apply IH|].
  case_bool_decide as Hin; [by apply IH|].
  assert (good_fields (out ++ [TrimSpace f])) as Hg'.
  { destruct Hg as [Hn Hf]. split.
    - apply NoDup_app. split_and!; [done| |apply NoDup_singleton]. intros x Hx ->%list_elem_of_singleton.
      by apply Hin, Hs.
    - apply Forall_app. split; [done|]. apply Forall_singleton. by rewrite trim_space_idemp. }
  rewrite length_app. cbn [length]. destruct (Nat.eqb_spec (length out + 1) limit) as [He|He].
  - split; [done|]. rewrite length_app. cbn. lia.
  - destruct (IH (out ++ [TrimSpace f]) ({[TrimSpace f]} ∪ seen) limit) as [H1 H2]; [done|set_solver| |].
    + left. rewrite length_app. cbn. lia.
    + split; [done|]. rewrite length_app in H2. cbn in H2. lia.
Qed.

Lemma normalize_indexed_fields_good fields m :
  good_fields (normalizeIndexedFields fields m) ∧
  (length (normalizeIndexedFields fields m) ≤ length fields)%nat ∧
  (0 < m → Z.of_nat (length (normalizeIndexedFields fields m)) ≤ m).
Proof.
  unfold normalizeIndexedFields.
  assert (∀ limit, (0 < limit)%nat ∨ fields = [] → good_fields (indexedFieldsLoop fields [] ∅ limit) ∧
            (length (indexedFieldsLoop fields [] ∅ limit) ≤ limit)%nat) as H.
  { intros limit Hl. destruct (indexed_fields_loop_good fields [] ∅ limit) as [H1 H2];
      [split; constructor|set_solver|done|]. split; [done|]. cbn in H2. lia. }
  assert ((0 < length fields)%nat ∨ fields = []) as Hf by (destruct fields; [by right|left; cbn; lia]).
  destruct (Z.ltb_spec 0 m) as [Hp|Hp], (Z.ltb_spec m (Z.of_nat (length fields))) as [Hq|Hq]; cbn [andb];
    [destruct (H (Z.to_nat m)) as [G1 G2]; [left; lia|]|destruct (H (length fields) Hf) as [G1 G2]..];
    (split_and!; [done|lia|lia]).
Qed.

(** Normalizing good fields keeps them. *)
Lemma indexed_fields_loop_id fields : ∀ out seen limit,
  good_fields (out ++ fields) → (∀ f, f ∈ out ↔ f ∈ seen) →
  (length (out ++ fields) ≤ limit)%nat → indexedFieldsLoop fields out seen limit = out ++ fields.
Proof.
  induction fields as [|f rest IH]; intros out seen limit Hg Hs Hl; cbn [indexedFieldsLoop].
  { by rewrite app_nil_r. }
  pose proof Hg as [Hn Hf]. apply Forall_app in Hf as [_ Hf]. apply Forall_cons_iff in Hf as [(Ht & Hne & Hno) _].
  rewrite Ht. apply String.eqb_neq in Hne, Hno. rewrite Hne, Hno. cbn [orb].
  apply NoDup_app in Hn as (_ & Hnin & _).
  rewrite bool_decide_false by (intros Hin%Hs; apply (Hnin f Hin); set_solver).
  rewrite length_app in Hl. cbn [length] in Hl. rewrite length_app. cbn [length].
  destruct (Nat.eqb_spec (length out + 1) limit) as [He|He].
  - assert (rest = []) as -> by (destruct rest; [done|cbn in Hl; lia]). done.
  - rewrite IH; [by rewrite <- app_assoc|by rewrite <- app_assoc|set_solver|].
    rewrite !length_app. cbn. lia.
Qed.

Lemma normalize_indexed_fields_id fields m : good_fields fields →
  (0 < m → Z.of_nat (length fields) ≤ m) → normalizeIndexedFields fields m = fields.
Proof.
  intros Hg Hm. unfold normalizeIndexedFields. apply (indexed_fields_loop_id _ []); [done|set_solver|].
  cbn. destruct (Z.ltb_spec 0 m), (Z.ltb_spec m (Z.of_nat (length fields))); cbn [andb]; lia.
Qed.

(** ** The organization field *)

Lemma organization_index_spec d : canonical d →
  (organizationIndex d ≤ length d)%nat ∧
  Forall (λ f, slt (Name f) "organization_id") (take (organizationIndex d) d) ∧
  Forall (λ f, String.le "organization_id" (Name f)) (drop (organizationIndex d) d).
Proof.
  intros [Hs _]. unfold organizationIndex.
  set (f := λ i, if (i <? length d)%nat then String.leb "organization_id" (fieldName d i) else true).
  assert (∀ k x, d !! k = Some x → f k = String.leb "organization_id" (Name x)) as Hfk.
  { intros k x Hk. unfold f, fieldName. rewrite (proj2 (Nat.ltb_lt _ _)) by (by eapply lookup_lt_Some).
    by rewrite Hk. }
  destruct (sort_search_spec (length d) f) as (H1 & H2 & H3).
  - intros a b Hab. unfold f. destruct (Nat.ltb_spec b (length d)) as [Hb|]; [|done].
    rewrite (proj2 (Nat.ltb_lt a (length d))) by lia. rewrite !leb_le. unfold fieldName.
    destruct (decide (a = b)) as [->|Hne]; [done|].
    destruct (lookup_lt_is_Some_2 d a ltac:(lia)) as [x Hx], (lookup_lt_is_Some_2 d b Hb) as [y Hy].
    rewrite Hx, Hy. intros Hle. assert (slt (Name x) (Name y)) as [Hxy _].
    { rewrite <- (take_drop b d) in Hs. eapply (StronglySorted_app_1_elem_of (λ a b, slt (Name a) (Name b)) _ _ x y Hs).
      - apply list_elem_of_lookup_2 with a. rewrite lookup_take_lt by lia. done.
      - apply list_elem_of_lookup_2 with 0%nat. by rewrite lookup_drop, Nat.add_0_r. }
    by etrans.
  - split_and!; [done| |].
    + apply Forall_lookup. intros i x Hx. apply lookup_take_Some in Hx as [Hx Hi].
      specialize (H2 i Hi). rewrite (Hfk _ _ Hx) in H2.
      destruct (slt_total (Name x) "organization_id") as [?|[Heq|[Hle _]]]; [done|..]; exfalso;
        apply not_true_iff_false in H2; apply H2, leb_le; [by rewrite Heq|done].
    + apply Forall_lookup. intros i x Hx. rewrite lookup_drop in Hx.
      apply lookup_lt_Some in Hx as Hlt. specialize (H3 (sortSearch (length d) f + i)%nat ltac:(lia)).
      rewrite (Hfk _ _ Hx) in H3. by apply leb_le.
Qed.

(** Writing the organization at the search index of canonical data. *)
Definition putOrganization (d : RecordData) (v : RecordValue) : RecordData :=
  match d !! organizationIndex d with
  | Some f =>
      if String.eqb (Name f) "organization_id" then <[organizationIndex d := setFieldValue f v]> d
      else take (organizationIndex d) d ++ mkField "organization_id" v :: drop (organizationIndex d) d
  | None => take (organizationIndex d) d ++ mkField "organization_id" v :: drop (organizationIndex d) d
  end.

Lemma ssorted_middle (pre post : RecordData) f :
  ssorted Name pre → ssorted Name post →
  Forall (λ g, slt (Name g) (Name f)) pre → Forall (λ g, slt (Name f) (Name g)) post →
  ssorted Name (pre ++ f :: post).
Proof.
  intros H1 H2 Hp Hq. apply StronglySorted_app. split_and!; [|done|by apply StronglySorted_cons].
  rewrite Forall_forall in Hp, Hq. intros x y Hx [->|Hy]%elem_of_cons; [by apply Hp|].
  eapply slt_trans; [by apply Hp|by apply Hq].
Qed.

Lemma getBy_middle (pre post : RecordData) f n :
  Forall (λ g, Name g ≠ Name f) pre →
  getBy Name (pre ++ f :: post) n = if String.eqb (Name f) n then Some f else getBy Name (pre ++ post) n.
Proof.
  intros Hp. rewrite !getBy_app. cbn [getBy]. destruct (getBy Name pre n) as [x|] eqn:E; [|done].
  apply getBy_Some in E as [Hin <-]. destruct (String.eqb_spec (Name f) (Name x)) as [Heq|]; [|done].
  exfalso. rewrite Forall_forall in Hp. by apply (Hp x Hin).
Qed.

Lemma canonical_split pre (post : RecordData) : canonical (pre ++ post) →
  ssorted Name pre ∧ ssorted Name post ∧
  Forall (λ f, TrimSpace (Name f) = Name f ∧ Name f ≠ "") pre ∧
  Forall (λ f, TrimSpace (Name f) = Name f ∧ Name f ≠ "") post.
Proof.
  intros [Hs Hn]. apply StronglySorted_app in Hs as (_ & ? & ?). apply Forall_app in Hn as [? ?]. done.
Qed.

Lemma organization_name_ok : TrimSpace "organization_id" = "organization_id" ∧ "organization_id" ≠ "".
Proof. done. Qed.

(** The two shapes of the write: replacing the field, or inserting it. *)
Lemma put_organization_shape d v : canonical d → ∃ pre post,
  putOrganization d v = pre ++ mkField "organization_id" v :: post ∧
  (d = pre ++ post ∨ ∃ w, d = pre ++ mkField "organization_id" w :: post) ∧
  Forall (λ f, slt (Name f) "organization_id") pre ∧ Forall (λ f, slt "organization_id" (Name f)) post.
Proof.
  intros Hc. destruct (organization_index_spec d Hc) as (Hle & Hlo & Hhi).
  pose proof (take_drop (organizationIndex d) d) as Hd.
  unfold putOrganization. destruct (d !! organizationIndex d) as [f|] eqn:E.
  - assert (drop (organizationIndex d) d = f :: drop (S (organizationIndex d)) d) as Hdrop by (by apply drop_S).
    rewrite Hdrop in Hd, Hhi. apply Forall_cons_iff in Hhi as [Hf Hhi].
    assert (Forall (λ g, slt (Name f) (Name g)) (drop (S (organizationIndex d)) d)) as Hgt.
    { rewrite <- Hd in Hc. destruct (canonical_split _ _ Hc) as (_ & Hs & _).
      by apply StronglySorted_cons in Hs as [? _]. }
    destruct (String.eqb_spec (Name f) "organization_id") as [Hn|Hn].
    + exists (take (organizationIndex d) d), (drop (S (organizationIndex d)) d). split_and!; [| |done|].
      * rewrite <- Hd at 2. rewrite insert_app_r_alt by (rewrite length_take; lia).
        rewrite length_take_le, Nat.sub_diag by done. cbn. unfold setFieldValue. by rewrite Hn.
      * right. exists (FValue f). rewrite <- Hd at 1. f_equal. f_equal. destruct f; cbn in *. by rewrite Hn.
      * by rewrite <- Hn.
    + exists (take (organizationIndex d) d), (drop (organizationIndex d) d). rewrite Hdrop.
      split_and!; [done|left; by rewrite Hd|done|]. apply Forall_cons_iff. split; [by split|].
      eapply Forall_impl; [exact Hgt|]. intros g Hg. eapply slt_trans; [|exact Hg]. by split.
  - apply lookup_ge_None in E. rewrite drop_ge by lia.
    exists (take (organizationIndex d) d), []. split_and!; [done| |done|constructor].
    left. by rewrite app_nil_r, take_ge by lia.
Qed.

Lemma put_organization_spec d v : canonical d →
  canonical (putOrganization d v) ∧
  ∀ n, Get (putOrganization d v) n =
       if String.eqb "organization_id" (TrimSpace n) then Some v else Get d n.
Proof.
  intros Hc. destruct (put_organization_shape d v Hc) as (pre & post & -> & Hd & Hlo & Hhi).
  assert (canonical (pre ++ post) ∧ ∀ n, n ≠ "organization_id" → getBy Name d n = getBy Name (pre ++ post) n)
    as [Hc' Hget].
  { destruct Hd as [->|[w ->]]; [done|]. destruct (canonical_split _ _ Hc) as (S1 & S2 & N1 & N2).
    apply StronglySorted_cons in S2 as [Hf S2]. apply Forall_cons_iff in N2 as [_ N2]. split.
    - split; [|by apply Forall_app]. apply StronglySorted_app. split_and!; [|done|done].
      rewrite Forall_forall in Hlo, Hhi. intros x y Hx Hy.
      eapply slt_trans; [by apply Hlo|by apply Hhi].
    - intros n Hn. rewrite !getBy_app. cbn [getBy Name].
      destruct (String.eqb_spec "organization_id" n); [congruence|done]. }
  destruct (canonical_split _ _ Hc') as (S1 & S2 & N1 & N2). split.
  - split; [by apply ssorted_middle|]. apply Forall_app. split; [done|]. apply Forall_cons_iff.
    split; [apply organization_name_ok|done].
  - intros n. unfold Get. rewrite getBy_middle.
    + cbn [Name]. destruct (String.eqb_spec "organization_id" (TrimSpace n)) as [|Hne]; [done|].
      by rewrite Hget.
    + eapply Forall_impl; [exact Hlo|]. cbn. by intros g [_ ?].
Qed.

(** Data whose names are trimmed, or that takes the normalizing path. *)
Lemma normalize_with_organization_spec d org : Forall (λ f, TrimSpace (Name f) = Name f) d ∨ IsSortedUnique d = false →
  canonical (normalizeRecordDataWithOrganization d org) ∧
  (∃ v, Get (normalizeRecordDataWithOrganization d org) "organization_id" = Some v ∧
        Equal v (StringValue org) = true) ∧
  ∀ n, TrimSpace n ≠ "" → TrimSpace n ≠ "organization_id" →
    Get (normalizeRecordDataWithOrganization d org) n = lastField d (TrimSpace n).
Proof.
  intros Hd. unfold normalizeRecordDataWithOrganization.
  assert (∀ d', canonical d' → (∀ n, TrimSpace n ≠ "" → Get d' n = lastField d (TrimSpace n)) →
    canonical (putOrganization d' (StringValue org)) ∧
    (∃ v, Get (putOrganization d' (StringValue org)) "organization_id" = Some v ∧
          Equal v (StringValue org) = true) ∧
    ∀ n, TrimSpace n ≠ "" → TrimSpace n ≠ "organization_id" →
      Get (putOrganization d' (StringValue org)) n = lastField d (TrimSpace n)) as Hput.
  { intros d' Hc Hg. destruct (put_organization_spec d' (StringValue org) Hc) as [H1 H2].
    split_and!; [done| |].
    - exists (StringValue org). rewrite H2. split; [done|]. by apply equal_value_key.
    - intros n Hn Hne. rewrite H2. destruct (String.eqb_spec "organization_id" (TrimSpace n)); [congruence|].
      by apply Hg. }
  destruct (IsSortedUnique d) eqn:E.
  - destruct Hd as [Hd|]; [|done].
    assert (canonical d) as Hc.
    { apply is_sorted_unique_spec in E as [Hs Hn].
      assert (map trimField d = d) as Ht.
      { clear -Hd. induction Hd as [|[n v] d Hf _ IH]; [done|]. cbn. unfold trimField at 1. cbn in *.
        by rewrite Hf, IH. }
      rewrite Ht in Hs. split; [done|]. rewrite Forall_forall in Hd, Hn |- *. intros f Hf.
      split; [by apply Hd|]. rewrite <- (Hd f Hf). by apply Hn. }
    pose proof (Hput d Hc (λ n _, canonical_get_last d n Hc)) as H.
    unfold putOrganization in H. destruct (d !! organizationIndex d) as [f|] eqn:Ef; [|done].
    destruct (String.eqb_spec (Name f) "organization_id") as [Hn|]; [|done].
    destruct (Equal (FValue f) (StringValue org)) eqn:Eq; [|done]. split_and!; [done| |].
    + exists (FValue f). split; [|done]. unfold Get. change (TrimSpace "organization_id") with "organization_id".
      erewrite getBy_unique; [done|apply ssorted_nodup, Hc|by eapply list_elem_of_lookup_2|done].
    + intros n _ _. by apply canonical_get_last.
  - pose proof (Hput (Normalize d) (normalize_canonical_data d) (λ n, get_normalize d n)) as H.
    unfold putOrganization in H. by destruct (Normalize d !! organizationIndex (Normalize d)).
Qed.

(** ** Query plans *)

Lemma forallb_permutation {A} (f : A → bool) l k : Permutation l k → forallb f l = forallb f k.
Proof.
  induction 1; cbn; [done|congruence| |congruence].
  destruct (f x), (f y); done.
Qed.

Lemma query_with_filters_planned org limit fs :
  Permutation (plannedFilters (Plan (QueryWithFilters org limit fs)))
    (filter (λ f, QField f ≠ "") (map (λ f, mkQF (TrimSpace (QField f)) (QKind f) (QValue f)) fs)).
Proof.
  unfold QueryWithFilters. set (planned := filter _ _). rewrite <- (sortBy_perm QField planned) at 2.
  destruct (sortBy QField planned) as [|f [|g l]]; [done|done|]. unfold plannedFilters. cbn [Plan count filters].
  destruct (Z.eqb_spec (Z.of_nat (length (f :: g :: l))) 0) as [E|_]; [cbn in E; lia|].
  destruct (Z.eqb_spec (Z.of_nat (length (f :: g :: l))) 1) as [E|_]; [cbn in E; lia|]. done.
Qed.

(** One filter of a record query and its planned form agree on every record. *)
Lemma filter_agrees d f qf : queryFilterOf f = Some qf →
  filterMatches d qf = match Get d (Field_ f) with
                       | Some actual => Equal actual (Wanted f) | None => false end.
Proof.
  unfold queryFilterOf. destruct (String.eqb _ _); [done|].
  destruct (ScalarIndex (Wanted f)) as [[k e]|] eqn:E; [|done]. intros [= <-].
  unfold filterMatches, Get. cbn [QField QKind QValue]. rewrite trim_space_idemp.
  destruct (getBy Name d _) as [fld|]; cbn; [|done]. apply Bool.eq_iff_eq_true.
  rewrite equal_value_key. unfold valueKey. rewrite E. destruct (ScalarIndex (FValue fld)) as [[k' e']|].
  - rewrite andb_true_iff, Ascii.eqb_eq, String.eqb_eq. naive_solver.
  - done.
Qed.

Lemma query_filter_trimmed f qf : queryFilterOf f = Some qf →
  mkQF (TrimSpace (QField qf)) (QKind qf) (QValue qf) = qf ∧ QField qf ≠ "".
Proof.
  unfold queryFilterOf. destruct (String.eqb_spec (TrimSpace (Field_ f)) "") as [|Hne]; [done|].
  destruct (ScalarIndex _) as [[k e]|]; [|done]. intros [= <-]. cbn. by rewrite trim_space_idemp.
Qed.

Lemma omap_planned fs :
  filter (λ f, QField f ≠ "") (map (λ f, mkQF (TrimSpace (QField f)) (QKind f) (QValue f)) (omap queryFilterOf fs))
  = omap queryFilterOf fs.
Proof.
  induction fs as [|f fs IH]; [done|]. cbn [omap list_omap]. destruct (queryFilterOf f) as [qf|] eqn:E; [|done].
  cbn [map]. destruct (query_filter_trimmed _ _ E) as [-> Hne]. rewrite filter_cons_True by done. by f_equal.
Qed.

(** The plan of a record query keeps exactly the filters with a planned form. *)
Lemma query_from_record_query_planned org q :
  Permutation (plannedFilters (Plan (QueryFromRecordQuery org q))) (omap queryFilterOf (Filters q)).
Proof.
  unfold QueryFromRecordQuery. destruct (Filters q) as [|f [|g fs]].
  - done.
  - cbn [omap list_omap]. by destruct (queryFilterOf f).
  - rewrite query_with_filters_planned. by rewrite omap_planned.
Qed.

Lemma matches_planned d org q :
  matchesPlannedFilters d (Plan (QueryFromRecordQuery org q)) =
  Matches d (filter (λ f, is_Some (queryFilterOf f)) (Filters q)).
Proof.
  unfold matchesPlannedFilters. rewrite (forallb_permutation _ _ _ (query_from_record_query_planned org q)).
  unfold Matches. induction (Filters q) as [|f fs IH]; [done|]. cbn [omap list_omap].
  destruct (queryFilterOf f) as [qf|] eqn:E.
  - rewrite filter_cons_True by (by rewrite E). cbn [forallb]. rewrite (filter_agrees d f qf E). by f_equal.
  - rewrite filter_cons_False by (rewrite E; by apply is_Some_None). done.
Qed.

(** ** The contracts *)

(** C4: partition keys isolate tenants: two records share a key exactly when
    their trimmed domain, collection, organization and record identifier are
    all the same, whatever separators the components contain. *)
Theorem record_key_isolates_tenants d c o r d' c' o' r' :
  recordKey d c o r = recordKey d' c' o' r' ↔
  TrimSpace d = TrimSpace d' ∧ TrimSpace c = TrimSpace c' ∧
  TrimSpace o = TrimSpace o' ∧ TrimSpace r = TrimSpace r'.
Proof. apply record_key_inj. Qed.

Lemma normalize_spec_facts s s' : normalizeSpec s = Ok s' →
  (SName s' ≠ "" ∧ SDomain s' ≠ "" ∧ SCollection s' ≠ "") ∧
  (TrimSpace (SDomain s') = SDomain s' ∧ TrimSpace (SCollection s') = SCollection s') ∧
  (0 < MaxRecords s' ∧ 0 < MaxBytes s' ∧ 0 < MaxTombstones s' ∧ 0 < MaxAppliedEvents s') ∧
  good_fields (IndexedFields s') ∧ good_fields (RangeIndexedFields s') ∧
  (0 < MaxIndexes s' → Z.of_nat (length (IndexedFields s')) ≤ MaxIndexes s') ∧
  normalizeSpec s' = Ok s'.
Proof.
  unfold normalizeSpec at 1.
  destruct (String.eqb_spec (TrimSpace (SName s)) "") as [|N1]; [done|].
  destruct (String.eqb_spec (TrimSpace (SDomain s)) "") as [|N2]; [done|].
  destruct (String.eqb_spec (TrimSpace (SCollection s)) "") as [|N3]; [done|]. cbn [orb].
  intros [= <-]. cbn.
  destruct (normalize_indexed_fields_good (IndexedFields s) (MaxIndexes s)) as (G1 & _ & L1).
  destruct (normalize_indexed_fields_good (RangeIndexedFields s) (MaxRangeIndexes s)) as (G2 & _ & L2).
  unfold defaultMaxRecords, defaultMaxBytes, defaultMaxTombstones, defaultMaxAppliedEvents.
  split_and!; try done; try apply trim_space_idemp;
    [destruct (Z.leb_spec (MaxRecords s) 0); lia|destruct (Z.leb_spec (MaxBytes s) 0); lia
    |destruct (Z.leb_spec (MaxRecords s) 0), (Z.ltb_spec (MaxTombstones s) 0), (Z.eqb_spec (MaxTombstones s) 0);
       cbn; lia
    |destruct (Z.leb_spec (MaxAppliedEvents s) 0); lia|].
  unfold normalizeSpec. cbn. rewrite !trim_space_idemp.
  rewrite (normalize_indexed_fields_id _ _ G1 L1), (normalize_indexed_fields_id _ _ G2 L2).
  apply String.eqb_neq in N1, N2, N3. rewrite N1, N2, N3. cbn [orb]. f_equal.
  unfold defaultMaxRecords, defaultMaxBytes, defaultMaxTombstones, defaultMaxAppliedEvents.
  f_equal; repeat match goal with
    | |- context [(?a <=? ?b)] => destruct (Z.leb_spec a b)
    | |- context [(?a <? ?b)] => destruct (Z.ltb_spec a b)
    | |- context [(?a =? ?b)] => destruct (Z.eqb_spec a b)
    end; lia.
Qed.

(** A spec that [normalizeSpec] accepts has a trimmed non-empty name,
    domain and collection, positive bounds, and index fields that are trimmed,
    distinct, non-empty and within their limit; normalizing it again changes
    nothing. *)
Theorem normalize_spec_bounds s s' : normalizeSpec s = Ok s' →
  (SName s' ≠ "" ∧ SDomain s' ≠ "" ∧ SCollection s' ≠ "") ∧
  (TrimSpace (SDomain s') = SDomain s' ∧ TrimSpace (SCollection s') = SCollection s') ∧
  (0 < MaxRecords s' ∧ 0 < MaxBytes s' ∧ 0 < MaxTombstones s' ∧ 0 < MaxAppliedEvents s') ∧
  good_fields (IndexedFields s') ∧ good_fields (RangeIndexedFields s') ∧
  (0 < MaxIndexes s' → Z.of_nat (length (IndexedFields s')) ≤ MaxIndexes s') ∧
  normalizeSpec s' = Ok s'.
Proof. apply normalize_spec_facts. Qed.

Definition demoSpec : ProjectionSpec :=
  mkSpec " ticks " "signals" "ticks" ["kind"; " kind"; "organization_id"; "state"] ["price"] "" []
    0 0 0 0 0 0 0 0.

Lemma normalize_spec_bounds_witness : ∃ s', normalizeSpec demoSpec = Ok s' ∧ normalizeSpec s' = Ok s' ∧
  IndexedFields s' = ["kind"; "state"].
Proof.
  destruct (normalizeSpec demoSpec) as [s'|] eqn:E; [|vm_compute in E; discriminate].
  exists s'. destruct (normalize_spec_bounds demoSpec s' E) as (_ & _ & _ & _ & _ & _ & H).
  split; [reflexivity|]. split; [exact H|]. vm_compute in E. injection E as <-. reflexivity.
Defined.

(** For record data whose names carry no surrounding white space (or whose
    fields are not already in order), normalization yields canonical data
    whose [organization_id] is the record's organization and whose other
    fields are the last values given. *)
Theorem normalize_record_owns_organization now rec rec' : normalizeRecord now rec = Ok rec' →
  Forall (λ f, TrimSpace (Name f) = Name f) (Data rec) ∨ IsSortedUnique (Data rec) = false →
  OrganizationID rec' = TrimSpace (OrganizationID rec) ∧ OrganizationID rec' ≠ "" ∧ RecordID rec' ≠ "" ∧
  canonical (Data rec') ∧
  (∃ v, Get (Data rec') "organization_id" = Some v ∧ Equal v (StringValue (OrganizationID rec')) = true) ∧
  ∀ n, TrimSpace n ≠ "" → TrimSpace n ≠ "organization_id" →
    Get (Data rec') n = lastField (Data rec) (TrimSpace n).
Proof.
  intros Hn Hd. unfold normalizeRecord, trimmedScope in Hn.
  destruct (String.eqb_spec (TrimSpace (Domain rec)) ""), (String.eqb_spec (TrimSpace (Collection rec)) ""),
    (String.eqb_spec (TrimSpace (OrganizationID rec)) ""), (String.eqb_spec (TrimSpace (RecordID rec)) "");
    try discriminate. cbn in Hn. injection Hn as <-. cbn.
  destruct (normalize_with_organization_spec (Data rec) (TrimSpace (OrganizationID rec)) Hd) as (H1 & H2 & H3).
  split_and!; done.
Qed.

Definition demoRecord (org id : string) (data : RecordData) : DomainRecord :=
  mkRecord "signals" "ticks" org id data [] 0 0.

Lemma normalize_record_owns_organization_witness : ∃ rec',
  normalizeRecord 7 (demoRecord "org_1" "t1" [mkField "z" (IntValue 1); mkField "a" (IntValue 2)]) = Ok rec' ∧
  canonical (Data rec').
Proof.
  destruct (normalizeRecord 7 (demoRecord "org_1" "t1" [mkField "z" (IntValue 1); mkField "a" (IntValue 2)]))
    as [rec'|] eqn:E; [|vm_compute in E; discriminate].
  exists rec'. split; [reflexivity|].
  destruct (normalize_record_owns_organization _ _ _ E) as (_ & _ & _ & H & _);
    [right; vm_compute; reflexivity|]. exact H.
Defined.

(** Names padded with white space defeat it: they pass the sorted-unique test,
    which trims them, while the search compares them as they are, so the
    caller's own [organization_id] field survives in front of the real one. *)
Theorem organization_field_spoofed :
  Get (normalizeRecordDataWithOrganization
         [mkField "organization_id" (StringValue "victim"); mkField " p" (IntValue 1); mkField "q" (IntValue 2)]
         "attacker") "organization_id" = Some (StringValue "victim").
Proof. by vm_compute. Qed.

(** A query planned from a record query matches a record's data exactly
    when the data matches the record query's filters that name a field and a
    scalar value; so when all filters do, plan and record query agree. *)
Theorem query_plan_agrees org q d :
  matchesPlannedFilters d (Plan (QueryFromRecordQuery org q)) =
  Matches d (filter (λ f, is_Some (queryFilterOf f)) (Filters q)).
Proof. apply matches_planned. Qed.

(** A filter on a value that is not a scalar is dropped, so the planned query
    matches records the record query rejects. *)
Theorem non_scalar_filter_dropped :
  let q := mkQuery [mkFilter "tags" (RawValue "[1]")] 0 in
  Matches [] (Filters q) = false ∧ matchesPlannedFilters [] (Plan (QueryFromRecordQuery "org_1" q)) = true.
Proof. by vm_compute. Qed.
