(* ===== verification/Bitmap.v ===== *)
(** * Bitmap: the packed bit vectors of the columnar engine

    Models [hermes/columnar_bitmap.go], the interleaved word kernels of
    [hermes/columnar_mlp.go] and the dispatch seam of
    [hermes/bitmap_dispatch.go].  The seam is a type class: an installed hook
    may claim a kernel call, and its documented contract is that its result is
    bit-identical to the scalar kernel.  The reserved capacity of a word slice
    is not observable (growing clears it), so a bitmap is its visible words. *)

From Stdlib Require Import ZArith Lia Sorting.Sorted.
From stdpp Require Import base sets numbers list sorting.
From S2P Require Import Prelude Words.

(** ** Word kernels *)

Inductive BitmapOp := BitmapAnd | BitmapOr | BitmapAndNot.

Definition wordOp (op : BitmapOp) : Z → Z → Z :=
  match op with BitmapAnd => Z.land | BitmapOr => Z.lor | BitmapAndNot => Z.ldiff end.

(** The installed hooks; [None] hands the call back to the scalar loop. *)
Class BitmapHooks := {
  tryCount : list Z → option Z;
  tryBinary : BitmapOp → list Z → list Z → option (list Z)
}.

(** What a hook promises: bit-identical results. *)
Class BitmapHooksOk (H : BitmapHooks) : Prop := {
  try_count_ok ws c : tryCount ws = Some c → c = zsum (map onesCount64 ws);
  try_binary_ok op dst src r :
    tryBinary op dst src = Some r → r = zip_with (wordOp op) dst src
}.

(** No hook installed. *)
#[export] Instance noHooks : BitmapHooks | 100 :=
  {| tryCount _ := None; tryBinary _ _ _ := None |}.

#[export] Instance noHooks_ok : BitmapHooksOk noHooks.
Proof. by split. Qed.

(** The tail loop: one word at a time. *)
Fixpoint countTail (ws : list Z) (total : Z) : Z :=
  match ws with [] => total | w :: rest => countTail rest (total + onesCount64 w) end.

(** The four-lane loop, with its four accumulators, then the tail. *)
Fixpoint count4 (ws : list Z) (c0 c1 c2 c3 : Z) : Z :=
  match ws with
  | w0 :: w1 :: w2 :: w3 :: rest =>
      count4 rest (c0 + onesCount64 w0) (c1 + onesCount64 w1) (c2 + onesCount64 w2) (c3 + onesCount64 w3)
  | _ => countTail ws ((c0 + c1) + (c2 + c3))
  end.

Fixpoint binaryTail (f : Z → Z → Z) (dst src : list Z) : list Z :=
  match dst, src with
  | d :: dst', s :: src' => f d s :: binaryTail f dst' src'
  | _, _ => dst
  end.

Fixpoint binary4 (f : Z → Z → Z) (dst src : list Z) : list Z :=
  match dst, src with
  | d0 :: d1 :: d2 :: d3 :: dst', s0 :: s1 :: s2 :: s3 :: src' =>
      f d0 s0 :: f d1 s1 :: f d2 s2 :: f d3 s3 :: binary4 f dst' src'
  | _, _ => binaryTail f dst src
  end.

Definition notWord (w : Z) : Z := u64 (Z.lnot w).

Fixpoint not4 (dst : list Z) : list Z :=
  match dst with
  | d0 :: d1 :: d2 :: d3 :: dst' => notWord d0 :: notWord d1 :: notWord d2 :: notWord d3 :: not4 dst'
  | _ => map notWord dst
  end.

Section Kernels.
Context {H : BitmapHooks}.

Definition popcountWords (ws : list Z) : Z :=
  match tryCount ws with Some c => c | None => count4 ws 0 0 0 0 end.

(** [src = src[:len(dst)]] panics when [src] is shorter: [None]. *)
Definition binaryWords (op : BitmapOp) (dst src : list Z) : option (list Z) :=
  if (length src <? length dst)%nat then None
  else
    let src := take (length dst) src in
    Some (match tryBinary op dst src with Some r => r | None => binary4 (wordOp op) dst src end).

Definition andWords := binaryWords BitmapAnd.
Definition orWords := binaryWords BitmapOr.
Definition andNotWords := binaryWords BitmapAndNot.
Definition notWords : list Z → list Z := not4.

(** ** Bitmaps *)

Record bitmap := mkBitmap { words : list Z; n : Z }.

Definition newBitmap (k : Z) : bitmap :=
  let k := if k <? 0 then 0 else k in
  mkBitmap (replicate (Z.to_nat ((k + 63) / 64)) 0) k.

Definition grow (b : bitmap) (newN : Z) : bitmap :=
  if newN <=? n b then b
  else
    let reqWords := Z.to_nat ((newN + 63) / 64) in
    mkBitmap (if (length (words b) <? reqWords)%nat
              then words b ++ replicate (reqWords - length (words b)) 0 else words b) newN.

Definition orBit (ws : list Z) (i : Z) : list Z :=
  alter (λ w, Z.lor w (Z.shiftl 1 (Z.land i 63))) (Z.to_nat (Z.shiftr i 6)) ws.

Definition set (b : bitmap) (i : Z) : bitmap :=
  if i <? 0 then b
  else
    let b := if n b <=? i then grow b (i + 1) else b in
    mkBitmap (orBit (words b) i) (n b).

Definition clear (b : bitmap) (i : Z) : bitmap :=
  if (i <? 0) || (n b <=? i) || (Z.of_nat (length (words b)) <=? Z.shiftr i 6) then b
  else mkBitmap (alter (λ w, Z.ldiff w (Z.shiftl 1 (Z.land i 63))) (Z.to_nat (Z.shiftr i 6)) (words b)) (n b).

Definition get (b : bitmap) (i : Z) : bool :=
  if (i <? 0) || (n b <=? i) then false
  else match words b !! Z.to_nat (Z.shiftr i 6) with
       | Some w => Z.land (Z.shiftr w (Z.land i 63)) 1 =? 1
       | None => false
       end.

Definition count (b : bitmap) : Z := popcountWords (words b).

Definition tailMask (b : bitmap) : bitmap :=
  if (n b =? 0) || (length (words b) =? 0)%nat then b
  else
    let rem := Z.land (n b) 63 in
    if rem =? 0 then b
    else mkBitmap (alter (λ w, Z.land w (Z.shiftl 1 rem - 1)) (length (words b) - 1)%nat (words b)) (n b).

(** [and], [or] and [andNot] report a shape error as [None]; on equal shapes
    the kernels do not panic. *)
Definition binaryOp (op : BitmapOp) (b other : bitmap) : option bitmap :=
  if n b =? n other then
    match binaryWords op (words b) (words other) with
    | Some ws => Some (mkBitmap ws (n b))
    | None => None
    end
  else None.

Definition not_ (b : bitmap) : bitmap := tailMask (mkBitmap (notWords (words b)) (n b)).

(** [None] is a nil slice. *)
Definition andClamped (b : bitmap) (ws : option (list Z)) : option bitmap :=
  match ws with
  | None => Some b
  | Some ws =>
      let k := Nat.min (length ws) (length (words b)) in
      match andWords (take k (words b)) (take k ws) with
      | Some r => Some (mkBitmap (r ++ replicate (length (words b) - k) 0) (n b))
      | None => None
      end
  end.

(** [bits.TrailingZeros64] *)
Definition trailingZeros64 (w : Z) : Z :=
  match list_find (λ i, Z.testbit w (Z.of_nat i) = true) (seq 0 64) with
  | Some (i, _) => Z.of_nat i
  | None => 64
  end.

(** The bit-scan of one word: [w &= w - 1] drops the lowest set bit, so 64
    rounds are enough. *)
Fixpoint scanWord (fuel : nat) (base w : Z) : list Z :=
  match fuel with
  | O => []
  | S fuel' =>
      if w =? 0 then [] else (base + trailingZeros64 w) :: scanWord fuel' base (Z.land w (w - 1))
  end.

Fixpoint scanWords (wi : Z) (ws : list Z) : list Z :=
  match ws with [] => [] | w :: rest => scanWord 64 (Z.shiftl wi 6) w ++ scanWords (wi + 1) rest end.

(** What [forEachSet] visits, in order. *)
Definition forEachSet (b : bitmap) : list Z := scanWords 0 (words b).

End Kernels.

(** ** The interleaved kernels compute the plain ones *)

Lemma count_tail_sum ws : ∀ t, countTail ws t = t + zsum (map onesCount64 ws).
Proof. induction ws as [|w ws IH]; intros t; cbn [countTail map zsum]; [lia|]. rewrite IH. lia. Qed.

Lemma count4_sum ws : ∀ c0 c1 c2 c3,
  count4 ws c0 c1 c2 c3 = c0 + c1 + c2 + c3 + zsum (map onesCount64 ws).
Proof.
  remember (length ws) as k eqn:Hk. revert ws Hk. induction k as [k IH] using lt_wf_ind. intros ws ->.
  intros c0 c1 c2 c3. destruct ws as [|w0 [|w1 [|w2 [|w3 ws]]]]; cbn [count4];
    try (rewrite count_tail_sum; cbn [map zsum]; lia).
  rewrite (IH (length ws)) by (cbn; lia || done). cbn [map zsum]. lia.
Qed.

Lemma binary_tail_zip f dst : ∀ src, length dst = length src → binaryTail f dst src = zip_with f dst src.
Proof. induction dst as [|d dst IH]; intros [|s src] Hl; cbn in *; [done..|]. f_equal. apply IH. lia. Qed.

Lemma binary4_zip f dst : ∀ src, length dst = length src → binary4 f dst src = zip_with f dst src.
Proof.
  remember (length dst) as k eqn:Hk. revert dst Hk. induction k as [k IH] using lt_wf_ind.
  intros dst -> src Hl.
  destruct dst as [|d0 [|d1 [|d2 [|d3 dst]]]]; try (destruct src; by apply binary_tail_zip).
  destruct src as [|s0 [|s1 [|s2 [|s3 src]]]]; cbn in Hl; try lia. cbn [binary4 zip_with].
  do 4 f_equal. apply (IH (length dst)); [cbn; lia|done|lia].
Qed.

Lemma not4_map ws : not4 ws = map notWord ws.
Proof.
  remember (length ws) as k eqn:Hk. revert ws Hk. induction k as [k IH] using lt_wf_ind. intros ws ->.
  destruct ws as [|w0 [|w1 [|w2 [|w3 ws]]]]; cbn [not4 map]; [done..|].
  do 4 f_equal. apply (IH (length ws)); [cbn; lia|done].
Qed.

Section Specs.
Context `{Hok : BitmapHooksOk}.

Lemma popcount_sum ws : popcountWords ws = zsum (map onesCount64 ws).
Proof using Hok.
  unfold popcountWords. destruct (tryCount ws) as [c|] eqn:E; [by apply try_count_ok|].
  rewrite count4_sum. lia.
Qed.

Lemma binary_words_zip op dst src : (length dst ≤ length src)%nat →
  binaryWords op dst src = Some (zip_with (wordOp op) dst src).
Proof using Hok.
  intros Hl. unfold binaryWords. rewrite (proj2 (Nat.ltb_ge _ _)) by done. f_equal.
  assert (zip_with (wordOp op) dst (take (length dst) src) = zip_with (wordOp op) dst src) as Hz.
  { revert src Hl. induction dst as [|d dst IH]; intros [|s src] Hl; cbn in *; [done|done|lia|].
    f_equal. apply IH. lia. }
  destruct (tryBinary op dst (take (length dst) src)) as [r|] eqn:E.
  - apply try_binary_ok in E as ->. done.
  - rewrite binary4_zip; [done|]. rewrite length_take. lia.
Qed.

(** ** Reading bitmaps *)

(** The invariant every operation keeps: as many words as the bits need, words
    that are uint64, no bit at or above [n]. *)
Record wf (b : bitmap) : Prop := {
  wf_n : 0 ≤ n b;
  wf_len : length (words b) = Z.to_nat ((n b + 63) / 64);
  wf_words : Forall in_u64 (words b);
  wf_tail : ∀ i, n b ≤ i → getWord (words b) (Z.to_nat i) = false
}.

Lemma word_index i : 0 ≤ i → Z.to_nat (Z.shiftr i 6) = (Z.to_nat i / 64)%nat.
Proof.
  intros Hi. rewrite shiftr_6. rewrite Z2Nat.inj_div by lia. done.
Qed.

Lemma bit_index i : 0 ≤ i → Z.land i 63 = Z.of_nat (Z.to_nat i mod 64).
Proof. intros Hi. rewrite land_63 by done. rewrite Nat2Z.inj_mod. by rewrite Z2Nat.id. Qed.

Lemma get_get_word b i : wf b → get b i = if i <? 0 then false else getWord (words b) (Z.to_nat i).
Proof.
  intros Hw. unfold get. destruct (Z.ltb_spec i 0); [done|]. cbn [orb].
  destruct (Z.leb_spec (n b) i) as [Hge|Hlt]; [by rewrite (wf_tail b Hw)|].
  unfold getWord. rewrite word_index by done. destruct (words b !! _); [|done].
  rewrite bit_index, land_1_eqb, Z.shiftr_spec by done. by rewrite Z.add_0_l.
Qed.

Lemma get_word_lookup_None ws a : (64 * length ws ≤ a)%nat → getWord ws a = false.
Proof.
  intros Ha. unfold getWord. rewrite lookup_ge_None_2; [done|]. by apply Nat.div_le_lower_bound.
Qed.

Lemma get_word_replicate k a : getWord (replicate k 0) a = false.
Proof.
  unfold getWord. destruct (replicate k 0 !! _) eqn:E; [|done].
  apply lookup_replicate in E as [-> _]. apply Z.bits_0.
Qed.

Lemma get_word_app_zero ws k a : getWord (ws ++ replicate k 0) a = getWord ws a.
Proof.
  unfold getWord. destruct (decide (a / 64 < length ws)%nat).
  - by rewrite lookup_app_l.
  - rewrite lookup_app_r, (lookup_ge_None_2 ws) by lia. destruct (replicate k 0 !! _) eqn:E; [|done].
    apply lookup_replicate in E as [-> _]. apply Z.bits_0.
Qed.

Lemma wf_new k : wf (newBitmap k).
Proof.
  unfold newBitmap. destruct (Z.ltb_spec k 0); split; cbn [words n]; try lia;
    rewrite ?length_replicate; try done; try (apply Forall_replicate; zrange);
    intros; apply get_word_replicate.
Qed.

Lemma bitmap_get_new k i : get (newBitmap k) i = false.
Proof.
  rewrite get_get_word by apply wf_new. destruct (i <? 0); [done|]. apply get_word_replicate.
Qed.

Lemma wf_grow b m : wf b → wf (grow b m).
Proof.
  intros [H0 Hl Hw Ht]. unfold grow. destruct (Z.leb_spec m (n b)); [by split|].
  assert (length (words b) ≤ Z.to_nat ((m + 63) / 64))%nat as Hle.
  { rewrite Hl. apply Z2Nat.inj_le; [apply Z.div_pos; lia|apply Z.div_pos; lia|apply Z.div_le_mono; lia]. }
  destruct (Nat.ltb_spec (length (words b)) (Z.to_nat ((m + 63) / 64))) as [Hlt|Hge]; split; cbn [words n].
  - lia.
  - rewrite length_app, length_replicate. lia.
  - apply Forall_app. split; [done|]. apply Forall_replicate. zrange.
  - intros i Hi. rewrite get_word_app_zero. apply Ht. lia.
  - lia.
  - lia.
  - done.
  - intros i Hi. apply Ht. lia.
Qed.

Lemma get_grow b m i : wf b → get (grow b m) i = get b i.
Proof.
  intros Hw. rewrite !get_get_word by eauto using wf_grow. destruct (i <? 0); [done|].
  unfold grow. destruct (m <=? n b); [done|]. cbn [words].
  destruct (_ <? _)%nat; [apply get_word_app_zero|done].
Qed.

Lemma get_word_alter f ws i a :
  getWord (alter f (i / 64)%nat ws) a =
  if decide (i / 64 = a / 64)%nat
  then match ws !! (i / 64)%nat with
       | Some w => Z.testbit (f w) (Z.of_nat (a mod 64)) | None => false end
  else getWord ws a.
Proof.
  unfold getWord. destruct (decide (i / 64 = a / 64)%nat) as [->|Hne].
  - rewrite list_lookup_alter_eq. by destruct (ws !! _).
  - by rewrite list_lookup_alter_ne.
Qed.

Lemma same_bit i a : (i / 64 = a / 64)%nat → (i mod 64 = a mod 64)%nat ↔ i = a.
Proof.
  intros Hd. pose proof (Nat.div_mod i 64). pose proof (Nat.div_mod a 64). split; [lia|congruence].
Qed.

Lemma get_word_or_bit ws i a : (i / 64 < length ws)%nat →
  getWord (orBit ws (Z.of_nat i)) a = (i =? a)%nat || getWord ws a.
Proof.
  intros Hl. unfold orBit. rewrite word_index, bit_index, !Nat2Z.id, get_word_alter by lia.
  destruct (lookup_lt_is_Some_2 ws _ Hl) as [w Hw]. rewrite Hw.
  destruct (decide (i / 64 = a / 64)%nat) as [Hd|Hd].
  - rewrite Z.lor_spec, Z.shiftl_1_l, Z.pow2_bits_eqb by lia. unfold getWord. rewrite <- Hd, Hw, orb_comm. f_equal.
    apply Bool.eq_iff_eq_true. rewrite Z.eqb_eq, Nat.eqb_eq, <- (same_bit i a Hd). lia.
  - destruct (Nat.eqb_spec i a) as [->|]; done.
Qed.

Lemma in_u64_words_alter f ws k : Forall in_u64 ws → (∀ w, in_u64 w → in_u64 (f w)) →
  Forall in_u64 (alter f k ws).
Proof.
  intros Hw Hf. apply Forall_lookup. intros j w Hj. destruct (decide (j = k)) as [->|Hne].
  - rewrite list_lookup_alter_eq in Hj. destruct (ws !! k) as [v|] eqn:Ev; [|done]. injection Hj as <-.
    apply Hf. by apply (Forall_lookup_1 _ _ _ _ Hw Ev).
  - rewrite list_lookup_alter_ne in Hj by done. by apply (Forall_lookup_1 _ _ _ _ Hw Hj).
Qed.

(** Bits below [n] have their word. *)
Lemma word_exists b i : wf b → 0 ≤ i < n b → (Z.to_nat i / 64 < length (words b))%nat.
Proof.
  intros [H0 Hl _ _] Hi. rewrite Hl. rewrite <- (Nat2Z.id (Z.to_nat i / 64)), Nat2Z.inj_div, Z2Nat.id by lia.
  apply Z2Nat.inj_lt; [apply Z.div_pos; lia|apply Z.div_pos; lia|].
  change (Z.of_nat 64) with 64. apply Z.div_lt_upper_bound; [lia|].
  pose proof (Z.div_mod (n b + 63) 64). pose proof (Z.mod_pos_bound (n b + 63) 64). lia.
Qed.

Lemma set_in_range b i : wf b → 0 ≤ i < n b →
  wf (mkBitmap (orBit (words b) i) (n b)) ∧
  ∀ j, 0 ≤ j → getWord (orBit (words b) i) (Z.to_nat j) = (i =? j) || getWord (words b) (Z.to_nat j).
Proof.
  intros Hw Hi. pose proof (word_exists b i Hw Hi) as He.
  assert (∀ j, 0 ≤ j → getWord (orBit (words b) i) (Z.to_nat j) = (i =? j) || getWord (words b) (Z.to_nat j)) as Hg.
  { intros j Hj. rewrite <- (Z2Nat.id i) at 1 by lia. rewrite get_word_or_bit by done. f_equal.
    destruct (Z.eqb_spec i j), (Nat.eqb_spec (Z.to_nat i) (Z.to_nat j)); lia. }
  split; [|done]. destruct Hw as [H0 Hl Hu Ht]. split; cbn [words n].
  - done.
  - unfold orBit. by rewrite length_alter.
  - apply in_u64_words_alter; [done|]. intros w Hwu. apply in_u64_lor; [done|]. apply in_u64_bit.
    rewrite land_63 by lia. by apply Z.mod_pos_bound.
  - intros j Hj. rewrite Hg by lia. rewrite Ht by done. destruct (Z.eqb_spec i j); [lia|done].
Qed.

Lemma set_spec b i : wf b → 0 ≤ i →
  wf (set b i) ∧ ∀ j, get (set b i) j = (i =? j) || get b j.
Proof.
  intros Hw Hi. unfold set. rewrite (proj2 (Z.ltb_ge i 0)) by done.
  set (b' := if n b <=? i then grow b (i + 1) else b).
  assert (wf b' ∧ i < n b' ∧ ∀ j, get b' j = get b j) as (Hw' & Hn & Hg).
  { unfold b'. destruct (Z.leb_spec (n b) i) as [Hle|Hlt]; [|done].
    split_and!; [by apply wf_grow| |intros; by apply get_grow].
    unfold grow. destruct (Z.leb_spec (i + 1) (n b)); cbn; lia. }
  destruct (set_in_range b' i Hw' ltac:(lia)) as [Hws Hgs]. split; [done|]. intros j.
  rewrite <- Hg, !get_get_word by done. destruct (Z.ltb_spec j 0).
  - destruct (Z.eqb_spec i j); [lia|done].
  - by apply Hgs.
Qed.

Lemma clear_spec b i : wf b → wf (clear b i) ∧ ∀ j, get (clear b i) j = negb (i =? j) && get b j.
Proof.
  intros Hw. unfold clear. destruct (Z.ltb_spec i 0) as [Hneg|Hpos]; cbn [orb].
  { split; [done|]. intros j. destruct (Z.eqb_spec i j) as [<-|]; [|done]. cbn.
    rewrite get_get_word by done. by rewrite (proj2 (Z.ltb_lt _ _)). }
  destruct (Z.leb_spec (n b) i) as [Hge|Hlt]; cbn [orb].
  { split; [done|]. intros j. destruct (Z.eqb_spec i j) as [<-|]; [|done]. cbn.
    rewrite get_get_word by done. rewrite (wf_tail b Hw) by done. by destruct (_ <? _). }
  pose proof (word_exists b i Hw ltac:(lia)) as He.
  destruct (Z.leb_spec (Z.of_nat (length (words b))) (Z.shiftr i 6)) as [Hbad|_].
  { rewrite <- word_index in He by lia. rewrite shiftr_6 in *. pose proof (Z.div_pos i 64). lia. }
  assert (∀ a, getWord (alter (λ w, Z.ldiff w (Z.shiftl 1 (Z.land i 63))) (Z.to_nat (Z.shiftr i 6)) (words b)) a
               = negb (Z.to_nat i =? a)%nat && getWord (words b) a) as Hg.
  { intros a. rewrite word_index, bit_index, get_word_alter by done.
    destruct (lookup_lt_is_Some_2 (words b) _ He) as [w Hww]. rewrite Hww.
    destruct (decide (Z.to_nat i / 64 = a / 64)%nat) as [Hd|Hd].
    - rewrite Z.ldiff_spec, Z.shiftl_1_l, Z.pow2_bits_eqb by lia. unfold getWord. rewrite <- Hd, Hww, andb_comm.
      f_equal. f_equal. apply Bool.eq_iff_eq_true. rewrite Z.eqb_eq, Nat.eqb_eq, <- (same_bit _ a Hd). lia.
    - destruct (Nat.eqb_spec (Z.to_nat i) a) as [<-|]; done. }
  assert (wf (mkBitmap (alter (λ w, Z.ldiff w (Z.shiftl 1 (Z.land i 63))) (Z.to_nat (Z.shiftr i 6)) (words b)) (n b)))
    as Hw'.
  { destruct Hw as [H0 Hl Hu Ht]. split; cbn [words n].
    - done.
    - by rewrite length_alter.
    - apply in_u64_words_alter; [done|]. intros w Hwu. apply in_u64_ldiff; [done|]. apply in_u64_bit.
      rewrite land_63 by lia. by apply Z.mod_pos_bound.
    - intros j Hj. rewrite Hg, Ht by done. apply andb_false_r. }
  split; [done|]. intros j. rewrite !get_get_word by done. destruct (Z.ltb_spec j 0); [by rewrite andb_false_r|].
  cbn [words]. rewrite Hg. f_equal. f_equal. destruct (Z.eqb_spec i j), (Nat.eqb_spec (Z.to_nat i) (Z.to_nat j)); lia.
Qed.

(** ** Scanning *)

Lemma trailing_zeros_spec w : in_u64 w → w ≠ 0 →
  0 ≤ trailingZeros64 w < 64 ∧ Z.testbit w (trailingZeros64 w) = true ∧
  ∀ i, 0 ≤ i < trailingZeros64 w → Z.testbit w i = false.
Proof.
  intros Hu Hw. unfold trailingZeros64.
  destruct (list_find _ (seq 0 64)) as [[i k]|] eqn:E.
  - apply list_find_Some in E as (Hi & Hb & Hmin). rewrite lookup_seq in Hi. destruct Hi as [-> Hlt]. rewrite Nat.add_0_l in *.
    split_and!; [lia|lia|done|]. intros j Hj. apply not_true_iff_false.
    specialize (Hmin (Z.to_nat j) (Z.to_nat j)). rewrite lookup_seq, Z2Nat.id in Hmin by lia.
    apply Hmin; lia.
  - exfalso. apply Hw. apply Z.bits_inj_0. intros j. destruct (Z.lt_ge_cases j 0) as [Hn|Hp].
    { by apply Z.testbit_neg_r. }
    destruct (Z.lt_ge_cases j 64) as [Hlt|Hge]; [|by apply in_u64_testbit].
    apply list_find_None in E. apply not_true_iff_false. rewrite Forall_forall in E.
    rewrite <- (Z2Nat.id j) by lia. apply E. apply elem_of_seq. lia.
Qed.

(** [w & (w-1)] clears exactly the lowest set bit. *)
Lemma land_pred w t : 0 ≤ t → 0 ≤ w → Z.testbit w t = true → (∀ i, 0 ≤ i < t → Z.testbit w i = false) →
  ∀ i, 0 ≤ i → Z.testbit (Z.land w (w - 1)) i = negb (i =? t) && Z.testbit w i.
Proof.
  intros Ht Hw Hb Hlow i Hi. rewrite Z.land_spec.
  assert (0 < 2 ^ t) by (apply Z.pow_pos_nonneg; lia).
  assert (w mod 2 ^ t = 0) as Hm0.
  { apply Z.bits_inj_0. intros j. destruct (Z.lt_ge_cases j 0) as [?|Hj]; [by apply Z.testbit_neg_r|].
    rewrite Z.testbit_mod_pow2 by lia. destruct (Z.ltb_spec j t) as [Hjt|]; [|done]. cbn. by apply Hlow. }
  assert (∃ k, w = 2 ^ t * (2 * k + 1)) as [k Hk].
  { rewrite Z.testbit_true in Hb by done. exists (w / 2 ^ t / 2).
    pose proof (Z.div_mod w (2 ^ t)). pose proof (Z.div_mod (w / 2 ^ t) 2). lia. }
  destruct (Z.eqb_spec i t) as [->|Hne]; cbn [negb andb].
  - rewrite Hb. cbn. replace (w - 1) with (2 ^ t - 1 + 2 * k * 2 ^ t) by lia.
    apply not_true_iff_false. rewrite Z.testbit_true, Z.div_add, Z.div_small by lia.
    rewrite Z.add_0_l, Z.mul_comm, Z.mod_mul; lia.
  - destruct (Z.lt_ge_cases i t) as [Hlt|Hgt]; [by rewrite Hlow|].
    assert (Z.testbit (w - 1) i = Z.testbit w i) as ->; [|by destruct (Z.testbit w i)].
    replace i with (i - (t + 1) + (t + 1)) by lia.
    rewrite <- !Z.shiftr_spec by lia. f_equal. rewrite !Z.shiftr_div_pow2 by lia.
    rewrite Z.pow_add_r, Z.pow_1_r by lia.
    replace (w - 1) with (2 ^ t - 1 + k * (2 ^ t * 2)) by lia.
    replace w with (2 ^ t + k * (2 ^ t * 2)) at 1 by lia.
    rewrite !Z.div_add, !Z.div_small by lia. done.
Qed.

Definition popLow (w : Z) : nat := length (filter (λ i, Z.testbit w (Z.of_nat i) = true) (seq 0 64)).

Lemma pop_low_lt w : in_u64 w → w ≠ 0 → (popLow (Z.land w (w - 1)) < popLow w)%nat ∧ in_u64 (Z.land w (w - 1)).
Proof.
  intros Hu Hw. destruct (trailing_zeros_spec w Hu Hw) as (Ht & Hb & Hlow).
  set (t := trailingZeros64 w) in *.
  pose proof (land_pred w t ltac:(lia) ltac:(unfold in_u64 in Hu; lia) Hb Hlow) as Hl.
  split; [|apply in_u64_land; [done|unfold in_u64 in *; lia]].
  unfold popLow. assert (∀ l, Forall (λ i, (i < 64)%nat) l →
    length (filter (λ i, Z.testbit (Z.land w (w - 1)) (Z.of_nat i) = true) l) ≤
    length (filter (λ i, Z.testbit w (Z.of_nat i) = true) l) ∧
    (Z.to_nat t ∈ l → length (filter (λ i, Z.testbit (Z.land w (w - 1)) (Z.of_nat i) = true) l) <
    length (filter (λ i, Z.testbit w (Z.of_nat i) = true) l)))%nat as Hgen.
  { induction 1 as [|i l Hi Hf [IH1 IH2]]; [split; [done|set_solver]|]. rewrite !filter_cons, Hl by lia.
    destruct (Z.eqb_spec (Z.of_nat i) t) as [Heq|Hne]; cbn [negb andb].
    - rewrite decide_False by done. rewrite decide_True by (by rewrite Heq). cbn. split; [lia|]. lia.
    - destruct (decide (Z.testbit w (Z.of_nat i) = true)); cbn; (split; [lia|]);
        intros [Heq|Hin]%elem_of_cons; try lia; specialize (IH2 Hin); lia. }
  apply Hgen; [|apply elem_of_seq; lia]. apply Forall_forall. intros i Hi%elem_of_seq. lia.
Qed.

Lemma scan_word_spec fuel base w : in_u64 w → (popLow w ≤ fuel)%nat →
  StronglySorted Z.lt (scanWord fuel base w) ∧
  ∀ x, x ∈ scanWord fuel base w ↔ ∃ i, 0 ≤ i < 64 ∧ x = base + i ∧ Z.testbit w i = true.
Proof.
  revert w. induction fuel as [|fuel IH]; intros w Hu Hp; cbn [scanWord].
  - split; [constructor|]. intros x. split; [by intros ?%elem_of_nil|]. intros (i & Hi & _ & Hb). exfalso.
    destruct (decide (w = 0)) as [->|Hw]; [by rewrite Z.bits_0 in Hb|].
    destruct (pop_low_lt w Hu Hw). lia.
  - destruct (Z.eqb_spec w 0) as [->|Hw].
    { split; [constructor|]. intros x. split; [by intros ?%elem_of_nil|].
      intros (i & _ & _ & Hb). by rewrite Z.bits_0 in Hb. }
    destruct (pop_low_lt w Hu Hw) as [Hlt Hu']. destruct (IH _ Hu' ltac:(lia)) as [Hs Hin].
    destruct (trailing_zeros_spec w Hu Hw) as (Ht & Hb & Hlow). set (t := trailingZeros64 w) in *.
    pose proof (land_pred w t ltac:(lia) ltac:(unfold in_u64 in Hu; lia) Hb Hlow) as Hl. split.
    + apply StronglySorted_cons. split; [|done]. apply Forall_forall. intros x (i & Hi & -> & Hbi)%Hin.
      rewrite Hl in Hbi by lia. apply andb_true_iff in Hbi as [Hne%negb_true_iff%Z.eqb_neq Hbi].
      destruct (Z.lt_ge_cases i t) as [Hlt'|]; [by rewrite Hlow in Hbi by lia|lia].
    + intros x. rewrite elem_of_cons, Hin. split.
      * intros [->|(i & Hi & -> & Hbi)]; [by exists t|]. exists i. rewrite Hl in Hbi by lia.
        apply andb_true_iff in Hbi as [_ ?]. done.
      * intros (i & Hi & -> & Hbi). destruct (decide (i = t)) as [->|Hne]; [by left|]. right. exists i.
        split_and!; [lia|lia|done|]. rewrite Hl by lia. apply andb_true_iff.
        split; [by apply negb_true_iff, Z.eqb_neq|done].
Qed.
Lemma pop_low_64 w : (popLow w ≤ 64)%nat.
Proof. unfold popLow. etrans; [apply length_filter|]. by rewrite length_seq. Qed.

Lemma scan_words_spec ws : ∀ k, Forall in_u64 ws → 0 ≤ k →
  StronglySorted Z.lt (scanWords k ws) ∧
  ∀ x, x ∈ scanWords k ws ↔ 64 * k ≤ x ∧ getWord ws (Z.to_nat (x - 64 * k)) = true.
Proof.
  induction ws as [|w ws IH]; intros k Hu Hk; cbn [scanWords].
  { split; [constructor|]. intros x. split; [by intros ?%elem_of_nil|by intros [_ ?]]. }
  apply Forall_cons_iff in Hu as [Hw Hu]. destruct (IH (k + 1) Hu ltac:(lia)) as [Hs2 Hin2].
  destruct (scan_word_spec 64 (Z.shiftl k 6) w Hw (pop_low_64 w)) as [Hs1 Hin1].
  rewrite Z.shiftl_mul_pow2 in * by lia. change (2 ^ 6) with 64 in *. split.
  - apply StronglySorted_app. split_and!; [|done|done].
    intros x y (i & Hi & -> & _)%Hin1 [Hy _]%Hin2. lia.
  - intros x. rewrite elem_of_app, Hin1, Hin2.
    assert (64 * k ≤ x → getWord (w :: ws) (Z.to_nat (x - 64 * k)) =
      if x <? 64 * k + 64 then Z.testbit w (x - 64 * k) else getWord ws (Z.to_nat (x - 64 * (k + 1)))) as Hg.
    { intros Hx. unfold getWord. destruct (Z.ltb_spec x (64 * k + 64)).
      - rewrite Nat.div_small, Nat.mod_small by lia. cbn. f_equal. lia.
      - replace (Z.to_nat (x - 64 * k)) with (Z.to_nat (x - 64 * (k + 1)) + 1 * 64)%nat by lia.
        rewrite Nat.div_add, Nat.Div0.mod_add, Nat.add_1_r by lia. done. }
    split.
    + intros [(i & Hi & -> & Hb)|[Hx Hb]].
      * split; [lia|]. rewrite Hg, (proj2 (Z.ltb_lt _ _)) by lia. by replace (k * 64 + i - 64 * k) with i by lia.
      * split; [lia|]. rewrite Hg, (proj2 (Z.ltb_ge _ _)) by lia. done.
    + intros [Hx Hb]. rewrite Hg in Hb by done. destruct (Z.ltb_spec x (64 * k + 64)).
      * left. exists (x - 64 * k). split_and!; [lia|lia|lia|done].
      * right. split; [lia|done].
Qed.

Lemma for_each_set_spec b : wf b →
  StronglySorted Z.lt (forEachSet b) ∧ ∀ i, i ∈ forEachSet b ↔ get b i = true.
Proof.
  intros Hw. destruct (scan_words_spec (words b) 0 (wf_words b Hw) ltac:(lia)) as [Hs Hin].
  split; [done|]. intros i. unfold forEachSet. rewrite Hin, get_get_word by done.
  rewrite Z.mul_0_r, Z.sub_0_r. destruct (Z.ltb_spec i 0); [|naive_solver lia]. split; [lia|done].
Qed.

Lemma strongly_sorted_lt_nodup (l : list Z) : StronglySorted Z.lt l → NoDup l.
Proof.
  induction l as [|x l IH]; [constructor|]. intros [Hx Hs]%StronglySorted_cons. apply NoDup_cons.
  split; [|by apply IH]. intros Hin. rewrite Forall_forall in Hx. specialize (Hx x Hin). lia.
Qed.

(** ** Counting and intersecting *)

Lemma count_spec b : wf b → count b = Z.of_nat (length (forEachSet b)).
Proof using Hok.
  intros Hw. unfold count. rewrite popcount_sum, ones_count_words. f_equal.
  destruct (for_each_set_spec b Hw) as [Hs Hin].
  rewrite <- (length_fmap Z.of_nat). apply Permutation_length, NoDup_Permutation.
  - apply NoDup_fmap_2; [apply _|]. apply NoDup_filter, NoDup_seq.
  - by apply strongly_sorted_lt_nodup.
  - intros x. rewrite Hin, get_get_word by done. rewrite list_elem_of_fmap. split.
    + intros (a & -> & [Ha _]%list_elem_of_filter). rewrite (proj2 (Z.ltb_ge _ _)), Nat2Z.id by lia. done.
    + destruct (Z.ltb_spec x 0); [done|]. intros Hg. exists (Z.to_nat x). split; [lia|].
      apply list_elem_of_filter. split; [done|]. apply elem_of_seq. split; [lia|].
      apply Nat.nle_gt. intros Hge. rewrite get_word_lookup_None in Hg by lia. done.
Qed.

Lemma count_zero b : wf b → count b = 0 ↔ ∀ i, get b i = false.
Proof using Hok.
  intros Hw. rewrite (count_spec b Hw). destruct (for_each_set_spec b Hw) as [_ Hin]. split.
  - intros Hl i. apply not_true_iff_false. rewrite <- Hin. destruct (forEachSet b); [by intros ?%elem_of_nil|].
    cbn in Hl. lia.
  - intros H'. destruct (forEachSet b) as [|x l]; [done|].
    assert (get b x = true) as Hx by (apply Hin; set_solver). by rewrite H' in Hx.
Qed.

Lemma get_word_zip_land ws vs a : length ws = length vs →
  getWord (zip_with Z.land ws vs) a = getWord ws a && getWord vs a.
Proof.
  intros Hl. unfold getWord. rewrite lookup_zip_with.
  destruct (ws !! (a / 64)%nat) as [w|] eqn:E1, (vs !! (a / 64)%nat) as [v|] eqn:E2; simpl; try done.
  - apply Z.land_spec.
  - by rewrite andb_false_r.
Qed.

(** The clamped intersection never panics, reads the source as zero past its
    end, and keeps the receiver's shape. *)
Lemma and_clamped_spec b ws : wf b → Forall in_u64 ws →
  ∃ r, andClamped b (Some ws) = Some r ∧ wf r ∧ n r = n b ∧
  ∀ i, get r i = get b i && getWord ws (Z.to_nat i).
Proof using Hok.
  intros Hw Hu. unfold andClamped, andWords. set (k := Nat.min (length ws) (length (words b))).
  rewrite binary_words_zip by (rewrite !length_take; lia). eexists. split; [done|].
  assert (∀ a, getWord (zip_with (wordOp BitmapAnd) (take k (words b)) (take k ws) ++
                        replicate (length (words b) - k) 0) a = getWord (words b) a && getWord ws a) as Hg.
  { intros a. rewrite get_word_app_zero. cbn [wordOp]. rewrite get_word_zip_land by (rewrite !length_take; lia).
    unfold getWord. destruct (decide (a / 64 < k)%nat).
    - by rewrite !lookup_take_lt by lia.
    - rewrite !lookup_take_ge by lia. cbn [andb]. destruct (words b !! (a / 64)%nat) eqn:E1, (ws !! (a / 64)%nat) eqn:E2; rewrite ?andb_false_r; try done.
      apply lookup_lt_Some in E1, E2. unfold k in *. lia. }
  assert (wf (mkBitmap (zip_with (wordOp BitmapAnd) (take k (words b)) (take k ws) ++
                        replicate (length (words b) - k) 0) (n b))) as Hw'.
  { pose proof Hw as [H0 Hl Hwu Ht]. split; cbn [words n].
    - done.
    - rewrite length_app, length_zip_with, !length_take, length_replicate. lia.
    - apply Forall_app. split; [|apply Forall_replicate; zrange]. apply Forall_lookup. intros i x Hx.
      rewrite lookup_zip_with_Some in Hx. destruct Hx as (u & v & -> & Hu1 & Hv1).
      apply lookup_take_Some in Hu1 as [Hu1 _]. apply lookup_take_Some in Hv1 as [Hv1 _].
      apply in_u64_land; [by apply (Forall_lookup_1 _ _ _ _ Hwu Hu1)|by apply (Forall_lookup_1 _ _ _ _ Hu Hv1)].
    - intros i Hi. rewrite Hg, Ht by done. done. }
  split_and!; [done|done|]. intros i. rewrite !get_get_word by done. destruct (Z.ltb_spec i 0); [done|].
  cbn [words]. apply Hg.
Qed.

(** ** Complement *)

Lemma not_word_bit w i : 0 ≤ i < 64 → Z.testbit (notWord w) i = negb (Z.testbit w i).
Proof.
  intros Hi. unfold notWord, u64. rewrite Z.testbit_mod_pow2 by lia.
  rewrite (proj2 (Z.ltb_lt _ _)), Z.lnot_spec by lia. done.
Qed.

Lemma get_word_not ws a : (a / 64 < length ws)%nat → getWord (map notWord ws) a = negb (getWord ws a).
Proof.
  intros Hl. destruct (lookup_lt_is_Some_2 ws _ Hl) as [w Hw]. unfold getWord.
  rewrite list_lookup_fmap, Hw. cbn [fmap option_fmap option_map].
  pose proof (Nat.mod_upper_bound a 64). apply not_word_bit. lia.
Qed.

(** The last word holds the bits from [64 * (length - 1)] up to [n]. *)
Lemma last_word b : 0 ≤ n b → length (words b) = Z.to_nat ((n b + 63) / 64) → n b ≠ 0 →
  64 * (Z.of_nat (length (words b)) - 1) < n b ≤ 64 * Z.of_nat (length (words b)).
Proof.
  intros H0 Hl Hn. rewrite Hl, Z2Nat.id by (apply Z.div_pos; lia).
  pose proof (Z.div_mod (n b + 63) 64). pose proof (Z.mod_pos_bound (n b + 63) 64). lia.
Qed.

Lemma tail_mask_words b a : 0 ≤ n b → length (words b) = Z.to_nat ((n b + 63) / 64) →
  getWord (words (tailMask b)) a = (Z.of_nat a <? n b) && getWord (words b) a.
Proof.
  intros H0 Hl. unfold tailMask. destruct (Z.eqb_spec (n b) 0) as [E|Hn]; cbn [orb].
  { rewrite E in Hl. cbn in Hl. rewrite (nil_length_inv _ Hl), E. unfold getWord. rewrite lookup_nil.
    by rewrite andb_false_r. }
  pose proof (last_word b H0 Hl Hn) as Hlast.
  destruct (Nat.eqb_spec (length (words b)) 0) as [E|Hne]; [lia|].
  assert ((length (words b) ≤ a / 64)%nat → getWord (words b) a = false) as Hout.
  { intros Hge. unfold getWord. by rewrite lookup_ge_None_2. }
  pose proof (Nat.div_mod a 64) as Hdm. pose proof (Nat.mod_upper_bound a 64) as Hmod.
  rewrite land_63 by done. pose proof (Z.div_mod (n b) 64) as Hndm. pose proof (Z.mod_pos_bound (n b) 64) as Hnmod.
  destruct (Z.eqb_spec (n b mod 64) 0) as [Hr|Hr].
  - destruct (Z.ltb_spec (Z.of_nat a) (n b)) as [|Hge]; [done|]. cbn [andb]. apply Hout. lia.
  - cbn [words]. replace (length (words b) - 1)%nat with (64 * (length (words b) - 1) / 64)%nat
      by (rewrite Nat.mul_comm; by apply Nat.div_mul).
    rewrite get_word_alter. replace (64 * (length (words b) - 1) / 64)%nat with (length (words b) - 1)%nat
      by (rewrite Nat.mul_comm, Nat.div_mul by lia; done).
    destruct (decide (length (words b) - 1 = a / 64)%nat) as [Ha|Ha].
    + destruct (lookup_lt_is_Some_2 (words b) (length (words b) - 1) ltac:(lia)) as [w Hw].
      rewrite Hw, Z.land_spec. unfold getWord. rewrite <- Ha, Hw, andb_comm. f_equal.
      rewrite Z.shiftl_1_l. replace (2 ^ (n b mod 64) - 1) with (Z.ones (n b mod 64))
        by (rewrite Z.ones_equiv; lia).
      rewrite Z.testbit_ones_nonneg by lia.
      destruct (Z.ltb_spec (Z.of_nat (a mod 64)) (n b mod 64)), (Z.ltb_spec (Z.of_nat a) (n b)); lia.
    + destruct (Z.ltb_spec (Z.of_nat a) (n b)) as [|Hge]; [done|]. cbn [andb]. apply Hout. lia.
Qed.

Lemma not_spec b : wf b → wf (not_ b) ∧ ∀ i, get (not_ b) i = (0 <=? i) && (i <? n b) && negb (get b i).
Proof.
  intros Hw. pose proof Hw as [H0 Hl Hu Ht]. unfold not_, notWords. rewrite not4_map.
  set (b' := mkBitmap (map notWord (words b)) (n b)).
  assert (length (words b') = Z.to_nat ((n b' + 63) / 64)) as Hl' by (cbn; by rewrite length_fmap).
  pose proof (λ a, tail_mask_words b' a H0 Hl') as Hg. cbn [n words b'] in Hg.
  assert (n (tailMask b') = n b ∧ length (words (tailMask b')) = length (words b) ∧
          Forall in_u64 (words (tailMask b'))) as (En & El & Eu).
  { assert (Forall in_u64 (words b')) as Hu'.
    { cbn. apply Forall_fmap. eapply Forall_impl; [exact Hu|]. intros w _. apply u64_range. }
    unfold tailMask. destruct (_ || _); [cbn; by rewrite length_fmap|].
    destruct (Z.eqb_spec (Z.land (n b') 63) 0); [cbn; by rewrite length_fmap|]. cbn [n words].
    split_and!; [done|rewrite length_alter; apply length_fmap|].
    apply in_u64_words_alter; [done|]. intros w Hwu. apply in_u64_land; [done|].
    cbn [n b'] in *. rewrite land_63 in * by done. rewrite Z.shiftl_1_l. pose proof (Z.mod_pos_bound (n b) 64).
    assert (0 < 2 ^ (n b mod 64)) by (apply Z.pow_pos_nonneg; lia).
    assert (2 ^ (n b mod 64) ≤ 2 ^ 64) by (apply Z.pow_le_mono_r; lia). unfold in_u64. lia. }
  assert (wf (tailMask b')) as Hw'.
  { split; rewrite ?En, ?El; try done. intros i Hi. rewrite Hg.
    rewrite (proj2 (Z.ltb_ge _ _)); [done|]. rewrite Z2Nat.id by lia. lia. }
  split; [done|]. intros i. rewrite !get_get_word by done. destruct (Z.ltb_spec i 0).
  { by rewrite (proj2 (Z.leb_gt 0 i)). }
  rewrite (proj2 (Z.leb_le 0 i)), Hg, Z2Nat.id by lia. cbn [andb].
  destruct (Z.ltb_spec i (n b)) as [Hlt|]; [|done]. cbn [andb]. apply get_word_not.
  by apply word_exists.
Qed.

End Specs.

(** ** The contracts *)

(** Whatever hooks are installed, as long as they keep their bit-identical
    contract, the interleaved kernels compute the word-by-word results:
    population counts add up, the binary kernels panic exactly when the source
    is shorter than the destination and otherwise combine words pairwise, and
    the complement flips every word. *)
Theorem kernels_bit_identical (H : BitmapHooks) op dst src : BitmapHooksOk H →
  popcountWords dst = zsum (map onesCount64 dst) ∧
  binaryWords op dst src =
    (if (length src <? length dst)%nat then None else Some (zip_with (wordOp op) dst src)) ∧
  notWords dst = map notWord dst.
Proof.
  intros Hok. split_and!; [by apply popcount_sum| |apply not4_map].
  destruct (Nat.ltb_spec (length src) (length dst)) as [Hlt|Hge].
  - unfold binaryWords. by rewrite (proj2 (Nat.ltb_lt _ _)).
  - by apply binary_words_zip.
Qed.

(** A hook that claims long operands and computes them in its own way. *)
Definition demoHooks : BitmapHooks :=
  {| tryCount ws := if (2 <? length ws)%nat then Some (zsum (map onesCount64 ws)) else None;
     tryBinary op dst src := if (2 <? length dst)%nat then Some (zip_with (wordOp op) dst src) else None |}.

Lemma demoHooks_ok : BitmapHooksOk demoHooks.
Proof. split; cbn; intros; by case_match; simplify_eq. Qed.

Lemma kernels_bit_identical_witness :
  @binaryWords demoHooks BitmapAndNot [7; 7; 7; 7; 7] [1; 2; 4; 0; 7] = Some [6; 5; 3; 7; 0].
Proof.
  destruct (kernels_bit_identical demoHooks BitmapAndNot [7; 7; 7; 7; 7] [1; 2; 4; 0; 7] demoHooks_ok)
    as (_ & H & _). exact H.
Defined.

(** Bitmaps are finite sets of bit positions: [set] adds one position
    (growing the bitmap when needed), [clear] removes one, [not] complements
    within the bitmap's length, [count] is the number of members, and
    [forEachSet] lists exactly the members in ascending order; every operation
    keeps the invariant that no bit beyond the length is raised. *)
Theorem bitmap_is_a_set (H : BitmapHooks) b i : BitmapHooksOk H → wf b → 0 ≤ i →
  (wf (set b i) ∧ ∀ j, get (set b i) j = (i =? j) || get b j) ∧
  (wf (clear b i) ∧ ∀ j, get (clear b i) j = negb (i =? j) && get b j) ∧
  (wf (not_ b) ∧ ∀ j, get (not_ b) j = (0 <=? j) && (j <? n b) && negb (get b j)) ∧
  (StronglySorted Z.lt (forEachSet b) ∧ ∀ j, j ∈ forEachSet b ↔ get b j = true) ∧
  count b = Z.of_nat (length (forEachSet b)).
Proof.
  intros Hok Hw Hi. split_and!; try apply set_spec; try apply clear_spec; try apply not_spec;
    try apply for_each_set_spec; try apply count_spec; done.
Qed.

Lemma bitmap_is_a_set_witness : forEachSet (set (set (newBitmap 3) 70) 2) = [2; 70].
Proof.
  destruct (bitmap_is_a_set noHooks (newBitmap 3) 70 noHooks_ok (wf_new 3) ltac:(lia)) as ((Hw & _) & _).
  destruct (bitmap_is_a_set noHooks (set (newBitmap 3) 70) 2 noHooks_ok Hw ltac:(lia)) as (_ & _ & _ & _ & _).
  vm_compute. reflexivity.
Defined.
