(* ===== verification/BitmapIndex.v ===== *)
(** * BitmapIndex: the inverted bitmap index of one tenant scope

    Models [hermes/bitmap_index.go]: the slot maplet (a lossy accelerator),
    slot allocation, and the inverted bitmaps with their value cap.  The
    registry of scopes is a map; its locks make each method one step.  The
    scratch arena only provides memory for the intermediate bitmap and is not
    modelled. *)

From Stdlib Require Import ZArith Lia Ascii String Sorting.Sorted.
From stdpp Require Import base sets strings gmap numbers list sorting.
From S2P Require Import Prelude Words GoStrings RecordData HermesKeys Bitmap.

Open Scope string_scope.
Open Scope list_scope.
Open Scope Z_scope.

(** [forEachIndexedField]: the indexed scalar values of a record. *)
Abbreviation bitmapIndexKey := (string * ascii * string)%type.

Definition newBitmapIndexKey (field : string) (kind : ascii) (value : string) : bitmapIndexKey :=
  (field, kind, value).

Definition forEachIndexedField (rec : DomainRecord) (spec : ProjectionSpec) : list bitmapIndexKey :=
  omap (λ field,
    match Get (Data rec) field with
    | None => None
    | Some value => match ScalarIndex value with
                    | Some (kind, indexValue) => Some (newBitmapIndexKey field kind indexValue)
                    | None => None
                    end
    end) (IndexedFields spec).

(** ** The slot maplet *)

Record slotMapletEntry := mkEntry { fp : Z; slot : Z }.
Record slotMaplet := mkMaplet { entries : list slotMapletEntry; mask : Z; mcount : Z }.

Definition emptyEntry : slotMapletEntry := mkEntry 0 0.

(** The doubling loop of [newSlotMaplet]; capacities below 2^30 need no more
    than 32 rounds. *)
Fixpoint mapletSize (fuel : nat) (size capacity : Z) : Z :=
  match fuel with
  | O => size
  | S fuel' => if size <? capacity * 2 then mapletSize fuel' (Z.shiftl size 1) capacity else size
  end.

Definition newSlotMaplet (capacity : Z) : slotMaplet :=
  let size := mapletSize 32 16 capacity in
  mkMaplet (replicate (Z.to_nat size) emptyEntry) (size - 1) 0.

Fixpoint hashKey64From (h : Z) (key : string) : Z :=
  match key with
  | "" => h
  | String c rest => hashKey64From (u64 (Z.lxor h (Z.of_nat (nat_of_ascii c)) * 1099511628211)) rest
  end.
Definition hashKey64 (key : string) : Z := hashKey64From 14695981039346656037 key.

Definition fingerprint (key : string) : Z := Z.lor (u32 (Z.shiftr (hashKey64 key) 32)) 1.
Definition bucket1 (sm : slotMaplet) (key : string) : nat :=
  Z.to_nat (Z.land (u32 (hashKey64 key)) (mask sm)).
Definition bucket2 (sm : slotMaplet) (key : string) : nat :=
  Z.to_nat (Z.land (Z.lxor (u32 (hashKey64 key)) 1540483477) (mask sm)).

(** [sm.entries[i]]; the bucket functions stay within the slice. *)
Definition entryAt (sm : slotMaplet) (i : nat) : slotMapletEntry := default emptyEntry (entries sm !! i).
Definition setEntry (sm : slotMaplet) (i : nat) (e : slotMapletEntry) (dcount : Z) : slotMaplet :=
  mkMaplet (<[i := e]> (entries sm)) (mask sm) (mcount sm + dcount).

Definition reinsert (sm : slotMaplet) (e : slotMapletEntry) : slotMaplet :=
  let b1 := Z.to_nat (Z.land (fp e) (mask sm)) in
  if fp (entryAt sm b1) =? 0 then setEntry sm b1 e 1
  else
    let b2 := Z.to_nat (Z.land (Z.lxor (fp e) 1540483477) (mask sm)) in
    if fp (entryAt sm b2) =? 0 then setEntry sm b2 e 1 else setEntry sm b1 e 0.

Definition growMaplet (sm : slotMaplet) : slotMaplet :=
  let newSize := Nat.max (length (entries sm) * 2) 32 in
  foldl (λ sm e, if fp e =? 0 then sm else reinsert sm e)
    (mkMaplet (replicate newSize emptyEntry) (Z.of_nat newSize - 1) 0) (entries sm).

(** A hit is verified against [slotToKey]. *)
Definition verified (e : slotMapletEntry) (key : string) (slotToKey : list string) : option nat :=
  if fp e =? fingerprint key then
    match slotToKey !! Z.to_nat (slot e) with
    | Some k => if String.eqb k key then Some (Z.to_nat (slot e)) else None
    | None => None
    end
  else None.

Definition lookupMaplet (sm : slotMaplet) (key : string) (slotToKey : list string) : option nat :=
  if (length (entries sm) =? 0)%nat then None
  else match verified (entryAt sm (bucket1 sm key)) key slotToKey with
       | Some s => Some s
       | None => verified (entryAt sm (bucket2 sm key)) key slotToKey
       end.

Definition holds (e : slotMapletEntry) (key : string) (s : nat) : bool :=
  (fp e =? fingerprint key) && (slot e =? Z.of_nat s).

Definition insertMaplet (sm : slotMaplet) (key : string) (s : nat) : slotMaplet :=
  let sm := if (length (entries sm) =? 0)%nat || (Z.of_nat (length (entries sm)) <=? mcount sm * 2)
            then growMaplet sm else sm in
  let b1 := bucket1 sm key in
  let b2 := bucket2 sm key in
  let e := mkEntry (fingerprint key) (u32 (Z.of_nat s)) in
  if holds (entryAt sm b1) key s then sm
  else if holds (entryAt sm b2) key s then sm
  else if fp (entryAt sm b1) =? 0 then setEntry sm b1 e 1
  else if fp (entryAt sm b2) =? 0 then setEntry sm b2 e 1
  else setEntry sm b1 e 0.

Definition removeMaplet (sm : slotMaplet) (key : string) (s : nat) : slotMaplet :=
  if (length (entries sm) =? 0)%nat then sm
  else
    let b1 := bucket1 sm key in
    if holds (entryAt sm b1) key s then setEntry sm b1 emptyEntry (-1)
    else
      let b2 := bucket2 sm key in
      if holds (entryAt sm b2) key s then setEntry sm b2 emptyEntry (-1) else sm.

(** ** The scope index *)

Record scopeBitmapIndex := mkIndex {
  keyToSlot : gmap string nat;
  maplet : slotMaplet;
  slotToKey : list string;
  freeSlots : list nat;
  inverted : gmap bitmapIndexKey bitmap;
  saturated : bool
}.

Definition newScopeBitmapIndex : scopeBitmapIndex := mkIndex ∅ (newSlotMaplet 64) [] [] ∅ false.

Definition bitmapBudgetNumerator : Z := 1.
Definition bitmapBudgetDenominator : Z := 4.
Definition maxBitmapValuesCeiling : Z := 2 ^ 20.
Definition minBitmapValuesFloor : Z := 64.

Definition bitmapValueCapFor (maxBytes slots : Z) : Z :=
  let slots := if slots <? 1 then 1 else slots in
  let maxBytes := if maxBytes <? 1 then defaultMaxBytes else maxBytes in
  let bytesPerValue := (slots + 7) / 8 in
  let budget := maxBytes / bitmapBudgetDenominator * bitmapBudgetNumerator in
  let cap := budget / bytesPerValue in
  if cap <? minBitmapValuesFloor then minBitmapValuesFloor
  else if maxBitmapValuesCeiling <? cap then maxBitmapValuesCeiling
  else cap.

Definition withMaplet (s : scopeBitmapIndex) (m : slotMaplet) : scopeBitmapIndex :=
  mkIndex (keyToSlot s) m (slotToKey s) (freeSlots s) (inverted s) (saturated s).

(** Free slots are a stack: the last one is reused first. *)
Definition allocateSlotLocked (s : scopeBitmapIndex) (key : string) : scopeBitmapIndex * nat :=
  match lookupMaplet (maplet s) key (slotToKey s) with
  | Some sl => (s, sl)
  | None =>
      match keyToSlot s !! key with
      | Some sl => (withMaplet s (insertMaplet (maplet s) key sl), sl)
      | None =>
          match last (freeSlots s) with
          | Some sl =>
              (mkIndex (<[key := sl]> (keyToSlot s)) (insertMaplet (maplet s) key sl)
                 (<[sl := key]> (slotToKey s)) (take (length (freeSlots s) - 1) (freeSlots s))
                 (inverted s) (saturated s), sl)
          | None =>
              let sl := length (slotToKey s) in
              (mkIndex (<[key := sl]> (keyToSlot s)) (insertMaplet (maplet s) key sl)
                 (slotToKey s ++ [key]) (freeSlots s) (inverted s) (saturated s), sl)
          end
      end
  end.

Definition releaseSlotLocked (s : scopeBitmapIndex) (key : string) : option (scopeBitmapIndex * nat) :=
  match (match lookupMaplet (maplet s) key (slotToKey s) with
         | Some sl => Some sl | None => keyToSlot s !! key end) with
  | None => None
  | Some sl =>
      Some (mkIndex (delete key (keyToSlot s)) (removeMaplet (maplet s) key sl)
              (<[sl := ""]> (slotToKey s)) (freeSlots s ++ [sl]) (inverted s) (saturated s), sl)
  end.

(** The body of the loop over the indexed values of an added record. *)
Definition addValue (capacity valueCap : Z) (sl : nat) (s : scopeBitmapIndex) (k : bitmapIndexKey)
  : scopeBitmapIndex :=
  match inverted s !! k with
  | None =>
      if valueCap <=? Z.of_nat (size (inverted s))
      then mkIndex (keyToSlot s) (maplet s) (slotToKey s) (freeSlots s) (inverted s) true
      else mkIndex (keyToSlot s) (maplet s) (slotToKey s) (freeSlots s)
             (<[k := set (newBitmap capacity) (Z.of_nat sl)]> (inverted s)) (saturated s)
  | Some bm =>
      mkIndex (keyToSlot s) (maplet s) (slotToKey s) (freeSlots s)
        (<[k := set bm (Z.of_nat sl)]> (inverted s)) (saturated s)
  end.

Definition AddRecordLocked (s : scopeBitmapIndex) (key : string) (rec : DomainRecord) (spec : ProjectionSpec)
  : scopeBitmapIndex :=
  let '(s, sl) := allocateSlotLocked s key in
  let capacity := Z.of_nat (length (slotToKey s)) in
  let valueCap := bitmapValueCapFor (MaxBytes spec) capacity in
  foldl (addValue capacity valueCap sl) s (forEachIndexedField rec spec).

(** The scopes' indexes; a missing scope is created empty when first used. *)
Abbreviation BitmapIndexRegistry := (gmap recordScope scopeBitmapIndex).

Section Hooks.
Context {H : BitmapHooks}.

Definition removeValue (sl : nat) (s : scopeBitmapIndex) (k : bitmapIndexKey) : scopeBitmapIndex :=
  match inverted s !! k with
  | None => s
  | Some bm =>
      let bm := clear bm (Z.of_nat sl) in
      mkIndex (keyToSlot s) (maplet s) (slotToKey s) (freeSlots s)
        (if Bitmap.count bm =? 0 then delete k (inverted s) else <[k := bm]> (inverted s)) (saturated s)
  end.

Definition RemoveRecordLocked (s : scopeBitmapIndex) (key : string) (rec : DomainRecord) (spec : ProjectionSpec)
  : scopeBitmapIndex :=
  match releaseSlotLocked s key with
  | None => s
  | Some (s, sl) => foldl (removeValue sl) s (forEachIndexedField rec spec)
  end.

(** The loop over the filters.  [None] is the early return that defers to the
    caller, [Some None] the one that reports no match. *)
Fixpoint intersectLoop (s : scopeBitmapIndex) (fs : list QueryFilter) (result : option bitmap)
  : option (option bitmap) :=
  match fs with
  | [] => Some result
  | f :: rest =>
      match inverted s !! newBitmapIndexKey (QField f) (QKind f) (QValue f) with
      | None => if saturated s then None else Some None
      | Some bm =>
          match result with
          | None => intersectLoop s rest (Some bm)
          | Some r =>
              match andClamped r (Some (words bm)) with
              | Some r => intersectLoop s rest (Some r)
              | None => Some None
              end
          end
      end
  end.

Definition slotKeys (s : scopeBitmapIndex) (slots : list Z) : list string :=
  omap (λ i, match slotToKey s !! Z.to_nat i with
             | Some k => if (i <? 0) || String.eqb k "" then None else Some k
             | None => None
             end) slots.

(** Candidate keys and whether they are authoritative. *)
Definition IntersectFilters (s : scopeBitmapIndex) (fs : list QueryFilter) : list string * bool :=
  match fs with
  | [] => ([], false)
  | _ =>
      match intersectLoop s fs None with
      | None => ([], false)
      | Some None => ([], true)
      | Some (Some r) => if Bitmap.count r =? 0 then ([], true) else (slotKeys s (forEachSet r), true)
      end
  end.

(** ** The registry of scopes *)

Definition getScope (r : BitmapIndexRegistry) (scope : recordScope) : scopeBitmapIndex :=
  default newScopeBitmapIndex (r !! scope).

Definition AddBitmaps (r : BitmapIndexRegistry) (scope : recordScope) (key : string) (rec : DomainRecord)
    (spec : ProjectionSpec) : BitmapIndexRegistry :=
  <[scope := AddRecordLocked (getScope r scope) key rec spec]> r.

Definition RemoveBitmaps (r : BitmapIndexRegistry) (scope : recordScope) (key : string) (rec : DomainRecord)
    (spec : ProjectionSpec) : BitmapIndexRegistry :=
  <[scope := RemoveRecordLocked (getScope r scope) key rec spec]> r.

Definition QueryCompoundFilters (r : BitmapIndexRegistry) (scope : recordScope) (fs : list QueryFilter)
  : list string * bool :=
  IntersectFilters (getScope r scope) fs.

End Hooks.

(** ** The invariant

    [c] is the abstract content: for every live key the set of indexed values
    of its record.  While a record is being removed, the bits of its released
    slot [sl] may still be raised for the values [stale] not cleared yet. *)

Abbreviation content := (gmap string (gset bitmapIndexKey)).

Section Invariant.
Context `{Hok : BitmapHooksOk}.

Record index_mid (s : scopeBitmapIndex) (c : content) (sl : nat) (stale : gset bitmapIndexKey) : Prop := {
  ii_slots : ∀ k j, keyToSlot s !! k = Some j ↔ slotToKey s !! j = Some k ∧ k ≠ "";
  ii_dom : ∀ k, is_Some (c !! k) ↔ is_Some (keyToSlot s !! k);
  ii_free : NoDup (freeSlots s);
  ii_free_empty : ∀ j, j ∈ freeSlots s → slotToKey s !! j = Some "";
  ii_wf : ∀ ik b, inverted s !! ik = Some b → wf b;
  ii_sound : ∀ ik b j, inverted s !! ik = Some b → get b (Z.of_nat j) = true →
    (j = sl ∧ ik ∈ stale) ∨
    ∃ k vs, slotToKey s !! j = Some k ∧ k ≠ "" ∧ c !! k = Some vs ∧ ik ∈ vs;
  ii_complete : saturated s = false → ∀ k j vs ik,
    keyToSlot s !! k = Some j → c !! k = Some vs → ik ∈ vs →
    ∃ b, inverted s !! ik = Some b ∧ get b (Z.of_nat j) = true
}.

Definition index_inv (s : scopeBitmapIndex) (c : content) : Prop := index_mid s c 0 ∅.

Lemma index_inv_new : index_inv newScopeBitmapIndex ∅.
Proof.
  split; cbn.
  - intros k j. rewrite lookup_empty, lookup_nil. naive_solver.
  - intros k. by rewrite !lookup_empty.
  - constructor.
  - intros j Hj. by apply elem_of_nil in Hj.
  - intros ik b. by rewrite lookup_empty.
  - intros ik b j. by rewrite lookup_empty.
  - intros _ k j vs ik. by rewrite lookup_empty.
Qed.

(** The maplet only ever answers with the slot that holds the key. *)
Lemma verified_sound e key stk j : verified e key stk = Some j → stk !! j = Some key.
Proof.
  unfold verified. destruct (fp e =? _); [|done]. destruct (stk !! _) as [k|] eqn:E; [|done].
  destruct (String.eqb_spec k key) as [->|]; [|done]. by intros [= <-].
Qed.

Lemma maplet_sound m key stk j : lookupMaplet m key stk = Some j → stk !! j = Some key.
Proof.
  unfold lookupMaplet. destruct (_ =? _)%nat; [done|].
  destruct (verified _ _ _) eqn:E; [intros [= <-]|]; by eapply verified_sound.
Qed.

(** So the accelerated lookup is the lookup in [keyToSlot]. *)
Lemma maplet_lookup s c sl st key : index_mid s c sl st → key ≠ "" →
  match lookupMaplet (maplet s) key (slotToKey s) with
  | Some j => Some j | None => keyToSlot s !! key end = keyToSlot s !! key.
Proof.
  intros Hi Hk. destruct (lookupMaplet _ _ _) as [j|] eqn:E; [|done]. symmetry.
  apply maplet_sound in E. by apply (ii_slots s c sl st Hi).
Qed.

(** Giving a fresh key an unused slot keeps the invariant. *)
Lemma inv_fresh_slot s c key m stk free j : index_inv s c → key ≠ "" → keyToSlot s !! key = None →
  (∀ i, stk !! i = if decide (i = j) then Some key else slotToKey s !! i) →
  (∀ k, slotToKey s !! j = Some k → k = "") → NoDup free →
  (∀ i, i ∈ free → i ≠ j ∧ slotToKey s !! i = Some "") →
  index_inv (mkIndex (<[key := j]> (keyToSlot s)) m stk free (inverted s) (saturated s)) (<[key := ∅]> c).
Proof.
  intros Hi Hk Hnone Hstk Hj Hn Hfree.
  assert (c !! key = None) as Hc.
  { apply eq_None_not_Some. intros H'. apply (ii_dom s c _ _ Hi) in H'. rewrite Hnone in H'. by destruct H'. }
  split; cbn.
  - intros k i. rewrite Hstk, lookup_insert_Some. destruct (decide (i = j)) as [->|Hne].
    + split; [intros [[<- _]|[Hne Hki]]; [done|]|].
      * apply (ii_slots s c _ _ Hi) in Hki as [Hki Hke]. by apply Hj in Hki.
      * intros [[= <-] _]. by left.
    + rewrite (ii_slots s c _ _ Hi). split; [naive_solver|]. intros [Hi' Hke]. right. split; [|done].
      intros <-. assert (keyToSlot s !! key = Some i) by (by apply (ii_slots s c _ _ Hi)). congruence.
  - intros k. destruct (decide (k = key)) as [->|]; [rewrite !lookup_insert_eq; split; eauto|].
    rewrite !lookup_insert_ne by done. apply (ii_dom s c _ _ Hi).
  - done.
  - intros i Hif. destruct (Hfree i Hif) as [Hne ?]. rewrite Hstk. by rewrite decide_False.
  - apply (ii_wf s c _ _ Hi).
  - intros ik b i Hb Hg. destruct (ii_sound s c _ _ Hi ik b i Hb Hg) as [[_ ?]|(k & vs & Hk1 & Hk2 & Hk3 & Hk4)];
      [set_solver|]. right. exists k, vs. rewrite Hstk. destruct (decide (i = j)) as [->|].
    + by apply Hj in Hk1.
    + rewrite lookup_insert_ne by (intros <-; congruence). done.
  - intros Hs k i vs ik. rewrite !lookup_insert_Some. intros [[<- <-]|[Hne Hki]] [[? <-]|[? Hcv]] Hin; try done.
    by apply (ii_complete s c _ _ Hi Hs k i vs).
Qed.

Lemma allocate_fresh s c key : index_inv s c → key ≠ "" → c !! key = None →
  let '(s', j) := allocateSlotLocked s key in
  index_inv s' (<[key := ∅]> c) ∧ keyToSlot s' !! key = Some j ∧
  inverted s' = inverted s ∧ saturated s' = saturated s.
Proof.
  intros Hi Hk Hc. pose proof (maplet_lookup s c _ _ key Hi Hk) as Hm.
  assert (keyToSlot s !! key = None) as Hnone.
  { apply eq_None_not_Some. intros H'. apply (ii_dom s c _ _ Hi) in H'. rewrite Hc in H'. by destruct H'. }
  unfold allocateSlotLocked. rewrite Hnone in Hm. destruct (lookupMaplet _ _ _); [done|]. rewrite Hnone.
  destruct (last (freeSlots s)) as [j|] eqn:El.
  - apply last_Some in El as [l Hl].
    assert (slotToKey s !! j = Some "") as Hj by (apply (ii_free_empty s c _ _ Hi); rewrite Hl; set_solver).
    pose proof (ii_free s c _ _ Hi) as Hnd. rewrite Hl in Hnd. apply NoDup_app in Hnd as (Hnd & Hdis & _).
    split_and!; [|cbn [keyToSlot]; by rewrite lookup_insert_eq|done|done]. rewrite Hl, length_app. cbn [length].
    rewrite Nat.add_sub, take_app_length. apply inv_fresh_slot; [done|done|done| |congruence|done|].
    + intros i. destruct (decide (i = j)) as [->|].
      * by rewrite list_lookup_insert_eq by (by eapply lookup_lt_Some).
      * by rewrite list_lookup_insert_ne.
    + intros i Hil. split; [intros ->; apply (Hdis j Hil); set_solver|].
      apply (ii_free_empty s c _ _ Hi). rewrite Hl. set_solver.
  - split_and!; [|cbn [keyToSlot]; by rewrite lookup_insert_eq|done|done]. apply last_None in El. rewrite El. apply inv_fresh_slot; [done|done|done|..].
    + intros i. destruct (decide (i = length (slotToKey s))) as [->|]; [by apply list_lookup_middle|].
      destruct (decide (i < length (slotToKey s))%nat); [by rewrite lookup_app_l|].
      rewrite !lookup_ge_None_2; [done|lia|rewrite length_app; cbn; lia].
    + intros k Hk'. apply lookup_lt_Some in Hk'. lia.
    + constructor.
    + intros i Hi'. by apply elem_of_nil in Hi'.
Qed.

(** Replacing the bitmaps by ones that differ only in the bit of the new
    record's slot for the new value keeps the invariant. *)
Lemma inv_new_value s c key vs j ik inv sat :
  index_inv s (<[key := vs]> c) → keyToSlot s !! key = Some j →
  (sat = false → saturated s = false ∧ ∃ b, inv !! ik = Some b ∧ get b (Z.of_nat j) = true) →
  (∀ ik' b, inv !! ik' = Some b → wf b) →
  (∀ ik' b i, inv !! ik' = Some b → get b (Z.of_nat i) = true →
     (i = j ∧ ik' = ik) ∨ ∃ b', inverted s !! ik' = Some b' ∧ get b' (Z.of_nat i) = true) →
  (∀ ik' b' i, inverted s !! ik' = Some b' → get b' (Z.of_nat i) = true →
     ∃ b, inv !! ik' = Some b ∧ get b (Z.of_nat i) = true) →
  index_inv (mkIndex (keyToSlot s) (maplet s) (slotToKey s) (freeSlots s) inv sat) (<[key := {[ik]} ∪ vs]> c).
Proof.
  intros Hi Hkj Hsat Hwf Hold Hnew. pose proof (proj1 (ii_slots s _ _ _ Hi key j) Hkj) as [Hstk Hke].
  split; cbn.
  - apply (ii_slots s _ _ _ Hi).
  - intros k. rewrite <- (ii_dom s _ _ _ Hi k). destruct (decide (k = key)) as [->|].
    + rewrite !lookup_insert_eq. split; eauto.
    + by rewrite !lookup_insert_ne.
  - apply (ii_free s _ _ _ Hi).
  - apply (ii_free_empty s _ _ _ Hi).
  - done.
  - intros ik' b i Hb Hg. right. destruct (Hold ik' b i Hb Hg) as [[-> ->]|(b' & Hb' & Hg')].
    + exists key, ({[ik]} ∪ vs). rewrite lookup_insert_eq. split_and!; [done|done|done|set_solver].
    + destruct (ii_sound s _ _ _ Hi ik' b' i Hb' Hg') as [[_ ?]|(k & vs' & H1 & H2 & H3 & H4)]; [set_solver|].
      destruct (decide (k = key)) as [->|].
      * rewrite lookup_insert_eq in H3. injection H3 as <-. exists key, ({[ik]} ∪ vs).
        rewrite lookup_insert_eq. split_and!; [done|done|done|set_solver].
      * rewrite lookup_insert_ne in H3 by done. exists k, vs'. by rewrite lookup_insert_ne.
  - intros Hs k i vs' ik' Hki Hc Hin. destruct (Hsat Hs) as [Hs' Hik].
    destruct (decide (k = key)) as [->|].
    + rewrite lookup_insert_eq in Hc. injection Hc as <-. assert (i = j) as -> by congruence.
      apply elem_of_union in Hin as [->%elem_of_singleton|Hin]; [done|].
      destruct (ii_complete s _ _ _ Hi Hs' key j vs ik' Hkj) as (b' & Hb' & Hg');
        [by rewrite lookup_insert_eq|done|]. by eapply Hnew.
    + rewrite lookup_insert_ne in Hc by done.
      destruct (ii_complete s _ _ _ Hi Hs' k i vs' ik' Hki) as (b' & Hb' & Hg');
        [by rewrite lookup_insert_ne|done|]. by eapply Hnew.
Qed.

Lemma add_value_inv s c key vs j ik capacity cap :
  index_inv s (<[key := vs]> c) → keyToSlot s !! key = Some j →
  index_inv (addValue capacity cap j s ik) (<[key := {[ik]} ∪ vs]> c) ∧
  keyToSlot (addValue capacity cap j s ik) !! key = Some j.
Proof.
  intros Hi Hkj. pose proof (proj1 (ii_slots s _ _ _ Hi key j) Hkj) as [Hstk Hke].
  unfold addValue. destruct (inverted s !! ik) as [bm|] eqn:E; [|destruct (_ <=? _)];
    (split; [|done]); apply (inv_new_value _ _ _ vs j); try done.
  - pose proof (ii_wf s _ _ _ Hi ik bm E) as Hw. destruct (set_spec bm (Z.of_nat j) Hw ltac:(lia)) as [_ Hg].
    intros Hs. split; [done|]. eexists. rewrite lookup_insert_eq. split; [done|]. by rewrite Hg, Z.eqb_refl.
  - intros ik' b [[<- <-]|[_ Hb]]%lookup_insert_Some; [|by eapply ii_wf].
    apply set_spec; [by eapply ii_wf|lia].
  - pose proof (ii_wf s _ _ _ Hi ik bm E) as Hw. destruct (set_spec bm (Z.of_nat j) Hw ltac:(lia)) as [_ Hg].
    intros ik' b i [[<- <-]|[_ Hb]]%lookup_insert_Some Hgb; [|by right; exists b].
    rewrite Hg in Hgb. apply orb_true_iff in Hgb as [Heq%Z.eqb_eq|Hgb]; [left; split; [lia|done]|].
    right. by exists bm.
  - pose proof (ii_wf s _ _ _ Hi ik bm E) as Hw. destruct (set_spec bm (Z.of_nat j) Hw ltac:(lia)) as [_ Hg].
    intros ik' b' i Hb' Hgb. destruct (decide (ik' = ik)) as [->|].
    + exists (set bm (Z.of_nat j)). rewrite lookup_insert_eq, Hg. simplify_eq. by rewrite Hgb, orb_true_r.
    + exists b'. by rewrite lookup_insert_ne.
  - by eapply ii_wf.
  - intros ik' b i Hb Hgb. right. by exists b.
  - intros ik' b' i Hb' Hgb. by exists b'.
  - destruct (set_spec (newBitmap capacity) (Z.of_nat j) (wf_new _) ltac:(lia)) as [_ Hg].
    intros Hs. split; [done|]. eexists. rewrite lookup_insert_eq. split; [done|]. by rewrite Hg, Z.eqb_refl.
  - intros ik' b [[<- <-]|[_ Hb]]%lookup_insert_Some; [|by eapply ii_wf].
    apply set_spec; [apply wf_new|lia].
  - destruct (set_spec (newBitmap capacity) (Z.of_nat j) (wf_new _) ltac:(lia)) as [_ Hg].
    intros ik' b i [[<- <-]|[_ Hb]]%lookup_insert_Some Hgb; [|by right; exists b].
    rewrite Hg, bitmap_get_new, orb_false_r in Hgb. apply Z.eqb_eq in Hgb. left. split; [lia|done].
  - intros ik' b' i Hb' Hgb. exists b'. rewrite lookup_insert_ne; [done|]. intros <-. congruence.
Qed.

(** Adding a record under a fresh key. *)
Lemma add_record_inv s c key rec spec : index_inv s c → key ≠ "" → c !! key = None →
  index_inv (AddRecordLocked s key rec spec) (<[key := list_to_set (forEachIndexedField rec spec)]> c).
Proof.
  intros Hi Hk Hc. unfold AddRecordLocked. pose proof (allocate_fresh s c key Hi Hk Hc) as Ha.
  destruct (allocateSlotLocked s key) as [s1 j]. destruct Ha as (Hi1 & Hkj & _ & _).
  generalize (Z.of_nat (length (slotToKey s1))). intros capacity.
  generalize (bitmapValueCapFor (MaxBytes spec) capacity). intros cap.
  assert (∀ l s0 vs, index_inv s0 (<[key := vs]> c) → keyToSlot s0 !! key = Some j →
    index_inv (foldl (addValue capacity cap j) s0 l) (<[key := vs ∪ list_to_set l]> c)) as Hl.
  { induction l as [|ik l IH]; intros s0 vs Hi0 Hk0; cbn [foldl list_to_set].
    - by rewrite right_id_L by apply _.
    - destruct (add_value_inv s0 c key vs j ik capacity cap Hi0 Hk0) as [Hi2 Hk2].
      specialize (IH _ _ Hi2 Hk2).
      replace (vs ∪ ({[ik]} ∪ list_to_set l)) with ({[ik]} ∪ vs ∪ list_to_set l : gset bitmapIndexKey) by set_solver.
      done. }
  specialize (Hl (forEachIndexedField rec spec) s1 ∅ Hi1 Hkj). by rewrite left_id_L in Hl by apply _.
Qed.

(** Releasing the slot of a live key leaves its bits stale. *)
Lemma release_slot_mid s c key vs : index_inv s c → c !! key = Some vs →
  ∃ s' j, releaseSlotLocked s key = Some (s', j) ∧ index_mid s' (delete key c) j vs ∧
    slotToKey s' !! j = Some "".
Proof.
  intros Hi Hc. destruct (proj1 (ii_dom s c _ _ Hi key)) as [j Hkj]; [by rewrite Hc|].
  pose proof (proj1 (ii_slots s c _ _ Hi key j) Hkj) as [Hstk Hke].
  unfold releaseSlotLocked. rewrite (maplet_lookup s c _ _ key Hi Hke), Hkj.
  eexists _, j. split; [done|].
  assert (∀ k i, slotToKey s !! i = Some k → k ≠ "" → (k = key ↔ i = j)) as Hinj.
  { intros k i Hki Hkne. assert (keyToSlot s !! k = Some i) by (by apply (ii_slots s c _ _ Hi)).
    split; [intros ->; congruence|]. intros ->. congruence. }
  assert (∀ k i, <[j := ""]> (slotToKey s) !! i = Some k ∧ k ≠ "" ↔ slotToKey s !! i = Some k ∧ k ≠ "" ∧ i ≠ j) as Hnew.
  { intros k i. destruct (decide (i = j)) as [->|Hne].
    - rewrite list_lookup_insert_eq by (by eapply lookup_lt_Some).
      split; [intros [[= <-] ?]; done|intros (? & ? & ?); done].
    - rewrite list_lookup_insert_ne by done. tauto. }
  split; [|by cbn; rewrite list_lookup_insert_eq by (by eapply lookup_lt_Some)].
  split; cbn.
  - intros k i. rewrite Hnew, lookup_delete_Some, (ii_slots s c _ _ Hi). split.
    + intros (Hne & Hki & Hkn). split_and!; [done|done|]. intros ->. by apply Hne, eq_sym, (Hinj k j).
    + intros (Hki & Hkn & Hij). split_and!; [|done|done]. intros <-. by apply Hij, (Hinj key i).
  - intros k. rewrite !lookup_delete_is_Some, (ii_dom s c _ _ Hi). done.
  - apply NoDup_app. split_and!; [apply (ii_free s c _ _ Hi)| |apply NoDup_singleton].
    intros i Hif ->%list_elem_of_singleton. apply (ii_free_empty s c _ _ Hi) in Hif. congruence.
  - intros i [Hif| ->%list_elem_of_singleton]%elem_of_app.
    + apply (ii_free_empty s c _ _ Hi) in Hif. rewrite list_lookup_insert_ne; [done|]. intros <-. congruence.
    + by rewrite list_lookup_insert_eq by (by eapply lookup_lt_Some).
  - apply (ii_wf s c _ _ Hi).
  - intros ik b i Hb Hg. destruct (ii_sound s c _ _ Hi ik b i Hb Hg) as [[_ ?]|(k & vs' & H1 & H2 & H3 & H4)];
      [set_solver|]. destruct (decide (i = j)) as [->|Hne].
    + left. split; [done|]. assert (k = key) as -> by (by apply (Hinj k j)). congruence.
    + right. exists k, vs'. split_and!; [by apply Hnew|done| |done]. rewrite lookup_delete_ne; [done|].
      intros <-. by apply Hne, (Hinj key i).
  - intros Hs k i vs' ik. rewrite !lookup_delete_Some. intros [_ Hki] [_ Hcv] Hin.
    by apply (ii_complete s c _ _ Hi Hs k i vs').
Qed.

Lemma remove_value_mid s c j st ik : index_mid s c j st → slotToKey s !! j = Some "" →
  index_mid (removeValue j s ik) c j (st ∖ {[ik]}) ∧ slotToKey (removeValue j s ik) !! j = Some "".
Proof using Hok.
  intros Hi He. split; [|unfold removeValue; by destruct (inverted s !! ik)].
  assert (∀ k i, keyToSlot s !! k = Some i → i ≠ j) as Hj.
  { intros k i Hki ->. apply (ii_slots s c _ _ Hi) in Hki as [Hki Hke]. congruence. }
  unfold removeValue. destruct (inverted s !! ik) as [bm|] eqn:E.
  - pose proof (ii_wf s c _ _ Hi ik bm E) as Hw. destruct (clear_spec bm (Z.of_nat j) Hw) as [Hw' Hg].
    assert (∀ inv, (∀ ik' b, inv !! ik' = Some b → (ik' = ik ∧ b = clear bm (Z.of_nat j)) ∨
                      (ik' ≠ ik ∧ inverted s !! ik' = Some b)) →
      (∀ ik' b i, inverted s !! ik' = Some b → get b (Z.of_nat i) = true → i ≠ j ∨ ik' ≠ ik →
         ∃ b', inv !! ik' = Some b' ∧ get b' (Z.of_nat i) = true) →
      index_mid (mkIndex (keyToSlot s) (maplet s) (slotToKey s) (freeSlots s) inv (saturated s)) c j (st ∖ {[ik]}))
      as Hgen.
    { intros inv Hinv Hkeep. split; cbn; try apply Hi.
      - intros ik' b Hb. destruct (Hinv ik' b Hb) as [[-> ->]|[_ Hb']]; [done|by eapply ii_wf].
      - intros ik' b i Hb Hgb. destruct (Hinv ik' b Hb) as [[-> ->]|[Hne Hb']].
        + rewrite Hg in Hgb. apply andb_true_iff in Hgb as [Hij%negb_true_iff%Z.eqb_neq Hgb].
          destruct (ii_sound s c _ _ Hi ik bm i E Hgb) as [[-> _]|?]; [lia|by right].
        + destruct (ii_sound s c _ _ Hi ik' b i Hb' Hgb) as [[-> ?]|?]; [left; set_solver|by right].
      - intros Hs k i vs' ik' Hki Hcv Hin.
        destruct (ii_complete s c _ _ Hi Hs k i vs' ik' Hki Hcv Hin) as (b & Hb & Hgb).
        apply (Hkeep ik' b i Hb Hgb). left. by eapply Hj. }
    apply Hgen.
    + intros ik' b. destruct (Bitmap.count _ =? 0).
      * intros [? ?]%lookup_delete_Some. right. done.
      * intros [[<- <-]|[? ?]]%lookup_insert_Some; [by left|by right].
    + intros ik' b i Hb Hgb Hor. destruct (decide (ik' = ik)) as [->|Hne].
      * assert (b = bm) as -> by congruence. assert (i ≠ j) as Hij by (destruct Hor; [done|done]).
        assert (get (clear bm (Z.of_nat j)) (Z.of_nat i) = true) as Hgc.
        { rewrite Hg, Hgb. destruct (Z.eqb_spec (Z.of_nat j) (Z.of_nat i)); [lia|done]. }
        destruct (Z.eqb_spec (Bitmap.count (clear bm (Z.of_nat j))) 0) as [Hz|_].
        { by rewrite (proj1 (count_zero _ Hw') Hz) in Hgc. }
        exists (clear bm (Z.of_nat j)). by rewrite lookup_insert_eq.
      * exists b. destruct (_ =? _); [by rewrite lookup_delete_ne|by rewrite lookup_insert_ne].
  - split; try apply Hi. intros ik' b i Hb Hgb.
    destruct (ii_sound s c _ _ Hi ik' b i Hb Hgb) as [[-> ?]|?]; [|by right].
    left. split; [done|]. apply elem_of_difference. split; [done|]. intros ->%elem_of_singleton. congruence.
Qed.

(** Removing a live record with the values it was added with. *)
Lemma remove_record_inv s c key rec spec : index_inv s c →
  c !! key = Some (list_to_set (forEachIndexedField rec spec)) →
  index_inv (RemoveRecordLocked s key rec spec) (delete key c).
Proof using Hok.
  intros Hi Hc. unfold RemoveRecordLocked.
  destruct (release_slot_mid s c key _ Hi Hc) as (s1 & j & -> & Hm & He).
  assert (∀ l s0 st, index_mid s0 (delete key c) j st → slotToKey s0 !! j = Some "" →
    index_mid (foldl (removeValue j) s0 l) (delete key c) j (st ∖ list_to_set l)) as Hl.
  { induction l as [|ik l IH]; intros s0 st Hm0 He0; cbn [foldl list_to_set].
    - by replace (st ∖ ∅) with st by set_solver.
    - destruct (remove_value_mid s0 _ j st ik Hm0 He0) as [Hm1 He1]. specialize (IH _ _ Hm1 He1).
      by replace (st ∖ ({[ik]} ∪ list_to_set l)) with (st ∖ {[ik]} ∖ list_to_set l) by set_solver. }
  specialize (Hl (forEachIndexedField rec spec) s1 _ Hm He). rewrite difference_diag_L in Hl.
  split; try apply Hl. intros ik b i Hb Hg.
  destruct (ii_sound _ _ _ _ Hl ik b i Hb Hg) as [[_ ?]|?]; [set_solver|by right].
Qed.

(** ** Queries *)

Definition filterKey (f : QueryFilter) : bitmapIndexKey := newBitmapIndexKey (QField f) (QKind f) (QValue f).

(** The bit of a slot in the bitmap of a value; false without a bitmap. *)
Definition bitOf (s : scopeBitmapIndex) (i : Z) (f : QueryFilter) : bool :=
  match inverted s !! filterKey f with Some b => get b i | None => false end.

Lemma get_words_get b i : wf b → 0 ≤ i → getWord (words b) (Z.to_nat i) = get b i.
Proof. intros Hw Hi. rewrite get_get_word by done. by rewrite (proj2 (Z.ltb_ge _ _)). Qed.

Lemma intersect_loop_spec s fs : (∀ ik b, inverted s !! ik = Some b → wf b) → ∀ r, wf r →
  match intersectLoop s fs (Some r) with
  | None => saturated s = true ∧ ∃ f, f ∈ fs ∧ inverted s !! filterKey f = None
  | Some None => saturated s = false ∧ ∃ f, f ∈ fs ∧ inverted s !! filterKey f = None
  | Some (Some r') => wf r' ∧ ∀ i, 0 ≤ i → get r' i = get r i && forallb (bitOf s i) fs
  end.
Proof using Hok.
  intros Hwf. induction fs as [|f fs IH]; intros r Hr; cbn [intersectLoop].
  { split; [done|]. intros i _. by rewrite andb_true_r. }
  fold (filterKey f). destruct (inverted s !! filterKey f) as [b|] eqn:E.
  - destruct (and_clamped_spec r (words b) Hr (wf_words b (Hwf _ _ E))) as (r' & -> & Hw' & _ & Hg).
    specialize (IH r' Hw'). destruct (intersectLoop s fs (Some r')) as [[r''|]|].
    + destruct IH as [Hw'' Hg'']. split; [done|]. intros i Hi. rewrite Hg'', Hg by done.
      cbn [forallb]. unfold bitOf at 2. rewrite E, get_words_get by eauto. by rewrite andb_assoc.
    + destruct IH as [Hs (g & Hin & Hnone)]. split; [done|]. exists g. split; [set_solver|done].
    + destruct IH as [Hs (g & Hin & Hnone)]. split; [done|]. exists g. split; [set_solver|done].
  - destruct (saturated s); (split; [done|]); exists f; (split; [set_solver|done]).
Qed.

(** Started without a bitmap, on at least one filter. *)
Lemma intersect_start_spec s f fs : (∀ ik b, inverted s !! ik = Some b → wf b) →
  match intersectLoop s (f :: fs) None with
  | None => saturated s = true ∧ ∃ g, g ∈ f :: fs ∧ inverted s !! filterKey g = None
  | Some None => saturated s = false ∧ ∃ g, g ∈ f :: fs ∧ inverted s !! filterKey g = None
  | Some (Some r') => wf r' ∧ ∀ i, 0 ≤ i → get r' i = forallb (bitOf s i) (f :: fs)
  end.
Proof using Hok.
  intros Hwf. cbn [intersectLoop]. fold (filterKey f). destruct (inverted s !! filterKey f) as [b|] eqn:E.
  - pose proof (intersect_loop_spec s fs Hwf b (Hwf _ _ E)) as H'.
    destruct (intersectLoop s fs (Some b)) as [[r'|]|].
    + destruct H' as [Hw Hg]. split; [done|]. intros i Hi. rewrite Hg by done. cbn [forallb].
      unfold bitOf at 2. by rewrite E.
    + destruct H' as [Hs (g & Hin & Hnone)]. split; [done|]. exists g. split; [set_solver|done].
    + destruct H' as [Hs (g & Hin & Hnone)]. split; [done|]. exists g. split; [set_solver|done].
  - destruct (saturated s); (split; [done|]); exists f; (split; [set_solver|done]).
Qed.

Lemma slot_keys_elem s c slots k : index_inv s c → k ≠ "" →
  k ∈ slotKeys s slots ↔ ∃ j, keyToSlot s !! k = Some j ∧ Z.of_nat j ∈ slots.
Proof.
  intros Hi Hk. unfold slotKeys. rewrite list_elem_of_omap. split.
  - intros (i & Hin & Hm). destruct (slotToKey s !! Z.to_nat i) as [k'|] eqn:E; [|done].
    destruct (Z.ltb_spec i 0); cbn [orb] in Hm; [done|]. destruct (String.eqb_spec k' ""); [done|].
    injection Hm as ->. exists (Z.to_nat i). rewrite Z2Nat.id by done. split; [|done].
    by apply (ii_slots s c _ _ Hi).
  - intros (j & Hkj & Hin). exists (Z.of_nat j). split; [done|]. rewrite Nat2Z.id.
    apply (ii_slots s c _ _ Hi) in Hkj as [-> _]. rewrite (proj2 (Z.ltb_ge _ _)) by lia. cbn [orb].
    by apply String.eqb_neq in Hk as ->.
Qed.

Lemma slot_keys_nodup s c slots : index_inv s c → NoDup slots → NoDup (slotKeys s slots).
Proof.
  intros Hi. unfold slotKeys. induction slots as [|i slots IH]; cbn [omap list_omap]; [constructor|].
  intros [Hnin Hn]%NoDup_cons. specialize (IH Hn).
  destruct (slotToKey s !! Z.to_nat i) as [k|] eqn:E; [|done].
  destruct (Z.ltb_spec i 0); cbn [orb]; [done|]. destruct (String.eqb_spec k "") as [|Hk]; [done|].
  apply NoDup_cons. split; [|done]. intros (j & Hin & Hm)%list_elem_of_omap.
  destruct (slotToKey s !! Z.to_nat j) as [k'|] eqn:E'; [|done].
  destruct (Z.ltb_spec j 0); cbn [orb] in Hm; [done|]. destruct (String.eqb_spec k' ""); [done|].
  injection Hm as ->. assert (keyToSlot s !! k = Some (Z.to_nat i)) by (by apply (ii_slots s c _ _ Hi)).
  assert (keyToSlot s !! k = Some (Z.to_nat j)) by (by apply (ii_slots s c _ _ Hi)).
  assert (i = j) as -> by (assert (Z.to_nat i = Z.to_nat j) by congruence; lia). done.
Qed.

(** A raised bit belongs to a live record with the value; the converse needs an
    index that never reached its value cap. *)
Lemma bit_of_sound s c f j : index_inv s c → bitOf s (Z.of_nat j) f = true →
  ∃ k vs, keyToSlot s !! k = Some j ∧ c !! k = Some vs ∧ filterKey f ∈ vs.
Proof.
  intros Hi. unfold bitOf. destruct (inverted s !! filterKey f) as [b|] eqn:E; [|done]. intros Hg.
  destruct (ii_sound s c _ _ Hi _ b j E Hg) as [[_ ?]|(k & vs & H1 & H2 & H3 & H4)]; [set_solver|].
  exists k, vs. split_and!; [by apply (ii_slots s c _ _ Hi)|done|done].
Qed.

Lemma bit_of_iff s c f k j vs : index_inv s c → saturated s = false →
  keyToSlot s !! k = Some j → c !! k = Some vs → bitOf s (Z.of_nat j) f = true ↔ filterKey f ∈ vs.
Proof.
  intros Hi Hs Hkj Hc. split.
  - intros (k' & vs' & Hk' & Hc' & Hin)%(bit_of_sound s c f j Hi).
    apply (ii_slots s c _ _ Hi) in Hkj as [Hkj _], Hk' as [Hk' _]. congruence.
  - intros Hin. destruct (ii_complete s c _ _ Hi Hs k j vs _ Hkj Hc Hin) as (b & Hb & Hg).
    unfold bitOf. by rewrite Hb.
Qed.

(** What a query answers. *)
Definition answers (c : content) (fs : list QueryFilter) (k : string) : Prop :=
  ∃ vs, c !! k = Some vs ∧ ∀ f, f ∈ fs → filterKey f ∈ vs.

Lemma content_key_nonempty s c k : index_inv s c → is_Some (c !! k) → k ≠ "".
Proof.
  intros Hi Hc. apply (ii_dom s c _ _ Hi) in Hc as [j Hj]. by apply (ii_slots s c _ _ Hi) in Hj as [_ ?].
Qed.

Lemma intersect_exact s c fs : index_inv s c → saturated s = false → fs ≠ [] →
  ∃ keys, IntersectFilters s fs = (keys, true) ∧ NoDup keys ∧ ∀ k, k ∈ keys ↔ answers c fs k.
Proof using Hok.
  intros Hi Hs Hne. destruct fs as [|f fs]; [done|]. clear Hne.
  pose proof (intersect_start_spec s f fs (ii_wf s c _ _ Hi)) as Hl. unfold IntersectFilters.
  destruct (intersectLoop s (f :: fs) None) as [[r|]|].
  - destruct Hl as [Hw Hg]. destruct (for_each_set_spec r Hw) as [Hsort Hset].
    assert (∀ k, k ∈ slotKeys s (forEachSet r) ↔ answers c (f :: fs) k) as Hkeys.
    { intros k. split.
      - intros Hk. assert (k ≠ "") as Hkn.
        { intros ->. unfold slotKeys in Hk. apply list_elem_of_omap in Hk as (i & _ & Hm).
          destruct (slotToKey s !! _) as [k'|]; [|done]. destruct (i <? 0); [done|]. cbn [orb] in Hm.
          destruct (String.eqb_spec k' ""); [done|congruence]. }
        apply (slot_keys_elem s c _ k Hi Hkn) in Hk as (j & Hkj & Hin).
        apply Hset in Hin. rewrite Hg in Hin by lia. rewrite forallb_forall in Hin.
        destruct (proj2 (ii_dom s c _ _ Hi k)) as [vs Hvs]; [by rewrite Hkj|]. exists vs. split; [done|].
        intros g Hin'. apply (bit_of_iff s c g k j vs Hi Hs Hkj Hvs). apply Hin. by apply list_elem_of_In.
      - intros (vs & Hvs & Hall). assert (k ≠ "") as Hkn by (by eapply content_key_nonempty; eauto).
        destruct (proj1 (ii_dom s c _ _ Hi k)) as [j Hj]; [by rewrite Hvs|].
        apply (slot_keys_elem s c _ k Hi Hkn). exists j. split; [done|]. apply Hset. rewrite Hg by lia.
        apply forallb_forall. intros g Hin%list_elem_of_In. apply (bit_of_iff s c g k j vs Hi Hs Hj Hvs). by apply Hall. }
    destruct (Z.eqb_spec (Bitmap.count r) 0) as [Hz|_].
    + exists []. split_and!; [done|constructor|]. intros k. rewrite <- Hkeys.
      assert (forEachSet r = []) as ->; [|done]. rewrite (count_spec r Hw) in Hz. by destruct (forEachSet r).
    + eexists. split_and!; [done| |done]. eapply slot_keys_nodup; [done|].
      by apply strongly_sorted_lt_nodup.
  - destruct Hl as [_ (g & Hin & Hnone)]. exists []. split_and!; [done|constructor|]. intros k.
    split; [by intros ?%elem_of_nil|]. intros (vs & Hvs & Hall). exfalso.
    destruct (proj1 (ii_dom s c _ _ Hi k)) as [j Hj]; [by rewrite Hvs|].
    destruct (ii_complete s c _ _ Hi Hs k j vs _ Hj Hvs (Hall g Hin)) as (b & Hb & _). congruence.
  - destruct Hl as [Hsat _]. congruence.
Qed.

End Invariant.

(** ** Refinement: the index of a changing set of records *)

Inductive index_op := OpAdd (key : string) (rec : DomainRecord) | OpRemove (key : string).

Section Refinement.
Context `{Hok : BitmapHooksOk} (spec : ProjectionSpec).

(** The abstract state: the live records by key. *)
Abbreviation live := (gmap string DomainRecord).

(** How the partition drives the index: a fresh key is added, a live one is
    removed with its stored record; other calls do not occur. *)
Definition stepOp (st : scopeBitmapIndex * live) (o : index_op) : scopeBitmapIndex * live :=
  let '(s, m) := st in
  match o with
  | OpAdd key rec =>
      match m !! key with
      | None => if String.eqb key "" then st else (AddRecordLocked s key rec spec, <[key := rec]> m)
      | Some _ => st
      end
  | OpRemove key =>
      match m !! key with
      | Some rec => (RemoveRecordLocked s key rec spec, delete key m)
      | None => st
      end
  end.

Definition runOps (ops : list index_op) : scopeBitmapIndex * live :=
  foldl stepOp (newScopeBitmapIndex, ∅) ops.

Definition contentOf (m : live) : content := (λ rec, list_to_set (forEachIndexedField rec spec)) <$> m.

Lemma run_ops_inv ops : index_inv (fst (runOps ops)) (contentOf (snd (runOps ops))).
Proof using Hok.
  unfold runOps. assert (∀ st, index_inv (fst st) (contentOf (snd st)) →
    index_inv (fst (foldl stepOp st ops)) (contentOf (snd (foldl stepOp st ops)))) as Hgen.
  { induction ops as [|o ops IH]; intros [s m] Hi; [done|]. cbn [foldl]. apply IH. clear IH.
    destruct o as [key rec|key]; cbn [stepOp].
    - destruct (m !! key) eqn:E; [done|]. destruct (String.eqb_spec key "") as [|Hk]; [done|]. cbn [fst snd] in *.
      unfold contentOf. rewrite fmap_insert. apply add_record_inv; [done|done|]. unfold contentOf.
      by rewrite lookup_fmap, E.
    - destruct (m !! key) as [rec|] eqn:E; [|done]. cbn [fst snd] in *.
      unfold contentOf. rewrite fmap_delete. apply remove_record_inv; [done|]. unfold contentOf.
      by rewrite lookup_fmap, E. }
  apply Hgen. cbn. unfold contentOf. rewrite fmap_empty. apply index_inv_new.
Qed.

End Refinement.

(** C8: as long as the scope has not reached its value cap, the bitmap index
    refines the set of live records: after any sequence of additions and
    removals a compound query is authoritative and returns, without
    repetition, exactly the keys of the live records that carry every queried
    value.  The lossy slot maplet never changes an answer. *)
Theorem bitmap_index_exact (H : BitmapHooks) spec ops fs : BitmapHooksOk H → fs ≠ [] →
  saturated (fst (runOps spec ops)) = false →
  ∃ keys, IntersectFilters (fst (runOps spec ops)) fs = (keys, true) ∧ NoDup keys ∧
  ∀ k, k ∈ keys ↔ ∃ rec, snd (runOps spec ops) !! k = Some rec ∧
                    ∀ f, f ∈ fs → (QField f, QKind f, QValue f) ∈ forEachIndexedField rec spec.
Proof.
  intros Hok Hne Hs. pose proof (run_ops_inv spec ops) as Hi.
  destruct (intersect_exact _ _ fs Hi Hs Hne) as (keys & Hk & Hn & Hin). exists keys. split_and!; [done|done|].
  intros k. rewrite Hin. unfold answers, contentOf. rewrite lookup_fmap. split.
  - intros (vs & Hvs & Hall). destruct (snd (runOps spec ops) !! k) as [rec|]; [|done]. injection Hvs as <-.
    exists rec. split; [done|]. intros f Hf. by apply (elem_of_list_to_set (C := gset bitmapIndexKey)), Hall.
  - intros (rec & Hrec & Hall). rewrite Hrec. eexists. split; [done|]. intros f Hf.
    by apply elem_of_list_to_set, Hall.
Qed.

Definition tickSpec (maxBytes : Z) : ProjectionSpec :=
  mkSpec "ticks" "signals" "ticks" ["id"; "kind"] [] "" [] 1000 maxBytes 0 0 10 10 0 0.

Definition tick (id kind : string) : DomainRecord :=
  mkRecord "signals" "ticks" "org_1" id [mkField "id" (StringValue id); mkField "kind" (StringValue kind)] [] 1 1.

Definition eqFilter (field value : string) : QueryFilter := mkQF field "s" value.

Lemma bitmap_index_exact_witness : ∃ keys,
  IntersectFilters (fst (runOps (tickSpec 1000)
      [OpAdd "k1" (tick "a" "x"); OpAdd "k2" (tick "b" "x"); OpRemove "k1"; OpAdd "k3" (tick "a" "x")]))
    [eqFilter "id" "a"; eqFilter "kind" "x"] = (keys, true) ∧ keys = ["k3"].
Proof.
  destruct (bitmap_index_exact noHooks (tickSpec 1000)
      [OpAdd "k1" (tick "a" "x"); OpAdd "k2" (tick "b" "x"); OpRemove "k1"; OpAdd "k3" (tick "a" "x")]
      [eqFilter "id" "a"; eqFilter "kind" "x"] noHooks_ok) as (keys & Hk & _);
    [discriminate|vm_compute; reflexivity|].
  exists keys. split; [exact Hk|]. vm_compute in Hk. congruence.
Defined.

(** Past the cap the answer can be wrong although it is reported as
    authoritative: a value that was skipped while the scope was full is indexed
    again once another value has been released, but without the records
    skipped before. *)
Definition fillers (k : nat) : list index_op :=
  map (λ i, OpAdd ("f" +:+ pretty.pretty i) (tick ("v" +:+ pretty.pretty i) "x")) (seq 0 k).

Definition saturating : list index_op :=
  fillers 63 ++ [OpAdd "A" (tick "dup" "x"); OpRemove "f0"; OpAdd "B" (tick "dup" "x")].

Theorem saturated_index_misses_records :
  let '(s, m) := runOps (tickSpec 1) saturating in
  (m !! "A" = Some (tick "dup" "x") ∧ m !! "B" = Some (tick "dup" "x")) ∧
  IntersectFilters s [eqFilter "id" "dup"; eqFilter "kind" "x"] = (["B"], true).
Proof. vm_compute. done. Qed.
