(* ===== verification/IndexSnap.v ===== *)
(** * IndexSnap: copy-on-write key indexes

    Models the index snapshots of [hermes/indexes.go] and [hermes/store.go]: a
    published index is a chain of delta layers, newest first, over a flat
    layer; the publisher collects the changes of one batch per index cell and
    pushes one layer per cell, compacting chains deeper than
    [maxIndexDeltaDepth].  Cells are identified by the scope or field index
    they belong to, so a cell the code creates empty is a missing entry here. *)

From Stdlib Require Import ZArith Lia Ascii String.
From stdpp Require Import base sets strings gmap fin_maps numbers list.
From S2P Require Import Prelude GoStrings.

Open Scope string_scope.
Open Scope list_scope.
Open Scope Z_scope.

Definition maxIndexDeltaDepth : Z := 512.

Record recordOrderEntry := mkOrder { okey : string; oversion : Z }.

#[export] Instance recordOrderEntry_eq_dec : EqDecision recordOrderEntry.
Proof. solve_decision. Defined.

(** ** Snapshots *)

Record layer := mkLayer {
  adds : gset string; removes : gset string; order : list recordOrderEntry; lsize : Z; depth : Z
}.

(** A snapshot and its chain of bases. *)
Abbreviation indexSnapshot := (list layer).

Definition emptyIndex : indexSnapshot := [mkLayer ∅ ∅ [] 0 0].

Definition len (s : indexSnapshot) : Z := match s with [] => 0 | l :: _ => lsize l end.
Definition depthOf (s : indexSnapshot) : Z := match s with [] => 0 | l :: _ => depth l end.

(** [forEachKeyReconciled]: what it visits; the order within a layer is that of
    a Go map, unspecified. *)
Fixpoint reconciled (s : indexSnapshot) (seen : gset string) : list string :=
  match s with
  | [] => []
  | l :: base =>
      let seen := seen ∪ removes l in
      elements (adds l ∖ seen) ++ reconciled base (seen ∪ adds l)
  end.

(** The walk that deduplicates against the delta layers only; the flat layer at
    the end is emitted with a lookup. *)
Fixpoint changedWalk (s : indexSnapshot) (changed : gset string) : list string :=
  match s with
  | [] => []
  | [terminal] => elements (adds terminal ∖ changed)
  | l :: base =>
      let changed := changed ∪ removes l in
      elements (adds l ∖ changed) ++ changedWalk base (changed ∪ adds l)
  end.

Fixpoint touched (s : indexSnapshot) : Z :=
  match s with
  | [] | [_] => 0
  | l :: base => Z.of_nat (size (adds l)) + Z.of_nat (size (removes l)) + touched base
  end.

Definition forEachKey (s : indexSnapshot) : list string :=
  match s with
  | [] => []
  | l :: base =>
      if len s =? 0 then []
      else if bool_decide (removes l = ∅) && ((length base =? 0)%nat || (len base =? 0))
      then elements (adds l)
      else
        match last s with
        | None => []
        | Some terminal =>
            if negb (bool_decide (removes terminal = ∅)) || (lsize terminal <=? touched s)
            then reconciled s ∅
            else changedWalk s ∅
        end
  end.

(** What [forEachOrderDesc] visits, in order. *)
Definition forEachOrderDesc (s : indexSnapshot) : list recordOrderEntry :=
  concat (map (λ l, reverse (order l)) s).

(** ** Compaction *)

Fixpoint compactLoop (s : indexSnapshot) (live dead : gset string) : gset string :=
  match s with
  | [] => live
  | l :: base =>
      let dead := dead ∪ (removes l ∖ live) in
      compactLoop base (live ∪ (adds l ∖ dead)) dead
  end.

Definition compactKeys (s : indexSnapshot) : gset string := compactLoop s ∅ ∅.

(** The newest entry of every live key, newest first. *)
Fixpoint newestEntries (l : list recordOrderEntry) (keys seen : gset string) : list recordOrderEntry :=
  match l with
  | [] => []
  | e :: rest =>
      if bool_decide (okey e ∉ keys) then newestEntries rest keys seen
      else if bool_decide (okey e ∈ seen) then newestEntries rest keys seen
      else e :: newestEntries rest keys ({[okey e]} ∪ seen)
  end.

Definition compactOrderEntries (s : indexSnapshot) (keys : gset string) : list recordOrderEntry :=
  reverse (newestEntries (forEachOrderDesc s) keys ∅).

Definition compactIndexSnapshot (s : indexSnapshot) : indexSnapshot :=
  if depthOf s <=? maxIndexDeltaDepth then s
  else
    let keys := compactKeys s in
    [mkLayer keys ∅ (compactOrderEntries s keys) (Z.of_nat (size keys)) 0].

(** ** Changes of one batch *)

Record indexChange := mkChange {
  cadds : gmap string recordOrderEntry; cremoves : gset string; corder : list recordOrderEntry; delta : Z
}.

Definition noChange : indexChange := mkChange ∅ ∅ [] 0.

Definition addKey (c : indexChange) (entry : recordOrderEntry) : indexChange :=
  let key := okey entry in
  let '(removes, delta) :=
    if bool_decide (key ∈ cremoves c) then (cremoves c ∖ {[key]}, delta c + 1)
    else if bool_decide (is_Some (cadds c !! key)) then (cremoves c, delta c)
    else (cremoves c, delta c + 1) in
  mkChange (<[key := entry]> (cadds c)) removes (corder c ++ [entry]) delta.

Definition removeKey (c : indexChange) (key : string) : indexChange :=
  match cadds c !! key with
  | Some _ => mkChange (delete key (cadds c)) (cremoves c) (corder c) (delta c - 1)
  | None =>
      if bool_decide (key ∈ cremoves c) then c
      else mkChange (cadds c) ({[key]} ∪ cremoves c) (corder c) (delta c - 1)
  end.

(** One cell of [publish]: the next snapshot and whether it was compacted. *)
Definition publishCell (old : indexSnapshot) (c : indexChange) : indexSnapshot * bool :=
  let next := mkLayer (dom (cadds c)) (cremoves c)
                (filter (λ e, is_Some (cadds c !! okey e)) (corder c))
                (Z.max (len old + delta c) 0) (depthOf old + 1) :: old in
  (compactIndexSnapshot next, maxIndexDeltaDepth <? depthOf old + 1).

Section Cells.
Context `{Countable C}.

Definition snapshotOf (cells : gmap C indexSnapshot) (c : C) : indexSnapshot :=
  default emptyIndex (cells !! c).

Definition changeOf (changes : gmap C indexChange) (c : C) : indexChange :=
  default noChange (changes !! c).

(** [publisher.add] and [publisher.remove] on a cell. *)
Definition publisherAdd (changes : gmap C indexChange) (c : C) (e : recordOrderEntry) : gmap C indexChange :=
  <[c := addKey (changeOf changes c) e]> changes.
Definition publisherRemove (changes : gmap C indexChange) (c : C) (key : string) : gmap C indexChange :=
  <[c := removeKey (changeOf changes c) key]> changes.

(** [publish]: every changed cell gets its next snapshot. *)
Definition publish (cells : gmap C indexSnapshot) (changes : gmap C indexChange) : gmap C indexSnapshot :=
  map_imap (λ c ch, Some (fst (publishCell (snapshotOf cells c) ch))) changes ∪ cells.

Definition compactions (cells : gmap C indexSnapshot) (changes : gmap C indexChange) : Z :=
  Z.of_nat (length (filter (λ c, snd (publishCell (snapshotOf cells (fst c)) (snd c)) = true)
                      (map_to_list changes))).

End Cells.

(** ** What a snapshot promises

    [E] maps the keys currently indexed to the version of their record.  A
    reader may see more keys (it re-checks each record), never fewer: every
    expected key is visited, the reported length bounds their number, and the
    newest order entry of an expected key carries its version. *)

Fixpoint newest (l : list recordOrderEntry) (k : string) : option Z :=
  match l with
  | [] => None
  | e :: rest => if decide (okey e = k) then Some (oversion e) else newest rest k
  end.

Inductive snap_ok : indexSnapshot → gmap string Z → Prop :=
| snap_flat l E :
    removes l = ∅ → dom E ⊆ adds l → Z.of_nat (size E) ≤ lsize l →
    (∀ k v, E !! k = Some v → newest (reverse (order l)) k = Some v) →
    snap_ok [l] E
| snap_layer l base Eb E :
    snap_ok base Eb →
    (∀ k v, E !! k = Some v →
       (k ∈ adds l ∧ newest (reverse (order l)) k = Some v) ∨
       ((k ∉ adds l) ∧ (k ∉ removes l) ∧ newest (reverse (order l)) k = None ∧ Eb !! k = Some v)) →
    (∀ k, k ∈ removes l → k ∉ adds l) →
    Z.of_nat (size E) ≤ lsize l →
    snap_ok (l :: base) E.

(** What one batch of changes promises, against the base snapshot. *)
Record change_ok (base : indexSnapshot) (Eb : gmap string Z) (c : indexChange) (E : gmap string Z) : Prop := {
  co_adds : ∀ k e, cadds c !! k = Some e → okey e = k ∧ E !! k = Some (oversion e);
  co_removes : ∀ k, k ∈ cremoves c → E !! k = None;
  co_cover : ∀ k v, E !! k = Some v →
    is_Some (cadds c !! k) ∨ (cadds c !! k = None ∧ (k ∉ cremoves c) ∧ Eb !! k = Some v);
  co_order : ∀ k e, cadds c !! k = Some e → newest (reverse (corder c)) k = Some (oversion e);
  co_size : Z.of_nat (size E) ≤ len base + delta c
}.

Lemma newest_app l k key : newest (l ++ k) key = match newest l key with Some v => Some v | None => newest k key end.
Proof. induction l as [|e l IH]; [done|]. cbn. by case_decide. Qed.

Lemma newest_cons e l key : newest (e :: l) key = if decide (okey e = key) then Some (oversion e) else newest l key.
Proof. done. Qed.

Lemma newest_filter (P : recordOrderEntry → Prop) `{!∀ e, Decision (P e)} l key :
  (∀ e, okey e = key → P e) → newest (filter P l) key = newest l key.
Proof.
  intros HP. induction l as [|e l IH]; [done|]. rewrite filter_cons. case_decide as Hd.
  - rewrite !newest_cons. by rewrite IH.
  - rewrite newest_cons, decide_False; [done|]. intros He. by apply Hd, HP.
Qed.

Lemma newest_filter_none (P : recordOrderEntry → Prop) `{!∀ e, Decision (P e)} l key :
  (∀ e, okey e = key → ¬ P e) → newest (filter P l) key = None.
Proof.
  intros HP. induction l as [|e l IH]; [done|]. rewrite filter_cons. case_decide as Hd; [|done].
  rewrite newest_cons, decide_False; [done|]. intros He. by apply (HP e).
Qed.

(** ** A batch keeps its promise *)

Lemma no_change_ok s E : snap_ok s E → change_ok s E noChange E.
Proof.
  intros Hs. split; cbn [cadds cremoves corder delta noChange].
  - intros k e. by rewrite lookup_empty.
  - intros k Hk. by apply not_elem_of_empty in Hk.
  - intros k v Hv. right. rewrite lookup_empty. split_and!; [done|apply not_elem_of_empty|done].
  - intros k e. by rewrite lookup_empty.
  - rewrite Z.add_0_r. by destruct Hs.
Qed.

Lemma add_key_ok base Eb c E k v : change_ok base Eb c E → E !! k = None →
  change_ok base Eb (addKey c (mkOrder k v)) (<[k := v]> E).
Proof.
  intros Hc Hk. pose proof (co_size _ _ _ _ Hc) as Hs.
  assert (cadds c !! k = None) as Hna.
  { apply eq_None_not_Some. intros [e He]. apply (co_adds _ _ _ _ Hc) in He as [_ He]. congruence. }
  unfold addKey. cbn [okey]. rewrite (bool_decide_false (is_Some _)) by (rewrite Hna; by apply is_Some_None).
  assert (∀ R d, (∀ k', k' ∈ R → k' ≠ k ∧ k' ∈ cremoves c) → (∀ k', k' ∈ cremoves c → k' ≠ k → k' ∈ R) →
    d = delta c + 1 →
    change_ok base Eb (mkChange (<[k := mkOrder k v]> (cadds c)) R (corder c ++ [mkOrder k v]) d) (<[k := v]> E))
    as Hgen.
  { intros R d HR1 HR2 ->. split; cbn [cadds cremoves corder delta].
    - intros k' e [[<- <-]|[Hne He]]%lookup_insert_Some; [by rewrite lookup_insert_eq|].
      rewrite lookup_insert_ne by done. by apply (co_adds _ _ _ _ Hc).
    - intros k' [Hne Hin]%HR1. rewrite lookup_insert_ne by done. by apply (co_removes _ _ _ _ Hc).
    - intros k' v' [[<- <-]|[Hne Hv]]%lookup_insert_Some; [left; rewrite lookup_insert_eq; eauto|].
      rewrite lookup_insert_ne by done.
      destruct (co_cover _ _ _ _ Hc k' v' Hv) as [?|(? & ? & ?)]; [by left|right].
      split_and!; [done| |done]. by intros [_ ?]%HR1.
    - intros k' e. rewrite reverse_app, reverse_singleton, newest_app, newest_cons. cbn [okey oversion].
      intros [[<- <-]|[Hne He]]%lookup_insert_Some; [by rewrite decide_True|].
      rewrite decide_False by done. cbn. by apply (co_order _ _ _ _ Hc).
    - rewrite map_size_insert_None by done. lia. }
  case_bool_decide as Hr; apply Hgen; try done; set_solver.
Qed.

Lemma remove_key_ok base Eb c E k v : change_ok base Eb c E → E !! k = Some v →
  change_ok base Eb (removeKey c k) (delete k E).
Proof.
  intros Hc Hk. pose proof (co_size _ _ _ _ Hc) as Hs.
  assert (size E = S (size (delete k E))) as Hsz.
  { rewrite map_size_delete_Some by (by eexists). assert (size E ≠ 0%nat); [|lia].
    intros Hz%map_size_empty_inv. rewrite Hz in Hk. by rewrite lookup_empty in Hk. }
  assert (k ∉ cremoves c) as Hnr by (intros Hin; apply (co_removes _ _ _ _ Hc) in Hin; congruence).
  unfold removeKey. destruct (cadds c !! k) as [e|] eqn:E1.
  - split; cbn [cadds cremoves corder delta].
    + intros k' e' [Hne He]%lookup_delete_Some. rewrite lookup_delete_ne by done. by apply (co_adds _ _ _ _ Hc).
    + intros k' Hin. destruct (decide (k' = k)) as [->|]; [by rewrite lookup_delete_eq|].
      rewrite lookup_delete_ne by done. by apply (co_removes _ _ _ _ Hc).
    + intros k' v' [Hne Hv]%lookup_delete_Some. rewrite lookup_delete_ne by done. by apply (co_cover _ _ _ _ Hc).
    + intros k' e' [Hne He]%lookup_delete_Some. by apply (co_order _ _ _ _ Hc).
    + lia.
  - rewrite bool_decide_false by done. split; cbn [cadds cremoves corder delta].
    + intros k' e' He. assert (k' ≠ k) by (intros ->; congruence). rewrite lookup_delete_ne by done.
      by apply (co_adds _ _ _ _ Hc).
    + intros k' [->%elem_of_singleton|Hin]%elem_of_union; [by rewrite lookup_delete_eq|].
      destruct (decide (k' = k)) as [->|]; [done|]. rewrite lookup_delete_ne by done. by apply (co_removes _ _ _ _ Hc).
    + intros k' v' [Hne Hv]%lookup_delete_Some.
      destruct (co_cover _ _ _ _ Hc k' v' Hv) as [?|(? & ? & ?)]; [by left|right]. set_solver.
    + apply (co_order _ _ _ _ Hc).
    + lia.
Qed.

(** ** Reading a chain *)

(** The newest layer that mentions a key decides: a removal or an addition. *)
Fixpoint verdict (s : indexSnapshot) (k : string) : option bool :=
  match s with
  | [] => None
  | l :: base =>
      if decide (k ∈ removes l) then Some false
      else if decide (k ∈ adds l) then Some true else verdict base k
  end.

Lemma snap_ok_verdict s E k v : snap_ok s E → E !! k = Some v → verdict s k = Some true.
Proof.
  intros Hs. revert k v. induction Hs as [l E Hr Ha _ _|l base Eb E _ IH Hc Hdis _]; intros k v Hk; cbn [verdict].
  - rewrite decide_False by (rewrite Hr; set_solver). rewrite decide_True; [done|].
    apply Ha. by apply elem_of_dom_2 in Hk.
  - destruct (Hc k v Hk) as [[Hin _]|(Hna & Hnr & _ & Hb)].
    + rewrite decide_False by (intros Hr; by apply (Hdis k)). by rewrite decide_True.
    + rewrite !decide_False by done. by eapply IH.
Qed.

Lemma snap_ok_newest s E k v : snap_ok s E → E !! k = Some v → newest (forEachOrderDesc s) k = Some v.
Proof.
  intros Hs. revert k v. unfold forEachOrderDesc.
  induction Hs as [l E _ _ _ Ho|l base Eb E _ IH Hc _ _]; intros k v Hk; cbn [map concat].
  - rewrite app_nil_r. by apply Ho.
  - rewrite newest_app. destruct (Hc k v Hk) as [[_ ->]|(_ & _ & -> & Hb)]; [done|]. by apply IH.
Qed.

Lemma snap_ok_len s E : snap_ok s E → Z.of_nat (size E) ≤ len s.
Proof. by destruct 1. Qed.

Lemma snap_ok_mono s E E' : snap_ok s E → E' ⊆ E → snap_ok s E'.
Proof.
  intros Hs Hsub. assert (Z.of_nat (size E') ≤ Z.of_nat (size E)) as Hsz.
  { apply Nat2Z.inj_le. by apply map_subseteq_size. }
  destruct Hs as [l E Hr Ha Hl Ho|l base Eb E Hb Hc Hd Hl].
  - apply snap_flat; [done| |lia|].
    + etrans; [|done]. by apply subseteq_dom.
    + intros k v Hk. apply Ho. by eapply lookup_weaken.
  - eapply snap_layer; [done| |done|lia]. intros k v Hk. apply Hc. by eapply lookup_weaken.
Qed.

Lemma reconciled_spec s : ∀ seen,
  NoDup (reconciled s seen) ∧ ∀ k, k ∈ reconciled s seen ↔ (k ∉ seen) ∧ verdict s k = Some true.
Proof.
  induction s as [|l base IH]; intros seen; cbn [reconciled verdict].
  { split; [constructor|]. intros k. split; [by intros ?%elem_of_nil|by intros [_ ?]]. }
  destruct (IH (seen ∪ removes l ∪ adds l)) as [Hn Hin]. split.
  - apply NoDup_app. split_and!; [apply NoDup_elements| |done].
    intros k Hk%elem_of_elements [Hk' _]%Hin. set_solver.
  - intros k. rewrite elem_of_app, elem_of_elements, Hin.
    destruct (decide (k ∈ removes l)), (decide (k ∈ adds l)); set_solver.
Qed.

(** A flat last layer has no removals, so emitting it with a lookup is the same
    as reconciling it. *)
Lemma changed_walk_reconciled s : ∀ changed,
  (∀ t, last s = Some t → removes t = ∅) → changedWalk s changed = reconciled s changed.
Proof.
  induction s as [|l [|m base] IH]; intros changed Ht; [done| |].
  - cbn. rewrite (Ht l eq_refl). by rewrite (right_id_L ∅ (∪)), app_nil_r.
  - cbn [changedWalk reconciled] in *. f_equal. apply IH. intros t Hl. by apply Ht.
Qed.

Lemma for_each_key_spec s E : snap_ok s E →
  NoDup (forEachKey s) ∧ (∀ k, is_Some (E !! k) → k ∈ forEachKey s) ∧
  (∀ k, k ∈ forEachKey s → verdict s k = Some true).
Proof.
  intros Hs. pose proof (snap_ok_len _ _ Hs) as Hlen.
  pose proof (λ k v, snap_ok_verdict s E k v Hs) as Hver.
  destruct s as [|l base]; [inversion Hs|]. unfold forEachKey.
  destruct (Z.eqb_spec (len (l :: base)) 0) as [Hz|_].
  { split_and!; [constructor| |by intros k ?%elem_of_nil]. intros k [v Hk].
    assert (size E = 0%nat) as ->%map_size_empty_inv by lia. by rewrite lookup_empty in Hk. }
  destruct (bool_decide (removes l = ∅) && ((length base =? 0)%nat || (len base =? 0))) eqn:Hc.
  { apply andb_true_iff in Hc as [Hr%bool_decide_eq_true Hb]. split_and!; [apply NoDup_elements| |].
    - intros k [v Hk]. apply elem_of_elements. inversion Hs as [? ? _ Ha|? ? Eb ? Hsb Hcv]; subst.
      + apply Ha. by apply elem_of_dom_2 in Hk.
      + destruct (Hcv k v Hk) as [[? _]|(_ & _ & _ & Hkb)]; [done|]. exfalso.
        pose proof (snap_ok_len _ _ Hsb) as Hlb.
        apply orb_true_iff in Hb as [Hb%Nat.eqb_eq|Hb%Z.eqb_eq].
        * destruct base; [inversion Hsb|done].
        * assert (size Eb = 0%nat) as ->%map_size_empty_inv by lia. by rewrite lookup_empty in Hkb.
    - intros k Hk%elem_of_elements. cbn. rewrite decide_False by (rewrite Hr; set_solver). by rewrite decide_True. }
  destruct (last (l :: base)) as [t|] eqn:Ht; [|by apply last_None in Ht].
  destruct (negb (bool_decide (removes t = ∅)) || (lsize t <=? touched (l :: base))) eqn:Hbr.
  - destruct (reconciled_spec (l :: base) ∅) as [Hn Hin]. split_and!; [done| |].
    + intros k [v Hk]. apply Hin. split; [set_solver|]. by eapply Hver.
    + intros k Hk. by apply Hin in Hk as [_ ?].
  - apply orb_false_iff in Hbr as [Hr%negb_false_iff%bool_decide_eq_true _].
    rewrite changed_walk_reconciled by (intros t' Ht'; congruence).
    destruct (reconciled_spec (l :: base) ∅) as [Hn Hin]. split_and!; [done| |].
    + intros k [v Hk]. apply Hin. split; [set_solver|]. by eapply Hver.
    + intros k Hk. by apply Hin in Hk as [_ ?].
Qed.

(** ** Compaction keeps the promise *)

Lemma compact_loop_spec s : ∀ live dead, live ## dead → ∀ k,
  k ∈ compactLoop s live dead ↔ k ∈ live ∨ ((k ∉ dead) ∧ verdict s k = Some true).
Proof.
  induction s as [|l base IH]; intros live dead Hd k; cbn [compactLoop verdict]; [set_solver|].
  rewrite IH by set_solver.
  destruct (decide (k ∈ removes l)), (decide (k ∈ adds l)); destruct (decide (k ∈ live)); set_solver.
Qed.

Lemma compact_keys_spec s k : k ∈ compactKeys s ↔ verdict s k = Some true.
Proof. unfold compactKeys. rewrite compact_loop_spec by set_solver. set_solver. Qed.

Lemma newest_entries_spec l keys k : k ∈ keys → ∀ seen, k ∉ seen →
  newest (newestEntries l keys seen) k = newest l k.
Proof.
  intros Hk. induction l as [|e l IH]; intros seen Hs; cbn [newestEntries newest]; [done|].
  case_bool_decide as Hke.
  { rewrite IH by done. rewrite decide_False; [done|]. intros He. by rewrite He in Hke. }
  case_bool_decide as Hse.
  { rewrite IH by done. rewrite decide_False; [done|]. intros He. by rewrite He in Hse. }
  cbn [newest]. case_decide as He; [done|]. apply IH. set_solver.
Qed.

Lemma compact_ok s E : snap_ok s E → snap_ok (compactIndexSnapshot s) E.
Proof.
  intros Hs. unfold compactIndexSnapshot. destruct (_ <=? _); [done|].
  assert (dom E ⊆ compactKeys s) as Hdom.
  { intros k [v Hk]%elem_of_dom. apply compact_keys_spec. by eapply snap_ok_verdict. }
  apply snap_flat; cbn [adds removes order lsize]; [done|done| |].
  - apply Nat2Z.inj_le. rewrite <- size_dom. by apply subseteq_size.
  - intros k v Hk. unfold compactOrderEntries. rewrite reverse_involutive.
    rewrite newest_entries_spec; [by eapply snap_ok_newest| |set_solver].
    apply Hdom. by apply elem_of_dom_2 in Hk.
Qed.

Lemma filter_reverse {A} (P : A → Prop) `{!∀ x, Decision (P x)} l : filter P (reverse l) = reverse (filter P l).
Proof.
  induction l as [|x l IH]; [done|]. rewrite reverse_cons, filter_app, IH, !filter_cons, filter_nil.
  destruct (decide (P x)); [by rewrite reverse_cons|by rewrite app_nil_r].
Qed.

Lemma publish_cell_ok base Eb c E : snap_ok base Eb → change_ok base Eb c E →
  snap_ok (fst (publishCell base c)) E.
Proof.
  intros Hb Hc. unfold publishCell. cbn [fst]. apply compact_ok. eapply snap_layer; [exact Hb| | |]; cbn [adds removes order lsize].
  - intros k v Hk. destruct (co_cover _ _ _ _ Hc k v Hk) as [[e He]|(Hn & Hr & HE)].
    + left. split; [by apply elem_of_dom_2 in He|]. rewrite <- filter_reverse, newest_filter.
      * rewrite (co_order _ _ _ _ Hc k e He). apply (co_adds _ _ _ _ Hc) in He as [_ He]. congruence.
      * intros e' ->. by rewrite He.
    + right. split_and!; [by apply not_elem_of_dom|done| |done].
      rewrite <- filter_reverse. apply newest_filter_none. intros e ->. rewrite Hn. by apply is_Some_None.
  - intros k Hr [e He]%elem_of_dom. apply (co_removes _ _ _ _ Hc) in Hr.
    apply (co_adds _ _ _ _ Hc) in He as [_ He]. congruence.
  - pose proof (co_size _ _ _ _ Hc). lia.
Qed.

Lemma empty_index_ok : snap_ok emptyIndex ∅.
Proof.
  apply snap_flat; cbn [adds removes order lsize]; [done|set_solver|done|]. intros k v. by rewrite lookup_empty.
Qed.


(** ** The life of a cell

    The partition adds a key to a cell only when it is not indexed there (it
    removes the previous version of a record first) and removes only indexed
    keys; [legal] says so of one batch, from what is expected before it. *)

Inductive cellOp := CAdd (e : recordOrderEntry) | CRemove (k : string).

Definition stepChange (c : indexChange) (op : cellOp) : indexChange :=
  match op with CAdd e => addKey c e | CRemove k => removeKey c k end.

Definition expect (E : gmap string Z) (op : cellOp) : gmap string Z :=
  match op with CAdd e => <[okey e := oversion e]> E | CRemove k => delete k E end.

Definition legalOp (E : gmap string Z) (op : cellOp) : bool :=
  match op with
  | CAdd e => bool_decide (E !! okey e = None)
  | CRemove k => bool_decide (is_Some (E !! k))
  end.

Fixpoint legal (E : gmap string Z) (ops : list cellOp) : bool :=
  match ops with [] => true | op :: rest => legalOp E op && legal (expect E op) rest end.

(** One batch on one cell. *)
Definition runBatch (s : indexSnapshot) (ops : list cellOp) : indexSnapshot :=
  fst (publishCell s (foldl stepChange noChange ops)).

Definition expectBatch (E : gmap string Z) (ops : list cellOp) : gmap string Z := foldl expect E ops.

Fixpoint legalBatches (E : gmap string Z) (bs : list (list cellOp)) : bool :=
  match bs with [] => true | b :: rest => legal E b && legalBatches (expectBatch E b) rest end.

(** No key is removed twice in the same batch. *)
Fixpoint singleRemoves (ops : list cellOp) (seen : gset string) : bool :=
  match ops with
  | [] => true
  | CAdd _ :: rest => singleRemoves rest seen
  | CRemove k :: rest => bool_decide (k ∉ seen) && singleRemoves rest ({[k]} ∪ seen)
  end.

Lemma step_ok base Eb c E op : change_ok base Eb c E → legalOp E op = true →
  change_ok base Eb (stepChange c op) (expect E op).
Proof.
  destruct op as [[k v]|k]; cbn [legalOp stepChange expect okey oversion]; intros Hc Hl%bool_decide_eq_true.
  - by apply add_key_ok.
  - destruct Hl as [v Hv]. by eapply remove_key_ok.
Qed.

Lemma steps_ok base Eb ops : ∀ c E, change_ok base Eb c E → legal E ops = true →
  change_ok base Eb (foldl stepChange c ops) (expectBatch E ops).
Proof.
  induction ops as [|op ops IH]; intros c E Hc Hl; [done|]. cbn in Hl. apply andb_true_iff in Hl as [Ho Hl].
  apply IH; [by apply step_ok|done].
Qed.

Lemma run_batch_ok s E ops : snap_ok s E → legal E ops = true → snap_ok (runBatch s ops) (expectBatch E ops).
Proof. intros Hs Hl. eapply publish_cell_ok; [done|]. apply steps_ok; [by apply no_change_ok|done]. Qed.

Lemma run_batches_ok bs : ∀ s E, snap_ok s E → legalBatches E bs = true →
  snap_ok (foldl runBatch s bs) (foldl expectBatch E bs).
Proof.
  induction bs as [|b bs IH]; intros s E Hs Hl; [done|]. cbn in Hl. apply andb_true_iff in Hl as [Hb Hl].
  apply IH; [by apply run_batch_ok|done].
Qed.

Lemma publish_depth s c : depthOf (fst (publishCell s c)) ≤ maxIndexDeltaDepth.
Proof.
  unfold publishCell, compactIndexSnapshot. cbn [fst]. case_match eqn:E; [by apply Z.leb_le in E|].
  by vm_compute.
Qed.

Lemma run_batches_depth bs s : depthOf s ≤ maxIndexDeltaDepth → depthOf (foldl runBatch s bs) ≤ maxIndexDeltaDepth.
Proof. revert s. induction bs as [|b bs IH]; intros s Hs; [done|]. apply IH, publish_depth. Qed.

(** *** Exactness *)

(** Nothing but the expected keys is visited. *)
Definition exact (s : indexSnapshot) (E : gmap string Z) : Prop :=
  ∀ k, verdict s k = Some true → is_Some (E !! k).

Definition layerOf (c : indexChange) : layer := mkLayer (dom (cadds c)) (cremoves c) [] 0 0.

Record exact_change (base : indexSnapshot) (c : indexChange) (E : gmap string Z) (R : gset string) : Prop := {
  ec_exact : exact (layerOf c :: base) E;
  ec_fresh : ∀ k, is_Some (cadds c !! k) → k ∉ R → verdict base k ≠ Some true
}.

Lemma layer_verdict c base k : verdict (layerOf c :: base) k =
  if decide (k ∈ cremoves c) then Some false else if decide (is_Some (cadds c !! k)) then Some true else verdict base k.
Proof.
  cbn. repeat case_decide; try done; rewrite elem_of_dom in *; done.
Qed.

Lemma add_key_exact base c E R k v : exact_change base c E R →
  E !! k = None → (k ∈ R ∨ verdict base k ≠ Some true) →
  exact_change base (addKey c (mkOrder k v)) (<[k := v]> E) R.
Proof.
  intros [He Hf] HE HR. assert (∀ D d, (∀ k', k' ≠ k → k' ∈ cremoves c → k' ∈ D) →
    exact_change base (mkChange (<[k := mkOrder k v]> (cadds c)) D (corder c ++ [mkOrder k v]) d) (<[k := v]> E) R) as Hgen.
  { intros D d HD. split.
    - intros k' Hk'. destruct (decide (k' = k)) as [->|Hne]; [by rewrite lookup_insert_eq|].
      rewrite lookup_insert_ne by done. apply He. rewrite layer_verdict in *. cbn in Hk'.
      rewrite lookup_insert_ne in Hk' by done. destruct (decide (k' ∈ D)); [done|].
      rewrite decide_False by naive_solver. done.
    - cbn. intros k' Hk' Hr. destruct (decide (k' = k)) as [->|Hne]; [by destruct HR|].
      rewrite lookup_insert_ne in Hk' by done. by apply Hf. }
  unfold addKey. cbn [okey]. repeat case_bool_decide; apply Hgen; set_solver.
Qed.

Lemma remove_key_exact base c E R k : exact_change base c E R → k ∉ R →
  exact_change base (removeKey c k) (delete k E) ({[k]} ∪ R).
Proof.
  intros [He Hf] HR. unfold removeKey. destruct (cadds c !! k) as [e|] eqn:Ek; [|case_bool_decide as Hin].
  - split; cbn [cadds].
    + intros k' Hk'. rewrite layer_verdict in Hk'. cbn [cadds cremoves] in Hk'.
      destruct (decide (k' = k)) as [->|Hne].
      { rewrite lookup_delete_eq in Hk'. destruct (decide _) in Hk'; [done|]. rewrite decide_False in Hk' by (by intros []).
        exfalso. by eapply (Hf k). }
      rewrite lookup_delete_ne by done. apply He. rewrite layer_verdict. by rewrite lookup_delete_ne in Hk'.
    + intros k' [e' [Hne He']%lookup_delete_Some] Hr. apply Hf; [eauto|set_solver].
  - split; [|intros k' ? ?; apply Hf; [done|set_solver]].
    intros k' Hk'. destruct (decide (k' = k)) as [->|Hne].
    { rewrite layer_verdict, decide_True in Hk' by done. done. }
    rewrite lookup_delete_ne by done. by apply He.
  - split; cbn [cadds]; [|intros k' ? ?; apply Hf; [done|set_solver]].
    intros k' Hk'. rewrite layer_verdict in Hk'. cbn [cadds cremoves] in Hk'.
    destruct (decide (k' = k)) as [->|Hne]; [by rewrite decide_True in Hk' by set_solver|].
    rewrite lookup_delete_ne by done. apply He. rewrite layer_verdict.
    destruct (decide (k' ∈ {[k]} ∪ cremoves c)) as [|Hn] in Hk'; [done|]. rewrite decide_False by set_solver. done.
Qed.

Lemma steps_exact base ops : ∀ c E R, exact_change base c E R →
  (∀ k, verdict base k = Some true → k ∉ R → is_Some (E !! k)) →
  legal E ops = true → singleRemoves ops R = true →
  exact (layerOf (foldl stepChange c ops) :: base) (expectBatch E ops).
Proof.
  induction ops as [|op ops IH]; intros c E R Hc Hk Hl Hs; [by destruct Hc|].
  cbn in Hl. apply andb_true_iff in Hl as [Ho Hl]. destruct op as [[k v]|k]; cbn in Ho, Hs.
  - apply bool_decide_eq_true in Ho. eapply (IH _ _ R); [|..|done|done].
    + apply add_key_exact; [done|done|]. destruct (decide (k ∈ R)) as [|Hr]; [by left|right].
      intros Hv. destruct (Hk k Hv Hr) as [? ?]. congruence.
    + intros k' Hv Hr. cbn. apply lookup_insert_is_Some'. by right; apply Hk.
  - apply andb_true_iff in Hs as [Hn%bool_decide_eq_true Hs]. eapply (IH _ _ ({[k]} ∪ R)); [|..|done|done].
    + by apply remove_key_exact.
    + intros k' Hv Hr. cbn. rewrite lookup_delete_ne by set_solver. apply Hk; [done|set_solver].
Qed.

Lemma compact_verdict s k : verdict (compactIndexSnapshot s) k = Some true ↔ verdict s k = Some true.
Proof.
  unfold compactIndexSnapshot. case_match; [done|]. cbn. rewrite decide_False by set_solver.
  rewrite <- compact_keys_spec. case_decide; naive_solver.
Qed.

Lemma run_batch_exact s E ops : snap_ok s E → exact s E → legal E ops = true → singleRemoves ops ∅ = true →
  exact (runBatch s ops) (expectBatch E ops).
Proof.
  intros Hok He Hl Hs k Hk. unfold runBatch, publishCell in Hk. cbn [fst] in Hk.
  apply (proj1 (compact_verdict _ _)) in Hk.
  eapply (steps_exact s ops noChange E ∅); [|intros k' Hv _; by apply He|done|done|exact Hk].
  split; [|cbn; intros k'; rewrite lookup_empty; by intros []].
  intros k' Hk'. apply He. rewrite layer_verdict in Hk'. cbn [noChange cadds cremoves] in Hk'.
  rewrite decide_False in Hk' by set_solver. by rewrite lookup_empty, decide_False in Hk' by (by intros []).
Qed.

Lemma run_batches_exact bs : ∀ s E, snap_ok s E → exact s E → legalBatches E bs = true →
  forallb (λ b, singleRemoves b ∅) bs = true → exact (foldl runBatch s bs) (foldl expectBatch E bs).
Proof.
  induction bs as [|b bs IH]; intros s E Hs He Hl Hr; [done|]. cbn in Hl, Hr.
  apply andb_true_iff in Hl as [Hb Hl]. apply andb_true_iff in Hr as [Hrb Hr].
  apply IH; [by apply run_batch_ok|by apply run_batch_exact|done|done].
Qed.

Lemma empty_index_exact : exact emptyIndex ∅.
Proof. intros k. cbn. rewrite !decide_False by set_solver. done. Qed.

(** C9: a key index survives any history of publications, compactions
    included: starting from the empty index and publishing any sequence of
    batches in which a key is added only while absent and removed only while
    present, the reader's walk visits no key twice and every indexed key, the
    reported length bounds the number of indexed keys from above (so choosing
    the shortest index never drops results), the newest order entry of an
    indexed key carries the version of its record, and the chain never gets
    deeper than the compaction limit. *)
Theorem index_never_loses_keys (bs : list (list cellOp)) :
  legalBatches ∅ bs = true →
  let s := foldl runBatch emptyIndex bs in
  let E := foldl expectBatch ∅ bs in
  NoDup (forEachKey s) ∧
  (∀ k v, E !! k = Some v → k ∈ forEachKey s ∧ newest (forEachOrderDesc s) k = Some v) ∧
  Z.of_nat (size E) ≤ len s ∧
  depthOf s ≤ maxIndexDeltaDepth.
Proof.
  intros Hl s E. pose proof (run_batches_ok bs _ _ empty_index_ok Hl) as Hs.
  destruct (for_each_key_spec _ _ Hs) as (Hn & Hin & _). split_and!; [done| | |].
  - intros k v Hk. split; [apply Hin; by eexists|by eapply snap_ok_newest].
  - by apply snap_ok_len.
  - by apply run_batches_depth.
Qed.

Lemma index_never_loses_keys_witness :
  let bs := [[CAdd (mkOrder "a" 1); CAdd (mkOrder "b" 2)]; [CRemove "a"; CAdd (mkOrder "a" 3); CRemove "b"]] in
  legalBatches ∅ bs = true ∧
  let s := foldl runBatch emptyIndex bs in
  let E := foldl expectBatch ∅ bs in
  NoDup (forEachKey s) ∧
  (∀ k v, E !! k = Some v → k ∈ forEachKey s ∧ newest (forEachOrderDesc s) k = Some v) ∧
  Z.of_nat (size E) ≤ len s ∧
  depthOf s ≤ maxIndexDeltaDepth.
Proof. split; [vm_compute; reflexivity|apply index_never_loses_keys; vm_compute; reflexivity]. Defined.

(** While no batch removes the same key twice, a key index is exact: the
    reader's walk visits the indexed keys and nothing else. *)
Theorem index_exact (bs : list (list cellOp)) :
  legalBatches ∅ bs = true → forallb (λ b, singleRemoves b ∅) bs = true →
  ∀ k, k ∈ forEachKey (foldl runBatch emptyIndex bs) ↔ is_Some (foldl expectBatch ∅ bs !! k).
Proof.
  intros Hl Hr k. pose proof (run_batches_ok bs _ _ empty_index_ok Hl) as Hs.
  destruct (for_each_key_spec _ _ Hs) as (_ & Hin & Hv). split; [|apply Hin].
  intros Hk. eapply run_batches_exact; [apply empty_index_ok|apply empty_index_exact|done|done|by apply Hv].
Qed.

Lemma index_exact_witness :
  let bs := [[CAdd (mkOrder "a" 1); CAdd (mkOrder "b" 2)]; [CRemove "a"; CAdd (mkOrder "a" 3); CRemove "b"]] in
  legalBatches ∅ bs = true ∧
  ∀ k, k ∈ forEachKey (foldl runBatch emptyIndex bs) ↔ is_Some (foldl expectBatch ∅ bs !! k).
Proof. split; [vm_compute; reflexivity|]. apply index_exact; vm_compute; reflexivity. Defined.

(** A batch that removes, re-adds and removes a key that the base indexes
    leaves the key in the published index: [publisher.remove] drops the pending
    addition, and [publisher.add] had already dropped the pending removal. *)
Theorem removed_key_stays_indexed :
  let bs := [[CAdd (mkOrder "a" 1); CAdd (mkOrder "b" 1)]; [CRemove "a"; CAdd (mkOrder "a" 2); CRemove "a"]] in
  legalBatches ∅ bs = true ∧ foldl expectBatch ∅ bs !! "a" = None ∧
  "a" ∈ forEachKey (foldl runBatch emptyIndex bs).
Proof. split_and!; [vm_compute; reflexivity..|]. apply (bool_decide_unpack _). vm_compute. exact I. Qed.
