(* ===== verification/RangeIndex.v ===== *)
(** * RangeIndex: ordered numeric indexes

    Models [hermes/range_indexes.go], the comparison operators of
    [hermes/columnar_select.go] and the predicates of
    [hermes/columnar_pushdown.go]: a range index is a chain of layers of
    entries sorted by value, each with the keys it retracts; a batch pushes one
    layer and deep chains are compacted.  A float is represented by its rank in
    the order of the finite and infinite floats ([-0] and [0] share one);
    [parseFloat] is [strconv.ParseFloat] composed with that rank, [None] on an
    error or a NaN. *)

From Stdlib Require Import ZArith Lia Ascii String Sorting.Sorted Permutation.
From stdpp Require Import base sets strings gmap fin_maps numbers sorting list.
From S2P Require Import Prelude GoStrings RecordData HermesKeys.

Open Scope string_scope.
Open Scope list_scope.
Open Scope Z_scope.

(** ** Operators and entries *)

Inductive CompareOp := CompareEq | CompareNe | CompareLt | CompareLe | CompareGt | CompareGe.

Definition compareMatches (op : CompareOp) (value operand : Z) : bool :=
  match op with
  | CompareEq => value =? operand
  | CompareNe => negb (value =? operand)
  | CompareLt => value <? operand
  | CompareLe => value <=? operand
  | CompareGt => operand <? value
  | CompareGe => operand <=? value
  end.

Definition maxRangeIndexDeltaDepth : Z := 32.

Record rangeIndexEntry := mkRange {
  rkey : string; prefix : Z; rversion : Z; intVal : Z; floatVal : Z
}.

#[export] Instance rangeIndexEntry_eq_dec : EqDecision rangeIndexEntry.
Proof. solve_decision. Defined.

(** Eight bytes, big endian, padded with zeros. *)
Fixpoint prefixBytes (n : nat) (key : string) (acc : Z) : Z :=
  match n with
  | O => acc
  | S n' =>
      match key with
      | "" => prefixBytes n' "" (acc * 256)
      | String c rest => prefixBytes n' rest (acc * 256 + Z.of_nat (nat_of_ascii c))
      end
  end.

Definition inlineKeyPrefix (key : string) : Z := prefixBytes 8 key 0.

(** ** Values *)

Section Parse.
Variable parseFloat : string → option Z.

Definition numericRangeValue (value : RecordValue) : option (ascii * Z * Z) :=
  match Kind_ value with
  | RecordValueInt | RecordValueUint => (λ v, ("i"%char, v, 0)) <$> parseInt64 (Text value)
  | RecordValueFloat => (λ v, ("f"%char, 0, v)) <$> parseFloat (Text value)
  | _ => None
  end.

(** The index cells of a record with the values it has there. *)
Definition forEachRangeIndexedValue (spec : ProjectionSpec) (rec : DomainRecord) :
    list (recordScope * string * ascii * (Z * Z)) :=
  let scope := scopeKey (Domain rec) (Collection rec) (OrganizationID rec) in
  omap (λ field,
    value ← Get (Data rec) field;
    '(kind, iv, fv) ← numericRangeValue value;
    Some (scope, field, kind, (iv, fv))) (RangeIndexedFields spec).

End Parse.

(** ** Snapshots *)

Record rangeLayer := mkRangeLayer {
  entries : list rangeIndexEntry; rremoves : gset string; rsize : Z; rdepth : Z
}.

(** A snapshot and its chain of bases; [nil] is the empty list. *)
Abbreviation rangeIndexSnapshot := (list rangeLayer).

Definition newRangeIndexCell : rangeIndexSnapshot := [mkRangeLayer [] ∅ 0 0].

Definition rangeSize (s : rangeIndexSnapshot) : Z := match s with [] => 0 | l :: _ => rsize l end.
Definition rangeDepth (s : rangeIndexSnapshot) : Z := match s with [] => 0 | l :: _ => rdepth l end.

Section Kind.
Variable kind : ascii.

(** The component of an entry that an index of this kind orders by. *)
Definition rangeVal (e : rangeIndexEntry) : Z := if Ascii.eqb kind "f" then floatVal e else intVal e.

(** Less and equal. *)
Definition rangeEntryCompare (a b : rangeIndexEntry) : bool * bool :=
  (rangeVal a <? rangeVal b, rangeVal a =? rangeVal b).

(** The comparison that [sortRangeEntries] sorts by. *)
Definition rangeLess (a b : rangeIndexEntry) : bool :=
  let '(less, equal) := rangeEntryCompare a b in
  if negb equal then less
  else if negb (prefix a =? prefix b) then prefix a <? prefix b
  else String.ltb (rkey a) (rkey b).

Definition rangeLe (a b : rangeIndexEntry) : Prop := rangeLess b a = false.

#[local] Instance rangeLe_dec : RelDecision rangeLe.
Proof. intros a b. unfold rangeLe. apply _. Defined.

Definition sortRangeEntries (l : list rangeIndexEntry) : list rangeIndexEntry := merge_sort rangeLe l.

(** ** Changes of one batch *)

Record rangeIndexChange := mkRangeChange {
  radds : gmap string rangeIndexEntry; cremoved : gset string; rdelta : Z
}.

Definition noRangeChange : rangeIndexChange := mkRangeChange ∅ ∅ 0.

Definition withPrefix (e : rangeIndexEntry) : rangeIndexEntry :=
  if (prefix e =? 0) && negb (String.eqb (rkey e) "")
  then mkRange (rkey e) (inlineKeyPrefix (rkey e)) (rversion e) (intVal e) (floatVal e)
  else e.

Definition rangeAdd (c : rangeIndexChange) (entry : rangeIndexEntry) : rangeIndexChange :=
  let entry := withPrefix entry in
  let d := if bool_decide (is_Some (radds c !! rkey entry)) then rdelta c else rdelta c + 1 in
  mkRangeChange (<[rkey entry := entry]> (radds c)) (cremoved c) d.

Definition rangeRemove (c : rangeIndexChange) (key : string) : rangeIndexChange :=
  match radds c !! key with
  | Some _ => mkRangeChange (delete key (radds c)) ({[key]} ∪ cremoved c) (rdelta c - 1)
  | None =>
      if bool_decide (key ∈ cremoved c) then c
      else mkRangeChange (radds c) ({[key]} ∪ cremoved c) (rdelta c - 1)
  end.

(** ** Walking and compacting *)

(** The entries whose key is not seen yet, and the keys seen after them. *)
Fixpoint takeUnseen (l : list rangeIndexEntry) (seen : gset string) : list rangeIndexEntry * gset string :=
  match l with
  | [] => ([], seen)
  | e :: rest =>
      if bool_decide (rkey e ∈ seen) then takeUnseen rest seen
      else let '(out, seen) := takeUnseen rest ({[rkey e]} ∪ seen) in (e :: out, seen)
  end.

Fixpoint compactRangeLoop (s : rangeIndexSnapshot) (seen : gset string) : list rangeIndexEntry :=
  match s with
  | [] => []
  | l :: base =>
      let '(live, seen) := takeUnseen (entries l) seen in
      live ++ compactRangeLoop base (seen ∪ rremoves l)
  end.

Definition compactRangeSnapshot (s : rangeIndexSnapshot) : rangeIndexSnapshot :=
  let live := compactRangeLoop s ∅ in
  [mkRangeLayer (sortRangeEntries live) ∅ (Z.of_nat (length live)) 1].

(** One cell of [publishRanges]. *)
Definition publishRange (current : rangeIndexSnapshot) (c : rangeIndexChange) : rangeIndexSnapshot :=
  let es := sortRangeEntries (map snd (map_to_list (radds c))) in
  let '(sz, depth) :=
    match current with
    | [] => (Z.of_nat (length es), 1)
    | l :: _ => (Z.max (rsize l + rdelta c) 0, rdepth l + 1)
    end in
  let next := mkRangeLayer es (cremoved c) sz depth :: current in
  if maxRangeIndexDeltaDepth <? depth then compactRangeSnapshot next else next.

(** ** Candidates *)

Definition entryTest (l : list rangeIndexEntry) (test : rangeIndexEntry → bool) (i : nat) : bool :=
  match l !! i with Some e => test e | None => true end.

(** The entries [start, end) of a layer that satisfy the operator. *)
Definition bounds (l : rangeLayer) (op : CompareOp) (operand : Z) : option (nat * nat) :=
  let n := length (entries l) in
  let lower := sortSearch n (entryTest (entries l) (λ e, operand <=? rangeVal e)) in
  let upper := sortSearch n (entryTest (entries l) (λ e, operand <? rangeVal e)) in
  match op with
  | CompareNe => None
  | CompareEq => Some (lower, upper)
  | CompareLt => Some (0%nat, lower)
  | CompareLe => Some (0%nat, upper)
  | CompareGt => Some (upper, n)
  | CompareGe => Some (lower, n)
  end.

Fixpoint estimate (s : rangeIndexSnapshot) (op : CompareOp) (operand : Z) : option Z :=
  match s with
  | [] => Some 0
  | l :: base =>
      match bounds l op operand with
      | None => None
      | Some (a, b) => total ← estimate base op operand; Some (Z.of_nat b - Z.of_nat a + total)
      end
  end.

(** The entries of a layer within its bounds ([(0, 0)] for an operator without). *)
Definition inBounds (l : rangeLayer) (op : CompareOp) (operand : Z) : list rangeIndexEntry :=
  let '(a, b) := default (0%nat, 0%nat) (bounds l op operand) in drop a (take b (entries l)).

Fixpoint rangeWalk (s : rangeIndexSnapshot) (op : CompareOp) (operand : Z) (seen : gset string) :
    list rangeIndexEntry :=
  match s with
  | [] => []
  | l :: base =>
      let '(out, seen) := takeUnseen (inBounds l op operand) seen in
      out ++ rangeWalk base op operand (seen ∪ rremoves l)
  end.

(** What [rangeCandidatePlan.forEach] visits. *)
Definition planForEach (s : rangeIndexSnapshot) (op : CompareOp) (operand : Z) : list rangeIndexEntry :=
  match s with
  | [] => []
  | l :: base =>
      if ((length base =? 0)%nat || (rangeSize base =? 0)) && bool_decide (rremoves l = ∅)
      then inBounds l op operand
      else rangeWalk s op operand ∅
  end.

(** ** Sorting *)

Lemma range_less_spec a b : rangeLess a b = true ↔
  rangeVal a < rangeVal b ∨
  (rangeVal a = rangeVal b ∧ (prefix a < prefix b ∨ (prefix a = prefix b ∧ slt (rkey a) (rkey b)))).
Proof.
  unfold rangeLess, rangeEntryCompare. rewrite <- ltb_slt.
  destruct (Z.eqb_spec (rangeVal a) (rangeVal b)); cbn [negb]; [|rewrite Z.ltb_lt; lia].
  destruct (Z.eqb_spec (prefix a) (prefix b)); cbn [negb]; [|rewrite Z.ltb_lt; lia].
  intuition lia.
Qed.

#[local] Instance rangeLe_total : Total rangeLe.
Proof.
  intros a b. unfold rangeLe. destruct (rangeLess a b) eqn:E1, (rangeLess b a) eqn:E2; eauto. exfalso.
  apply range_less_spec in E1, E2. pose proof (slt_irrefl (rkey a)).
  assert (slt (rkey a) (rkey b) → slt (rkey b) (rkey a) → False) by (intros ? ?; eauto using slt_trans).
  intuition lia.
Qed.

#[local] Instance rangeLe_trans : Transitive rangeLe.
Proof.
  intros a b c. unfold rangeLe. rewrite <- !not_true_iff_false, !range_less_spec. intros H1 H2 H3.
  destruct H3 as [H3|[H3 [H4|[H4 H5]]]].
  - apply H1. left. destruct (Z.lt_ge_cases (rangeVal c) (rangeVal b)); [exfalso; apply H2; by left|lia].
  - assert (rangeVal b ≤ rangeVal c) by (apply Z.nlt_ge; intros ?; apply H2; by left).
    assert (rangeVal a ≤ rangeVal b) by (apply Z.nlt_ge; intros ?; apply H1; by left).
    destruct (Z.lt_ge_cases (prefix c) (prefix b)).
    + apply H2. right. split; [lia|by left].
    + apply H1. right. split; [lia|left; lia].
  - assert (rangeVal b ≤ rangeVal c) by (apply Z.nlt_ge; intros ?; apply H2; by left).
    assert (rangeVal a ≤ rangeVal b) by (apply Z.nlt_ge; intros ?; apply H1; by left).
    assert (prefix b ≤ prefix c) by (apply Z.nlt_ge; intros ?; apply H2; right; split; [lia|by left]).
    assert (prefix a ≤ prefix b) by (apply Z.nlt_ge; intros ?; apply H1; right; split; [lia|by left]).
    destruct (slt_total (rkey a) (rkey b)) as [Hab|[Hab|Hab]].
    + apply H2. right. split; [lia|]. right. split; [lia|]. by eapply slt_trans.
    + apply H2. right. split; [lia|]. right. split; [lia|]. by rewrite <- Hab.
    + apply H1. right. split; [lia|]. right. split; [lia|]. done.
Qed.

Lemma range_sort_perm l : Permutation (sortRangeEntries l) l.
Proof. apply merge_sort_Permutation. Qed.

Lemma range_sort_sorted l : StronglySorted rangeLe (sortRangeEntries l).
Proof. apply StronglySorted_merge_sort; apply _. Qed.

Lemma sort_elem e l : e ∈ sortRangeEntries l ↔ e ∈ l.
Proof. by rewrite range_sort_perm. Qed.

Lemma sort_elem_1 e l : e ∈ sortRangeEntries l → e ∈ l.
Proof. apply sort_elem. Qed.

Lemma range_le_val a b : rangeLe a b → rangeVal a ≤ rangeVal b.
Proof. unfold rangeLe. rewrite <- not_true_iff_false, range_less_spec. lia. Qed.

Record wf_layer (l : rangeLayer) : Prop := {
  wl_sorted : StronglySorted rangeLe (entries l);
  wl_keys : NoDup (rkey <$> entries l)
}.

Lemma wf_sorted_layer l R s d : NoDup (rkey <$> l) → wf_layer (mkRangeLayer (sortRangeEntries l) R s d).
Proof. intros Hn. split; cbn; [apply range_sort_sorted|]. by rewrite range_sort_perm. Qed.

(** Bisection on a sorted layer finds exactly the entries of an upward closed
    test. *)
Lemma search_sorted l (test : rangeIndexEntry → bool) : StronglySorted rangeLe l →
  (∀ a b, rangeLe a b → test a = true → test b = true) →
  (sortSearch (length l) (entryTest l test) ≤ length l)%nat ∧
  ∀ i e, l !! i = Some e → test e = true ↔ (sortSearch (length l) (entryTest l test) ≤ i)%nat.
Proof.
  intros Hs Hup. destruct (sort_search_spec (length l) (entryTest l test)) as (Hle & Hlow & Hhigh).
  { intros a b Hab. unfold entryTest. destruct (l !! a) as [x|] eqn:Ea.
    - destruct (l !! b) as [y|] eqn:Eb; [|done]. destruct (decide (a = b)) as [->|]; [by simplify_eq|].
      apply Hup. eapply StronglySorted_app_1_elem_of with (l1 := take b l) (l2 := drop b l).
      + by rewrite take_drop.
      + apply list_elem_of_lookup. exists a. rewrite lookup_take_lt by lia. done.
      + apply list_elem_of_lookup. exists 0%nat. rewrite lookup_drop, Nat.add_0_r. done.
    - apply lookup_ge_None in Ea. rewrite (proj2 (lookup_ge_None l b)); [done|lia]. }
  split; [done|]. intros i e Hi. assert (entryTest l test i = test e) as Ht by (unfold entryTest; by rewrite Hi).
  pose proof (lookup_lt_Some _ _ _ Hi) as Hlt. rewrite <- Ht. split.
  - intros HT. destruct (decide (sortSearch (length l) (entryTest l test) ≤ i)%nat); [done|].
    rewrite Hlow in HT by lia. done.
  - intros Hge. apply Hhigh. lia.
Qed.

Lemma bounds_spec l op operand a b : wf_layer l → bounds l op operand = Some (a, b) →
  (b ≤ length (entries l))%nat ∧
  ∀ i e, entries l !! i = Some e → (a ≤ i < b)%nat ↔ compareMatches op (rangeVal e) operand = true.
Proof.
  intros [Hs _] Hb.
  assert (∀ i e, entries l !! i = Some e → (i < length (entries l))%nat) as Hlen by (intros; by eapply lookup_lt_Some).
  pose proof (search_sorted (entries l) (λ e, operand <=? rangeVal e) Hs) as H1.
  pose proof (search_sorted (entries l) (λ e, operand <? rangeVal e) Hs) as H2.
  destruct H1 as [Hl1 H1]. { intros x y Hxy%range_le_val. lia. }
  destruct H2 as [Hl2 H2]. { intros x y Hxy%range_le_val. lia. }
  destruct op; cbn in Hb; simplify_eq; (split; [done|]); intros i e Hi;
    specialize (H1 i e Hi); specialize (H2 i e Hi); specialize (Hlen i e Hi); cbn in H1, H2; cbn [compareMatches];
    lia.
Qed.

Lemma in_bounds_elem l op operand e : wf_layer l → op ≠ CompareNe →
  e ∈ inBounds l op operand ↔ e ∈ entries l ∧ compareMatches op (rangeVal e) operand = true.
Proof.
  intros Hl Hop. unfold inBounds. destruct (bounds l op operand) as [[a b]|] eqn:Hb; [|by destruct op].
  destruct (bounds_spec _ _ _ _ _ Hl Hb) as [Hlen Hi]. cbn. rewrite !list_elem_of_lookup. split.
  - intros [i He]. rewrite lookup_drop in He. apply lookup_take_Some in He as [He Hlt].
    split; [by eexists|]. apply (Hi _ _ He). lia.
  - intros [[i He] Hm]. apply (Hi _ _ He) in Hm. exists (i - a)%nat.
    rewrite lookup_drop, lookup_take_lt by lia. by replace (a + (i - a))%nat with i by lia.
Qed.

Lemma in_bounds_length l op operand a b : wf_layer l → bounds l op operand = Some (a, b) →
  Z.of_nat (length (inBounds l op operand)) = Z.max (Z.of_nat b - Z.of_nat a) 0.
Proof.
  intros Hl Hb. destruct (bounds_spec _ _ _ _ _ Hl Hb) as [Hlen _]. unfold inBounds. rewrite Hb. cbn.
  rewrite length_drop, length_take. lia.
Qed.

(** Bounds never cross. *)
Lemma bounds_ordered l op operand a b : wf_layer l → bounds l op operand = Some (a, b) → (a ≤ b)%nat.
Proof.
  intros [Hs _] Hb.
  pose proof (search_sorted (entries l) (λ e, operand <=? rangeVal e) Hs) as H1.
  pose proof (search_sorted (entries l) (λ e, operand <? rangeVal e) Hs) as H2.
  destruct H1 as [Hl1 H1]. { intros x y Hxy%range_le_val. lia. }
  destruct H2 as [Hl2 H2]. { intros x y Hxy%range_le_val. lia. }
  destruct op; cbn in Hb; simplify_eq; try lia.
  destruct (decide (sortSearch (length (entries l)) (entryTest (entries l) (λ e, operand <? rangeVal e)) = length (entries l)))
    as [->|Hne]; [done|].
  destruct (lookup_lt_is_Some_2 (entries l)
    (sortSearch (length (entries l)) (entryTest (entries l) (λ e, operand <? rangeVal e)))) as [e He]; [lia|].
  apply (H1 _ _ He). assert (operand < rangeVal e); [|lia]. apply Z.ltb_lt. by apply (H2 _ _ He).
Qed.

Lemma in_bounds_sub l op operand : sublist (inBounds l op operand) (entries l).
Proof.
  unfold inBounds. destruct (default _ _) as [a b]. etrans; [apply sublist_drop|apply sublist_take].
Qed.

Lemma take_unseen_spec l : ∀ seen,
  NoDup (rkey <$> (takeUnseen l seen).1) ∧
  (∀ e, e ∈ (takeUnseen l seen).1 → e ∈ l ∧ (rkey e ∉ seen)) ∧
  (takeUnseen l seen).2 = seen ∪ list_to_set (rkey <$> (takeUnseen l seen).1) ∧
  (∀ e, e ∈ l → rkey e ∈ (takeUnseen l seen).2).
Proof.
  induction l as [|x l IH]; intros seen; cbn [takeUnseen].
  { split_and!; [constructor|by intros e ?%elem_of_nil|cbn; set_solver|by intros e ?%elem_of_nil]. }
  case_bool_decide as Hx.
  - destruct (IH seen) as (H1 & H2 & H3 & H4). split_and!; [done| |done|].
    + intros e He. destruct (H2 e He). split; [by apply list_elem_of_further|done].
    + intros e [->|He]%elem_of_cons; [rewrite H3; set_solver|by apply H4].
  - destruct (IH ({[rkey x]} ∪ seen)) as (H1 & H2 & H3 & H4).
    destruct (takeUnseen l ({[rkey x]} ∪ seen)) as [out seen'] eqn:E. cbn in *. split_and!.
    + constructor; [|done]. intros (e & Hk & He)%list_elem_of_fmap. apply H2 in He as [_ He]. set_solver.
    + intros e [->|He]%elem_of_cons; [split; [apply list_elem_of_here|done]|].
      destruct (H2 e He). split; [by apply list_elem_of_further|set_solver].
    + rewrite H3. set_solver.
    + intros e [->|He]%elem_of_cons; [rewrite H3; set_solver|by apply H4].
Qed.

(** With distinct keys, every entry with an unseen key is taken. *)
Lemma take_unseen_complete l : ∀ seen e, NoDup (rkey <$> l) → e ∈ l → rkey e ∉ seen → e ∈ (takeUnseen l seen).1.
Proof.
  induction l as [|x l IH]; intros seen e Hn He Hs; [by apply elem_of_nil in He|].
  cbn in Hn. apply NoDup_cons in Hn as [Hx Hn]. cbn [takeUnseen]. apply elem_of_cons in He as [->|He].
  - rewrite bool_decide_false by done. destruct (takeUnseen l _) as [out seen'] eqn:E. apply list_elem_of_here.
  - case_bool_decide as Hk; [by apply IH|]. specialize (IH ({[rkey x]} ∪ seen) e Hn He).
    destruct (takeUnseen l _) as [out seen'] eqn:E. cbn in *. apply list_elem_of_further, IH.
    intros [Heq%elem_of_singleton|?]%elem_of_union; [|done]. apply Hx. rewrite <- Heq.
    apply list_elem_of_fmap. eauto.
Qed.

(** ** What a range index promises

    [E] maps the keys currently indexed to their entries. *)

Definition keyed (E : gmap string rangeIndexEntry) : Prop := ∀ k e, E !! k = Some e → rkey e = k.

(** Every indexed entry is found, the size bounds their number. *)
Inductive range_ok : rangeIndexSnapshot → gmap string rangeIndexEntry → Prop :=
| range_flat l E :
    wf_layer l → keyed E → (∀ k e, E !! k = Some e → e ∈ entries l) →
    Z.of_nat (size E) ≤ rsize l → range_ok [l] E
| range_layer l base Eb E :
    range_ok base Eb → wf_layer l → keyed E →
    (∀ k e, E !! k = Some e → e ∈ entries l ∨
       ((k ∉ rkey <$> entries l) ∧ (k ∉ rremoves l) ∧ Eb !! k = Some e)) →
    Z.of_nat (size E) ≤ rsize l → range_ok (l :: base) E.

(** Nothing else is found. *)
Inductive range_exact : rangeIndexSnapshot → gmap string rangeIndexEntry → Prop :=
| exact_flat l E : (∀ e, e ∈ entries l → E !! rkey e = Some e) → range_exact [l] E
| exact_layer l base Eb E :
    range_exact base Eb → (∀ e, e ∈ entries l → E !! rkey e = Some e) →
    (∀ k e, Eb !! k = Some e → k ∉ rremoves l → E !! k = Some e) → range_exact (l :: base) E.

Lemma range_ok_size s E : range_ok s E → Z.of_nat (size E) ≤ rangeSize s.
Proof. by destruct 1. Qed.

Lemma range_ok_keyed s E : range_ok s E → keyed E.
Proof. by destruct 1. Qed.

Lemma range_ok_wf l base E : range_ok (l :: base) E → wf_layer l.
Proof. by inversion 1. Qed.

Lemma range_ok_mono s E E' : range_ok s E → E' ⊆ E → range_ok s E'.
Proof.
  intros Hs Hsub. pose proof (map_subseteq_size _ _ Hsub) as Hsz.
  assert (∀ k e, E' !! k = Some e → E !! k = Some e) as Hw by (intros; by eapply lookup_weaken).
  destruct Hs as [l E Hl Hk Hc Hz|l base Eb E Hb Hl Hk Hc Hz].
  - apply range_flat; [done|intros k e ?; apply Hk; auto|intros k e ?; eapply Hc; eauto|lia].
  - eapply range_layer; [done|done|intros k e ?; apply Hk; auto|intros k e ?; apply Hc; auto|lia].
Qed.

(** A walk finds the entries it selects and marks their keys; what it does not
    select stays open.  [select] is the part of a layer that the walk reads. *)
Section Walk.
Variable select : rangeLayer → list rangeIndexEntry.
Variable wanted : rangeIndexEntry → Prop.
Hypothesis select_sub : ∀ l, sublist (select l) (entries l).
Hypothesis select_elem : ∀ l e, wf_layer l → e ∈ select l ↔ e ∈ entries l ∧ wanted e.

Fixpoint walkBy (s : rangeIndexSnapshot) (seen : gset string) : list rangeIndexEntry :=
  match s with
  | [] => []
  | l :: base =>
      let '(out, seen) := takeUnseen (select l) seen in out ++ walkBy base (seen ∪ rremoves l)
  end.

Lemma select_keys l : wf_layer l → NoDup (rkey <$> select l).
Proof using select_sub. intros [_ Hn]. eapply sublist_NoDup; [exact Hn|]. by apply fmap_sublist. Qed.

Lemma walk_complete s E : range_ok s E → ∀ seen k e,
  E !! k = Some e → wanted e → k ∉ seen → e ∈ walkBy s seen.
Proof using select_sub select_elem.
  induction 1 as [l E Hl Hk Hc _|l base Eb E _ IH Hl Hk Hc _]; intros seen k e He Hw Hs;
    pose proof (Hk k e He) as <-; cbn [walkBy];
    pose proof (take_unseen_complete (select l) seen e (select_keys l Hl)) as Ht;
    pose proof (take_unseen_spec (select l) seen) as (_ & _ & Hseen & _);
    pose proof (take_unseen_spec (select l) seen) as (_ & Hsub & _ & _);
    destruct (takeUnseen (select l) seen) as [out seen'] eqn:E1; cbn in *; apply elem_of_app.
  - left. apply Ht; [|done]. apply select_elem; [done|]. split; [by eapply Hc|done].
  - destruct (Hc _ e He) as [Hin|(Hnk & Hnr & Hb)].
    + left. apply Ht; [|done]. by apply select_elem.
    + right. eapply IH; [done|done|]. rewrite Hseen. intros [[?|Hin]%elem_of_union|?]%elem_of_union; [done| |done].
      apply elem_of_list_to_set in Hin. apply list_elem_of_fmap in Hin as (e' & Heq & He').
      apply Hnk. rewrite Heq. apply list_elem_of_fmap. exists e'. split; [done|].
      destruct (Hsub e' He') as [Hsel _]. by apply select_elem in Hsel as [? _].
Qed.

Lemma walk_sound s : ∀ seen, (∀ l, l ∈ s → wf_layer l) →
  NoDup (rkey <$> walkBy s seen) ∧ ∀ e, e ∈ walkBy s seen → wanted e ∧ (rkey e ∉ seen).
Proof using select_sub select_elem.
  induction s as [|l base IH]; intros seen Hwf; cbn [walkBy]; [split; [constructor|by intros e ?%elem_of_nil]|].
  destruct (take_unseen_spec (select l) seen) as (H1 & H2 & H3 & _).
  destruct (takeUnseen (select l) seen) as [out seen'] eqn:E. cbn in *.
  destruct (IH (seen' ∪ rremoves l)) as [H4 H5]; [intros; apply Hwf; by apply list_elem_of_further|]. split.
  - rewrite fmap_app. apply NoDup_app. split_and!; [done| |done].
    intros k (e & -> & He)%list_elem_of_fmap (e' & Heq & He')%list_elem_of_fmap.
    apply H5 in He' as [_ He']. apply He'. rewrite H3, <- Heq. apply elem_of_union_l, elem_of_union_r.
    apply elem_of_list_to_set, list_elem_of_fmap. eauto.
  - intros e [He|He]%elem_of_app.
    + destruct (H2 e He) as [Hsel ?]. split; [|done].
      by apply select_elem in Hsel as [_ ?]; [|apply Hwf, list_elem_of_here].
    + apply H5 in He as [? He]. split; [done|]. set_solver.
Qed.

Lemma walk_exact s E : range_exact s E → (∀ l, l ∈ s → wf_layer l) → ∀ seen e,
  e ∈ walkBy s seen → E !! rkey e = Some e.
Proof using select_sub select_elem.
  induction 1 as [l E Hx|l base Eb E _ IH Hx Hb]; intros Hwf seen e; cbn [walkBy];
    pose proof (take_unseen_spec (select l) seen) as (_ & H2 & _ & _);
    destruct (takeUnseen (select l) seen) as [out seen'] eqn:E1; cbn in H2; intros [He|He]%elem_of_app.
  - apply Hx. destruct (H2 e He) as [Hs _]. apply select_elem in Hs as [? _]; [done|apply Hwf, list_elem_of_here].
  - by apply elem_of_nil in He.
  - apply Hx. destruct (H2 e He) as [Hs _]. apply select_elem in Hs as [? _]; [done|apply Hwf, list_elem_of_here].
  - assert (∀ l', l' ∈ base → wf_layer l') as Hwf' by (intros; apply Hwf; by apply list_elem_of_further).
    apply Hb; [by eapply IH|]. destruct (walk_sound base (seen' ∪ rremoves l) Hwf') as [_ Hs].
    apply Hs in He as [_ He]. set_solver.
Qed.

End Walk.

Lemma range_ok_layers s E : range_ok s E → ∀ l, l ∈ s → wf_layer l.
Proof.
  induction 1; intros l'; [by intros ->%list_elem_of_singleton|]. intros [->|?]%elem_of_cons; auto.
Qed.

Lemma range_walk_by s op operand seen : rangeWalk s op operand seen = walkBy (λ l, inBounds l op operand) s seen.
Proof.
  revert seen. induction s as [|l base IH]; intros seen; [done|]. cbn. destruct (takeUnseen _ _). by rewrite IH.
Qed.

Lemma compact_walk_by s seen : compactRangeLoop s seen = walkBy entries s seen.
Proof.
  revert seen. induction s as [|l base IH]; intros seen; [done|]. cbn. destruct (takeUnseen _ _). by rewrite IH.
Qed.

Definition matching (op : CompareOp) (operand : Z) (e : rangeIndexEntry) : Prop :=
  compareMatches op (rangeVal e) operand = true.

Lemma in_bounds_matching op operand : op ≠ CompareNe → ∀ l e, wf_layer l →
  e ∈ inBounds l op operand ↔ e ∈ entries l ∧ matching op operand e.
Proof. intros Hop l e Hl. by apply in_bounds_elem. Qed.

(** The candidates of a plan: no key twice, every one matches, none is missing. *)
Lemma plan_for_each_spec s E op operand : range_ok s E → op ≠ CompareNe →
  NoDup (rkey <$> planForEach s op operand) ∧
  (∀ e, e ∈ planForEach s op operand → matching op operand e) ∧
  (∀ k e, E !! k = Some e → matching op operand e → e ∈ planForEach s op operand).
Proof.
  intros Hs Hop. pose proof (range_ok_layers _ _ Hs) as Hwf. destruct s as [|l base]; [inversion Hs|].
  cbn [planForEach]. destruct (((length base =? 0)%nat || _) && _) eqn:Hf.
  - pose proof (Hwf l (list_elem_of_here _ _)) as Hl. split_and!.
    + by apply (select_keys (λ l, inBounds l op operand) (λ l, in_bounds_sub l op operand)).
    + intros e He. by apply in_bounds_matching in He as [_ ?].
    + intros k e He Hm. apply in_bounds_matching; [done|done|]. split; [|done].
      apply andb_true_iff in Hf as [Hb _]. inversion Hs as [? ? _ _ Hc|? ? Eb ? Hsb _ _ Hc]; subst; [by eapply Hc|].
      destruct (Hc k e He) as [?|(_ & _ & Hbe)]; [done|]. exfalso. pose proof (range_ok_size _ _ Hsb).
      apply orb_true_iff in Hb as [Hb%Nat.eqb_eq|Hb%Z.eqb_eq]; [destruct base; [inversion Hsb|done]|].
      assert (size Eb = 0%nat) as ->%map_size_empty_inv by lia. by rewrite lookup_empty in Hbe.
  - rewrite range_walk_by.
    destruct (walk_sound _ _ (λ l, in_bounds_sub l op operand) (in_bounds_matching op operand Hop) (l :: base) ∅ Hwf) as [Hn Hm]. split_and!; [done| |].
    + intros e He. by apply Hm in He as [? _].
    + intros k e He Hme. eapply walk_complete; [intros; apply in_bounds_sub|by apply in_bounds_matching|done|done|done|set_solver].
Qed.

Lemma plan_for_each_exact s E op operand e : range_ok s E → range_exact s E → op ≠ CompareNe →
  e ∈ planForEach s op operand → E !! rkey e = Some e.
Proof.
  intros Hs Hx Hop. pose proof (range_ok_layers _ _ Hs) as Hwf. destruct s as [|l base]; [inversion Hs|].
  cbn [planForEach]. destruct (_ && _) eqn:Hf.
  - intros He. apply in_bounds_elem in He as [He _]; [|apply Hwf, list_elem_of_here|done]. by inversion Hx; eauto.
  - rewrite range_walk_by. intros He.
    by eapply walk_exact; [intros; apply in_bounds_sub|apply (in_bounds_matching op operand Hop)|exact Hx|exact Hwf|exact He].
Qed.

Lemma take_unseen_length l : ∀ seen, (length (takeUnseen l seen).1 ≤ length l)%nat.
Proof.
  induction l as [|x l IH]; intros seen; [done|]. cbn. case_bool_decide; [specialize (IH seen); lia|].
  specialize (IH ({[rkey x]} ∪ seen)). destruct (takeUnseen l _). cbn in *. lia.
Qed.

(** The estimate bounds the number of candidates. *)
Lemma estimate_spec s op operand : (∀ l, l ∈ s → wf_layer l) → op ≠ CompareNe →
  ∃ n, estimate s op operand = Some n ∧ Z.of_nat (length (planForEach s op operand)) ≤ n ∧
       ∀ seen, Z.of_nat (length (rangeWalk s op operand seen)) ≤ n.
Proof.
  intros Hwf Hop. induction s as [|l base IH]; [by exists 0|].
  destruct IH as (m & Hm & _ & Hw); [intros; apply Hwf; by apply list_elem_of_further|].
  assert (wf_layer l) as Hl by apply Hwf, list_elem_of_here.
  cbn [estimate]. destruct (bounds l op operand) as [[a b]|] eqn:Hb; [|by destruct op]. rewrite Hm. cbn.
  pose proof (in_bounds_length _ _ _ _ _ Hl Hb) as Hlen. pose proof (bounds_ordered _ _ _ _ _ Hl Hb) as Hab.
  assert (∀ seen, Z.of_nat (length (rangeWalk (l :: base) op operand seen)) ≤ Z.of_nat b - Z.of_nat a + m) as Hwalk.
  { intros seen. cbn [rangeWalk]. pose proof (take_unseen_length (inBounds l op operand) seen) as Ht.
    destruct (takeUnseen (inBounds l op operand) seen) as [out seen'] eqn:E. cbn in Ht.
    rewrite length_app, Nat2Z.inj_add. specialize (Hw (seen' ∪ rremoves l)). lia. }
  eexists. split_and!; [done| |done]. cbn [planForEach]. case_match; [|apply Hwalk].
  specialize (Hw ∅). lia.
Qed.

(** ** A batch keeps the promise *)

Record rchange_ok (base : rangeIndexSnapshot) (Eb : gmap string rangeIndexEntry) (c : rangeIndexChange)
    (E : gmap string rangeIndexEntry) : Prop := {
  rc_keyed : keyed E;
  rc_adds : ∀ k e, radds c !! k = Some e → E !! k = Some e;
  rc_cover : ∀ k e, E !! k = Some e →
    radds c !! k = Some e ∨ (radds c !! k = None ∧ (k ∉ cremoved c) ∧ Eb !! k = Some e);
  rc_size : Z.of_nat (size E) ≤ rangeSize base + rdelta c
}.

Lemma no_range_change_ok s E : range_ok s E → rchange_ok s E noRangeChange E.
Proof.
  intros Hs. pose proof (range_ok_size _ _ Hs). split; cbn [radds cremoved rdelta noRangeChange].
  - by eapply range_ok_keyed.
  - intros k e. by rewrite lookup_empty.
  - intros k e He. right. rewrite lookup_empty. split_and!; [done|set_solver|done].
  - lia.
Qed.

Lemma with_prefix_key e : rkey (withPrefix e) = rkey e.
Proof. unfold withPrefix. by case_match. Qed.

Lemma with_prefix_version e : rversion (withPrefix e) = rversion e.
Proof. unfold withPrefix. by case_match. Qed.

Lemma with_prefix_val e : rangeVal (withPrefix e) = rangeVal e.
Proof. unfold withPrefix, rangeVal. by repeat case_match. Qed.

Lemma range_add_ok base Eb c E e : rchange_ok base Eb c E → E !! rkey e = None →
  rchange_ok base Eb (rangeAdd c e) (<[rkey e := withPrefix e]> E).
Proof.
  intros [Hk Ha Hc Hs] HE. assert (radds c !! rkey e = None) as Hn.
  { apply eq_None_not_Some. intros [x Hx]. apply Ha in Hx. congruence. }
  unfold rangeAdd. rewrite with_prefix_key, bool_decide_false by (rewrite Hn; by intros []).
  split; cbn [radds cremoved rdelta].
  - intros k x [[<- <-]|[_ Hx]]%lookup_insert_Some; [apply with_prefix_key|by apply Hk].
  - intros k x [[<- <-]|[? Hx]]%lookup_insert_Some; [by rewrite lookup_insert_eq|].
    rewrite lookup_insert_ne by done. by apply Ha.
  - intros k x [[<- <-]|[? Hx]]%lookup_insert_Some; [left; by rewrite lookup_insert_eq|].
    rewrite lookup_insert_ne by done. by apply Hc.
  - rewrite map_size_insert_None by done. lia.
Qed.

Lemma range_remove_ok base Eb c E k : rchange_ok base Eb c E → is_Some (E !! k) →
  rchange_ok base Eb (rangeRemove c k) (delete k E).
Proof.
  intros [Hk Ha Hc Hs] [e He].
  assert (size E = S (size (delete k E))) as Hsz.
  { rewrite map_size_delete_Some by (by eexists). assert (size E ≠ 0%nat); [|lia].
    intros Hz%map_size_empty_inv. rewrite Hz in He. by rewrite lookup_empty in He. }
  assert (keyed (delete k E)) as Hkd by (intros k' x [_ ?]%lookup_delete_Some; by apply Hk).
  unfold rangeRemove. destruct (radds c !! k) as [x|] eqn:Ek.
  - split; cbn [radds cremoved rdelta]; [done| | |lia].
    + intros k' x' [? Hx]%lookup_delete_Some. rewrite lookup_delete_ne by done. by apply Ha.
    + intros k' x' [? Hx]%lookup_delete_Some. rewrite lookup_delete_ne by done.
      destruct (Hc k' x' Hx) as [?|(? & ? & ?)]; [by left|right]. set_solver.
  - destruct (Hc k e He) as [?|(_ & Hnr & _)]; [congruence|]. rewrite bool_decide_false by done.
    split; cbn [radds cremoved rdelta]; [done| | |lia].
    + intros k' x' Hx. assert (k' ≠ k) by (intros ->; congruence). rewrite lookup_delete_ne by done. by apply Ha.
    + intros k' x' [? Hx]%lookup_delete_Some.
      destruct (Hc k' x' Hx) as [?|(? & ? & ?)]; [by left|right]. set_solver.
Qed.

Lemma change_entries_elem (m : gmap string rangeIndexEntry) e : (∀ k x, m !! k = Some x → rkey x = k) →
  e ∈ map snd (map_to_list m) ↔ m !! rkey e = Some e.
Proof.
  intros Hk. change (map snd) with (fmap (M := list) (@snd string rangeIndexEntry)). rewrite list_elem_of_fmap. split.
  - intros ([k x] & Heq & Hx%elem_of_map_to_list). cbn in Heq. subst x. by rewrite (Hk k e Hx).
  - intros He. exists (rkey e, e). split; [done|]. by apply elem_of_map_to_list.
Qed.

Lemma change_entries_keys (m : gmap string rangeIndexEntry) : (∀ k x, m !! k = Some x → rkey x = k) →
  NoDup (rkey <$> map snd (map_to_list m)).
Proof.
  intros Hk. change (map snd) with (fmap (M := list) (@snd string rangeIndexEntry)). rewrite <- list_fmap_compose.
  assert (rkey ∘ snd <$> map_to_list m = fst <$> map_to_list m) as ->.
  { apply list_fmap_ext. intros i [k x] Hi. cbn. apply Hk, elem_of_map_to_list. by eapply list_elem_of_lookup_2. }
  apply NoDup_fst_map_to_list.
Qed.

Lemma entries_self l e : wf_layer l → e ∈ entries l ↔ e ∈ entries l ∧ True.
Proof. tauto. Qed.

Lemma compact_range_ok s E : range_ok s E → range_ok (compactRangeSnapshot s) E.
Proof.
  intros Hs. pose proof (range_ok_layers _ _ Hs) as Hwf. unfold compactRangeSnapshot. rewrite compact_walk_by.
  destruct (walk_sound entries (λ _, True) (λ _, reflexivity _) entries_self s ∅ Hwf) as [Hn _].
  assert (∀ k e, E !! k = Some e → e ∈ walkBy entries s ∅) as Hc.
  { intros k e He. by eapply (walk_complete entries (λ _, True) (λ _, reflexivity _) entries_self s E Hs ∅ k). }
  apply range_flat; [by apply wf_sorted_layer|by eapply range_ok_keyed| |]; cbn [entries rsize].
  - intros k e He. apply sort_elem. eauto.
  - apply Nat2Z.inj_le. rewrite <- (length_fmap rkey), <- size_dom, <- (size_list_to_set (C := gset string)) by done.
    apply subseteq_size. intros k [e He]%elem_of_dom. apply elem_of_list_to_set, list_elem_of_fmap.
    exists e. split; [symmetry; by apply (range_ok_keyed _ _ Hs)|eauto].
Qed.

Lemma compact_range_exact s E : range_ok s E → range_exact s E → range_exact (compactRangeSnapshot s) E.
Proof.
  intros Hs Hx. pose proof (range_ok_layers _ _ Hs) as Hwf. unfold compactRangeSnapshot. rewrite compact_walk_by.
  apply exact_flat. cbn [entries]. intros e He%sort_elem_1.
  exact (walk_exact entries (λ _, True) (λ _, reflexivity _) entries_self s E Hx Hwf ∅ e He).
Qed.

Lemma publish_range_ok base Eb c E : range_ok base Eb → rchange_ok base Eb c E → range_ok (publishRange base c) E.
Proof.
  intros Hb [Hk Ha Hc Hs]. assert (∀ k x, radds c !! k = Some x → rkey x = k) as Hkc by (intros; by eapply Hk, Ha).
  unfold publishRange. destruct base as [|l base]; [inversion Hb|]. cbn [rangeSize] in Hs.
  assert (range_ok (mkRangeLayer (sortRangeEntries (map snd (map_to_list (radds c)))) (cremoved c)
    (Z.max (rsize l + rdelta c) 0) (rdepth l + 1) :: l :: base) E) as Hn.
  { eapply range_layer; [done|apply wf_sorted_layer; by apply change_entries_keys|done| |cbn [rsize]; lia].
    cbn [entries rremoves]. intros k e He. pose proof (Hk k e He) as <-. destruct (Hc _ e He) as [Hin|(Hn & Hr & Hbe)].
    - left. by apply sort_elem, change_entries_elem.
    - right. split_and!; [|done|done]. intros (x & Heq & Hx)%list_elem_of_fmap.
      apply sort_elem_1, change_entries_elem in Hx; [|done]. rewrite Heq in Hn. congruence. }
  case_match; [by apply compact_range_ok|done].
Qed.

(** Exactness of a batch. *)
Record rchange_exact (Eb : gmap string rangeIndexEntry) (c : rangeIndexChange) (E : gmap string rangeIndexEntry) : Prop := {
  rx_adds : ∀ k e, radds c !! k = Some e → E !! k = Some e;
  rx_base : ∀ k e, Eb !! k = Some e → k ∉ cremoved c → E !! k = Some e
}.

Lemma range_add_exact Eb c E e : rchange_exact Eb c E → E !! rkey e = None →
  rchange_exact Eb (rangeAdd c e) (<[rkey e := withPrefix e]> E).
Proof.
  intros [Ha Hb] HE. unfold rangeAdd. rewrite with_prefix_key. split; cbn [radds cremoved].
  - intros k x [[<- <-]|[? Hx]]%lookup_insert_Some; [by rewrite lookup_insert_eq|].
    rewrite lookup_insert_ne by done. by apply Ha.
  - intros k x Hx Hr. pose proof (Hb k x Hx Hr). rewrite lookup_insert_ne; [done|]. intros <-. congruence.
Qed.

Lemma range_remove_exact Eb c E k : rchange_exact Eb c E → rchange_exact Eb (rangeRemove c k) (delete k E).
Proof.
  intros [Ha Hb]. unfold rangeRemove. destruct (radds c !! k) as [e|] eqn:Ek; [|case_bool_decide as Hr]; split;
    cbn [radds cremoved]; intros k' x.
  - intros [? ?]%lookup_delete_Some. rewrite lookup_delete_ne by done. by apply Ha.
  - intros Hx Hn. rewrite lookup_delete_ne by set_solver. apply Hb; [done|set_solver].
  - intros Hx. rewrite lookup_delete_ne by (intros ->; congruence). by apply Ha.
  - intros Hx Hn. rewrite lookup_delete_ne by set_solver. by apply Hb.
  - intros Hx. rewrite lookup_delete_ne by (intros ->; congruence). by apply Ha.
  - intros Hx Hn. rewrite lookup_delete_ne by set_solver. apply Hb; [done|set_solver].
Qed.

Lemma publish_range_exact base Eb c E : range_ok base Eb → range_exact base Eb → rchange_ok base Eb c E →
  rchange_exact Eb c E → range_exact (publishRange base c) E.
Proof.
  intros Hb Hx Hc [Ha He]. pose proof (publish_range_ok base Eb c E Hb Hc) as Hok.
  assert (∀ k x, radds c !! k = Some x → rkey x = k) as Hkc by (intros; by eapply (rc_keyed _ _ _ _ Hc), Ha).
  unfold publishRange in *. destruct base as [|l base]; [inversion Hb|].
  assert (range_exact (mkRangeLayer (sortRangeEntries (map snd (map_to_list (radds c)))) (cremoved c)
    (Z.max (rsize l + rdelta c) 0) (rdepth l + 1) :: l :: base) E) as Hn.
  { eapply exact_layer; [done| |done]. cbn [entries]. intros e Hin. apply sort_elem_1, change_entries_elem in Hin; eauto. }
  destruct (maxRangeIndexDeltaDepth <? rdepth l + 1) eqn:Hd; [|done].
  apply exact_flat. cbn [entries]. intros e Hin%sort_elem_1. rewrite compact_walk_by in Hin.
  eapply (walk_exact entries (λ _, True) (λ _, reflexivity _) entries_self _ E Hn); [|done].
  intros l' [->|Hl']%elem_of_cons; [apply wf_sorted_layer; by apply change_entries_keys|].
  by apply (range_ok_layers _ _ Hb).
Qed.

Lemma new_range_cell_ok : range_ok newRangeIndexCell ∅ ∧ range_exact newRangeIndexCell ∅.
Proof.
  split.
  - apply range_flat; cbn; [split; cbn; constructor|intros k e; by rewrite lookup_empty..|done].
  - apply exact_flat. cbn. by intros e ?%elem_of_nil.
Qed.

(** ** The life of a range index *)

Inductive rangeOp := RAdd (e : rangeIndexEntry) | RRemove (k : string).

Definition stepRange (c : rangeIndexChange) (op : rangeOp) : rangeIndexChange :=
  match op with RAdd e => rangeAdd c e | RRemove k => rangeRemove c k end.

Definition expectRange (E : gmap string rangeIndexEntry) (op : rangeOp) : gmap string rangeIndexEntry :=
  match op with RAdd e => <[rkey e := withPrefix e]> E | RRemove k => delete k E end.

(** Keys are added while absent and removed while present. *)
Fixpoint legalRange (E : gmap string rangeIndexEntry) (ops : list rangeOp) : bool :=
  match ops with
  | [] => true
  | op :: rest =>
      match op with
      | RAdd e => bool_decide (E !! rkey e = None)
      | RRemove k => bool_decide (is_Some (E !! k))
      end && legalRange (expectRange E op) rest
  end.

Definition expectRanges (E : gmap string rangeIndexEntry) (ops : list rangeOp) : gmap string rangeIndexEntry :=
  foldl expectRange E ops.

Definition runRange (s : rangeIndexSnapshot) (ops : list rangeOp) : rangeIndexSnapshot :=
  publishRange s (foldl stepRange noRangeChange ops).

Fixpoint legalRanges (E : gmap string rangeIndexEntry) (bs : list (list rangeOp)) : bool :=
  match bs with [] => true | b :: rest => legalRange E b && legalRanges (expectRanges E b) rest end.

Lemma range_steps_ok base Eb ops : ∀ c E, rchange_ok base Eb c E → rchange_exact Eb c E → legalRange E ops = true →
  rchange_ok base Eb (foldl stepRange c ops) (expectRanges E ops) ∧
  rchange_exact Eb (foldl stepRange c ops) (expectRanges E ops).
Proof.
  induction ops as [|op ops IH]; intros c E Hc Hx Hl; [done|]. cbn [legalRange] in Hl.
  apply andb_true_iff in Hl as [Ho Hl]. destruct op as [e|k]; apply bool_decide_eq_true in Ho; apply IH; cbn; try done.
  - by apply range_add_ok.
  - by apply range_add_exact.
  - by apply range_remove_ok.
  - by apply range_remove_exact.
Qed.

Lemma run_range_ok s E ops : range_ok s E → range_exact s E → legalRange E ops = true →
  range_ok (runRange s ops) (expectRanges E ops) ∧ range_exact (runRange s ops) (expectRanges E ops).
Proof.
  intros Hs Hx Hl. destruct (range_steps_ok s E ops noRangeChange E) as [Hc Hcx]; [by apply no_range_change_ok| |done|].
  { split; cbn; [intros k e; by rewrite lookup_empty|done]. }
  split; [by eapply publish_range_ok|by eapply publish_range_exact].
Qed.

Lemma run_ranges_ok bs : ∀ s E, range_ok s E → range_exact s E → legalRanges E bs = true →
  range_ok (foldl runRange s bs) (foldl expectRanges E bs) ∧ range_exact (foldl runRange s bs) (foldl expectRanges E bs).
Proof.
  induction bs as [|b bs IH]; intros s E Hs Hx Hl; [done|]. cbn in Hl. apply andb_true_iff in Hl as [Hb Hl].
  destruct (run_range_ok s E b Hs Hx Hb). by apply IH.
Qed.

End Kind.

(** C10: after any history of published batches in which a key is added only
    while absent and removed only while present, compactions included, the
    candidates of a range predicate (any operator but "not equal") are exactly
    the indexed entries whose value satisfies it, with no key twice, and the
    planner's estimate bounds their number. *)
Theorem range_index_exact (kind : ascii) (bs : list (list rangeOp)) (op : CompareOp) (operand : Z) :
  legalRanges ∅ bs = true → op ≠ CompareNe →
  let s := foldl (runRange kind) newRangeIndexCell bs in
  let E := foldl expectRanges ∅ bs in
  (∀ e, e ∈ planForEach kind s op operand ↔
        E !! rkey e = Some e ∧ compareMatches op (rangeVal kind e) operand = true) ∧
  NoDup (rkey <$> planForEach kind s op operand) ∧
  ∃ n, estimate kind s op operand = Some n ∧ Z.of_nat (length (planForEach kind s op operand)) ≤ n.
Proof.
  intros Hl Hop s E. destruct (new_range_cell_ok kind) as [H1 H2].
  destruct (run_ranges_ok kind bs _ _ H1 H2 Hl) as [Hs Hx].
  destruct (plan_for_each_spec kind s E op operand Hs Hop) as (Hn & Hm & Hc). split_and!; [|done|].
  - intros e. split; [|intros [He Hm']; by eapply Hc].
    intros He. split; [by eapply plan_for_each_exact|by apply Hm].
  - destruct (estimate_spec kind s op operand) as (m & He & Hle & _); [by eapply range_ok_layers|done|]. eauto.
Qed.

Lemma range_index_exact_witness :
  let e k v := mkRange k 0 1 v 0 in
  let bs := [[RAdd (e "a" 5); RAdd (e "b" 7)]; [RRemove "a"; RAdd (e "a" 9)]] in
  legalRanges ∅ bs = true ∧
  (∀ x, x ∈ planForEach "i" (foldl (runRange "i") newRangeIndexCell bs) CompareGe 6 ↔
        foldl expectRanges ∅ bs !! rkey x = Some x ∧ compareMatches CompareGe (rangeVal "i" x) 6 = true).
Proof. split; [vm_compute; reflexivity|]. apply range_index_exact; [vm_compute; reflexivity|done]. Defined.

(** ** The key prefix *)

Lemma prefix_bytes_acc n : ∀ key acc, prefixBytes n key acc = acc * 256 ^ Z.of_nat n + prefixBytes n key 0 ∧
  0 ≤ prefixBytes n key 0 < 256 ^ Z.of_nat n.
Proof.
  induction n as [|n IH]; intros key acc; cbn [prefixBytes]; [change (256 ^ Z.of_nat 0) with 1; lia|].
  rewrite Nat2Z.inj_succ, Z.pow_succ_r by lia. destruct key as [|c rest].
  - destruct (IH "" (acc * 256)) as [-> ?], (IH "" (0 * 256)) as [-> ?]. nia.
  - pose proof (nat_ascii_bounded c).
    destruct (IH rest (acc * 256 + Z.of_nat (nat_of_ascii c))) as [-> ?],
      (IH rest (0 * 256 + Z.of_nat (nat_of_ascii c))) as [-> ?]. nia.
Qed.

Lemma prefix_bytes_cons n c rest : prefixBytes (S n) (String c rest) 0 =
  Z.of_nat (nat_of_ascii c) * 256 ^ Z.of_nat n + prefixBytes n rest 0.
Proof. cbn [prefixBytes]. by destruct (prefix_bytes_acc n rest (0 * 256 + Z.of_nat (nat_of_ascii c))) as [-> _]. Qed.

Lemma prefix_bytes_lt n : ∀ a b, prefixBytes n a 0 < prefixBytes n b 0 → slt a b.
Proof.
  induction n as [|n IH]; intros a b; [cbn; lia|].
  destruct a as [|c a], b as [|d b].
  - lia.
  - intros _. apply ltb_slt. done.
  - intros H. exfalso. assert (prefixBytes (S n) "" 0 = 0) as Hz.
    { clear. cbn [prefixBytes]. change (0 * 256) with 0. induction n as [|n IH]; [done|]. cbn. exact IH. }
    pose proof (prefix_bytes_acc (S n) (String c a) 0). lia.
  - rewrite !prefix_bytes_cons. intros H.
    destruct (prefix_bytes_acc n a 0) as [_ Ha], (prefix_bytes_acc n b 0) as [_ Hb].
    destruct (Nat.lt_trichotomy (nat_of_ascii c) (nat_of_ascii d)) as [Hc|[Hc|Hc]].
    + apply ltb_slt. unfold String.ltb. cbn [String.compare]. unfold Ascii.compare.
      rewrite (proj2 (N.compare_lt_iff _ _)); [done|]. unfold nat_of_ascii in Hc. lia.
    + assert (c = d) as <- by (rewrite <- (ascii_nat_embedding c), <- (ascii_nat_embedding d); congruence).
      assert (slt a b) as Hab%ltb_slt by (apply IH; lia).
      apply ltb_slt. unfold String.ltb in *. cbn [String.compare]. unfold Ascii.compare. by rewrite N.compare_refl.
    + nia.
Qed.

(** Comparing prefixes first and keys only on a tie is comparing keys. *)
Lemma prefix_order a b : inlineKeyPrefix a < inlineKeyPrefix b → slt a b.
Proof. apply prefix_bytes_lt. Qed.

Lemma prefix_compare a b :
  (inlineKeyPrefix a < inlineKeyPrefix b ∨ (inlineKeyPrefix a = inlineKeyPrefix b ∧ slt a b)) ↔ slt a b.
Proof.
  split; [intros [?%prefix_order|[_ ?]]; done|]. intros Hab.
  destruct (Z.lt_trichotomy (inlineKeyPrefix a) (inlineKeyPrefix b)) as [?|[?|Hba%prefix_order]]; [by left|by right|].
  exfalso. eapply slt_irrefl, slt_trans; eassumption.
Qed.
