(* ===== verification/Mutation.v ===== *)
(** * Mutation: records on the wire

    Models the mapping between records and projection mutations: the read
    direction of [hermes/snapshot.go] (records to [RecordMutation]s, resume
    tokens) and the write direction of [hermes/contract.go] (mutations to
    events).  The generated protobuf structs are records and an inductive type
    for the oneof; their byte encoding is not modelled.  A float64 is an
    abstract [double] with [strconv]'s parser and shortest printer; a time is
    an instant, [0] the zero [time.Time]. *)

From Stdlib Require Import ZArith Lia Ascii String.
From stdpp Require Import base sets strings pretty gmap fin_maps numbers list.
From S2P Require Import Prelude GoStrings RecordData HermesKeys RangeIndex.

Open Scope string_scope.
Open Scope list_scope.
Open Scope Z_scope.

(** ** Decimal texts *)

(** [strconv.ParseUint(s, 10, 64)]: no sign. *)
Definition parseUint64 (s : string) : option Z :=
  if String.eqb s "" then None
  else match parseDigits s 0 with Some v => if v <? 2 ^ 64 then Some v else None | None => None end.

Definition FormatWatermark (watermark : Z) : string := if watermark =? 0 then "" else pretty watermark.
Definition ParseWatermark (token : string) : Z := default 0 (parseUint64 token).

Lemma pretty_digit x : (x < 10)%N → Z.of_nat (nat_of_ascii (pretty_N_char x)) - 48 = Z.of_N x.
Proof.
  intros Hx. assert (x = 0 ∨ x = 1 ∨ x = 2 ∨ x = 3 ∨ x = 4 ∨ x = 5 ∨ x = 6 ∨ x = 7 ∨ x = 8 ∨ x = 9)%N as Hc by lia.
  by destruct_or!; subst.
Qed.

Lemma parse_digits_go x : ∀ s, parseDigits (pretty_N_go x s) 0 = parseDigits s (Z.of_N x).
Proof.
  induction (N.lt_wf_0 x) as [x _ IH]. intros s. assert (x = 0 ∨ 0 < x)%N as [->|Hx] by lia; [done|].
  rewrite pretty_N_go_step by done. rewrite IH by (apply N.div_lt; lia). cbn [parseDigits].
  assert (x `mod` 10 < 10)%N as Hm by (apply N.mod_lt; lia). rewrite pretty_digit by done.
  assert (0 ≤ Z.of_N (x `mod` 10) ≤ 9) as [Ha Hb] by (generalize dependent (x `mod` 10)%N; clear; intros; lia).
  rewrite (proj2 (Z.leb_le _ _) Ha), (proj2 (Z.leb_le _ _) Hb). cbn [andb]. f_equal.
  pose proof (N.div_mod x 10 ltac:(lia)). lia.
Qed.

Lemma parse_digits_pretty (n : N) : parseDigits (pretty n) 0 = Some (Z.of_N n).
Proof.
  unfold pretty, pretty_N. case_decide as Hn; [by subst|]. by rewrite parse_digits_go.
Qed.

(** The first character of a number is a digit. *)
Lemma pretty_go_head x s : (0 < x)%N → ∃ c r, pretty_N_go x s = String c r ∧ (48 ≤ nat_of_ascii c ≤ 57)%nat.
Proof.
  intros Hx. revert s. induction (N.lt_wf_0 x) as [x _ IH]. intros s. rewrite pretty_N_go_step by done.
  destruct (decide (x `div` 10 = 0)%N) as [Hd|Hd%N.neq_0_lt_0].
  - rewrite Hd, pretty_N_go_0. eexists _, _. split; [reflexivity|].
    assert (x `mod` 10 < 10)%N as Hm by (apply N.mod_lt; lia). pose proof (pretty_digit _ Hm) as Hp.
    generalize dependent (x `mod` 10)%N. clear. intros; lia.
  - apply IH; [apply N.div_lt; lia|done].
Qed.

Lemma pretty_head (n : N) : ∃ c r, pretty n = String c r ∧ (48 ≤ nat_of_ascii c ≤ 57)%nat.
Proof.
  unfold pretty, pretty_N. case_decide; [exists "0"%char, ""; split; [done|change (nat_of_ascii "0") with 48%nat; lia]|]. apply pretty_go_head. by apply N.neq_0_lt_0.
Qed.

Lemma pretty_Z_cases (z : Z) : pretty z = if z <? 0 then "-" +:+ pretty (Z.to_N (- z)) else pretty (Z.to_N z).
Proof. destruct z; reflexivity. Qed.

Lemma parse_uint_pretty z : in_u64 z → parseUint64 (pretty z) = Some z.
Proof.
  intros [Hl Hu]. rewrite pretty_Z_cases, (proj2 (Z.ltb_ge _ _)) by lia. unfold parseUint64.
  destruct (pretty_head (Z.to_N z)) as (c & r & Hp & _). rewrite parse_digits_pretty, Hp. cbn [String.eqb].
  rewrite Z2N.id by lia. by rewrite (proj2 (Z.ltb_lt _ _)).
Qed.

Lemma parse_int_pretty z : in_i64 z → parseInt64 (pretty z) = Some z.
Proof.
  intros Hz. rewrite pretty_Z_cases. unfold parseInt64. destruct (Z.ltb_spec z 0) as [Hn|Hn].
  - pose proof (parse_digits_pretty (Z.to_N (- z))) as Hd. destruct (pretty_head (Z.to_N (- z))) as (c & r & Hp & _).
    rewrite Hp in *. change ("-" +:+ String c r) with (String "-" (String c r)). cbv beta iota. cbn [String.eqb].
    rewrite Hd, Z2N.id by lia.
    replace (- - z) with z by lia. by rewrite (proj2 (in_i64b_spec z)).
  - pose proof (parse_digits_pretty (Z.to_N z)) as Hd. destruct (pretty_head (Z.to_N z)) as (c & r & Hp & Hc). rewrite Hp in *.
    assert (c ≠ "-"%char ∧ c ≠ "+"%char) as [H1 H2] 
      by (split; intros ->; [change (nat_of_ascii "-") with 45%nat in Hc|change (nat_of_ascii "+") with 43%nat in Hc]; lia).
    assert (match String c r with String "-" rest => (true, rest) | String "+" rest => (false, rest) | _ => (false, String c r) end
      = (false, String c r)) as ->.
    { destruct c as [[] [] [] [] [] [] [] []]; try done; by try (exfalso; apply H1); try (exfalso; apply H2). }
    cbn [String.eqb]. rewrite Hd, Z2N.id by lia. by rewrite (proj2 (in_i64b_spec z)).
Qed.

(** ** Protobuf structs *)

Inductive ProjectionOperation :=
| OPERATION_UNSPECIFIED | OPERATION_UPSERT | OPERATION_PATCH | OPERATION_DELETE.

Section Wire.
Context {double : Type} (ParseFloat : string → option double) (FormatFloat : double → string).

Inductive ScalarValue :=
| SString (s : string) | SBool (b : bool) | SInt64 (z : Z) | SUint64 (z : Z) | SDouble (d : double) | SBytes (b : string)
| SUnset.

Record FieldValue := mkFV { FVName : string; FVValue : option ScalarValue }.

Record RecordMutation := mkMut {
  MOp : ProjectionOperation; MSourceId : string; MVer : Z; MDomain : string; MCollection : string;
  MOrganizationId : string; MRecordId : string; MFields : list FieldValue; MVector : list Z;
  MCreatedAt : option Z; MUpdatedAt : option Z; MCorrelationId : string
}.

(** ** Records to mutations *)

Definition scalarToProto (value : RecordValue) : option ScalarValue :=
  match Kind_ value with
  | RecordValueString => Some (SString (Text value))
  | RecordValueBool => Some (SBool (String.eqb (Text value) "true"))
  | RecordValueInt => SInt64 <$> parseInt64 (Text value)
  | RecordValueUint => SUint64 <$> parseUint64 (Text value)
  | RecordValueFloat => SDouble <$> ParseFloat (Text value)
  | RecordValueRaw => Some (SBytes (Raw value))
  | RecordValueNull => None
  end.

(** A value without a scalar form is left out. *)
Definition fieldsToProto (data : RecordData) : list FieldValue :=
  omap (λ f, (λ s, mkFV (Name f) (Some s)) <$> scalarToProto (FValue f)) data.

Definition operationToProto (op : Operation) : ProjectionOperation :=
  if String.eqb op OperationPatch then OPERATION_PATCH
  else if String.eqb op OperationDelete then OPERATION_DELETE else OPERATION_UPSERT.

Definition mutationFromParts (op : Operation) (v : Z) (dom coll org id : string) (data : RecordData) (vector : list Z)
    (createdAt updatedAt : Z) : RecordMutation :=
  mkMut (operationToProto op) "" v dom coll org id (fieldsToProto data) vector
    (if createdAt =? 0 then None else Some createdAt) (if updatedAt =? 0 then None else Some updatedAt) "".

Definition mutationFromRecord (rec : DomainRecord) (op : Operation) (v : Z) (includeVector : bool) : RecordMutation :=
  mutationFromParts op v (Domain rec) (Collection rec) (OrganizationID rec) (RecordID rec) (Data rec)
    (if includeVector then Vector_ rec else []) (CreatedAt rec) (UpdatedAt rec).

(** ** Mutations to events *)

Definition scalarFromProto (value : option ScalarValue) : res hermes_error RecordValue :=
  match value with
  | None | Some SUnset => Err ErrInvalidEvent
  | Some (SString s) => Ok (StringValue s)
  | Some (SInt64 z) => Ok (IntValue z)
  | Some (SUint64 z) => Ok (UintValue z)
  | Some (SDouble d) => Ok (FloatValue (FormatFloat d))
  | Some (SBool b) => Ok (BoolValue b)
  | Some (SBytes b) => Ok (RawValue b)
  end.

Fixpoint fieldsFromProto (fields : list FieldValue) (seen : gset string) (data : RecordData) : res hermes_error RecordData :=
  match fields with
  | [] => Ok data
  | f :: rest =>
      let name := TrimSpace (FVName f) in
      if String.eqb name "" then Err ErrInvalidEvent
      else if bool_decide (name ∈ seen) then Err ErrInvalidEvent
      else
        match scalarFromProto (FVValue f) with
        | Err e => Err e
        | Ok v => fieldsFromProto rest ({[name]} ∪ seen) (data ++ [mkField name v])
        end
  end.

(** 1970-01-01, in nanoseconds after the zero time. *)
Definition unixEpoch : Z := 62135596800 * 10 ^ 9.

(** [timestampTime]: the nil check is on the interface.  An unset field is a
    nil pointer inside a non-nil interface, and its [AsTime] is the Unix
    epoch. *)
Definition timestampTime (ts : option Z) : Z := match ts with Some t => t | None => unixEpoch end.

Definition recordFromMutation (m : RecordMutation) : res hermes_error DomainRecord :=
  match fieldsFromProto (MFields m) ∅ [] with
  | Err e => Err e
  | Ok data =>
      Ok (mkRecord (TrimSpace (MDomain m)) (TrimSpace (MCollection m)) (TrimSpace (MOrganizationId m)) (TrimSpace (MRecordId m))
            (Normalize data) (MVector m) (timestampTime (MCreatedAt m)) (timestampTime (MUpdatedAt m)))
  end.

Definition operationFromMutation (op : ProjectionOperation) : Operation :=
  match op with OPERATION_PATCH => OperationPatch | OPERATION_DELETE => OperationDelete | _ => OperationUpsert end.

(** The parts of an envelope the events take over. *)
Record envelopeIds := mkEnvelopeIds { EnvID : string; EnvCorrelationID : string }.

Definition sourceIDFromMutation (env : envelopeIds) (m : RecordMutation) (index total : Z) : string :=
  let sourceID := TrimSpace (MSourceId m) in
  if negb (String.eqb sourceID "") then sourceID
  else
    let base := TrimSpace (EnvID env) in
    let base := if String.eqb base "" then TrimSpace (EnvCorrelationID env) else base in
    if (total <=? 1) || String.eqb base "" then base else base +:+ "#" +:+ pretty index.

Definition correlationIDFromMutation (env : envelopeIds) (m : RecordMutation) : string :=
  let correlationID := TrimSpace (MCorrelationId m) in
  if negb (String.eqb correlationID "") then correlationID else TrimSpace (EnvCorrelationID env).

Definition eventFromMutation (env : envelopeIds) (m : option RecordMutation) (index total : Z) : res hermes_error Event :=
  match m with
  | None => Err ErrInvalidEvent
  | Some m =>
      match recordFromMutation m with
      | Err e => Err e
      | Ok rec =>
          Ok (mkEvent (operationFromMutation (MOp m)) (sourceIDFromMutation env m index total) (MVer m)
                (correlationIDFromMutation env m) rec)
      end
  end.

Definition maxProjectionMutations : Z := 4096.

Fixpoint mutationEvents (env : envelopeIds) (ms : list (option RecordMutation)) (index total : Z) : res hermes_error (list Event) :=
  match ms with
  | [] => Ok []
  | m :: rest =>
      match eventFromMutation env m index total with
      | Err e => Err e
      | Ok ev =>
          match mutationEvents env rest (index + 1) total with Err e => Err e | Ok evs => Ok (ev :: evs) end
      end
  end.

(** [EventsFromEnvelope] once the envelope is validated and its payload
    decoded. *)
Definition eventsFromBatch (env : envelopeIds) (ms : list (option RecordMutation)) : res hermes_error (list Event) :=
  let total := Z.of_nat (length ms) in
  if maxProjectionMutations <? total then Err ErrProjectionLimit else mutationEvents env ms 0 total.

(** ** Round trips *)

(** What the value constructors build. *)
Definition canonicalScalar (v : RecordValue) : Prop :=
  match Kind_ v with
  | RecordValueNull => False
  | RecordValueString => Raw v = ""
  | RecordValueBool => ∃ b, v = BoolValue b
  | RecordValueInt => ∃ z, in_i64 z ∧ v = IntValue z
  | RecordValueUint => ∃ z, in_u64 z ∧ v = UintValue z
  | RecordValueFloat => ∃ d, ParseFloat (Text v) = Some d ∧ v = FloatValue (FormatFloat d)
  | RecordValueRaw => Text v = "" ∧ Raw v ≠ "" ∧ TrimSpace (Raw v) = Raw v
  end.

Lemma scalar_round_trip v : canonicalScalar v → ∃ s, scalarToProto v = Some s ∧ scalarFromProto (Some s) = Ok v.
Proof.
  destruct v as [k t r]. unfold canonicalScalar, scalarToProto. cbn [Kind_ Text Raw]. destruct k.
  - done.
  - intros ->. eexists. split; [reflexivity|]. done.
  - intros [b Hb]. eexists. split; [reflexivity|]. destruct b; cbn in Hb; injection Hb as -> ->; done.
  - intros (z & Hz & [= -> ->]). rewrite parse_int_pretty by done. by eexists.
  - intros (z & Hz & [= -> ->]). rewrite parse_uint_pretty by done. by eexists.
  - intros (d & Hd & [= Ht ->]). rewrite Hd. eexists. split; [reflexivity|]. cbn. by rewrite Ht.
  - intros (-> & Hr & Ht). eexists. split; [reflexivity|]. cbn. unfold RawValue. rewrite Ht. by rewrite (proj2 (String.eqb_neq _ _) Hr).
Qed.

Lemma fields_round_trip data : ∀ seen acc, Forall (λ f, canonicalScalar (FValue f) ∧ TrimSpace (Name f) = Name f ∧ Name f ≠ "") data →
  NoDup (map Name data) → (∀ f, f ∈ data → Name f ∉ seen) →
  fieldsFromProto (fieldsToProto data) seen acc = Ok (acc ++ data).
Proof.
  induction data as [|f data IH]; intros seen acc Hf Hn Hs; [by rewrite app_nil_r|].
  apply Forall_cons in Hf as [(Hc & Ht & Hne) Hf]. cbn [map] in Hn. apply NoDup_cons in Hn as [Hnf Hn].
  destruct (scalar_round_trip _ Hc) as (s & H1 & H2). unfold fieldsToProto in *. cbn [omap list_omap]. rewrite H1. cbn [fmap option_fmap option_map].
  cbn [fieldsFromProto FVName FVValue]. rewrite Ht, (proj2 (String.eqb_neq _ _) Hne), bool_decide_false by (apply Hs, list_elem_of_here).
  rewrite H2, IH; [|done|done|].
  - rewrite <- app_assoc. by destruct f.
  - intros g Hg [Heq%elem_of_singleton|Hin]%elem_of_union.
    + apply Hnf. rewrite <- Heq. by apply list_elem_of_fmap_2.
    + by apply (Hs g); [apply list_elem_of_further|].
Qed.

(** A record as the store keeps it: scope and data normalized, scalars as the
    constructors build them, both times set. *)
Record wireable (rec : DomainRecord) : Prop := {
  wr_scope : TrimSpace (Domain rec) = Domain rec ∧ TrimSpace (Collection rec) = Collection rec ∧
    TrimSpace (OrganizationID rec) = OrganizationID rec ∧ TrimSpace (RecordID rec) = RecordID rec;
  wr_data : canonical (Data rec) ∧ Forall (λ f, canonicalScalar (FValue f)) (Data rec);
  wr_times : CreatedAt rec ≠ 0 ∧ UpdatedAt rec ≠ 0
}.

Lemma record_round_trip rec op v : wireable rec → recordFromMutation (mutationFromRecord rec op v true) = Ok rec.
Proof.
  intros [(H1 & H2 & H3 & H4) [Hc Hs] [Ht1 Ht2]]. unfold recordFromMutation, mutationFromRecord, mutationFromParts.
  cbn [MFields MDomain MCollection MOrganizationId MRecordId MVector MCreatedAt MUpdatedAt].
  pose proof Hc as [Hsort Htrim]. rewrite fields_round_trip; [| | |set_solver].
  - cbn [app]. rewrite H1, H2, H3, H4, (normalize_id _ Hc). rewrite (proj2 (Z.eqb_neq _ _) Ht1), (proj2 (Z.eqb_neq _ _) Ht2).
    by destruct rec.
  - rewrite Forall_forall in *. intros f Hf. split; [by apply Hs|]. by apply Htrim.
  - by apply ssorted_nodup.
Qed.

End Wire.

Arguments ScalarValue double : clear implicits.
Arguments FieldValue double : clear implicits.
Arguments RecordMutation double : clear implicits.

(** ** Results *)

(** C12: what a snapshot sends, an event brings back, for records the wire form can
    carry: a record with a trimmed identity, normalized scalar data (no null, the texts
    of booleans, integers and floats in the form the code prints them) and both times
    set, mapped to a mutation with an operation and a version and back to an event, is
    the same record under the same operation and version, for any float parser and
    printer. *)
Theorem record_wire_round_trip {double} (ParseFloat : string → option double) FormatFloat env rec op v index total :
  wireable ParseFloat FormatFloat rec → op ∈ [OperationUpsert; OperationPatch; OperationDelete] →
  ∃ ev, eventFromMutation FormatFloat env (Some (mutationFromRecord ParseFloat rec op v true)) index total = Ok ev ∧
    ERecord ev = rec ∧ Version ev = v ∧ EOperation ev = op.
Proof.
  intros Hw Hop. unfold eventFromMutation. rewrite (record_round_trip _ _ _ _ _ Hw). eexists. split; [reflexivity|].
  split_and!; [done|done|]. cbn [EOperation MOp mutationFromRecord mutationFromParts].
  repeat (apply elem_of_cons in Hop as [->|Hop]; [reflexivity|]). by apply elem_of_nil in Hop.
Qed.

Definition wireRecord : DomainRecord :=
  mkRecord "signals" "ticks" "org_1" "a"
    [mkField "big" (UintValue (2 ^ 64 - 1)); mkField "live" (BoolValue true); mkField "low" (IntValue minInt64);
     mkField "name" (StringValue " x "); mkField "note" (RawValue "{}"); mkField "price" (FloatValue "1.5")] [7] 5 6.

Lemma record_wire_round_trip_witness :
  ∃ ev, eventFromMutation (λ d, d) (mkEnvelopeIds "env" "corr")
      (Some (mutationFromRecord (λ s, Some s) wireRecord OperationPatch 9 true)) 1 2 = Ok ev ∧ ERecord ev = wireRecord.
Proof.
  destruct (record_wire_round_trip (λ s, Some s) (λ d, d) (mkEnvelopeIds "env" "corr") wireRecord OperationPatch 9 1 2)
    as (ev & H1 & H2 & _).
  - split; [by repeat split| |by split; vm_compute].
    split.
    + apply (normalize_canonical_data (Data wireRecord)).
    + repeat (apply Forall_cons; split); [| | | | | |constructor].
      * exists (2 ^ 64 - 1). split; [split; vm_compute; congruence|reflexivity].
      * by exists true.
      * exists minInt64. split; [split; vm_compute; congruence|reflexivity].
      * reflexivity.
      * split; [reflexivity|]. split; [discriminate|vm_compute; reflexivity].
      * by exists "1.5".
  - right. left.
  - exists ev. by split.
Defined.

(** Resume tokens round-trip: every 64-bit watermark survives formatting
    and parsing. *)
Theorem watermark_round_trip w : in_u64 w → ParseWatermark (FormatWatermark w) = w.
Proof.
  intros Hw. unfold ParseWatermark, FormatWatermark. destruct (Z.eqb_spec w 0) as [->|]; [done|].
  by rewrite parse_uint_pretty.
Qed.

Lemma watermark_round_trip_witness : ParseWatermark (FormatWatermark 18446744073709551615) = 18446744073709551615.
Proof. apply watermark_round_trip. split; [lia|reflexivity]. Defined.

(** A mutation without timestamps decodes to the Unix epoch, not to the zero
    time the code's nil check is for. *)
Theorem unset_timestamp_is_epoch {double} (FormatFloat : double → string) :
  ∃ rec, recordFromMutation FormatFloat (mkMut OPERATION_UPSERT "" 1 "signals" "ticks" "org_1" "a" [] [] None None "") = Ok rec ∧
    UpdatedAt rec = unixEpoch ∧ UpdatedAt rec ≠ 0.
Proof. eexists. split; [reflexivity|]. by split. Qed.

(** A boolean with the text "1" is true for the indexes and false on the wire. *)
Theorem bool_one_reads_false {double} (ParseFloat : string → option double) :
  let v := mkValue RecordValueBool "1" "" in
  ScalarIndex v = ScalarIndex (BoolValue true) ∧ scalarToProto ParseFloat v = Some (SBool false).
Proof. by split. Qed.
