(* ===== verification/Partition.v ===== *)
(** * Partition: the projection's hot plane

    Models [hermes/apply.go], [hermes/rebuild.go] and the write side of
    [hermes/store.go] and [hermes/indexes.go]: a partition holds the records of
    one projection with their versions, tombstones, the memory of applied
    sources, and the key, range and bitmap indexes; a batch of events is applied
    under the partition's lock and its index changes are published at the end.

    A record cell whose pointer is nil is a missing entry of [records].  Byte
    counts are mathematical integers: they are sums of lengths of strings in
    memory.  The clock and the context are inputs: an event comes with the
    [tick] the loop reads for it. *)

From Stdlib Require Import ZArith Lia Ascii String Sorting.Sorted Permutation.
From stdpp Require Import base sets strings gmap fin_maps numbers list.
From S2P Require Import Prelude GoStrings RecordData HermesKeys Bitmap BitmapIndex IndexSnap RangeIndex.

Open Scope string_scope.
Open Scope list_scope.
Open Scope Z_scope.

(** ** State *)

Record recordEntry := mkRec {
  record : DomainRecord; source : string; version : Z; ebytes : Z; expiresAt : option Z
}.

Record tombstoneEntry := mkTomb { tversion : Z; tsource : string }.

(** An index cell: a scope's, or one of its field values' ([fieldIndex]). *)
Abbreviation cellId := (recordScope * option bitmapIndexKey)%type.
(** [rangeIndex]: scope, field and kind. *)
Abbreviation rangeId := (recordScope * string * ascii)%type.

Record partitionRegistry := mkRegistry {
  records : gmap string recordEntry;
  cells : gmap cellId indexSnapshot;
  ranges : gmap rangeId rangeIndexSnapshot;
  bitmaps : BitmapIndexRegistry;
  columnarUnordered : bool; lastColumnarTime : Z; lastColumnarVer : Z
}.

Definition newPartitionRegistry : partitionRegistry := mkRegistry ∅ ∅ ∅ ∅ false 0 0.

Record indexPublisher := mkPublisher {
  changes : gmap cellId indexChange; rangeChanges : gmap rangeId rangeIndexChange
}.

Definition newIndexPublisher : indexPublisher := mkPublisher ∅ ∅.

(** The replay fence of a source prefix. *)
Record watermarkFence := mkFence { wversion : Z; refs : Z }.

(** [applied], [applyOrder] and [watermarks] of the partition. *)
Record dedupe := mkDedupe {
  applied : gset string; applyOrder : list string; watermarks : gmap string watermarkFence
}.

(** [tombstones] and [tombOrder] of the partition. *)
Record graveyard := mkGraves { tombstones : gmap string tombstoneEntry; tombOrder : list string }.

Record partition := mkPartition {
  spec : ProjectionSpec; epoch : Z; watermark : Z; registry : partitionRegistry;
  seen : dedupe; graves : graveyard; bytes : Z; nrecords : Z; rejectedApplies : Z; indexCompactions : Z
}.

Definition newPartition (spec : ProjectionSpec) : partition :=
  mkPartition spec 0 0 newPartitionRegistry (mkDedupe ∅ [] ∅) (mkGraves ∅ []) 0 0 0 0.

Record AppliedMutation := mkMutation { MOperation : Operation; MRecord : DomainRecord; MVersion : Z }.
Record ApplyResult := mkResult { REpoch : Z; Applied : Z; Duplicates : Z; Ignored : Z }.

Inductive applyState := applyStateIgnored | applyStateApplied | applyStateDuplicate.

#[export] Instance applyState_eq_dec : EqDecision applyState.
Proof. solve_decision. Defined.

(** What the loop reads for one event: the context and two clock readings. *)
Record tick := mkTick { cancelled : bool; nowUpdated : Z; nowExpiry : Z }.

(** ** Field updates *)

Definition setRegistry (p : partition) (r : partitionRegistry) : partition :=
  mkPartition (spec p) (epoch p) (watermark p) r (seen p) (graves p) (bytes p) (nrecords p)
    (rejectedApplies p) (indexCompactions p).
Definition setSeen (p : partition) (d : dedupe) : partition :=
  mkPartition (spec p) (epoch p) (watermark p) (registry p) d (graves p) (bytes p) (nrecords p)
    (rejectedApplies p) (indexCompactions p).
Definition setGraves (p : partition) (g : graveyard) : partition :=
  mkPartition (spec p) (epoch p) (watermark p) (registry p) (seen p) g (bytes p) (nrecords p)
    (rejectedApplies p) (indexCompactions p).
Definition setUsage (p : partition) (b n : Z) : partition :=
  mkPartition (spec p) (epoch p) (watermark p) (registry p) (seen p) (graves p) b n
    (rejectedApplies p) (indexCompactions p).
Definition setWatermark (p : partition) (w : Z) : partition :=
  mkPartition (spec p) (epoch p) w (registry p) (seen p) (graves p) (bytes p) (nrecords p)
    (rejectedApplies p) (indexCompactions p).
Definition addRejected (p : partition) (k : Z) : partition :=
  mkPartition (spec p) (epoch p) (watermark p) (registry p) (seen p) (graves p) (bytes p) (nrecords p)
    (rejectedApplies p + k) (indexCompactions p).

Definition setRecords (r : partitionRegistry) (m : gmap string recordEntry) : partitionRegistry :=
  mkRegistry m (cells r) (ranges r) (bitmaps r) (columnarUnordered r) (lastColumnarTime r) (lastColumnarVer r).
Definition setBitmaps (r : partitionRegistry) (b : BitmapIndexRegistry) : partitionRegistry :=
  mkRegistry (records r) (cells r) (ranges r) b (columnarUnordered r) (lastColumnarTime r) (lastColumnarVer r).

(** ** Sizes *)

Definition estimateValueBytes (v : RecordValue) : Z :=
  if (0 <? String.length (Raw v))%nat then Z.of_nat (String.length (Raw v)) else Z.of_nat (String.length (Text v)).

Definition estimateRecordBytes (rec : DomainRecord) : Z :=
  let len s := Z.of_nat (String.length s) in
  len (Domain rec) + len (Collection rec) + len (OrganizationID rec) + len (RecordID rec) +
  Z.of_nat (length (Vector_ rec)) * 4 +
  zsum (map (λ f, len (Name f) + estimateValueBytes (FValue f) + 32) (Data rec)) + 128.

(** ** Memory of sources *)

Definition sourceWatermarkPrefix (src : string) : option string :=
  match Cut ":" src with Some (before, _) => Some before | None => None end.

Definition alreadyAppliedLocked (d : dedupe) (src : string) (v : Z) : bool :=
  if String.eqb src "" then false
  else if bool_decide (src ∈ applied d) then true
  else
    match sourceWatermarkPrefix src with
    | Some prefix =>
        match watermarks d !! prefix with
        | Some wm => (0 <? v) && (v <=? wversion wm)
        | None => false
        end
    | None => false
    end.

(** Forgetting one source drops its share of the prefix's fence. *)
Definition releaseFence (w : gmap string watermarkFence) (src : string) : gmap string watermarkFence :=
  match sourceWatermarkPrefix src with
  | Some prefix =>
      match w !! prefix with
      | Some e => if refs e - 1 <=? 0 then delete prefix w else <[prefix := mkFence (wversion e) (refs e - 1)]> w
      | None => w
      end
  | None => w
  end.

Fixpoint forgetOldest (max : Z) (order : list string) (a : gset string) (w : gmap string watermarkFence) : dedupe :=
  match order with
  | [] => mkDedupe a [] w
  | oldest :: rest =>
      if max <? Z.of_nat (length order)
      then forgetOldest max rest (a ∖ {[oldest]}) (releaseFence w oldest)
      else mkDedupe a order w
  end.

Definition rememberAppliedLocked (maxApplied : Z) (d : dedupe) (src : string) (v : Z) : dedupe :=
  if String.eqb src "" then d
  else if bool_decide (src ∈ applied d) then d
  else
    let w :=
      match sourceWatermarkPrefix src with
      | Some prefix =>
          let e := default (mkFence 0 0) (watermarks d !! prefix) in
          <[prefix := mkFence (if wversion e <? v then v else wversion e) (refs e + 1)]> (watermarks d)
      | None => watermarks d
      end in
    forgetOldest maxApplied (applyOrder d ++ [src]) ({[src]} ∪ applied d) w.

(** ** Tombstones *)

Definition blockedByNewerTombstoneLocked (g : graveyard) (key : string) (v : Z) : bool :=
  match tombstones g !! key with Some t => v <? tversion t | None => false end.

Fixpoint buryOldest (max : Z) (order : list string) (t : gmap string tombstoneEntry) : graveyard :=
  match order with
  | [] => mkGraves t []
  | oldest :: rest =>
      if max <? Z.of_nat (length order) then buryOldest max rest (delete oldest t) else mkGraves t order
  end.

Definition rememberTombstoneLocked (maxTombstones : Z) (g : graveyard) (key src : string) (v : Z) : graveyard :=
  if maxTombstones <=? 0 then g
  else
    let order := match tombstones g !! key with Some _ => tombOrder g | None => tombOrder g ++ [key] end in
    buryOldest maxTombstones order (<[key := mkTomb v src]> (tombstones g)).

(** ** The bounded memories stay bounded *)

Record dedupe_ok (max : Z) (d : dedupe) : Prop := {
  dd_same : ∀ s, s ∈ applied d ↔ s ∈ applyOrder d;
  dd_nodup : NoDup (applyOrder d);
  dd_max : Z.of_nat (length (applyOrder d)) ≤ max
}.

Record graves_ok (max : Z) (g : graveyard) : Prop := {
  gr_known : ∀ k, is_Some (tombstones g !! k) → k ∈ tombOrder g;
  gr_max : Z.of_nat (length (tombOrder g)) ≤ max
}.

Lemma forget_oldest_ok max order : ∀ a w, 0 ≤ max → NoDup order → (∀ s, s ∈ a ↔ s ∈ order) →
  dedupe_ok max (forgetOldest max order a w).
Proof.
  induction order as [|o rest IH]; intros a w Hm Hn Ha; cbn [forgetOldest]; [by split; cbn; [|constructor|lia]|].
  destruct (Z.ltb_spec max (Z.of_nat (length (o :: rest)))); [|by split].
  apply NoDup_cons in Hn as [Ho Hn]. apply IH; [done|done|]. intros s.
  rewrite elem_of_difference, elem_of_singleton, Ha, elem_of_cons. split; [tauto|].
  intros Hs. split; [by right|]. by intros ->.
Qed.

Lemma remember_applied_ok max d src v : 0 ≤ max → dedupe_ok max d → dedupe_ok max (rememberAppliedLocked max d src v).
Proof.
  intros Hm Hd. unfold rememberAppliedLocked. destruct (String.eqb src ""); [done|]. case_bool_decide as Hs; [done|].
  destruct Hd as [Ha Hn _]. apply forget_oldest_ok; [done| |].
  - apply NoDup_app. split_and!; [done| |apply NoDup_singleton]. intros s Hs1 ->%list_elem_of_singleton. by apply Hs, Ha.
  - intros s. rewrite elem_of_union, elem_of_singleton, elem_of_app, list_elem_of_singleton, Ha. tauto.
Qed.

Lemma bury_oldest_ok max order : ∀ t, 0 ≤ max → (∀ k, is_Some (t !! k) → k ∈ order) → graves_ok max (buryOldest max order t).
Proof.
  induction order as [|o rest IH]; intros t Hm Ht; cbn [buryOldest]; [by split; cbn; [|lia]|].
  destruct (Z.ltb_spec max (Z.of_nat (length (o :: rest)))); [|by split].
  apply IH; [done|]. intros k [e [Hne He]%lookup_delete_Some].
  assert (k ∈ o :: rest) as [->|?]%elem_of_cons by (apply Ht; eauto); done.
Qed.

Lemma remember_tombstone_ok max g key src v : graves_ok max g → graves_ok max (rememberTombstoneLocked max g key src v).
Proof.
  intros [Hk Hl]. unfold rememberTombstoneLocked. destruct (Z.leb_spec max 0); [done|].
  apply bury_oldest_ok; [lia|]. intros k [e [[<- _]|[Hne He]]%lookup_insert_Some].
  - destruct (tombstones g !! key) eqn:E; [apply Hk; eauto|]. apply elem_of_app. right. by apply list_elem_of_singleton.
  - destruct (tombstones g !! key); [apply Hk; eauto|]. apply elem_of_app. left. apply Hk; eauto.
Qed.

(** The source of a remembered event is known afterwards. *)
Lemma forget_oldest_keeps max order src : ∀ a w, 0 < max → src ∉ order → src ∈ a →
  src ∈ applied (forgetOldest max (order ++ [src]) a w).
Proof.
  induction order as [|o rest IH]; intros a w Hm Hn Ha; cbn [app forgetOldest].
  - destruct (Z.ltb_spec max (Z.of_nat (length [src]))) as [Hl|]; [cbn in Hl; lia|done].
  - destruct (_ <? _); [|done]. apply not_elem_of_cons in Hn as [Ho Hn]. apply IH; [done|done|set_solver].
Qed.

Lemma remember_applied_known max d src v : 0 < max → dedupe_ok max d → src ≠ "" →
  src ∈ applied (rememberAppliedLocked max d src v).
Proof.
  intros Hm [Hd _ _] Hs. unfold rememberAppliedLocked. rewrite (proj2 (String.eqb_neq _ _) Hs).
  case_bool_decide as Hin; [done|]. apply forget_oldest_keeps; [done|by rewrite <- Hd|set_solver].
Qed.

(** ** Indexes *)

Definition scopeOf (rec : DomainRecord) : recordScope :=
  scopeKey (Domain rec) (Collection rec) (OrganizationID rec).

(** The key index cells of a record: its scope's and its indexed values'. *)
Definition cellsOf (sp : ProjectionSpec) (rec : DomainRecord) : list cellId :=
  (scopeOf rec, None) :: map (λ ik, (scopeOf rec, Some ik)) (forEachIndexedField rec sp).

Definition publisherRangeAdd (ch : gmap rangeId rangeIndexChange) (i : rangeId) (e : rangeIndexEntry) :=
  <[i := rangeAdd (default noRangeChange (ch !! i)) e]> ch.
Definition publisherRangeRemove (ch : gmap rangeId rangeIndexChange) (i : rangeId) (key : string) :=
  <[i := rangeRemove (default noRangeChange (ch !! i)) key]> ch.

(** [publishRanges]: a cell is created empty when it is first changed. *)
Definition publishRanges (rs : gmap rangeId rangeIndexSnapshot) (ch : gmap rangeId rangeIndexChange) :
    gmap rangeId rangeIndexSnapshot :=
  map_imap (λ i c, Some (publishRange (snd i) (default newRangeIndexCell (rs !! i)) c)) ch ∪ rs.

Section Partition.
Context {H : BitmapHooks} (parseFloat : string → option Z).

Definition rangesOf (sp : ProjectionSpec) (rec : DomainRecord) : list (rangeId * (Z * Z)) :=
  forEachRangeIndexedValue parseFloat sp rec.

Definition addIndexesLocked (p : partition) (pub : indexPublisher) (key : string) (rec : DomainRecord) (v : Z) :
    partition * indexPublisher :=
  let ch := foldl (λ ch c, publisherAdd ch c (mkOrder key v)) (changes pub) (cellsOf (spec p) rec) in
  let rch := foldl (λ ch iv, publisherRangeAdd ch (fst iv) (mkRange key 0 v (fst (snd iv)) (snd (snd iv))))
               (rangeChanges pub) (rangesOf (spec p) rec) in
  let bm := AddBitmaps (bitmaps (registry p)) (scopeOf rec) key rec (spec p) in
  (setRegistry p (setBitmaps (registry p) bm), mkPublisher ch rch).

Definition removeIndexesLocked (p : partition) (pub : indexPublisher) (key : string) (rec : DomainRecord) :
    partition * indexPublisher :=
  let ch := foldl (λ ch c, publisherRemove ch c key) (changes pub) (cellsOf (spec p) rec) in
  let rch := foldl (λ ch iv, publisherRangeRemove ch (fst iv) key) (rangeChanges pub) (rangesOf (spec p) rec) in
  let bm := RemoveBitmaps (bitmaps (registry p)) (scopeOf rec) key rec (spec p) in
  (setRegistry p (setBitmaps (registry p) bm), mkPublisher ch rch).

Definition trackColumnarOrder (r : partitionRegistry) (updatedAt v : Z) : partitionRegistry :=
  if columnarUnordered r then r
  else if (v <=? lastColumnarVer r) || (updatedAt <? lastColumnarTime r)
  then mkRegistry (records r) (cells r) (ranges r) (bitmaps r) true (lastColumnarTime r) (lastColumnarVer r)
  else mkRegistry (records r) (cells r) (ranges r) (bitmaps r) false updatedAt v.

(** ** Mutations *)

Definition expiryOf (p : partition) (now : Z) : option Z :=
  if 0 <? TTL (spec p) then Some (now + TTL (spec p)) else None.

(** Storing an entry under its key: order tracking, the cell and the byte count. *)
Definition storeEntry (p : partition) (key : string) (e : recordEntry) (nextBytes : Z) : partition :=
  let r := trackColumnarOrder (registry p) (UpdatedAt (record e)) (version e) in
  setUsage (setRegistry p (setRecords r (<[key := e]> (records r)))) nextBytes (nrecords p).

(** Making room for a key that is not there: its tombstone goes (its place in
    [tombOrder] stays) and the record count grows. *)
Definition newKey (p : partition) (key : string) : partition :=
  setUsage (setGraves p (mkGraves (delete key (tombstones (graves p))) (tombOrder (graves p))))
    (bytes p) (nrecords p + 1).

Definition upsertLocked (p : partition) (pub : indexPublisher) (now : Z) (key : string) (rec : DomainRecord)
    (src : string) (v : Z) : partition * indexPublisher * res hermes_error applyState :=
  if blockedByNewerTombstoneLocked (graves p) key v then (p, pub, Ok applyStateIgnored)
  else
    let existing := records (registry p) !! key in
    if match existing with Some e => v <? version e | None => false end then (p, pub, Ok applyStateIgnored)
    else
      let recBytes := estimateRecordBytes rec in
      let nextBytes := bytes p + recBytes - match existing with Some e => ebytes e | None => 0 end in
      if match existing with Some _ => false | None => MaxRecords (spec p) <=? nrecords p end
      then (p, pub, Err ErrProjectionLimit)
      else if MaxBytes (spec p) <? nextBytes then (p, pub, Err ErrProjectionLimit)
      else
        let '(p, pub) :=
          match existing with
          | Some e => removeIndexesLocked p pub key (record e)
          | None => (newKey p key, pub)
          end in
        let p := storeEntry p key (mkRec rec src v recBytes (expiryOf p now)) nextBytes in
        let '(p, pub) := addIndexesLocked p pub key rec v in
        (p, pub, Ok applyStateApplied).

(** The record a patch produces from the stored one. *)
Definition patchedRecord (existing patch : DomainRecord) : DomainRecord :=
  let updated := if UpdatedAt patch =? 0 then UpdatedAt existing else UpdatedAt patch in
  let updated := if updated <? UpdatedAt existing then UpdatedAt existing else updated in
  mkRecord (Domain existing) (Collection existing) (OrganizationID existing) (RecordID existing)
    (Merge (Data existing) (Data patch))
    (match Vector_ patch with [] => Vector_ existing | v => v end)
    (CreatedAt existing) updated.

Definition patchLocked (p : partition) (pub : indexPublisher) (now : Z) (key : string) (patch : DomainRecord)
    (src : string) (v : Z) : partition * indexPublisher * res hermes_error applyState :=
  if blockedByNewerTombstoneLocked (graves p) key v then (p, pub, Ok applyStateIgnored)
  else
    match records (registry p) !! key with
    | None => (p, pub, Ok applyStateIgnored)
    | Some existing =>
        if v <? version existing then (p, pub, Ok applyStateIgnored)
        else
          let next := patchedRecord (record existing) patch in
          let recBytes := estimateRecordBytes next in
          let nextBytes := bytes p + recBytes - ebytes existing in
          if MaxBytes (spec p) <? nextBytes then (p, pub, Err ErrProjectionLimit)
          else
            let '(p, pub) := removeIndexesLocked p pub key (record existing) in
            let p := storeEntry p key (mkRec next src v recBytes (expiryOf p now)) nextBytes in
            let '(p, pub) := addIndexesLocked p pub key next v in
            (p, pub, Ok applyStateApplied)
    end.

(** Taking a stored entry out of the partition. *)
Definition dropEntry (p : partition) (pub : indexPublisher) (key : string) (e : recordEntry) :
    partition * indexPublisher :=
  let '(p, pub) := removeIndexesLocked p pub key (record e) in
  let r := registry p in
  (setUsage (setRegistry p (setRecords r (delete key (records r)))) (bytes p - ebytes e) (nrecords p - 1), pub).

Definition bury (p : partition) (key src : string) (v : Z) : partition :=
  setGraves p (rememberTombstoneLocked (MaxTombstones (spec p)) (graves p) key src v).

Definition deleteLocked (p : partition) (pub : indexPublisher) (key src : string) (v : Z) :
    partition * indexPublisher * applyState :=
  match records (registry p) !! key with
  | Some e =>
      if v <? version e then (p, pub, applyStateIgnored)
      else let '(p, pub) := dropEntry p pub key e in (bury p key src v, pub, applyStateApplied)
  | None =>
      if blockedByNewerTombstoneLocked (graves p) key v then (p, pub, applyStateIgnored)
      else (bury p key src v, pub, applyStateApplied)
  end.

Definition ttlExpirySource : string := "hermes:ttl".

Definition expired (now : Z) (e : recordEntry) : bool :=
  match expiresAt e with Some t => t <? now | None => false end.

Definition evictOne (st : partition * indexPublisher * list AppliedMutation) (ke : string * recordEntry) :
    partition * indexPublisher * list AppliedMutation :=
  let '(p, pub, obs) := st in
  let '(key, e) := ke in
  let '(p, pub) := dropEntry p pub key e in
  (bury p key ttlExpirySource (version e), pub, obs ++ [mkMutation OperationDelete (record e) (version e)]).

(** The sweep: every expired record, in the order of the map. *)
Definition evictExpiredLocked (p : partition) (pub : indexPublisher) (now : Z) :
    partition * indexPublisher * list AppliedMutation :=
  if TTL (spec p) <=? 0 then (p, pub, [])
  else foldl evictOne (p, pub, []) (filter (λ ke, expired now (snd ke) = true) (map_to_list (records (registry p)))).

(** ** Events *)

Definition effectiveVersion (p : partition) (v : Z) : Z := if 0 <? v then v else u64 (epoch p + 1).

Definition observeSourceWatermark (p : partition) (v : Z) : partition :=
  if v =? 0 then p else if v <=? watermark p then p else setWatermark p v.

Definition normalizeEventRecord (now : Z) (ev : Event) : res hermes_error DomainRecord :=
  if String.eqb (EOperation ev) OperationPatch then normalizePatchRecord now (ERecord ev)
  else normalizeRecord now (ERecord ev).

Definition validateRecordScope (p : partition) (rec : DomainRecord) : bool :=
  String.eqb (Domain rec) (SDomain (spec p)) && String.eqb (Collection rec) (SCollection (spec p)).

Definition applyMutationLocked (p : partition) (pub : indexPublisher) (now : Z) (key : string) (rec : DomainRecord)
    (op : Operation) (src : string) (v : Z) : partition * indexPublisher * res hermes_error applyState :=
  if String.eqb op "" || String.eqb op OperationUpsert then upsertLocked p pub now key rec src v
  else if String.eqb op OperationPatch then patchLocked p pub now key rec src v
  else if String.eqb op OperationDelete
  then let '(p, pub, s) := deleteLocked p pub key src v in (p, pub, Ok s)
  else (p, pub, Err ErrInvalidEvent).

Definition keyOf (rec : DomainRecord) : string :=
  recordKey (Domain rec) (Collection rec) (OrganizationID rec) (RecordID rec).

Definition applyEventLocked (p : partition) (pub : indexPublisher) (t : tick) (ev : Event) :
    partition * indexPublisher * res hermes_error (applyState * Z) :=
  let src := TrimSpace (SourceID ev) in
  let v := effectiveVersion p (Version ev) in
  if alreadyAppliedLocked (seen p) src v then (p, pub, Ok (applyStateDuplicate, 0))
  else
    match normalizeEventRecord (nowUpdated t) ev with
    | Err e => (p, pub, Err e)
    | Ok rec =>
        if negb (validateRecordScope p rec) then (p, pub, Err ErrInvalidEvent)
        else
          match applyMutationLocked p pub (nowExpiry t) (keyOf rec) rec (EOperation ev) src v with
          | (p, pub, Err e) => (p, pub, Err e)
          | (p, pub, Ok s) =>
              (setSeen p (rememberAppliedLocked (MaxAppliedEvents (spec p)) (seen p) src v), pub, Ok (s, v))
          end
    end.

(** ** Batches *)

(** [publisher.publish] on the partition's registry, with its compaction count. *)
Definition publishIndexes (p : partition) (pub : indexPublisher) : partition :=
  let reg := registry p in
  let reg' := mkRegistry (records reg) (publish (cells reg) (changes pub))
                (publishRanges (ranges reg) (rangeChanges pub)) (bitmaps reg)
                (columnarUnordered reg) (lastColumnarTime reg) (lastColumnarVer reg) in
  mkPartition (spec p) (epoch p) (watermark p) reg' (seen p) (graves p) (bytes p) (nrecords p) (rejectedApplies p)
    (indexCompactions p + compactions (cells reg) (changes pub)).

Definition setEpoch (p : partition) (e : Z) : partition :=
  mkPartition (spec p) e (watermark p) (registry p) (seen p) (graves p) (bytes p) (nrecords p)
    (rejectedApplies p) (indexCompactions p).

Definition finishApplyLocked (p : partition) (pub : indexPublisher) (r : ApplyResult) : partition * ApplyResult :=
  if 0 <? Applied r then
    let e := u64 (epoch p + 1) in
    (setEpoch (publishIndexes p pub) e, mkResult e (Applied r) (Duplicates r) (Ignored r))
  else (p, r).

(** Errors that reject one event and let the batch go on. *)
Definition eventLevel (e : hermes_error) : bool :=
  match e with ErrInvalidEvent | ErrProjectionLimit => true | _ => false end.

(** What the loop carries: the partition, the pending index changes, the
    result so far, the joined errors and what the observer was told. *)
Record applyLoopState := mkLoop {
  lp : partition; lpub : indexPublisher; lres : ApplyResult; lerrs : list hermes_error; lobs : list AppliedMutation
}.

(** One iteration; [true] when the loop stops early. *)
Definition applyOne (st : applyLoopState) (t : tick) (ev : Event) : applyLoopState * bool :=
  let r := lres st in
  if cancelled t then (mkLoop (lp st) (lpub st) r (lerrs st ++ [ErrContext]) (lobs st), true)
  else
    match applyEventLocked (lp st) (lpub st) t ev with
    | (p, pub, Err e) =>
        let p := addRejected p 1 in
        if eventLevel e
        then (mkLoop p pub (mkResult (REpoch r) (Applied r) (Duplicates r) (Ignored r + 1)) (lerrs st ++ [e]) (lobs st),
              false)
        else (mkLoop p pub r (lerrs st ++ [e]) (lobs st), true)
    | (p, pub, Ok (applyStateApplied, v)) =>
        let op := if String.eqb (EOperation ev) "" then OperationUpsert else EOperation ev in
        (mkLoop (observeSourceWatermark p v) pub
           (mkResult (REpoch r) (Applied r + 1) (Duplicates r) (Ignored r)) (lerrs st)
           (lobs st ++ [mkMutation op (ERecord ev) v]), false)
    | (p, pub, Ok (applyStateDuplicate, _)) =>
        (mkLoop p pub (mkResult (REpoch r) (Applied r) (Duplicates r + 1) (Ignored r)) (lerrs st) (lobs st), false)
    | (p, pub, Ok (applyStateIgnored, _)) =>
        (mkLoop (addRejected p 1) pub (mkResult (REpoch r) (Applied r) (Duplicates r) (Ignored r + 1)) (lerrs st)
           (lobs st), false)
    end.

Fixpoint applyLoop (st : applyLoopState) (events : list (tick * Event)) : applyLoopState :=
  match events with
  | [] => st
  | (t, ev) :: rest => let '(st, stop) := applyOne st t ev in if stop then st else applyLoop st rest
  end.

Definition applyBatchObserving (p : partition) (now : Z) (events : list (tick * Event)) :
    partition * ApplyResult * list hermes_error * list AppliedMutation :=
  let '(p1, pub, obs) := evictExpiredLocked p newIndexPublisher now in
  let st := applyLoop (mkLoop p1 pub (mkResult (epoch p1) 0 0 0) [] obs) events in
  let '(p2, r) := finishApplyLocked (lp st) (lpub st) (lres st) in
  (p2, r, lerrs st, lobs st).

(** The event [applyRecords] makes of its [i]-th record. *)
Definition recordEvent (sourcePrefix : string) (baseVersion : Z) (i : nat) (rec : DomainRecord) : Event :=
  mkEvent OperationUpsert
    (if String.eqb sourcePrefix "" then "" else sourcePrefix +:+ ":" +:+ OrganizationID rec +:+ ":" +:+ RecordID rec)
    (if 0 <? baseVersion then u64 (baseVersion + Z.of_nat i) else 0) "" rec.

Definition applyRecords (p : partition) (now : Z) (sourcePrefix : string) (baseVersion : Z)
    (recs : list (tick * DomainRecord)) : partition * ApplyResult * list hermes_error * list AppliedMutation :=
  applyBatchObserving p now (imap (λ i tr, (fst tr, recordEvent sourcePrefix baseVersion i (snd tr))) recs).

(** ** Bulk loads *)

Record loadState := mkLoad { next : partition; npub : indexPublisher; nres : ApplyResult; nver : Z; nmark : Z }.

(** The visitor of [bulkLoadFrom]: it returns the error that stops the load. *)
Definition visitRecord (st : loadState) (t : tick) (rec : DomainRecord) : loadState * option hermes_error :=
  let reject e := (mkLoad (addRejected (next st) 1) (npub st) (nres st) (nver st) (nmark st), Some e) in
  if cancelled t then reject ErrContext
  else
    match normalizeRecord (nowUpdated t) rec with
    | Err e => reject e
    | Ok rec =>
        if negb (validateRecordScope (next st) rec) then reject ErrInvalidEvent
        else
          match upsertLocked (next st) (npub st) (nowExpiry t) (keyOf rec) rec "" (nver st) with
          | (p, pub, Err e) => (mkLoad (addRejected p 1) pub (nres st) (nver st) (nmark st), Some e)
          | (p, pub, Ok applyStateApplied) =>
              let r := nres st in
              (mkLoad p pub (mkResult (REpoch r) (Applied r + 1) (Duplicates r) (Ignored r))
                 (u64 (nver st + 1)) (nver st), None)
          | (p, pub, Ok _) =>
              let r := nres st in
              (mkLoad (addRejected p 1) pub (mkResult (REpoch r) (Applied r) (Duplicates r) (Ignored r + 1))
                 (nver st) (nmark st), None)
          end
    end.

Fixpoint visitAll (st : loadState) (recs : list (tick * DomainRecord)) : loadState * option hermes_error :=
  match recs with
  | [] => (st, None)
  | (t, rec) :: rest =>
      match visitRecord st t rec with
      | (st, Some e) => (st, Some e)
      | (st, None) => visitAll st rest
      end
  end.

(** [bulkLoadFrom] with a source that visits [recs], stops at the visitor's
    first error and otherwise ends with [loadErr]. *)
Definition bulkLoadFrom (p : partition) (recs : list (tick * DomainRecord)) (loadErr : option hermes_error) :
    partition * ApplyResult * option hermes_error :=
  let st0 := mkLoad (newPartition (spec p)) newIndexPublisher (mkResult (epoch p) 0 0 0) 1 0 in
  let '(st, err) := visitAll st0 recs in
  match (match err with Some e => Some e | None => loadErr end) with
  | Some e => (addRejected p (rejectedApplies (next st)), nres st, Some e)
  | None =>
      let nx := if 0 <? Applied (nres st) then publishIndexes (next st) (npub st) else next st in
      let e := u64 (epoch p + 1) in
      let r := nres st in
      (mkPartition (spec p) e (nmark st) (registry nx)
         (mkDedupe (applied (seen nx)) (applyOrder (seen nx)) (watermarks (seen p))) (graves nx)
         (bytes nx) (nrecords nx) (rejectedApplies nx) (indexCompactions nx),
       mkResult e (Applied r) (Duplicates r) (Ignored r), None)
  end.

Definition bulkLoad (p : partition) (recs : list (tick * DomainRecord)) :
    partition * ApplyResult * option hermes_error :=
  bulkLoadFrom p recs None.

(** ** The indexes cover the records

    What each index should hold for a map of records. *)

Definition cellMap (sp : ProjectionSpec) (c : cellId) (m : gmap string recordEntry) : gmap string Z :=
  omap (λ e, if decide (c ∈ cellsOf sp (record e)) then Some (version e) else None) m.

Definition rangeEntryOf (sp : ProjectionSpec) (i : rangeId) (key : string) (e : recordEntry) : option rangeIndexEntry :=
  (λ iv, withPrefix (mkRange key 0 (version e) (fst iv) (snd iv))) <$>
  ((list_to_map (rangesOf sp (record e)) : gmap rangeId (Z * Z)) !! i).

Definition rangeMap (sp : ProjectionSpec) (i : rangeId) (m : gmap string recordEntry) : gmap string rangeIndexEntry :=
  map_imap (rangeEntryOf sp i) m.

Definition scopeContent (sp : ProjectionSpec) (s : recordScope) (m : gmap string recordEntry) : content :=
  omap (λ e, if decide (scopeOf (record e) = s) then Some (list_to_set (forEachIndexedField (record e) sp)) else None) m.

Definition rangeOf (r : partitionRegistry) (i : rangeId) : rangeIndexSnapshot :=
  default newRangeIndexCell (ranges r !! i).

(** The published indexes with the pending changes cover the records [m]. *)
Record idx_ok (sp : ProjectionSpec) (r : partitionRegistry) (pub : indexPublisher) (m : gmap string recordEntry) : Prop := {
  ix_cells : ∀ c, ∃ Eb, snap_ok (snapshotOf (cells r) c) Eb ∧
    change_ok (snapshotOf (cells r) c) Eb (changeOf (changes pub) c) (cellMap sp c m);
  ix_ranges : ∀ i, ∃ Eb, range_ok (snd i) (rangeOf r i) Eb ∧
    rchange_ok (rangeOf r i) Eb (default noRangeChange (rangeChanges pub !! i)) (rangeMap sp i m);
  ix_bitmaps : ∀ s, index_inv (getScope (bitmaps r) s) (scopeContent sp s m)
}.

Record goodSpec (sp : ProjectionSpec) : Prop := {
  gs_fields : NoDup (IndexedFields sp);
  gs_ranges : NoDup (RangeIndexedFields sp);
  gs_records : 0 < MaxRecords sp;
  gs_bytes : 0 < MaxBytes sp;
  gs_tombs : 0 < MaxTombstones sp;
  gs_applied : 0 < MaxAppliedEvents sp;
  gs_names : TrimSpace (SDomain sp) = SDomain sp ∧ TrimSpace (SCollection sp) = SCollection sp
}.

Lemma indexed_fields_nodup sp rec : NoDup (IndexedFields sp) → NoDup (forEachIndexedField rec sp).
Proof.
  unfold forEachIndexedField. intros Hn. induction Hn as [|f l Hf Hn IH]; [constructor|]. cbn.
  destruct (Get (Data rec) f) as [v|]; [|done]. destruct (ScalarIndex v) as [[k t]|]; [|done].
  constructor; [|done]. intros (g & Hg & Hk)%list_elem_of_omap.
  destruct (Get (Data rec) g) as [v'|]; [|done]. destruct (ScalarIndex v') as [[k' t']|]; [|done].
  injection Hk as -> _ _. done.
Qed.

Lemma cells_of_nodup sp rec : NoDup (IndexedFields sp) → NoDup (cellsOf sp rec).
Proof.
  intros Hn. unfold cellsOf. constructor.
  - intros Hin. change (map ?f ?l) with (f <$> l) in Hin. by apply list_elem_of_fmap in Hin as (x & [=] & _).
  - change (map ?f ?l) with (f <$> l). apply NoDup_fmap; [intros x y [=]; done|].
    by apply indexed_fields_nodup.
Qed.

Lemma ranges_of_nodup sp rec : NoDup (RangeIndexedFields sp) → NoDup (fst <$> rangesOf sp rec).
Proof.
  unfold rangesOf, forEachRangeIndexedValue. intros Hn. induction Hn as [|f l Hf Hn IH]; [constructor|]. cbn.
  destruct (Get (Data rec) f) as [v|]; [|done]. cbn. destruct (numericRangeValue parseFloat v) as [[[k iv] fv]|]; [|done].
  cbn. constructor; [|done]. intros ([[[s g] k'] x] & Hk & Hin)%list_elem_of_fmap. cbn in Hk. injection Hk as <- <- <-.
  apply list_elem_of_omap in Hin as (g & Hg & Hx). destruct (Get (Data rec) g) as [v'|]; [|done]. cbn in Hx.
  destruct (numericRangeValue parseFloat v') as [[[k' iv'] fv']|]; [|done]. cbn in Hx. injection Hx as -> _ _. done.
Qed.

(** *** Folding changes over the cells of a record *)

Lemma fold_cells (f : indexChange → indexChange) l : ∀ ch c, NoDup l →
  changeOf (foldl (λ ch c, <[c := f (changeOf ch c)]> ch) ch l) c =
  if decide (c ∈ l) then f (changeOf ch c) else @changeOf cellId _ _ ch c.
Proof.
  induction l as [|x l IH]; intros ch c Hn; [by rewrite decide_False by apply not_elem_of_nil|].
  apply NoDup_cons in Hn as [Hx Hn]. cbn [foldl]. rewrite IH by done.
  assert (changeOf (<[x := f (changeOf ch x)]> ch) c = if decide (c = x) then f (changeOf ch x) else changeOf ch c) as ->.
  { unfold changeOf at 1. case_decide as Hc; [subst; by rewrite lookup_insert_eq|by rewrite lookup_insert_ne]. }
  destruct (decide (c = x)) as [->|Hne].
  - rewrite decide_False by done. by rewrite decide_True by apply list_elem_of_here.
  - destruct (decide (c ∈ l)); [rewrite decide_True by (by apply list_elem_of_further)|
      rewrite decide_False by (by intros [?|?]%elem_of_cons)]; done.
Qed.

Lemma fold_ranges (f : rangeIndexChange → Z * Z → rangeIndexChange) l : ∀ (ch : gmap rangeId rangeIndexChange) i, NoDup (fst <$> l) →
  default noRangeChange (foldl (λ ch iv, <[fst iv := f (default noRangeChange (ch !! fst iv)) (snd iv)]> ch) ch l !! i) =
  match (list_to_map l : gmap rangeId (Z * Z)) !! i with
  | Some x => f (default noRangeChange (ch !! i)) x
  | None => default noRangeChange (ch !! i)
  end.
Proof.
  induction l as [|[j x] l IH]; intros ch i Hn; [cbn; by rewrite lookup_empty|].
  cbn in Hn. apply NoDup_cons in Hn as [Hj Hn]. cbn [foldl list_to_map foldr uncurry fst snd]. rewrite IH by done.
  destruct (decide (i = j)) as [->|Hne].
  - rewrite not_elem_of_list_to_map_1 by done. by rewrite !lookup_insert_eq.
  - rewrite !lookup_insert_ne by done. done.
Qed.

Lemma cell_map_delete sp c m k : cellMap sp c (delete k m) = delete k (cellMap sp c m).
Proof. apply omap_delete. Qed.

Lemma cell_map_insert sp c m k e : m !! k = None → cellMap sp c (<[k := e]> m) =
  if decide (c ∈ cellsOf sp (record e)) then <[k := version e]> (cellMap sp c m) else cellMap sp c m.
Proof.
  intros Hk. unfold cellMap. rewrite omap_insert. case_decide; [done|].
  apply delete_id. by rewrite lookup_omap, Hk.
Qed.

Lemma range_map_delete sp i m k : rangeMap sp i (delete k m) = delete k (rangeMap sp i m).
Proof. apply map_imap_delete. Qed.

Lemma range_map_insert sp i m k e : m !! k = None → rangeMap sp i (<[k := e]> m) =
  match rangeEntryOf sp i k e with Some x => <[k := x]> (rangeMap sp i m) | None => rangeMap sp i m end.
Proof.
  intros Hk. unfold rangeMap. rewrite map_imap_insert. destruct (rangeEntryOf sp i k e); [done|].
  apply delete_id. by rewrite map_lookup_imap, Hk.
Qed.

Lemma scope_content_insert sp s m k e : m !! k = None → scopeContent sp s (<[k := e]> m) =
  if decide (scopeOf (record e) = s)
  then <[k := list_to_set (forEachIndexedField (record e) sp)]> (scopeContent sp s m) else scopeContent sp s m.
Proof.
  intros Hk. unfold scopeContent. rewrite omap_insert. case_decide; [done|].
  apply delete_id. by rewrite lookup_omap, Hk.
Qed.

(** *** Adding and removing a record *)

Context {Hok : BitmapHooksOk H}.

Lemma idx_remove p pub key e m : goodSpec (spec p) → idx_ok (spec p) (registry p) pub m → m !! key = Some e →
  idx_ok (spec p) (registry (fst (removeIndexesLocked p pub key (record e))))
    (snd (removeIndexesLocked p pub key (record e))) (delete key m).
Proof using Hok.
  intros Hg [Hc Hr Hb] Hk. split; cbn [removeIndexesLocked fst snd registry setRegistry setBitmaps cells bitmaps changes rangeChanges].
  - intros c. destruct (Hc c) as (Eb & Hs & Hch). exists Eb. split; [done|]. unfold publisherRemove.
    rewrite (fold_cells (λ ch, removeKey ch key)), cell_map_delete by (by apply cells_of_nodup, gs_fields).
    assert (cellMap (spec p) c m !! key = if decide (c ∈ cellsOf (spec p) (record e)) then Some (version e) else None)
      as Hl by (unfold cellMap; by rewrite lookup_omap, Hk). case_decide.
    + by eapply remove_key_ok.
    + by rewrite delete_id.
  - intros i. destruct (Hr i) as (Eb & Hs & Hch). exists Eb. split; [done|]. unfold publisherRangeRemove.
    rewrite (fold_ranges (λ ch _, rangeRemove ch key)), range_map_delete by (by apply ranges_of_nodup, gs_ranges).
    assert (rangeMap (spec p) i m !! key = rangeEntryOf (spec p) i key e) as Hl
      by (unfold rangeMap; by rewrite map_lookup_imap, Hk). unfold rangeEntryOf in Hl.
    destruct (list_to_map _ !! i) as [x|] eqn:E.
    + apply range_remove_ok; [done|]. rewrite Hl. cbn. eauto.
    + rewrite delete_id; [done|]. by rewrite Hl.
  - intros s. unfold scopeContent. rewrite omap_delete. unfold RemoveBitmaps, getScope.
    destruct (decide (s = scopeOf (record e))) as [->|Hne].
    + rewrite lookup_insert_eq. cbn. apply remove_record_inv; [apply Hb|]. unfold scopeContent.
      rewrite lookup_omap, Hk. cbn. by rewrite decide_True.
    + rewrite lookup_insert_ne by done. rewrite delete_id; [apply Hb|].
      rewrite lookup_omap, Hk. cbn. by rewrite decide_False.
Qed.

Lemma idx_add p pub key e m : goodSpec (spec p) → idx_ok (spec p) (registry p) pub m → m !! key = None → key ≠ "" →
  idx_ok (spec p) (registry (fst (addIndexesLocked p pub key (record e) (version e))))
    (snd (addIndexesLocked p pub key (record e) (version e))) (<[key := e]> m).
Proof using Hok.
  intros Hg [Hc Hr Hb] Hk Hkey. split; cbn [addIndexesLocked fst snd registry setRegistry setBitmaps cells bitmaps changes rangeChanges].
  - intros c. destruct (Hc c) as (Eb & Hs & Hch). exists Eb. split; [done|]. unfold publisherAdd.
    rewrite (fold_cells (λ ch, addKey ch (mkOrder key (version e)))), cell_map_insert by
      (try done; by apply cells_of_nodup, gs_fields).
    case_decide; [|done]. apply add_key_ok; [done|]. unfold cellMap. by rewrite lookup_omap, Hk.
  - intros i. destruct (Hr i) as (Eb & Hs & Hch). exists Eb. split; [done|]. unfold publisherRangeAdd.
    rewrite (fold_ranges (λ ch iv, rangeAdd ch (mkRange key 0 (version e) (fst iv) (snd iv)))), range_map_insert by
      (try done; by apply ranges_of_nodup, gs_ranges).
    unfold rangeEntryOf. destruct (list_to_map _ !! i) as [x|]; [|done]. cbn [fmap option_fmap option_map].
    apply (range_add_ok _ _ _ _ (mkRange key 0 (version e) (fst x) (snd x))); [done|]. cbn [rkey].
    unfold rangeMap. by rewrite map_lookup_imap, Hk.
  - intros s. rewrite scope_content_insert by done. unfold AddBitmaps, getScope. case_decide as Hs.
    + subst s. rewrite lookup_insert_eq. cbn. apply add_record_inv; [apply Hb|done|].
      unfold scopeContent. by rewrite lookup_omap, Hk.
    + rewrite lookup_insert_ne by done. apply Hb.
Qed.

(** ** The order proof

    While [columnarUnordered] is clear, publication order is the canonical
    order: order entries are published with growing versions, and records with
    higher versions are not older.  [ch] holds the changes not yet published. *)

Definition newerFirst (a b : recordOrderEntry) : Prop := oversion b < oversion a.

Record order_proof (r : partitionRegistry) (ch : gmap cellId indexChange) (m : gmap string recordEntry) : Prop := {
  op_cells : ∀ c, StronglySorted newerFirst (reverse (corder (changeOf ch c)) ++ forEachOrderDesc (snapshotOf (cells r) c)) ∧
    Forall (λ o, oversion o ≤ lastColumnarVer r) (reverse (corder (changeOf ch c)) ++ forEachOrderDesc (snapshotOf (cells r) c));
  op_last : ∀ k e, m !! k = Some e → version e ≤ lastColumnarVer r ∧ UpdatedAt (record e) ≤ lastColumnarTime r;
  op_versions : ∀ k1 k2 e1 e2, m !! k1 = Some e1 → m !! k2 = Some e2 → version e1 = version e2 → k1 = k2;
  op_times : ∀ k1 k2 e1 e2, m !! k1 = Some e1 → m !! k2 = Some e2 → version e1 < version e2 →
    UpdatedAt (record e1) ≤ UpdatedAt (record e2)
}.

Definition ordered (r : partitionRegistry) (ch : gmap cellId indexChange) (m : gmap string recordEntry) : Prop :=
  columnarUnordered r = false → order_proof r ch m.

(** Fewer records, and fewer order entries in their order, keep the proof. *)
Lemma order_proof_shrink r r' ch ch' m m' : m' ⊆ m →
  lastColumnarVer r' = lastColumnarVer r → lastColumnarTime r' = lastColumnarTime r →
  (∀ c, sublist (reverse (corder (changeOf ch' c)) ++ forEachOrderDesc (snapshotOf (cells r') c))
                (reverse (corder (changeOf ch c)) ++ forEachOrderDesc (snapshotOf (cells r) c))) →
  order_proof r ch m → order_proof r' ch' m'.
Proof.
  intros Hm Hv Ht Hs [H1 H2 H3 H4]. assert (∀ k e, m' !! k = Some e → m !! k = Some e) as Hm' by (intros; by eapply lookup_weaken).
  split; rewrite ?Hv, ?Ht; eauto.
  intros c. destruct (H1 c) as [Hc1 Hc2]. split; [eapply sorted_sublist; [apply Hs|done]|].
  rewrite Forall_forall in *. intros o Ho. apply Hc2. eapply elem_of_submseteq; [exact Ho|apply sublist_submseteq, Hs].
Qed.

Lemma ordered_same r r' ch m : cells r' = cells r → columnarUnordered r' = columnarUnordered r →
  lastColumnarVer r' = lastColumnarVer r → lastColumnarTime r' = lastColumnarTime r → ordered r ch m → ordered r' ch m.
Proof.
  intros Hc Hu Hv Ht Ho Hu'. eapply order_proof_shrink; [done|exact Hv|exact Ht|by rewrite Hc|apply Ho; congruence].
Qed.

Lemma reverse_sublist {A} (l k : list A) : sublist l k → sublist (reverse l) (reverse k).
Proof.
  induction 1 as [|x l k _ IH|x l k _ IH]; [done|rewrite !reverse_cons; by apply sublist_app|].
  rewrite reverse_cons. by apply sublist_inserts_r.
Qed.

Lemma newest_entries_sublist keys l : ∀ s, sublist (newestEntries l keys s) l.
Proof. induction l as [|e l IH]; intros s; cbn [newestEntries]; [done|]. repeat case_bool_decide; by constructor. Qed.

Lemma publish_cell_order old ch : sublist (forEachOrderDesc (fst (publishCell old ch))) (reverse (corder ch) ++ forEachOrderDesc old).
Proof.
  unfold publishCell, compactIndexSnapshot. cbn [fst]. set (s := _ :: old).
  assert (sublist (forEachOrderDesc s) (reverse (corder ch) ++ forEachOrderDesc old)) as Hs.
  { unfold s, forEachOrderDesc. cbn [map concat order]. apply sublist_app; [|done].
    apply reverse_sublist, sublist_filter. }
  destruct (depthOf s <=? maxIndexDeltaDepth); [done|]. unfold forEachOrderDesc at 1. cbn [map concat order].
  unfold compactOrderEntries. rewrite app_nil_r, reverse_involutive. etrans; [apply newest_entries_sublist|done].
Qed.

Lemma order_remove p pub key rec m : goodSpec (spec p) → ordered (registry p) (changes pub) m →
  ordered (registry (fst (removeIndexesLocked p pub key rec))) (changes (snd (removeIndexesLocked p pub key rec))) (delete key m).
Proof.
  intros Hg Ho Hu. eapply (order_proof_shrink (registry p)); [apply delete_subseteq|done|done| |by apply Ho]. intros c.
  cbn [removeIndexesLocked snd fst changes registry setRegistry setBitmaps cells]. unfold publisherRemove.
  rewrite (fold_cells (λ ch, removeKey ch key)) by (by apply cells_of_nodup, gs_fields).
  case_decide; [|done]. unfold removeKey. by repeat case_match.
Qed.

(** A stored entry extends the order proof, or clears the claim to it. *)
Lemma order_store p pub key e nb : goodSpec (spec p) → ordered (registry p) (changes pub) (delete key (records (registry p))) →
  let q := addIndexesLocked (storeEntry p key e nb) pub key (record e) (version e) in
  ordered (registry (fst q)) (changes (snd q)) (records (registry (fst q))).
Proof.
  intros Hg Ho q. unfold q, addIndexesLocked, storeEntry, trackColumnarOrder. destruct (columnarUnordered (registry p)) eqn:Hu.
  { intros Hf. cbn in Hf. congruence. }
  destruct (Z.leb_spec (version e) (lastColumnarVer (registry p))) as [|Hv]; [done|].
  destruct (Z.ltb_spec (UpdatedAt (record e)) (lastColumnarTime (registry p))) as [|Ht]; [done|]. cbn [orb]. intros _.
  destruct (Ho Hu) as [H1 H2 H3 H4].
  assert (∀ k x, <[key := e]> (records (registry p)) !! k = Some x →
    (k = key ∧ x = e) ∨ (k ≠ key ∧ delete key (records (registry p)) !! k = Some x)) as Hcase.
  { intros k x [[<- <-]|[Hne Hx]]%lookup_insert_Some; [by left|right]. by rewrite lookup_delete_ne. }
  split; cbn [fst snd registry setRegistry setUsage setRecords setBitmaps records cells changes lastColumnarVer lastColumnarTime spec].
  - intros c. unfold publisherAdd. rewrite (fold_cells (λ ch, addKey ch (mkOrder key (version e)))) by (by apply cells_of_nodup, gs_fields).
    destruct (H1 c) as [Hs Hf]. assert (Forall (λ o, oversion o ≤ version e)
      (reverse (corder (changeOf (changes pub) c)) ++ forEachOrderDesc (snapshotOf (cells (registry p)) c))) as Hf'.
    { eapply Forall_impl; [exact Hf|]. cbn. lia. }
    case_decide; [|done]. unfold addKey. cbn [okey].
    repeat case_bool_decide; cbn [corder]; rewrite reverse_app, reverse_singleton; cbn [app];
      (split; [constructor; [done|]; eapply Forall_impl; [exact Hf|]; unfold newerFirst; cbn; lia
              |constructor; [cbn; lia|done]]).
  - intros k x [[-> ->]|[_ Hx]]%Hcase; [lia|]. specialize (H2 k x Hx). lia.
  - intros k1 k2 e1 e2 [[-> ->]|[_ Hx1]]%Hcase [[-> ->]|[_ Hx2]]%Hcase Heq; [done| | |by eapply H3].
    + specialize (H2 _ _ Hx2). lia.
    + specialize (H2 _ _ Hx1). lia.
  - intros k1 k2 e1 e2 [[-> ->]|[_ Hx1]]%Hcase [[-> ->]|[_ Hx2]]%Hcase Hlt; [done| | |by eapply H4].
    + specialize (H2 _ _ Hx2). lia.
    + specialize (H2 _ _ Hx1). lia.
Qed.

(** ** Accounting *)

Lemma estimate_nonneg rec : 0 ≤ estimateRecordBytes rec.
Proof.
  unfold estimateRecordBytes. assert (0 ≤ zsum (map (λ f, Z.of_nat (String.length (Name f)) + estimateValueBytes (FValue f) + 32) (Data rec))); [|lia].
  apply zsum_nonneg. apply Forall_forall. intros z Hz. change (map ?f ?l) with (f <$> l) in Hz.
  apply list_elem_of_fmap in Hz as (f & -> & _). unfold estimateValueBytes. destruct (_ <? _)%nat; lia.
Qed.

Definition sumBytes (m : gmap string recordEntry) : Z := map_fold (λ _ e acc, ebytes e + acc) 0 m.

Lemma sum_bytes_insert m k e : m !! k = None → sumBytes (<[k := e]> m) = ebytes e + sumBytes m.
Proof. intros Hk. unfold sumBytes. apply (map_fold_insert_L (λ _ e acc, ebytes e + acc)); [intros; lia|done]. Qed.

Lemma sum_bytes_delete m k e : m !! k = Some e → sumBytes m = ebytes e + sumBytes (delete k m).
Proof. intros Hk. unfold sumBytes. apply (map_fold_delete_L (λ _ e acc, ebytes e + acc)); [intros; lia|done]. Qed.

Lemma size_delete_z (m : gmap string recordEntry) k e : m !! k = Some e →
  Z.of_nat (size (delete k m)) = Z.of_nat (size m) - 1.
Proof.
  intros Hk. rewrite map_size_delete_Some by (by eexists). assert (size m ≠ 0%nat); [|lia].
  intros Hz%map_size_empty_inv. by rewrite Hz, lookup_empty in Hk.
Qed.

(** A record that belongs to the projection and names its organization. *)
Record scoped (sp : ProjectionSpec) (rec : DomainRecord) : Prop := {
  sc_domain : Domain rec = SDomain sp;
  sc_collection : Collection rec = SCollection sp;
  sc_org : TrimSpace (OrganizationID rec) = OrganizationID rec ∧ OrganizationID rec ≠ "";
  sc_id : TrimSpace (RecordID rec) = RecordID rec ∧ RecordID rec ≠ ""
}.

(** Every record sits under its own key with its own size. *)
Definition records_ok (sp : ProjectionSpec) (m : gmap string recordEntry) : Prop :=
  ∀ k e, m !! k = Some e → k = keyOf (record e) ∧ scoped sp (record e) ∧ ebytes e = estimateRecordBytes (record e).

Record acc_inv (p : partition) : Prop := {
  ac_records : records_ok (spec p) (records (registry p));
  ac_count : nrecords p = Z.of_nat (size (records (registry p)));
  ac_bytes : bytes p = sumBytes (records (registry p));
  ac_max : nrecords p ≤ MaxRecords (spec p) ∧ bytes p ≤ MaxBytes (spec p);
  ac_seen : dedupe_ok (MaxAppliedEvents (spec p)) (seen p);
  ac_graves : graves_ok (MaxTombstones (spec p)) (graves p)
}.

Record inv (p : partition) (pub : indexPublisher) : Prop := {
  iv_spec : goodSpec (spec p);
  iv_acc : acc_inv p;
  iv_idx : idx_ok (spec p) (registry p) pub (records (registry p));
  iv_order : ordered (registry p) (changes pub) (records (registry p))
}.

(** *** Storing and dropping *)

Lemma track_columnar_same r t v : cells (trackColumnarOrder r t v) = cells r ∧ ranges (trackColumnarOrder r t v) = ranges r ∧
  bitmaps (trackColumnarOrder r t v) = bitmaps r ∧ records (trackColumnarOrder r t v) = records r.
Proof. unfold trackColumnarOrder. by repeat case_match. Qed.

Lemma idx_same sp r r' pub m : cells r' = cells r → ranges r' = ranges r → bitmaps r' = bitmaps r →
  idx_ok sp r pub m → idx_ok sp r' pub m.
Proof. intros Hc Hr Hb [H1 H2 H3]. split; unfold rangeOf in *; rewrite ?Hc, ?Hr, ?Hb; done. Qed.

(** The end of an upsert or a patch: the key's old index entries are already
    retracted, and the record count already adjusted. *)
Lemma store_inv p pub key e nb : let m := records (registry p) in
  goodSpec (spec p) → records_ok (spec p) m → idx_ok (spec p) (registry p) pub (delete key m) →
  key = keyOf (record e) → scoped (spec p) (record e) → ebytes e = estimateRecordBytes (record e) →
  nrecords p = Z.of_nat (size (<[key := e]> m)) → nrecords p ≤ MaxRecords (spec p) →
  nb = sumBytes (<[key := e]> m) → nb ≤ MaxBytes (spec p) →
  dedupe_ok (MaxAppliedEvents (spec p)) (seen p) → graves_ok (MaxTombstones (spec p)) (graves p) →
  ordered (registry p) (changes pub) (delete key m) →
  let p' := storeEntry p key e nb in
  inv (fst (addIndexesLocked p' pub key (record e) (version e))) (snd (addIndexesLocked p' pub key (record e) (version e))).
Proof using Hok.
  intros m Hg Hr Hi Hk Hs Hb Hn Hn' Hnb Hnb' Hd Hgr Hord p'.
  destruct (track_columnar_same (registry p) (UpdatedAt (record e)) (version e)) as (T1 & T2 & T3 & T4).
  assert (idx_ok (spec p') (registry p') pub (delete key m)) as Hi'.
  { by apply (idx_same _ (registry p)). }
  split; [done| | |by apply order_store].
  - split; cbn [p' storeEntry addIndexesLocked fst setRegistry setUsage setRecords setBitmaps spec registry records bytes nrecords seen graves];
      rewrite ?T4; try done.
    intros k x [[<- <-]|[Hne Hx]]%lookup_insert_Some; [done|by apply Hr].
  - pose proof (idx_add p' pub key e (delete key m) Hg Hi') as Hadd. rewrite insert_delete_eq in Hadd.
    assert (records (registry (fst (addIndexesLocked p' pub key (record e) (version e)))) = <[key := e]> m) as ->
      by (cbn; by rewrite T4).
    apply Hadd; [apply lookup_delete_eq|]. rewrite Hk. apply record_key_nonempty.
Qed.

Lemma drop_inv p pub key e : inv p pub → records (registry p) !! key = Some e →
  inv (fst (dropEntry p pub key e)) (snd (dropEntry p pub key e)).
Proof using Hok.
  intros [Hg [Hr Hn Hb Hm Hd Hgr] Hi Hord] Hk. pose proof (idx_remove p pub key e _ Hg Hi Hk) as Hrem.
  pose proof (size_delete_z _ _ _ Hk) as Hsz. pose proof (sum_bytes_delete _ _ _ Hk) as Hsum.
  assert (0 ≤ ebytes e) as He.
  { destruct (Hr key e Hk) as (_ & _ & ->). apply estimate_nonneg. }
  split; [done| | |by eapply ordered_same; [..|exact (order_remove p pub key (record e) _ Hg Hord)]].
  - split; cbn [dropEntry removeIndexesLocked fst snd setRegistry setUsage setRecords setBitmaps spec registry records bytes nrecords seen graves];
      try done; try lia.
    intros k x [Hne Hx]%lookup_delete_Some. by apply Hr.
  - cbn [dropEntry removeIndexesLocked fst snd setRegistry setUsage setRecords setBitmaps spec registry records] in *.
    by eapply idx_same; [..|exact Hrem].
Qed.

(** ** Every mutation keeps the invariant *)

(** What only a publication changes. *)
Definition frame (p p' : partition) : Prop :=
  spec p' = spec p ∧ epoch p' = epoch p ∧
  cells (registry p') = cells (registry p) ∧ ranges (registry p') = ranges (registry p).

Lemma frame_refl p : frame p p.
Proof. done. Qed.

Lemma frame_trans p q r : frame p q → frame q r → frame p r.
Proof. unfold frame. intuition congruence. Qed.

Definition visible (p : partition) : gmap string recordEntry := records (registry p).

(** What an applied write did to the visible records. *)
Definition wrote (p p' : partition) (key : string) (e : recordEntry) : Prop :=
  visible p' = <[key := e]> (visible p) ∧
  blockedByNewerTombstoneLocked (graves p) key (version e) = false ∧
  ∀ old, visible p !! key = Some old → version old ≤ version e.

(** Hypotheses under which an entry may be stored: the key's old index entries
    are retracted, counts are adjusted and the limits hold. *)
Record may_store (p : partition) (pub : indexPublisher) (key : string) (e : recordEntry) (nb : Z) : Prop := {
  ms_spec : goodSpec (spec p);
  ms_records : records_ok (spec p) (visible p);
  ms_idx : idx_ok (spec p) (registry p) pub (delete key (visible p));
  ms_entry : key = keyOf (record e) ∧ scoped (spec p) (record e) ∧ ebytes e = estimateRecordBytes (record e);
  ms_count : nrecords p = Z.of_nat (size (<[key := e]> (visible p))) ∧ nrecords p ≤ MaxRecords (spec p);
  ms_bytes : nb = sumBytes (<[key := e]> (visible p)) ∧ nb ≤ MaxBytes (spec p);
  ms_memory : dedupe_ok (MaxAppliedEvents (spec p)) (seen p) ∧ graves_ok (MaxTombstones (spec p)) (graves p);
  ms_order : ordered (registry p) (changes pub) (delete key (visible p))
}.

Lemma store_done p pub key e nb : may_store p pub key e nb →
  ∃ p' pub', addIndexesLocked (storeEntry p key e nb) pub key (record e) (version e) = (p', pub') ∧
  inv p' pub' ∧ frame p p' ∧ seen p' = seen p ∧ graves p' = graves p ∧ visible p' = <[key := e]> (visible p).
Proof using Hok.
  intros [Hg Hr Hi (Hk & Hs & Hb) [Hn Hn'] [Hnb Hnb'] [Hd Hgr] Hord].
  destruct (track_columnar_same (registry p) (UpdatedAt (record e)) (version e)) as (T1 & T2 & T3 & T4).
  pose proof (store_inv p pub key e nb Hg Hr Hi Hk Hs Hb Hn Hn' Hnb Hnb' Hd Hgr Hord) as Hinv. cbv zeta in Hinv.
  eexists _, _. split_and!; [apply surjective_pairing|exact Hinv| | | |]; unfold frame, visible; cbn; by rewrite ?T1, ?T2, ?T4.
Qed.

Lemma may_replace p pub key e e' nb : inv p pub → visible p !! key = Some e →
  key = keyOf (record e') → scoped (spec p) (record e') → ebytes e' = estimateRecordBytes (record e') →
  nb = bytes p + ebytes e' - ebytes e → nb ≤ MaxBytes (spec p) →
  may_store (fst (removeIndexesLocked p pub key (record e))) (snd (removeIndexesLocked p pub key (record e))) key e' nb ∧
  frame p (fst (removeIndexesLocked p pub key (record e))).
Proof using Hok.
  intros [Hg [Hr Hn Hb Hm Hd Hgr] Hi Hord] He Hk Hs Hb' -> Hnb. split; [|done].
  pose proof (idx_remove p pub key e _ Hg Hi He) as Hrem. split; try done; [..|exact (order_remove p pub key (record e) _ Hg Hord)].
  - change (nrecords p = Z.of_nat (size (<[key := e']> (visible p))) ∧ nrecords p ≤ MaxRecords (spec p)).
    rewrite map_size_insert_Some by (by eexists). split; [done|lia].
  - split; [|done]. change (bytes p + ebytes e' - ebytes e = sumBytes (<[key := e']> (visible p))).
    rewrite <- insert_delete_eq, sum_bytes_insert by apply lookup_delete_eq.
    pose proof (sum_bytes_delete _ _ _ He). unfold visible in *. lia.
Qed.

Lemma may_insert p pub key e nb : inv p pub → visible p !! key = None →
  key = keyOf (record e) → scoped (spec p) (record e) → ebytes e = estimateRecordBytes (record e) →
  nrecords p < MaxRecords (spec p) → nb = bytes p + ebytes e → nb ≤ MaxBytes (spec p) →
  may_store (newKey p key) pub key e nb.
Proof.
  intros [Hg [Hr Hn Hb Hm Hd [Hgk Hgl]] Hi Hord] He Hk Hs Hb' Hlt -> Hnb.
  split; try done; [..|change (ordered (registry p) (changes pub) (delete key (visible p))); by rewrite delete_id].
  - change (idx_ok (spec p) (registry p) pub (delete key (visible p))). by rewrite delete_id.
  - change (nrecords p + 1 = Z.of_nat (size (<[key := e]> (visible p))) ∧ nrecords p + 1 ≤ MaxRecords (spec p)).
    rewrite map_size_insert_None by done. unfold visible. lia.
  - split; [|done]. change (visible (newKey p key)) with (visible p). rewrite sum_bytes_insert by done.
    unfold visible. lia.
  - split; [done|]. split; cbn; [|done]. intros k' [t [_ Ht]%lookup_delete_Some]. apply Hgk. eauto.
Qed.

Lemma upsert_cases p pub now key rec src v : inv p pub → key = keyOf rec → scoped (spec p) rec →
  (∃ r, upsertLocked p pub now key rec src v = (p, pub, r) ∧ r ≠ Ok applyStateApplied) ∨
  (∃ p' pub', upsertLocked p pub now key rec src v = (p', pub', Ok applyStateApplied) ∧ inv p' pub' ∧ frame p p' ∧
     seen p' = seen p ∧ wrote p p' key (mkRec rec src v (estimateRecordBytes rec) (expiryOf p now))).
Proof using Hok.
  intros Hiv Hkey Hsc. unfold upsertLocked, wrote.
  destruct (blockedByNewerTombstoneLocked (graves p) key v) eqn:Hbl; [left; eexists; by split|].
  set (e' := mkRec rec src v (estimateRecordBytes rec) (expiryOf p now)).
  change (records (registry p)) with (visible p). destruct (visible p !! key) as [e|] eqn:He.
  - destruct (Z.ltb_spec v (version e)); [left; eexists; by split|].
    destruct (Z.ltb_spec (MaxBytes (spec p)) (bytes p + estimateRecordBytes rec - ebytes e)); [left; eexists; by split|].
    right. destruct (may_replace p pub key e e' _ Hiv He Hkey Hsc eq_refl eq_refl) as [Hms Hfr]; [done|].
    destruct (store_done _ _ _ _ _ Hms) as (p' & pub' & Heq & Hinv & Hf & Hs & _ & Hv).
    exists p', pub'. split_and!; [|done|by eapply frame_trans|done|done|done|by intros ? [= <-]].
    rewrite (surjective_pairing (removeIndexesLocked p pub key (record e))). cbv beta iota zeta.
    change (expiryOf (fst (removeIndexesLocked p pub key (record e))) now) with (expiryOf p now).
    transitivity (let '(q, qp) := addIndexesLocked (storeEntry (fst (removeIndexesLocked p pub key (record e))) key e'
         (bytes p + ebytes e' - ebytes e)) (snd (removeIndexesLocked p pub key (record e))) key (record e') (version e')
       in (q, qp, Ok (E := hermes_error) applyStateApplied)); [reflexivity|].
    by rewrite Heq.
  - destruct (Z.leb_spec (MaxRecords (spec p)) (nrecords p)); [left; eexists; by split|]. rewrite Z.sub_0_r.
    destruct (Z.ltb_spec (MaxBytes (spec p)) (bytes p + estimateRecordBytes rec)); [left; eexists; by split|].
    right. destruct (store_done _ _ _ _ _ (may_insert p pub key e' _ Hiv He Hkey Hsc eq_refl ltac:(done) eq_refl ltac:(done)))
      as (p' & pub' & Heq & Hinv & Hf & Hs & _ & Hv).
    exists p', pub'. split_and!; [|done|by eapply frame_trans; [|exact Hf]|done|done|done|done].
    transitivity (let '(q, qp) := addIndexesLocked (storeEntry (newKey p key) key e' (bytes p + ebytes e')) pub key
         (record e') (version e') in (q, qp, Ok (E := hermes_error) applyStateApplied)); [reflexivity|].
    by rewrite Heq.
Qed.

Lemma patch_cases p pub now key patch src v : inv p pub →
  (∃ r, patchLocked p pub now key patch src v = (p, pub, r) ∧ r ≠ Ok applyStateApplied) ∨
  (∃ p' pub' old, patchLocked p pub now key patch src v = (p', pub', Ok applyStateApplied) ∧ inv p' pub' ∧ frame p p' ∧
     seen p' = seen p ∧ visible p !! key = Some old ∧
     wrote p p' key (mkRec (patchedRecord (record old) patch) src v
                       (estimateRecordBytes (patchedRecord (record old) patch)) (expiryOf p now))).
Proof using Hok.
  intros Hiv. unfold patchLocked, wrote.
  destruct (blockedByNewerTombstoneLocked (graves p) key v) eqn:Hbl; [left; eexists; by split|].
  change (records (registry p)) with (visible p). destruct (visible p !! key) as [e|] eqn:He; [|left; eexists; by split].
  destruct (Z.ltb_spec v (version e)); [left; eexists; by split|]. cbv zeta.
  set (e' := mkRec (patchedRecord (record e) patch) src v (estimateRecordBytes (patchedRecord (record e) patch)) (expiryOf p now)).
  destruct (Z.ltb_spec (MaxBytes (spec p)) (bytes p + estimateRecordBytes (patchedRecord (record e) patch) - ebytes e));
    [left; eexists; by split|].
  right. destruct (ac_records p (iv_acc _ _ Hiv) key e He) as (Hkey & [Hs1 Hs2 Hs3 Hs4] & _).
  destruct (may_replace p pub key e e' _ Hiv He Hkey (Build_scoped (spec p) (record e') Hs1 Hs2 Hs3 Hs4) eq_refl eq_refl)
    as [Hms Hfr]; [done|].
  destruct (store_done _ _ _ _ _ Hms) as (p' & pub' & Heq & Hinv & Hf & Hs & _ & Hv).
  exists p', pub', e. split_and!; [|done|by eapply frame_trans|done|done|done|done|by intros ? [= <-]].
  rewrite (surjective_pairing (removeIndexesLocked p pub key (record e))). cbv beta iota zeta.
  transitivity (let '(q, qp) := addIndexesLocked (storeEntry (fst (removeIndexesLocked p pub key (record e))) key e'
       (bytes p + ebytes e' - ebytes e)) (snd (removeIndexesLocked p pub key (record e))) key (record e') (version e')
     in (q, qp, Ok (E := hermes_error) applyStateApplied)); [reflexivity|].
  by rewrite Heq.
Qed.

Lemma bury_inv p pub key src v : inv p pub → inv (bury p key src v) pub ∧ frame p (bury p key src v) ∧
  visible (bury p key src v) = visible p ∧ seen (bury p key src v) = seen p.
Proof.
  intros [Hg [Hr Hn Hb Hm Hd Hgr] Hi Hord]. split; [|done]. split; [done| |done|done]. split; try done.
  by apply remember_tombstone_ok.
Qed.

Lemma drop_frame p pub key e : frame p (fst (dropEntry p pub key e)) ∧ seen (fst (dropEntry p pub key e)) = seen p ∧
  visible (fst (dropEntry p pub key e)) = delete key (visible p) ∧ graves (fst (dropEntry p pub key e)) = graves p.
Proof. done. Qed.

Lemma delete_cases p pub key src v : inv p pub →
  deleteLocked p pub key src v = (p, pub, applyStateIgnored) ∨
  (∃ p' pub', deleteLocked p pub key src v = (p', pub', applyStateApplied) ∧ inv p' pub' ∧ frame p p' ∧
     seen p' = seen p ∧ visible p' = delete key (visible p) ∧
     (∀ old, visible p !! key = Some old → version old ≤ v) ∧
     graves p' = rememberTombstoneLocked (MaxTombstones (spec p)) (graves p) key src v).
Proof using Hok.
  intros Hiv. unfold deleteLocked. change (records (registry p)) with (visible p).
  destruct (visible p !! key) as [e|] eqn:He.
  - destruct (Z.ltb_spec v (version e)); [by left|right].
    destruct (drop_frame p pub key e) as (D1 & D2 & D3 & D4). pose proof (drop_inv p pub key e Hiv He) as Hd.
    destruct (dropEntry p pub key e) as [p1 pub1]. cbn [fst snd] in *.
    destruct (bury_inv p1 pub1 key src v Hd) as (Hb & Hf & Hv & Hs).
    exists (bury p1 key src v), pub1. split_and!; [done|done|by eapply frame_trans|congruence|congruence|by intros ? [= <-]|].
    unfold bury. cbn. by rewrite D4, (proj1 D1).
  - destruct (blockedByNewerTombstoneLocked (graves p) key v); [by left|right].
    destruct (bury_inv p pub key src v Hiv) as (Hb & Hf & Hv & Hs).
    exists (bury p key src v), pub. split_and!; [done|done|done|done| |done|done]. by rewrite Hv, delete_id.
Qed.

(** What a mutation of [key] at version [v] does to the visible records:
    nothing, a write of that version, or a removal; never over a newer one. *)
Definition effect (p p' : partition) (key : string) (v : Z) (r : res hermes_error applyState) : Prop :=
  match r with
  | Ok applyStateApplied =>
      (∃ e, version e = v ∧ wrote p p' key e) ∨
      (visible p' = delete key (visible p) ∧ ∀ old, visible p !! key = Some old → version old ≤ v)
  | _ => p' = p
  end.

Lemma mutation_cases p pub now key rec op src v : inv p pub → key = keyOf rec → scoped (spec p) rec →
  ∃ p' pub' r, applyMutationLocked p pub now key rec op src v = (p', pub', r) ∧ inv p' pub' ∧ frame p p' ∧
    seen p' = seen p ∧ effect p p' key v r ∧ (r ≠ Ok applyStateApplied → pub' = pub).
Proof using Hok.
  intros Hiv Hk Hs. unfold applyMutationLocked.
  destruct (String.eqb op "" || String.eqb op OperationUpsert); [|destruct (String.eqb op OperationPatch); [|destruct (String.eqb op OperationDelete)]].
  - destruct (upsert_cases p pub now key rec src v Hiv Hk Hs) as [(r & -> & Hr)|(p' & pub' & -> & Hiv' & Hf & Hse & Hw)].
    + exists p, pub, r. split_and!; try done. destruct r as [[]|]; done.
    + exists p', pub', (Ok applyStateApplied). split_and!; try done. left. eexists. by split; [|exact Hw].
  - destruct (patch_cases p pub now key rec src v Hiv) as [(r & -> & Hr)|(p' & pub' & old & -> & Hiv' & Hf & Hse & _ & Hw)].
    + exists p, pub, r. split_and!; try done. destruct r as [[]|]; done.
    + exists p', pub', (Ok applyStateApplied). split_and!; try done. left. eexists. by split; [|exact Hw].
  - destruct (delete_cases p pub key src v Hiv) as [->|(p' & pub' & -> & Hiv' & Hf & Hse & Hv & Hold & _)].
    + by exists p, pub, (Ok applyStateIgnored).
    + exists p', pub', (Ok applyStateApplied). split_and!; try done. by right.
  - by exists p, pub, (Err ErrInvalidEvent).
Qed.

Lemma normalize_scoped now ev p rec : normalizeEventRecord now ev = Ok rec → validateRecordScope p rec = true →
  scoped (spec p) rec.
Proof.
  unfold normalizeEventRecord, normalizePatchRecord, normalizeRecord, validateRecordScope, trimmedScope.
  intros Hn [Hd%String.eqb_eq Hc%String.eqb_eq]%andb_true_iff.
  destruct (String.eqb (TrimSpace (Domain (ERecord ev))) "" || _ || _ || _) eqn:E; [by destruct (String.eqb (EOperation ev) _)|].
  apply orb_false_iff in E as [E Hr%String.eqb_neq]. apply orb_false_iff in E as [_ Ho%String.eqb_neq].
  destruct (String.eqb (EOperation ev) _); injection Hn as <-; split; cbn in *; try done;
    (split; [apply trim_space_idemp|done]).
Qed.

Lemma remember_inv p pub src v : inv p pub →
  inv (setSeen p (rememberAppliedLocked (MaxAppliedEvents (spec p)) (seen p) src v)) pub.
Proof.
  intros [Hg [Hr Hn Hb Hm Hd Hgr] Hi Hord]. split; [done| |done|done]. split; try done.
  apply remember_applied_ok; [|done]. pose proof (gs_applied _ Hg). lia.
Qed.

Lemma event_cases p pub t ev : inv p pub →
  ∃ p' pub' r, applyEventLocked p pub t ev = (p', pub', r) ∧ inv p' pub' ∧ frame p p' ∧
    ((∃ v, r = Ok (applyStateApplied, v)) ∨ (visible p' = visible p ∧ pub' = pub)).
Proof using Hok.
  intros Hiv. unfold applyEventLocked. destruct (alreadyAppliedLocked _ _ _).
  { exists p, pub, (Ok (applyStateDuplicate, 0)). split_and!; try done. by right. }
  destruct (normalizeEventRecord (nowUpdated t) ev) as [rec|e] eqn:Hn.
  2: { exists p, pub, (Err e). split_and!; try done. by right. }
  destruct (validateRecordScope p rec) eqn:Hv; cbn [negb].
  2: { exists p, pub, (Err ErrInvalidEvent). split_and!; try done. by right. }
  destruct (mutation_cases p pub (nowExpiry t) (keyOf rec) rec (EOperation ev) (TrimSpace (SourceID ev))
    (effectiveVersion p (Version ev)) Hiv eq_refl (normalize_scoped _ _ _ _ Hn Hv))
    as (p' & pub' & r & -> & Hiv' & Hf & Hs & Hef & Hpub).
  destruct r as [s|e].
  - eexists _, pub', (Ok (s, _)). split_and!; [done|by apply remember_inv|done|].
    destruct s; [right|left; eauto|right]; (split; [by rewrite <- Hef|by apply Hpub]).
  - exists p', pub', (Err e). split_and!; try done. right. split; [by rewrite Hef|by apply Hpub].
Qed.

(** ** Batches keep the partition stable *)

(** Between batches the published indexes alone cover the records. *)
Record stable (p : partition) : Prop := {
  st_spec : goodSpec (spec p);
  st_acc : acc_inv p;
  st_cells : ∀ c, snap_ok (snapshotOf (cells (registry p)) c) (cellMap (spec p) c (visible p));
  st_ranges : ∀ i, range_ok (snd i) (rangeOf (registry p) i) (rangeMap (spec p) i (visible p));
  st_bitmaps : ∀ s, index_inv (getScope (bitmaps (registry p)) s) (scopeContent (spec p) s (visible p));
  st_order : ordered (registry p) ∅ (visible p)
}.

Lemma stable_inv p : stable p → inv p newIndexPublisher.
Proof.
  intros [Hg Ha Hc Hr Hb Hord]. split; [done|done| |done]. split; [| |done].
  - intros c. eexists. split; [apply Hc|]. unfold changeOf. cbn. rewrite lookup_empty. by apply no_change_ok.
  - intros i. eexists. split; [apply Hr|]. cbn. rewrite lookup_empty. by eapply no_range_change_ok.
Qed.

Lemma cell_map_mono sp c m m' : m' ⊆ m → cellMap sp c m' ⊆ cellMap sp c m.
Proof.
  intros Hs. apply map_subseteq_spec. intros k v. unfold cellMap. rewrite !lookup_omap.
  destruct (m' !! k) as [e|] eqn:E; [|done]. by rewrite (lookup_weaken _ _ _ _ E Hs).
Qed.

Lemma range_map_mono sp i m m' : m' ⊆ m → rangeMap sp i m' ⊆ rangeMap sp i m.
Proof.
  intros Hs. apply map_subseteq_spec. intros k v. unfold rangeMap. rewrite !map_lookup_imap.
  destruct (m' !! k) as [e|] eqn:E; [|done]. by rewrite (lookup_weaken _ _ _ _ E Hs).
Qed.

Lemma publish_snapshot cs ch c : snapshotOf (publish cs ch) c =
  match ch !! c with
  | Some x => fst (publishCell (snapshotOf cs c) x)
  | None => @snapshotOf cellId _ _ cs c
  end.
Proof.
  unfold snapshotOf at 1, publish. rewrite lookup_union, map_lookup_imap. destruct (ch !! c) as [x|] eqn:E; cbn; [|].
  - by rewrite union_Some_l.
  - by rewrite (left_id_L None (∪)).
Qed.

Lemma publish_range_lookup rs ch i : default newRangeIndexCell (publishRanges rs ch !! i) =
  match ch !! i with
  | Some x => publishRange (snd i) (default newRangeIndexCell (rs !! i)) x
  | None => default newRangeIndexCell (rs !! i)
  end.
Proof.
  unfold publishRanges. rewrite lookup_union, map_lookup_imap. destruct (ch !! i) as [x|] eqn:E; cbn; [|].
  - by rewrite union_Some_l.
  - by rewrite (left_id_L None (∪)).
Qed.

Lemma unchanged_cell s Eb E : snap_ok s Eb → change_ok s Eb noChange E → snap_ok s E.
Proof.
  intros Hs Hc. eapply snap_ok_mono; [done|]. apply map_subseteq_spec. intros k v Hk.
  destruct (co_cover _ _ _ _ Hc k v Hk) as [[x Hx]|(_ & _ & ?)]; [cbn in Hx; by rewrite lookup_empty in Hx|done].
Qed.

Lemma unchanged_range kind s Eb E : range_ok kind s Eb → rchange_ok s Eb noRangeChange E → range_ok kind s E.
Proof.
  intros Hs Hc. eapply range_ok_mono; [done|]. apply map_subseteq_spec. intros k v Hk.
  destruct (rc_cover _ _ _ _ Hc k v Hk) as [Hx|(_ & _ & ?)]; [cbn in Hx; by rewrite lookup_empty in Hx|done].
Qed.

Lemma publish_stable p pub : inv p pub → stable (publishIndexes p pub).
Proof.
  intros [Hg [Hr Hn Hb Hm Hd Hgr] [Hc Hrg Hbm] Hord]. split; [done|by split| | |done|].
  - intros c. cbn [publishIndexes registry cells spec]. rewrite publish_snapshot.
    destruct (Hc c) as (Eb & Hs & Hch). unfold changeOf in Hch. destruct (changes pub !! c) as [x|]; cbn in Hch.
    + by eapply publish_cell_ok.
    + by eapply unchanged_cell.
  - intros i. unfold rangeOf. cbn [publishIndexes registry ranges spec]. rewrite publish_range_lookup.
    destruct (Hrg i) as (Eb & Hs & Hch). unfold rangeOf in *. destruct (rangeChanges pub !! i) as [x|]; cbn in Hch.
    + by eapply publish_range_ok.
    + by eapply unchanged_range.
  - intros Hu. eapply (order_proof_shrink (registry p)); [done|done|done| |by apply Hord]. intros c.
    cbn [publishIndexes registry cells]. rewrite publish_snapshot. unfold changeOf. rewrite lookup_empty. cbn [default from_option noChange corder].
    destruct (changes pub !! c) as [x|]; [apply publish_cell_order|done].
Qed.

(** Dropping pending removals is safe: the published indexes may only hold
    more. *)
Lemma shrunk_stable p0 p pub : stable p0 → inv p pub → frame p0 p → visible p ⊆ visible p0 → stable p.
Proof.
  intros Hst [Hg Ha Hi Hord] (F1 & F2 & F3 & F4) Hsub. split; [done|done| | |apply Hi|].
  - intros c. rewrite F3, F1. eapply snap_ok_mono; [apply (st_cells _ Hst)|by apply cell_map_mono].
  - intros i. unfold rangeOf. rewrite F4, F1. eapply range_ok_mono; [apply (st_ranges _ Hst)|by apply range_map_mono].
  - intros Hu. eapply (order_proof_shrink (registry p) _ _ _ (visible p)); [done|done|done| |by apply Hord]. intros c. unfold changeOf at 1. rewrite lookup_empty.
    cbn [default from_option noChange corder]. by apply sublist_inserts_l.
Qed.

Lemma evict_fold l : ∀ p pub obs, inv p pub → NoDup l.*1 → (∀ ke, ke ∈ l → visible p !! ke.1 = Some ke.2) →
  let '(p', pub', _) := foldl evictOne (p, pub, obs) l in
  inv p' pub' ∧ frame p p' ∧ seen p' = seen p ∧
  ∀ k, visible p' !! k = if decide (k ∈ l.*1) then None else visible p !! k.
Proof using Hok.
  induction l as [|[key e] l IH]; intros p pub obs Hiv Hn Hin; cbn [foldl].
  { by split_and!. }
  cbn [fmap list_fmap fst] in Hn. apply NoDup_cons in Hn as [Hk Hn]. cbn [evictOne].
  assert (visible p !! key = Some e) as He by (apply (Hin (key, e)), list_elem_of_here).
  destruct (drop_frame p pub key e) as (D1 & D2 & D3 & D4). pose proof (drop_inv p pub key e Hiv He) as Hd.
  destruct (dropEntry p pub key e) as [p1 pub1]. cbn [fst snd] in *.
  destruct (bury_inv p1 pub1 key ttlExpirySource (version e) Hd) as (B1 & B2 & B3 & B4).
  specialize (IH (bury p1 key ttlExpirySource (version e)) pub1 (obs ++ [mkMutation OperationDelete (record e) (version e)]) B1 Hn).
  destruct (foldl evictOne _ l) as [[p' pub'] obs'] eqn:Ef. destruct IH as (I1 & I2 & I3 & I4).
  { intros ke Hke. rewrite B3, D3, lookup_delete_ne; [apply Hin; by apply list_elem_of_further|].
    intros ->. apply Hk. apply list_elem_of_fmap. eauto. }
  split_and!; [done|by eapply frame_trans, frame_trans|congruence|].
  intros k. rewrite I4, B3, D3. destruct (decide (k = key)) as [->|Hne].
  - rewrite decide_False by done. rewrite decide_True by apply list_elem_of_here. apply lookup_delete_eq.
  - rewrite lookup_delete_ne by done.
    destruct (decide (k ∈ l.*1)); [rewrite decide_True by (by apply list_elem_of_further)|
      rewrite decide_False by (by intros [?|?]%elem_of_cons)]; done.
Qed.

Lemma evict_cases p now : stable p →
  let '(p', pub', _) := evictExpiredLocked p newIndexPublisher now in
  inv p' pub' ∧ frame p p' ∧ seen p' = seen p ∧
  ∀ k, visible p' !! k = match visible p !! k with
                         | Some e => if (0 <? TTL (spec p)) && expired now e then None else Some e
                         | None => None
                         end.
Proof using Hok.
  intros Hst. pose proof (stable_inv p Hst) as Hiv. unfold evictExpiredLocked.
  destruct (Z.leb_spec (TTL (spec p)) 0) as [Ht|Ht].
  { split_and!; try done. intros k. rewrite (proj2 (Z.ltb_ge 0 _) Ht). by destruct (visible p !! k). }
  set (l := filter _ _). pose proof (evict_fold l p newIndexPublisher [] Hiv) as Hf.
  assert (∀ k e, (k, e) ∈ l ↔ visible p !! k = Some e ∧ expired now e = true) as Hl.
  { intros k e. unfold l. rewrite list_elem_of_filter, elem_of_map_to_list. cbn. tauto. }
  destruct (foldl evictOne _ l) as [[p' pub'] obs']. destruct Hf as (H1 & H2 & H3 & H4).
  - eapply sublist_NoDup; [apply (NoDup_fst_map_to_list (visible p))|]. apply fmap_sublist, sublist_filter.
  - intros [k e] [? _]%Hl. done.
  - split_and!; [done|done|done|]. intros k. rewrite H4, (proj2 (Z.ltb_lt 0 _) Ht). cbn [andb].
    destruct (visible p !! k) as [e|] eqn:He; [|by destruct (decide _)].
    destruct (expired now e) eqn:Hx.
    + rewrite decide_True; [done|]. apply list_elem_of_fmap. exists (k, e). split; [done|]. by apply Hl.
    + rewrite decide_False; [done|]. intros ([k' e'] & Hk & Hin)%list_elem_of_fmap. cbn in Hk. subst k'.
      apply Hl in Hin as [He' Hx']. congruence.
Qed.

(** What the apply loop maintains, from the state [p0] before the batch. *)
Record loop_inv (p0 : partition) (st : applyLoopState) : Prop := {
  li_inv : inv (lp st) (lpub st);
  li_frame : frame p0 (lp st);
  li_applied : 0 ≤ Applied (lres st);
  li_quiet : Applied (lres st) = 0 → visible (lp st) ⊆ visible p0
}.

Lemma inv_rejected p pub k : inv p pub → inv (addRejected p k) pub.
Proof. intros [Hg [Hr Hn Hb Hm Hd Hgr] Hi Hord]. split; [done|by split|done|done]. Qed.

Lemma inv_watermark p pub v : inv p pub → inv (observeSourceWatermark p v) pub ∧ frame p (observeSourceWatermark p v) ∧
  visible (observeSourceWatermark p v) = visible p ∧ seen (observeSourceWatermark p v) = seen p.
Proof.
  intros Hiv. unfold observeSourceWatermark. repeat case_match; try done.
  destruct Hiv as [Hg [Hr Hn Hb Hm Hd Hgr] Hi Hord]. by split_and!.
Qed.

Lemma apply_one_inv p0 st t ev : loop_inv p0 st → loop_inv p0 (fst (applyOne st t ev)).
Proof using Hok.
  intros [Hiv Hf Ha Hq]. unfold applyOne. destruct (cancelled t); [by split|].
  destruct (event_cases (lp st) (lpub st) t ev Hiv) as (p' & pub' & r & -> & Hiv' & Hf' & Hr).
  assert (frame p0 p') as Hf2 by (by eapply frame_trans). destruct r as [[[] v]|e].
  - destruct Hr as [(? & [= ?])|[Hv Hp]]. split; cbn; [by apply inv_rejected|done|lia|].
    intros ?. change (visible p' ⊆ visible p0). rewrite Hv. auto.
  - destruct (inv_watermark p' pub' v Hiv') as (W1 & W2 & _). split; cbn; [done|by eapply frame_trans|lia|lia].
  - destruct Hr as [(? & [= ?])|[Hv Hp]]. split; cbn; [done|done|lia|]. intros ?. rewrite Hv. auto.
  - destruct Hr as [(? & [= ?])|[Hv Hp]].
    destruct (eventLevel e); split; cbn; try (by apply inv_rejected); try done; try lia;
      (intros ?; change (visible p' ⊆ visible p0); rewrite Hv; auto).
Qed.

Lemma apply_loop_inv p0 events : ∀ st, loop_inv p0 st → loop_inv p0 (applyLoop st events).
Proof using Hok.
  induction events as [|[t ev] events IH]; intros st Hst; [done|]. cbn [applyLoop].
  pose proof (apply_one_inv p0 st t ev Hst) as H1. destruct (applyOne st t ev) as [st' stop]. cbn in H1.
  destruct stop; [done|by apply IH].
Qed.

Lemma set_epoch_stable p e : stable p → stable (setEpoch p e).
Proof. intros [Hg [Hr Hn Hb Hm Hd Hgr] Hc Hrg Hbm Hord]. by split; [|split|..]. Qed.

Lemma finish_stable p0 st : stable p0 → loop_inv p0 st →
  stable (fst (finishApplyLocked (lp st) (lpub st) (lres st))).
Proof.
  intros Hst [Hiv Hf Ha Hq]. unfold finishApplyLocked. destruct (Z.ltb_spec 0 (Applied (lres st))).
  - cbn [fst]. apply set_epoch_stable. by apply publish_stable.
  - cbn [fst]. eapply shrunk_stable; [done|done|done|]. apply Hq. lia.
Qed.

Lemma batch_stable p now events : stable p → stable (applyBatchObserving p now events).1.1.1.
Proof using Hok.
  intros Hst. unfold applyBatchObserving. pose proof (evict_cases p now Hst) as He.
  destruct (evictExpiredLocked p newIndexPublisher now) as [[p1 pub] obs]. destruct He as (H1 & H2 & _ & H4).
  set (st0 := mkLoop p1 pub _ [] obs).
  assert (loop_inv p st0) as Hl.
  { split; cbn; [done|done|lia|]. intros _. apply map_subseteq_spec. intros k e. rewrite H4.
    destruct (visible p !! k) as [e'|]; [|done]. by destruct (_ && _). }
  pose proof (finish_stable p _ Hst (apply_loop_inv p events st0 Hl)) as Hs.
  destruct (finishApplyLocked _ _ _) as [p2 r]. done.
Qed.

Lemma new_partition_dedupe sp : 0 < MaxAppliedEvents sp → dedupe_ok (MaxAppliedEvents sp) (seen (newPartition sp)).
Proof.
  intros Hm. split; cbn; [intros s; split; [by intros ?%not_elem_of_empty|by intros ?%elem_of_nil]|constructor|lia].
Qed.

Lemma new_partition_stable sp : goodSpec sp → stable (newPartition sp).
Proof.
  intros Hg. split; [done| | | | |].
  - split; cbn; try done.
    + pose proof (gs_records _ Hg). pose proof (gs_bytes _ Hg). lia.
    + by apply new_partition_dedupe, gs_applied.
    + split; cbn; [intros k; rewrite lookup_empty; by intros []|]. pose proof (gs_tombs _ Hg). lia.
  - intros c. apply empty_index_ok.
  - intros i. apply new_range_cell_ok.
  - intros s. apply index_inv_new.
  - intros _. split; cbn; try (intros *; by rewrite lookup_empty). intros c. unfold changeOf, snapshotOf. rewrite !lookup_empty.
    split; constructor.
Qed.

Lemma visit_inv st t rec sp : let p0 := newPartition sp in
  inv (next st) (npub st) → frame p0 (next st) → 0 ≤ Applied (nres st) → (Applied (nres st) = 0 → visible (next st) = ∅) →
  let st' := fst (visitRecord st t rec) in
  inv (next st') (npub st') ∧ frame p0 (next st') ∧ 0 ≤ Applied (nres st') ∧ (Applied (nres st') = 0 → visible (next st') = ∅).
Proof using Hok.
  intros p0 Hiv Hf Ha Hq. unfold visitRecord. destruct (cancelled t); [by split_and!; [apply inv_rejected|..]|].
  destruct (normalizeRecord (nowUpdated t) rec) as [rec'|e] eqn:Hn; [|by split_and!; [apply inv_rejected|..]].
  destruct (validateRecordScope (next st) rec') eqn:Hv; cbn [negb]; [|by split_and!; [apply inv_rejected|..]].
  assert (scoped (spec (next st)) rec') as Hs.
  { by eapply (normalize_scoped (nowUpdated t) (mkEvent "" "" 0 "" rec)). }
  destruct (upsert_cases (next st) (npub st) (nowExpiry t) _ rec' "" (nver st) Hiv eq_refl Hs)
    as [(r & -> & Hr)|(p' & pub' & -> & Hiv' & Hf' & _ & _)].
  - destruct r as [[]|e]; cbn; [..|by split_and!; [apply inv_rejected|..]];
      [by split_and!; [apply inv_rejected|..]|done|by split_and!; [apply inv_rejected|..]].
  - cbn. split_and!; [done|by eapply frame_trans|lia|lia].
Qed.

Lemma visit_all_inv sp recs : ∀ st, let p0 := newPartition sp in
  inv (next st) (npub st) → frame p0 (next st) → 0 ≤ Applied (nres st) → (Applied (nres st) = 0 → visible (next st) = ∅) →
  let st' := fst (visitAll st recs) in
  inv (next st') (npub st') ∧ frame p0 (next st') ∧ 0 ≤ Applied (nres st') ∧ (Applied (nres st') = 0 → visible (next st') = ∅).
Proof using Hok.
  induction recs as [|[t rec] recs IH]; intros st p0 Hiv Hf Ha Hq; [done|]. cbn [visitAll].
  destruct (visit_inv st t rec sp Hiv Hf Ha Hq) as (H1 & H2 & H3 & H4).
  destruct (visitRecord st t rec) as [st' [e|]]; [done|]. by apply IH.
Qed.

Lemma bulk_stable p recs le : stable p → stable (bulkLoadFrom p recs le).1.1.
Proof using Hok.
  intros Hst. unfold bulkLoadFrom. set (st0 := mkLoad _ _ _ _ _).
  pose proof (new_partition_stable (spec p) (st_spec _ Hst)) as Hnew.
  destruct (visit_all_inv (spec p) recs st0 (stable_inv _ Hnew)) as (H1 & H2 & H3 & H4); [done|done|done|].
  destruct (visitAll st0 recs) as [st err]. cbn [fst] in *.
  destruct (match err with Some e => Some e | None => le end).
  { cbn. destruct Hst as [Hg [Hr Hn Hb Hm Hd Hgr] Hc Hrg Hbm Hord]. split; [done|by split|done..]. }
  set (nx := if 0 <? Applied (nres st) then publishIndexes (next st) (npub st) else next st).
  assert (stable nx ∧ spec nx = spec p) as [[Hg [Hr Hn Hb Hm Hd Hgr] Hc Hrg Hbm Hord] Hsp].
  { unfold nx. destruct (Z.ltb_spec 0 (Applied (nres st))).
    - split; [by apply publish_stable|apply H2].
    - split; [|apply H2]. eapply shrunk_stable; [exact Hnew|done|done|]. rewrite H4 by lia. apply map_empty_subseteq. }
  rewrite Hsp in *. destruct Hd as [Hd1 Hd2 Hd3]. split; [done|by split|done..].
Qed.

(** ** Reachable partitions *)

Inductive partition_step : partition → partition → Prop :=
| step_batch p now events : partition_step p (applyBatchObserving p now events).1.1.1
| step_records p now prefix base recs : partition_step p (applyRecords p now prefix base recs).1.1.1
| step_bulk p recs loadErr : partition_step p (bulkLoadFrom p recs loadErr).1.1.

Inductive reachable (sp : ProjectionSpec) : partition → Prop :=
| reach_new : reachable sp (newPartition sp)
| reach_step p p' : reachable sp p → partition_step p p' → reachable sp p'.

Lemma good_spec s sp : normalizeSpec s = Ok sp → goodSpec sp.
Proof.
  intros (_ & [Hd Hc] & (H1 & H2 & H3 & H4) & [Hf _] & [Hr _] & _)%normalize_spec_facts. by split.
Qed.

Lemma finish_spec p pub r : spec (finishApplyLocked p pub r).1 = spec p.
Proof. unfold finishApplyLocked. by destruct (0 <? Applied r). Qed.

Lemma batch_spec p now events : stable p → spec (applyBatchObserving p now events).1.1.1 = spec p.
Proof using Hok.
  intros Hst. unfold applyBatchObserving. pose proof (evict_cases p now Hst) as He.
  destruct (evictExpiredLocked p newIndexPublisher now) as [[p1 pub] obs]. destruct He as (H1 & H2 & _ & H4).
  set (st0 := mkLoop p1 pub _ [] obs). assert (loop_inv p1 st0) as Hl by (by split).
  destruct (apply_loop_inv p1 events st0 Hl) as [_ (Hs & _) _ _].
  pose proof (finish_spec (lp (applyLoop st0 events)) (lpub (applyLoop st0 events)) (lres (applyLoop st0 events))) as Hf.
  destruct (finishApplyLocked _ _ _) as [p2 r]. cbn [fst snd] in *. destruct H2 as [H2 _]. congruence.
Qed.

Lemma reachable_stable sp p : goodSpec sp → reachable sp p → stable p.
Proof using Hok.
  intros Hg. induction 1 as [|p p' _ IH Hs]; [by apply new_partition_stable|].
  destruct Hs; [by apply batch_stable|by apply batch_stable|by apply bulk_stable].
Qed.

Lemma reachable_spec sp p : goodSpec sp → reachable sp p → spec p = sp.
Proof using Hok.
  intros Hg. induction 1 as [|p p' Hr IH Hs]; [done|]. pose proof (reachable_stable sp p Hg Hr) as Hst.
  destruct Hs; [by rewrite batch_spec|by unfold applyRecords; rewrite batch_spec|].
  rewrite <- IH by done. unfold bulkLoadFrom. destruct (visitAll _ recs) as [st err]. by destruct err, loadErr.
Qed.

(** ** Effects of one event *)

Lemma track_records r t v : records (trackColumnarOrder r t v) = records r.
Proof. apply track_columnar_same. Qed.

Lemma upsert_effect p pub now key rec src v :
  let '(p', _, r) := upsertLocked p pub now key rec src v in
  match r with
  | Ok applyStateApplied =>
      wrote p p' key (mkRec rec src v (estimateRecordBytes rec) (expiryOf p now)) ∧ seen p' = seen p ∧
      spec p' = spec p ∧ tombOrder (graves p') = tombOrder (graves p) ∧
      tombstones (graves p') ⊆ tombstones (graves p)
  | Ok _ => p' = p ∧ (blockedByNewerTombstoneLocked (graves p) key v = true ∨ ∃ e, visible p !! key = Some e ∧ v < version e)
  | Err _ => p' = p
  end.
Proof.
  unfold upsertLocked. destruct (blockedByNewerTombstoneLocked (graves p) key v) eqn:Hb; [split; [done|by left]|].
  change (records (registry p)) with (visible p). destruct (visible p !! key) as [e|] eqn:He.
  - destruct (Z.ltb_spec v (version e)); [split; [done|right; eauto]|]. destruct (_ <? _); [done|]. cbn zeta beta iota.
    split_and!; try done. split_and!; [unfold visible; cbn; by rewrite track_records|done|by intros ? ?; simplify_eq].
  - destruct (_ <=? _); [done|]. destruct (_ <? _); [done|]. cbn zeta beta iota.
    split_and!; try done; [|cbn; apply delete_subseteq].
    split_and!; [unfold visible; cbn; by rewrite track_records|done|by intros ? ?; simplify_eq].
Qed.

Lemma mutation_effect p pub now key rec op src v :
  let '(p', _, r) := applyMutationLocked p pub now key rec op src v in effect p p' key v r.
Proof.
  unfold applyMutationLocked. destruct (_ || _); [|destruct (String.eqb op OperationPatch); [|destruct (String.eqb op OperationDelete); [|done]]].
  - pose proof (upsert_effect p pub now key rec src v) as Hu.
    destruct (upsertLocked p pub now key rec src v) as [[p' pub'] [[]|]]; try done; try apply Hu.
    left. eexists. split; [|apply Hu]. done.
  - unfold patchLocked. destruct (blockedByNewerTombstoneLocked (graves p) key v) eqn:Hb; [done|].
    change (records (registry p)) with (visible p). destruct (visible p !! key) as [e|] eqn:He; [|done].
    destruct (Z.ltb_spec v (version e)); [done|]. cbn zeta. destruct (_ <? _); [done|]. cbn zeta beta iota.
    left. eexists (mkRec (patchedRecord (record e) rec) src v _ _). split; [done|].
    split_and!; [unfold visible; cbn; by rewrite track_records|done|by intros ? ?; simplify_eq].
  - unfold deleteLocked. change (records (registry p)) with (visible p). destruct (visible p !! key) as [e|] eqn:He.
    + destruct (Z.ltb_spec v (version e)); [done|]. right. split; [done|]. by intros ? ?; simplify_eq.
    + destruct (blockedByNewerTombstoneLocked (graves p) key v); [done|]. right. split; [|by intros ? ?; simplify_eq].
      change (visible p = delete key (visible p)). by rewrite delete_id.
Qed.

End Partition.

(** A list has at least as many elements as the set of them. *)
Lemma list_set_size (l : list string) : (size (list_to_set l : gset string) ≤ length l)%nat.
Proof.
  induction l as [|x l IH]; [done|]. cbn [list_to_set length]. rewrite size_union_alt, size_singleton.
  assert (size ((list_to_set l : gset string) ∖ {[x]}) ≤ size (list_to_set l : gset string))%nat; [|lia].
  apply subseteq_size. set_solver.
Qed.

(** C2: the partition's books balance in every reachable state, whatever
    batches, record batches and bulk loads were applied (expiry included): the
    record counter is the number of visible records, the byte counter the sum
    of their estimated sizes, both within the spec's limits; every record sits
    under the key of its own scope, belongs to the projection's domain and
    collection and names an organization; and the tombstones and remembered
    sources stay within their bounds. *)
Theorem partition_books_balance (H : BitmapHooks) (parseFloat : string → option Z) s sp p :
  BitmapHooksOk H → normalizeSpec s = Ok sp → reachable parseFloat sp p →
  (nrecords p = Z.of_nat (size (visible p)) ∧ nrecords p ≤ MaxRecords sp) ∧
  (bytes p = sumBytes (visible p) ∧ bytes p ≤ MaxBytes sp) ∧
  (∀ k e, visible p !! k = Some e →
     k = keyOf (record e) ∧ Domain (record e) = SDomain sp ∧ Collection (record e) = SCollection sp ∧
     OrganizationID (record e) ≠ "" ∧ ebytes e = estimateRecordBytes (record e)) ∧
  Z.of_nat (size (tombstones (graves p))) ≤ MaxTombstones sp ∧
  Z.of_nat (size (applied (seen p))) ≤ MaxAppliedEvents sp.
Proof.
  intros Hok Hn Hr. pose proof (good_spec _ _ Hn) as Hg. pose proof (reachable_spec parseFloat sp p Hg Hr) as Hsp.
  destruct (reachable_stable parseFloat sp p Hg Hr) as [_ [Hrec Hc Hb Hm [Hd1 Hd2 Hd3] [Hg1 Hg2]] _ _ _]. rewrite Hsp in *.
  split_and!; try done; try lia.
  - intros k e He. destruct (Hrec k e He) as (? & [? ? [? ?] ?] & ?). done.
  - etrans; [|exact Hg2]. apply Nat2Z.inj_le. rewrite <- size_dom. etrans; [|apply (list_set_size (tombOrder (graves p)))].
    apply subseteq_size. intros k Hk%elem_of_dom. by apply elem_of_list_to_set, Hg1.
  - etrans; [|exact Hd3]. apply Nat2Z.inj_le. rewrite <- (size_list_to_set (C := gset string)) by done.
    apply subseteq_size. intros k Hk. by apply elem_of_list_to_set, Hd1.
Qed.

(** A small projection that the witnesses run. *)
Definition tickEvent (op src : string) (v : Z) (id kind : string) : tick * Event :=
  (mkTick false 1 1, mkEvent op src v "" (BitmapIndex.tick id kind)).

Definition tickPartition (events : list (tick * Event)) : partition :=
  (applyBatchObserving (H := noHooks) (λ _, None) (newPartition (tickSpec 1000)) 0 events).1.1.1.

Lemma tick_reachable events : reachable (H := noHooks) (λ _, None) (tickSpec 1000) (tickPartition events).
Proof. eapply reach_step; [apply reach_new|apply step_batch]. Defined.

Lemma partition_books_balance_witness :
  let p := tickPartition [tickEvent "upsert" "s:1" 1 "a" "x"; tickEvent "upsert" "s:2" 2 "b" "x"; tickEvent "delete" "s:3" 3 "a" ""] in
  (nrecords p = 1 ∧ size (visible p) = 1%nat) ∧ bytes p = sumBytes (visible p).
Proof.
  intros p. destruct (partition_books_balance noHooks (λ _, None) (tickSpec 1000) (tickSpec 1000) p noHooks_ok
    ltac:(vm_compute; reflexivity) (tick_reachable _)) as (_ & [Hb _] & _).
  split; [vm_compute; split; reflexivity|exact Hb].
Defined.

(** C5: every event is applied as by a last writer: it leaves the visible
    records alone unless it is accepted, an accepted event changes the record
    of its own key only, to its own version or to nothing, it never replaces a
    record of a higher version, and a write never passes a tombstone of a
    higher version. *)
Theorem event_last_writer_wins (H : BitmapHooks) (parseFloat : string → option Z) p pub t ev :
  let '(p', _, r) := applyEventLocked parseFloat p pub t ev in
  match r with
  | Ok (applyStateApplied, v) =>
      v = effectiveVersion p (Version ev) ∧
      ∃ rec, normalizeEventRecord (nowUpdated t) ev = Ok rec ∧
        (∀ old, visible p !! keyOf rec = Some old → version old ≤ v) ∧
        (visible p' = delete (keyOf rec) (visible p) ∨
         ∃ e, version e = v ∧ visible p' = <[keyOf rec := e]> (visible p) ∧
              ∀ tomb, tombstones (graves p) !! keyOf rec = Some tomb → tversion tomb ≤ v)
  | _ => visible p' = visible p
  end.
Proof.
  unfold applyEventLocked. destruct (alreadyAppliedLocked _ _ _); [done|].
  destruct (normalizeEventRecord (nowUpdated t) ev) as [rec|]; [|done]. destruct (negb _); [done|].
  pose proof (mutation_effect parseFloat p pub (nowExpiry t) (keyOf rec) rec (EOperation ev)
    (TrimSpace (SourceID ev)) (effectiveVersion p (Version ev))) as He.
  destruct (applyMutationLocked _ _ _ _ _ _ _ _ _) as [[p' pub'] [[]|]]; cbn in He |- *; try (by rewrite He).
  split; [done|]. exists rec. split; [done|]. destruct He as [(e & Hv & Hw & Hb & Hold)|[Hd Hold]].
  - rewrite Hv in *. split; [done|]. right. exists e. split_and!; [done|done|]. intros tomb Ht.
    unfold blockedByNewerTombstoneLocked in Hb. rewrite Ht in Hb. lia.
  - split; [done|]. by left.
Qed.

Lemma mutation_seen {H : BitmapHooks} parseFloat p pub now key rec op src v :
  let '(p', _, _) := applyMutationLocked parseFloat p pub now key rec op src v in seen p' = seen p ∧ spec p' = spec p.
Proof.
  unfold applyMutationLocked, upsertLocked, patchLocked, deleteLocked. destruct (_ || _).
  { destruct (blockedByNewerTombstoneLocked _ _ _); [done|]. destruct (records (registry p) !! key); repeat (destruct (_ <? _); [done|]);
      [done|]. destruct (_ <=? _); [done|]. destruct (_ <? _); done. }
  destruct (String.eqb op OperationPatch).
  { destruct (blockedByNewerTombstoneLocked _ _ _); [done|]. destruct (records (registry p) !! key); [|done].
    destruct (_ <? _); [done|]. cbn zeta. destruct (_ <? _); done. }
  destruct (String.eqb op OperationDelete); [|done]. destruct (records (registry p) !! key); [by destruct (_ <? _)|].
  by destruct (blockedByNewerTombstoneLocked _ _ _).
Qed.

(** Replays are harmless: once an event that names a source has been
    handled without an error, handling it again, with whatever clock and
    pending index changes, reports a duplicate and leaves the partition and the
    pending changes exactly as they are. *)
Theorem replay_is_duplicate (H : BitmapHooks) (parseFloat : string → option Z) p pub t ev p' pub' s v :
  dedupe_ok (MaxAppliedEvents (spec p)) (seen p) → 0 < MaxAppliedEvents (spec p) → TrimSpace (SourceID ev) ≠ "" →
  applyEventLocked parseFloat p pub t ev = (p', pub', Ok (s, v)) →
  ∀ qub t', applyEventLocked parseFloat p' qub t' ev = (p', qub, Ok (applyStateDuplicate, 0)).
Proof.
  intros Hd Hm Hs Hev qub t'. assert (alreadyAppliedLocked (seen p') (TrimSpace (SourceID ev)) (effectiveVersion p' (Version ev)) = true) as Ha.
  { unfold applyEventLocked in Hev. destruct (alreadyAppliedLocked (seen p) _ _) eqn:E; [by injection Hev as <- <- _ _|].
    destruct (normalizeEventRecord (nowUpdated t) ev) as [rec|]; [|done]. destruct (negb _); [done|].
    pose proof (mutation_seen parseFloat p pub (nowExpiry t) (keyOf rec) rec (EOperation ev)
      (TrimSpace (SourceID ev)) (effectiveVersion p (Version ev))) as Hse.
    destruct (applyMutationLocked _ _ _ _ _ _ _ _ _) as [[q q'] [x|]]; [|done]. destruct Hse as [Hse Hsp].
    injection Hev as <- _ _ _. unfold alreadyAppliedLocked. rewrite (proj2 (String.eqb_neq _ _) Hs).
    rewrite bool_decide_true; [done|]. cbn [seen setSeen]. rewrite Hse, Hsp. by apply remember_applied_known. }
  unfold applyEventLocked at 1. by rewrite Ha.
Qed.

Lemma replay_is_duplicate_witness :
  let ev := (tickEvent "upsert" "s:1" 1 "a" "x").2 in
  let p := newPartition (tickSpec 1000) in
  let '(p', _, r) := applyEventLocked (H := noHooks) (λ _, None) p newIndexPublisher (mkTick false 1 1) ev in
  r = Ok (applyStateApplied, 1) ∧
  applyEventLocked (H := noHooks) (λ _, None) p' newIndexPublisher (mkTick false 9 9) ev =
    (p', newIndexPublisher, Ok (applyStateDuplicate, 0)).
Proof.
  cbv zeta.
  destruct (applyEventLocked (H := noHooks) (λ _, None) (newPartition (tickSpec 1000)) newIndexPublisher (mkTick false 1 1)
              (tickEvent "upsert" "s:1" 1 "a" "x").2) as [[p' pub'] r] eqn:E.
  pose proof (f_equal snd E) as Hr. vm_compute in Hr. subst r. split; [reflexivity|].
  eapply (replay_is_duplicate noHooks (λ _, None)); [| | |exact E].
  - apply (new_partition_dedupe (tickSpec 1000)). vm_compute; reflexivity.
  - vm_compute; reflexivity.
  - vm_compute; discriminate.
Defined.

(** ** Bulk loads replace the projection *)

Section Load.
Context {H : BitmapHooks} (parseFloat : string → option Z).

(** The load so far: fresh graves, nothing remembered, and the next version
    above every stored one. *)
Record load_inv (st : loadState) : Prop := {
  lo_graves : tombstones (graves (next st)) = ∅;
  lo_seen : applied (seen (next st)) = ∅;
  lo_version : 0 < nver st;
  lo_below : ∀ k e, visible (next st) !! k = Some e → version e < nver st
}.

Definition loadedRecords (m : gmap string recordEntry) : gmap string DomainRecord := record <$> m.

Lemma visit_loaded st t rec st' : load_inv st → nver st < 2 ^ 64 - 1 → visitRecord parseFloat st t rec = (st', None) →
  ∃ rec', normalizeRecord (nowUpdated t) rec = Ok rec' ∧ load_inv st' ∧ nver st' = nver st + 1 ∧
    Applied (nres st') = Applied (nres st) + 1 ∧ validateRecordScope (next st) rec' = true ∧ spec (next st') = spec (next st) ∧
    loadedRecords (visible (next st')) = <[keyOf rec' := rec']> (loadedRecords (visible (next st))).
Proof.
  intros [Hg Hse Hv Hb] Hlt. unfold visitRecord. destruct (cancelled t); [done|].
  destruct (normalizeRecord (nowUpdated t) rec) as [rec'|]; [|done].
  destruct (validateRecordScope (next st) rec') eqn:Hsc; [|done]. cbn [negb].
  pose proof (upsert_effect parseFloat (next st) (npub st) (nowExpiry t) (keyOf rec') rec' "" (nver st)) as Hu.
  destruct (upsertLocked _ _ _ _ _ _ _ _) as [[p' pub'] r]. destruct r as [[]|]; [| | |done].
  1, 3: exfalso; destruct Hu as [_ [Hbl|(e & He & Hlt')]]; [|by specialize (Hb _ _ He); lia];
    unfold blockedByNewerTombstoneLocked in Hbl; by rewrite Hg, lookup_empty in Hbl.
  destruct Hu as ((Hw & _ & _) & Hs & Hsp & _ & Ht). intros [= <-]. exists rec'.
  assert (u64 (nver st + 1) = nver st + 1) as Hu64 by (apply u64_id; zrange).
  split_and!; cbn [next nver nres Applied]; try done.
  - split; cbn [next nver]; rewrite ?Hu64; [|congruence|lia|].
    + rewrite Hg in Ht. apply map_empty. intros k. apply eq_None_not_Some. intros [x Hx].
      apply (lookup_weaken _ _ _ _ Hx) in Ht. by rewrite lookup_empty in Ht.
    + intros k e. rewrite Hw. intros [[<- <-]|[Hne He]]%lookup_insert_Some; [cbn; lia|]. specialize (Hb _ _ He). lia.
  - unfold loadedRecords. by rewrite Hw, fmap_insert.
Qed.

Lemma visit_all_loaded recs : ∀ st st', load_inv st → nver st + Z.of_nat (length recs) < 2 ^ 64 →
  visitAll parseFloat st recs = (st', None) →
  ∃ normal, Forall2 (λ tr rec', normalizeRecord (nowUpdated tr.1) tr.2 = Ok rec') recs normal ∧ load_inv st' ∧
    Applied (nres st') = Applied (nres st) + Z.of_nat (length recs) ∧
    loadedRecords (visible (next st')) = foldl (λ m rec', <[keyOf rec' := rec']> m) (loadedRecords (visible (next st))) normal.
Proof.
  induction recs as [|[t rec] recs IH]; intros st st' Hst Hlen Hv.
  { cbn in Hv. injection Hv as <-. exists []. split_and!; [constructor|done|cbn; lia|done]. }
  cbn [visitAll] in Hv. destruct (visitRecord parseFloat st t rec) as [st1 [e|]] eqn:E1; [done|].
  cbn [length] in Hlen.
  destruct (visit_loaded st t rec st1 Hst ltac:(lia) E1) as (rec' & Hn & Hst1 & Hnv & Ha & _ & _ & Hm).
  destruct (IH st1 st' Hst1 ltac:(lia) Hv) as (normal & Hf & Hst' & Ha' & Hm').
  exists (rec' :: normal). split_and!; [by constructor|done|cbn [length]; lia|]. cbn [foldl]. by rewrite <- Hm.
Qed.

End Load.

(** A bulk load is all or nothing: on an error the visible records, the
    indexes and the epoch are untouched, only the rejection counter moves; on
    success every visited record was valid, all of them are counted as applied,
    the projection holds exactly them (a later record of the same key wins),
    and tombstones and remembered sources are gone. *)
Theorem bulk_load_replaces (H : BitmapHooks) (parseFloat : string → option Z) p recs loadErr :
  Z.of_nat (length recs) < 2 ^ 64 - 1 →
  let '(p', r, err) := bulkLoadFrom parseFloat p recs loadErr in
  match err with
  | Some _ => ∃ k, p' = addRejected p k
  | None => ∃ normal, Forall2 (λ tr rec', normalizeRecord (nowUpdated tr.1) tr.2 = Ok rec') recs normal ∧
      record <$> visible p' = foldl (λ m rec', <[keyOf rec' := rec']> m) ∅ normal ∧
      Applied r = Z.of_nat (length recs) ∧ epoch p' = u64 (epoch p + 1) ∧
      tombstones (graves p') = ∅ ∧ applied (seen p') = ∅
  end.
Proof.
  intros Hlen. unfold bulkLoadFrom. set (st0 := mkLoad _ _ _ _ _).
  assert (load_inv st0) as Hst0 by (split; cbn; [done|done|lia|intros k e; unfold visible; cbn; by rewrite lookup_empty]).
  destruct (visitAll parseFloat st0 recs) as [st err] eqn:E.
  destruct err as [e|]; [by eexists|]. destruct loadErr as [e|]; [by eexists|].
  destruct (visit_all_loaded parseFloat recs st0 st Hst0 ltac:(cbn; lia) E) as (normal & Hf & [Hg Hse _ _] & Ha & Hm).
  exists normal. set (nx := if 0 <? Applied (nres st) then publishIndexes (next st) (npub st) else next st).
  assert (visible nx = visible (next st) ∧ graves nx = graves (next st) ∧ seen nx = seen (next st)) as (N1 & N2 & N3)
    by (unfold nx; by destruct (0 <? _)).
  split_and!; [done| |cbn in Ha |- *; lia|done| |]; cbn [graves seen applied].
  - change (loadedRecords (visible nx) = foldl (λ m rec', <[keyOf rec' := rec']> m) ∅ normal). by rewrite N1, Hm.
  - by rewrite N2.
  - by rewrite N3.
Qed.

Lemma bulk_load_replaces_witness :
  let recs := [(mkTick false 1 1, BitmapIndex.tick "a" "x"); (mkTick false 1 1, BitmapIndex.tick "b" "y")] in
  Z.of_nat (length recs) < 2 ^ 64 - 1 ∧
  let '(p', r, err) := bulkLoadFrom (H := noHooks) (λ _, None) (newPartition (tickSpec 1000)) recs None in
  err = None ∧ Applied r = 2.
Proof.
  cbv zeta. split; [vm_compute; reflexivity|].
  pose proof (bulk_load_replaces noHooks (λ _, None) (newPartition (tickSpec 1000))
    [(mkTick false 1 1, BitmapIndex.tick "a" "x"); (mkTick false 1 1, BitmapIndex.tick "b" "y")] None
    ltac:(vm_compute; reflexivity)) as Hb.
  destruct (bulkLoadFrom _ _ _ _) as [[p' r] err] eqn:E. pose proof (f_equal snd E) as He. vm_compute in He. subst err.
  destruct Hb as (normal & _ & _ & Ha & _). split; [reflexivity|exact Ha].
Defined.

(** ** Findings *)

(** An upsert removes a key's tombstone but leaves the key in [tombOrder]; when
    the key is deleted again its new tombstone can be evicted at once through
    the old entry, and an older write then brings the record back. *)
Definition smallGraves : ProjectionSpec :=
  mkSpec "ticks" "signals" "ticks" [] [] "" [] 1000 100000 0 0 2 10 0 0.

Theorem fresh_tombstone_evicted :
  let p := (applyBatchObserving (H := noHooks) (λ _, None) (newPartition smallGraves) 0
    [tickEvent "delete" "" 1 "a" ""; tickEvent "upsert" "" 2 "a" "x"; tickEvent "delete" "" 3 "b" "";
     tickEvent "delete" "" 9 "a" ""; tickEvent "upsert" "" 5 "a" "stale"]).1.1.1 in
  size (tombstones (graves p)) = 1%nat ∧
  (version <$> visible p !! keyOf (BitmapIndex.tick "a" "x")) = Some 5.
Proof. vm_compute. split; reflexivity. Qed.

(** A bulk load clears the remembered sources but keeps the per-prefix replay
    fences, so a fresh event under an old prefix is dropped as a duplicate
    although nothing of that prefix is remembered any more. *)
Theorem bulk_load_keeps_fences :
  let p := (bulkLoad (H := noHooks) (λ _, None) (tickPartition [tickEvent "upsert" "s:1" 7 "a" "x"]) []).1.1 in
  let '(_, r, _, _) := applyBatchObserving (H := noHooks) (λ _, None) p 0 [tickEvent "upsert" "s:2" 3 "b" "x"] in
  applied (seen p) = ∅ ∧ visible p = ∅ ∧ Duplicates r = 1 ∧ Applied r = 0.
Proof. vm_compute. split_and!; reflexivity. Qed.
