(* ===== verification/Reads.v ===== *)
(** * Reads: queries against a partition

    Models the read side of [hermes/store.go], [hermes/indexes.go] and
    [hermes/columnar.go]: fences, point reads, candidate selection over the key
    and bitmap indexes, counting, and the range plan with predicate pushdown of
    [hermes/range_indexes.go] and [hermes/columnar_pushdown.go].  One clock
    reading [now] serves a whole read, and [cancelled] is the state of the
    context during it. *)

From Stdlib Require Import ZArith Lia Ascii String Sorting.Sorted Permutation.
From stdpp Require Import base sets strings gmap fin_maps numbers list.
From S2P Require Import Prelude GoStrings RecordData HermesKeys Bitmap BitmapIndex IndexSnap RangeIndex Partition.

Open Scope string_scope.
Open Scope list_scope.
Open Scope Z_scope.

Section Reads.
Context {H : BitmapHooks} (parseFloat : string → option Z).

(** ** Point reads *)

(** [liveRecordEntryPointer]: an expired entry is not there. *)
Definition liveEntry (p : partition) (now : Z) (key : string) : option recordEntry :=
  match records (registry p) !! key with
  | Some e => if expired now e then None else Some e
  | None => None
  end.

Definition checkFence (p : partition) (minEpoch : Z) : bool := negb (epoch p <? minEpoch).

Definition getRecord (p : partition) (now : Z) (query : Query) (recordID : string) (minEpoch : Z) :
    res hermes_error (option DomainRecord) :=
  if negb (checkFence p minEpoch) then Err ErrFenceNotSatisfied
  else
    let query := normalizeQuery query in
    let recordID := TrimSpace recordID in
    if String.eqb recordID "" || String.eqb (QOrganizationID query) "" then Err ErrInvalidEvent
    else
      let key := recordKey (SDomain (spec p)) (SCollection (spec p)) (QOrganizationID query) recordID in
      match liveEntry p now key with
      | Some e => if recordMatches (record e) (spec p) query then Ok (Some (record e)) else Ok None
      | None => Ok None
      end.

(** ** Candidates *)

Definition isIndexedField (p : partition) (field : string) : bool := bool_decide (field ∈ IndexedFields (spec p)).

Definition queryScope (p : partition) (query : Query) : recordScope :=
  scopeKey (SDomain (spec p)) (SCollection (spec p)) (QOrganizationID query).

Definition scopeSnapshot (r : partitionRegistry) (s : recordScope) : indexSnapshot := snapshotOf (cells r) (s, None).
Definition fieldSnapshot (r : partitionRegistry) (s : recordScope) (f : QueryFilter) : indexSnapshot :=
  snapshotOf (cells r) (s, Some (newBitmapIndexKey (QField f) (QKind f) (QValue f))).

(** A filter on an indexed field offers its index; the shorter one is kept. *)
Definition considerFilter (p : partition) (scope : recordScope) (selected : indexSnapshot) (f : QueryFilter) : indexSnapshot :=
  if isIndexedField p (QField f) then
    let index := fieldSnapshot (registry p) scope f in
    if len index <? len selected then index else selected
  else selected.

Definition candidateIndex (p : partition) (query : Query) : indexSnapshot :=
  let scope := queryScope p query in
  let selected := foldl (considerFilter p scope) (scopeSnapshot (registry p) scope) (plannedFilters (Plan query)) in
  if len selected =? 0 then emptyIndex else selected.

(** The keys of a compound query over indexed fields only, when the bitmap
    index answers it. *)
Definition bitmapCandidates (p : partition) (query : Query) : option (list string) :=
  if HermesKeys.count (Plan query) <=? 1 then None
  else
    let fs := plannedFilters (Plan query) in
    if negb (forallb (λ f, isIndexedField p (QField f)) fs) || (length fs =? 0)%nat then None
    else
      let '(keys, ok) := QueryCompoundFilters (bitmaps (registry p)) (queryScope p query) fs in
      if ok then Some keys else None.

(** ** Counting *)

(** The record of a key, when it is live and answers the query. *)
Definition answersQuery (p : partition) (now : Z) (query : Query) (key : string) : bool :=
  match liveEntry p now key with Some e => recordMatches (record e) (spec p) query | None => false end.

Fixpoint countKeys (p : partition) (now : Z) (query : Query) (keys : list string) (n : Z) : Z :=
  match keys with
  | [] => n
  | k :: rest =>
      if answersQuery p now query k then
        let n := n + 1 in
        if (0 <? QueryLimit query) && (QueryLimit query <=? n) then n else countKeys p now query rest n
      else countKeys p now query rest n
  end.

(** The same over an index walk, which also looks at the context. *)
Fixpoint countWalk (p : partition) (now : Z) (cancelled : bool) (query : Query) (keys : list string) (n : Z) :
    res hermes_error Z :=
  match keys with
  | [] => Ok n
  | k :: rest =>
      if negb (answersQuery p now query k) then countWalk p now cancelled query rest n
      else if cancelled then Err ErrContext
      else
        let n := n + 1 in
        if (QueryLimit query <=? 0) || (n <? QueryLimit query) then countWalk p now cancelled query rest n else Ok n
  end.

Definition count (p : partition) (now : Z) (cancelled : bool) (query : Query) (minEpoch : Z) : res hermes_error Z :=
  if negb (checkFence p minEpoch) then Err ErrFenceNotSatisfied
  else
    let query := normalizeQuery query in
    if String.eqb (QOrganizationID query) "" then Err ErrInvalidEvent
    else
      match bitmapCandidates p query with
      | Some keys => Ok (countKeys p now query keys 0)
      | None => countWalk p now cancelled query (forEachKey (candidateIndex p query)) 0
      end.

(** ** The reference *)

(** The live records that answer a query. *)
Definition matchingRecords (p : partition) (now : Z) (query : Query) : gmap string recordEntry :=
  filter (λ ke, answersQuery p now query ke.1 = true) (visible p).

Definition limited (limit total : Z) : Z := if 0 <? limit then Z.min limit total else total.

Lemma count_keys_spec p now query keys : ∀ n, 0 ≤ n → (0 < QueryLimit query → n < QueryLimit query) →
  countKeys p now query keys n =
  limited (QueryLimit query) (n + Z.of_nat (length (filter (λ k, answersQuery p now query k = true) keys))).
Proof.
  unfold limited. induction keys as [|k keys IH]; intros n Hn Hl; cbn [countKeys].
  { rewrite filter_nil. cbn. destruct (Z.ltb_spec 0 (QueryLimit query)); lia. }
  rewrite filter_cons. destruct (answersQuery p now query k) eqn:E.
  - rewrite decide_True by done. cbn [length].
    destruct (Z.ltb_spec 0 (QueryLimit query)), (Z.leb_spec (QueryLimit query) (n + 1)); cbn [andb]; try lia;
      rewrite IH by lia; destruct (Z.ltb_spec 0 (QueryLimit query)); lia.
  - rewrite decide_False by done. by apply IH.
Qed.

Lemma count_walk_spec p now query keys : ∀ n, 0 ≤ n → (0 < QueryLimit query → n < QueryLimit query) →
  countWalk p now false query keys n = Ok (countKeys p now query keys n).
Proof.
  induction keys as [|k keys IH]; intros n Hn Hl; cbn [countWalk countKeys]; [done|].
  destruct (answersQuery p now query k); cbn [negb]; [|by apply IH].
  destruct (Z.leb_spec (QueryLimit query) 0), (Z.ltb_spec (n + 1) (QueryLimit query)),
    (Z.ltb_spec 0 (QueryLimit query)), (Z.leb_spec (QueryLimit query) (n + 1)); cbn [orb andb]; try lia; try (apply IH; lia); done.
Qed.

(** Any list of candidates without repetition and with every matching key
    counts the same. *)
Lemma candidates_count p now query keys : NoDup keys →
  (∀ k, answersQuery p now query k = true → k ∈ keys) →
  length (filter (λ k, answersQuery p now query k = true) keys) = size (matchingRecords p now query).
Proof.
  intros Hn Hc. unfold matchingRecords. rewrite <- size_dom, <- (size_list_to_set (C := gset string)) by (by apply NoDup_filter).
  f_equal. apply set_eq. intros k. rewrite elem_of_list_to_set, list_elem_of_filter, elem_of_dom. split.
  - intros [Ha _]. unfold answersQuery, liveEntry in Ha. fold (visible p) in Ha.
    destruct (visible p !! k) as [e|] eqn:He; [|done]. exists e. apply map_lookup_filter_Some. split; [done|].
    cbn. unfold answersQuery, liveEntry. fold (visible p). by rewrite He.
  - intros [e [He Ha]%map_lookup_filter_Some]. cbn in Ha. split; [done|]. by apply Hc.
Qed.

(** ** Candidates miss nothing *)

Lemma filter_in_index data sp f rec : Data rec = data → QField f ∈ IndexedFields sp → filterMatches data f = true →
  (QField f, QKind f, QValue f) ∈ forEachIndexedField rec sp.
Proof.
  intros <- Hin Hm. unfold forEachIndexedField. apply list_elem_of_omap. exists (QField f). split; [done|].
  unfold filterMatches in Hm. destruct (Get (Data rec) (QField f)) as [v|]; [|done].
  destruct (ScalarIndex v) as [[k t]|]; [|done].
  apply andb_true_iff in Hm as [<-%Ascii.eqb_eq <-%String.eqb_eq]. done.
Qed.

(** What an answer to a normalized query is. *)
Lemma answers_spec p now query k : goodSpec (spec p) → acc_inv p → 0 ≤ HermesKeys.count (Plan query) →
  TrimSpace (QOrganizationID query) = QOrganizationID query → QOrganizationID query ≠ "" →
  answersQuery p now query k = true →
  ∃ e, visible p !! k = Some e ∧ scopeOf (record e) = queryScope p query ∧
       ∀ f, f ∈ plannedFilters (Plan query) → filterMatches (Data (record e)) f = true.
Proof.
  intros Hg Ha Hcnt Htrim Horg Hans. unfold answersQuery, liveEntry in Hans. fold (visible p) in Hans.
  destruct (visible p !! k) as [e|] eqn:He; [|done]. destruct (expired now e); [done|]. exists e. split; [done|].
  unfold recordMatches in Hans. destruct (ac_records p Ha k e He) as (_ & [Hd Hc [Ho1 Ho2] _] & _).
  destruct (_ || _); [done|]. rewrite Htrim in Hans. rewrite (proj2 (String.eqb_neq _ _) Horg) in Hans. cbn [negb andb] in Hans.
  destruct (String.eqb_spec (OrganizationID (record e)) (QOrganizationID query)) as [Heq|]; [|done]. cbn [negb] in Hans.
  split; [unfold scopeOf, queryScope; by rewrite Hd, Hc, Heq|]. intros f Hf. unfold plannedFilters in Hf.
  destruct (Z.ltb_spec 0 (HermesKeys.count (Plan query))) as [Hp|Hp].
  - unfold matchesPlannedFilters in Hans. rewrite forallb_forall in Hans. apply Hans, list_elem_of_In. exact Hf.
  - replace (HermesKeys.count (Plan query)) with 0 in Hf by lia. by apply elem_of_nil in Hf.
Qed.

(** A cell of the query: the scope's, or that of an indexed filter. *)
Definition queryCell (p : partition) (query : Query) (c : cellId) : Prop :=
  c = (queryScope p query, None) ∨
  ∃ f, f ∈ plannedFilters (Plan query) ∧ QField f ∈ IndexedFields (spec p) ∧
       c = (queryScope p query, Some (QField f, QKind f, QValue f)).

Lemma candidate_index_cell p query : ∃ c, queryCell p query c ∧
  candidateIndex p query = if len (snapshotOf (cells (registry p)) c) =? 0 then emptyIndex else snapshotOf (cells (registry p)) c.
Proof.
  unfold candidateIndex. assert (∀ l s0, (∀ f, f ∈ l → f ∈ plannedFilters (Plan query)) →
    (∃ c, queryCell p query c ∧ s0 = snapshotOf (cells (registry p)) c) →
    ∃ c, queryCell p query c ∧ foldl (considerFilter p (queryScope p query)) s0 l = snapshotOf (cells (registry p)) c) as Hfold.
  { induction l as [|f l IH]; intros s0 Hl Hs; [done|]. cbn [foldl]. apply IH.
    - intros g Hg. apply Hl. by apply list_elem_of_further.
    - unfold considerFilter. destruct (isIndexedField p (QField f)) eqn:Hix; [|done]. cbn zeta. destruct (_ <? _); [|done].
      exists (queryScope p query, Some (QField f, QKind f, QValue f)). split; [|done]. right.
      exists f. split_and!; [apply Hl, list_elem_of_here|by apply bool_decide_eq_true in Hix|done]. }
  destruct (Hfold (plannedFilters (Plan query)) (scopeSnapshot (registry p) (queryScope p query))) as (c & Hc & ->);
    [done|exists (queryScope p query, None); split; [by left|done]|]. by exists c.
Qed.

Section Stable.
Context {Hok : BitmapHooksOk H}.
Variable p : partition.
Hypothesis Hst : stable parseFloat p.
Variable now : Z.
Variable query : Query.
Hypothesis Hcount : 0 ≤ HermesKeys.count (Plan query).
Hypothesis Htrim : TrimSpace (QOrganizationID query) = QOrganizationID query.
Hypothesis Horg : QOrganizationID query ≠ "".

Lemma answer_in_cell k c : answersQuery p now query k = true → queryCell p query c →
  is_Some (cellMap (spec p) c (visible p) !! k).
Proof using Hst Hcount Htrim Horg.
  intros Ha Hc. destruct (answers_spec p now query k (st_spec _ _ Hst) (st_acc _ _ Hst) Hcount Htrim Horg Ha)
    as (e & He & Hs & Hf).
  unfold cellMap. rewrite lookup_omap, He. cbn. rewrite decide_True; [by eexists|]. unfold cellsOf. rewrite Hs.
  destruct Hc as [->|(f & Hin & Hix & ->)]; [apply list_elem_of_here|]. apply list_elem_of_further.
  change (map ?g ?l) with (g <$> l). apply list_elem_of_fmap. eexists. split; [done|].
  eapply filter_in_index; [done|done|by apply Hf].
Qed.

Lemma candidate_index_complete : NoDup (forEachKey (candidateIndex p query)) ∧
  ∀ k, answersQuery p now query k = true → k ∈ forEachKey (candidateIndex p query).
Proof using Hst Hcount Htrim Horg.
  destruct (candidate_index_cell p query) as (c & Hc & ->). pose proof (st_cells _ _ Hst c) as Hs.
  destruct (Z.eqb_spec (len (snapshotOf (cells (registry p)) c)) 0) as [Hz|_].
  - split; [constructor|]. intros k Ha. exfalso. destruct (answer_in_cell k c Ha Hc) as [v Hv].
    pose proof (snap_ok_len _ _ Hs). assert (size (cellMap (spec p) c (visible p)) = 0%nat) as Hz'%map_size_empty_inv by lia.
    by rewrite Hz', lookup_empty in Hv.
  - destruct (for_each_key_spec _ _ Hs) as (Hn & Hin & _). split; [done|]. intros k Ha. by apply Hin, answer_in_cell.
Qed.

Lemma bitmap_candidates_complete keys : saturated (getScope (bitmaps (registry p)) (queryScope p query)) = false →
  bitmapCandidates p query = Some keys → NoDup keys ∧ ∀ k, answersQuery p now query k = true → k ∈ keys.
Proof using Hok Hst Hcount Htrim Horg.
  intros Hsat. unfold bitmapCandidates. destruct (_ <=? _); [done|].
  destruct (forallb _ _) eqn:Hall; [|done]. cbn [negb orb].
  destruct (plannedFilters (Plan query)) as [|f0 fs] eqn:Hfs; [done|]. cbn [length Nat.eqb]. unfold QueryCompoundFilters.
  destruct (intersect_exact _ _ (f0 :: fs) (st_bitmaps _ _ Hst (queryScope p query)) Hsat) as (ks & -> & Hn & Hin); [done|].
  intros [= <-]. split; [done|]. intros k Ha. apply Hin.
  destruct (answers_spec p now query k (st_spec _ _ Hst) (st_acc _ _ Hst) Hcount Htrim Horg Ha) as (e & He & Hs & Hf).
  unfold answers, scopeContent. rewrite lookup_omap, He. cbn. rewrite decide_True by done. eexists. split; [done|].
  intros f Hfin. apply elem_of_list_to_set. eapply filter_in_index; [done| |apply Hf; by rewrite Hfs].
  rewrite forallb_forall in Hall. specialize (Hall f). apply bool_decide_eq_true in Hall; [done|]. by apply list_elem_of_In.
Qed.

End Stable.

End Reads.

(** ** Predicates and range plans *)

Inductive predicateKind := predicateInt64 | predicateFloat64 | predicateString.

(** The float operand is its rank, [None] for NaN. *)
Record ColumnPredicate := mkPredicate {
  PField : string; POp : CompareOp; pkind : predicateKind;
  int64Operand : Z; floatOperand : option Z; stringOperand : string
}.

Definition compareStrings (op : CompareOp) (value operand : string) : bool :=
  match op with
  | CompareEq => String.eqb value operand
  | CompareNe => negb (String.eqb value operand)
  | CompareLt => String.ltb value operand
  | CompareLe => String.leb value operand
  | CompareGt => String.ltb operand value
  | CompareGe => String.leb operand value
  end.

(** [compareMatches] on floats: a NaN is only unequal. *)
Definition compareFloats (op : CompareOp) (value operand : option Z) : bool :=
  match value, operand with
  | Some v, Some w => compareMatches op v w
  | _, _ => match op with CompareNe => true | _ => false end
  end.

Section Predicates.
Context {H : BitmapHooks} (parseFloat : string → option Z).
(** The texts that [strconv.ParseFloat] reads as NaN. *)
Variable isNaN : string → bool.

Definition matchesDataField (pr : ColumnPredicate) (data : RecordData) : bool :=
  match Get data (PField pr) with
  | None => false
  | Some val =>
      match pkind pr with
      | predicateInt64 =>
          match ScalarIndex val with
          | Some (kind, idxVal) =>
              if Ascii.eqb kind "i" || Ascii.eqb kind "u" then
                match parseInt64 idxVal with
                | Some parsed => compareMatches (POp pr) parsed (int64Operand pr)
                | None => false
                end
              else false
          | None => false
          end
      | predicateFloat64 =>
          match ScalarIndex val with
          | Some (kind, idxVal) =>
              if Ascii.eqb kind "f" then
                match parseFloat idxVal with
                | Some parsed => compareFloats (POp pr) (Some parsed) (floatOperand pr)
                | None => isNaN idxVal && compareFloats (POp pr) None (floatOperand pr)
                end
              else false
          | None => false
          end
      | predicateString =>
          match ScalarIndex val with
          | Some (_, idxVal) => compareStrings (POp pr) idxVal (stringOperand pr)
          | None => if bool_decide (Kind_ val = RecordValueNull) then false
                    else compareStrings (POp pr) (Text val) (stringOperand pr)
          end
      end
  end.

Definition matchesPredicate (pr : ColumnPredicate) (e : recordEntry) : bool :=
  let isString := match pkind pr with predicateString => true | _ => false end in
  let isInt := match pkind pr with predicateInt64 => true | _ => false end in
  if String.eqb (PField pr) "record_id" then isString && compareStrings (POp pr) (RecordID (record e)) (stringOperand pr)
  else if String.eqb (PField pr) "organization_id"
  then isString && compareStrings (POp pr) (OrganizationID (record e)) (stringOperand pr)
  else if String.eqb (PField pr) "version" then isInt && compareMatches (POp pr) (i64 (version e)) (int64Operand pr)
  else matchesDataField pr (Data (record e)).

Definition filterEntriesInPlace (es : list recordEntry) (ps : list ColumnPredicate) : list recordEntry :=
  match ps with [] => es | _ => filter (λ e, forallb (λ pr, matchesPredicate pr e) ps = true) es end.

(** The kind of range index a predicate can use and its operand there. *)
Definition predicateRangeKindOperand (pr : ColumnPredicate) : option (ascii * Z) :=
  match pkind pr with
  | predicateInt64 => Some ("i"%char, int64Operand pr)
  | predicateFloat64 => (λ v, ("f"%char, v)) <$> floatOperand pr
  | predicateString => None
  end.

Record rangeCandidatePlan := mkPlanR {
  plKind : ascii; plSnapshot : rangeIndexSnapshot; plPredicate : ColumnPredicate; plOperand : Z; plEstimate : Z
}.

(** [rangeSnapshot]: nil for a cell that does not exist. *)
Definition rangeSnapshot (r : partitionRegistry) (i : rangeId) : rangeIndexSnapshot := default [] (ranges r !! i).

Definition considerPredicate (p : partition) (scope : recordScope) (best : option rangeCandidatePlan) (pr : ColumnPredicate) :
    option rangeCandidatePlan :=
  if negb (bool_decide (PField pr ∈ RangeIndexedFields (spec p))) then best
  else
    match predicateRangeKindOperand pr with
    | None => best
    | Some (kind, operand) =>
        let snapshot := rangeSnapshot (registry p) (scope, PField pr, kind) in
        match estimate kind snapshot (POp pr) operand with
        | None => best
        | Some est =>
            if match best with None => true | Some b => est <? plEstimate b end
            then Some (mkPlanR kind snapshot pr operand est) else best
        end
    end.

Definition bestRangeCandidatePlan (p : partition) (query : Query) (ps : list ColumnPredicate) : option rangeCandidatePlan :=
  foldl (considerPredicate p (queryScope p query)) None ps.

Definition collectRangeEntries (p : partition) (now : Z) (query : Query) (plan : rangeCandidatePlan) : list recordEntry :=
  if (length (plSnapshot plan) =? 0)%nat || (plEstimate plan =? 0) then []
  else
    omap (λ c,
      match liveEntry p now (rkey c) with
      | Some e =>
          if negb (version e =? rversion c) || negb (recordMatches (record e) (spec p) query) then None else Some e
      | None => None
      end) (planForEach (plKind plan) (plSnapshot plan) (POp (plPredicate plan)) (plOperand plan)).

(** Numbers are stored trimmed and are not NaN, as the constructors of
    [RecordValue] write them. *)
Definition canonicalNumbers (rec : DomainRecord) : Prop :=
  ∀ f v, Get (Data rec) f = Some v →
    match Kind_ v with
    | RecordValueInt | RecordValueUint | RecordValueFloat => TrimSpace (Text v) = Text v ∧ isNaN (Text v) = false
    | _ => True
    end.

(** The plan comes from one of the predicates, on an indexed field. *)
Definition planFrom (p : partition) (query : Query) (ps : list ColumnPredicate) (plan : rangeCandidatePlan) : Prop :=
  plPredicate plan ∈ ps ∧ PField (plPredicate plan) ∈ RangeIndexedFields (spec p) ∧
  predicateRangeKindOperand (plPredicate plan) = Some (plKind plan, plOperand plan) ∧
  plSnapshot plan = rangeSnapshot (registry p) (queryScope p query, PField (plPredicate plan), plKind plan) ∧
  estimate (plKind plan) (plSnapshot plan) (POp (plPredicate plan)) (plOperand plan) = Some (plEstimate plan).

Lemma best_plan_from p query ps plan : bestRangeCandidatePlan p query ps = Some plan → planFrom p query ps plan.
Proof.
  unfold bestRangeCandidatePlan. assert (∀ l best, (∀ b, best = Some b → planFrom p query ps b) → (∀ pr, pr ∈ l → pr ∈ ps) →
    ∀ plan, foldl (considerPredicate p (queryScope p query)) best l = Some plan → planFrom p query ps plan) as Hgen.
  { induction l as [|pr l IH]; intros best Hb Hl pl Hpl; [by apply Hb|]. cbn [foldl] in Hpl.
    apply IH in Hpl; [done| |intros; apply Hl; by apply list_elem_of_further]. intros b. unfold considerPredicate.
    case_bool_decide as Hin; cbn [negb]; [|apply Hb]. destruct (predicateRangeKindOperand pr) as [[kind operand]|] eqn:Hk; [|apply Hb].
    destruct (estimate kind _ (POp pr) operand) as [est|] eqn:He; [|apply Hb].
    destruct (match best with None => true | Some b => _ end); [|apply Hb]. intros [= <-].
    split_and!; try done. apply Hl, list_elem_of_here. }
  apply Hgen; done.
Qed.

(** A record that matches a predicate is in the predicate's range index, with
    its version and a value that satisfies the operator. *)
Lemma matched_in_range sp k e pr kind operand : NoDup (RangeIndexedFields sp) → "version" ∉ RangeIndexedFields sp →
  canonicalNumbers (record e) → PField pr ∈ RangeIndexedFields sp → predicateRangeKindOperand pr = Some (kind, operand) →
  matchesPredicate pr e = true →
  ∃ x, rangeEntryOf parseFloat sp (scopeOf (record e), PField pr, kind) k e = Some x ∧ rkey x = k ∧
       rversion x = version e ∧ compareMatches (POp pr) (rangeVal kind x) operand = true.
Proof.
  intros Hnd Hver Hcan Hin Hk Hm. unfold matchesPredicate in Hm.
  assert (matchesDataField pr (Data (record e)) = true) as Hd.
  { destruct (String.eqb_spec (PField pr) "record_id"); [unfold predicateRangeKindOperand in Hk; by destruct (pkind pr)|].
    destruct (String.eqb_spec (PField pr) "organization_id"); [unfold predicateRangeKindOperand in Hk; by destruct (pkind pr)|].
    destruct (String.eqb_spec (PField pr) "version"); [congruence|done]. }
  assert (∀ v iv fv, Get (Data (record e)) (PField pr) = Some v → numericRangeValue parseFloat v = Some (kind, iv, fv) →
    rangeEntryOf parseFloat sp (scopeOf (record e), PField pr, kind) k e = Some (withPrefix (mkRange k 0 (version e) iv fv))) as Hent.
  { intros v iv fv Hg Hnum. unfold rangeEntryOf. rewrite (elem_of_list_to_map_1 _ _ (iv, fv)); [done|by apply ranges_of_nodup|].
    unfold rangesOf, forEachRangeIndexedValue. apply list_elem_of_omap. exists (PField pr). split; [done|].
    rewrite Hg. cbn. by rewrite Hnum. }
  unfold matchesDataField in Hd. destruct (Get (Data (record e)) (PField pr)) as [v|] eqn:Hg; [|done].
  pose proof (Hcan _ _ Hg) as Hc. unfold predicateRangeKindOperand in Hk. unfold ScalarIndex in Hd.
  destruct (pkind pr) eqn:Hpk; [|destruct (floatOperand pr) as [w|] eqn:Hfo; [|done]|done].
  - injection Hk as <- <-. destruct (Kind_ v) eqn:Hkv; cbn in Hd; try done; try (by destruct (EqualFold _ _ || _)).
    all: destruct Hc as [Htr _]; rewrite Htr in Hd; destruct (parseInt64 (Text v)) as [n|] eqn:Hp; [|done].
    all: eexists; split_and!; [eapply Hent; [done|]; unfold numericRangeValue; rewrite Hkv, Hp; reflexivity
      |apply with_prefix_key|apply with_prefix_version|rewrite with_prefix_val; exact Hd].
  - injection Hk as <- <-. destruct (Kind_ v) eqn:Hkv; cbn in Hd; try done; try (by destruct (EqualFold _ _ || _)).
    destruct Hc as [Htr Hnan]. rewrite Htr in Hd. destruct (parseFloat (Text v)) as [n|] eqn:Hp; [|by rewrite Hnan in Hd].
    eexists; split_and!; [eapply Hent; [done|]; unfold numericRangeValue; rewrite Hkv, Hp; reflexivity
      |apply with_prefix_key|apply with_prefix_version|rewrite with_prefix_val; exact Hd].
Qed.

Lemma collected_keys p now query l : (∀ k e, visible p !! k = Some e → k = keyOf (record e)) → NoDup (rkey <$> l) →
  let out := omap (λ c,
      match liveEntry p now (rkey c) with
      | Some e =>
          if negb (version e =? rversion c) || negb (recordMatches (record e) (spec p) query) then None else Some e
      | None => None
      end) l in
  NoDup ((λ e, keyOf (record e)) <$> out) ∧ ∀ e, e ∈ out → keyOf (record e) ∈ rkey <$> l.
Proof.
  intros Hkey. induction l as [|c l IH]; intros Hn; [split; [constructor|by intros e ?%elem_of_nil]|].
  cbn [fmap list_fmap] in Hn. apply NoDup_cons in Hn as [Hc Hn]. destruct (IH Hn) as [H1 H2]. cbn [omap list_omap].
  assert (∀ e, liveEntry p now (rkey c) = Some e → rkey c = keyOf (record e)) as Hlive.
  { intros e. unfold liveEntry. fold (visible p). destruct (visible p !! rkey c) as [e'|] eqn:He; [|done].
    destruct (expired now e'); [done|]. intros [= <-]. by apply Hkey. }
  destruct (liveEntry p now (rkey c)) as [e|] eqn:Hl.
  - specialize (Hlive e eq_refl). destruct (_ || _).
    + split; [done|]. intros e' He'. apply list_elem_of_further. by apply H2.
    + split.
      * cbn [fmap list_fmap]. constructor; [|done]. intros (e' & Heq & He')%list_elem_of_fmap.
        apply Hc. rewrite Hlive, Heq. by apply H2.
      * intros e' [->|He']%elem_of_cons; [rewrite <- Hlive; apply list_elem_of_here|apply list_elem_of_further; by apply H2].
  - split; [done|]. intros e' He'. apply list_elem_of_further. by apply H2.
Qed.

End Predicates.

(** C1: a count is exact: in every reachable partition, a count whose fence is
    satisfied and whose organization is given returns the number of live
    records of that organization that match every filter, cut off at the
    limit.  Neither the choice of the index, nor the state of its delta chain,
    nor keys left behind by retired records change it, as long as the scope's
    bitmap index has not run over its value budget. *)
Theorem count_exact (H : BitmapHooks) (parseFloat : string → option Z) s sp p now query minEpoch :
  BitmapHooksOk H → normalizeSpec s = Ok sp → reachable parseFloat sp p →
  minEpoch ≤ epoch p → TrimSpace (QOrganizationID query) ≠ "" → 0 ≤ HermesKeys.count (Plan query) →
  saturated (getScope (bitmaps (registry p)) (queryScope p (normalizeQuery query))) = false →
  count p now false query minEpoch =
  Ok (limited (QueryLimit query) (Z.of_nat (size (matchingRecords p now (normalizeQuery query))))).
Proof.
  intros Hok Hn Hr Hfence Horg Hcnt Hsat. pose proof (reachable_stable parseFloat sp p (good_spec _ _ Hn) Hr) as Hst.
  unfold count, checkFence. rewrite (proj2 (Z.ltb_ge _ _) Hfence). cbn [negb].
  set (q := normalizeQuery query) in *. assert (TrimSpace (QOrganizationID q) = QOrganizationID q) as Ht by apply trim_space_idemp.
  change (QOrganizationID q) with (TrimSpace (QOrganizationID query)) at 1.
  rewrite (proj2 (String.eqb_neq _ _) Horg). change (QueryLimit query) with (QueryLimit q).
  assert (∀ keys, NoDup keys → (∀ k, answersQuery p now q k = true → k ∈ keys) →
    countKeys p now q keys 0 = limited (QueryLimit q) (Z.of_nat (size (matchingRecords p now q)))) as Hk.
  { intros keys Hnd Hc. rewrite count_keys_spec by lia. by rewrite (candidates_count p now q keys Hnd Hc). }
  destruct (bitmapCandidates p q) as [keys|] eqn:Hb.
  - destruct (bitmap_candidates_complete parseFloat p Hst now q Hcnt Ht Horg keys Hsat Hb) as [Hnd Hc]. by rewrite Hk.
  - destruct (candidate_index_complete parseFloat p Hst now q Hcnt Ht Horg) as [Hnd Hc].
    rewrite count_walk_spec by lia. by rewrite Hk.
Qed.

Definition tickQuery (limit : Z) (fs : list QueryFilter) : Query := QueryWithFilters " org_1 " limit fs.

Lemma count_exact_witness :
  let p := tickPartition [tickEvent "upsert" "" 1 "a" "x"; tickEvent "upsert" "" 2 "b" "x"; tickEvent "upsert" "" 3 "c" "y";
                          tickEvent "delete" "" 4 "b" ""] in
  count (H := noHooks) p 0 false (tickQuery 0 [eqFilter "kind" "x"]) 1 = Ok 1 ∧
  size (matchingRecords p 0 (normalizeQuery (tickQuery 0 [eqFilter "kind" "x"]))) = 1%nat.
Proof.
  intros p. assert (size (matchingRecords p 0 (normalizeQuery (tickQuery 0 [eqFilter "kind" "x"]))) = 1%nat) as Hs
    by (vm_compute; reflexivity). split; [|exact Hs].
  rewrite (count_exact noHooks (λ _, None) (tickSpec 1000) (tickSpec 1000) p 0 (tickQuery 0 [eqFilter "kind" "x"]) 1
    noHooks_ok ltac:(vm_compute; reflexivity) (tick_reachable _));
    [rewrite Hs; reflexivity|vm_compute; discriminate|vm_compute; discriminate|vm_compute; discriminate|vm_compute; reflexivity].
Defined.

(** C6: a point read returns exactly the caller's record: in every reachable
    partition, a read whose fence is satisfied returns a record iff a live
    record with that organization and identifier (trimmed) is stored and
    matches the query's filters, and then that record; it never returns a
    record of another organization. *)
Theorem get_record_exact (H : BitmapHooks) (parseFloat : string → option Z) s sp p now query id minEpoch rec :
  BitmapHooksOk H → normalizeSpec s = Ok sp → reachable parseFloat sp p →
  minEpoch ≤ epoch p → TrimSpace (QOrganizationID query) ≠ "" → TrimSpace id ≠ "" →
  getRecord p now query id minEpoch = Ok (Some rec) ↔
  ∃ k e, visible p !! k = Some e ∧ expired now e = false ∧ record e = rec ∧
    OrganizationID rec = TrimSpace (QOrganizationID query) ∧ RecordID rec = TrimSpace id ∧
    recordMatches rec sp (normalizeQuery query) = true.
Proof.
  intros Hok Hn Hr Hfence Horg Hid. pose proof (good_spec _ _ Hn) as Hg.
  pose proof (reachable_stable parseFloat sp p Hg Hr) as Hst. pose proof (reachable_spec parseFloat sp p Hg Hr) as Hsp.
  pose proof (ac_records _ (st_acc _ _ Hst)) as Hrec. rewrite Hsp in Hrec.
  unfold getRecord, checkFence. rewrite (proj2 (Z.ltb_ge _ _) Hfence). cbn [negb].
  change (QOrganizationID (normalizeQuery query)) with (TrimSpace (QOrganizationID query)).
  rewrite (proj2 (String.eqb_neq _ _) Horg), (proj2 (String.eqb_neq _ _) Hid). cbn [orb]. rewrite Hsp.
  set (key := recordKey _ _ _ _).
  assert (∀ k e, visible p !! k = Some e → k = key ↔ OrganizationID (record e) = TrimSpace (QOrganizationID query) ∧ RecordID (record e) = TrimSpace id)
    as Hkey.
  { intros k e He. destruct (Hrec k e He) as (-> & [Hd Hc [Ho _] [Hi _]] & _). unfold keyOf, key. rewrite record_key_inj.
    rewrite Hd, Hc, Ho, Hi, !trim_space_idemp. tauto. }
  unfold liveEntry. fold (visible p). split.
  - destruct (visible p !! key) as [e|] eqn:He; [|done]. destruct (expired now e) eqn:Hx; [done|].
    destruct (recordMatches (record e) sp (normalizeQuery query)) eqn:Hm; [|done]. intros [= <-].
    exists key, e. split_and!; try done; by apply (Hkey key e He).
  - intros (k & e & He & Hx & <- & Ho & Hi & Hm). assert (k = key) as -> by (by apply (Hkey k e He)).
    by rewrite He, Hx, Hm.
Qed.

Lemma get_record_exact_witness :
  let p := tickPartition [tickEvent "upsert" "" 1 "a" "x"; tickEvent "upsert" "" 2 "b" "x"] in
  ∃ rec, getRecord p 0 (tickQuery 0 []) " b" 1 = Ok (Some rec) ∧ OrganizationID rec = "org_1".
Proof.
  intros p. destruct (getRecord p 0 (tickQuery 0 []) " b" 1) as [[rec|]|] eqn:E;
    [|vm_compute in E; discriminate|vm_compute in E; discriminate].
  exists rec. split; [reflexivity|].
  apply (get_record_exact noHooks (λ _, None) (tickSpec 1000) (tickSpec 1000) p 0 (tickQuery 0 []) " b" 1 rec
    noHooks_ok ltac:(vm_compute; reflexivity) (tick_reachable _)) in E;
    [|vm_compute; discriminate|vm_compute; discriminate|vm_compute; discriminate].
  destruct E as (k & e & _ & _ & _ & Ho & _). rewrite Ho. vm_compute. reflexivity.
Defined.

Lemma filter_in_place_elem {H : BitmapHooks} parseFloat isNaN es ps e :
  e ∈ filterEntriesInPlace parseFloat isNaN es ps ↔ e ∈ es ∧ forallb (λ pr, matchesPredicate parseFloat isNaN pr e) ps = true.
Proof.
  unfold filterEntriesInPlace. destruct ps; [cbn; tauto|]. rewrite list_elem_of_filter. tauto.
Qed.

(** A plan's snapshot: either there is no cell, and the index should hold
    nothing, or it is the cell and the operator has bounds. *)
Lemma plan_snapshot p query ps plan E : planFrom p query ps plan →
  range_ok (plKind plan) (rangeOf (registry p) (queryScope p query, PField (plPredicate plan), plKind plan)) E →
  (plSnapshot plan = [] ∧ ∀ k, E !! k = None) ∨
  (range_ok (plKind plan) (plSnapshot plan) E ∧ POp (plPredicate plan) ≠ CompareNe).
Proof.
  intros (_ & _ & _ & Hsnap & Hest) Hr. unfold rangeOf, rangeSnapshot in *.
  destruct (ranges (registry p) !! _) as [s|]; cbn in Hr, Hsnap.
  - right. rewrite Hsnap in *. split; [done|]. intros Heq. rewrite Heq in Hest. destruct s; [inversion Hr|done].
  - left. split; [done|]. intros k. apply eq_None_not_Some. intros [x Hk].
    inversion Hr as [? ? _ _ Hc|? ? ? ? Hb]; subst; [|inversion Hb]. apply Hc in Hk. by apply elem_of_nil in Hk.
Qed.

Lemma plan_keys p query ps plan E : planFrom p query ps plan →
  range_ok (plKind plan) (rangeOf (registry p) (queryScope p query, PField (plPredicate plan), plKind plan)) E →
  NoDup (rkey <$> planForEach (plKind plan) (plSnapshot plan) (POp (plPredicate plan)) (plOperand plan)).
Proof.
  intros Hp Hr. destruct (plan_snapshot _ _ _ _ _ Hp Hr) as [[-> _]|[Hr' Hop]]; [constructor|].
  by destruct (plan_for_each_spec _ _ _ _ (plOperand plan) Hr' Hop).
Qed.

(** It finds every record that its index should hold. *)
Lemma plan_finds p query ps plan E k x : planFrom p query ps plan →
  range_ok (plKind plan) (rangeOf (registry p) (queryScope p query, PField (plPredicate plan), plKind plan)) E →
  E !! k = Some x → compareMatches (POp (plPredicate plan)) (rangeVal (plKind plan) x) (plOperand plan) = true →
  x ∈ planForEach (plKind plan) (plSnapshot plan) (POp (plPredicate plan)) (plOperand plan) ∧
  length (plSnapshot plan) ≠ 0%nat ∧ plEstimate plan ≠ 0.
Proof.
  intros Hp Hr Hk Hm. destruct (plan_snapshot _ _ _ _ _ Hp Hr) as [[_ Hno]|[Hr' Hop]]; [by rewrite Hno in Hk|].
  destruct Hp as (_ & _ & _ & _ & Hest). destruct (plan_for_each_spec _ _ _ _ (plOperand plan) Hr' Hop) as (_ & _ & Hc).
  assert (x ∈ planForEach (plKind plan) (plSnapshot plan) (POp (plPredicate plan)) (plOperand plan)) as Hx by (by eapply Hc).
  split_and!; [done|by destruct (plSnapshot plan); [inversion Hr'|]|].
  destruct (estimate_spec (plKind plan) (plSnapshot plan) (POp (plPredicate plan)) (plOperand plan)) as (n & Hn' & Hle & _);
    [by eapply range_ok_layers|done|]. rewrite Hn' in Hest. injection Hest as <-. intros ->.
  destruct (planForEach _ _ _ _); [by apply elem_of_nil in Hx|cbn in Hle; lia].
Qed.

(** What a plan collects is live and answers the query. *)
Lemma collected_sound p now query plan e : e ∈ collectRangeEntries p now query plan →
  ∃ k, visible p !! k = Some e ∧ answersQuery p now query k = true.
Proof.
  unfold collectRangeEntries. destruct (_ || _); [by intros ?%elem_of_nil|].
  intros (c & _ & Hc)%list_elem_of_omap. unfold liveEntry in Hc. fold (visible p) in Hc.
  destruct (visible p !! rkey c) as [e'|] eqn:He'; [|done]. destruct (expired now e') eqn:Hx; [done|].
  destruct (negb (version e' =? rversion c)); [done|]. cbn [orb] in Hc.
  destruct (recordMatches (record e') (spec p) query) eqn:Hm; [|done]. injection Hc as ->.
  exists (rkey c). split; [done|]. unfold answersQuery, liveEntry. fold (visible p). by rewrite He', Hx.
Qed.

(** A live answer whose index entry the plan visits is collected. *)
Lemma collected_complete p now query plan k e x : visible p !! k = Some e → answersQuery p now query k = true →
  x ∈ planForEach (plKind plan) (plSnapshot plan) (POp (plPredicate plan)) (plOperand plan) →
  rkey x = k → rversion x = version e → length (plSnapshot plan) ≠ 0%nat → plEstimate plan ≠ 0 →
  e ∈ collectRangeEntries p now query plan.
Proof.
  intros He Hans Hfound Hxk Hxv Hlen Hest. unfold collectRangeEntries.
  rewrite (proj2 (Nat.eqb_neq _ _) Hlen), (proj2 (Z.eqb_neq _ _) Hest). cbn [orb].
  apply list_elem_of_omap. exists x. split; [done|]. unfold answersQuery in Hans. rewrite Hxk.
  destruct (liveEntry p now k) as [e'|] eqn:Hl; [|done]. assert (e' = e) as ->.
  { unfold liveEntry in Hl. fold (visible p) in Hl. rewrite He in Hl. destruct (expired now e); congruence. }
  by rewrite Hxv, Z.eqb_refl, Hans.
Qed.

Lemma filter_in_place_sub {H : BitmapHooks} parseFloat isNaN es ps :
  sublist (filterEntriesInPlace parseFloat isNaN es ps) es.
Proof. unfold filterEntriesInPlace. destruct ps; [done|apply sublist_filter]. Qed.

(** A decidable form of [canonicalNumbers]. *)
Definition canonicalValue (isNaN : string → bool) (v : RecordValue) : bool :=
  match Kind_ v with
  | RecordValueInt | RecordValueUint | RecordValueFloat =>
      String.eqb (TrimSpace (Text v)) (Text v) && negb (isNaN (Text v))
  | _ => true
  end.

Lemma canonical_numbers_check isNaN rec : forallb (λ f, canonicalValue isNaN (FValue f)) (Data rec) = true →
  canonicalNumbers isNaN rec.
Proof.
  rewrite forallb_forall. intros Hall f v Hg. unfold Get in Hg.
  destruct (getBy Name (Data rec) (TrimSpace f)) as [fd|] eqn:Hf; [|done]. injection Hg as <-.
  apply getBy_Some in Hf as [Hin _]. specialize (Hall fd (proj1 (list_elem_of_In _ _) Hin)). unfold canonicalValue in Hall.
  destruct (Kind_ (FValue fd)); try done; apply andb_true_iff in Hall as [Ht%String.eqb_eq Hn%negb_true_iff]; done.
Qed.

Lemma range_plan_facts (H : BitmapHooks) (parseFloat : string → option Z) (isNaN : string → bool) s sp p now query ps plan :
  BitmapHooksOk H → normalizeSpec s = Ok sp → reachable parseFloat sp p → "version" ∉ RangeIndexedFields sp →
  (∀ k e, visible p !! k = Some e → canonicalNumbers isNaN (record e)) →
  0 ≤ HermesKeys.count (Plan query) →
  TrimSpace (QOrganizationID query) = QOrganizationID query → QOrganizationID query ≠ "" →
  bestRangeCandidatePlan p query ps = Some plan →
  let found := filterEntriesInPlace parseFloat isNaN (collectRangeEntries p now query plan) ps in
  (∀ e, e ∈ found ↔ ∃ k, visible p !! k = Some e ∧ answersQuery p now query k = true ∧
                         forallb (λ pr, matchesPredicate parseFloat isNaN pr e) ps = true) ∧
  NoDup ((λ e, keyOf (record e)) <$> found).
Proof.
  intros Hok Hn Hr Hver Hcan Hcnt Htrim Horg Hplan found. pose proof (good_spec _ _ Hn) as Hg.
  pose proof (reachable_stable parseFloat sp p Hg Hr) as Hst. pose proof (reachable_spec parseFloat sp p Hg Hr) as Hsp.
  pose proof (best_plan_from p query ps plan Hplan) as Hpf. pose proof Hpf as (Hin & Hfield & Hkind & _ & _).
  set (i := (queryScope p query, PField (plPredicate plan), plKind plan)).
  pose proof (st_ranges _ _ Hst i) as Hrange. rewrite Hsp in Hrange, Hfield.
  assert (∀ k e, visible p !! k = Some e → k = keyOf (record e)) as Hkeys by (intros k e He; by apply (ac_records _ (st_acc _ _ Hst))).
  destruct (collected_keys p now query _ Hkeys (plan_keys _ _ _ _ _ Hpf Hrange)) as [Hnd _]. split.
  - intros e. unfold found. rewrite filter_in_place_elem. split.
    + intros [(k & He & Hans)%collected_sound Hall]. by exists k.
    + intros (k & He & Hans & Hall). split; [|done].
      destruct (answers_spec p now query k (st_spec _ _ Hst) (st_acc _ _ Hst) Hcnt Htrim Horg Hans) as (e' & He' & Hsc & _).
      assert (e' = e) as -> by congruence.
      assert (matchesPredicate parseFloat isNaN (plPredicate plan) e = true) as Hmp.
      { rewrite forallb_forall in Hall. apply Hall. by apply list_elem_of_In. }
      destruct (matched_in_range parseFloat isNaN sp k e (plPredicate plan) _ _ (gs_ranges _ Hg) Hver (Hcan k e He) Hfield Hkind Hmp)
        as (x & Hx & Hxk & Hxv & Hxm). rewrite Hsc in Hx.
      assert (rangeMap parseFloat sp i (visible p) !! k = Some x) as HE by (unfold rangeMap; by rewrite map_lookup_imap, He).
      destruct (plan_finds _ _ _ _ _ k x Hpf Hrange HE Hxm) as (Hfound & Hlen & Hest). by eapply collected_complete.
  - eapply sublist_NoDup; [|apply fmap_sublist, filter_in_place_sub].
    unfold collectRangeEntries. destruct (_ || _); [constructor|exact Hnd].
Qed.

(** Predicate pushdown through a range index changes nothing but the cost:
    in every reachable partition, whenever the planner picks a range plan for
    some predicates, collecting the plan's candidates and filtering them yields
    exactly the live records that answer the query and satisfy every predicate,
    each once; provided that numbers are stored in canonical form and no range
    index is declared on the reserved name "version". *)
Theorem range_plan_exact (H : BitmapHooks) (parseFloat : string → option Z) (isNaN : string → bool) s sp p now query ps plan :
  BitmapHooksOk H → normalizeSpec s = Ok sp → reachable parseFloat sp p → "version" ∉ RangeIndexedFields sp →
  (∀ k e, visible p !! k = Some e → canonicalNumbers isNaN (record e)) →
  0 ≤ HermesKeys.count (Plan query) →
  TrimSpace (QOrganizationID query) = QOrganizationID query → QOrganizationID query ≠ "" →
  bestRangeCandidatePlan p query ps = Some plan →
  let found := filterEntriesInPlace parseFloat isNaN (collectRangeEntries p now query plan) ps in
  (∀ e, e ∈ found ↔ ∃ k, visible p !! k = Some e ∧ answersQuery p now query k = true ∧
                         forallb (λ pr, matchesPredicate parseFloat isNaN pr e) ps = true) ∧
  NoDup ((λ e, keyOf (record e)) <$> found).
Proof. apply range_plan_facts. Qed.

(** A projection with a range index, for the witness. *)
Definition priceSpec : ProjectionSpec :=
  mkSpec "ticks" "signals" "ticks" [] ["price"] "" [] 1000 100000 0 0 10 10 0 0.
Definition priced (id : string) (price : Z) : tick * Event :=
  (mkTick false 1 1, mkEvent "upsert" "" price "" (mkRecord "signals" "ticks" "org_1" id [mkField "price" (IntValue price)] [] 1 1)).
Definition pricePartition : partition :=
  (applyBatchObserving (H := noHooks) (λ _, None) (newPartition priceSpec) 0 [priced "a" 5; priced "b" 7; priced "a" 9]).1.1.1.
Definition dearerThan (x : Z) : ColumnPredicate := mkPredicate "price" CompareGt predicateInt64 x None "".

Lemma range_plan_exact_witness :
  ∃ plan, bestRangeCandidatePlan pricePartition (normalizeQuery (tickQuery 0 [])) [dearerThan 6] = Some plan ∧
  NoDup ((λ e, keyOf (record e)) <$>
    filterEntriesInPlace (λ _, None) (λ _, false)
      (collectRangeEntries pricePartition 0 (normalizeQuery (tickQuery 0 [])) plan) [dearerThan 6]).
Proof.
  destruct (bestRangeCandidatePlan pricePartition (normalizeQuery (tickQuery 0 [])) [dearerThan 6]) as [plan|] eqn:E;
    [|vm_compute in E; discriminate].
  exists plan. split; [reflexivity|].
  refine (proj2 (range_plan_exact noHooks (λ _, None) (λ _, false) priceSpec priceSpec pricePartition 0
    (normalizeQuery (tickQuery 0 [])) [dearerThan 6] plan noHooks_ok _ _ _ _ _ _ _ E)).
  - vm_compute; reflexivity.
  - eapply reach_step; [apply reach_new|apply step_batch].
  - intros Hv. apply list_elem_of_singleton in Hv. discriminate.
  - assert (map_Forall (λ _ e, forallb (λ f, canonicalValue (λ _, false) (FValue f)) (Data (record e)) = true)
      (visible pricePartition)) as Hall by (apply (bool_decide_unpack _); vm_compute; exact I).
    intros k e He. apply canonical_numbers_check. exact (Hall k e He).
  - vm_compute; discriminate.
  - vm_compute; reflexivity.
  - vm_compute; discriminate.
Defined.

(** A range index may be declared on a data field called "version", but a
    predicate on that name means the record's own version: the plan then draws
    its candidates from the wrong values and loses matching records. *)
Definition versionSpec : ProjectionSpec :=
  mkSpec "ticks" "signals" "ticks" [] ["version"] "" [] 1000 100000 0 0 10 10 0 0.

Theorem version_range_field_loses_records :
  let p := (applyBatchObserving (H := noHooks) (λ _, None) (newPartition versionSpec) 0
    [(mkTick false 1 1, mkEvent "upsert" "" 9 "" (mkRecord "signals" "ticks" "org_1" "a" [mkField "version" (IntValue 1)] [] 1 1))]).1.1.1 in
  let q := normalizeQuery (tickQuery 0 []) in
  let pr := mkPredicate "version" CompareGe predicateInt64 5 None "" in
  normalizeSpec versionSpec = Ok versionSpec ∧
  (λ e, matchesPredicate (λ _, None) (λ _, false) pr e) <$> map snd (map_to_list (visible p)) = [true] ∧
  (λ plan, collectRangeEntries p 0 q plan) <$> bestRangeCandidatePlan p q [pr] = Some [].
Proof. vm_compute. split_and!; reflexivity. Qed.
