(* ===== verification/TopK.v ===== *)
(** * TopK: bounded selection of query results

    Models [entryCandidates] of [hermes/columnar_candidates.go]: an array heap
    that keeps the [limit] best entries seen so far with the worst of them at
    its root.  The heap is generic in the entries and their three-way
    comparison; [CompareOk] is what it needs of the comparison.  The loops run
    on the index they move: the sift towards the root on the child index, the
    sift towards the leaves on the number of slots below the parent. *)

From Stdlib Require Import ZArith Lia Ascii String Sorting.Sorted Permutation.
From stdpp Require Import base strings numbers sorting list.
From S2P Require Import Prelude GoStrings.

Open Scope list_scope.
Open Scope Z_scope.

(** A three-way comparison: negative when the first argument comes first. *)
Class CompareOk {A} (cmp : A → A → Z) : Prop := {
  cmp_total : ∀ a b, cmp a b ≤ 0 ∨ cmp b a ≤ 0;
  cmp_trans : ∀ a b c, cmp a b ≤ 0 → cmp b c ≤ 0 → cmp a c ≤ 0;
  cmp_flip : ∀ a b, 0 < cmp a b ↔ cmp b a < 0
}.

(** ** Comparisons the code composes *)

Definition signOf (c : comparison) : Z := match c with Lt => -1 | Eq => 0 | Gt => 1 end.

(** [cmp.Compare] on integers and strings; [time.Compare] is the former. *)
Definition compareZ (a b : Z) : Z := signOf (a ?= b).
Definition compareStr (a b : string) : Z := signOf (String.compare a b).

(** [if order := first; order != 0 { return order }; return second]. *)
Definition thenCompare (first second : Z) : Z := if first =? 0 then second else first.

#[export] Instance compareZ_ok : CompareOk compareZ.
Proof.
  unfold compareZ. split; intros *.
  - destruct (Z.compare_spec a b), (Z.compare_spec b a); cbn; lia.
  - destruct (Z.compare_spec a b), (Z.compare_spec b c), (Z.compare_spec a c); cbn; lia.
  - destruct (Z.compare_spec a b), (Z.compare_spec b a); cbn; lia.
Qed.

Lemma compare_str_le a b : compareStr a b ≤ 0 ↔ String.le a b.
Proof. rewrite <- leb_le. unfold compareStr, String.leb. destruct (String.compare a b); cbn; split; (lia || done). Qed.

Lemma compare_str_flip a b : compareStr a b = - compareStr b a.
Proof. unfold compareStr. rewrite String.compare_antisym. by destruct (String.compare b a). Qed.

#[export] Instance compareStr_ok : CompareOk compareStr.
Proof.
  split; intros *.
  - rewrite !compare_str_le. apply (total String.le).
  - rewrite !compare_str_le. by etrans.
  - rewrite (compare_str_flip a b). lia.
Qed.

Lemma compare_on {A B} (f : A → B) cmp : CompareOk cmp → CompareOk (λ a b, cmp (f a) (f b)).
Proof. intros [H1 H2 H3]. split; intros; eauto. Qed.

Lemma compare_rev {A} (cmp : A → A → Z) : CompareOk cmp → CompareOk (λ a b, cmp b a).
Proof. intros [H1 H2 H3]. split; intros; eauto. Qed.

Lemma compare_then {A} (c1 c2 : A → A → Z) : CompareOk c1 → CompareOk c2 → CompareOk (λ a b, thenCompare (c1 a b) (c2 a b)).
Proof.
  intros [T1 R1 F1] [T2 R2 F2]. unfold thenCompare. split.
  - intros a b. pose proof (F1 a b). pose proof (F1 b a). destruct (Z.eqb_spec (c1 a b) 0), (Z.eqb_spec (c1 b a) 0);
      [apply T2|lia|lia|apply T1].
  - intros a b c. pose proof (F1 a b). pose proof (F1 b a). pose proof (F1 b c). pose proof (F1 c b). pose proof (F1 a c).
    pose proof (F1 c a). pose proof (R1 a b c). pose proof (R1 c a b). pose proof (R1 b c a). pose proof (R2 a b c).
    destruct (Z.eqb_spec (c1 a b) 0), (Z.eqb_spec (c1 b c) 0), (Z.eqb_spec (c1 a c) 0); lia.
  - intros a b. pose proof (F1 a b). pose proof (F1 b a). destruct (Z.eqb_spec (c1 a b) 0), (Z.eqb_spec (c1 b a) 0);
      [apply F2|lia|lia|apply F1].
Qed.

Lemma then_compare_zero x y : thenCompare x y = 0 ↔ x = 0 ∧ y = 0.
Proof. unfold thenCompare. destruct (Z.eqb_spec x 0); naive_solver lia. Qed.

Lemma compareZ_zero a b : compareZ a b = 0 ↔ a = b.
Proof. unfold compareZ. destruct (Z.compare_spec a b); cbn; lia. Qed.

Lemma compare_str_zero a b : compareStr a b = 0 → a = b.
Proof. unfold compareStr. destruct (String.compare a b) eqn:E; try done. intros _. by apply String.compare_eq_iff. Qed.

Lemma filter_none {A} (P : A → Prop) `{!∀ x, Decision (P x)} (l : list A) : (∀ x, x ∈ l → ¬ P x) → filter P l = [].
Proof.
  induction l as [|x l IH]; intros Hl; [done|]. rewrite filter_cons, decide_False by apply Hl, list_elem_of_here.
  apply IH. intros y Hy. apply Hl. by apply list_elem_of_further.
Qed.

Lemma filter_all {A} (P : A → Prop) `{!∀ x, Decision (P x)} (l : list A) : (∀ x, x ∈ l → P x) → filter P l = l.
Proof.
  induction l as [|x l IH]; intros Hl; [done|]. rewrite filter_cons, decide_True by apply Hl, list_elem_of_here.
  f_equal. apply IH. intros y Hy. apply Hl. by apply list_elem_of_further.
Qed.

Section Heap.
Context {A : Type} (cmp : A → A → Z).

Record entryCandidates := mkCandidates { centries : list A; climit : Z }.

(** [c.entries[i], c.entries[j] = c.entries[j], c.entries[i]]. *)
Definition swap (l : list A) (i j : nat) : list A :=
  match l !! i, l !! j with
  | Some a, Some b => <[j := a]> (<[i := b]> l)
  | _, _ => l
  end.

Definition parentOf (child : nat) : nat := ((child - 1) / 2)%nat.

(** The loop of [add]; it moves from [child] to its parent. *)
Fixpoint siftUp (fuel : nat) (l : list A) (child : nat) : list A :=
  match fuel with
  | O => l
  | S fuel =>
      if (child =? 0)%nat then l
      else
        let parent := parentOf child in
        match l !! child, l !! parent with
        | Some c, Some p =>
            if cmp c p <=? 0 then l else siftUp fuel (swap l child parent) parent
        | _, _ => l
        end
  end.

(** The larger child of a parent that has one. *)
Definition worseChild (l : list A) (parent : nat) : nat :=
  let child := (2 * parent + 1)%nat in
  match l !! (child + 1)%nat, l !! child with
  | Some r, Some c => if 0 <? cmp r c then (child + 1)%nat else child
  | _, _ => child
  end.

Fixpoint siftDown (fuel : nat) (l : list A) (parent : nat) : list A :=
  match fuel with
  | O => l
  | S fuel =>
      if (parent <? length l / 2)%nat then
        let child := worseChild l parent in
        match l !! parent, l !! child with
        | Some p, Some c =>
            if 0 <=? cmp p c then l else siftDown fuel (swap l parent child) child
        | _, _ => l
        end
      else l
  end.

Definition restoreRoot (c : entryCandidates) : entryCandidates :=
  mkCandidates (siftDown (length (centries c)) (centries c) 0) (climit c).

Definition add (c : entryCandidates) (entry : A) : entryCandidates :=
  if climit c <=? 0 then mkCandidates (centries c ++ [entry]) (climit c)
  else if Z.of_nat (length (centries c)) <? climit c then
    let entries := centries c ++ [entry] in
    mkCandidates (siftUp (length entries) entries (length entries - 1)) (climit c)
  else
    match centries c with
    | [] => c
    | root :: rest =>
        if 0 <=? cmp entry root then c
        else restoreRoot (mkCandidates (entry :: rest) (climit c))
    end.

(** [a] does not come after [b]. *)
Definition notAfter (a b : A) : Prop := cmp a b ≤ 0.

#[export] Instance notAfter_dec a b : Decision (notAfter a b) := Z_le_dec (cmp a b) 0.

(** [slices.SortFunc]: ascending by the comparison. *)
Definition sortFunc (l : list A) : list A := merge_sort notAfter l.

(** ** The heap order

    [hle l i j]: the entry at [i] does not come after the one at [j]. *)

Definition hle (l : list A) (i j : nat) : Prop := ∀ a b, l !! i = Some a → l !! j = Some b → cmp a b ≤ 0.

Definition heap (l : list A) : Prop := ∀ i, (0 < i)%nat → hle l i (parentOf i).

(** A heap but for one slot, on the way up and on the way down. *)
Definition heap_up (l : list A) (x : nat) : Prop :=
  (∀ i, (0 < i)%nat → i ≠ x → hle l i (parentOf i)) ∧
  (∀ i, (0 < i)%nat → (0 < x)%nat → parentOf i = x → hle l i (parentOf x)).

Definition heap_down (l : list A) (x : nat) : Prop :=
  (∀ i, (0 < i)%nat → parentOf i ≠ x → hle l i (parentOf i)) ∧
  (∀ i, (0 < i)%nat → (0 < x)%nat → parentOf i = x → hle l i (parentOf x)).

Lemma parent_lt i : (0 < i)%nat → (parentOf i < i)%nat.
Proof. intros. unfold parentOf. apply Nat.Div0.div_lt_upper_bound; lia. Qed.

Lemma parent_child i p : (0 < i)%nat → parentOf i = p ↔ (i = 2 * p + 1 ∨ i = 2 * p + 2)%nat.
Proof.
  intros Hi. unfold parentOf. pose proof (Nat.div_mod_eq (i - 1) 2) as Hd.
  pose proof (Nat.mod_upper_bound (i - 1) 2 ltac:(lia)) as Hm. lia.
Qed.

Lemma swap_perm l i j : swap l i j ≡ₚ l.
Proof.
  unfold swap. destruct (l !! i) as [a|] eqn:Hi, (l !! j) as [b|] eqn:Hj; [|done..]. symmetry.
  destruct (decide (i = j)) as [->|Hne]; [rewrite list_insert_insert_eq, list_insert_id; by simplify_eq|].
  apply Permutation_inj. pose proof (lookup_lt_Some _ _ _ Hi). pose proof (lookup_lt_Some _ _ _ Hj).
  split; [by rewrite !length_insert|]. exists (λ k, if decide (k = i) then j else if decide (k = j) then i else k). split.
  - intros x y. repeat case_decide; congruence.
  - intros k. repeat case_decide; subst; rewrite ?list_lookup_insert_eq, ?list_lookup_insert_ne, ?list_lookup_insert_eq
      by (rewrite ?length_insert; done); congruence.
Qed.

Lemma swap_length l i j : length (swap l i j) = length l.
Proof. apply Permutation_length, swap_perm. Qed.

Lemma swap_lookup l i j k : (i < length l)%nat → (j < length l)%nat →
  swap l i j !! k = if decide (k = i) then l !! j else if decide (k = j) then l !! i else l !! k.
Proof.
  intros [a Hi]%lookup_lt_is_Some [b Hj]%lookup_lt_is_Some. unfold swap. rewrite Hi, Hj.
  pose proof (lookup_lt_Some _ _ _ Hi). pose proof (lookup_lt_Some _ _ _ Hj).
  destruct (decide (k = j)) as [->|Hkj].
  - rewrite list_lookup_insert_eq by (by rewrite length_insert). case_decide; congruence.
  - rewrite list_lookup_insert_ne by done. case_decide; [subst; by rewrite list_lookup_insert_eq|].
    by rewrite list_lookup_insert_ne.
Qed.

Context {Hcmp : CompareOk cmp}.

Lemma hle_trans l i j k b : l !! j = Some b → hle l i j → hle l j k → hle l i k.
Proof. intros Hj H1 H2 a c Ha Hc. eapply cmp_trans; [by apply H1|by apply H2]. Qed.

Lemma cmp_refl a : cmp a a ≤ 0.
Proof. by destruct (cmp_total a a). Qed.

(** ** Sifting up *)

Lemma sift_up_perm fuel : ∀ l x, siftUp fuel l x ≡ₚ l.
Proof using A cmp.
  clear Hcmp. induction fuel as [|fuel IH]; intros l x; [done|]. cbn [siftUp]. destruct (x =? 0)%nat; [done|].
  destruct (l !! x), (l !! parentOf x); [|done..]. destruct (_ <=? _); [done|]. by rewrite IH, swap_perm.
Qed.

Lemma sift_up_step l x c p : (0 < x)%nat → l !! x = Some c → l !! parentOf x = Some p → 0 < cmp c p → heap_up l x →
  heap_up (swap l x (parentOf x)) (parentOf x).
Proof.
  intros Hx Hc Hp Hcp [H1 H2]. pose proof (parent_lt x Hx) as Hlt. set (q := parentOf x) in *.
  pose proof (lookup_lt_Some _ _ _ Hc) as Lx. pose proof (lookup_lt_Some _ _ _ Hp) as Lq.
  assert (cmp p c ≤ 0) as Hpc by (apply cmp_flip in Hcp; lia).
  split.
  - intros i Hi Hiq a b. rewrite !swap_lookup by done. destruct (decide (i = x)) as [Heq|Hix].
    { subst i. fold q. rewrite (decide_False (P := q = x)), decide_True by lia. congruence. }
    rewrite decide_False by done. destruct (decide (parentOf i = x)) as [Hpx|Hpx].
    { intros Ha Hb. rewrite Hp in Hb. injection Hb as <-. eapply (H2 i Hi); [lia|done|done|done]. }
    destruct (decide (parentOf i = q)) as [Hpq|Hpq]; [|by apply H1].
    intros Ha Hb. rewrite Hc in Hb. injection Hb as <-. eapply cmp_trans; [|exact Hpc]. eapply (H1 i Hi Hix); [done|by rewrite Hpq].
  - intros i Hi Hq Hiq a b. rewrite !swap_lookup by done.
    assert (parentOf q < q)%nat by (by apply parent_lt). rewrite (decide_False (P := parentOf q = x)), (decide_False (P := parentOf q = q)) by lia.
    destruct (decide (i = x)) as [Heq|Hix].
    + intros Ha Hb. rewrite Hp in Ha. injection Ha as <-. by apply (H1 q Hq ltac:(lia)).
    + rewrite decide_False by (pose proof (parent_lt i Hi); lia). intros Ha Hb.
      eapply cmp_trans; [eapply (H1 i Hi Hix); [done|by rewrite Hiq]|]. by eapply (H1 q Hq ltac:(lia)).
Qed.

Lemma heap_up_done l x : heap_up l x → ((0 < x)%nat → hle l x (parentOf x)) → heap l.
Proof using A cmp. clear Hcmp. intros [H1 _] Hx i Hi. destruct (decide (i = x)) as [->|]; [by apply Hx|by apply H1]. Qed.

Lemma sift_up_heap fuel : ∀ l x, (x < fuel)%nat → heap_up l x → heap (siftUp fuel l x).
Proof.
  induction fuel as [|fuel IH]; intros l x Hf Hh; [lia|]. cbn [siftUp].
  destruct (Nat.eqb_spec x 0) as [->|Hx]; [eapply heap_up_done; [done|lia]|].
  destruct (l !! x) as [c|] eqn:Hc.
  2: { eapply heap_up_done; [done|]. intros _ a b Ha. congruence. }
  destruct (l !! parentOf x) as [p|] eqn:Hp.
  2: { eapply heap_up_done; [done|]. intros _ a b _ Hb. congruence. }
  destruct (Z.leb_spec (cmp c p) 0).
  - eapply heap_up_done; [done|]. intros _ a b Ha Hb. by simplify_eq.
  - apply IH; [pose proof (parent_lt x ltac:(lia)); lia|]. eapply sift_up_step; try done. lia.
Qed.

(** ** Sifting down *)

Lemma sift_down_perm fuel : ∀ l x, siftDown fuel l x ≡ₚ l.
Proof using A cmp.
  clear Hcmp. induction fuel as [|fuel IH]; intros l x; [done|]. cbn [siftDown]. destruct (_ <? _)%nat; [|done].
  destruct (l !! x), (l !! worseChild l x); [|done..]. destruct (_ <=? _); [done|]. by rewrite IH, swap_perm.
Qed.

Lemma half_bound n x : (x < n / 2)%nat ↔ (2 * x + 1 < n)%nat.
Proof using. pose proof (Nat.div_mod_eq n 2). pose proof (Nat.mod_upper_bound n 2 ltac:(lia)). lia. Qed.

(** The chosen child is a child, in range, and no sibling comes after it. *)
Lemma worse_child_spec l x : (2 * x + 1 < length l)%nat →
  parentOf (worseChild l x) = x ∧ (x < worseChild l x < length l)%nat ∧
  ∀ i, (0 < i)%nat → parentOf i = x → hle l i (worseChild l x).
Proof.
  intros Hl. unfold worseChild. destruct (lookup_lt_is_Some_2 l (2 * x + 1) Hl) as [c Hc]. rewrite Hc.
  assert (∀ i, (0 < i)%nat → parentOf i = x → (i = 2 * x + 1 ∨ i = 2 * x + 2)%nat) as Hch by (intros i Hi; by apply parent_child).
  destruct (l !! (2 * x + 1 + 1)%nat) as [r|] eqn:Hr.
  - pose proof (lookup_lt_Some _ _ _ Hr). destruct (Z.ltb_spec 0 (cmp r c)) as [Hrc|Hrc].
    + split_and!; [apply parent_child; lia|lia|lia|]. intros i Hi Hpi; destruct (Hch i Hi Hpi) as [->| ->]; intros a b Ha Hb.
      * apply cmp_flip in Hrc. simplify_eq. lia.
      * replace (2 * x + 1 + 1)%nat with (2 * x + 2)%nat in * by lia. simplify_eq. apply cmp_refl.
    + split_and!; [apply parent_child; lia|lia|lia|]. intros i Hi Hpi; destruct (Hch i Hi Hpi) as [->| ->]; intros a b Ha Hb.
      * simplify_eq. apply cmp_refl.
      * replace (2 * x + 1 + 1)%nat with (2 * x + 2)%nat in * by lia. by simplify_eq.
  - apply lookup_ge_None in Hr. split_and!; [apply parent_child; lia|lia|lia|]. intros i Hi Hpi; destruct (Hch i Hi Hpi) as [->| ->]; intros a b Ha Hb.
    + simplify_eq. apply cmp_refl.
    + apply lookup_lt_Some in Ha. lia.
Qed.

Lemma sift_down_step l x p c : (2 * x + 1 < length l)%nat → l !! x = Some p → l !! worseChild l x = Some c → cmp p c < 0 →
  heap_down l x → heap_down (swap l x (worseChild l x)) (worseChild l x).
Proof.
  intros Hl Hp Hc Hpc [H1 H2]. destruct (worse_child_spec l x Hl) as (W1 & W2 & W3). set (w := worseChild l x) in *. split.
  - intros i Hi Hiw a b. rewrite !swap_lookup by lia.
    destruct (decide (parentOf i = x)) as [Hpx|Hpx].
    + rewrite (decide_False (P := i = x)) by (pose proof (parent_lt i Hi); lia). destruct (decide (i = w)) as [->|].
      * intros Ha Hb. simplify_eq. lia.
      * intros Ha Hb. by eapply (W3 i Hi Hpx).
    + rewrite (decide_False (P := parentOf i = w)) by done. destruct (decide (i = x)) as [->|].
      * intros Ha Hb. eapply (H2 w); [lia|lia|done|done|done].
      * rewrite decide_False by (intros ->; congruence). by apply H1.
  - intros i Hi _ Hiw a b. rewrite !swap_lookup by lia. pose proof (parent_lt i Hi). rewrite W1.
    rewrite (decide_False (P := i = x)), (decide_False (P := i = w)), (decide_True (P := x = x)) by lia. intros Ha Hb.
    eapply (H1 i Hi); [lia|done|by rewrite Hiw].
Qed.

Lemma heap_down_done l x : heap_down l x → (∀ i, (0 < i)%nat → parentOf i = x → hle l i x) → heap l.
Proof using A cmp.
  clear Hcmp. intros [H1 _] Hx i Hi. destruct (decide (parentOf i = x)) as [Hp|]; [|by apply H1].
  rewrite Hp. by apply Hx.
Qed.

Lemma sift_down_heap fuel : ∀ l x, (length l ≤ x + fuel)%nat → heap_down l x → heap (siftDown fuel l x).
Proof.
  induction fuel as [|fuel IH]; intros l x Hf Hh; cbn [siftDown].
  { eapply heap_down_done; [done|]. intros i Hi Hp a b Ha%lookup_lt_Some. pose proof (parent_lt i Hi). lia. }
  destruct (Nat.ltb_spec x (length l / 2)) as [Hx%half_bound|Hx].
  2: { eapply heap_down_done; [done|]. intros i Hi Hp%parent_child a b Ha%lookup_lt_Some; [|done].
       assert (¬ (2 * x + 1 < length l)%nat) by (rewrite <- half_bound; lia). lia. }
  destruct (worse_child_spec l x Hx) as (W1 & W2 & W3).
  destruct (lookup_lt_is_Some_2 l x) as [p Hp]; [lia|]. destruct (lookup_lt_is_Some_2 l (worseChild l x)) as [c Hc]; [lia|].
  rewrite Hp, Hc. destruct (Z.leb_spec 0 (cmp p c)) as [Hpc|Hpc].
  - eapply heap_down_done; [done|]. intros i Hi Hpi. eapply hle_trans; [exact Hc|by apply W3|].
    intros a b Ha Hb. simplify_eq. destruct (Z.eq_dec (cmp p c) 0) as [Hz|Hnz].
    + destruct (cmp_total c p); [done|]. pose proof (cmp_flip c p). lia.
    + pose proof (cmp_flip p c). lia.
  - apply IH; [rewrite swap_length; lia|]. by eapply sift_down_step.
Qed.

(** ** Selection *)

Lemma heap_root l i : heap l → hle l i 0.
Proof.
  intros Hh. induction i as [i IH] using lt_wf_ind. destruct (decide (i = 0)%nat) as [->|Hi].
  - intros a b Ha Hb. simplify_eq. apply cmp_refl.
  - pose proof (parent_lt i ltac:(lia)) as Hlt. intros a b Ha Hb.
    destruct (lookup_lt_is_Some_2 l (parentOf i)) as [p Hp]; [apply lookup_lt_Some in Ha; lia|].
    eapply cmp_trans; [by apply (Hh i ltac:(lia))|by eapply (IH (parentOf i))].
Qed.

(** The entries seen so far are split: the retained ones all come before the
    discarded ones, and nothing is discarded while there is room. *)
Record selection (c : entryCandidates) (seen : list A) : Prop := {
  sel_heap : heap (centries c);
  sel_split : ∃ out, seen ≡ₚ centries c ++ out ∧ (∀ a b, a ∈ centries c → b ∈ out → cmp a b ≤ 0) ∧
    (out ≠ [] → Z.of_nat (length (centries c)) = climit c);
  sel_bound : Z.of_nat (length (centries c)) ≤ climit c
}.

Lemma heap_append l x : heap l → heap_up (l ++ [x]) (length l).
Proof using A cmp.
  clear Hcmp. intros Hh. split.
  - intros i Hi Hne a b Ha Hb. pose proof (lookup_lt_Some _ _ _ Ha) as Hl. rewrite length_app in Hl. cbn in Hl.
    pose proof (parent_lt i Hi). rewrite lookup_app_l in Ha, Hb by lia. by apply (Hh i Hi).
  - intros i Hi _ Hp a b Ha%lookup_lt_Some. rewrite length_app in Ha. cbn in Ha. pose proof (parent_lt i Hi). lia.
Qed.

Lemma heap_replace_root x y l : heap (x :: l) → heap_down (y :: l) 0.
Proof using A cmp.
  clear Hcmp. intros Hh. split; [|lia]. intros i Hi Hp a b Ha Hb. eapply (Hh i Hi); destruct i; try lia; [done|].
  destruct (parentOf (S i)) eqn:E; [lia|done].
Qed.

Lemma add_selection c seen x : 0 < climit c → selection c seen → selection (add c x) (seen ++ [x]) ∧ climit (add c x) = climit c.
Proof.
  intros Hlim [Hh (out & Hp & Hle & Hfull) Hb]. unfold add. rewrite (proj2 (Z.leb_gt _ _)) by lia.
  destruct (Z.ltb_spec (Z.of_nat (length (centries c))) (climit c)) as [Hroom|Hroom].
  - assert (out = []) as -> by (destruct out; [done|]; specialize (Hfull ltac:(done)); lia). rewrite app_nil_r in Hp.
    split; [|done]. assert (siftUp (length (centries c ++ [x])) (centries c ++ [x]) (length (centries c ++ [x]) - 1) ≡ₚ centries c ++ [x])
      as Hperm by apply sift_up_perm. split; cbn [centries climit].
    + apply sift_up_heap; [rewrite length_app; cbn; lia|]. rewrite length_app. cbn [length].
      replace (length (centries c) + 1 - 1)%nat with (length (centries c)) by lia. by apply heap_append.
    + exists []. rewrite app_nil_r. split_and!; [by rewrite Hperm, Hp|by intros a b _ ?%elem_of_nil|done].
    + rewrite (Permutation_length Hperm), length_app. cbn. lia.
  - destruct (centries c) as [|root rest] eqn:Hc; [cbn in Hroom; lia|].
    assert (∀ a, a ∈ root :: rest → cmp a root ≤ 0) as Hroot.
    { intros a [i Hi]%list_elem_of_lookup. by eapply (heap_root _ i Hh). }
    destruct (Z.leb_spec 0 (cmp x root)) as [Hx|Hx].
    + split; [|done]. split; [by rewrite Hc| |by rewrite Hc]. exists (out ++ [x]). rewrite Hc. split_and!.
      * by rewrite Hp, <- !app_assoc.
      * intros a b Ha [Hb'|Hb'%list_elem_of_singleton]%elem_of_app; [by apply Hle|subst b].
        eapply cmp_trans; [by apply Hroot|]. destruct (cmp_total root x); [done|]. pose proof (cmp_flip root x). lia.
      * intros _. cbn in Hb |- *. cbn in Hroom. lia.
    + split; [|done]. assert (siftDown (length (x :: rest)) (x :: rest) 0 ≡ₚ x :: rest) as Hperm by apply sift_down_perm.
      split; cbn [restoreRoot centries climit].
      * apply sift_down_heap; [lia|]. by eapply heap_replace_root.
      * exists (root :: out). split_and!.
        -- rewrite Hp, Hperm, <- Permutation_cons_append. cbn [app]. apply Permutation_skip, Permutation_middle.
        -- intros a b Ha Hb'. rewrite Hperm in Ha.
           assert (cmp a root ≤ 0) as Har.
           { apply elem_of_cons in Ha as [->|Ha]; [lia|]. apply Hroot. by apply list_elem_of_further. }
           apply elem_of_cons in Hb' as [->|Hb']; [done|]. eapply cmp_trans; [exact Har|]. apply Hle; [apply list_elem_of_here|done].
        -- intros _. rewrite (Permutation_length Hperm). cbn in Hb, Hroom |- *. lia.
      * rewrite (Permutation_length Hperm). cbn in Hb |- *. lia.
Qed.

Lemma fold_selection xs : ∀ c seen, 0 < climit c → selection c seen →
  selection (foldl add c xs) (seen ++ xs) ∧ climit (foldl add c xs) = climit c.
Proof.
  induction xs as [|x xs IH]; intros c seen Hl Hs; [by rewrite app_nil_r|]. cbn [foldl].
  destruct (add_selection c seen x Hl Hs) as [H1 H2]. destruct (IH (add c x) (seen ++ [x])) as [H3 H4]; [by rewrite H2|done|].
  rewrite <- app_assoc in H3. split; [done|congruence].
Qed.

Lemma unbounded_adds xs : ∀ c, climit c ≤ 0 → centries (foldl add c xs) = centries c ++ xs ∧ climit (foldl add c xs) = climit c.
Proof using A cmp.
  clear Hcmp. induction xs as [|x xs IH]; intros c Hl; [by rewrite app_nil_r|]. cbn [foldl].
  assert (add c x = mkCandidates (centries c ++ [x]) (climit c)) as -> by (unfold add; by rewrite (proj2 (Z.leb_le _ _) Hl)).
  destruct (IH (mkCandidates (centries c ++ [x]) (climit c)) Hl) as [-> ->]. cbn. by rewrite <- app_assoc.
Qed.

Definition limitList (limit : Z) (l : list A) : list A :=
  if (0 <? limit) && (limit <? Z.of_nat (length l)) then take (Z.to_nat limit) l else l.

#[local] Instance cmp_le_total : Total notAfter := cmp_total.
#[local] Instance cmp_le_trans : Transitive notAfter := cmp_trans.

Lemma sort_perm l : sortFunc l ≡ₚ l.
Proof. apply merge_sort_Permutation. Qed.

Lemma sort_sorted l : StronglySorted notAfter (sortFunc l).
Proof. apply StronglySorted_merge_sort; apply _. Qed.

Lemma sort_unique l k : (∀ a b, a ∈ l → b ∈ l → cmp a b ≤ 0 → cmp b a ≤ 0 → a = b) →
  StronglySorted notAfter k → k ≡ₚ l → sortFunc l = k.
Proof.
  intros Ha Hs Hp. pose proof (sort_perm l) as Hq.
  eapply StronglySorted_unique_strong; [|apply sort_sorted|exact Hs|by rewrite Hp, Hq].
  intros a b H1 H2. apply Ha; [by rewrite <- Hq|by rewrite <- Hp].
Qed.

(** Bounded selection then sorting is sorting then cutting. *)
Lemma select_sort limit xs : (∀ a b, a ∈ xs → b ∈ xs → cmp a b ≤ 0 → cmp b a ≤ 0 → a = b) →
  limitList limit (sortFunc (centries (foldl add (mkCandidates [] limit) xs))) = limitList limit (sortFunc xs).
Proof.
  intros Ha. destruct (Z.ltb_spec 0 limit) as [Hl|Hl].
  2: { destruct (unbounded_adds xs (mkCandidates [] limit)) as [-> _]; done. }
  destruct (fold_selection xs (mkCandidates [] limit) []) as [[_ (out & Hp & Hle & Hfull) Hb] Hlim]; [done| |].
  { split; cbn; [intros i _ a b; by rewrite lookup_nil| |lia]. exists []. split_and!; [done|by intros a b ?%elem_of_nil|done]. }
  cbn [climit] in Hlim. rewrite Hlim in Hfull, Hb. cbn [app] in Hp. set (kept := centries (foldl add (mkCandidates [] limit) xs)) in *.
  pose proof (sort_perm kept) as Hk. pose proof (sort_perm out) as Ho.
  rewrite (sort_unique xs (sortFunc kept ++ sortFunc out)); [|done| |by rewrite Hk, Ho].
  2: { apply StronglySorted_app. split_and!; [|apply sort_sorted..].
       intros a b H1 H2. rewrite Hk in H1. rewrite Ho in H2. by apply Hle. }
  unfold limitList. rewrite (proj2 (Z.ltb_lt _ _) Hl), length_app, (Permutation_length Hk), (Permutation_length Ho). cbn [andb].
  rewrite (proj2 (Z.ltb_ge limit (Z.of_nat (length kept)))) by lia.
  destruct out as [|o out]; [cbn [length]; rewrite Nat.add_0_r, (proj2 (Z.ltb_ge _ _)) by lia; cbn; by rewrite app_nil_r|].
  specialize (Hfull ltac:(done)). rewrite (proj2 (Z.ltb_lt _ _)) by (cbn [length]; lia).
  rewrite take_app_length'; [done|]. rewrite (Permutation_length Hk). lia.
Qed.

End Heap.

Arguments entryCandidates A : clear implicits.
