(* ===== verification/Listing.v ===== *)
(** * Listing: ordered results and pages

    Models the list reads of [hermes/columnar.go] and
    [hermes/columnar_candidates.go] (candidate collection, the canonical order,
    limits, with and without predicates) and the version-ordered pages of
    [hermes/snapshot.go].  A read looks at one registry; [later] is what a
    second look at [columnarUnordered] returns, since a concurrent publication
    may set it during the walk.  Building column vectors from the entries is
    not modelled: a batch is its list of entries. *)

From Stdlib Require Import ZArith Lia Ascii String Sorting.Sorted Permutation.
From stdpp Require Import base sets strings gmap fin_maps numbers sorting list.
From S2P Require Import Prelude GoStrings RecordData HermesKeys Bitmap BitmapIndex IndexSnap RangeIndex Partition Reads TopK Mutation.

Open Scope string_scope.
Open Scope list_scope.
Open Scope Z_scope.

(** ** The canonical order *)

(** Newest timestamps first, then newest versions, then ascending identifiers. *)
Definition compareColumnarEntries (a b : recordEntry) : Z :=
  thenCompare (compareZ (UpdatedAt (record b)) (UpdatedAt (record a)))
    (thenCompare (compareZ (version b) (version a)) (compareStr (RecordID (record a)) (RecordID (record b)))).

#[export] Instance compareColumnarEntries_ok : CompareOk compareColumnarEntries.
Proof.
  unfold compareColumnarEntries. apply (compare_then (λ a b, compareZ (UpdatedAt (record b)) (UpdatedAt (record a)))).
  { apply (compare_rev (λ a b, compareZ (UpdatedAt (record a)) (UpdatedAt (record b)))), (compare_on (λ e, UpdatedAt (record e))), _. }
  apply (compare_then (λ a b, compareZ (version b) (version a))).
  { apply (compare_rev (λ a b, compareZ (version a) (version b))), (compare_on version), _. }
  apply (compare_on (λ e, RecordID (record e))), _.
Qed.

(** A page of a projection read, with its cursors. *)
Record Snapshot (M : Type) := mkSnapshot {
  Mutations : list M; SnEpoch : Z; SnWatermark : Z; NextCursor : Z; HasMore : bool
}.
Arguments mkSnapshot {M}.
Arguments Mutations {M}.
Arguments SnEpoch {M}.
Arguments SnWatermark {M}.
Arguments NextCursor {M}.
Arguments HasMore {M}.

Section Listing.
Context {H : BitmapHooks} (parseFloat : string → option Z).

(** ** Collection *)

(** [accept]: the context first, then the filters; true stops the walk. *)
Definition accept (p : partition) (query : Query) (cancelled : bool) (c : entryCandidates recordEntry) (e : option recordEntry) :
    entryCandidates recordEntry * bool :=
  if cancelled then (c, true)
  else
    (match e with
     | Some e => if recordMatches (record e) (spec p) query then add compareColumnarEntries c e else c
     | None => c
     end, false).

(** The entry an order entry stands for: not a superseded version. *)
Definition recordForOrderEntry (p : partition) (now : Z) (o : recordOrderEntry) : option recordEntry :=
  match liveEntry p now (okey o) with
  | Some e => if version e =? oversion o then Some e else None
  | None => None
  end.

Fixpoint orderedWalk (p : partition) (now : Z) (query : Query) (cancelled : bool) (l : list recordOrderEntry)
    (c : entryCandidates recordEntry) : entryCandidates recordEntry * bool :=
  match l with
  | [] => (c, false)
  | o :: rest =>
      if QueryLimit query <=? Z.of_nat (length (centries c)) then (c, false)
      else
        let '(c, stop) := accept p query cancelled c (recordForOrderEntry p now o) in
        if stop then (c, true) else orderedWalk p now query cancelled rest c
  end.

Fixpoint keyWalk (p : partition) (now : Z) (query : Query) (cancelled : bool) (keys : list string)
    (c : entryCandidates recordEntry) : entryCandidates recordEntry * bool :=
  match keys with
  | [] => (c, false)
  | k :: rest =>
      let '(c, stop) := accept p query cancelled c (liveEntry p now k) in
      if stop then (c, true) else keyWalk p now query cancelled rest c
  end.

Definition walkResult (r : entryCandidates recordEntry * bool) : list recordEntry * option hermes_error :=
  (centries (fst r), if snd r then Some ErrContext else None).

Definition collectRecordEntries (p : partition) (now : Z) (cancelled later : bool) (query : Query) :
    list recordEntry * option hermes_error :=
  let index := candidateIndex p query in
  let fresh := mkCandidates [] (QueryLimit query) in
  let scan :=
    match bitmapCandidates p query with
    | Some keys => walkResult (keyWalk p now query cancelled keys fresh)
    | None => walkResult (keyWalk p now query cancelled (forEachKey index) fresh)
    end in
  if (0 <? QueryLimit query) && negb (columnarUnordered (registry p)) then
    let r := orderedWalk p now query cancelled (forEachOrderDesc index) fresh in
    if snd r || negb later then walkResult r else scan
  else scan.

Definition sortAndLimitEntries (entries : list recordEntry) (query : Query) : list recordEntry :=
  limitList (QueryLimit query) (sortFunc compareColumnarEntries entries).

(** [getColumnarBatch] up to the vectors. *)
Definition getColumnarBatch (p : partition) (now : Z) (cancelled later : bool) (query : Query) (minEpoch : Z) :
    res hermes_error (list recordEntry) :=
  if negb (checkFence p minEpoch) then Err ErrFenceNotSatisfied
  else
    let query := normalizeQuery query in
    if String.eqb (QOrganizationID query) "" then Err ErrInvalidEvent
    else
      match collectRecordEntries p now cancelled later query with
      | (_, Some e) => Err e
      | (entries, None) => Ok (sortAndLimitEntries entries query)
      end.

Definition listRecords (p : partition) (now : Z) (cancelled later : bool) (query : Query) (minEpoch : Z) :
    res hermes_error (list DomainRecord) :=
  match getColumnarBatch p now cancelled later query minEpoch with
  | Ok entries => Ok (record <$> entries)
  | Err e => Err e
  end.

(** ** Predicates before the limit *)

Section Where.
Variable isNaN : string → bool.

(** [collectRangeEntries] with the context it checks per candidate. *)
Definition collectRangeWithContext (p : partition) (now : Z) (cancelled : bool) (query : Query) (plan : rangeCandidatePlan) :
    list recordEntry * option hermes_error :=
  if (length (plSnapshot plan) =? 0)%nat || (plEstimate plan =? 0) then ([], None)
  else
    match planForEach (plKind plan) (plSnapshot plan) (POp (plPredicate plan)) (plOperand plan), cancelled with
    | _ :: _, true => ([], Some ErrContext)
    | _, _ => (collectRangeEntries p now query plan, None)
    end.

(** The limit is lifted while collecting: it applies to filtered rows. *)
Definition getColumnarBatchWhere (p : partition) (now : Z) (cancelled later : bool) (query : Query) (ps : list ColumnPredicate)
    (minEpoch : Z) : res hermes_error (list recordEntry) :=
  if negb (checkFence p minEpoch) then Err ErrFenceNotSatisfied
  else
    let query := normalizeQuery query in
    if String.eqb (QOrganizationID query) "" then Err ErrInvalidEvent
    else
      let collectQuery := mkQ (QOrganizationID query) 0 (Plan query) in
      let '(entries, err) :=
        match bestRangeCandidatePlan p collectQuery ps with
        | Some plan => collectRangeWithContext p now cancelled collectQuery plan
        | None => collectRecordEntries p now cancelled later collectQuery
        end in
      match err with
      | Some e => Err e
      | None => Ok (sortAndLimitEntries (filterEntriesInPlace parseFloat isNaN entries ps) query)
      end.

End Where.

(** ** Pages *)

Definition considerOrdered (selected : option indexSnapshot) (snapshot : indexSnapshot) : option indexSnapshot :=
  if len snapshot =? 0 then selected
  else
    match selected with
    | None => Some snapshot
    | Some s => if len snapshot <? len s then Some snapshot else selected
    end.

Definition orderedCandidateIndex (p : partition) (query : Query) : option indexSnapshot :=
  let scope := queryScope p query in
  foldl considerOrdered None
    (scopeSnapshot (registry p) scope ::
     map (fieldSnapshot (registry p) scope) (filter (λ f, isIndexedField p (QField f) = true) (plannedFilters (Plan query)))).

(** The walk of [pageMutations]: the entries it emits, the version of the last
    one, whether the limit stopped it, and the context error. *)
Fixpoint pageWalk (p : partition) (now : Z) (query : Query) (cancelled : bool) (since before : Z) (l : list recordOrderEntry)
    (out : list recordEntry) (cursor : Z) : list recordEntry * Z * bool * bool :=
  match l with
  | [] => (out, cursor, false, false)
  | o :: rest =>
      if (0 <? before) && (before <=? oversion o) then pageWalk p now query cancelled since before rest out cursor
      else if oversion o <=? since then (out, cursor, false, false)
      else
        match recordForOrderEntry p now o with
        | None => pageWalk p now query cancelled since before rest out cursor
        | Some e =>
            if negb (recordMatches (record e) (spec p) query) then pageWalk p now query cancelled since before rest out cursor
            else if cancelled then (out, cursor, false, true)
            else
              let out := out ++ [e] in
              if (0 <? QueryLimit query) && (QueryLimit query <=? Z.of_nat (length out)) then (out, version e, true, false)
              else pageWalk p now query cancelled since before rest out (version e)
        end
  end.

(** [pageMutations]; [emit] builds a mutation from an entry. *)
Definition pageMutations {M} (emit : recordEntry → M) (p : partition) (now : Z) (cancelled : bool) (query : Query)
    (minEpoch since before : Z) : res hermes_error (Snapshot M) :=
  if negb (checkFence p minEpoch) then Err ErrFenceNotSatisfied
  else
    let query := normalizeQuery query in
    if String.eqb (QOrganizationID query) "" then Err ErrInvalidEvent
    else
      match orderedCandidateIndex p query with
      | None => Ok (mkSnapshot [] (epoch p) (watermark p) 0 false)
      | Some ordered =>
          let '(out, cursor, more, err) := pageWalk p now query cancelled since before (forEachOrderDesc ordered) [] 0 in
          if (err : bool) then Err ErrContext
          else Ok (mkSnapshot (emit <$> out) (epoch p) (watermark p) (if (more : bool) then cursor else 0) more)
      end.

(** The mutations of a snapshot page, with or without vectors. *)
Definition upsertMutation {double} (ParseFloat : string → option double) (includeVectors : bool) (e : recordEntry) :
    RecordMutation double :=
  mutationFromRecord ParseFloat (record e) OperationUpsert (version e) includeVectors.

(** ** What should be listed *)

(** The entry of a key when it answers the query. *)
Definition answer (p : partition) (now : Z) (query : Query) (k : string) : option recordEntry :=
  match liveEntry p now k with
  | Some e => if recordMatches (record e) (spec p) query then Some e else None
  | None => None
  end.

Definition orderAnswer (p : partition) (now : Z) (query : Query) (o : recordOrderEntry) : option recordEntry :=
  match recordForOrderEntry p now o with
  | Some e => if recordMatches (record e) (spec p) query then Some e else None
  | None => None
  end.

Definition matchingEntries (p : partition) (now : Z) (query : Query) : list recordEntry :=
  (map_to_list (matchingRecords p now query)).*2.

Lemma key_walk_spec p now query keys : ∀ c,
  keyWalk p now query false keys c = (foldl (add compareColumnarEntries) c (omap (answer p now query) keys), false).
Proof.
  induction keys as [|k keys IH]; intros c; [done|]. cbn [keyWalk accept omap list_omap]. unfold answer at 1.
  destruct (liveEntry p now k) as [e|]; [destruct (recordMatches _ _ _)|]; by rewrite IH.
Qed.

Lemma omap_nodup {A B} (f : A → option B) l : NoDup l → (∀ a a' b, f a = Some b → f a' = Some b → a = a') → NoDup (omap f l).
Proof.
  intros Hn Hf. induction Hn as [|a l Ha Hn IH]; [constructor|]. cbn [omap list_omap]. destruct (f a) as [b|] eqn:E; [|done].
  constructor; [|done]. intros (a' & Hin & E')%list_elem_of_omap. by rewrite (Hf _ _ _ E E') in Ha.
Qed.

Lemma add_room {A} (cmp : A → A → Z) c e : Z.of_nat (length (centries c)) < climit c →
  Z.of_nat (length (centries (add cmp c e))) = Z.of_nat (length (centries c)) + 1 ∧ climit (add cmp c e) = climit c.
Proof.
  intros Hl. unfold add. rewrite (proj2 (Z.leb_gt _ _)) by lia. rewrite (proj2 (Z.ltb_lt _ _) Hl). split; [|done]. cbn [centries].
  rewrite (Permutation_length (sift_up_perm _ _ _ _)), length_app. cbn. lia.
Qed.

Lemma ordered_walk_spec p now query l : ∀ c, climit c = QueryLimit query → Z.of_nat (length (centries c)) ≤ climit c →
  orderedWalk p now query false l c =
  (foldl (add compareColumnarEntries) c
     (take (Z.to_nat (climit c - Z.of_nat (length (centries c)))) (omap (orderAnswer p now query) l)), false).
Proof.
  induction l as [|o l IH]; intros c Hc Hl; cbn [orderedWalk omap list_omap]; [by rewrite take_nil|]. rewrite <- Hc.
  destruct (Z.leb_spec (climit c) (Z.of_nat (length (centries c)))) as [Hfull|Hroom].
  { replace (climit c - Z.of_nat (length (centries c))) with 0 by lia. done. }
  cbn [accept]. unfold orderAnswer at 1. destruct (recordForOrderEntry p now o) as [e|]; [|by rewrite IH].
  destruct (recordMatches (record e) (spec p) query); [|by rewrite IH].
  destruct (add_room compareColumnarEntries c e Hroom) as [Hlen Hlim].
  rewrite IH by (rewrite ?Hlim, ?Hlen; lia). rewrite Hlim, Hlen.
  replace (Z.to_nat (climit c - Z.of_nat (length (centries c)))) with
    (S (Z.to_nat (climit c - (Z.of_nat (length (centries c)) + 1)))) by lia. done.
Qed.

Lemma candidates_eta {A} (c : entryCandidates A) : c = mkCandidates (centries c) (climit c).
Proof. by destruct c. Qed.

Lemma fold_add_limit {A} (cmp : A → A → Z) xs : ∀ c, climit (foldl (add cmp) c xs) = climit c.
Proof.
  induction xs as [|x xs IH]; intros c; [done|]. cbn [foldl]. rewrite IH. unfold add, restoreRoot. by repeat case_match.
Qed.

Lemma answers_iff p now query k : answersQuery p now query k = true ↔ is_Some (answer p now query k).
Proof.
  unfold answersQuery, answer. destruct (liveEntry p now k); [destruct (recordMatches _ _ _)|]; split; try done; by intros [? ?].
Qed.

Lemma answer_visible p now query k e : answer p now query k = Some e → visible p !! k = Some e.
Proof.
  unfold answer, liveEntry. fold (visible p). destruct (visible p !! k) as [e'|]; [|done].
  destruct (expired now e'); [done|]. destruct (recordMatches _ _ _); congruence.
Qed.

Lemma matching_lookup p now query k e : matchingRecords p now query !! k = Some e ↔ answer p now query k = Some e.
Proof.
  unfold matchingRecords. rewrite map_lookup_filter_Some. cbn. rewrite answers_iff. split.
  - intros [He [e' Ha]]. pose proof (answer_visible _ _ _ _ _ Ha). congruence.
  - intros Ha. split; [by eapply answer_visible|by eexists].
Qed.

(** Records of one query with equal comparison are one record. *)
Definition distinctEntries (l : list recordEntry) : Prop :=
  ∀ a b, a ∈ l → b ∈ l → compareColumnarEntries a b ≤ 0 → compareColumnarEntries b a ≤ 0 → a = b.

Lemma newest_elem l k v : newest l k = Some v → mkOrder k v ∈ l.
Proof.
  induction l as [|o l IH]; [done|]. rewrite newest_cons. case_decide as Hd.
  - intros [= <-]. subst k. destruct o. apply list_elem_of_here.
  - intros Hn. apply list_elem_of_further. by apply IH.
Qed.

Lemma order_answer_spec p now query o e : orderAnswer p now query o = Some e ↔ answer p now query (okey o) = Some e ∧ version e = oversion o.
Proof.
  unfold orderAnswer, recordForOrderEntry, answer. destruct (liveEntry p now (okey o)) as [x|]; [|naive_solver].
  destruct (Z.eqb_spec (version x) (oversion o)); destruct (recordMatches (record x) (spec p) query); naive_solver.
Qed.

Lemma order_answers_sorted p now query l : StronglySorted newerFirst l →
  StronglySorted (λ a b, version b < version a) (omap (orderAnswer p now query) l).
Proof.
  induction 1 as [|o l Hs IH Hf]; [constructor|]. cbn [omap list_omap].
  destruct (orderAnswer p now query o) as [e|] eqn:He; [|done]. constructor; [done|]. apply Forall_forall.
  intros x (o' & Hin & Hx)%list_elem_of_omap. rewrite Forall_forall in Hf. specialize (Hf o' Hin).
  apply order_answer_spec in He as [_ ->], Hx as [_ ->]. exact Hf.
Qed.

Section Stable.
Context {Hok : BitmapHooksOk H}.
Variable p : partition.
Hypothesis Hst : stable parseFloat p.
Variable now : Z.
Variable query : Query.
Hypothesis Hcount : 0 ≤ HermesKeys.count (Plan query).
Hypothesis Htrim : TrimSpace (QOrganizationID query) = QOrganizationID query.
Hypothesis Horg : QOrganizationID query ≠ "".

Lemma visible_key k e : visible p !! k = Some e → k = keyOf (record e).
Proof using Hst. intros He. by apply (ac_records _ (st_acc _ _ Hst)). Qed.

Lemma matching_entries_elem e : e ∈ matchingEntries p now query ↔ answer p now query (keyOf (record e)) = Some e.
Proof using Hst.
  unfold matchingEntries. rewrite list_elem_of_fmap. split.
  - intros ([k e'] & -> & Hin). apply elem_of_map_to_list, matching_lookup in Hin. cbn [snd].
    by rewrite <- (visible_key _ _ (answer_visible _ _ _ _ _ Hin)).
  - intros Ha. exists (keyOf (record e), e). split; [done|]. by apply elem_of_map_to_list, matching_lookup.
Qed.

Lemma matching_entries_nodup : NoDup (matchingEntries p now query).
Proof using Hst.
  unfold matchingEntries. apply NoDup_fmap_2_strong; [|apply NoDup_map_to_list]. intros [k1 e1] [k2 e2] H1 H2 Heq. cbn in Heq. subst e2.
  apply elem_of_map_to_list, matching_lookup, answer_visible, visible_key in H1, H2. congruence.
Qed.

Lemma matching_distinct l : (∀ e, e ∈ l → e ∈ matchingEntries p now query) → distinctEntries l.
Proof using Hst Hcount Htrim Horg.
  intros Hl a b Ha%Hl Hb%Hl H1 H2. assert (compareColumnarEntries a b = 0) as Hz.
  { pose proof (cmp_flip (cmp := compareColumnarEntries) a b). pose proof (cmp_flip (cmp := compareColumnarEntries) b a). lia. }
  apply then_compare_zero in Hz as [_ [_ Hid%compare_str_zero]%then_compare_zero].
  apply matching_entries_elem in Ha, Hb.
  assert (∀ e, answer p now query (keyOf (record e)) = Some e → scopeOf (record e) = queryScope p query) as Hsc.
  { intros e He. destruct (answers_spec p now query (keyOf (record e)) (st_spec _ _ Hst) (st_acc _ _ Hst) Hcount Htrim Horg) as (e' & He' & Hs & _).
    - apply answers_iff. by eexists.
    - apply answer_visible in He. congruence. }
  pose proof (Hsc a Ha) as Ra. pose proof (Hsc b Hb) as Rb. rewrite <- Rb in Ra.
  assert (keyOf (record a) = keyOf (record b)) as Hk.
  { unfold scopeOf, scopeKey in Ra. unfold keyOf. apply record_key_inj. injection Ra as -> -> ->. by rewrite Hid. }
  congruence.
Qed.

(** Any candidate list collects the matching entries. *)
Lemma candidates_collect keys : NoDup keys → (∀ k, answersQuery p now query k = true → k ∈ keys) →
  omap (answer p now query) keys ≡ₚ matchingEntries p now query.
Proof using Hst.
  intros Hn Hc. apply NoDup_Permutation; [|apply matching_entries_nodup|].
  - apply omap_nodup; [done|]. intros k k' e H1%answer_visible%visible_key H2%answer_visible%visible_key. congruence.
  - intros e. rewrite list_elem_of_omap, matching_entries_elem. split.
    + intros (k & _ & Ha). by rewrite <- (visible_key _ _ (answer_visible _ _ _ _ _ Ha)).
    + intros Ha. exists (keyOf (record e)). split; [|done]. apply Hc, answers_iff. by eexists.
Qed.

(** ** The ordered walk *)

(** The order entries of an index of the query: newest first, with an entry for
    every answer. *)
Lemma cell_order c : columnarUnordered (registry p) = false → queryCell p query c →
  StronglySorted newerFirst (forEachOrderDesc (snapshotOf (cells (registry p)) c)) ∧
  ∀ k e, answer p now query k = Some e →
    mkOrder k (version e) ∈ forEachOrderDesc (snapshotOf (cells (registry p)) c) ∧ len (snapshotOf (cells (registry p)) c) ≠ 0.
Proof using Hst Hcount Htrim Horg.
  intros Hu Hc. pose proof (st_cells _ _ Hst c) as Hs.
  pose proof (proj1 (op_cells _ _ _ (st_order _ _ Hst Hu) c)) as Hsort. unfold changeOf in Hsort. rewrite lookup_empty in Hsort. cbn in Hsort.
  split; [exact Hsort|]. intros k e Ha.
  assert (cellMap (spec p) c (visible p) !! k = Some (version e)) as Hcell.
  { assert (answersQuery p now query k = true) as Hq by (apply answers_iff; by eexists).
    destruct (answer_in_cell parseFloat p Hst now query Hcount Htrim Horg k c Hq Hc) as [v Hv].
    unfold cellMap in *. rewrite lookup_omap in *. rewrite (answer_visible _ _ _ _ _ Ha) in *. cbn in *. by case_decide. }
  split; [apply newest_elem; by eapply snap_ok_newest|]. pose proof (snap_ok_len _ _ Hs). intros Hz.
  assert (size (cellMap (spec p) c (visible p)) = 0%nat) as Hz'%map_size_empty_inv by lia. by rewrite Hz', lookup_empty in Hcell.
Qed.

(** An order list that serves the query. *)
Definition servesOrder (l : list recordOrderEntry) : Prop :=
  StronglySorted newerFirst l ∧ ∀ k e, answer p now query k = Some e → mkOrder k (version e) ∈ l.

Lemma candidate_order : columnarUnordered (registry p) = false → servesOrder (forEachOrderDesc (candidateIndex p query)).
Proof using Hst Hcount Htrim Horg.
  intros Hu. destruct (candidate_index_cell p query) as (c & Hc & ->). destruct (cell_order c Hu Hc) as [H1 H2].
  destruct (Z.eqb_spec (len (snapshotOf (cells (registry p)) c)) 0) as [Hz|_].
  - split; [constructor|]. intros k e Ha. by destruct (H2 k e Ha).
  - split; [exact H1|]. intros k e Ha. by apply (H2 k e Ha).
Qed.

Lemma serves_collect L : servesOrder L → let l := omap (orderAnswer p now query) L in
  l ≡ₚ matchingEntries p now query ∧ StronglySorted (λ a b, version b < version a) l.
Proof using Hst.
  intros [Hs Hin] l. pose proof (order_answers_sorted p now query _ Hs) as Hv. fold l in Hv. split; [|done].
  apply NoDup_Permutation; [|by apply matching_entries_nodup|].
  - induction Hv as [|e l' _ IH Hf]; constructor; [|done]. intros He. rewrite Forall_forall in Hf. specialize (Hf e He). lia.
  - intros e. unfold l. rewrite list_elem_of_omap, matching_entries_elem. split.
    + intros (o & _ & [Ha _]%order_answer_spec). by rewrite <- (visible_key _ _ (answer_visible _ _ _ _ _ Ha)).
    + intros Ha. exists (mkOrder (keyOf (record e)) (version e)). split; [by apply Hin|]. by apply order_answer_spec.
Qed.

(** While the order proof holds, falling versions are canonical order. *)
Lemma versions_canonical l : columnarUnordered (registry p) = false → (∀ e, e ∈ l → e ∈ matchingEntries p now query) →
  StronglySorted (λ a b, version b < version a) l → StronglySorted (notAfter compareColumnarEntries) l.
Proof using Hst.
  intros Hu Hel Hv. assert (∀ e, e ∈ l → ∃ k, visible p !! k = Some e) as Hvis.
  { intros e He%Hel%matching_entries_elem. eexists. by eapply answer_visible. }
  clear Hel. induction Hv as [|e l' _ IH Hf]; constructor.
  { apply IH. intros x Hx. apply Hvis. by apply list_elem_of_further. }
  rewrite Forall_forall in *. intros x Hx. specialize (Hf x Hx). destruct (Hvis e) as [k Hk]; [apply list_elem_of_here|].
  destruct (Hvis x) as [k' Hk']; [by apply list_elem_of_further|].
  pose proof (op_times _ _ _ (st_order _ _ Hst Hu) k' k x e Hk' Hk Hf) as Ht.
  unfold notAfter, compareColumnarEntries, thenCompare, compareZ.
  destruct (Z.compare_spec (UpdatedAt (record x)) (UpdatedAt (record e))); cbn; [|lia|lia].
  destruct (Z.compare_spec (version x) (version e)); cbn; lia.
Qed.

Lemma matching_distinct_self : distinctEntries (matchingEntries p now query).
Proof using Hst Hcount Htrim Horg. by apply matching_distinct. Qed.

(** A scan over complete candidates, then the sort and the limit. *)
Lemma scan_listed keys : NoDup keys → (∀ k, answersQuery p now query k = true → k ∈ keys) →
  ∃ es, walkResult (keyWalk p now query false keys (mkCandidates [] (QueryLimit query))) = (es, None) ∧
    sortAndLimitEntries es query = limitList (QueryLimit query) (sortFunc compareColumnarEntries (matchingEntries p now query)).
Proof using Hst Hcount Htrim Horg.
  intros Hn Hc. rewrite key_walk_spec. eexists. split; [reflexivity|]. unfold sortAndLimitEntries. cbn [fst].
  pose proof (candidates_collect keys Hn Hc) as Hp.
  assert (distinctEntries (omap (answer p now query) keys)) as Hd by (apply matching_distinct; intros e; by rewrite Hp).
  rewrite (select_sort compareColumnarEntries _ _ Hd). f_equal.
  apply (sort_unique compareColumnarEntries); [exact Hd|by apply sort_sorted, _|]. by rewrite sort_perm, Hp.
Qed.

(** The ordered walk, then the sort and the limit. *)
Lemma ordered_listed : 0 < QueryLimit query → columnarUnordered (registry p) = false →
  ∃ es, orderedWalk p now query false (forEachOrderDesc (candidateIndex p query)) (mkCandidates [] (QueryLimit query)) =
    (mkCandidates es (QueryLimit query), false) ∧
    sortAndLimitEntries es query = limitList (QueryLimit query) (sortFunc compareColumnarEntries (matchingEntries p now query)).
Proof using Hst Hcount Htrim Horg.
  intros Hl Hu. rewrite ordered_walk_spec by (cbn; lia). cbn [centries climit length]. rewrite Z.sub_0_r.
  destruct (serves_collect _ (candidate_order Hu)) as (Hp & Hv). set (l := omap _ _) in *.
  assert (∀ e, e ∈ l → e ∈ matchingEntries p now query) as Hsub by (intros e; by rewrite Hp).
  pose proof (versions_canonical l Hu Hsub Hv) as Hs. pose proof (matching_distinct l Hsub) as Hd.
  assert (∀ e, e ∈ take (Z.to_nat (QueryLimit query)) l → e ∈ l) as Htk by (intros e (? & ? & _)%elem_of_take; by eapply list_elem_of_lookup_2).
  eexists. split; [rewrite (candidates_eta (foldl _ _ _)), fold_add_limit; reflexivity|]. unfold sortAndLimitEntries.
  rewrite (sort_unique compareColumnarEntries (matchingEntries p now query) l matching_distinct_self Hs Hp).
  rewrite (select_sort compareColumnarEntries) by (intros a b Ha%Htk Hb%Htk; by apply Hd).
  rewrite (sort_unique compareColumnarEntries _ (take (Z.to_nat (QueryLimit query)) l)); [|intros a b Ha%Htk Hb%Htk; by apply Hd| |done].
  2: { eapply sorted_sublist; [apply sublist_take|done]. }
  unfold limitList. rewrite (proj2 (Z.ltb_lt _ _) Hl). cbn [andb]. rewrite length_take.
  destruct (Z.ltb_spec (QueryLimit query) (Z.of_nat (length l))).
  - rewrite (proj2 (Z.ltb_ge _ _)) by lia. done.
  - rewrite (proj2 (Z.ltb_ge _ _)) by lia. apply take_ge. lia.
Qed.

Lemma collect_listed later : saturated (getScope (bitmaps (registry p)) (queryScope p query)) = false →
  ∃ es, collectRecordEntries p now false later query = (es, None) ∧
    sortAndLimitEntries es query = limitList (QueryLimit query) (sortFunc compareColumnarEntries (matchingEntries p now query)).
Proof using Hok Hst Hcount Htrim Horg.
  intros Hsat. unfold collectRecordEntries.
  set (scan := match bitmapCandidates p query with Some _ => _ | None => _ end).
  assert (∃ es, scan = (es, None) ∧ sortAndLimitEntries es query =
    limitList (QueryLimit query) (sortFunc compareColumnarEntries (matchingEntries p now query))) as Hall.
  { unfold scan. destruct (bitmapCandidates p query) as [keys|] eqn:Hb; apply scan_listed.
    1,2: by eapply bitmap_candidates_complete. all: by eapply candidate_index_complete. }
  destruct (Z.ltb_spec 0 (QueryLimit query)) as [Hl|]; [|exact Hall].
  destruct (columnarUnordered (registry p)) eqn:Hu; [exact Hall|]. cbn [negb andb].
  destruct (ordered_listed Hl Hu) as (es & -> & Hes). cbn [snd orb]. destruct later; cbn [negb]; [exact Hall|]. by exists es.
Qed.

(** Without a limit everything is collected. *)
Lemma collect_exact later : QueryLimit query = 0 → saturated (getScope (bitmaps (registry p)) (queryScope p query)) = false →
  ∃ es, collectRecordEntries p now false later query = (es, None) ∧ es ≡ₚ matchingEntries p now query.
Proof using Hok Hst Hcount Htrim Horg.
  intros Hz Hsat. unfold collectRecordEntries. rewrite Hz. cbn [Z.ltb Z.compare andb].
  assert (∀ keys, NoDup keys → (∀ k, answersQuery p now query k = true → k ∈ keys) →
    ∃ es, walkResult (keyWalk p now query false keys (mkCandidates [] 0)) = (es, None) ∧ es ≡ₚ matchingEntries p now query) as Hscan.
  { intros keys Hn Hc. rewrite key_walk_spec. eexists. split; [reflexivity|]. cbn [fst].
    rewrite (proj1 (unbounded_adds _ _ (mkCandidates [] 0) ltac:(done))). by apply candidates_collect. }
  destruct (bitmapCandidates p query) as [keys|] eqn:Hb; apply Hscan.
  1,2: by eapply bitmap_candidates_complete. all: by eapply candidate_index_complete.
Qed.

(** *** Pages *)

(** A page covers the versions after [since] and before [before], when given. *)
Definition inWindow (since before : Z) (e : recordEntry) : bool :=
  (since <? version e) && ((before <=? 0) || (version e <? before)).

Definition newestVersionFirst (a b : recordEntry) : Z := compareZ (version b) (version a).

(** The records of the query, newest version first. *)
Definition byVersion : list recordEntry := sortFunc newestVersionFirst (matchingEntries p now query).

Lemma ordered_index_cell : match orderedCandidateIndex p query with
  | Some s => ∃ c, queryCell p query c ∧ s = snapshotOf (cells (registry p)) c
  | None => len (snapshotOf (cells (registry p)) (queryScope p query, None)) = 0
  end.
Proof using.
  unfold orderedCandidateIndex. cbn [foldl]. set (first := considerOrdered None _).
  assert (∀ l s0, (∀ f, f ∈ l → f ∈ plannedFilters (Plan query) ∧ QField f ∈ IndexedFields (spec p)) →
    (∀ x, s0 = Some x → ∃ c, queryCell p query c ∧ x = snapshotOf (cells (registry p)) c) →
    match foldl considerOrdered s0 (map (fieldSnapshot (registry p) (queryScope p query)) l) with
    | Some x => ∃ c, queryCell p query c ∧ x = snapshotOf (cells (registry p)) c
    | None => s0 = None
    end) as Hfold.
  { induction l as [|f l IH]; intros s0 Hl Hs0; [destruct s0; [by apply Hs0|done]|]. cbn [map foldl].
    destruct (Hl f (list_elem_of_here f l)) as [Hp Hix].
    assert (∃ c, queryCell p query c ∧ fieldSnapshot (registry p) (queryScope p query) f = snapshotOf (cells (registry p)) c) as Hf.
    { exists (queryScope p query, Some (QField f, QKind f, QValue f)). split; [right; by exists f|done]. }
    specialize (IH (considerOrdered s0 (fieldSnapshot (registry p) (queryScope p query) f))).
    assert (∀ x, considerOrdered s0 (fieldSnapshot (registry p) (queryScope p query) f) = Some x →
      ∃ c, queryCell p query c ∧ x = snapshotOf (cells (registry p)) c) as Hnext.
    { intros x. unfold considerOrdered. destruct (_ =? 0); [apply Hs0|]. destruct s0 as [y|]; [destruct (_ <? _)|]; naive_solver. }
    specialize (IH (λ g Hg, Hl g (list_elem_of_further g f l Hg)) Hnext).
    destruct (foldl considerOrdered _ _); [done|]. unfold considerOrdered in IH. destruct (_ =? 0); [done|].
    destruct s0; [by destruct (_ <? _)|done]. }
  specialize (Hfold (filter (λ f, isIndexedField p (QField f) = true) (plannedFilters (Plan query))) first).
  destruct (foldl considerOrdered first _) as [x|].
  - apply Hfold.
    + intros f [Hb%bool_decide_eq_true Hin]%list_elem_of_filter. done.
    + intros y. unfold first, considerOrdered. destruct (_ =? 0); [done|]. intros [= <-]. eexists. split; [by left|done].
  - assert (first = None) as Hn.
    { apply Hfold; [intros f [Hb%bool_decide_eq_true Hin]%list_elem_of_filter; done|].
      intros y. unfold first, considerOrdered. destruct (_ =? 0); [done|]. intros [= <-]. eexists. split; [by left|done]. }
    unfold first, considerOrdered in Hn. destruct (Z.eqb_spec (len (scopeSnapshot (registry p) (queryScope p query))) 0); done.
Qed.

(** What a walk emits: a prefix of the window; all of it unless the limit
    stopped the walk at the version of the last record. *)
Definition pageFrom (out all : list recordEntry) (r : list recordEntry * Z * bool * bool) : Prop :=
  let '(out', cursor, more, err) := r in
  err = false ∧ ∃ got rest, all = got ++ rest ∧ out' = out ++ got ∧
  if (more : bool) then 0 < QueryLimit query ∧ Z.of_nat (length out') = QueryLimit query ∧ (∃ got' e, got = got' ++ [e] ∧ cursor = version e)
  else rest = [].

Lemma page_from_cons out e all r : pageFrom (out ++ [e]) all r → pageFrom out (e :: all) r.
Proof using.
  destruct r as [[[out' cursor] more] err]. intros (He & got & rest & -> & -> & Hr). split; [done|].
  exists (e :: got), rest. split_and!; [done|by rewrite <- app_assoc|]. destruct more; [|done].
  destruct Hr as (H1 & H2 & got' & x & -> & ->). split_and!; [done|done|]. by exists (e :: got'), x.
Qed.

Definition windowOf (since before : Z) (l : list recordEntry) : list recordEntry :=
  filter (λ e, inWindow since before e = true) l.

Lemma window_none since before l : (∀ e, e ∈ l → version e ≤ since) → windowOf since before l = [].
Proof using.
  intros Hl. apply filter_none. intros e He. unfold inWindow. rewrite (proj2 (Z.ltb_ge _ _)) by (by apply Hl). done.
Qed.

Lemma window_cons since before e l : windowOf since before (e :: l) =
  if inWindow since before e then e :: windowOf since before l else windowOf since before l.
Proof using. unfold windowOf. rewrite filter_cons. by destruct (inWindow since before e). Qed.

(** One step of a walk that is not cancelled. *)
Lemma page_walk_cons since before o l out cursor : pageWalk p now query false since before (o :: l) out cursor =
  let next := pageWalk p now query false since before l in
  if (0 <? before) && (before <=? oversion o) then next out cursor
  else if oversion o <=? since then (out, cursor, false, false)
  else
    match orderAnswer p now query o with
    | None => next out cursor
    | Some e =>
        if (0 <? QueryLimit query) && (QueryLimit query <=? Z.of_nat (length (out ++ [e]))) then (out ++ [e], version e, true, false)
        else next (out ++ [e]) (version e)
    end.
Proof using.
  cbn [pageWalk]. unfold orderAnswer. destruct (recordForOrderEntry p now o) as [e|]; [|done].
  by destruct (recordMatches (record e) (spec p) query).
Qed.

Lemma page_walk_spec since before l : ∀ out cursor, StronglySorted newerFirst l →
  (0 < QueryLimit query → Z.of_nat (length out) < QueryLimit query) →
  pageFrom out (windowOf since before (omap (orderAnswer p now query) l)) (pageWalk p now query false since before l out cursor).
Proof using.
  induction l as [|o l IH]; intros out cursor Hs Hroom.
  { split; [done|]. exists [], []. split_and!; [done|by rewrite app_nil_r|done]. }
  apply StronglySorted_inv in Hs as [Hs Hf]. rewrite Forall_forall in Hf. rewrite page_walk_cons. cbv zeta.
  assert (windowOf since before (omap (orderAnswer p now query) (o :: l)) =
    match orderAnswer p now query o with
    | Some e => if inWindow since before e then e :: windowOf since before (omap (orderAnswer p now query) l)
                else windowOf since before (omap (orderAnswer p now query) l)
    | None => windowOf since before (omap (orderAnswer p now query) l)
    end) as Hwin by (cbn [omap list_omap]; destruct (orderAnswer p now query o); [apply window_cons|done]).
  destruct ((0 <? before) && (before <=? oversion o)) eqn:Hskip; [|destruct (Z.leb_spec (oversion o) since) as [Hsince|Hsince]].
  - apply andb_true_iff in Hskip as [Hb%Z.ltb_lt Hbo%Z.leb_le]. rewrite Hwin.
    destruct (orderAnswer p now query o) as [e|] eqn:Ho; [|by apply IH]. apply order_answer_spec in Ho as [_ Hver].
    unfold inWindow at 1. rewrite Hver, (proj2 (Z.leb_gt before 0)), (proj2 (Z.ltb_ge (oversion o) before)), andb_false_r by lia. by apply IH.
  - rewrite window_none; [split; [done|]; exists [], []; split_and!; [done|by rewrite app_nil_r|done]|].
    intros e (o' & [->|Hin]%elem_of_cons & [_ ->]%order_answer_spec)%list_elem_of_omap; [lia|].
    specialize (Hf o' Hin). unfold newerFirst in Hf. lia.
  - rewrite Hwin. destruct (orderAnswer p now query o) as [e|] eqn:Ho; [|by apply IH]. apply order_answer_spec in Ho as [_ Hver].
    assert (inWindow since before e = true) as ->.
    { unfold inWindow. rewrite Hver, (proj2 (Z.ltb_lt since _) Hsince). cbn [andb]. apply andb_false_iff in Hskip.
      rewrite orb_true_iff, Z.leb_le, Z.ltb_lt. destruct Hskip as [Hk%Z.ltb_ge|Hk%Z.leb_gt]; lia. }
    destruct (Z.ltb_spec 0 (QueryLimit query)) as [Hl|Hl];
      [destruct (Z.leb_spec (QueryLimit query) (Z.of_nat (length (out ++ [e])))) as [Hfull|Hfull]|]; cbn [andb];
      [|apply page_from_cons, IH; [done|lia]..].
    split; [done|]. exists [e], (windowOf since before (omap (orderAnswer p now query) l)).
    split_and!; [done|done|done| |by exists [], e]. rewrite length_app in *. cbn [length] in *. specialize (Hroom Hl). lia.
Qed.

#[local] Instance newestVersionFirst_ok : CompareOk newestVersionFirst.
Proof using. apply (compare_rev (λ a b, compareZ (version a) (version b))), (compare_on version), _. Qed.

Lemma by_version_order L : columnarUnordered (registry p) = false → servesOrder L →
  byVersion = omap (orderAnswer p now query) L ∧ StronglySorted (λ a b, version b < version a) byVersion.
Proof using Hst.
  intros Hu HL. destruct (serves_collect L HL) as [Hp Hv].
  assert (byVersion = omap (orderAnswer p now query) L) as Heq; [|by rewrite Heq].
  apply (sort_unique newestVersionFirst); [| |done].
  - intros a b Ha%matching_entries_elem%answer_visible Hb%matching_entries_elem%answer_visible H1 H2.
    assert (version a = version b) as Heq.
    { unfold newestVersionFirst, compareZ in *. destruct (Z.compare_spec (version b) (version a)), (Z.compare_spec (version a) (version b));
        cbn in *; lia. }
    pose proof (op_versions _ _ _ (st_order _ _ Hst Hu) _ _ _ _ Ha Hb Heq) as Hk. congruence.
  - clear Hp. induction Hv as [|e l _ IH Hf]; [constructor|]. constructor; [done|]. eapply Forall_impl; [exact Hf|]. intros x Hx. cbn in Hx.
    unfold notAfter, newestVersionFirst, compareZ. destruct (Z.compare_spec (version x) (version e)); cbn; lia.
Qed.

(** Below the last version of a page lies exactly the rest of its window. *)
Lemma window_rest since before l got e rest : 0 ≤ since → StronglySorted (λ a b, version b < version a) l →
  windowOf since before l = (got ++ [e]) ++ rest → windowOf since (version e) l = rest.
Proof using.
  intros Hsn Hs Hw. assert (e ∈ windowOf since before l) as [He _]%list_elem_of_filter.
  { rewrite Hw. apply elem_of_app. left. apply elem_of_app. right. apply list_elem_of_here. }
  unfold inWindow in He. apply andb_true_iff in He as [He1%Z.ltb_lt He2]. apply orb_true_iff in He2. rewrite Z.leb_le, Z.ltb_lt in He2.
  assert (∀ x, inWindow since (version e) x = inWindow since before x && (version x <? version e)) as Hin.
  { intros x. unfold inWindow. rewrite (proj2 (Z.leb_gt (version e) 0)) by lia. cbn [orb].
    destruct (Z.ltb_spec since (version x)), (Z.ltb_spec (version x) (version e)); cbn; rewrite ?andb_false_r; try done.
    symmetry. rewrite andb_true_r, orb_true_iff, Z.leb_le, Z.ltb_lt. lia. }
  assert (windowOf since (version e) l = filter (λ x, (version x <? version e) = true) (windowOf since before l)) as ->.
  { unfold windowOf. rewrite list_filter_filter. apply list_filter_iff. intros x. rewrite Hin, andb_true_iff. tauto. }
  assert (StronglySorted (λ a b, version b < version a) ((got ++ [e]) ++ rest)) as Hs'.
  { rewrite <- Hw. eapply sorted_sublist; [apply sublist_filter|done]. }
  rewrite Hw, filter_app, filter_app. apply StronglySorted_app in Hs' as (H1 & H2 & _). apply StronglySorted_app in H2 as (H3 & _ & _).
  rewrite (filter_none _ got), (filter_none _ [e]), filter_all; [done|..].
  - intros x Hx. apply Z.ltb_lt, H1; [apply elem_of_app; right; apply list_elem_of_here|done].
  - intros x ->%list_elem_of_singleton. rewrite Z.ltb_lt. lia.
  - intros x Hx. specialize (H3 x e Hx (list_elem_of_here e [])). rewrite Z.ltb_lt. lia.
Qed.

End Stable.
End Listing.

(** ** Results *)

Lemma filter_in_place_eq {H : BitmapHooks} parseFloat isNaN es ps :
  filterEntriesInPlace parseFloat isNaN es ps = filter (λ e, forallb (λ pr, matchesPredicate parseFloat isNaN pr e) ps = true) es.
Proof. destruct ps; [|done]. cbn. by rewrite filter_all. Qed.

(** C7: a list read returns the canonical answer: in every reachable
    partition, a batch whose fence is satisfied and whose organization is given
    holds exactly the live records that match the query, newest update first,
    then newest version, then identifier, cut off at the limit.  The bounded
    heap, the walk along publication order that skips the scan while the order
    proof holds, the rescan after a concurrent publication and the choice of
    index never change it, as long as the scope's bitmap index has not run over
    its value budget. *)
Theorem list_canonical (H : BitmapHooks) (parseFloat : string → option Z) s sp p now later query minEpoch :
  BitmapHooksOk H → normalizeSpec s = Ok sp → reachable parseFloat sp p →
  minEpoch ≤ epoch p → TrimSpace (QOrganizationID query) ≠ "" → 0 ≤ HermesKeys.count (Plan query) →
  saturated (getScope (bitmaps (registry p)) (queryScope p (normalizeQuery query))) = false →
  getColumnarBatch p now false later query minEpoch =
  Ok (limitList (QueryLimit query) (sortFunc compareColumnarEntries (matchingEntries p now (normalizeQuery query)))).
Proof.
  intros Hok Hn Hr Hfence Horg Hcnt Hsat. pose proof (reachable_stable parseFloat sp p (good_spec _ _ Hn) Hr) as Hst.
  unfold getColumnarBatch, checkFence. rewrite (proj2 (Z.ltb_ge _ _) Hfence). cbn [negb].
  change (QOrganizationID (normalizeQuery query)) with (TrimSpace (QOrganizationID query)).
  rewrite (proj2 (String.eqb_neq _ _) Horg).
  destruct (collect_listed parseFloat p Hst now (normalizeQuery query) Hcnt (trim_space_idemp _) Horg later Hsat) as (es & -> & Hes).
  by rewrite Hes.
Qed.

(** Predicates come before the limit: with predicates a batch holds the
    canonical answer among the live matching records that satisfy every
    predicate, whether its candidates come from a range index or from a scan,
    provided that numbers are stored in canonical form and no range index is
    declared on the reserved name "version". *)
Theorem list_where_canonical (H : BitmapHooks) (parseFloat : string → option Z) (isNaN : string → bool) s sp p now later query ps minEpoch :
  BitmapHooksOk H → normalizeSpec s = Ok sp → reachable parseFloat sp p → "version" ∉ RangeIndexedFields sp →
  (∀ k e, visible p !! k = Some e → canonicalNumbers isNaN (record e)) →
  minEpoch ≤ epoch p → TrimSpace (QOrganizationID query) ≠ "" → 0 ≤ HermesKeys.count (Plan query) →
  saturated (getScope (bitmaps (registry p)) (queryScope p (normalizeQuery query))) = false →
  getColumnarBatchWhere parseFloat isNaN p now false later query ps minEpoch =
  Ok (limitList (QueryLimit query) (sortFunc compareColumnarEntries
    (filter (λ e, forallb (λ pr, matchesPredicate parseFloat isNaN pr e) ps = true) (matchingEntries p now (normalizeQuery query))))).
Proof.
  intros Hok Hn Hr Hver Hcan Hfence Horg Hcnt Hsat. pose proof (reachable_stable parseFloat sp p (good_spec _ _ Hn) Hr) as Hst.
  unfold getColumnarBatchWhere, checkFence. rewrite (proj2 (Z.ltb_ge _ _) Hfence). cbn [negb].
  change (QOrganizationID (normalizeQuery query)) with (TrimSpace (QOrganizationID query)).
  rewrite (proj2 (String.eqb_neq _ _) Horg). set (cq := mkQ (TrimSpace (QOrganizationID query)) 0 (Plan (normalizeQuery query))).
  assert (matchingEntries p now (normalizeQuery query) = matchingEntries p now cq) as -> by reflexivity.
  set (P := λ e, forallb (λ pr, matchesPredicate parseFloat isNaN pr e) ps = true).
  assert (∀ es, es ≡ₚ filter P (matchingEntries p now cq) →
    sortAndLimitEntries es (normalizeQuery query) = limitList (QueryLimit query) (sortFunc compareColumnarEntries (filter P (matchingEntries p now cq))))
    as Hsort.
  { intros es Hp. unfold sortAndLimitEntries. f_equal. apply (sort_unique compareColumnarEntries); [|by apply sort_sorted, _|by rewrite sort_perm, Hp].
    apply (matching_distinct parseFloat p Hst now cq Hcnt (trim_space_idemp _) Horg). intros e. rewrite Hp.
    by intros [_ ?]%list_elem_of_filter. }
  destruct (bestRangeCandidatePlan p cq ps) as [plan|] eqn:Hplan.
  - assert (collectRangeWithContext p now false cq plan = (collectRangeEntries p now cq plan, None)) as ->.
    { unfold collectRangeWithContext, collectRangeEntries. destruct (_ || _); [done|]. by destruct (planForEach _ _ _ _). }
    f_equal. apply Hsort.
    destruct (range_plan_facts H parseFloat isNaN s sp p now cq ps plan Hok Hn Hr Hver Hcan Hcnt (trim_space_idemp _) Horg Hplan) as [Hin Hnd].
    apply NoDup_Permutation; [by eapply NoDup_fmap_1|apply NoDup_filter; by eapply matching_entries_nodup|].
    intros e. rewrite Hin, list_elem_of_filter, (matching_entries_elem parseFloat p Hst now cq). split.
    + intros (k & He & [x Hx]%answers_iff & Hall). split; [done|]. pose proof (answer_visible _ _ _ _ _ Hx) as Hv.
      assert (x = e) as -> by congruence. by rewrite <- (visible_key parseFloat p Hst _ _ He).
    + intros [Hall Ha]. exists (keyOf (record e)). split_and!; [by eapply answer_visible|apply answers_iff; by eexists|done].
  - destruct (collect_exact parseFloat p Hst now cq Hcnt (trim_space_idemp _) Horg later eq_refl Hsat) as (es & -> & Hes).
    f_equal. apply Hsort. by rewrite filter_in_place_eq, Hes.
Qed.

(** C11: pages tile the scope: while the order proof holds, a page read
    returns, newest version first, the live matching records whose version
    lies after [since] and before the cursor; if the limit cut it short, the
    records left are exactly those the next request (with the page's
    [NextCursor]) covers, and otherwise none are left.  Following the cursors
    therefore visits every record once. *)
Theorem snapshot_pages_tile (H : BitmapHooks) (parseFloat : string → option Z) {M} (emit : recordEntry → M) s sp p now query minEpoch since before :
  BitmapHooksOk H → normalizeSpec s = Ok sp → reachable parseFloat sp p → columnarUnordered (registry p) = false →
  minEpoch ≤ epoch p → TrimSpace (QOrganizationID query) ≠ "" → 0 ≤ HermesKeys.count (Plan query) → 0 ≤ since →
  let all b := windowOf since b (byVersion p now (normalizeQuery query)) in
  ∃ page got rest, pageMutations emit p now false query minEpoch since before = Ok page ∧
    all before = got ++ rest ∧ Mutations page = emit <$> got ∧
    if HasMore page then Z.of_nat (length got) = QueryLimit query ∧ rest = all (NextCursor page) else rest = [] ∧ NextCursor page = 0.
Proof.
  intros Hok Hn Hr Hu Hfence Horg Hcnt Hsince all. pose proof (reachable_stable parseFloat sp p (good_spec _ _ Hn) Hr) as Hst.
  unfold pageMutations, checkFence. rewrite (proj2 (Z.ltb_ge _ _) Hfence). cbn [negb].
  change (QOrganizationID (normalizeQuery query)) with (TrimSpace (QOrganizationID query)).
  rewrite (proj2 (String.eqb_neq _ _) Horg). set (q := normalizeQuery query) in *.
  pose proof (cell_order parseFloat p Hst now q Hcnt (trim_space_idemp _) Horg) as Hcell.
  pose proof (ordered_index_cell p q) as Hix. destruct (orderedCandidateIndex p q) as [ordered|].
  - destruct Hix as (c & Hc & ->). destruct (Hcell c Hu Hc) as [Hs Hin].
    assert (servesOrder p now q (forEachOrderDesc (snapshotOf (cells (registry p)) c))) as Hserve
      by (split; [done|]; intros k e Ha; by apply Hin).
    destruct (by_version_order parseFloat p Hst now q _ Hu Hserve) as [Heq Hv].
    pose proof (page_walk_spec p now q since before _ [] 0 Hs ltac:(cbn; lia)) as Hw. rewrite <- Heq in Hw.
    destruct (pageWalk _ _ _ _ _ _ _ _ _) as [[[out cursor] more] err]. destruct Hw as (-> & got & rest & Hall & -> & Hmore).
    eexists _, got, rest. split; [reflexivity|]. cbn [HasMore NextCursor Mutations app]. split_and!; [done|done|].
    destruct more; [|done]. destruct Hmore as (Hl & Hlen & got' & e & -> & ->). split; [exact Hlen|]. symmetry.
    by eapply window_rest.
  - assert (byVersion p now q = []) as Hnil.
    { destruct (Hcell (queryScope p q, None) Hu ltac:(by left)) as [_ Hin].
      assert (matchingEntries p now q = []) as Hm; [|unfold byVersion; by rewrite Hm].
      destruct (matchingEntries p now q) as [|e l] eqn:Hm; [done|].
      assert (e ∈ matchingEntries p now q) as He by (rewrite Hm; apply list_elem_of_here).
      apply (matching_entries_elem parseFloat p Hst) in He. by destruct (Hin _ _ He). }
    eexists _, [], []. split; [reflexivity|]. unfold all. by rewrite Hnil.
Qed.

Definition idsOf (es : list recordEntry) : list string := (λ e, RecordID (record e)) <$> es.

Definition threeTicks : partition :=
  tickPartition [tickEvent "upsert" "" 1 "a" "x"; tickEvent "upsert" "" 2 "b" "x"; tickEvent "upsert" "" 3 "c" "y"].

Lemma list_canonical_witness :
  ∃ es, getColumnarBatch (H := noHooks) threeTicks 0 false false (tickQuery 2 []) 1 = Ok es ∧ idsOf es = ["c"; "b"].
Proof.
  eexists. split.
  - apply (list_canonical noHooks (λ _, None) (tickSpec 1000) (tickSpec 1000) threeTicks 0 false (tickQuery 2 []) 1
      noHooks_ok ltac:(vm_compute; reflexivity) (tick_reachable _));
      [vm_compute; discriminate|vm_compute; discriminate|vm_compute; discriminate|vm_compute; reflexivity].
  - vm_compute. reflexivity.
Defined.

Lemma list_where_canonical_witness :
  ∃ es, getColumnarBatchWhere (H := noHooks) (λ _, None) (λ _, false) pricePartition 0 false false (tickQuery 1 []) [dearerThan 6] 1 = Ok es ∧
    idsOf es = ["a"].
Proof.
  eexists. split.
  - apply (list_where_canonical noHooks (λ _, None) (λ _, false) priceSpec priceSpec pricePartition 0 false (tickQuery 1 []) [dearerThan 6] 1
      noHooks_ok).
    + vm_compute; reflexivity.
    + eapply reach_step; [apply reach_new|apply step_batch].
    + intros Hv. apply list_elem_of_singleton in Hv. discriminate.
    + assert (map_Forall (λ _ e, forallb (λ f, canonicalValue (λ _, false) (FValue f)) (Data (record e)) = true)
        (visible pricePartition)) as Hall by (apply (bool_decide_unpack _); vm_compute; exact I).
      intros k e He. apply canonical_numbers_check. exact (Hall k e He).
    + vm_compute; discriminate.
    + vm_compute; discriminate.
    + vm_compute; discriminate.
    + vm_compute; reflexivity.
  - vm_compute. reflexivity.
Defined.

Lemma snapshot_pages_tile_witness :
  ∃ page got rest, pageMutations (λ e, RecordID (record e)) threeTicks 0 false (tickQuery 2 []) 1 0 0 = Ok page ∧
    Mutations page = (λ e, RecordID (record e)) <$> got ∧ HasMore page = true ∧ idsOf rest = ["a"] ∧
    rest = windowOf 0 (NextCursor page) (byVersion threeTicks 0 (normalizeQuery (tickQuery 2 []))).
Proof.
  destruct (snapshot_pages_tile noHooks (λ _, None) (λ e, RecordID (record e)) (tickSpec 1000) (tickSpec 1000) threeTicks 0 (tickQuery 2 []) 1 0 0
    noHooks_ok ltac:(vm_compute; reflexivity) (tick_reachable _) ltac:(vm_compute; reflexivity)
    ltac:(vm_compute; discriminate) ltac:(vm_compute; discriminate) ltac:(vm_compute; discriminate) ltac:(lia))
    as (page & got & rest & Hp & Hall & Hm & Hmore).
  exists page, got, rest. split; [exact Hp|]. split; [exact Hm|].
  assert (HasMore page = true ∧ NextCursor page = 2) as [Hh Hc] by
    (vm_compute in Hp; injection Hp as <-; split; reflexivity).
  rewrite Hh in Hmore. destruct Hmore as [_ Hrest]. split; [exact Hh|]. split; [|exact Hrest].
  rewrite Hrest, Hc. vm_compute. reflexivity.
Defined.

(** Version order is not publication order when versions arrive out of order:
    the walk stops at the first entry at or below [since], so an incremental
    read can miss a newer record published before an older one. *)
Theorem page_misses_newer_version :
  let p := tickPartition [tickEvent "upsert" "" 10 "a" "x"; tickEvent "upsert" "" 5 "b" "x"] in
  idsOf (filter (λ e, 7 < version e) (matchingEntries p 0 (normalizeQuery (tickQuery 0 [])))) = ["a"] ∧
  ∃ page, pageMutations (λ e, RecordID (record e)) p 0 false (tickQuery 0 []) 1 7 0 = Ok page ∧ Mutations page = [].
Proof. split; [vm_compute; reflexivity|]. eexists. split; vm_compute; reflexivity. Qed.

(** The same walk across pages: the cursor is the lowest version of the page
    only in version order, and the next page skips what it has not shown. *)
Theorem page_cursor_skips_record :
  let p := tickPartition [tickEvent "upsert" "" 10 "a" "x"; tickEvent "upsert" "" 5 "b" "x"] in
  ∃ page, pageMutations (λ e, RecordID (record e)) p 0 false (tickQuery 1 []) 1 0 0 = Ok page ∧
    Mutations page = ["b"] ∧ HasMore page = true ∧
  ∃ page', pageMutations (λ e, RecordID (record e)) p 0 false (tickQuery 1 []) 1 0 (NextCursor page) = Ok page' ∧
    Mutations page' = [].
Proof.
  eexists. split; [vm_compute; reflexivity|]. split; [reflexivity|]. split; [reflexivity|].
  eexists. split; vm_compute; reflexivity.
Qed.

(** [HasMore] is set whenever the limit is reached, also by the last record. *)
Theorem page_has_more_at_the_end :
  let p := tickPartition [tickEvent "upsert" "" 1 "a" "x"] in
  ∃ page, pageMutations (λ e, RecordID (record e)) p 0 false (tickQuery 1 []) 1 0 0 = Ok page ∧ HasMore page = true ∧
    size (matchingRecords p 0 (normalizeQuery (tickQuery 1 []))) = 1%nat.
Proof. eexists. split; [vm_compute; reflexivity|]. split; vm_compute; reflexivity. Qed.
