(* ===== verification/CircuitBreaker.v ===== *)
(** * CircuitBreaker: the breaker for external calls

    Models [circuitbreaker/circuitbreaker.go] and [registry.go].  Counters are
    32-bit words, times are nanoseconds since the Unix epoch.  The clock is an input of
    every operation that reads it.  The float arithmetic that compares the
    windowed failure rate (or its Wilson lower bound) with the threshold is the
    parameter [rateTrips] of failures and total.  A call of [OnStateChange],
    which the code starts in a goroutine, is an entry of [announced].  The two
    lock-free paths are steps of their own, so that other calls can run between
    what they read and what they write. *)

From Stdlib Require Import ZArith Lia String Sorting.Sorted.
From stdpp Require Import base strings gmap fin_maps numbers sorting list.
From S2P Require Import Prelude.

Open Scope string_scope.
Open Scope list_scope.
Open Scope Z_scope.

Inductive State := StateClosed | StateOpen | StateHalfOpen.

#[export] Instance State_eq_dec : EqDecision State.
Proof. solve_decision. Defined.

Definition StateString (s : State) : string :=
  match s with StateClosed => "closed" | StateOpen => "open" | StateHalfOpen => "half-open" end.

Inductive breaker_error := ErrCircuitOpen | ErrTooManyRequests | ErrCancelled | ErrCall.

#[export] Instance breaker_error_eq_dec : EqDecision breaker_error.
Proof. solve_decision. Defined.

Definition rollingBucketCount : Z := 10.

Record windowBucket := mkBucket { bepoch : Z; bsuccesses : Z; bfailures : Z }.

Definition emptyBuckets : list windowBucket := replicate 10 (mkBucket 0 0 0).

(** [IsFailure] and the clock are inputs; [rateEnabled] says that
    [FailureRateThreshold] is above zero. *)
Record Config := mkConfig {
  FailureThreshold : Z; SuccessThreshold : Z; Timeout : Z; HalfOpenMaxCalls : Z;
  hasCallback : bool; rateEnabled : bool; MinObservations : Z; RollingWindow : Z
}.

Definition second : Z := 10 ^ 9.
Definition millisecond : Z := 10 ^ 6.

Definition DefaultConfig : Config := mkConfig 5 2 (30 * second) 3 false false 0 0.

Record CircuitBreaker := mkBreaker {
  name : string; config : Config; state : State; failures : Z; successes : Z; halfOpenCalls : Z;
  lastFailureTime : Z; lastStateChange : Z; buckets : list windowBucket; bucketSpan : Z;
  announced : list (State * State)
}.

Definition orDefault (v d : Z) : Z := if v =? 0 then d else v.

Definition normalizeConfig (cfg : Config) : Config :=
  mkConfig (orDefault (FailureThreshold cfg) 5) (orDefault (SuccessThreshold cfg) 2) (orDefault (Timeout cfg) (30 * second))
    (orDefault (HalfOpenMaxCalls cfg) 3) (hasCallback cfg) (rateEnabled cfg)
    (if rateEnabled cfg then orDefault (MinObservations cfg) 20 else MinObservations cfg)
    (if rateEnabled cfg && (RollingWindow cfg <=? 0) then 10 * second else RollingWindow cfg).

Definition New (nm : string) (cfg : Config) (now : Z) : CircuitBreaker :=
  let cfg := normalizeConfig cfg in
  let span := if 0 <? RollingWindow cfg then Z.max (Z.quot (RollingWindow cfg) rollingBucketCount) millisecond else 0 in
  mkBreaker nm cfg StateClosed 0 0 0 0 now emptyBuckets span [].

(** ** Field updates *)

Definition setCounts (cb : CircuitBreaker) (f s : Z) : CircuitBreaker :=
  mkBreaker (name cb) (config cb) (state cb) f s (halfOpenCalls cb) (lastFailureTime cb) (lastStateChange cb) (buckets cb)
    (bucketSpan cb) (announced cb).
Definition setHalfOpenCalls (cb : CircuitBreaker) (n : Z) : CircuitBreaker :=
  mkBreaker (name cb) (config cb) (state cb) (failures cb) (successes cb) n (lastFailureTime cb) (lastStateChange cb) (buckets cb)
    (bucketSpan cb) (announced cb).
Definition setLastFailure (cb : CircuitBreaker) (t : Z) : CircuitBreaker :=
  mkBreaker (name cb) (config cb) (state cb) (failures cb) (successes cb) (halfOpenCalls cb) t (lastStateChange cb) (buckets cb)
    (bucketSpan cb) (announced cb).
Definition setBuckets (cb : CircuitBreaker) (b : list windowBucket) : CircuitBreaker :=
  mkBreaker (name cb) (config cb) (state cb) (failures cb) (successes cb) (halfOpenCalls cb) (lastFailureTime cb)
    (lastStateChange cb) b (bucketSpan cb) (announced cb).

(** ** Transitions *)

Definition announce (cb : CircuitBreaker) (from to : State) : list (State * State) :=
  if hasCallback (config cb) then announced cb ++ [(from, to)] else announced cb.

Definition transitionTo (cb : CircuitBreaker) (newState : State) (now : Z) : CircuitBreaker :=
  if decide (state cb = newState) then cb
  else mkBreaker (name cb) (config cb) newState 0 0 0 (lastFailureTime cb) now emptyBuckets (bucketSpan cb)
         (announce cb (state cb) newState).

Definition Reset (cb : CircuitBreaker) (now : Z) : CircuitBreaker :=
  mkBreaker (name cb) (config cb) StateClosed 0 0 0 (lastFailureTime cb) now emptyBuckets (bucketSpan cb)
    (if decide (state cb = StateClosed) then announced cb else announce cb (state cb) StateClosed).

(** ** The rolling window *)

Section Breaker.
Variable rateTrips : Z → Z → bool.

(** The bucket of an epoch, cleared when it holds another epoch. *)
Definition touchBucket (bs : list windowBucket) (epoch : Z) (isFailure : bool) : list windowBucket :=
  let idx := Z.to_nat (u64 epoch mod rollingBucketCount) in
  match bs !! idx with
  | None => bs
  | Some b =>
      let b := if bepoch b =? epoch then b else mkBucket epoch 0 0 in
      <[idx := if isFailure then mkBucket (bepoch b) (bsuccesses b) (u32 (bfailures b + 1))
               else mkBucket (bepoch b) (u32 (bsuccesses b + 1)) (bfailures b)]> bs
  end.

Definition inRing (epoch : Z) (b : windowBucket) : bool :=
  (epoch - rollingBucketCount + 1 <=? bepoch b) && (bepoch b <=? epoch).

(** The totals of the buckets in the window: failures and successes. *)
Definition windowTotals (bs : list windowBucket) (epoch : Z) : Z * Z :=
  foldl (λ t b, if inRing epoch b then (u32 (fst t + bfailures b), u32 (snd t + bsuccesses b)) else t) (0, 0) bs.

Definition recordWindowAndShouldTrip (cb : CircuitBreaker) (now : Z) (isFailure : bool) : CircuitBreaker * bool :=
  if negb (rateEnabled (config cb)) || (bucketSpan cb <=? 0) then (cb, false)
  else
    let epoch := Z.quot now (bucketSpan cb) in
    let bs := touchBucket (buckets cb) epoch isFailure in
    let cb := setBuckets cb bs in
    if negb isFailure then (cb, false)
    else
      let '(totalFail, totalSucc) := windowTotals bs epoch in
      let total := u32 (totalFail + totalSucc) in
      if total <? MinObservations (config cb) then (cb, false) else (cb, rateTrips totalFail total).

(** ** Requests *)

Definition beforeRequest (cb : CircuitBreaker) (now : Z) : CircuitBreaker * option breaker_error :=
  match state cb with
  | StateClosed => (cb, None)
  | StateOpen =>
      if Timeout (config cb) <=? now - lastFailureTime cb then (setHalfOpenCalls (transitionTo cb StateHalfOpen now) 1, None)
      else (cb, Some ErrCircuitOpen)
  | StateHalfOpen =>
      if HalfOpenMaxCalls (config cb) <=? halfOpenCalls cb then (cb, Some ErrTooManyRequests)
      else (setHalfOpenCalls cb (u32 (halfOpenCalls cb + 1)), None)
  end.

(** The condition of the lock-free path of [afterRequest]. *)
Definition fastSuccess (cb : CircuitBreaker) (isFailure : bool) : bool :=
  negb isFailure && bool_decide (state cb = StateClosed) && (failures cb =? 0) && negb (rateEnabled (config cb)).

Definition addSuccess (cb : CircuitBreaker) : CircuitBreaker := setCounts cb (failures cb) (u32 (successes cb + 1)).

(** The part of [afterRequest] under the lock. *)
Definition afterLocked (cb : CircuitBreaker) (now : Z) (isFailure : bool) : CircuitBreaker :=
  match state cb with
  | StateClosed =>
      if isFailure then
        let cb := setLastFailure (setCounts cb (u32 (failures cb + 1)) 0) now in
        let '(cb, trip) := recordWindowAndShouldTrip cb now true in
        if trip || (FailureThreshold (config cb) <=? failures cb) then transitionTo cb StateOpen now else cb
      else fst (recordWindowAndShouldTrip (setCounts cb 0 (u32 (successes cb + 1))) now false)
  | StateOpen => cb
  | StateHalfOpen =>
      if isFailure then transitionTo (setLastFailure (setCounts cb (u32 (failures cb + 1)) 0) now) StateOpen now
      else
        let cb := setCounts cb 0 (u32 (successes cb + 1)) in
        if SuccessThreshold (config cb) <=? successes cb then transitionTo cb StateClosed now else cb
  end.

Definition afterRequest (cb : CircuitBreaker) (now : Z) (isFailure : bool) : CircuitBreaker :=
  if fastSuccess cb isFailure then addSuccess cb else afterLocked cb now isFailure.

(** [Execute] without other calls in between: the clock at its start and after
    the call, the state of the context, and what the call returned. *)
Record attempt := mkAttempt { startTime : Z; endTime : Z; cancelled : bool; callErr : bool; countsAsFailure : bool }.

Definition Execute (cb : CircuitBreaker) (a : attempt) : CircuitBreaker * option breaker_error :=
  match beforeRequest cb (startTime a) with
  | (cb, Some e) => (cb, Some e)
  | (cb, None) =>
      if cancelled a then (cb, Some ErrCancelled)
      else (afterRequest cb (endTime a) (countsAsFailure a), if callErr a then Some ErrCall else None)
  end.

Definition ExecuteWithFallback {A} (cb : CircuitBreaker) (a : attempt) (result : A) (fallback : breaker_error → A) : CircuitBreaker * A :=
  match Execute cb a with
  | (cb, Some e) => (cb, fallback e)
  | (cb, None) => (cb, result)
  end.

Fixpoint executeAll (cb : CircuitBreaker) (l : list attempt) : CircuitBreaker * list (option breaker_error) :=
  match l with
  | [] => (cb, [])
  | a :: l =>
      let '(cb, r) := Execute cb a in
      let '(cb, rs) := executeAll cb l in (cb, r :: rs)
  end.

(** ** Interleavings

    The steps concurrent callers take.  [pending] counts callers that have
    passed the check of the lock-free success path and not yet counted. *)

Record shared := mkShared { breaker : CircuitBreaker; pending : nat }.

(** A step with the number of calls it admits. *)
Inductive breaker_step : shared → nat → shared → Prop :=
| st_before cb n now :
    breaker_step (mkShared cb n) (match snd (beforeRequest cb now) with None => 1 | Some _ => 0 end) (mkShared (fst (beforeRequest cb now)) n)
| st_fast_check cb n : fastSuccess cb false = true → breaker_step (mkShared cb n) 0 (mkShared cb (S n))
| st_fast_add cb n : breaker_step (mkShared cb (S n)) 0 (mkShared (addSuccess cb) n)
| st_locked cb n now isFailure : breaker_step (mkShared cb n) 0 (mkShared (afterLocked cb now isFailure) n)
| st_reset cb n now : breaker_step (mkShared cb n) 0 (mkShared (Reset cb now) n).

Inductive breaker_reachable (nm : string) (cfg : Config) : shared → Prop :=
| br_new now : breaker_reachable nm cfg (mkShared (New nm cfg now) 0)
| br_step s k s' : breaker_reachable nm cfg s → breaker_step s k s' → breaker_reachable nm cfg s'.

(** ** The registry *)

Record Stats := mkStats {
  StName : string; StState : string; StFailures : Z; StSuccesses : Z; StLastStateChange : Z; StLastFailureTime : Z;
  StThresholds : Z * Z * Z * Z
}.

Definition statsOf (cb : CircuitBreaker) : Stats :=
  mkStats (name cb) (StateString (state cb)) (failures cb) (successes cb) (lastStateChange cb) (lastFailureTime cb)
    (FailureThreshold (config cb), SuccessThreshold (config cb), Timeout (config cb), HalfOpenMaxCalls (config cb)).

Record Registry := mkRegistry { breakers : gmap string CircuitBreaker; defaultConfig : Config }.

Definition NewRegistry (cfg : Config) : Registry := mkRegistry ∅ cfg.

Definition GetWithConfig (r : Registry) (nm : string) (cfg : Config) (now : Z) : Registry * CircuitBreaker :=
  match breakers r !! nm with
  | Some cb => (r, cb)
  | None => let cb := New nm cfg now in (mkRegistry (<[nm := cb]> (breakers r)) (defaultConfig r), cb)
  end.

Definition GetBreaker (r : Registry) (nm : string) (now : Z) : Registry * CircuitBreaker :=
  match breakers r !! nm with
  | Some cb => (r, cb)
  | None => GetWithConfig r nm (defaultConfig r) now
  end.

Definition Remove (r : Registry) (nm : string) : Registry := mkRegistry (delete nm (breakers r)) (defaultConfig r).

Definition ResetAll (r : Registry) (now : Z) : Registry :=
  mkRegistry ((λ cb, Reset cb now) <$> breakers r) (defaultConfig r).

Definition AllStats (r : Registry) : gmap string Stats := statsOf <$> breakers r.

(** ** What every reachable breaker satisfies *)

Definition legal (from to : State) : bool :=
  match from, to with
  | StateClosed, StateOpen | StateOpen, StateHalfOpen | StateHalfOpen, StateOpen | StateHalfOpen, StateClosed
  | StateOpen, StateClosed => true
  | _, _ => false
  end.

(** Where a chain of announced transitions leads from a state. *)
Fixpoint follow (s : State) (l : list (State * State)) : option State :=
  match l with
  | [] => Some s
  | (a, b) :: l => if bool_decide (a = s) && legal a b then follow b l else None
  end.

Record config_ok (c : Config) : Prop := {
  cg_failure : 0 < FailureThreshold c < 2 ^ 32;
  cg_success : 0 < SuccessThreshold c < 2 ^ 32;
  cg_calls : 0 < HalfOpenMaxCalls c < 2 ^ 32
}.

Record breaker_ok (cb : CircuitBreaker) : Prop := {
  bk_config : config_ok (config cb);
  bk_counts : match state cb with
              | StateClosed => 0 ≤ failures cb < FailureThreshold (config cb) ∧ halfOpenCalls cb = 0
              | StateOpen => failures cb = 0 ∧ halfOpenCalls cb = 0
              | StateHalfOpen => failures cb = 0 ∧ 1 ≤ halfOpenCalls cb ≤ HalfOpenMaxCalls (config cb)
              end;
  bk_successes : 0 ≤ successes cb < 2 ^ 32;
  bk_buckets : length (buckets cb) = 10%nat;
  bk_chain : if hasCallback (config cb) then follow StateClosed (announced cb) = Some (state cb) else announced cb = []
}.

Lemma follow_app l s t u : follow s l = Some t → legal t u = true → follow s (l ++ [(t, u)]) = Some u.
Proof using.
  revert s. induction l as [|[a b] l IH]; intros s; cbn [follow app].
  - intros [= ->] Hl. by rewrite bool_decide_true, Hl.
  - destruct (_ && _); [|done]. by apply IH.
Qed.

Lemma touch_length bs e f : length (touchBucket bs e f) = length bs.
Proof using. unfold touchBucket. destruct (bs !! _); [|done]. apply length_insert. Qed.

(** The window leaves everything else alone. *)
Lemma record_window_frame cb now f : ∃ bs, fst (recordWindowAndShouldTrip cb now f) = setBuckets cb bs ∧ length bs = length (buckets cb).
Proof using.
  unfold recordWindowAndShouldTrip. destruct (_ || _); [exists (buckets cb); by destruct cb|].
  exists (touchBucket (buckets cb) (Z.quot now (bucketSpan cb)) f). rewrite touch_length. split; [|done].
  destruct f; cbn [negb]; [|done]. destruct (windowTotals _ _). by destruct (_ <? _).
Qed.

Lemma transition_chain cb to : legal (state cb) to = true →
  (if hasCallback (config cb) then follow StateClosed (announced cb) = Some (state cb) else announced cb = []) →
  if hasCallback (config cb) then follow StateClosed (announce cb (state cb) to) = Some to else announce cb (state cb) to = [].
Proof using. intros Hl. unfold announce. destruct (hasCallback (config cb)); [|done]. intros Hc. by apply follow_app. Qed.

(** Entering another state: counters are cleared. *)
Lemma transition_ok cb to now : config_ok (config cb) → legal (state cb) to = true →
  (if hasCallback (config cb) then follow StateClosed (announced cb) = Some (state cb) else announced cb = []) →
  to ≠ StateHalfOpen → breaker_ok (transitionTo cb to now) ∧ state (transitionTo cb to now) = to.
Proof using.
  intros Hc Hl Hch Hto. unfold transitionTo. rewrite decide_False by (intros Heq; rewrite Heq in Hl; by destruct to).
  split; [|done]. split; cbn [config state failures successes halfOpenCalls buckets announced]; [done| |lia|done|by apply transition_chain].
  destruct to; [|done|done]. destruct Hc. lia.
Qed.

Lemma before_ok cb now : breaker_ok cb → breaker_ok (fst (beforeRequest cb now)).
Proof using.
  intros Hok. pose proof Hok as [Hc Hn Hs Hb Hch]. unfold beforeRequest. destruct (state cb) eqn:Hst; [done| |].
  - destruct (_ <=? _); [|done]. unfold transitionTo. rewrite decide_False by congruence.
    split; cbn; [done| |lia|done|]; [destruct Hc; lia|].
    apply (transition_chain cb StateHalfOpen); by rewrite Hst.
  - destruct (Z.leb_spec (HalfOpenMaxCalls (config cb)) (halfOpenCalls cb)); [done|].
    split; cbn; rewrite ?Hst; [done| |done|done|done]. destruct Hc. rewrite u32_id by lia. lia.
Qed.

Lemma add_success_ok cb : breaker_ok cb → breaker_ok (addSuccess cb).
Proof using. intros [Hc Hn Hs Hb Hch]. split; cbn; [done|done|apply u32_range|done|done]. Qed.

Lemma reset_ok cb now : breaker_ok cb → breaker_ok (Reset cb now).
Proof using.
  intros [Hc Hn Hs Hb Hch]. split; cbn; [done| |lia|done|].
  - destruct Hc. lia.
  - case_decide as Hd; [by rewrite Hd in Hch|]. apply (transition_chain cb StateClosed); [by destruct (state cb)|done].
Qed.

Lemma after_ok cb now f : breaker_ok cb → breaker_ok (afterLocked cb now f).
Proof using.
  intros Hok. pose proof Hok as [Hc Hn Hs Hb Hch]. unfold afterLocked. destruct (state cb) eqn:Hst; [| done|].
  - destruct Hn as [Hn Hh]. pose proof (cg_failure _ Hc) as Hft. destruct f.
    + set (cb1 := setLastFailure _ _). destruct (record_window_frame cb1 now true) as (bs & Hbs & Hl).
      destruct (recordWindowAndShouldTrip cb1 now true) as [cb2 trip]. cbn in Hbs. subst cb2.
      assert (failures (setBuckets cb1 bs) = failures cb + 1) as Hf by (cbn; apply u32_id; lia).
      destruct (trip || (_ <=? _)) eqn:Ht.
      * apply transition_ok; [done|cbn; by rewrite Hst|cbn; by rewrite Hst|done].
      * apply orb_false_iff in Ht as [_ Ht%Z.leb_gt]. rewrite Hf in Ht. split; rewrite ?Hf; cbn [setBuckets cb1 setLastFailure setCounts config state successes halfOpenCalls buckets announced] in *;
          rewrite ?Hst; [done|lia|lia|by rewrite Hl|done].
    + destruct (record_window_frame (setCounts cb 0 (u32 (successes cb + 1))) now false) as (bs & -> & Hl).
      split; cbn in *; rewrite ?Hst; [done|lia|apply u32_range|by rewrite Hl|done].
  - destruct f.
    + apply transition_ok; [done|cbn; by rewrite Hst|cbn; by rewrite Hst|done].
    + destruct (Z.leb_spec (SuccessThreshold (config cb)) (successes (setCounts cb 0 (u32 (successes cb + 1))))) as [Hle|Hgt].
      * cbn [config setCounts]. rewrite (proj2 (Z.leb_le _ _) Hle). apply transition_ok; [done|cbn; by rewrite Hst|cbn; by rewrite Hst|done].
      * cbn [config setCounts]. rewrite (proj2 (Z.leb_gt _ _) Hgt). split; cbn; rewrite ?Hst; [done|lia|apply u32_range|done|done].
Qed.

Lemma or_default_range v d : 0 ≤ v < 2 ^ 32 → 0 < d < 2 ^ 32 → 0 < orDefault v d < 2 ^ 32.
Proof using. unfold orDefault. destruct (Z.eqb_spec v 0); lia. Qed.

(** The thresholds are words, as their types say. *)
Definition config_typed (c : Config) : Prop :=
  0 ≤ FailureThreshold c < 2 ^ 32 ∧ 0 ≤ SuccessThreshold c < 2 ^ 32 ∧ 0 ≤ HalfOpenMaxCalls c < 2 ^ 32.

Lemma new_ok nm cfg now : config_typed cfg → breaker_ok (New nm cfg now).
Proof using.
  intros (H1 & H2 & H3). assert (config_ok (normalizeConfig cfg)) as Hc by (split; by apply or_default_range).
  split; cbn; [done| |lia|done|by destruct (hasCallback cfg)]. destruct Hc. cbn in *. lia.
Qed.

Lemma reachable_ok nm cfg s : config_typed cfg → breaker_reachable nm cfg s → breaker_ok (breaker s).
Proof using.
  intros Hcfg. induction 1 as [now|s k s' _ IH Hs]; [by apply new_ok|].
  destruct Hs; cbn in *; auto using before_ok, add_success_ok, after_ok, reset_ok.
Qed.

(** ** Recovery *)

Definition succeeds (a : attempt) : Prop := cancelled a = false ∧ callErr a = false ∧ countsAsFailure a = false.

(** A successful probe counts, and the last one closes the breaker. *)
Lemma probe_step cb a k : breaker_ok cb → state cb = StateHalfOpen → successes cb = k → halfOpenCalls cb = k →
  k < SuccessThreshold (config cb) → SuccessThreshold (config cb) ≤ HalfOpenMaxCalls (config cb) → succeeds a →
  ∃ cb', Execute cb a = (cb', None) ∧ breaker_ok cb' ∧ config cb' = config cb ∧
    if k + 1 <? SuccessThreshold (config cb) then state cb' = StateHalfOpen ∧ successes cb' = k + 1 ∧ halfOpenCalls cb' = k + 1
    else state cb' = StateClosed ∧ failures cb' = 0.
Proof using.
  intros Hok Hst Hsu Hh Hk Hle (Hc & He & Hf). pose proof (bk_config _ Hok) as [Hft Hst' Hcalls].
  pose proof (before_ok cb (startTime a) Hok) as Hb. pose proof (bk_successes _ Hok) as Hrange.
  unfold Execute in *. unfold beforeRequest in *. rewrite Hst in *. rewrite (proj2 (Z.leb_gt _ _)) in * by lia. rewrite Hc, He, Hf. cbn [fst] in Hb.
  set (cb1 := setHalfOpenCalls cb _) in *.
  assert (afterRequest cb1 (endTime a) false = afterLocked cb1 (endTime a) false) as Ha.
  { unfold afterRequest, fastSuccess. by rewrite (bool_decide_false (state cb1 = StateClosed)) by (cbn; congruence). }
  eexists. split; [reflexivity|]. rewrite Ha. pose proof (after_ok cb1 (endTime a) false Hb) as Hok'. split; [done|].
  unfold afterLocked. change (state cb1) with (state cb). rewrite Hst. cbn [setCounts successes config cb1 setHalfOpenCalls].
  rewrite Hsu, u32_id by lia. destruct (Z.ltb_spec (k + 1) (SuccessThreshold (config cb))) as [Hlt|Hge].
  - rewrite (proj2 (Z.leb_gt _ _)) by lia. cbn. rewrite Hh, u32_id by lia. done.
  - rewrite (proj2 (Z.leb_le _ _)) by lia. unfold transitionTo. rewrite decide_False by (cbn; congruence). done.
Qed.

Lemma probes_close l : ∀ cb k, breaker_ok cb → state cb = StateHalfOpen → successes cb = k → halfOpenCalls cb = k →
  k < SuccessThreshold (config cb) → SuccessThreshold (config cb) ≤ HalfOpenMaxCalls (config cb) →
  Forall succeeds l → Z.of_nat (length l) = SuccessThreshold (config cb) - k →
  ∃ cb', executeAll cb l = (cb', replicate (length l) None) ∧ state cb' = StateClosed ∧ failures cb' = 0.
Proof using.
  induction l as [|a l IH]; intros cb k Hok Hst Hsu Hh Hk Hle Hall Hlen; [cbn in Hlen; lia|].
  apply Forall_cons in Hall as [Ha Hall]. destruct (probe_step cb a k Hok Hst Hsu Hh Hk Hle Ha) as (cb1 & He & Hok1 & Hcfg & Hnext).
  cbn [executeAll length replicate]. rewrite He. cbn [length] in Hlen. destruct (Z.ltb_spec (k + 1) (SuccessThreshold (config cb))) as [Hlt|Hge].
  - destruct Hnext as (H1 & H2 & H3). destruct (IH cb1 (k + 1)) as (cb2 & -> & H4); try rewrite Hcfg; try done; try lia. by exists cb2.
  - destruct l; [|cbn in Hlen; lia]. by exists cb1.
Qed.

(** The first probe after the timeout. *)
Lemma first_probe cb a : breaker_ok cb → state cb = StateOpen → Timeout (config cb) ≤ startTime a - lastFailureTime cb → succeeds a →
  ∃ cb', Execute cb a = (cb', None) ∧ breaker_ok cb' ∧ config cb' = config cb ∧
    if 1 <? SuccessThreshold (config cb) then state cb' = StateHalfOpen ∧ successes cb' = 1 ∧ halfOpenCalls cb' = 1
    else state cb' = StateClosed ∧ failures cb' = 0.
Proof using.
  intros Hok Hst Ht (Hc & He & Hf). pose proof (before_ok cb (startTime a) Hok) as Hb.
  unfold Execute. unfold beforeRequest in *. rewrite Hst in *. rewrite (proj2 (Z.leb_le _ _) Ht) in *. cbn [fst] in Hb.
  rewrite Hc, He, Hf. set (cb1 := setHalfOpenCalls _ 1) in *.
  assert (state cb1 = StateHalfOpen ∧ successes cb1 = 0 ∧ halfOpenCalls cb1 = 1 ∧ config cb1 = config cb) as (S1 & S2 & S3 & S4).
  { unfold cb1, transitionTo. by rewrite decide_False by congruence. }
  assert (afterRequest cb1 (endTime a) false = afterLocked cb1 (endTime a) false) as Ha.
  { unfold afterRequest, fastSuccess. by rewrite (bool_decide_false (state cb1 = StateClosed)) by congruence. }
  eexists. split; [reflexivity|]. rewrite Ha. split; [by apply after_ok|]. unfold afterLocked. rewrite S1. cbn [setCounts successes config].
  rewrite S2, S4. change (u32 (0 + 1)) with 1. destruct (Z.ltb_spec 1 (SuccessThreshold (config cb))).
  - rewrite (proj2 (Z.leb_gt _ _)) by lia. cbn [setCounts config state successes halfOpenCalls]. by split_and!.
  - rewrite (proj2 (Z.leb_le _ _)) by lia. unfold transitionTo. rewrite decide_False by (cbn [setCounts state]; congruence). cbn [setCounts config state failures]. by split_and!.
Qed.

Lemma recovers cb l : breaker_ok cb → state cb = StateOpen → SuccessThreshold (config cb) ≤ HalfOpenMaxCalls (config cb) →
  Forall succeeds l → (∀ a, head l = Some a → Timeout (config cb) ≤ startTime a - lastFailureTime cb) →
  Z.of_nat (length l) = SuccessThreshold (config cb) →
  ∃ cb', executeAll cb l = (cb', replicate (length l) None) ∧ state cb' = StateClosed ∧ failures cb' = 0.
Proof using.
  intros Hok Hst Hle Hall Hhd Hlen. pose proof (bk_config _ Hok) as [_ Hs _]. destruct l as [|a l]; [cbn in Hlen; lia|].
  apply Forall_cons in Hall as [Ha Hall]. destruct (first_probe cb a Hok Hst (Hhd a eq_refl) Ha) as (cb1 & He & Hok1 & Hcfg & Hnext).
  cbn [executeAll length replicate]. rewrite He. cbn [length] in Hlen. destruct (Z.ltb_spec 1 (SuccessThreshold (config cb))) as [Hlt|Hge].
  - destruct Hnext as (H1 & H2 & H3). destruct (probes_close l cb1 1) as (cb2 & -> & H4); try rewrite Hcfg; try done; try lia. by exists cb2.
  - destruct l; [|cbn in Hlen; lia]. by exists cb1.
Qed.

(** ** Half-open for ever *)

Definition wedged (cb : CircuitBreaker) : Prop := state cb = StateHalfOpen ∧ HalfOpenMaxCalls (config cb) ≤ halfOpenCalls cb.

Lemma wedged_rejects cb l : wedged cb → executeAll cb l = (cb, replicate (length l) (Some ErrTooManyRequests)).
Proof using.
  intros [Hs Hh]. induction l as [|a l IH]; [done|]. cbn [executeAll length replicate].
  unfold Execute, beforeRequest. rewrite Hs, (proj2 (Z.leb_le _ _) Hh). by rewrite IH.
Qed.

(** ** Probes in a half-open period *)

(** Steps that leave the breaker half-open, with the calls they admit. *)
Inductive half_open_run : shared → nat → shared → Prop :=
| ho_refl s : half_open_run s 0 s
| ho_step s j s1 k s2 : breaker_step s j s1 → state (breaker s1) = StateHalfOpen → half_open_run s1 k s2 → half_open_run s (j + k) s2.

Lemma half_open_step s j s1 : breaker_ok (breaker s) → state (breaker s) = StateHalfOpen → breaker_step s j s1 →
  state (breaker s1) = StateHalfOpen →
  breaker_ok (breaker s1) ∧ config (breaker s1) = config (breaker s) ∧ halfOpenCalls (breaker s1) = halfOpenCalls (breaker s) + Z.of_nat j.
Proof using.
  intros Hok Hst Hs Hst1. pose proof (cg_calls _ (bk_config _ Hok)) as Hcalls. destruct Hs; cbn [breaker] in *.
  - split; [by apply before_ok|]. unfold beforeRequest in *. rewrite Hst in *.
    destruct (Z.leb_spec (HalfOpenMaxCalls (config cb)) (halfOpenCalls cb)); cbn; [split; [done|lia]|]. split; [done|].
    pose proof (bk_counts _ Hok) as Hn. rewrite Hst in Hn. rewrite u32_id; lia.
  - split_and!; [done|done|lia].
  - split_and!; [by apply add_success_ok|done|cbn; lia].
  - split; [by apply after_ok|]. unfold afterLocked in *. rewrite Hst in *. destruct isFailure.
    + unfold transitionTo in Hst1. rewrite decide_False in Hst1 by (cbn; congruence). done.
    + destruct (_ <=? _); [|split; [done|cbn; lia]]. unfold transitionTo in Hst1. rewrite decide_False in Hst1 by (cbn; congruence). done.
  - done.
Qed.

Lemma half_open_bound s n s' : half_open_run s n s' → breaker_ok (breaker s) → state (breaker s) = StateHalfOpen →
  halfOpenCalls (breaker s) + Z.of_nat n ≤ HalfOpenMaxCalls (config (breaker s)).
Proof using.
  induction 1 as [s|s j s1 k s2 Hs Hst1 _ IH]; intros Hok Hst.
  - pose proof (bk_counts _ Hok) as Hn. rewrite Hst in Hn. lia.
  - destruct (half_open_step s j s1 Hok Hst Hs Hst1) as (Hok1 & Hcfg & Hh). specialize (IH Hok1 Hst1). rewrite Hcfg, Hh in IH. lia.
Qed.

End Breaker.

(** ** The window counts the last ten epochs *)

(** Outcomes with their epochs; [true] is a failure. *)
Abbreviation outcome := (Z * bool)%type.

Definition ringAfter (h : list outcome) : list windowBucket := foldl (λ bs x, touchBucket bs (fst x) (snd x)) emptyBuckets h.

Definition countIf (P : outcome → bool) (h : list outcome) : Z := Z.of_nat (length (filter (λ x, P x = true) h)).

Definition at_ (e : Z) (f : bool) (x : outcome) : bool := (fst x =? e) && Bool.eqb (snd x) f.
Definition inWindowOf (E : Z) (f : bool) (x : outcome) : bool := (E - 10 <? fst x) && (fst x <=? E) && Bool.eqb (snd x) f.

Lemma count_if_app P h k : countIf P (h ++ k) = countIf P h + countIf P k.
Proof. unfold countIf. rewrite filter_app, length_app. lia. Qed.

Lemma count_if_ext P Q h : (∀ x, x ∈ h → P x = Q x) → countIf P h = countIf Q h.
Proof.
  intros HPQ. unfold countIf. f_equal. f_equal. induction h as [|x h IH]; [done|]. rewrite !filter_cons.
  rewrite (HPQ x) by apply list_elem_of_here. rewrite IH; [done|]. intros y Hy. apply HPQ. by apply list_elem_of_further.
Qed.

Lemma count_if_zero P h : (∀ x, x ∈ h → P x = false) → countIf P h = 0.
Proof.
  intros HP. rewrite (count_if_ext P (λ _, false)) by done. unfold countIf. clear HP.
  induction h as [|x h IH]; [done|]. rewrite filter_cons. by case_decide.
Qed.

Lemma count_if_range P h : 0 ≤ countIf P h ≤ Z.of_nat (length h).
Proof. unfold countIf. pose proof (length_filter (λ x, P x = true) h). lia. Qed.

Lemma count_if_single P x : countIf P [x] = if P x then 1 else 0.
Proof. unfold countIf. rewrite filter_cons. destruct (P x); case_decide; try done; congruence. Qed.

Lemma at_same e f g : at_ e f (e, g) = Bool.eqb g f.
Proof. unfold at_. cbn. by rewrite Z.eqb_refl. Qed.

(** What each bucket holds after outcomes up to epoch [E]. *)
Record bucket_ok (h : list outcome) (E : Z) (i : nat) (b : windowBucket) : Prop := {
  bo_counts : (bepoch b mod 10 = Z.of_nat i ∧ bfailures b = countIf (at_ (bepoch b) true) h ∧ bsuccesses b = countIf (at_ (bepoch b) false) h) ∨
    (bepoch b = 0 ∧ i ≠ 0%nat ∧ bfailures b = 0 ∧ bsuccesses b = 0);
  bo_recent : ∀ x, x ∈ h → E - 10 < fst x → fst x mod 10 = Z.of_nat i → bepoch b = fst x
}.

Definition ring_ok (h : list outcome) (E : Z) (bs : list windowBucket) : Prop :=
  length bs = 10%nat ∧ ∀ i b, bs !! i = Some b → bucket_ok h E i b.

Lemma bucket_other h E i b e f : bucket_ok h E i b → E ≤ e → 0 ≤ e → e mod 10 ≠ Z.of_nat i → bucket_ok (h ++ [(e, f)]) e i b.
Proof.
  intros [Hc Hr] HE He Hi. assert (∀ g, bepoch b mod 10 = Z.of_nat i → countIf (at_ (bepoch b) g) (h ++ [(e, f)]) = countIf (at_ (bepoch b) g) h) as Hcnt.
  { intros g Hm. rewrite count_if_app, count_if_single. unfold at_. cbn [fst snd].
    destruct (Z.eqb_spec e (bepoch b)) as [->|]; [done|]. cbn. lia. }
  split.
  - destruct Hc as [(Hm & H1 & H2)|Hc]; [left|by right]. by rewrite !Hcnt.
  - intros x [Hx| ->%list_elem_of_singleton]%elem_of_app Hw Hm; [apply Hr; [done|lia|done]|done].
Qed.

(** The bucket an outcome goes to. *)
Lemma bucket_touched h E i b e f : bucket_ok h E i b → (∀ x, x ∈ h → fst x ≤ E) → E ≤ e → 0 ≤ e → e mod 10 = Z.of_nat i →
  Z.of_nat (length h) + 1 < 2 ^ 32 →
  let b0 := if bepoch b =? e then b else mkBucket e 0 0 in
  bucket_ok (h ++ [(e, f)]) e i
    (if f then mkBucket (bepoch b0) (bsuccesses b0) (u32 (bfailures b0 + 1)) else mkBucket (bepoch b0) (u32 (bsuccesses b0 + 1)) (bfailures b0)).
Proof.
  intros [Hc Hr] Hmax HE He Hi Hlen b0.
  assert (bepoch b0 = e ∧ bfailures b0 = countIf (at_ e true) h ∧ bsuccesses b0 = countIf (at_ e false) h) as (E0 & F0 & S0).
  { unfold b0. destruct (Z.eqb_spec (bepoch b) e) as [Heq|Hne].
    - split; [done|]. destruct Hc as [(_ & H1 & H2)|(H1 & H2 & _)]; [by rewrite H1, H2, Heq|].
      exfalso. rewrite <- Heq, H1 in Hi. apply H2. rewrite Zmod_0_l in Hi. lia.
    - assert (∀ g, countIf (at_ e g) h = 0) as Hz; [|by rewrite !Hz]. intros g. apply count_if_zero. intros x Hx. unfold at_.
      destruct (Z.eqb_spec (fst x) e) as [Hxe|]; [|done]. exfalso. apply Hne. pose proof (Hmax x Hx). rewrite <- Hxe.
      apply Hr; [done|lia|congruence]. }
  pose proof (count_if_range (at_ e true) h). pose proof (count_if_range (at_ e false) h). rewrite E0, F0, S0. split.
  - left. destruct f; cbn [bepoch bfailures bsuccesses]; rewrite Hi, !count_if_app, !count_if_single, !at_same;
      cbn [Bool.eqb]; rewrite u32_id by lia; split_and!; lia.
  - intros x Hx Hw Hm. assert (fst x ≤ e) as Hxe.
    { apply elem_of_app in Hx as [Hx| ->%list_elem_of_singleton]; [pose proof (Hmax x Hx); lia|done]. }
    assert (fst x = e) as Heq; [|by destruct f].
    pose proof (Z.div_mod (fst x) 10 ltac:(lia)). pose proof (Z.div_mod e 10 ltac:(lia)). lia.
Qed.

Lemma touch_ring h E bs e f : ring_ok h E bs → (∀ x, x ∈ h → fst x ≤ E) → E ≤ e → 0 ≤ e < 2 ^ 64 → Z.of_nat (length h) + 1 < 2 ^ 32 →
  ring_ok (h ++ [(e, f)]) e (touchBucket bs e f).
Proof.
  intros [Hl Hb] Hmax HE He Hlen. split; [by rewrite touch_length|]. intros i b. unfold touchBucket.
  unfold rollingBucketCount. pose proof (Z.mod_pos_bound e 10 ltac:(lia)) as Hm.
  unfold u64. rewrite (Z.mod_small e (2 ^ 64)) by lia.
  destruct (bs !! Z.to_nat (e mod 10)) as [b1|] eqn:Hb1; [|apply lookup_ge_None in Hb1; lia].
  destruct (decide (i = Z.to_nat (e mod 10))) as [->|Hne].
  - rewrite list_lookup_insert_eq by (by eapply lookup_lt_Some). intros [= <-]. eapply bucket_touched; [by apply Hb|done|done|lia|lia|done].
  - rewrite list_lookup_insert_ne by done. intros Hi. pose proof (lookup_lt_Some _ _ _ Hi).
    eapply bucket_other; [by apply Hb|done|lia|lia].
Qed.

Lemma empty_ring E : ring_ok [] E emptyBuckets.
Proof.
  split; [done|]. intros i b [-> Hi]%lookup_replicate. split; [|by intros x ?%elem_of_nil].
  destruct (decide (i = 0%nat)) as [->|]; [left|right]; done.
Qed.

Lemma ring_after_ok h : Forall (λ x, 0 ≤ fst x < 2 ^ 64) h → StronglySorted (λ x y, fst x ≤ fst y) h → Z.of_nat (length h) < 2 ^ 32 →
  ∀ E, (∀ x, last h = Some x → E = fst x) → ring_ok h E (ringAfter h) ∧ ∀ x, x ∈ h → fst x ≤ E.
Proof.
  induction h as [|[e f] h IH] using rev_ind; intros Hr Hs Hl E HE; [split; [apply empty_ring|by intros x ?%elem_of_nil]|].
  rewrite last_snoc in HE. specialize (HE _ eq_refl). cbn in HE. subst E. rewrite length_app in Hl. cbn in Hl.
  apply Forall_app in Hr as [Hr [He _]%Forall_cons]. apply StronglySorted_app in Hs as (Hle & Hs & _).
  assert (∀ x, x ∈ h → fst x ≤ e) as Hmax by (intros x Hx; exact (Hle x (e, f) Hx (list_elem_of_here _ _))).
  split; [|intros x [Hx| ->%list_elem_of_singleton]%elem_of_app; [by apply Hmax|done]].
  unfold ringAfter. rewrite foldl_app. cbn [foldl fst snd]. fold (ringAfter h).
  set (E0 := match last h with Some x => fst x | None => e end).
  destruct (IH Hr Hs ltac:(lia) E0) as [Hok Hmax0].
  { intros x Hx. unfold E0. by rewrite Hx. }
  eapply touch_ring; [exact Hok|exact Hmax0| |exact He|lia].
  unfold E0. destruct (last h) as [x|] eqn:Hx; [|done]. apply Hmax. apply last_Some in Hx as [h' ->].
  apply elem_of_app. right. apply list_elem_of_here.
Qed.

Lemma window_totals_sum bs E : ∀ f s, foldl (λ t b, if inRing E b then (u32 (fst t + bfailures b), u32 (snd t + bsuccesses b)) else t)
    (u32 f, u32 s) bs =
  (u32 (f + zsum (map (λ b, if inRing E b then bfailures b else 0) bs)), u32 (s + zsum (map (λ b, if inRing E b then bsuccesses b else 0) bs))).
Proof.
  induction bs as [|b bs IH]; intros f s; cbn [foldl map zsum fst snd]; [by rewrite !Z.add_0_r|].
  destruct (inRing E b); [|by rewrite IH, !Z.add_0_l].
  replace (u32 (u32 f + bfailures b), u32 (u32 s + bsuccesses b)) with (u32 (f + bfailures b), u32 (s + bsuccesses b))
    by (unfold u32; by rewrite !Zplus_mod_idemp_l).
  rewrite IH. by rewrite !Z.add_assoc.
Qed.

(** Counting by residues counts everything once. *)
Lemma count_residues (P : outcome → bool) h : zsum (map (λ i, countIf (λ x, P x && (fst x mod 10 =? Z.of_nat i)) h) (seq 0 10)) = countIf P h.
Proof.
  induction h as [|x h IH]; [done|]. change (x :: h) with ([x] ++ h).
  assert (∀ Q, countIf Q ([x] ++ h) = (if Q x then 1 else 0) + countIf Q h) as Hc by (intros Q; by rewrite count_if_app, count_if_single).
  rewrite Hc, <- IH. set (g := λ i, countIf (λ y, P y && (fst y mod 10 =? Z.of_nat i)) h).
  rewrite (map_ext _ (λ i, (if P x && (fst x mod 10 =? Z.of_nat i) then 1 else 0) + g i)) by (intros i; apply Hc).
  clearbody g. cbn [seq map zsum].
  destruct (P x); cbn [andb]; [|lia]. pose proof (Z.mod_pos_bound (fst x) 10 ltac:(lia)) as Hm.
  assert (∀ i, (if fst x mod 10 =? Z.of_nat i then 1 else 0) = if decide (fst x mod 10 = Z.of_nat i) then 1 else 0) as Hd
    by (intros i; destruct (Z.eqb_spec (fst x mod 10) (Z.of_nat i)); case_decide; done).
  rewrite !Hd. repeat case_decide; lia.
Qed.

(** The share of a bucket. *)
Lemma bucket_share h E i b f : bucket_ok h E i b → (∀ x, x ∈ h → fst x ≤ E) →
  (if inRing E b then (if f : bool then bfailures b else bsuccesses b) else 0) =
  countIf (λ x, inWindowOf E f x && (fst x mod 10 =? Z.of_nat i)) h.
Proof.
  intros [Hc Hr] Hmax. unfold inRing, rollingBucketCount.
  destruct ((E - 10 + 1 <=? bepoch b) && (bepoch b <=? E)) eqn:Hin.
  - apply andb_true_iff in Hin as [H1%Z.leb_le H2%Z.leb_le]. destruct Hc as [(Hm & Hf & Hs)|(H0 & Hi & Hf & Hs)].
    + transitivity (countIf (at_ (bepoch b) f) h); [by destruct f|]. apply count_if_ext. intros x Hx. unfold at_, inWindowOf.
      destruct (Z.eqb_spec (fst x) (bepoch b)) as [Heq|Hne]; cbn [andb].
      * rewrite Heq, Hm, Z.eqb_refl, andb_true_r. rewrite (proj2 (Z.ltb_lt _ _)), (proj2 (Z.leb_le _ _)) by lia. done.
      * symmetry. apply not_true_iff_false. intros Ht. apply andb_true_iff in Ht as [Ht Hm'%Z.eqb_eq].
        apply andb_true_iff in Ht as [Ht _]. apply andb_true_iff in Ht as [Hw%Z.ltb_lt _]. apply Hne. symmetry. by apply Hr.
    + transitivity 0; [by destruct f|]. symmetry. apply count_if_zero. intros x Hx. apply not_true_iff_false. intros Ht.
      apply andb_true_iff in Ht as [Ht Hm'%Z.eqb_eq]. apply andb_true_iff in Ht as [Ht _]. apply andb_true_iff in Ht as [Hw%Z.ltb_lt _].
      pose proof (Hr x Hx Hw Hm') as Hb. rewrite <- Hb, H0 in Hm'. rewrite Zmod_0_l in Hm'. lia.
  - symmetry. apply count_if_zero. intros x Hx. apply not_true_iff_false. intros Ht.
    apply andb_true_iff in Ht as [Ht Hm'%Z.eqb_eq]. apply andb_true_iff in Ht as [Ht _]. apply andb_true_iff in Ht as [Hw%Z.ltb_lt Hle%Z.leb_le].
    pose proof (Hr x Hx Hw Hm') as Hb. apply andb_false_iff in Hin as [Hn%Z.leb_gt|Hn%Z.leb_gt]; lia.
Qed.

Lemma ring_sum h E bs f : ring_ok h E bs → (∀ x, x ∈ h → fst x ≤ E) →
  zsum (map (λ b, if inRing E b then (if f : bool then bfailures b else bsuccesses b) else 0) bs) = countIf (inWindowOf E f) h.
Proof.
  intros [Hl Hb] Hmax. rewrite <- (count_residues (inWindowOf E f) h). f_equal. apply list_eq. intros i.
  change (map ?g ?l) with (g <$> l). rewrite !list_lookup_fmap. destruct (bs !! i) as [b|] eqn:Hi.
  - pose proof (lookup_lt_Some _ _ _ Hi). rewrite lookup_seq_lt by lia. cbn. f_equal. by apply bucket_share, Hmax; apply Hb.
  - apply lookup_ge_None in Hi. rewrite lookup_seq_ge by lia. done.
Qed.

(** ** Results *)

(** C14: the breaker is well formed under every interleaving: with word-sized
    thresholds, after any steps of concurrent callers the failure count of a
    closed breaker is below its threshold, an open breaker counts nothing, a
    half-open one has between one and [HalfOpenMaxCalls] calls, and the
    transitions announced to the callback form a chain of legal steps from
    closed to the current state. *)
Theorem breaker_well_formed rateTrips nm cfg s : config_typed cfg → breaker_reachable rateTrips nm cfg s →
  let cb := breaker s in
  (match state cb with
   | StateClosed => 0 ≤ failures cb < FailureThreshold (config cb) ∧ halfOpenCalls cb = 0
   | StateOpen => failures cb = 0 ∧ halfOpenCalls cb = 0
   | StateHalfOpen => failures cb = 0 ∧ 1 ≤ halfOpenCalls cb ≤ HalfOpenMaxCalls (config cb)
   end) ∧ 0 ≤ successes cb < 2 ^ 32 ∧ length (buckets cb) = 10%nat ∧
  (hasCallback (config cb) = true → follow StateClosed (announced cb) = Some (state cb)).
Proof.
  intros Hcfg Hr. destruct (reachable_ok rateTrips nm cfg s Hcfg Hr) as [_ Hn Hs Hb Hch]. cbv zeta.
  split_and!; [done|apply Hs|apply Hs|done|]. intros Hcb. by rewrite Hcb in Hch.
Qed.

Definition quickConfig : Config := mkConfig 1 2 (30 * second) 3 true false 0 0.
Definition never : Z → Z → bool := λ _ _, false.
Definition tripped : shared := mkShared (afterLocked never (New "pay" quickConfig 0) 5 true) 0.

Lemma tripped_reachable : breaker_reachable never "pay" quickConfig tripped.
Proof. eapply br_step; [apply (br_new never "pay" quickConfig 0)|]. apply st_locked. Qed.

Lemma breaker_well_formed_witness : state (breaker tripped) = StateOpen ∧ failures (breaker tripped) = 0 ∧
  follow StateClosed (announced (breaker tripped)) = Some StateOpen.
Proof.
  assert (config_typed quickConfig) as Hc by (unfold config_typed; cbn; lia).
  destruct (breaker_well_formed never "pay" quickConfig tripped Hc tripped_reachable) as ([Hf _] & _ & _ & Hch).
  split_and!; [reflexivity|exact Hf|exact (Hch eq_refl)].
Defined.

(** C13: an open breaker recovers: from every reachable open state, once the
    timeout has passed since the last failure, [SuccessThreshold] successful
    calls in a row are all let through and close the breaker, provided that the
    half-open state admits that many. *)
Theorem breaker_recovers rateTrips nm cfg s l : config_typed cfg → breaker_reachable rateTrips nm cfg s →
  let cb := breaker s in
  state cb = StateOpen → SuccessThreshold (config cb) ≤ HalfOpenMaxCalls (config cb) →
  Forall succeeds l → (∀ a, head l = Some a → Timeout (config cb) ≤ startTime a - lastFailureTime cb) →
  Z.of_nat (length l) = SuccessThreshold (config cb) →
  ∃ cb', executeAll rateTrips cb l = (cb', replicate (length l) None) ∧ state cb' = StateClosed ∧ failures cb' = 0.
Proof.
  intros Hcfg Hr cb Hst Hle Hall Hhd Hlen. eapply recovers; try done. by eapply reachable_ok.
Qed.

Definition goodCall (t : Z) : attempt := mkAttempt t t false false false.

Lemma breaker_recovers_witness : ∃ cb', executeAll never (breaker tripped) [goodCall (40 * second); goodCall (41 * second)] = (cb', [None; None]) ∧
  state cb' = StateClosed.
Proof.
  destruct (breaker_recovers never "pay" quickConfig tripped [goodCall (40 * second); goodCall (41 * second)]) as (cb' & H1 & H2 & _).
  - unfold config_typed. cbn. lia.
  - apply tripped_reachable.
  - reflexivity.
  - vm_compute. discriminate.
  - repeat constructor.
  - intros a [= <-]. vm_compute. discriminate.
  - reflexivity.
  - exists cb'. by split.
Defined.

(** A half-open period lets in few calls: from every reachable half-open
    state, whatever steps concurrent callers take, as long as the breaker stays
    half-open the calls it admits and those it has counted are at most
    [HalfOpenMaxCalls]. *)
Theorem half_open_admits_few rateTrips nm cfg s n s' : config_typed cfg → breaker_reachable rateTrips nm cfg s →
  state (breaker s) = StateHalfOpen → half_open_run rateTrips s n s' →
  halfOpenCalls (breaker s) + Z.of_nat n ≤ HalfOpenMaxCalls (config (breaker s)).
Proof. intros Hcfg Hr Hst Hrun. eapply half_open_bound; [done| |done]. by eapply reachable_ok. Qed.

Definition probing : shared := mkShared (fst (beforeRequest (breaker tripped) (40 * second))) 0.

Lemma half_open_admits_few_witness : ∃ s', half_open_run never probing 2 s' ∧
  halfOpenCalls (breaker probing) + 2 ≤ HalfOpenMaxCalls (config (breaker probing)).
Proof.
  assert (breaker_reachable never "pay" quickConfig probing) as Hr by
    (eapply br_step; [apply tripped_reachable|apply (st_before never (breaker tripped) 0 (40 * second))]).
  assert (half_open_run never probing 2
    (mkShared (fst (beforeRequest (fst (beforeRequest (breaker probing) 0)) 0)) 0)) as Hrun.
  { eapply (ho_step never _ 1 _ 1); [apply (st_before never (breaker probing) 0 0)|reflexivity|].
    eapply (ho_step never _ 1 _ 0); [apply (st_before never (fst (beforeRequest (breaker probing) 0)) 0 0)|reflexivity|apply ho_refl]. }
  eexists. split; [exact Hrun|].
  eapply (half_open_admits_few never "pay" quickConfig probing 2 _); [unfold config_typed; cbn; lia|exact Hr|reflexivity|exact Hrun].
Defined.

(** The ring counts the window: after outcomes whose epochs do not
    decrease, the totals read at the last epoch are the numbers of failures and
    of successes of the last ten epochs, although ten buckets are reused for
    all epochs. *)
Theorem window_totals_exact h e f : Forall (λ x, 0 ≤ fst x < 2 ^ 64) (h ++ [(e, f)]) →
  StronglySorted (λ x y, fst x ≤ fst y) (h ++ [(e, f)]) → Z.of_nat (length (h ++ [(e, f)])) < 2 ^ 32 →
  windowTotals (ringAfter (h ++ [(e, f)])) e =
  (countIf (inWindowOf e true) (h ++ [(e, f)]), countIf (inWindowOf e false) (h ++ [(e, f)])).
Proof.
  intros Hr Hs Hl. destruct (ring_after_ok _ Hr Hs Hl e) as [Hok Hmax].
  { intros x. rewrite last_snoc. by intros [= <-]. }
  unfold windowTotals. change (0, 0) with (u32 0, u32 0). rewrite window_totals_sum, !Z.add_0_l.
  rewrite (ring_sum _ _ _ true Hok Hmax), (ring_sum _ _ _ false Hok Hmax).
  pose proof (count_if_range (inWindowOf e true) (h ++ [(e, f)])). pose proof (count_if_range (inWindowOf e false) (h ++ [(e, f)])).
  by rewrite !u32_id by lia.
Qed.

Lemma window_totals_exact_witness :
  windowTotals (ringAfter ([(3, true); (5, false); (12, true)] ++ [(13, true)])) 13 = (2, 1).
Proof.
  rewrite (window_totals_exact [(3, true); (5, false); (12, true)] 13 true); [vm_compute; reflexivity|..].
  - repeat constructor; vm_compute; congruence.
  - repeat constructor; vm_compute; discriminate.
  - vm_compute. reflexivity.
Defined.

(** With the default configuration, calls whose context is already cancelled
    use up the half-open slots without reporting back; three of them leave the
    breaker half-open for ever: every later call is rejected at any time. *)
Definition failingCall (t : Z) : attempt := mkAttempt t t false true true.
Definition cancelledCall (t : Z) : attempt := mkAttempt t t true false false.

Theorem cancelled_probes_wedge_breaker rateTrips :
  let '(cb, _) := executeAll rateTrips (New "pay" DefaultConfig 0)
    (replicate 5 (failingCall second) ++ replicate 3 (cancelledCall (60 * second))) in
  state cb = StateHalfOpen ∧ ∀ l, executeAll rateTrips cb l = (cb, replicate (length l) (Some ErrTooManyRequests)).
Proof.
  destruct (executeAll rateTrips _ _) as [cb rs] eqn:E. vm_compute in E. injection E as <- _.
  split; [reflexivity|]. intros l. apply wedged_rejects. split; [reflexivity|cbn; lia].
Qed.

(** A configuration that asks for more successes than probes never recovers,
    even when every probe succeeds. *)
Theorem success_threshold_out_of_reach rateTrips :
  let '(cb, _) := executeAll rateTrips (New "pay" (mkConfig 1 4 second 3 false false 0 0) 0)
    (failingCall second :: map goodCall [10 * second; 11 * second; 12 * second]) in
  state cb = StateHalfOpen ∧ ∀ l, executeAll rateTrips cb l = (cb, replicate (length l) (Some ErrTooManyRequests)).
Proof.
  destruct (executeAll rateTrips _ _) as [cb rs] eqn:E. vm_compute in E. injection E as <- _.
  split; [reflexivity|]. intros l. apply wedged_rejects. split; [reflexivity|cbn; lia].
Qed.

(** The lock-free success path writes after its check: a success that was
    checked while the breaker was closed can be counted while it is half-open,
    and then one probe closes a breaker that asks for two. *)
Theorem stale_success_closes_early rateTrips :
  let cfg := mkConfig 1 2 second 3 false false 0 0 in
  let cb0 := New "pay" cfg 0 in
  let cb1 := afterLocked rateTrips cb0 second true in
  let cb2 := fst (beforeRequest cb1 (10 * second)) in
  let cb3 := addSuccess cb2 in
  let cb4 := afterLocked rateTrips cb3 (11 * second) false in
  breaker_reachable rateTrips "pay" cfg (mkShared cb4 0) ∧ state cb2 = StateHalfOpen ∧ state cb4 = StateClosed.
Proof.
  split_and!; [|reflexivity|reflexivity].
  eapply br_step; [eapply br_step; [eapply br_step; [eapply br_step; [eapply br_step; [apply (br_new _ _ _ 0)|]|]|]|]|].
  - apply (st_fast_check _ _ 0). reflexivity.
  - apply (st_locked _ _ 1 second true).
  - apply (st_before _ _ 1 (10 * second)).
  - apply (st_fast_add _ _ 0).
  - apply (st_locked _ _ 0 (11 * second) false).
Qed.
