(* ===== verification/Cache.v ===== *)
(** * Cache: the cache-aside layer (src/server-kit/go/cache)

    [cache.go]: the [Backend] interface and its in-memory implementation, the
    memo of misses of the penetration guard, [Get]/[Set]/[Delete]/
    [DeletePattern]/[Exists]/[GetOrSet], and the tag invalidator, whose
    membership markers live in the backend. The bounded shared loads of
    [loader.go] are in [SharedLoad].

    An operation reads the clock once, as its argument [now]; instants and
    durations are nanoseconds. A byte slice is an [option string], [None] being
    nil. The serializer of the configuration is a parameter; the callbacks are
    the list of what they are told. *)

From Stdlib Require Import ZArith Lia Ascii String Sorting.Sorted.
From stdpp Require Import base strings gmap fin_maps numbers sorting list.
From S2P Require Import Prelude GoStrings.

Open Scope string_scope.
Open Scope list_scope.
Open Scope Z_scope.

Inductive cache_error :=
| ErrNotFound
| ErrBackend (msg : string)
| ErrSerializer (msg : string)
| ErrCompute (msg : string)
| ErrLoadBusy | ErrLoadType | ErrLoadExecution
| ErrContext.

#[export] Instance cache_error_eq_dec : EqDecision cache_error.
Proof. solve_decision. Defined.

(** ** The storage interface *)

Class Backend (B : Type) := {
  bGet : B → Z → string → res cache_error (option string);
  bSet : B → Z → string → option string → Z → B * option cache_error;
  bDelete : B → string → B * option cache_error;
  bDeletePattern : B → string → B * (list string * option cache_error);
  bExists : B → Z → string → res cache_error bool
}.

(** What the cache relies on: a store whose entries are visible until they
    expire, in terms of what [view] says a reader sees at an instant. *)
Class BackendLaws (B : Type) `{Backend B} (view : B → Z → string → option (option string)) := {
  get_law b now k : bGet b now k = Ok (mjoin (view b now k));
  exists_law b now k : bExists b now k = Ok (bool_decide (is_Some (view b now k)));
  set_law b now k d ttl : ∃ b', bSet b now k d ttl = (b', None) ∧
    ∀ now' k', view b' now' k' =
      if decide (k' = k) then (if (ttl <=? 0) || (now' <=? now + ttl) then Some d else None)
      else view b now' k';
  delete_law b k : ∃ b', bDelete b k = (b', None) ∧
    ∀ now' k', view b' now' k' = if decide (k' = k) then None else view b now' k';
  pattern_law b p : ∃ b' ks, bDeletePattern b (p +:+ "*") = (b', (ks, None)) ∧
    (∀ now' k', view b' now' k' = if HasPrefix k' p then None else view b now' k') ∧
    (∀ k, k ∈ ks → HasPrefix k p = true ∧ ∃ now', is_Some (view b now' k)) ∧
    (∀ now' k, HasPrefix k p = true → is_Some (view b now' k) → k ∈ ks)
}.

(** ** The in-memory backend *)

(** [expiresAt = None] is the zero time. *)
Record memoryItem := mkItem { data : option string; expiresAt : option Z }.
Abbreviation MemoryBackend := (gmap string memoryItem).

Definition itemExpired (now : Z) (it : memoryItem) : bool :=
  match expiresAt it with Some e => e <? now | None => false end.

Definition memCleanup (m : MemoryBackend) (now : Z) : MemoryBackend :=
  filter (λ kv, itemExpired now kv.2 = false) m.

Definition memGet (m : MemoryBackend) (now : Z) (key : string) : res cache_error (option string) :=
  match m !! key with
  | None => Ok None
  | Some it => if itemExpired now it then Ok None else Ok (data it)
  end.

Definition memSet (m : MemoryBackend) (now : Z) (key : string) (value : option string) (ttl : Z) :
    MemoryBackend * option cache_error :=
  (<[key := mkItem value (if 0 <? ttl then Some (now + ttl) else None)]> m, None).

Definition memDelete (m : MemoryBackend) (key : string) : MemoryBackend * option cache_error :=
  (delete key m, None).

Definition patternPrefix (pattern : string) : string := TrimSuffix pattern "*".

(** Go ranges over the map in no fixed order; the removed keys are listed in
    one such order. *)
Definition memDeletePattern (m : MemoryBackend) (pattern : string) :
    MemoryBackend * (list string * option cache_error) :=
  let matched := filter (λ k, HasPrefix k (patternPrefix pattern) = true) (map_to_list m).*1 in
  (foldr delete m matched, (matched, None)).

Definition memExists (m : MemoryBackend) (now : Z) (key : string) : res cache_error bool :=
  match m !! key with
  | None => Ok false
  | Some it => if itemExpired now it then Ok false else Ok true
  end.

#[export] Instance memoryBackend : Backend MemoryBackend := {
  bGet := memGet; bSet := memSet; bDelete := memDelete;
  bDeletePattern := memDeletePattern; bExists := memExists
}.

(** ** The memo of misses *)

Record missMemo := mkMemo { entries : gmap string Z; mmax : Z; mttl : Z }.

Definition newMissMemo (maxEntries ttl : Z) : missMemo :=
  mkMemo ∅ (if maxEntries <=? 0 then 10000 else maxEntries) (if ttl <=? 0 then 2 * 10 ^ 9 else ttl).

Definition memoHas (m : missMemo) (key : string) (now : Z) : missMemo * bool :=
  match entries m !! key with
  | None => (m, false)
  | Some expiry =>
      if expiry <? now then (mkMemo (delete key (entries m)) (mmax m) (mttl m), false) else (m, true)
  end.

Definition memoFull (m : missMemo) : bool := mmax m <=? Z.of_nat (size (entries m)).

Definition memoDropExpired (m : missMemo) (now : Z) : missMemo :=
  mkMemo (filter (λ ke, (ke.2 <? now) = false) (entries m)) (mmax m) (mttl m).

Definition memoAdd (m : missMemo) (key : string) (now : Z) : missMemo :=
  let m := if memoFull m then memoDropExpired m now else m in
  if memoFull m then m else mkMemo (<[key := now + mttl m]> (entries m)) (mmax m) (mttl m).

Definition memoForget (m : missMemo) (key : string) : missMemo :=
  mkMemo (delete key (entries m)) (mmax m) (mttl m).

(** ** The cache *)

Record Config := mkConfig {
  DefaultTTL : Z; Prefix : string; ExpectedKeys : Z; PenetrationGuard : bool; PenetrationTTL : Z
}.

(** What [OnHit], [OnMiss] and [OnError] are called with. *)
Inductive notice := Hit (key : string) | Miss (key : string) | Error (key : string) (e : cache_error).

Record Cache (B : Type) := mkCache {
  config : Config; misses : option missMemo; backend : B; told : list notice
}.
Arguments mkCache {B}. Arguments config {B}. Arguments misses {B}. Arguments backend {B}. Arguments told {B}.

Definition New {B} (cfg : Config) (b : B) : Cache B :=
  let cfg := mkConfig (if DefaultTTL cfg =? 0 then 300 * 10 ^ 9 else DefaultTTL cfg) (Prefix cfg)
               (ExpectedKeys cfg) (PenetrationGuard cfg) (PenetrationTTL cfg) in
  mkCache cfg
    (if PenetrationGuard cfg then Some (newMissMemo (ExpectedKeys cfg) (PenetrationTTL cfg)) else None)
    b [].

Definition withMisses {B} (c : Cache B) (m : option missMemo) : Cache B :=
  mkCache (config c) m (backend c) (told c).
Definition withBackend {B} (c : Cache B) (b : B) : Cache B :=
  mkCache (config c) (misses c) b (told c).
Definition tell {B} (c : Cache B) (n : notice) : Cache B :=
  mkCache (config c) (misses c) (backend c) (told c ++ [n]).

Definition key {B} (c : Cache B) (k : string) : string := Prefix (config c) +:+ k.

(** The penetration guard's look at the memo. *)
Definition memoCheck {B} (c : Cache B) (fullKey : string) (now : Z) : Cache B * bool :=
  match misses c with
  | None => (c, false)
  | Some m => let '(m', known) := memoHas m fullKey now in (withMisses c (Some m'), known)
  end.

Section Ops.
Context {B : Type} `{Backend B} {V : Type}.
Variable Marshal : V → res cache_error (option string).
Variable Unmarshal : string → res cache_error V.

Definition CacheGet (c : Cache B) (now : Z) (k : string) : Cache B * res cache_error V :=
  let fullKey := key c k in
  let '(c, known) := memoCheck c fullKey now in
  if known then (tell c (Miss k), Err ErrNotFound) else
  match bGet (backend c) now fullKey with
  | Err e => (tell c (Error k e), Err e)
  | Ok None =>
      (tell (withMisses c ((λ m, memoAdd m fullKey now) <$> misses c)) (Miss k), Err ErrNotFound)
  | Ok (Some d) => (tell c (Hit k), Unmarshal d)
  end.

Definition entryTTL (c : Cache B) (ttl : list Z) : Z :=
  match ttl with t :: _ => if 0 <? t then t else DefaultTTL (config c) | [] => DefaultTTL (config c) end.

Definition forgetMiss (c : Cache B) (fullKey : string) : Cache B :=
  withMisses c ((λ m, memoForget m fullKey) <$> misses c).

Definition CacheSet (c : Cache B) (now : Z) (k : string) (value : V) (ttl : list Z) :
    Cache B * option cache_error :=
  let fullKey := key c k in
  let c := forgetMiss c fullKey in
  match Marshal value with
  | Err e => (c, Some e)
  | Ok d => let '(b, e) := bSet (backend c) now fullKey d (entryTTL c ttl) in (withBackend c b, e)
  end.

Definition CacheDelete (c : Cache B) (k : string) : Cache B * option cache_error :=
  let fullKey := key c k in
  let c := forgetMiss c fullKey in
  let '(b, e) := bDelete (backend c) fullKey in (withBackend c b, e).

Definition CacheDeletePattern (c : Cache B) (pattern : string) :
    Cache B * (list string * option cache_error) :=
  let '(b, r) := bDeletePattern (backend c) (key c pattern) in (withBackend c b, r).

Definition CacheExists (c : Cache B) (now : Z) (k : string) : res cache_error bool :=
  bExists (backend c) now (key c k).

(** One caller of [GetOrSet]: the look in the cache, then the body that the
    single-flight group runs once per key, which looks again. *)
Definition GetOrSet (c : Cache B) (now : Z) (k : string) (compute : res cache_error V) (ttl : list Z) :
    Cache B * res cache_error V :=
  match CacheGet c now k with
  | (c, Ok v) => (c, Ok v)
  | (c, Err _) =>
      match CacheGet c now k with
      | (c, Ok v) => (c, Ok v)
      | (c, Err _) =>
          match compute with
          | Err e => (c, Err e)
          | Ok v => ((CacheSet c now k v ttl).1, Ok v)
          end
      end
  end.

End Ops.

(** ** Tags *)

Definition tagMarkerNamespace : string := "__tag__:".
Definition tagMarkerTTL : Z := 30 * 24 * 3600 * 10 ^ 9.
Definition tagMarkerValue : option string := Some (String "001" "").

Section Tags.
Context {B : Type} `{Backend B}.

Definition tagPrefix (c : Cache B) (name : string) : string :=
  key c (tagMarkerNamespace +:+ name +:+ ":").

Definition tagMarker (c : Cache B) (name encoded : string) : string :=
  key c (tagMarkerNamespace +:+ name +:+ ":" +:+ encoded).

Fixpoint tagLoop (c : Cache B) (now : Z) (encoded : string) (tags : list string) : Cache B * option cache_error :=
  match tags with
  | [] => (c, None)
  | tag :: rest =>
      let name := TrimSpace tag in
      if String.eqb name "" then tagLoop c now encoded rest else
      match bSet (backend c) now (tagMarker c name encoded) tagMarkerValue tagMarkerTTL with
      | (b, Some e) => (withBackend c b, Some e)
      | (b, None) => tagLoop (withBackend c b) now encoded rest
      end
  end.

Definition Tag (c : Cache B) (now : Z) (k : string) (tags : list string) : Cache B * option cache_error :=
  let trimmed := TrimSpace k in
  if String.eqb trimmed "" || (length tags =? 0)%nat then (c, None)
  else tagLoop c now (hexEncode trimmed) tags.

(** The key a marker names, if its tail decodes to one. *)
Definition taggedKey (prefix marker : string) : option string :=
  match hexDecode (TrimPrefix marker prefix) with
  | Some raw => if String.eqb raw "" then None else Some raw
  | None => None
  end.

Fixpoint deleteTagged (c : Cache B) (prefix : string) (markers : list string) (firstErr : option cache_error) :
    Cache B * option cache_error :=
  match markers with
  | [] => (c, firstErr)
  | marker :: rest =>
      match taggedKey prefix marker with
      | None => deleteTagged c prefix rest firstErr
      | Some raw =>
          let '(b, e) := bDelete (backend c) raw in
          deleteTagged (withBackend c b) prefix rest (match firstErr with None => e | _ => firstErr end)
      end
  end.

Definition InvalidateTag (c : Cache B) (tag : string) : Cache B * option cache_error :=
  let name := TrimSpace tag in
  if String.eqb name "" then (c, None) else
  match bDeletePattern (backend c) (key c (tagMarkerNamespace +:+ name +:+ ":*")) with
  | (b, (_, Some e)) => (withBackend c b, Some e)
  | (b, (markers, None)) => deleteTagged (withBackend c b) (tagPrefix c name) markers None
  end.

End Tags.

(** ** The in-memory backend keeps the interface's promises *)

Definition memView (m : MemoryBackend) (now : Z) (k : string) : option (option string) :=
  match m !! k with
  | None => None
  | Some it => if itemExpired now it then None else Some (data it)
  end.

Lemma lookup_foldr_delete {A} (ks : list string) (m : gmap string A) k :
  foldr delete m ks !! k = if decide (k ∈ ks) then None else m !! k.
Proof.
  induction ks as [|k' ks IH]; cbn [foldr]; [by rewrite decide_False by set_solver|].
  destruct (decide (k = k')) as [->|Hne].
  - by rewrite lookup_delete_eq, decide_True by set_solver.
  - rewrite lookup_delete_ne by done. rewrite IH. apply decide_ext. set_solver.
Qed.

Lemma mem_matched (m : MemoryBackend) p k :
  k ∈ filter (λ k, HasPrefix k p = true) (map_to_list m).*1 ↔ HasPrefix k p = true ∧ is_Some (m !! k).
Proof.
  rewrite list_elem_of_filter, list_elem_of_fmap. apply and_iff_compat_l. split.
  - intros ((k' & it) & -> & Hin%elem_of_map_to_list). by exists it.
  - intros [it Hit]. exists (k, it). split; [done|]. by apply elem_of_map_to_list.
Qed.

#[export] Instance memory_laws : BackendLaws MemoryBackend memView.
Proof.
  split; intros.
  - cbn. unfold memGet, memView. destruct (_ !! _) as [it|]; [|done]. by destruct (itemExpired now it).
  - cbn. unfold memExists, memView. destruct (_ !! _) as [it|]; [|by rewrite bool_decide_eq_false_2 by by intros []].
    destruct (itemExpired now it); [by rewrite bool_decide_eq_false_2 by by intros []|].
    by rewrite bool_decide_eq_true_2.
  - eexists. split; [reflexivity|]. intros now' k'. unfold memView. destruct (decide (k' = k)) as [->|Hne].
    + rewrite lookup_insert_eq. unfold itemExpired. cbn [expiresAt data].
      destruct (Z.ltb_spec 0 ttl), (Z.leb_spec ttl 0); try lia; cbn [orb]; [|done].
      destruct (Z.ltb_spec (now + ttl) now'), (Z.leb_spec now' (now + ttl)); (done || lia).
    + by rewrite lookup_insert_ne.
  - eexists. split; [reflexivity|]. intros now' k'. unfold memView. destruct (decide (k' = k)) as [->|Hne].
    + by rewrite lookup_delete_eq.
    + by rewrite lookup_delete_ne.
  - do 2 eexists. split; [reflexivity|]. unfold patternPrefix. rewrite trim_suffix_app. split_and!.
    + intros now' k'. unfold memView. rewrite lookup_foldr_delete. case_decide as Hin; rewrite mem_matched in Hin.
      * destruct Hin as [-> _]. done.
      * destruct (HasPrefix k' p); [|done]. destruct (b !! k') eqn:E; [|done]. naive_solver.
    + intros k [Hp [it Hit]]%mem_matched. split; [done|]. unfold memView, itemExpired. rewrite Hit.
      destruct (expiresAt it) as [e|]; [exists e; rewrite Z.ltb_irrefl; by eexists|exists 0; by eexists].
    + intros now' k Hp [d Hd]. apply mem_matched. split; [done|]. unfold memView in Hd.
      destruct (b !! k); [by eexists|done].
Qed.

(** ** The abstract cache: an expiring map *)

Section Refinement.
Context {B : Type} `{Backend B} (view : B → Z → string → option (option string)) {Laws : BackendLaws B view}.
Context {V : Type} (Marshal : V → res cache_error (option string)) (Unmarshal : string → res cache_error V).

Abbreviation Expiring := (gmap string (V * option Z)).

Definition specGet (m : Expiring) (now : Z) (k : string) : option V :=
  match m !! k with
  | Some (v, e) => if match e with Some e => e <? now | None => false end then None else Some v
  | None => None
  end.

Definition specSet (m : Expiring) (now : Z) (k : string) (v : V) (ttl : Z) : Expiring :=
  <[k := (v, if 0 <? ttl then Some (now + ttl) else None)]> m.

Inductive op :=
| OpGet (k : string)
| OpSet (k : string) (v : V) (ttl : list Z)
| OpDelete (k : string)
| OpDeletePrefix (p : string)
| OpExists (k : string)
| OpGetOrSet (k : string) (compute : res cache_error V) (ttl : list Z).

Inductive answer :=
| AValue (r : res cache_error V) | ADone (e : option cache_error) | ABool (r : res cache_error bool).

Definition perform (c : Cache B) (now : Z) (o : op) : Cache B * answer :=
  match o with
  | OpGet k => let '(c, r) := CacheGet Unmarshal c now k in (c, AValue r)
  | OpSet k v ttl => let '(c, e) := CacheSet Marshal c now k v ttl in (c, ADone e)
  | OpDelete k => let '(c, e) := CacheDelete c k in (c, ADone e)
  | OpDeletePrefix p => let '(c, (_, e)) := CacheDeletePattern c (p +:+ "*") in (c, ADone e)
  | OpExists k => (c, ABool (CacheExists c now k))
  | OpGetOrSet k compute ttl =>
      let '(c, r) := GetOrSet Marshal Unmarshal c now k compute ttl in (c, AValue r)
  end.

(** What a caller expects of an operation; [dflt] is the default lifetime. A
    value the serializer refuses is not stored. *)
Definition specStore (m : Expiring) (now : Z) (k : string) (v : V) (ttl : Z) : Expiring * option cache_error :=
  match Marshal v with Ok _ => (specSet m now k v ttl, None) | Err e => (m, Some e) end.

Definition lifetime (dflt : Z) (ttl : list Z) : Z :=
  match ttl with t :: _ => if 0 <? t then t else dflt | [] => dflt end.

Definition expect (dflt : Z) (m : Expiring) (now : Z) (o : op) : Expiring * answer :=
  match o with
  | OpGet k => (m, AValue (match specGet m now k with Some v => Ok v | None => Err ErrNotFound end))
  | OpSet k v ttl => let '(m, e) := specStore m now k v (lifetime dflt ttl) in (m, ADone e)
  | OpDelete k => (delete k m, ADone None)
  | OpDeletePrefix p => (filter (λ kv, HasPrefix kv.1 p = false) m, ADone None)
  | OpExists k => (m, ABool (Ok (bool_decide (is_Some (specGet m now k)))))
  | OpGetOrSet k compute ttl =>
      match specGet m now k, compute with
      | Some v, _ => (m, AValue (Ok v))
      | None, Err e => (m, AValue (Err e))
      | None, Ok v => ((specStore m now k v (lifetime dflt ttl)).1, AValue (Ok v))
      end
  end.

Fixpoint performAll (c : Cache B) (os : list (Z * op)) : list answer :=
  match os with
  | [] => []
  | (now, o) :: rest => let '(c, a) := perform c now o in a :: performAll c rest
  end.

Fixpoint expectAll (dflt : Z) (m : Expiring) (os : list (Z * op)) : list answer :=
  match os with
  | [] => []
  | (now, o) :: rest => let '(m, a) := expect dflt m now o in a :: expectAll dflt m rest
  end.

(** A serializer that gives back what it encoded, and never encodes to nil. *)
Definition serializer_ok : Prop :=
  ∀ v d, Marshal v = Ok d → ∃ s, d = Some s ∧ Unmarshal s = Ok v.

(** From instant [t] on, the backend shows what the map holds, and a memoized
    miss is a miss. *)
Record simulates (t : Z) (c : Cache B) (m : Expiring) : Prop := {
  sim_view : ∀ now k, t ≤ now →
    view (backend c) now (key c k) =
      match specGet m now k with
      | Some v => match Marshal v with Ok d => Some d | Err _ => None end
      | None => None
      end;
  sim_stored : ∀ k v e, m !! k = Some (v, e) → ∃ d, Marshal v = Ok d;
  sim_memo : ∀ memo fk e, misses c = Some memo → entries memo !! fk = Some e →
    ∀ now, t ≤ now ≤ e → view (backend c) now fk = None
}.

Lemma key_inj (c : Cache B) k k' : key c k = key c k' ↔ k = k'.
Proof. unfold key. split; [apply append_inj_l|by intros ->]. Qed.

Lemma spec_get_expired m now now' k : now ≤ now' → specGet m now k = None → specGet m now' k = None.
Proof.
  unfold specGet. destruct (m !! k) as [[v [e|]]|]; try done. intros Hle.
  destruct (Z.ltb_spec e now), (Z.ltb_spec e now'); try done; lia.
Qed.

Lemma spec_get_set m now now' k v ttl k' :
  specGet (specSet m now k v ttl) now' k' =
    if decide (k' = k) then (if (ttl <=? 0) || (now' <=? now + ttl) then Some v else None) else specGet m now' k'.
Proof.
  unfold specGet, specSet. destruct (decide (k' = k)) as [->|Hne].
  - rewrite lookup_insert_eq. destruct (Z.ltb_spec 0 ttl), (Z.leb_spec ttl 0); try lia; cbn [orb]; [|done].
    destruct (Z.ltb_spec (now + ttl) now'), (Z.leb_spec now' (now + ttl)); (done || lia).
  - by rewrite lookup_insert_ne.
Qed.

Lemma spec_get_delete m now k k' : specGet (delete k m) now k' = if decide (k' = k) then None else specGet m now k'.
Proof.
  unfold specGet. destruct (decide (k' = k)) as [->|]; [by rewrite lookup_delete_eq|by rewrite lookup_delete_ne].
Qed.

Lemma spec_get_filter m now p k :
  specGet (filter (λ kv, HasPrefix kv.1 p = false) m) now k = if HasPrefix k p then None else specGet m now k.
Proof.
  unfold specGet. rewrite map_lookup_filter. destruct (m !! k) as [[v e]|]; cbn; [|by destruct (HasPrefix k p)].
  destruct (HasPrefix k p) eqn:E; cbn.
  - by rewrite option_guard_False by (cbn; congruence).
  - by rewrite option_guard_True.
Qed.

Lemma sim_later t t' c m : t ≤ t' → simulates t c m → simulates t' c m.
Proof.
  intros Hle [Hv Hst Hm]. split; [intros; apply Hv; lia|exact Hst|]. intros. eapply Hm; [done..|lia].
Qed.

(** The backend's view of a simulated key is never a nil slice. *)
Lemma sim_get t c m now k : serializer_ok → simulates t c m → t ≤ now →
  match specGet m now k with
  | Some v => ∃ s, view (backend c) now (key c k) = Some (Some s) ∧ Unmarshal s = Ok v
  | None => view (backend c) now (key c k) = None
  end.
Proof.
  intros Hs Hsim Hle. rewrite (sim_view _ _ _ Hsim) by done. destruct (specGet m now k) as [v|] eqn:E; [|done].
  unfold specGet in E. destruct (m !! k) as [[v' e]|] eqn:Em; [|done].
  destruct (match e with Some e => e <? now | None => false end); [done|]. injection E as ->.
  destruct (sim_stored _ _ _ Hsim _ _ _ Em) as [d Hd]. rewrite Hd.
  destruct (Hs _ _ Hd) as (s & -> & Hu). by exists s.
Qed.

(** Steps that touch neither configuration nor backend. *)
Lemma sim_same t c c' m : simulates t c m → config c' = config c → backend c' = backend c →
  (∀ memo', misses c' = Some memo' → ∃ memo, misses c = Some memo ∧
     ∀ fk e, entries memo' !! fk = Some e → entries memo !! fk = Some e ∨ ∀ now, t ≤ now → view (backend c) now fk = None) →
  simulates t c' m.
Proof.
  intros [Hv Hst Hm] Hc Hb Hmemo. split.
  - intros now k Hle. unfold key. rewrite Hb, Hc. by apply Hv.
  - exact Hst.
  - intros memo' fk e Hm' He now Hle. rewrite Hb. destruct (Hmemo _ Hm') as (memo & Hmm & Hin).
    destruct (Hin _ _ He) as [Hold|Hnone]; [by eapply Hm|apply Hnone; lia].
Qed.

Lemma memo_check_same (c : Cache B) fk now c' b : memoCheck c fk now = (c', b) →
  config c' = config c ∧ backend c' = backend c ∧
  (∀ memo', misses c' = Some memo' → ∃ memo, misses c = Some memo ∧ entries memo' ⊆ entries memo) ∧
  (b = true → ∃ memo e, misses c = Some memo ∧ entries memo !! fk = Some e ∧ now ≤ e).
Proof.
  unfold memoCheck, memoHas. destruct (misses c) as [m|] eqn:Em.
  - destruct (entries m !! fk) as [e|] eqn:Ee; [destruct (Z.ltb_spec e now)|]; intros [= <- <-]; cbn;
      (split_and!; [done|done| |]); try done.
    + intros ? [= <-]. exists m. split; [done|]. apply delete_subseteq.
    + intros ? [= <-]. by exists m.
    + by exists m, e.
    + intros ? [= <-]. by exists m.
  - intros [= <- <-]. rewrite Em. by split_and!.
Qed.

Lemma memo_add_entries m fk now fk' e : entries (memoAdd m fk now) !! fk' = Some e →
  entries m !! fk' = Some e ∨ fk' = fk.
Proof.
  unfold memoAdd. set (m1 := if memoFull m then _ else m).
  assert (∀ k e, entries m1 !! k = Some e → entries m !! k = Some e) as Hsub.
  { intros k e1. unfold m1. destruct (memoFull m); [|done]. intros ?%map_lookup_filter_Some. naive_solver. }
  destruct (memoFull m1); cbn; [eauto|]. intros [[<- _]|[_ ?]]%lookup_insert_Some; eauto.
Qed.

Lemma get_refines c m now k c' r : serializer_ok → simulates now c m →
  CacheGet Unmarshal c now k = (c', r) →
  r = match specGet m now k with Some v => Ok v | None => Err ErrNotFound end ∧
  simulates now c' m ∧ config c' = config c.
Proof.
  intros Hs Hsim. unfold CacheGet. destruct (memoCheck c (key c k) now) as [c1 known] eqn:Ec.
  apply memo_check_same in Ec as (Hc & Hb & Hsub & Hknown).
  assert (simulates now c1 m) as Hsim1.
  { eapply sim_same; [done..|]. intros memo' Hm'. destruct (Hsub _ Hm') as (memo & ? & Hin).
    exists memo. split; [done|]. intros fk e He. left. by eapply lookup_weaken. }
  pose proof (sim_get _ _ _ now k Hs Hsim ltac:(lia)) as Hg. destruct known.
  - destruct Hknown as (memo & e & Hm & He & Hle); [done|]. intros [= <- <-].
    pose proof (sim_memo _ _ _ Hsim _ _ _ Hm He now ltac:(lia)) as Hnone. split_and!; [|by eapply sim_same; eauto|done].
    destruct (specGet m now k); [|done]. destruct Hg as (s & ? & _). congruence.
  - rewrite get_law, Hb. destruct (specGet m now k) as [v|] eqn:Eg.
    + destruct Hg as (s & -> & Hu). cbn. intros [= <- <-]. split_and!; [done|by eapply sim_same; eauto|done].
    + rewrite Hg. cbn. intros [= <- <-]. split_and!; [done| |done].
      eapply (sim_same now c1); [done|done|done|]. cbn. intros memo' Hm'. apply fmap_Some in Hm' as (memo & Hmm & ->).
      exists memo. split; [done|]. intros fk e [?| ->]%memo_add_entries; [by left|right].
      intros now' Hle. rewrite Hb. pose proof (sim_get _ _ _ now' k Hs Hsim ltac:(lia)) as Hg'.
      by rewrite (spec_get_expired _ _ _ _ Hle Eg) in Hg'.
Qed.

(** A write: the backend's view changes as the map does, and no memoized miss
    covers a key that became visible. *)
Lemma sim_write t c c' m m' : simulates t c m → config c' = config c →
  (∀ now k, t ≤ now → view (backend c') now (key c k) =
     match specGet m' now k with Some v => match Marshal v with Ok d => Some d | Err _ => None end | None => None end) →
  (∀ k v e, m' !! k = Some (v, e) → ∃ d, Marshal v = Ok d) →
  (∀ memo' fk e, misses c' = Some memo' → entries memo' !! fk = Some e →
     (∃ memo, misses c = Some memo ∧ entries memo !! fk = Some e) ∧
     ∀ now, view (backend c) now fk = None → view (backend c') now fk = None) →
  simulates t c' m'.
Proof.
  intros [Hv Hst Hm] Hc Hview Hstored Hmemo. split; [|exact Hstored|].
  - intros now k Hle. unfold key. rewrite Hc. by apply Hview.
  - intros memo' fk e Hm' He now Hle. destruct (Hmemo _ _ _ Hm' He) as [(memo & Hmm & Hin) Hkeep].
    apply Hkeep. by eapply Hm.
Qed.

Lemma forget_entries (c : Cache B) fk memo' fk' e : misses (forgetMiss c fk) = Some memo' →
  entries memo' !! fk' = Some e → (∃ memo, misses c = Some memo ∧ entries memo !! fk' = Some e) ∧ fk' ≠ fk.
Proof.
  intros Hm'. cbn in Hm'. apply fmap_Some in Hm' as (memo & Hmm & ->). cbn.
  intros [? ?]%lookup_delete_Some. split; [by exists memo|done].
Qed.

Lemma set_refines c m now k v ttl c' e : simulates now c m →
  CacheSet Marshal c now k v ttl = (c', e) →
  ∃ m', specStore m now k v (lifetime (DefaultTTL (config c)) ttl) = (m', e) ∧
    simulates now c' m' ∧ config c' = config c.
Proof.
  intros Hsim. unfold CacheSet, specStore. destruct (Marshal v) as [d|err] eqn:Ed.
  - cbn [backend]. destruct (set_law (backend c) now (key c k) d (entryTTL (forgetMiss c (key c k)) ttl))
      as (b' & Eb & Hview).
    cbn [backend forgetMiss withMisses] in *. rewrite Eb. intros [= <- <-].
    eexists. split; [reflexivity|]. split; [|done].
    eapply sim_write; [exact Hsim|done| | |].
    + intros now' k' Hle. cbn. rewrite Hview, spec_get_set.
      change (entryTTL (forgetMiss c (key c k)) ttl) with (lifetime (DefaultTTL (config c)) ttl).
      destruct (decide (k' = k)) as [->|Hne].
      * rewrite decide_True by done. match goal with |- context [if ?x then Some d else None] => destruct x end; [|done].
        by rewrite Ed.
      * rewrite decide_False by (by rewrite key_inj). by apply (sim_view _ _ _ Hsim).
    + intros k' v' e'. unfold specSet. intros [[<- [= <- _]]|[_ ?]]%lookup_insert_Some; [by eexists|].
      by eapply sim_stored.
    + intros memo' fk e' Hm' He'. destruct (forget_entries c _ _ _ _ Hm' He') as [? Hne]. split; [done|].
      intros now'. cbn. rewrite Hview, decide_False by done. done.
  - intros [= <- <-]. eexists. split; [reflexivity|]. split; [|done].
    eapply sim_write; [exact Hsim|done|apply (sim_view _ _ _ Hsim)|apply (sim_stored _ _ _ Hsim)|].
    intros memo' fk e' Hm' He'. by destruct (forget_entries c _ _ _ _ Hm' He').
Qed.

Lemma delete_refines c m now k c' e : simulates now c m → CacheDelete c k = (c', e) →
  e = None ∧ simulates now c' (delete k m) ∧ config c' = config c.
Proof.
  intros Hsim. unfold CacheDelete. destruct (delete_law (backend c) (key c k)) as (b' & Eb & Hview).
  cbn [backend forgetMiss withMisses] in *. rewrite Eb. intros [= <- <-]. split_and!; [done| |done].
  eapply sim_write; [exact Hsim|done| | |].
  - intros now' k' Hle. cbn. rewrite Hview, spec_get_delete. destruct (decide (k' = k)) as [->|Hne].
    + by rewrite decide_True.
    + rewrite decide_False by (by rewrite key_inj). by apply (sim_view _ _ _ Hsim).
  - intros k' v' e' [_ ?]%lookup_delete_Some. by eapply sim_stored.
  - intros memo' fk e' Hm' He'. destruct (forget_entries c _ _ _ _ Hm' He') as [? Hne]. split; [done|].
    intros now'. cbn. by rewrite Hview, decide_False.
Qed.

Lemma pattern_refines c m now p c' ks e : simulates now c m →
  CacheDeletePattern c (p +:+ "*") = (c', (ks, e)) →
  e = None ∧ simulates now c' (filter (λ kv, HasPrefix kv.1 p = false) m) ∧ config c' = config c.
Proof.
  intros Hsim. unfold CacheDeletePattern. unfold key at 1. rewrite <- append_assoc.
  destruct (pattern_law (backend c) (Prefix (config c) +:+ p)) as (b' & ks' & Eb & Hview & _).
  rewrite Eb. intros [= <- <- <-]. split_and!; [done| |done].
  eapply sim_write; [exact Hsim|done| | |].
  - intros now' k' Hle. cbn. rewrite Hview, spec_get_filter. unfold key. rewrite has_prefix_app_l.
    destruct (HasPrefix k' p); [done|]. by apply (sim_view _ _ _ Hsim).
  - intros k' v' e' [? _]%map_lookup_filter_Some. by eapply sim_stored.
  - intros memo' fk e' Hm' He'. split; [by exists memo'|]. intros now' Hnone. cbn. rewrite Hview, Hnone.
    by destruct (HasPrefix _ _).
Qed.

Lemma get_or_set_refines c m now k compute ttl c' r : serializer_ok → simulates now c m →
  GetOrSet Marshal Unmarshal c now k compute ttl = (c', r) →
  ∃ m', expect (DefaultTTL (config c)) m now (OpGetOrSet k compute ttl) = (m', AValue r) ∧
    simulates now c' m' ∧ config c' = config c.
Proof.
  intros Hs Hsim. unfold GetOrSet. cbn [expect].
  destruct (CacheGet Unmarshal c now k) as [c1 r1] eqn:E1.
  apply (get_refines _ _ _ _ _ _ Hs Hsim) in E1 as (-> & Hsim1 & Hc1).
  destruct (specGet m now k) as [v|] eqn:Eg; [intros [= <- <-]; eauto|].
  destruct (CacheGet Unmarshal c1 now k) as [c2 r2] eqn:E2.
  apply (get_refines _ _ _ _ _ _ Hs Hsim1) in E2 as (-> & Hsim2 & Hc2). rewrite Eg.
  destruct compute as [v|e]; [|intros [= <- <-]; eexists; (split; [done|]); split; [done|congruence]].
  destruct (CacheSet Marshal c2 now k v ttl) as [c3 e3] eqn:E3.
  apply (set_refines _ _ _ _ _ _ _ _ Hsim2) in E3 as (m' & Em & Hsim3 & Hc3). rewrite Hc2, Hc1 in Em.
  rewrite Em. intros [= <- <-]. eexists. split; [reflexivity|]. split; [done|]. cbn. congruence.
Qed.

Lemma perform_refines c m now o c' a : serializer_ok → simulates now c m → perform c now o = (c', a) →
  ∃ m', expect (DefaultTTL (config c)) m now o = (m', a) ∧ simulates now c' m' ∧ config c' = config c.
Proof.
  intros Hs Hsim. destruct o as [k|k v ttl|k|p|k|k compute ttl]; cbn [perform].
  - destruct (CacheGet Unmarshal c now k) as [c1 r] eqn:E. intros [= <- <-].
    apply (get_refines _ _ _ _ _ _ Hs Hsim) in E as (-> & ? & ?). eauto.
  - destruct (CacheSet Marshal c now k v ttl) as [c1 e] eqn:E. intros [= <- <-].
    apply (set_refines _ _ _ _ _ _ _ _ Hsim) in E as (m' & Em & ? & ?). exists m'. cbn. by rewrite Em.
  - destruct (CacheDelete c k) as [c1 e] eqn:E. intros [= <- <-].
    apply (delete_refines _ _ _ _ _ _ Hsim) in E as (-> & ? & ?). eauto.
  - destruct (CacheDeletePattern c (p +:+ "*")) as [c1 [ks e]] eqn:E. intros [= <- <-].
    apply (pattern_refines _ _ _ _ _ _ _ Hsim) in E as (-> & ? & ?). eauto.
  - intros [= <- <-]. eexists. split; [|done]. cbn. unfold CacheExists. rewrite exists_law.
    pose proof (sim_get _ _ _ now k Hs Hsim ltac:(lia)) as Hg. do 4 f_equal. apply bool_decide_ext.
    destruct (specGet m now k) as [v|]; [|by rewrite Hg; split; intros []].
    destruct Hg as (s & -> & _). split; intros _; [by exists (Some s)|by exists v].
  - destruct (GetOrSet Marshal Unmarshal c now k compute ttl) as [c1 r] eqn:E. intros [= <- <-].
    by apply (get_or_set_refines _ _ _ _ _ _ _ _ Hs Hsim).
Qed.

Lemma perform_all_refines os c m t : serializer_ok → simulates t c m →
  Sorted Z.le (t :: map fst os) → performAll c os = expectAll (DefaultTTL (config c)) m os.
Proof.
  intros Hs. revert c m t. induction os as [|[now o] os IH]; intros c m t Hsim Hsort; [done|].
  cbn [performAll expectAll map fst] in *. apply Sorted_inv in Hsort as [Hsort Hhd]. apply HdRel_inv in Hhd.
  apply (sim_later _ _ _ _ Hhd) in Hsim. destruct (perform c now o) as [c' a] eqn:E.
  destruct (perform_refines _ _ _ _ _ _ Hs Hsim E) as (m' & -> & Hsim' & Hc). rewrite <- Hc.
  f_equal. by apply (IH _ _ now).
Qed.

Lemma sim_new cfg b t : (∀ now k, view b now k = None) → simulates t (New cfg b) ∅.
Proof.
  intros Hb. split.
  - intros. cbn. by rewrite Hb.
  - intros k v e Hk. by rewrite lookup_empty in Hk.
  - intros memo fk e Hm He. cbn in Hm. destruct (PenetrationGuard cfg); [|done]. injection Hm as <-.
    cbn in He. by rewrite lookup_empty in He.
Qed.
End Refinement.

(** ** Tags *)

Section TagFacts.
Context {B : Type} `{Backend B} (view : B → Z → string → option (option string)) {Laws : BackendLaws B view}.

(** Some reader could see the key, now or before it expired. *)
Definition stored (b : B) (k : string) : Prop := ∃ now, is_Some (view b now k).

Lemma tagged_key_marker (c : Cache B) name k : k ≠ "" →
  taggedKey (tagPrefix c name) (tagMarker c name (hexEncode k)) = Some k.
Proof.
  intros Hk. unfold taggedKey, tagPrefix, tagMarker, key.
  rewrite <- !append_assoc. rewrite trim_prefix_app, hex_round_trip.
  destruct (String.eqb_spec k ""); done.
Qed.

Lemma marker_has_prefix (c : Cache B) name enc : HasPrefix (tagMarker c name enc) (tagPrefix c name) = true.
Proof. unfold tagPrefix, tagMarker, key. rewrite <- !append_assoc. apply has_prefix_app. Qed.

Lemma tag_loop_spec c now enc tags c' e : tagLoop c now enc tags = (c', e) →
  e = None ∧ config c' = config c ∧
  (∀ k, stored (backend c) k → stored (backend c') k) ∧
  (∀ tag, tag ∈ tags → TrimSpace tag ≠ "" → stored (backend c') (tagMarker c (TrimSpace tag) enc)).
Proof.
  revert c. induction tags as [|tag tags IH]; intros c; cbn [tagLoop].
  { intros [= <- <-]. split_and!; [done|done|done|set_solver]. }
  destruct (String.eqb_spec (TrimSpace tag) "") as [Hempty|Hne].
  { intros E. destruct (IH _ E) as (? & ? & ? & Hin). split_and!; [done..|].
    intros tag' [->|Hin']%elem_of_cons ?; [done|by apply Hin]. }
  destruct (set_law (backend c) now (tagMarker c (TrimSpace tag) enc) tagMarkerValue tagMarkerTTL) as (b' & -> & Hview).
  assert (stored b' (tagMarker c (TrimSpace tag) enc)) as Hmark.
  { exists now. rewrite Hview, decide_True by done.
    replace (now <=? now + tagMarkerTTL) with true by (symmetry; apply Z.leb_le; unfold tagMarkerTTL; lia).
    rewrite orb_true_r. by eexists. }
  intros E. destruct (IH _ E) as (-> & Hc & Hkeep & Hin). split_and!; [done|by rewrite Hc| |].
  - intros k Hk. apply Hkeep. cbn. destruct (decide (k = tagMarker c (TrimSpace tag) enc)) as [->|Hk']; [done|].
    destruct Hk as [now' Hk]. exists now'. by rewrite Hview, decide_False.
  - intros tag' [->|Hin']%elem_of_cons ?; [by apply Hkeep|by apply Hin].
Qed.

Lemma tag_spec c now k tags c' e : Tag c now k tags = (c', e) →
  e = None ∧ config c' = config c ∧
  (∀ k, stored (backend c) k → stored (backend c') k) ∧
  (∀ tag, tag ∈ tags → TrimSpace tag ≠ "" → TrimSpace k ≠ "" →
     stored (backend c') (tagMarker c (TrimSpace tag) (hexEncode (TrimSpace k)))).
Proof.
  unfold Tag. destruct (String.eqb_spec (TrimSpace k) "") as [Hk|Hk]; cbn [orb].
  { intros [= <- <-]. by split_and!. }
  destruct (Nat.eqb_spec (length tags) 0) as [Hl%nil_length_inv|Hl].
  { intros [= <- <-]. subst. split_and!; [done..|set_solver]. }
  intros (? & ? & ? & ?)%tag_loop_spec. split_and!; auto.
Qed.

Lemma delete_tagged_spec prefix markers : ∀ c c' e, deleteTagged c prefix markers None = (c', e) →
  e = None ∧ config c' = config c ∧ misses c' = misses c ∧
  ∀ now k, view (backend c') now k = if decide (k ∈ omap (taggedKey prefix) markers) then None else view (backend c) now k.
Proof.
  induction markers as [|marker markers IH]; intros c c' e; cbn [deleteTagged].
  { intros [= <- <-]. split_and!; [done..|]. intros now k. by rewrite decide_False by (cbn; set_solver). }
  cbn [omap list_omap]. destruct (taggedKey prefix marker) as [raw|]; [|apply IH].
  destruct (delete_law (backend c) raw) as (b' & -> & Hview). intros E. destruct (IH _ _ _ E) as (-> & Hc & Hm & Hv).
  split_and!; [done..|]. intros now k. rewrite Hv. cbn [backend withBackend]. rewrite Hview.
  destruct (decide (k = raw)) as [->|Hne].
  - rewrite (decide_True (P := raw ∈ raw :: _)) by set_solver. by case_decide.
  - apply decide_ext. set_solver.
Qed.

(** A sweep removes the tag's markers and the keys they name, and nothing
    else. *)
Lemma invalidate_tag_spec c tag c' e : TrimSpace tag ≠ "" → InvalidateTag c tag = (c', e) →
  let prefix := tagPrefix c (TrimSpace tag) in
  let named k := ∃ marker, HasPrefix marker prefix = true ∧ stored (backend c) marker ∧ taggedKey prefix marker = Some k in
  e = None ∧ config c' = config c ∧ misses c' = misses c ∧
  (∀ now k, HasPrefix k prefix = true ∨ named k → view (backend c') now k = None) ∧
  (∀ now k, HasPrefix k prefix = false → ¬ named k → view (backend c') now k = view (backend c) now k).
Proof.
  intros Hne. unfold InvalidateTag. destruct (String.eqb_spec (TrimSpace tag) "") as [|_]; [done|].
  replace (key c (tagMarkerNamespace +:+ TrimSpace tag +:+ ":*")) with (tagPrefix c (TrimSpace tag) +:+ "*")
    by (unfold tagPrefix, key; rewrite !append_assoc; done).
  destruct (pattern_law (backend c) (tagPrefix c (TrimSpace tag))) as (b' & ks & -> & Hview & Hks1 & Hks2).
  intros (-> & Hc & Hm & Hv)%delete_tagged_spec. cbn [backend withBackend config misses] in *.
  split_and!; [done..| |].
  - intros now k Hcase. rewrite Hv, Hview. case_decide as Hin; [done|].
    destruct (HasPrefix k _) eqn:Ep; [done|]. destruct Hcase as [|(marker & Hp & [t Ht] & Hk)]; [done|].
    destruct Hin. apply list_elem_of_omap. exists marker. split; [|done]. by apply (Hks2 t).
  - intros now k Hp Hnot. rewrite Hv, Hview, Hp. rewrite decide_False; [done|].
    intros (marker & Hin & Hk)%list_elem_of_omap. apply Hnot. destruct (Hks1 _ Hin). by exists marker.
Qed.

(** Several keys registered, one after the other. *)
Fixpoint tagAll (c : Cache B) (calls : list (Z * string * list string)) : Cache B :=
  match calls with
  | [] => c
  | (now, k, tags) :: rest => tagAll (Tag c now k tags).1 rest
  end.

Lemma tag_all_spec calls : ∀ c, config (tagAll c calls) = config c ∧
  (∀ k, stored (backend c) k → stored (backend (tagAll c calls)) k) ∧
  (∀ now k tags tag, (now, k, tags) ∈ calls → tag ∈ tags → TrimSpace tag ≠ "" → TrimSpace k ≠ "" →
     stored (backend (tagAll c calls)) (tagMarker c (TrimSpace tag) (hexEncode (TrimSpace k)))).
Proof.
  induction calls as [|[[now k] tags] calls IH]; intros c; cbn [tagAll]; [split_and!; [done..|set_solver]|].
  destruct (Tag c now k tags) as [c1 e] eqn:E. apply tag_spec in E as (-> & Hc & Hkeep & Hnew). cbn [fst].
  destruct (IH c1) as (Hc' & Hkeep' & Hnew'). split_and!; [congruence|auto|].
  intros now' k' tags' tag [[= -> -> ->]|Hin]%elem_of_cons Ht ? ?; [by apply Hkeep', Hnew|].
  pose proof (Hnew' _ _ _ _ Hin Ht) as Hm. unfold tagMarker, key in *. rewrite Hc in Hm. auto.
Qed.
End TagFacts.

(** C38: over any lawful backend that starts empty, and with the penetration
    guard on or off, every sequence of gets, sets, deletes, prefix deletes,
    existence checks and get-or-computes, at instants that do not go back,
    answers as a plain map of expiring entries does: the memo of misses never
    hides an entry, prefixes never mix keys up, and nothing outlives its
    lifetime. *)
Theorem cache_refines_expiring_map {B V} `{Backend B} (view : B → Z → string → option (option string))
    {Laws : BackendLaws B view} (Marshal : V → res cache_error (option string))
    (Unmarshal : string → res cache_error V) cfg b (os : list (Z * op)) :
  serializer_ok Marshal Unmarshal → (∀ now k, view b now k = None) → Sorted Z.le (map fst os) →
  performAll Marshal Unmarshal (New cfg b) os =
    expectAll Marshal (DefaultTTL (config (New cfg b))) ∅ os.
Proof.
  intros Hs Hb Hsort. destruct os as [|[now o] os]; [done|].
  eapply (perform_all_refines view _ _ _ _ _ now); [done|by apply sim_new|].
  constructor; [done|]. by constructor.
Qed.

Definition plainMarshal (v : string) : res cache_error (option string) := Ok (Some v).
Definition plainUnmarshal (s : string) : res cache_error string := Ok s.

Definition guarded (prefix : string) : Config := mkConfig 0 prefix 4 true 0.

Definition sampleOps : list (Z * op (V := string)) :=
  [(0, OpGet "a"); (1, OpSet "a" "x" [10]); (2, OpGet "a"); (2, OpGetOrSet "b" (Ok "y") []);
   (3, OpDeletePrefix "b"); (4, OpGet "b"); (11, OpExists "a"); (12, OpGet "a")].

Lemma cache_refines_expiring_map_witness :
  performAll plainMarshal plainUnmarshal (New (guarded "app:") (∅ : MemoryBackend)) sampleOps =
  [AValue (Err ErrNotFound); ADone None; AValue (Ok "x"); AValue (Ok "y"); ADone None;
   AValue (Err ErrNotFound); ABool (Ok true); AValue (Err ErrNotFound)].
Proof.
  rewrite (cache_refines_expiring_map memView plainMarshal plainUnmarshal (guarded "app:") ∅ sampleOps).
  - vm_compute. reflexivity.
  - intros v d [= <-]. by exists v.
  - intros now k. done.
  - cbn. repeat constructor; lia.
Defined.

(** After any keys have been registered under tags, invalidating one tag
    makes every key registered under it unreadable to every process that
    shares the backend, in whatever way the tag's name was spaced, and leaves
    alone every key that neither is a marker of the tag nor is named by one. *)
Theorem invalidate_removes_tagged {B} `{Backend B} (view : B → Z → string → option (option string))
    {Laws : BackendLaws B view} (c c' : Cache B) calls tag e :
  TrimSpace tag ≠ "" → InvalidateTag (tagAll c calls) tag = (c', e) →
  e = None ∧
  (∀ now k tags t now', (now, k, tags) ∈ calls → t ∈ tags → TrimSpace t = TrimSpace tag → TrimSpace k ≠ "" →
     view (backend c') now' (TrimSpace k) = None) ∧
  (∀ now' k, HasPrefix k (tagPrefix c (TrimSpace tag)) = false →
     (∀ marker, stored view (backend (tagAll c calls)) marker → HasPrefix marker (tagPrefix c (TrimSpace tag)) = true →
        taggedKey (tagPrefix c (TrimSpace tag)) marker ≠ Some k) →
     view (backend c') now' k = view (backend (tagAll c calls)) now' k).
Proof.
  intros Hne E. destruct (tag_all_spec view calls c) as (Hc & _ & Hstored).
  apply (invalidate_tag_spec view _ _ _ _ Hne) in E. unfold tagPrefix, key in *. rewrite Hc in E.
  destruct E as (-> & _ & _ & Hgone & Hkept). split_and!; [done| |].
  - intros now k tags t now' Hin Ht Heq Hk. apply Hgone. right.
    exists (tagMarker c (TrimSpace t) (hexEncode (TrimSpace k))). rewrite Heq. split_and!.
    + apply (marker_has_prefix c).
    + rewrite <- Heq. by eapply Hstored; [..|by rewrite Heq|].
    + by apply (tagged_key_marker c).
  - intros now' k Hp Hnot. apply Hkept; [done|]. intros (marker & ? & ? & ?). by eapply Hnot.
Qed.

(** A cache of one entry over the in-memory backend. *)
Definition holding (prefix k v : string) : Cache MemoryBackend :=
  (CacheSet plainMarshal (New (guarded prefix) (∅ : MemoryBackend)) 0 k v []).1.

Lemma invalidate_removes_tagged_witness :
  memView (backend (InvalidateTag (tagAll (holding "" "user:1" "alice") [(1, "user:1", ["users"; " all "])]) " users").1)
    2 "user:1" = None.
Proof.
  destruct (invalidate_removes_tagged memView (holding "" "user:1" "alice")
    (InvalidateTag (tagAll (holding "" "user:1" "alice") [(1, "user:1", ["users"; " all "])]) " users").1
    [(1, "user:1", ["users"; " all "])] " users" None) as (_ & Hgone & _).
  - vm_compute. discriminate.
  - vm_compute. reflexivity.
  - apply (Hgone 1 "user:1" ["users"; " all "] "users" 2); [by constructor|by constructor|reflexivity|vm_compute; discriminate].
Defined.

(** With a key prefix, the key a caller stores under and registers is not the
    key the sweep deletes: the sweep deletes the caller's key without the
    prefix, so the entry stays readable. *)
Theorem prefixed_entry_survives_invalidation :
  let c := (Tag (holding "myapp:" "user:123" "alice") 1 "user:123" ["user-data"]).1 in
  let '(c', e) := InvalidateTag c "user-data" in
  e = None ∧ (CacheGet plainUnmarshal c' 2 "user:123").2 = Ok "alice".
Proof. vm_compute. done. Qed.

(** A tag whose name starts with another tag's name and a colon loses its
    markers, but not its entries, when the other tag is invalidated. *)
Theorem nested_tag_loses_its_markers :
  let c := (Tag (holding "" "k" "v") 1 "k" ["user:1"]).1 in
  let c := (InvalidateTag c "user").1 in
  let '(c', e) := InvalidateTag c "user:1" in
  e = None ∧ (CacheGet plainUnmarshal c' 2 "k").2 = Ok "v".
Proof. vm_compute. done. Qed.
