(* ===== verification/SharedLoad.v ===== *)
(** * SharedLoad: bounded shared loads (src/server-kit/go/cache/loader.go)

    [GetOrSetContext] lets callers of one key wait for one load. The lock
    [loadMu] makes [acquireLoad], the deferred end of [runLoad] and
    [releaseLoad] atomic; deadlines and ends of loads come in between in any
    order, so the system is a step relation whose state also lists the loads
    that run and the callers that hold a call. All callers of the system ask for
    values of one type, so the type mismatch error of the code does not occur. *)

From Stdlib Require Import ZArith Lia Ascii String.
From stdpp Require Import base strings gmap fin_maps numbers list.
From S2P Require Import Prelude GoStrings Cache.

Open Scope string_scope.
Open Scope list_scope.
Open Scope Z_scope.

Record LoadPolicy := mkPolicy { Timeout_ : Z; MaxInflight : Z; MaxWaiters : Z }.

Definition loadPolicy (p : LoadPolicy) : LoadPolicy :=
  mkPolicy (if Timeout_ p <=? 0 then 5 * 10 ^ 9 else Timeout_ p)
           (if MaxInflight p <=? 0 then 64 else MaxInflight p)
           (if MaxWaiters p <=? 0 then 64 else MaxWaiters p).

(** [ended]: the call's context is done (cancelled or past its deadline);
    [outcome]: the value or error, once [done] is closed. *)
Record loadCall (V : Type) := mkCall { waiters : Z; ended : bool; outcome : option (res cache_error V) }.
Arguments mkCall {V}. Arguments waiters {V}. Arguments ended {V}. Arguments outcome {V}.

(** The calls by address, the field [loads], and the next free address. *)
Record loadTable (V : Type) := mkTable { calls : gmap nat (loadCall V); loads : gmap string nat; next : nat }.
Arguments mkTable {V}. Arguments calls {V}. Arguments loads {V}. Arguments next {V}.

Section Loads.
Context {V : Type}.

Definition emptyTable : loadTable V := mkTable ∅ ∅ 0.

Definition putCall (t : loadTable V) (id : nat) (c : loadCall V) : loadTable V :=
  mkTable (<[id := c]> (calls t)) (loads t) (next t).

(** The call to wait for, and whether a goroutine was started for it. *)
Definition acquireLoad (config : LoadPolicy) (t : loadTable V) (k : string) :
    loadTable V * res cache_error (nat * bool) :=
  let policy := loadPolicy config in
  match loads t !! k with
  | Some id =>
      match calls t !! id with
      | Some c =>
          if ended c || (MaxWaiters policy <=? waiters c) then (t, Err ErrLoadBusy)
          else (putCall t id (mkCall (waiters c + 1) (ended c) (outcome c)), Ok (id, false))
      | None => (t, Err ErrLoadBusy)
      end
  | None =>
      if MaxInflight policy <=? Z.of_nat (size (loads t)) then (t, Err ErrLoadBusy)
      else
        (mkTable (<[next t := mkCall 1 false None]> (calls t)) (<[k := next t]> (loads t)) (S (next t)),
         Ok (next t, true))
  end.

(** The deferred end of [runLoad]; a panic of the loader is [None]. *)
Definition finishLoad (t : loadTable V) (k : string) (id : nat) (r : option (res cache_error V)) : loadTable V :=
  match calls t !! id with
  | None => t
  | Some c =>
      let r := match r with Some r => r | None => Err ErrLoadExecution end in
      mkTable (<[id := mkCall (waiters c) true (Some r)]> (calls t)) (delete k (loads t)) (next t)
  end.

Definition releaseLoad (t : loadTable V) (id : nat) : loadTable V :=
  match calls t !! id with
  | None => t
  | Some c =>
      let w := waiters c - 1 in
      putCall t id (mkCall w (ended c || (w =? 0)) (outcome c))
  end.

(** The call's deadline passes. *)
Definition expireLoad (t : loadTable V) (id : nat) : loadTable V :=
  match calls t !! id with
  | None => t
  | Some c => putCall t id (mkCall (waiters c) true (outcome c))
  end.

(** The select of a waiting caller, then its checks: the answers it may get,
    none while it blocks. [gone]: the caller's own context is done. *)
Definition awaitLoad (gone : bool) (c : loadCall V) : list (res cache_error V) :=
  let finish := match outcome c with
                | Some r => if gone then [Err ErrContext] else [r]
                | None => []
                end in
  (if gone then [Err ErrContext] else []) ++
  (if ended c then match outcome c with None => [Err ErrContext] | Some _ => finish end else []) ++
  finish.

Section Closure.
Context {B : Type} `{Backend B}.
Variable Marshal : V → res cache_error (option string).
Variable Unmarshal : string → res cache_error V.

(** What [GetOrSetContext] does before it asks for a load: [None] when it goes
    on to [acquireLoad]. *)
Definition beforeLoad (c : Cache B) (now : Z) (gone1 gone2 : bool) (k : string) :
    Cache B * option (res cache_error V) :=
  if gone1 then (c, Some (Err ErrContext)) else
  match CacheGet Unmarshal c now k with
  | (c, Ok v) => (c, Some (if gone2 then Err ErrContext else Ok v))
  | (c, Err _) => (c, if gone2 then Some (Err ErrContext) else None)
  end.

(** The function the goroutine runs: [over1] .. [over3] say whether the load's
    context is done at its checks, [load] is what the caller's loader gives. *)
Definition runLoader (c : Cache B) (now : Z) (k : string) (over1 over2 over3 : bool)
    (load : res cache_error V) (ttl : list Z) : Cache B * res cache_error V :=
  match CacheGet Unmarshal c now k with
  | (c, Ok v) => (c, if over1 then Err ErrContext else Ok v)
  | (c, Err _) =>
      if over1 then (c, Err ErrContext) else
      match load with
      | Err e => (c, Err e)
      | Ok v =>
          if over2 then (c, Err ErrContext) else
          let '(c, e) := CacheSet Marshal c now k v ttl in
          let c := match e with Some e => tell c (Error k e) | None => c end in
          (c, if over3 then Err ErrContext else Ok v)
      end
  end.
End Closure.

(** ** The system *)

(** [running]: the goroutines, with their keys. [held]: one entry per caller
    between [acquireLoad] and its deferred [releaseLoad]. *)
Record system := mkSystem { table : loadTable V; running : gmap nat string; held : list nat }.

Definition idle : system := mkSystem emptyTable ∅ [].

Inductive load_step (cfg : LoadPolicy) : system → system → Prop :=
| step_start s k t id : acquireLoad cfg (table s) k = (t, Ok (id, true)) →
    load_step cfg s (mkSystem t (<[id := k]> (running s)) (id :: held s))
| step_join s k t id : acquireLoad cfg (table s) k = (t, Ok (id, false)) →
    load_step cfg s (mkSystem t (running s) (id :: held s))
| step_finish s k id r : running s !! id = Some k →
    load_step cfg s (mkSystem (finishLoad (table s) k id r) (delete id (running s)) (held s))
| step_expire s id : load_step cfg s (mkSystem (expireLoad (table s) id) (running s) (held s))
| step_release s id before after : held s = before ++ id :: after →
    load_step cfg s (mkSystem (releaseLoad (table s) id) (running s) (before ++ after)).

Inductive load_reachable (cfg : LoadPolicy) : system → Prop :=
| reach_idle : load_reachable cfg idle
| reach_step s s' : load_reachable cfg s → load_step cfg s s' → load_reachable cfg s'.

Definition holders (id : nat) (l : list nat) : Z := Z.of_nat (length (filter (λ i, i = id) l)).

Record load_ok (cfg : LoadPolicy) (s : system) : Prop := {
  lo_run : ∀ k id, loads (table s) !! k = Some id ↔ running s !! id = Some k;
  lo_live : ∀ id k, running s !! id = Some k → ∃ c, calls (table s) !! id = Some c ∧ outcome c = None;
  lo_count : ∀ id c, calls (table s) !! id = Some c → waiters c = holders id (held s) ∧
    waiters c ≤ MaxWaiters (loadPolicy cfg) ∧ (waiters c = 0 → ended c = true) ∧ (is_Some (outcome c) → ended c = true);
  lo_held : ∀ id, id ∈ held s → is_Some (calls (table s) !! id);
  lo_few : Z.of_nat (size (loads (table s))) ≤ MaxInflight (loadPolicy cfg);
  lo_fresh : ∀ id, (next (table s) ≤ id)%nat → calls (table s) !! id = None ∧ id ∉ held s
}.

Lemma policy_positive cfg : 0 < MaxInflight (loadPolicy cfg) ∧ 0 < MaxWaiters (loadPolicy cfg).
Proof.
  unfold loadPolicy; cbn. split; [destruct (Z.leb_spec (MaxInflight cfg) 0)|destruct (Z.leb_spec (MaxWaiters cfg) 0)]; lia.
Qed.

Lemma holders_cons id i l : holders id (i :: l) = (if decide (i = id) then 1 else 0) + holders id l.
Proof. unfold holders. rewrite filter_cons. repeat case_decide; cbn [length]; (done || lia). Qed.

Lemma holders_split id i before after :
  holders id (before ++ i :: after) = (if decide (i = id) then 1 else 0) + holders id (before ++ after).
Proof. unfold holders. rewrite !filter_app, filter_cons. repeat case_decide; rewrite !length_app; cbn [length]; (done || lia). Qed.

Lemma holders_none id l : id ∉ l → holders id l = 0.
Proof.
  induction l as [|i l IH]; [done|]. rewrite holders_cons. intros Hi.
  rewrite decide_False by set_solver. rewrite IH by set_solver. done.
Qed.

Lemma load_ok_idle cfg : load_ok cfg idle.
Proof.
  pose proof (policy_positive cfg). split; cbn [idle emptyTable table running held calls loads next].
  - intros. by rewrite !lookup_empty.
  - intros. by rewrite lookup_empty in *.
  - intros. by rewrite lookup_empty in *.
  - set_solver.
  - rewrite map_size_empty. lia.
  - intros. split; [apply lookup_empty|set_solver].
Qed.

(** Changing one live call's waiters or context, with its holders. *)
Lemma load_ok_put cfg s id c c' hs : load_ok cfg s → calls (table s) !! id = Some c →
  outcome c' = outcome c →
  waiters c' = holders id hs → waiters c' ≤ MaxWaiters (loadPolicy cfg) →
  (waiters c' = 0 → ended c' = true) → (is_Some (outcome c') → ended c' = true) →
  (∀ i, i ≠ id → holders i hs = holders i (held s)) → (∀ i, i ∈ hs → i = id ∨ i ∈ held s) →
  load_ok cfg (mkSystem (putCall (table s) id c') (running s) hs).
Proof.
  intros [] Hid Ho Hw Hmax H0 Hdone Hsame Hin. split; cbn [table running held calls loads next putCall]; [done| | | |done|].
  - intros i k Hk. destruct (lo_live0 _ _ Hk) as (ci & Hci & Hoc). destruct (decide (i = id)) as [->|].
    + rewrite lookup_insert_eq. exists c'. split; [done|]. congruence.
    + rewrite lookup_insert_ne by done. by exists ci.
  - intros i ci. destruct (decide (i = id)) as [->|].
    + rewrite lookup_insert_eq. intros [= <-]. by split_and!.
    + rewrite lookup_insert_ne by done. intros Hi. rewrite Hsame by done. by apply lo_count0.
  - intros i [->|Hi]%Hin; [by rewrite lookup_insert_eq|]. destruct (decide (i = id)) as [->|].
    + by rewrite lookup_insert_eq.
    + rewrite lookup_insert_ne by done. by apply lo_held0.
  - intros i Hi. destruct (lo_fresh0 _ Hi) as [Hn Hh]. rewrite lookup_insert_ne by congruence. split; [done|].
    intros [->|?]%Hin; congruence.
Qed.

Lemma start_ok cfg s k t id : load_ok cfg s → acquireLoad cfg (table s) k = (t, Ok (id, true)) →
  load_ok cfg (mkSystem t (<[id := k]> (running s)) (id :: held s)).
Proof.
  intros [] E. pose proof (policy_positive cfg) as [_ Hp]. unfold acquireLoad in E.
  destruct (loads (table s) !! k) as [id'|] eqn:El.
  { destruct (calls (table s) !! id'); [destruct (_ || _)|]; discriminate. }
  destruct (Z.leb_spec (MaxInflight (loadPolicy cfg)) (Z.of_nat (size (loads (table s))))); [done|].
  injection E as <- <-. destruct (lo_fresh0 (next (table s)) ltac:(lia)) as [Hnone Hnot].
  assert (∀ k', running s !! next (table s) ≠ Some k') as Hrun.
  { intros k' Hk. destruct (lo_live0 _ _ Hk) as (c & ? & _). congruence. }
  split; cbn [table running held calls loads next].
  - intros k' i. destruct (decide (k' = k)) as [->|], (decide (i = next (table s))) as [->|];
      rewrite ?lookup_insert_eq, ?lookup_insert_ne by done; [done|rewrite <- lo_run0; naive_solver| |done].
    rewrite lo_run0. naive_solver.
  - intros i k'. destruct (decide (i = next (table s))) as [->|]; rewrite ?lookup_insert_eq, ?lookup_insert_ne by done; [|eauto].
    intros _. by eexists.
  - intros i c. rewrite holders_cons. destruct (decide (i = next (table s))) as [->|].
    + rewrite lookup_insert_eq, decide_True, holders_none by done. intros [= <-]. cbn [waiters ended outcome]. split_and!; [done|lia|done|by intros []].
    + rewrite lookup_insert_ne, decide_False by done. apply lo_count0.
  - intros i [->|Hi]%elem_of_cons; [by rewrite lookup_insert_eq|].
    destruct (decide (i = next (table s))) as [->|]; rewrite ?lookup_insert_eq, ?lookup_insert_ne by done; [by eexists|by apply lo_held0].
  - rewrite map_size_insert, El. lia.
  - intros i Hi. rewrite lookup_insert_ne by lia. destruct (lo_fresh0 i ltac:(lia)). split; [done|].
    intros [->|?]%elem_of_cons; [lia|done].
Qed.

Lemma join_ok cfg s k t id : load_ok cfg s → acquireLoad cfg (table s) k = (t, Ok (id, false)) →
  load_ok cfg (mkSystem t (running s) (id :: held s)).
Proof.
  intros Hok E. unfold acquireLoad in E. destruct (loads (table s) !! k) as [id'|] eqn:El; [|by destruct (_ <=? _)].
  destruct (calls (table s) !! id') as [c|] eqn:Ec; [|done].
  destruct (ended c) eqn:Ee; cbn [orb] in E; [done|].
  destruct (Z.leb_spec (MaxWaiters (loadPolicy cfg)) (waiters c)); [done|]. injection E as <- <-.
  destruct (lo_count _ _ Hok _ _ Ec) as (Hw & Hmax & H0 & Hd).
  assert (0 ≤ holders id' (held s)) by (unfold holders; lia).
  eapply load_ok_put; [done|done|done|cbn [waiters ended outcome]..].
  - rewrite holders_cons, decide_True by done. lia.
  - lia.
  - lia.
  - intros Ho. rewrite Hd in Ee by done. done.
  - intros i Hi. by rewrite holders_cons, decide_False.
  - intros i. rewrite elem_of_cons. tauto.
Qed.

Lemma finish_ok cfg s k id r : load_ok cfg s → running s !! id = Some k →
  load_ok cfg (mkSystem (finishLoad (table s) k id r) (delete id (running s)) (held s)).
Proof.
  intros [] Hr. destruct (lo_live0 _ _ Hr) as (c & Ec & _). unfold finishLoad. rewrite Ec.
  assert (loads (table s) !! k = Some id) as Hk by by apply lo_run0.
  split; cbn [table running held calls loads next].
  - intros k' i. destruct (decide (k' = k)) as [->|], (decide (i = id)) as [->|];
      rewrite ?lookup_delete_eq, ?lookup_delete_ne by done; [done| | |done].
    + rewrite <- lo_run0, Hk. naive_solver.
    + rewrite lo_run0, Hr. naive_solver.
  - intros i k' [Hi ?]%lookup_delete_Some. rewrite lookup_insert_ne by done. by apply (lo_live0 _ k').
  - intros i ci. destruct (decide (i = id)) as [->|].
    + rewrite lookup_insert_eq. intros [= <-]. cbn [waiters ended outcome]. destruct (lo_count0 _ _ Ec) as (? & ? & _). by split_and!.
    + rewrite lookup_insert_ne by done. apply lo_count0.
  - intros i Hi. destruct (decide (i = id)) as [->|]; rewrite ?lookup_insert_eq, ?lookup_insert_ne by done; [by eexists|by apply lo_held0].
  - pose proof (map_size_delete k (loads (table s))) as Hs. rewrite Hk in Hs. cbn in Hs. lia.
  - intros i Hi. destruct (lo_fresh0 _ Hi). rewrite lookup_insert_ne by congruence. done.
Qed.

Lemma load_step_ok cfg s s' : load_ok cfg s → load_step cfg s s' → load_ok cfg s'.
Proof.
  intros Hok Hstep. destruct Hstep as [s k t id E|s k t id E|s k id r Hr|s id|s id before after Eh].
  - by eapply start_ok.
  - by eapply join_ok.
  - by eapply finish_ok.
  - unfold expireLoad. destruct (calls (table s) !! id) as [c|] eqn:Ec; [|by destruct s].
    destruct (lo_count _ _ Hok _ _ Ec) as (? & ? & ? & ?). eapply load_ok_put; naive_solver.
  - destruct (lo_held _ _ Hok id) as [c Ec]; [rewrite Eh; set_solver|]. unfold releaseLoad. rewrite Ec.
    destruct (lo_count _ _ Hok _ _ Ec) as (Hw & Hmax & H0 & Hd). rewrite Eh, holders_split, decide_True in Hw by done.
    eapply load_ok_put; [done|done|done|cbn [waiters ended outcome]..].
    + lia.
    + lia.
    + intros ->. by rewrite orb_true_r.
    + intros Ho. by rewrite Hd.
    + intros i Hi. by rewrite Eh, holders_split, decide_False.
    + intros i. rewrite Eh. set_solver.
Qed.

Lemma load_reachable_ok cfg s : load_reachable cfg s → load_ok cfg s.
Proof. induction 1; [apply load_ok_idle|by eapply load_step_ok]. Qed.
End Loads.

(** A map and its inverse have the same size; one half. *)
Lemma inverse_size (m : gmap nat string) (n : gmap string nat) :
  (∀ k id, n !! k = Some id ↔ m !! id = Some k) → (size m ≤ size n)%nat.
Proof.
  intros Hinv. rewrite <- !length_map_to_list, <- (length_fmap prod_swap (map_to_list m)).
  apply submseteq_length, NoDup_submseteq.
  - apply NoDup_fmap_2; [intros [] [] [=]; by subst|apply NoDup_map_to_list].
  - intros [k id] ([id' k'] & [= -> ->] & Hin%elem_of_map_to_list)%list_elem_of_fmap.
    by apply elem_of_map_to_list, Hinv.
Qed.

(** However callers, ends of loads and deadlines interleave, at most
    [MaxInflight] loads run, at most one per key, each with at most
    [MaxWaiters] callers waiting for it; a load nobody waits for any more has
    been cancelled; and the waiter count of a call is the number of callers
    that hold it. *)
Theorem shared_loads_bounded {V} (cfg : LoadPolicy) (s : system (V := V)) : load_reachable cfg s →
  Z.of_nat (size (running s)) ≤ MaxInflight (loadPolicy cfg) ∧
  (∀ i j k, running s !! i = Some k → running s !! j = Some k → i = j) ∧
  (∀ id k, running s !! id = Some k → ∃ c, calls (table s) !! id = Some c ∧
     waiters c = holders id (held s) ∧ waiters c ≤ MaxWaiters (loadPolicy cfg) ∧
     (holders id (held s) = 0 → ended c = true)).
Proof.
  intros [Hrun Hlive Hcount _ Hfew _]%load_reachable_ok. split_and!.
  - pose proof (inverse_size _ _ Hrun). lia.
  - intros i j k Hi%Hrun Hj%Hrun. congruence.
  - intros id k Hk. destruct (Hlive _ _ Hk) as (c & Hc & _). destruct (Hcount _ _ Hc) as (Hw & ? & ? & _).
    exists c. split_and!; [done..|]. rewrite <- Hw. done.
Qed.

Definition onePerKey : LoadPolicy := mkPolicy 0 1 2.

(** Two callers of one key, while a third is turned away. *)
Definition twoWaiting : system (V := string) :=
  mkSystem (acquireLoad onePerKey (acquireLoad onePerKey emptyTable "k").1 "k").1 {[0%nat := "k"]} [0%nat; 0%nat].

Lemma shared_loads_bounded_witness :
  (acquireLoad onePerKey (table twoWaiting) "k").2 = Err ErrLoadBusy ∧
  ∃ c, calls (table twoWaiting) !! 0%nat = Some c ∧ waiters c = 2.
Proof.
  split; [reflexivity|].
  destruct (shared_loads_bounded onePerKey twoWaiting) as (_ & _ & Hload).
  - eapply (reach_step _ (mkSystem (acquireLoad onePerKey emptyTable "k").1 {[0%nat := "k"]} [0%nat])).
    + eapply reach_step; [apply reach_idle|]. apply (step_start _ idle "k"). reflexivity.
    + exact (step_join onePerKey (mkSystem (acquireLoad onePerKey emptyTable "k").1 {[0%nat := "k"]} [0%nat]) "k"
               (acquireLoad onePerKey (acquireLoad onePerKey emptyTable "k").1 "k").1 0 eq_refl).
  - destruct (Hload 0%nat "k" ltac:(reflexivity)) as (c & Hc & Hw & _). exists c. split; [exact Hc|exact Hw].
Defined.

(** A caller whose own context is live gets the load's own outcome, and
    the same as every other such caller, once the load has ended; and in every
    reachable state a caller is not left blocked by a call whose context is
    done. *)
Theorem waiters_share_one_answer {V} (cfg : LoadPolicy) (s : system (V := V)) id c : load_reachable cfg s →
  calls (table s) !! id = Some c →
  (∀ r a, outcome c = Some r → a ∈ awaitLoad false c → a = r) ∧
  (∀ gone, ended c = true ∨ is_Some (outcome c) ∨ gone = true → awaitLoad gone c ≠ []) ∧
  (∀ r, outcome c = Some r → running s !! id = None).
Proof.
  intros [_ Hlive Hcount _ _ _]%load_reachable_ok Hc. split_and!.
  - intros r a Hr. unfold awaitLoad. rewrite Hr. destruct (ended c); cbn; set_solver.
  - intros gone Hcase. unfold awaitLoad. destruct gone; [done|].
    destruct (Hcount _ _ Hc) as (_ & _ & _ & Hd). destruct (outcome c) as [r|].
    + by destruct (ended c).
    + destruct Hcase as [->|[[]|]]; done.
  - intros r Hr. destruct (running s !! id) as [k|] eqn:E; [|done].
    destruct (Hlive _ _ E) as (c' & Hc' & Hnone). congruence.
Qed.

Lemma waiters_share_one_answer_witness :
  awaitLoad false (mkCall 1 true (Some (Ok "v"))) = [Ok "v"; Ok "v"] ∧
  running (mkSystem (finishLoad (acquireLoad onePerKey emptyTable "k").1 "k" 0 (Some (Ok "v"))) ∅ [0%nat]) !! 0%nat = None.
Proof.
  split; [reflexivity|].
  apply (waiters_share_one_answer onePerKey
    (mkSystem (finishLoad (acquireLoad onePerKey emptyTable "k").1 "k" 0 (Some (Ok "v"))) ∅ [0%nat])
    0 (mkCall 1 true (Some (Ok "v")))) with (r := Ok "v"); [|reflexivity|reflexivity].
  eapply (reach_step _ (mkSystem (acquireLoad onePerKey emptyTable "k").1 {[0%nat := "k"]} [0%nat])).
  - eapply reach_step; [apply reach_idle|]. apply (step_start _ idle "k"). reflexivity.
  - exact (step_finish onePerKey (mkSystem (acquireLoad onePerKey emptyTable "k").1 {[0%nat := "k"]} [0%nat])
             "k" 0 (Some (Ok "v")) eq_refl).
Defined.
