(* ===== verification/MemoryDB.v ===== *)
(** * MemoryDB: the in-memory state store (src/server-kit/go/database/database.go)

    Records under composite keys, with secondary indexes by scope, by
    organization and by scalar field, and append-only order lists whose
    superseded entries are told by their version. The context of a call is two
    flags: whether it is done at the entry, and whether it is done when a walk
    looks at it again. Instants are nanoseconds. *)

From Stdlib Require Import ZArith Lia Ascii String Sorting.Sorted Permutation.
From stdpp Require Import base sets strings gmap fin_maps numbers sorting list.
From S2P Require Import Prelude GoStrings RecordData TopK.

Open Scope string_scope.
Open Scope list_scope.
Open Scope Z_scope.

Inductive db_error :=
| ErrCancelled | ErrClosed | ErrDomainRequired | ErrCollectionRequired | ErrRecordIDRequired
| ErrVisitor (msg : string).

Record recordScope := mkScope { domain : string; collection : string; organizationID : string }.

#[export] Instance recordScope_eq_dec : EqDecision recordScope.
Proof. solve_decision. Defined.

#[export] Instance recordScope_countable : Countable recordScope.
Proof.
  apply (inj_countable' (λ s, (domain s, collection s, organizationID s)) (λ t, mkScope t.1.1 t.1.2 t.2)). by intros [].
Defined.

Record fieldIndex := mkFieldIndex { scope : recordScope; field : string; kind : ascii; value : string }.

#[export] Instance fieldIndex_eq_dec : EqDecision fieldIndex.
Proof. solve_decision. Defined.

#[export] Instance fieldIndex_countable : Countable fieldIndex.
Proof.
  apply (inj_countable' (λ i, (scope i, field i, kind i, value i)) (λ t, mkFieldIndex t.1.1.1 t.1.1.2 t.1.2 t.2)).
  by intros [].
Defined.

Record recordOrderEntry := mkOrder { okey : string; oversion : Z }.

Record MemoryDB := mkDB {
  closed : bool;
  records : gmap string DomainRecord;
  byScope : gmap recordScope (gset string);
  byOrg : gmap string (gset string);
  byField : gmap fieldIndex (gset string);
  nextVersion : Z;
  versions : gmap string Z;
  byScopeOrder : gmap recordScope (list recordOrderEntry);
  byFieldOrder : gmap fieldIndex (list recordOrderEntry)
}.

Definition NewMemoryDB : MemoryDB := mkDB false ∅ ∅ ∅ ∅ 0 ∅ ∅ ∅.

Definition Close (db : MemoryDB) : MemoryDB :=
  mkDB true (records db) (byScope db) (byOrg db) (byField db) (nextVersion db) (versions db)
    (byScopeOrder db) (byFieldOrder db).

Definition ensureReady (db : MemoryDB) (cancelled : bool) : option db_error :=
  if cancelled then Some ErrCancelled else if closed db then Some ErrClosed else None.

Definition recordKey (d c o r : string) : string :=
  TrimSpace d +:+ "|" +:+ TrimSpace c +:+ "|" +:+ TrimSpace o +:+ "|" +:+ TrimSpace r.

Definition scopeKey (d c o : string) : recordScope := mkScope (TrimSpace d) (TrimSpace c) (TrimSpace o).

Definition scopeOf (rec : DomainRecord) : recordScope :=
  scopeKey (Domain rec) (Collection rec) (OrganizationID rec).

(** What [forEachRecordFieldIndex] visits, in its order. *)
Definition fieldIndexOf (s : recordScope) (f : RecordField) : option fieldIndex :=
  if String.eqb (Name f) "organization_id" then None
  else match ScalarIndex (FValue f) with
       | None => None
       | Some (k, v) => Some (mkFieldIndex s (Name f) k v)
       end.

Definition recordFieldIndexes (rec : DomainRecord) : list fieldIndex :=
  omap (fieldIndexOf (scopeOf rec)) (Data rec).

(** [m[i][key] = struct{}{}], creating the inner map. *)
Definition setAdd {I : Type} `{Countable I} (m : gmap I (gset string)) (i : I) (key : string) : gmap I (gset string) :=
  <[i := {[key]} ∪ default ∅ (m !! i)]> m.

(** [delete(m[i], key)], then [delete(m, i)] when nothing is left. *)
Definition setRemove {I : Type} `{Countable I} (m : gmap I (gset string)) (i : I) (key : string) : gmap I (gset string) :=
  let left_ := default ∅ (m !! i) ∖ {[key]} in
  if decide (left_ = ∅) then delete i m else <[i := left_]> m.

Definition listAdd {I : Type} `{Countable I} (m : gmap I (list recordOrderEntry)) (i : I) (e : recordOrderEntry) :
    gmap I (list recordOrderEntry) := <[i := default [] (m !! i) ++ [e]]> m.

(** The maps after a record's indexes are added. *)
Definition addRecordIndexesLocked (db : MemoryDB) (key : string) (rec : DomainRecord) : MemoryDB :=
  let s := scopeOf rec in
  let entry := mkOrder key (default 0 (versions db !! key)) in
  let ixs := recordFieldIndexes rec in
  mkDB (closed db) (records db)
    (setAdd (byScope db) s key)
    (if String.eqb (OrganizationID rec) "" then byOrg db else setAdd (byOrg db) (OrganizationID rec) key)
    (foldl (λ m i, setAdd m i key) (byField db) ixs)
    (nextVersion db) (versions db)
    (listAdd (byScopeOrder db) s entry)
    (foldl (λ m i, listAdd m i entry) (byFieldOrder db) ixs).

Definition removeRecordIndexesLocked (db : MemoryDB) (key : string) (rec : DomainRecord) : MemoryDB :=
  mkDB (closed db) (records db)
    (setRemove (byScope db) (scopeOf rec) key)
    (if String.eqb (OrganizationID rec) "" then byOrg db else setRemove (byOrg db) (OrganizationID rec) key)
    (foldl (λ m i, setRemove m i key) (byField db) (recordFieldIndexes rec))
    (nextVersion db) (versions db) (byScopeOrder db) (byFieldOrder db).

(** The record as it is stored: trimmed, normalized, owned by its organization. *)
Definition prepareRecord (rec : DomainRecord) : res db_error DomainRecord :=
  if String.eqb (TrimSpace (Domain rec)) "" then Err ErrDomainRequired
  else if String.eqb (TrimSpace (Collection rec)) "" then Err ErrCollectionRequired
  else if String.eqb (TrimSpace (RecordID rec)) "" then Err ErrRecordIDRequired
  else
    let org := TrimSpace (OrganizationID rec) in
    let data := Normalize (Data rec) in
    let data := if String.eqb org "" then data else With_ data "organization_id" (StringValue org) in
    Ok (mkRecord (TrimSpace (Domain rec)) (TrimSpace (Collection rec)) org (TrimSpace (RecordID rec))
          data (Vector_ rec) (CreatedAt rec) (UpdatedAt rec)).

Definition stampRecord (rec : DomainRecord) (created updated : Z) : DomainRecord :=
  mkRecord (Domain rec) (Collection rec) (OrganizationID rec) (RecordID rec) (Data rec) (Vector_ rec) created updated.

Definition keyOf (rec : DomainRecord) : string :=
  recordKey (Domain rec) (Collection rec) (OrganizationID rec) (RecordID rec).

(** The critical section of [UpsertRecord]. *)
Definition putRecord (db : MemoryDB) (now : Z) (rec : DomainRecord) : MemoryDB * DomainRecord :=
  let key := keyOf rec in
  let '(db, created) :=
    match records db !! key with
    | Some existing => (removeRecordIndexesLocked db key existing, CreatedAt existing)
    | None => (db, now)
    end in
  let rec := stampRecord rec created now in
  let v := u64 (nextVersion db + 1) in
  let db := mkDB (closed db) (<[key := rec]> (records db)) (byScope db) (byOrg db) (byField db) v
              (<[key := v]> (versions db)) (byScopeOrder db) (byFieldOrder db) in
  (addRecordIndexesLocked db key rec, rec).

Definition UpsertRecord (db : MemoryDB) (cancelled : bool) (now : Z) (rec : DomainRecord) :
    MemoryDB * res db_error DomainRecord :=
  match ensureReady db cancelled with
  | Some e => (db, Err e)
  | None =>
      match prepareRecord rec with
      | Err e => (db, Err e)
      | Ok rec => let '(db, rec) := putRecord db now rec in (db, Ok rec)
      end
  end.

Definition GetRecord (db : MemoryDB) (cancelled : bool) (d c o r : string) : res db_error (option DomainRecord) :=
  match ensureReady db cancelled with
  | Some e => Err e
  | None => Ok (records db !! recordKey d c o r)
  end.

Definition dropRecord (db : MemoryDB) (key : string) : MemoryDB :=
  mkDB (closed db) (delete key (records db)) (byScope db) (byOrg db) (byField db) (nextVersion db)
    (delete key (versions db)) (byScopeOrder db) (byFieldOrder db).

Definition DeleteRecord (db : MemoryDB) (cancelled : bool) (d c o r : string) : MemoryDB * option db_error :=
  match ensureReady db cancelled with
  | Some e => (db, Some e)
  | None =>
      let key := recordKey d c o r in
      let db := match records db !! key with Some rec => removeRecordIndexesLocked db key rec | None => db end in
      (dropRecord db key, None)
  end.

(** One round of the loop over an organization's keys. *)
Definition deleteOrgKey (st : MemoryDB * Z) (key : string) : MemoryDB * Z :=
  match records st.1 !! key with
  | None => st
  | Some rec => (removeRecordIndexesLocked (dropRecord st.1 key) key rec, st.2 + 1)
  end.

Definition DeleteRecordsByOrganization (db : MemoryDB) (cancelled : bool) (org : string) : MemoryDB * res db_error Z :=
  match ensureReady db cancelled with
  | Some e => (db, Err e)
  | None =>
      let org := TrimSpace org in
      if String.eqb org "" then (db, Ok 0)
      else
        let '(db, removed) := foldl deleteOrgKey (db, 0) (elements (default ∅ (byOrg db !! org))) in
        (mkDB (closed db) (records db) (byScope db) (delete org (byOrg db)) (byField db) (nextVersion db)
           (versions db) (byScopeOrder db) (byFieldOrder db), Ok removed)
  end.

(** ** Queries *)

Definition recordMatches (rec : DomainRecord) (d c o : string) (filters : list RecordFilter) : bool :=
  if negb (String.eqb d "") && negb (String.eqb (Domain rec) d) then false
  else if negb (String.eqb c "") && negb (String.eqb (Collection rec) c) then false
  else if negb (String.eqb o "") && negb (String.eqb (OrganizationID rec) o) then false
  else Matches (Data rec) filters.

Definition filterIndexes (s : recordScope) (filters : list RecordFilter) : list fieldIndex :=
  omap (λ f, match ScalarIndex (Wanted f) with
             | None => None
             | Some (k, v) => Some (mkFieldIndex s (Field_ f) k v)
             end) filters.

(** The order list with the fewest live records; [None] when there is none. *)
Definition considerOrder (selected : option (list recordOrderEntry * nat)) (entries : list recordOrderEntry)
    (liveCount : nat) : option (list recordOrderEntry * nat) :=
  if (liveCount =? 0)%nat then selected
  else match selected with
       | None => Some (entries, liveCount)
       | Some (_, n) => if (liveCount <? n)%nat then Some (entries, liveCount) else selected
       end.

Definition orderedCandidatesLocked (db : MemoryDB) (d c o : string) (filters : list RecordFilter) :
    list recordOrderEntry :=
  if String.eqb d "" || String.eqb c "" || String.eqb o "" then []
  else
    let s := scopeKey d c o in
    let selected := considerOrder None (default [] (byScopeOrder db !! s)) (size (default ∅ (byScope db !! s))) in
    let selected := foldl (λ sel i, considerOrder sel (default [] (byFieldOrder db !! i)) (size (default ∅ (byField db !! i))))
                      selected (filterIndexes s filters) in
    match selected with Some (entries, _) => entries | None => [] end.

Definition recordForOrderEntryLocked (db : MemoryDB) (e : recordOrderEntry) : option DomainRecord :=
  if default 0 (versions db !! okey e) =? oversion e then records db !! okey e else None.

(** A candidate set is [None] while nil; [considerKeys] is the closure. *)
Definition considerKeys (selected keys : option (gset string)) : option (gset string) :=
  match selected with
  | None => keys
  | Some sel => if (size (default ∅ keys) <? size sel)%nat then keys else selected
  end.

Definition candidateKeysLocked (db : MemoryDB) (d c o : string) (filters : list RecordFilter) : option (gset string) :=
  if negb (String.eqb d "") && negb (String.eqb c "") && negb (String.eqb o "") then
    let s := scopeKey d c o in
    Some (default ∅ (foldl (λ sel i, considerKeys sel (byField db !! i)) (considerKeys None (byScope db !! s))
                       (filterIndexes s filters)))
  else if String.eqb o "" then None
  else Some (default ∅ (considerKeys None (byOrg db !! o))).

(** Newest first, then by identifier; the comparison whose strict part is
    [recordBefore]. *)
Definition compareRecords (a b : DomainRecord) : Z :=
  thenCompare (compareZ (UpdatedAt b) (UpdatedAt a)) (compareStr (RecordID a) (RecordID b)).

Definition recordBefore (a b : DomainRecord) : bool :=
  if UpdatedAt a =? UpdatedAt b then String.ltb (RecordID a) (RecordID b) else UpdatedAt b <? UpdatedAt a.

Definition nthBefore (rec : DomainRecord) (l : list DomainRecord) (i : nat) : bool :=
  match l !! i with Some r => recordBefore rec r | None => true end.

Definition appendListCandidate (l : list DomainRecord) (rec : DomainRecord) (limit : Z) : list DomainRecord :=
  if limit <=? 0 then l ++ [rec]
  else
    let insertAt := sortSearch (length l) (nthBefore rec l) in
    if limit <=? Z.of_nat insertAt then l
    else if Z.of_nat (length l) <? limit then take insertAt l ++ rec :: drop insertAt l
    else take insertAt l ++ rec :: drop insertAt (take (length l - 1) l).

(** The walk over an order list, newest entry first. *)
Fixpoint orderedWalk (db : MemoryDB) (late : bool) (d c o : string) (filters : list RecordFilter) (limit : Z)
    (l : list recordOrderEntry) (out : list DomainRecord) : res db_error (list DomainRecord) :=
  match l with
  | [] => Ok out
  | e :: rest =>
      if limit <=? Z.of_nat (length out) then Ok out
      else match recordForOrderEntryLocked db e with
           | None => orderedWalk db late d c o filters limit rest out
           | Some rec =>
               if late then Err ErrCancelled
               else orderedWalk db late d c o filters limit rest
                      (if recordMatches rec d c o filters then out ++ [rec] else out)
           end
  end.

(** The walk over candidate records in map order. *)
Fixpoint recordWalk (late : bool) (d c o : string) (filters : list RecordFilter) (limit : Z)
    (l : list DomainRecord) (out : list DomainRecord) : res db_error (list DomainRecord) :=
  match l with
  | [] => Ok out
  | rec :: rest =>
      if late then Err ErrCancelled
      else recordWalk late d c o filters limit rest
             (if recordMatches rec d c o filters then appendListCandidate out rec limit else out)
  end.

Definition recordsAt (db : MemoryDB) (keys : gset string) : list DomainRecord :=
  omap (λ k, records db !! k) (elements keys).

Definition allRecords (db : MemoryDB) : list DomainRecord := (map_to_list (records db)).*2.

Definition collectCandidates (db : MemoryDB) (late : bool) (d c o : string) (query : RecordQuery) :
    res db_error (list DomainRecord) :=
  let limit := QLimit query in
  let ordered := orderedCandidatesLocked db d c o (Filters query) in
  if (0 <? limit) && negb (length ordered =? 0)%nat then
    orderedWalk db late d c o (Filters query) limit (reverse ordered) []
  else match candidateKeysLocked db d c o (Filters query) with
       | Some keys => recordWalk late d c o (Filters query) limit (recordsAt db keys) []
       | None => recordWalk late d c o (Filters query) limit (allRecords db) []
       end.

(** [sort.Slice]; it is not stable, so it may give any order of records that
    compare equal. *)
Definition sortCandidates (limit : Z) (l : list DomainRecord) : list DomainRecord :=
  if (limit <=? 0) || (1 <? Z.of_nat (length l)) then sortFunc compareRecords l else l.

Fixpoint visitAll {S} (fn : S → DomainRecord → S * option db_error) (s : S) (l : list DomainRecord) : S * option db_error :=
  match l with
  | [] => (s, None)
  | rec :: rest => match fn s rec with (s, Some e) => (s, Some e) | (s, None) => visitAll fn s rest end
  end.

Definition ForEachRecord {S} (db : MemoryDB) (cancelled late : bool) (d c o : string) (query : RecordQuery)
    (fn : S → DomainRecord → S * option db_error) (s : S) : S * option db_error :=
  match ensureReady db cancelled with
  | Some e => (s, Some e)
  | None =>
      let query := NormalizeQuery query in
      match collectCandidates db late (TrimSpace d) (TrimSpace c) (TrimSpace o) query with
      | Err e => (s, Some e)
      | Ok l => visitAll fn s (sortCandidates (QLimit query) l)
      end
  end.

Definition ListRecords (db : MemoryDB) (cancelled late : bool) (d c o : string) (query : RecordQuery) :
    res db_error (list DomainRecord) :=
  match ForEachRecord db cancelled late d c o query (λ out rec, (out ++ [rec], None)) [] with
  | (out, None) => Ok out
  | (_, Some e) => Err e
  end.

Fixpoint countWalk (late : bool) (d c o : string) (filters : list RecordFilter) (l : list DomainRecord) (n : Z) :
    res db_error Z :=
  match l with
  | [] => Ok n
  | rec :: rest =>
      if late then Err ErrCancelled
      else countWalk late d c o filters rest (if recordMatches rec d c o filters then n + 1 else n)
  end.

Definition CountRecords (db : MemoryDB) (cancelled late : bool) (d c o : string) (query : RecordQuery) : res db_error Z :=
  match ensureReady db cancelled with
  | Some e => Err e
  | None =>
      let d := TrimSpace d in let c := TrimSpace c in let o := TrimSpace o in
      let filters := Filters (NormalizeQuery query) in
      match candidateKeysLocked db d c o filters with
      | Some keys => countWalk late d c o filters (recordsAt db keys) 0
      | None => countWalk late d c o filters (allRecords db) 0
      end
  end.

Definition EstimateCount (db : MemoryDB) (cancelled late : bool) (d c o : string) : res db_error Z :=
  CountRecords db cancelled late d c o (mkQuery [] 0).

(** ** Index maps *)

Section Indexes.
Context {I : Type} `{Countable I}.

Definition members (m : gmap I (gset string)) (i : I) : gset string := default ∅ (m !! i).

Lemma elem_set_add (m : gmap I (gset string)) i key j k :
  k ∈ members (setAdd m i key) j ↔ (k = key ∧ j = i) ∨ k ∈ members m j.
Proof.
  unfold members, setAdd. destruct (decide (j = i)) as [->|].
  - rewrite lookup_insert_eq. cbn. set_solver.
  - rewrite lookup_insert_ne by done. naive_solver.
Qed.

Lemma elem_set_remove (m : gmap I (gset string)) i key j k :
  k ∈ members (setRemove m i key) j ↔ k ∈ members m j ∧ ¬ (k = key ∧ j = i).
Proof.
  unfold members, setRemove. cbv zeta. case_decide as He; destruct (decide (j = i)) as [->|].
  - rewrite lookup_delete_eq. cbn. set_solver.
  - rewrite lookup_delete_ne by done. naive_solver.
  - rewrite lookup_insert_eq. cbn. set_solver.
  - rewrite lookup_insert_ne by done. naive_solver.
Qed.

Lemma elem_fold_add ixs key j k : ∀ m : gmap I (gset string),
  k ∈ members (foldl (λ m i, setAdd m i key) m ixs) j ↔ (k = key ∧ j ∈ ixs) ∨ k ∈ members m j.
Proof.
  induction ixs as [|i ixs IH]; intros m; cbn [foldl]; [set_solver|]. rewrite IH, elem_set_add. set_solver.
Qed.

Lemma elem_fold_remove ixs key j k : ∀ m : gmap I (gset string),
  k ∈ members (foldl (λ m i, setRemove m i key) m ixs) j ↔ k ∈ members m j ∧ ¬ (k = key ∧ j ∈ ixs).
Proof.
  induction ixs as [|i ixs IH]; intros m; cbn [foldl]; [set_solver|]. rewrite IH, elem_set_remove. set_solver.
Qed.

(** An index is exact: it lists the records that belong under each entry. *)
Definition exact (m : gmap I (gset string)) (recs : gmap string DomainRecord) (of_ : DomainRecord → list I) : Prop :=
  ∀ i k, k ∈ members m i ↔ ∃ r, recs !! k = Some r ∧ i ∈ of_ r.

Lemma exact_remove m recs of_ key r : exact m recs of_ → recs !! key = Some r →
  exact (foldl (λ m i, setRemove m i key) m (of_ r)) (delete key recs) of_.
Proof.
  unfold exact. intros Hex Hr i k. rewrite elem_fold_remove, Hex. destruct (decide (k = key)) as [->|Hne].
  - rewrite lookup_delete_eq. naive_solver.
  - rewrite lookup_delete_ne by done. naive_solver.
Qed.

Lemma exact_add m recs of_ key r : exact m recs of_ → recs !! key = None →
  exact (foldl (λ m i, setAdd m i key) m (of_ r)) (<[key := r]> recs) of_.
Proof.
  unfold exact. intros Hex Hr i k. rewrite elem_fold_add, Hex. destruct (decide (k = key)) as [->|Hne].
  - rewrite lookup_insert_eq. naive_solver.
  - rewrite lookup_insert_ne by done. naive_solver.
Qed.

(** *** Order lists *)

Definition listed (m : gmap I (list recordOrderEntry)) (i : I) : list recordOrderEntry := default [] (m !! i).

Definition rising (l : list recordOrderEntry) : Prop := StronglySorted (λ a b, oversion a < oversion b) l.

(** The current version of every record stands in the lists it belongs to;
    lists rise by version, up to the last one given out. *)
Record ordered (m : gmap I (list recordOrderEntry)) (recs : gmap string DomainRecord) (vers : gmap string Z)
    (of_ : DomainRecord → list I) (last : Z) : Prop := {
  or_has : ∀ i k r v, recs !! k = Some r → vers !! k = Some v → i ∈ of_ r → mkOrder k v ∈ listed m i;
  or_rising : ∀ i, rising (listed m i);
  or_last : ∀ i e, e ∈ listed m i → 0 < oversion e ≤ last
}.

Lemma listed_add (m : gmap I (list recordOrderEntry)) i e j :
  listed (listAdd m i e) j = if decide (j = i) then listed m i ++ [e] else listed m j.
Proof.
  unfold listed, listAdd. destruct (decide (j = i)) as [->|]; [by rewrite lookup_insert_eq|by rewrite lookup_insert_ne].
Qed.

Lemma listed_fold_add ixs e j : NoDup ixs → ∀ m : gmap I (list recordOrderEntry),
  listed (foldl (λ m i, listAdd m i e) m ixs) j = if decide (j ∈ ixs) then listed m j ++ [e] else listed m j.
Proof.
  induction 1 as [|i ixs Hi _ IH]; intros m; cbn [foldl]; [by rewrite decide_False by set_solver|].
  rewrite IH, listed_add. destruct (decide (j = i)) as [->|Hne].
  - by rewrite decide_False, decide_True by set_solver.
  - apply decide_ext. set_solver.
Qed.

Lemma ordered_delete m recs vers of_ last key : ordered m recs vers of_ last →
  ordered m (delete key recs) (delete key vers) of_ last.
Proof.
  intros [Hh Hr Hl]. split; [|done|done]. intros i k r v [? Hk]%lookup_delete_Some [? Hv]%lookup_delete_Some. by eapply Hh.
Qed.

Lemma ordered_put m recs vers of_ last key r : ordered m recs vers of_ last → 0 ≤ last → NoDup (of_ r) →
  ordered (foldl (λ m i, listAdd m i (mkOrder key (last + 1))) m (of_ r)) (<[key := r]> recs) (<[key := last + 1]> vers)
    of_ (last + 1).
Proof.
  intros [Hh Hr Hl] H0 Hnd. split.
  - intros i k r' v [[<- <-]|[Hne Hk]]%lookup_insert_Some Hv Hi; rewrite listed_fold_add by done.
    + rewrite lookup_insert_eq in Hv. injection Hv as <-. rewrite decide_True by done. set_solver.
    + rewrite lookup_insert_ne in Hv by done. specialize (Hh _ _ _ _ Hk Hv Hi). case_decide; set_solver.
  - intros i. rewrite listed_fold_add by done. case_decide; [|done]. apply StronglySorted_app. split_and!; [|apply Hr|].
    + intros a b Ha ->%list_elem_of_singleton. cbn. apply Hl in Ha. lia.
    + repeat constructor.
  - intros i e. rewrite listed_fold_add by done. case_decide; [|intros ?%Hl; lia].
    intros [?%Hl| ->%list_elem_of_singleton]%elem_of_app; cbn; lia.
Qed.
End Indexes.

(** ** The store's invariant *)

Definition scopesOf (r : DomainRecord) : list recordScope := [scopeOf r].
Definition orgsOf (r : DomainRecord) : list string := if String.eqb (OrganizationID r) "" then [] else [OrganizationID r].

Record stored_ok (k : string) (r : DomainRecord) : Prop := {
  so_key : k = keyOf r;
  so_trim : TrimSpace (Domain r) = Domain r ∧ TrimSpace (Collection r) = Collection r ∧
    TrimSpace (OrganizationID r) = OrganizationID r ∧ TrimSpace (RecordID r) = RecordID r;
  so_named : Domain r ≠ "" ∧ Collection r ≠ "" ∧ RecordID r ≠ "";
  so_data : canonical (Data r)
}.

Record db_ok (db : MemoryDB) : Prop := {
  ok_recs : ∀ k r, records db !! k = Some r → stored_ok k r;
  ok_scope : exact (byScope db) (records db) scopesOf;
  ok_org : exact (byOrg db) (records db) orgsOf;
  ok_field : exact (byField db) (records db) recordFieldIndexes;
  ok_vers : dom (versions db) = dom (records db);
  ok_last : 0 ≤ nextVersion db ∧ ∀ k v, versions db !! k = Some v → 0 < v ≤ nextVersion db;
  ok_inj : ∀ k k' v, versions db !! k = Some v → versions db !! k' = Some v → k = k';
  ok_scope_order : ordered (byScopeOrder db) (records db) (versions db) scopesOf (nextVersion db);
  ok_field_order : ordered (byFieldOrder db) (records db) (versions db) recordFieldIndexes (nextVersion db)
}.

Lemma new_db_ok : db_ok NewMemoryDB.
Proof.
  assert (∀ (I : Type) `{Countable I} of_, exact (∅ : gmap I (gset string)) ∅ of_) as Hex.
  { intros I ?? of_ i k. unfold members. rewrite !lookup_empty. cbn. set_solver. }
  assert (∀ (I : Type) `{Countable I} of_, ordered (∅ : gmap I (list recordOrderEntry)) ∅ ∅ of_ 0) as Hord.
  { intros I ?? of_. split; intros *; unfold listed; rewrite lookup_empty; cbn; [done|constructor|set_solver]. }
  split; cbn [NewMemoryDB records byScope byOrg byField versions nextVersion byScopeOrder byFieldOrder];
    [|apply Hex|apply Hex|apply Hex| | | |apply Hord|apply Hord].
  - intros k r. by rewrite lookup_empty.
  - set_solver.
  - split; [lia|]. intros k v. by rewrite lookup_empty.
  - intros k k' v. by rewrite lookup_empty.
Qed.

Lemma prepare_ok rec rec' : prepareRecord rec = Ok rec' → stored_ok (keyOf rec') rec'.
Proof.
  unfold prepareRecord. destruct (String.eqb_spec (TrimSpace (Domain rec)) ""); [done|].
  destruct (String.eqb_spec (TrimSpace (Collection rec)) ""); [done|].
  destruct (String.eqb_spec (TrimSpace (RecordID rec)) ""); [done|]. intros [= <-]. split; cbn.
  - done.
  - by rewrite !trim_space_idemp.
  - done.
  - destruct (String.eqb _ _); [|unfold With_]; apply normalize_canonical_data.
Qed.

Lemma stamp_ok k r created updated : stored_ok k r → stored_ok k (stampRecord r created updated).
Proof. intros []. by split. Qed.

Lemma canonical_names_nodup d : canonical d → NoDup (map Name d).
Proof.
  intros [Hs _]. induction Hs as [|f d _ IH Hf]; cbn [map]; constructor; [|done].
  intros (g & Heq & Hg)%list_elem_of_fmap. rewrite Forall_forall in Hf. specialize (Hf _ Hg). rewrite Heq in Hf.
  by apply slt_irrefl in Hf.
Qed.

Lemma field_index_name s f i : fieldIndexOf s f = Some i → field i = Name f.
Proof.
  unfold fieldIndexOf. destruct (String.eqb _ _); [done|]. destruct (ScalarIndex _) as [[]|]; [|done]. by intros [= <-].
Qed.

Lemma field_indexes_nodup r : canonical (Data r) → NoDup (recordFieldIndexes r).
Proof.
  intros Hn%canonical_names_nodup. unfold recordFieldIndexes. generalize (scopeOf r) as s. intros s.
  induction (Data r) as [|f d IH]; [constructor|]. apply NoDup_cons in Hn as [Hf Hn]. cbn [omap list_omap].
  destruct (fieldIndexOf s f) as [i|] eqn:E; [|by apply IH]. constructor; [|by apply IH].
  intros (g & Hg & Ei)%list_elem_of_omap. apply Hf. apply field_index_name in E, Ei. rewrite <- E, Ei.
  by apply list_elem_of_fmap_2.
Qed.

Lemma remove_org m key r :
  (if String.eqb (OrganizationID r) "" then m else setRemove m (OrganizationID r) key) =
  foldl (λ m i, setRemove m i key) m (orgsOf r).
Proof. unfold orgsOf. by destruct (String.eqb _ _). Qed.

Lemma add_org m key r :
  (if String.eqb (OrganizationID r) "" then m else setAdd m (OrganizationID r) key) =
  foldl (λ m i, setAdd m i key) m (orgsOf r).
Proof. unfold orgsOf. by destruct (String.eqb _ _). Qed.

(** The set indexes once a key's record, if any, is out of them. *)
Definition unindexed (db : MemoryDB) (key : string) : MemoryDB :=
  match records db !! key with Some r => removeRecordIndexesLocked db key r | None => db end.

Lemma unindexed_exact db key : db_ok db →
  exact (byScope (unindexed db key)) (delete key (records db)) scopesOf ∧
  exact (byOrg (unindexed db key)) (delete key (records db)) orgsOf ∧
  exact (byField (unindexed db key)) (delete key (records db)) recordFieldIndexes.
Proof.
  intros []. unfold unindexed. destruct (records db !! key) as [r|] eqn:E; [|by rewrite delete_id].
  unfold removeRecordIndexesLocked. cbn [byScope byOrg byField]. rewrite remove_org. split_and!; [|by apply exact_remove..].
  by apply (exact_remove _ _ scopesOf _ _ ok_scope0 E).
Qed.

Lemma unindexed_same db key : let db' := unindexed db key in
  closed db' = closed db ∧ records db' = records db ∧ nextVersion db' = nextVersion db ∧ versions db' = versions db ∧
  byScopeOrder db' = byScopeOrder db ∧ byFieldOrder db' = byFieldOrder db.
Proof. unfold unindexed. by destruct (records db !! key). Qed.

Lemma put_ok db now rec db' rec' : db_ok db → stored_ok (keyOf rec) rec → nextVersion db + 1 < 2 ^ 64 →
  putRecord db now rec = (db', rec') →
  db_ok db' ∧
  rec' = stampRecord rec (from_option CreatedAt now (records db !! keyOf rec)) now ∧
  records db' = <[keyOf rec := rec']> (records db) ∧
  versions db' = <[keyOf rec := nextVersion db + 1]> (versions db) ∧
  nextVersion db' = nextVersion db + 1 ∧ closed db' = closed db.
Proof.
  intros Hok Hst Hroom. unfold putRecord.
  replace (match records db !! keyOf rec with
           | Some existing => (removeRecordIndexesLocked db (keyOf rec) existing, CreatedAt existing)
           | None => (db, now)
           end) with (unindexed db (keyOf rec), from_option CreatedAt now (records db !! keyOf rec))
    by (unfold unindexed; by destruct (records db !! keyOf rec)).
  destruct (unindexed_exact db (keyOf rec) Hok) as (Hes & Heo & Hef).
  destruct (unindexed_same db (keyOf rec)) as (Hc & Hr & Hn & Hv & Hso & Hfo).
  set (stamped := stampRecord _ _ _). pose proof (stamp_ok _ _ (from_option CreatedAt now (records db !! keyOf rec)) now Hst) as Hst'.
  fold stamped in Hst'. destruct Hok as [Hrecs _ _ _ Hvers [H0 Hlast] Hinj Hsord Hford].
  rewrite Hn, Hr, Hv, Hso, Hfo. replace (u64 (nextVersion db + 1)) with (nextVersion db + 1) by (symmetry; apply u64_id; unfold in_u64; lia).
  intros [= <- <-]. split; [|by split_and!].
  unfold addRecordIndexesLocked. cbn [versions closed records byScope byOrg byField nextVersion byScopeOrder byFieldOrder].
  rewrite lookup_insert_eq, add_org. cbn [default from_option id].
  split; cbn [versions closed records byScope byOrg byField nextVersion byScopeOrder byFieldOrder].
  - intros k r [[<- <-]|[_ ?]]%lookup_insert_Some; [done|by apply Hrecs].
  - rewrite <- insert_delete_eq. apply (exact_add _ _ scopesOf); [done|apply lookup_delete_eq].
  - rewrite <- insert_delete_eq. apply exact_add; [done|apply lookup_delete_eq].
  - rewrite <- insert_delete_eq. apply exact_add; [done|apply lookup_delete_eq].
  - rewrite !dom_insert_L. by rewrite Hvers.
  - split; [lia|]. intros k v [[<- <-]|[_ ?%Hlast]]%lookup_insert_Some; lia.
  - intros k k' v [[<- <-]|[? Hk]]%lookup_insert_Some [[<- Hx]|[? Hk']]%lookup_insert_Some; [done| | |by eapply Hinj].
    + apply Hlast in Hk'. lia.
    + apply Hlast in Hk. lia.
  - apply (ordered_put _ _ _ scopesOf); [done|done|apply NoDup_singleton].
  - apply ordered_put; [done|done|]. apply field_indexes_nodup, Hst'.
Qed.

Lemma drop_ok db key : db_ok db → db_ok (dropRecord (unindexed db key) key) ∧
  records (dropRecord (unindexed db key) key) = delete key (records db).
Proof.
  intros Hok. destruct (unindexed_exact db key Hok) as (Hes & Heo & Hef).
  destruct (unindexed_same db key) as (Hc & Hr & Hn & Hv & Hso & Hfo).
  destruct Hok as [Hrecs _ _ _ Hvers [H0 Hlast] Hinj Hsord Hford]. unfold dropRecord.
  split; [|by rewrite Hr]. rewrite Hr, Hn, Hv, Hso, Hfo.
  split; cbn [versions closed records byScope byOrg byField nextVersion byScopeOrder byFieldOrder]; [|done..| | | | |].
  - intros k r [_ ?]%lookup_delete_Some. by apply Hrecs.
  - rewrite !dom_delete_L. by rewrite Hvers.
  - split; [done|]. intros k v [_ ?]%lookup_delete_Some. by apply (Hlast k).
  - intros k k' v [_ ?]%lookup_delete_Some [_ ?]%lookup_delete_Some. by eapply Hinj.
  - by apply ordered_delete.
  - by apply ordered_delete.
Qed.

Lemma delete_org_key_as_drop db n key r : records db !! key = Some r →
  deleteOrgKey (db, n) key = (dropRecord (unindexed db key) key, n + 1).
Proof. intros E. unfold deleteOrgKey, unindexed. cbn [fst snd]. by rewrite E. Qed.

(** The loop of [DeleteRecordsByOrganization] over distinct stored keys. *)
Lemma delete_keys_ok keys : ∀ db n, db_ok db → NoDup keys → (∀ k, k ∈ keys → is_Some (records db !! k)) →
  let '(db', n') := foldl deleteOrgKey (db, n) keys in
  db_ok db' ∧ n' = n + Z.of_nat (length keys) ∧ (∀ k, records db' !! k = if decide (k ∈ keys) then None else records db !! k) ∧
  (∀ k, versions db' !! k = if decide (k ∈ keys) then None else versions db !! k) ∧
  nextVersion db' = nextVersion db ∧ closed db' = closed db.
Proof.
  induction keys as [|key keys IH]; intros db n Hok Hnd Hin; cbn [foldl].
  { split_and!; [done|cbn; lia|..]; intros; rewrite ?decide_False by set_solver; done. }
  apply NoDup_cons in Hnd as [Hk Hnd]. destruct (Hin key ltac:(set_solver)) as [r Hr].
  rewrite (delete_org_key_as_drop _ _ _ _ Hr). destruct (drop_ok db key Hok) as [Hok' Hrec'].
  destruct (unindexed_same db key) as (Hc & _ & Hn & Hv & _).
  specialize (IH (dropRecord (unindexed db key) key) (n + 1) Hok' Hnd). destruct (foldl _ _ keys) as [db' n'].
  destruct IH as (? & -> & Hrecs & Hvers & ? & ?).
  { intros k Hk'. rewrite Hrec', lookup_delete_ne by set_solver. apply Hin. set_solver. }
  cbn [dropRecord versions nextVersion closed] in *. rewrite Hrec' in Hrecs. rewrite Hv in Hvers.
  split_and!; [done|cbn [length]; lia| | |congruence|congruence]; intros k; rewrite ?Hrecs, ?Hvers;
    (destruct (decide (k = key)) as [->|];
     [rewrite lookup_delete_eq, (decide_True (P := key ∈ key :: keys)) by set_solver; by case_decide
     |rewrite lookup_delete_ne by done; apply decide_ext; set_solver]).
Qed.

Lemma delete_org_ok db org db' res' : db_ok db → DeleteRecordsByOrganization db false org = (db', res') → closed db = false →
  TrimSpace org ≠ "" →
  db_ok db' ∧ records db' = filter (λ kr, OrganizationID kr.2 ≠ TrimSpace org) (records db) ∧
  res' = Ok (Z.of_nat (size (filter (λ kr, OrganizationID kr.2 = TrimSpace org) (records db)))) ∧
  (∀ k v, versions db' !! k = Some v → versions db !! k = Some v) ∧
  nextVersion db' = nextVersion db ∧ closed db' = closed db.
Proof.
  intros Hok. unfold DeleteRecordsByOrganization, ensureReady. intros E Hclosed Horg. rewrite Hclosed in E. revert E.
  destruct (String.eqb_spec (TrimSpace org) "") as [|_]; [done|]. set (o := TrimSpace org) in *.
  assert (∀ k, k ∈ elements (members (byOrg db) o) ↔ ∃ r, records db !! k = Some r ∧ OrganizationID r = o) as Hkeys.
  { intros k. rewrite elem_of_elements, (ok_org _ Hok o k). unfold orgsOf. split; intros (r & Hr & Ho); exists r; (split; [done|]).
    - destruct (String.eqb_spec (OrganizationID r) ""); set_solver.
    - destruct (String.eqb_spec (OrganizationID r) ""); [congruence|set_solver]. }
  pose proof (delete_keys_ok (elements (members (byOrg db) o)) db 0 Hok (NoDup_elements _)) as H.
  change (default ∅ (byOrg db !! o)) with (members (byOrg db) o).
  destruct (foldl deleteOrgKey (db, 0) (elements (members (byOrg db) o))) as [db1 n1].
  destruct H as (Hok1 & -> & Hrecs & Hvers & Hn & Hc). { intros k (r & ? & _)%Hkeys. by exists r. }
  assert (records db1 = filter (λ kr, OrganizationID kr.2 ≠ o) (records db)) as Hr1.
  { apply map_eq. intros k. rewrite Hrecs, map_lookup_filter. destruct (records db !! k) as [r|] eqn:Er; cbn; [|by case_decide].
    case_decide as Hin; rewrite Hkeys in Hin.
    - rewrite option_guard_False; [done|]. intros Hne. apply Hne. destruct Hin as (r' & ? & ?). congruence.
    - rewrite option_guard_True; [done|]. intros Ho. apply Hin. eauto. }
  intros [= <- <-]. cbn [records versions nextVersion closed]. split_and!; [|done| | |done|done].
  - destruct Hok1. split; try done. intros i k. cbn [byOrg records]. unfold members. destruct (decide (i = o)) as [->|].
    + rewrite lookup_delete_eq. cbn. split; [set_solver|]. intros (r & Hr & Hi). exfalso. rewrite Hr1 in Hr.
      apply map_lookup_filter_Some in Hr as [_ Hne]. cbn in Hne. unfold orgsOf in Hi. destruct (String.eqb _ _); set_solver.
    + rewrite lookup_delete_ne by done. apply ok_org0.
  - do 2 f_equal. rewrite Z.add_0_l. f_equal.
    rewrite <- length_map_to_list. symmetry. rewrite <- (length_fmap fst). apply Permutation_length, NoDup_Permutation.
    + apply NoDup_fst_map_to_list.
    + apply NoDup_elements.
    + intros k. rewrite Hkeys. setoid_rewrite list_elem_of_fmap. split.
      * intros ([k' r] & -> & Hin%elem_of_map_to_list). apply map_lookup_filter_Some in Hin as [? ?]. by exists r.
      * intros (r & Hr & Ho). exists (k, r). split; [done|]. apply elem_of_map_to_list, map_lookup_filter_Some. done.
  - intros k v. rewrite Hvers. by case_decide.
Qed.

(** ** Histories *)

Inductive db_op :=
| OpUpsert (cancelled : bool) (now : Z) (rec : DomainRecord)
| OpDelete (cancelled : bool) (d c o r : string)
| OpDeleteOrg (cancelled : bool) (org : string)
| OpClose.

Definition dbStep (db : MemoryDB) (op : db_op) : MemoryDB :=
  match op with
  | OpUpsert cancelled now rec => (UpsertRecord db cancelled now rec).1
  | OpDelete cancelled d c o r => (DeleteRecord db cancelled d c o r).1
  | OpDeleteOrg cancelled org => (DeleteRecordsByOrganization db cancelled org).1
  | OpClose => Close db
  end.

Definition dbRun (ops : list db_op) : MemoryDB := foldl dbStep NewMemoryDB ops.

Definition upsertInstant (op : db_op) : option Z :=
  match op with OpUpsert _ now _ => Some now | _ => None end.

(** The version order is the order of the update instants. *)
Record clock_ok (t : Z) (db : MemoryDB) : Prop := {
  cl_rise : ∀ k k' r r' v v', records db !! k = Some r → records db !! k' = Some r' →
    versions db !! k = Some v → versions db !! k' = Some v' → v < v' → UpdatedAt r < UpdatedAt r';
  cl_past : ∀ k r, records db !! k = Some r → UpdatedAt r ≤ t
}.

Lemma clock_shrink t db db' : clock_ok t db →
  (∀ k r, records db' !! k = Some r → records db !! k = Some r) →
  (∀ k v, versions db' !! k = Some v → versions db !! k = Some v) → clock_ok t db'.
Proof. intros [Hr Hp] Hrec Hver. split; [|eauto]. intros k k' r r' v v' ????. eapply (Hr k k'); eauto. Qed.

Lemma clock_put t now db db' key r : clock_ok t db → t < now → UpdatedAt r = now → db_ok db →
  records db' = <[key := r]> (records db) → versions db' = <[key := nextVersion db + 1]> (versions db) →
  clock_ok now db'.
Proof.
  intros [Hr Hp] Ht Hu Hok Hrec Hver. destruct Hok. split.
  - intros k k' r1 r2 v v'. rewrite Hrec, Hver. intros [[<- <-]|[? H1]]%lookup_insert_Some [[<- <-]|[? H2]]%lookup_insert_Some;
      rewrite ?lookup_insert_eq, ?lookup_insert_ne by done; intros Hv Hv' Hlt.
    + simplify_eq. lia.
    + injection Hv as <-. apply ok_last0 in Hv'. lia.
    + apply Hp in H1. lia.
    + by eapply (Hr k k').
  - intros k r1. rewrite Hrec. intros [[<- <-]|[_ H1]]%lookup_insert_Some; [lia|]. apply Hp in H1. lia.
Qed.

(** One operation keeps the invariants; the clock's part needs instants that
    rise. *)
Lemma db_step_ok db op : db_ok db → nextVersion db + 1 < 2 ^ 64 →
  db_ok (dbStep db op) ∧ nextVersion db ≤ nextVersion (dbStep db op) ≤ nextVersion db + 1 ∧
  ∀ t, clock_ok t db →
    match upsertInstant op with Some now => t < now → clock_ok now (dbStep db op) | None => clock_ok t (dbStep db op) end.
Proof.
  intros Hok Hroom. destruct op as [cancelled now rec|cancelled d c o r|cancelled org|]; cbn [dbStep upsertInstant].
  - unfold UpsertRecord. destruct (ensureReady db cancelled).
    { split_and!; [done|cbn; lia..|]. intros t [Hr Hp] Ht. split; [done|]. intros k r ?%Hp. lia. }
    destruct (prepareRecord rec) as [rec1|] eqn:Ep; cbn [fst].
    2: { split_and!; [done|lia..|]. intros t [Hr Hp] Ht. split; [done|]. intros k r ?%Hp. lia. }
    destruct (putRecord db now rec1) as [db' rec'] eqn:E. cbn [fst].
    destruct (put_ok _ _ _ _ _ Hok (prepare_ok _ _ Ep) Hroom E) as (Hok' & -> & Hrec & Hver & Hn & _).
    split_and!; [done|lia..|]. intros t Hcl Ht. eapply (clock_put t now); [done|done| |exact Hok|exact Hrec|exact Hver]. done.
  - unfold DeleteRecord. destruct (ensureReady db cancelled); cbn [fst]; [split_and!; [done|lia..|done]|].
    destruct (drop_ok db (recordKey d c o r) Hok) as [Hok' Hrec].
    destruct (unindexed_same db (recordKey d c o r)) as (_ & _ & Hn & Hv & _).
    change (match records db !! recordKey d c o r with
            | Some rec => removeRecordIndexesLocked db (recordKey d c o r) rec | None => db end)
      with (unindexed db (recordKey d c o r)).
    split_and!; [done|cbn [dropRecord nextVersion]; lia..|]. intros t Hcl. eapply clock_shrink; [done|..].
    + intros k r'. rewrite Hrec. by intros [_ ?]%lookup_delete_Some.
    + cbn [dropRecord versions]. rewrite Hv. by intros k v [_ ?]%lookup_delete_Some.
  - destruct (ensureReady db cancelled) eqn:Er.
    { unfold DeleteRecordsByOrganization. rewrite Er. split_and!; [done|cbn; lia..|done]. }
    unfold ensureReady in Er. destruct cancelled; [done|]. destruct (closed db) eqn:Ec; [done|].
    destruct (String.eqb_spec (TrimSpace org) "") as [Ho|Ho].
    { unfold DeleteRecordsByOrganization, ensureReady. rewrite Ec, Ho. cbn. split_and!; [done|lia..|done]. }
    destruct (DeleteRecordsByOrganization db false org) as [db' res'] eqn:E. cbn [fst].
    destruct (delete_org_ok _ _ _ _ Hok E Ec Ho) as (Hok' & Hrec & _ & Hver & Hn & _).
    split_and!; [done|lia..|]. intros t Hcl. eapply clock_shrink; [done| |done].
    intros k r. rewrite Hrec. by intros [? _]%map_lookup_filter_Some.
  - destruct Hok. split_and!; [by split|cbn; lia..|]. intros t []. by split.
Qed.

Lemma run_ok_from ops : ∀ db, db_ok db → nextVersion db + Z.of_nat (length ops) < 2 ^ 64 →
  db_ok (foldl dbStep db ops) ∧
  ∀ t, clock_ok t db → StronglySorted Z.lt (t :: omap upsertInstant ops) → ∃ t', clock_ok t' (foldl dbStep db ops).
Proof.
  induction ops as [|op ops IH]; intros db Hok Hroom; cbn [foldl length] in *; [split; [done|]; eauto|].
  destruct (db_step_ok db op Hok ltac:(lia)) as (Hok' & Hn & Hcl). destruct (IH _ Hok') as [Hok2 Hcl2]; [lia|].
  split; [done|]. intros t Ht Hs. specialize (Hcl t Ht). cbn [omap list_omap] in Hs.
  destruct (upsertInstant op) as [now|].
  - apply StronglySorted_inv in Hs as [Hs Hlt]. apply Forall_cons in Hlt as [Hlt _]. by apply (Hcl2 now); [apply Hcl|].
  - by apply (Hcl2 t).
Qed.

Lemma run_ok ops : Z.of_nat (length ops) < 2 ^ 64 → db_ok (dbRun ops) ∧
  (StronglySorted Z.lt (omap upsertInstant ops) → ∃ t, clock_ok t (dbRun ops)).
Proof.
  intros Hlen. destruct (run_ok_from ops NewMemoryDB new_db_ok) as [Hok Hcl]; [cbn; lia|]. split; [done|].
  assert (∀ t, clock_ok t NewMemoryDB) as Hnew.
  { intros t. split; cbn [NewMemoryDB records]; intros *; rewrite lookup_empty; done. }
  intros Hs. destruct (omap upsertInstant ops) as [|now rest] eqn:E.
  - apply (Hcl 0); [done|repeat constructor].
  - apply (Hcl (now - 1)); [done|]. constructor; [done|].
    apply StronglySorted_inv in Hs as [_ Hs]. constructor; [lia|]. eapply Forall_impl; [exact Hs|]. cbn. lia.
Qed.

(** ** Queries are exact *)

Definition matching (db : MemoryDB) (d c o : string) (filters : list RecordFilter) : list DomainRecord :=
  filter (λ r, recordMatches r d c o filters = true) (allRecords db).

Lemma all_records_elem db r : r ∈ allRecords db ↔ ∃ k, records db !! k = Some r.
Proof.
  unfold allRecords. rewrite list_elem_of_fmap. split.
  - intros ([k r'] & -> & Hin%elem_of_map_to_list). by exists k.
  - intros [k Hk]. exists (k, r). split; [done|]. by apply elem_of_map_to_list.
Qed.

Lemma stored_unique db k k' r : db_ok db → records db !! k = Some r → records db !! k' = Some r → k = k'.
Proof. intros Hok H1%(ok_recs _ Hok) H2%(ok_recs _ Hok). by rewrite (so_key _ _ H1), (so_key _ _ H2). Qed.

Lemma all_records_nodup db : db_ok db → NoDup (allRecords db).
Proof.
  intros Hok. apply NoDup_fmap_2_strong; [|apply NoDup_map_to_list].
  intros [k r] [k' r'] H1%elem_of_map_to_list H2%elem_of_map_to_list Heq. cbn in Heq. subst r'.
  f_equal. by eapply stored_unique.
Qed.

Lemma records_at_elem db keys r : r ∈ recordsAt db keys ↔ ∃ k, k ∈ keys ∧ records db !! k = Some r.
Proof. unfold recordsAt. rewrite list_elem_of_omap. by setoid_rewrite elem_of_elements. Qed.

Lemma records_at_nodup db keys : db_ok db → NoDup (recordsAt db keys).
Proof.
  intros Hok. unfold recordsAt. pose proof (NoDup_elements keys) as Hnd. induction Hnd as [|k l Hk _ IH]; [constructor|].
  cbn [omap list_omap]. destruct (records db !! k) as [r|] eqn:E; [|done]. constructor; [|done].
  intros (k' & Hin & Hr)%list_elem_of_omap. apply Hk. by rewrite (stored_unique db k k' r Hok E Hr).
Qed.

(** A set of keys that leaves no match out yields the matches. *)
Lemma candidates_exact db keys d c o filters : db_ok db →
  (∀ k r, records db !! k = Some r → recordMatches r d c o filters = true → k ∈ keys) →
  filter (λ r, recordMatches r d c o filters = true) (recordsAt db keys) ≡ₚ matching db d c o filters.
Proof.
  intros Hok Hsup. apply NoDup_Permutation.
  - by apply NoDup_filter, records_at_nodup.
  - by apply NoDup_filter, all_records_nodup.
  - intros r. unfold matching. rewrite !list_elem_of_filter, records_at_elem, all_records_elem. naive_solver.
Qed.

Lemma guard_passes (wanted actual : string) :
  negb (String.eqb wanted "") && negb (String.eqb actual wanted) = false ↔ wanted = "" ∨ actual = wanted.
Proof. destruct (String.eqb_spec wanted ""), (String.eqb_spec actual wanted); cbn; split; tauto || (intros [|]; congruence) || done. Qed.

Lemma record_matches_scope r d c o filters : recordMatches r d c o filters = true ↔
  (d = "" ∨ Domain r = d) ∧ (c = "" ∨ Collection r = c) ∧ (o = "" ∨ OrganizationID r = o) ∧ Matches (Data r) filters = true.
Proof.
  rewrite <- !guard_passes. unfold recordMatches.
  destruct (negb (String.eqb d "") && _); [split; [done|by intros []]|].
  destruct (negb (String.eqb c "") && _); [split; [done|by intros (_ & ? & _)]|].
  destruct (negb (String.eqb o "") && _); [split; [done|by intros (_ & _ & ? & _)]|]. tauto.
Qed.

(** Filters the field index can serve: trimmed names, none on the
    organization field, which is not indexed. *)
Definition servable (filters : list RecordFilter) : Prop :=
  Forall (λ f, TrimSpace (Field_ f) = Field_ f ∧ Field_ f ≠ "organization_id") filters.

Lemma normalized_filters_trimmed fs : Forall (λ f, TrimSpace (Field_ f) = Field_ f) (normalizeRecordFilters fs).
Proof.
  destruct fs as [|f [|g fs]]; cbn [normalizeRecordFilters]; [constructor| |].
  - destruct (String.eqb _ _); repeat constructor. cbn. apply trim_space_idemp.
  - rewrite sortBy_perm. apply Forall_forall. intros h Hh.
    destruct (dedup_spec Field_ (filter (λ f, Field_ f ≠ "") (map trimFilter (f :: g :: fs))) [] ∅ (indexes_empty _)) as (_ & _ & Hin).
    destruct (Hin _ Hh) as [?|[_ Hx]%list_elem_of_filter]; [set_solver|].
    apply list_elem_of_fmap in Hx as (x & -> & _). cbn. apply trim_space_idemp.
Qed.

Lemma matches_indexed r filters i : Matches (Data r) filters = true → servable filters →
  i ∈ filterIndexes (scopeOf r) filters → i ∈ recordFieldIndexes r.
Proof.
  intros Hm Hs (f & Hf & Ei)%list_elem_of_omap. unfold servable in Hs. rewrite Forall_forall in Hs.
  destruct (Hs f Hf) as [Htrim Horg]. unfold Matches in Hm. rewrite forallb_forall in Hm.
  specialize (Hm f ltac:(by apply list_elem_of_In)). unfold Get in Hm. rewrite Htrim in Hm.
  destruct (getBy Name (Data r) (Field_ f)) as [fld|] eqn:Eg; cbn in Hm; [|done].
  apply getBy_Some in Eg as [Hin Hname]. apply equal_value_key in Hm.
  destruct (ScalarIndex (Wanted f)) as [[k v]|] eqn:Ew; [|done]. injection Ei as <-.
  apply list_elem_of_omap. exists fld. split; [done|]. unfold fieldIndexOf.
  destruct (String.eqb_spec (Name fld) "organization_id"); [congruence|].
  unfold valueKey in Hm. rewrite Ew in Hm. destruct (ScalarIndex (FValue fld)) as [[]|]; [|done]. injection Hm as -> ->. by rewrite Hname.
Qed.

Lemma consider_keeps k sel keys : k ∈ default ∅ sel → k ∈ default ∅ keys → k ∈ default ∅ (considerKeys sel keys).
Proof. unfold considerKeys. destruct sel as [s|]; [|done]. by destruct (_ <? _)%nat. Qed.

Lemma candidates_superset db d c o filters keys k r : db_ok db →
  TrimSpace d = d → TrimSpace c = c → TrimSpace o = o → servable filters →
  candidateKeysLocked db d c o filters = Some keys →
  records db !! k = Some r → recordMatches r d c o filters = true → k ∈ keys.
Proof.
  intros Hok Hd Hc Ho Hs E Hr (Md & Mc & Mo & Mf)%record_matches_scope. unfold candidateKeysLocked in E. revert E.
  pose proof (ok_recs _ Hok _ _ Hr) as [_ (Td & Tc & To & _) _ _].
  destruct (String.eqb_spec d ""), (String.eqb_spec c ""), (String.eqb_spec o ""); cbn [negb andb]; try done.
  4: { intros [= <-]. destruct Md as [|Md], Mc as [|Mc], Mo as [|Mo]; try done.
    assert (scopeOf r = scopeKey d c o) as Hsc by (unfold scopeOf; congruence). rewrite <- Hsc.
    assert (∀ i, i ∈ filterIndexes (scopeOf r) filters → k ∈ members (byField db) i) as Hall.
    { intros i Hi. apply (ok_field _ Hok). exists r. split; [done|]. by eapply matches_indexed. }
    assert (k ∈ default ∅ (byScope db !! scopeOf r)) as Hinit.
    { apply (ok_scope _ Hok (scopeOf r) k). exists r. split; [done|]. unfold scopesOf. set_solver. }
    revert Hall Hinit. cbn [considerKeys]. generalize (byScope db !! scopeOf r) as sel.
    generalize (filterIndexes (scopeOf r) filters) as ixs.
    induction ixs as [|i ixs IH]; intros sel Hall Hsel; cbn [foldl]; [done|].
    apply IH; [set_solver|]. apply consider_keeps; [done|]. apply Hall. set_solver. }
  all: intros [= <-]; destruct Mo as [|Mo]; [done|]; apply (ok_org _ Hok o k); exists r; (split; [done|]);
    unfold orgsOf; destruct (String.eqb_spec (OrganizationID r) ""); [congruence|set_solver].
Qed.

(** ** Counting *)

Lemma db_count_walk_spec d c o filters l : ∀ n,
  countWalk false d c o filters l n = Ok (n + Z.of_nat (length (filter (λ r, recordMatches r d c o filters = true) l))).
Proof.
  induction l as [|r l IH]; intros n; cbn [countWalk]; [f_equal; cbn; lia|]. rewrite IH, filter_cons.
  destruct (recordMatches r d c o filters); [rewrite decide_True by done|rewrite decide_False by done]; f_equal; cbn [length]; lia.
Qed.

Lemma db_count_exact db d c o query : db_ok db → closed db = false → servable (Filters (NormalizeQuery query)) →
  CountRecords db false false d c o query =
    Ok (Z.of_nat (length (matching db (TrimSpace d) (TrimSpace c) (TrimSpace o) (Filters (NormalizeQuery query))))).
Proof.
  intros Hok Hc Hs. unfold CountRecords, ensureReady. rewrite Hc. cbn [orb].
  destruct (candidateKeysLocked _ _ _ _ _) as [keys|] eqn:E; rewrite db_count_walk_spec; [|done].
  rewrite (candidates_exact db keys); [done|done|]. intros k r. by eapply candidates_superset; rewrite ?trim_space_idemp.
Qed.

(** ** Listing *)

#[export] Instance compareRecords_ok : CompareOk compareRecords.
Proof.
  unfold compareRecords. apply (compare_then (λ a b, compareZ (UpdatedAt b) (UpdatedAt a))).
  - apply (compare_rev (λ a b, compareZ (UpdatedAt a) (UpdatedAt b))), (compare_on UpdatedAt), _.
  - apply (compare_on RecordID), _.
Qed.

Abbreviation inOrder := (StronglySorted (notAfter compareRecords)).

(** [recordBefore] is the strict part of the comparison. *)
Lemma record_before_spec a b : recordBefore a b = true ↔ compareRecords a b < 0.
Proof.
  unfold recordBefore, compareRecords, thenCompare, compareZ. destruct (Z.eqb_spec (UpdatedAt a) (UpdatedAt b)) as [->|Hne].
  - rewrite Z.compare_refl. cbn. unfold String.ltb, compareStr. by destruct (String.compare _ _).
  - destruct (Z.compare_spec (UpdatedAt b) (UpdatedAt a)); [congruence|..]; cbn; destruct (Z.ltb_spec (UpdatedAt b) (UpdatedAt a)); split; (done || lia).
Qed.

Lemma not_before a b : recordBefore a b = false ↔ compareRecords b a ≤ 0.
Proof.
  rewrite <- not_true_iff_false, record_before_spec. pose proof (cmp_flip (cmp := compareRecords) b a). lia.
Qed.

(** [out] is a selection from [all]: nothing that was left out comes before
    anything selected; without a limit nothing is left out, with one the
    selection is as long as the limit allows. *)
Definition selects (limit : Z) (out all : list DomainRecord) : Prop :=
  ∃ rest, all ≡ₚ out ++ rest ∧ (∀ a b, a ∈ out → b ∈ rest → compareRecords a b ≤ 0) ∧
    (limit ≤ 0 → rest = []) ∧ (0 < limit → Z.of_nat (length out) = Z.min limit (Z.of_nat (length all))).

Definition isListing (limit : Z) (out all : list DomainRecord) : Prop := inOrder out ∧ selects limit out all.

Lemma in_order_split l x : inOrder l →
  let i := sortSearch (length l) (nthBefore x l) in
  (i ≤ length l)%nat ∧ (∀ a, a ∈ take i l → compareRecords a x ≤ 0) ∧ (∀ a, a ∈ drop i l → compareRecords x a ≤ 0).
Proof.
  intros Hs i. destruct (sort_search_spec (length l) (nthBefore x l)) as (Hi & Hlow & Hhigh); [|fold i in Hi, Hlow, Hhigh].
  { intros a b Hab. unfold nthBefore. destruct (l !! b) as [y|] eqn:Eb; [|done].
    destruct (l !! a) as [z|] eqn:Ea; [|apply lookup_lt_Some in Eb; apply lookup_ge_None in Ea; lia].
    rewrite !record_before_spec. intros Hz. destruct (decide (a = b)) as [->|]; [by simplify_eq|].
    pose proof (sorted_lookup _ _ _ _ _ _ Hs Ea Eb ltac:(lia)) as Hzy. unfold notAfter in Hzy.
    pose proof (cmp_trans (cmp := compareRecords) y x z). pose proof (cmp_flip (cmp := compareRecords) y x).
    pose proof (cmp_flip (cmp := compareRecords) z x). pose proof (cmp_trans (cmp := compareRecords) z y x). lia. }
  split_and!; [done|..].
  - intros a (j & Hj)%list_elem_of_lookup. apply lookup_take_Some in Hj as [Hj Hlt]. specialize (Hlow j Hlt).
    unfold nthBefore in Hlow. rewrite Hj in Hlow. by apply not_before.
  - intros a (j & Hj)%list_elem_of_lookup. rewrite lookup_drop in Hj. pose proof (lookup_lt_Some _ _ _ Hj).
    specialize (Hhigh (i + j)%nat ltac:(lia)). unfold nthBefore in Hhigh. rewrite Hj in Hhigh.
    apply record_before_spec in Hhigh. lia.
Qed.

Lemma in_order_insert l q x : inOrder (l ++ q) → (∀ a, a ∈ l → compareRecords a x ≤ 0) → (∀ a, a ∈ q → compareRecords x a ≤ 0) →
  inOrder (l ++ x :: q).
Proof.
  intros (Hlq & Hl & Hq)%StronglySorted_app Ha Hb. apply StronglySorted_app. split_and!; [|done|].
  - intros a b H1 [->|H2]%elem_of_cons; [by apply Ha|by apply Hlq].
  - constructor; [done|]. apply Forall_forall. exact Hb.
Qed.

Lemma append_selects l seen x limit : 0 < limit → inOrder l → selects limit l seen →
  inOrder (appendListCandidate l x limit) ∧ selects limit (appendListCandidate l x limit) (seen ++ [x]).
Proof.
  intros Hlim Hs (rest & Hp & Hcross & _ & Hlen). specialize (Hlen Hlim). pose proof (Permutation_length Hp) as Hpl.
  rewrite length_app in Hpl. destruct (in_order_split l x Hs) as (Hi & Hlow & Hhigh). unfold appendListCandidate.
  set (i := sortSearch (length l) (nthBefore x l)) in *. rewrite (proj2 (Z.leb_gt _ _)) by lia.
  pose proof (take_drop i l) as Htd. destruct (Z.leb_spec limit (Z.of_nat i)).
  - split; [done|]. exists (rest ++ [x]). split_and!; [by rewrite Hp, <- app_assoc| |lia|rewrite length_app; cbn; lia].
    intros a b Ha [Hb| ->%list_elem_of_singleton]%elem_of_app; [by apply Hcross|]. apply Hlow.
    rewrite take_ge by lia. done.
  - destruct (Z.ltb_spec (Z.of_nat (length l)) limit).
    + assert (rest = []) as -> by (apply length_zero_iff_nil; lia). split; [by apply in_order_insert; rewrite ?Htd|].
      exists []. split_and!; [|set_solver|done|rewrite !length_app; cbn [length]; rewrite length_take, length_drop; lia].
      rewrite !app_nil_r in *. rewrite Hp, <- (Permutation_middle (take i l) (drop i l) x), Htd. symmetry. apply Permutation_cons_append.
    + destruct (exists_last (l := l)) as (l' & z & El); [intros ->; cbn in *; lia|].
      assert (take (length l - 1) l = l') as -> by (rewrite El, length_app; cbn [length]; apply take_app_length'; lia).
      assert (length l = S (length l')) as Hll by (rewrite El, length_app; cbn; lia).
      assert (take i l = take i l') as Htake by (rewrite El, take_app_le by lia; done). rewrite Htake in *.
      assert (drop i l = drop i l' ++ [z]) as Hdrop by (rewrite El, drop_app_le by lia; done). rewrite Hdrop in Hhigh.
      pose proof (take_drop i l') as Htd'. rewrite El in Hs. pose proof Hs as (Hz & Hs' & _)%StronglySorted_app.
      split. { apply in_order_insert; [by rewrite Htd'|done|]. intros a Ha. apply Hhigh. set_solver. }
      exists (z :: rest). split_and!.
      * etrans; [apply Permutation_app_tail, Hp|]. etrans; [symmetry; apply Permutation_cons_append|].
        rewrite El, <- (Permutation_middle (take i l') (drop i l') x), Htd', <- app_assoc. done.
      * intros a b Ha Hb. assert (compareRecords a z ≤ 0) as Haz.
        { apply elem_of_app in Ha as [Ha|[->|Ha]%elem_of_cons]; [|apply Hhigh; set_solver|];
            apply Hz; [|set_solver| |set_solver]; rewrite <- Htd'; set_solver. }
        apply elem_of_cons in Hb as [->|Hb]; [done|]. eapply cmp_trans; [exact Haz|]. apply Hcross; [rewrite El; set_solver|done].
      * lia.
      * rewrite !length_app. cbn [length]. rewrite length_take, length_drop. lia.
Qed.

Lemma record_walk_limited d c o filters limit l : 0 < limit → ∀ out seen, inOrder out → selects limit out seen →
  ∃ out', recordWalk false d c o filters limit l out = Ok out' ∧
    selects limit out' (seen ++ filter (λ r, recordMatches r d c o filters = true) l).
Proof.
  intros Hlim. induction l as [|r l IH]; intros out seen Hs Hsel; cbn [recordWalk]; [exists out; by rewrite app_nil_r|].
  rewrite filter_cons. destruct (recordMatches r d c o filters).
  - rewrite decide_True by done. destruct (append_selects out seen r limit Hlim Hs Hsel) as [Hs' Hsel'].
    destruct (IH _ _ Hs' Hsel') as (out' & -> & H). exists out'. split; [done|]. by rewrite <- app_assoc in H.
  - rewrite decide_False by done. by apply IH.
Qed.

Lemma record_walk_unlimited d c o filters limit l : limit ≤ 0 → ∀ out,
  recordWalk false d c o filters limit l out = Ok (out ++ filter (λ r, recordMatches r d c o filters = true) l).
Proof.
  intros Hlim. induction l as [|r l IH]; intros out; cbn [recordWalk]; [by rewrite app_nil_r|].
  rewrite IH, filter_cons. destruct (recordMatches r d c o filters); [rewrite decide_True by done|by rewrite decide_False by done].
  unfold appendListCandidate. rewrite (proj2 (Z.leb_le _ _)) by done. by rewrite <- app_assoc.
Qed.

Lemma selects_all limit l : limit ≤ 0 → selects limit l l.
Proof. intros. exists []. split_and!; [by rewrite app_nil_r|set_solver|done|lia]. Qed.

Lemma selects_perm limit out out' all all' : out ≡ₚ out' → all ≡ₚ all' → selects limit out all → selects limit out' all'.
Proof.
  intros Ho Ha (rest & Hp & Hc & H1 & H2). exists rest. split_and!; [by rewrite <- Ha, Hp, Ho| |done|].
  - intros a b Hin. apply Hc. by rewrite Ho.
  - by rewrite <- Ho, <- Ha.
Qed.

Lemma record_walk_selects d c o filters limit l : ∃ out,
  recordWalk false d c o filters limit l [] = Ok out ∧ selects limit out (filter (λ r, recordMatches r d c o filters = true) l).
Proof.
  destruct (decide (limit ≤ 0)).
  - eexists. split; [by apply record_walk_unlimited|]. cbn [app]. by apply selects_all.
  - assert (0 < limit) as Hlim by lia. apply (record_walk_limited d c o filters limit l Hlim [] []); [constructor|].
    exists []. split_and!; [done|set_solver|done|cbn [length]; lia].
Qed.

(** *** The walk over an order list *)

Definition liveRecords (db : MemoryDB) (l : list recordOrderEntry) : list DomainRecord :=
  omap (recordForOrderEntryLocked db) l.

Lemma db_ordered_walk_spec db d c o filters limit l : 0 < limit → ∀ out, Z.of_nat (length out) ≤ limit →
  orderedWalk db false d c o filters limit l out =
    Ok (take (Z.to_nat limit) (out ++ filter (λ r, recordMatches r d c o filters = true) (liveRecords db l))).
Proof.
  intros Hlim. induction l as [|e l IH]; intros out Hout; cbn [orderedWalk liveRecords omap list_omap].
  { rewrite app_nil_r, take_ge by lia. done. }
  destruct (Z.leb_spec limit (Z.of_nat (length out))).
  { rewrite take_app_le, take_ge by lia. done. }
  destruct (recordForOrderEntryLocked db e) as [r|]; [|by rewrite IH].
  rewrite filter_cons. destruct (recordMatches r d c o filters).
  - rewrite decide_True by done. rewrite IH by (rewrite length_app; cbn; lia). by rewrite <- app_assoc.
  - rewrite decide_False by done. by rewrite IH.
Qed.

Lemma live_entry db e r : recordForOrderEntryLocked db e = Some r → 0 < oversion e →
  versions db !! okey e = Some (oversion e) ∧ records db !! okey e = Some r.
Proof.
  unfold recordForOrderEntryLocked. destruct (Z.eqb_spec (default 0 (versions db !! okey e)) (oversion e)) as [Hv|]; [|done].
  intros Hr Hpos. split; [|done]. destruct (versions db !! okey e) as [v|]; cbn in Hv; [congruence|lia].
Qed.

Lemma rising_reverse l : rising l → StronglySorted (λ a b, oversion b < oversion a) (reverse l).
Proof.
  unfold rising. induction 1 as [|e l Hs IH He]; [constructor|]. rewrite reverse_cons. apply StronglySorted_app.
  split_and!; [|done|repeat constructor]. intros a b Ha ->%list_elem_of_singleton.
  rewrite elem_of_reverse in Ha. rewrite Forall_forall in He. by apply He.
Qed.

Lemma live_records_newest t db l : clock_ok t db → rising l → (∀ e, e ∈ l → 0 < oversion e) →
  StronglySorted (λ a b, UpdatedAt b < UpdatedAt a) (liveRecords db (reverse l)).
Proof.
  intros Hcl Hl Hpos. apply rising_reverse in Hl. assert (∀ e, e ∈ reverse l → 0 < oversion e) as Hpos'.
  { intros e. rewrite elem_of_reverse. apply Hpos. }
  induction Hl as [|e k Hk IH He]; [constructor|]. cbn [liveRecords omap list_omap].
  destruct (recordForOrderEntryLocked db e) as [r|] eqn:Er; [|apply IH; set_solver]. constructor; [apply IH; set_solver|].
  apply Forall_forall. intros r' (e' & Hin & Er')%list_elem_of_omap. rewrite Forall_forall in He. specialize (He _ Hin).
  apply live_entry in Er as [Hv Hr]; [|set_solver]. apply live_entry in Er' as [Hv' Hr']; [|set_solver].
  by apply (cl_rise _ _ Hcl _ _ _ _ _ _ Hr' Hr Hv' Hv).
Qed.

Lemma newest_in_order l : StronglySorted (λ a b, UpdatedAt b < UpdatedAt a) l → inOrder l ∧ NoDup l.
Proof.
  induction 1 as [|r l _ [IH1 IH2] Hr]; [split; constructor|]. rewrite Forall_forall in Hr. split; constructor; try done.
  - apply Forall_forall. intros r' Hin. specialize (Hr _ Hin). unfold notAfter.
    assert (recordBefore r r' = true) as Hb; [|apply record_before_spec in Hb; lia].
    unfold recordBefore. rewrite (proj2 (Z.eqb_neq _ _)), (proj2 (Z.ltb_lt _ _)) by lia. done.
  - intros Hin. specialize (Hr _ Hin). lia.
Qed.

Lemma selects_take limit l : 0 < limit → inOrder l → selects limit (take (Z.to_nat limit) l) l.
Proof.
  intros Hlim Hs. exists (drop (Z.to_nat limit) l). split_and!; [by rewrite take_drop| |lia|rewrite length_take; lia].
  rewrite <- (take_drop (Z.to_nat limit) l) in Hs at 1. apply StronglySorted_app in Hs as [Hc _]. exact Hc.
Qed.

(** Every list the planner may choose holds the current entry of every match. *)
Lemma ordered_candidates_have db d c o filters k r v : db_ok db →
  TrimSpace d = d → TrimSpace c = c → TrimSpace o = o → servable filters →
  let l := orderedCandidatesLocked db d c o filters in
  rising l ∧ (∀ e, e ∈ l → 0 < oversion e) ∧
  (l ≠ [] → records db !! k = Some r → versions db !! k = Some v → recordMatches r d c o filters = true → mkOrder k v ∈ l).
Proof.
  intros Hok Hd Hc Ho Hs. unfold orderedCandidatesLocked.
  destruct (String.eqb_spec d "") as [|Nd]; [cbn; split_and!; [constructor|set_solver|done]|].
  destruct (String.eqb_spec c "") as [|Nc]; [cbn; split_and!; [constructor|set_solver|done]|].
  destruct (String.eqb_spec o "") as [|No]; [cbn; split_and!; [constructor|set_solver|done]|]. cbn [orb].
  set (good := λ l, rising l ∧ (∀ e, e ∈ l → 0 < oversion e) ∧
    (records db !! k = Some r → versions db !! k = Some v → recordMatches r d c o filters = true → mkOrder k v ∈ l)).
  set (s := scopeKey d c o).
  assert (∀ sel l n, (∀ l' n', sel = Some (l', n') → good l') → good l → ∀ l' n', considerOrder sel l n = Some (l', n') → good l') as Hstep.
  { intros sel l n Hsel Hl l' n'. unfold considerOrder. destruct (n =? 0)%nat; [apply Hsel|].
    destruct sel as [[l1 n1]|]; [|by intros [= <- <-]]. destruct (n <? n1)%nat; [by intros [= <- <-]|apply Hsel]. }
  assert (recordMatches r d c o filters = true → scopeOf r = s ∧ Matches (Data r) filters = true) as Hscope.
  { intros (Md & Mc & Mo & Mf)%record_matches_scope. split; [|done].
    destruct Md as [|Md], Mc as [|Mc], Mo as [|Mo]; try done. unfold scopeOf, s. congruence. }
  assert (∀ l' n', foldl (λ sel i, considerOrder sel (default [] (byFieldOrder db !! i)) (size (default ∅ (byField db !! i))))
    (considerOrder None (default [] (byScopeOrder db !! s)) (size (default ∅ (byScope db !! s)))) (filterIndexes s filters) = Some (l', n') → good l') as Hfold.
  { assert (∀ i, i ∈ filterIndexes s filters → good (listed (byFieldOrder db) i)) as Hall.
    { intros i Hi. destruct (ok_field_order _ Hok) as [Hh Hr Hl]. split_and!; [apply Hr|intros e He; apply Hl in He; lia|].
      intros H1 H2 [Hsc Hm]%Hscope. eapply Hh; [done..|]. eapply matches_indexed; [done..|by rewrite Hsc]. }
    assert (good (listed (byScopeOrder db) s)) as Hfirst.
    { destruct (ok_scope_order _ Hok) as [Hh Hr Hl]. split_and!; [apply Hr|intros e He; apply Hl in He; lia|].
      intros H1 H2 [Hsc _]%Hscope. eapply Hh; [done..|]. unfold scopesOf. rewrite Hsc. set_solver. }
    assert (∀ l' n', considerOrder None (listed (byScopeOrder db) s) (size (default ∅ (byScope db !! s))) = Some (l', n') → good l') as Hinit.
    { by apply Hstep. }
    revert Hall Hinit. unfold listed. generalize (considerOrder None (default [] (byScopeOrder db !! s)) (size (default ∅ (byScope db !! s)))).
    induction (filterIndexes s filters) as [|i ixs IH]; intros sel Hall Hinit; cbn [foldl]; [done|].
    apply IH; [intros j Hj; apply Hall; set_solver|]. apply Hstep; [done|]. apply Hall. set_solver. }
  destruct (foldl _ _ _) as [[l' n']|]; [|split_and!; [constructor|set_solver|done]].
  destruct (Hfold _ _ eq_refl) as (? & ? & ?). split_and!; auto.
Qed.

Lemma collect_selects t db d c o query : db_ok db → clock_ok t db →
  TrimSpace d = d → TrimSpace c = c → TrimSpace o = o → servable (Filters query) →
  ∃ out, collectCandidates db false d c o query = Ok out ∧ selects (QLimit query) out (matching db d c o (Filters query)).
Proof.
  intros Hok Hcl Hd Hc Ho Hs. unfold collectCandidates. set (l := orderedCandidatesLocked db d c o (Filters query)).
  destruct (Z.ltb_spec 0 (QLimit query)) as [Hlim|Hlim], (Nat.eqb_spec (length l) 0) as [Hl|Hl]; cbn [andb negb].
  2: { rewrite db_ordered_walk_spec by (cbn; lia). eexists. split; [reflexivity|]. cbn [app].
    assert (∀ k r v, _) as Hhave by (intros k r v; exact (ordered_candidates_have db d c o (Filters query) k r v Hok Hd Hc Ho Hs)).
    fold l in Hhave. assert (rising l ∧ ∀ e, e ∈ l → 0 < oversion e) as [Hrise Hpos].
    { destruct (Hhave "" (mkRecord "" "" "" "" [] [] 0 0) 0) as (? & ? & _). done. }
    pose proof (live_records_newest t db l Hcl Hrise Hpos) as Hnew.
    assert (StronglySorted (λ a b, UpdatedAt b < UpdatedAt a)
      (filter (λ r, recordMatches r d c o (Filters query) = true) (liveRecords db (reverse l)))) as [Hord Hnd]%newest_in_order.
    { eapply sorted_sublist; [|exact Hnew]. apply sublist_filter. }
    eapply selects_perm; [reflexivity| |by apply selects_take]. apply NoDup_Permutation; [done|by apply NoDup_filter, all_records_nodup|].
    intros r. unfold matching, liveRecords. rewrite !list_elem_of_filter, all_records_elem, list_elem_of_omap. split; intros [Hm H]; (split; [done|]).
    - destruct H as (e & Hin & Hr). rewrite elem_of_reverse in Hin. apply live_entry in Hr as [_ ?]; [by eexists|by apply Hpos].
    - destruct H as [k Hr]. assert (is_Some (versions db !! k)) as [v Hv].
      { apply elem_of_dom. rewrite (ok_vers _ Hok). by eapply elem_of_dom_2. }
      exists (mkOrder k v). rewrite elem_of_reverse. split.
      + apply (proj2 (proj2 (Hhave k r v))); [intros E; by rewrite E in Hl|done..].
      + unfold recordForOrderEntryLocked. cbn [okey oversion]. by rewrite Hv, Z.eqb_refl. }
  all: destruct (candidateKeysLocked db d c o (Filters query)) as [keys|] eqn:E;
    [destruct (record_walk_selects d c o (Filters query) (QLimit query) (recordsAt db keys)) as (out & -> & Hsel)
    |apply record_walk_selects];
    exists out; (split; [done|]); eapply selects_perm; [reflexivity| |exact Hsel]; apply candidates_exact; [done|];
    intros k r; by apply candidates_superset.
Qed.

Lemma normalized_filter_origin fs f : f ∈ normalizeRecordFilters fs → ∃ g, g ∈ fs ∧ f = trimFilter g.
Proof.
  destruct fs as [|g [|h fs]]; cbn [normalizeRecordFilters]; [set_solver| |].
  - destruct (String.eqb _ _); [set_solver|]. intros ->%list_elem_of_singleton. exists g. set_solver.
  - rewrite sortBy_perm. intros Hf.
    destruct (dedup_spec Field_ (filter (λ f, Field_ f ≠ "") (map trimFilter (g :: h :: fs))) [] ∅ (indexes_empty _)) as (_ & _ & Hin).
    destruct (Hin _ Hf) as [?|[_ Hx]%list_elem_of_filter]; [set_solver|].
    apply list_elem_of_fmap in Hx as (x & -> & Hx). by exists x.
Qed.

Lemma normalized_servable query : Forall (λ f, TrimSpace (Field_ f) ≠ "organization_id") (Filters query) →
  servable (Filters (NormalizeQuery query)).
Proof.
  intros Hq. apply Forall_forall. intros f Hf. pose proof (normalized_filters_trimmed (Filters query)) as Ht.
  rewrite Forall_forall in Ht, Hq. split; [by apply Ht|]. apply normalized_filter_origin in Hf as (g & Hg & ->).
  by apply Hq.
Qed.

Lemma visit_collect l : ∀ out : list DomainRecord, visitAll (λ out rec, (out ++ [rec], None)) out l = (out ++ l, None).
Proof.
  induction l as [|r l IH]; intros out; cbn [visitAll]; [by rewrite app_nil_r|]. rewrite IH. by rewrite <- app_assoc.
Qed.

Lemma sort_candidates_listing limit out all : selects limit out all → isListing limit (sortCandidates limit out) all.
Proof.
  intros Hsel. unfold sortCandidates. destruct ((limit <=? 0) || (1 <? Z.of_nat (length out))) eqn:E.
  - split; [apply (sort_sorted compareRecords)|]. eapply selects_perm; [|reflexivity|exact Hsel].
    symmetry. apply (sort_perm compareRecords).
  - split; [|done]. apply orb_false_iff in E as [_ E%Z.ltb_ge]. destruct out as [|a [|b out]]; cbn [length] in E; [..|lia]; repeat constructor.
Qed.

(** ** The contracts *)

(** C36: after any history of upserts, deletes and organization deletes whose
    upserts happen at rising instants, a listing under any scope and filters
    (other than on the organization field) is in the canonical order, newest
    first, holds nothing but matching records, leaves out only records that
    come later, and only when the limit makes it; and the count is the number
    of matching records. The indexes, the planner's choice among them and the
    stale entries of the order lists are invisible. *)
Theorem memory_db_queries_exact ops d c o query :
  let db := dbRun ops in
  let all := matching db (TrimSpace d) (TrimSpace c) (TrimSpace o) (Filters (NormalizeQuery query)) in
  Z.of_nat (length ops) < 2 ^ 64 → StronglySorted Z.lt (omap upsertInstant ops) → closed db = false →
  Forall (λ f, TrimSpace (Field_ f) ≠ "organization_id") (Filters query) →
  (∃ out, ListRecords db false false d c o query = Ok out ∧ isListing (QLimit query) out all) ∧
  CountRecords db false false d c o query = Ok (Z.of_nat (length all)).
Proof.
  intros db all Hlen Hclock Hopen Hq. destruct (run_ok ops Hlen) as [Hok [t Hcl]%(λ f, f Hclock)].
  pose proof (normalized_servable query Hq) as Hs. split; [|by apply db_count_exact].
  destruct (collect_selects t db (TrimSpace d) (TrimSpace c) (TrimSpace o) (NormalizeQuery query)) as (out & E & Hsel);
    [done|done|by rewrite trim_space_idemp..|done|].
  exists (sortCandidates (QLimit query) out). split; [|by apply sort_candidates_listing].
  unfold ListRecords, ForEachRecord, ensureReady. rewrite Hopen, E. cbn [QLimit NormalizeQuery]. by rewrite visit_collect.
Qed.

Definition demo (org id : string) (v : Z) : DomainRecord := mkRecord "d" "c" org id [mkField "n" (IntValue v)] [] 0 0.

Definition demoOps : list db_op :=
  [OpUpsert false 1 (demo "o" "a" 1); OpUpsert false 2 (demo "o" "b" 1); OpUpsert false 3 (demo "o" "a" 1);
   OpUpsert false 4 (demo "o" "c" 2); OpDelete false "d" "c" "o" "b"; OpUpsert false 5 (demo "p" "a" 1)].

Definition ones (limit : Z) : RecordQuery := mkQuery [mkFilter "n" (IntValue 1)] limit.

Lemma memory_db_queries_exact_witness :
  CountRecords (dbRun demoOps) false false " d" "c" "o" (ones 5) = Ok 1.
Proof.
  destruct (memory_db_queries_exact demoOps " d" "c" "o" (ones 5)) as [_ ->].
  - vm_compute. reflexivity.
  - vm_compute. repeat constructor.
  - vm_compute. reflexivity.
  - repeat constructor. vm_compute. discriminate.
  - vm_compute. reflexivity.
Defined.

(** The organization field is not indexed, but the planner looks it up: a
    filter on it under a full scope finds nothing, though the record matches. *)
Theorem organization_filter_finds_nothing :
  let db := dbRun [OpUpsert false 1 (demo "o" "a" 1)] in
  let query := mkQuery [mkFilter "organization_id" (StringValue "o")] 0 in
  CountRecords db false false "d" "c" "o" query = Ok 0 ∧ ListRecords db false false "d" "c" "o" query = Ok [] ∧
  length (matching db "d" "c" "o" (Filters query)) = 1%nat.
Proof. vm_compute. done. Qed.

(** When two upserts share an instant, the limited listing and the head of the
    full listing differ. *)
Theorem limited_listing_breaks_ties_by_write :
  let db := dbRun [OpUpsert false 1 (demo "o" "a" 1); OpUpsert false 1 (demo "o" "b" 1)] in
  (λ l, map RecordID l) <$> match ListRecords db false false "d" "c" "o" (ones 1) with Ok l => Some l | Err _ => None end = Some ["b"] ∧
  (λ l, map RecordID l) <$> match ListRecords db false false "d" "c" "o" (ones 0) with Ok l => Some l | Err _ => None end = Some ["a"; "b"].
Proof. vm_compute. done. Qed.

(** ** The store as a map from identities *)

Abbreviation identity := (string * string * string * string)%type.

(** No part holds the separator of the composite keys. *)
Definition clean (s : string) : Prop := Contains s "|" = false.
Definition cleanId (i : identity) : Prop := let '(d, c, o, r) := i in clean d ∧ clean c ∧ clean o ∧ clean r.

Definition idOf (d c o r : string) : identity := (TrimSpace d, TrimSpace c, TrimSpace o, TrimSpace r).
Definition recId (rec : DomainRecord) : identity := idOf (Domain rec) (Collection rec) (OrganizationID rec) (RecordID rec).
Definition idKey (i : identity) : string := let '(d, c, o, r) := i in d +:+ "|" +:+ c +:+ "|" +:+ o +:+ "|" +:+ r.

Lemma record_key_id d c o r : recordKey d c o r = idKey (idOf d c o r).
Proof. done. Qed.

Lemma id_key_inj i j : cleanId i → cleanId j → idKey i = idKey j → i = j.
Proof.
  destruct i as [[[d c] o] r], j as [[[d' c'] o'] r']. intros (Cd & Cc & Co & _) (Cd' & Cc' & Co' & _) E. cbn in E.
  apply split_at_separator in E as [-> E]; [|done..]. apply split_at_separator in E as [-> E]; [|done..].
  by apply split_at_separator in E as [-> ->].
Qed.

(** The abstract store. *)
Record spec := mkSpec { shut : bool; held : gmap identity DomainRecord }.

Definition specStep (s : spec) (op : db_op) : spec :=
  match op with
  | OpUpsert cancelled now rec =>
      if cancelled || shut s then s else
      match prepareRecord rec with
      | Err _ => s
      | Ok rec =>
          mkSpec false (<[recId rec := stampRecord rec (from_option CreatedAt now (held s !! recId rec)) now]> (held s))
      end
  | OpDelete cancelled d c o r => if cancelled || shut s then s else mkSpec false (delete (idOf d c o r) (held s))
  | OpDeleteOrg cancelled org =>
      if cancelled || shut s || String.eqb (TrimSpace org) "" then s
      else mkSpec false (filter (λ ir, OrganizationID ir.2 ≠ TrimSpace org) (held s))
  | OpClose => mkSpec true (held s)
  end.

Definition specRun (ops : list db_op) : spec := foldl specStep (mkSpec false ∅) ops.

Definition cleanOp (op : db_op) : Prop :=
  match op with
  | OpUpsert _ _ rec => cleanId (recId rec)
  | OpDelete _ d c o r => cleanId (idOf d c o r)
  | _ => True
  end.

Record stands_for (db : MemoryDB) (s : spec) : Prop := {
  sf_shut : closed db = shut s;
  sf_get : ∀ i, cleanId i → records db !! idKey i = held s !! i;
  sf_keys : ∀ k r, records db !! k = Some r → ∃ i, cleanId i ∧ k = idKey i;
  sf_clean : ∀ i r, held s !! i = Some r → cleanId i
}.

Lemma prepared_id rec rec' : prepareRecord rec = Ok rec' → recId rec' = recId rec ∧ keyOf rec' = idKey (recId rec').
Proof.
  unfold prepareRecord. destruct (String.eqb (TrimSpace (Domain rec)) ""); [done|].
  destruct (String.eqb (TrimSpace (Collection rec)) ""); [done|]. destruct (String.eqb (TrimSpace (RecordID rec)) ""); [done|].
  intros [= <-]. split; [|done]. unfold recId, idOf. cbn. by rewrite !trim_space_idemp.
Qed.

Lemma stands_for_put db db' s key r i : stands_for db s → cleanId i → key = idKey i → closed db' = closed db → shut s = false →
  records db' = <[key := r]> (records db) → stands_for db' (mkSpec false (<[i := r]> (held s))).
Proof.
  intros [H1 H2 H3 H4] Hi -> Hc Hshut Hr. split; cbn [shut held].
  - congruence.
  - intros j Hj. rewrite Hr. destruct (decide (i = j)) as [->|Hne]; [by rewrite !lookup_insert_eq|].
    rewrite !lookup_insert_ne; [by apply H2|done|]. intros E. by apply id_key_inj in E.
  - intros k r'. rewrite Hr. intros [[<- <-]|[_ ?]]%lookup_insert_Some; [by exists i|by eapply H3].
  - intros j r' [[<- <-]|[_ ?]]%lookup_insert_Some; [done|by eapply H4].
Qed.

Lemma stands_for_drop db db' s i : stands_for db s → cleanId i → closed db' = closed db → shut s = false →
  records db' = delete (idKey i) (records db) → stands_for db' (mkSpec false (delete i (held s))).
Proof.
  intros [H1 H2 H3 H4] Hi Hc Hshut Hr. split; cbn [shut held].
  - congruence.
  - intros j Hj. rewrite Hr. destruct (decide (i = j)) as [->|Hne]; [by rewrite !lookup_delete_eq|].
    rewrite !lookup_delete_ne; [by apply H2|done|]. intros E. by apply id_key_inj in E.
  - intros k r'. rewrite Hr. intros [_ ?]%lookup_delete_Some. by eapply H3.
  - intros j r' [_ ?]%lookup_delete_Some. by eapply H4.
Qed.

Lemma stands_for_filter db db' s org : stands_for db s → closed db' = closed db → shut s = false →
  records db' = filter (λ kr, OrganizationID kr.2 ≠ org) (records db) →
  stands_for db' (mkSpec false (filter (λ ir, OrganizationID ir.2 ≠ org) (held s))).
Proof.
  intros [H1 H2 H3 H4] Hc Hshut Hr. split; cbn [shut held].
  - congruence.
  - intros j Hj. rewrite Hr, !map_lookup_filter. cbn. by rewrite H2.
  - intros k r'. rewrite Hr. intros [? _]%map_lookup_filter_Some. by eapply H3.
  - intros j r' [? _]%map_lookup_filter_Some. by eapply H4.
Qed.

Lemma step_refines db s op : db_ok db → nextVersion db + 1 < 2 ^ 64 → stands_for db s → cleanOp op →
  stands_for (dbStep db op) (specStep s op).
Proof.
  intros Hok Hroom Hsf Hclean. pose proof (sf_shut _ _ Hsf) as Hshut.
  destruct op as [cancelled now rec|cancelled d c o r|cancelled org|]; cbn [dbStep specStep cleanOp] in *.
  - unfold UpsertRecord, ensureReady. rewrite Hshut. destruct cancelled; cbn [orb]; [done|]. destruct (shut s) eqn:Es; [done|].
    destruct (prepareRecord rec) as [rec1|] eqn:Ep; [|done]. destruct (prepared_id _ _ Ep) as [Hid Hkey].
    destruct (putRecord db now rec1) as [db' rec'] eqn:E.
    destruct (put_ok _ _ _ _ _ Hok (prepare_ok _ _ Ep) Hroom E) as (_ & -> & Hrec & _ & _ & Hc).
    eapply stands_for_put; [done|by rewrite Hid|done|done|done|]. cbn [fst]. rewrite Hrec. rewrite Hkey at 2.
    rewrite (sf_get _ _ Hsf) by (by rewrite Hid). by rewrite Hkey.
  - unfold DeleteRecord, ensureReady. rewrite Hshut. destruct cancelled; cbn [orb]; [done|]. destruct (shut s) eqn:Es; [done|].
    destruct (drop_ok db (recordKey d c o r) Hok) as [_ Hrec]. destruct (unindexed_same db (recordKey d c o r)) as [Hc _].
    by eapply stands_for_drop.
  - destruct cancelled; [unfold DeleteRecordsByOrganization, ensureReady; done|]. cbn [orb]. destruct (shut s) eqn:Es; cbn [orb].
    { unfold DeleteRecordsByOrganization, ensureReady. rewrite Hshut. done. }
    destruct (String.eqb_spec (TrimSpace org) "") as [Ho|Ho].
    { unfold DeleteRecordsByOrganization, ensureReady. by rewrite Hshut, Ho. }
    destruct (DeleteRecordsByOrganization db false org) as [db' res'] eqn:E.
    destruct (delete_org_ok _ _ _ _ Hok E Hshut Ho) as (_ & Hrec & _ & _ & _ & Hc). by eapply stands_for_filter.
  - destruct Hsf. by split.
Qed.

Lemma run_refines ops : ∀ db s, db_ok db → nextVersion db + Z.of_nat (length ops) < 2 ^ 64 → stands_for db s →
  Forall cleanOp ops → stands_for (foldl dbStep db ops) (foldl specStep s ops).
Proof.
  induction ops as [|op ops IH]; intros db s Hok Hroom Hsf Hc; [done|]. apply Forall_cons in Hc as [Hc Hcs].
  cbn [foldl length] in *. destruct (db_step_ok db op Hok ltac:(lia)) as (Hok' & Hn & _).
  apply IH; [done|lia| |done]. apply step_refines; [done|lia|done|done].
Qed.

(** As long as no identity holds the key separator, the store is a map
    from identities: after any history, reading an identity gives the record
    last written under exactly that domain, collection, organization and
    record, with the creation instant of its first write since it was last
    absent, and nothing after it was deleted, alone or with its organization. *)
Theorem memory_db_refines_map ops d c o r :
  Z.of_nat (length ops) < 2 ^ 64 → Forall cleanOp ops → cleanId (idOf d c o r) →
  GetRecord (dbRun ops) false d c o r =
    if shut (specRun ops) then Err ErrClosed else Ok (held (specRun ops) !! idOf d c o r).
Proof.
  intros Hlen Hops Hid. assert (stands_for (dbRun ops) (specRun ops)) as [Hs Hget _ _].
  { apply run_refines; [apply new_db_ok|cbn; lia| |done]. split; cbn [NewMemoryDB closed records shut held]; [done|..].
    - intros. by rewrite !lookup_empty.
    - intros k r'. by rewrite lookup_empty.
    - intros i r'. by rewrite lookup_empty. }
  unfold GetRecord, ensureReady. rewrite Hs, record_key_id, Hget by done. by destruct (shut (specRun ops)).
Qed.

Lemma memory_db_refines_map_witness :
  ∃ rec, GetRecord (dbRun demoOps) false "d " "c" "o" "a" = Ok (Some rec) ∧ CreatedAt rec = 1 ∧ UpdatedAt rec = 3.
Proof.
  rewrite (memory_db_refines_map demoOps "d " "c" "o" "a").
  - eexists. split; [vm_compute; reflexivity|]. split; reflexivity.
  - vm_compute. reflexivity.
  - repeat constructor.
  - repeat constructor.
Defined.

(** The composite key does not escape its separator: a write of one
    organization replaces another organization's record, and the other
    organization then reads it. *)
Theorem key_separator_crosses_tenants :
  let db := dbRun [OpUpsert false 1 (demo "acme" "x|r" 1); OpUpsert false 2 (demo "acme|x" "r" 2)] in
  match GetRecord db false "d" "c" "acme" "x|r" with
  | Ok (Some rec) => OrganizationID rec = "acme|x" ∧ RecordID rec = "r" ∧ size (records db) = 1%nat
  | _ => False
  end.
Proof. vm_compute. done. Qed.
