(* ===== verification/CachedStore.v ===== *)
(** * CachedStore: the cache in front of a state store
    (src/server-kit/go/database/cached_state_store.go)

    Point reads are served from the cache and written through; the wrapped
    store stays the truth. The wrapped store is any implementation of the
    [StateStore] interface that keeps its promises; the in-memory store is
    one. The cache is the one of [Cache], over any lawful backend; its serializer
    is a parameter that may refuse records and may change their values. The
    pass-through methods ([Exec], [Query], [Close] and the like) are not
    modelled. *)

From Stdlib Require Import ZArith Lia Ascii String Sorting.Sorted.
From stdpp Require Import base strings gmap fin_maps numbers sorting list.
From S2P Require Import Prelude GoStrings RecordData TopK MemoryDB Cache.

Open Scope string_scope.
Open Scope list_scope.
Open Scope Z_scope.

(** ** The wrapped store *)

Class StateStore (S : Type) := {
  ssGet : S → string → string → string → string → res db_error (option DomainRecord);
  ssUpsert : S → Z → DomainRecord → S * res db_error DomainRecord;
  ssDelete : S → string → string → string → string → S * option db_error
}.

(** What an identity that can be read back looks like in a record. *)
Definition identified (i : identity) (r : DomainRecord) : Prop :=
  (Domain r, Collection r, OrganizationID r, RecordID r) = i.

(** [content s i]: the record a ready store holds under an identity. *)
Class StateStoreLaws (S : Type) `{StateStore S} (content : S → identity → option DomainRecord)
    (addressable : identity → Prop) (ready : S → Prop) := {
  ss_get s d c o r : ready s → ssGet s d c o r = Ok (content s (idOf d c o r));
  ss_content s i r : ready s → addressable i → content s i = Some r → identified i r ∧ canonical (Data r);
  ss_upsert s now rec s' result : ready s → addressable (recId rec) → ssUpsert s now rec = (s', Ok result) →
    ready s' ∧ UpdatedAt result = now ∧
    ∀ i, addressable i → content s' i = if decide (i = recId rec) then Some result else content s i;
  ss_upsert_fails s now rec s' e : ready s → ssUpsert s now rec = (s', Err e) → s' = s;
  ss_delete s d c o r s' e : ready s → addressable (idOf d c o r) → ssDelete s d c o r = (s', e) →
    e = None ∧ ready s' ∧ ∀ i, addressable i → content s' i = if decide (i = idOf d c o r) then None else content s i
}.

#[export] Instance memoryStateStore : StateStore MemoryDB := {
  ssGet db := GetRecord db false;
  ssUpsert db := UpsertRecord db false;
  ssDelete db := DeleteRecord db false
}.

(** ** Options and keys *)

Record CachedStateStoreOptions := mkOptions { TTL : Z; NegativeTTL : Z; CacheTimeout : Z; KeyPrefix : string }.

Definition withDefaults (o : CachedStateStoreOptions) : CachedStateStoreOptions :=
  mkOptions (if TTL o <=? 0 then 60 * 10 ^ 9 else TTL o)
            (if NegativeTTL o <=? 0 then 10 * 10 ^ 9 else NegativeTTL o)
            (if CacheTimeout o <=? 0 then 100 * 10 ^ 6 else CacheTimeout o)
            (if String.eqb (TrimSpace (KeyPrefix o)) "" then "state" else KeyPrefix o).

Definition isAlnum (c : ascii) : bool := byteIn c 97 122 || byteIn c 65 90 || byteIn c 48 57.

Definition isSafeByte (c : ascii) : bool := isAlnum c || byteIs c 45 || byteIs c 95 || byteIs c 46.

Fixpoint isSafeKeyPart (s : string) : bool :=
  match s with EmptyString => true | String c s' => isSafeByte c && isSafeKeyPart s' end.

(** [url.QueryEscape]: unreserved bytes stay, a space becomes a plus sign,
    every other byte its upper-case hexadecimal form. *)
Definition upperHex (n : nat) : ascii := ascii_of_nat (if (n <? 10)%nat then 48 + n else 55 + n).

Definition queryEscapeByte (c : ascii) : string :=
  if isSafeByte c || byteIs c 126 then String c ""
  else if byteIs c 32 then "+"
  else String "%" (String (upperHex (nat_of_ascii c / 16)) (String (upperHex (nat_of_ascii c mod 16)) "")).

Fixpoint QueryEscape (s : string) : string :=
  match s with EmptyString => "" | String c s' => queryEscapeByte c +:+ QueryEscape s' end.

Definition escapeKeyPart (part : string) : string := if isSafeKeyPart part then part else QueryEscape part.

(** The cache key of a record, [""] for an identity that cannot be addressed. *)
Definition cacheKey (opts : CachedStateStoreOptions) (d c o r : string) : string :=
  let d := TrimSpace d in let c := TrimSpace c in let r := TrimSpace r in
  if String.eqb d "" || String.eqb c "" || String.eqb r "" then ""
  else (if String.eqb (KeyPrefix opts) "" then "" else KeyPrefix opts +:+ ":") +:+
       escapeKeyPart d +:+ ":" +:+ escapeKeyPart c +:+ ":" +:+ escapeKeyPart (TrimSpace o) +:+ ":" +:+ escapeKeyPart r.

Definition scopeTagValue (d c o : string) : string :=
  "scope:" +:+ escapeKeyPart d +:+ ":" +:+ escapeKeyPart c +:+ ":" +:+ escapeKeyPart o.

Definition orgTagValue (o : string) : string := "org:" +:+ escapeKeyPart o.

(** ** Envelopes *)

Record cachedRecordEnvelope := mkEnvelope {
  Version : Z; Found : bool; EData : RecordData; ECreatedAt : Z; EUpdatedAt : Z
}.

(** [Time.UnixNano]; 0 stands for Go's zero time, whose nanoseconds wrap. *)
Definition unixNano (t : Z) : Z := if t =? 0 then -6795364578871345152 else i64 t.

Definition zeroRecord : DomainRecord := mkRecord "" "" "" "" [] [] 0 0.

Definition newEnvelope (rec : DomainRecord) (found : bool) : cachedRecordEnvelope :=
  if found
  then mkEnvelope (unixNano (UpdatedAt rec)) true (Normalize (Data rec)) (CreatedAt rec) (UpdatedAt rec)
  else mkEnvelope (unixNano (UpdatedAt rec)) false [] 0 0.

(** [None] is the error for an envelope without data. *)
Definition envelopeRecord (e : cachedRecordEnvelope) (d c o r : string) : option DomainRecord :=
  match EData e with
  | [] => if Found e then None else Some (mkRecord (TrimSpace d) (TrimSpace c) (TrimSpace o) (TrimSpace r) [] [] (ECreatedAt e) (EUpdatedAt e))
  | data => Some (mkRecord (TrimSpace d) (TrimSpace c) (TrimSpace o) (TrimSpace r) data [] (ECreatedAt e) (EUpdatedAt e))
  end.

(** ** The wrapper *)

(** [fellBack]: the operations [OnFallback] was told of. *)
Record CachedStateStore (S B : Type) := mkStore {
  inner : S; cache_ : Cache B; opts : CachedStateStoreOptions; fellBack : list string
}.
Arguments mkStore {S B}. Arguments inner {S B}. Arguments cache_ {S B}. Arguments opts {S B}. Arguments fellBack {S B}.

Section Store.
Context {S B : Type} `{StateStore S} `{Backend B}.
Variable Marshal : cachedRecordEnvelope → res cache_error (option string).
Variable Unmarshal : string → res cache_error cachedRecordEnvelope.

Definition NewCachedStateStore (s : S) (c : Cache B) (o : CachedStateStoreOptions) : CachedStateStore S B :=
  mkStore s c (withDefaults o) [].

Definition withInner (st : CachedStateStore S B) (s : S) : CachedStateStore S B :=
  mkStore s (cache_ st) (opts st) (fellBack st).
Definition withCache (st : CachedStateStore S B) (c : Cache B) : CachedStateStore S B :=
  mkStore (inner st) c (opts st) (fellBack st).
Definition reportFallback (st : CachedStateStore S B) (op : string) : CachedStateStore S B :=
  mkStore (inner st) (cache_ st) (opts st) (fellBack st ++ [op]).

Definition tagsFor (d c o : string) : list string :=
  scopeTagValue d c o :: (if String.eqb (TrimSpace o) "" then [] else [orgTagValue (TrimSpace o)]).

Definition tagKey (st : CachedStateStore S B) (now : Z) (key : string) (d c o : string) : CachedStateStore S B :=
  match Tag (cache_ st) now key (tagsFor d c o) with
  | (c, None) => withCache st c
  | (c, Some _) => reportFallback (withCache st c) "tag"
  end.

(** The common end of [storeAfterRead] and [refreshAfterUpsert]: set the entry,
    then tag it under the scope of [rec]. *)
Definition storeEntry (st : CachedStateStore S B) (now : Z) (key : string) (rec : DomainRecord) (found : bool) (ttl : Z) :
    CachedStateStore S B :=
  match CacheSet Marshal (cache_ st) now key (newEnvelope rec found) [ttl] with
  | (c, Some _) => reportFallback (withCache st c) "set"
  | (c, None) => tagKey (withCache st c) now key (Domain rec) (Collection rec) (OrganizationID rec)
  end.

Definition storeAfterRead (st : CachedStateStore S B) (now : Z) (key : string) (found : option DomainRecord) :
    CachedStateStore S B :=
  match found with
  | Some rec => storeEntry st now key rec true (TTL (opts st))
  | None => storeEntry st now key zeroRecord false (NegativeTTL (opts st))
  end.

(** The read-through path of [GetRecord]. *)
Definition readThrough (st : CachedStateStore S B) (now : Z) (key : string) (d c o r : string) :
    CachedStateStore S B * res db_error (option DomainRecord) :=
  match ssGet (inner st) d c o r with
  | Err e => (st, Err e)
  | Ok found => (storeAfterRead st now key found, Ok found)
  end.

Definition CachedGetRecord (st : CachedStateStore S B) (now : Z) (d c o r : string) :
    CachedStateStore S B * res db_error (option DomainRecord) :=
  let key := cacheKey (opts st) d c o r in
  if String.eqb key "" then (st, ssGet (inner st) d c o r)
  else
    match CacheGet Unmarshal (cache_ st) now key with
    | (ca, Ok env) =>
        let st := withCache st ca in
        if negb (Found env) then (st, Ok None)
        else match envelopeRecord env d c o r with
             | Some rec => (st, Ok (Some rec))
             | None => readThrough (reportFallback st "decode") now key d c o r
             end
    | (ca, Err ErrNotFound) => readThrough (withCache st ca) now key d c o r
    | (ca, Err _) => readThrough (reportFallback (withCache st ca) "get") now key d c o r
    end.

Definition refreshAfterUpsert (st : CachedStateStore S B) (now : Z) (result : DomainRecord) : CachedStateStore S B :=
  let key := cacheKey (opts st) (Domain result) (Collection result) (OrganizationID result) (RecordID result) in
  if String.eqb key "" then st
  else
    match CacheGet Unmarshal (cache_ st) now key with
    | (ca, Ok current) =>
        if unixNano (UpdatedAt result) <? Version current then withCache st ca
        else storeEntry (withCache st ca) now key result true (TTL (opts st))
    | (ca, Err ErrNotFound) => storeEntry (withCache st ca) now key result true (TTL (opts st))
    | (ca, Err _) => storeEntry (reportFallback (withCache st ca) "get") now key result true (TTL (opts st))
    end.

Definition CachedUpsertRecord (st : CachedStateStore S B) (now : Z) (rec : DomainRecord) :
    CachedStateStore S B * res db_error DomainRecord :=
  match ssUpsert (inner st) now rec with
  | (s, Err e) => (withInner st s, Err e)
  | (s, Ok result) => (refreshAfterUpsert (withInner st s) now result, Ok result)
  end.

Definition CachedDeleteRecord (st : CachedStateStore S B) (now : Z) (d c o r : string) :
    CachedStateStore S B * option db_error :=
  let key := cacheKey (opts st) d c o r in
  match ssDelete (inner st) d c o r with
  | (s, Some e) => (withInner st s, Some e)
  | (s, None) =>
      let st := withInner st s in
      if String.eqb key "" then (st, None)
      else (storeAfterRead st now key (match ssGet (inner st) d c o r with Ok found => found | Err _ => None end), None)
  end.

Definition InvalidateScope (st : CachedStateStore S B) (d c o : string) : CachedStateStore S B * option cache_error :=
  let '(ca, e) := InvalidateTag (cache_ st) (scopeTagValue d c o) in (withCache st ca, e).

Definition InvalidateOrganization (st : CachedStateStore S B) (o : string) : CachedStateStore S B * option cache_error :=
  let '(ca, e) := InvalidateTag (cache_ st) (orgTagValue o) in (withCache st ca, e).

End Store.

(** ** Keys tell identities apart *)

(** Reads one escaped byte back. *)
Definition unescapeByte (s : string) : option (ascii * string) :=
  match s with
  | String "%" (String a (String b s')) =>
      match hexValue a, hexValue b with Some x, Some y => Some (ascii_of_nat (16 * x + y), s') | _, _ => None end
  | String "+" s' => Some (" "%char, s')
  | String c s' => Some (c, s')
  | EmptyString => None
  end.

Lemma unescape_byte c x : unescapeByte (queryEscapeByte c +:+ x) = Some (c, x).
Proof. destruct c as [[] [] [] [] [] [] [] []]; reflexivity. Qed.

Lemma escape_byte_no_colon c x : Contains (queryEscapeByte c +:+ x) ":" = Contains x ":".
Proof.
  assert (HasPrefix x "" = true) as Hx by (by destruct x).
  destruct c as [[] [] [] [] [] [] [] []]; reflexivity.
Qed.

Lemma query_escape_inj s : ∀ t, QueryEscape s = QueryEscape t → s = t.
Proof.
  assert (∀ c x, queryEscapeByte c +:+ x ≠ "") as Hne.
  { intros c x E. pose proof (unescape_byte c x) as Hu. by rewrite E in Hu. }
  induction s as [|c s IH]; intros [|d t] E; cbn [QueryEscape] in E; [done|by destruct (Hne d (QueryEscape t))|by destruct (Hne c (QueryEscape s))|].
  assert (Some (c, QueryEscape s) = Some (d, QueryEscape t)) as [= -> Et] by (by rewrite <- !unescape_byte, E).
  by rewrite (IH _ Et).
Qed.

Lemma query_escape_no_colon s : Contains (QueryEscape s) ":" = false.
Proof. induction s as [|c s IH]; [done|]. cbn [QueryEscape]. by rewrite escape_byte_no_colon. Qed.

(** The fast path of [escapeKeyPart] changes nothing. *)
Lemma escape_key_part_query s : escapeKeyPart s = QueryEscape s.
Proof.
  unfold escapeKeyPart. destruct (isSafeKeyPart s) eqn:E; [|done]. induction s as [|c s IH]; [done|].
  cbn [isSafeKeyPart] in E. apply andb_true_iff in E as [Hc Hs]. cbn [QueryEscape]. rewrite <- IH by done.
  unfold queryEscapeByte. rewrite Hc. done.
Qed.

Definition named (i : identity) : Prop := let '(d, c, _, r) := i in d ≠ "" ∧ c ≠ "" ∧ r ≠ "".

Definition idCacheKey (opts : CachedStateStoreOptions) (i : identity) : string :=
  let '(d, c, o, r) := i in
  (if String.eqb (KeyPrefix opts) "" then "" else KeyPrefix opts +:+ ":") +:+
    (QueryEscape d +:+ ":" +:+ QueryEscape c +:+ ":" +:+ QueryEscape o +:+ ":" +:+ QueryEscape r).

Lemma cache_key_id opts d c o r : named (idOf d c o r) → cacheKey opts d c o r = idCacheKey opts (idOf d c o r).
Proof.
  intros (Hd & Hc & Hr). unfold cacheKey, idCacheKey, idOf. cbn zeta.
  destruct (String.eqb_spec (TrimSpace d) ""); [done|]. destruct (String.eqb_spec (TrimSpace c) ""); [done|].
  destruct (String.eqb_spec (TrimSpace r) ""); [done|]. cbn [orb]. by rewrite !escape_key_part_query.
Qed.

Lemma cache_key_unnamed opts d c o r : ¬ named (idOf d c o r) → cacheKey opts d c o r = "".
Proof.
  intros Hn. unfold cacheKey. cbn zeta.
  destruct (String.eqb_spec (TrimSpace d) ""); [done|]. destruct (String.eqb_spec (TrimSpace c) ""); [done|].
  destruct (String.eqb_spec (TrimSpace r) ""); [done|]. by destruct Hn.
Qed.

Lemma id_cache_key_inj opts i j : idCacheKey opts i = idCacheKey opts j → i = j.
Proof.
  destruct i as [[[d c] o] r], j as [[[d' c'] o'] r']. unfold idCacheKey. intros E%append_inj_l.
  apply split_at_separator in E as [->%query_escape_inj E]; [|apply query_escape_no_colon..].
  apply split_at_separator in E as [->%query_escape_inj E]; [|apply query_escape_no_colon..].
  by apply split_at_separator in E as [->%query_escape_inj ->%query_escape_inj]; [|apply query_escape_no_colon..].
Qed.

Lemma id_cache_key_nonempty opts i : idCacheKey opts i ≠ "".
Proof.
  destruct i as [[[d c] o] r]. intros E%(f_equal String.length). unfold idCacheKey in E.
  rewrite !length_append in E. cbn in E. lia.
Qed.

(** ** The in-memory store keeps the interface's promises *)

Definition memContent (db : MemoryDB) (i : identity) : option DomainRecord := records db !! idKey i.

Definition memReady (db : MemoryDB) : Prop :=
  closed db = false ∧ ∀ k r, records db !! k = Some r → stored_ok k r ∧ cleanId (recId r).

Lemma stored_identified k r i : stored_ok k r → cleanId (recId r) → cleanId i → k = idKey i → identified i r.
Proof.
  intros [Hk (Td & Tc & To & Tr) _ _] Hr Hi E. unfold identified. rewrite <- (id_key_inj (recId r) i); [|done|done|].
  - unfold recId, idOf. congruence.
  - rewrite <- E, Hk. done.
Qed.

Lemma put_records db now rec db' rec' : putRecord db now rec = (db', rec') →
  closed db' = closed db ∧ records db' = <[keyOf rec := rec']> (records db) ∧ recId rec' = recId rec ∧ UpdatedAt rec' = now ∧
  ∀ k, stored_ok k rec → stored_ok k rec'.
Proof.
  unfold putRecord. destruct (records db !! keyOf rec); intros [= <- <-]; cbn; (split_and!; [done..|]); intros; by apply stamp_ok.
Qed.

#[export] Instance memory_store_laws : StateStoreLaws MemoryDB memContent cleanId memReady.
Proof.
  split.
  - intros s d c o r [Hc _]. cbn. unfold GetRecord, ensureReady. by rewrite Hc.
  - intros s i r [_ Hok] Hi Hr. destruct (Hok _ _ Hr) as [Hst Hcl]. split; [by eapply stored_identified|apply Hst].
  - intros s now rec s' result [Hc Hok] Hi. cbn. unfold UpsertRecord, ensureReady. rewrite Hc.
    destruct (prepareRecord rec) as [rec1|] eqn:Ep; [|done]. destruct (putRecord s now rec1) as [db' rec'] eqn:E.
    intros [= <- <-]. destruct (prepared_id _ _ Ep) as [Hid Hkey]. destruct (put_records _ _ _ _ _ E) as (Hc' & Hr' & Hid' & Hu & Hst).
    split_and!; [split; [congruence|]|done|].
    + intros k r. rewrite Hr'. intros [[<- <-]|[_ ?]]%lookup_insert_Some; [|by apply Hok].
      split; [by apply Hst, (prepare_ok rec)|]. by rewrite Hid', Hid.
    + intros i Hi'. unfold memContent. rewrite Hr', Hkey, Hid. destruct (decide (i = recId rec)) as [->|Hne].
      * by rewrite lookup_insert_eq.
      * rewrite lookup_insert_ne; [done|]. intros Ek. by apply id_key_inj in Ek.
  - intros s now rec s' e [Hc _]. cbn. unfold UpsertRecord, ensureReady. rewrite Hc.
    destruct (prepareRecord rec); [|by intros [= <- _]]. by destruct (putRecord s now a).
  - intros s d c o r s' e [Hc Hok] Hi. cbn. unfold DeleteRecord, ensureReady. rewrite Hc. intros [= <- <-].
    change (match records s !! recordKey d c o r with
            | Some rec => removeRecordIndexesLocked s (recordKey d c o r) rec | None => s end)
      with (unindexed s (recordKey d c o r)).
    destruct (unindexed_same s (recordKey d c o r)) as (Hc' & Hr' & _). split_and!; [done| |].
    + split; cbn [dropRecord closed records]; [congruence|]. rewrite Hr'. intros k r' [_ ?]%lookup_delete_Some. by apply Hok.
    + intros i Hi'. unfold memContent. cbn [dropRecord records]. rewrite Hr', record_key_id.
      destruct (decide (i = idOf d c o r)) as [->|Hne]; [by rewrite lookup_delete_eq|].
      rewrite lookup_delete_ne; [done|]. intros Ek. by apply id_key_inj in Ek.
Qed.

(** ** The cache agrees with the store *)

Section Coherence.
Context {S B : Type} `{StateStore S} `{Backend B}.
Context (content : S → identity → option DomainRecord) (addressable : identity → Prop) (ready : S → Prop).
Context {SLaws : StateStoreLaws S content addressable ready}.
Context (view : B → Z → string → option (option string)) {BLaws : BackendLaws B view}.
Context (Marshal : cachedRecordEnvelope → res cache_error (option string)) (Unmarshal : string → res cache_error cachedRecordEnvelope).

(** What is asked of the serializer: a flag and a 64-bit integer come back as they were,
    and the envelope of an absence, which holds no data, can be written. Nothing is asked
    of a record's values: the JSON one refuses some and changes the kind of others. *)
Record codec_laws : Prop := {
  cl_keeps : ∀ v s v', Marshal v = Ok (Some s) → Unmarshal s = Ok v' → Found v' = Found v ∧ Version v' = Version v;
  cl_absence : ∃ s, Marshal (newEnvelope zeroRecord false) = Ok (Some s)
}.

Definition marshals (r : DomainRecord) : Prop := ∃ s, Marshal (newEnvelope r true) = Ok (Some s).

Definition envelopeOf (held : option DomainRecord) : cachedRecordEnvelope :=
  match held with Some r => newEnvelope r true | None => newEnvelope zeroRecord false end.

(** No record key is a tag marker. *)
Definition apart (o : CachedStateStoreOptions) : Prop :=
  ∀ i, HasPrefix (idCacheKey o i) tagMarkerNamespace = false.

(** From the identities of [P] on. *)
Record coherentOn (P : identity → Prop) (t : Z) (st : CachedStateStore S B) : Prop := {
  co_ready : ready (inner st);
  co_apart : apart (opts st);
  co_past : ∀ i r, addressable i → content (inner st) i = Some r → 0 < UpdatedAt r ≤ t;
  co_marshals : ∀ i r, addressable i → content (inner st) i = Some r → marshals r;
  co_cache : ∀ i now d, P i → addressable i → named i →
    view (backend (cache_ st)) now (key (cache_ st) (idCacheKey (opts st) i)) = Some d →
    ∃ s, d = Some s ∧ Marshal (envelopeOf (content (inner st) i)) = Ok (Some s)
}.

Definition coherent : Z → CachedStateStore S B → Prop := coherentOn (λ _, True).

Lemma coherent_on P t st : coherent t st → coherentOn P t st.
Proof. intros [Hr Ha Hp Hw Hc]. split; [done..|]. intros i now d _. by apply Hc. Qed.

(** A change of the cache that shows no new record entries. *)
Lemma coherent_cache P t st st' : coherentOn P t st → inner st' = inner st → opts st' = opts st → config (cache_ st') = config (cache_ st) →
  (∀ now i d, view (backend (cache_ st')) now (key (cache_ st) (idCacheKey (opts st) i)) = Some d →
     view (backend (cache_ st)) now (key (cache_ st) (idCacheKey (opts st) i)) = Some d) →
  coherentOn P t st'.
Proof.
  intros [Hr Ha Hp Hw Hc] Hi Ho Hcfg Hview. split; rewrite ?Hi, ?Ho; [done..|].
  intros i now d HP Had Hn Hd. unfold key in *. rewrite Hcfg in Hd. apply (Hc i now d HP Had Hn), (Hview now i d), Hd.
Qed.

Lemma tag_loop_view (c : Cache B) now enc tags : ∀ c' e k now', tagLoop c now enc tags = (c', e) →
  HasPrefix k (key c tagMarkerNamespace) = false →
  config c' = config c ∧ view (backend c') now' k = view (backend c) now' k.
Proof.
  revert c. induction tags as [|tag tags IH]; intros c c' e k now' E Hk; cbn [tagLoop] in E; [by injection E as <- <-|].
  destruct (String.eqb (TrimSpace tag) ""); [by eapply IH|].
  destruct (set_law (backend c) now (tagMarker c (TrimSpace tag) enc) tagMarkerValue tagMarkerTTL) as (b' & Eb & Hview).
  rewrite Eb in E. destruct (IH _ _ _ k now' E Hk) as [-> ->]. split; [done|]. cbn [backend withBackend].
  rewrite Hview, decide_False; [done|]. intros ->. unfold tagMarker, key in Hk. by rewrite <- append_assoc, has_prefix_app in Hk.
Qed.

Lemma tag_view (c : Cache B) now k0 tags c' e k now' : Tag c now k0 tags = (c', e) → HasPrefix k (key c tagMarkerNamespace) = false →
  config c' = config c ∧ view (backend c') now' k = view (backend c) now' k.
Proof.
  unfold Tag. destruct (_ || _); [by intros [= <- <-]|]. apply tag_loop_view.
Qed.

Lemma record_key_apart o (c : Cache B) i : apart o → HasPrefix (key c (idCacheKey o i)) (key c tagMarkerNamespace) = false.
Proof. intros Ha. unfold key. rewrite has_prefix_app_l. apply Ha. Qed.

(** Storing an envelope that agrees with the store. *)
Lemma store_entry_coherent t st now i rec (found : bool) ttl : codec_laws → coherentOn (λ j, j ≠ i) t st → addressable i → named i →
  (if found then content (inner st) i = Some rec else content (inner st) i = None ∧ rec = zeroRecord) →
  let st' := storeEntry Marshal st now (idCacheKey (opts st) i) rec found ttl in
  coherent t st' ∧ inner st' = inner st ∧ opts st' = opts st.
Proof.
  intros Henc Hco Hi Hn Hrec. unfold storeEntry, CacheSet.
  assert (newEnvelope rec found = envelopeOf (content (inner st) i)) as -> by (destruct found; [by rewrite Hrec|by destruct Hrec as [-> ->]]).
  assert (∃ s, Marshal (envelopeOf (content (inner st) i)) = Ok (Some s)) as (s & Em).
  { destruct (content (inner st) i) as [r|] eqn:Er; [by eapply co_marshals|apply Henc]. }
  rewrite Em.
  set (k := key (cache_ st) (idCacheKey (opts st) i)).
  destruct (set_law (backend (forgetMiss (cache_ st) k)) now k (Some s) (entryTTL (forgetMiss (cache_ st) k) [ttl])) as (b' & -> & Hview).
  set (st1 := withCache st _).
  assert (coherent t st1) as Hco1.
  { destruct Hco as [Hr Ha Hp Hw Hc]. split; [done..|]. intros j now' d _ Hj Hnj Hd. cbn in Hd. rewrite Hview in Hd.
    change (key (withBackend _ b') ?x) with (key (cache_ st) x) in Hd.
    case_decide as Ek; [|apply (Hc j now' d); [intros ->; by destruct Ek|done..]]. unfold k in Ek. apply key_inj, id_cache_key_inj in Ek as ->.
    destruct (_ || _); [|done]. injection Hd as <-. by exists s. }
  unfold tagKey. destruct (Tag (cache_ st1) now _ _) as [c' e] eqn:Et.
  assert (∀ st2, inner st2 = inner st1 → opts st2 = opts st1 → cache_ st2 = c' → coherent t st2) as Hst2.
  { intros st2 Hi2 Ho2 <-. eapply (coherent_cache _ t st1); [done|done|done| |].
    - by destruct (tag_view _ _ _ _ _ _ _ 0 Et (record_key_apart (opts st) (cache_ st1) i (co_apart _ _ _ Hco))).
    - intros now' j d. destruct (tag_view _ _ _ _ _ _ _ now' Et (record_key_apart (opts st) (cache_ st1) j (co_apart _ _ _ Hco))) as [_ Hv].
      cbn [opts st1 withCache] in *. by rewrite Hv. }
  destruct e; (split; [by apply Hst2|done]).
Qed.

Lemma store_after_read_coherent t st now i : codec_laws → coherent t st → addressable i → named i →
  let st' := storeAfterRead Marshal st now (idCacheKey (opts st) i) (content (inner st) i) in
  coherent t st' ∧ inner st' = inner st ∧ opts st' = opts st.
Proof.
  intros Henc Hco%(coherent_on (λ j, j ≠ i)) Hi Hn. unfold storeAfterRead. destruct (content (inner st) i) as [rec|] eqn:E.
  - by apply (store_entry_coherent t st now i rec true).
  - by apply (store_entry_coherent t st now i zeroRecord false).
Qed.

Lemma cache_get_view (c : Cache B) now k c' r : CacheGet Unmarshal c now k = (c', r) →
  config c' = config c ∧ backend c' = backend c ∧
  ∀ v, r = Ok v → ∃ s, view (backend c) now (key c k) = Some (Some s) ∧ Unmarshal s = Ok v.
Proof.
  unfold CacheGet. destruct (memoCheck c (key c k) now) as [c1 known] eqn:E.
  apply memo_check_same in E as (Hc & Hb & _). destruct known; [intros [= <- <-]; by split_and!|].
  rewrite get_law, Hb. destruct (view (backend c) now (key c k)) as [[s|]|]; cbn; intros [= <- <-]; (split_and!; [done..|]); try done.
  intros v Hv. by exists s.
Qed.

(** What a read may answer for a record: itself, or what the serializer makes of it. *)
Definition fromCache (r r' : DomainRecord) : Prop := ∃ s env, Marshal (newEnvelope r true) = Ok (Some s) ∧ Unmarshal s = Ok env ∧
  r' = mkRecord (Domain r) (Collection r) (OrganizationID r) (RecordID r) (EData env) [] (ECreatedAt env) (EUpdatedAt env).

Definition stripVector (r : DomainRecord) : DomainRecord :=
  mkRecord (Domain r) (Collection r) (OrganizationID r) (RecordID r) (Data r) [] (CreatedAt r) (UpdatedAt r).

Definition served (r r' : DomainRecord) : Prop :=
  (r' = r ∨ fromCache r r') ∧
  ((∀ s, Marshal (newEnvelope r true) = Ok (Some s) → Unmarshal s = Ok (newEnvelope r true)) → stripVector r' = stripVector r).

Definition servedAs (held found : option DomainRecord) : Prop :=
  match held, found with Some r, Some r' => served r r' | None, None => True | _, _ => False end.

Lemma served_as_refl held : servedAs held held.
Proof. destruct held; [|done]. split; [by left|done]. Qed.

Lemma served_from_cache r r' : canonical (Data r) → fromCache r r' → served r r'.
Proof.
  intros Hcan Hf. split; [by right|]. intros Hx. destruct Hf as (s & env & Hm & Hu & ->). rewrite (Hx s Hm) in Hu. injection Hu as <-.
  unfold stripVector. cbn [newEnvelope Domain Collection OrganizationID RecordID Data CreatedAt UpdatedAt EData ECreatedAt EUpdatedAt]. by rewrite normalize_id.
Qed.

(** What every operation keeps, and what it leaves the inner store as. *)
Definition keeps (t : Z) (s : S) (st st' : CachedStateStore S B) : Prop :=
  coherent t st' ∧ inner st' = s ∧ opts st' = opts st.

Lemma read_through_ok t st now d c o r : codec_laws → coherent t st → addressable (idOf d c o r) → named (idOf d c o r) →
  let '(st', a) := readThrough Marshal st now (idCacheKey (opts st) (idOf d c o r)) d c o r in
  keeps t (inner st) st st' ∧ a = Ok (content (inner st) (idOf d c o r)).
Proof.
  intros Henc Hco Hi Hn. unfold readThrough. rewrite ss_get by apply Hco.
  destruct (store_after_read_coherent t st now (idOf d c o r) Henc Hco Hi Hn) as (? & ? & ?). by split.
Qed.

Lemma get_ok t st now d c o r : codec_laws → coherent t st → addressable (idOf d c o r) →
  let '(st', a) := CachedGetRecord Marshal Unmarshal st now d c o r in
  keeps t (inner st) st st' ∧ ∃ found, a = Ok found ∧ servedAs (content (inner st) (idOf d c o r)) found.
Proof.
  intros Henc Hco Hi. unfold CachedGetRecord. destruct (decide (cacheKey (opts st) d c o r = "")) as [He|He].
  { rewrite He. cbn. rewrite ss_get by apply Hco. split; [by split|]. eexists. split; [done|apply served_as_refl]. }
  assert (named (idOf d c o r)) as Hn.
  { destruct (decide (TrimSpace d = "")) as [?|?], (decide (TrimSpace c = "")) as [?|?], (decide (TrimSpace r = "")) as [?|?];
      try (by destruct He; apply cache_key_unnamed; intros (? & ? & ?)). done. }
  rewrite cache_key_id by done. destruct (String.eqb_spec (idCacheKey (opts st) (idOf d c o r)) "") as [E0|_]; [by apply id_cache_key_nonempty in E0|].
  destruct (CacheGet Unmarshal (cache_ st) now _) as [ca res] eqn:Eg. apply cache_get_view in Eg as (Hcfg & Hb & Hok).
  assert (∀ st2, inner st2 = inner st → opts st2 = opts st → cache_ st2 = ca →
    let '(st', a) := readThrough Marshal st2 now (idCacheKey (opts st) (idOf d c o r)) d c o r in
    keeps t (inner st) st st' ∧ ∃ found, a = Ok found ∧ servedAs (content (inner st) (idOf d c o r)) found) as Hread.
  { intros st2 Hi2 Ho2 <-. assert (coherent t st2) as Hco2.
    { eapply coherent_cache; [exact Hco|done..|]. intros now' j x. by rewrite Hb. }
    pose proof (read_through_ok t st2 now d c o r Henc Hco2 Hi Hn) as Hrt. rewrite Ho2 in Hrt.
    destruct (readThrough _ _ _ _ _ _ _ _) as [st' a]. destruct Hrt as [(? & Hin & Hop) ->]. rewrite Hi2 in *. split.
    - split_and!; [done|done|congruence].
    - eexists. split; [done|apply served_as_refl]. }
  destruct res as [env|e]; [|destruct e; by apply Hread]. cbv zeta.
  destruct (Hok env eq_refl) as (s & Hv & Hu).
  destruct (co_cache _ _ _ Hco _ _ _ I Hi Hn Hv) as (s' & [= <-] & Hm). destruct (cl_keeps Henc _ _ _ Hm Hu) as [Hf _].
  assert (coherent t (withCache st ca)) as Hco'.
  { eapply coherent_cache; [exact Hco|done..|]. intros now' j x. cbn. by rewrite Hb. }
  destruct (content (inner st) (idOf d c o r)) as [rec|] eqn:Ec; cbn [envelopeOf newEnvelope Found] in Hf; rewrite Hf; cbn [negb].
  - destruct (ss_content (inner st) _ _ (co_ready _ _ _ Hco) Hi Ec) as [Hident Hcan].
    unfold envelopeRecord. destruct (EData env) as [|fd data] eqn:Ed; [rewrite Hf; by apply Hread|]. rewrite <- Ed. split; [by split|]. eexists. split; [done|]. cbn [servedAs].
    apply served_from_cache; [done|]. exists s, env. split_and!; [exact Hm|exact Hu|]. unfold identified, idOf in Hident. by injection Hident as -> -> -> ->.
  - split; [by split|]. by eexists.
Qed.

Lemma unix_nano_id t : 0 < t < 2 ^ 63 → unixNano t = t.
Proof. intros Ht. unfold unixNano. rewrite (proj2 (Z.eqb_neq _ _)) by lia. apply i64_id. unfold in_i64, minInt64, maxInt64. lia. Qed.

Lemma upsert_ok t st now rec s' result : codec_laws → coherent t st → addressable (recId rec) → t ≤ now → 0 < now < 2 ^ 63 →
  ssUpsert (inner st) now rec = (s', Ok result) → marshals result →
  keeps now s' st (refreshAfterUpsert Marshal Unmarshal (withInner st s') now result).
Proof.
  intros Henc Hco Hi Ht Hnow Eup Hmar. destruct (ss_upsert _ _ _ _ _ (co_ready _ _ _ Hco) Hi Eup) as (Hready & Hupd & Hcont).
  assert (content s' (recId rec) = Some result) as Hself by (rewrite Hcont, decide_True; done).
  destruct (ss_content _ _ _ Hready Hi Hself) as [Hident _].
  assert (idOf (Domain result) (Collection result) (OrganizationID result) (RecordID result) = recId rec) as Hid.
  { unfold identified in Hident. unfold recId, idOf in *. injection Hident as -> -> -> ->. by rewrite !trim_space_idemp. }
  set (st1 := withInner st s'). assert (coherentOn (λ j, j ≠ recId rec) now st1) as Hco1.
  { destruct Hco as [Hr Ha Hp Hw Hc]. split; [done|done| | |].
    - intros i r Hai. cbn. rewrite Hcont by done. case_decide; [intros [= <-]; lia|]. intros Hr'. apply Hp in Hr'; [lia|done].
    - intros i r Hai. cbn. rewrite Hcont by done. case_decide; [by intros [= <-]|by apply Hw].
    - intros i now' d Hne Hai Hni Hd. cbn. rewrite Hcont, decide_False by done. by apply (Hc i now' d). }
  unfold refreshAfterUpsert. cbv zeta. destruct (decide (named (recId rec))) as [Hn|Hn].
  2: { rewrite cache_key_unnamed by (by rewrite Hid). cbn. split_and!; [|done|done]. destruct Hco1 as [Hr Ha Hp Hw Hc]. split; [done..|].
       intros i now' d _ Hai Hni. apply Hc; [|done..]. by intros ->. }
  rewrite cache_key_id, Hid by (by rewrite Hid). destruct (String.eqb_spec (idCacheKey (opts st1) (recId rec)) "") as [E0|_]; [by apply id_cache_key_nonempty in E0|].
  destruct (CacheGet Unmarshal (cache_ st1) now _) as [ca res] eqn:Eg. apply cache_get_view in Eg as (Hcfg & Hb & Hok).
  assert (∀ st2, inner st2 = s' → opts st2 = opts st → cache_ st2 = ca →
    keeps now s' st (storeEntry Marshal st2 now (idCacheKey (opts st1) (recId rec)) result true (TTL (opts st1)))) as Hstore.
  { intros st2 Hi2 Ho2 <-. assert (coherentOn (λ j, j ≠ recId rec) now st2) as Hco2.
    { eapply coherent_cache; [exact Hco1|done..|]. intros now' j x. by rewrite Hb. }
    replace (opts st1) with (opts st2) by done.
    destruct (store_entry_coherent now st2 now (recId rec) result true (TTL (opts st2)) Henc Hco2 Hi Hn) as (? & Hin & Hop); [by rewrite Hi2|].
    split_and!; [done|by rewrite Hin|by rewrite Hop]. }
  destruct res as [cur|e]; [|destruct e; by apply Hstore].
  destruct (Hok cur eq_refl) as (s & Hv & Hu).
  destruct (co_cache _ _ _ Hco _ _ _ I Hi Hn Hv) as (s2 & [= <-] & Hm). destruct (cl_keeps Henc _ _ _ Hm Hu) as [_ Hver].
  rewrite (proj2 (Z.ltb_ge (unixNano (UpdatedAt result)) (Version cur))); [by apply Hstore|].
  rewrite Hupd, (unix_nano_id now Hnow), Hver. destruct (content (inner st) (recId rec)) as [r0|] eqn:E0; cbn [envelopeOf newEnvelope Version].
  - destruct (co_past _ _ _ Hco _ _ Hi E0). rewrite unix_nano_id; lia.
  - cbn. lia.
Qed.

Lemma delete_ok t st now d c o r s' : codec_laws → coherent t st → addressable (idOf d c o r) → t ≤ now →
  ssDelete (inner st) d c o r = (s', None) →
  keeps now s' st (CachedDeleteRecord Marshal st now d c o r).1 ∧ (CachedDeleteRecord Marshal st now d c o r).2 = None.
Proof.
  intros Henc Hco Hi Ht Edel. destruct (ss_delete _ _ _ _ _ _ _ (co_ready _ _ _ Hco) Hi Edel) as (_ & Hready & Hcont).
  unfold CachedDeleteRecord. rewrite Edel. set (st1 := withInner st s').
  assert (coherentOn (λ j, j ≠ idOf d c o r) now st1) as Hco1.
  { destruct Hco as [Hr Ha Hp Hw Hc]. split; [done|done| | |].
    - intros i x Hai. cbn. rewrite Hcont by done. case_decide; [done|]. intros Hx. apply Hp in Hx; [lia|done].
    - intros i x Hai. cbn. rewrite Hcont by done. case_decide; [done|by apply Hw].
    - intros i now' x Hne Hai Hni Hd. cbn. rewrite Hcont, decide_False by done. by apply (Hc i now' x). }
  destruct (decide (named (idOf d c o r))) as [Hn|Hn].
  2: { rewrite cache_key_unnamed by done. cbn. split; [|done]. split_and!; [|done|done]. destruct Hco1 as [Hr Ha Hp Hw Hc]. split; [done..|].
       intros i now' x _ Hai Hni. apply Hc; [|done..]. by intros ->. }
  rewrite cache_key_id by done. destruct (String.eqb_spec (idCacheKey (opts st) (idOf d c o r)) "") as [E0|_]; [by apply id_cache_key_nonempty in E0|].
  cbn [fst snd]. split; [|done]. change (inner st1) with s'. rewrite ss_get, Hcont, decide_True by done. cbn [storeAfterRead].
  destruct (store_entry_coherent now st1 now (idOf d c o r) zeroRecord false (NegativeTTL (opts st1)) Henc Hco1 Hi Hn) as (? & ? & ?).
  - cbn. rewrite Hcont, decide_True by done. done.
  - by split_and!.
Qed.

Lemma invalidate_ok t st tag : coherent t st →
  keeps t (inner st) st (withCache st (InvalidateTag (cache_ st) tag).1).
Proof.
  intros Hco. split_and!; [|done|done]. destruct (InvalidateTag (cache_ st) tag) as [ca e] eqn:E. cbn [fst].
  destruct (decide (TrimSpace tag = "")) as [Ht|Ht].
  { unfold InvalidateTag in E. rewrite Ht in E. injection E as <- <-. by destruct st. }
  destruct (invalidate_tag_spec view _ _ _ _ Ht E) as (_ & Hcfg & _ & Hgone & Hkept).
  eapply coherent_cache; [exact Hco|done|done|exact Hcfg|]. cbn. intros now i d Hd.
  destruct (HasPrefix (key (cache_ st) (idCacheKey (opts st) i)) (tagPrefix (cache_ st) (TrimSpace tag))) eqn:Ep.
  - rewrite Hgone in Hd by (by left). done.
  - rewrite <- (Hkept now _ Ep); [done|]. intros Hnamed. rewrite Hgone in Hd by (by right). done.
Qed.
End Coherence.

(** ** Histories *)

Inductive store_op :=
| SGet (d c o r : string) | SUpsert (rec : DomainRecord) | SDelete (d c o r : string)
| SInvalidateScope (d c o : string) | SInvalidateOrganization (o : string).

Inductive store_answer :=
| AGot (a : res db_error (option DomainRecord)) | AWrote (a : res db_error DomainRecord)
| ADeleted (e : option db_error) | AInvalidated.

Section Histories.
Context {S B : Type} `{StateStore S} `{Backend B}.
Variable Marshal : cachedRecordEnvelope → res cache_error (option string).
Variable Unmarshal : string → res cache_error cachedRecordEnvelope.

(** An operation through the wrapper. *)
Definition throughCache (st : CachedStateStore S B) (now : Z) (op : store_op) : CachedStateStore S B * store_answer :=
  match op with
  | SGet d c o r => let '(st, a) := CachedGetRecord Marshal Unmarshal st now d c o r in (st, AGot a)
  | SUpsert rec => let '(st, a) := CachedUpsertRecord Marshal Unmarshal st now rec in (st, AWrote a)
  | SDelete d c o r => let '(st, e) := CachedDeleteRecord Marshal st now d c o r in (st, ADeleted e)
  | SInvalidateScope d c o => let '(st, _) := InvalidateScope st d c o in (st, AInvalidated)
  | SInvalidateOrganization o => let '(st, _) := InvalidateOrganization st o in (st, AInvalidated)
  end.

(** The same operation on the store alone. *)
Definition plain (s : S) (now : Z) (op : store_op) : S * store_answer :=
  match op with
  | SGet d c o r => (s, AGot (ssGet s d c o r))
  | SUpsert rec => let '(s, a) := ssUpsert s now rec in (s, AWrote a)
  | SDelete d c o r => let '(s, e) := ssDelete s d c o r in (s, ADeleted e)
  | _ => (s, AInvalidated)
  end.

Fixpoint runCached (st : CachedStateStore S B) (ops : list (Z * store_op)) : list store_answer :=
  match ops with
  | [] => []
  | (now, op) :: rest => let '(st, a) := throughCache st now op in a :: runCached st rest
  end.

Fixpoint runPlain (s : S) (ops : list (Z * store_op)) : list store_answer :=
  match ops with
  | [] => []
  | (now, op) :: rest => let '(s, a) := plain s now op in a :: runPlain s rest
  end.

Definition opAddresses (addressable : identity → Prop) (op : store_op) : Prop :=
  match op with
  | SGet d c o r | SDelete d c o r => addressable (idOf d c o r)
  | SUpsert rec => addressable (recId rec)
  | _ => True
  end.

(** The answers of the wrapper and of the store alone. *)
Definition alike (a a' : store_answer) : Prop :=
  match a, a' with AGot (Ok found), AGot (Ok held) => servedAs Marshal Unmarshal held found | _, _ => a = a' end.

(** The serializer takes every record the store comes to hold. *)
Fixpoint writesMarshal (s : S) (ops : list (Z * store_op)) : Prop :=
  match ops with
  | [] => True
  | (now, op) :: rest =>
      (match op with SUpsert rec => match (ssUpsert s now rec).2 with Ok r => marshals Marshal r | Err _ => True end | _ => True end) ∧
      writesMarshal (plain s now op).1 rest
  end.

Context (content : S → identity → option DomainRecord) (addressable : identity → Prop) (ready : S → Prop).
Context {SLaws : StateStoreLaws S content addressable ready}.
Context (view : B → Z → string → option (option string)) {BLaws : BackendLaws B view}.

Abbreviation coh := (coherent content addressable ready view Marshal).

Lemma coherent_later t t' st : t ≤ t' → coh t st → coh t' st.
Proof. intros Hle [Hr Ha Hp Hw Hc]. split; [done|done| |done|done]. intros i r Hi Hx. apply Hp in Hx; [lia|done]. Qed.

Lemma through_cache_ok t st now op : codec_laws Marshal Unmarshal → coh t st → opAddresses addressable op → t ≤ now → 0 < now < 2 ^ 63 →
  writesMarshal (inner st) [(now, op)] →
  let '(st', a) := throughCache st now op in let '(s', a') := plain (inner st) now op in
  coh now st' ∧ inner st' = s' ∧ alike a a'.
Proof.
  intros Henc Hco Hop Ht Hnow [Hmar _]. pose proof (coherent_later t now st Ht Hco) as Hnow'. pose proof (co_ready _ _ _ _ _ _ _ _ Hco) as Hready.
  destruct op as [d c o r|rec|d c o r|d c o|o]; cbn [throughCache plain opAddresses] in *.
  - pose proof (get_ok content addressable ready view Marshal Unmarshal now st now d c o r Henc Hnow' Hop) as Hg.
    destruct (CachedGetRecord _ _ _ _ _ _ _ _) as [st' a]. destruct Hg as [(? & ? & ?) (found & -> & Hf)].
    rewrite (ss_get (StateStoreLaws := SLaws)) by done. by split_and!.
  - unfold CachedUpsertRecord. destruct (ssUpsert (inner st) now rec) as [s' [result|e]] eqn:E; cbn [snd] in Hmar.
    + by destruct (upsert_ok content addressable ready view Marshal Unmarshal t st now rec s' result Henc Hco Hop Ht Hnow E Hmar) as (? & ? & _).
    + rewrite (ss_upsert_fails (StateStoreLaws := SLaws) _ _ _ _ _ Hready E). by destruct st.
  - destruct (ssDelete (inner st) d c o r) as [s' e] eqn:E.
    destruct (ss_delete (StateStoreLaws := SLaws) _ _ _ _ _ _ _ Hready Hop E) as (-> & _).
    destruct (delete_ok content addressable ready view Marshal Unmarshal t st now d c o r s' Henc Hco Hop Ht E) as [(? & ? & _) Hn].
    destruct (CachedDeleteRecord _ _ _ _ _ _ _) as [st' e']. cbn [fst snd] in *. split_and!; [done..|by rewrite Hn].
  - unfold InvalidateScope. destruct (invalidate_ok content addressable ready view Marshal now st (scopeTagValue d c o) Hnow') as (? & ? & _).
    by destruct (InvalidateTag (cache_ st) (scopeTagValue d c o)).
  - unfold InvalidateOrganization. destruct (invalidate_ok content addressable ready view Marshal now st (orgTagValue o) Hnow') as (? & ? & _).
    by destruct (InvalidateTag (cache_ st) (orgTagValue o)).
Qed.

Lemma run_cached_ok ops : ∀ t st, codec_laws Marshal Unmarshal → coh t st → writesMarshal (inner st) ops →
  Forall (λ no, opAddresses addressable no.2 ∧ 0 < no.1 < 2 ^ 63) ops → Sorted Z.le (t :: map fst ops) →
  Forall2 alike (runCached st ops) (runPlain (inner st) ops).
Proof.
  induction ops as [|[now op] ops IH]; intros t st Henc Hco Hmar Hops Hs; [constructor|]. cbn [runCached runPlain map fst] in *.
  apply Forall_cons in Hops as [[Hop Hnow] Hops]. apply Sorted_inv in Hs as [Hs Hhd]. apply HdRel_inv in Hhd. cbn in Hop, Hnow.
  destruct Hmar as [Hm Hrest]. pose proof (through_cache_ok t st now op Henc Hco Hop Hhd Hnow (conj Hm I)) as Hstep.
  destruct (throughCache st now op) as [st' a], (plain (inner st) now op) as [s' a']. destruct Hstep as (? & <- & ?).
  constructor; [done|]. by apply (IH now).
Qed.
End Histories.

(** C37: with an empty cache in front of a store that holds nothing from the future, and
    a serializer that takes every record the store comes to hold, every history of reads,
    writes, deletes and invalidations through the wrapper, at instants that do not go
    back, answers as the store alone would, with one reservation: where the store would
    answer with a record, a read answers with that very record or with what the
    serializer makes of its data and times, without the vector; where the record's
    envelope decodes to itself the two differ in the vector alone. Cached entries are
    never stale, identities never share an entry, and tag markers and sweeps never touch
    one. *)
Theorem cached_store_transparent {S B} `{StateStore S} `{Backend B}
    (content : S → identity → option DomainRecord) (addressable : identity → Prop) (ready : S → Prop)
    {SLaws : StateStoreLaws S content addressable ready}
    (view : B → Z → string → option (option string)) {BLaws : BackendLaws B view}
    (Marshal : cachedRecordEnvelope → res cache_error (option string)) (Unmarshal : string → res cache_error cachedRecordEnvelope)
    (t : Z) (s : S) (c : Cache B) o (ops : list (Z * store_op)) :
  codec_laws Marshal Unmarshal → ready s →
  (∀ i r, addressable i → content s i = Some r → 0 < UpdatedAt r ≤ t ∧ marshals Marshal r) → writesMarshal Marshal s ops →
  (∀ now k, view (backend c) now k = None) → apart (withDefaults o) →
  Forall (λ no, opAddresses addressable no.2 ∧ 0 < no.1 < 2 ^ 63) ops → Sorted Z.le (t :: map fst ops) →
  Forall2 (alike Marshal Unmarshal) (runCached Marshal Unmarshal (NewCachedStateStore s c o) ops) (runPlain s ops).
Proof.
  intros Henc Hready Hpast Hmar Hview Hapart Hops Hs.
  apply (run_cached_ok Marshal Unmarshal content addressable ready view ops t); [done| |done..].
  split; [done|done|by intros i r Hi Hr; apply (Hpast i r)..|]. intros i now d _ _ _. cbn. by rewrite Hview.
Qed.

(** A serializer that encodes envelopes as strings of bits. *)
Fixpoint posBits (p : positive) : string :=
  match p with xH => "" | xO p => String "0" (posBits p) | xI p => String "1" (posBits p) end.
Fixpoint bitsPos (s : string) : positive :=
  match s with EmptyString => xH | String c s => if Ascii.eqb c "1" then xI (bitsPos s) else xO (bitsPos s) end.

Lemma bits_round_trip p : bitsPos (posBits p) = p.
Proof. induction p as [p IH|p IH|]; cbn; congruence. Qed.

Definition kindCode (k : RecordValueKind) : nat :=
  match k with
  | RecordValueNull => 0 | RecordValueString => 1 | RecordValueBool => 2 | RecordValueInt => 3 | RecordValueUint => 4
  | RecordValueFloat => 5 | RecordValueRaw => 6
  end.
Definition codeKind (n : nat) : RecordValueKind :=
  match n with
  | 0%nat => RecordValueNull | 1%nat => RecordValueString | 2%nat => RecordValueBool | 3%nat => RecordValueInt
  | 4%nat => RecordValueUint | 5%nat => RecordValueFloat | _ => RecordValueRaw
  end.

#[export] Instance recordField_countable : Countable RecordField.
Proof.
  apply (inj_countable' (λ f, (Name f, kindCode (Kind_ (FValue f)), Text (FValue f), Raw (FValue f)))
           (λ t, mkField t.1.1.1 (mkValue (codeKind t.1.1.2) t.1.2 t.2))). by intros [n [[] x y]].
Defined.

#[export] Instance envelope_eq_dec : EqDecision cachedRecordEnvelope.
Proof. solve_decision. Defined.

#[export] Instance envelope_countable : Countable cachedRecordEnvelope.
Proof.
  apply (inj_countable' (λ e, (Version e, Found e, EData e, ECreatedAt e, EUpdatedAt e))
           (λ t, mkEnvelope t.1.1.1.1 t.1.1.1.2 t.1.1.2 t.1.2 t.2)). by intros [].
Defined.

Definition bitMarshal (e : cachedRecordEnvelope) : res cache_error (option string) := Ok (Some (posBits (encode e))).
Definition bitUnmarshal (s : string) : res cache_error cachedRecordEnvelope :=
  match decode (bitsPos s) with Some e => Ok e | None => Err (ErrSerializer "bits") end.

(** Two things the JSON serializer does, on top of the bits: an integer whose text is no
    number is refused ([RecordValue.MarshalJSON]), and an unsigned integer comes back
    signed ([valueFromJSONNumber]). *)
Definition writable (f : RecordField) : bool :=
  negb (bool_decide (Kind_ (FValue f) = RecordValueInt)) || (match parseInt64 (TrimSpace (Text (FValue f))) with Some _ => true | None => false end).
Definition strictMarshal (e : cachedRecordEnvelope) : res cache_error (option string) :=
  if forallb writable (EData e) then bitMarshal e else Err (ErrSerializer "number").

Definition signed_ (f : RecordField) : RecordField :=
  if bool_decide (Kind_ (FValue f) = RecordValueUint) then mkField (Name f) (mkValue RecordValueInt (Text (FValue f)) (Raw (FValue f))) else f.
Definition lossyUnmarshal (s : string) : res cache_error cachedRecordEnvelope :=
  match bitUnmarshal s with Ok e => Ok (mkEnvelope (Version e) (Found e) (map signed_ (EData e)) (ECreatedAt e) (EUpdatedAt e)) | Err e => Err e end.

Lemma lossy_codec_laws : codec_laws strictMarshal lossyUnmarshal.
Proof.
  split; [|by eexists; vm_compute]. intros v s v'. unfold strictMarshal, lossyUnmarshal. destruct (forallb _ _); [|done].
  intros [= <-]. unfold bitUnmarshal. rewrite bits_round_trip, decode_encode. by intros [= <-].
Qed.

Definition defaultOptions : CachedStateStoreOptions := mkOptions 0 0 0 "".

Lemma default_apart : apart (withDefaults defaultOptions).
Proof. intros [[[d c] o] r]. reflexivity. Qed.

Definition emptyStore (prefix : string) : CachedStateStore MemoryDB MemoryBackend :=
  NewCachedStateStore NewMemoryDB (New (guarded prefix) ∅) defaultOptions.

Definition counted (n : Z) : DomainRecord := mkRecord "d" "c" "o" "a" [mkField "n" (UintValue n)] [] 0 0.

Definition storeOps : list (Z * store_op) :=
  [(1, SGet "d" "c" "o" "a"); (2, SUpsert (counted 1)); (3, SGet "d" "c" "o" " a"); (4, SUpsert (counted 2));
   (5, SGet "d" "c" "o" "a"); (6, SDelete "d" "c" "o" "a"); (7, SGet "d" "c" "o" "a"); (8, SInvalidateScope "d" "c" "o")].

Lemma cached_store_transparent_witness :
  Forall2 (alike strictMarshal lossyUnmarshal) (runCached strictMarshal lossyUnmarshal (emptyStore "") storeOps) (runPlain NewMemoryDB storeOps).
Proof.
  apply (cached_store_transparent memContent cleanId memReady memView strictMarshal lossyUnmarshal 0
           NewMemoryDB (New (guarded "") ∅) defaultOptions storeOps).
  - exact lossy_codec_laws.
  - split; [reflexivity|]. intros k r. cbn. by rewrite lookup_empty.
  - intros i r _. unfold memContent. cbn. by rewrite lookup_empty.
  - cbn. split_and!; try exact I; eexists; vm_compute; reflexivity.
  - intros now k. done.
  - exact default_apart.
  - repeat constructor.
  - cbn. repeat constructor; lia.
Defined.

(** A read answered from the cache may come with another kind of number than was
    written, and the filters that matched the record no longer do. *)
Theorem cached_read_changes_kind :
  let st := (CachedUpsertRecord strictMarshal lossyUnmarshal (emptyStore "") 1 (counted 5)).1 in
  (∃ r, ssGet (inner st) "d" "c" "o" "a" = Ok (Some r) ∧ Get (Data r) "n" = Some (UintValue 5)) ∧
  (∃ r, (CachedGetRecord strictMarshal lossyUnmarshal st 2 "d" "c" "o" "a").2 = Ok (Some r) ∧ Get (Data r) "n" = Some (IntValue 5)).
Proof.
  cbv zeta. split; eexists; (split; [vm_compute; reflexivity|reflexivity]).
Qed.

(** A record the serializer refuses is written to the store, but the entry of the record
    before it stays in the cache and goes on answering. *)
Theorem refused_write_leaves_stale_entry :
  let broken := mkRecord "d" "c" "o" "a" [mkField "n" (mkValue RecordValueInt "x" "")] [] 0 0 in
  let st := (CachedUpsertRecord strictMarshal lossyUnmarshal (emptyStore "") 1 (demo "o" "a" 1)).1 in
  let st := (CachedUpsertRecord strictMarshal lossyUnmarshal st 2 broken).1 in
  fellBack st = ["set"] ∧
  (∃ r, ssGet (inner st) "d" "c" "o" "a" = Ok (Some r) ∧ UpdatedAt r = 2) ∧
  (∃ r, (CachedGetRecord strictMarshal lossyUnmarshal st 3 "d" "c" "o" "a").2 = Ok (Some r) ∧ UpdatedAt r = 1).
Proof.
  cbv zeta. split; [vm_compute; reflexivity|]. split; eexists; (split; [vm_compute; reflexivity|reflexivity]).
Qed.

(** A read answered from the cache comes without the record's vector. *)
Theorem cached_read_loses_vector :
  let rec := mkRecord "d" "c" "o" "a" [mkField "n" (IntValue 1)] [7] 0 0 in
  let st := (CachedUpsertRecord bitMarshal bitUnmarshal (emptyStore "") 1 rec).1 in
  (∃ r, ssGet (inner st) "d" "c" "o" "a" = Ok (Some r) ∧ Vector_ r = [7]) ∧
  (∃ r, (CachedGetRecord bitMarshal bitUnmarshal st 2 "d" "c" "o" "a").2 = Ok (Some r) ∧ Vector_ r = []).
Proof.
  cbv zeta. split; eexists; (split; [vm_compute; reflexivity|reflexivity]).
Qed.

(** A cached absence is tagged with the scope of the empty record, so sweeping
    the scope it belongs to leaves it: after a record is added behind the
    wrapper and the scope is invalidated, the wrapper still answers that there
    is none. *)
Theorem cached_absence_survives_scope_invalidation :
  let st := (CachedGetRecord bitMarshal bitUnmarshal (emptyStore "") 1 "d" "c" "o" "a").1 in
  let st := withInner st (UpsertRecord (inner st) false 2 (demo "o" "a" 1)).1 in
  let swept := InvalidateScope st "d" "c" "o" in
  let st := swept.1 in
  swept.2 = None ∧ (∃ r, ssGet (inner st) "d" "c" "o" "a" = Ok (Some r)) ∧
  (CachedGetRecord bitMarshal bitUnmarshal st 3 "d" "c" "o" "a").2 = Ok None.
Proof.
  cbv zeta. split; [vm_compute; reflexivity|]. split; [eexists|]; vm_compute; reflexivity.
Qed.
