(* ===== verification/Hub.v ===== *)
(** * Hub: fan-out of delta frames (src/server-kit/go/projectiongw/hub.go)

    A subscriber is registered under several topics and owns one bounded
    channel of frames. A broadcast holds the hub's read lock while it offers
    its frame to every subscriber of a topic; subscribing and the first half of
    a cancellation hold the write lock; the channel is closed after that lock is
    released. Several broadcasts run at once, so the system is a step relation:
    a broadcast in progress is the set of subscribers it still has to serve.
    Subscribers are the addresses of a heap. *)

From Stdlib Require Import ZArith Lia Ascii String.
From stdpp Require Import base strings gmap fin_maps fin_sets numbers sorting list.
From S2P Require Import Prelude GoStrings.

Open Scope string_scope.
Open Scope list_scope.
Open Scope Z_scope.

(** ** Data *)

Definition DefaultSubscriberQueue : Z := 256.

Record Frame := mkFrame {
  Envelope : string; EnvelopeWithoutVectors : string; FrameWatermark : string; FrameEpoch : Z
}.

(** [frames]: what the channel holds, oldest first; [drops]: whether the
    coalesced signal is pending; [open_]: the channel is not closed. *)
Record subscriber := mkSubscriber {
  frames : list Frame; dropped : Z; drops : bool; vectors : bool; open_ : bool
}.

Record Hub := mkHub { queueSize : Z; subs : gmap string (gset nat) }.

Definition NewHub (size : Z) : Hub := mkHub (if size <=? 0 then DefaultSubscriberQueue else size) ∅.

(** ** Registration *)

Fixpoint dedupeLoop (keys out : list string) : list string :=
  match keys with
  | [] => out
  | key :: rest =>
      if String.eqb key "" || bool_decide (key ∈ out) then dedupeLoop rest out else dedupeLoop rest (out ++ [key])
  end.

Definition dedupeKeys (keys : list string) : list string := dedupeLoop keys [].

Definition newSubscriber (vectors : bool) : subscriber := mkSubscriber [] 0 false vectors true.

Definition bucket (h : Hub) (key : string) : gset nat := default ∅ (subs h !! key).

(** The locked part of [SubscribeKeys], for the address of the new subscriber. *)
Definition register (h : Hub) (keys : list string) (id : nat) : Hub :=
  mkHub (queueSize h) (foldl (λ m key, <[key := {[id]} ∪ default ∅ (m !! key)]> m) (subs h) keys).

(** The locked part of [cancel]. *)
Definition leave (id : nat) (m : gmap string (gset nat)) (key : string) : gmap string (gset nat) :=
  match m !! key with
  | None => m
  | Some b => if bool_decide (b ∖ {[id]} = ∅) then delete key m else <[key := b ∖ {[id]}]> m
  end.

Definition unregister (h : Hub) (keys : list string) (id : nat) : Hub :=
  mkHub (queueSize h) (foldl (leave id) (subs h) keys).

(** ** Delivery *)

Definition variantFor (s : subscriber) (f : Frame) : Frame :=
  if negb (vectors s) && negb (String.eqb (EnvelopeWithoutVectors f) "")
  then mkFrame (EnvelopeWithoutVectors f) (EnvelopeWithoutVectors f) (FrameWatermark f) (FrameEpoch f)
  else f.

(** The body of [Broadcast]'s loop; [None] is the panic of a send on a closed
    channel. *)
Definition deliver (size : Z) (f : Frame) (s : subscriber) : option subscriber :=
  if negb (open_ s) then None
  else if Z.of_nat (length (frames s)) <? size
  then Some (mkSubscriber (frames s ++ [variantFor s f]) (dropped s) (drops s) (vectors s) true)
  else Some (mkSubscriber (frames s) (u64 (dropped s + 1)) true (vectors s) true).

Definition SubscriberCount (h : Hub) (key : string) : Z := Z.of_nat (size (bucket h key)).

Definition VectorSubscriberCounts (h : Hub) (heap : gmap nat subscriber) (key : string) : nat * nat :=
  let wants v := length (filter (λ id, (vectors <$> heap !! id) = Some v) (elements (bucket h key))) in
  (wants true, wants false).

(** ** The running hub

    [active]: the broadcasts in progress, each with its topic, its frame and the
    subscribers it still has to serve. [leaving]: cancelled subscribers whose
    channel is not closed yet. What follows is bookkeeping for the statements:
    the topics of each subscriber, the frames it was offered in order with their
    topics, those its reader took, the number of broadcasts begun on its topics
    while it was registered, and the drop count at the reader's last wake-up. *)
Record account := mkAccount { topics : list string; offered : list (string * Frame); got : list Frame; due : Z; woken : Z }.

Record world := mkWorld {
  hub : Hub; heap : gmap nat subscriber; active : list (string * Frame * gset nat); leaving : gset nat;
  accounts : gmap nat account; panicked : bool
}.

Definition start (size : Z) : world := mkWorld (NewHub size) ∅ [] ∅ ∅ false.

Definition takeFrame (s : subscriber) : option (Frame * subscriber) :=
  match frames s with
  | [] => None
  | f :: rest => Some (f, mkSubscriber rest (dropped s) (drops s) (vectors s) (open_ s))
  end.

Definition takeDrops (s : subscriber) : subscriber := mkSubscriber (frames s) (dropped s) false (vectors s) (open_ s).
Definition closeFrames (s : subscriber) : subscriber := mkSubscriber (frames s) (dropped s) (drops s) (vectors s) false.

Definition noteDue (ids : gset nat) (accs : gmap nat account) : gmap nat account :=
  map_imap (λ id a, Some (if bool_decide (id ∈ ids)
                          then mkAccount (topics a) (offered a) (got a) (due a + 1) (woken a) else a)) accs.

Section Steps.
(** What may subscribe and what may be broadcast. *)
Context (client : list string → bool → Prop) (source : string → Frame → Prop).

Inductive step : world → world → Prop :=
| subscribe_step w keys v id :
    client keys v → active w = [] → heap w !! id = None →
    step w (mkWorld (register (hub w) (dedupeKeys keys) id) (<[id := newSubscriber v]> (heap w)) [] (leaving w)
              (<[id := mkAccount (dedupeKeys keys) [] [] 0 0]> (accounts w)) (panicked w))
| begin_step w key f :
    source key f →
    step w (mkWorld (hub w) (heap w) ((key, f, bucket (hub w) key) :: active w) (leaving w)
              (noteDue (bucket (hub w) key) (accounts w)) (panicked w))
| deliver_step w before key f ids after id s s' a :
    active w = before ++ (key, f, ids) :: after → id ∈ ids → heap w !! id = Some s →
    deliver (queueSize (hub w)) f s = Some s' → accounts w !! id = Some a →
    step w (mkWorld (hub w) (<[id := s']> (heap w)) (before ++ (key, f, ids ∖ {[id]}) :: after) (leaving w)
              (<[id := mkAccount (topics a) (offered a ++ [(key, f)]) (got a) (due a) (woken a)]> (accounts w)) (panicked w))
| panic_step w before key f ids after id s :
    active w = before ++ (key, f, ids) :: after → id ∈ ids → heap w !! id = Some s →
    deliver (queueSize (hub w)) f s = None →
    step w (mkWorld (hub w) (heap w) (active w) (leaving w) (accounts w) true)
| end_step w before key f after :
    active w = before ++ (key, f, ∅) :: after →
    step w (mkWorld (hub w) (heap w) (before ++ after) (leaving w) (accounts w) (panicked w))
| cancel_step w id s a :
    active w = [] → heap w !! id = Some s → open_ s = true → id ∉ leaving w → accounts w !! id = Some a →
    step w (mkWorld (unregister (hub w) (topics a) id) (heap w) [] ({[id]} ∪ leaving w) (accounts w) (panicked w))
| close_step w id s :
    id ∈ leaving w → heap w !! id = Some s →
    step w (mkWorld (hub w) (<[id := closeFrames s]> (heap w)) (active w) (leaving w ∖ {[id]}) (accounts w) (panicked w))
| read_step w id s f s' a :
    heap w !! id = Some s → takeFrame s = Some (f, s') → accounts w !! id = Some a →
    step w (mkWorld (hub w) (<[id := s']> (heap w)) (active w) (leaving w)
              (<[id := mkAccount (topics a) (offered a) (got a ++ [f]) (due a) (woken a)]> (accounts w)) (panicked w))
| wake_step w id s a :
    heap w !! id = Some s → drops s = true → accounts w !! id = Some a →
    step w (mkWorld (hub w) (<[id := takeDrops s]> (heap w)) (active w) (leaving w)
              (<[id := mkAccount (topics a) (offered a) (got a) (due a) (dropped s)]> (accounts w)) (panicked w)).

Inductive reachable (size : Z) : world → Prop :=
| reach_start : reachable size (start size)
| reach_step w w' : reachable size w → step w w' → reachable size w'.

End Steps.

(** ** Buckets *)

Lemma elem_default (m : gmap string (gset nat)) key (x : nat) : x ∈ default ∅ (m !! key) ↔ ∃ b, m !! key = Some b ∧ x ∈ b.
Proof. destruct (m !! key); cbn; set_solver. Qed.

Lemma elem_register h keys id key x :
  x ∈ bucket (register h keys id) key ↔ x ∈ bucket h key ∨ (key ∈ keys ∧ x = id).
Proof.
  unfold bucket, register; cbn [subs]. generalize (subs h). induction keys as [|k keys IH]; intros m; cbn [foldl]; [set_solver|].
  rewrite IH. destruct (decide (k = key)) as [->|Hk].
  - rewrite lookup_insert_eq. cbn [default]. set_solver.
  - rewrite lookup_insert_ne by done. set_solver.
Qed.

Lemma elem_leave id m k key x :
  x ∈ default ∅ (leave id m k !! key) ↔ x ∈ default ∅ (m !! key) ∧ ¬ (key = k ∧ x = id).
Proof.
  unfold leave. destruct (m !! k) as [b|] eqn:E.
  - destruct (decide (key = k)) as [->|Hk].
    + rewrite E. case_bool_decide as Hb; [rewrite lookup_delete_eq|rewrite lookup_insert_eq]; cbn [default]; set_solver.
    + case_bool_decide; [rewrite lookup_delete_ne by done|rewrite lookup_insert_ne by done]; set_solver.
  - destruct (decide (key = k)) as [->|Hk]; [rewrite E; cbn; set_solver|set_solver].
Qed.

Lemma elem_unregister h keys id key x :
  x ∈ bucket (unregister h keys id) key ↔ x ∈ bucket h key ∧ ¬ (key ∈ keys ∧ x = id).
Proof.
  unfold bucket, unregister; cbn [subs]. generalize (subs h). induction keys as [|k keys IH]; intros m; cbn [foldl]; [set_solver|].
  rewrite IH, elem_leave. set_solver.
Qed.

Lemma dedupe_loop_elem keys : ∀ out key, key ∈ dedupeLoop keys out ↔ key ∈ out ∨ (key ∈ keys ∧ key ≠ "").
Proof.
  induction keys as [|k keys IH]; intros out key; cbn [dedupeLoop]; [set_solver|].
  destruct (String.eqb_spec k "") as [->|Hk]; cbn [orb]; [rewrite IH; set_solver|].
  case_bool_decide; rewrite IH; set_solver.
Qed.

(** ** The invariant *)

Section Invariant.
Context (client : list string → bool → Prop) (source : string → Frame → Prop) (size0 : Z).

Definition waiting (act : list (string * Frame * gset nat)) (id : nat) : nat := length (filter (λ b, id ∈ b.2) act).

(** What one subscriber was offered is what its reader took, what its channel
    holds and what was dropped. *)
Record sub_ok (n : nat) (s : subscriber) (a : account) : Prop := {
  so_bound : Z.of_nat (length (frames s)) ≤ queueSize (NewHub size0);
  so_stream : sublist (got a ++ frames s) (map (λ kf, variantFor s kf.2) (offered a));
  so_dropped : dropped s = u64 (Z.of_nat (length (offered a)) - Z.of_nat (length (got a)) - Z.of_nat (length (frames s)));
  so_signal : drops s = false → dropped s = woken a;
  so_due : due a = Z.of_nat (length (offered a)) + Z.of_nat n;
  so_topics : ∀ k f, (k, f) ∈ offered a → k ∈ topics a ∧ source k f;
  so_client : ∃ keys, client keys (vectors s) ∧ topics a = dedupeKeys keys
}.

Record hub_ok (w : world) : Prop := {
  ho_size : queueSize (hub w) = queueSize (NewHub size0);
  ho_dom : ∀ id, heap w !! id = None ↔ accounts w !! id = None;
  ho_bucket : ∀ key id, id ∈ bucket (hub w) key ↔
    ∃ s a, heap w !! id = Some s ∧ accounts w !! id = Some a ∧ open_ s = true ∧ (id ∉ leaving w) ∧ key ∈ topics a;
  ho_leaving : ∀ id, id ∈ leaving w → ∃ s, heap w !! id = Some s ∧ open_ s = true;
  ho_active : ∀ key f ids, (key, f, ids) ∈ active w → ids ⊆ bucket (hub w) key ∧ source key f;
  ho_subs : ∀ id s a, heap w !! id = Some s → accounts w !! id = Some a → sub_ok (waiting (active w) id) s a;
  ho_safe : panicked w = false
}.

Lemma hub_ok_start : hub_ok (start size0).
Proof. split; [done|done| | | |done|done]; cbn; set_solver. Qed.

Lemma filter_replace {A} (P : A → Prop) `{!∀ x, Decision (P x)} before (x y : A) after :
  length (filter P (before ++ x :: after)) =
    (length (filter P (before ++ y :: after)) + (if decide (P x) then 1 else 0) - (if decide (P y) then 1 else 0))%nat.
Proof. rewrite !filter_app, !filter_cons, !length_app. do 2 destruct (decide _); cbn [length]; lia. Qed.

(** A delivery accounts for its frame. *)
Lemma deliver_ok n key f s s' a :
  deliver (queueSize (NewHub size0)) f s = Some s' → key ∈ topics a → source key f → sub_ok (S n) s a →
  sub_ok n s' (mkAccount (topics a) (offered a ++ [(key, f)]) (got a) (due a) (woken a)).
Proof.
  unfold deliver. destruct (open_ s) eqn:Ho; cbn [negb]; [|done]. intros Hd Hk Hf [H1 H2 H3 H4 H5 H6 H7].
  assert (∀ k g, (k, g) ∈ offered a ++ [(key, f)] → k ∈ topics a ∧ source k g) as H6'.
  { intros k g. rewrite elem_of_app, list_elem_of_singleton. intros [?|[= -> ->]]; [by apply H6|done]. }
  destruct (Z.ltb_spec (Z.of_nat (length (frames s))) (queueSize (NewHub size0))) as [Hl|Hl]; injection Hd as <-;
    split; cbn [frames dropped drops vectors offered got due woken topics];
    rewrite ?length_app, ?map_app; cbn [length map snd]; try done; try lia.
  - rewrite app_assoc. apply sublist_app; [exact H2|]. apply sublist_skip. constructor.
  - rewrite H3. f_equal. lia.
  - by apply sublist_inserts_r.
  - rewrite H3. unfold u64. rewrite Zplus_mod_idemp_l. f_equal. lia.
Qed.

(** A change of one subscriber that keeps its registration. *)
Lemma hub_ok_local w id s a s' a' act :
  hub_ok w → heap w !! id = Some s → accounts w !! id = Some a → open_ s' = open_ s → topics a' = topics a →
  (∀ key f ids, (key, f, ids) ∈ act → ids ⊆ bucket (hub w) key ∧ source key f) →
  (∀ j, j ≠ id → waiting act j = waiting (active w) j) → sub_ok (waiting act id) s' a' →
  hub_ok (mkWorld (hub w) (<[id := s']> (heap w)) act (leaving w) (<[id := a']> (accounts w)) (panicked w)).
Proof.
  intros [Hz Hd Hb Hl Ha Hs Hp] Es Ea Ho Ht Hact Hw Hok. split; cbn [hub heap active leaving accounts panicked]; try done.
  - intros j. destruct (decide (j = id)) as [->|]; [by rewrite !lookup_insert_eq|by rewrite !lookup_insert_ne].
  - intros key j. rewrite Hb. destruct (decide (j = id)) as [->|]; [|by rewrite !lookup_insert_ne].
    rewrite !lookup_insert_eq, Es, Ea. split.
    + intros (? & ? & [= <-] & [= <-] & ? & ? & ?). exists s', a'. by rewrite Ho, Ht.
    + intros (? & ? & [= <-] & [= <-] & ? & ? & ?). exists s, a. by rewrite <- Ho, <- Ht.
  - intros j Hj. destruct (Hl j Hj) as (sj & Ej & Hj'). destruct (decide (j = id)) as [->|]; [|by rewrite lookup_insert_ne; eauto].
    rewrite lookup_insert_eq. exists s'. split; [done|]. rewrite Ho. naive_solver.
  - intros j sj aj. destruct (decide (j = id)) as [->|Hj]; [rewrite !lookup_insert_eq; naive_solver|].
    rewrite !lookup_insert_ne, (Hw j Hj) by done. apply Hs.
Qed.

Lemma deliver_keeps f s s' n : deliver n f s = Some s' → open_ s' = open_ s.
Proof. unfold deliver. destruct (open_ s); cbn; [|done]. by destruct (_ <? _); intros [= <-]. Qed.

Lemma take_frame_ok n s f s' a : takeFrame s = Some (f, s') → sub_ok n s a →
  sub_ok n s' (mkAccount (topics a) (offered a) (got a ++ [f]) (due a) (woken a)).
Proof.
  unfold takeFrame. destruct (frames s) as [|g rest] eqn:E; [done|]. intros [= <- <-] [H1 H2 H3 H4 H5 H6 H7].
  rewrite E in *. split; cbn [frames dropped drops vectors offered got due woken topics]; try done.
  - cbn [length] in H1. lia.
  - by rewrite <- app_assoc.
  - rewrite H3, length_app. cbn [length]. f_equal. lia.
Qed.

Lemma wake_ok n s a : sub_ok n s a → sub_ok n (takeDrops s) (mkAccount (topics a) (offered a) (got a) (due a) (dropped s)).
Proof. intros [H1 H2 H3 H4 H5 H6 H7]. by split. Qed.

Lemma begin_ok w key f : hub_ok w → source key f →
  hub_ok (mkWorld (hub w) (heap w) ((key, f, bucket (hub w) key) :: active w) (leaving w)
            (noteDue (bucket (hub w) key) (accounts w)) (panicked w)).
Proof.
  intros [Hz Hd Hb Hl Ha Hs Hp] Hf. assert (∀ id, noteDue (bucket (hub w) key) (accounts w) !! id =
    (λ a, if bool_decide (id ∈ bucket (hub w) key) then mkAccount (topics a) (offered a) (got a) (due a + 1) (woken a) else a)
      <$> accounts w !! id) as Hn by (intros id; unfold noteDue; rewrite map_lookup_imap; by destruct (accounts w !! id)).
  split; cbn [hub heap active leaving accounts panicked]; try done.
  - intros id. rewrite Hn, fmap_None. apply Hd.
  - intros k id. rewrite Hb, Hn. split.
    + intros (s & a & ? & Ea & ? & ? & ?). rewrite Ea. cbn [fmap option_fmap option_map]. eexists s, _.
      split_and!; [done|reflexivity|done|done|]. by case_bool_decide.
    + intros (s & a & ? & (a' & Ea & ->)%fmap_Some & ? & ? & Hk). exists s, a'. split_and!; [done..|]. by case_bool_decide.
  - intros k g ids [[= -> -> ->]|?]%elem_of_cons; [done|by apply Ha].
  - intros id s a Es Ea. rewrite Hn in Ea. apply fmap_Some in Ea as (a' & Ea & ->).
    destruct (Hs id s a' Es Ea) as [H1 H2 H3 H4 H5 H6 H7]. unfold waiting. rewrite filter_cons. cbn [snd].
    case_bool_decide as Hi; [rewrite decide_True by done|by rewrite decide_False].
    split; cbn [topics offered got due woken]; try done. cbn [length]. unfold waiting in H5. lia.
Qed.

Lemma broadcast_end_ok w before key f after : hub_ok w → active w = before ++ (key, f, ∅) :: after →
  hub_ok (mkWorld (hub w) (heap w) (before ++ after) (leaving w) (accounts w) (panicked w)).
Proof.
  intros [Hz Hd Hb Hl Ha Hs Hp] E. split; cbn [hub heap active leaving accounts panicked]; try done.
  - intros k g ids Hi. apply Ha. rewrite E. set_solver.
  - intros id s a Es Ea. specialize (Hs id s a Es Ea). rewrite E in Hs. unfold waiting in *.
    rewrite filter_app, filter_cons in Hs. rewrite filter_app. by rewrite decide_False in Hs by (cbn; set_solver).
Qed.

Lemma subscribe_ok w keys v id : hub_ok w → client keys v → active w = [] → heap w !! id = None →
  hub_ok (mkWorld (register (hub w) (dedupeKeys keys) id) (<[id := newSubscriber v]> (heap w)) [] (leaving w)
            (<[id := mkAccount (dedupeKeys keys) [] [] 0 0]> (accounts w)) (panicked w)).
Proof.
  intros [Hz Hd Hb Hl Ha Hs Hp] Hc Hact Hid. split; cbn [hub heap active leaving accounts panicked]; try done.
  - intros j. destruct (decide (j = id)) as [->|]; [by rewrite !lookup_insert_eq|by rewrite !lookup_insert_ne].
  - intros key j. rewrite elem_register, Hb. destruct (decide (j = id)) as [->|Hj].
    + rewrite !lookup_insert_eq. split.
      * intros [(? & ? & ? & _)|[Hk _]]; [congruence|]. eexists _, _. split_and!; [done|done|done| |exact Hk].
        intros Hi. destruct (Hl id Hi) as (? & ? & _). congruence.
      * intros (? & ? & [= <-] & [= <-] & _ & _ & Hk). by right.
    + rewrite !lookup_insert_ne by done. naive_solver.
  - intros j Hj. destruct (Hl j Hj) as (s & Es & Ho). exists s. rewrite lookup_insert_ne; [done|congruence].
  - set_solver.
  - intros j s a. destruct (decide (j = id)) as [->|Hj]; [rewrite !lookup_insert_eq|rewrite !lookup_insert_ne by done].
    + intros [= <-] [= <-]. split; cbn; [|done..| set_solver|eauto]. unfold NewHub, DefaultSubscriberQueue. cbn. destruct (Z.leb_spec size0 0); lia.
    + intros Es Ea. specialize (Hs j s a Es Ea). by rewrite Hact in Hs.
Qed.

Lemma cancel_ok w id s a : hub_ok w → active w = [] → heap w !! id = Some s → open_ s = true → accounts w !! id = Some a →
  hub_ok (mkWorld (unregister (hub w) (topics a) id) (heap w) [] ({[id]} ∪ leaving w) (accounts w) (panicked w)).
Proof.
  intros [Hz Hd Hb Hl Ha Hs Hp] Hact Es Ho Ea. split; cbn [hub heap active leaving accounts panicked]; try done.
  - intros key j. rewrite elem_unregister, Hb. split.
    + intros [(s' & a' & Es' & Ea' & Ho' & Hj & Hk) Hn]. exists s', a'. split_and!; [done..| |done]. intros Hi.
      apply elem_of_union in Hi as [->%elem_of_singleton|]; [|done]. apply Hn. split; [congruence|done].
    + intros (s' & a' & Es' & Ea' & Ho' & Hj & Hk). split; [exists s', a'; set_solver|set_solver].
  - intros j [->%elem_of_singleton|Hj]%elem_of_union; [eauto|by apply Hl].
  - set_solver.
  - intros j sj aj Ej Eaj. specialize (Hs j sj aj Ej Eaj). by rewrite Hact in Hs.
Qed.

Lemma close_ok w id s : hub_ok w → id ∈ leaving w → heap w !! id = Some s →
  hub_ok (mkWorld (hub w) (<[id := closeFrames s]> (heap w)) (active w) (leaving w ∖ {[id]}) (accounts w) (panicked w)).
Proof.
  intros [Hz Hd Hb Hl Ha Hs Hp] Hid Es. split; cbn [hub heap active leaving accounts panicked]; try done.
  - intros j. destruct (decide (j = id)) as [->|]; [rewrite lookup_insert_eq, <- Hd; naive_solver|by rewrite lookup_insert_ne].
  - intros key j. rewrite Hb. destruct (decide (j = id)) as [->|]; [|rewrite lookup_insert_ne by done; set_solver].
    rewrite lookup_insert_eq. split; [naive_solver|]. intros (? & ? & [= <-] & _ & [=] & _).
  - intros j [Hj Hn]%elem_of_difference. rewrite lookup_insert_ne by set_solver. by apply Hl.
  - intros j sj aj. destruct (decide (j = id)) as [->|]; [rewrite lookup_insert_eq|rewrite lookup_insert_ne by done; apply Hs].
    intros [= <-] Ea. by destruct (Hs id s aj Es Ea).
Qed.

Lemma step_hub_ok w w' : hub_ok w → step client source w w' → hub_ok w'.
Proof.
  intros Hok Hst. destruct Hst as [w keys v id ? ? ?|w key f ?|w before key f ids after id s s' a E Hi Es Hd Ea|
    w before key f ids after id s E Hi Es Hd|w before key f after E|w id s a ? ? ? ? ?|w id s ? ?|w id s f s' a Es Ht Ea|w id s a Es Hd Ea].
  - by apply subscribe_ok.
  - by apply begin_ok.
  - pose proof (ho_active _ Hok key f ids) as Hact. destruct Hact as [Hsub Hf]; [rewrite E; set_solver|].
    pose proof (ho_subs _ Hok id s a Es Ea) as Hs. apply (hub_ok_local w id s a); [done|done|done|by eapply deliver_keeps|done| | |].
    + intros k g ids' Hin. apply elem_of_app in Hin as [Hin|[[= -> -> ->]|Hin]%elem_of_cons].
      * apply (ho_active _ Hok). rewrite E. set_solver.
      * split; [set_solver|done].
      * apply (ho_active _ Hok). rewrite E. set_solver.
    + intros j Hj. unfold waiting. rewrite E, (filter_replace _ _ (key, f, ids ∖ {[id]}) (key, f, ids)). cbn [snd].
      do 2 destruct (decide _); [lia|set_solver|set_solver|lia].
    + apply (deliver_ok _ key f s s' a); [by rewrite <- (ho_size _ Hok)| |done|].
      * assert (id ∈ bucket (hub w) key) as (? & ? & ? & ? & ? & ? & ?)%(ho_bucket _ Hok) by set_solver. congruence.
      * rewrite E in Hs. unfold waiting in *. rewrite (filter_replace _ _ (key, f, ids) (key, f, ids ∖ {[id]})) in Hs. cbn [snd] in Hs.
        rewrite decide_True, decide_False in Hs by set_solver. by rewrite Nat.add_1_r, Nat.sub_0_r in Hs.
  - exfalso. assert (id ∈ bucket (hub w) key) as (? & ? & ? & ? & Ho & _)%(ho_bucket _ Hok).
    { apply (ho_active _ Hok key f ids); [rewrite E; set_solver|done]. }
    unfold deliver in Hd. simplify_eq. rewrite Ho in Hd. cbn in Hd. by destruct (_ <? _).
  - by eapply broadcast_end_ok.
  - by eapply cancel_ok.
  - by apply close_ok.
  - apply (hub_ok_local w id s a); [done|done|done| |done|apply (ho_active _ Hok)|done|by eapply take_frame_ok, (ho_subs _ Hok)].
    unfold takeFrame in Ht. by destruct (frames s); simplify_eq.
  - apply (hub_ok_local w id s a); try done; [apply (ho_active _ Hok)|by apply wake_ok, (ho_subs _ Hok)].
Qed.

Lemma reachable_hub_ok w : reachable client source size0 w → hub_ok w.
Proof. induction 1 as [|w w' _ IH Hs]; [apply hub_ok_start|by eapply step_hub_ok]. Qed.

End Invariant.

(** ** Properties *)

(** C20: Whatever broadcasts, subscriptions, cancellations and readers do at
    the same time, no frame is sent on a closed channel, and nothing is lost in
    silence: what a subscriber's reader took, followed by what its channel
    holds, is a subsequence of the frames offered under its own topics, each in
    the variant it asked for; the channel never exceeds its bound; the drop
    counter is exactly the number of frames missing; a drop the reader was not
    woken for leaves its signal pending; and every broadcast on its topics since
    it subscribed was offered to it or is still in progress. *)
Theorem hub_loses_nothing_silently client source size w :
  reachable client source size w →
  panicked w = false ∧
  ∀ id s a, heap w !! id = Some s → accounts w !! id = Some a →
    Z.of_nat (length (frames s)) ≤ queueSize (NewHub size) ∧
    sublist (got a ++ frames s) (map (λ kf, variantFor s kf.2) (offered a)) ∧
    (∀ k f, (k, f) ∈ offered a → k ∈ topics a ∧ source k f) ∧
    dropped s = u64 (Z.of_nat (length (offered a)) - Z.of_nat (length (got a ++ frames s))) ∧
    (drops s = false → dropped s = woken a) ∧
    due a = Z.of_nat (length (offered a)) + Z.of_nat (waiting (active w) id) ∧
    ∃ keys, client keys (vectors s) ∧ topics a = dedupeKeys keys.
Proof.
  intros Hr%reachable_hub_ok. split; [apply (ho_safe _ _ _ _ Hr)|]. intros id s a Es Ea.
  destruct (ho_subs _ _ _ _ Hr id s a Es Ea) as [H1 H2 H3 H4 H5 H6 H7]. split_and!; try done.
  rewrite H3, length_app. f_equal. lia.
Qed.

(** One subscriber with room for one frame, two broadcasts, one read. *)
Definition demoFrame (text : string) : Frame := mkFrame text "" "" 1.
Definition anyClient (keys : list string) (v : bool) : Prop := True.
Definition anySource (key : string) (f : Frame) : Prop := True.

Definition demoWorld : world :=
  let h := register (NewHub 1) ["t"] 0 in
  mkWorld h {[0%nat := mkSubscriber [] 1 true true true]} [] ∅
    {[0%nat := mkAccount ["t"] [("t", demoFrame "a"); ("t", demoFrame "b")] [demoFrame "a"] 2 0]} false.

Lemma demo_reachable : reachable anyClient anySource 1 demoWorld.
Proof.
  pose (w1 := mkWorld (register (NewHub 1) ["t"] 0) {[0%nat := newSubscriber true]} [] ∅ {[0%nat := mkAccount ["t"] [] [] 0 0]} false).
  assert (reachable anyClient anySource 1 w1) as R1.
  { eapply reach_step; [apply reach_start|]. exact (subscribe_step _ _ (start 1) ["t"] true 0 I eq_refl eq_refl). }
  pose proof (reach_step _ _ _ _ _ R1 (begin_step _ _ w1 "t" (demoFrame "a") I)) as R2.
  eassert (reachable anyClient anySource 1 _) as R3.
  { eapply reach_step; [exact R2|]. by eapply (deliver_step _ _ _ [] "t" (demoFrame "a") _ [] 0). }
  eassert (reachable anyClient anySource 1 _) as R4.
  { eapply reach_step; [exact R3|]. by eapply (end_step _ _ _ [] "t" (demoFrame "a") []). }
  pose proof (reach_step _ _ _ _ _ R4 (begin_step _ _ _ "t" (demoFrame "b") I)) as R5.
  eassert (reachable anyClient anySource 1 _) as R6.
  { eapply reach_step; [exact R5|]. by eapply (deliver_step _ _ _ [] "t" (demoFrame "b") _ [] 0). }
  eassert (reachable anyClient anySource 1 _) as R7.
  { eapply reach_step; [exact R6|]. by eapply (end_step _ _ _ [] "t" (demoFrame "b") []). }
  eassert (reachable anyClient anySource 1 _) as R8.
  { eapply reach_step; [exact R7|]. by eapply (read_step _ _ _ 0). }
  exact R8.
Qed.

Lemma hub_loses_nothing_silently_witness :
  panicked demoWorld = false ∧
  ∃ s a, heap demoWorld !! 0%nat = Some s ∧ accounts demoWorld !! 0%nat = Some a ∧ got a = [demoFrame "a"] ∧
    dropped s = u64 (2 - 1) ∧ drops s = true ∧ due a = 2.
Proof.
  destruct (hub_loses_nothing_silently anyClient anySource 1 demoWorld demo_reachable) as [Hp Hs].
  split; [exact Hp|]. eexists _, _. split; [reflexivity|]. split; [reflexivity|].
  destruct (Hs 0%nat _ _ eq_refl eq_refl) as (_ & _ & _ & Hd & _ & Hu & _). split_and!; [reflexivity|exact Hd|reflexivity|exact Hu].
Defined.
