(* ===== verification/Gateway.v ===== *)
(** * Gateway: scoped reads and audience-partitioned deltas
    (src/server-kit/go/projectiongw/audience.go and gateway.go)

    The gateway serves snapshots of a scope and fans accepted mutations out to
    the subscribers of [Hub]. A scope is delivered to its whole tenant or, when
    its policy says so, to the audiences each record names; the audience is part
    of the hub topic. The store behind it is a parameter that is only read and
    warmed; encoding an envelope is a parameter. The caller's audiences, which
    the HTTP layer takes from verified identity, are an input. *)

From Stdlib Require Import ZArith Lia Ascii String Sorting.Sorted.
From stdpp Require Import base strings gmap fin_maps numbers sorting list.
From S2P Require Import Prelude GoStrings RecordData HermesKeys Mutation Partition TopK Listing Hub.

Open Scope string_scope.
Open Scope list_scope.
Open Scope Z_scope.

(** ** Data *)

Inductive gateway_error :=
| ErrScopeInvalid | ErrAudienceForbidden | ErrAudienceUndeclared | ErrAudienceTooBroad | ErrAudiencePolicyInvalid
| ErrStore (e : hermes_error).

Record ProjectionScope := mkPScope { TenantId : string; ScopeDomain : string; ScopeCollection : string }.

Inductive AudienceMode := AudienceTenant | AudiencePerRecord.
#[export] Instance AudienceMode_eq_dec : EqDecision AudienceMode.
Proof. solve_decision. Defined.

Definition MaxAudienceSnapshotReads : Z := 32.
Definition DefaultSnapshotLimit : Z := 1024.

Record audienceFilter := mkAF { afField : string; afAudience : string }.

(** ** Scopes and keys *)

Definition ScopeKey (s : ProjectionScope) : string :=
  TenantId s +:+ ":" +:+ ScopeDomain s +:+ ":" +:+ ScopeCollection s.

Definition hasColon (s : string) : bool := Contains s ":".

Definition validateScope (s : ProjectionScope) : bool :=
  if String.eqb (TrimSpace (TenantId s)) "" || String.eqb (TrimSpace (ScopeDomain s)) "" ||
     String.eqb (TrimSpace (ScopeCollection s)) ""
  then false
  else negb (hasColon (TenantId s) || hasColon (ScopeDomain s) || hasColon (ScopeCollection s)).

Definition audienceKeyPrefix : string := ":@".

Definition AudienceScopeKey (s : ProjectionScope) (audience : string) : string :=
  ScopeKey s +:+ audienceKeyPrefix +:+ audience.

Definition audienceKeys (s : ProjectionScope) (audiences : list string) : list string :=
  map (AudienceScopeKey s) audiences.

Definition containsString (haystack : list string) (needle : string) : bool := bool_decide (needle ∈ haystack).

Fixpoint dedupeAudiencesLoop (ids out : list string) : list string :=
  match ids with
  | [] => out
  | id :: rest =>
      let id := TrimSpace id in
      if String.eqb id "" || containsString out id then dedupeAudiencesLoop rest out
      else dedupeAudiencesLoop rest (out ++ [id])
  end.

Definition dedupeAudiences (ids : list string) : list string := dedupeAudiencesLoop ids [].

Definition intersects (recordAudiences subjectAudiences : list string) : bool :=
  existsb (containsString subjectAudiences) recordAudiences.

Section Gateway.
Context {double : Type} (ParseFloat : string → option double).
Abbreviation RecordMutation := (RecordMutation double).

(** ** Policies *)

(** [mutation.GetFields()], the first of that name. *)
Fixpoint stringFieldIn (fields : list (FieldValue double)) (field : string) : string :=
  match fields with
  | [] => ""
  | f :: rest =>
      if String.eqb (FVName f) field
      then TrimSpace (match FVValue f with Some (SString s) => s | _ => "" end)
      else stringFieldIn rest field
  end.

Definition stringField (m : RecordMutation) (field : string) : string := stringFieldIn (MFields m) field.

Record AudiencePolicy := mkPolicy { PMode : AudienceMode; PFields : list string; PRecord : option (RecordMutation → list string) }.

Fixpoint fieldAudiences (dst : list string) (m : RecordMutation) (fields : list string) : list string :=
  match fields with
  | [] => dst
  | field :: rest =>
      let value := stringField m field in
      if String.eqb value "" || containsString dst value then fieldAudiences dst m rest
      else fieldAudiences (dst ++ [value]) m rest
  end.

Definition appendAudiences (p : AudiencePolicy) (dst : list string) (m : RecordMutation) : list string :=
  match PRecord p with
  | Some f => dedupeAudiencesLoop (f m) dst
  | None => fieldAudiences dst m (PFields p)
  end.

Definition audiences (p : AudiencePolicy) (m : RecordMutation) : list string := appendAudiences p [] m.

Record AudienceConfig := mkConfig { Policies : gmap string AudiencePolicy; Strict : bool }.

Definition lookupPolicy (c : AudienceConfig) (domain collection : string) : option AudiencePolicy :=
  Policies c !! (domain +:+ "/" +:+ collection).

Definition resolvePolicy (c : AudienceConfig) (domain collection : string) : res gateway_error AudiencePolicy :=
  match lookupPolicy c domain collection with
  | None => if Strict c then Err ErrAudienceUndeclared else Ok (mkPolicy AudienceTenant [] None)
  | Some p => Ok p
  end.

Definition validate (c : AudienceConfig) : bool :=
  forallb (λ kp, negb (bool_decide (PMode kp.2 = AudiencePerRecord)) || negb (bool_decide (dedupeAudiences (PFields kp.2) = [])))
    (map_to_list (Policies c)).

(** ** Subscriptions *)

(** The hub topics of a caller, [SubscribeAudience]. *)
Definition SubscribeAudience (c : AudienceConfig) (s : ProjectionScope) (ids : list string) : res gateway_error (list string) :=
  if negb (validateScope s) then Err ErrScopeInvalid
  else
    match resolvePolicy c (ScopeDomain s) (ScopeCollection s) with
    | Err e => Err e
    | Ok p =>
        if negb (bool_decide (PMode p = AudiencePerRecord)) then Ok [ScopeKey s]
        else
          let ids := dedupeAudiences ids in
          if bool_decide (ids = []) then Err ErrAudienceForbidden else Ok (audienceKeys s ids)
    end.

(** ** Deltas *)

Definition scopeOfMutation (m : RecordMutation) : ProjectionScope := mkPScope (MOrganizationId m) (MDomain m) (MCollection m).

Definition addToGroup (groups : gmap string (list RecordMutation)) (key : string) (m : RecordMutation) :
    gmap string (list RecordMutation) :=
  <[key := default [] (groups !! key) ++ [m]]> groups.

(** The topics that carry a mutation; none when it is not deliverable. *)
Definition topicsOf (c : AudienceConfig) (m : RecordMutation) : list string :=
  match resolvePolicy c (MDomain m) (MCollection m) with
  | Err _ => []
  | Ok p =>
      if negb (bool_decide (PMode p = AudiencePerRecord)) then [ScopeKey (scopeOfMutation m)]
      else audienceKeys (scopeOfMutation m) (appendAudiences p [] m)
  end.

Definition groupOne (c : AudienceConfig) (st : gmap string (list RecordMutation) * Z) (a : AppliedMutation) :
    gmap string (list RecordMutation) * Z :=
  let m := mutationFromRecord ParseFloat (MRecord a) (MOperation a) (MVersion a) true in
  match topicsOf c m with
  | [] => (st.1, u64 (st.2 + 1))
  | keys => (foldl (λ g key, addToGroup g key m) st.1 keys, st.2)
  end.

Definition groupAccepted (accepted : list AppliedMutation) (c : AudienceConfig) : gmap string (list RecordMutation) * Z :=
  foldl (groupOne c) (∅, 0) accepted.

Definition watermarkFromMutations (ms : list RecordMutation) : string :=
  FormatWatermark (foldl (λ max m, if max <? MVer m then MVer m else max) 0 ms).

Definition withoutVectors (ms : list RecordMutation) : list RecordMutation :=
  map (λ m, match MVector m with
            | [] => m
            | _ => mkMut (MOp m) (MSourceId m) (MVer m) (MDomain m) (MCollection m) (MOrganizationId m) (MRecordId m)
                     (MFields m) [] (MCreatedAt m) (MUpdatedAt m) (MCorrelationId m)
            end) ms.

(** [encode]: the projection envelope of a batch, in binary. *)
Context (encode : list RecordMutation → option string).

Definition encodeFrameVariants (ms : list RecordMutation) (epoch : Z) (watermark : string) (includeVectors excludeVectors : bool) :
    option Frame :=
  match (if includeVectors then encode ms else Some "") with
  | None => None
  | Some full =>
      match (if excludeVectors then encode (withoutVectors ms) else Some "") with
      | None => None
      | Some bare => Some (mkFrame (if excludeVectors && negb includeVectors then bare else full) bare watermark epoch)
      end
  end.

(** The broadcasts of one accepted batch: [demand] is what
    [VectorSubscriberCounts] answers for each topic at that moment. *)
Definition frameOfGroup (demand : string → nat * nat) (epoch : Z) (kg : string * list RecordMutation) : option (string * Frame) :=
  let '(withV, withoutV) := demand kg.1 in
  if (withV =? 0)%nat && (withoutV =? 0)%nat then None
  else (λ f, (kg.1, f)) <$> encodeFrameVariants kg.2 epoch (watermarkFromMutations kg.2) (0 <? withV)%nat (0 <? withoutV)%nat.

Definition onApplied (c : AudienceConfig) (demand : string → nat * nat) (epoch : Z) (accepted : list AppliedMutation) :
    list (string * Frame) * Z :=
  let '(groups, undeliverable) := groupAccepted accepted c in
  (omap (frameOfGroup demand epoch) (map_to_list groups), undeliverable).

(** ** Snapshots *)

(** [queryFilterValue]: [floatText] parses a float and prints it again. *)
Context (floatText : string → option string).

Definition queryFilterValue (f : QueryFilter) : RecordValue :=
  if Ascii.eqb (QKind f) "b" then BoolValue (String.eqb (QValue f) "1" || EqualFold (QValue f) "true")
  else if Ascii.eqb (QKind f) "i" then
    match parseInt64 (QValue f) with Some z => IntValue z | None => StringValue (QValue f) end
  else if Ascii.eqb (QKind f) "u" then
    match parseUint64 (QValue f) with Some z => UintValue z | None => StringValue (QValue f) end
  else if Ascii.eqb (QKind f) "f" then
    match floatText (QValue f) with Some t => FloatValue t | None => StringValue (QValue f) end
  else StringValue (QValue f).

Definition planRecordFilters (p : QueryPlan) : list RecordFilter :=
  map (λ f, mkFilter (QField f) (queryFilterValue f)) (plannedFilters p).

Definition toRecordQuery (q : Query) : RecordQuery := NormalizeQuery (mkQuery (planRecordFilters (Plan q)) (QueryLimit q)).

(** The order of [sort.Slice] in [snapshotAudienceFilters]. *)
Definition compareFilters (a b : audienceFilter) : Z :=
  thenCompare (compareStr (afField a) (afField b)) (compareStr (afAudience a) (afAudience b)).

Definition snapshotAudienceFilters (p : AudiencePolicy) (ids : list string) : res gateway_error (list audienceFilter) :=
  let fields := dedupeAudiences (PFields p) in
  if MaxAudienceSnapshotReads <? Z.of_nat (length fields) * Z.of_nat (length ids) then Err ErrAudienceTooBroad
  else Ok (sortFunc compareFilters (concat (map (λ field, map (mkAF field) ids) fields))).

Abbreviation page := (Snapshot RecordMutation).

(** One pass of [newestPerRecord]: the newest mutation of each record, and the
    order the records were first seen in. *)
Definition seeMutation (st : gmap string RecordMutation * list string) (m : RecordMutation) :
    gmap string RecordMutation * list string :=
  match st.1 !! MRecordId m with
  | None => (<[MRecordId m := m]> st.1, st.2 ++ [MRecordId m])
  | Some existing => if MVer existing <? MVer m then (<[MRecordId m := m]> st.1, st.2) else st
  end.

Definition newestPerRecord (pages : list page) : list RecordMutation :=
  let '(byRecord, order) := foldl (λ st p, foldl seeMutation st (Mutations p)) (∅, []) pages in
  omap (λ id, byRecord !! id) order.

(** The running minimum of the resume tokens, [None] before the first page. *)
Definition mergeTokens (st : option (Z * Z) * bool) (p : page) : option (Z * Z) * bool :=
  (Some (match st.1 with
         | None => (SnEpoch p, SnWatermark p)
         | Some (e, w) => (if SnEpoch p <? e then SnEpoch p else e, if SnWatermark p <? w then SnWatermark p else w)
         end), st.2 || HasMore p).

Definition newerFirst (a b : RecordMutation) : Z := compareZ (MVer b) (MVer a).

Definition mergeSnapshotPages (pages : list page) (limit : Z) : page :=
  let '(tokens, more) := foldl mergeTokens (None, false) pages in
  let '(epoch, watermark) := default (0, 0) tokens in
  let ms := sortFunc newerFirst (newestPerRecord pages) in
  let cut := (0 <? limit) && (limit <? Z.of_nat (length ms)) in
  let ms := if cut then take (Z.to_nat limit) ms else ms in
  let more := more || cut in
  mkSnapshot ms epoch watermark
    (if more then match last ms with Some m => MVer m | None => 0 end else 0) more.

Definition filterScope (ms : list RecordMutation) (s : ProjectionScope) : list RecordMutation :=
  filter (λ m, MDomain m = ScopeDomain s ∧ MCollection m = ScopeCollection s ∧
               (MOrganizationId m = "" ∨ MOrganizationId m = TenantId s)) ms.

Definition filterAudience (ms : list RecordMutation) (p : AudiencePolicy) (ids : list string) : list RecordMutation :=
  filter (λ m, intersects (audiences p m) ids = true) ms.

Definition boundedLimit (maxLimit resolved requested : Z) : Z :=
  let resolved := if (0 <? requested) && ((resolved =? 0) || (requested <? resolved)) then requested else resolved in
  if (resolved <=? 0) || (maxLimit <? resolved) then maxLimit else resolved.

Record SnapshotRequest := mkRequest {
  RScope : ProjectionScope; RLimit : Z; RSince : string; RCursor : string; RIncludeVectors : bool
}.

Record ProjectionSnapshot := mkPSnapshot {
  PScope : ProjectionScope; PMutations : list RecordMutation; PWatermark : string; PEpoch : Z; PNextCursor : string; PHasMore : bool
}.

(** The store behind the gateway: reading a page, and warming a cold scope,
    which may fail. *)
Context {Store : Type}.
Context (snapshotPage : Store → string → Query → Z → Z → bool → res hermes_error page).
Context (warmScope : option (Store → ProjectionScope → Store * bool)).
Context (resolveScope : ProjectionScope → res gateway_error (string * Query)).

Definition snapshotReader (projection : string) (req : SnapshotRequest) (st : Store) (q : Query) : Store * res gateway_error page :=
  let read st := snapshotPage st projection q (ParseWatermark (RSince req)) (ParseWatermark (RCursor req)) (RIncludeVectors req) in
  match read st with
  | Ok p => (st, Ok p)
  | Err ErrProjectionNotFound =>
      match warmScope with
      | None => (st, Err (ErrStore ErrProjectionNotFound))
      | Some warm =>
          let '(st, warmed) := warm st (RScope req) in
          if warmed then (st, match read st with Ok p => Ok p | Err e => Err (ErrStore e) end)
          else (st, Err (ErrStore ErrProjectionNotFound))
      end
  | Err e => (st, Err (ErrStore e))
  end.

Fixpoint readPages (read : Store → Query → Store * res gateway_error page) (q : Query) (fs : list audienceFilter) (st : Store)
    (pages : list page) : Store * res gateway_error (list page) :=
  match fs with
  | [] => (st, Ok pages)
  | f :: rest =>
      let scoped := toRecordQuery q in
      let scoped := mkQuery (Filters scoped ++ [mkFilter (afField f) (StringValue (afAudience f))]) (QLimit scoped) in
      match read st (QueryFromRecordQuery (QOrganizationID q) scoped) with
      | (st, Err e) => (st, Err e)
      | (st, Ok p) => readPages read q rest st (pages ++ [p])
      end
  end.

Definition audienceSnapshot (p : AudiencePolicy) (q : Query) (ids : list string)
    (read : Store → Query → Store * res gateway_error page) (st : Store) : Store * res gateway_error page :=
  match snapshotAudienceFilters p ids with
  | Err e => (st, Err e)
  | Ok fs =>
      match readPages read q fs st [] with
      | (st, Err e) => (st, Err e)
      | (st, Ok pages) => (st, Ok (mergeSnapshotPages pages (QueryLimit q)))
      end
  end.

Definition SnapshotAudience (c : AudienceConfig) (maxLimit : Z) (st : Store) (req : SnapshotRequest) (ids : list string) :
    Store * res gateway_error ProjectionSnapshot :=
  match resolveScope (RScope req) with
  | Err e => (st, Err e)
  | Ok (projection, query) =>
      match resolvePolicy c (ScopeDomain (RScope req)) (ScopeCollection (RScope req)) with
      | Err e => (st, Err e)
      | Ok p =>
          let ids := dedupeAudiences ids in
          let perRecord := bool_decide (PMode p = AudiencePerRecord) in
          if perRecord && bool_decide (ids = []) then (st, Err ErrAudienceForbidden)
          else
            let query := mkQ (QOrganizationID query) (boundedLimit maxLimit (QueryLimit query) (RLimit req)) (Plan query) in
            let read := snapshotReader projection req in
            let '(st, answer) := if perRecord then audienceSnapshot p query ids read st else read st query in
            match answer with
            | Err e => (st, Err e)
            | Ok snapshot =>
                let ms := filterScope (Mutations snapshot) (RScope req) in
                let ms := if perRecord then filterAudience ms p ids else ms in
                (st, Ok (mkPSnapshot (RScope req) ms (FormatWatermark (SnWatermark snapshot)) (SnEpoch snapshot)
                           (FormatWatermark (NextCursor snapshot)) (HasMore snapshot)))
            end
      end
  end.

(** [Snapshot]: a caller without an identity. *)
Definition SnapshotAnonymous (c : AudienceConfig) (maxLimit : Z) (st : Store) (req : SnapshotRequest) :
    Store * res gateway_error ProjectionSnapshot :=
  SnapshotAudience c maxLimit st req [].

End Gateway.

Definition DomainResolver (limit : Z) (s : ProjectionScope) : res gateway_error (string * Query) :=
  if validateScope s then Ok (ScopeDomain s, QueryWithFilters (TenantId s) limit []) else Err ErrScopeInvalid.

Arguments AudiencePolicy double : clear implicits.
Arguments AudienceConfig double : clear implicits.

(** ** Topics determine scope and audience *)

Lemma contains_separator (sep : ascii) x y : Contains (x +:+ String sep y) (String sep "") = true.
Proof.
  apply not_false_iff_true. intros H. induction x as [|h x IH].
  - rewrite append_empty_l in H. by apply contains_char_cons in H as [? _].
  - rewrite append_cons in H. apply contains_char_cons in H as [_ H]. by apply IH.
Qed.

(** No component holds the separator. *)
Definition plainScope (s : ProjectionScope) : Prop :=
  hasColon (TenantId s) = false ∧ hasColon (ScopeDomain s) = false ∧ hasColon (ScopeCollection s) = false.

Lemma valid_plain s : validateScope s = true → plainScope s.
Proof.
  unfold validateScope, plainScope. destruct (_ || _); [done|].
  destruct (hasColon (TenantId s)), (hasColon (ScopeDomain s)), (hasColon (ScopeCollection s)); done.
Qed.

Lemma scope_key_split s s' x y : plainScope s → plainScope s' →
  TenantId s +:+ ":" +:+ ScopeDomain s +:+ ":" +:+ x = TenantId s' +:+ ":" +:+ ScopeDomain s' +:+ ":" +:+ y →
  TenantId s = TenantId s' ∧ ScopeDomain s = ScopeDomain s' ∧ x = y.
Proof.
  intros (H1 & H2 & _) (H1' & H2' & _) E. cbn in E.
  destruct (split_at_separator _ _ _ _ _ H1 H1' E) as [-> E2].
  destruct (split_at_separator _ _ _ _ _ H2 H2' E2) as [-> E3]. done.
Qed.

Lemma scope_key_inj s s' : plainScope s → plainScope s' → ScopeKey s = ScopeKey s' → s = s'.
Proof. intros H H' E. destruct (scope_key_split s s' _ _ H H' E) as (? & ? & ?). destruct s, s'. cbn in *. congruence. Qed.

Lemma audience_key_shape s a : AudienceScopeKey s a =
  TenantId s +:+ ":" +:+ ScopeDomain s +:+ ":" +:+ (ScopeCollection s +:+ String ":" (String "@" a)).
Proof. unfold AudienceScopeKey, ScopeKey. by rewrite !append_assoc. Qed.

Lemma audience_key_inj s s' a a' : plainScope s → plainScope s' → AudienceScopeKey s a = AudienceScopeKey s' a' → s = s' ∧ a = a'.
Proof.
  intros H H'. rewrite !audience_key_shape. intros E. destruct (scope_key_split s s' _ _ H H' E) as (? & ? & E').
  destruct (split_at_separator _ _ _ _ _ (proj2 (proj2 H)) (proj2 (proj2 H')) E') as [? [= ->]].
  destruct s, s'. cbn in *. split; congruence.
Qed.

Lemma plain_not_audience_key s s' a : plainScope s → plainScope s' → ScopeKey s ≠ AudienceScopeKey s' a.
Proof.
  intros H H'. rewrite audience_key_shape. intros E. destruct (scope_key_split s s' _ _ H H' E) as (_ & _ & E').
  pose proof (proj2 (proj2 H)) as Hc. rewrite E' in Hc. unfold hasColon in Hc. by rewrite contains_separator in Hc.
Qed.

Lemma scope_key_nonempty s x : ScopeKey s +:+ x ≠ "".
Proof. intros E%(f_equal String.length). unfold ScopeKey in E. rewrite !length_append in E. cbn [String.length] in E. lia. Qed.

(** ** Audiences *)

Lemma dedupe_audiences_loop ids : ∀ out,
  (NoDup out → NoDup (dedupeAudiencesLoop ids out)) ∧
  ∀ x, x ∈ dedupeAudiencesLoop ids out ↔ x ∈ out ∨ (x ≠ "" ∧ ∃ y, y ∈ ids ∧ x = TrimSpace y).
Proof.
  induction ids as [|id ids IH]; intros out; cbn [dedupeAudiencesLoop]; [set_solver|].
  destruct (String.eqb_spec (TrimSpace id) "") as [He|He]; cbn [orb].
  { destruct (IH out) as [H1 H2]. split; [done|]. intros x. rewrite H2. set_solver. }
  unfold containsString. case_bool_decide as Hin.
  { destruct (IH out) as [H1 H2]. split; [done|]. intros x. rewrite H2. set_solver. }
  destruct (IH (out ++ [TrimSpace id])) as [H1 H2]. split.
  - intros Hn. apply H1, NoDup_app. split_and!; [done|set_solver|apply NoDup_singleton].
  - intros x. rewrite H2. set_solver.
Qed.

Section Audiences.
Context {double : Type}.
Abbreviation RecordMutation := (RecordMutation double).

Lemma field_audiences_nodup (m : RecordMutation) fields : ∀ dst, NoDup dst → NoDup (fieldAudiences dst m fields).
Proof.
  induction fields as [|f fields IH]; intros dst Hn; cbn [fieldAudiences]; [done|].
  destruct (String.eqb_spec (stringField m f) ""); cbn [orb]; [by apply IH|].
  unfold containsString. case_bool_decide; apply IH; [done|]. apply NoDup_app. split_and!; [done|set_solver|apply NoDup_singleton].
Qed.

Lemma audiences_nodup p (m : RecordMutation) : NoDup (audiences p m).
Proof.
  unfold audiences, appendAudiences. destruct (PRecord p); [apply dedupe_audiences_loop, NoDup_nil_2|apply field_audiences_nodup, NoDup_nil_2].
Qed.

Lemma audience_keys_nodup s ids : NoDup ids → NoDup (audienceKeys s ids).
Proof.
  intros Hn. apply NoDup_fmap_2; [|done]. intros a b. unfold AudienceScopeKey. intros E%append_inj_l. by apply append_inj_l in E.
Qed.

Lemma topics_nodup c (m : RecordMutation) : NoDup (topicsOf c m).
Proof.
  unfold topicsOf. destruct (resolvePolicy _ _ _) as [p|]; [|apply NoDup_nil_2].
  destruct (negb _); [apply NoDup_singleton|]. apply audience_keys_nodup, audiences_nodup.
Qed.

(** ** Who sees a mutation *)

Definition visible (c : AudienceConfig double) (s : ProjectionScope) (ids : list string) (m : RecordMutation) : Prop :=
  scopeOfMutation m = s ∧
  match resolvePolicy c (ScopeDomain s) (ScopeCollection s) with
  | Err _ => False
  | Ok p => PMode p = AudiencePerRecord → intersects (audiences p m) (dedupeAudiences ids) = true
  end.

Lemma intersects_spec a b : intersects a b = true ↔ ∃ x, x ∈ a ∧ x ∈ b.
Proof.
  unfold intersects. rewrite existsb_exists. unfold containsString. split.
  - intros (x & Hx%list_elem_of_In & Hb%bool_decide_eq_true). eauto.
  - intros (x & Hx & Hb). exists x. rewrite bool_decide_eq_true. by rewrite <- list_elem_of_In.
Qed.

Lemma dedupe_keys_elem keys k : k ∈ dedupeKeys keys ↔ k ∈ keys ∧ k ≠ "".
Proof. unfold dedupeKeys. rewrite dedupe_loop_elem. set_solver. Qed.

Lemma subscribed_valid (c : AudienceConfig double) s ids keys : SubscribeAudience c s ids = Ok keys → plainScope s.
Proof. unfold SubscribeAudience. destruct (validateScope s) eqn:E; [|done]. intros _. by apply valid_plain. Qed.

(** The topics of a caller carry exactly the mutations it may see. *)
Lemma topics_visible c s ids keys m : SubscribeAudience c s ids = Ok keys → plainScope (scopeOfMutation m) →
  (∃ k, k ∈ topicsOf c m ∧ k ∈ dedupeKeys keys) ↔ visible c s ids m.
Proof.
  intros Hs Hm. pose proof (subscribed_valid _ _ _ _ Hs) as Hp. unfold SubscribeAudience in Hs.
  destruct (negb (validateScope s)); [done|]. setoid_rewrite dedupe_keys_elem. unfold visible, topicsOf.
  change (MDomain m) with (ScopeDomain (scopeOfMutation m)). change (MCollection m) with (ScopeCollection (scopeOfMutation m)).
  assert (∀ x, ScopeKey s +:+ x ≠ "") as Hne by apply scope_key_nonempty.
  destruct (resolvePolicy c (ScopeDomain s) (ScopeCollection s)) as [p|] eqn:Er; [|done]. case_bool_decide as Hmode; cbn [negb] in Hs.
  - destruct (bool_decide (dedupeAudiences ids = [])); [done|]. injection Hs as <-. split.
    + intros (k & Hk & (a & -> & Ha)%list_elem_of_fmap & _).
      destruct (resolvePolicy c (ScopeDomain (scopeOfMutation m)) _) as [q|] eqn:Eq; [|set_solver]. case_bool_decide; cbn [negb] in Hk.
      * apply list_elem_of_fmap in Hk as (b & E & Hb). apply audience_key_inj in E as [E ->]; [|done..]. split; [done|].
        intros _. rewrite E, Eq in Er. injection Er as ->. apply intersects_spec. by exists b.
      * apply list_elem_of_singleton in Hk. symmetry in Hk. by destruct (plain_not_audience_key _ _ _ Hm Hp Hk).
    + intros [E Hv]. specialize (Hv Hmode). apply intersects_spec in Hv as (a & Ha & Hi). rewrite E, Er. exists (AudienceScopeKey s a).
      rewrite bool_decide_true by done. cbn [negb]. split; [by apply list_elem_of_fmap; eauto|].
      split; [by apply list_elem_of_fmap; eauto|apply Hne].
  - injection Hs as <-. split.
    + intros (k & Hk & ->%list_elem_of_singleton & _). destruct (resolvePolicy c (ScopeDomain (scopeOfMutation m)) _) as [q|]; [|set_solver].
      case_bool_decide; cbn [negb] in Hk.
      * apply list_elem_of_fmap in Hk as (b & E & Hb). by destruct (plain_not_audience_key _ _ _ Hp Hm E).
      * apply list_elem_of_singleton, scope_key_inj in Hk; [|done..]. done.
    + intros [E _]. rewrite E, Er, bool_decide_false by done. cbn [negb]. exists (ScopeKey s).
      rewrite !list_elem_of_singleton. split_and!; [done|done|]. rewrite <- (append_nil_r (ScopeKey s)). apply Hne.
Qed.

End Audiences.

Section Groups.
Context {double : Type} (ParseFloat : string → option double).
Abbreviation RecordMutation := (RecordMutation double).
Abbreviation mutationOf := (λ a, mutationFromRecord ParseFloat (MRecord a) (MOperation a) (MVersion a) true).

(** ** Groups *)

Lemma add_topics (m : RecordMutation) keys : ∀ g k, NoDup keys →
  default [] (foldl (λ g key, addToGroup g key m) g keys !! k) = default [] (g !! k) ++ (if decide (k ∈ keys) then [m] else []).
Proof.
  induction keys as [|key keys IH]; intros g k Hn; cbn [foldl].
  { rewrite decide_False by set_solver. by rewrite app_nil_r. }
  apply NoDup_cons in Hn as [Hk Hn]. rewrite IH by done. unfold addToGroup. destruct (decide (k = key)) as [->|Hne].
  - rewrite lookup_insert_eq, decide_False, decide_True by set_solver. cbn [default]. by rewrite app_nil_r.
  - rewrite lookup_insert_ne by done. f_equal. do 2 destruct (decide _); set_solver.
Qed.

(** A group holds the mutations of the batch that its topic carries, in order. *)
Lemma group_spec c accepted k :
  default [] ((groupAccepted ParseFloat accepted c).1 !! k) = filter (λ m, k ∈ topicsOf c m) (map mutationOf accepted).
Proof.
  unfold groupAccepted. rewrite <- (app_nil_l (filter _ _)).
  change [] with (default [] ((@fst (gmap string (list RecordMutation)) Z (∅, 0)) !! k)) at 2. generalize (∅ : gmap string (list RecordMutation), 0).
  induction accepted as [|a accepted IH]; intros st; cbn [foldl map]; [by rewrite app_nil_r|].
  rewrite IH, filter_cons. unfold groupOne. set (m := mutationFromRecord _ _ _ _ _).
  destruct (topicsOf c m) as [|key keys] eqn:E; cbn [fst]; [by rewrite decide_False by set_solver|].
  rewrite add_topics by (rewrite <- E; apply topics_nodup). rewrite <- app_assoc. f_equal. by destruct (decide _).
Qed.

Lemma undeliverable_spec c accepted :
  (groupAccepted ParseFloat accepted c).2 = u64 (Z.of_nat (length (filter (λ m, topicsOf c m = []) (map mutationOf accepted)))).
Proof.
  unfold groupAccepted. rewrite <- (Z.add_0_l (Z.of_nat _)).
  assert (∀ st : gmap string (list RecordMutation) * Z, st.2 = u64 st.2 → (foldl (groupOne ParseFloat c) st accepted).2 =
    u64 (st.2 + Z.of_nat (length (filter (λ m, topicsOf c m = []) (map mutationOf accepted))))) as Hall; [|by apply Hall].
  induction accepted as [|a accepted IH]; intros st Hst; cbn [foldl map]; [by rewrite Z.add_0_r|]. rewrite filter_cons.
  unfold groupOne at 2. set (m := mutationFromRecord _ _ _ _ _). destruct (topicsOf c m) as [|key keys] eqn:E.
  - rewrite IH by (cbn; unfold u64; by rewrite Zmod_mod). rewrite decide_True by done. cbn [snd length]. unfold u64.
    rewrite Zplus_mod_idemp_l. f_equal. lia.
  - rewrite IH by done. by rewrite decide_False.
Qed.

End Groups.

(** ** Merging pages *)

Section Merge.
Context {double : Type}.
Abbreviation RecordMutation := (RecordMutation double).

(** Mutations of one list are told apart by their record. *)
Definition oneEach (l : list RecordMutation) : Prop := ∀ a b, a ∈ l → b ∈ l → MRecordId a = MRecordId b → a = b.

Record newest_inv (done : list RecordMutation) (st : gmap string RecordMutation * list string) : Prop := {
  ni_map : ∀ id m, st.1 !! id = Some m ↔ m ∈ done ∧ MRecordId m = id;
  ni_nodup : NoDup st.2;
  ni_order : ∀ id, id ∈ st.2 ↔ is_Some (st.1 !! id)
}.

Lemma see_mutation_inv done m st : oneEach (done ++ [m]) → newest_inv done st → newest_inv (done ++ [m]) (seeMutation st m).
Proof.
  intros Ho [H1 H2 H3]. unfold seeMutation. destruct (st.1 !! MRecordId m) as [x|] eqn:E.
  - apply H1 in E as [Hx Hid]. assert (x = m) as -> by (apply Ho; set_solver). rewrite (proj2 (Z.ltb_ge _ _)) by lia.
    split; [|done|done]. intros id y. rewrite H1. set_solver.
  - assert (MRecordId m ∉ st.2) as Hm by (rewrite H3, E; by intros [??]). split; cbn [fst snd].
    + intros id y. destruct (decide (id = MRecordId m)) as [->|Hne].
      * rewrite lookup_insert_eq. split; [intros [= ->]; set_solver|]. intros [Hy Hid]. f_equal. apply Ho; set_solver.
      * rewrite lookup_insert_ne, H1 by done. set_solver.
    + apply NoDup_app. split_and!; [done|set_solver|apply NoDup_singleton].
    + intros id. destruct (decide (id = MRecordId m)) as [->|Hne]; [rewrite lookup_insert_eq; set_solver|].
      rewrite lookup_insert_ne, <- H3 by done. set_solver.
Qed.

Lemma see_all_inv ms : ∀ done st, oneEach (done ++ ms) → newest_inv done st → newest_inv (done ++ ms) (foldl seeMutation st ms).
Proof.
  induction ms as [|m ms IH]; intros done st Ho Hi; cbn [foldl]; [by rewrite app_nil_r|].
  rewrite cons_middle, app_assoc in *. apply IH; [exact Ho|]. apply see_mutation_inv; [|done].
  intros a b Ha Hb. apply Ho; set_solver.
Qed.

Definition pageMutations (pages : list (Snapshot RecordMutation)) : list RecordMutation := concat (map Mutations pages).

Lemma newest_per_record pages : oneEach (pageMutations pages) →
  NoDup (newestPerRecord pages) ∧ ∀ m, m ∈ newestPerRecord pages ↔ m ∈ pageMutations pages.
Proof.
  intros Ho. unfold newestPerRecord.
  assert (∀ st, foldl (λ st p, foldl seeMutation st (Mutations p)) st pages = foldl seeMutation st (pageMutations pages)) as ->.
  { unfold pageMutations. induction pages as [|p pages IH]; intros st; [done|]. cbn [foldl map concat]. rewrite IH, foldl_app; [done|].
    intros a b Ha Hb. apply Ho; unfold pageMutations; cbn; set_solver. }
  destruct (see_all_inv (pageMutations pages) [] (∅, []) Ho) as [H1 H2 H3].
  { split; cbn; [intros id m; rewrite lookup_empty; set_solver|apply NoDup_nil_2|intros id; rewrite lookup_empty; split; [set_solver|by intros [??]]]. }
  destruct (foldl seeMutation _ _) as [byRecord order]. cbn [fst snd app] in *. split.
  - apply omap_nodup; [done|]. intros a b x Ha Hb. apply H1 in Ha as [_ <-], Hb as [_ <-]. done.
  - intros m. rewrite list_elem_of_omap. split.
    + intros (id & _ & [Hm _]%H1). done.
    + intros Hm. exists (MRecordId m). assert (byRecord !! MRecordId m = Some m) as E by by apply H1. split; [by apply H3|done].
Qed.

(** Newest first, one mutation per record. *)
Record newest_first (l : list RecordMutation) : Prop := {
  nf_sorted : StronglySorted (λ a b, MVer b < MVer a) l;
  nf_records : oneEach l
}.

Lemma sorted_nodup (l : list RecordMutation) : StronglySorted (λ a b, MVer b < MVer a) l → NoDup l.
Proof.
  induction 1 as [|x l _ IH Hx]; constructor; [|done]. rewrite Forall_forall in Hx. intros Hin. specialize (Hx x Hin). lia.
Qed.

#[local] Instance newerFirst_ok : CompareOk (@newerFirst double).
Proof. unfold newerFirst. apply (compare_rev (λ a b, compareZ (MVer a) (MVer b))), (compare_on MVer), _. Qed.

Lemma newer_le (a b : RecordMutation) : newerFirst a b ≤ 0 ↔ MVer b ≤ MVer a.
Proof. unfold newerFirst, compareZ. destruct (Z.compare_spec (MVer b) (MVer a)); cbn; lia. Qed.

Lemma newest_not_after (k : list RecordMutation) : StronglySorted (λ a b, MVer b < MVer a) k → StronglySorted (notAfter newerFirst) k.
Proof.
  induction 1 as [|x k _ IH Hx]; constructor; [done|]. eapply Forall_impl; [exact Hx|]. intros y Hy. unfold notAfter. rewrite newer_le. cbn in Hy. lia.
Qed.

Lemma sort_newest (l k : list RecordMutation) : StronglySorted (λ a b, MVer b < MVer a) k → k ≡ₚ l → sortFunc newerFirst l = k.
Proof.
  intros Hk Hp. apply sort_unique; [apply _| |by apply newest_not_after|done].
  intros a b Ha Hb. rewrite !newer_le. rewrite <- Hp in Ha, Hb. apply list_elem_of_lookup in Ha as [i Hi], Hb as [j Hj]. intros H1 H2.
  destruct (Nat.lt_trichotomy i j) as [Hl|[->|Hl]]; [|by simplify_eq|].
  - pose proof (sorted_lookup _ _ _ _ _ _ Hk Hi Hj Hl). cbn in *. lia.
  - pose proof (sorted_lookup _ _ _ _ _ _ Hk Hj Hi Hl). cbn in *. lia.
Qed.

Lemma take_filter_first {A} (P : A → Prop) `{!∀ x, Decision (P x)} (l : list A) n x :
  x ∈ take n l → P x → x ∈ take n (filter P l).
Proof.
  intros Hx HP. rewrite <- (take_drop n l), filter_app, take_app_ge.
  - apply elem_of_app. left. by apply list_elem_of_filter.
  - pose proof (length_filter P (take n l)). rewrite length_take in *. lia.
Qed.

Lemma filter_keeps_first {A} (P : A → Prop) `{!∀ x, Decision (P x)} (l : list A) n :
  (∀ x, x ∈ take n l → P x) → take n (filter P l) = take n l.
Proof.
  intros Hp. destruct (Nat.le_gt_cases n (length l)) as [Hn|Hn].
  - rewrite <- (take_drop n l) at 1. rewrite filter_app, (filter_all P (take n l)) by done.
    apply take_app_length'. rewrite length_take. lia.
  - rewrite (take_ge l) in * by lia. rewrite filter_all by done. apply take_ge. lia.
Qed.

Context (all : list RecordMutation) (n : nat).

(** The page of one filter: its newest matches, cut at the limit. *)
Definition page_of (P : RecordMutation → bool) (p : Snapshot RecordMutation) : Prop :=
  Mutations p = take n (filter (λ m, P m = true) all) ∧
  HasMore p = bool_decide (n < length (filter (λ m, P m = true) all))%nat.

Definition anyOf (Ps : list (RecordMutation → bool)) (m : RecordMutation) : bool := existsb (λ P, P m) Ps.
Abbreviation matches Ps := (filter (λ m, anyOf Ps m = true) all).

Lemma any_of_in Ps P m : P ∈ Ps → P m = true → anyOf Ps m = true.
Proof. intros HP Hm. apply existsb_exists. exists P. split; [by apply list_elem_of_In|done]. Qed.

Lemma pages_elem Ps pages m : Forall2 page_of Ps pages → m ∈ pageMutations pages ↔
  ∃ P, P ∈ Ps ∧ m ∈ take n (filter (λ m, P m = true) all).
Proof.
  unfold pageMutations. induction 1 as [|P p Ps pages [HP _] _ IH]; cbn [map concat]; [set_solver|].
  rewrite elem_of_app, IH, HP. set_solver.
Qed.

Lemma pages_sub Ps pages m : Forall2 page_of Ps pages → m ∈ pageMutations pages → m ∈ matches Ps.
Proof.
  intros Hp. rewrite (pages_elem Ps) by done. intros (P & HP & Hm). apply elem_of_take in Hm as (i & Hm & _).
  apply list_elem_of_lookup_2, list_elem_of_filter in Hm as [Hm Hin]. apply list_elem_of_filter. split; [by eapply any_of_in|done].
Qed.

(** The pages hold the newest matches of any filter. *)
Lemma pages_hold_newest Ps pages m : Forall2 page_of Ps pages → m ∈ take n (matches Ps) → m ∈ pageMutations pages.
Proof.
  intros Hp Hm. assert (anyOf Ps m = true) as Ha.
  { apply elem_of_take in Hm as (i & Hm & _). by apply list_elem_of_lookup_2, list_elem_of_filter in Hm as [? _]. }
  apply existsb_exists in Ha as (P & HP%list_elem_of_In & Hpm). rewrite (pages_elem Ps) by done. exists P. split; [done|].
  eassert (filter (λ m, P m = true) all = filter (λ m, P m = true) (matches Ps)) as ->; [|by apply take_filter_first].
  rewrite list_filter_filter. apply list_filter_iff. intros x. split; [|tauto]. intros Hx. split; [done|by eapply any_of_in].
Qed.

Definition recordsOf (l : list RecordMutation) : list string := map MRecordId l.

(** The merged records, newest first. *)
Lemma merged_sorted Ps pages : newest_first all → Forall2 page_of Ps pages →
  sortFunc newerFirst (newestPerRecord pages) = filter (λ m, MRecordId m ∈ recordsOf (pageMutations pages)) (matches Ps).
Proof.
  intros [Hs Ho] Hp. assert (oneEach (pageMutations pages)) as Hone.
  { intros a b Ha%(pages_sub Ps) Hb%(pages_sub Ps); [|done..]. apply list_elem_of_filter in Ha as [_ ?], Hb as [_ ?]. by apply Ho. }
  destruct (newest_per_record pages Hone) as [Hn He]. apply sort_newest.
  { eapply sorted_sublist; [|exact Hs]. etrans; apply sublist_filter. }
  apply NoDup_Permutation; [apply NoDup_filter, NoDup_filter; by apply sorted_nodup|done|]. intros m. rewrite He, !list_elem_of_filter. split.
  - intros ((m' & Hid & Hm')%list_elem_of_fmap & _ & Hm). pose proof (pages_sub Ps pages m' Hp Hm') as Hin.
    apply list_elem_of_filter in Hin as [_ Hin]. by rewrite (Ho m m' Hm Hin Hid).
  - intros Hm. pose proof (pages_sub Ps pages m Hp Hm) as Hin%list_elem_of_filter. split; [|done]. apply list_elem_of_fmap. eauto.
Qed.

Lemma tokens_more (pages : list (Snapshot RecordMutation)) : ∀ st, (foldl mergeTokens st pages).2 = st.2 || existsb HasMore pages.
Proof.
  induction pages as [|p pages IH]; intros st; cbn [foldl existsb]; [by rewrite orb_false_r|]. rewrite IH. cbn [mergeTokens snd].
  by rewrite orb_assoc.
Qed.

(** More matches remain exactly when a page was cut or the union is. *)
Lemma more_exact Ps pages : Forall2 page_of Ps pages →
  existsb HasMore pages || bool_decide (n < length (filter (λ m, MRecordId m ∈ recordsOf (pageMutations pages)) (matches Ps)))%nat =
  bool_decide (n < length (matches Ps))%nat.
Proof.
  intros Hp. set (U := filter (λ m, MRecordId m ∈ recordsOf (pageMutations pages)) (matches Ps)). apply eq_bool_prop_intro.
  rewrite orb_True, !Is_true_true, !bool_decide_eq_true, existsb_exists. split.
  - intros [(p & (i & Hi)%list_elem_of_In%list_elem_of_lookup & Hm)|Hu].
    + destruct (Forall2_lookup_r _ _ _ _ _ Hp Hi) as (P & HP & [_ Hh]). rewrite Hm in Hh. symmetry in Hh. apply bool_decide_eq_true in Hh.
      eapply Nat.lt_le_trans; [exact Hh|]. apply sublist_length. rewrite (list_filter_iff _ (λ m, P m = true ∧ anyOf Ps m = true)).
      * rewrite <- list_filter_filter. apply sublist_filter.
      * intros x. split; [|tauto]. intros Hx. split; [done|]. eapply any_of_in; [by eapply list_elem_of_lookup_2|done].
    + pose proof (length_filter (λ m, MRecordId m ∈ recordsOf (pageMutations pages)) (matches Ps)). fold U in H. lia.
  - intros Hlt. destruct (decide (n < length U)%nat) as [|Hu]; [by right|]. left.
    assert (¬ Forall (λ x, MRecordId x ∈ recordsOf (pageMutations pages)) (matches Ps)) as Hex.
    { rewrite Forall_forall. intros Hin. apply Hu. unfold U. by rewrite filter_all. }
    apply not_Forall_Exists in Hex; [|intros x; apply _]. apply Exists_exists in Hex as (x & [Hx Hin]%list_elem_of_filter & Hnot).
    apply existsb_exists in Hx as (P & (i & HP)%list_elem_of_In%list_elem_of_lookup & Hpx).
    destruct (Forall2_lookup_l _ _ _ _ _ Hp HP) as (p & Hi & [_ Hh]). exists p. split; [by eapply list_elem_of_In, list_elem_of_lookup_2|].
    rewrite Hh, bool_decide_eq_true. apply Nat.nle_gt. intros Hle. apply Hnot, list_elem_of_fmap. exists x. split; [done|].
    rewrite (pages_elem Ps) by done. exists P. split; [by eapply list_elem_of_lookup_2|]. rewrite take_ge by done. by apply list_elem_of_filter.
Qed.

End Merge.

(** ** Frames and answers *)

Section Feeds.
Context {double : Type} (ParseFloat : string → option double).
Abbreviation RecordMutation := (RecordMutation double).

(** What reaches the hub: topics from accepted callers, broadcasts from accepted
    batches whose records keep the separator out of their scope. *)
Definition plainAccepted (a : AppliedMutation) : Prop :=
  plainScope (mkPScope (OrganizationID (MRecord a)) (Domain (MRecord a)) (Collection (MRecord a))).

(** The topics partition a batch exactly. Of an accepted batch whose
    records keep the separator out of their scope, the groups under a caller's
    topics hold precisely the mutations that caller may see, each group in the
    order of the batch; a mutation that no group holds is one of those counted
    as undeliverable. *)
Theorem deltas_reach_exactly_the_audience c accepted scope ids keys :
  Forall plainAccepted accepted → SubscribeAudience c scope ids = Ok keys →
  let groups := (groupAccepted ParseFloat accepted c).1 in
  let batch := map (λ a, mutationFromRecord ParseFloat (MRecord a) (MOperation a) (MVersion a) true) accepted in
  (∀ k, default [] (groups !! k) `sublist_of` batch) ∧
  (∀ m, m ∈ batch → (∃ k, k ∈ dedupeKeys keys ∧ m ∈ default [] (groups !! k)) ↔ visible c scope ids m) ∧
  (groupAccepted ParseFloat accepted c).2 = u64 (Z.of_nat (length (filter (λ m, topicsOf c m = []) batch))).
Proof.
  intros Hp Hs groups batch. split_and!.
  - intros k. unfold groups. rewrite group_spec. apply sublist_filter.
  - intros m Hm. rewrite <- (topics_visible c scope ids keys m Hs).
    + unfold groups. setoid_rewrite group_spec. setoid_rewrite list_elem_of_filter. fold batch. naive_solver.
    + apply list_elem_of_fmap in Hm as (a & -> & Ha). rewrite Forall_forall in Hp. by apply Hp.
  - apply undeliverable_spec.
Qed.

Context (encode : list RecordMutation → option string).

Definition gatewayClient (c : AudienceConfig double) (keys : list string) (v : bool) : Prop :=
  ∃ s ids, SubscribeAudience c s ids = Ok keys.

Definition plainGatewaySource (c : AudienceConfig double) (k : string) (f : Frame) : Prop :=
  ∃ demand epoch accepted, Forall plainAccepted accepted ∧ (k, f) ∈ (onApplied ParseFloat encode c demand epoch accepted).1.

Lemma frame_of_group demand epoch k ms kf s : frameOfGroup encode demand epoch (k, ms) = Some kf →
  kf.1 = k ∧ (Some (Envelope (variantFor s kf.2)) = encode ms ∨ Some (Envelope (variantFor s kf.2)) = encode (withoutVectors ms)).
Proof.
  unfold frameOfGroup, encodeFrameVariants. cbn [fst snd]. destruct (demand k) as [[|wv] [|wo]]; cbn [Nat.eqb Nat.ltb Nat.leb andb]; [done|..].
  - destruct (encode (withoutVectors ms)) as [bare|]; [|done]. intros [= <-]. split; [done|]. right. unfold variantFor.
    by destruct (negb _ && negb _).
  - destruct (encode ms) as [full|]; [|done]. intros [= <-]. split; [done|]. left. unfold variantFor. cbn. by rewrite andb_false_r.
  - destruct (encode ms) as [full|]; [|done]. destruct (encode (withoutVectors ms)) as [bare|]; [|done]. intros [= <-]. split; [done|].
    unfold variantFor. destruct (negb _ && negb _); [by right|by left].
Qed.

Lemma source_group c k f s : plainGatewaySource c k f → ∃ ms,
  (∀ m, m ∈ ms → plainScope (scopeOfMutation m) ∧ k ∈ topicsOf c m) ∧
  (Some (Envelope (variantFor s f)) = encode ms ∨ Some (Envelope (variantFor s f)) = encode (withoutVectors ms)).
Proof.
  intros (demand & epoch & accepted & Hp & Hin). unfold onApplied in Hin. pose proof (group_spec ParseFloat c accepted) as Hg.
  destruct (groupAccepted ParseFloat accepted c) as [groups und]. cbn [fst] in *.
  apply list_elem_of_omap in Hin as ([k' ms] & Hm%elem_of_map_to_list & Hf). apply (frame_of_group _ _ _ _ _ s) in Hf as [E Hf].
  cbn [fst] in E. subst k'. specialize (Hg k). rewrite Hm in Hg. unfold default, id in Hg. exists ms. split; [|done].
  intros m Hm'. rewrite Hg in Hm'. apply list_elem_of_filter in Hm' as [Hk (a & -> & Ha)%list_elem_of_fmap]. split; [|done].
  rewrite Forall_forall in Hp. by apply Hp.
Qed.

(** ** Properties *)

(** C15: A live feed respects the audience, for records whose domain, collection and
    organization hold no colon. Whatever callers subscribe through the gateway, whatever
    batches of such records are accepted and however broadcasts interleave, every frame
    that reaches a subscriber encodes mutations of the very scope (tenant, domain and
    collection) it subscribed to, and, where the scope is addressed per record, only
    mutations that name one of its own audiences. (A record whose scope holds a colon
    can forge a topic, see [record_scope_forges_topic].) *)
Theorem live_feed_respects_audience c size w id sub a scope ids keys f :
  Hub.reachable (gatewayClient c) (plainGatewaySource c) size w →
  heap w !! id = Some sub → accounts w !! id = Some a →
  SubscribeAudience c scope ids = Ok keys → topics a = dedupeKeys keys → f ∈ got a ++ frames sub →
  ∃ ms, Forall (visible c scope ids) ms ∧ (Some (Envelope f) = encode ms ∨ Some (Envelope f) = encode (withoutVectors ms)).
Proof.
  intros Hr%reachable_hub_ok Es Ea Hsub Ht Hf. destruct (ho_subs _ _ _ _ Hr id sub a Es Ea) as [_ Hst _ _ _ Hto _].
  eapply elem_of_submseteq in Hf; [|by apply sublist_submseteq]. apply list_elem_of_fmap in Hf as ([k g] & -> & Hin).
  destruct (Hto k g Hin) as [Hk Hsrc]. destruct (source_group c k g sub Hsrc) as (ms & Hms & He). exists ms. split; [|exact He].
  apply Forall_forall. intros m Hm. destruct (Hms m Hm) as [Hp Htop]. apply (topics_visible c scope ids keys m Hsub Hp).
  exists k. by rewrite <- Ht.
Qed.

End Feeds.

(** ** Merged pages *)

Section MergedPage.
Context {double : Type}.
Abbreviation RecordMutation := (RecordMutation double).

Lemma merge_tokens_min (pages : list (Snapshot RecordMutation)) : ∀ e w more,
  ∃ e' w', (foldl mergeTokens (Some (e, w), more) pages).1 = Some (e', w') ∧ e' ≤ e ∧ w' ≤ w ∧
    ∀ p, p ∈ pages → e' ≤ SnEpoch p ∧ w' ≤ SnWatermark p.
Proof.
  induction pages as [|p pages IH]; intros e w more; cbn [foldl].
  { exists e, w. split_and!; [done|lia|lia|]. by intros p ?%elem_of_nil. }
  destruct (IH (if SnEpoch p <? e then SnEpoch p else e) (if SnWatermark p <? w then SnWatermark p else w)
    (more || HasMore p)) as (e' & w' & E & He & Hw & Hp).
  exists e', w'. split; [exact E|]. destruct (Z.ltb_spec (SnEpoch p) e), (Z.ltb_spec (SnWatermark p) w); (split_and!; [lia|lia|]);
    intros q [->|Hq]%elem_of_cons; (lia || by apply Hp).
Qed.

Lemma tokens_min (pages : list (Snapshot RecordMutation)) e w :
  default (0, 0) (foldl mergeTokens (None, false) pages).1 = (e, w) → ∀ p, p ∈ pages → e ≤ SnEpoch p ∧ w ≤ SnWatermark p.
Proof.
  destruct pages as [|p pages]; [by intros _ p ?%elem_of_nil|]. destruct (merge_tokens_min pages (SnEpoch p) (SnWatermark p) (false || HasMore p))
    as (e' & w' & E & He & Hw & Hp). intros Hd. change (default (0, 0) (foldl mergeTokens (Some (SnEpoch p, SnWatermark p), false || HasMore p) pages).1 = (e, w)) in Hd.
  rewrite E in Hd. injection Hd as <- <-. intros q [->|Hq]%elem_of_cons; [lia|by apply Hp].
Qed.

Lemma merge_length (pages : list (Snapshot RecordMutation)) limit : 0 < limit →
  Z.of_nat (length (Mutations (mergeSnapshotPages pages limit))) ≤ limit.
Proof.
  intros Hl. unfold mergeSnapshotPages. destruct (foldl mergeTokens _ _) as [tokens more]. destruct (default _ tokens) as [e w]. cbn [Mutations].
  rewrite (proj2 (Z.ltb_lt _ _) Hl). cbn [andb]. destruct (Z.ltb_spec limit (Z.of_nat (length (sortFunc newerFirst (newestPerRecord pages)))));
    [rewrite length_take|]; lia.
Qed.

(** The audience read is one page. When the pages read for the pairs of
    field and audience each hold the newest matches of their filter, cut at the
    limit, the merged page holds the newest records that match any pair, newest
    first, each once, cut at the same limit; it announces more exactly when more
    matches remain, its cursor is the oldest version it carries, and its resume
    tokens claim no more progress than any of the reads. *)
Theorem merged_page_is_newest (all : list RecordMutation) (limit : Z) Ps pages :
  newest_first all → 0 < limit → Forall2 (page_of all (Z.to_nat limit)) Ps pages →
  let found := filter (λ m, anyOf Ps m = true) all in
  let r := mergeSnapshotPages pages limit in
  Mutations r = take (Z.to_nat limit) found ∧
  HasMore r = bool_decide (Z.to_nat limit < length found)%nat ∧
  NextCursor r = (if HasMore r then match last (Mutations r) with Some m => MVer m | None => 0 end else 0) ∧
  ∀ p, p ∈ pages → SnEpoch r ≤ SnEpoch p ∧ SnWatermark r ≤ SnWatermark p.
Proof.
  intros Hall Hl Hp found r. pose proof (merged_sorted all _ Ps pages Hall Hp) as Hm. pose proof (more_exact all _ Ps pages Hp) as He.
  pose proof (tokens_more pages (None, false)) as Ht. pose proof (tokens_min pages) as Hmin.
  unfold r, mergeSnapshotPages. destruct (foldl mergeTokens (None, false) pages) as [tokens more]. cbn [fst snd orb] in *.
  destruct (default (0, 0) tokens) as [e w]. specialize (Hmin e w eq_refl). fold found in Hm, He. rewrite Hm.
  set (U := filter (λ m, MRecordId m ∈ recordsOf (pageMutations pages)) found) in *.
  assert ((0 <? limit) && (limit <? Z.of_nat (length U)) = bool_decide (Z.to_nat limit < length U)%nat) as ->.
  { rewrite (proj2 (Z.ltb_lt _ _) Hl). cbn [andb]. case_bool_decide; [apply Z.ltb_lt|apply Z.ltb_ge]; lia. }
  assert ((if bool_decide (Z.to_nat limit < length U)%nat then take (Z.to_nat limit) U else U) = take (Z.to_nat limit) found) as ->.
  { trans (take (Z.to_nat limit) U); [case_bool_decide; [done|by rewrite take_ge by lia]|]. apply filter_keeps_first.
    intros x Hx. apply list_elem_of_fmap. exists x. split; [done|]. by eapply (pages_hold_newest all). }
  cbn [Mutations HasMore NextCursor SnEpoch SnWatermark]. rewrite Ht, He. split_and!; [done|done|done|exact Hmin].
Qed.

End MergedPage.

(** ** Answers *)

Section Answers.
Context {double : Type} (floatText : string → option string) {Store : Type}.
Context (snapshotPage : Store → string → Query → Z → Z → bool → res hermes_error (Snapshot (RecordMutation double))).
Context (warmScope : option (Store → ProjectionScope → Store * bool)).
Context (resolveScope : ProjectionScope → res gateway_error (string * Query)).
Abbreviation RecordMutation := (RecordMutation double).

(** What a snapshot may show a caller; a record without an organization is
    shared by all tenants. *)
Definition readable (c : AudienceConfig double) (s : ProjectionScope) (ids : list string) (m : RecordMutation) : Prop :=
  MDomain m = ScopeDomain s ∧ MCollection m = ScopeCollection s ∧ (MOrganizationId m = "" ∨ MOrganizationId m = TenantId s) ∧
  ∃ p, resolvePolicy c (ScopeDomain s) (ScopeCollection s) = Ok p ∧
    (PMode p = AudiencePerRecord → ∃ id, id ∈ audiences p m ∧ id ∈ dedupeAudiences ids).

Lemma bounded_limit maxLimit resolved requested : 0 < maxLimit → 0 < boundedLimit maxLimit resolved requested ≤ maxLimit.
Proof.
  intros Hm. unfold boundedLimit. set (r := if _ : bool then requested else resolved).
  destruct (Z.leb_spec r 0), (Z.ltb_spec maxLimit r); cbn [orb]; lia.
Qed.

Lemma audience_snapshot_length (p : AudiencePolicy double) q ids
    (read : Store → Query → Store * res gateway_error (Snapshot RecordMutation)) (st st' : Store) (r : Snapshot RecordMutation) : 0 < QueryLimit q →
  audienceSnapshot floatText p q ids read st = (st', Ok r) → Z.of_nat (length (Mutations r)) ≤ QueryLimit q.
Proof.
  intros Hq. unfold audienceSnapshot. destruct (snapshotAudienceFilters p ids); [|done].
  destruct (readPages _ _ _ _ _ _) as [st1 [pages|]]; [|done]. intros [= _ <-]. by apply merge_length.
Qed.


End Answers.

(** ** Witnesses *)

Definition noFloat (s : string) : option unit := None.
Definition demoEncode (ms : list (RecordMutation unit)) : option string := Some (String.concat "," (map MRecordId ms)).

Definition ordersConfig : AudienceConfig unit :=
  mkConfig {["shop/orders" := mkPolicy AudiencePerRecord ["owner"] None]} false.
Definition ordersScope : ProjectionScope := mkPScope "t1" "shop" "orders".

Definition orderRecord (id owner : string) : DomainRecord :=
  mkRecord "shop" "orders" "t1" id [mkField "owner" (StringValue owner)] [] 1 1.
Definition orderBatch : list AppliedMutation :=
  [mkMutation OperationUpsert (orderRecord "o1" "ann") 1; mkMutation OperationUpsert (orderRecord "o2" "bob") 2;
   mkMutation OperationDelete (mkRecord "shop" "orders" "t1" "o3" [] [] 1 1) 3].
Definition orderMutation (id owner : string) (v : Z) : RecordMutation unit :=
  mutationFromRecord noFloat (orderRecord id owner) OperationUpsert v true.

Definition annFrames : list (string * Frame) := (onApplied noFloat demoEncode ordersConfig (λ _, (1%nat, 0%nat)) 7 orderBatch).1.
Definition annKey : string := "t1:shop:orders:@ann".
Definition annFrame : Frame := mkFrame "o1" "" "1" 7.

Definition annWorld : world :=
  mkWorld (register (NewHub 4) [annKey] 0) {[0%nat := mkSubscriber [annFrame] 0 false true true]} [(annKey, annFrame, ∅)] ∅
    {[0%nat := mkAccount [annKey] [(annKey, annFrame)] [] 1 0]} false.

Lemma ann_source : plainGatewaySource noFloat demoEncode ordersConfig annKey annFrame.
Proof.
  exists (λ _, (1%nat, 0%nat)), 7, orderBatch. split; [repeat constructor|].
  change ((annKey, annFrame) ∈ annFrames). apply list_elem_of_In. vm_compute. tauto.
Qed.

Lemma ann_reachable : Hub.reachable (gatewayClient ordersConfig) (plainGatewaySource noFloat demoEncode ordersConfig) 4 annWorld.
Proof.
  eassert (Hub.reachable (gatewayClient ordersConfig) (plainGatewaySource noFloat demoEncode ordersConfig) 4 _) as R1.
  { eapply reach_step; [apply reach_start|]. eapply (subscribe_step _ _ _ [annKey] true 0); [|done|done].
    exists ordersScope, ["ann"]. by vm_compute. }
  pose proof (reach_step _ _ _ _ _ R1 (begin_step _ _ _ annKey annFrame ann_source)) as R2.
  eassert (Hub.reachable (gatewayClient ordersConfig) (plainGatewaySource noFloat demoEncode ordersConfig) 4 _) as R3.
  { eapply reach_step; [exact R2|]. by eapply (deliver_step _ _ _ [] annKey annFrame _ [] 0). }
  exact R3.
Qed.

Lemma live_feed_respects_audience_witness :
  ∃ ms, Forall (visible ordersConfig ordersScope ["ann"]) ms ∧
    (Some "o1" = demoEncode ms ∨ Some "o1" = demoEncode (withoutVectors ms)).
Proof.
  refine (live_feed_respects_audience noFloat demoEncode ordersConfig 4 annWorld 0 _ _ ordersScope ["ann"] [annKey] annFrame
    ann_reachable eq_refl eq_refl _ _ _); [by vm_compute|by vm_compute|]. apply list_elem_of_singleton. reflexivity.
Defined.

Lemma deltas_reach_exactly_the_audience_witness :
  let groups := (groupAccepted noFloat orderBatch ordersConfig).1 in
  (∃ k, k ∈ dedupeKeys [annKey] ∧ orderMutation "o1" "ann" 1 ∈ default [] (groups !! k)) ∧
  ¬ visible ordersConfig ordersScope ["ann"] (orderMutation "o2" "bob" 2) ∧
  (groupAccepted noFloat orderBatch ordersConfig).2 = 1.
Proof.
  destruct (deltas_reach_exactly_the_audience noFloat ordersConfig orderBatch ordersScope ["ann"] [annKey]) as (_ & Hv & Hu).
  { repeat constructor. }
  { vm_compute. reflexivity. }
  split; [|split; [|rewrite Hu; vm_compute; reflexivity]].
  - apply Hv; [apply list_elem_of_In; cbn; tauto|]. split; [reflexivity|]. vm_compute. done.
  - intros [_ Hn]. vm_compute in Hn. by specialize (Hn eq_refl).
Defined.

Definition ordersAll : list (RecordMutation unit) := [orderMutation "o2" "bob" 2; orderMutation "o1" "ann" 1].
Definition byOwner (owner : string) (m : RecordMutation unit) : bool := String.eqb (stringField m "owner") owner.
Definition ownerPage (owner : string) (v : Z) : Snapshot (RecordMutation unit) :=
  mkSnapshot (filter (λ m, byOwner owner m = true) ordersAll) 7 v 0 false.

Lemma merged_page_is_newest_witness :
  Mutations (mergeSnapshotPages [ownerPage "ann" 2; ownerPage "bob" 3] 1) = [orderMutation "o2" "bob" 2] ∧
  HasMore (mergeSnapshotPages [ownerPage "ann" 2; ownerPage "bob" 3] 1) = true.
Proof.
  destruct (merged_page_is_newest ordersAll 1 [byOwner "ann"; byOwner "bob"] [ownerPage "ann" 2; ownerPage "bob" 3]) as (Hm & Hh & _).
  - split; [repeat constructor; cbn; lia|]. intros a b Ha Hb. unfold ordersAll in *. set_solver.
  - lia.
  - repeat constructor.
  - split; [rewrite Hm; reflexivity|rewrite Hh; reflexivity].
Defined.

(** A store that answers every read with all orders. *)
Definition careless (st : unit) (projection : string) (q : Query) (since before : Z) (v : bool) :
    res hermes_error (Snapshot (RecordMutation unit)) := Ok (mkSnapshot ordersAll 7 2 0 false).


(** ** Findings *)

(** Subscribing validates the scope of the caller, but the scope of a record is
    not validated when its topic is built: a record of another tenant whose
    organization holds the separator reaches an audience of this one. *)
Theorem record_scope_forges_topic :
  let foreign := mkMutation OperationUpsert (mkRecord "orders" "@ann" "t1:shop" "x" [] [] 1 1) 1 in
  SubscribeAudience ordersConfig ordersScope ["ann"] = Ok [annKey] ∧
  ∃ m, (groupAccepted noFloat [foreign] ordersConfig).1 !! annKey = Some [m] ∧ MOrganizationId m = "t1:shop".
Proof. cbv zeta. split; [vm_compute; reflexivity|]. eexists. split; vm_compute; reflexivity. Qed.

(** The delta path trims the audience a record names, the snapshot filters on
    the stored text: a padded owner is delivered live and missing from the
    caller's snapshot. *)
Theorem padded_audience_missing_from_snapshot :
  topicsOf ordersConfig (orderMutation "o4" " ann" 4) = [annKey] ∧
  filterMatches (Data (orderRecord "o4" " ann")) (mkQF "owner" "s" "ann") = false.
Proof. split; vm_compute; reflexivity. Qed.

(** The demand for vectors is counted before the frame is encoded and the topic
    is read again when it is broadcast: a subscriber that wants vectors and joins
    in between is handed a frame without them, with nothing dropped. *)
Theorem late_vector_subscriber_gets_no_vector :
  let vectored := mkMutation OperationUpsert (mkRecord "shop" "carts" "t1" "c1" [] [1; 2] 1 1) 1 in
  let enc ms := Some (if bool_decide (String.concat "" (map MRecordId ms) = "") then "" else
                      if bool_decide (Forall (λ m : RecordMutation unit, MVector m = []) ms) then "bare" else "full") in
  let frames := (onApplied noFloat enc ordersConfig (λ _, (0%nat, 1%nat)) 7 [vectored]).1 in
  ∃ f, frames = [("t1:shop:carts", f)] ∧ Envelope (variantFor (newSubscriber true) f) = "bare".
Proof. cbv zeta. eexists. split; vm_compute; reflexivity. Qed.
