(* ===== verification/SnapshotCache.v ===== *)
(** * SnapshotCache: assembled snapshot responses (src/server-kit/go/projectiongw/snapshot_cache.go, snapshot_serve.go)

    A byte-bounded, least-recently-used cache of encoded snapshot bodies, each
    valid at one epoch of its projection, keyed by scope, vector mode, limit and a
    digest of the caller's audiences. The sum behind the digest (SHA-256), reading a
    page and encoding it are parameters; a nil cache is [None]. *)

From Stdlib Require Import ZArith Lia Ascii String.
From stdpp Require Import base strings gmap fin_maps fin_sets numbers countable sorting list.
From S2P Require Import Prelude GoStrings HermesKeys Bitmap BitmapIndex Partition Reads Gateway.

Open Scope string_scope.
Open Scope list_scope.
Open Scope Z_scope.

Record snapshotCacheKey := mkKey { kscope : string; excludeVectors : bool; klimit : Z; kaudience : string }.

#[global] Instance key_eq_dec : EqDecision snapshotCacheKey.
Proof. solve_decision. Defined.
#[global] Instance key_countable : Countable snapshotCacheKey.
Proof. apply (inj_countable' (λ k, (kscope k, excludeVectors k, klimit k, kaudience k)) (λ '(s, v, l, a), mkKey s v l a)). by intros []. Defined.

Record snapshotCacheEntry := mkEntry { eepoch : Z; ewatermark : string; erecords : Z; body : string; lastUsed : Z }.

Record snapshotCache := mkCache {
  maxBytes : Z; entries : gmap snapshotCacheKey snapshotCacheEntry; bytes : Z; clock : Z;
  hits : Z; misses : Z; stale : Z; evictions : Z
}.

Definition newSnapshotCache (max : Z) : option snapshotCache := if max <=? 0 then None else Some (mkCache max ∅ 0 0 0 0 0 0).

Definition bodyLen (e : snapshotCacheEntry) : Z := Z.of_nat (String.length (body e)).

Definition removeLocked (c : snapshotCache) (key : snapshotCacheKey) (e : snapshotCacheEntry) : snapshotCache :=
  let b := bytes c - bodyLen e in
  mkCache (maxBytes c) (delete key (entries c)) (if b <? 0 then 0 else b) (clock c) (hits c) (misses c) (stale c) (evictions c).

Inductive outcome := cacheOutcomeHit | cacheOutcomeMiss | cacheOutcomeStale | cacheOutcomeBypass.

Definition lookup_ (c : snapshotCache) (key : snapshotCacheKey) (epoch : Z) : snapshotCache * option snapshotCacheEntry * outcome :=
  match entries c !! key with
  | None => (mkCache (maxBytes c) (entries c) (bytes c) (clock c) (hits c) (misses c + 1) (stale c) (evictions c), None, cacheOutcomeMiss)
  | Some e =>
      if negb (eepoch e =? epoch) then
        let c := removeLocked c key e in
        (mkCache (maxBytes c) (entries c) (bytes c) (clock c) (hits c) (misses c) (stale c + 1) (evictions c), None, cacheOutcomeStale)
      else
        let t := clock c + 1 in
        let e := mkEntry (eepoch e) (ewatermark e) (erecords e) (body e) t in
        (mkCache (maxBytes c) (<[key := e]> (entries c)) (bytes c) t (hits c + 1) (misses c) (stale c) (evictions c), Some e, cacheOutcomeHit)
  end.

(** The least recently used entry. *)
Definition older (best : option (snapshotCacheKey * snapshotCacheEntry)) (ke : snapshotCacheKey * snapshotCacheEntry) : option (snapshotCacheKey * snapshotCacheEntry) :=
  match best with
  | None => Some ke
  | Some b => if lastUsed ke.2 <? lastUsed b.2 then Some ke else best
  end.

Definition oldest (m : gmap snapshotCacheKey snapshotCacheEntry) : option (snapshotCacheKey * snapshotCacheEntry) := foldl older None (map_to_list m).

(** [evictLocked]; the fuel is the number of entries. *)
Fixpoint evictLoop (fuel : nat) (c : snapshotCache) : snapshotCache :=
  match fuel with
  | O => c
  | S fuel =>
      if bytes c <=? maxBytes c then c
      else match oldest (entries c) with
           | None => c
           | Some (key, e) =>
               let c := removeLocked c key e in
               evictLoop fuel (mkCache (maxBytes c) (entries c) (bytes c) (clock c) (hits c) (misses c) (stale c) (evictions c + 1))
           end
  end.

Definition evictLocked (c : snapshotCache) : snapshotCache := evictLoop (size (entries c)) c.

Definition store (c : snapshotCache) (key : snapshotCacheKey) (e : snapshotCacheEntry) : snapshotCache :=
  if (bodyLen e =? 0) || (maxBytes c <? bodyLen e) then c
  else
    let c := match entries c !! key with Some old => removeLocked c key old | None => c end in
    let t := clock c + 1 in
    let e := mkEntry (eepoch e) (ewatermark e) (erecords e) (body e) t in
    evictLocked (mkCache (maxBytes c) (<[key := e]> (entries c)) (bytes c + bodyLen e) t (hits c) (misses c) (stale c) (evictions c)).

Record SnapshotCacheStats := mkStats { SEntries : Z; SBytes : Z; SMaxBytes : Z; SHits : Z; SMisses : Z; SStale : Z; SEvictions : Z }.

Definition stats (c : option snapshotCache) : SnapshotCacheStats :=
  match c with
  | None => mkStats 0 0 0 0 0 0 0
  | Some c => mkStats (Z.of_nat (size (entries c))) (bytes c) (maxBytes c) (hits c) (misses c) (stale c) (evictions c)
  end.

(** ** The key of a request *)

(** The loop of [audienceDigest]. *)
Fixpoint normalizeLoop (ids : list string) (seen : gset string) (out : list string) : list string :=
  match ids with
  | [] => out
  | id :: rest =>
      let id := TrimSpace id in
      if String.eqb id "" || bool_decide (id ∈ seen) then normalizeLoop rest seen out else normalizeLoop rest ({[id]} ∪ seen) (out ++ [id])
  end.

(** A length as eight little-endian bytes. *)
Fixpoint littleEndian (bytes : nat) (n : N) : string :=
  match bytes with O => "" | S k => String (ascii_of_N (n mod 256)) (littleEndian k (n / 256)) end.

Definition framed (id : string) : string := littleEndian 8 (N.of_nat (String.length id)) +:+ id.

Section Keys.
Context (sum256 : string → string).

(** The text that is summed. *)
Definition audienceText (ids : list string) : string := String.concat "" (map framed (merge_sort String.le (normalizeLoop ids ∅ []))).

(** The first sixteen bytes of the sum, in hexadecimal. *)
Definition audienceDigest (ids : list string) : string :=
  match normalizeLoop ids ∅ [] with
  | [] => ""
  | _ => hexEncode (String.substring 0 16 (sum256 (audienceText ids)))
  end.

Definition snapshotRequestCacheable (req : SnapshotRequest) : bool := String.eqb (RSince req) "" && String.eqb (RCursor req) "".

Context {double : Type} (resolveScope : ProjectionScope → res gateway_error (string * Query)).

(** [snapshotCacheLookupKey] with a cache; [epochOf]: the store's answer. *)
Definition snapshotCacheLookupKey (cfg : AudienceConfig double) (epochOf : string → option Z) (req : SnapshotRequest) (ids : list string) :
    option (snapshotCacheKey * Z) :=
  if negb (snapshotRequestCacheable req) then None
  else match resolvePolicy cfg (ScopeDomain (RScope req)) (ScopeCollection (RScope req)) with
       | Err _ => None
       | Ok policy =>
           match resolveScope (RScope req) with
           | Err _ => None
           | Ok (projection, _) =>
               match epochOf projection with
               | None => None
               | Some epoch =>
                   let key audience := mkKey (ScopeKey (RScope req)) (negb (RIncludeVectors req)) (RLimit req) audience in
                   if bool_decide (PMode policy = AudiencePerRecord) then
                     let digest := audienceDigest ids in if String.eqb digest "" then None else Some (key digest, epoch)
                   else Some (key "", epoch)
               end
           end
       end.

(** A response: epoch, watermark and body. *)
Abbreviation response := (Z * string * string)%type.

Definition responseOf (e : snapshotCacheEntry) : response := (eepoch e, ewatermark e, body e).

(** [ServeSnapshot]; [answer]: the page as read and encoded, or its error. *)
Definition ServeSnapshot (c : option snapshotCache) (cfg : AudienceConfig double) (epochOf : string → option Z) (req : SnapshotRequest) (ids : list string)
    (answer : res gateway_error snapshotCacheEntry) : option snapshotCache * res gateway_error response :=
  match c with
  | None => (None, match answer with Ok e => Ok (responseOf e) | Err err => Err err end)
  | Some c =>
      match snapshotCacheLookupKey cfg epochOf req ids with
      | None => (Some c, match answer with Ok e => Ok (responseOf e) | Err err => Err err end)
      | Some (key, epoch) =>
          match lookup_ c key epoch with
          | (c, Some e, _) => (Some c, Ok (responseOf e))
          | (c, None, _) => match answer with Ok e => (Some (store c key e), Ok (responseOf e)) | Err err => (Some c, Err err) end
          end
      end
  end.

End Keys.

(** ** The budget *)

Definition total (m : gmap snapshotCacheKey snapshotCacheEntry) : Z := msum bodyLen m.

Record cache_ok (c : snapshotCache) : Prop := {
  ck_bytes : bytes c = total (entries c);
  ck_each : ∀ k e, entries c !! k = Some e → 0 < bodyLen e ≤ maxBytes c;
  ck_used : ∀ k e, entries c !! k = Some e → lastUsed e ≤ clock c;
  ck_inj : ∀ k k' e e', entries c !! k = Some e → entries c !! k' = Some e' → lastUsed e = lastUsed e' → k = k'
}.

Lemma body_len_nonneg e : 0 ≤ bodyLen e.
Proof. unfold bodyLen. lia. Qed.

Lemma remove_locked_ok c key e : cache_ok c → entries c !! key = Some e →
  cache_ok (removeLocked c key e) ∧ bytes (removeLocked c key e) = bytes c - bodyLen e.
Proof.
  intros [H1 H2 H3 H4] He. pose proof (msum_delete bodyLen _ _ _ He) as Ht. pose proof (msum_nonneg bodyLen (delete key (entries c)) body_len_nonneg). fold (total (delete key (entries c))) in *. fold (total (entries c)) in *.
  assert (bytes (removeLocked c key e) = bytes c - bodyLen e) as E by (cbn; destruct (Z.ltb_spec (bytes c - bodyLen e) 0); lia).
  split; [|done]. split; [rewrite E; cbn [removeLocked entries]; lia|..]; cbn [removeLocked entries maxBytes clock].
  - intros k e' [_ Hk]%lookup_delete_Some. by eapply H2.
  - intros k e' [_ Hk]%lookup_delete_Some. by eapply H3.
  - intros k k' e1 e2 [_ Hk]%lookup_delete_Some [_ Hk']%lookup_delete_Some. by eapply H4.
Qed.

Lemma older_fold l : ∀ best, let r := foldl older best l in
  match r with
  | None => best = None ∧ l = []
  | Some ke => (ke ∈ l ∨ best = Some ke) ∧ (∀ x, x ∈ l ∨ best = Some x → lastUsed ke.2 ≤ lastUsed x.2)
  end.
Proof.
  induction l as [|x l IH]; intros best; cbn [foldl]; [destruct best as [b|]; [|done]; split; [by right|]; intros y [H|[= ->]]; [set_solver|lia]|].
  specialize (IH (older best x)). cbn zeta in *. destruct (foldl older (older best x) l) as [ke|].
  - destruct IH as [Hin Hmin]. unfold older in *. destruct best as [b|].
    + destruct (Z.ltb_spec (lastUsed x.2) (lastUsed b.2)) as [Hlt|Hge].
      * split; [destruct Hin as [|[= ->]]; [left; by constructor|left; constructor]|].
        intros y [[->|Hy]%elem_of_cons|[= ->]]; [apply Hmin; auto|apply Hmin; auto|]. pose proof (Hmin x ltac:(auto)). lia.
      * split; [destruct Hin as [|]; [left; by constructor|by right]|].
        intros y [[->|Hy]%elem_of_cons|[= ->]]; [|apply Hmin; auto|apply Hmin; auto]. pose proof (Hmin b ltac:(auto)). lia.
    + split; [destruct Hin as [|[= ->]]; [left; by constructor|left; constructor]|]. intros y [[->|Hy]%elem_of_cons|?]; [apply Hmin; auto|apply Hmin; auto|done].
  - destruct IH as [Ho _]. unfold older in Ho. destruct best as [b|]; [destruct (_ <? _)|]; done.
Qed.

Lemma oldest_spec m : match oldest m with
  | None => m = ∅
  | Some (k, e) => m !! k = Some e ∧ ∀ k' e', m !! k' = Some e' → lastUsed e ≤ lastUsed e'
  end.
Proof.
  unfold oldest. pose proof (older_fold (map_to_list m) None) as H. cbn zeta in H. destruct (foldl older None (map_to_list m)) as [[k e]|].
  - destruct H as [[Hin|?] Hmin]; [|done]. apply elem_of_map_to_list in Hin. split; [done|]. intros k' e' Hk'.
    apply (Hmin (k', e')). left. by apply elem_of_map_to_list.
  - apply map_to_list_empty_iff. tauto.
Qed.

(** What eviction leaves: a cache within budget, of the most recently used. *)
Record evicted (c c' : snapshotCache) : Prop := {
  ev_ok : cache_ok c'; ev_room : bytes c' ≤ maxBytes c'; ev_max : maxBytes c' = maxBytes c; ev_clock : clock c' = clock c;
  ev_sub : entries c' ⊆ entries c;
  ev_lru : ∀ k e k' e', entries c !! k = Some e → entries c' !! k = None → entries c' !! k' = Some e' → lastUsed e < lastUsed e';
  ev_last : ∀ k e, entries c !! k = Some e → lastUsed e = clock c → entries c' !! k = Some e
}.

Lemma oldest_alone c k e : cache_ok c → entries c !! k = Some e → lastUsed e = clock c → (∀ k' e', entries c !! k' = Some e' → lastUsed e ≤ lastUsed e') →
  total (entries c) = bodyLen e.
Proof.
  intros [_ _ H3 H4] He Ec Hmin. assert (entries c = {[k := e]}) as ->; [|unfold total, msum; rewrite map_to_list_singleton; cbn; lia].
  apply map_eq. intros k'. destruct (decide (k = k')) as [<-|Hne]; [by rewrite lookup_singleton_eq|]. rewrite lookup_singleton_ne by done.
  destruct (entries c !! k') as [e'|] eqn:E; [|done]. destruct Hne. eapply H4; [done|exact E|]. specialize (Hmin k' e' E). specialize (H3 k' e' E). lia.
Qed.

Lemma evict_loop_ok fuel : ∀ c, cache_ok c → 0 ≤ maxBytes c → (size (entries c) ≤ fuel)%nat → evicted c (evictLoop fuel c).
Proof.
  induction fuel as [|fuel IH]; intros c Hok Hmax Hf; cbn [evictLoop].
  { assert (entries c = ∅) as E by (apply map_size_empty_inv; lia). split; try done; [|intros k e k' e' Hk; by rewrite E in Hk].
    rewrite (ck_bytes _ Hok), E. unfold total. by rewrite msum_empty. }
  destruct (Z.leb_spec (bytes c) (maxBytes c)) as [Hle|Hgt]; [split; try done; intros k e k' e' H1 H2; congruence|].
  pose proof (oldest_spec (entries c)) as Ho. destruct (oldest (entries c)) as [[k0 e0]|].
  2: { exfalso. rewrite (ck_bytes _ Hok), Ho in Hgt. unfold total in Hgt. rewrite msum_empty in Hgt. lia. }
  destruct Ho as [He0 Hmin]. destruct (remove_locked_ok c k0 e0 Hok He0) as [Hok1 _]. set (c1 := mkCache _ _ _ _ _ _ _ _).
  assert (cache_ok c1) as Hc1 by by destruct Hok1. assert (entries c1 = delete k0 (entries c)) as E1 by done.
  destruct (IH c1 Hc1 Hmax) as [V1 V2 V3 V4 V5 V6 V7].
  { rewrite E1, map_size_delete_Some by eauto. lia. }
  split; [done|done|by rewrite V3|by rewrite V4|etrans; [exact V5|rewrite E1; apply delete_subseteq]|..].
  - intros k e k' e' Hk Hnone Hk'. destruct (decide (k = k0)) as [->|Hne].
    + assert (e = e0) as -> by congruence. pose proof (lookup_weaken _ _ _ _ Hk' V5) as Hk1. rewrite E1 in Hk1. apply lookup_delete_Some in Hk1 as [Hne Hk1].
      specialize (Hmin _ _ Hk1). assert (lastUsed e0 ≠ lastUsed e') by (intros E; by destruct Hne; eapply (ck_inj _ Hok)). lia.
    + eapply V6; [|done|done]. rewrite E1. by rewrite lookup_delete_ne.
  - intros k e Hk Hlast. assert (k ≠ k0) as Hne.
    { intros ->. assert (e = e0) as -> by congruence. pose proof (oldest_alone c k0 e0 Hok He0 Hlast Hmin) as Ht.
      pose proof (ck_each _ Hok _ _ He0). rewrite (ck_bytes _ Hok) in Hgt. lia. }
    apply V7; [rewrite E1; by rewrite lookup_delete_ne|done].
Qed.

Lemma store_ok c key e : cache_ok c → 0 ≤ maxBytes c → bytes c ≤ maxBytes c → let c' := store c key e in
  cache_ok c' ∧ maxBytes c' = maxBytes c ∧ bytes c' ≤ maxBytes c' ∧
  if (bodyLen e =? 0) || (maxBytes c <? bodyLen e) then c' = c
  else entries c' !! key = Some (mkEntry (eepoch e) (ewatermark e) (erecords e) (body e) (clock c')) ∧
    (∀ k x, k ≠ key → entries c' !! k = Some x → entries c !! k = Some x) ∧
    (∀ k x k' x', k ≠ key → entries c !! k = Some x → entries c' !! k = None → entries c' !! k' = Some x' → lastUsed x < lastUsed x').
Proof.
  intros Hok Hmax Hroom. unfold store. destruct ((bodyLen e =? 0) || _) eqn:Eg; [done|]. apply orb_false_iff in Eg as [Eg1%Z.eqb_neq Eg2%Z.ltb_ge].
  set (c1 := match entries c !! key with Some old => _ | None => c end).
  assert (cache_ok c1 ∧ entries c1 !! key = None ∧ maxBytes c1 = maxBytes c ∧ clock c1 = clock c ∧ (∀ k, k ≠ key → entries c1 !! k = entries c !! k))
    as (Hok1 & Hn1 & Hm1 & Hc1 & Hother).
  { unfold c1. destruct (entries c !! key) as [old|] eqn:E; [|done]. destruct (remove_locked_ok c key old Hok E) as [? _]. split_and!; try done; cbn.
    - apply lookup_delete_eq. - intros k Hk. by rewrite lookup_delete_ne. }
  set (e1 := mkEntry _ _ _ _ _). set (c2 := mkCache _ _ _ _ _ _ _ _).
  assert (bodyLen e1 = bodyLen e) as El by done. pose proof (body_len_nonneg e) as Hnn.
  assert (cache_ok c2) as Hok2.
  { destruct Hok1 as [H1 H2 H3 H4]. split; cbn [c2 entries bytes maxBytes clock].
    - unfold total. rewrite msum_insert by done. fold (total (entries c1)). lia.
    - intros k x. destruct (decide (key = k)) as [<-|]; [rewrite lookup_insert_eq; intros [= <-]; lia|rewrite lookup_insert_ne by done; apply H2].
    - intros k x. destruct (decide (key = k)) as [<-|]; [rewrite lookup_insert_eq; intros [= <-]; cbn; lia|rewrite lookup_insert_ne by done].
      intros Hk. specialize (H3 _ _ Hk). lia.
    - intros k k' x x'. destruct (decide (key = k)) as [<-|], (decide (key = k')) as [<-|]; rewrite ?lookup_insert_eq, ?lookup_insert_ne by done; try done; [| |apply H4].
      + intros [= <-] Hk' E. specialize (H3 _ _ Hk'). cbn in E. lia.
      + intros Hk [= <-] E. specialize (H3 _ _ Hk). cbn in E. lia. }
  destruct (evict_loop_ok (size (entries c2)) c2 Hok2 ltac:(cbn; lia) ltac:(done)) as [V1 V2 V3 V4 V5 V6 V7]. change (evictLoop (size (entries c2)) c2) with (evictLocked c2) in *.
  split_and!; [done|by rewrite V3|done|..].
  - rewrite V4. apply V7; [apply lookup_insert_eq|done].
  - intros k x Hk Hx. pose proof (lookup_weaken _ _ _ _ Hx V5) as H. cbn [c2 entries] in H. rewrite lookup_insert_ne in H by done. by rewrite <- Hother.
  - intros k x k' x' Hk Hx. apply V6. cbn [c2 entries]. rewrite lookup_insert_ne by done. by rewrite Hother.
Qed.

(** ** Digests separate memberships *)

Lemma ascii_of_N_inj m n : (m < 256)%N → (n < 256)%N → ascii_of_N m = ascii_of_N n → m = n.
Proof. intros Hm Hn E. by rewrite <- (N_ascii_embedding m Hm), <- (N_ascii_embedding n Hn), E. Qed.

Lemma little_endian_length k n : String.length (littleEndian k n) = k.
Proof. revert n. induction k as [|k IH]; intros n; cbn; [done|]. by rewrite IH. Qed.

Lemma little_endian_inj k : ∀ m n, (m < 256 ^ N.of_nat k)%N → (n < 256 ^ N.of_nat k)%N → littleEndian k m = littleEndian k n → m = n.
Proof.
  induction k as [|k IH]; intros m n Hm Hn; cbn [littleEndian]; [cbn in Hm, Hn; lia|]. intros [= E1 E2].
  rewrite Nat2N.inj_succ, N.pow_succ_r' in Hm, Hn.
  apply ascii_of_N_inj in E1; [|apply N.mod_lt; lia..]. apply IH in E2; [|apply N.Div0.div_lt_upper_bound; lia..].
  rewrite (N.div_mod m 256), (N.div_mod n 256) by lia. congruence.
Qed.

Definition goString (s : string) : Prop := (N.of_nat (String.length s) < 2 ^ 64)%N.

Lemma framed_inj a b x y : goString a → goString b → framed a +:+ x = framed b +:+ y → a = b ∧ x = y.
Proof.
  intros Ha Hb. unfold framed. rewrite !append_assoc. intros E.
  apply append_inj_length in E as [E1 E2]; [|by rewrite !little_endian_length]. apply little_endian_inj in E1; [|done..]. apply Nat2N.inj in E1.
  by apply append_inj_length in E2.
Qed.

Lemma concat_cons_empty x l : String.concat "" (x :: l) = x +:+ String.concat "" l.
Proof. destruct l as [|y l]; [by rewrite append_nil_r|done]. Qed.

Lemma frames_inj l k : Forall goString l → Forall goString k → String.concat "" (map framed l) = String.concat "" (map framed k) → l = k.
Proof.
  intros Hl. revert k. assert (∀ a x, framed a +:+ x ≠ "") as Hne.
  { intros a x E%(f_equal String.length). unfold framed in E. rewrite !length_append, little_endian_length in E. cbn in E. lia. }
  induction Hl as [|a l Ha _ IH]; intros k Hk; destruct Hk as [|b k Hb Hk]; cbn [map]; rewrite ?concat_cons_empty; [done| | |].
  - intros E. symmetry in E. by destruct (Hne _ _ E).
  - intros E. by destruct (Hne _ _ E).
  - intros [-> E]%framed_inj; [|done..]. f_equal. by apply IH.
Qed.

Lemma normalize_loop_spec ids : ∀ seen out, (∀ x, x ∈ seen ↔ x ∈ out) → ∀ x,
  x ∈ normalizeLoop ids seen out ↔ x ∈ out ∨ (x ≠ "" ∧ ∃ y, y ∈ ids ∧ x = TrimSpace y).
Proof.
  induction ids as [|id ids IH]; intros seen out Hs x; cbn [normalizeLoop]; [set_solver|].
  destruct (String.eqb_spec (TrimSpace id) "") as [E|E]; cbn [orb]; [rewrite IH by done; set_solver|].
  case_bool_decide as Hin; [rewrite IH by done; set_solver|]. rewrite IH by (intros y; rewrite elem_of_union, elem_of_app, Hs; set_solver). set_solver.
Qed.

Lemma trim_by_length p1 p2 p3 l : (length (trimBy p1 p2 p3 l) ≤ length l)%nat.
Proof. destruct (trim_by_suffix p1 p2 p3 l) as [k E]. apply (f_equal length) in E. rewrite length_app in E. lia. Qed.

Lemma trim_space_length s : (String.length (TrimSpace s) ≤ String.length s)%nat.
Proof.
  assert (∀ l, String.length (string_of_list_ascii l) = length l) as H1 by (induction l as [|a l IH]; cbn; [done|by rewrite IH]).
  assert (∀ t, length (list_ascii_of_string t) = String.length t) as H2 by (induction t as [|a t IH]; cbn; [done|by rewrite IH]).
  unfold TrimSpace. rewrite H1. unfold trimRight, trimLeft. rewrite length_reverse. etrans; [apply trim_by_length|]. rewrite length_reverse.
  etrans; [apply trim_by_length|]. by rewrite H2.
Qed.

(** Equal texts come from equal sets of audiences. *)
Lemma text_inj ids ids' : Forall goString ids → Forall goString ids' → audienceText ids = audienceText ids' →
  ∀ x, x ∈ dedupeAudiences ids ↔ x ∈ dedupeAudiences ids'.
Proof.
  intros Hg Hg' E x. unfold dedupeAudiences. rewrite !(proj2 (dedupe_audiences_loop _ [])).
  pose proof (normalize_loop_spec ids ∅ [] ltac:(set_solver) x) as N1. pose proof (normalize_loop_spec ids' ∅ [] ltac:(set_solver) x) as N2.
  rewrite <- N1, <- N2. assert (∀ l, Forall goString l → Forall goString (merge_sort String.le (normalizeLoop l ∅ []))) as Hgo.
  { intros l Hl. apply Forall_forall. intros y. rewrite (merge_sort_Permutation String.le). rewrite (normalize_loop_spec l ∅ []) by set_solver.
    intros [?|(_ & z & Hz & ->)]; [set_solver|]. rewrite Forall_forall in Hl. specialize (Hl z Hz). unfold goString in *. pose proof (trim_space_length z). lia. }
  rewrite <- (merge_sort_Permutation String.le (normalizeLoop ids ∅ [])), <- (merge_sort_Permutation String.le (normalizeLoop ids' ∅ [])).
  by rewrite (frames_inj _ _ (Hgo ids Hg) (Hgo ids' Hg') E).
Qed.

(** Two different texts whose sums agree in their first sixteen bytes. *)
Definition collision (sum256 : string → string) (x y : string) : Prop := x ≠ y ∧ String.substring 0 16 (sum256 x) = String.substring 0 16 (sum256 y).

Lemma hex_encode_inj s t : hexEncode s = hexEncode t → s = t.
Proof. intros E. pose proof (hex_round_trip s) as H. rewrite E, hex_round_trip in H. by injection H. Qed.

Lemma digest_inj sum256 ids ids' : Forall goString ids → Forall goString ids' →
  audienceDigest sum256 ids = audienceDigest sum256 ids' → audienceDigest sum256 ids ≠ "" →
  (∀ x, x ∈ dedupeAudiences ids ↔ x ∈ dedupeAudiences ids') ∨ collision sum256 (audienceText ids) (audienceText ids').
Proof.
  intros Hg Hg' E Hne. destruct (decide (audienceText ids = audienceText ids')) as [Et|Et]; [left; by apply text_inj|right; split; [done|]].
  unfold audienceDigest in *. destruct (normalizeLoop ids ∅ []); [done|]. destruct (normalizeLoop ids' ∅ []); [by rewrite E in Hne|]. by apply hex_encode_inj.
Qed.

(** ** Histories of requests *)

Record ask := mkAsk { aEpochOf : string → option Z; aReq : SnapshotRequest; aIds : list string; aAnswer : res gateway_error snapshotCacheEntry }.

Section Serving.
Context (sum256 : string → string) {double : Type} (resolveScope : ProjectionScope → res gateway_error (string * Query)) (cfg : AudienceConfig double).

Definition serve (c : option snapshotCache) (a : ask) : option snapshotCache * res gateway_error (Z * string * string) :=
  ServeSnapshot sum256 resolveScope c cfg (aEpochOf a) (aReq a) (aIds a) (aAnswer a).

Definition serveAll (max : Z) (asks : list ask) : option snapshotCache := foldl (λ c a, (serve c a).1) (newSnapshotCache max) asks.

Definition keyOf (a : ask) : option (snapshotCacheKey * Z) := snapshotCacheLookupKey sum256 resolveScope cfg (aEpochOf a) (aReq a) (aIds a).

(** The request assembled this response under this key. *)
Definition assembled (a : ask) (key : snapshotCacheKey) (r : Z * string * string) : Prop :=
  (∃ epoch, keyOf a = Some (key, epoch)) ∧ ∃ e, aAnswer a = Ok e ∧ responseOf e = r.

Record served_ok (max : Z) (asks : list ask) (c : snapshotCache) : Prop := {
  so_cache : cache_ok c; so_max : maxBytes c = max; so_room : bytes c ≤ max;
  so_from : ∀ k e, entries c !! k = Some e → ∃ a, a ∈ asks ∧ assembled a k (responseOf e)
}.

Lemma lookup_served max asks c key epoch c' r o : 0 < max → served_ok max asks c → lookup_ c key epoch = (c', r, o) →
  served_ok max asks c' ∧ match r with Some e => eepoch e = epoch ∧ ∃ a, a ∈ asks ∧ assembled a key (responseOf e) | None => True end.
Proof.
  intros Hmax [H1 H2 H3 H4]. unfold lookup_. destruct (entries c !! key) as [e|] eqn:E.
  2: { intros [= <- <- _]. split; [|done]. split; [by destruct H1|done|done|done]. }
  destruct (Z.eqb_spec (eepoch e) epoch) as [Ee|_]; cbn [negb]; intros [= <- <- _].
  - destruct (H4 _ _ E) as (a & Ha & Has). split; [|cbn; eauto]. destruct H1 as [B1 B2 B3 B4]. split; [split|done|done|]; cbn [entries bytes maxBytes clock].
    + unfold total. rewrite (msum_update _ _ _ _ _ E), B1. unfold total, bodyLen. cbn [body]. lia.
    + intros k x. destruct (decide (key = k)) as [<-|]; [rewrite lookup_insert_eq; intros [= <-]; by apply (B2 _ _ E)|rewrite lookup_insert_ne by done; apply B2].
    + intros k x. destruct (decide (key = k)) as [<-|]; [rewrite lookup_insert_eq; intros [= <-]; cbn; lia|rewrite lookup_insert_ne by done].
      intros Hk. specialize (B3 _ _ Hk). lia.
    + intros k k' x x'. destruct (decide (key = k)) as [<-|], (decide (key = k')) as [<-|]; rewrite ?lookup_insert_eq, ?lookup_insert_ne by done; try done; [| |apply B4].
      * intros [= <-] Hk' El. specialize (B3 _ _ Hk'). cbn in El. lia.
      * intros Hk [= <-] El. specialize (B3 _ _ Hk). cbn in El. lia.
    + intros k x. destruct (decide (key = k)) as [<-|]; [rewrite lookup_insert_eq; intros [= <-]; eauto|rewrite lookup_insert_ne by done; apply H4].
  - split; [|done]. destruct (remove_locked_ok c key e H1 E) as [Hok Hb]. pose proof (body_len_nonneg e).
    split; [by destruct Hok|done|change (bytes (removeLocked c key e) ≤ max); rewrite Hb; lia|]. cbn [entries removeLocked]. intros k x [_ Hk]%lookup_delete_Some. by apply H4.
Qed.

Lemma store_served max asks c key a e epoch : 0 < max → served_ok max asks c → keyOf a = Some (key, epoch) → aAnswer a = Ok e →
  served_ok max (asks ++ [a]) (store c key e).
Proof.
  intros Hmax [H1 H2 H3 H4] Hk Ha. destruct (store_ok c key e H1 ltac:(lia) ltac:(lia)) as (S1 & S2 & S3 & S4). split; [done|congruence|lia|].
  intros k x Hx. destruct ((bodyLen e =? 0) || _).
  - rewrite S4 in Hx. destruct (H4 k x Hx) as (b & Hb & Hbs). exists b. split; [apply elem_of_app; by left|done].
  - destruct S4 as (Hkey & Hother & _). destruct (decide (k = key)) as [->|Hne].
    + rewrite Hkey in Hx. injection Hx as <-. exists a. split; [apply elem_of_app; right; by constructor|]. split; eauto.
    + destruct (H4 k x (Hother k x Hne Hx)) as (b & Hb & Hbs). exists b. split; [apply elem_of_app; by left|done].
Qed.

Lemma served_more max asks c a : served_ok max asks c → served_ok max (asks ++ [a]) c.
Proof. intros [H1 H2 H3 H4]. split; try done. intros k e Hk. destruct (H4 k e Hk) as (b & Hb & Hs). exists b. split; [apply elem_of_app; by left|done]. Qed.

Lemma serve_step max asks c a : 0 < max → served_ok max asks c → ∃ c', (serve (Some c) a).1 = Some c' ∧ served_ok max (asks ++ [a]) c'.
Proof.
  intros Hmax Hok. unfold serve, ServeSnapshot. fold (keyOf a). destruct (keyOf a) as [[key epoch]|] eqn:Ek; [|exists c; split; [done|by apply served_more]].
  destruct (lookup_ c key epoch) as [[c1 r] o] eqn:El. destruct (lookup_served max asks c key epoch c1 r o Hmax Hok El) as [Hok1 _].
  destruct r as [e|]; [eexists; split; [done|by apply served_more]|].
  destruct (aAnswer a) as [e|] eqn:Ea; [|eexists; split; [done|by apply served_more]]. eexists. split; [done|]. by eapply store_served.
Qed.

Lemma serve_all_ok max asks : 0 < max → ∃ c, serveAll max asks = Some c ∧ served_ok max asks c.
Proof.
  intros Hmax. unfold serveAll, newSnapshotCache. destruct (Z.leb_spec max 0); [lia|].
  enough (∀ done c, served_ok max done c → ∃ c', foldl (λ c a, (serve c a).1) (Some c) asks = Some c' ∧ served_ok max (done ++ asks) c') as H0.
  { apply (H0 []). split; cbn; [|done|lia|done]. split; cbn; [unfold total; by rewrite msum_empty|done..]. }
  induction asks as [|a asks IH]; intros dn c Hok; cbn [foldl]; [rewrite app_nil_r; eauto|].
  destruct (serve_step max dn c a Hmax Hok) as (c1 & E & Hok1). rewrite E. destruct (IH _ c1 Hok1) as (c2 & E2 & Hok2). exists c2. split; [done|].
  by rewrite <- app_assoc in Hok2.
Qed.

Lemma key_of_spec a key epoch : keyOf a = Some (key, epoch) →
  ∃ policy projection q, resolvePolicy cfg (ScopeDomain (RScope (aReq a))) (ScopeCollection (RScope (aReq a))) = Ok policy ∧
    resolveScope (RScope (aReq a)) = Ok (projection, q) ∧ aEpochOf a projection = Some epoch ∧ snapshotRequestCacheable (aReq a) = true ∧
    kscope key = ScopeKey (RScope (aReq a)) ∧ excludeVectors key = negb (RIncludeVectors (aReq a)) ∧ klimit key = RLimit (aReq a) ∧
    (PMode policy = AudiencePerRecord → kaudience key = audienceDigest sum256 (aIds a) ∧ kaudience key ≠ "").
Proof.
  unfold keyOf, snapshotCacheLookupKey. destruct (snapshotRequestCacheable (aReq a)); cbn [negb]; [|done].
  destruct (resolvePolicy _ _ _) as [policy|] eqn:E1; [|done]. destruct (resolveScope _) as [[projection q]|] eqn:E2; [|done].
  destruct (aEpochOf a projection) as [e|] eqn:E3; [|done]. case_bool_decide as Hm.
  - destruct (String.eqb_spec (audienceDigest sum256 (aIds a)) ""); [done|]. intros [= <- <-]. exists policy, projection, q. by split_and!.
  - intros [= <- <-]. exists policy, projection, q. by split_and!.
Qed.

Context (resolver_validates : ∀ s p, resolveScope s = Ok p → validateScope s = true).

(** C35: a cached snapshot is only ever served to whom it was assembled for, at the
    epoch it was read at. In every history of requests, a response either was read
    and encoded for this request, or is byte for byte the one an earlier request got,
    with the same scope (so the same tenant), vector mode and limit, and the epoch the
    projection has now; where the scope is addressed per record it was for the same set
    of audiences too, unless the texts of two different sets have been found whose
    SHA-256 sums agree in their first sixteen bytes (a scope that is broadcast has one
    entry for all its callers); and the cache holds no more than its budget of bytes. *)
Theorem cache_never_crosses_callers max asks a c' r : 0 < max → Forall goString (aIds a) → Forall (λ b, Forall goString (aIds b)) asks →
  serve (serveAll max asks) a = (c', Ok r) →
  (∃ c, serveAll max asks = Some c ∧ bytes c = total (entries c) ∧ bytes c ≤ max) ∧
  ((∃ e, aAnswer a = Ok e ∧ r = responseOf e) ∨
   ∃ b e, b ∈ asks ∧ aAnswer b = Ok e ∧ r = responseOf e ∧ RScope (aReq b) = RScope (aReq a) ∧ RIncludeVectors (aReq b) = RIncludeVectors (aReq a) ∧
     RLimit (aReq b) = RLimit (aReq a) ∧ snapshotRequestCacheable (aReq a) = true ∧
     (∃ projection q, resolveScope (RScope (aReq a)) = Ok (projection, q) ∧ aEpochOf a projection = Some (r.1.1)) ∧
     ∀ policy, resolvePolicy cfg (ScopeDomain (RScope (aReq a))) (ScopeCollection (RScope (aReq a))) = Ok policy → PMode policy = AudiencePerRecord →
       (∀ x, x ∈ dedupeAudiences (aIds b) ↔ x ∈ dedupeAudiences (aIds a)) ∨ collision sum256 (audienceText (aIds b)) (audienceText (aIds a))).
Proof.
  intros Hmax Hga Hgb. destruct (serve_all_ok max asks Hmax) as (c & -> & Hok). intros E. split.
  { exists c. destruct Hok as [K1 K2 K3 _]. split_and!; [done|apply K1|done]. }
  revert E. unfold serve, ServeSnapshot. fold (keyOf a). destruct (keyOf a) as [[key epoch]|] eqn:Ek.
  2: { destruct (aAnswer a) as [e|]; [|done]. intros [= _ <-]. left. eauto. }
  destruct (lookup_ c key epoch) as [[c1 hit] o] eqn:El. destruct (lookup_served max asks c key epoch c1 hit o Hmax Hok El) as [_ Hhit].
  destruct hit as [e|]; [|destruct (aAnswer a) as [e|]; [|done]; intros [= _ <-]; left; eauto]. intros [= _ <-]. right.
  destruct Hhit as (Hep & b & Hb & (epoch' & Ekb) & e' & Hans & Hr).
  destruct (key_of_spec a key epoch Ek) as (pol & proj & q & P1 & P2 & P3 & P4 & P5 & P6 & P7 & P8).
  destruct (key_of_spec b key epoch' Ekb) as (pol' & proj' & q' & Q1 & Q2 & Q3 & Q4 & Q5 & Q6 & Q7 & Q8).
  assert (RScope (aReq b) = RScope (aReq a)) as Es by (apply scope_key_inj; [eapply valid_plain, resolver_validates; done..|congruence]).
  exists b, e'. split_and!; [done|done|done|done| |congruence|done| |].
  - rewrite P6 in Q6. by destruct (RIncludeVectors (aReq a)), (RIncludeVectors (aReq b)).
  - exists proj, q. split; [done|]. cbn. by rewrite Hep.
  - intros policy Hp Hm. assert (policy = pol) as -> by congruence. rewrite Es, P1 in Q1. injection Q1 as <-. destruct (P8 Hm) as [A1 A2]. destruct (Q8 Hm) as [B1 B2].
    rewrite Forall_forall in Hgb. apply digest_inj; [by apply Hgb|done|congruence|congruence].
Qed.

End Serving.

(** Two callers of the same set of audiences, spelled differently, and one of another;
    the sum keeps every text as short as these. *)
Definition annPage : snapshotCacheEntry := mkEntry 7 "w" 1 "page of ann" 0.
Definition asks (ids : list string) (page : snapshotCacheEntry) : ask := mkAsk (λ _, Some 7) (mkRequest ordersScope 10 "" "" true) ids (Ok page).

Lemma cache_never_crosses_callers_witness :
  let history := [asks ["ann"; "sales"] annPage; asks ["bob"] (mkEntry 7 "w" 1 "page of bob" 0)] in
  let later := asks [" sales"; "ann"; "ann"] (mkEntry 9 "x" 2 "not read" 0) in
  (serve id (DomainResolver 10) ordersConfig (serveAll id (DomainResolver 10) ordersConfig 100 history) later).2 = Ok (responseOf annPage) ∧
  ∃ b, b ∈ history ∧ aAnswer b = Ok annPage ∧ ∀ x, x ∈ dedupeAudiences (aIds b) ↔ x ∈ dedupeAudiences (aIds later).
Proof.
  intros history later. split; [vm_compute; reflexivity|].
  assert (∀ s p, DomainResolver 10 s = Ok p → validateScope s = true) as Hr by (intros s p; unfold DomainResolver; by destruct (validateScope s)).
  edestruct (cache_never_crosses_callers id (DomainResolver 10) ordersConfig Hr 100 history later) as (_ & [(e & He & Hx)|(b & e & Hb & He & Hx & _ & _ & _ & _ & _ & Haud)]).
  - lia.
  - repeat constructor.
  - repeat constructor.
  - vm_compute. reflexivity.
  - vm_compute in He. injection He as <-. vm_compute in Hx. discriminate Hx.
  - exists b. split; [exact Hb|]. apply elem_of_cons in Hb as [->|Hb].
    + split; [reflexivity|]. edestruct Haud as [H|[H _]]; [vm_compute; reflexivity|reflexivity|exact H|]. destruct H. vm_compute. reflexivity.
    + apply list_elem_of_singleton in Hb. subst b. injection He as <-. vm_compute in Hx. discriminate Hx.
Defined.

(** ** Finding *)

(** An unchanged epoch is taken as proof that the page has not moved, but a record
    expires without an apply: one epoch, two answers, and the cached body is the
    older one. *)
Theorem expiry_moves_no_epoch :
  let spec := mkSpec "ticks" "signals" "ticks" [] [] "" [] 1000 100000 0 0 2 10 0 5 in
  let p := (applyBatchObserving (H := noHooks) (λ _, None) (newPartition spec) 0 [tickEvent "upsert" "" 1 "a" "x"]).1.1.1 in
  let key := Partition.keyOf (BitmapIndex.tick "a" "x") in
  Partition.epoch p = 1 ∧ (version <$> liveEntry p 6 key) = Some 1 ∧ liveEntry p 7 key = None.
Proof. vm_compute. split_and!; reflexivity. Qed.
