(* ===== verification/Accumulator.v ===== *)
(** * Accumulator: incremental aggregates over projections
    (src/server-kit/go/hermes/accumulator_store.go)

    Each scope keeps, per tracked dimension, how often each value occurs among
    its records, and per tracked metric a count, a sum and extremes; a write
    subtracts what the record contributed before and adds what it contributes
    now. Each operation holds the lock of its scope.

    Sums are [float64]s added and subtracted in the order the code does, so they
    round where the code rounds ([Float64]); the order in which expired records
    go, which the language leaves open, is an input. [ParseFloat] is the standard
    library's, [None] an error. Decoding a JSON array of strings is a parameter. *)

From Stdlib Require Import ZArith Lia Ascii String Sorting.Sorted SpecFloat.
From stdpp Require Import base strings gmap fin_maps fin_sets numbers sorting list.
From S2P Require Import Prelude Float64 GoStrings RecordData HermesKeys TopK.

Open Scope string_scope.
Open Scope list_scope.
Open Scope Z_scope.

(** ** Data *)

Record AccumulatorConfig := mkAccConfig {
  Dimensions : list string; NumericMetrics : list string; MaxDistinctPerDimension : Z; MaxRecordsPerScope : Z; TTL : Z
}.

Record recordAccumulatorState := mkAccState {
  aversion : Z; adimensions : gmap string (list string); ametrics : gmap string float64; aexpiresAt : option Z
}.

Record numericAccumulator := mkNumeric { acount : Z; asum : float64; amin : float64; amax : float64 }.

Record scopeAccumulator := mkScopeAcc {
  arecords : gmap string recordAccumulatorState; dimensionFrequencies : gmap string (gmap string Z);
  metrics : gmap string numericAccumulator; maxDistinct : Z
}.

Record AccumulatorStateStore := mkAccStore { acfg : AccumulatorConfig; scopes : gmap string scopeAccumulator }.

Record MetricSummary := mkMetricSummary { MCount : Z; MSum : float64; MMin : float64; MMax : float64; MMean : float64 }.
Record FacetCount := mkFacet { FacetValue : string; Count : Z }.
Record DimensionSummary := mkDimension { Dimension : string; DistinctCount : Z; TotalCount : Z; TopValues : list FacetCount }.

(** ** Numeric accumulators *)

Definition newNumericAccumulator : numericAccumulator := mkNumeric 0 fzero (S754_infinity false) (S754_infinity true).

Definition addNumber (a : numericAccumulator) (val : float64) : numericAccumulator :=
  mkNumeric (acount a + 1) (fadd (asum a) val)
    (if fless val (amin a) then val else amin a)
    (if fless (amax a) val then val else amax a).

Definition zeroMetric : MetricSummary := mkMetricSummary 0 fzero fzero fzero fzero.

Definition summary (a : numericAccumulator) : MetricSummary :=
  if acount a =? 0 then zeroMetric
  else mkMetricSummary (acount a) (asum a) (amin a) (amax a) (fdiv (asum a) (fscale 0 (acount a))).

(** ** Frequencies *)

Definition addValue (limit : Z) (freq : gmap string Z) (v : string) : gmap string Z :=
  if (Z.of_nat (size freq) <? limit) || (0 <? default 0 (freq !! v)) then <[v := default 0 (freq !! v) + 1]> freq else freq.

Definition removeValue (freq : gmap string Z) (v : string) : gmap string Z :=
  let count := default 0 (freq !! v) in
  if count <=? 1 then delete v freq else <[v := count - 1]> freq.

Definition addDimension (limit : Z) (fs : gmap string (gmap string Z)) (dv : string * list string) : gmap string (gmap string Z) :=
  <[dv.1 := foldl (addValue limit) (default ∅ (fs !! dv.1)) dv.2]> fs.

Definition removeDimension (fs : gmap string (gmap string Z)) (dv : string * list string) : gmap string (gmap string Z) :=
  match fs !! dv.1 with
  | None => fs
  | Some freq =>
      let freq := foldl removeValue freq dv.2 in
      if bool_decide (freq = ∅) then delete dv.1 fs else <[dv.1 := freq]> fs
  end.

Definition addMetric (ms : gmap string numericAccumulator) (mv : string * float64) : gmap string numericAccumulator :=
  <[mv.1 := addNumber (default newNumericAccumulator (ms !! mv.1)) mv.2]> ms.

Definition removeMetric (ms : gmap string numericAccumulator) (mv : string * float64) : gmap string numericAccumulator :=
  match ms !! mv.1 with
  | None => ms
  | Some a =>
      if acount a <=? 1 then delete mv.1 ms
      else <[mv.1 := mkNumeric (acount a - 1) (fsub (asum a) mv.2) (amin a) (amax a)]> ms
  end.

(** ** Scopes *)

Definition newScopeAccumulator (limit : Z) : scopeAccumulator :=
  mkScopeAcc ∅ ∅ ∅ (if limit <=? 0 then 10000 else limit).

Definition defaultAccumulatorMaxRecordsPerScope : Z := 10000.

Definition NewAccumulatorStateStore (cfg : AccumulatorConfig) : AccumulatorStateStore :=
  mkAccStore
    (mkAccConfig (Dimensions cfg) (NumericMetrics cfg)
       (if MaxDistinctPerDimension cfg <=? 0 then 10000 else MaxDistinctPerDimension cfg)
       (if MaxRecordsPerScope cfg <=? 0 then defaultAccumulatorMaxRecordsPerScope else MaxRecordsPerScope cfg)
       (if TTL cfg <? 0 then 0 else TTL cfg)) ∅.

Definition accScopeKey (domain collection organizationID : string) : string :=
  domain +:+ ":" +:+ collection +:+ ":" +:+ organizationID.

(** [getScope]: a scope that is asked for exists afterwards. *)
Definition getScope (s : AccumulatorStateStore) (scope : string) : AccumulatorStateStore * scopeAccumulator :=
  match scopes s !! scope with
  | Some sc => (s, sc)
  | None =>
      let sc := newScopeAccumulator (MaxDistinctPerDimension (acfg s)) in
      (mkAccStore (acfg s) (<[scope := sc]> (scopes s)), sc)
  end.

Definition dropScope (s : AccumulatorStateStore) (scope : string) : AccumulatorStateStore :=
  mkAccStore (acfg s) (delete scope (scopes s)).

Definition putScope (s : AccumulatorStateStore) (scope : string) (sc : scopeAccumulator) : AccumulatorStateStore :=
  mkAccStore (acfg s) (<[scope := sc]> (scopes s)).

(** The order in which a Go map is ranged over is not specified; the passes
    below touch each entry on its own, so any order gives the same maps. *)
Definition removeStateLocked (sc : scopeAccumulator) (st : recordAccumulatorState) : scopeAccumulator :=
  mkScopeAcc (arecords sc) (foldl removeDimension (dimensionFrequencies sc) (map_to_list (adimensions st)))
    (foldl removeMetric (metrics sc) (map_to_list (ametrics st))) (maxDistinct sc).

Definition withRecords (sc : scopeAccumulator) (rs : gmap string recordAccumulatorState) : scopeAccumulator :=
  mkScopeAcc rs (dimensionFrequencies sc) (metrics sc) (maxDistinct sc).

Definition addStateLocked (sc : scopeAccumulator) (key : string) (st : recordAccumulatorState) : scopeAccumulator :=
  mkScopeAcc (<[key := st]> (arecords sc))
    (foldl (addDimension (maxDistinct sc)) (dimensionFrequencies sc) (map_to_list (adimensions st)))
    (foldl addMetric (metrics sc) (map_to_list (ametrics st))) (maxDistinct sc).

(** The scope's records in the order a range visits them. *)
Abbreviation visit := (gmap string recordAccumulatorState → list (string * recordAccumulatorState)).

(** ** Extraction *)

Section Store.
Context (unmarshalStrings : string → option (list string)) (ParseFloat : string → option float64).

(** The values a data field contributes to its dimension. *)
Definition fieldValues (val : RecordValue) : list string :=
  if bool_decide (Kind_ val = RecordValueNull) then []
  else
    let scalar :=
      match ScalarIndex val with
      | Some (_, s) => if String.eqb s "" then (if String.eqb (Text val) "" then [] else [Text val]) else [s]
      | None => if String.eqb (Text val) "" then [] else [Text val]
      end in
    if bool_decide (Kind_ val = RecordValueRaw) && negb (String.eqb (Raw val) "") then
      match TrimSpace (Raw val) with
      | String "[" _ =>
          match unmarshalStrings (TrimSpace (Raw val)) with
          | Some (v :: vs) => v :: vs
          | _ => scalar
          end
      | _ => scalar
      end
    else scalar.

Definition dimensionValues (rec : DomainRecord) (dim : string) : list string :=
  let named s := if String.eqb s "" then [] else [s] in
  if String.eqb dim "domain" then named (Domain rec)
  else if String.eqb dim "collection" then named (Collection rec)
  else if String.eqb dim "organization_id" then named (OrganizationID rec)
  else match Get (Data rec) dim with None => [] | Some val => fieldValues val end.

Definition extractDimensions (dims : list string) (rec : DomainRecord) : gmap string (list string) :=
  foldl (λ m dim, match dimensionValues rec dim with [] => m | vs => <[dim := vs]> m end) ∅ dims.

Definition metricValue (rec : DomainRecord) (metric : string) : option float64 :=
  match Get (Data rec) metric with
  | None => None
  | Some val =>
      match ScalarIndex val with
      | Some (kind, s) =>
          if Ascii.eqb kind "f" || Ascii.eqb kind "i" || Ascii.eqb kind "u" then match ParseFloat s with Some f => if IsNaN f || IsInf f then None else Some f | None => None end
          else None
      | None => None
      end
  end.

Definition extractMetrics (names : list string) (rec : DomainRecord) : gmap string float64 :=
  foldl (λ m metric, match metricValue rec metric with Some z => <[metric := z]> m | None => m end) ∅ names.

Definition expiresAtLocked (cfg : AccumulatorConfig) (now : Z) : option Z := if TTL cfg <=? 0 then None else Some (now + TTL cfg).

Definition stateOf (cfg : AccumulatorConfig) (rec : DomainRecord) (version now : Z) : recordAccumulatorState :=
  mkAccState version (extractDimensions (Dimensions cfg) rec) (extractMetrics (NumericMetrics cfg) rec) (expiresAtLocked cfg now).

(** ** Operations *)

Definition ApplyRecord (s : AccumulatorStateStore) (now : Z) (rec : DomainRecord) (version : Z) (op : Operation) : AccumulatorStateStore :=
  let key := Domain rec +:+ ":" +:+ Collection rec +:+ ":" +:+ OrganizationID rec in
  let '(s, sc) := getScope s key in
  let existing := arecords sc !! RecordID rec in
  if String.eqb op OperationDelete then
    match existing with
    | Some st =>
        if aversion st <=? version
        then let sc := removeStateLocked sc st in putScope s key (withRecords sc (delete (RecordID rec) (arecords sc)))
        else s
    | None => s
    end
  else
    let stale := match existing with Some st => version <? aversion st | None => false end in
    if stale then s
    else
      let sc := match existing with Some st => removeStateLocked sc st | None => sc end in
      let sc := addStateLocked sc (RecordID rec) (stateOf (acfg s) rec version now) in
      if MaxRecordsPerScope (acfg s) <? Z.of_nat (size (arecords sc)) then dropScope s key else putScope s key sc.

Definition expiredState (now : Z) (st : recordAccumulatorState) : bool :=
  match aexpiresAt st with Some t => t <? now | None => false end.

Definition evictState (now : Z) (acc : scopeAccumulator * Z) (ks : string * recordAccumulatorState) : scopeAccumulator * Z :=
  if expiredState now ks.2
  then let sc := removeStateLocked acc.1 ks.2 in (withRecords sc (delete ks.1 (arecords sc)), acc.2 + 1)
  else acc.

Definition evictScope (now : Z) (ranged : visit) (sc : scopeAccumulator) : scopeAccumulator * Z :=
  foldl (evictState now) (sc, 0) (ranged (arecords sc)).

(** [ranged]: how each scope is ranged over. *)
Definition EvictExpired (s : AccumulatorStateStore) (now : Z) (ranged : string → visit) : AccumulatorStateStore * Z :=
  if TTL (acfg s) <=? 0 then (s, 0)
  else (mkAccStore (acfg s) (map_imap (λ key sc, Some (evictScope now (ranged key) sc).1) (scopes s)),
        zsum (map (λ ks, (evictScope now (ranged ks.1) ks.2).2) (map_to_list (scopes s)))).

(** ** Summaries *)

Definition compareFacets (a b : FacetCount) : Z :=
  thenCompare (compareZ (Count b) (Count a)) (compareStr (FacetValue a) (FacetValue b)).

Definition facetsOf (freq : gmap string Z) : list FacetCount := map (λ vc, mkFacet vc.1 vc.2) (map_to_list freq).

Definition GetDimensionSummary (s : AccumulatorStateStore) (scope dimension : string) (topN : Z) :
    AccumulatorStateStore * DimensionSummary :=
  let '(s, sc) := getScope s scope in
  let freq := default ∅ (dimensionFrequencies sc !! dimension) in
  (s, if bool_decide (freq = ∅) then mkDimension dimension 0 0 []
      else
        let facets := facetsOf freq in
        let facets := if (0 <? topN) && (topN <? Z.of_nat (length facets))
                      then take (Z.to_nat topN) (sortFunc compareFacets facets) else facets in
        mkDimension dimension (Z.of_nat (size freq)) (zsum (map Count (facetsOf freq))) facets).

Definition GetMetricSummary (s : AccumulatorStateStore) (scope metricField : string) : AccumulatorStateStore * MetricSummary :=
  let '(s, sc) := getScope s scope in
  (s, match metrics sc !! metricField with Some a => summary a | None => zeroMetric end).

Definition manifestEntry (sc : scopeAccumulator) (topN : Z) (dim : string) : DimensionSummary :=
  let freq := default ∅ (dimensionFrequencies sc !! dim) in
  if bool_decide (freq = ∅) then mkDimension dim 0 0 []
  else
    let facets := sortFunc compareFacets (facetsOf freq) in
    mkDimension dim (Z.of_nat (size freq)) (zsum (map Count (facetsOf freq)))
      (if (0 <? topN) && (topN <? Z.of_nat (length facets)) then take (Z.to_nat topN) facets else facets).

Definition GetFacetManifest (s : AccumulatorStateStore) (scope : string) (topN : Z) : AccumulatorStateStore * list DimensionSummary :=
  let '(s, sc) := getScope s scope in (s, map (manifestEntry sc topN) (Dimensions (acfg s))).

End Store.

(** ** Tallies *)

Definition occurrences (v : string) (l : list string) : Z := Z.of_nat (length (filter (λ x, x = v) l)).

(** How often each value occurs in a list. *)
Definition tally (l : list string) : gmap string Z := foldr (λ v m, <[v := default 0 (m !! v) + 1]> m) ∅ l.

Lemma occurrences_cons v x l : occurrences v (x :: l) = (if decide (x = v) then 1 else 0) + occurrences v l.
Proof. unfold occurrences. rewrite filter_cons. destruct (decide (x = v)); cbn [length]; lia. Qed.

Lemma occurrences_pos v l : 0 < occurrences v l ↔ v ∈ l.
Proof.
  induction l as [|x l IH]; [unfold occurrences; cbn; split; [lia|by intros ?%elem_of_nil]|].
  rewrite occurrences_cons, elem_of_cons, <- IH. unfold occurrences. destruct (decide (x = v)) as [->|]; naive_solver lia.
Qed.

Lemma tally_lookup l v : tally l !! v = if decide (v ∈ l) then Some (occurrences v l) else None.
Proof.
  induction l as [|x l IH]; cbn [tally foldr]; [by rewrite lookup_empty, decide_False by apply not_elem_of_nil|].
  fold (tally l). rewrite occurrences_cons. destruct (decide (x = v)) as [->|Hne].
  - rewrite lookup_insert_eq, decide_True, IH by set_solver. f_equal. destruct (decide (v ∈ l)) as [Hin|Hin]; cbn; [lia|].
    rewrite <- occurrences_pos in Hin. unfold occurrences in *. lia.
  - rewrite lookup_insert_ne, IH by done. destruct (decide (v ∈ l)), (decide (v ∈ x :: l)); set_solver.
Qed.

Lemma tally_default l v : default 0 (tally l !! v) = occurrences v l.
Proof.
  rewrite tally_lookup. destruct (decide (v ∈ l)) as [|Hin]; [done|]. rewrite <- occurrences_pos in Hin. unfold occurrences in *. cbn. lia.
Qed.

#[export] Instance occurrences_perm v : Proper ((≡ₚ) ==> (=)) (occurrences v).
Proof. intros l k Hp. unfold occurrences. by rewrite Hp. Qed.

#[export] Instance tally_perm : Proper ((≡ₚ) ==> (=)) tally.
Proof.
  intros l k Hp. apply map_eq. intros v. rewrite !tally_lookup, (occurrences_perm v l k Hp).
  destruct (decide (v ∈ l)) as [Hl|Hl], (decide (v ∈ k)) as [Hk|Hk]; try done; rewrite Hp in Hl; done.
Qed.

Lemma tally_empty l : tally l = ∅ ↔ l = [].
Proof.
  split; [|by intros ->]. intros E. destruct l as [|x l]; [done|]. apply (f_equal (lookup x)) in E.
  rewrite tally_lookup, decide_True, lookup_empty in E by set_solver. done.
Qed.

Lemma dom_tally l : dom (tally l) = list_to_set l.
Proof. apply set_eq. intros v. rewrite elem_of_dom, tally_lookup, elem_of_list_to_set. destruct (decide (v ∈ l)); naive_solver. Qed.

Lemma tally_size l : size (tally l) = size (list_to_set l : gset string).
Proof. by rewrite <- size_dom, dom_tally. Qed.

Lemma add_tally limit l v : Z.of_nat (size (tally (v :: l))) ≤ limit → addValue limit (tally l) v = tally (v :: l).
Proof.
  intros Hs. unfold addValue. cbn [tally foldr]. fold (tally l). destruct (decide (v ∈ l)) as [Hin|Hin].
  - rewrite tally_default. apply occurrences_pos in Hin. rewrite (proj2 (Z.ltb_lt 0 _) Hin), orb_true_r. done.
  - rewrite !tally_size in *. rewrite (proj2 (Z.ltb_lt _ _)); [done|]. cbn [list_to_set foldr] in Hs.
    rewrite size_union in Hs by set_solver. rewrite size_singleton in Hs. lia.
Qed.

Lemma add_values limit vs l : Z.of_nat (size (tally (vs ++ l))) ≤ limit → foldl (addValue limit) (tally l) vs = tally (vs ++ l).
Proof.
  revert l. induction vs as [|v vs IH]; intros l Hs; cbn [foldl app]; [done|].
  assert (Z.of_nat (size (tally (v :: l))) ≤ limit) as Hv.
  { etrans; [|exact Hs]. rewrite !tally_size. apply inj_le, subseteq_size. set_solver. }
  rewrite add_tally by done. rewrite IH; [by rewrite <- Permutation_middle|]. by rewrite <- Permutation_middle.
Qed.

Lemma remove_tally l v : removeValue (tally (v :: l)) v = tally l.
Proof.
  unfold removeValue. rewrite tally_default. apply map_eq. intros x. rewrite occurrences_cons, decide_True by done.
  assert (0 ≤ occurrences v l) as H0 by (unfold occurrences; lia). pose proof (occurrences_pos v l) as Hp.
  destruct (Z.leb_spec (1 + occurrences v l) 1) as [Hl|Hl]; (destruct (decide (x = v)) as [->|Hne];
    [rewrite ?lookup_delete_eq, ?lookup_insert_eq|rewrite ?lookup_delete_ne, ?lookup_insert_ne by done]); rewrite !tally_lookup.
  - rewrite decide_False; [done|]. rewrite <- Hp. lia.
  - rewrite occurrences_cons, (decide_False (P := v = x)) by done. do 2 destruct (decide (_ ∈ _)); set_solver.
  - rewrite decide_True by (apply Hp; lia). f_equal. lia.
  - rewrite occurrences_cons, (decide_False (P := v = x)) by done. do 2 destruct (decide (_ ∈ _)); set_solver.
Qed.

Lemma remove_values vs l : foldl removeValue (tally (vs ++ l)) vs = tally l.
Proof. revert l. induction vs as [|v vs IH]; intros l; cbn [foldl app]; [done|]. by rewrite remove_tally. Qed.

Lemma remove_from_empty vs : foldl removeValue ∅ vs = ∅.
Proof. induction vs as [|v vs IH]; [done|]. cbn [foldl]. unfold removeValue at 2. rewrite lookup_empty. cbn. by rewrite delete_empty. Qed.

(** ** Passes over a map *)

(** A pass that touches each key of an association list on its own. *)
Lemma fold_pass {A B} (f : gmap string A → string * B → gmap string A) (g : option A → B → option A) (l : list (string * B)) :
  (∀ m k b k', f m (k, b) !! k' = if decide (k' = k) then g (m !! k) b else m !! k') →
  NoDup (l.*1) → ∀ m k,
  foldl f m l !! k = match list_find (λ kb, kb.1 = k) l with Some (_, kb) => g (m !! k) kb.2 | None => m !! k end.
Proof.
  intros Hf Hn. induction l as [|[k b] l IH]; intros m k'; [done|]. apply NoDup_cons in Hn as [Hk Hn].
  cbn [foldl list_find fst]. rewrite IH by done. destruct (decide (k = k')) as [->|Hne].
  - destruct (list_find (λ kb, kb.1 = k') l) as [[i kb]|] eqn:E.
    + apply list_find_Some in E as (E & Ek & _). destruct Hk. apply list_elem_of_fmap. exists kb. split; [done|by eapply list_elem_of_lookup_2].
    + by rewrite Hf, decide_True.
  - rewrite Hf, decide_False by done. by destruct (list_find _ l) as [[i kb]|].
Qed.

Lemma find_in_map {B} (m : gmap string B) k :
  list_find (λ kb, kb.1 = k) (map_to_list m) = None ∧ m !! k = None ∨
  ∃ i b, list_find (λ kb, kb.1 = k) (map_to_list m) = Some (i, (k, b)) ∧ m !! k = Some b.
Proof.
  destruct (list_find _ _) as [[i [k' b]]|] eqn:E.
  - right. apply list_find_Some in E as (E & Ek & _). cbn in Ek. subst k'. exists i, b. split; [done|].
    by apply elem_of_map_to_list, list_elem_of_lookup_2 with i.
  - left. split; [done|]. apply list_find_None in E. destruct (m !! k) as [b|] eqn:Eb; [|done].
    apply elem_of_map_to_list in Eb. rewrite Forall_forall in E. by destruct (E _ Eb).
Qed.

Lemma pass_map {A B} (f : gmap string A → string * B → gmap string A) (g : option A → B → option A) (d : gmap string B) m k :
  (∀ m k b k', f m (k, b) !! k' = if decide (k' = k) then g (m !! k) b else m !! k') →
  foldl f m (map_to_list d) !! k = match d !! k with Some b => g (m !! k) b | None => m !! k end.
Proof.
  intros Hf. rewrite (fold_pass f g) by (done || apply NoDup_fst_map_to_list).
  by destruct (find_in_map d k) as [[-> ->]|(i & b & -> & ->)].
Qed.

(** ** The reference: the records themselves *)

(** What a scan of a scope would see of one record. *)
Record shadow := mkShadow { sversion : Z; srecord : DomainRecord; sexpires : option Z }.

Section Reference.
Context (unmarshalStrings : string → option (list string)) (ParseFloat : string → option float64) (cfg : AccumulatorConfig).
Abbreviation dimsOf e := (extractDimensions unmarshalStrings (Dimensions cfg) (srecord e)).
Abbreviation numsOf e := (extractMetrics ParseFloat (NumericMetrics cfg) (srecord e)).

Definition valuesOf (dim : string) (m : gmap string shadow) : list string :=
  concat (map (λ ks, default [] (dimsOf ks.2 !! dim)) (map_to_list m)).

Definition numbersOf (metric : string) (m : gmap string shadow) : list float64 :=
  concat (map (λ ks, option_list (numsOf ks.2 !! metric)) (map_to_list m)).

(** Last writer wins per record; a scope past its bound is forgotten. *)
Definition specApply (m : gmap string (gmap string shadow)) (now : Z) (rec : DomainRecord) (version : Z) (op : Operation) :
    gmap string (gmap string shadow) :=
  let key := accScopeKey (Domain rec) (Collection rec) (OrganizationID rec) in
  let sc := default ∅ (m !! key) in
  let newer := match sc !! RecordID rec with Some e => sversion e <=? version | None => true end in
  if negb newer then m
  else if String.eqb op OperationDelete then <[key := delete (RecordID rec) sc]> m
  else
    let sc := <[RecordID rec := mkShadow version rec (expiresAtLocked cfg now)]> sc in
    if MaxRecordsPerScope cfg <? Z.of_nat (size sc) then delete key m else <[key := sc]> m.

Definition liveShadow (now : Z) (e : shadow) : bool := match sexpires e with Some t => now <=? t | None => true end.

Definition specEvict (m : gmap string (gmap string shadow)) (now : Z) : gmap string (gmap string shadow) :=
  if TTL cfg <=? 0 then m else (λ sc, filter (λ ke, liveShadow now ke.2 = true) sc) <$> m.

Inductive accOp := AccApply (now : Z) (rec : DomainRecord) (version : Z) (op : Operation) | AccEvict (now : Z) (ranged : string → visit).

(** A range visits every record of the scope once. *)
Definition ranges (o : accOp) : Prop :=
  match o with AccApply _ _ _ _ => True | AccEvict _ ranged => ∀ key m, ranged key m ≡ₚ map_to_list m end.

Definition accStep (s : AccumulatorStateStore) (o : accOp) : AccumulatorStateStore :=
  match o with
  | AccApply now rec version op => ApplyRecord unmarshalStrings ParseFloat s now rec version op
  | AccEvict now ranged => (EvictExpired s now ranged).1
  end.

Definition specStep (m : gmap string (gmap string shadow)) (o : accOp) : gmap string (gmap string shadow) :=
  match o with
  | AccApply now rec version op => specApply m now rec version op
  | AccEvict now _ => specEvict m now
  end.

(** No tracked dimension of the scope has more distinct values than the bound. *)
Definition fits (sc : gmap string shadow) : bool :=
  forallb (λ dim, Z.of_nat (size (list_to_set (valuesOf dim sc) : gset string)) <=? MaxDistinctPerDimension cfg) (Dimensions cfg).

Definition allFit (m : gmap string (gmap string shadow)) : bool := forallb (λ ks, fits ks.2) (map_to_list m).

Fixpoint fitsAlong (m : gmap string (gmap string shadow)) (ops : list accOp) : bool :=
  match ops with [] => true | o :: rest => allFit (specStep m o) && fitsAlong (specStep m o) rest end.

(** A metric whose numbers are integers in one unit, with less than 2^53 units in all. *)
Definition exactSum (e : Z) (l : list float64) : bool := forallb (exactIn e) l && (zsum (map (λ x, Z.abs (units e x)) l) <? 2 ^ 53).

Definition allExact (k : string) (e : Z) (m : gmap string (gmap string shadow)) : bool := forallb (λ ks, exactSum e (numbersOf k ks.2)) (map_to_list m).

Fixpoint exactAlong (k : string) (e : Z) (m : gmap string (gmap string shadow)) (ops : list accOp) : bool :=
  match ops with [] => true | o :: rest => allExact k e (specStep m o) && exactAlong k e (specStep m o) rest end.

(** ** The invariant of a scope *)

Definition shadowState (e : shadow) : recordAccumulatorState := mkAccState (sversion e) (dimsOf e) (numsOf e) (sexpires e).

Definition metric_ok (unit : option Z) (a : option numericAccumulator) (l : list float64) : Prop :=
  (∀ e, unit = Some e → unitRange e ∧ exactSum e l = true) ∧
  match a with
  | None => l = []
  | Some a => l ≠ [] ∧ acount a = Z.of_nat (length l) ∧ (∀ e, unit = Some e → asum a = fscale e (zsum (map (units e) l))) ∧
      ∀ x, x ∈ l → fless x (amin a) = false ∧ fless (amax a) x = false
  end.

(** [tracked]: a metric claimed to sum exactly, and its unit. *)
Context (tracked : option (string * Z)).

Definition unitOf (k : string) : option Z := match tracked with Some (k', e) => if decide (k' = k) then Some e else None | None => None end.

Definition exactNow (m : gmap string shadow) : Prop := ∀ k e, unitOf k = Some e → unitRange e ∧ exactSum e (numbersOf k m) = true.

Record acc_ok (sc : scopeAccumulator) (m : gmap string shadow) : Prop := {
  ao_records : arecords sc = shadowState <$> m;
  ao_freq : ∀ dim, default ∅ (dimensionFrequencies sc !! dim) = tally (valuesOf dim m);
  ao_metric : ∀ k, metric_ok (unitOf k) (metrics sc !! k) (numbersOf k m);
  ao_limit : maxDistinct sc = MaxDistinctPerDimension cfg
}.

Lemma exact_sum_perm e l k : l ≡ₚ k → exactSum e l = exactSum e k.
Proof.
  intros Hp. unfold exactSum. f_equal; [|by rewrite (zsum_perm _ _ (Permutation_map (λ x, Z.abs (units e x)) Hp))].
  apply eq_true_iff_eq. rewrite !forallb_forall. by setoid_rewrite Hp.
Qed.

Lemma metric_ok_perm u a l k : l ≡ₚ k → metric_ok u a l → metric_ok u a k.
Proof.
  intros Hp [He H]. split; [intros e Hu; rewrite <- (exact_sum_perm e l k Hp); by apply He|]. revert H. destruct a as [a|]; [|intros ->; by apply Permutation_nil_l in Hp].
  intros (Hn & Hc & Hs & Hb). split_and!.
  - intros ->. by apply Permutation_nil_r in Hp.
  - by rewrite <- (Permutation_length Hp).
  - intros e Hu. rewrite (Hs e Hu). by rewrite (zsum_perm _ _ (Permutation_map (units e) Hp)).
  - intros x. rewrite <- Hp. apply Hb.
Qed.

Lemma concat_perm {A} (l k : list (list A)) : l ≡ₚ k → concat l ≡ₚ concat k.
Proof. intros ->. done. Qed.

Lemma values_insert dim m k e : m !! k = None → valuesOf dim (<[k := e]> m) ≡ₚ default [] (dimsOf e !! dim) ++ valuesOf dim m.
Proof. intros Hk. unfold valuesOf. etrans; [apply concat_perm, Permutation_map, map_to_list_insert, Hk|]. done. Qed.

Lemma numbers_insert k' m k e : m !! k = None → numbersOf k' (<[k := e]> m) ≡ₚ option_list (numsOf e !! k') ++ numbersOf k' m.
Proof. intros Hk. unfold numbersOf. etrans; [apply concat_perm, Permutation_map, map_to_list_insert, Hk|]. done. Qed.

Lemma values_delete dim m k e : m !! k = Some e → valuesOf dim m ≡ₚ default [] (dimsOf e !! dim) ++ valuesOf dim (delete k m).
Proof. intros Hk. rewrite <- (insert_delete_id m k e Hk) at 1. apply values_insert, lookup_delete_eq. Qed.

Lemma numbers_delete k' m k e : m !! k = Some e → numbersOf k' m ≡ₚ option_list (numsOf e !! k') ++ numbersOf k' (delete k m).
Proof. intros Hk. rewrite <- (insert_delete_id m k e Hk) at 1. apply numbers_insert, lookup_delete_eq. Qed.

(** ** Passes, entry by entry *)

Lemma add_dimensions limit fs (d : gmap string (list string)) k :
  default ∅ (foldl (addDimension limit) fs (map_to_list d) !! k) = foldl (addValue limit) (default ∅ (fs !! k)) (default [] (d !! k)).
Proof.
  rewrite (pass_map _ (λ old vs, Some (foldl (addValue limit) (default ∅ old) vs))); [by destruct (d !! k)|].
  intros m k1 b k2. unfold addDimension. cbn [fst snd]. destruct (decide (k2 = k1)) as [->|]; [by rewrite lookup_insert_eq|by rewrite lookup_insert_ne].
Qed.

Lemma remove_dimensions fs (d : gmap string (list string)) k :
  default ∅ (foldl removeDimension fs (map_to_list d) !! k) = foldl removeValue (default ∅ (fs !! k)) (default [] (d !! k)).
Proof.
  rewrite (pass_map _ (λ old vs, match old with None => None | Some freq => let freq := foldl removeValue freq vs in
    if bool_decide (freq = ∅) then None else Some freq end)).
  - destruct (d !! k) as [vs|]; cbn [default]; [|done]. destruct (fs !! k) as [freq|]; cbn [default].
    + by case_bool_decide.
    + unfold id. by rewrite remove_from_empty.
  - intros m k1 b k2. unfold removeDimension. cbn [fst snd]. destruct (m !! k1) as [freq|] eqn:E.
    + case_bool_decide; (destruct (decide (k2 = k1)) as [->|]; [by rewrite ?lookup_insert_eq, ?lookup_delete_eq|by rewrite ?lookup_insert_ne, ?lookup_delete_ne]).
    + by destruct (decide (k2 = k1)) as [->|].
Qed.

Lemma add_metrics ms (d : gmap string float64) k :
  foldl addMetric ms (map_to_list d) !! k =
  match d !! k with Some v => Some (addNumber (default newNumericAccumulator (ms !! k)) v) | None => ms !! k end.
Proof.
  apply (pass_map _ (λ old v, Some (addNumber (default newNumericAccumulator old) v))). intros m k1 b k2. unfold addMetric. cbn [fst snd].
  destruct (decide (k2 = k1)) as [->|]; [by rewrite lookup_insert_eq|by rewrite lookup_insert_ne].
Qed.

Definition lessNumber (old : option numericAccumulator) (v : float64) : option numericAccumulator :=
  match old with
  | None => None
  | Some a => if acount a <=? 1 then None else Some (mkNumeric (acount a - 1) (fsub (asum a) v) (amin a) (amax a))
  end.

Lemma remove_metrics ms (d : gmap string float64) k :
  foldl removeMetric ms (map_to_list d) !! k = match d !! k with Some v => lessNumber (ms !! k) v | None => ms !! k end.
Proof.
  apply (pass_map _ lessNumber). intros m k1 b k2. unfold removeMetric, lessNumber. cbn [fst snd]. destruct (m !! k1) as [a|] eqn:E.
  - destruct (acount a <=? 1); (destruct (decide (k2 = k1)) as [->|]; [by rewrite ?lookup_insert_eq, ?lookup_delete_eq|by rewrite ?lookup_insert_ne, ?lookup_delete_ne]).
  - by destruct (decide (k2 = k1)) as [->|].
Qed.

Lemma exact_sum_cons e x l : exactSum e (x :: l) = true →
  exactSum e l = true ∧ x = fscale e (units e x) ∧ Z.abs (units e x) < 2 ^ 53 ∧ Z.abs (zsum (map (units e) l)) < 2 ^ 53 ∧
  Z.abs (units e x + zsum (map (units e) l)) < 2 ^ 53.
Proof.
  unfold exactSum. cbn [forallb map zsum]. intros [[Hx%bool_decide_eq_true Hl]%andb_true_iff Hz%Z.ltb_lt]%andb_true_iff.
  assert (Z.abs (zsum (map (units e) l)) ≤ zsum (map (λ x, Z.abs (units e x)) l)) as Ha by (clear; induction l as [|y l IH]; cbn [map zsum]; lia).
  rewrite Hl, (proj2 (Z.ltb_lt _ _)) by lia. split_and!; [done|exact Hx|lia..].
Qed.

Lemma metric_add u a l x : (∀ e, u = Some e → unitRange e ∧ exactSum e (x :: l) = true) → IsNaN x || IsInf x = false →
  metric_ok u a l → metric_ok u (Some (addNumber (default newNumericAccumulator a) x)) (x :: l).
Proof.
  intros Hu Hfin [He H]. split; [done|]. assert (∀ a0 : numericAccumulator, (∀ e, u = Some e → asum a0 = fscale e (zsum (map (units e) l))) →
    ∀ e, u = Some e → asum (addNumber a0 x) = fscale e (zsum (map (units e) (x :: l)))) as Hsum.
  { intros a0 Hs e E. destruct (Hu e E) as [Hr Hx]. apply exact_sum_cons in Hx as (_ & Ex & B1 & B2 & B3). cbn [addNumber asum map zsum].
    rewrite (Hs e E), Ex at 1. rewrite fadd_exact by (done || lia). f_equal. lia. }
  destruct a as [a|]; cbn [default].
  - unfold id. destruct H as (_ & Hc & Hs & Hb). split_and!; [done|cbn [addNumber acount length]; lia|by apply Hsum|]. cbn [addNumber amin amax].
    intros y [->|Hy]%elem_of_cons.
    + destruct (fless x (amin a)) eqn:E1, (fless (amax a) x) eqn:E2; by rewrite ?fless_irrefl.
    + destruct (Hb y Hy) as [B1 B2]. split.
      * destruct (fless x (amin a)) eqn:E1; [|done]. apply not_true_is_false. intros E. by rewrite (fless_trans y x (amin a)) in B1.
      * destruct (fless (amax a) x) eqn:E2; [|done]. apply not_true_is_false. intros E. by rewrite (fless_trans (amax a) x y) in B2.
  - subst l. split_and!; [done|done|by apply Hsum|]. intros y ->%list_elem_of_singleton. cbn [addNumber newNumericAccumulator amin amax].
    assert (fless x (S754_infinity false) = true ∧ fless (S754_infinity true) x = true) as [-> ->] by (by destruct x as [|[]| |[] m e]). by rewrite fless_irrefl.
Qed.

Lemma metric_less u a l x : metric_ok u a (x :: l) → metric_ok u (lessNumber a x) l.
Proof.
  intros [He H]. split; [intros e E; destruct (He e E) as [Hr (Hl & _)%exact_sum_cons]; done|].
  destruct a as [a|]; cbn [lessNumber]; [|done]. destruct H as (_ & Hc & Hs & Hb). cbn [length] in Hc.
  destruct (Z.leb_spec (acount a) 1) as [Hle|Hle].
  - destruct l; [done|]. cbn [length] in Hc. lia.
  - cbn [acount asum amin amax]. split_and!; [intros ->; cbn in Hc; lia|lia| |intros y Hy; apply Hb; set_solver].
    intros e E. destruct (He e E) as [Hr (Hl & Ex & B1 & B2 & B3)%exact_sum_cons]. rewrite (Hs e E). cbn [map zsum]. rewrite Ex at 2.
    rewrite fsub_exact by (done || lia). f_equal. lia.
Qed.

Lemma nums_finite e k x : numsOf e !! k = Some x → IsNaN x || IsInf x = false.
Proof.
  unfold extractMetrics. assert (∀ k x, (∅ : gmap string float64) !! k = Some x → IsNaN x || IsInf x = false) as Hm by (intros k0 x0; by rewrite lookup_empty).
  revert Hm k x. generalize (∅ : gmap string float64). induction (NumericMetrics cfg) as [|n ns IH]; intros m Hm k x; cbn [foldl]; [apply Hm|]. apply IH.
  intros k0 x0. destruct (metricValue ParseFloat (srecord e) n) as [z|] eqn:E; [|apply Hm]. intros [[_ <-]|[_ H]]%lookup_insert_Some; [|by eapply Hm].
  revert E. unfold metricValue. destruct (Get _ _) as [v|]; [|done]. destruct (ScalarIndex v) as [[kd t]|]; [|done]. destruct (_ || _ || _); [|done].
  destruct (ParseFloat t) as [f|]; [|done]. destruct (IsNaN f || IsInf f) eqn:Ef; [done|]. by intros [= <-].
Qed.

(** ** Operations on a scope *)

Lemma remove_ok sc m k e : acc_ok sc m → m !! k = Some e →
  acc_ok (withRecords (removeStateLocked sc (shadowState e)) (delete k (arecords sc))) (delete k m).
Proof.
  intros [Hr Hf Hm Hl] Hk. split; cbn [arecords dimensionFrequencies metrics maxDistinct removeStateLocked withRecords].
  - by rewrite Hr, fmap_delete.
  - intros dim. rewrite remove_dimensions, Hf, (values_delete dim m k e Hk). apply remove_values.
  - intros k'. rewrite remove_metrics. pose proof (metric_ok_perm _ _ _ _ (numbers_delete k' m k e Hk) (Hm k')) as Hn.
    cbn [ametrics shadowState] in *. destruct (numsOf e !! k') as [v|]; cbn [option_list app] in Hn; [by apply metric_less|done].
  - done.
Qed.

Lemma values_untracked dim e : dim ∉ Dimensions cfg → dimsOf e !! dim = None.
Proof.
  intros Hn. unfold extractDimensions. assert ((∅ : gmap string (list string)) !! dim = None) as Hm by apply lookup_empty.
  revert Hm Hn. generalize (∅ : gmap string (list string)). induction (Dimensions cfg) as [|d ds IH]; intros m Hm Hn; cbn [foldl]; [done|].
  apply IH; [|set_solver]. destruct (dimensionValues _ _ d); [done|]. rewrite lookup_insert_ne by set_solver. done.
Qed.

Lemma values_untracked_all dim m : dim ∉ Dimensions cfg → valuesOf dim m = [].
Proof.
  intros Hn. unfold valuesOf. induction (map_to_list m) as [|[k e] l IH]; [done|]. cbn [map concat snd]. by rewrite values_untracked.
Qed.

Lemma fits_bound m dim : 0 < MaxDistinctPerDimension cfg → fits m = true →
  Z.of_nat (size (tally (valuesOf dim m))) ≤ MaxDistinctPerDimension cfg.
Proof.
  intros Hpos Hf. rewrite tally_size. destruct (decide (dim ∈ Dimensions cfg)) as [Hd|Hd].
  - unfold fits in Hf. rewrite forallb_forall in Hf. apply Z.leb_le, Hf. by apply list_elem_of_In.
  - rewrite values_untracked_all by done. assert (size (list_to_set [] : gset string) = 0%nat) as -> by done. lia.
Qed.

Lemma add_ok sc m k e : 0 < MaxDistinctPerDimension cfg → acc_ok sc m → m !! k = None → fits (<[k := e]> m) = true → exactNow (<[k := e]> m) →
  acc_ok (addStateLocked sc k (shadowState e)) (<[k := e]> m).
Proof.
  intros Hpos [Hr Hf Hm Hl] Hk Hfit Hex. split; cbn [arecords dimensionFrequencies metrics maxDistinct addStateLocked].
  - by rewrite Hr, fmap_insert.
  - intros dim. pose proof (fits_bound _ dim Hpos Hfit) as Hb. rewrite (values_insert dim m k e Hk) in Hb.
    rewrite add_dimensions, Hf, Hl, (values_insert dim m k e Hk). by apply add_values.
  - intros k'. rewrite add_metrics. pose proof (numbers_insert k' m k e Hk) as Hp. apply (metric_ok_perm _ _ (option_list (numsOf e !! k') ++ numbersOf k' m)); [by symmetry|].
    cbn [ametrics shadowState]. destruct (numsOf e !! k') as [v|] eqn:Ev; cbn [option_list app] in *; [|done]. apply metric_add; [|by eapply nums_finite|done].
    intros u Hu. destruct (Hex k' u Hu) as [Hur Hx]. rewrite (exact_sum_perm u _ _ Hp) in Hx. by split.
  - done.
Qed.

(** ** Eviction *)

Lemma acc_evict_fold now l : ∀ acc m, NoDup (l.*1) → (∀ k st, (k, st) ∈ l → ∃ e, m !! k = Some e ∧ st = shadowState e) → acc_ok acc.1 m →
  acc_ok (foldl (evictState now) acc l).1 (foldl (λ m ks, if expiredState now ks.2 then delete ks.1 m else m) m l).
Proof.
  induction l as [|[k st] l IH]; intros acc m Hn Hl Ha; cbn [foldl]; [done|]. apply NoDup_cons in Hn as [Hk Hn].
  destruct (Hl k st) as (e & He & ->); [set_solver|]. unfold evictState at 2. cbn [fst snd].
  assert (∀ k' st', (k', st') ∈ l → k' ≠ k) as Hne.
  { intros k' st' Hin ->. apply Hk, list_elem_of_fmap. by exists (k, st'). }
  destruct (expiredState now (shadowState e)).
  - apply IH; [done| |exact (remove_ok acc.1 m k e Ha He)]. intros k' st' Hin. rewrite lookup_delete_ne by (symmetry; by eapply Hne). apply Hl. set_solver.
  - apply IH; [done| |done]. intros k' st' Hin. apply Hl. set_solver.
Qed.

(** Whatever the order, the records left are those that have not expired. *)
Lemma evicted_map now (m : gmap string shadow) l : NoDup (l.*1) → l ≡ₚ map_to_list (shadowState <$> m) →
  filter (λ ke, liveShadow now ke.2 = true) m = foldl (λ m ks, if expiredState now ks.2 then delete ks.1 m else m) m l.
Proof.
  intros Hn Hp. apply map_eq. intros k. rewrite (fold_pass _ (λ old st, if expiredState now st then None else old)) by
    (done || (intros m' k1 b k2; cbn [fst snd]; destruct (expiredState now b);
      (destruct (decide (k2 = k1)) as [->|]; [by rewrite ?lookup_delete_eq|by rewrite ?lookup_delete_ne]))).
  assert (∀ st, (k, st) ∈ l ↔ ∃ e, m !! k = Some e ∧ st = shadowState e) as Hin.
  { intros st. rewrite Hp, elem_of_map_to_list, lookup_fmap, fmap_Some. done. }
  assert (∀ e, expiredState now (shadowState e) = negb (liveShadow now e)) as Hex.
  { intros e. unfold expiredState, liveShadow. cbn [aexpiresAt shadowState]. destruct (sexpires e); [apply Z.ltb_antisym|done]. }
  destruct (list_find _ l) as [[i [k' st]]|] eqn:E.
  - apply list_find_Some in E as (E & Ek & _). cbn in Ek. subst k'. apply list_elem_of_lookup_2 in E. apply Hin in E as (e & Ee & ->). cbn [snd].
    rewrite Hex. destruct (liveShadow now e) eqn:El; cbn [negb]; [rewrite Ee; by apply map_lookup_filter_Some|].
    apply map_lookup_filter_None. right. intros x Ex. cbn. congruence.
  - apply list_find_None in E. destruct (m !! k) as [e|] eqn:Ee; [|apply map_lookup_filter_None; by left].
    rewrite Forall_forall in E. destruct (E (k, shadowState e)); [|done]. apply Hin. eauto.
Qed.

Lemma evict_ok now (ranged : visit) sc m : (∀ m, ranged m ≡ₚ map_to_list m) → acc_ok sc m →
  acc_ok (evictScope now ranged sc).1 (filter (λ ke, liveShadow now ke.2 = true) m).
Proof.
  intros Hrange Ha. unfold evictScope. pose proof (ao_records _ _ Ha) as Hr. rewrite Hr. set (l := ranged (shadowState <$> m)).
  pose proof (Hrange (shadowState <$> m)) as Hp. fold l in Hp. assert (NoDup (l.*1)) as Hn by (rewrite Hp; apply NoDup_fst_map_to_list).
  assert (∀ k st, (k, st) ∈ l → (shadowState <$> m) !! k = Some st) as Hin by (intros k st; rewrite Hp; apply elem_of_map_to_list).
  rewrite (evicted_map now m l Hn Hp). apply acc_evict_fold; [done| |done]. intros k st Hk%Hin.
  rewrite lookup_fmap in Hk. apply fmap_Some in Hk as (e & ? & ->). eauto.
Qed.

(** ** The store *)

Record acc_store_ok (s : AccumulatorStateStore) (A : gmap string (gmap string shadow)) : Prop := {
  as_cfg : acfg s = cfg;
  as_some : ∀ key sc, scopes s !! key = Some sc → acc_ok sc (default ∅ (A !! key));
  as_none : ∀ key, scopes s !! key = None → default ∅ (A !! key) = ∅
}.

(** The unit claimed has room for integers below 2^53. *)
Definition unitOk : Prop := ∀ k e, unitOf k = Some e → unitRange e.

Lemma new_scope_ok : unitOk → 0 < MaxDistinctPerDimension cfg → acc_ok (newScopeAccumulator (MaxDistinctPerDimension cfg)) ∅.
Proof.
  intros Hu Hpos. split; cbn [arecords dimensionFrequencies metrics maxDistinct newScopeAccumulator].
  - by rewrite fmap_empty.
  - intros dim. by rewrite lookup_empty.
  - intros k. rewrite lookup_empty. split; [|done]. intros e He. split; [by eapply Hu|done].
  - by rewrite (proj2 (Z.leb_gt _ _) Hpos).
Qed.

Lemma get_scope_ok s A key : unitOk → 0 < MaxDistinctPerDimension cfg → acc_store_ok s A →
  ∃ s' sc, getScope s key = (s', sc) ∧ acc_store_ok s' A ∧ scopes s' !! key = Some sc ∧ acc_ok sc (default ∅ (A !! key)).
Proof.
  intros Hu Hpos [Hc H1 H2]. unfold getScope. destruct (scopes s !! key) as [sc|] eqn:E.
  { exists s, sc. split_and!; [done|by split|done|by apply H1]. }
  eexists _, _. split; [reflexivity|]. pose proof (H2 key E) as Hn. pose proof (new_scope_ok Hu Hpos) as Hnew. rewrite <- Hc in Hnew.
  split_and!; [split|apply lookup_insert_eq|by rewrite Hn]; cbn [acfg scopes].
  - done.
  - intros k sc. destruct (decide (k = key)) as [->|]; [rewrite lookup_insert_eq; intros [= <-]; by rewrite Hn|].
    rewrite lookup_insert_ne by done. apply H1.
  - intros k. destruct (decide (k = key)) as [->|]; [by rewrite lookup_insert_eq|]. rewrite lookup_insert_ne by done. apply H2.
Qed.

Lemma put_scope_ok s A key sc m : acc_store_ok s A → acc_ok sc m → acc_store_ok (putScope s key sc) (<[key := m]> A).
Proof.
  intros [Hc H1 H2] Hok. split; cbn [acfg scopes putScope].
  - done.
  - intros k sc'. destruct (decide (k = key)) as [->|]; [rewrite !lookup_insert_eq; by intros [= <-]|]. rewrite !lookup_insert_ne by done. apply H1.
  - intros k. destruct (decide (k = key)) as [->|]; [by rewrite lookup_insert_eq|]. rewrite !lookup_insert_ne by done. apply H2.
Qed.

Lemma same_scope_ok s A key : acc_store_ok s A → acc_store_ok s (<[key := default ∅ (A !! key)]> A).
Proof.
  intros [Hc H1 H2]. split; [done| |]; intros k; (destruct (decide (k = key)) as [->|];
    [rewrite lookup_insert_eq; cbn [default]; unfold id|rewrite lookup_insert_ne by done]); [apply H1|apply H1|apply H2|apply H2].
Qed.

Lemma drop_scope_ok s A key : acc_store_ok s A → acc_store_ok (dropScope s key) (delete key A).
Proof.
  intros [Hc H1 H2]. split; cbn [acfg scopes dropScope]; [done| |]; intros k; (destruct (decide (k = key)) as [->|];
    [rewrite !lookup_delete_eq|rewrite !lookup_delete_ne by done]); [done|apply H1|done|apply H2].
Qed.

Lemma all_fit_insert A key m : allFit (<[key := m]> A) = true → fits m = true.
Proof.
  unfold allFit. rewrite forallb_forall. intros Hf. specialize (Hf (key, m)). cbn [snd] in Hf. apply Hf, list_elem_of_In, elem_of_map_to_list, lookup_insert_eq.
Qed.

(** The claimed metric sums exactly in every scope. *)
Definition allExactNow (m : gmap string (gmap string shadow)) : Prop := ∀ k e, tracked = Some (k, e) → allExact k e m = true.

Lemma all_exact_insert A key m : unitOk → allExactNow (<[key := m]> A) → exactNow m.
Proof.
  intros Hu Hx k e He. split; [by eapply Hu|]. unfold unitOf in He. destruct tracked as [[k' e']|] eqn:Et; [|done].
  destruct (decide (k' = k)) as [->|]; [|done]. injection He as ->. specialize (Hx k e Et). unfold allExact in Hx. rewrite forallb_forall in Hx.
  apply (Hx (key, m)), list_elem_of_In, elem_of_map_to_list, lookup_insert_eq.
Qed.

Lemma apply_ok s A now rec version op : unitOk → 0 < MaxDistinctPerDimension cfg → acc_store_ok s A →
  allFit (specApply A now rec version op) = true → allExactNow (specApply A now rec version op) →
  acc_store_ok (ApplyRecord unmarshalStrings ParseFloat s now rec version op) (specApply A now rec version op).
Proof.
  intros Hu Hpos Hs Hfit Hexact. unfold ApplyRecord. destruct (get_scope_ok s A (accScopeKey (Domain rec) (Collection rec) (OrganizationID rec)) Hu Hpos Hs)
    as (s' & sc & Eg & Hs' & Hsc & Hok). unfold accScopeKey in Eg. rewrite Eg. unfold specApply in *.
  fold (accScopeKey (Domain rec) (Collection rec) (OrganizationID rec)). set (key := accScopeKey _ _ _) in *. set (m := default ∅ (A !! key)) in *.
  pose proof (ao_records _ _ Hok) as Hr. pose proof (as_cfg _ _ Hs') as Hc. rewrite Hr, lookup_fmap.
  destruct (m !! RecordID rec) as [e|] eqn:E; cbn [fmap option_fmap option_map] in *; cbn [aversion shadowState].
  - rewrite Z.ltb_antisym. destruct (Z.leb_spec (sversion e) version) as [Hv|Hv];
      cbn [negb] in *; [|by destruct (String.eqb op OperationDelete)]. destruct (String.eqb op OperationDelete).
    + apply put_scope_ok; [done|]. by apply (remove_ok sc m).
    + set (e' := mkShadow version rec (expiresAtLocked cfg now)) in *. rewrite Hc. change (stateOf unmarshalStrings ParseFloat cfg rec version now) with (shadowState e').
      assert (addStateLocked (removeStateLocked sc (shadowState e)) (RecordID rec) (shadowState e') =
        addStateLocked (withRecords (removeStateLocked sc (shadowState e)) (delete (RecordID rec) (arecords sc))) (RecordID rec) (shadowState e')) as ->.
      { unfold addStateLocked, withRecords. cbn [arecords dimensionFrequencies metrics maxDistinct removeStateLocked]. by rewrite insert_delete_eq. }
      cbn [arecords addStateLocked withRecords]. rewrite insert_delete_eq, Hr, <- fmap_insert, map_size_fmap.
      destruct (MaxRecordsPerScope cfg <? _) eqn:El; [by apply drop_scope_ok|]. apply put_scope_ok; [done|].
      rewrite <- (insert_delete_eq m (RecordID rec) e'). apply add_ok; [done|rewrite <- Hr; by apply remove_ok|apply lookup_delete_eq| |].
      * rewrite insert_delete_eq. by apply (all_fit_insert A key).
      * rewrite insert_delete_eq. by apply (all_exact_insert A key).
  - cbn [negb] in *. destruct (String.eqb op OperationDelete).
    + rewrite delete_id by done. by apply same_scope_ok.
    + set (e' := mkShadow version rec (expiresAtLocked cfg now)) in *. rewrite Hc. change (stateOf unmarshalStrings ParseFloat cfg rec version now) with (shadowState e').
      cbn [arecords addStateLocked]. rewrite Hr, <- fmap_insert, map_size_fmap.
      destruct (MaxRecordsPerScope cfg <? _) eqn:El; [by apply drop_scope_ok|]. apply put_scope_ok; [done|]. apply add_ok; [done..| |].
      * by apply (all_fit_insert A key).
      * by apply (all_exact_insert A key).
Qed.

Lemma evict_store_ok s A now ranged : (∀ key m, ranged key m ≡ₚ map_to_list m) → acc_store_ok s A →
  acc_store_ok (EvictExpired s now ranged).1 (specEvict A now).
Proof.
  intros Hrange Hs. unfold EvictExpired, specEvict. rewrite (as_cfg _ _ Hs). destruct (TTL cfg <=? 0); [done|]. destruct Hs as [Hc H1 H2].
  assert (∀ key, default ∅ (((λ sc, filter (λ ke, liveShadow now ke.2 = true) sc) <$> A) !! key) =
    filter (λ ke, liveShadow now ke.2 = true) (default ∅ (A !! key))) as Hd.
  { intros key. rewrite lookup_fmap. destruct (A !! key); cbn; [done|]. unfold id. by rewrite map_filter_empty. }
  split; cbn [fst acfg scopes]; [done| |].
  - intros key sc. rewrite map_lookup_imap. intros (sc0 & E & [= <-])%bind_Some. rewrite Hd. by apply evict_ok, H1.
  - intros key. rewrite map_lookup_imap, bind_None, Hd. intros [E|(? & _ & ?)]; [|done]. revert E. intros E. by rewrite (H2 key E), map_filter_empty.
Qed.

Lemma run_acc_ok ops : unitOk → 0 < MaxDistinctPerDimension cfg → Forall ranges ops → ∀ s A, acc_store_ok s A → fitsAlong A ops = true →
  (∀ k e, tracked = Some (k, e) → exactAlong k e A ops = true) → acc_store_ok (foldl accStep s ops) (foldl specStep A ops).
Proof.
  intros Hu Hpos Hr. induction Hr as [|o ops Ho _ IH]; intros s A Hs Hf Hx; cbn [foldl fitsAlong] in *; [done|].
  apply andb_true_iff in Hf as [Hf Hrest]. assert (∀ k e, tracked = Some (k, e) → allExact k e (specStep A o) = true ∧ exactAlong k e (specStep A o) ops = true) as Hx'.
  { intros k e E. by apply andb_true_iff, Hx. }
  apply IH; [|done|naive_solver]. destruct o; [apply apply_ok; [done..|intros k e E; by apply Hx']|by apply evict_store_ok].
Qed.

End Reference.

(** ** Totals *)

Definition total (m : gmap string Z) : Z := zsum (map Count (facetsOf m)).

Lemma total_insert m k x : m !! k = None → total (<[k := x]> m) = x + total m.
Proof.
  intros Hk. unfold total, facetsOf. rewrite !map_map. erewrite zsum_perm; [|apply Permutation_map, map_to_list_insert, Hk]. done.
Qed.

Lemma total_update m k x y : m !! k = Some y → total (<[k := x]> m) = total m - y + x.
Proof.
  intros Hk. rewrite <- (insert_delete_eq m k x), total_insert by apply lookup_delete_eq.
  pose proof (total_insert (delete k m) k y (lookup_delete_eq _ _)) as Hd. rewrite insert_delete_id in Hd by done. lia.
Qed.

Lemma tally_total l : total (tally l) = Z.of_nat (length l).
Proof.
  induction l as [|v l IH]; [done|]. cbn [tally foldr length]. fold (tally l). destruct (tally l !! v) as [n|] eqn:E; cbn [default].
  - rewrite (total_update _ _ _ n), IH by done. unfold id. lia.
  - rewrite total_insert, IH by done. lia.
Qed.

(** ** Properties *)

(** What a summary reports of the numbers of a metric. *)
Lemma metric_summary_ok unmarshalStrings ParseFloat cfg tracked s A scope k : unitOk tracked → 0 < MaxDistinctPerDimension cfg →
  acc_store_ok unmarshalStrings ParseFloat cfg tracked s A →
  let r := (GetMetricSummary s scope k).2 in let numbers := numbersOf ParseFloat cfg k (default ∅ (A !! scope)) in
  MCount r = Z.of_nat (length numbers) ∧ (∀ x, x ∈ numbers → fless x (MMin r) = false ∧ fless (MMax r) x = false) ∧
  MMean r = (if MCount r =? 0 then fzero else fdiv (MSum r) (fscale 0 (MCount r))) ∧
  ∀ e, unitOf tracked k = Some e → exactSum e numbers = true ∧ MSum r = fscale e (zsum (map (units e) numbers)).
Proof.
  intros Hu Hpos Hs. destruct (get_scope_ok _ _ cfg tracked s A scope Hu Hpos Hs) as (s' & sc & Eg & Hs' & _ & [Hr Hf Hm Hl]).
  unfold GetMetricSummary. rewrite Eg. cbn [snd]. destruct (Hm k) as [He H]. destruct (metrics sc !! k) as [a|].
  - destruct H as (Hn & Hc & Hsum & Hb). unfold summary. rewrite (proj2 (Z.eqb_neq (acount a) 0)) by (rewrite Hc; destruct (numbersOf ParseFloat cfg k _); [done|cbn; lia]).
    cbn [MCount MSum MMin MMax MMean]. split_and!; [done|done| |intros e E; split; [by apply He|by apply Hsum]].
    rewrite (proj2 (Z.eqb_neq (acount a) 0)); [done|]. rewrite Hc. destruct (numbersOf ParseFloat cfg k _); [done|cbn; lia].
  - rewrite H in *. split_and!; [done|by intros x ?%elem_of_nil|done|]. intros e E. split; [by apply He|done].
Qed.

Lemma new_store_ok unmarshalStrings ParseFloat tracked cfg0 ops : let s0 := NewAccumulatorStateStore cfg0 in let cfg := acfg s0 in
  unitOk tracked → Forall ranges ops → fitsAlong unmarshalStrings cfg ∅ ops = true →
  (∀ k e, tracked = Some (k, e) → exactAlong ParseFloat cfg k e ∅ ops = true) →
  0 < MaxDistinctPerDimension cfg ∧
  acc_store_ok unmarshalStrings ParseFloat cfg tracked (foldl (accStep unmarshalStrings ParseFloat) s0 ops) (foldl (specStep cfg) ∅ ops).
Proof.
  intros s0 cfg Hu Hr Hfit Hx. assert (0 < MaxDistinctPerDimension cfg) as Hpos.
  { cbn. destruct (Z.leb_spec (MaxDistinctPerDimension cfg0) 0); lia. }
  split; [done|]. apply run_acc_ok; [done..| |done|done]. split; [done| |]; intros key; cbn; rewrite lookup_empty; done.
Qed.


(** ** Witness *)

Definition noStrings (s : string) : option (list string) := None.
Definition digits (s : string) : option float64 := fscale 0 <$> parseInt64 s.

Definition saleConfig (distinct recs : Z) : AccumulatorConfig := mkAccConfig ["color"] ["price"] distinct recs 0.
Definition sale (id color : string) (price : Z) : DomainRecord :=
  mkRecord "shop" "sales" "t1" id [mkField "color" (StringValue color); mkField "price" (IntValue price)] [] 1 1.
Definition upsertSale (id color : string) (price version : Z) : accOp := AccApply 0 (sale id color price) version OperationUpsert.
Definition deleteSale (id : string) (version : Z) : accOp := AccApply 0 (sale id "" 0) version OperationDelete.

Definition saleOps : list accOp :=
  [upsertSale "a" "red" 5 1; upsertSale "b" "blue" 7 2; upsertSale "a" "blue" 6 3; upsertSale "c" "red" 1 4; deleteSale "c" 5].
Definition saleStore (cfg : AccumulatorConfig) (ops : list accOp) : AccumulatorStateStore :=
  foldl (accStep noStrings digits) (NewAccumulatorStateStore cfg) ops.


(** ** Findings *)

(** Subtracting a record never moves the extremes: after the only expensive
    sale is corrected, the reported maximum is a price no record has. *)
Theorem extremes_outlive_their_record :
  let s := saleStore (saleConfig 10 10) [upsertSale "a" "red" 5 1; upsertSale "b" "red" 900 2; upsertSale "b" "red" 9 3] in
  let r := (GetMetricSummary s "shop:sales:t1" "price").2 in
  MCount r = 2 ∧ MSum r = fscale 0 14 ∧ MMax r = fscale 0 900.
Proof. vm_compute. done. Qed.

(** A value refused for lack of room is still subtracted when its record goes,
    from the counts of the records that were let in later. *)
Theorem refused_value_is_subtracted :
  let ops := [upsertSale "a" "red" 1 1; upsertSale "b" "blue" 1 2; deleteSale "a" 3; upsertSale "c" "blue" 1 4; deleteSale "b" 5] in
  let s := saleStore (saleConfig 1 10) ops in
  TotalCount (GetDimensionSummary s "shop:sales:t1" "color" 5).2 = 0 ∧
  MCount (GetMetricSummary s "shop:sales:t1" "price").2 = 1.
Proof. vm_compute. done. Qed.

(** A scope past its bound of records is dropped, but the next write brings it
    back with that record alone: it reports one record of three. *)
Theorem dropped_scope_reports_partial_data :
  let s := saleStore (saleConfig 10 1) [upsertSale "a" "red" 5 1; upsertSale "b" "red" 7 2; upsertSale "c" "red" 9 3] in
  let r := (GetMetricSummary s "shop:sales:t1" "price").2 in MCount r = 1 ∧ MSum r = fscale 0 9.
Proof. vm_compute. done. Qed.

(** Scopes are joined with a colon that their parts may hold, so the aggregates
    of one tenant can include the records of another. *)
Theorem colon_merges_tenant_aggregates :
  let foreign := mkRecord "shop" "sales:t1" "x" "f" [mkField "price" (IntValue 50)] [] 1 1 in
  let own := mkRecord "shop" "sales" "t1:x" "o" [mkField "price" (IntValue 1)] [] 1 1 in
  let s := saleStore (saleConfig 10 10) [AccApply 0 foreign 1 OperationUpsert; AccApply 0 own 2 OperationUpsert] in
  OrganizationID foreign ≠ OrganizationID own ∧
  MSum (GetMetricSummary s (accScopeKey "shop" "sales" "t1:x") "price").2 = fscale 0 51.
Proof. split; [done|vm_compute; reflexivity]. Qed.

(** Sums round: one is lost beside 2^53, and taking 2^53 away again leaves nothing, where
    a scan of the one record left finds one. *)
Theorem incremental_sum_drifts :
  let s := saleStore (saleConfig 10 10) [upsertSale "a" "red" 9007199254740992 1; upsertSale "b" "red" 1 2; deleteSale "a" 3] in
  let r := (GetMetricSummary s "shop:sales:t1" "price").2 in
  MCount r = 1 ∧ MSum r = fzero ∧ fsum [fscale 0 1] = fscale 0 1.
Proof. vm_compute. done. Qed.
