(* ===== verification/MirrorSweep.v ===== *)
(** * MirrorSweep: the projection sweeper (src/server-kit/go/hermes/mirror_sweep.go)

    A sweeper polls registered sources and pushes what changed since each
    source's cursor through the projected store, in bounded batches. A change
    signal flags a source and wakes the loop; the loop also passes over all
    sources when its interval elapses. What a source yields is an input: its
    rows in order, and whether reading them ended in an error; a source stops at
    the first row whose visit fails. Pushing a batch is a parameter. Instants
    are nanoseconds, 0 the zero time.

    Flagging, waking, the start of a sweep and its end are separate steps, since
    [Notify] and [SweepSource] run on other goroutines than [Run]. *)

From Stdlib Require Import ZArith Lia Ascii String Sorting.Sorted.
From stdpp Require Import base strings gmap fin_maps fin_sets numbers sorting list.
From S2P Require Import Prelude GoStrings RecordData.

Open Scope string_scope.
Open Scope list_scope.
Open Scope Z_scope.

(** ** Batches

    The changed-rows lane and the delete lanes share their shape and differ in
    what a batch is pushed to. *)
Section Batches.
Context {S : Type} (push : S → list DomainRecord → S * bool) (batchSize : Z).

Record batcher := mkBatcher { bstore : S; batch : list DomainRecord; next : Z; swept : Z }.

Definition flush (b : batcher) : batcher * bool :=
  match batch b with
  | [] => (b, true)
  | _ =>
      let '(s, ok) := push (bstore b) (batch b) in
      (mkBatcher s (if ok then [] else batch b) (next b) (swept b), ok)
  end.

(** One visit. *)
Definition addRow (b : batcher) (rec : DomainRecord) (at_ : Z) : batcher * bool :=
  let b := mkBatcher (bstore b) (batch b ++ [rec]) (if next b <? at_ then at_ else next b) (swept b + 1) in
  if batchSize <=? Z.of_nat (length (batch b)) then flush b else (b, true).

Fixpoint visitRows (b : batcher) (rows : list (DomainRecord * Z)) : batcher * bool :=
  match rows with
  | [] => (b, true)
  | (rec, at_) :: rest =>
      match addRow b rec at_ with
      | (b, true) => visitRows b rest
      | (b, false) => (b, false)
      end
  end.

(** The number swept, the next cursor, and whether the pass succeeded. *)
Definition sweepRows (s : S) (cursor : Z) (rows : list (DomainRecord * Z)) (readErr : bool) : S * (Z * Z * bool) :=
  let '(b, ok) := visitRows (mkBatcher s [] cursor 0) rows in
  let '(b, ok) := if ok && negb readErr then flush b else (b, false) in
  (bstore b, if ok then (swept b, next b, true) else (swept b - Z.of_nat (length (batch b)), cursor, false)).

End Batches.

(** ** The sweeper *)

Inductive sourceKind := ChangedSource | DeletedSource | DeletedRecordsSource.

Record mirrorSource := mkSource { skind : sourceKind; cursor : Z; dirty : bool }.

Record MirrorSweeper := mkSweeper {
  sources : list string; byName : gmap string mirrorSource; wake : bool; BatchSize : Z;
  Swept : Z; Errors : Z; Signalled : Z; Coalesced : Z; Unroutable : Z
}.

Definition NewMirrorSweeper (size : Z) : MirrorSweeper := mkSweeper [] ∅ false (if size <=? 0 then 256 else size) 0 0 0 0 0.

(** [register]: false is the error for a name that is taken. *)
Definition register (m : MirrorSweeper) (name : string) (kind : sourceKind) : MirrorSweeper * bool :=
  match byName m !! name with
  | Some _ => (m, false)
  | None =>
      (mkSweeper (sources m ++ [name]) (<[name := mkSource kind 0 false]> (byName m)) (wake m) (BatchSize m)
         (Swept m) (Errors m) (Signalled m) (Coalesced m) (Unroutable m), true)
  end.

(** [AddSource], [AddDeleteSource] and [AddDeleteRecordSource]. *)
Definition AddSource (m : MirrorSweeper) (name : string) (kind : sourceKind) : MirrorSweeper * bool :=
  let name := TrimSpace name in if String.eqb name "" then (m, false) else register m name kind.

Definition ScopeSourceName (domain collection : string) : string := TrimSpace domain +:+ ":" +:+ TrimSpace collection.
Definition ScopeDeleteSourceName (domain collection : string) : string := ScopeSourceName domain collection +:+ ":deletes".

(** [AddScopeSource] and its delete counterparts. *)
Definition AddScopeSource (m : MirrorSweeper) (domain collection : string) (kind : sourceKind) : MirrorSweeper * bool :=
  AddSource m (match kind with ChangedSource => ScopeSourceName domain collection | _ => ScopeDeleteSourceName domain collection end) kind.

Definition hasSource (m : MirrorSweeper) (name : string) : bool := bool_decide (is_Some (byName m !! name)).

Definition putSource (m : MirrorSweeper) (name : string) (src : mirrorSource) : MirrorSweeper :=
  mkSweeper (sources m) (<[name := src]> (byName m)) (wake m) (BatchSize m) (Swept m) (Errors m) (Signalled m) (Coalesced m) (Unroutable m).

Definition setDirty (m : MirrorSweeper) (name : string) (d : bool) : MirrorSweeper :=
  match byName m !! name with Some src => putSource m name (mkSource (skind src) (cursor src) d) | None => m end.

Definition setWake (m : MirrorSweeper) (w : bool) : MirrorSweeper :=
  mkSweeper (sources m) (byName m) w (BatchSize m) (Swept m) (Errors m) (Signalled m) (Coalesced m) (Unroutable m).

Definition addCounts (m : MirrorSweeper) (sw er si co un : Z) : MirrorSweeper :=
  mkSweeper (sources m) (byName m) (wake m) (BatchSize m) (Swept m + sw) (Errors m + er) (Signalled m + si) (Coalesced m + co)
    (Unroutable m + un).

Inductive notice := NoSource | Joined | MustWake.

(** [Notify] up to the send: the flag is swapped in one step. *)
Definition notifyFlag (m : MirrorSweeper) (name : string) : MirrorSweeper * notice :=
  let name := TrimSpace name in
  match byName m !! name with
  | None => (addCounts m 0 0 0 0 1, NoSource)
  | Some src => if dirty src then (addCounts m 0 0 0 1 0, Joined) else (setDirty m name true, MustWake)
  end.

(** [Notify] undisturbed; false is the error for an unknown name. *)
Definition Notify (m : MirrorSweeper) (name : string) : MirrorSweeper * bool :=
  match notifyFlag m name with
  | (m, NoSource) => (m, false)
  | (m, Joined) => (m, true)
  | (m, MustWake) => (setWake m true, true)
  end.

(** The start of [sweepOne] clears the flag before anything is read; its end
    counts, and moves the cursor of a pass that succeeded. *)
Definition beginSweep (m : MirrorSweeper) (name : string) : MirrorSweeper := setDirty m name false.

Definition endSweep (m : MirrorSweeper) (name : string) (result : Z * Z * bool) : MirrorSweeper :=
  let '(n, next, ok) := result in
  let m := addCounts m n 0 0 0 0 in
  if ok then match byName m !! name with Some src => putSource m name (mkSource (skind src) next (dirty src)) | None => m end else m.

Section Sweeps.
Context {S : Type} (upsertBatch deleteBatch : S → list DomainRecord → S * bool).

Definition pushFor (kind : sourceKind) : S → list DomainRecord → S * bool :=
  match kind with ChangedSource => upsertBatch | _ => deleteBatch end.

(** [read]: what each source yields past a cursor. *)
Context (read : S → string → Z → list (DomainRecord * Z) * bool).

Definition sweepOne (m : MirrorSweeper) (s : S) (name : string) : MirrorSweeper * S * (Z * bool) :=
  let m := beginSweep m name in
  match byName m !! name with
  | None => (m, s, (0, false))
  | Some src =>
      let '(rows, readErr) := read s name (cursor src) in
      let '(s, (n, next, ok)) := sweepRows (pushFor (skind src)) (BatchSize m) s (cursor src) rows readErr in
      (endSweep m name (n, next, ok), s, (n, ok))
  end.

Definition SweepSource (m : MirrorSweeper) (s : S) (name : string) : MirrorSweeper * S * (Z * bool) :=
  if hasSource m name then
    let '(m, s, (n, ok)) := sweepOne m s name in ((if ok then m else addCounts m 0 1 0 0 0), s, (n, ok))
  else (addCounts m 0 0 0 0 1, s, (0, false)).

(** One pass over the sources; [alive]: the context is not done when a source's
    turn comes. *)
Fixpoint sweepAll (alive : string → bool) (names : list string) (m : MirrorSweeper) (s : S) (total : Z) : MirrorSweeper * S * (Z * bool) :=
  match names with
  | [] => (m, s, (total, true))
  | name :: rest =>
      if negb (alive name) then (m, s, (total, false))
      else
        let '(m, s, (n, ok)) := sweepOne m s name in
        sweepAll alive rest (if ok then m else addCounts m 0 1 0 0 0) s (total + n)
  end.

Definition SweepOnce (alive : string → bool) (m : MirrorSweeper) (s : S) : MirrorSweeper * S * (Z * bool) := sweepAll alive (sources m) m s 0.

Fixpoint sweepFlagged (alive : string → bool) (names : list string) (m : MirrorSweeper) (s : S) : MirrorSweeper * S * bool :=
  match names with
  | [] => (m, s, true)
  | name :: rest =>
      if negb (alive name) then (m, s, false)
      else
        match byName m !! name with
        | Some src =>
            if negb (dirty src) then sweepFlagged alive rest m s
            else
              let '(m, s, (n, ok)) := sweepOne (addCounts m 0 0 1 0 0) s name in
              sweepFlagged alive rest (if ok then m else setDirty (addCounts m 0 1 0 0 0) name true) s
        | None => sweepFlagged alive rest m s
        end
  end.

Definition sweepSignalled (alive : string → bool) (m : MirrorSweeper) (s : S) : MirrorSweeper * S * bool := sweepFlagged alive (sources m) m s.

(** [Run] until a pass finds nothing: productive passes follow each other. *)
Fixpoint runPasses (fuel : nat) (m : MirrorSweeper) (s : S) : MirrorSweeper * S :=
  match fuel with
  | O => (m, s)
  | Datatypes.S fuel =>
      let '(m, s, (n, ok)) := SweepOnce (λ _, true) m s in
      if 0 <? n then runPasses fuel m s else (m, s)
  end.

End Sweeps.

(** ** What a sweep pushes *)

Section Pushed.
Context {S : Type} (push : S → list DomainRecord → S * bool) (batchSize : Z).

(** Batches that were pushed one after the other, all accepted. *)
Inductive pushed : S → list (list DomainRecord) → S → Prop :=
| pushed_nil s : pushed s [] s
| pushed_cons s b s1 bs s2 : push s b = (s1, true) → pushed s1 bs s2 → pushed s (b :: bs) s2.

Lemma pushed_snoc s bs s1 b s2 : pushed s bs s1 → push s1 b = (s2, true) → pushed s (bs ++ [b]) s2.
Proof. induction 1 as [s|s x s' bs s'' Hx _ IH]; intros Hb; cbn; econstructor; [done|constructor|done|by apply IH]. Qed.

Definition goodBatch (b : list DomainRecord) : Prop := b ≠ [] ∧ Z.of_nat (length b) ≤ batchSize.

(** The visits so far, for the rows [seen]: what was pushed, and what waits. *)
Record visit_ok (s : S) (c : Z) (seen : list (DomainRecord * Z)) (b : batcher (S := S)) (bs : list (list DomainRecord)) : Prop := {
  vo_good : Forall goodBatch bs;
  vo_split : concat bs ++ batch b = map fst seen;
  vo_swept : swept b = Z.of_nat (length seen);
  vo_next : next b = foldl Z.max c (map snd seen)
}.

Lemma flush_ok s c seen b bs b' : visit_ok s c seen b bs → pushed s bs (bstore b) → Z.of_nat (length (batch b)) ≤ batchSize →
  flush push b = (b', true) → ∃ bs', visit_ok s c seen b' bs' ∧ pushed s bs' (bstore b') ∧ batch b' = [].
Proof.
  intros Hv Hp Hl. unfold flush. destruct (batch b) as [|r rs] eqn:E; [intros [= <-]; eauto|]. rewrite <- E.
  destruct (push (bstore b) (batch b)) as [s1 []] eqn:Ep; [|done]. intros [= <-]. exists (bs ++ [batch b]). split_and!; [|by eapply pushed_snoc|done].
  destruct Hv as [H1 H2 H3 H4]. split; cbn [batch swept next]; [|by rewrite concat_app, app_nil_r, concat_cons, app_nil_r|done|done].
  apply Forall_app. split; [done|]. constructor; [|done]. split; [by rewrite E|by rewrite E].
Qed.

Lemma flush_fails b b' : flush push b = (b', false) → push (bstore b) (batch b) = (bstore b', false) ∧ batch b' = batch b ∧ swept b' = swept b.
Proof.
  unfold flush. destruct (batch b) as [|r rs] eqn:E; [done|]. rewrite <- E. destruct (push (bstore b) (batch b)) as [s1 []]; [done|]. by intros [= <-].
Qed.

Lemma visit_rows_ok s c rows : 0 < batchSize → ∀ seen b bs,
  visit_ok s c seen b bs → pushed s bs (bstore b) → Z.of_nat (length (batch b)) < batchSize →
  match visitRows push batchSize b rows with
  | (b', true) => ∃ bs', visit_ok s c (seen ++ rows) b' bs' ∧ pushed s bs' (bstore b') ∧ Z.of_nat (length (batch b')) < batchSize
  | (b', false) => ∃ bs' s1 before, before `prefix_of` seen ++ rows ∧ visit_ok s c before b' bs' ∧ pushed s bs' s1 ∧ push s1 (batch b') = (bstore b', false)
  end.
Proof.
  intros Hpos. induction rows as [|[rec t] rows IH]; intros seen b bs Hv Hp Hl; cbn [visitRows]; [rewrite app_nil_r; eauto|].
  rewrite (cons_middle (rec, t) seen rows), app_assoc. unfold addRow. set (b1 := mkBatcher _ _ _ _).
  assert (visit_ok s c (seen ++ [(rec, t)]) b1 bs) as Hv1.
  { destruct Hv as [H1 H2 H3 H4]. split; cbn [batch swept next b1].
    - done.
    - by rewrite app_assoc, H2, map_app.
    - rewrite length_app, H3. cbn. lia.
    - rewrite map_app, foldl_app, <- H4. cbn. destruct (Z.ltb_spec (next b) t); lia. }
  destruct (Z.leb_spec batchSize (Z.of_nat (length (batch b1)))) as [Hb|Hb]; [|by apply (IH _ b1 bs)].
  assert (Z.of_nat (length (batch b1)) ≤ batchSize) as Hle by (cbn [batch b1] in *; rewrite length_app in *; cbn in *; lia).
  destruct (flush push b1) as [b2 []] eqn:Ef.
  - destruct (flush_ok s c _ b1 bs b2 Hv1 Hp Hle Ef) as (bs' & Hv2 & Hp2 & He). apply (IH _ b2 bs'); [done|done|]. rewrite He. cbn. lia.
  - destruct (flush_fails b1 b2 Ef) as (Hf & Hbt & Hsw). exists bs, (bstore b1), (seen ++ [(rec, t)]).
    split_and!; [by eexists|destruct Hv1 as [H1 H2 H3 H4]|done|by rewrite Hbt]. unfold flush in Ef. split; [done|by rewrite Hbt|by rewrite Hsw|].
    destruct (batch b1); [done|]. destruct (push _ _) as [s2 []]; [done|]. by injection Ef as <-.
Qed.

(** With a store that accepts everything, a pass fails only with its reading. *)
Lemma sweep_rows_accepted s c rows readErr : (∀ s b, snd (push s b) = true) → snd (snd (sweepRows push batchSize s c rows readErr)) = negb readErr.
Proof.
  intros Hacc. assert (∀ b, snd (flush push b) = true) as Hfl.
  { intros b. unfold flush. destruct (batch b); [done|]. specialize (Hacc (bstore b) (d :: l)). by destruct (push _ _). }
  assert (∀ b, snd (visitRows push batchSize b rows) = true) as Hv.
  { induction rows as [|[rec t] rows IH]; intros b; cbn; [done|]. unfold addRow. destruct (_ <=? _); [|apply IH].
    set (b1 := mkBatcher _ _ _ _). specialize (Hfl b1). destruct (flush push b1) as [b2 ok]. cbn in Hfl. subst ok. apply IH. }
  unfold sweepRows. specialize (Hv (mkBatcher s [] c 0)). destruct (visitRows _ _ _ _) as [b ok]. cbn in Hv. subst ok.
  destruct readErr; [done|]. cbn. specialize (Hfl b). destruct (flush push b) as [b2 ok]. cbn in Hfl. by subst ok.
Qed.

(** What a pass over the rows of a source did: all of them and the cursor moved
    past the last, or a prefix and the cursor stands. *)
Lemma sweep_rows_ok s c rows readErr s' n nx ok : 0 < batchSize → sweepRows push batchSize s c rows readErr = (s', (n, nx, ok)) →
  ∃ bs, Forall goodBatch bs ∧ n = Z.of_nat (length (concat bs)) ∧
    if ok then readErr = false ∧ concat bs = map fst rows ∧ pushed s bs s' ∧ nx = foldl Z.max c (map snd rows)
    else nx = c ∧ concat bs `prefix_of` map fst rows ∧ ∃ s1, pushed s bs s1 ∧ (s' = s1 ∨ ∃ b, push s1 b = (s', false)).
Proof.
  intros Hpos. unfold sweepRows. pose proof (visit_rows_ok s c rows Hpos [] (mkBatcher s [] c 0) []) as Hvis.
  destruct (visitRows push batchSize _ rows) as [b ok1]. specialize (Hvis ltac:(by split) ltac:(constructor) ltac:(cbn; lia)).
  assert (∀ bs seen, visit_ok s c seen b bs → swept b - Z.of_nat (length (batch b)) = Z.of_nat (length (concat bs))) as Hcount.
  { intros bs seen [_ H2 H3 _]. rewrite H3. apply (f_equal length) in H2. rewrite length_app, length_map in H2. lia. }
  destruct ok1; cbn [andb]; [|destruct Hvis as (bs & s1 & before & [tl Hpre] & Hv & Hp & Hf); intros [= <- <- <- <-];
    exists bs; split_and!; [apply Hv|by eapply Hcount|done| |eauto]].
  2: { cbn in Hpre. rewrite Hpre, map_app, <- (vo_split _ _ _ _ _ Hv), <- app_assoc. by eexists. }
  destruct Hvis as (bs & Hv & Hp & Hl). cbn [app] in Hv. destruct readErr; cbn [negb].
  { intros [= <- <- <- <-]. exists bs. split_and!; [apply Hv|by eapply Hcount|done| |by eauto]. rewrite <- (vo_split _ _ _ _ _ Hv). by eexists. }
  destruct (flush push b) as [b2 []] eqn:Ef; intros [= <- <- <- <-].
  - destruct (flush_ok s c rows b bs b2 Hv Hp ltac:(lia) Ef) as (bs' & [H1 H2 H3 H4] & Hp2 & He). rewrite He, app_nil_r in H2.
    exists bs'. split_and!; [done| |done|done|done|done]. by rewrite H2, length_map.
  - destruct (flush_fails b b2 Ef) as (Hf & Hbt & Hsw). exists bs. split_and!; [apply Hv|rewrite Hsw, Hbt; by eapply Hcount|done| |by eauto].
    rewrite <- (vo_split _ _ _ _ _ Hv). by eexists.
Qed.

End Pushed.

(** ** One source's turn *)

Section Turn.
Context {S : Type} (upsertBatch deleteBatch : S → list DomainRecord → S * bool).
Context (read : S → string → Z → list (DomainRecord * Z) * bool).

Lemma lookup_put m name src : byName (putSource m name src) = <[name := src]> (byName m).
Proof. done. Qed.

Lemma set_dirty_lookup m name src d : byName m !! name = Some src →
  byName (setDirty m name d) = <[name := mkSource (skind src) (cursor src) d]> (byName m).
Proof. intros H. unfold setDirty. by rewrite H. Qed.

Lemma begin_lookup m name src : byName m !! name = Some src → byName (beginSweep m name) !! name = Some (mkSource (skind src) (cursor src) false).
Proof. intros H. unfold beginSweep. rewrite (set_dirty_lookup _ _ _ _ H). apply lookup_insert_eq. Qed.

(** Setting a flag touches nothing but the flag. *)
Lemma set_dirty_rest m name d : sources (setDirty m name d) = sources m ∧ BatchSize (setDirty m name d) = BatchSize m ∧
  Swept (setDirty m name d) = Swept m ∧ wake (setDirty m name d) = wake m.
Proof. unfold setDirty. by destruct (byName m !! name). Qed.

Lemma sweep_one_ok m s name src m' s' n ok :
  0 < BatchSize m → byName m !! name = Some src → sweepOne upsertBatch deleteBatch read m s name = (m', s', (n, ok)) →
  let push := pushFor upsertBatch deleteBatch (skind src) in
  let '(rows, readErr) := read s name (cursor src) in
  ∃ bs, Forall (goodBatch (BatchSize m)) bs ∧ n = Z.of_nat (length (concat bs)) ∧ Swept m' = Swept m + n ∧
    ∃ after, byName m' = <[name := after]> (byName m) ∧ skind after = skind src ∧ dirty after = false ∧
      if ok then readErr = false ∧ concat bs = map fst rows ∧ pushed push s bs s' ∧ cursor after = foldl Z.max (cursor src) (map snd rows)
      else cursor after = cursor src ∧ concat bs `prefix_of` map fst rows ∧
           ∃ s1, pushed push s bs s1 ∧ (s' = s1 ∨ ∃ b, push s1 b = (s', false)).
Proof.
  intros Hpos Hsrc. unfold sweepOne. rewrite (begin_lookup m name src Hsrc). cbn [cursor skind].
  destruct (set_dirty_rest m name false) as (Hso & Hbs & Hsw & _). unfold beginSweep. rewrite Hbs.
  destruct (read s name (cursor src)) as [rows readErr]. destruct (sweepRows _ _ _ _ _ _) as [s1 [[n1 nx] ok1]] eqn:E.
  intros [= <- <- <- <-]. destruct (sweep_rows_ok _ _ _ _ _ _ _ _ _ _ Hpos E) as (bs & Hg & Hn & Hres). exists bs. split_and!; [done|done| |].
  { unfold endSweep. cbn [byName addCounts]. rewrite <- Hsw. destruct ok1; [|done]. by destruct (byName (setDirty m name false) !! name). }
  unfold endSweep. cbn [byName addCounts]. pose proof (begin_lookup m name src Hsrc) as Hb. unfold beginSweep in Hb. destruct ok1.
  - rewrite Hb, lookup_put. cbn [skind dirty byName addCounts]. exists (mkSource (skind src) nx false).
    split_and!; [|done|done|tauto|tauto|tauto|tauto]. rewrite (set_dirty_lookup _ _ _ _ Hsrc). apply insert_insert_eq.
  - exists (mkSource (skind src) (cursor src) false). cbn [byName addCounts]. rewrite (set_dirty_lookup _ _ _ _ Hsrc). split_and!; try done; tauto.
Qed.

(** One turn of a registered source pushes its rows in order, in non-empty
    batches no larger than the batch size, and counts exactly what the store
    accepted. When the reading and every push succeed, all rows were pushed and the
    cursor stands at the latest of them; otherwise a prefix was, the cursor stands
    where it stood, and the next turn reads from there again. *)
Theorem turn_is_all_or_reread m s name src m' s' n ok :
  0 < BatchSize m → byName m !! name = Some src → sweepOne upsertBatch deleteBatch read m s name = (m', s', (n, ok)) →
  let push := pushFor upsertBatch deleteBatch (skind src) in
  let '(rows, readErr) := read s name (cursor src) in
  ∃ bs, Forall (goodBatch (BatchSize m)) bs ∧ n = Z.of_nat (length (concat bs)) ∧ Swept m' = Swept m + n ∧
    ∃ after, byName m' = <[name := after]> (byName m) ∧ skind after = skind src ∧ dirty after = false ∧
      if ok then readErr = false ∧ concat bs = map fst rows ∧ pushed push s bs s' ∧ cursor after = foldl Z.max (cursor src) (map snd rows)
      else cursor after = cursor src ∧ concat bs `prefix_of` map fst rows ∧
           ∃ s1, pushed push s bs s1 ∧ (s' = s1 ∨ ∃ b, push s1 b = (s', false)).
Proof. apply sweep_one_ok. Qed.

End Turn.

(** *** A store that refuses a batch with a given record. *)
Definition demoRow (id : string) (t : Z) : DomainRecord * Z := (mkRecord "d" "c" "o" id [] [] 0 t, t).

Definition demoPush (s : list string) (b : list DomainRecord) : list string * bool :=
  if existsb (λ r, String.eqb (RecordID r) "bad") b then (s, false) else (s ++ map RecordID b, true).

(** Two rows fit a batch: the first pair is pushed, the second refused. *)
Definition demoSweeper : MirrorSweeper := fst (AddScopeSource (NewMirrorSweeper 2) "d" "c" ChangedSource).
Definition demoRead (s : list string) (name : string) (c : Z) : list (DomainRecord * Z) * bool :=
  (filter (λ r, c < snd r) [demoRow "a" 10; demoRow "b" 20; demoRow "x" 30; demoRow "bad" 40; demoRow "e" 50], false).

Lemma turn_is_all_or_reread_witness :
  ∃ m', sweepOne demoPush demoPush demoRead demoSweeper [] "d:c" = (m', ["a"; "b"], (2, false)) ∧
        0 < BatchSize demoSweeper ∧ Swept m' = 2 ∧ ∃ after, byName m' = <["d:c" := after]> (byName demoSweeper) ∧ cursor after = 0.
Proof.
  destruct (sweepOne demoPush demoPush demoRead demoSweeper [] "d:c") as [[m' s'] [n ok]] eqn:E.
  pose proof (f_equal (λ r, (snd (fst r), snd r)) E) as Es. vm_compute in Es. injection Es as <- <- <-.
  exists m'. split; [done|]. split; [done|].
  destruct (turn_is_all_or_reread demoPush demoPush demoRead demoSweeper [] "d:c" (mkSource ChangedSource 0 false) m' ["a"; "b"] 2 false
    ltac:(done) ltac:(vm_compute; reflexivity) E) as (bs & _ & _ & Hs & after & Hb & _ & _ & Hc & _).
  split; [exact Hs|]. exists after. split; [exact Hb|exact Hc].
Defined.

(** ** Signals against sweeps

    The loop, the signalling goroutines between flagging a source and sending the
    wake, and the callers of [SweepSource], in any order. A sweep is in two
    stages: its flag is cleared, then (once it holds the source's lock) it reads.
    What it reads and pushes is the previous section's; here a sweep ends well or
    not. [asked] and [failed] are bookkeeping: the sources signalled since their
    last read began, and those the loop re-flagged after a failed sweep. *)

Inductive phase :=
| Waiting
| Checking (rest : list string)
| CheckSweep (name : string) (hasRead : bool) (rest : list string)
| Passing (rest : list string)
| PassSweep (name : string) (hasRead : bool) (rest : list string).

Record world := mkWorld {
  sweeper : MirrorSweeper; loop : phase; senders : list string; callers : list (string * bool);
  asked : gset string; failed : gset string
}.

Definition startLoop (m : MirrorSweeper) : world := mkWorld m (Passing (sources m)) [] [] ∅ ∅.

Inductive step : world → world → Prop :=
| step_register m p ss cs a f name kind m' : AddSource m name kind = (m', true) →
    step (mkWorld m p ss cs a f) (mkWorld m' p ss cs a f)
| step_unroutable m p ss cs a f name m' : notifyFlag m name = (m', NoSource) →
    step (mkWorld m p ss cs a f) (mkWorld m' p ss cs a f)
| step_joined m p ss cs a f name m' : notifyFlag m name = (m', Joined) →
    step (mkWorld m p ss cs a f) (mkWorld m' p ss cs ({[TrimSpace name]} ∪ a) f)
| step_flag m p ss cs a f name m' : notifyFlag m name = (m', MustWake) →
    step (mkWorld m p ss cs a f) (mkWorld m' p (TrimSpace name :: ss) cs ({[TrimSpace name]} ∪ a) f)
| step_send m p ss1 name ss2 cs a f :
    step (mkWorld m p (ss1 ++ name :: ss2) cs a f) (mkWorld (setWake m true) p (ss1 ++ ss2) cs a f)
(* waitForWork *)
| step_timer m ss cs a f : step (mkWorld m Waiting ss cs a f) (mkWorld m (Passing (sources m)) ss cs a f)
| step_wake m ss cs a f : wake m = true →
    step (mkWorld m Waiting ss cs a f) (mkWorld (setWake m false) (Checking (sources m)) ss cs a f)
(* sweepSignalled *)
| step_clean m src name rest ss cs a f : byName m !! name = Some src → dirty src = false →
    step (mkWorld m (Checking (name :: rest)) ss cs a f) (mkWorld m (Checking rest) ss cs a f)
| step_flagged m src name rest ss cs a f : byName m !! name = Some src → dirty src = true →
    step (mkWorld m (Checking (name :: rest)) ss cs a f)
         (mkWorld (beginSweep (addCounts m 0 0 1 0 0) name) (CheckSweep name false rest) ss cs a (f ∖ {[name]}))
| step_check_read m name rest ss cs a f :
    step (mkWorld m (CheckSweep name false rest) ss cs a f) (mkWorld m (CheckSweep name true rest) ss cs (a ∖ {[name]}) f)
| step_check_ok m name rest ss cs a f n next :
    step (mkWorld m (CheckSweep name true rest) ss cs a f) (mkWorld (endSweep m name (n, next, true)) (Checking rest) ss cs a f)
| step_check_fail m name rest ss cs a f n next :
    step (mkWorld m (CheckSweep name true rest) ss cs a f)
         (mkWorld (setDirty (addCounts (endSweep m name (n, next, false)) 0 1 0 0 0) name true) (Checking rest) ss cs a ({[name]} ∪ f))
| step_checked m ss cs a f : step (mkWorld m (Checking []) ss cs a f) (mkWorld m Waiting ss cs a f)
(* SweepOnce *)
| step_pass m name rest ss cs a f :
    step (mkWorld m (Passing (name :: rest)) ss cs a f) (mkWorld (beginSweep m name) (PassSweep name false rest) ss cs a (f ∖ {[name]}))
| step_pass_read m name rest ss cs a f :
    step (mkWorld m (PassSweep name false rest) ss cs a f) (mkWorld m (PassSweep name true rest) ss cs (a ∖ {[name]}) f)
| step_pass_end m name rest ss cs a f n next (ok : bool) :
    step (mkWorld m (PassSweep name true rest) ss cs a f)
         (mkWorld (let m := endSweep m name (n, next, ok) in if ok then m else addCounts m 0 1 0 0 0) (Passing rest) ss cs a f)
| step_again m ss cs a f : step (mkWorld m (Passing []) ss cs a f) (mkWorld m (Passing (sources m)) ss cs a f)
| step_passed m ss cs a f : step (mkWorld m (Passing []) ss cs a f) (mkWorld m Waiting ss cs a f)
(* SweepSource on another goroutine *)
| step_caller m p ss cs a f name : hasSource m name = true →
    step (mkWorld m p ss cs a f) (mkWorld (beginSweep m name) p ss ((name, false) :: cs) a (f ∖ {[name]}))
| step_caller_read m p ss cs1 name cs2 a f :
    step (mkWorld m p ss (cs1 ++ (name, false) :: cs2) a f) (mkWorld m p ss (cs1 ++ (name, true) :: cs2) (a ∖ {[name]}) f)
| step_caller_end m p ss cs1 name cs2 a f n next (ok : bool) :
    step (mkWorld m p ss (cs1 ++ (name, true) :: cs2) a f)
         (mkWorld (let m := endSweep m name (n, next, ok) in if ok then m else addCounts m 0 1 0 0 0) p ss (cs1 ++ cs2) a f).

Inductive reachable (m : MirrorSweeper) : world → Prop :=
| reach_start : reachable m (startLoop m)
| reach_step w w' : reachable m w → step w w' → reachable m w'.

(** A sweep of the source has cleared its flag and not read yet. *)
Definition aboutToRead (w : world) (name : string) : Prop :=
  (name, false) ∈ callers w ∨
  match loop w with CheckSweep n false _ => n = name | PassSweep n false _ => n = name | _ => False end.

(** The signalled pass under way will look at the source. *)
Definition toCheck (p : phase) : list string :=
  match p with Checking rest => rest | CheckSweep _ _ rest => rest | _ => [] end.

Definition isDirty (m : MirrorSweeper) (name : string) : bool := match byName m !! name with Some src => dirty src | None => false end.

Record signals_ok (w : world) : Prop := {
  sg_names : ∀ n, is_Some (byName (sweeper w) !! n) → n ∈ sources (sweeper w);
  sg_asked : ∀ n, n ∈ asked w → isDirty (sweeper w) n = true ∨ aboutToRead w n;
  sg_dirty : ∀ n, isDirty (sweeper w) n = true →
    wake (sweeper w) = true ∨ n ∈ senders w ∨ n ∈ toCheck (loop w) ∨ n ∈ failed w
}.

(** Two sweepers with the same names, flags and wake. *)
Record same_flags (m m' : MirrorSweeper) : Prop := {
  sf_sources : sources m' = sources m; sf_wake : wake m' = wake m;
  sf_dirty : ∀ n, isDirty m' n = isDirty m n; sf_some : ∀ n, is_Some (byName m' !! n) ↔ is_Some (byName m !! n)
}.

#[global] Instance same_flags_refl : Reflexive same_flags.
Proof. by split. Qed.
#[global] Instance same_flags_trans : Transitive same_flags.
Proof. intros a b c [] []. split; try congruence; naive_solver. Qed.

Lemma same_flags_counts m a b c d e : same_flags m (addCounts m a b c d e).
Proof. by split. Qed.

Lemma same_flags_put m name src src' : byName m !! name = Some src → dirty src' = dirty src → same_flags m (putSource m name src').
Proof.
  intros H Hd. split; [done|done|intros n; unfold isDirty; rewrite lookup_put|intros n; rewrite lookup_put];
    (destruct (decide (name = n)) as [<-|]; [rewrite lookup_insert_eq, H|by rewrite lookup_insert_ne]); [done|split; by eauto].
Qed.

Lemma same_flags_end m name n next ok : same_flags m (endSweep m name (n, next, ok)).
Proof.
  unfold endSweep. etrans; [apply same_flags_counts|]. destruct ok; [|by split].
  destruct (byName _ !! name) as [src|] eqn:E; [by eapply same_flags_put|by split].
Qed.

Lemma same_flags_finish m name n next (ok : bool) :
  same_flags m (let m := endSweep m name (n, next, ok) in if ok then m else addCounts m 0 1 0 0 0).
Proof. etrans; [apply (same_flags_end m name n next ok)|]. destruct ok; [by split|apply same_flags_counts]. Qed.

(** Setting a flag. *)
Lemma is_dirty_set m name d n : isDirty (setDirty m name d) n = true → (n = name ∧ d = true) ∨ (isDirty m n = true ∧ (n ≠ name ∨ d = true)).
Proof.
  unfold isDirty, setDirty. destruct (byName m !! name) as [src|] eqn:E; [rewrite lookup_put|by destruct d; destruct (decide (n = name)) as [->|]; rewrite ?E; auto].
  destruct (decide (name = n)) as [<-|]; [rewrite lookup_insert_eq; cbn; auto|rewrite lookup_insert_ne by done; auto].
Qed.

Lemma is_dirty_keeps m name d n : isDirty m n = true → n ≠ name ∨ d = true → isDirty (setDirty m name d) n = true.
Proof.
  unfold isDirty, setDirty. destruct (byName m !! name) as [src|] eqn:E; [rewrite lookup_put|done].
  destruct (decide (name = n)) as [<-|]; [rewrite lookup_insert_eq; cbn; naive_solver|by rewrite lookup_insert_ne].
Qed.

Lemma is_dirty_raise m name : is_Some (byName m !! name) → isDirty (setDirty m name true) name = true.
Proof. intros [src E]. unfold isDirty. by rewrite (set_dirty_lookup m name src true E), lookup_insert_eq. Qed.

Lemma some_set m name d n : is_Some (byName (setDirty m name d) !! n) ↔ is_Some (byName m !! n).
Proof.
  unfold setDirty. destruct (byName m !! name) as [src|] eqn:E; [|done]. rewrite lookup_put.
  destruct (decide (name = n)) as [<-|]; [rewrite lookup_insert_eq, E; split; by eauto|by rewrite lookup_insert_ne].
Qed.

(** What a signal does to the flags. *)
Lemma notify_flag_spec m name m' r : notifyFlag m name = (m', r) →
  match r with
  | NoSource => same_flags m m'
  | Joined => same_flags m m' ∧ isDirty m (TrimSpace name) = true
  | MustWake => m' = setDirty m (TrimSpace name) true ∧ is_Some (byName m !! TrimSpace name)
  end.
Proof.
  unfold notifyFlag, isDirty. destruct (byName m !! TrimSpace name) as [src|] eqn:E; [|intros [= <- <-]; apply same_flags_counts].
  destruct (dirty src) eqn:Ed; intros [= <- <-]; split; eauto using same_flags_counts.
Qed.

Lemma add_source_spec m name kind m' : AddSource m name kind = (m', true) →
  ∃ key, byName m !! key = None ∧ byName m' = <[key := mkSource kind 0 false]> (byName m) ∧ sources m' = sources m ++ [key] ∧ wake m' = wake m.
Proof.
  unfold AddSource, register. destruct (String.eqb _ _); [done|]. destruct (byName m !! TrimSpace name) as [|] eqn:E; intros [= <-]. by exists (TrimSpace name).
Qed.

(** Steps that leave the flags alone. *)
Lemma signals_frame w w' : signals_ok w → same_flags (sweeper w) (sweeper w') →
  (∀ n, n ∈ asked w' → isDirty (sweeper w) n = true ∨ (n ∈ asked w ∧ (aboutToRead w n → aboutToRead w' n))) →
  (∀ n, isDirty (sweeper w) n = true → n ∈ senders w ∨ n ∈ toCheck (loop w) ∨ n ∈ failed w →
     n ∈ senders w' ∨ n ∈ toCheck (loop w') ∨ n ∈ failed w') → signals_ok w'.
Proof.
  intros [Hn Ha Hd] [Es Ew Ed Eo] Hask Hkeep. split.
  - intros n. rewrite Es, Eo. apply Hn.
  - intros n Hin. rewrite Ed. destruct (Hask n Hin) as [?|[Hw Hab]]; [by left|]. destruct (Ha n Hw); auto.
  - intros n. rewrite Ed, Ew. intros Hdn. destruct (Hd n Hdn) as [?|H]; [by left|right]. by apply Hkeep.
Qed.

(** Steps that start a sweep. *)
Lemma signals_begin w w' m0 name : signals_ok w → same_flags (sweeper w) m0 → sweeper w' = beginSweep m0 name →
  asked w' = asked w → aboutToRead w' name → (∀ n, aboutToRead w n → aboutToRead w' n) →
  (∀ n, n ≠ name → n ∈ senders w ∨ n ∈ toCheck (loop w) ∨ n ∈ failed w → n ∈ senders w' ∨ n ∈ toCheck (loop w') ∨ n ∈ failed w') →
  signals_ok w'.
Proof.
  intros [Hn Ha Hd] [Es Ew Ed Eo] Hm Hask Hab Hmono Hkeep. destruct (set_dirty_rest m0 name false) as (Hs & _ & _ & Hw). split; rewrite Hm; unfold beginSweep.
  - intros n. rewrite some_set, Eo, Hs, Es. apply Hn.
  - intros n. rewrite Hask. intros Hin. destruct (decide (n = name)) as [->|Hne]; [by right|]. destruct (Ha n Hin) as [H|H]; [left|right; auto].
    apply is_dirty_keeps; [by rewrite Ed|by left].
  - intros n Hdn. rewrite Hw, Ew. destruct (is_dirty_set _ _ _ _ Hdn) as [[_ ?]|[Hdm [Hne|?]]]; [done| |done]. rewrite Ed in Hdm.
    destruct (Hd n Hdm) as [?|H]; [by left|right]. by apply Hkeep.
Qed.

(** Steps that raise a flag. *)
Lemma signals_raise w w' m0 name : signals_ok w → same_flags (sweeper w) m0 → sweeper w' = setDirty m0 name true →
  (∀ n, n ∈ asked w' → (n = name ∧ is_Some (byName (sweeper w) !! n)) ∨ (n ∈ asked w ∧ (aboutToRead w n → aboutToRead w' n))) →
  name ∈ senders w' ∨ name ∈ failed w' →
  (∀ n, n ∈ senders w ∨ n ∈ toCheck (loop w) ∨ n ∈ failed w → n ∈ senders w' ∨ n ∈ toCheck (loop w') ∨ n ∈ failed w') → signals_ok w'.
Proof.
  intros [Hn Ha Hd] [Es Ew Ed Eo] Hm Hask Hname Hkeep. destruct (set_dirty_rest m0 name true) as (Hs & _ & _ & Hw). split; rewrite Hm.
  - intros n. rewrite some_set, Eo, Hs, Es. apply Hn.
  - intros n Hin. destruct (Hask n Hin) as [[-> Hso]|[Hw' Hab]]; [left; apply is_dirty_raise; by rewrite Eo|].
    destruct (Ha n Hw') as [H|H]; [left|right; auto]. apply is_dirty_keeps; [by rewrite Ed|by right].
  - intros n Hdn. rewrite Hw, Ew. destruct (is_dirty_set _ _ _ _ Hdn) as [[-> _]|[Hdm _]]; [tauto|]. rewrite Ed in Hdm.
    destruct (Hd n Hdm) as [?|H]; [by left|right]. by apply Hkeep.
Qed.

(** A sweeper as it is built before [Run]. *)
Definition registerAll (size : Z) (regs : list (string * sourceKind)) : MirrorSweeper :=
  foldl (λ m r, fst (AddSource m r.1 r.2)) (NewMirrorSweeper size) regs.

Definition unflagged (m : MirrorSweeper) : Prop := ∀ n src, byName m !! n = Some src → n ∈ sources m ∧ dirty src = false.

Lemma register_all_unflagged size regs : unflagged (registerAll size regs).
Proof.
  unfold registerAll. assert (unflagged (NewMirrorSweeper size)) as H0 by by intros n src.
  revert H0. generalize (NewMirrorSweeper size). induction regs as [|[name kind] regs IH]; intros m Hm; cbn; [done|]. apply IH.
  destruct (AddSource m name kind) as [m' []] eqn:E; cbn.
  - destruct (add_source_spec _ _ _ _ E) as (key & _ & Hb & Hs & _). intros n src. rewrite Hb, Hs, elem_of_app.
    destruct (decide (key = n)) as [<-|]; [rewrite lookup_insert_eq; intros [= <-]; split; [right; by constructor|done]|].
    rewrite lookup_insert_ne by done. intros H. destruct (Hm n src H). auto.
  - unfold AddSource, register in E. destruct (String.eqb _ _); [by injection E as <-|]. destruct (byName m !! _); by injection E as <-.
Qed.

Lemma signals_start m : unflagged m → signals_ok (startLoop m).
Proof.
  intros Hm. split; cbn; [intros n [src H]; by destruct (Hm n src H)|set_solver|]. intros n. unfold isDirty.
  destruct (byName m !! n) as [src|] eqn:E; [|done]. destruct (Hm n src E). congruence.
Qed.

Lemma signals_register m p ss cs a f name kind m' : AddSource m name kind = (m', true) →
  signals_ok (mkWorld m p ss cs a f) → signals_ok (mkWorld m' p ss cs a f).
Proof.
  intros (key & Hnew & Hb & Hs & Hw)%add_source_spec [Hn Ha Hd].
  assert (∀ n, isDirty m' n = isDirty m n) as Hdirty.
  { intros n. unfold isDirty. rewrite Hb. destruct (decide (key = n)) as [<-|]; [by rewrite lookup_insert_eq, Hnew|by rewrite lookup_insert_ne]. }
  split; cbn in *.
  - intros n. rewrite Hb, Hs, elem_of_app. destruct (decide (key = n)) as [<-|]; [right; by constructor|rewrite lookup_insert_ne by done; auto].
  - intros n Hin. rewrite Hdirty. by apply Ha.
  - intros n. rewrite Hdirty, Hw. apply Hd.
Qed.

(** The wake: a send raises it; taking it puts every source on the pass. *)
Lemma signals_send m p ss1 name ss2 cs a f : signals_ok (mkWorld m p (ss1 ++ name :: ss2) cs a f) →
  signals_ok (mkWorld (setWake m true) p (ss1 ++ ss2) cs a f).
Proof. intros [Hn Ha Hd]. split; [exact Hn|exact Ha|by left]. Qed.

Lemma signals_wake m ss cs a f : signals_ok (mkWorld m Waiting ss cs a f) → signals_ok (mkWorld (setWake m false) (Checking (sources m)) ss cs a f).
Proof.
  intros [Hn Ha Hd]. split; [exact Hn|exact Ha|]. cbn. intros n Hdn. right; right; left. apply Hn. unfold isDirty in Hdn. cbn in Hdn |- *.
  destruct (byName m !! n); [by eauto|done].
Qed.

Ltac about := unfold aboutToRead; cbn; set_solver.
Ltac frame := eapply signals_frame; [eassumption| |try (intros ?; about)|try (intros ?; about)].
Ltac sweeping m0 := eapply (signals_begin _ _ m0); [eassumption| |reflexivity|reflexivity|about|intros n; about|intros n; about].

Lemma signals_step w w' : step w w' → signals_ok w → signals_ok w'.
Proof.
  intros Hst Hok. destruct Hst.
  - by eapply signals_register.
  - frame. by apply (notify_flag_spec _ _ _ _ H).
  - destruct (notify_flag_spec _ _ _ _ H) as [Hf Hd]. frame. done.
  - destruct (notify_flag_spec _ _ _ _ H) as [-> Hs].
    eapply (signals_raise _ _ m (TrimSpace name)); [exact Hok|done|done| |cbn; set_solver|intros n; about]. cbn.
    intros n [->%elem_of_singleton|?]%elem_of_union; auto.
  - by eapply signals_send.
  - frame. done.
  - by eapply signals_wake.
  - frame; [done|]. cbn. intros n Hdn [?|[[->|?]%elem_of_cons|?]]; auto. unfold isDirty in Hdn. rewrite H in Hdn. congruence.
  - sweeping (addCounts m 0 0 1 0 0). apply same_flags_counts.
  - frame. done.
  - frame. apply same_flags_end.
  - eapply (signals_raise _ _ (addCounts (endSweep m name (n, next0, false)) 0 1 0 0 0) name); [exact Hok| |done|about|cbn; set_solver|intros k; about].
    etrans; [apply same_flags_end|apply same_flags_counts].
  - frame. done.
  - sweeping m. done.
  - frame. done.
  - frame. apply same_flags_finish.
  - frame. done.
  - frame. done.
  - sweeping m. done.
  - frame. done.
  - frame. apply same_flags_finish.
Qed.

(** C17: no change signal is lost. In every interleaving of signals, of the sweep
    loop and of direct sweeps over a sweeper built by registration, a source
    signalled since a read of it last began is either about to be read by a sweep
    that already cleared its flag, or still flagged, and then the loop's wake is
    set, or its signaller is about to set it, or the signalled pass under way still
    has the source ahead of it, or the loop put the flag back itself after a failed
    sweep. So when the loop waits with no wake pending and nobody is mid-way,
    whatever is left unread is a source whose last signalled sweep failed. *)
Theorem no_signal_lost size regs w : reachable (registerAll size regs) w →
  (∀ n, n ∈ asked w → aboutToRead w n ∨ (isDirty (sweeper w) n = true ∧
     (wake (sweeper w) = true ∨ n ∈ senders w ∨ n ∈ toCheck (loop w) ∨ n ∈ failed w))) ∧
  (loop w = Waiting → wake (sweeper w) = false → senders w = [] → callers w = [] → asked w ⊆ failed w).
Proof.
  intros Hr. assert (signals_ok w) as [Hn Ha Hd].
  { induction Hr as [|w w' _ IH Hst]; [apply signals_start, register_all_unflagged|by eapply signals_step]. }
  split.
  - intros n Hin. destruct (Ha n Hin) as [H|H]; [right|by left]. split; [done|by apply Hd].
  - intros Hl Hw Hs Hc n Hin. unfold aboutToRead in Ha. rewrite Hl, Hc in Ha. destruct (Ha n Hin) as [H|[H|H]]; [|set_solver|done].
    destruct (Hd n H) as [?|[?|[?|?]]]; [congruence|rewrite Hs in *; set_solver|rewrite Hl in *; set_solver|done].
Qed.

(** A signal that lands while the loop sweeps its source survives the sweep. *)
Lemma no_signal_lost_witness : ∃ w, reachable (registerAll 2 [("d:c", ChangedSource)]) w ∧ "d:c" ∈ asked w ∧
  isDirty (sweeper w) "d:c" = true ∧ wake (sweeper w) = true ∧ loop w = Waiting.
Proof.
  set (m := registerAll 2 [("d:c", ChangedSource)]).
  pose proof (reach_start m) as R0. unfold startLoop in R0.
  eassert (reachable m _) as R1. { eapply reach_step; [exact R0|]. by eapply step_pass. }
  eassert (reachable m _) as R2. { eapply reach_step; [exact R1|]. by eapply step_pass_read. }
  eassert (reachable m _) as R3. { eapply reach_step; [exact R2|]. apply (step_flag _ _ _ _ _ _ "d:c"). reflexivity. }
  eassert (reachable m _) as R4. { eapply reach_step; [exact R3|]. by apply (step_send _ _ [] (TrimSpace "d:c") [] [] _ _). }
  eassert (reachable m _) as R5. { eapply reach_step; [exact R4|]. by apply (step_pass_end _ _ _ _ _ _ _ 0 0 true). }
  eassert (reachable m _) as R6. { eapply reach_step; [exact R5|]. by eapply step_passed. }
  destruct (no_signal_lost 2 [("d:c", ChangedSource)] _ R6) as [H _]. eexists. split; [exact R6|].
  assert ("d:c" ∈ ({["d:c"]} ∪ (∅ ∖ {["d:c"]}) : gset string)) as Hin by (apply elem_of_union_l; by apply elem_of_singleton).
  destruct (H "d:c" Hin) as [[Hc|[]]|[Hd _]]; [by apply not_elem_of_nil in Hc|]. split_and!; [exact Hin|exact Hd|reflexivity|reflexivity].
Defined.

(** A source whose signalled sweep failed keeps its flag and the loop keeps
    waiting; the next signal for it finds the flag up, is counted as coalesced and
    does not wake the loop. *)
Lemma failed_sweep_mutes_signals : let m := registerAll 2 [("d:c", ChangedSource)] in
  let woken := setWake (fst (Notify m "d:c")) false in
  let '(m1, _, _) := sweepSignalled demoPush demoPush (λ _ _ _, ([], true)) (λ _, true) woken [] in
  let '(m2, ok) := Notify m1 "d:c" in
  isDirty m1 "d:c" = true ∧ wake m1 = false ∧ ok = true ∧ Coalesced m2 = 1 ∧ wake m2 = false.
Proof. by vm_compute. Qed.

(** ** Draining

    Sources that keep the contract of [ChangedSince]: the rows past the cursor,
    in ascending order of time, cut off at a bound of their own; and a store that
    accepts what it is given. *)
Section Drain.
Context {S : Type} (upsertBatch deleteBatch : S → list DomainRecord → S * bool) (log : S → list DomainRecord).
Context (read : S → string → Z → list (DomainRecord * Z) * bool) (tables : string → list (DomainRecord * Z)).

Definition accepts (push : S → list DomainRecord → S * bool) : Prop := ∀ s b, snd (push s b) = true ∧ log (fst (push s b)) = log s ++ b.

Definition past (c : Z) (rows : list (DomainRecord * Z)) : list (DomainRecord * Z) := filter (λ r, c < r.2) rows.

Definition bounded_read : Prop := ∀ s name c, ∃ k, (0 < k)%nat ∧ read s name c = (take k (past c (tables name)), false).

Definition earlier (a b : DomainRecord * Z) : Prop := a.2 < b.2.

Definition remaining (m : MirrorSweeper) (name : string) : list (DomainRecord * Z) :=
  match byName m !! name with Some src => past (cursor src) (tables name) | None => [] end.

Definition backlog (m : MirrorSweeper) (names : list string) : list DomainRecord := concat (map (λ n, map fst (remaining m n)) names).

Lemma foldl_max c xs : c ≤ foldl Z.max c xs ∧ Forall (λ x, x ≤ foldl Z.max c xs) xs ∧ (foldl Z.max c xs = c ∨ foldl Z.max c xs ∈ xs).
Proof.
  revert c. induction xs as [|x xs IH]; intros c; cbn; [split_and!; [lia|done|by left]|].
  destruct (IH (Z.max c x)) as (H1 & H2 & H3). split_and!; [lia|constructor; [lia|done]|].
  destruct H3 as [->|?]; [|right; by constructor]. destruct (Z.max_spec c x) as [[_ ->]|[_ ->]]; [right; constructor|by left].
Qed.

Lemma past_sorted c rows : StronglySorted earlier rows → StronglySorted earlier (past c rows).
Proof.
  induction 1 as [|r rows Hs IH Hr]; [constructor|]. unfold past. rewrite filter_cons. destruct (decide _); [|done].
  constructor; [done|]. apply Forall_forall. intros x [_ Hx]%list_elem_of_filter. rewrite Forall_forall in Hr. by apply Hr.
Qed.

Lemma past_all c rows : Forall (λ r, c < r.2) rows → past c rows = rows.
Proof. induction 1 as [|r rows Hr _ IH]; [done|]. unfold past. rewrite filter_cons, decide_True by done. f_equal. apply IH. Qed.

Lemma past_none c rows : Forall (λ r, r.2 ≤ c) rows → past c rows = [].
Proof. induction 1 as [|r rows Hr _ IH]; [done|]. unfold past. rewrite filter_cons, decide_False by lia. apply IH. Qed.

Lemma past_past c c' rows : c ≤ c' → past c' (past c rows) = past c' rows.
Proof. intros Hc. unfold past. apply list_filter_filter_l. intros r. lia. Qed.

(** The cursor of a pass that took the first rows past it leaves the others. *)
Lemma past_next c rows k : StronglySorted earlier rows →
  past (foldl Z.max c (map snd (take k (past c rows)))) rows = drop k (past c rows).
Proof.
  intros Hs. set (taken := take k (past c rows)). destruct (foldl_max c (map snd taken)) as (H1 & H2 & H3). set (c' := foldl _ _ _) in *.
  rewrite <- (past_past c c' rows H1). transitivity (past c' (taken ++ drop k (past c rows))); [unfold taken; by rewrite take_drop|].
  rewrite Forall_map in H2. unfold past at 1. rewrite filter_app. change (past c' taken ++ past c' (drop k (past c rows)) = drop k (past c rows)).
  rewrite (past_none c' taken H2). apply (past_all c'). apply Forall_forall. intros x Hx.
  destruct H3 as [->|Hm].
  - assert (x ∈ past c rows) as [? _]%list_elem_of_filter; [|done]. rewrite <- (take_drop k (past c rows)). apply elem_of_app. by right.
  - apply list_elem_of_fmap in Hm as (y & -> & Hy). pose proof (past_sorted c rows Hs) as Hp. rewrite <- (take_drop k (past c rows)) in Hp.
    by apply (StronglySorted_app_1_elem_of _ _ _ _ _ Hp).
Qed.

Context (up_accepts : accepts upsertBatch) (del_accepts : accepts deleteBatch) (reads : bounded_read).
Context (tables_sorted : ∀ name, StronglySorted earlier (tables name)).

Lemma pushed_log push s bs s' : accepts push → pushed push s bs s' → log s' = log s ++ concat bs.
Proof.
  intros Hacc. induction 1 as [|s b s1 bs s2 Hb _ IH]; cbn; [by rewrite app_nil_r|]. destruct (Hacc s b) as [_ Hl]. rewrite Hb in Hl. cbn in Hl.
  by rewrite IH, Hl, app_assoc.
Qed.

Lemma push_for_accepts kind : accepts (pushFor upsertBatch deleteBatch kind).
Proof. by destruct kind. Qed.

(** One source's turn moves its first remaining rows into the store. *)
Lemma sweep_one_drains m s name m' s' n ok : 0 < BatchSize m → is_Some (byName m !! name) →
  sweepOne upsertBatch deleteBatch read m s name = (m', s', (n, ok)) →
  ok = true ∧ BatchSize m' = BatchSize m ∧ sources m' = sources m ∧ (∀ other, is_Some (byName m !! other) → is_Some (byName m' !! other)) ∧
  (∀ other, other ≠ name → remaining m' other = remaining m other) ∧
  ∃ k, (0 < k)%nat ∧ log s' = log s ++ map fst (take k (remaining m name)) ∧ remaining m' name = drop k (remaining m name) ∧
       n = Z.of_nat (length (take k (remaining m name))).
Proof.
  intros Hpos [src Hsrc] E. destruct (reads s name (cursor src)) as (k & Hk & Hread).
  assert (BatchSize m' = BatchSize m ∧ sources m' = sources m ∧ ok = true) as (Hbs & Hso & ->).
  { pose proof (set_dirty_rest m name false) as (H1 & H2 & _). revert E. unfold sweepOne. rewrite (begin_lookup m name src Hsrc). cbn [cursor skind].
    rewrite Hread. destruct (sweepRows _ _ _ _ _ _) as [s1 [[n1 nx] ok1]] eqn:Er. intros [= <- _ _ <-].
    pose proof (sweep_rows_accepted _ (BatchSize (beginSweep m name)) s (cursor src) (take k (past (cursor src) (tables name))) false
      (λ s b, proj1 (push_for_accepts (skind src) s b))) as Hok. rewrite Er in Hok. cbn in Hok. subst ok1.
    unfold endSweep, beginSweep in *. cbn [byName addCounts]. by destruct (byName (setDirty m name false) !! name). }
  pose proof (sweep_one_ok _ _ _ _ _ _ _ _ _ _ _ Hpos Hsrc E) as H. rewrite Hread in H.
  destruct H as (bs & _ & Hn & _ & after & Hb & _ & _ & _ & Hc & Hp & Hcur). assert (remaining m name = past (cursor src) (tables name)) as Hrem by (unfold remaining; by rewrite Hsrc).
  split_and!; [done|done|done|..].
  - intros other Ho. rewrite Hb. destruct (decide (name = other)) as [<-|]; [rewrite lookup_insert_eq; by eauto|by rewrite lookup_insert_ne].
  - intros other Ho. unfold remaining. by rewrite Hb, lookup_insert_ne.
  - exists k. rewrite Hrem. split_and!; [done|rewrite (pushed_log _ _ _ _ (push_for_accepts _) Hp); by rewrite Hc| |by rewrite Hn, Hc, length_map].
    unfold remaining. rewrite Hb, lookup_insert_eq, Hcur. by apply past_next.
Qed.

Definition registered (m : MirrorSweeper) (names : list string) : Prop := Forall (λ n, is_Some (byName m !! n)) names.

Lemma backlog_ext m m' names : (∀ n, n ∈ names → remaining m' n = remaining m n) → backlog m' names = backlog m names.
Proof. intros H. unfold backlog. f_equal. apply map_ext_in. intros n Hn%list_elem_of_In. by rewrite H. Qed.

(** One pass: what it pushed and what is left make up the backlog, and a pass
    that pushed nothing leaves none. *)
Lemma sweep_all_drains names m s total m' s' n ok : 0 < BatchSize m → registered m names → NoDup names →
  sweepAll upsertBatch deleteBatch read (λ _, true) names m s total = (m', s', (n, ok)) →
  ok = true ∧ BatchSize m' = BatchSize m ∧ sources m' = sources m ∧ (∀ other, is_Some (byName m !! other) → is_Some (byName m' !! other)) ∧
  (∀ other, other ∉ names → remaining m' other = remaining m other) ∧
  ∃ out, log s' = log s ++ out ∧ n = total + Z.of_nat (length out) ∧ out ++ backlog m' names ≡ₚ backlog m names ∧ (out = [] → backlog m' names = []).
Proof.
  revert m s total. induction names as [|name names IH]; intros m s total Hpos Hreg Hnd.
  { intros [= <- <- <- <-]. split_and!; try done. exists []. rewrite app_nil_r. split_and!; try done. cbn. lia. }
  cbn [sweepAll negb]. apply Forall_cons in Hreg as [Hr Hreg]. apply NoDup_cons in Hnd as [Hnew Hnd].
  destruct (sweepOne _ _ _ m s name) as [[m1 s1] [n1 ok1]] eqn:E.
  destruct (sweep_one_drains _ _ _ _ _ _ _ Hpos Hr E) as (-> & Hb1 & Hs1 & Hr1 & Ho1 & k & Hk & Hl1 & Hd1 & Hn1).
  intros Eall. destruct (IH m1 s1 (total + n1)) as (Hok2 & Hb2 & Hs2 & Hr2 & Ho2 & out & Hl2 & Hn2 & Hp2 & Hz2); [lia| |done|done|].
  { apply (Forall_impl _ _ _ Hreg). auto. }
  split_and!; [done|congruence|congruence|auto|intros other [Hne Ho]%not_elem_of_cons; rewrite Ho2, Ho1; done|].
  exists (map fst (take k (remaining m name)) ++ out). rewrite Hl2, Hl1, <- app_assoc. split_and!; [done|rewrite length_app, length_map; lia|..].
  - unfold backlog. cbn [map concat]. fold (backlog m' names) (backlog m names). rewrite (Ho2 name Hnew), Hd1.
    rewrite <- (backlog_ext m m1 names) by (intros; apply Ho1; congruence). rewrite <- Hp2.
    transitivity ((map fst (take k (remaining m name)) ++ map fst (drop k (remaining m name))) ++ out ++ backlog m' names); [solve_Permutation|].
    by rewrite <- map_app, take_drop.
  - intros [H1 H2]%app_eq_nil. unfold backlog. cbn [map concat]. fold (backlog m' names). rewrite (Hz2 H2), app_nil_r, (Ho2 name Hnew), Hd1.
    apply map_eq_nil in H1. destruct (remaining m name); [by rewrite drop_nil|]. destruct k; [lia|done].
Qed.

(** The first pass from zero cursors is a full sync, and bursts drain. Over
    sources that stream the rows past their cursor in strictly ascending time and
    bound each read, and a store that accepts what it is given, the loop's
    productive passes follow each other until one finds nothing, after at most as
    many passes as there are rows; by then every row past the initial cursors has
    been pushed exactly once, and nothing is left past any cursor. *)
Theorem run_drains_sources m s fuel : 0 < BatchSize m → registered m (sources m) → NoDup (sources m) →
  (length (backlog m (sources m)) < fuel)%nat →
  let '(m', s') := runPasses upsertBatch deleteBatch read fuel m s in
  ∃ out, log s' = log s ++ out ∧ out ≡ₚ backlog m (sources m) ∧ backlog m' (sources m) = [] ∧
    snd (SweepOnce upsertBatch deleteBatch read (λ _, true) m' s') = (0, true).
Proof.
  revert m s. induction fuel as [|fuel IH]; intros m s Hpos Hreg Hnd Hf; [lia|]. cbn [runPasses]. unfold SweepOnce at 1.
  destruct (sweepAll _ _ _ _ (sources m) m s 0) as [[m1 s1] [n ok]] eqn:E.
  destruct (sweep_all_drains _ _ _ _ _ _ _ _ Hpos Hreg Hnd E) as (-> & Hb1 & Hs1 & Hr1 & _ & out & Hl & Hn & Hp & Hz).
  assert (registered m1 (sources m1)) as Hreg1 by (rewrite Hs1; apply (Forall_impl _ _ _ Hreg); auto).
  destruct (Z.ltb_spec 0 n) as [Hpr|Hpr].
  - specialize (IH m1 s1). destruct (runPasses _ _ _ fuel m1 s1) as [m2 s2]. rewrite Hs1, Hb1 in IH. rewrite Hs1 in Hreg1.
    destruct IH as (out2 & Hl2 & Hp2 & Hz2 & Hlast); [done|done|done| |].
    { apply Permutation_length in Hp. rewrite length_app in Hp. lia. }
    exists (out ++ out2). rewrite Hl2, Hl, <- app_assoc. split_and!; [done|by rewrite Hp2|done|done].
  - assert (out = []) as -> by (destruct out; [done|cbn in Hn; lia]). specialize (Hz eq_refl). cbn in Hp. exists []. rewrite Hz in Hp.
    split_and!; [done|done|done|]. unfold SweepOnce. rewrite Hs1 in Hreg1 |- *. rewrite <- Hb1 in Hpos.
    destruct (sweepAll _ _ _ _ _ m1 s1 0) as [[m2 s2] [n2 ok2]] eqn:E2.
    destruct (sweep_all_drains _ _ _ _ _ _ _ _ Hpos Hreg1 Hnd E2) as (-> & _ & _ & _ & _ & out2 & _ & Hn2 & Hp2 & _).
    rewrite Hz in Hp2. apply Permutation_length in Hp2. rewrite length_app in Hp2. cbn in Hp2 |- *. f_equal. lia.
Qed.

End Drain.

(** A store that accepts everything, and reads of two rows at a time. *)
Definition openPush (s : list DomainRecord) (b : list DomainRecord) : list DomainRecord * bool := (s ++ b, true).
Definition demoTable (name : string) : list (DomainRecord * Z) :=
  if String.eqb name "d:c" then [demoRow "a" 10; demoRow "b" 20; demoRow "c" 30] else [demoRow "t" 15].
Definition readTwo (s : list DomainRecord) (name : string) (c : Z) : list (DomainRecord * Z) * bool := (take 2 (past c (demoTable name)), false).
Definition twoSources : MirrorSweeper := registerAll 2 [("d:c", ChangedSource); ("d:c:deletes", DeletedSource)].

Lemma run_drains_sources_witness : let '(m', s') := runPasses openPush openPush readTwo 5 twoSources [] in
  s' ≡ₚ map fst (demoTable "d:c" ++ demoTable "d:c:deletes") ∧ map RecordID s' = ["a"; "b"; "t"; "c"] ∧
  snd (SweepOnce openPush openPush readTwo (λ _, true) m' s') = (0, true).
Proof.
  assert (accepts (λ s, s) openPush) as Hacc by by intros s b.
  assert (bounded_read readTwo demoTable) as Hread by (intros s name c; exists 2%nat; split; [lia|done]).
  assert (∀ name, StronglySorted earlier (demoTable name)) as Hsort.
  { intros name. unfold demoTable. destruct (String.eqb _ _); repeat constructor. }
  assert (registered twoSources (sources twoSources)) as Hreg by (repeat constructor; vm_compute; by eexists).
  assert (NoDup (sources twoSources)) as Hnd by (apply (bool_decide_eq_true_1 (NoDup (sources twoSources))); vm_compute; reflexivity).
  pose proof (run_drains_sources openPush openPush (λ s, s) readTwo demoTable Hacc Hacc Hread Hsort twoSources [] 5
    ltac:(done) Hreg Hnd ltac:(vm_compute; lia)) as H.
  destruct (runPasses openPush openPush readTwo 5 twoSources []) as [m' s'] eqn:E.
  destruct H as (out & Hl & Hp & _ & Hlast). cbn in Hl. subst out. split; [exact Hp|]. split; [|exact Hlast].
  pose proof (f_equal (λ r, map RecordID (snd r)) E) as Es. vm_compute in Es. symmetry. exact Es.
Defined.

(** A bound that falls between rows of the same instant: the cursor passes the
    instant, and the row behind the bound is never read again. *)
Definition tiedRead (s : list DomainRecord) (name : string) (c : Z) : list (DomainRecord * Z) * bool :=
  (take 2 (past c [demoRow "a" 10; demoRow "b" 20; demoRow "twin" 20]), false).

Lemma tied_rows_are_skipped : let m := registerAll 2 [("d:c", ChangedSource)] in
  let '(m', s') := runPasses openPush openPush tiedRead 9 m [] in
  map RecordID s' = ["a"; "b"] ∧ snd (SweepOnce openPush openPush tiedRead (λ _, true) m' s') = (0, true).
Proof. by vm_compute. Qed.
