(* ===== verification/ScopeSignal.v ===== *)
(** * ScopeSignal: the announcement lane (src/server-kit/go/hermes/scope_signal.go)

    After a command write commits, the lane offers the name of the source that
    converges the written scope to a bounded queue, folding names that already
    wait; a publisher drains the queue onto the event bus, and a peer that
    receives an announcement flags its own sweeper's source ([MirrorSweep]).

    The writers, the publisher and [Close] run on their own goroutines. A writer
    inside [enqueue] holds the close lock for reading, so each of its atomic
    actions (the claim under the pending lock, the non-blocking send, the release
    after a refused send) is a step of its own, and [Close] takes its step when no
    writer is inside. Sending on the closed queue would panic; the state records
    it. The bus is not modelled: publishing succeeds or fails, an announcement
    that arrives is its scope and node, or could not be decoded. *)

From Stdlib Require Import ZArith Lia Ascii String.
From stdpp Require Import base strings gmap fin_maps fin_sets numbers sorting list.
From S2P Require Import Prelude GoStrings RecordData HermesKeys MirrorSweep.

Open Scope string_scope.
Open Scope list_scope.
Open Scope Z_scope.

Definition defaultScopeSignalQueue : Z := 256.

Record ScopeSignalStats := mkStats {
  Announced : Z; FoldedIn : Z; Dropped : Z; Received : Z; Echoes : Z; Misrouted : Z; Failures : Z
}.

Record ScopeSignal := mkSignal {
  queue : list string; capacity : nat; pending : gset string; closed : bool; nodeID : string; bound : option MirrorSweeper;
  stats : ScopeSignalStats
}.

(** [NewScopeSignal]: [token] is the generated node identity, if there is one. *)
Definition NewScopeSignal (node : string) (size : Z) (token : option string) : option ScopeSignal :=
  let node := TrimSpace node in
  let fresh id := mkSignal [] (Z.to_nat (if size <=? 0 then defaultScopeSignalQueue else size)) ∅ false id None (mkStats 0 0 0 0 0 0 0) in
  if String.eqb node "" then match token with Some id => Some (fresh id) | None => None end else Some (fresh node).

(** ** Operations on the state *)

Definition withQueue (s : ScopeSignal) (q : list string) : ScopeSignal := mkSignal q (capacity s) (pending s) (closed s) (nodeID s) (bound s) (stats s).
Definition withPending (s : ScopeSignal) (p : gset string) : ScopeSignal := mkSignal (queue s) (capacity s) p (closed s) (nodeID s) (bound s) (stats s).
Definition withStats (s : ScopeSignal) (st : ScopeSignalStats) : ScopeSignal := mkSignal (queue s) (capacity s) (pending s) (closed s) (nodeID s) (bound s) st.
Definition withBound (s : ScopeSignal) (m : MirrorSweeper) : ScopeSignal := mkSignal (queue s) (capacity s) (pending s) (closed s) (nodeID s) (Some m) (stats s).
Definition closeSignal (s : ScopeSignal) : ScopeSignal := mkSignal (queue s) (capacity s) (pending s) true (nodeID s) (bound s) (stats s).

Definition count (s : ScopeSignal) (an fo dr re ec mi fa : Z) : ScopeSignal :=
  let st := stats s in
  withStats s (mkStats (Announced st + an) (FoldedIn st + fo) (Dropped st + dr) (Received st + re) (Echoes st + ec) (Misrouted st + mi) (Failures st + fa)).

(** [Converge]; false is the error for a second sweeper. *)
Definition Converge (s : ScopeSignal) (m : MirrorSweeper) : ScopeSignal * bool :=
  match bound s with Some _ => (s, false) | None => (withBound s m, true) end.

Definition DefaultScopeSourceName (rec : DomainRecord) (op : Operation) : string :=
  if String.eqb op OperationDelete then ScopeDeleteSourceName (Domain rec) (Collection rec) else ScopeSourceName (Domain rec) (Collection rec).

(** The names a batch is announced under: the loop of [OnCommandWrite]. *)
Fixpoint commandNamesLoop (sourceName : DomainRecord → Operation → string) (op : Operation) (names : list string) (records : list DomainRecord) : list string :=
  match records with
  | [] => names
  | rec :: rest =>
      let name := TrimSpace (sourceName rec op) in
      commandNamesLoop sourceName op (if String.eqb name "" || bool_decide (name ∈ names) then names else names ++ [name]) rest
  end.

(** [OnCommandWrite] on an open lane: the scopes handed to [enqueue], in order. *)
Definition commandNames (sourceName : DomainRecord → Operation → string) (op : Operation) (records : list DomainRecord) : list string :=
  commandNamesLoop sourceName op [] records.

Definition routable (s : ScopeSignal) (name : string) : bool := match bound s with None => true | Some m => hasSource m name end.

Definition markPending (s : ScopeSignal) (name : string) : ScopeSignal * bool :=
  if bool_decide (name ∈ pending s) then (s, false) else (withPending s ({[name]} ∪ pending s), true).

Definition clearPending (s : ScopeSignal) (name : string) : ScopeSignal := withPending s (pending s ∖ {[name]}).

(** The non-blocking send: false when the queue is full. *)
Definition trySend (s : ScopeSignal) (name : string) : ScopeSignal * bool :=
  if bool_decide (length (queue s) < capacity s)%nat then (withQueue s (queue s ++ [name]), true) else (s, false).

(** [enqueue] undisturbed. *)
Definition enqueue (s : ScopeSignal) (name : string) : ScopeSignal :=
  if negb (routable s name) then count s 0 0 0 0 0 1 0
  else if closed s then s
  else match markPending s name with
       | (s, false) => count s 0 1 0 0 0 0 0
       | (s, true) => match trySend s name with (s, true) => s | (s, false) => count (clearPending s name) 0 0 1 0 0 0 0 end
       end.

Definition OnCommandWrite (sourceName : DomainRecord → Operation → string) (s : ScopeSignal) (records : list DomainRecord) (op : Operation) : ScopeSignal :=
  if closed s then s else foldl enqueue s (commandNames sourceName op records).

(** [publish]: the correlation id was drawn and the bus took the envelope. *)
Definition publish (s : ScopeSignal) (sent : bool) : ScopeSignal := if sent then count s 1 0 0 0 0 0 0 else count s 0 0 0 0 0 0 1.

(** [receive]: [None] is a payload that could not be decoded. *)
Definition receive (s : ScopeSignal) (msg : option (string * string)) : ScopeSignal :=
  if closed s then s
  else match msg with
       | None => count s 0 0 0 0 0 0 1
       | Some (scope, node) =>
           if String.eqb scope "" then count s 0 0 0 0 0 0 1
           else if String.eqb node (nodeID s) then count s 0 0 0 0 1 0 0
           else
             let s := count s 0 0 0 1 0 0 0 in
             match bound s with
             | None => s
             | Some m => match Notify m scope with (m, true) => withBound s m | (m, false) => count (withBound s m) 0 0 0 0 0 1 1 end
             end
       end.

(** ** Writers, publisher and Close in any order *)

Inductive writer := Entered (name : string) | Claimed (name : string) | Turned (name : string).

Inductive publisher := Idle | Holding (name : string) | Sending (name : string) | Stopped.

(** [arriving]: scopes on their way into [enqueue], and whether they were found
    routable; [owed]: the scopes written since an announcement of them last went
    out, less those whose announcement the full queue turned away; [attempts]: the
    announcements begun, latest last. The bound sweeper's own loop is
    [MirrorSweep]'s; the lane reads its names and flags its sources. *)
Record lane := mkLane {
  signal : ScopeSignal; arriving : list (string * bool); writers : list writer; pub : publisher;
  owed : gset string; attempts : list string; panicked : bool
}.

Definition openLane (s : ScopeSignal) : lane := mkLane s [] [] Idle ∅ [] false.

(** A writer's atomic actions inside [enqueue]. *)
Definition claim (s : ScopeSignal) (name : string) : ScopeSignal * list writer :=
  match markPending s name with (s, true) => (s, [Claimed name]) | (s, false) => (count s 0 1 0 0 0 0 0, []) end.

Definition offer (s : ScopeSignal) (name : string) : ScopeSignal * list writer :=
  match trySend s name with (s, true) => (s, []) | (s, false) => (s, [Turned name]) end.

(** The publisher's next action; [sent]: how publishing would go. *)
Definition publishStep (sent : bool) (s : ScopeSignal) (p : publisher) : option (ScopeSignal * publisher) :=
  match p with
  | Idle => match queue s with name :: rest => Some (withQueue s rest, Holding name) | [] => if closed s then Some (s, Stopped) else None end
  | Holding name => Some (clearPending s name, Sending name)
  | Sending name => Some (publish s sent, Idle)
  | Stopped => None
  end.

(** What the publisher begins to announce, and the state after its step. *)
Definition begun (p : publisher) : list string := match p with Sending n => [n] | _ => [] end.

Definition afterPublish (w : lane) (s' : ScopeSignal) (p' : publisher) : lane :=
  match p' with
  | Sending name => mkLane s' (arriving w) (writers w) p' (owed w ∖ {[name]}) (attempts w ++ [name]) (panicked w)
  | _ => mkLane s' (arriving w) (writers w) p' (owed w) (attempts w) (panicked w)
  end.

Inductive step : lane → lane → Prop :=
| step_write s ar ws p ow at_ pk sourceName records op : closed s = false →
    step (mkLane s ar ws p ow at_ pk) (mkLane s (map (λ n, (n, false)) (commandNames sourceName op records) ++ ar) ws p ow at_ pk)
| step_misrouted s ar1 name ar2 ws p ow at_ pk : routable s name = false →
    step (mkLane s (ar1 ++ (name, false) :: ar2) ws p ow at_ pk) (mkLane (count s 0 0 0 0 0 1 0) (ar1 ++ ar2) ws p ow at_ pk)
| step_route s ar1 name ar2 ws p ow at_ pk : routable s name = true →
    step (mkLane s (ar1 ++ (name, false) :: ar2) ws p ow at_ pk) (mkLane s (ar1 ++ (name, true) :: ar2) ws p ow at_ pk)
| step_late s ar1 name ar2 ws p ow at_ pk : closed s = true →
    step (mkLane s (ar1 ++ (name, true) :: ar2) ws p ow at_ pk) (mkLane s (ar1 ++ ar2) ws p ow at_ pk)
| step_enter s ar1 name ar2 ws p ow at_ pk : closed s = false →
    step (mkLane s (ar1 ++ (name, true) :: ar2) ws p ow at_ pk) (mkLane s (ar1 ++ ar2) (Entered name :: ws) p ow at_ pk)
| step_claim s ar ws1 name ws2 p ow at_ pk :
    step (mkLane s ar (ws1 ++ Entered name :: ws2) p ow at_ pk)
         (mkLane (claim s name).1 ar (ws1 ++ (claim s name).2 ++ ws2) p ({[name]} ∪ ow) at_ pk)
| step_offer s ar ws1 name ws2 p ow at_ pk :
    step (mkLane s ar (ws1 ++ Claimed name :: ws2) p ow at_ pk)
         (mkLane (offer s name).1 ar (ws1 ++ (offer s name).2 ++ ws2) p ow at_ (pk || closed s))
| step_release s ar ws1 name ws2 p ow at_ pk :
    step (mkLane s ar (ws1 ++ Turned name :: ws2) p ow at_ pk)
         (mkLane (count (clearPending s name) 0 0 1 0 0 0 0) ar (ws1 ++ ws2) p (ow ∖ {[name]}) at_ pk)
| step_publisher w sent s' p' : publishStep sent (signal w) (pub w) = Some (s', p') → step w (afterPublish w s' p')
| step_converge s ar ws p ow at_ pk m s' : Converge s m = (s', true) →
    step (mkLane s ar ws p ow at_ pk) (mkLane s' ar ws p ow at_ pk)
| step_receive s ar ws p ow at_ pk msg :
    step (mkLane s ar ws p ow at_ pk) (mkLane (receive s msg) ar ws p ow at_ pk)
| step_close s ar p ow at_ pk :
    step (mkLane s ar [] p ow at_ pk) (mkLane (closeSignal s) ar [] p ow at_ pk).

Inductive reachable (s : ScopeSignal) : lane → Prop :=
| reach_open : reachable s (openLane s)
| reach_step w w' : reachable s w → step w w' → reachable s w'.

(** ** Who holds a scope

    A pending scope has exactly one holder: the queue, a writer that claimed it,
    or the publisher that took it. *)

Definition holds (w : writer) : list string := match w with Entered _ => [] | Claimed n => [n] | Turned n => [n] end.
Definition held (p : publisher) : list string := match p with Holding n => [n] | _ => [] end.
Definition holders (s : ScopeSignal) (ws : list writer) (p : publisher) : list string := queue s ++ concat (map holds ws) ++ held p.

Arguments holders : simpl never.

Record pending_ok (pend : gset string) (ow : gset string) (toks : list string) : Prop := {
  po_nodup : NoDup toks; po_set : ∀ n, n ∈ pend ↔ n ∈ toks; po_owed : ow ⊆ pend
}.

#[global] Instance pending_ok_proper : Proper ((≡) ==> (≡) ==> (≡ₚ) ==> impl) pending_ok.
Proof.
  intros p p' Hp o o' Ho t t' Ht [H1 H2 H3]. split; [by rewrite <- Ht|intros n; by rewrite <- Hp, <- Ht|by rewrite <- Ho, <- Hp].
Qed.

Lemma pending_add pend ow toks n : n ∉ pend → pending_ok pend ow toks → pending_ok ({[n]} ∪ pend) ({[n]} ∪ ow) (n :: toks).
Proof. intros Hn [H1 H2 H3]. split; [constructor; [by rewrite <- H2|done]|set_solver|set_solver]. Qed.

Lemma pending_owe pend ow toks n : n ∈ pend → pending_ok pend ow toks → pending_ok pend ({[n]} ∪ ow) toks.
Proof. intros Hn [H1 H2 H3]. split; [done|done|set_solver]. Qed.

Lemma pending_remove pend ow toks toks' n : toks ≡ₚ n :: toks' → pending_ok pend ow toks → pending_ok (pend ∖ {[n]}) (ow ∖ {[n]}) toks'.
Proof. intros Hp. rewrite Hp. intros [H1 H2 H3]. apply NoDup_cons in H1 as [Hn H1]. split; [done|set_solver|set_solver]. Qed.

Record lane_ok (w : lane) : Prop := {
  lo_pending : pending_ok (pending (signal w)) (owed w) (holders (signal w) (writers w) (pub w));
  lo_room : (length (queue (signal w)) ≤ capacity (signal w))%nat;
  lo_open : writers w ≠ [] → closed (signal w) = false;
  lo_calm : panicked w = false;
  lo_done : pub w = Stopped → closed (signal w) = true ∧ queue (signal w) = []
}.

Lemma lane_holders_split s ws1 w ws2 p : holders s (ws1 ++ w :: ws2) p ≡ₚ holds w ++ holders s (ws1 ++ ws2) p.
Proof. unfold holders. rewrite !map_app, !concat_app. cbn. solve_Permutation. Qed.

Lemma open_lane_ok s : queue s = [] → pending s = ∅ → lane_ok (openLane s).
Proof. intros Hq Hp. unfold openLane. split; cbn; rewrite ?Hq; [|cbn; lia|done|done|done]. unfold holders. rewrite Hq, Hp. split; [constructor|set_solver|done]. Qed.

(** The writers' steps. *)
Lemma claim_ok s ar ws1 name ws2 p ow at_ pk : lane_ok (mkLane s ar (ws1 ++ Entered name :: ws2) p ow at_ pk) →
  lane_ok (mkLane (claim s name).1 ar (ws1 ++ (claim s name).2 ++ ws2) p ({[name]} ∪ ow) at_ pk).
Proof.
  intros [Hp Hr Ho Hc Hd]. cbn in *. rewrite lane_holders_split in Hp. cbn in Hp. assert (closed s = false) as Hopen by (apply Ho; by destruct ws1).
  assert (p ≠ Stopped) as Hp' by (intros Hst; destruct (Hd Hst); congruence).
  unfold claim, markPending. case_bool_decide as Hin; cbn [fst snd app].
  - split; cbn; [by apply pending_owe|done|done|done|done].
  - split; cbn; [|done|done|done|done]. rewrite lane_holders_split. cbn. by apply pending_add.
Qed.

Lemma offer_ok s ar ws1 name ws2 p ow at_ pk : lane_ok (mkLane s ar (ws1 ++ Claimed name :: ws2) p ow at_ pk) →
  lane_ok (mkLane (offer s name).1 ar (ws1 ++ (offer s name).2 ++ ws2) p ow at_ (pk || closed s)).
Proof.
  intros [Hp Hr Ho Hc Hd]. cbn in *. rewrite lane_holders_split in Hp. cbn in Hp. assert (closed s = false) as Hopen by (apply Ho; by destruct ws1).
  assert (p ≠ Stopped) as Hp' by (intros Hst; destruct (Hd Hst); congruence).
  unfold offer, trySend. rewrite Hopen, Hc. case_bool_decide as Hin; cbn [fst snd app].
  - split; cbn; [|rewrite length_app; cbn; lia|done|done|done]. eapply pending_ok_proper; [done|done| |exact Hp].
    unfold holders. cbn. solve_Permutation.
  - split; cbn; [|done|done|done|done]. by rewrite lane_holders_split.
Qed.

Lemma release_ok s ar ws1 name ws2 p ow at_ pk : lane_ok (mkLane s ar (ws1 ++ Turned name :: ws2) p ow at_ pk) →
  lane_ok (mkLane (count (clearPending s name) 0 0 1 0 0 0 0) ar (ws1 ++ ws2) p (ow ∖ {[name]}) at_ pk).
Proof.
  intros [Hp Hr Ho Hc Hd]. cbn in *. rewrite lane_holders_split in Hp. assert (closed s = false) as Hopen by (apply Ho; by destruct ws1).
  assert (p ≠ Stopped) as Hp' by (intros Hst; destruct (Hd Hst); congruence).
  split; cbn; [|done|done|done|done]. by eapply pending_remove.
Qed.

Lemma publish_ok w sent s' p' : publishStep sent (signal w) (pub w) = Some (s', p') → lane_ok w → lane_ok (afterPublish w s' p').
Proof.
  destruct w as [s ar ws p ow at_ pk]. cbn. intros E [Hp Hr Ho Hc Hd]. cbn in *. unfold holders in Hp. destruct p as [|n|n|]; cbn in E.
  - destruct (queue s) as [|n rest] eqn:Eq.
    + destruct (closed s) eqn:Ec; [|done]. injection E as <- <-. split; cbn; [unfold holders; by rewrite Eq|rewrite Eq; cbn; lia| |done|done].
      intros Hw. specialize (Ho Hw). congruence.
    + injection E as <- <-. split; cbn; [|cbn in Hr; lia|done|done|done]. eapply pending_ok_proper; [done|done| |exact Hp].
      unfold holders. cbn. solve_Permutation.
  - injection E as <- <-. split; cbn; [|done|done|done|done]. eapply pending_remove; [|exact Hp]. unfold holders. cbn. solve_Permutation.
  - injection E as <- <-. unfold publish. split; cbn; by destruct sent.
  - done.
Qed.

Lemma receive_keeps s msg : let s' := receive s msg in
  queue s' = queue s ∧ capacity s' = capacity s ∧ pending s' = pending s ∧ closed s' = closed s ∧ nodeID s' = nodeID s.
Proof.
  unfold receive. destruct (closed s) eqn:E; [done|]. destruct msg as [[scope node]|]; [|by cbn]. destruct (String.eqb scope ""); [by cbn|].
  destruct (String.eqb node _); [by cbn|]. cbn [bound count withStats]. destruct (bound s) as [m|]; [|by cbn]. destruct (Notify m scope) as [m' []]; by cbn.
Qed.

(** Steps that touch neither the queue nor the pending set. *)
Lemma lane_frame s s' ar ar' ws ws' p ow at_ pk : queue s' = queue s → capacity s' = capacity s → pending s' = pending s →
  concat (map holds ws') = concat (map holds ws) → (ws' ≠ [] → closed s' = false) → (closed s = true → closed s' = true) →
  lane_ok (mkLane s ar ws p ow at_ pk) → lane_ok (mkLane s' ar' ws' p ow at_ pk).
Proof.
  intros Hq Hcap Hp Hw Ho Hcl [Hpo Hr _ Hc Hd]. cbn in *. split; cbn; [|congruence|done|done|rewrite Hq; naive_solver].
  unfold holders in *. by rewrite Hp, Hq, Hw.
Qed.

Lemma lane_step w w' : step w w' → lane_ok w → lane_ok w'.
Proof.
  intros Hst Hok. destruct Hst; try (by eapply lane_frame; [..|exact Hok]; try done; apply (lo_open _ Hok)).
  - by apply claim_ok.
  - by apply offer_ok.
  - by apply release_ok.
  - by eapply publish_ok.
  - unfold Converge in H. destruct (bound s); [done|]. injection H as <-. by eapply lane_frame; [..|exact Hok]; try done; apply (lo_open _ Hok).
  - destruct (receive_keeps s msg) as (H1 & H2 & H3 & H4 & _). eapply lane_frame; [..|exact Hok]; rewrite ?H4; try done. apply (lo_open _ Hok).
Qed.

Lemma lane_reachable_ok node size token s w : NewScopeSignal node size token = Some s → reachable s w → lane_ok w.
Proof.
  intros Hnew Hr. assert (queue s = [] ∧ pending s = ∅) as [Hq Hp].
  { unfold NewScopeSignal in Hnew. destruct (String.eqb _ _); [destruct token; [|done]|]; by injection Hnew as <-. }
  induction Hr as [|w w' _ IH Hst]; [by apply open_lane_ok|by eapply lane_step].
Qed.

(** C19: the announcement lane neither loses a scope nor announces it twice, and
    does not panic. In every interleaving of committing writers, the publisher,
    arriving announcements and [Close]: no writer sends on the closed queue; the
    queue stays within its capacity; each pending scope has exactly one holder (the
    queue, a writer that claimed it or the publisher about to announce it); and
    every scope written since its last announcement began, unless the full queue
    turned it away and counted it, is pending. So once the queue is empty and nobody
    is inside, no write is left unannounced. *)
Theorem lane_keeps_its_promises node size token s w : NewScopeSignal node size token = Some s → reachable s w →
  panicked w = false ∧ (length (queue (signal w)) ≤ capacity (signal w))%nat ∧
  NoDup (holders (signal w) (writers w) (pub w)) ∧ (∀ n, n ∈ pending (signal w) ↔ n ∈ holders (signal w) (writers w) (pub w)) ∧
  owed w ⊆ pending (signal w) ∧
  (queue (signal w) = [] → writers w = [] → held (pub w) = [] → pending (signal w) = ∅ ∧ owed w = ∅).
Proof.
  intros Hnew Hr. destruct (lane_reachable_ok _ _ _ _ _ Hnew Hr) as [[H1 H2 H3] Hroom _ Hc _]. split_and!; [done|done|done|done|done|].
  intros Hq Hw Hh. unfold holders in H2. rewrite Hq, Hw, Hh in H2. cbn in H2. set_solver.
Qed.

(** ** Close drains the queue *)

Fixpoint drain (sent : nat → bool) (fuel : nat) (s : ScopeSignal) (p : publisher) (at_ : list string) : ScopeSignal * publisher * list string :=
  match fuel with
  | O => (s, p, at_)
  | S fuel => match publishStep (sent fuel) s p with Some (s, p) => drain sent fuel s p (at_ ++ begun p) | None => (s, p, at_) end
  end.

Definition work (p : publisher) (q : list string) : nat :=
  3 * length q + match p with Idle => 1 | Holding _ => 3 | Sending _ => 2 | Stopped => 0 end.

Definition tally (s : ScopeSignal) : Z := Announced (stats s) + Failures (stats s).

Lemma drain_spec sent fuel s p at_ : closed s = true → (p = Stopped → queue s = []) → (work p (queue s) ≤ fuel)%nat →
  ∃ s', drain sent fuel s p at_ = (s', Stopped, at_ ++ held p ++ queue s) ∧ queue s' = [] ∧
    (∀ n, n ∈ pending s' ↔ n ∈ pending s ∧ (n ∉ held p ++ queue s)) ∧
    tally s' = tally s + Z.of_nat (length (begun p ++ held p ++ queue s)).
Proof.
  revert s p at_. induction fuel as [|fuel IH]; intros s p at_ Hcl Hstop Hw.
  { destruct p; unfold work in Hw; try lia. exists s. rewrite (Hstop eq_refl). cbn. rewrite app_nil_r. split_and!; [done|done|set_solver|lia]. }
  cbn [drain]. destruct p as [|n|n|]; cbn [publishStep].
  - destruct (queue s) as [|n rest] eqn:Eq.
    + rewrite Hcl. cbn [begun]. destruct (IH s Stopped (at_ ++ [])) as (s' & -> & H1 & H2 & H3); [done|done|unfold work; rewrite Eq; cbn; lia|].
      rewrite Eq in *. exists s'. cbn in *. rewrite !app_nil_r in *. done.
    + cbn [begun]. destruct (IH (withQueue s rest) (Holding n) (at_ ++ [])) as (s' & -> & H1 & H2 & H3); [done|done|unfold work in *; cbn in *; lia|].
      exists s'. cbn in *. rewrite app_nil_r. done.
  - cbn [begun]. destruct (IH (clearPending s n) (Sending n) (at_ ++ [n])) as (s' & -> & H1 & H2 & H3); [done|done|unfold work in *; cbn in *; lia|].
    exists s'. cbn in *. rewrite <- app_assoc. split_and!; [done|done|set_solver|done].
  - assert (queue (publish s (sent fuel)) = queue s ∧ pending (publish s (sent fuel)) = pending s ∧ closed (publish s (sent fuel)) = closed s ∧
      tally (publish s (sent fuel)) = tally s + 1) as (E1 & E2 & E3 & E4) by (unfold publish, tally; destruct (sent fuel); cbn; split_and!; [done|done|done|lia|done|done|done|lia]).
    cbn [begun]. destruct (IH (publish s (sent fuel)) Idle (at_ ++ [])) as (s' & -> & H1 & H2 & H3); [by rewrite E3|done|rewrite E1; unfold work in *; cbn in *; lia|].
    rewrite E1 in *. rewrite E2 in H2. exists s'. cbn in *. rewrite app_nil_r. split_and!; [done|done|done|lia].
  - exists s. rewrite (Hstop eq_refl). cbn. rewrite app_nil_r. split_and!; [done|done|set_solver|lia].
Qed.

(** Closing loses nothing that was queued. From any reachable closed state,
    whatever the bus does with each announcement, the publisher's own steps reach
    its end within three actions per queued scope; by then it has begun to announce
    the scope it held and every queued one, in queue order, each counted as
    announced or failed; nothing is pending and no write is left owed. *)
Theorem close_drains_the_queue node size token s w sent fuel : NewScopeSignal node size token = Some s → reachable s w → closed (signal w) = true →
  (work (pub w) (queue (signal w)) ≤ fuel)%nat →
  ∃ s', drain sent fuel (signal w) (pub w) (attempts w) = (s', Stopped, attempts w ++ held (pub w) ++ queue (signal w)) ∧
    queue s' = [] ∧ pending s' = ∅ ∧ owed w ⊆ list_to_set (held (pub w) ++ queue (signal w)) ∧
    tally s' = tally (signal w) + Z.of_nat (length (begun (pub w) ++ held (pub w) ++ queue (signal w))).
Proof.
  intros Hnew Hr Hcl Hf. destruct (lane_reachable_ok _ _ _ _ _ Hnew Hr) as [[H1 H2 H3] Hroom Ho Hc Hd].
  destruct (drain_spec sent fuel (signal w) (pub w) (attempts w) Hcl ltac:(intros Hst; apply (Hd Hst)) Hf) as (s' & E & Hq & Hp & Ht).
  assert (writers w = []) as Hws by (destruct (writers w); [done|]; specialize (Ho ltac:(done)); congruence).
  assert (∀ n, n ∈ pending (signal w) ↔ n ∈ held (pub w) ++ queue (signal w)) as Hhold.
  { intros n. rewrite H2. unfold holders. rewrite Hws. cbn. rewrite !elem_of_app. tauto. }
  exists s'. split_and!; [done|done| |set_solver|done]. apply set_eq. intros n. rewrite Hp, Hhold. set_solver.
Qed.

(** *** One write, announced and then the lane closed. *)
Definition demoSignal : ScopeSignal := mkSignal [] 1 ∅ false "n1" None (mkStats 0 0 0 0 0 0 0).
Definition demoDish : DomainRecord := mkRecord "menu" "dishes" "o" "r" [] [] 0 0.

Lemma demo_queued : reachable demoSignal (mkLane (withPending (withQueue demoSignal ["menu:dishes"]) ({["menu:dishes"]} ∪ ∅)) [] [] Idle
  ({["menu:dishes"]} ∪ ∅) [] false).
Proof.
  pose proof (reach_open demoSignal) as R0. unfold openLane in R0.
  eassert (reachable demoSignal _) as R1.
  { eapply reach_step; [exact R0|]. apply (step_write _ _ _ _ _ _ _ DefaultScopeSourceName [demoDish] OperationUpsert). reflexivity. }
  eassert (reachable demoSignal _) as R2. { eapply reach_step; [exact R1|]. apply (step_route _ [] "menu:dishes" []). reflexivity. }
  eassert (reachable demoSignal _) as R3. { eapply reach_step; [exact R2|]. apply (step_enter _ [] "menu:dishes" []). reflexivity. }
  eassert (reachable demoSignal _) as R4. { eapply reach_step; [exact R3|]. apply (step_claim _ _ [] "menu:dishes" []). }
  eassert (reachable demoSignal _) as R5. { eapply reach_step; [exact R4|]. apply (step_offer _ _ [] "menu:dishes" []). }
  exact R5.
Qed.

Lemma lane_keeps_its_promises_witness : ∃ w, reachable demoSignal w ∧ queue (signal w) = ["menu:dishes"] ∧ panicked w = false ∧
  "menu:dishes" ∈ pending (signal w).
Proof.
  eexists. split; [exact demo_queued|]. split; [reflexivity|].
  destruct (lane_keeps_its_promises "n1" 1 None demoSignal _ eq_refl demo_queued) as (H1 & _ & _ & _ & H5 & _). split; [exact H1|].
  apply H5. apply elem_of_union_l. by apply elem_of_singleton.
Defined.

Lemma close_drains_the_queue_witness : ∃ w s', reachable demoSignal w ∧ closed (signal w) = true ∧
  drain (λ _, true) 9 (signal w) (pub w) (attempts w) = (s', Stopped, ["menu:dishes"]) ∧ pending s' = ∅ ∧ tally s' = 1.
Proof.
  eassert (reachable demoSignal _) as R. { eapply reach_step; [exact demo_queued|]. apply step_close. }
  destruct (close_drains_the_queue "n1" 1 None demoSignal _ (λ _, true) 9 eq_refl R eq_refl ltac:(vm_compute; lia)) as (s' & E & _ & Hp & _ & Ht).
  eexists _, s'. split; [exact R|]. split; [reflexivity|]. split; [exact E|]. split; [exact Hp|exact Ht].
Defined.

(** ** From a write to the peer's sweeper *)

(** A committed write wakes the source that converges it in every other
    process. For a peer whose sweeper registered the record's scope in the lane of
    the operation (changed rows for an upsert, tombstones for a delete), an open
    and idle writer queues exactly the name that source is registered under; the
    peer that receives the announcement flags that source and wakes its loop; the
    writer that receives its own announcement changes nothing but a counter. *)
Theorem write_wakes_the_peer A B m0 m rec op kind :
  AddScopeSource m0 (Domain rec) (Collection rec) kind = (m, true) → (kind = ChangedSource ↔ op ≠ OperationDelete) →
  bound B = Some m → closed B = false → nodeID A ≠ nodeID B →
  closed A = false → bound A = None → pending A = ∅ → (length (queue A) < capacity A)%nat →
  let name := TrimSpace (DefaultScopeSourceName rec op) in
  queue (OnCommandWrite DefaultScopeSourceName A [rec] op) = queue A ++ [name] ∧
  (∃ m', bound (receive B (Some (name, nodeID A))) = Some m' ∧ byName m' !! name = Some (mkSource kind 0 true) ∧ wake m' = true) ∧
  receive A (Some (name, nodeID A)) = count A 0 0 0 0 1 0 0.
Proof.
  intros Hadd Hkind HB HoB Hne HoA HbA HpA Hroom name.
  assert (name ≠ "" ∧ byName m !! name = Some (mkSource kind 0 false)) as [Hn Hm].
  { assert (DefaultScopeSourceName rec op = match kind with ChangedSource => ScopeSourceName (Domain rec) (Collection rec) | _ =>
      ScopeDeleteSourceName (Domain rec) (Collection rec) end) as Ename.
    { unfold DefaultScopeSourceName. destruct (String.eqb_spec op OperationDelete); destruct kind; naive_solver. }
    subst name. rewrite Ename. unfold AddScopeSource, AddSource, register in Hadd.
    destruct (String.eqb_spec (TrimSpace (match kind with ChangedSource => ScopeSourceName (Domain rec) (Collection rec) | _ =>
      ScopeDeleteSourceName (Domain rec) (Collection rec) end)) "") as [|Hne']; [done|]. split; [done|].
    destruct (byName m0 !! _); [done|]. injection Hadd as <-. apply lookup_insert_eq. }
  apply String.eqb_neq in Hn as Hn'. split_and!.
  - unfold OnCommandWrite, commandNames. rewrite HoA. cbn [commandNamesLoop]. fold name. rewrite Hn'.
    rewrite (bool_decide_eq_false_2 (name ∈ [])) by set_solver. cbn [orb app foldl].
    unfold enqueue, routable, markPending. rewrite HbA, HoA, HpA. rewrite bool_decide_eq_false_2 by set_solver. cbn [negb].
    unfold trySend. cbn. by rewrite bool_decide_eq_true_2.
  - unfold receive. rewrite HoB, Hn'. destruct (String.eqb_spec (nodeID A) (nodeID B)) as [?|_]; [done|]. cbn [bound count withStats]. rewrite HB.
    unfold Notify, notifyFlag. assert (TrimSpace name = name) as -> by apply trim_space_idemp. rewrite Hm. cbn [dirty]. eexists. split; [done|].
    split; [|done]. unfold setDirty. rewrite Hm. cbn. apply lookup_insert_eq.
  - unfold receive. by rewrite HoA, Hn', String.eqb_refl.
Qed.

Lemma write_wakes_the_peer_witness : ∃ m, AddScopeSource (NewMirrorSweeper 8) "menu" "dishes" ChangedSource = (m, true) ∧
  let peer := mkSignal [] 1 ∅ false "n2" (Some m) (mkStats 0 0 0 0 0 0 0) in
  ∃ m', bound (receive peer (Some ("menu:dishes", "n1"))) = Some m' ∧ byName m' !! "menu:dishes" = Some (mkSource ChangedSource 0 true) ∧ wake m' = true.
Proof.
  eexists. split; [reflexivity|].
  destruct (write_wakes_the_peer demoSignal (mkSignal [] 1 ∅ false "n2" (Some _) (mkStats 0 0 0 0 0 0 0)) (NewMirrorSweeper 8) _ demoDish OperationUpsert
    ChangedSource eq_refl ltac:(by split) eq_refl eq_refl ltac:(done) eq_refl eq_refl eq_refl ltac:(cbn; lia)) as (_ & H & _). exact H.
Defined.

(** A write folded into a claim that the full queue then turns away is counted as
    folded, and no announcement of it follows. *)
Lemma folded_into_a_refused_claim : let s0 := withPending (withQueue demoSignal ["x"]) {["x"]} in
  let '(s1, first) := claim s0 "y" in
  let '(s2, second) := claim s1 "y" in
  let '(s3, turned) := offer s2 "y" in
  let s4 := count (clearPending s3 "y") 0 0 1 0 0 0 0 in
  first = [Claimed "y"] ∧ second = [] ∧ turned = [Turned "y"] ∧ FoldedIn (stats s4) = 1 ∧ Dropped (stats s4) = 1 ∧
  queue s4 = ["x"] ∧ bool_decide ("y" ∈ pending s4) = false.
Proof. by vm_compute. Qed.

(** Scopes that differ share a source name, so only one of them can be
    registered. *)
Lemma scope_names_collide : ScopeDeleteSourceName "menu" "dishes" = ScopeSourceName "menu" "dishes:deletes" ∧
  ScopeSourceName "a:b" "c" = ScopeSourceName "a" "b:c" ∧
  let m := fst (AddScopeSource (NewMirrorSweeper 8) "menu" "dishes" DeletedSource) in
  snd (AddScopeSource m "menu" "dishes:deletes" ChangedSource) = false.
Proof. by vm_compute. Qed.
