(* ===== verification/FeatureFlags.v ===== *)
(** * FeatureFlags: flag evaluation (src/server-kit/go/featureflags)

    The flag manager: its flags, the snapshot of static states that lets
    readers skip the lock, evaluation with targeting and rollout buckets, the
    environment and in-memory sources, and the request gate. Instants are
    nanoseconds. Flag metadata and evaluation attributes never influence a
    decision and are left out; loading JSON and the watch loop's timers are not
    modelled. *)

From Stdlib Require Import ZArith Lia Ascii String.
From stdpp Require Import base strings gmap fin_maps numbers list.
From S2P Require Import Prelude GoStrings.

Open Scope string_scope.
Open Scope list_scope.
Open Scope Z_scope.

Record Flag := mkFlag {
  Name : string; Enabled : bool; RolloutPercentage : Z;
  AllowedUsers : list string; DeniedUsers : list string; AllowedOrgs : list string; Environments : list string;
  StartTime : option Z; EndTime : option Z
}.

Record EvaluationContext := mkContext { UserID : string; OrgID : string; Environment : string }.

(** The functions that modify an evaluation context. *)
Inductive Option_ := WithUser (userID : string) | WithOrg (orgID : string) | WithEnvironment (env : string).

Definition applyOption (ctx : EvaluationContext) (o : Option_) : EvaluationContext :=
  match o with
  | WithUser u => mkContext u (OrgID ctx) (Environment ctx)
  | WithOrg g => mkContext (UserID ctx) g (Environment ctx)
  | WithEnvironment e => mkContext (UserID ctx) (OrgID ctx) e
  end.

Inductive flagState := StaticDisabled | StaticEnabled | Dynamic.

Definition isStaticFlag (f : Flag) : bool :=
  (RolloutPercentage f =? 0) && (length (AllowedUsers f) =? 0)%nat && (length (DeniedUsers f) =? 0)%nat &&
  (length (AllowedOrgs f) =? 0)%nat && (length (Environments f) =? 0)%nat &&
  bool_decide (StartTime f = None) && bool_decide (EndTime f = None).

Definition stateOf (f : Flag) : flagState :=
  if negb (isStaticFlag f) then Dynamic else if Enabled f then StaticEnabled else StaticDisabled.

Definition buildFlagStates (flags : gmap string Flag) : gmap string flagState := stateOf <$> flags.

(** [flags] is guarded by the lock, [flagStates] is the atomic pointer. *)
Record Manager := mkManager { defaultEnvironment : string; flags : gmap string Flag; flagStates : gmap string flagState }.

(** [loaded]: what the source gives, if there is one and it does not fail. *)
Definition NewManager (env : string) (loaded : option (gmap string Flag)) : Manager :=
  match loaded with
  | Some fs => mkManager env fs (buildFlagStates fs)
  | None => mkManager env ∅ (buildFlagStates ∅)
  end.

Definition updateFlags (m : Manager) (newFlags : gmap string Flag) : Manager :=
  mkManager (defaultEnvironment m) newFlags (buildFlagStates newFlags).

Definition SetFlag (m : Manager) (f : Flag) : Manager :=
  updateFlags m (<[Name f := f]> (flags m)).

Definition GetFlag (m : Manager) (name : string) : option Flag := flags m !! name.

(** FNV-1a, 32 bits. *)
Fixpoint fnv32a (h : Z) (s : string) : Z :=
  match s with
  | EmptyString => h
  | String c s' => fnv32a (u32 (Z.lxor h (Z.of_nat (nat_of_ascii c)) * 16777619)) s'
  end.

Definition hashToBucket (flagName userID : string) : Z := fnv32a 2166136261 (flagName +:+ ":" +:+ userID) mod 100.

Definition contains (l : list string) (x : string) : bool := bool_decide (x ∈ l).

Definition evaluate (now : Z) (f : Flag) (ctx : EvaluationContext) : bool :=
  if negb (Enabled f) then false
  else if match StartTime f with Some t => now <? t | None => false end then false
  else if match EndTime f with Some t => t <? now | None => false end then false
  else if negb (length (Environments f) =? 0)%nat && negb (String.eqb (Environment ctx) "") &&
          negb (contains (Environments f) (Environment ctx)) then false
  else if negb (String.eqb (UserID ctx) "") && contains (DeniedUsers f) (UserID ctx) then false
  else if negb (String.eqb (UserID ctx) "") && contains (AllowedUsers f) (UserID ctx) then true
  else if negb (String.eqb (OrgID ctx) "") && contains (AllowedOrgs f) (OrgID ctx) then true
  else if (0 <? RolloutPercentage f) && (RolloutPercentage f <? 100) then
    if String.eqb (UserID ctx) "" then false else hashToBucket (Name f) (UserID ctx) <? RolloutPercentage f
  else Enabled f.

Definition evalContext (m : Manager) (opts : list Option_) : EvaluationContext :=
  foldl applyOption (mkContext "" "" (defaultEnvironment m)) opts.

(** [IsEnabled] with the states and the flags it happens to read: it loads the
    states without the lock and takes the lock later for the flag. *)
Definition isEnabledFrom (states : gmap string flagState) (m : Manager) (now : Z) (name : string) (opts : list Option_) : bool :=
  match states !! name with
  | None => false
  | Some StaticEnabled => true
  | Some StaticDisabled => false
  | Some Dynamic =>
      match flags m !! name with
      | None => false
      | Some f => evaluate now f (evalContext m opts)
      end
  end.

Definition IsEnabled (m : Manager) (now : Z) (name : string) (opts : list Option_) : bool :=
  isEnabledFrom (flagStates m) m now name opts.

(** ** The request gate *)

Definition contextOptions (ctx : EvaluationContext) : list Option_ :=
  (if String.eqb (UserID ctx) "" then [] else [WithUser (UserID ctx)]) ++
  (if String.eqb (OrgID ctx) "" then [] else [WithOrg (OrgID ctx)]) ++
  (if String.eqb (Environment ctx) "" then [] else [WithEnvironment (Environment ctx)]).

Definition IsEnabledFromContext (m : option Manager) (ctx : EvaluationContext) (now : Z) (name : string) (opts : list Option_) : bool :=
  match m with
  | None => false
  | Some m => IsEnabled m now name (contextOptions ctx ++ opts)
  end.

(** [RequireFlag]: whether the next handler runs. *)
Definition RequireFlag (m : Manager) (ctx : EvaluationContext) (now : Z) (name : string) : bool :=
  IsEnabled m now name
    ((if String.eqb (UserID ctx) "" then [] else [WithUser (UserID ctx)]) ++
     (if String.eqb (OrgID ctx) "" then [] else [WithOrg (OrgID ctx)])).

(** ** Sources *)

(** The flag one environment entry [KEY=VALUE] defines. *)
Definition envFlag (prefix env : string) : option Flag :=
  if negb (HasPrefix env prefix) then None
  else match Cut "=" env with
       | None => None
       | Some (key, value) =>
           let name := replaceByte "_" "-" (ToLower (TrimPrefix key prefix)) in
           let base enabled pct := mkFlag name enabled pct [] [] [] [] None None in
           Some (if String.eqb value "true" then base true 100
                 else if String.eqb value "false" then base false 0
                 else match parseInt64 value with
                      | Some pct => if (0 <=? pct) && (pct <=? 100) then base true pct else base false 0
                      | None => base false 0
                      end)
       end.

Definition EnvSourceLoad (prefix : string) (environ : list string) : gmap string Flag :=
  foldl (λ m env, match envFlag prefix env with Some f => <[Name f := f]> m | None => m end) ∅ environ.

(** The in-memory source with its channel of at most ten pending snapshots. *)
Record MemorySource := mkSource { sflags : gmap string Flag; changes : list (gmap string Flag) }.

Definition NewMemorySource : MemorySource := mkSource ∅ [].

Definition notify (s : MemorySource) : MemorySource :=
  if (length (changes s) <? 10)%nat then mkSource (sflags s) (changes s ++ [sflags s]) else s.

Definition SourceSet (s : MemorySource) (f : Flag) : MemorySource := notify (mkSource (<[Name f := f]> (sflags s)) (changes s)).
Definition SourceDelete (s : MemorySource) (name : string) : MemorySource := notify (mkSource (delete name (sflags s)) (changes s)).
Definition SourceLoad (s : MemorySource) : gmap string Flag := sflags s.

(** One turn of the watch loop: a pending snapshot, or the ticker. *)
Definition watchChange (m : Manager) (s : MemorySource) : Manager * MemorySource :=
  match changes s with
  | [] => (m, s)
  | c :: rest => (updateFlags m c, mkSource (sflags s) rest)
  end.
Definition watchTick (m : Manager) (s : MemorySource) : Manager := updateFlags m (SourceLoad s).

(** ** What a decision should be *)

(** The flag's own evaluation, without the snapshot of states. *)
Definition decides (m : Manager) (now : Z) (name : string) (opts : list Option_) : bool :=
  match flags m !! name with None => false | Some f => evaluate now f (evalContext m opts) end.

Definition consistent (m : Manager) : Prop := flagStates m = buildFlagStates (flags m).

Lemma static_facts f : isStaticFlag f = true →
  RolloutPercentage f = 0 ∧ AllowedUsers f = [] ∧ DeniedUsers f = [] ∧ AllowedOrgs f = [] ∧ Environments f = [] ∧
  StartTime f = None ∧ EndTime f = None.
Proof.
  unfold isStaticFlag. rewrite !andb_true_iff, !Nat.eqb_eq, !length_zero_iff_nil, Z.eqb_eq, !bool_decide_eq_true. tauto.
Qed.

(** A static flag ignores the clock and the context. *)
Lemma static_evaluate f now ctx : isStaticFlag f = true → evaluate now f ctx = Enabled f.
Proof.
  intros (Hp & Hu & Hd & Ho & He & Hs & Ht)%static_facts. unfold evaluate.
  rewrite Hp, Hu, Hd, Ho, He, Hs, Ht. destruct (Enabled f); [|done].
  assert (∀ x, contains [] x = false) as Hc by (intros x; apply bool_decide_eq_false; set_solver).
  rewrite !Hc, !andb_false_r. done.
Qed.

Lemma states_lookup m name : consistent m → flagStates m !! name = stateOf <$> flags m !! name.
Proof. intros ->. apply lookup_fmap. Qed.

(** What the states alone decide is what the flags decide. *)
Lemma fast_path m now name opts st : consistent m → flagStates m !! name = st → st ≠ Some Dynamic →
  decides m now name opts = match st with Some StaticEnabled => true | _ => false end.
Proof.
  intros Hc <- Hd. rewrite (states_lookup _ _ Hc) in Hd |- *. unfold decides. destruct (flags m !! name) as [f|]; [|done].
  cbn in *. unfold stateOf in *. destruct (isStaticFlag f) eqn:E; [|done]. cbn [negb] in *.
  rewrite static_evaluate by done. by destruct (Enabled f).
Qed.

Lemma manager_consistent_new env loaded : consistent (NewManager env loaded).
Proof. by destruct loaded. Qed.

Lemma manager_consistent_update m fs : consistent (updateFlags m fs).
Proof. done. Qed.

Lemma bucket_range flagName userID : 0 ≤ hashToBucket flagName userID < 100.
Proof. apply Z.mod_pos_bound. lia. Qed.

(** The flag with another rollout percentage. *)
Definition withRollout (f : Flag) (pct : Z) : Flag :=
  mkFlag (Name f) (Enabled f) pct (AllowedUsers f) (DeniedUsers f) (AllowedOrgs f) (Environments f) (StartTime f) (EndTime f).

(** ** The contracts *)

(** The lock-free snapshot of states never changes a decision, even when
    the flags are replaced between the reader's look at the snapshot and its
    look at the flag: the answer is what the flags decided before the
    replacement or what they decide after it. Without a replacement it is the
    flag's own evaluation. *)
Theorem racing_read_is_linear (before after : Manager) now name opts :
  consistent before → consistent after → defaultEnvironment after = defaultEnvironment before →
  let seen := isEnabledFrom (flagStates before) after now name opts in
  (seen = decides before now name opts ∨ seen = decides after now name opts) ∧
  IsEnabled after now name opts = decides after now name opts.
Proof.
  intros Hb Ha Henv.
  assert (∀ m states, consistent m → states !! name ≠ Some Dynamic → states = flagStates m →
    isEnabledFrom states after now name opts = decides m now name opts) as Hfast.
  { intros m states Hm Hd ->. rewrite (fast_path m now name opts _ Hm eq_refl Hd). unfold isEnabledFrom.
    by destruct (flagStates m !! name) as [[]|]. }
  assert (∀ states, states !! name = Some Dynamic → isEnabledFrom states after now name opts = decides after now name opts) as Hdyn.
  { intros states E. unfold isEnabledFrom. by rewrite E. }
  assert (∀ states : gmap string flagState, states !! name = Some Dynamic ∨ states !! name ≠ Some Dynamic) as Hcase.
  { intros states. destruct (states !! name) as [[]|]; [right|right|left|right]; done. }
  split; [destruct (Hcase (flagStates before)); [right|left]; auto|].
  unfold IsEnabled. destruct (Hcase (flagStates after)); auto.
Qed.

Definition beta (pct : Z) : Flag := mkFlag "beta" true pct [] ["eve"] [] [] None None.

Lemma racing_read_is_linear_witness :
  IsEnabled (SetFlag (NewManager "prod" None) (beta 100)) 5 "beta" [WithUser "eve"] = false.
Proof.
  destruct (racing_read_is_linear (NewManager "prod" None) (SetFlag (NewManager "prod" None) (beta 100)) 5 "beta" [WithUser "eve"])
    as [_ ->]; [reflexivity|reflexivity|reflexivity|]. vm_compute. reflexivity.
Defined.

(** Raising a rollout percentage between 1 and 100 never takes the feature
    away from anyone, and at 100 no user is held back by the rollout. *)
Theorem rollout_is_monotone now f ctx p q : 0 < p ≤ q → q ≤ 100 →
  (evaluate now (withRollout f p) ctx = true → evaluate now (withRollout f q) ctx = true) ∧
  (q = 100 → UserID ctx ≠ "" → evaluate now (withRollout f p) ctx = false →
   evaluate now (withRollout f q) ctx = true → p ≤ hashToBucket (Name f) (UserID ctx)).
Proof.
  intros Hpq Hq. unfold evaluate, withRollout.
  cbn [Enabled StartTime EndTime Environments DeniedUsers AllowedUsers AllowedOrgs RolloutPercentage Name].
  destruct (Enabled f); [|done]. cbn [negb].
  destruct (match StartTime f with Some t => now <? t | None => false end); [done|].
  destruct (match EndTime f with Some t => t <? now | None => false end); [done|].
  destruct (_ && negb (contains (Environments f) (Environment ctx))); [done|].
  destruct (_ && contains (DeniedUsers f) (UserID ctx)); [done|].
  destruct (_ && contains (AllowedUsers f) (UserID ctx)); [done|].
  destruct (_ && contains (AllowedOrgs f) (OrgID ctx)); [done|].
  pose proof (bucket_range (Name f) (UserID ctx)) as Hb.
  destruct (Z.ltb_spec 0 p), (Z.ltb_spec 0 q), (Z.ltb_spec p 100), (Z.ltb_spec q 100); try lia; cbn [andb];
    destruct (String.eqb_spec (UserID ctx) "");
    destruct (Z.ltb_spec (hashToBucket (Name f) (UserID ctx)) p); destruct (Z.ltb_spec (hashToBucket (Name f) (UserID ctx)) q);
    (split; [done || lia|]); intros; (done || lia).
Qed.

Lemma rollout_is_monotone_witness : evaluate 0 (withRollout (beta 0) 100) (mkContext "u1" "" "") = true.
Proof. apply (proj1 (rollout_is_monotone 0 (beta 0) (mkContext "u1" "" "") 100 100 ltac:(lia) ltac:(lia))). vm_compute. reflexivity. Defined.

(** A rollout of zero percent, as the environment source accepts it, enables
    the feature for everyone. *)
Theorem zero_percent_enables_everyone :
  let m := NewManager "" (Some (EnvSourceLoad "FF_" ["FF_NEW_CHECKOUT=0"])) in
  IsEnabled m 0 "new-checkout" [] = true ∧ IsEnabled m 0 "new-checkout" [WithUser "anyone"] = true.
Proof. vm_compute. done. Qed.

(** A flag limited to some environments is on where no environment is known. *)
Theorem unknown_environment_opens_gate :
  IsEnabled (SetFlag (NewManager "" None) (mkFlag "f" true 0 [] [] [] ["staging"] None None)) 0 "f" [] = true ∧
  IsEnabled (SetFlag (NewManager "prod" None) (mkFlag "f" true 0 [] [] [] ["staging"] None None)) 0 "f" [] = false.
Proof. vm_compute. done. Qed.
