(* ===== verification/Retry.v ===== *)
(** * Retry: retry loops and budgets (src/server-kit/go/retry/retry.go)

    The policy's normalization, the loop of [Do] and [DoWithResult], the error
    wrappers and their predicates, and the shared retry budget.

    Tokens are exact numbers here, in units of which [one] make a token; the
    code keeps them in float64. Instants are nanoseconds and the floor rate is
    in units per nanosecond. The delays (float64 arithmetic and a random
    source) do not influence control flow except through the context, whose
    state at each check is an input. *)

From Stdlib Require Import ZArith Lia Ascii String.
From stdpp Require Import base strings numbers list.
From S2P Require Import Prelude GoStrings.

Open Scope string_scope.
Open Scope list_scope.
Open Scope Z_scope.

(** ** Errors *)

Inductive error :=
| Plain (msg : string)
| Canceled | DeadlineExceeded
| Wrapped (msg : string) (e : error)
| Retryable (e : error)
| NonRetryable (e : error)
| BudgetExhaustedError (attempts : Z) (last : error)
| MaxAttemptsError (attempts : Z) (last : error).

Definition unwrap (e : error) : option error :=
  match e with
  | Plain _ | Canceled | DeadlineExceeded => None
  | Wrapped _ e | Retryable e | NonRetryable e | BudgetExhaustedError _ e | MaxAttemptsError _ e => Some e
  end.

(** [errors.Is] and [errors.As]: some error of the chain passes the test. *)
Fixpoint inChain (test : error → bool) (e : error) : bool :=
  test e ||
  match e with
  | Plain _ | Canceled | DeadlineExceeded => false
  | Wrapped _ e | Retryable e | NonRetryable e | BudgetExhaustedError _ e | MaxAttemptsError _ e => inChain test e
  end.

Definition isContextError (e : error) : bool := match e with Canceled | DeadlineExceeded => true | _ => false end.
Definition isNonRetryable (e : error) : bool := match e with NonRetryable _ => true | _ => false end.
Definition isRetryable (e : error) : bool := match e with Retryable _ => true | _ => false end.

Definition DefaultRetryIf (e : error) : bool := negb (inChain isContextError e).

Definition SmartRetryIf (e : error) : bool :=
  if inChain isNonRetryable e then false
  else if inChain isRetryable e then true
  else DefaultRetryIf e.

(** ** The budget *)

Record Budget := mkBudget { ratio : Z; minPerNs : Z; capacity : Z; tokens : Z; lastTime : Z }.

(** ** The policy *)

Record Config := mkConfig { MaxAttempts : Z; RetryIf : error → bool }.

(** [RetryIf = None] is the nil function. *)
Definition NewPolicy (maxAttempts : Z) (retryIf : option (error → bool)) : Config :=
  mkConfig (if maxAttempts <=? 0 then 3 else maxAttempts) (default DefaultRetryIf retryIf).

(** What the world does at one attempt: the context before it, what the
    function returns ([Ok] or an error), when the budget is asked, and what
    waiting ends with. *)
Record attemptWorld (A : Type) := mkWorld {
  ctxBefore : option error; returns : res error A; askedAt : Z; waitEnds : option error
}.
Arguments mkWorld {A}. Arguments ctxBefore {A}. Arguments returns {A}. Arguments askedAt {A}. Arguments waitEnds {A}.

(** What a call of the loop did: the result, the budget, and the number of
    calls of the function. *)
Record ran (A : Type) := mkRan { result : res error A; budget : option Budget; fnCalls : Z }.
Arguments mkRan {A}. Arguments result {A}. Arguments budget {A}. Arguments fnCalls {A}.

(** ** Operations of the budget and the loop *)

Section Budget.
Variable one : Z.

(** [tenth]: the default ratio of 0.1; a capacity below one token becomes the
    larger of ten tokens and two seconds of the floor rate. *)
Definition NewBudget (tenth ratio minPerNs capacity now : Z) : Budget :=
  let ratio := if ratio <=? 0 then tenth else ratio in
  let minPerNs := if minPerNs <? 0 then 0 else minPerNs in
  let capacity := if capacity <? one then Z.max (10 * one) (minPerNs * 10 ^ 9 * 2) else capacity in
  mkBudget ratio minPerNs capacity capacity now.

Definition refillLocked (b : Budget) (now : Z) : Budget :=
  let elapsed := now - lastTime b in
  let filled := if (0 <? elapsed) && (0 <? minPerNs b) then Z.min (capacity b) (tokens b + elapsed * minPerNs b) else tokens b in
  mkBudget (ratio b) (minPerNs b) (capacity b) filled (if 0 <? elapsed then now else lastTime b).

Definition RecordRequest (b : Budget) (now : Z) : Budget :=
  let b := refillLocked b now in
  mkBudget (ratio b) (minPerNs b) (capacity b) (Z.min (capacity b) (tokens b + ratio b)) (lastTime b).

Definition AllowRetry (b : Budget) (now : Z) : Budget * bool :=
  let b := refillLocked b now in
  if one <=? tokens b then (mkBudget (ratio b) (minPerNs b) (capacity b) (tokens b - one) (lastTime b), true)
  else (b, false).

(** [if p.config.Budget != nil && !p.config.Budget.AllowRetry()] *)
Definition askBudget (b : option Budget) (now : Z) : option Budget * bool :=
  match b with
  | None => (None, true)
  | Some b => let '(b, ok) := AllowRetry b now in (Some b, ok)
  end.

(** The loop from attempt [attempt] on; [left_] attempts are left. *)
Fixpoint doLoop {A} (cfg : Config) (left_ : nat) (attempt : Z) (b : option Budget) (world : Z → attemptWorld A)
    (calls : Z) (lastErr : error) : ran A :=
  match left_ with
  | O => mkRan (Err (MaxAttemptsError (MaxAttempts cfg) lastErr)) b calls
  | S left_ =>
      let w := world attempt in
      match ctxBefore w with
      | Some e => mkRan (Err e) b calls
      | None =>
          match returns w with
          | Ok a => mkRan (Ok a) b (calls + 1)
          | Err e =>
              if negb (RetryIf cfg e) then mkRan (Err e) b (calls + 1)
              else if MaxAttempts cfg <=? attempt then mkRan (Err (MaxAttemptsError (MaxAttempts cfg) e)) b (calls + 1)
              else
                let '(b, allowed) := askBudget b (askedAt w) in
                if negb allowed then mkRan (Err (BudgetExhaustedError attempt e)) b (calls + 1)
                else match waitEnds w with
                     | Some e => mkRan (Err e) b (calls + 1)
                     | None => doLoop cfg left_ (attempt + 1) b world (calls + 1) e
                     end
          end
      end
  end.

(** [Do] and [DoWithResult] differ in the value only. *)
Definition DoWithResult {A} (cfg : Config) (b : option Budget) (now : Z) (world : Z → attemptWorld A) : ran A :=
  let b := (λ b, RecordRequest b now) <$> b in
  doLoop cfg (Z.to_nat (MaxAttempts cfg)) 1 b world 0 (Plain "").

(** ** Bounds *)

Lemma refill_tokens b now : 0 ≤ minPerNs b → tokens b ≤ capacity b →
  let b' := refillLocked b now in
  tokens b' ≤ capacity b' ∧ tokens b ≤ tokens b' ∧ lastTime b ≤ lastTime b' ∧
  ratio b' = ratio b ∧ minPerNs b' = minPerNs b ∧ capacity b' = capacity b ∧
  tokens b' ≤ tokens b + (lastTime b' - lastTime b) * minPerNs b ∧ lastTime b' ≤ Z.max now (lastTime b).
Proof.
  intros Hm Ht. unfold refillLocked. cbn [ratio minPerNs capacity tokens lastTime].
  destruct (Z.ltb_spec 0 (now - lastTime b)), (Z.ltb_spec 0 (minPerNs b)); cbn [andb]; split_and!; try nia.
Qed.

(** The credit of a budget: a full bucket, the floor rate since it was made,
    and a deposit per request. *)
Record within (b0 b : Budget) (requests spent : Z) : Prop := {
  wi_params : ratio b = ratio b0 ∧ minPerNs b = minPerNs b0 ∧ capacity b = capacity b0;
  wi_full : tokens b ≤ capacity b;
  wi_time : lastTime b0 ≤ lastTime b;
  wi_spent : spent * one + tokens b ≤ tokens b0 + requests * ratio b0 + (lastTime b - lastTime b0) * minPerNs b0;
  wi_zero : 0 ≤ tokens b
}.

Record budget_ok (b : Budget) : Prop := {
  bo_one : 0 < one; bo_ratio : 0 ≤ ratio b; bo_min : 0 ≤ minPerNs b; bo_tokens : 0 ≤ tokens b ≤ capacity b
}.

Lemma within_refill b0 b n k now : budget_ok b0 → within b0 b n k → within b0 (refillLocked b now) n k.
Proof.
  intros [] [(Hr & Hm & Hc) Hf Ht Hs Hz]. destruct (refill_tokens b now) as (H1 & H2 & H3 & H4 & H5 & H6 & H7 & _); [lia|done|].
  split; [split_and!; congruence|done|lia| |lia]. rewrite Hm in H7. nia.
Qed.

Lemma within_record b0 b n k now : budget_ok b0 → within b0 b n k → within b0 (RecordRequest b now) (n + 1) k.
Proof.
  intros Hok Hw. destruct (within_refill b0 b n k now Hok Hw) as [(Hr & Hm & Hc) Hf Ht Hs Hz]. destruct Hok.
  unfold RecordRequest. revert Hr Hm Hc Hf Ht Hs Hz. generalize (refillLocked b now) as b1. intros. split; cbn [ratio minPerNs capacity tokens lastTime]; [done|lia|done| |lia]. nia.
Qed.

Lemma within_ask b0 b n k now b' ok : budget_ok b0 → within b0 b n k → AllowRetry b now = (b', ok) →
  within b0 b' n (if ok then k + 1 else k).
Proof.
  intros Hok Hw E. pose proof (within_refill b0 b n k now Hok Hw) as Hw'. destruct Hok. unfold AllowRetry in E.
  revert Hw' E. generalize (refillLocked b now) as b1. intros b1 Hw' E. destruct (Z.leb_spec one (tokens b1)); injection E as <- <-; [|done].
  destruct Hw' as [(Hr & Hm & Hc) Hf Ht Hs Hz]. split; cbn [ratio minPerNs capacity tokens lastTime]; [done|lia|done|nia|lia].
Qed.

(** The calls of one run: at least none, one more than the retries the budget
    granted at most. *)
Lemma do_loop_budget {A} cfg b0 left_ : budget_ok b0 → ∀ attempt b (world : Z → attemptWorld A) calls e n k,
  within b0 b n k → ∃ b' k', budget (doLoop cfg left_ attempt (Some b) world calls e) = Some b' ∧ within b0 b' n k' ∧ k ≤ k' ∧
    calls ≤ fnCalls (doLoop cfg left_ attempt (Some b) world calls e) ≤ calls + 1 + (k' - k).
Proof.
  intros Hok. induction left_ as [|left_ IH]; intros attempt b world calls e n k Hw; cbn [doLoop].
  { exists b, k. cbn. split_and!; (done || lia). }
  destruct (ctxBefore (world attempt)); [exists b, k; cbn; split_and!; (done || lia)|].
  destruct (returns (world attempt)) as [a|err]; [exists b, k; cbn; split_and!; (done || lia)|].
  destruct (negb (RetryIf cfg err)); [exists b, k; cbn; split_and!; (done || lia)|].
  destruct (MaxAttempts cfg <=? attempt); [exists b, k; cbn; split_and!; (done || lia)|].
  cbn [askBudget]. destruct (AllowRetry b (askedAt (world attempt))) as [b1 ok] eqn:E.
  pose proof (within_ask b0 b n k _ b1 ok Hok Hw E) as Hw1. destruct ok; cbn [negb].
  - destruct (waitEnds (world attempt)); [exists b1, (k + 1); cbn; split_and!; (done || lia)|].
    destruct (IH (attempt + 1) b1 world (calls + 1) err n (k + 1) Hw1) as (b' & k' & -> & ? & ? & ?).
    exists b', k'. split_and!; (done || lia).
  - exists b1, k. cbn. split_and!; (done || lia).
Qed.

Lemma do_loop_attempts {A} cfg left_ : ∀ attempt b (world : Z → attemptWorld A) calls e,
  calls ≤ fnCalls (doLoop cfg left_ attempt b world calls e) ≤ calls + Z.of_nat left_.
Proof.
  induction left_ as [|left_ IH]; intros attempt b world calls e; cbn [doLoop]; [cbn; lia|].
  destruct (ctxBefore (world attempt)); [cbn; lia|]. destruct (returns (world attempt)) as [a|err]; [cbn; lia|].
  destruct (negb (RetryIf cfg err)); [cbn; lia|]. destruct (MaxAttempts cfg <=? attempt); [cbn; lia|].
  destruct (askBudget b _) as [b1 ok]. destruct (negb ok); [cbn; lia|]. destruct (waitEnds (world attempt)); [cbn; lia|].
  specialize (IH (attempt + 1) b1 world (calls + 1) err). lia.
Qed.

(** The requests that share one budget, one after the other: the total number
    of calls, and the budget they leave. *)
Fixpoint serve {A} (cfg : Config) (b : Budget) (requests : list (Z * (Z → attemptWorld A))) (calls : Z) : Budget * Z :=
  match requests with
  | [] => (b, calls)
  | (now, world) :: rest =>
      let r := DoWithResult cfg (Some b) now world in
      serve cfg (default b (budget r)) rest (calls + fnCalls r)
  end.

Lemma serve_within {A} cfg b0 requests : budget_ok b0 → ∀ b calls n k,
  within b0 b n k → calls ≤ n + k →
  let '(b', calls') := serve cfg b (requests : list (Z * (Z → attemptWorld A))) calls in
  ∃ k', within b0 b' (n + Z.of_nat (length requests)) k' ∧ calls' ≤ n + Z.of_nat (length requests) + k'.
Proof.
  intros Hok. induction requests as [|[now world] rest IH]; intros b calls n k Hw Hc; cbn [serve].
  { exists k. cbn. rewrite !Z.add_0_r. done. }
  unfold DoWithResult. cbn [fmap option_fmap option_map].
  destruct (do_loop_budget cfg b0 (Z.to_nat (MaxAttempts cfg)) Hok 1 (RecordRequest b now) world 0 (Plain "") (n + 1) k)
    as (b' & k' & Eb & Hw' & Hk & Hcalls); [by apply within_record|].
  rewrite Eb. cbn [default from_option id]. pose proof (IH b' (calls + fnCalls (doLoop cfg (Z.to_nat (MaxAttempts cfg)) 1 (Some (RecordRequest b now)) world 0 (Plain ""))) (n + 1) k' Hw' ltac:(lia)) as Hrest.
  destruct (serve cfg b' rest _) as [b2 calls2]. destruct Hrest as (k2 & Hw2 & Hc2). exists k2. cbn [length].
  replace (n + Z.of_nat (S (length rest))) with (n + 1 + Z.of_nat (length rest)) by lia. done.
Qed.
End Budget.

(** ** The contracts *)

(** Requests that share one budget cannot amplify load: however the
    attempts fail, the calls beyond one per request are at most the tokens the
    budget started with, plus its ratio per request, plus what the floor rate
    let in meanwhile. *)
Theorem budget_bounds_amplification {A} one cfg b0 (requests : list (Z * (Z → attemptWorld A))) :
  budget_ok one b0 →
  let '(b, calls) := serve one cfg b0 requests 0 in
  let n := Z.of_nat (length requests) in
  (calls - n) * one ≤ tokens b0 + n * ratio b0 + (lastTime b - lastTime b0) * minPerNs b0.
Proof.
  intros Hok. pose proof (serve_within one cfg b0 requests Hok b0 0 0 0) as H. destruct (serve one cfg b0 requests 0) as [b calls].
  destruct H as (k & [_ _ _ Hs Hz] & Hc); [|lia|].
  - destruct Hok. split; [done|lia|lia|lia|lia].
  - destruct Hok. cbv zeta. nia.
Qed.

(** A function that always fails, retried at once. *)
Definition failing (t : Z) : Z → attemptWorld unit := λ _, mkWorld None (Err (Plain "down")) t None.

Definition twoTokens : Budget := NewBudget 10 1 1 0 20 0.
Definition outage : list (Z * (Z → attemptWorld unit)) := [(1, failing 1); (2, failing 2); (3, failing 3)].

Lemma budget_bounds_amplification_witness :
  (serve 10 (NewPolicy 5 None) twoTokens outage 0).2 = 5 ∧
  let '(b, calls) := serve 10 (NewPolicy 5 None) twoTokens outage 0 in
  let n := Z.of_nat (length outage) in
  (calls - n) * 10 ≤ tokens twoTokens + n * ratio twoTokens + (lastTime b - lastTime twoTokens) * minPerNs twoTokens.
Proof.
  split; [vm_compute; reflexivity|]. apply (budget_bounds_amplification 10 (NewPolicy 5 None) twoTokens outage).
  split; vm_compute; intuition discriminate.
Defined.

(** One run of the loop calls the function at most [MaxAttempts] times, and
    never again after it returned a value or an error
    the predicate refuses to retry: the run then ends with exactly that value
    or error. *)
Theorem retry_stops {A} one cfg b now (world : Z → attemptWorld A) n : 1 ≤ n ≤ MaxAttempts cfg →
  (∀ i, 1 ≤ i < n → ∃ e, ctxBefore (world i) = None ∧ returns (world i) = Err e ∧ RetryIf cfg e = true ∧ waitEnds (world i) = None) →
  ctxBefore (world n) = None →
  (match returns (world n) with Ok _ => True | Err e => RetryIf cfg e = false end) →
  let r := DoWithResult one cfg b now world in
  (b = None → result r = returns (world n) ∧ fnCalls r = n) ∧ 0 ≤ fnCalls r ≤ n.
Proof.
  intros Hn Hbefore Hctx Hstop. unfold DoWithResult.
  assert (∀ k attempt b lastErr, attempt + Z.of_nat k = n + 1 → 1 ≤ attempt → (1 ≤ k)%nat → ∀ left_, (k ≤ left_)%nat →
    let r := doLoop one cfg left_ attempt b world (attempt - 1) lastErr in
    (b = None → result r = returns (world n) ∧ fnCalls r = n) ∧ attempt - 1 ≤ fnCalls r ≤ n) as Hloop.
  { induction k as [|k IH]; intros attempt b1 lastErr Hk Ha Hk1 left_ Hleft; [lia|]. destruct left_ as [|left_]; [lia|]. cbn [doLoop].
    destruct (decide (attempt = n)) as [->|Hne].
    - rewrite Hctx. destruct (returns (world n)) as [a|e]; [|rewrite Hstop]; cbn; (split; [intros _; split; [done|lia]|lia]).
    - destruct (Hbefore attempt ltac:(lia)) as (e & -> & -> & -> & ->). cbn [negb].
      rewrite (proj2 (Z.leb_gt (MaxAttempts cfg) attempt)) by lia.
      destruct (askBudget one b1 (askedAt (world attempt))) as [b2 ok] eqn:Eb. destruct ok; cbn [negb].
      + replace (attempt - 1 + 1) with (attempt + 1 - 1) by lia.
        destruct (IH (attempt + 1) b2 e ltac:(lia) ltac:(lia) ltac:(lia) left_ ltac:(lia)) as [H1 H2].
        split; [|lia]. intros ->. injection Eb as <-. by apply H1.
      + cbn. split; [|lia]. intros ->. by injection Eb. }
  destruct (Hloop (Z.to_nat n) 1 ((λ b, RecordRequest b now) <$> b) (Plain "") ltac:(lia) ltac:(lia) ltac:(lia)
    (Z.to_nat (MaxAttempts cfg)) ltac:(lia)) as [H1 H2].
  split; [|exact H2]. intros ->. by apply H1.
Qed.

(** Fails once, then gives a value. *)
Definition flaky : Z → attemptWorld string := λ i, mkWorld None (if i =? 1 then Err (Plain "busy") else Ok "v") 0 None.

Lemma retry_stops_witness : fnCalls (DoWithResult 1 (NewPolicy 5 None) None 0 flaky) = 2.
Proof.
  apply (retry_stops 1 (NewPolicy 5 None) None 0 flaky 2).
  - cbn. lia.
  - intros i Hi. exists (Plain "busy"). assert (i = 1) as -> by lia. repeat split.
  - reflexivity.
  - exact I.
  - reflexivity.
Defined.

(** The documentation says that zero attempts mean no retries; a policy made
    with zero attempts tries three times. *)
Theorem zero_attempts_retries :
  fnCalls (DoWithResult 1 (NewPolicy 0 None) None 0 (failing 0)) = 3.
Proof. reflexivity. Qed.
