(* ===== verification/Arena.v ===== *)
(** * Arena: the scratch allocator (src/server-kit/go/scratch)

    A bump allocator over one byte buffer, with nested scopes and typed and
    string allocations. A returned slice is its offset, length and capacity in
    the buffer; [addr] is the address of the buffer's first byte. Requests for
    huge pages and the carrying of an arena in a context are not modelled. *)

From Stdlib Require Import ZArith Lia Ascii String.
From stdpp Require Import base sets strings numbers list.
From S2P Require Import Prelude GoStrings.

Open Scope list_scope.
Open Scope Z_scope.

Inductive arena_error := ErrArenaFull | ErrNegativeAlloc | ErrPointerType.

Definition DefaultCapacity : Z := 64 * 1024.

Record Arena := mkArena { buf : list Z; addr : Z; base : Z; head : Z }.

Definition bufLen (a : Arena) : Z := Z.of_nat (length (buf a)).

Definition NewWithBuffer (b : list Z) (address : Z) : Arena :=
  let misalign := if (length b =? 0)%nat then 0 else Z.land address 7 in
  let start := if misalign =? 0 then 0 else 8 - misalign in
  mkArena b address start start.

(** [address]: where the runtime put the new buffer. *)
Definition New (capacity address : Z) : Arena :=
  let capacity := if capacity <=? 0 then DefaultCapacity else capacity in
  NewWithBuffer (replicate (Z.to_nat capacity) 0) address.

Definition align8 (n : Z) : Z := Z.ldiff (i64 (n + 7)) 7.

Record slice := mkSlice { off : Z; len : Z; cap : Z }.

(** [Ok None] is the nil slice. *)
Definition Alloc (a : Arena) (size : Z) : Arena * res arena_error (option slice) :=
  if size <? 0 then (a, Err ErrNegativeAlloc)
  else if size =? 0 then (a, Ok None)
  else if bufLen a <? size then (a, Err ErrArenaFull)
  else
    let aligned := align8 size in
    if bufLen a - head a <? aligned then (a, Err ErrArenaFull)
    else (mkArena (buf a) (addr a) (base a) (head a + aligned), Ok (Some (mkSlice (head a) size aligned))).

Definition Reset (a : Arena) : Arena := mkArena (buf a) (addr a) (base a) (base a).
Definition Capacity (a : Arena) : Z := bufLen a - base a.
Definition Allocated (a : Arena) : Z := head a - base a.
Definition Available (a : Arena) : Z := bufLen a - head a.

Definition AllocBytes (a : Arena) (length_ capacity : Z) : Arena * res arena_error (option slice) :=
  if (length_ <? 0) || (capacity <? length_) then (a, Err ErrNegativeAlloc)
  else if capacity =? 0 then (a, Ok None)
  else match Alloc a capacity with
       | (a, Ok (Some s)) => (a, Ok (Some (mkSlice (off s) length_ (cap s))))
       | (a, r) => (a, r)
       end.

(** [copy(buf[at:], bytes)] for bytes that fit. *)
Definition writeAt (l : list Z) (at_ : Z) (bytes : list Z) : list Z :=
  take (Z.to_nat at_) l ++ bytes ++ drop (Z.to_nat at_ + length bytes) l.

Definition withBuf (a : Arena) (b : list Z) : Arena := mkArena b (addr a) (base a) (head a).

(** ** Types *)

(** What reflection shows of a type: the scalar kinds with their sizes, arrays,
    structs, and every kind that holds a pointer. *)
Inductive gotype := TScalar (size : Z) | TArray (n : Z) (elem : gotype) | TStruct (fields : list gotype) | TPointer.

Fixpoint typePointerFree (t : gotype) (depth : Z) : bool :=
  if 32 <? depth then false
  else match t with
       | TScalar _ => true
       | TArray n elem => (n =? 0) || typePointerFree elem (depth + 1)
       | TStruct fields => forallb (λ f, typePointerFree f (depth + 1)) fields
       | TPointer => false
       end.

Definition PointerFree (t : gotype) : bool := typePointerFree t 0.

(** [AllocSlice[T]]: [elemSize] is the size of [T]. A type of size zero takes
    no arena memory. *)
Definition AllocSlice (a : Arena) (t : gotype) (elemSize count : Z) : Arena * res arena_error (option slice) :=
  if count <? 0 then (a, Err ErrNegativeAlloc)
  else if count =? 0 then (a, Ok None)
  else if negb (PointerFree t) then (a, Err ErrPointerType)
  else if elemSize =? 0 then (a, Ok None)
  else if bufLen a / elemSize <? count then (a, Err ErrArenaFull)
  else match Alloc a (elemSize * count) with
       | (a, Ok (Some s)) => (withBuf a (writeAt (buf a) (off s) (replicate (Z.to_nat (len s)) 0)), Ok (Some s))
       | (a, r) => (a, r)
       end.

Definition AllocString (a : Arena) (s : list Z) : Arena * res arena_error (option slice) :=
  if (length s =? 0)%nat then (a, Ok None)
  else match Alloc a (Z.of_nat (length s)) with
       | (a, Ok (Some sl)) => (withBuf a (writeAt (buf a) (off sl) s), Ok (Some sl))
       | (a, r) => (a, r)
       end.

(** ** Scopes *)

Record Scope := mkScope { checkpoint : Z }.

Definition ScopeOf (a : Arena) : Scope := mkScope (head a).

Definition End_ (a : Arena) (s : Scope) : Arena :=
  if (base a <=? checkpoint s) && (checkpoint s <=? head a)
  then mkArena (buf a) (addr a) (base a) (checkpoint s) else a.

Definition BytesAllocated (a : Arena) (s : Scope) : Z :=
  if head a <? checkpoint s then 0 else head a - checkpoint s.

(** ** Programs that use an arena *)

(** [live]: the memory handed out and not taken back; [scopes]: the open
    scopes, innermost first. *)
Record usage := mkUsage { arena : Arena; scopes : list Scope; live : list slice }.

Definition within_ (limit : Z) (s : slice) : Prop := off s + cap s ≤ limit.

#[export] Instance within_dec limit s : Decision (within_ limit s) := Z_le_dec _ _.

Definition record_ (u : usage) (a : Arena) (r : res arena_error (option slice)) : usage :=
  mkUsage a (scopes u) (match r with Ok (Some s) => s :: live u | _ => live u end).

Inductive use_step : usage → usage → Prop :=
| use_alloc u size a r : Alloc (arena u) size = (a, r) → use_step u (record_ u a r)
| use_bytes u l c a r : AllocBytes (arena u) l c = (a, r) → use_step u (record_ u a r)
| use_slice u t es n a r : 0 ≤ es → AllocSlice (arena u) t es n = (a, r) → use_step u (record_ u a r)
| use_string u s a r : AllocString (arena u) s = (a, r) → use_step u (record_ u a r)
| use_write u s bytes : s ∈ live u → Z.of_nat (length bytes) ≤ cap s →
    use_step u (mkUsage (withBuf (arena u) (writeAt (buf (arena u)) (off s) bytes)) (scopes u) (live u))
| use_open u : use_step u (mkUsage (arena u) (ScopeOf (arena u) :: scopes u) (live u))
| use_end u s rest : scopes u = s :: rest →
    use_step u (mkUsage (End_ (arena u) s) rest (filter (within_ (checkpoint s)) (live u)))
| use_reset u : scopes u = [] → use_step u (mkUsage (Reset (arena u)) [] []).

Inductive reachable (b : list Z) (address : Z) : usage → Prop :=
| reach_new : reachable b address (mkUsage (NewWithBuffer b address) [] [])
| reach_step u u' : reachable b address u → use_step u u' → reachable b address u'.

Definition disjoint_ (s t : slice) : Prop := off s + cap s ≤ off t ∨ off t + cap t ≤ off s.

(** [live] is ordered from the newest down, below the head and above the base;
    the scopes' checkpoints are between allocations. *)
Record usage_ok (u : usage) : Prop := {
  uo_base : 0 ≤ base (arena u) < 8 ∧ (0 < bufLen (arena u) → (addr (arena u) + base (arena u)) mod 8 = 0);
  uo_head : base (arena u) ≤ head (arena u) ∧ (head (arena u) = base (arena u) ∨ head (arena u) ≤ bufLen (arena u)) ∧
    (head (arena u) - base (arena u)) mod 8 = 0;
  uo_live : ∀ s, s ∈ live u → base (arena u) ≤ off s ∧ within_ (head (arena u)) s ∧ 0 < cap s ∧ 0 ≤ len s ≤ cap s ∧
    (off s - base (arena u)) mod 8 = 0;
  uo_apart : ∀ i j s t, live u !! i = Some s → live u !! j = Some t → (i < j)%nat → off t + cap t ≤ off s;
  uo_scopes : ∀ c, c ∈ scopes u → base (arena u) ≤ checkpoint c ≤ head (arena u) ∧ (checkpoint c - base (arena u)) mod 8 = 0 ∧
    ∀ s, s ∈ live u → off s + cap s ≤ checkpoint c ∨ checkpoint c ≤ off s;
  uo_nest : ∀ i j c d, scopes u !! i = Some c → scopes u !! j = Some d → (i < j)%nat → checkpoint d ≤ checkpoint c;
  uo_size : bufLen (arena u) ≤ maxInt64 - 7
}.

Lemma align8_spec n : 0 < n ≤ maxInt64 - 7 → n ≤ align8 n < n + 8 ∧ align8 n mod 8 = 0.
Proof.
  intros Hn. unfold align8. rewrite i64_id by (unfold in_i64, minInt64, maxInt64 in *; lia).
  change 7 with (Z.ones 3) at 2 4 6. rewrite Z.ldiff_ones_r, Z.shiftl_mul_pow2, Z.shiftr_div_pow2 by lia. change (2 ^ 3) with 8.
  pose proof (Z.div_mod (n + 7) 8). pose proof (Z.mod_pos_bound (n + 7) 8). split; [lia|]. apply Z.mod_mul. lia.
Qed.

Lemma arena_new_ok b address : Z.of_nat (length b) ≤ maxInt64 - 7 → 0 ≤ address → usage_ok (mkUsage (NewWithBuffer b address) [] []).
Proof.
  intros Hl Ha. assert (Z.land address 7 = address mod 8) as Hm by (change 7 with (Z.ones 3); by rewrite Z.land_ones by lia).
  pose proof (Z.mod_pos_bound address 8 ltac:(lia)) as Hb. pose proof (Z.div_mod address 8 ltac:(lia)) as Hd.
  split; cbn [arena scopes live]; [| |set_solver|done|set_solver|done|done].
  - unfold NewWithBuffer, bufLen. cbn [base buf addr]. destruct (Nat.eqb_spec (length b) 0); [cbn; lia|]. rewrite Hm.
    destruct (Z.eqb_spec (address mod 8) 0) as [E|E]; [rewrite Z.add_0_r; done|]. split; [lia|]. intros _.
    replace (address + (8 - address mod 8)) with ((address / 8 + 1) * 8) by lia. apply Z.mod_mul. lia.
  - unfold NewWithBuffer. cbn [base head]. rewrite Z.sub_diag. by split_and!; [lia|left|].
Qed.

Lemma alloc_facts a size a' r : bufLen a ≤ maxInt64 - 7 → Alloc a size = (a', r) →
  (a' = a ∧ ∀ s, r ≠ Ok (Some s)) ∨
  (∃ aligned, a' = mkArena (buf a) (addr a) (base a) (head a + aligned) ∧ r = Ok (Some (mkSlice (head a) size aligned)) ∧
     0 < size ≤ aligned ∧ aligned mod 8 = 0 ∧ head a + aligned ≤ bufLen a).
Proof.
  intros Hl. unfold Alloc. destruct (Z.ltb_spec size 0); [intros [= <- <-]; by left|].
  destruct (Z.eqb_spec size 0); [intros [= <- <-]; by left|]. destruct (Z.ltb_spec (bufLen a) size); [intros [= <- <-]; by left|].
  destruct (Z.ltb_spec (bufLen a - head a) (align8 size)); [intros [= <- <-]; by left|]. intros [= <- <-]. right.
  destruct (align8_spec size ltac:(lia)) as [Ha Hm]. exists (align8 size). split_and!; (done || lia).
Qed.

(** Handing out the next region. *)
Lemma grow_ok u b s aligned : usage_ok u → length b = length (buf (arena u)) →
  off s = head (arena u) → cap s = aligned → 0 ≤ len s ≤ aligned → 0 < aligned → aligned mod 8 = 0 →
  head (arena u) + aligned ≤ bufLen (arena u) →
  usage_ok (mkUsage (mkArena b (addr (arena u)) (base (arena u)) (head (arena u) + aligned)) (scopes u) (s :: live u)).
Proof.
  intros [] Hb Ho Hc Hl Hpos Hm Hroom. assert (∀ x, bufLen (mkArena b (addr (arena u)) (base (arena u)) x) = bufLen (arena u)) as Hlen.
  { intros x. unfold bufLen. cbn. by rewrite Hb. }
  split; cbn [arena scopes live base addr head]; rewrite ?Hlen; [done| | | | |done|done].
  - split_and!; [lia|by right|]. replace (head (arena u) + aligned - base (arena u)) with (head (arena u) - base (arena u) + aligned) by lia.
    rewrite Z.add_mod by lia. destruct uo_head0 as (_ & _ & ->). by rewrite Hm.
  - intros t [->|Ht]%elem_of_cons.
    + unfold within_. rewrite Ho, Hc. split_and!; (lia || apply uo_head0).
    + destruct (uo_live0 t Ht) as (? & ? & ? & ? & ?). unfold within_ in *. split_and!; (done || lia).
  - intros [|i] [|j] x y Hx Hy Hij; [lia| |lia|]; cbn in Hx, Hy.
    + injection Hx as <-. rewrite Ho. by apply (uo_live0 y), list_elem_of_lookup_2 with j.
    + apply (uo_apart0 i j); [done..|lia].
  - intros c Hin. destruct (uo_scopes0 c Hin) as (? & ? & Hs). split_and!; [lia|lia|done|].
    intros t [->|Ht]%elem_of_cons; [right; lia|by apply Hs].
Qed.

Lemma same_ok u b : usage_ok u → length b = length (buf (arena u)) →
  usage_ok (mkUsage (withBuf (arena u) b) (scopes u) (live u)).
Proof.
  intros [] Hb. assert (bufLen (withBuf (arena u) b) = bufLen (arena u)) as Hlen by (unfold bufLen; cbn; by rewrite Hb).
  split; cbn [arena scopes live]; rewrite ?Hlen; done.
Qed.

Lemma write_length l at_ bytes : 0 ≤ at_ → at_ + Z.of_nat (length bytes) ≤ Z.of_nat (length l) → length (writeAt l at_ bytes) = length l.
Proof. intros H1 H2. unfold writeAt. rewrite !length_app, length_take, length_drop. lia. Qed.

Lemma alloc_ok u size a r : usage_ok u → Alloc (arena u) size = (a, r) → usage_ok (record_ u a r).
Proof.
  intros Hok E. destruct (alloc_facts _ _ _ _ (uo_size _ Hok) E) as [[-> Hr]|(aligned & -> & -> & H1 & H2 & H3)].
  - unfold record_. destruct r as [[s|]|e]; [by destruct (Hr s)|by destruct u..].
  - apply grow_ok; cbn; (done || lia).
Qed.

(** An allocation that fills its region afterwards. *)
Lemma alloc_fill_ok u size a s bytes : usage_ok u → Alloc (arena u) size = (a, Ok (Some s)) → length bytes = Z.to_nat size →
  usage_ok (record_ u (withBuf a (writeAt (buf a) (off s) bytes)) (Ok (Some s))).
Proof.
  intros Hok E Hb. destruct (alloc_facts _ _ _ _ (uo_size _ Hok) E) as [[_ Hr]|(aligned & -> & [= ->] & H1 & H2 & H3)]; [by destruct (Hr s)|].
  destruct (uo_base _ Hok) as [? _]. destruct (uo_head _ Hok) as [? _].
  apply grow_ok; cbn; try (done || lia). apply write_length; [lia|]. unfold bufLen in H3. lia.
Qed.

Lemma unchanged_ok u r : usage_ok u → (∀ s, r ≠ Ok (Some s)) → usage_ok (record_ u (arena u) r).
Proof. intros Hok Hr. unfold record_. destruct r as [[s|]|e]; [by destruct (Hr s)|by destruct u..]. Qed.

Lemma bytes_ok u l c a r : usage_ok u → AllocBytes (arena u) l c = (a, r) → usage_ok (record_ u a r).
Proof.
  intros Hok. unfold AllocBytes. destruct (Z.ltb_spec l 0); cbn [orb]; [intros [= <- <-]; by apply unchanged_ok|].
  destruct (Z.ltb_spec c l); [intros [= <- <-]; by apply unchanged_ok|].
  destruct (Z.eqb_spec c 0); [intros [= <- <-]; by apply unchanged_ok|].
  destruct (Alloc (arena u) c) as [a1 r1] eqn:E.
  destruct (alloc_facts _ _ _ _ (uo_size _ Hok) E) as [[-> Hr]|(aligned & -> & -> & H1 & H2 & H3)].
  - destruct r1 as [[s|]|e]; [by destruct (Hr s)|..]; intros [= <- <-]; by apply unchanged_ok.
  - intros [= <- <-]. apply grow_ok; cbn; (done || lia).
Qed.

Lemma slice_ok u t es n a r : usage_ok u → 0 ≤ es → AllocSlice (arena u) t es n = (a, r) → usage_ok (record_ u a r).
Proof.
  intros Hok Hes. unfold AllocSlice. destruct (n <? 0); [intros [= <- <-]; by apply unchanged_ok|].
  destruct (n =? 0); [intros [= <- <-]; by apply unchanged_ok|]. destruct (negb (PointerFree t)); [intros [= <- <-]; by apply unchanged_ok|].
  destruct (es =? 0); [intros [= <- <-]; by apply unchanged_ok|]. destruct (_ <? n); [intros [= <- <-]; by apply unchanged_ok|].
  destruct (Alloc (arena u) (es * n)) as [a1 r1] eqn:E.
  destruct (alloc_facts _ _ _ _ (uo_size _ Hok) E) as [[-> Hr]|(aligned & Ha & -> & H1 & H2 & H3)].
  - destruct r1 as [[s|]|e]; [by destruct (Hr s)|..]; intros [= <- <-]; by apply unchanged_ok.
  - intros [= <- <-]. apply (alloc_fill_ok u (es * n) a1 (mkSlice (head (arena u)) (es * n) aligned) _ Hok E). apply length_replicate.
Qed.

Lemma string_ok u s a r : usage_ok u → AllocString (arena u) s = (a, r) → usage_ok (record_ u a r).
Proof.
  intros Hok. unfold AllocString. destruct (length s =? 0)%nat; [intros [= <- <-]; by apply unchanged_ok|].
  destruct (Alloc (arena u) (Z.of_nat (length s))) as [a1 r1] eqn:E.
  destruct (alloc_facts _ _ _ _ (uo_size _ Hok) E) as [[-> Hr]|(aligned & Ha & -> & H1 & H2 & H3)].
  - destruct r1 as [[x|]|e]; [by destruct (Hr x)|..]; intros [= <- <-]; by apply unchanged_ok.
  - intros [= <- <-].
    apply (alloc_fill_ok u (Z.of_nat (length s)) a1 (mkSlice (head (arena u)) (Z.of_nat (length s)) aligned) _ Hok E). lia.
Qed.

(** Filtering keeps the order, so the newest still comes first. *)
Lemma filter_apart (limit : Z) (l : list slice) : (∀ i j s t, l !! i = Some s → l !! j = Some t → (i < j)%nat → off t + cap t ≤ off s) →
  ∀ i j s t, filter (within_ limit) l !! i = Some s → filter (within_ limit) l !! j = Some t → (i < j)%nat → off t + cap t ≤ off s.
Proof.
  induction l as [|x l IH]; intros Hl i j s t; [done|].
  assert (∀ i j s t, l !! i = Some s → l !! j = Some t → (i < j)%nat → off t + cap t ≤ off s) as Hl'.
  { intros i' j' s' t' ???. apply (Hl (S i') (S j')); [done|done|lia]. }
  rewrite filter_cons. case_decide; [|by apply IH]. intros Hi Hj Hij. destruct j as [|j]; [lia|]. destruct i as [|i]; cbn in Hi, Hj.
  - injection Hi as ->. apply list_elem_of_lookup_2, list_elem_of_filter in Hj as [_ Hj]. apply list_elem_of_lookup in Hj as [k Hk].
    apply (Hl 0%nat (S k)); [done|done|lia].
  - apply (IH Hl' i j); [done..|lia].
Qed.

Lemma end_ok u s rest : usage_ok u → scopes u = s :: rest →
  usage_ok (mkUsage (End_ (arena u) s) rest (filter (within_ (checkpoint s)) (live u))).
Proof.
  intros [] E. destruct (uo_scopes0 s) as (Hb & Hm & _); [rewrite E; set_solver|]. unfold End_.
  rewrite (proj2 (Z.leb_le _ _)), (proj2 (Z.leb_le _ _)) by lia. cbn [andb].
  split; cbn [arena scopes live base addr head bufLen]; [done| | |by apply filter_apart| | |done].
  - unfold bufLen in *. cbn [buf]. split_and!; [lia| |done]. lia.
  - intros t [Hin Ht]%list_elem_of_filter. destruct (uo_live0 t Ht) as (? & ? & ? & ? & ?). split_and!; (done || lia).
  - intros c Hc. destruct (uo_scopes0 c) as (? & ? & Hs); [rewrite E; set_solver|].
    apply list_elem_of_lookup in Hc as [j Hj]. assert (checkpoint c ≤ checkpoint s).
    { apply (uo_nest0 0%nat (S j)); [by rewrite E|by rewrite E|lia]. }
    split_and!; [lia|lia|done|]. intros t [_ Ht]%list_elem_of_filter. by apply Hs.
  - intros i j c d Hi Hj Hij. apply (uo_nest0 (S i) (S j)); [by rewrite E..|lia].
Qed.

Lemma use_step_ok u u' : usage_ok u → use_step u u' → usage_ok u'.
Proof.
  intros Hok Hstep. destruct Hstep as [u size a r E|u l c a r E|u t es n a r Hes E|u s a r E|u s bytes Hs Hb|u|u s rest E|u E].
  - by eapply alloc_ok.
  - by eapply bytes_ok.
  - by eapply slice_ok.
  - by eapply string_ok.
  - apply same_ok; [done|]. destruct (uo_live _ Hok s Hs) as (? & Hw & ? & _). destruct (uo_base _ Hok) as [? _].
    destruct (uo_head _ Hok) as (? & Hh & _). unfold within_, bufLen in *. apply write_length; lia.
  - destruct Hok. split; cbn [arena scopes live]; [done|done|done|done| | |done].
    + intros c [->|Hc]%elem_of_cons; [|by apply uo_scopes0]. unfold ScopeOf. cbn [checkpoint]. split_and!; [lia|lia|apply uo_head0|].
      intros s Hs. left. by apply uo_live0.
    + intros [|i] [|j] c d Hi Hj Hij; [lia| |lia|]; cbn in Hi, Hj; [|apply (uo_nest0 i j); [done..|lia]].
      injection Hi as <-. cbn. by apply (uo_scopes0 d), list_elem_of_lookup_2 with j.
  - by apply end_ok.
  - destruct Hok. split; cbn [Reset arena scopes live base addr head]; [done| |set_solver|done|set_solver|done|done].
    rewrite Z.sub_diag. by split_and!; [lia|left|].
Qed.

Lemma arena_reachable_ok b address u : Z.of_nat (length b) ≤ maxInt64 - 7 → 0 ≤ address → reachable b address u → usage_ok u.
Proof. intros Hl Ha. induction 1 as [|u u' _ IH Hs]; [by apply arena_new_ok|by eapply use_step_ok]. Qed.

(** Whatever a program does with an arena - plain, typed and string
    allocations, nested scopes, writes to what it holds, resets between scopes -
    the memory it holds at any time is inside the buffer, starts at addresses
    that are multiples of eight, and no two pieces of it overlap. *)
Theorem arena_memory_is_disjoint b address u i j s t :
  Z.of_nat (length b) ≤ maxInt64 - 7 → 0 ≤ address → reachable b address u →
  live u !! i = Some s → live u !! j = Some t → i ≠ j →
  disjoint_ s t ∧ 0 ≤ off s ∧ off s + cap s ≤ bufLen (arena u) ∧ 0 ≤ len s ≤ cap s ∧ (addr (arena u) + off s) mod 8 = 0.
Proof.
  intros Hl Ha Hr Hi Hj Hne. destruct (arena_reachable_ok _ _ _ Hl Ha Hr) as [[Hb Hal] (Hh1 & Hh2 & _) Hlive Hap _ _ _].
  destruct (Hlive s) as (H1 & H2 & H3 & H4 & H5); [by eapply list_elem_of_lookup_2|]. unfold within_ in H2. split_and!; [|lia|lia|lia..|].
  - unfold disjoint_. destruct (decide (i < j)%nat); [right; by apply (Hap i j)|left; apply (Hap j i); [done..|lia]].
  - replace (addr (arena u) + off s) with (addr (arena u) + base (arena u) + (off s - base (arena u))) by lia.
    rewrite Z.add_mod, H5, Hal by lia. done.
Qed.

Definition page : list Z := replicate 64 9.

(** Two allocations, with a scope around a third that was ended. *)
Definition twoLive : usage :=
  let u := mkUsage (NewWithBuffer page 4101) [] [] in
  let u := record_ u (Alloc (arena u) 5).1 (Alloc (arena u) 5).2 in
  record_ u (AllocString (arena u) [1; 2; 3]).1 (AllocString (arena u) [1; 2; 3]).2.

Lemma arena_memory_is_disjoint_witness : ∃ s t, live twoLive = [s; t] ∧ disjoint_ s t ∧ (4101 + off s) mod 8 = 0.
Proof.
  eexists _, _. split; [vm_compute; reflexivity|].
  destruct (arena_memory_is_disjoint page 4101 twoLive 0 1 (mkSlice 11 3 8) (mkSlice 3 5 8)) as (Hd & _ & _ & _ & Hm).
  - vm_compute. discriminate.
  - lia.
  - eapply reach_step; [eapply reach_step; [apply reach_new|]|].
    + apply (use_alloc (mkUsage (NewWithBuffer page 4101) [] []) 5). reflexivity.
    + apply (use_string _ [1; 2; 3]). reflexivity.
  - vm_compute. reflexivity.
  - vm_compute. reflexivity.
  - lia.
  - split; [exact Hd|exact Hm].
Defined.

(** A scope that is ended after a reset, when newer allocations passed its
    checkpoint, rewinds into the middle of one: the next allocation overlaps
    memory that is still in use. *)
Theorem stale_scope_frees_live_memory :
  let a0 := NewWithBuffer page 4096 in
  let a1 := (Alloc a0 8).1 in
  let sc := ScopeOf a1 in
  let '(a2, held) := Alloc (Reset a1) 16 in
  let '(_, next) := Alloc (End_ a2 sc) 8 in
  held = Ok (Some (mkSlice 0 16 16)) ∧ next = Ok (Some (mkSlice 8 8 8)).
Proof. vm_compute. done. Qed.

(** An unaligned buffer that is shorter than its padding has negative capacity. *)
Theorem tiny_buffer_negative_capacity : Capacity (NewWithBuffer [0; 0] 4097) = -5.
Proof. reflexivity. Qed.

(** ** Pointer-free types *)

(** A value of the type holds a pointer somewhere. *)
Fixpoint holdsPointer (t : gotype) : bool :=
  match t with
  | TScalar _ => false
  | TArray n elem => negb (n =? 0) && holdsPointer elem
  | TStruct fields => existsb holdsPointer fields
  | TPointer => true
  end.

Fixpoint depthOf (t : gotype) : Z :=
  match t with
  | TArray n elem => 1 + depthOf elem
  | TStruct fields => 1 + foldr (λ f m, Z.max (depthOf f) m) 0 fields
  | _ => 0
  end.

Fixpoint gotype_ind' (P : gotype → Prop) (Hs : ∀ n, P (TScalar n)) (Ha : ∀ n t, P t → P (TArray n t))
    (Hf : ∀ l, Forall P l → P (TStruct l)) (Hp : P TPointer) (t : gotype) : P t :=
  match t with
  | TScalar n => Hs n
  | TArray n t => Ha n t (gotype_ind' P Hs Ha Hf Hp t)
  | TStruct l =>
      Hf l ((fix go l := match l return Forall P l with
                         | [] => Forall_nil_2 P
                         | t :: l => Forall_cons_2 P t l (gotype_ind' P Hs Ha Hf Hp t) (go l)
                         end) l)
  | TPointer => Hp
  end.

Lemma depth_nonneg t : 0 ≤ depthOf t.
Proof.
  induction t as [n|n t IH|l IH|] using gotype_ind'; cbn [depthOf]; try lia.
  assert (0 ≤ foldr (λ f m, Z.max (depthOf f) m) 0 l); [|lia]. induction IH; cbn; lia.
Qed.

Lemma pointer_free_sound t : ∀ depth, typePointerFree t depth = true → holdsPointer t = false.
Proof.
  induction t as [n|n t IH|l IH|] using gotype_ind'; intros depth; cbn [typePointerFree holdsPointer]; destruct (32 <? depth); try done.
  - destruct (n =? 0); cbn; [done|]. apply IH.
  - rewrite forallb_forall. intros Hall. apply not_true_iff_false. rewrite existsb_exists. intros (f & Hf & Hp).
    rewrite Forall_forall in IH. specialize (IH f ltac:(by apply list_elem_of_In) _ (Hall f Hf)). congruence.
Qed.

Lemma depth_in_bound t depth : depth + depthOf t ≤ 32 → (32 <? depth) = false.
Proof. intros Hd. apply Z.ltb_ge. pose proof (depth_nonneg t). lia. Qed.

Lemma pointer_free_complete t : ∀ depth, holdsPointer t = false → depth + depthOf t ≤ 32 → typePointerFree t depth = true.
Proof.
  induction t as [n|n t IH|l IH|] using gotype_ind'; intros depth Hh Hd; pose proof (depth_in_bound _ _ Hd) as Hlt;
    cbn [typePointerFree holdsPointer depthOf] in *; rewrite Hlt; try done.
  - destruct (n =? 0); cbn in *; [done|]. apply IH; [done|lia].
  - apply forallb_forall. intros f Hf. rewrite Forall_forall in IH. apply IH; [by apply list_elem_of_In|..].
    + apply not_true_iff_false. intros Ht. apply not_true_iff_false in Hh. apply Hh, existsb_exists. by exists f.
    + assert (depthOf f ≤ foldr (λ f m, Z.max (depthOf f) m) 0 l); [|lia]. clear -Hf.
      induction l as [|g l IHl]; [done|]. cbn. destruct Hf as [->|Hf]; [lia|]. specialize (IHl Hf). lia.
Qed.

(** The reflection walk accepts a type only when no value of it holds a
    pointer, and it accepts every such type that nests at most 32 deep. *)
Theorem pointer_free_exact t :
  (PointerFree t = true → holdsPointer t = false) ∧ (depthOf t ≤ 32 → holdsPointer t = false → PointerFree t = true).
Proof.
  split; [apply pointer_free_sound|]. intros Hd Hh. by apply pointer_free_complete.
Qed.
