(* ===== verification/Degradation.v ===== *)
(** * Degradation: health of dependencies (src/server-kit/go/degradation/degradation.go)

    The manager keeps a pointer per registered name; a health-check goroutine
    holds its own pointer for as long as the manager runs. Dependencies
    therefore live in a heap of their own, and the manager maps names to
    addresses. A health check's outcome and the outcomes of the functions a
    caller passes are inputs. *)

From Stdlib Require Import ZArith Lia Ascii String.
From stdpp Require Import base strings gmap fin_maps numbers list.
From S2P Require Import Prelude GoStrings.

Open Scope string_scope.
Open Scope list_scope.
Open Scope Z_scope.

Inductive Mode := ModeNormal | ModeDegraded | ModeUnavailable | ModeRecovering.

#[export] Instance Mode_eq_dec : EqDecision Mode.
Proof. solve_decision. Defined.

Inductive FallbackBehavior := FallbackFailOpen | FallbackFailClosed | FallbackCache | FallbackDefault.

#[export] Instance FallbackBehavior_eq_dec : EqDecision FallbackBehavior.
Proof. solve_decision. Defined.

Record Config := mkConfig { FailureThreshold : Z; RecoveryThreshold : Z; Fallback : FallbackBehavior }.

(** Zero thresholds and an empty behaviour are replaced when registering. *)
Definition normalizeConfig (failure recovery : Z) (fallback : option FallbackBehavior) : Config :=
  mkConfig (if failure =? 0 then 3 else failure) (if recovery =? 0 then 2 else recovery) (default FallbackFailClosed fallback).

Record Dependency := mkDependency {
  Name : string; config : Config; mode : Mode; ConsecutiveFails : Z; ConsecutiveSuccess : Z;
  LastCheck : option Z; LastError : option string
}.

(** The pair of modes [OnModeChange] is told, if they differ. *)
Definition checkHealth (d : Dependency) (now : Z) (err : option string) : Dependency * option (Mode * Mode) :=
  let '(m, fails, successes) :=
    match err with
    | Some _ =>
        let fails := ConsecutiveFails d + 1 in
        (if FailureThreshold (config d) <=? fails then ModeUnavailable
         else if decide (mode d = ModeNormal) then ModeDegraded else mode d, fails, 0)
    | None =>
        let successes := ConsecutiveSuccess d + 1 in
        let m := if decide (mode d = ModeUnavailable) then ModeRecovering else mode d in
        (if RecoveryThreshold (config d) <=? successes then ModeNormal else m, 0, successes)
    end in
  (mkDependency (Name d) (config d) m fails successes (Some now) err,
   if decide (mode d = m) then None else Some (mode d, m)).

(** What [Execute] records of a failed call. *)
Definition recordFailure (d : Dependency) (err : string) : Dependency :=
  mkDependency (Name d) (config d) (mode d) (ConsecutiveFails d + 1) 0 (LastCheck d) (Some err).

(** [checking]: the dependencies whose goroutine runs. *)
Record Manager := mkManager {
  heap : gmap nat Dependency; dependencies : gmap string nat; next : nat; checking : list nat; stopped : bool
}.

Definition NewManager : Manager := mkManager ∅ ∅ 0 [] false.

Definition Register (m : Manager) (name : string) (cfg : Config) : Manager :=
  mkManager (<[next m := mkDependency name cfg ModeNormal 0 0 None None]> (heap m))
    (<[name := next m]> (dependencies m)) (S (next m)) (next m :: checking m) (stopped m).

Definition Unregister (m : Manager) (name : string) : Manager :=
  mkManager (heap m) (delete name (dependencies m)) (next m) (checking m) (stopped m).

Definition Stop (m : Manager) : Manager := mkManager (heap m) (dependencies m) (next m) [] true.

Definition lookupDep (m : Manager) (name : string) : option Dependency :=
  match dependencies m !! name with Some id => heap m !! id | None => None end.

Definition setDep (m : Manager) (id : nat) (d : Dependency) : Manager :=
  mkManager (<[id := d]> (heap m)) (dependencies m) (next m) (checking m) (stopped m).

(** A turn of a goroutine's loop. *)
Definition runCheck (m : Manager) (id : nat) (now : Z) (err : option string) : Manager * option (Mode * Mode) :=
  match heap m !! id with
  | Some d => if bool_decide (id ∈ checking m) then let '(d, n) := checkHealth d now err in (setDep m id d, n) else (m, None)
  | None => (m, None)
  end.

Definition GetMode (m : Manager) (name : string) : Mode :=
  match lookupDep m name with Some d => mode d | None => ModeUnavailable end.

Definition IsHealthy (m : Manager) (name : string) : bool := bool_decide (GetMode m name = ModeNormal).
Definition usable (md : Mode) : bool := match md with ModeUnavailable => false | _ => true end.
Definition IsAvailable (m : Manager) (name : string) : bool := usable (GetMode m name).

Record DependencyStatus := mkStatus {
  SName : string; SMode : Mode; SLastCheck : option Z; SLastError : option string; SFails : Z; SSuccess : Z; SFallback : FallbackBehavior
}.

Definition GetStatus (m : Manager) (name : string) : option DependencyStatus :=
  (λ d, mkStatus (Name d) (mode d) (LastCheck d) (LastError d) (ConsecutiveFails d) (ConsecutiveSuccess d) (Fallback (config d)))
    <$> lookupDep m name.

Definition getFallbackBehavior (m : Manager) (name : string) : FallbackBehavior :=
  match lookupDep m name with Some d => Fallback (config d) | None => FallbackFailClosed end.

(** What [Execute] gives its caller: the error of one of the functions, its own
    error, or success. *)
Inductive executed := Succeeded | FailedWith (err : string) | ErrDependencyUnavailable.

Definition runFallback (fallback : option (option string)) : executed :=
  match fallback with
  | None => ErrDependencyUnavailable
  | Some None => Succeeded
  | Some (Some e) => FailedWith e
  end.

(** [fn]: what the function returns; [fallback = None] is a nil function. *)
Definition Execute (m : Manager) (name : string) (fn : option string) (fallback : option (option string)) : Manager * executed :=
  if IsAvailable m name then
    match fn with
    | None => (m, Succeeded)
    | Some err =>
        let m := match dependencies m !! name with
                 | Some id => match heap m !! id with Some d => setDep m id (recordFailure d err) | None => m end
                 | None => m
                 end in
        if decide (getFallbackBehavior m name = FallbackFailClosed) then (m, FailedWith err) else (m, runFallback fallback)
    end
  else (m, runFallback fallback).

Definition WithFallback {T} (m : Manager) (name : string) (fn : res string T) (fallback : option (res string T)) :
    res executed T :=
  let down := match fallback with
              | None => Err ErrDependencyUnavailable
              | Some (Ok v) => Ok v
              | Some (Err e) => Err (FailedWith e)
              end in
  if IsAvailable m name then match fn with Ok v => Ok v | Err _ => down end else down.

(** ** What happens to one dependency *)

Inductive event := Check (now : Z) (err : option string) | CallFailed (err : string).

Definition react (d : Dependency) (e : event) : Dependency :=
  match e with Check now err => (checkHealth d now err).1 | CallFailed err => recordFailure d err end.

Definition fresh (name : string) (cfg : Config) : Dependency := mkDependency name cfg ModeNormal 0 0 None None.

Definition isFailedCheck (e : event) : bool := match e with Check _ (Some _) => true | _ => false end.

Definition failedChecks (es : list event) : list event := filter (λ e, isFailedCheck e = true) es.

(** Counters never go below zero and never run at the same time; a normal
    dependency's last check did not fail, and the thresholds have been
    respected. *)
Record dependency_ok (d : Dependency) : Prop := {
  de_counts : 0 ≤ ConsecutiveFails d ∧ 0 ≤ ConsecutiveSuccess d ∧ (ConsecutiveFails d = 0 ∨ ConsecutiveSuccess d = 0);
  de_config : 0 < FailureThreshold (config d) ∧ 0 < RecoveryThreshold (config d);
  de_recovering : mode d = ModeRecovering ∨ mode d = ModeDegraded ∨ mode d = ModeUnavailable →
    ConsecutiveSuccess d < RecoveryThreshold (config d)
}.

Lemma react_ok d e : dependency_ok d → dependency_ok (react d e).
Proof.
  intros [(H1 & H2 & H3) [H4 H5] H6]. destruct e as [now [err|]|err]; cbn [react checkHealth recordFailure fst].
  - split; cbn [ConsecutiveFails ConsecutiveSuccess config mode]; [lia|lia|]. intros _. lia.
  - split; cbn [ConsecutiveFails ConsecutiveSuccess config mode]; [lia|lia|].
    destruct (Z.leb_spec (RecoveryThreshold (config d)) (ConsecutiveSuccess d + 1)); [naive_solver|lia].
  - unfold recordFailure. split; cbn [ConsecutiveFails ConsecutiveSuccess config mode]; [lia|lia|]. intros _. lia.
Qed.

Lemma react_config d e : config (react d e) = config d.
Proof. by destruct e as [now [err|]|err]. Qed.

Lemma history_ok es : ∀ d, dependency_ok d → dependency_ok (foldl react d es) ∧ config (foldl react d es) = config d.
Proof.
  induction es as [|e es IH]; intros d Hd; cbn [foldl]; [done|].
  destruct (IH _ (react_ok d e Hd)) as [H1 H2]. split; [done|]. by rewrite H2, react_config.
Qed.

(** Failing checks in a row, with failed calls anywhere between them, push the
    failure count up by at least their number. *)
Lemma failures_accumulate es : ∀ d, Forall (λ e, match e with Check _ None => False | _ => True end) es → 0 ≤ ConsecutiveFails d →
  ConsecutiveFails d + Z.of_nat (length (failedChecks es)) ≤ ConsecutiveFails (foldl react d es) ∧
  (mode d = ModeUnavailable ∨ (FailureThreshold (config d) ≤ ConsecutiveFails d + Z.of_nat (length (failedChecks es)) ∧ failedChecks es ≠ []) →
   mode (foldl react d es) = ModeUnavailable).
Proof.
  induction es as [|e es IH]; intros d Hes Hd; cbn [foldl].
  { unfold failedChecks. cbn. split; [lia|]. intros [?|[_ ?]]; done. }
  apply Forall_cons in Hes as [He Hes]. destruct e as [now [err|]|err]; [|done|]; unfold failedChecks; rewrite filter_cons.
  - rewrite decide_True by done. fold (failedChecks es). cbn [length].
    destruct (IH (react d (Check now (Some err))) Hes) as [H1 H2]; [cbn; lia|]. cbn [react checkHealth fst ConsecutiveFails mode config] in *.
    split; [lia|]. intros Hcase. apply H2.
    destruct (Z.leb_spec (FailureThreshold (config d)) (ConsecutiveFails d + 1)); [by left|].
    destruct Hcase as [Hu|[Hth _]]; [left; rewrite Hu; by rewrite decide_False|]. right. split; [lia|].
    intros E. rewrite E in Hth. cbn in Hth. lia.
  - rewrite decide_False by auto. fold (failedChecks es).
    destruct (IH (react d (CallFailed err)) Hes) as [H1 H2]; [cbn; lia|]. cbn [react recordFailure ConsecutiveFails mode config] in *.
    split; [lia|]. intros Hcase. apply H2. destruct Hcase as [|[Hth Hne]]; [by left|right]. split; [lia|done].
Qed.

(** Passing checks in a row. *)
Lemma successes_recover n : ∀ d now, 0 ≤ ConsecutiveSuccess d →
  let d' := foldl react d (replicate n (Check now None)) in
  ConsecutiveSuccess d' = ConsecutiveSuccess d + Z.of_nat n ∧
  ((0 < n)%nat → RecoveryThreshold (config d) ≤ ConsecutiveSuccess d + Z.of_nat n → mode d' = ModeNormal).
Proof.
  induction n as [|n IH]; intros d now Hd; cbn [replicate foldl]; [cbn; lia|].
  destruct (IH (react d (Check now None)) now) as [H1 H2]; [cbn; lia|]. cbn [react checkHealth fst ConsecutiveSuccess mode config] in *.
  cbv zeta in *. split; [lia|]. intros _ Hth. destruct n as [|n].
  - cbn. by rewrite (proj2 (Z.leb_le _ _)) by lia.
  - apply H2; lia.
Qed.

(** From whatever a dependency has been through, as many passing checks in
    a row as its recovery threshold make it healthy, and as many failing checks
    as its failure threshold, with any failed calls between them, make it
    unavailable. *)
Theorem health_follows_checks name cfg es now bad : 0 < FailureThreshold cfg → 0 < RecoveryThreshold cfg →
  Forall (λ e, match e with Check _ None => False | _ => True end) bad →
  FailureThreshold cfg ≤ Z.of_nat (length (failedChecks bad)) →
  let d := foldl react (fresh name cfg) es in
  mode (foldl react d (replicate (Z.to_nat (RecoveryThreshold cfg)) (Check now None))) = ModeNormal ∧
  mode (foldl react d bad) = ModeUnavailable.
Proof.
  intros Hf Hr Hbad Hlen d. destruct (history_ok es (fresh name cfg)) as [Hok Hcfg].
  { split; cbn [fresh ConsecutiveFails ConsecutiveSuccess config mode]; [lia|lia|naive_solver]. }
  fold d in Hok, Hcfg. destruct Hok as [(H1 & H2 & _) _ _]. split.
  - destruct (successes_recover (Z.to_nat (RecoveryThreshold cfg)) d now H2) as [_ Hm]. rewrite Hcfg in Hm. cbn in Hm. apply Hm; lia.
  - destruct (failures_accumulate bad d Hbad H1) as [_ Hm]. apply Hm. right. rewrite Hcfg. cbn [fresh config]. split; [lia|].
    intros E. rewrite E in Hlen. cbn in Hlen. lia.
Qed.

Definition strict : Config := normalizeConfig 0 0 None.

Lemma health_follows_checks_witness :
  mode (foldl react (foldl react (fresh "redis" strict) [CallFailed "x"; Check 1 None])
    [Check 2 (Some "a"); CallFailed "b"; Check 3 (Some "c"); Check 4 (Some "d")]) = ModeUnavailable.
Proof.
  apply (health_follows_checks "redis" strict [CallFailed "x"; Check 1 None] 0
           [Check 2 (Some "a"); CallFailed "b"; Check 3 (Some "c"); Check 4 (Some "d")]).
  - reflexivity.
  - reflexivity.
  - repeat constructor.
  - vm_compute. discriminate.
Defined.

Definition down : Manager := (runCheck (Register NewManager "redis" (mkConfig 1 1 FallbackFailClosed)) 0 1 (Some "refused")).1.

(** Failing closed is documented to reject requests while the dependency is
    unavailable; the fallback runs all the same. *)
Theorem fail_closed_runs_fallback :
  GetMode down "redis" = ModeUnavailable ∧ (Execute down "redis" None (Some None)).2 = Succeeded.
Proof. vm_compute. done. Qed.

(** Removing a dependency leaves its goroutine checking it. *)
Theorem unregister_leaves_goroutine m name cfg :
  checking (Unregister (Register m name cfg) name) = next m :: checking m ∧
  lookupDep (Unregister (Register m name cfg) name) name = None.
Proof. split; [done|]. unfold lookupDep. cbn. by rewrite lookup_delete_eq. Qed.
