(* ===== verification/RateLimiter.v ===== *)
(** * RateLimiter: sliding-window rate limits (src/server-kit/go/security/rate_limiter.go)

    A key has a ring of 17 counters, one per sub-bucket of a sixteenth of the
    window; keys live in 16 shards with a bound each, and a shard is pruned now and
    then. Instants are nanoseconds; a call reads the clock before it takes the
    shard's lock, so a call is one step with its instant as an input. *)

From Stdlib Require Import ZArith Lia Ascii String.
From stdpp Require Import base strings gmap fin_maps numbers sorting list.
From S2P Require Import Prelude.

Open Scope string_scope.
Open Scope list_scope.
Open Scope Z_scope.

Definition maxRateLimiterKeys : Z := 10000.
Definition rateLimiterShards : Z := 16.
Definition rateSubBuckets : Z := 16.

Record rateSlot := mkSlot { sid : Z; scount : Z }.

Abbreviation rateState := (list rateSlot).

Record rateShard := mkShard { keys : gmap string rateState; ops : Z }.

Record RateLimiter := mkLimiter { shards : list rateShard; limit : Z; window : Z; bucketWidth : Z; shardCap : Z }.

Definition minuteNanos : Z := 60000000000.

Definition NewRateLimiter (lim win : Z) : RateLimiter :=
  let lim := if lim <=? 0 then 200 else lim in
  let win := if win <=? 0 then minuteNanos else win in
  let width := Z.quot win rateSubBuckets in
  let width := if width <=? 0 then 1 else width in
  mkLimiter (replicate (Z.to_nat rateLimiterShards) (mkShard ∅ 0)) (Z.min lim 2147483647) win width (Z.quot maxRateLimiterKeys rateLimiterShards).

(** FNV-1a, as a shard number. *)
Fixpoint shardHash (h : Z) (key : string) : Z :=
  match key with
  | EmptyString => h
  | String c rest => shardHash (u32 (Z.lxor h (Z.of_nat (nat_of_ascii c)) * 16777619)) rest
  end.

Definition shardFor (key : string) : nat := Z.to_nat (shardHash 2166136261 key mod rateLimiterShards).

Definition emptyState : rateState := replicate (Z.to_nat (rateSubBuckets + 1)) (mkSlot 0 0).

Definition liveSlot (oldest : Z) (s : rateSlot) : bool := (0 <? scount s) && (oldest <=? sid s).

Definition pruneShardLocked (sh : rateShard) (oldest : Z) : rateShard :=
  mkShard (filter (λ ks, existsb (liveSlot oldest) ks.2 = true) (keys sh)) (ops sh).

(** The state of a key, made room for when it is new; [None]: refused. *)
Definition stateFor (cap oldest : Z) (sh : rateShard) (key : string) : rateShard * option rateState :=
  match keys sh !! key with
  | Some st => (sh, Some st)
  | None =>
      let sh := if cap <=? Z.of_nat (size (keys sh)) then pruneShardLocked sh oldest else sh in
      if cap <=? Z.of_nat (size (keys sh)) then (sh, None) else (mkShard (<[key := emptyState]> (keys sh)) (ops sh), Some emptyState)
  end.

Definition inWindow (oldest current : Z) (s : rateSlot) : bool := (oldest <=? sid s) && (sid s <=? current).

Definition usedIn (oldest current : Z) (st : rateState) : Z :=
  foldl (λ used s, if inWindow oldest current s then u32 (used + scount s) else used) 0 st.

Definition record (current : Z) (st : rateState) : rateState :=
  let slot := Z.to_nat (Z.rem current (rateSubBuckets + 1)) in
  alter (λ s, let s := if sid s =? current then s else mkSlot current 0 in mkSlot (sid s) (u32 (scount s + 1))) slot st.

(** The body of [allowAt] under the shard's lock. *)
Definition allowShard (lim cap current : Z) (sh : rateShard) (key : string) : rateShard * bool :=
  let oldest := current - rateSubBuckets in
  let sh := mkShard (keys sh) (u32 (ops sh + 1)) in
  let sh := if ops sh mod 256 =? 0 then pruneShardLocked sh oldest else sh in
  match stateFor cap oldest sh key with
  | (sh, None) => (sh, false)
  | (sh, Some st) =>
      if lim <=? usedIn oldest current st then (sh, false) else (mkShard (<[key := record current st]> (keys sh)) (ops sh), true)
  end.

Definition withShard (rl : RateLimiter) (i : nat) (sh : rateShard) : RateLimiter :=
  mkLimiter (<[i := sh]> (shards rl)) (limit rl) (window rl) (bucketWidth rl) (shardCap rl).

Definition allowAt (rl : RateLimiter) (key : string) (now : Z) : RateLimiter * bool :=
  match shards rl !! shardFor key with
  | Some sh =>
      let '(sh, ok) := allowShard (limit rl) (shardCap rl) (Z.quot now (bucketWidth rl)) sh key in
      (withShard rl (shardFor key) sh, ok)
  | None => (rl, false)
  end.

Definition Prune (rl : RateLimiter) (now : Z) : RateLimiter :=
  let oldest := Z.quot now (bucketWidth rl) - rateSubBuckets in
  mkLimiter (map (λ sh, pruneShardLocked sh oldest) (shards rl)) (limit rl) (window rl) (bucketWidth rl) (shardCap rl).

Definition KeyCount (rl : RateLimiter) : Z := zsum (map (λ sh, Z.of_nat (size (keys sh))) (shards rl)).

(** ** Histories *)

Inductive event := Ask (key : string) (now : Z) | Sweep (now : Z).

Definition instant (e : event) : Z := match e with Ask _ now => now | Sweep now => now end.

(** The limiter and the calls it admitted, latest last. *)
Definition limiterStep (st : RateLimiter * list (string * Z)) (e : event) : RateLimiter * list (string * Z) :=
  let '(rl, log) := st in
  match e with
  | Ask key now => let '(rl, ok) := allowAt rl key now in (rl, if ok then log ++ [(key, now)] else log)
  | Sweep now => (Prune rl now, log)
  end.

Definition run (lim win : Z) (es : list event) : RateLimiter * list (string * Z) := foldl limiterStep (NewRateLimiter lim win, []) es.

(** ** One key's ring

    [A]: the buckets of the admitted calls the ring remembers. A slot counts the
    latest bucket of its residue class. *)

Definition occ (A : list Z) (b : Z) : Z := Z.of_nat (length (filter (λ a, a = b) A)).

Record slot_ok (A : list Z) (i : nat) (s : rateSlot) : Prop := {
  sk_none : (∀ b, b ∈ A → b mod 17 ≠ Z.of_nat i) → scount s = 0;
  sk_some : ∀ b, b ∈ A → b mod 17 = Z.of_nat i → b ≤ sid s ∧ sid s ∈ A ∧ sid s mod 17 = Z.of_nat i ∧ scount s = occ A (sid s)
}.

Definition ring_ok (A : list Z) (st : rateState) : Prop := length st = 17%nat ∧ ∀ i s, st !! i = Some s → slot_ok A i s.

(** The bucket a slot stands for at an instant. *)
Definition bucketAt (c : Z) (i : nat) : Z := c - (c - Z.of_nat i) mod 17.

Lemma bucket_at_spec c i b : (i < 17)%nat → (b = bucketAt c i ↔ c - 16 ≤ b ≤ c ∧ b mod 17 = Z.of_nat i).
Proof.
  intros Hi. unfold bucketAt. pose proof (Z.mod_pos_bound (c - Z.of_nat i) 17 ltac:(lia)). split.
  - intros ->. split; [lia|]. symmetry. apply (Z.mod_unique _ _ ((c - Z.of_nat i) / 17)); [lia|].
    pose proof (Z.div_mod (c - Z.of_nat i) 17 ltac:(lia)). lia.
  - intros [Hb Hm]. assert (c - b = (c - Z.of_nat i) mod 17); [|lia].
    apply (Z.mod_unique _ _ (b / 17)); [lia|]. pose proof (Z.div_mod b 17 ltac:(lia)). lia.
Qed.

Lemma occ_nil b : occ [] b = 0.
Proof. done. Qed.

Lemma occ_app A B b : occ (A ++ B) b = occ A b + occ B b.
Proof. unfold occ. rewrite filter_app, length_app. lia. Qed.

Lemma occ_one c b : occ [c] b = if decide (c = b) then 1 else 0.
Proof. unfold occ. rewrite filter_cons, filter_nil. by destruct (decide (c = b)). Qed.

Lemma occ_none A b : b ∉ A → occ A b = 0.
Proof.
  intros Hb. induction A as [|a A IH]; [done|]. apply not_elem_of_cons in Hb as [Hne Hb]. rewrite (occ_app [a] A), occ_one, decide_False by done. rewrite IH; done.
Qed.

Lemma occ_pos A b : b ∈ A → 0 < occ A b.
Proof. intros (l & k & ->)%list_elem_of_split. change (b :: k) with ([b] ++ k). rewrite !occ_app, occ_one, decide_True by done. unfold occ. lia. Qed.

(** The calls in the window, slot by slot. *)
Definition windowed (A : list Z) (c : Z) : list Z := filter (λ a, c - 16 ≤ a ≤ c) A.

Lemma zsum_map_add {B} (f g : B → Z) (l : list B) : zsum (map (λ x, f x + g x) l) = zsum (map f l) + zsum (map g l).
Proof. induction l as [|x l IH]; cbn; [done|]. rewrite IH. lia. Qed.

Lemma zsum_one_slot (k : nat) : (k < 17)%nat → zsum (map (λ i, if decide (i = k) then 1 else 0) (seq 0 17)) = 1.
Proof. intros Hk. do 17 (destruct k as [|k]; [reflexivity|]). lia. Qed.

Lemma occ_windowed a c i : (i < 17)%nat → occ [a] (bucketAt c i) = if decide (c - 16 ≤ a ≤ c) then (if decide (i = Z.to_nat (a mod 17)) then 1 else 0) else 0.
Proof.
  intros Hi. rewrite occ_one. pose proof (Z.mod_pos_bound a 17 ltac:(lia)). pose proof (bucket_at_spec c i a Hi) as Hb.
  destruct (decide (a = bucketAt c i)) as [Ha|Ha]; apply Hb in Ha || rewrite Hb in Ha;
    repeat (destruct (decide _)); try done; exfalso; lia.
Qed.

Lemma windowed_sum A c : Z.of_nat (length (windowed A c)) = zsum (map (λ i, occ A (bucketAt c i)) (seq 0 17)).
Proof.
  induction A as [|a A IH]; [by cbn|]. transitivity (zsum (map (λ i, occ [a] (bucketAt c i) + occ A (bucketAt c i)) (seq 0 17))).
  2: { f_equal. apply map_ext. intros i. by rewrite <- occ_app. }
  rewrite zsum_map_add, <- IH. unfold windowed. rewrite filter_cons. pose proof (Z.mod_pos_bound a 17 ltac:(lia)).
  rewrite (map_ext_in _ (λ i, if decide (c - 16 ≤ a ≤ c) then (if decide (i = Z.to_nat (a mod 17)) then 1 else 0) else 0) (seq 0 17)).
  2: { intros i Hi%in_seq. apply occ_windowed. lia. }
  destruct (decide (c - 16 ≤ a ≤ c)); [rewrite zsum_one_slot by lia; cbn; lia|reflexivity].
Qed.

Definition contribution (c : Z) (s : rateSlot) : Z := if inWindow (c - rateSubBuckets) c s then scount s else 0.

Lemma slot_contribution A i s c : (i < 17)%nat → slot_ok A i s → (∀ b, b ∈ A → b ≤ c) → contribution c s = occ A (bucketAt c i).
Proof.
  intros Hi [Hn Hs] Hc. unfold contribution, inWindow, rateSubBuckets. pose proof (bucket_at_spec c i) as Hat.
  assert ((∃ b, b ∈ A ∧ b mod 17 = Z.of_nat i) ∨ (∀ b, b ∈ A → b mod 17 ≠ Z.of_nat i)) as [(b & Hb & Hm)|Hno].
  { destruct (decide (Exists (λ b, b mod 17 = Z.of_nat i) A)) as [H|H]; [left; by apply Exists_exists in H|right].
    intros b Hb Hm. apply H, Exists_exists. eauto. }
  - destruct (Hs b Hb Hm) as (_ & Hin & Hsm & ->). destruct (andb _ _) eqn:E.
    + apply andb_true_iff in E as [E1%Z.leb_le E2%Z.leb_le]. f_equal. apply Hat; [done|]. split; [lia|done].
    + rewrite occ_none; [done|]. intros Hb'. destruct (proj1 (Hat _ Hi) eq_refl) as [H1 H2]. destruct (Hs _ Hb' H2) as (H3 & _).
      apply andb_false_iff in E as [E%Z.leb_gt|E%Z.leb_gt]; [lia|]. specialize (Hc _ Hin). lia.
  - rewrite (Hn Hno), occ_none; [by destruct (andb _ _)|]. intros Hb'. destruct (proj1 (Hat _ Hi) eq_refl) as [_ H2]. by apply (Hno _ Hb').
Qed.

Lemma used_in_sum c st : Forall (λ s, 0 ≤ scount s) st → zsum (map (contribution c) st) < 2 ^ 32 →
  usedIn (c - rateSubBuckets) c st = zsum (map (contribution c) st).
Proof.
  intros Hpos. unfold usedIn. enough (∀ u, 0 ≤ u → u + zsum (map (contribution c) st) < 2 ^ 32 →
    foldl (λ used s, if inWindow (c - rateSubBuckets) c s then u32 (used + scount s) else used) u st = u + zsum (map (contribution c) st)) as H.
  { intros Hlt. rewrite H; lia. }
  induction Hpos as [|s st Hs Hpos IH]; intros u Hu Hlt; cbn [foldl map zsum] in *; [lia|].
  assert (0 ≤ zsum (map (contribution c) st)) as Hnn.
  { apply zsum_nonneg, Forall_map, (Forall_impl _ _ _ Hpos). intros x Hx. unfold contribution. destruct (inWindow _ _ _); lia. }
  unfold contribution at 1. unfold contribution at 1 in Hlt. destruct (inWindow _ _ s).
  - rewrite u32_id by lia. rewrite IH; lia.
  - rewrite IH; lia.
Qed.

Lemma ring_used A st c : ring_ok A st → (∀ b, b ∈ A → b ≤ c) → Z.of_nat (length (windowed A c)) < 2 ^ 32 →
  usedIn (c - rateSubBuckets) c st = Z.of_nat (length (windowed A c)).
Proof.
  intros [Hl Hr] Hc Hlt. assert (map (contribution c) st = map (λ i, occ A (bucketAt c i)) (seq 0 17)) as E.
  { apply list_eq. intros i. rewrite !list_lookup_fmap. destruct (st !! i) as [s|] eqn:Es.
    - pose proof (lookup_lt_Some _ _ _ Es). rewrite lookup_seq_lt by lia. cbn. f_equal. apply slot_contribution; [lia|by apply Hr|done].
    - apply lookup_ge_None in Es. by rewrite lookup_seq_ge by lia. }
  rewrite windowed_sum, <- E in *. apply used_in_sum; [|done]. apply Forall_forall. intros s (i & Hs)%list_elem_of_lookup.
  destruct (Hr i s Hs) as [Hn Hsome]. destruct (decide (Exists (λ b, b mod 17 = Z.of_nat i) A)) as [H|H].
  - apply Exists_exists in H as (b & Hb & Hm). destruct (Hsome b Hb Hm) as (_ & _ & _ & ->). unfold occ. lia.
  - rewrite Hn; [lia|]. intros b Hb Hm. apply H, Exists_exists. eauto.
Qed.

Lemma empty_state_ring : ring_ok [] emptyState.
Proof. split; [done|]. intros i s [-> _]%lookup_replicate. split; [done|]. intros b H. by apply not_elem_of_nil in H. Qed.

(** Recording a call in the current bucket. *)
Lemma record_ring A st c : ring_ok A st → 0 ≤ c → (∀ b, b ∈ A → b ≤ c) → occ A c + 1 < 2 ^ 32 → ring_ok (A ++ [c]) (record c st).
Proof.
  intros [Hl Hr] H0 Hc Hlt. unfold record. replace (Z.rem c (rateSubBuckets + 1)) with (c mod 17) by (rewrite Z.rem_mod_nonneg; [done|done|done]).
  pose proof (Z.mod_pos_bound c 17 ltac:(lia)) as Hm. set (k := Z.to_nat (c mod 17)). assert (Z.of_nat k = c mod 17) as Hk by lia.
  split; [by rewrite length_alter|]. intros i s. destruct (decide (i = k)) as [->|Hne].
  - rewrite list_lookup_alter_eq. destruct (st !! k) as [s0|] eqn:Es; [|done]. intros [= <-]. destruct (Hr k s0 Es) as [Hn Hs].
    assert (scount (if sid s0 =? c then s0 else mkSlot c 0) = occ A c ∧ sid (if sid s0 =? c then s0 else mkSlot c 0) = c) as [Ecount Esid].
    { destruct (Z.eqb_spec (sid s0) c) as [E|E]; split; try done.
      - destruct (decide (c ∈ A)) as [Hin|Hin]; [rewrite <- E; by apply (Hs c Hin)|].
        rewrite (occ_none A c Hin). apply Hn. intros b Hb Hbm. destruct (Hs b Hb Hbm) as (_ & Hsin & _). congruence.
      - cbn. rewrite occ_none; [done|]. intros Hin. destruct (Hs c Hin ltac:(lia)) as (H1 & H2 & _). specialize (Hc _ H2). lia. }
    rewrite Ecount, Esid. split; cbn.
    + intros Hno. exfalso. apply (Hno c); [apply elem_of_app; right; by constructor|lia].
    + intros b Hb _. rewrite u32_id by (unfold occ; unfold occ in Hlt; lia). rewrite occ_app, occ_one, decide_True by done.
      split_and!; [|apply elem_of_app; right; by constructor|lia|done]. apply elem_of_app in Hb as [Hb| ->%list_elem_of_singleton]; [by apply Hc|done].
  - rewrite list_lookup_alter_ne by done. intros Es. destruct (Hr i s Es) as [Hn Hs]. assert (c mod 17 ≠ Z.of_nat i) as Hci by lia.
    split.
    + intros Hno. apply Hn. intros b Hb. apply Hno, elem_of_app. by left.
    + intros b [Hb| ->%list_elem_of_singleton]%elem_of_app Hbm; [|lia]. destruct (Hs b Hb Hbm) as (H1 & H2 & H3 & H4).
      split_and!; [done|apply elem_of_app; by left|done|]. rewrite occ_app, occ_one, decide_False, H4; [lia|]. intros ->. lia.
Qed.

(** ** A shard

    [A key]: the buckets of all calls of a key that were admitted. What the shard
    forgot of them is out of the window for good. *)

Definition key_ok (c : Z) (A : list Z) (st : option rateState) : Prop :=
  ∃ old kept, A = old ++ kept ∧ Forall (λ b, b < c - 16) old ∧ match st with Some st => ring_ok kept st | None => kept = [] end.

Definition within (lim c : Z) (A : list Z) : Prop := Forall (λ b, b ≤ c) A ∧ ∀ b, Z.of_nat (length (windowed A b)) ≤ lim.

Definition shard_ok (c : Z) (A : string → list Z) (i : nat) (sh : rateShard) : Prop :=
  ∀ key, shardFor key = i → key_ok c (A key) (keys sh !! key).

Lemma key_ok_later c c' A st : c ≤ c' → key_ok c A st → key_ok c' A st.
Proof. intros Hc (old & kept & -> & Ho & Hs). exists old, kept. split_and!; [done| |done]. apply (Forall_impl _ _ _ Ho). lia. Qed.

Lemma windowed_app A B c : windowed (A ++ B) c = windowed A c ++ windowed B c.
Proof. apply filter_app. Qed.

Lemma windowed_old A c : Forall (λ b, b < c - 16) A → windowed A c = [].
Proof. induction 1 as [|a A Ha _ IH]; [done|]. unfold windowed. rewrite filter_cons, decide_False by lia. apply IH. Qed.

Lemma occ_le_windowed A c : occ A c ≤ Z.of_nat (length (windowed A c)).
Proof.
  unfold occ, windowed. induction A as [|a A IH]; [done|]. rewrite !filter_cons. destruct (decide (a = c)) as [->|]; [|destruct (decide _); cbn; lia].
  rewrite decide_True by lia. cbn. lia.
Qed.

(** Admitting a call with room in its own window keeps every window bounded. *)
Lemma within_add lim c A : within lim c A → Z.of_nat (length (windowed A c)) < lim → within lim c (A ++ [c]).
Proof.
  intros [Hc Hw] Hroom. split; [apply Forall_app; split; [done|by constructor]|]. intros b. rewrite windowed_app, length_app.
  unfold windowed at 2. rewrite filter_cons, filter_nil. specialize (Hw b) as Hb. destruct (decide (b - 16 ≤ c ≤ b)) as [Hin|]; cbn; [|lia].
  enough (length (windowed A b) ≤ length (windowed A c))%nat by lia. clear Hw Hb Hroom. unfold windowed.
  induction Hc as [|a A Ha _ IH]; [done|]. rewrite !filter_cons. repeat (destruct (decide _)); cbn; lia.
Qed.

Lemma key_ok_live c A st : key_ok c A (Some st) → existsb (liveSlot (c - 16)) st = false → key_ok c A None.
Proof.
  intros (old & kept & -> & Ho & [Hl Hr]) Hdead. exists (old ++ kept), []. rewrite app_nil_r. split_and!; [done| |done].
  apply Forall_app. split; [done|]. apply Forall_forall. intros b Hb. pose proof (Z.mod_pos_bound b 17 ltac:(lia)) as Hm.
  destruct (lookup_lt_is_Some_2 st (Z.to_nat (b mod 17)) ltac:(lia)) as [s Hs].
  destruct (sk_some _ _ _ (Hr _ _ Hs) b Hb ltac:(lia)) as (H1 & H2 & _ & H4). apply occ_pos in H2.
  assert (¬ (c - 16 ≤ sid s)) as Hs'; [|lia]. intros Hge. eapply not_true_iff_false; [exact Hdead|]. apply existsb_exists. exists s.
  split; [apply list_elem_of_In; by eapply list_elem_of_lookup_2|]. unfold liveSlot. apply andb_true_iff. split; [apply Z.ltb_lt|apply Z.leb_le]; lia.
Qed.

Lemma prune_ok c A i sh : shard_ok c A i sh → shard_ok c A i (pruneShardLocked sh (c - 16)).
Proof.
  intros Hsh key Hk. specialize (Hsh key Hk). unfold pruneShardLocked. cbn [keys].
  destruct (filter _ (keys sh) !! key) as [st|] eqn:E; [by apply map_lookup_filter_Some in E as [<- _]|].
  apply map_lookup_filter_None in E as [E|E]; [by rewrite E in Hsh|].
  destruct (keys sh !! key) as [st|]; [|done]. eapply key_ok_live; [exact Hsh|]. apply not_true_iff_false. by apply E.
Qed.

(** A pruned shard keeps only keys with an admitted call in the window. *)
Definition busy (c : Z) (A : string → list Z) (k : string) : Prop := windowed (A k) c ≠ [].

Lemma ring_live_busy c kept st : ring_ok kept st → Forall (λ b, b ≤ c) kept → existsb (liveSlot (c - 16)) st = true → windowed kept c ≠ [].
Proof.
  intros [Hl Hr] Hc (s & Hs & Hlive)%existsb_exists. apply list_elem_of_In, list_elem_of_lookup in Hs as (i & Hs).
  apply andb_true_iff in Hlive as [H0%Z.ltb_lt H1%Z.leb_le]. destruct (Hr i s Hs) as [Hn Hsome].
  destruct (decide (Exists (λ b, b mod 17 = Z.of_nat i) kept)) as [H|H].
  - apply Exists_exists in H as (b & Hb & Hm). destruct (Hsome b Hb Hm) as (_ & Hin & _). rewrite Forall_forall in Hc. specialize (Hc _ Hin).
    intros He. assert (sid s ∈ windowed kept c) as Hw by (apply list_elem_of_filter; split; [lia|done]). rewrite He in Hw. by apply not_elem_of_nil in Hw.
  - rewrite Hn in H0; [lia|]. intros b Hb Hm. apply H, Exists_exists. eauto.
Qed.

Record shard_inv (cap c : Z) (A : string → list Z) (i : nat) (sh : rateShard) : Prop := {
  si_keys : shard_ok c A i sh;
  si_home : ∀ k, is_Some (keys sh !! k) → shardFor k = i;
  si_size : Z.of_nat (size (keys sh)) ≤ cap
}.

Definition logged (A : string → list Z) (key : string) (c : Z) : string → list Z := λ k, if decide (k = key) then A k ++ [c] else A k.

(** The keys of a full shard that outlived a pruning. *)
Definition crowded (cap c : Z) (A : string → list Z) (key : string) : Prop :=
  ∃ ks, NoDup ks ∧ cap ≤ Z.of_nat (length ks) ∧ Forall (λ k, k ≠ key ∧ shardFor k = shardFor key ∧ busy c A k) ks.

Lemma prune_inv cap c A i sh : shard_inv cap c A i sh → shard_inv cap c A i (pruneShardLocked sh (c - 16)).
Proof.
  intros [H1 H2 H3]. split; [by apply prune_ok| |].
  - intros k [st Hk]. apply map_lookup_filter_Some in Hk as [Hk _]. eauto.
  - assert (size (keys (pruneShardLocked sh (c - 16))) ≤ size (keys sh))%nat; [|lia]. apply map_subseteq_size, map_filter_subseteq.
Qed.

Lemma count_ops_inv cap c A i sh n : shard_inv cap c A i sh → shard_inv cap c A i (mkShard (keys sh) n).
Proof. by intros []. Qed.

Lemma crowded_pruned cap c A sh key : shard_inv cap c A (shardFor key) (pruneShardLocked sh (c - 16)) → keys (pruneShardLocked sh (c - 16)) !! key = None →
  (∀ k, Forall (λ b, b ≤ c) (A k)) → cap ≤ Z.of_nat (size (keys (pruneShardLocked sh (c - 16)))) → crowded cap c A key.
Proof.
  intros [H1 H2 H3] Hnew Hc Hfull. set (m := keys (pruneShardLocked sh (c - 16))) in *. exists (map_to_list m).*1.
  split_and!; [apply NoDup_fst_map_to_list|by rewrite length_fmap, length_map_to_list|]. apply Forall_forall. intros k ([k' st] & -> & Hin)%list_elem_of_fmap.
  apply elem_of_map_to_list in Hin. cbn. split; [intros ->; congruence|]. assert (shardFor k' = shardFor key) as Hhome by (apply H2; eauto). split; [done|].
  pose proof (H1 k' Hhome) as Hk. fold m in Hk. rewrite Hin in Hk. destruct Hk as (old & kept & E & Ho & Hring). unfold busy. rewrite E, windowed_app, windowed_old by done. cbn.
  apply map_lookup_filter_Some in Hin as [_ Hlive]. specialize (Hc k'). rewrite E, Forall_app in Hc. by eapply ring_live_busy; [|apply Hc|].
Qed.

(** The state a call works on. *)
Lemma state_for_ok cap c A sh key sh' r : 0 < cap → shard_inv cap c A (shardFor key) sh → (∀ k, Forall (λ b, b ≤ c) (A k)) →
  stateFor cap (c - 16) sh key = (sh', r) →
  shard_inv cap c A (shardFor key) sh' ∧ match r with Some st => keys sh' !! key = Some st | None => crowded cap c A key end.
Proof.
  intros Hcap Hinv Hc. unfold stateFor. destruct (keys sh !! key) as [st|] eqn:E; [by intros [= <- <-]|].
  set (sh1 := if cap <=? Z.of_nat (size (keys sh)) then pruneShardLocked sh (c - 16) else sh).
  assert (shard_inv cap c A (shardFor key) sh1) as H1 by (unfold sh1; destruct (_ <=? _); [by apply prune_inv|done]).
  assert (keys sh1 !! key = None) as Hnone.
  { unfold sh1. destruct (_ <=? _); [|done]. apply map_lookup_filter_None. by left. }
  destruct (Z.leb_spec cap (Z.of_nat (size (keys sh1)))) as [Hfull|Hroom]; intros [= <- <-].
  - split; [done|]. unfold sh1 in *. destruct (Z.leb_spec cap (Z.of_nat (size (keys sh)))); [by eapply crowded_pruned|lia].
  - split; [|cbn; apply lookup_insert_eq]. destruct H1 as [Hk Hh Hs]. split; cbn [keys].
    + intros k Hhome. specialize (Hk k Hhome). cbn [keys]. destruct (decide (key = k)) as [<-|]; [|by rewrite lookup_insert_ne].
      rewrite lookup_insert_eq. rewrite Hnone in Hk. destruct Hk as (old & kept & E1 & Ho & ->). exists old, []. split_and!; [done|done|apply empty_state_ring].
    + intros k Hk'. destruct (decide (key = k)) as [<-|]; [done|]. rewrite lookup_insert_ne in Hk' by done. auto.
    + rewrite map_size_insert_None by done. lia.
Qed.

Lemma allow_shard_ok lim cap c A sh key sh' ok : 0 ≤ c → 0 < lim ≤ 2147483647 → 0 < cap → shard_inv cap c A (shardFor key) sh → (∀ k, within lim c (A k)) →
  allowShard lim cap c sh key = (sh', ok) →
  if ok then Z.of_nat (length (windowed (A key) c)) < lim ∧ shard_inv cap c (logged A key c) (shardFor key) sh'
  else (lim ≤ Z.of_nat (length (windowed (A key) c)) ∨ crowded cap c A key) ∧ shard_inv cap c A (shardFor key) sh'.
Proof.
  intros H0 Hlim Hcap Hinv Hw. unfold allowShard. change (c - rateSubBuckets) with (c - 16).
  set (sh0 := mkShard (keys sh) (u32 (ops sh + 1))). set (sh1 := if ops sh0 mod 256 =? 0 then _ else _).
  assert (shard_inv cap c A (shardFor key) sh1) as H1 by (unfold sh1; destruct (_ =? _); [apply prune_inv|]; by apply count_ops_inv).
  destruct (stateFor cap (c - 16) sh1 key) as [sh2 r] eqn:E. destruct (state_for_ok cap c A sh1 key sh2 r Hcap H1 (λ k, proj1 (Hw k)) E) as [H2 Hr].
  destruct r as [st|]; [|intros [= <- <-]; auto]. pose proof (si_keys _ _ _ _ _ H2 key eq_refl) as Hkey. rewrite Hr in Hkey.
  destruct Hkey as (old & kept & Ek & Ho & Hring). destruct (Hw key) as [Hle Hwin]. specialize (Hwin c). rewrite Ek, Forall_app in Hle.
  rewrite Ek, windowed_app, windowed_old in * by done. cbn [app] in *.
  assert (usedIn (c - 16) c st = Z.of_nat (length (windowed kept c))) as -> by (apply ring_used; [done|rewrite <- Forall_forall; tauto|lia]).
  destruct (Z.leb_spec lim (Z.of_nat (length (windowed kept c)))) as [Hover|Hroom]; intros [= <- <-]; [auto|]. split; [done|].
  destruct H2 as [Hk Hh Hs]. split; cbn [keys].
  - intros k Hhome. unfold logged. cbn [keys]. destruct (decide (k = key)) as [->|Hne]; [rewrite lookup_insert_eq|rewrite lookup_insert_ne by done; by apply Hk].
    exists old, (kept ++ [c]). rewrite Ek, app_assoc. split_and!; [done|done|]. apply record_ring; [done|done|rewrite <- Forall_forall; tauto|].
    pose proof (occ_le_windowed kept c). lia.
  - intros k Hk'. destruct (decide (key = k)) as [<-|]; [done|]. rewrite lookup_insert_ne in Hk' by done. auto.
  - rewrite map_size_insert_Some; [done|by eauto].
Qed.

(** ** The limiter *)

Definition bucketsOf (w : Z) (log : list (string * Z)) (key : string) : list Z := map (λ e, Z.quot e.2 w) (filter (λ e, e.1 = key) log).

Record limiter_ok (lim w c : Z) (rl : RateLimiter) (log : list (string * Z)) : Prop := {
  lk_limit : limit rl = lim; lk_width : bucketWidth rl = w; lk_cap : shardCap rl = 625; lk_shards : length (shards rl) = 16%nat;
  lk_each : ∀ i sh, shards rl !! i = Some sh → shard_inv 625 c (bucketsOf w log) i sh;
  lk_within : ∀ key, within lim c (bucketsOf w log key)
}.

Lemma buckets_add w log key now k : bucketsOf w (log ++ [(key, now)]) k = logged (bucketsOf w log) key (Z.quot now w) k.
Proof.
  unfold bucketsOf, logged. rewrite filter_app, map_app, filter_cons, filter_nil. cbn. destruct (decide (k = key)) as [->|Hne]; [by rewrite decide_True|].
  rewrite decide_False by done. by rewrite app_nil_r.
Qed.

Lemma shard_inv_ext cap c A B i sh : (∀ k, shardFor k = i → A k = B k) → shard_inv cap c A i sh → shard_inv cap c B i sh.
Proof. intros HAB [H1 H2 H3]. split; [|done|done]. intros k Hk. rewrite <- HAB by done. by apply H1. Qed.

Lemma limiter_later lim w c c' rl log : c ≤ c' → limiter_ok lim w c rl log → limiter_ok lim w c' rl log.
Proof.
  intros Hc [H1 H2 H3 H4 H5 H6]. split; [done..| |].
  - intros i sh Hi. destruct (H5 i sh Hi) as [Hk Hh Hs]. split; [|done|done]. intros k Hk'. eapply key_ok_later; [done|]. by apply Hk.
  - intros k. destruct (H6 k) as [Ha Hb]. split; [|done]. apply (Forall_impl _ _ _ Ha). lia.
Qed.

Lemma shard_for_lt key : (shardFor key < 16)%nat.
Proof. unfold shardFor, rateLimiterShards. pose proof (Z.mod_pos_bound (shardHash 2166136261 key) 16 ltac:(lia)). lia. Qed.

(** One call, at the bucket of its instant. *)
Lemma allow_at_ok lim w rl log key now rl' ok : 0 < w → 0 ≤ now → 0 < lim ≤ 2147483647 → limiter_ok lim w (Z.quot now w) rl log →
  allowAt rl key now = (rl', ok) →
  limiter_ok lim w (Z.quot now w) rl' (if ok then log ++ [(key, now)] else log) ∧
  (ok = false → lim ≤ Z.of_nat (length (windowed (bucketsOf w log key) (Z.quot now w))) ∨ crowded 625 (Z.quot now w) (bucketsOf w log) key).
Proof.
  intros Hw H0 Hlim [H1 H2 H3 H4 H5 H6]. unfold allowAt. destruct (lookup_lt_is_Some_2 (shards rl) (shardFor key)) as [sh Hsh];
    [rewrite H4; apply shard_for_lt|]. rewrite Hsh, H1, H2, H3. set (c := Z.quot now w) in *. assert (0 ≤ c) as Hc by (apply Z.quot_pos; lia).
  destruct (allowShard lim 625 c sh key) as [sh' ok'] eqn:E. intros [= <- <-].
  pose proof (allow_shard_ok lim 625 c (bucketsOf w log) sh key sh' ok' Hc Hlim ltac:(lia) (H5 _ _ Hsh) H6 E) as Hres.
  assert (∀ (A : string → list Z), (∀ k, shardFor k ≠ shardFor key → A k = bucketsOf w log k) → shard_inv 625 c A (shardFor key) sh' →
    ∀ i x, <[shardFor key := sh']> (shards rl) !! i = Some x → shard_inv 625 c A i x) as Hall.
  { intros A HA Hs i x. destruct (decide (i = shardFor key)) as [->|Hne]; [rewrite list_lookup_insert_eq by (rewrite H4; apply shard_for_lt); by intros [= <-]|].
    rewrite list_lookup_insert_ne by done. intros Hx. eapply shard_inv_ext; [|by apply H5]. intros k Hk. symmetry. apply HA. congruence. }
  destruct ok'.
  - destruct Hres as [Hroom Hsh']. split; [|done]. split; cbn; [done|done|done|by rewrite length_insert|apply Hall|].
    + intros k Hk. rewrite buckets_add. unfold logged. rewrite decide_False; [done|]. by intros ->.
    + eapply shard_inv_ext; [|exact Hsh']. intros k _. by rewrite buckets_add.
    + intros k. rewrite buckets_add. unfold logged. fold c. destruct (decide (k = key)) as [->|]; [by apply within_add|done].
  - destruct Hres as [Hfull Hsh']. split; [|auto]. split; cbn; [done|done|done|by rewrite length_insert|by apply Hall|done].
Qed.

Lemma prune_limiter_ok lim w rl log now : limiter_ok lim w (Z.quot now w) rl log → limiter_ok lim w (Z.quot now w) (Prune rl now) log.
Proof.
  intros [H1 H2 H3 H4 H5 H6]. split; cbn; [done|done|done|by rewrite length_map| |done].
  intros i sh. rewrite H2. change (Z.quot now w - rateSubBuckets) with (Z.quot now w - 16). rewrite list_lookup_fmap.
  destruct (shards rl !! i) as [sh0|] eqn:E; [|done]. intros [= <-]. by apply prune_inv, H5.
Qed.

(** Instants that do not go back. *)
Fixpoint clocked (from : Z) (es : list event) : Prop :=
  match es with [] => True | e :: rest => from ≤ instant e ∧ clocked (instant e) rest end.

Lemma limiter_run_ok lim w es : 0 < w → 0 < lim ≤ 2147483647 → ∀ rl log from, 0 ≤ from → limiter_ok lim w (Z.quot from w) rl log → clocked from es →
  ∃ till, from ≤ till ∧ (∀ b, from ≤ b → Forall (λ e, instant e ≤ b) es → till ≤ b) ∧ let '(rl', log') := foldl limiterStep (rl, log) es in limiter_ok lim w (Z.quot till w) rl' log'.
Proof.
  intros Hw Hlim. induction es as [|e es IH]; intros rl log from H0 Hok Hclk; [exists from; split_and!; [lia|auto|done]|].
  destruct Hclk as [Hge Hclk]. assert (limiter_ok lim w (Z.quot (instant e) w) rl log) as Hlater.
  { eapply limiter_later; [|exact Hok]. apply Z.quot_le_mono; lia. }
  enough (∃ rl1 log1, limiterStep (rl, log) e = (rl1, log1) ∧ limiter_ok lim w (Z.quot (instant e) w) rl1 log1) as (rl1 & log1 & E & Hok1).
  { destruct (IH rl1 log1 (instant e)) as (till & Hle & Hall & Hfin); [lia|done|done|]. exists till. cbn [foldl]. rewrite E.
    split_and!; [lia|intros b _ [Hb1 Hb2]%Forall_cons; auto|done]. }
  destruct e as [key now|now]; cbn [limiterStep instant] in *.
  - destruct (allowAt rl key now) as [rl1 ok] eqn:E. eexists _, _. split; [done|]. eapply allow_at_ok; [..|exact E]; try done. lia.
  - eexists _, _. split; [done|]. by apply prune_limiter_ok.
Qed.

Lemma new_limiter_ok lim win c : let rl := NewRateLimiter lim win in
  0 ≤ c → limiter_ok (limit rl) (bucketWidth rl) c rl [] ∧ 0 < limit rl ≤ 2147483647 ∧ 0 < bucketWidth rl.
Proof.
  intros rl Hc. split_and!.
  - split; [done|done|done|done| |].
    + intros i sh [-> _]%lookup_replicate. split; cbn; [|intros k [? []%lookup_empty_Some]|rewrite map_size_empty; lia].
      intros key _. exists [], []. cbn. rewrite lookup_empty. done.
    + intros key. split; [constructor|]. intros b. cbn. destruct (Z.leb_spec lim 0); lia.
  - cbn. destruct (Z.leb_spec lim 0); lia.
  - cbn. destruct (Z.leb_spec lim 0); lia.
  - cbn. match goal with |- context [if ?b then 1 else ?x] => destruct (Z.leb_spec x 0) end; lia.
Qed.

(** The calls of a key in a closed interval of instants. *)
Definition callsIn (key : string) (lo hi : Z) (log : list (string * Z)) : list (string * Z) := filter (λ e, e.1 = key ∧ lo ≤ e.2 ≤ hi) log.

Lemma calls_in_buckets w key lo hi log b : 0 < w → Forall (λ e, 0 ≤ e.2) log → (∀ t, lo ≤ t ≤ hi → 0 ≤ t → b - 16 ≤ Z.quot t w ≤ b) →
  (length (callsIn key lo hi log) ≤ length (windowed (bucketsOf w log key) b))%nat.
Proof.
  intros Hw Hpos Hb. unfold callsIn, bucketsOf, windowed. induction Hpos as [|[k t] log Ht Hpos IH]; [done|]. cbn in Ht.
  rewrite !filter_cons. cbn. destruct (decide (k = key)) as [->|Hne].
  - destruct (decide (key = key ∧ lo ≤ t ≤ hi)) as [[_ Hin]|]; cbn [map]; rewrite filter_cons; destruct (decide (b - 16 ≤ _ ≤ b)) as [|Hout]; cbn; try lia.
    by destruct Hout; apply Hb.
  - rewrite decide_False by naive_solver. done.
Qed.

Lemma buckets_in_calls w key now log : 0 < w → 0 ≤ now → Forall (λ e, 0 ≤ e.2 ≤ now) log →
  (length (windowed (bucketsOf w log key) (Z.quot now w)) ≤ length (callsIn key (now - 16 * w - w + 1) now log))%nat.
Proof.
  intros Hw H0 Hpos. unfold callsIn, bucketsOf, windowed. induction Hpos as [|[k t] log Ht Hpos IH]; [done|]. cbn in Ht.
  rewrite !filter_cons. cbn. destruct (decide (k = key)) as [->|Hne]; [|by rewrite decide_False by naive_solver].
  cbn [map]. rewrite filter_cons. destruct (decide (_ - 16 ≤ _ ≤ _)) as [Hin|]; destruct (decide (key = key ∧ _)) as [|Hout]; cbn; try lia.
  destruct Hout. split; [done|]. split; [|lia]. cbn [snd] in Hin. rewrite !Z.quot_div_nonneg in Hin by lia.
  pose proof (Z.mul_div_le t w Hw). pose proof (Z.mul_succ_div_gt now w Hw). nia.
Qed.

Lemma clocked_from from es : clocked from es → Forall (λ e, from ≤ instant e) es.
Proof.
  revert from. induction es as [|e es IH]; intros from Hc; [done|]. destruct Hc as [Hge Hc]. constructor; [done|].
  apply (Forall_impl _ _ _ (IH _ Hc)). cbn. lia.
Qed.

(** The admitted calls are among the events. *)
Lemma log_instants lim win es (P : Z → Prop) : Forall (λ e, P (instant e)) es → Forall (λ e, P e.2) (run lim win es).2.
Proof.
  assert (∀ es st, Forall (λ e, P (instant e)) es → Forall (λ e, P e.2) st.2 → Forall (λ e, P e.2) (foldl limiterStep st es).2) as H.
  { clear es. induction es as [|e es IH]; intros [rl log] Hc Hl; [done|]. apply Forall_cons in Hc as [Hge Hc]. cbn [foldl].
    apply IH; [done|]. destruct e as [key now|now]; cbn in *; [|done]. destruct (allowAt rl key now) as [rl1 []]; cbn; [|done].
    apply Forall_app. split; [done|]. by constructor. }
  intros Hc. by apply H.
Qed.

Lemma width_exact lim win : 0 < win → win mod 16 = 0 → win = 16 * bucketWidth (NewRateLimiter lim win).
Proof.
  intros Hwin Hmod. unfold NewRateLimiter, rateSubBuckets. cbn [bucketWidth]. destruct (Z.leb_spec win 0); [lia|]. rewrite Z.quot_div_nonneg by lia.
  pose proof (Z.div_mod win 16 ltac:(lia)). destruct (Z.leb_spec (win / 16) 0); lia.
Qed.

(** A history's end. *)
Lemma limiter_history_ok lim win es : clocked 0 es → let '(rl, log) := run lim win es in let w := bucketWidth (NewRateLimiter lim win) in
  ∃ till, 0 ≤ till ∧ (∀ b, 0 ≤ b → Forall (λ e, instant e ≤ b) es → till ≤ b) ∧ limiter_ok (limit (NewRateLimiter lim win)) w (Z.quot till w) rl log.
Proof.
  intros Hclk. destruct (new_limiter_ok lim win 0 ltac:(lia)) as (Hnew & Hlim & Hw). set (w := bucketWidth (NewRateLimiter lim win)) in *.
  destruct (limiter_run_ok _ w es Hw Hlim (NewRateLimiter lim win) [] 0 ltac:(lia) ltac:(rewrite Z.quot_0_l by lia; exact Hnew) Hclk) as (till & H1 & H2 & Hok).
  unfold run. destruct (foldl limiterStep _ es) as [rl log]. eauto.
Qed.

Lemma key_count_bound lim w c rl log : limiter_ok lim w c rl log → KeyCount rl ≤ maxRateLimiterKeys.
Proof.
  intros [_ _ _ Hl Hs _]. unfold KeyCount, maxRateLimiterKeys.
  assert (Forall (λ sh, Z.of_nat (size (keys sh)) ≤ 625) (shards rl)) as Hf.
  { apply Forall_forall. intros sh (i & Hi)%list_elem_of_lookup. by apply (si_size _ _ _ _ _ (Hs i sh Hi)). }
  enough (zsum (map (λ sh, Z.of_nat (size (keys sh))) (shards rl)) ≤ 625 * Z.of_nat (length (shards rl))) by lia.
  clear Hs Hl. induction Hf as [|sh l Hsh _ IH]; cbn [map zsum length]; lia.
Qed.

(** How much of the window is watched. *)
Lemma watched_window lim win : let watched := rateSubBuckets * bucketWidth (NewRateLimiter lim win) in
  (0 < win → win mod 16 = 0 → watched = win) ∧ (16 ≤ win → win - 16 < watched ≤ win).
Proof.
  split; intros Hwin.
  - intros Hmod. unfold rateSubBuckets. by rewrite <- (width_exact lim win).
  - unfold NewRateLimiter, rateSubBuckets. cbn [bucketWidth]. destruct (Z.leb_spec win 0); [lia|]. rewrite Z.quot_div_nonneg by lia.
    pose proof (Z.div_mod win 16 ltac:(lia)). pose proof (Z.mod_pos_bound win 16 ltac:(lia)). destruct (Z.leb_spec (win / 16) 0); lia.
Qed.

(** C33: a rate limit is a hard bound. Under a clock that does not go back, for every
    history of calls and prunings: no key has more than the limit of admitted calls in
    any interval as long as the sixteen sub-buckets watched, however the interval lies
    across them, and whatever shards were pruned in between; what is watched is the
    window where sixteen divides it, and less than sixteen nanoseconds short of a window
    of sixteen or more in any case. Each shard keeps no more than 625 keys, all of them its own, so
    no more than 10000 are kept. *)
Theorem rate_limit_is_hard lim win es key t : clocked 0 es →
  let '(rl, log) := run lim win es in let watched := rateSubBuckets * bucketWidth (NewRateLimiter lim win) in
  Z.of_nat (length (callsIn key t (t + watched) log)) ≤ limit (NewRateLimiter lim win) ∧
  ((0 < win → win mod 16 = 0 → watched = win) ∧ (16 ≤ win → win - 16 < watched ≤ win)) ∧
  (∀ i sh, shards rl !! i = Some sh → Z.of_nat (size (keys sh)) ≤ 625 ∧ ∀ k, is_Some (keys sh !! k) → shardFor k = i) ∧
  KeyCount rl ≤ maxRateLimiterKeys.
Proof.
  intros Hclk. pose proof (limiter_history_ok lim win es Hclk) as Hh. pose proof (log_instants lim win es (λ t, 0 ≤ t) (clocked_from 0 es Hclk)) as Hpos.
  destruct (new_limiter_ok lim win 0 ltac:(lia)) as (_ & _ & Hw). destruct (run lim win es) as [rl log]. cbn zeta in Hh. pose proof (watched_window lim win) as Hwatch.
  cbv zeta in Hwatch. unfold rateSubBuckets in *. set (w := bucketWidth _) in *.
  destruct Hh as (till & _ & _ & Hok). split_and!; [|exact (proj1 Hwatch)|exact (proj2 Hwatch)| |by eapply key_count_bound].
  - destruct (lk_within _ _ _ _ _ Hok key) as [_ Hb]. specialize (Hb (t / w + 16)).
    enough (length (callsIn key t (t + 16 * w) log) ≤ length (windowed (bucketsOf w log key) (t / w + 16)))%nat by lia.
    apply calls_in_buckets; [lia|done|]. intros u Hu H0. rewrite Z.quot_div_nonneg by lia.
    assert (t / w ≤ u / w) by (apply Z.div_le_mono; lia). assert (u / w ≤ (t + 16 * w) / w) by (apply Z.div_le_mono; lia).
    rewrite Z.div_add in * by lia. lia.
  - intros i sh Hi. pose proof (lk_each _ _ _ _ _ Hok i sh Hi) as [_ Hhome Hsize]. by split.
Qed.

(** Nobody is refused early. Under a clock that does not go back, a call is
    refused only when the limit of admitted calls of its key lies within the window
    and one sub-bucket before it, or when the key is new and its shard already
    holds 625 other keys, each with an admitted call in the window. *)
Theorem rate_refusal_is_earned lim win es key now rl' : 0 < win → win mod 16 = 0 → clocked 0 es → Forall (λ e, instant e ≤ now) es → 0 ≤ now →
  let '(rl, log) := run lim win es in
  let w := bucketWidth (NewRateLimiter lim win) in
  allowAt rl key now = (rl', false) →
  limit (NewRateLimiter lim win) ≤ Z.of_nat (length (callsIn key (now - win - w + 1) now log)) ∨
  crowded 625 (Z.quot now w) (bucketsOf w log) key.
Proof.
  intros Hwin Hmod Hclk Hnow H0. pose proof (limiter_history_ok lim win es Hclk) as Hh. pose proof (width_exact lim win Hwin Hmod) as Hwidth.
  assert (Forall (λ e, 0 ≤ e.2 ≤ now) (run lim win es).2) as Hpos.
  { apply (log_instants lim win es (λ t, 0 ≤ t ≤ now)). rewrite Forall_forall in Hnow |- *. pose proof (clocked_from 0 es Hclk) as Hf.
    rewrite Forall_forall in Hf. intros e He. specialize (Hnow e He). specialize (Hf e He). lia. }
  destruct (run lim win es) as [rl log]. cbn zeta in Hh |- *. destruct (new_limiter_ok lim win 0 ltac:(lia)) as (_ & Hlim & Hw).
  set (w := bucketWidth _) in *. destruct Hh as (till & Ht0 & Ht & Hok). intros E. apply (limiter_later _ _ _ (Z.quot now w)) in Hok.
  - destruct (allow_at_ok _ w rl log key now rl' false Hw H0 Hlim Hok E) as [_ Hres]. destruct (Hres eq_refl) as [Hfull|Hcrowd]; [left|by right].
    pose proof (buckets_in_calls w key now log Hw H0 Hpos). replace (now - win - w + 1) with (now - 16 * w - w + 1) by lia. lia.
  - apply Z.quot_le_mono; [lia|]. by apply Ht.
Qed.

(** *** Three calls against a limit of two. *)
Definition demoCalls : list event := [Ask "ip" 5; Ask "ip" 100; Ask "ip" 150; Sweep 160; Ask "ip" 164; Ask "ip" 180].

Lemma rate_limit_is_hard_witness : let '(rl, log) := run 2 160 demoCalls in
  log = [("ip", 5); ("ip", 100); ("ip", 180)] ∧ Z.of_nat (length (callsIn "ip" 5 (5 + 160) log)) ≤ 2 ∧ KeyCount rl ≤ 10000.
Proof.
  pose proof (rate_limit_is_hard 2 160 demoCalls "ip" 5 ltac:(repeat (split; [cbn; lia|]); exact I)) as H.
  destruct (run 2 160 demoCalls) as [rl log] eqn:E. pose proof (f_equal snd E) as El. vm_compute in El. subst log.
  destruct H as (H1 & _ & _ & H2). split; [reflexivity|]. split; [exact H1|exact H2].
Defined.

Lemma rate_refusal_is_earned_witness : ∃ rl', let '(rl, log) := run 2 160 (take 2 demoCalls) in allowAt rl "ip" 150 = (rl', false) ∧
  (2 ≤ Z.of_nat (length (callsIn "ip" (150 - 160 - 10 + 1) 150 log)) ∨ crowded 625 15 (bucketsOf 10 log) "ip").
Proof.
  destruct (run 2 160 (take 2 demoCalls)) as [rl log] eqn:E. destruct (allowAt rl "ip" 150) as [rl' ok] eqn:Ea. exists rl'.
  assert (ok = false) as ->.
  { pose proof (f_equal snd Ea) as Eo. cbn [snd] in Eo. rewrite <- Eo. change rl with (rl, log).1. rewrite <- E. vm_compute. reflexivity. }
  pose proof (rate_refusal_is_earned 2 160 (take 2 demoCalls) "ip" 150 rl' ltac:(lia) eq_refl ltac:(repeat (split; [cbn; lia|]); exact I)
    ltac:(repeat constructor; cbn; lia) ltac:(lia)) as H. rewrite E in H. split; [reflexivity|exact (H Ea)].
Defined.

(** A window that sixteen does not divide is shortened: 31 nanoseconds are watched
    as 17. *)
Lemma short_window_admits_more : let '(_, log) := run 1 31 [Ask "ip" 0; Ask "ip" 17; Ask "ip" 30] in log = [("ip", 0); ("ip", 17)].
Proof. by vm_compute. Qed.

(** A call reads the clock before it takes the lock: one that is overtaken by a
    call of a later sub-bucket does not see it, and is admitted too. *)
Lemma overtaken_call_exceeds_limit : let '(_, log) := run 1 160 [Ask "ip" 15; Ask "ip" 9] in log = [("ip", 15); ("ip", 9)].
Proof. by vm_compute. Qed.
