(* ===== verification/Rbac.v ===== *)
(** * Rbac: roles, capabilities and their bit masks (src/server-kit/go/security/rbac.go)

    An authorizer answers whether a role (or a request's own capabilities) grants
    a capability, from sets of granted names with wildcards, and keeps a 64-bit mask
    per role as a fast path. Go maps are [gmap]s; the loops over a map are folds over
    its elements, and their result is shown independent of the order through the bits
    they set. [strings.ToLower] is ASCII, which is exact for the comparisons made. *)

From Stdlib Require Import ZArith Lia Ascii String.
From stdpp Require Import base strings gmap fin_maps fin_sets numbers sorting list.
From S2P Require Import Prelude Words GoStrings.

Open Scope string_scope.
Open Scope list_scope.
Open Scope Z_scope.

Definition CapabilityMaskAll : Z := 18446744073709551615.
Definition CapabilityMaskNone : Z := 0.
Definition MaxIndexedCapabilities : Z := 64.

Record RoleTemplate := mkTemplate { Role : string; Capabilities : list string }.

Definition PermissionView : string := "view".
Definition PermissionWrite : string := "write".
Definition PermissionAdmin : string := "admin".

Record Authorizer := mkAuth { byRole : gmap string (gset string); roleMasks : gmap string Z; capBits : gmap string Z }.

Definition maskOf (masks : gmap string Z) (role : string) : Z := default 0 (masks !! role).
Definition capsOf (roles : gmap string (gset string)) (role : string) : gset string := default ∅ (roles !! role).

(** ** Granting *)

(** [strings.CutSuffix(s, ".*")]. *)
Definition cutWildcard (s : string) : option string := if HasSuffix s ".*" then Some (TrimSuffix s ".*") else None.

Definition capabilityGranted (granted required : string) : bool :=
  let granted := TrimSpace granted in
  let required := TrimSpace required in
  if String.eqb granted "" || String.eqb required "" then false
  else if String.eqb granted "*" || String.eqb granted required then true
  else match cutWildcard granted with Some prefix => HasPrefix required (prefix +:+ ".") | None => false end.

Definition NormalizePermission (permission : string) : string :=
  let permission := ToLower (TrimSpace permission) in
  if String.eqb permission "" || String.eqb permission PermissionView || String.eqb permission PermissionWrite || String.eqb permission PermissionAdmin
  then permission else PermissionWrite.

(** The text before the first dot, if it is not the first byte. *)
Definition capabilityDomain (capability : string) : string :=
  match Cut "."%char (TrimSpace capability) with Some (before, _) => before | None => "" end.

Definition grantsAccess (granted capability permission : string) : bool :=
  if capabilityGranted granted capability then true
  else if String.eqb permission "" then false
  else
    let domain := capabilityDomain capability in
    if String.eqb domain "" then false
    else
      let granted := TrimSpace granted in
      let names p := String.eqb granted (domain +:+ "." +:+ p) in
      if String.eqb granted "*" then true
      else if String.eqb permission PermissionView then names PermissionView || names PermissionWrite || names PermissionAdmin
      else if String.eqb permission PermissionWrite then names PermissionWrite || names PermissionAdmin
      else if String.eqb permission PermissionAdmin then names PermissionAdmin
      else false.

(** ** Building *)

Record building := mkBuilding { auth : Authorizer; nextBit : Z }.

Definition orMask (masks : gmap string Z) (role : string) (bit : Z) : gmap string Z := <[role := Z.lor (maskOf masks role) bit]> masks.

(** One capability of a template in the first pass. *)
Definition addCapability (role : string) (st : building) (capability : string) : building :=
  let capability := TrimSpace capability in
  if String.eqb capability "" then st
  else
    let a := auth st in
    let roles := <[role := {[capability]} ∪ capsOf (byRole a) role]> (byRole a) in
    if String.eqb capability "*" then mkBuilding (mkAuth roles (<[role := CapabilityMaskAll]> (roleMasks a)) (capBits a)) (nextBit st)
    else if negb (Contains capability "*") then
      match capBits a !! capability with
      | Some bit =>
          mkBuilding (mkAuth roles (if bit =? 0 then roleMasks a else orMask (roleMasks a) role bit) (capBits a)) (nextBit st)
      | None =>
          if nextBit st =? 0 then mkBuilding (mkAuth roles (roleMasks a) (capBits a)) (nextBit st)
          else mkBuilding (mkAuth roles (orMask (roleMasks a) role (nextBit st)) (<[capability := nextBit st]> (capBits a))) (u64 (Z.shiftl (nextBit st) 1))
      end
    else mkBuilding (mkAuth roles (roleMasks a) (capBits a)) (nextBit st).

Definition addRole (st : building) (role : string) : building :=
  let a := auth st in
  match byRole a !! role with
  | Some _ => st
  | None => mkBuilding (mkAuth (<[role := ∅]> (byRole a)) (roleMasks a) (capBits a)) (nextBit st)
  end.

Definition addTemplate (st : building) (tpl : RoleTemplate) : building :=
  let role := TrimSpace (Role tpl) in
  if String.eqb role "" then st else foldl (addCapability role) (addRole st role) (Capabilities tpl).

(** The second pass: a wildcard raises the bits of the names under it. *)
Definition spreadOne (role prefix : string) (masks : gmap string Z) (cb : string * Z) : gmap string Z :=
  if HasPrefix cb.1 (prefix +:+ ".") then orMask masks role cb.2 else masks.

Definition spreadCapability (bits : gmap string Z) (role : string) (masks : gmap string Z) (capability : string) : gmap string Z :=
  match cutWildcard (TrimSpace capability) with
  | Some prefix => foldl (spreadOne role prefix) masks (map_to_list bits)
  | None => masks
  end.

Definition spreadTemplate (bits : gmap string Z) (masks : gmap string Z) (tpl : RoleTemplate) : gmap string Z :=
  let role := TrimSpace (Role tpl) in
  if String.eqb role "" then masks else foldl (spreadCapability bits role) masks (Capabilities tpl).

Definition DefaultRoleTemplates : list RoleTemplate := [mkTemplate "admin" ["*"]].

Definition NewAuthorizer (templates : list RoleTemplate) : Authorizer :=
  let templates := match templates with [] => DefaultRoleTemplates | _ => templates end in
  let a := auth (foldl addTemplate (mkBuilding (mkAuth ∅ ∅ ∅) 1) templates) in
  mkAuth (byRole a) (foldl (spreadTemplate (capBits a)) (roleMasks a) templates) (capBits a).

(** ** Masks *)

Definition CapabilityBit (a : Authorizer) (capability : string) : option Z := capBits a !! TrimSpace capability.
Definition RoleMask (a : Authorizer) (role : string) : Z := maskOf (roleMasks a) (TrimSpace role).

Fixpoint combineBits (a : Authorizer) (combined : Z) (capabilities : list string) : option Z :=
  match capabilities with
  | [] => Some combined
  | c :: rest => match capBits a !! TrimSpace c with Some bit => combineBits a (Z.lor combined bit) rest | None => None end
  end.

(** [None] is the false result. *)
Definition CapabilityMaskFor (a : Authorizer) (capabilities : list string) : option Z :=
  match capabilities with [] => None | _ => combineBits a 0 capabilities end.

Definition CheckMask (actorMask requiredMask : Z) : bool := Z.land actorMask requiredMask =? requiredMask.

Definition spreadRegistered (capName : string) (bit : Z) (masks : gmap string Z) (rc : string * gset string) : gmap string Z :=
  if maskOf masks rc.1 =? CapabilityMaskAll then masks
  else if existsb (λ granted, capabilityGranted granted capName) (elements rc.2) then orMask masks rc.1 bit else masks.

Definition RegisterCapability (a : Authorizer) (capability : string) : Authorizer * option Z :=
  let capName := TrimSpace capability in
  if String.eqb capName "" then (a, None)
  else match capBits a !! capName with
       | Some bit => (a, Some bit)
       | None =>
           if MaxIndexedCapabilities <=? Z.of_nat (size (capBits a)) then (a, None)
           else
             let bit := u64 (Z.shiftl 1 (Z.of_nat (size (capBits a)))) in
             (mkAuth (byRole a) (foldl (spreadRegistered capName bit) (roleMasks a) (map_to_list (byRole a))) (<[capName := bit]> (capBits a)), Some bit)
       end.

(** ** Decisions *)

Definition CanAccess (a : Authorizer) (role capability permission : string) (direct : list string) : bool :=
  let role := TrimSpace role in
  let capability := TrimSpace capability in
  let permission := NormalizePermission permission in
  if String.eqb role "" || String.eqb capability "" then false
  else if existsb (λ granted, grantsAccess granted capability permission) direct then true
  else match byRole a !! role with
       | None => false
       | Some caps => existsb (λ granted, grantsAccess granted capability permission) (elements caps)
       end.

Definition fastPath (a : Authorizer) (role capability : string) : bool :=
  match capBits a !! capability, roleMasks a !! role with
  | Some bit, Some mask => Z.land mask bit =? bit
  | _, _ => false
  end.

Definition Can (a : Authorizer) (role capability : string) (direct : list string) : bool :=
  if bool_decide (direct = []) && negb (String.eqb role "") && fastPath a role capability then true else CanAccess a role capability "" direct.

(** [RequireAny]: true is the nil error. *)
Definition RequireAny (a : Authorizer) (role : string) (granted capabilities : list string) : bool := existsb (λ c, Can a role c granted) capabilities.

(** ** Capabilities and permissions of event types *)

Definition CapabilityFromEvent (eventType : string) : string :=
  match Split ":"%char (TrimSpace eventType) with
  | d :: act :: _ =>
      let domain := TrimSpace d in
      let action := TrimSpace act in
      if String.eqb domain "" || String.eqb action "" then "" else domain +:+ "." +:+ action
  | _ => ""
  end.

Definition PermissionFromEvent (eventType : string) : string :=
  match Split ":"%char (TrimSpace eventType) with
  | _ :: act :: _ =>
      let action := ToLower (TrimSpace act) in
      if String.eqb action "" then PermissionWrite
      else if existsb (HasPrefix action) ["get_"; "list_"; "ping"; "preview_"; "read_"] then PermissionView
      else if existsb (HasPrefix action) ["admin_"; "moderate_"; "govern_"] then PermissionAdmin
      else PermissionWrite
  | _ => PermissionWrite
  end.

(** ** Bits and masks *)

Definition bitOf (k : nat) : Z := 2 ^ Z.of_nat k.

Lemma bit_of_testbit k j : 0 ≤ j → Z.testbit (bitOf k) j = bool_decide (j = Z.of_nat k).
Proof.
  intros Hj. unfold bitOf. case_bool_decide as H; [subst; apply Z.pow2_bits_true; lia|]. apply Z.pow2_bits_false. lia.
Qed.

(** A mask holds a bit. *)
Lemma land_bit m k : (Z.land m (bitOf k) =? bitOf k) = Z.testbit m (Z.of_nat k).
Proof.
  apply eq_true_iff_eq. rewrite Z.eqb_eq. split.
  - intros E. apply (f_equal (λ z, Z.testbit z (Z.of_nat k))) in E. rewrite Z.land_spec, bit_of_testbit, bool_decide_true in E by lia.
    by rewrite andb_true_r in E.
  - intros Hm. apply Z.bits_inj'. intros j Hj. rewrite Z.land_spec, bit_of_testbit by done. case_bool_decide as H; [subst; by rewrite Hm|by rewrite andb_false_r].
Qed.

Lemma mask_all_bit k : 0 ≤ k < 64 → Z.testbit CapabilityMaskAll k = true.
Proof. intros Hk. change CapabilityMaskAll with (Z.ones 64). apply Z.ones_spec_low. lia. Qed.

Lemma mask_of_or masks role bit r : maskOf (orMask masks role bit) r = if decide (r = role) then Z.lor (maskOf masks role) bit else maskOf masks r.
Proof. unfold orMask, maskOf. destruct (decide (r = role)) as [->|]; [by rewrite lookup_insert_eq|by rewrite lookup_insert_ne]. Qed.

(** Every indexed name has a bit of its own. *)
Record bits_ok (bits : gmap string Z) : Prop := {
  bo_bit : ∀ c b, bits !! c = Some b → ∃ k, b = bitOf k ∧ (k < size bits)%nat;
  bo_inj : ∀ c c' b, bits !! c = Some b → bits !! c' = Some b → c = c';
  bo_size : (size bits ≤ 64)%nat;
  bo_name : ∀ c, is_Some (bits !! c) → TrimSpace c = c ∧ c ≠ ""
}.

Lemma bit_of_inj k j : bitOf k = bitOf j → k = j.
Proof. unfold bitOf. intros H. apply Z.pow_inj_r in H; lia. Qed.

Lemma bits_add bits c : bits_ok bits → bits !! c = None → (size bits < 64)%nat → TrimSpace c = c → c ≠ "" →
  bits_ok (<[c := bitOf (size bits)]> bits).
Proof.
  intros [H1 H2 H3 H4] Hc Hs Ht Hn. split; rewrite ?map_size_insert_None by done.
  - intros c' b. destruct (decide (c = c')) as [<-|]; [rewrite lookup_insert_eq; intros [= <-]; eauto|rewrite lookup_insert_ne by done].
    intros H. destruct (H1 c' b H) as (k & -> & Hk). exists k. split; [done|lia].
  - intros x y b. destruct (decide (c = x)) as [<-|Hx], (decide (c = y)) as [<-|Hy]; rewrite ?lookup_insert_eq, ?lookup_insert_ne by done; try done; eauto.
    + intros [= <-] Hb. destruct (H1 y _ Hb) as (k & E%bit_of_inj & Hk). lia.
    + intros Hb [= <-]. destruct (H1 x _ Hb) as (k & E%bit_of_inj & Hk). lia.
  - lia.
  - intros x. destruct (decide (c = x)) as [<-|]; [done|]. rewrite lookup_insert_ne by done. apply H4.
Qed.

(** The masks say, for every indexed name, whether the role is granted it by [G];
    past the indexed bits a mask is empty, unless the role has the star. *)
Record masks_ok (bits : gmap string Z) (G : string → string → Prop) (star : string → Prop) (masks : gmap string Z) : Prop := {
  mo_bit : ∀ role c k, bits !! c = Some (bitOf k) → (Z.testbit (maskOf masks role) (Z.of_nat k) = true ↔ G role c);
  mo_star : ∀ role, star role → maskOf masks role = CapabilityMaskAll;
  mo_rest : ∀ role, ¬ star role → ∀ k, (size bits ≤ k)%nat → Z.testbit (maskOf masks role) (Z.of_nat k) = false
}.

Lemma masks_ext bits G G' star star' masks : (∀ role c, is_Some (bits !! c) → G role c ↔ G' role c) → (∀ role, star role ↔ star' role) →
  masks_ok bits G star masks → masks_ok bits G' star' masks.
Proof.
  intros HG Hs [H1 H2 H3]. split.
  - intros role c k Hc. rewrite H1 by done. apply HG. eauto.
  - intros role. rewrite <- Hs. apply H2.
  - intros role. rewrite <- Hs. apply H3.
Qed.

(** Raising the bit of an indexed name for one role. *)
Lemma masks_raise bits G star masks role c k : bits_ok bits → bits !! c = Some (bitOf k) → masks_ok bits G star masks → (star role → G role c) →
  masks_ok bits (λ r x, G r x ∨ (r = role ∧ x = c)) star (orMask masks role (bitOf k)).
Proof.
  intros Hb Hc [H1 H2 H3] Hg. destruct (bo_bit _ Hb _ _ Hc) as (k' & E%bit_of_inj & Hk). subst k'. split.
  - intros r x j Hx. rewrite mask_of_or. destruct (decide (r = role)) as [->|Hne]; [|rewrite (H1 _ _ _ Hx); naive_solver].
    rewrite Z.lor_spec, orb_true_iff, (H1 _ _ _ Hx), bit_of_testbit by lia. rewrite bool_decide_eq_true.
    assert (Z.of_nat j = Z.of_nat k ↔ x = c) as ->; [|naive_solver]. split; [|by intros ->; assert (bitOf j = bitOf k) as ->%bit_of_inj by congruence].
    intros E%Nat2Z.inj. subst. by eapply bo_inj.
  - intros r Hs. rewrite mask_of_or. destruct (decide (r = role)) as [->|]; [|auto]. rewrite (H2 _ Hs).
    apply Z.bits_inj'. intros j Hj. rewrite Z.lor_spec, bit_of_testbit by done. case_bool_decide; [|by rewrite orb_false_r].
    subst. rewrite mask_all_bit; [done|]. pose proof (bo_size _ Hb). lia.
  - intros r Hs j Hj. rewrite mask_of_or. destruct (decide (r = role)) as [->|]; [|auto]. rewrite Z.lor_spec, (H3 _ Hs) by done.
    rewrite bit_of_testbit by lia. apply bool_decide_eq_false_2. lia.
Qed.

(** Indexing a name: only roles with the star have its bit already. *)
Lemma masks_new bits G star masks c : bits_ok bits → bits !! c = None → (size bits < 64)%nat → masks_ok bits G star masks →
  (∀ role, Decision (star role)) → masks_ok (<[c := bitOf (size bits)]> bits) (λ r x, if decide (x = c) then star r else G r x) star masks.
Proof.
  intros Hb Hc Hs [H1 H2 H3] Hdec. split.
  - intros r x k. destruct (decide (x = c)) as [->|Hne]; [rewrite lookup_insert_eq; intros [= E%bit_of_inj]; subst k|rewrite lookup_insert_ne by done; apply H1].
    destruct (decide (star r)) as [Hst|Hst]; [|rewrite H3 by done; naive_solver]. rewrite H2 by done. rewrite mask_all_bit by lia. naive_solver.
  - apply H2.
  - intros r Hst k. rewrite map_size_insert_None by done. intros Hk. apply H3; [done|lia].
Qed.

Lemma masks_star bits G star masks role : bits_ok bits → masks_ok bits G star masks →
  masks_ok bits (λ r x, G r x ∨ r = role) (λ r, star r ∨ r = role) (<[role := CapabilityMaskAll]> masks).
Proof.
  intros Hb [H1 H2 H3]. assert (∀ r, maskOf (<[role := CapabilityMaskAll]> masks) r = if decide (r = role) then CapabilityMaskAll else maskOf masks r) as E.
  { intros r. unfold maskOf. destruct (decide (r = role)) as [->|]; [by rewrite lookup_insert_eq|by rewrite lookup_insert_ne]. }
  split; intros r; rewrite E.
  - intros x k Hx. destruct (decide (r = role)) as [->|]; [|rewrite (H1 _ _ _ Hx); naive_solver].
    destruct (bo_bit _ Hb _ _ Hx) as (k' & ->%bit_of_inj & Hk). pose proof (bo_size _ Hb). rewrite mask_all_bit by lia. naive_solver.
  - destruct (decide (r = role)); naive_solver.
  - intros Hs. rewrite decide_False by tauto. apply H3. tauto.
Qed.

(** ** What the first pass builds *)

Definition starOf (roles : gmap string (gset string)) (role : string) : Prop := "*" ∈ capsOf roles role.
#[global] Instance star_of_dec roles role : Decision (starOf roles role).
Proof. unfold starOf. apply _. Defined.
Definition named (roles : gmap string (gset string)) (role c : string) : Prop := starOf roles role ∨ c ∈ capsOf roles role.

Record build_ok (st : building) : Prop := {
  bd_bits : bits_ok (capBits (auth st));
  bd_masks : masks_ok (capBits (auth st)) (named (byRole (auth st))) (starOf (byRole (auth st))) (roleMasks (auth st));
  bd_next : nextBit st = if decide (size (capBits (auth st)) < 64)%nat then bitOf (size (capBits (auth st))) else 0;
  bd_indexed : ∀ role c, c ∈ capsOf (byRole (auth st)) role → Contains c "*" = false → is_Some (capBits (auth st) !! c) ∨ size (capBits (auth st)) = 64%nat;
  bd_plain : ∀ c, is_Some (capBits (auth st) !! c) → Contains c "*" = false;
  bd_caps : ∀ role c, c ∈ capsOf (byRole (auth st)) role → TrimSpace c = c ∧ c ≠ "";
  bd_roles : ∀ role, is_Some (byRole (auth st) !! role) ∨ is_Some (roleMasks (auth st) !! role) → TrimSpace role = role ∧ role ≠ ""
}.

Lemma caps_of_insert roles role caps r : capsOf (<[role := caps]> roles) r = if decide (r = role) then caps else capsOf roles r.
Proof. unfold capsOf. destruct (decide (r = role)) as [->|]; [by rewrite lookup_insert_eq|by rewrite lookup_insert_ne]. Qed.

Lemma next_bit_shift n : (n < 64)%nat → u64 (Z.shiftl (bitOf n) 1) = if decide (S n < 64)%nat then bitOf (S n) else 0.
Proof.
  intros Hn. unfold u64, bitOf. rewrite Z.shiftl_mul_pow2 by lia. replace (2 ^ Z.of_nat n * 2 ^ 1) with (2 ^ Z.of_nat (S n)) by (rewrite Nat2Z.inj_succ, Z.pow_succ_r by lia; lia).
  destruct (decide (S n < 64)%nat); [|by replace n with 63%nat by lia]. apply Z.mod_small. split; [lia|]. apply Z.pow_lt_mono_r; lia.
Qed.

Lemma bit_of_pos k : bitOf k ≠ 0.
Proof. unfold bitOf. pose proof (Z.pow_pos_nonneg 2 (Z.of_nat k)). lia. Qed.

(** The sets and roles after a capability is added, whatever its bit. *)
Lemma add_caps_ok st role c : build_ok st → TrimSpace role = role → role ≠ "" → TrimSpace c = c → c ≠ "" →
  let roles := <[role := {[c]} ∪ capsOf (byRole (auth st)) role]> (byRole (auth st)) in
  (∀ r x, x ∈ capsOf roles r → TrimSpace x = x ∧ x ≠ "") ∧ (∀ r, is_Some (roles !! r) → TrimSpace r = r ∧ r ≠ "") ∧
  (∀ r x, x ∈ capsOf roles r ↔ x ∈ capsOf (byRole (auth st)) r ∨ (r = role ∧ x = c)).
Proof.
  intros Hok Hr1 Hr2 Hc1 Hc2 roles. assert (∀ r x, x ∈ capsOf roles r ↔ x ∈ capsOf (byRole (auth st)) r ∨ (r = role ∧ x = c)) as Hin.
  { intros r x. unfold roles. rewrite caps_of_insert. destruct (decide (r = role)) as [->|]; set_solver. }
  split_and!; [|intros r|done].
  - intros r x [H|[_ ->]]%Hin; [by eapply bd_caps|done].
  - unfold roles. destruct (decide (r = role)) as [->|]; [done|]. rewrite lookup_insert_ne by done. intros H. apply (bd_roles _ Hok). by left.
Qed.

Lemma masks_keys_insert (masks : gmap string Z) (roles : gmap string (gset string)) role v r : TrimSpace role = role → role ≠ "" →
  (∀ r, is_Some (roles !! r) ∨ is_Some (masks !! r) → TrimSpace r = r ∧ r ≠ "") → is_Some (<[role := v]> masks !! r) → TrimSpace r = r ∧ r ≠ "".
Proof.
  intros H1 H2 Hm. destruct (decide (r = role)) as [->|]; [done|]. rewrite lookup_insert_ne by done. auto.
Qed.

Lemma add_star_ok st role : build_ok st → TrimSpace role = role → role ≠ "" → build_ok (addCapability role st "*").
Proof.
  intros Hok Hr1 Hr2. unfold addCapability. change (TrimSpace "*") with "*". cbn [String.eqb]. cbv zeta.
  destruct (add_caps_ok st role "*" Hok Hr1 Hr2 eq_refl ltac:(done)) as (Hcaps & Hroles & Hin). set (roles := <[role := _]> _) in *.
  destruct Hok as [H1 H2 H3 H4 H5 H6 H7]. split; cbn [auth byRole roleMasks capBits nextBit]; [done| |done| |done|done|].
  - eapply masks_ext; [..|apply masks_star; [done|exact H2]].
    + intros r x [b Hx]. unfold named, starOf. rewrite !Hin. assert (x ≠ "*"); [|naive_solver]. intros ->. by specialize (H5 "*" ltac:(eauto)).
    + intros r. unfold starOf. rewrite Hin. naive_solver.
  - intros r x [Hx|[_ ->]]%Hin Hn; [by eapply H4|done].
  - intros r [Hr|Hr]; [by apply Hroles|]. exact (masks_keys_insert _ _ _ _ _ Hr1 Hr2 H7 Hr).
Qed.

(** A name with a star inside is kept in the set alone. *)
Lemma add_pattern_ok st role c : build_ok st → TrimSpace role = role → role ≠ "" → TrimSpace c = c → c ≠ "" → c ≠ "*" → 
  (Contains c "*" = true ∨ (capBits (auth st) !! c = None ∧ size (capBits (auth st)) = 64%nat)) →
  build_ok (mkBuilding (mkAuth (<[role := {[c]} ∪ capsOf (byRole (auth st)) role]> (byRole (auth st))) (roleMasks (auth st)) (capBits (auth st))) (nextBit st)).
Proof.
  intros Hok Hr1 Hr2 Hc1 Hc2 Hc3 Hc4. destruct (add_caps_ok st role c Hok Hr1 Hr2 Hc1 Hc2) as (Hcaps & Hroles & Hin). set (roles := <[role := _]> _) in *.
  destruct Hok as [H1 H2 H3 H4 H5 H6 H7]. split; cbn [auth byRole roleMasks capBits nextBit]; [done| |done| |done|done|].
  - eapply masks_ext; [..|exact H2].
    + intros r x [b Hx]. unfold named, starOf. rewrite !Hin. assert (x ≠ c); [|naive_solver]. intros ->.
      destruct Hc4 as [Hc|[Hc _]]; [|congruence]. specialize (H5 c ltac:(eauto)). congruence.
    + intros r. unfold starOf. rewrite Hin. naive_solver.
  - intros r x [Hx|[_ ->]]%Hin Hn; [by eapply H4|]. destruct Hc4 as [Hc|[_ Hc]]; [congruence|by right].
  - intros r [Hr|Hr]; [by apply Hroles|]. apply H7. by right.
Qed.

Lemma add_known_ok st role c k : build_ok st → TrimSpace role = role → role ≠ "" → TrimSpace c = c → c ≠ "" → c ≠ "*" →
  capBits (auth st) !! c = Some (bitOf k) →
  build_ok (mkBuilding (mkAuth (<[role := {[c]} ∪ capsOf (byRole (auth st)) role]> (byRole (auth st))) (orMask (roleMasks (auth st)) role (bitOf k))
    (capBits (auth st))) (nextBit st)).
Proof.
  intros Hok Hr1 Hr2 Hc1 Hc2 Hc3 Hc4. destruct (add_caps_ok st role c Hok Hr1 Hr2 Hc1 Hc2) as (Hcaps & Hroles & Hin). set (roles := <[role := _]> _) in *.
  destruct Hok as [H1 H2 H3 H4 H5 H6 H7]. split; cbn [auth byRole roleMasks capBits nextBit]; [done| |done| |done|done|].
  - eapply masks_ext; [..|eapply (masks_raise _ _ _ _ role c k H1 Hc4 H2); by left].
    + intros r x _. unfold named, starOf. rewrite !Hin. naive_solver.
    + intros r. unfold starOf. rewrite Hin. naive_solver.
  - intros r x [Hx|[_ ->]]%Hin Hn; [by eapply H4|]. left. eauto.
  - intros r [Hr|Hr]; [by apply Hroles|]. exact (masks_keys_insert _ _ _ _ _ Hr1 Hr2 H7 Hr).
Qed.

Lemma add_fresh_ok st role c : build_ok st → TrimSpace role = role → role ≠ "" → TrimSpace c = c → c ≠ "" → Contains c "*" = false →
  capBits (auth st) !! c = None → (size (capBits (auth st)) < 64)%nat → let b := bitOf (size (capBits (auth st))) in
  build_ok (mkBuilding (mkAuth (<[role := {[c]} ∪ capsOf (byRole (auth st)) role]> (byRole (auth st))) (orMask (roleMasks (auth st)) role b)
    (<[c := b]> (capBits (auth st)))) (u64 (Z.shiftl b 1))).
Proof.
  intros Hok Hr1 Hr2 Hc1 Hc2 Hc3 Hc4 Hs b. destruct (add_caps_ok st role c Hok Hr1 Hr2 Hc1 Hc2) as (Hcaps & Hroles & Hin). set (roles := <[role := _]> _) in *.
  destruct Hok as [H1 H2 H3 H4 H5 H6 H7]. pose proof (bits_add _ c H1 Hc4 Hs Hc1 Hc2) as Hb.
  split; cbn [auth byRole roleMasks capBits nextBit]; [done| | | | |done|].
  - assert (∀ r, Decision (starOf (byRole (auth st)) r)) as Hdec by (intros r; apply _).
    eapply masks_ext; [..|eapply (masks_raise _ _ _ _ role c _ Hb); [apply lookup_insert_eq|by apply masks_new|]].
    + intros r x _. unfold named, starOf. rewrite !Hin. cbn. destruct (decide (x = c)) as [->|]; [|naive_solver].
      assert (c ∉ capsOf (byRole (auth st)) r); [|assert (c ≠ "*") by (intros ->; done); naive_solver].
      intros Hold. destruct (H4 r c Hold Hc3) as [[? ?]|?]; [congruence|lia].
    + intros r. unfold starOf. rewrite Hin. assert (c ≠ "*") by (intros ->; done). naive_solver.
    + cbn. rewrite decide_True by done. done.
  - rewrite map_size_insert_None by done. unfold b. by rewrite next_bit_shift.
  - intros r x [Hx|[_ ->]]%Hin Hn; [|left; rewrite lookup_insert_eq; eauto]. destruct (H4 r x Hx Hn) as [Hi|]; [left|lia].
    destruct (decide (x = c)) as [->|]; [rewrite lookup_insert_eq; eauto|by rewrite lookup_insert_ne].
  - intros x. destruct (decide (x = c)) as [->|]; [done|]. rewrite lookup_insert_ne by done. apply H5.
  - intros r [Hr|Hr]; [by apply Hroles|]. exact (masks_keys_insert _ _ _ _ _ Hr1 Hr2 H7 Hr).
Qed.

Lemma add_capability_ok st role c : build_ok st → TrimSpace role = role → role ≠ "" → build_ok (addCapability role st c).
Proof.
  intros Hok Hr1 Hr2. unfold addCapability. destruct (String.eqb_spec (TrimSpace c) "") as [|Hc]; [done|].
  destruct (String.eqb_spec (TrimSpace c) "*") as [E|Hne]; [rewrite E; by apply (add_star_ok st role)|].
  pose proof (trim_space_idemp c) as Ht. destruct (Contains (TrimSpace c) "*") eqn:Ec; cbn [negb]; [apply add_pattern_ok; auto|].
  destruct (capBits (auth st) !! TrimSpace c) as [bit|] eqn:Eb.
  - destruct (bo_bit _ (bd_bits _ Hok) _ _ Eb) as (k & -> & _). pose proof (bit_of_pos k). destruct (Z.eqb_spec (bitOf k) 0); [done|]. by apply add_known_ok.
  - rewrite (bd_next _ Hok). destruct (decide _) as [Hs|Hs].
    + pose proof (bit_of_pos (size (capBits (auth st)))). destruct (Z.eqb_spec (bitOf (size (capBits (auth st)))) 0); [done|]. by apply add_fresh_ok.
    + cbn. assert (nextBit st = 0) as En by (rewrite (bd_next _ Hok); by rewrite decide_False). rewrite <- En. apply add_pattern_ok; auto.
      right. split; [done|]. pose proof (bo_size _ (bd_bits _ Hok)). lia.
Qed.

(** ** The templates *)

(** A template of the role holds the capability. *)
Definition lists (templates : list RoleTemplate) (role c : string) : Prop :=
  role ≠ "" ∧ c ≠ "" ∧ ∃ tpl raw, tpl ∈ templates ∧ TrimSpace (Role tpl) = role ∧ raw ∈ Capabilities tpl ∧ TrimSpace raw = c.

Lemma caps_add_capability role st raw r x : x ∈ capsOf (byRole (auth (addCapability role st raw))) r ↔
  x ∈ capsOf (byRole (auth st)) r ∨ (r = role ∧ x = TrimSpace raw ∧ x ≠ "").
Proof.
  unfold addCapability. destruct (String.eqb_spec (TrimSpace raw) "") as [E|Hne]; [naive_solver|].
  assert (∀ masks bits n, x ∈ capsOf (byRole (auth (mkBuilding (mkAuth (<[role := {[TrimSpace raw]} ∪ capsOf (byRole (auth st)) role]> (byRole (auth st)))
    masks bits) n))) r ↔ x ∈ capsOf (byRole (auth st)) r ∨ (r = role ∧ x = TrimSpace raw ∧ x ≠ "")) as H.
  { intros masks bits n. cbn [auth byRole]. rewrite caps_of_insert. destruct (decide (r = role)) as [->|]; set_solver. }
  cbv zeta. repeat case_match; apply H.
Qed.

Lemma add_capabilities_ok role raws : TrimSpace role = role → role ≠ "" → ∀ st, build_ok st → build_ok (foldl (addCapability role) st raws).
Proof. intros H1 H2. induction raws as [|raw raws IH]; intros st Hok; cbn; [done|]. by apply IH, add_capability_ok. Qed.

Lemma caps_add_capabilities role raws r x : ∀ st, x ∈ capsOf (byRole (auth (foldl (addCapability role) st raws))) r ↔
  x ∈ capsOf (byRole (auth st)) r ∨ (r = role ∧ x ≠ "" ∧ ∃ raw, raw ∈ raws ∧ TrimSpace raw = x).
Proof.
  induction raws as [|raw raws IH]; intros st; cbn [foldl]; [set_solver|]. rewrite IH, caps_add_capability. set_solver.
Qed.

Lemma caps_add_role st role r : capsOf (byRole (auth (addRole st role))) r = capsOf (byRole (auth st)) r.
Proof.
  unfold addRole. destruct (byRole (auth st) !! role) as [|] eqn:E; [done|]. cbn [auth byRole]. rewrite caps_of_insert.
  destruct (decide (r = role)) as [->|]; [|done]. unfold capsOf. by rewrite E.
Qed.

Lemma add_role_ok st role : build_ok st → TrimSpace role = role → role ≠ "" → build_ok (addRole st role).
Proof.
  intros [H1 H2 H3 H4 H5 H6 H7] Hr1 Hr2. pose proof (caps_add_role st role) as Hcaps.
  assert (capBits (auth (addRole st role)) = capBits (auth st) ∧ roleMasks (auth (addRole st role)) = roleMasks (auth st) ∧ nextBit (addRole st role) = nextBit st)
    as (E1 & E2 & E3) by (unfold addRole; by destruct (byRole (auth st) !! role)).
  split; rewrite ?E1, ?E2, ?E3; [done| |done| |done| |].
  - eapply masks_ext; [..|exact H2]; intros r; [intros x _; unfold named, starOf; by rewrite Hcaps|unfold starOf; by rewrite Hcaps].
  - intros r x. rewrite Hcaps. apply H4.
  - intros r x. rewrite Hcaps. apply H6.
  - intros r [Hr|Hr]; [|apply H7; by right]. unfold addRole in Hr. destruct (byRole (auth st) !! role) eqn:E; [apply H7; by left|].
    cbn [auth byRole] in Hr. destruct (decide (r = role)) as [->|]; [done|]. rewrite lookup_insert_ne in Hr by done. apply H7. by left.
Qed.

Lemma add_templates_ok templates : ∀ st, build_ok st →
  build_ok (foldl addTemplate st templates) ∧
  ∀ r x, x ∈ capsOf (byRole (auth (foldl addTemplate st templates))) r ↔ x ∈ capsOf (byRole (auth st)) r ∨ lists templates r x.
Proof.
  induction templates as [|tpl templates IH]; intros st Hok; cbn [foldl].
  { split; [done|]. intros r x. unfold lists. set_solver. }
  assert (build_ok (addTemplate st tpl) ∧ ∀ r x, x ∈ capsOf (byRole (auth (addTemplate st tpl))) r ↔ x ∈ capsOf (byRole (auth st)) r ∨ lists [tpl] r x) as [H1 H2].
  { unfold addTemplate. destruct (String.eqb_spec (TrimSpace (Role tpl)) "") as [E|Hne].
    - split; [done|]. intros r x. unfold lists. set_solver.
    - split; [apply add_capabilities_ok; [apply trim_space_idemp|done|]; apply add_role_ok; [done|apply trim_space_idemp|done]|].
      intros r x. rewrite caps_add_capabilities, caps_add_role. unfold lists. set_solver. }
  destruct (IH _ H1) as [H3 H4]. split; [done|]. intros r x. rewrite H4, H2. unfold lists. set_solver.
Qed.

Lemma empty_build_ok : build_ok (mkBuilding (mkAuth ∅ ∅ ∅) 1).
Proof.
  split; cbn; try (intros; rewrite ?lookup_empty in *; set_solver).
  - split; try (intros *; rewrite lookup_empty; intros; simplify_eq); [rewrite map_size_empty; lia|]. by destruct H.
  - split; [intros role c k Hc; by rewrite lookup_empty in Hc|intros role H|intros role _ k _].
    + unfold starOf, capsOf in H. rewrite lookup_empty in H. cbn in H. set_solver.
    + unfold maskOf. rewrite lookup_empty. cbn. apply Z.bits_0.
Qed.

(** ** The second pass *)

Definition wild (raw c : string) : Prop := ∃ prefix, cutWildcard (TrimSpace raw) = Some prefix ∧ HasPrefix c (prefix +:+ ".") = true.

Section Spread.
Context (bits : gmap string Z) (star : string → Prop).
Context (bits_fine : bits_ok bits).

(** What roles with the star are granted includes everything. *)
Definition starred (G : string → string → Prop) : Prop := ∀ r x, star r → G r x.

Lemma starred_or G H : starred G → starred (λ r x, G r x ∨ H r x).
Proof. intros Hs r x Hr. left. by apply Hs. Qed.

Lemma spread_list_ok role prefix l : ∀ G masks, (∀ c b, (c, b) ∈ l → bits !! c = Some b) → starred G → masks_ok bits G star masks →
  masks_ok bits (λ r x, G r x ∨ (r = role ∧ x ∈ l.*1 ∧ HasPrefix x (prefix +:+ ".") = true)) star (foldl (spreadOne role prefix) masks l).
Proof.
  induction l as [|[c b] l IH]; intros G masks Hl Hst Hm; cbn [foldl].
  { eapply masks_ext; [..|exact Hm]; [|done]. intros r x _. cbn. set_solver. }
  pose proof (Hl c b ltac:(by constructor)) as Hc. destruct (bo_bit _ bits_fine _ _ Hc) as (k & -> & _).
  assert (∀ c' b', (c', b') ∈ l → bits !! c' = Some b') as Hl' by (intros c' b' ?; apply Hl; by constructor). unfold spreadOne at 2. cbn [fst snd].
  destruct (HasPrefix c (prefix +:+ ".")) eqn:Eh.
  - pose proof (masks_raise bits G star masks role c k bits_fine Hc Hm (Hst role c)) as Hm1.
    eapply masks_ext; [..|apply (IH _ _ Hl' (starred_or _ _ Hst) Hm1)]; [|done]. intros r x _. cbn. rewrite elem_of_cons. naive_solver.
  - eapply masks_ext; [..|apply (IH _ _ Hl' Hst Hm)]; [|done]. intros r x _. cbn. rewrite elem_of_cons.
    split; [naive_solver|]. intros [?|(-> & [->|?] & Hpre)]; [by left|congruence|by right].
Qed.

Lemma spread_capability_ok role raw G masks : starred G → masks_ok bits G star masks →
  masks_ok bits (λ r x, G r x ∨ (r = role ∧ wild raw x)) star (spreadCapability bits role masks raw).
Proof.
  intros Hst Hm. unfold spreadCapability, wild. destruct (cutWildcard (TrimSpace raw)) as [prefix|].
  - eapply masks_ext; [..|apply (spread_list_ok role prefix (map_to_list bits) G masks); [|done|done]]; [|done|].
    + intros r x [b Hx]. assert (x ∈ (map_to_list bits).*1); [|naive_solver]. apply list_elem_of_fmap. exists (x, b). split; [done|]. by apply elem_of_map_to_list.
    + intros c b. apply elem_of_map_to_list.
  - eapply masks_ext; [..|exact Hm]; [|done]. naive_solver.
Qed.

Lemma spread_capabilities_ok role raws : ∀ G masks, starred G → masks_ok bits G star masks →
  masks_ok bits (λ r x, G r x ∨ (r = role ∧ ∃ raw, raw ∈ raws ∧ wild raw x)) star (foldl (spreadCapability bits role) masks raws).
Proof.
  induction raws as [|raw raws IH]; intros G masks Hst Hm; cbn [foldl]; [eapply masks_ext; [..|exact Hm]; [set_solver|done]|].
  eapply masks_ext; [..|apply (IH _ _ (starred_or _ _ Hst) (spread_capability_ok role raw G masks Hst Hm))]; [|done].
  intros r x _. cbn. set_solver.
Qed.

Lemma spread_templates_ok templates : ∀ G masks, starred G → masks_ok bits G star masks →
  masks_ok bits (λ r x, G r x ∨ (r ≠ "" ∧ ∃ tpl raw, tpl ∈ templates ∧ TrimSpace (Role tpl) = r ∧ raw ∈ Capabilities tpl ∧ wild raw x)) star
    (foldl (spreadTemplate bits) masks templates).
Proof.
  induction templates as [|tpl templates IH]; intros G masks Hst Hm; cbn [foldl]; [eapply masks_ext; [..|exact Hm]; [set_solver|done]|].
  unfold spreadTemplate at 2. destruct (String.eqb_spec (TrimSpace (Role tpl)) "") as [E|Hne].
  - eapply masks_ext; [..|apply (IH _ _ Hst Hm)]; [|done]. intros r x _. cbn. set_solver.
  - eapply masks_ext; [..|apply (IH _ _ (starred_or _ _ Hst) (spread_capabilities_ok _ (Capabilities tpl) G masks Hst Hm))]; [|done].
    intros r x _. cbn. set_solver.
Qed.
End Spread.

(** ** Every authorizer *)

Definition granted (roles : gmap string (gset string)) (role c : string) : Prop := ∃ g, g ∈ capsOf roles role ∧ capabilityGranted g c = true.

Record auth_ok (a : Authorizer) : Prop := {
  ak_bits : bits_ok (capBits a);
  ak_masks : masks_ok (capBits a) (granted (byRole a)) (starOf (byRole a)) (roleMasks a);
  ak_caps : ∀ role c, c ∈ capsOf (byRole a) role → TrimSpace c = c ∧ c ≠ "";
  ak_roles : ∀ role, is_Some (byRole a !! role) ∨ is_Some (roleMasks a !! role) → TrimSpace role = role ∧ role ≠ ""
}.

(** [capabilityGranted] on trimmed names. *)
Lemma granted_cases g c : TrimSpace g = g → g ≠ "" → TrimSpace c = c → c ≠ "" → capabilityGranted g c = true ↔ g = "*" ∨ g = c ∨ wild g c.
Proof.
  intros Hg1 Hg2 Hc1 Hc2. unfold capabilityGranted, wild. rewrite Hg1, Hc1. destruct (String.eqb_spec g "") as [?|_]; [done|].
  destruct (String.eqb_spec c "") as [?|_]; [done|]. cbn [orb]. destruct (String.eqb_spec g "*") as [?|Hn1]; [naive_solver|].
  destruct (String.eqb_spec g c) as [?|Hn2]; cbn [orb]; [naive_solver|]. destruct (cutWildcard g) as [prefix|]; naive_solver.
Qed.

Lemma spread_keys masks bits templates r : is_Some (foldl (spreadTemplate bits) masks templates !! r) → is_Some (masks !! r) ∨ (TrimSpace r = r ∧ r ≠ "").
Proof.
  assert (∀ role prefix l ms, is_Some (foldl (spreadOne role prefix) ms l !! r) → is_Some (ms !! r) ∨ r = role) as H1.
  { intros role prefix. induction l as [|cb l IH]; intros ms; cbn [foldl]; [by left|]. intros [H|H]%IH; [|by right]. unfold spreadOne in H.
    destruct (HasPrefix _ _); [|by left]. unfold orMask in H. destruct (decide (r = role)) as [->|]; [by right|]. rewrite lookup_insert_ne in H by done. by left. }
  assert (∀ role raws ms, is_Some (foldl (spreadCapability bits role) ms raws !! r) → is_Some (ms !! r) ∨ r = role) as H2.
  { intros role. induction raws as [|raw raws IH]; intros ms; cbn [foldl]; [by left|]. intros [H|H]%IH; [|by right]. unfold spreadCapability in H.
    destruct (cutWildcard _); [by eapply H1|by left]. }
  revert masks. induction templates as [|tpl templates IH]; intros masks; cbn [foldl]; [by left|]. intros [H|H]%IH; [|by right]. unfold spreadTemplate in H.
  destruct (String.eqb_spec (TrimSpace (Role tpl)) "") as [|Hne]; [by left|]. apply H2 in H as [H| ->]; [by left|right]. split; [apply trim_space_idemp|done].
Qed.

Lemma new_authorizer_ok templates : auth_ok (NewAuthorizer templates).
Proof.
  unfold NewAuthorizer. set (ts := match templates with [] => _ | _ => _ end). clearbody ts. clear templates.
  destruct (add_templates_ok ts _ empty_build_ok) as [[H1 H2 H3 H4 H5 H6 H7] Hcaps]. set (b := foldl addTemplate _ ts) in *.
  assert (∀ r x, x ∈ capsOf (byRole (auth b)) r ↔ lists ts r x) as Hin.
  { intros r x. rewrite Hcaps. unfold capsOf. cbn. rewrite lookup_empty. cbn. set_solver. }
  split; cbn [byRole roleMasks capBits]; [done| |done|].
  - assert (starred (starOf (byRole (auth b))) (named (byRole (auth b)))) as Hst by (intros r x Hr; by left).
    eapply masks_ext; [..|apply (spread_templates_ok _ _ H1 ts _ _ Hst H2)]; [|done]. intros r x Hx. cbn beta. pose proof (bo_name _ H1 x Hx) as [Hx1 Hx2].
    unfold named, starOf, granted. split.
    + intros [[Hs|Hs]|(Hr & tpl & raw & Ht & Erole & Hraw & Hw)].
      * exists "*". split; [done|]. destruct (H6 _ _ Hs). apply granted_cases; auto.
      * exists x. split; [done|]. apply granted_cases; auto.
      * exists (TrimSpace raw). assert (TrimSpace raw ≠ "") as Hne by (intros E; destruct Hw as (p & Hp & _); by rewrite E in Hp).
        split; [apply Hin; split_and!; [done|done|exists tpl, raw; by split_and!]|]. apply granted_cases; [apply trim_space_idemp|done|done|done|]. right; right.
        unfold wild in *. by rewrite trim_space_idemp.
    + intros (g & Hg & Hgr). destruct (H6 _ _ Hg) as [Hg1 Hg2]. apply granted_cases in Hgr as [->|[->|Hw]]; [by left; left|by left; right| |done..].
      right. apply Hin in Hg as (Hr & _ & tpl & raw & Ht & Erole & Hraw & Eraw). split; [done|]. exists tpl, raw. split_and!; try done.
      unfold wild in *. by rewrite Eraw, <- Hg1.
  - intros r [Hr|Hr]; [apply H7; by left|]. apply spread_keys in Hr as [Hr|]; [|done]. apply H7. by right.
Qed.

(** What a registration does to a role's mask. *)
Definition raised (a : Authorizer) (capName : string) (role : string) : bool :=
  negb (maskOf (roleMasks a) role =? CapabilityMaskAll) && existsb (λ g, capabilityGranted g capName) (elements (capsOf (byRole a) role)).

Lemma spread_registered_spec capName bit l : ∀ masks r, NoDup l.*1 →
  maskOf (foldl (spreadRegistered capName bit) masks l) r =
  match list_to_map (M := gmap string (gset string)) l !! r with
  | Some caps => if negb (maskOf masks r =? CapabilityMaskAll) && existsb (λ g, capabilityGranted g capName) (elements caps)
                 then Z.lor (maskOf masks r) bit else maskOf masks r
  | None => maskOf masks r
  end.
Proof.
  induction l as [|[role caps] l IH]; intros masks r Hnd; cbn [foldl list_to_map foldr fst snd]; [by rewrite lookup_empty|].
  cbn [fmap list_fmap fst] in Hnd. apply NoDup_cons in Hnd as [Hnew Hnd]. rewrite IH by done. unfold spreadRegistered. cbn [fst snd].
  destruct (decide (role = r)) as [<-|Hne].
  - rewrite lookup_insert_eq. apply (not_elem_of_list_to_map (M := gmap string)) in Hnew. rewrite Hnew.
    destruct (maskOf masks role =? CapabilityMaskAll); cbn [negb andb]; [done|]. destruct (existsb _ _); [|done]. by rewrite mask_of_or, decide_True.
  - rewrite lookup_insert_ne by done.
    assert (maskOf (if maskOf masks role =? CapabilityMaskAll then masks else if existsb (λ g, capabilityGranted g capName) (elements caps)
      then orMask masks role bit else masks) r = maskOf masks r) as ->; [|done].
    destruct (_ =? _); [done|]. destruct (existsb _ _); [|done]. by rewrite mask_of_or, decide_False.
Qed.

Lemma registered_masks a capName bit r : maskOf (foldl (spreadRegistered capName bit) (roleMasks a) (map_to_list (byRole a))) r =
  if raised a capName r then Z.lor (maskOf (roleMasks a) r) bit else maskOf (roleMasks a) r.
Proof.
  rewrite spread_registered_spec by apply NoDup_fst_map_to_list. rewrite list_to_map_to_list. unfold raised, capsOf.
  destruct (byRole a !! r); [done|]. cbn. rewrite elements_empty. cbn. by rewrite andb_false_r.
Qed.

Lemma exists_granted a role c : existsb (λ g, capabilityGranted g c) (elements (capsOf (byRole a) role)) = true ↔ granted (byRole a) role c.
Proof.
  rewrite existsb_exists. unfold granted. split; intros (g & H1 & H2); exists g; (split; [|done]); [by apply list_elem_of_In, elem_of_elements in H1|].
  by apply list_elem_of_In, elem_of_elements.
Qed.

Lemma star_grants a role c : auth_ok a → TrimSpace c = c → c ≠ "" → starOf (byRole a) role → granted (byRole a) role c.
Proof. intros Hok H1 H2 Hs. exists "*". split; [done|]. destruct (ak_caps _ Hok _ _ Hs). apply granted_cases; auto. Qed.

Lemma register_masks_ok a c : auth_ok a → capBits a !! c = None → (size (capBits a) < 64)%nat → TrimSpace c = c → c ≠ "" →
  masks_ok (<[c := bitOf (size (capBits a))]> (capBits a)) (granted (byRole a)) (starOf (byRole a))
    (foldl (spreadRegistered c (bitOf (size (capBits a)))) (roleMasks a) (map_to_list (byRole a))).
Proof.
  intros Hok Hc Hs Hc1 Hc2. pose proof (ak_bits _ Hok) as Hb. destruct (ak_masks _ Hok) as [M1 M2 M3]. set (n := size (capBits a)) in *.
  assert (∀ r, starOf (byRole a) r → raised a c r = false) as Hstar by (intros r Hr; unfold raised; by rewrite (M2 _ Hr)).
  split.
  - intros r x k. rewrite registered_masks. destruct (decide (x = c)) as [->|Hne].
    + rewrite lookup_insert_eq. intros [= E%bit_of_inj]. subst k. destruct (decide (starOf (byRole a) r)) as [Hst|Hst].
      { rewrite Hstar, M2, mask_all_bit by (done || lia). split; [intros _; by apply star_grants|done]. }
      rewrite <- exists_granted. unfold raised. assert ((maskOf (roleMasks a) r =? CapabilityMaskAll) = false) as ->.
      { apply Z.eqb_neq. intros E. pose proof (M3 _ Hst n ltac:(done)) as Hbit. rewrite E, mask_all_bit in Hbit by lia. done. }
      cbn [negb andb]. destruct (existsb _ _); [|rewrite (M3 _ Hst n) by done; done]. rewrite Z.lor_spec, bit_of_testbit by lia.
      rewrite bool_decide_eq_true_2 by done. by rewrite orb_true_r.
    + rewrite lookup_insert_ne by done. intros Hx. rewrite <- (M1 _ _ _ Hx). destruct (bo_bit _ Hb _ _ Hx) as (k' & ->%bit_of_inj & Hk).
      destruct (raised a c r); [|done]. rewrite Z.lor_spec, bit_of_testbit, bool_decide_eq_false_2, orb_false_r by lia. done.
  - intros r Hr. by rewrite registered_masks, Hstar, M2.
  - intros r Hr k. rewrite map_size_insert_None by done. intros Hk. rewrite registered_masks. pose proof (M3 r Hr k ltac:(lia)) as Hbit.
    destruct (raised a c r); [|done]. rewrite Z.lor_spec, Hbit, bit_of_testbit by lia. apply bool_decide_eq_false_2. lia.
Qed.

Lemma registered_keys capName bit l masks r : is_Some (foldl (spreadRegistered capName bit) masks l !! r) → is_Some (masks !! r) ∨ r ∈ l.*1.
Proof.
  revert masks. induction l as [|[role caps] l IH]; intros masks; cbn [foldl]; [by left|]. intros [H|H]%IH; [|right; by constructor].
  unfold spreadRegistered in H. cbn [fst snd] in H. destruct (_ =? _); [by left|]. destruct (existsb _ _); [|by left].
  destruct (decide (r = role)) as [->|]; [right; by constructor|]. unfold orMask in H. rewrite lookup_insert_ne in H by done. by left.
Qed.

Lemma register_ok a capability : auth_ok a → auth_ok (RegisterCapability a capability).1.
Proof.
  intros Hok. unfold RegisterCapability. destruct (String.eqb_spec (TrimSpace capability) "") as [|Hne]; [done|].
  destruct (capBits a !! TrimSpace capability) as [b|] eqn:Eb; [done|]. unfold MaxIndexedCapabilities. destruct (Z.leb_spec 64 (Z.of_nat (size (capBits a)))) as [|Hs]; [done|].
  cbn [fst]. assert (u64 (Z.shiftl 1 (Z.of_nat (size (capBits a)))) = bitOf (size (capBits a))) as ->.
  { rewrite Z.shiftl_1_l. unfold u64, bitOf. apply Z.mod_small. split; [lia|]. apply Z.pow_lt_mono_r; lia. }
  pose proof (trim_space_idemp capability) as Ht. split; cbn [byRole roleMasks capBits].
  - apply bits_add; [apply Hok|done|lia|done|done].
  - apply register_masks_ok; [done|done|lia|done|done].
  - apply (ak_caps _ Hok).
  - intros r [Hr|Hr]; [apply (ak_roles _ Hok); by left|]. apply registered_keys in Hr as [Hr|Hr]; [apply (ak_roles _ Hok); by right|].
    apply (ak_roles _ Hok). left. apply list_elem_of_fmap in Hr as ([r' caps] & -> & Hin). apply elem_of_map_to_list in Hin. eauto.
Qed.

(** ** What the masks decide *)

(** An authorizer as it is built and then extended at run time. *)
Definition extended (templates : list RoleTemplate) (regs : list string) : Authorizer :=
  foldl (λ a c, (RegisterCapability a c).1) (NewAuthorizer templates) regs.

Lemma extended_ok templates regs : auth_ok (extended templates regs).
Proof.
  unfold extended. generalize (new_authorizer_ok templates). generalize (NewAuthorizer templates). induction regs as [|c regs IH]; intros a Hok; cbn; [done|].
  by apply IH, register_ok.
Qed.

Lemma can_access_granted a role c : TrimSpace role ≠ "" → TrimSpace c ≠ "" →
  CanAccess a role c "" [] = true ↔ granted (byRole a) (TrimSpace role) (TrimSpace c).
Proof.
  intros H1 H2. rewrite <- exists_granted. unfold CanAccess, capsOf. destruct (String.eqb_spec (TrimSpace role) "") as [|_]; [done|].
  destruct (String.eqb_spec (TrimSpace c) "") as [|_]; [done|]. cbn [orb existsb].
  assert (∀ l, existsb (λ g, grantsAccess g (TrimSpace c) (NormalizePermission "")) l = existsb (λ g, capabilityGranted g (TrimSpace c)) l) as E.
  { induction l as [|g l IH]; cbn; [done|]. rewrite IH. unfold grantsAccess. by destruct (capabilityGranted g _). }
  destruct (byRole a !! TrimSpace role) as [caps|]; cbn; [by rewrite E|by rewrite elements_empty].
Qed.

Lemma mask_bit_granted a role c b : auth_ok a → capBits a !! c = Some b → (Z.land (maskOf (roleMasks a) role) b =? b) = true ↔ granted (byRole a) role c.
Proof. intros Hok Hc. destruct (bo_bit _ (ak_bits _ Hok) _ _ Hc) as (k & -> & _). rewrite land_bit. by apply (mo_bit _ _ _ _ (ak_masks _ Hok)). Qed.

(** C34: the bit-mask fast path never changes an authorization. For every list of
    templates, and after any capabilities registered at run time, [Can] decides
    every role, capability and set of request capabilities exactly as the walk over
    the granted names and wildcards does. *)
Theorem fast_path_agrees templates regs role capability direct : let a := extended templates regs in
  Can a role capability direct = CanAccess a role capability "" direct.
Proof.
  intros a. pose proof (extended_ok templates regs : auth_ok a) as Hok. unfold Can.
  destruct (_ && fastPath a role capability) eqn:E; [|done]. apply andb_true_iff in E as [E1 E2]. apply andb_true_iff in E1 as [E1%bool_decide_eq_true E3].
  subst direct. unfold fastPath in E2. destruct (capBits a !! capability) as [b|] eqn:Eb; [|done]. destruct (roleMasks a !! role) as [mask|] eqn:Em; [|done].
  destruct (bo_name _ (ak_bits _ Hok) capability ltac:(eauto)) as [Hc1 Hc2]. destruct (ak_roles _ Hok role ltac:(eauto)) as [Hr1 Hr2].
  symmetry. apply can_access_granted; rewrite ?Hc1, ?Hr1; [done|done|]. eapply mask_bit_granted; [done|done|]. unfold maskOf. by rewrite Em.
Qed.

Lemma check_mask_lor m p q : CheckMask m (Z.lor p q) = CheckMask m p && CheckMask m q.
Proof.
  unfold CheckMask. apply eq_true_iff_eq. rewrite andb_true_iff, !Z.eqb_eq. split.
  - intros E. split; apply Z.bits_inj'; intros j Hj; apply (f_equal (λ z, Z.testbit z j)) in E; rewrite !Z.land_spec, !Z.lor_spec in E; rewrite Z.land_spec;
      destruct (Z.testbit m j), (Z.testbit p j), (Z.testbit q j); done.
  - intros [E1 E2]. by rewrite Z.land_lor_distr_r, E1, E2.
Qed.

Lemma combine_bits_check a m caps : ∀ acc out, combineBits a acc caps = Some out →
  CheckMask m out = CheckMask m acc && forallb (λ c, match capBits a !! TrimSpace c with Some b => CheckMask m b | None => false end) caps ∧
  Forall (λ c, is_Some (capBits a !! TrimSpace c)) caps.
Proof.
  induction caps as [|c caps IH]; intros acc out; cbn; [intros [= <-]; by rewrite andb_true_r|].
  destruct (capBits a !! TrimSpace c) as [b|] eqn:E; [|done]. intros H. destruct (IH _ _ H) as [-> Hall]. rewrite check_mask_lor, <- andb_assoc.
  split; [done|]. constructor; [|done]. rewrite E. eauto.
Qed.

Lemma check_mask_caps a role caps m : auth_ok a → TrimSpace role ≠ "" → CapabilityMaskFor a caps = Some m →
  CheckMask (RoleMask a role) m = forallb (λ c, CanAccess a role c "" []) caps.
Proof.
  intros Hok Hr Hm. unfold CapabilityMaskFor in Hm. destruct caps as [|c0 caps0]; [done|].
  destruct (combine_bits_check a (RoleMask a role) _ _ _ Hm) as [-> Hall]. rewrite (proj2 (Z.eqb_eq (Z.land (RoleMask a role) 0) 0) (Z.land_0_r _) : CheckMask _ 0 = true).
  cbn [andb]. generalize dependent (c0 :: caps0). intros caps _ Hall. induction Hall as [|c caps [b Hc] _ IH]; [done|]. cbn [forallb]. rewrite IH, Hc. f_equal.
  apply eq_true_iff_eq. destruct (bo_name _ (ak_bits _ Hok) _ ltac:(eauto)) as [Hc1 Hc2]. rewrite can_access_granted by done. by apply mask_bit_granted.
Qed.

(** Checking a required mask is checking every capability in it. Whenever all
    capabilities of a request are indexed, one bitwise comparison of the role's mask
    with their combined mask grants exactly what asking for each of them does. *)
Theorem mask_check_exact templates regs role caps m : let a := extended templates regs in
  TrimSpace role ≠ "" → CapabilityMaskFor a caps = Some m →
  CheckMask (RoleMask a role) m = forallb (λ c, CanAccess a role c "" []) caps.
Proof. intros a. apply check_mask_caps, extended_ok. Qed.

(** *** A clinic's roles. *)
Definition clinicTemplates : list RoleTemplate := [mkTemplate " doctor " ["chart.read"; "chart.write"; "lab.*"]; mkTemplate "clerk" ["visit.read"]; mkTemplate "root" ["*"]].

Lemma mask_check_exact_witness : let a := extended clinicTemplates ["lab.order"] in
  CapabilityMaskFor a ["chart.read"; "lab.order"] = Some 9 ∧ CheckMask (RoleMask a "doctor") 9 = true ∧ CheckMask (RoleMask a "clerk") 9 = false ∧
  forallb (λ c, CanAccess a "doctor" c "" []) ["chart.read"; "lab.order"] = true.
Proof.
  intros a. assert (CapabilityMaskFor a ["chart.read"; "lab.order"] = Some 9) as E by (vm_compute; reflexivity).
  assert (TrimSpace "doctor" ≠ "") as Hd by (vm_compute; discriminate).
  pose proof (mask_check_exact clinicTemplates ["lab.order"] "doctor" ["chart.read"; "lab.order"] 9 Hd E) as H.
  split; [exact E|]. assert (CheckMask (RoleMask a "doctor") 9 = true) as Hc by (vm_compute; reflexivity). split; [exact Hc|]. split; [vm_compute; reflexivity|].
  etransitivity; [symmetry; exact H|exact Hc].
Defined.
