(* ===== verification/Routes.v ===== *)
(** * Routes: edge routing caches (src/server-kit/go/wsrouting/route_maplet.go)

    Two bounded maps: an entity's server shard, and a route's shard with the
    capability mask it requires. Masks and their check are [Rbac]'s. *)

From Stdlib Require Import ZArith Lia Ascii String.
From stdpp Require Import base strings gmap fin_maps numbers list.
From S2P Require Import Prelude GoStrings Rbac.

Open Scope string_scope.
Open Scope list_scope.
Open Scope Z_scope.

Inductive route_error := ErrRouteCapacity | ErrRouteNoCapability.

Definition routeCacheBound (expected : Z) : Z := (if expected <=? 0 then 1024 else expected) * 2.

Section Bounded.
Context {V : Type}.

Record routeMap := mkRoutes { routes : gmap string V; rlimit : Z }.

Definition newRoutes (expected : Z) : routeMap := mkRoutes ∅ (routeCacheBound expected).

Definition setEntry (rm : routeMap) (key : string) (v : V) : routeMap * option route_error :=
  match routes rm !! key with
  | Some _ => (mkRoutes (<[key := v]> (routes rm)) (rlimit rm), None)
  | None =>
      if rlimit rm <=? Z.of_nat (size (routes rm)) then (rm, Some ErrRouteCapacity)
      else (mkRoutes (<[key := v]> (routes rm)) (rlimit rm), None)
  end.

Definition deleteEntry (rm : routeMap) (key : string) : routeMap := mkRoutes (delete key (routes rm)) (rlimit rm).

Definition countEntries (rm : routeMap) : Z := Z.of_nat (size (routes rm)).

Lemma set_entry_spec rm key v rm' e : setEntry rm key v = (rm', e) →
  rlimit rm' = rlimit rm ∧ (countEntries rm ≤ rlimit rm → countEntries rm' ≤ rlimit rm') ∧
  match e with
  | None => routes rm' = <[key := v]> (routes rm)
  | Some err => rm' = rm ∧ err = ErrRouteCapacity ∧ routes rm !! key = None ∧ rlimit rm ≤ countEntries rm
  end.
Proof.
  unfold setEntry, countEntries. destruct (routes rm !! key) as [old|] eqn:E; [|destruct (Z.leb_spec (rlimit rm) (Z.of_nat (size (routes rm))))]; intros [= <- <-]; cbn.
  - rewrite map_size_insert_Some by eauto. done.
  - split_and!; [done|lia|done|done|done|lia].
  - rewrite map_size_insert_None by done. split_and!; [done|lia|done].
Qed.
End Bounded.
Arguments routeMap : clear implicits.

(** ** Entities to shards *)

Abbreviation RouteMaplet := (routeMap Z).

Definition NewRouteMaplet (expectedConnections : Z) : RouteMaplet := newRoutes expectedConnections.
Definition SetRoute (rm : RouteMaplet) (entityID : string) (shard : Z) : RouteMaplet * option route_error := setEntry rm entityID shard.
Definition DeleteRoute (rm : RouteMaplet) (entityID : string) : RouteMaplet := deleteEntry rm entityID.
Definition GetRoute (rm : RouteMaplet) (entityID : string) : Z * bool := match routes rm !! entityID with Some s => (s, true) | None => (0, false) end.
Definition MemoryBytes (rm : RouteMaplet) : Z := zsum (map (λ ks, Z.of_nat (String.length ks.1) + 48) (map_to_list (routes rm))).

(** ** Routes with a required mask *)

Record SecureRouteEntry := mkEntry { ShardID : Z; RequiredMask : Z; Public : bool }.

Abbreviation SecureRouteMaplet := (routeMap SecureRouteEntry).

Definition NewSecureRouteMaplet (expectedConnections : Z) : SecureRouteMaplet := newRoutes expectedConnections.

Definition SetSecureRoute (rm : SecureRouteMaplet) (routeKey : string) (shard requiredMask : Z) : SecureRouteMaplet * option route_error :=
  if requiredMask =? CapabilityMaskNone then (rm, Some ErrRouteNoCapability) else setEntry rm routeKey (mkEntry shard requiredMask false).

Definition SetPublicRoute (rm : SecureRouteMaplet) (routeKey : string) (shard : Z) : SecureRouteMaplet * option route_error :=
  setEntry rm routeKey (mkEntry shard 0 true).

Definition RouteAndAuthorize (rm : SecureRouteMaplet) (routeKey : string) (actorMask : Z) : Z * bool :=
  match routes rm !! routeKey with
  | None => (0, false)
  | Some entry =>
      if Public entry then (ShardID entry, true)
      else if (RequiredMask entry =? CapabilityMaskNone) || negb (Z.land actorMask (RequiredMask entry) =? RequiredMask entry)
      then (ShardID entry, false)
      else (ShardID entry, true)
  end.

Definition GetSecureRoute (rm : SecureRouteMaplet) (routeKey : string) : Z * bool :=
  match routes rm !! routeKey with Some entry => (ShardID entry, true) | None => (0, false) end.

(** ** Histories *)

Inductive routeOp := Protect (key : string) (shard mask : Z) | Open_ (key : string) (shard : Z).

Definition routeStep (rm : SecureRouteMaplet) (o : routeOp) : SecureRouteMaplet * option route_error :=
  match o with Protect key shard mask => SetSecureRoute rm key shard mask | Open_ key shard => SetPublicRoute rm key shard end.

Definition opKey (o : routeOp) : string := match o with Protect key _ _ => key | Open_ key _ => key end.
Definition opEntry (o : routeOp) : SecureRouteEntry := match o with Protect _ shard mask => mkEntry shard mask false | Open_ _ shard => mkEntry shard 0 true end.

(** The routes and the latest accepted setting of each key. *)
Fixpoint runRoutes (rm : SecureRouteMaplet) (last : gmap string routeOp) (os : list routeOp) : SecureRouteMaplet * gmap string routeOp :=
  match os with
  | [] => (rm, last)
  | o :: os => match routeStep rm o with (rm, None) => runRoutes rm (<[opKey o := o]> last) os | (rm, Some _) => runRoutes rm last os end
  end.

Record routes_ok (bound : Z) (rm : SecureRouteMaplet) (last : gmap string routeOp) : Prop := {
  rk_limit : rlimit rm = bound;
  rk_last : routes rm = opEntry <$> last;
  rk_mask : ∀ key shard mask, last !! key = Some (Protect key shard mask) → mask ≠ 0;
  rk_key : ∀ key o, last !! key = Some o → opKey o = key;
  rk_room : countEntries rm ≤ rlimit rm
}.

Lemma route_step_spec rm o rm' e : routeStep rm o = (rm', e) →
  match e with
  | None => setEntry rm (opKey o) (opEntry o) = (rm', None) ∧ match o with Protect _ _ mask => mask ≠ 0 | Open_ _ _ => True end
  | Some ErrRouteNoCapability => rm' = rm
  | Some ErrRouteCapacity => rm' = rm
  end.
Proof.
  destruct o as [key shard mask|key shard]; cbn [routeStep opKey opEntry].
  - unfold SetSecureRoute, CapabilityMaskNone. destruct (Z.eqb_spec mask 0); [by intros [= <- <-]|]. intros E. destruct e as [err|]; [|done].
    destruct (set_entry_spec _ _ _ _ _ E) as (_ & _ & -> & -> & _). done.
  - unfold SetPublicRoute. intros E. destruct e as [err|]; [|done]. destruct (set_entry_spec _ _ _ _ _ E) as (_ & _ & -> & -> & _). done.
Qed.

Lemma run_routes_ok bound os : ∀ rm last, routes_ok bound rm last → routes_ok bound (runRoutes rm last os).1 (runRoutes rm last os).2.
Proof.
  induction os as [|o os IH]; intros rm last Hok; cbn [runRoutes]; [done|]. destruct (routeStep rm o) as [rm1 e] eqn:E. pose proof (route_step_spec _ _ _ _ E) as H.
  destruct e as [[]|]; [subst rm1; by apply IH..|]. destruct H as [Hset Hmask]. destruct (set_entry_spec _ _ _ _ _ Hset) as (Hlim & Hroom & Hr).
  destruct Hok as [H0 H1 H2 H3 H4]. apply IH. split; [congruence|..|by apply Hroom].
  - by rewrite Hr, H1, fmap_insert.
  - intros key shard mask. destruct (decide (opKey o = key)) as [Ek|Hne]; [rewrite Ek, lookup_insert_eq; intros [= ->]; done|rewrite lookup_insert_ne by done; apply H2].
  - intros key o'. destruct (decide (opKey o = key)) as [Ek|Hne]; [rewrite Ek, lookup_insert_eq; by intros [= <-]|rewrite lookup_insert_ne by done; apply H3].
Qed.

(** A route admits exactly whom its latest accepted setting names. For every
    authorizer and every history of route settings: an unknown route admits nobody;
    a public one everybody; a route protected by the combined mask of some
    capabilities admits a role exactly when the role may access each of them; and
    the table stays within its bound. *)
Theorem routes_admit_exactly templates regs expected os key role : let a := extended templates regs in
  TrimSpace role ≠ "" →
  let '(rm, last) := runRoutes (NewSecureRouteMaplet expected) ∅ os in
  countEntries rm ≤ routeCacheBound expected ∧
  match last !! key with
  | None => RouteAndAuthorize rm key (RoleMask a role) = (0, false)
  | Some (Open_ _ shard) => RouteAndAuthorize rm key (RoleMask a role) = (shard, true)
  | Some (Protect _ shard mask) => ∀ caps, CapabilityMaskFor a caps = Some mask →
      RouteAndAuthorize rm key (RoleMask a role) = (shard, forallb (λ c, CanAccess a role c "" []) caps)
  end.
Proof.
  intros a Hr. assert (routes_ok (routeCacheBound expected) (NewSecureRouteMaplet expected) ∅) as H0.
  { split; cbn; [done|by rewrite fmap_empty|done|done|]. unfold countEntries, routeCacheBound. cbn. rewrite map_size_empty. destruct (Z.leb_spec expected 0); lia. }
  pose proof (run_routes_ok _ os _ _ H0) as Hok. destruct (runRoutes _ ∅ os) as [rm last]. cbn [fst snd] in Hok. destruct Hok as [Hl H1 H2 H3 H4].
  split; [by rewrite <- Hl|]. unfold RouteAndAuthorize. rewrite H1, lookup_fmap. destruct (last !! key) as [[k shard mask|k shard]|] eqn:E; cbn; [|done|done].
  intros caps Hm. pose proof (H3 _ _ E) as Ek. cbn in Ek. subst k. pose proof (H2 _ _ _ E) as Hne. unfold CapabilityMaskNone. destruct (Z.eqb_spec mask 0) as [|_]; [done|].
  pose proof (check_mask_caps a role caps mask (extended_ok templates regs) Hr Hm) as Hc. unfold CheckMask in Hc. rewrite Hc. cbn [orb]. by destruct (forallb _ caps).
Qed.

Lemma routes_admit_exactly_witness : let a := extended clinicTemplates ["lab.order"] in
  let '(rm, last) := runRoutes (NewSecureRouteMaplet 2) ∅ [Protect "labs" 3 9; Open_ "home" 1] in
  CapabilityMaskFor a ["chart.read"; "lab.order"] = Some 9 ∧
  RouteAndAuthorize rm "labs" (RoleMask a "clerk") = (3, forallb (λ c, CanAccess a "clerk" c "" []) ["chart.read"; "lab.order"]) ∧ countEntries rm ≤ 4.
Proof.
  intros a. assert (CapabilityMaskFor a ["chart.read"; "lab.order"] = Some 9) as Em by (vm_compute; reflexivity).
  assert (TrimSpace "clerk" ≠ "") as Hd by (vm_compute; discriminate).
  pose proof (routes_admit_exactly clinicTemplates ["lab.order"] 2 [Protect "labs" 3 9; Open_ "home" 1] "labs" "clerk" Hd) as H.
  destruct (runRoutes (NewSecureRouteMaplet 2) ∅ [Protect "labs" 3 9; Open_ "home" 1]) as [rm last] eqn:E.
  assert (last !! "labs" = Some (Protect "labs" 3 9)) as El by (change last with (rm, last).2; rewrite <- E; vm_compute; reflexivity).
  destruct H as [H1 H2]. rewrite El in H2. split; [exact Em|]. split; [exact (H2 _ Em)|exact H1].
Defined.
