(* ===== verification/EventLog.v ===== *)
(** * EventLog: the durable fact lane (src/server-kit/go/eventlog/eventlog.go)

    Facts are rows of [foundation_event_log]; publishers claim pending rows under a
    lease, append them to a stream and mark them published under their token. A
    statement is one step on the table. A publisher is a program over the calls it
    makes ([prog]): the code between two calls is ordinary evaluation, and any number
    of publishers, crashes, failing statements and lost answers interleave at the
    calls. [NOW()] is the clock of the table, in microseconds. *)

From Stdlib Require Import ZArith Lia Ascii String.
From stdpp Require Import base strings gmap fin_maps fin_sets numbers sorting list.
From S2P Require Import Prelude GoStrings.

Open Scope string_scope.
Open Scope list_scope.
Open Scope Z_scope.

Definition DefaultMaxAttempts : Z := 25.
Definition DefaultBatchLimit : Z := 128.
Definition MaxBatchLimit : Z := 1024.
Definition DefaultClaimTTL : Z := 30000000000.
Definition millisecond : Z := 1000000.

Inductive log_error := ErrAppenderRequired | ErrStoreRequired | ErrStreamRequired | ErrPublishClaimLost | ErrContext | ErrDuplicate | ErrBatchShape
| ErrDatabase (message : string) | ErrAppend (message : string) | ErrJoin (a b : log_error).

(** ** The table *)

(** The columns an insert writes. *)
Record Fact := mkFact {
  EventID : string; EventType : string; OrganizationID : string; CorrelationID : string; SchemaVersion : string; PayloadEncoding : string;
  Envelope : string; OccurredAt : Z
}.

Record row := mkRow {
  fact : Fact; createdAt : Z; publishedAt : option Z; publishStream : option string; publishStreamID : option string;
  publishAttempts : Z; lastPublishError : option string;
  claimToken : option string; claimedAt : option Z; claimExpiresAt : option Z; updatedAt : Z
}.

Abbreviation table := (gmap Z row).

(** What [scanPendingEntry] reads of a row. *)
Record Entry := mkEntry { EID : Z; EFact : Fact; ECreatedAt : Z; EAttempts : Z; ELastError : string }.

Definition scanPendingEntry (id : Z) (r : row) : Entry := mkEntry id (fact r) (createdAt r) (publishAttempts r) (default "" (lastPublishError r)).

(** The insert of [Append]: the sequence moves, the event id is unique. *)
Definition Append (t : table) (seq now : Z) (f : Fact) : table * Z * res log_error Z :=
  if existsb (λ ir, String.eqb (EventID (fact ir.2)) (EventID f)) (map_to_list t) then (t, seq + 1, Err ErrDuplicate)
  else (<[seq := mkRow f now None None None 0 None None None None now]> t, seq + 1, Ok seq).

Definition pending (max : Z) (r : row) : bool := bool_decide (publishedAt r = None) && (publishAttempts r <? max).

Definition leaseFree (now : Z) (r : row) : bool := match claimExpiresAt r with None => true | Some t => t <=? now end.

(** The first [limit] ids of the rows that satisfy [p]. *)
Definition firstIds (limit : Z) (p : Z → row → bool) (t : table) : list Z :=
  take (Z.to_nat limit) (merge_sort Z.le (map fst (map_to_list (filter (λ ir, p ir.1 ir.2 = true) t)))).

Definition entriesOf (t : table) (ids : list Z) : list Entry := omap (λ id, scanPendingEntry id <$> t !! id) ids.

Definition fetchPendingRows (limit max : Z) (t : table) : list Entry := entriesOf t (firstIds limit (λ _ r, pending max r) t).

Definition claimRow (now expires : Z) (token : string) (r : row) : row :=
  mkRow (fact r) (createdAt r) (publishedAt r) (publishStream r) (publishStreamID r) (publishAttempts r) (lastPublishError r)
    (Some token) (Some now) (Some expires) now.

(** The rows [claimPendingRows] takes; [locked]: rows other sessions hold locked. *)
Definition candidates (locked : gset Z) (now limit max : Z) (t : table) : list Z :=
  firstIds limit (λ id r, pending max r && leaseFree now r && bool_decide (id ∉ locked)) t.

Definition claimPendingRows (locked : gset Z) (now limit max : Z) (token : string) (ttl : Z) (t : table) : table * list Entry :=
  let ids := candidates locked now limit max t in
  let t' := foldl (λ t id, alter (claimRow now (now + 1000 * (ttl / millisecond)) token) id t) t ids in
  (t', entriesOf t' ids).

Definition publishedRow (now : Z) (stream sid : string) (release : bool) (r : row) : row :=
  mkRow (fact r) (createdAt r) (Some now) (Some stream) (Some sid) (publishAttempts r) None
    (if release then None else claimToken r) (if release then None else claimedAt r) (if release then None else claimExpiresAt r) now.

Definition claimedBy (token : string) (r : row) : bool := bool_decide (publishedAt r = None) && bool_decide (claimToken r = Some token).

(** An update of one row by id: the table and the rows it changed. *)
Definition updateRow (t : table) (id : Z) (cond : row → bool) (f : row → row) : table * Z :=
  match t !! id with
  | Some r => if cond r then (<[id := f r]> t, 1) else (t, 0)
  | None => (t, 0)
  end.

Definition markPublished (t : table) (now id : Z) (stream sid token : string) : table * Z :=
  let token := TrimSpace token in
  if negb (String.eqb token "") then updateRow t id (claimedBy token) (publishedRow now stream sid true)
  else updateRow t id (λ _, true) (publishedRow now stream sid false).

Record PublishedEntry := mkPublished { PID : Z; PStream : string; PStreamID : string }.

Definition markPublishedBatch (t : table) (now : Z) (entries : list PublishedEntry) (token : string) : table * Z :=
  foldl (λ tn e, let '(t, n) := markPublished tn.1 now (PID e) (PStream e) (PStreamID e) token in (t, tn.2 + n)) (t, 0) entries.

Definition failedRow (now : Z) (message : string) (release : bool) (r : row) : row :=
  mkRow (fact r) (createdAt r) (publishedAt r) (publishStream r) (publishStreamID r) (publishAttempts r + 1) (Some message)
    (if release then None else claimToken r) (if release then None else claimedAt r) (if release then None else claimExpiresAt r) now.

Definition errorMessage (render : log_error → string) (cause : log_error) : string := String.substring 0 2048 (render cause).

Definition markPublishFailed (t : table) (now id : Z) (message token : string) : table * Z :=
  let token := TrimSpace token in
  if negb (String.eqb token "") then updateRow t id (claimedBy token) (failedRow now message true)
  else updateRow t id (λ _, true) (failedRow now message false).

(** ** Options *)

Record PublishOptions := mkOptions { OStream : string; OField : string; OLimit : Z; OMaxAttempts : Z; OClaimTTL : Z; OClaimToken : string }.
Record PublishResult := mkResult { Read : Z; Published : Z; Failed : Z }.

Definition normalizeLimit (limit : Z) : Z := if limit <=? 0 then DefaultBatchLimit else if MaxBatchLimit <? limit then MaxBatchLimit else limit.
Definition normalizeMaxAttempts (max : Z) : Z := if max <=? 0 then DefaultMaxAttempts else max.
Definition normalizeClaimTTL (ttl : Z) : Z := if ttl <=? 0 then DefaultClaimTTL else if ttl <? millisecond then millisecond else ttl.

(** [newEventID] of sixteen random bytes. *)
Definition newEventID (raw : string) : string :=
  let at_ (i : nat) (f : N → N) (s : string) :=
    match String.get i s with Some c => String.substring 0 i s +:+ String (ascii_of_N (f (N_of_ascii c))) (String.substring (i + 1) (String.length s) s) | None => s end in
  let raw := at_ 6%nat (λ b, N.lor (N.land b 15) 64) raw in
  let raw := at_ 8%nat (λ b, N.lor (N.land b 63) 128) raw in
  let encoded := hexEncode raw in
  "evt_" +:+ String.substring 0 8 encoded +:+ "-" +:+ String.substring 8 4 encoded +:+ "-" +:+ String.substring 12 4 encoded +:+ "-" +:+
  String.substring 16 4 encoded +:+ "-" +:+ String.substring 20 12 encoded.

(** The identifier starts with "evt_", so that is what [strings.Replace] replaces. *)
Definition newClaimToken (raw : string) : string := "claim_" +:+ TrimPrefix (newEventID raw) "evt_".

(** ** Publishers *)

(** A program over the calls a publisher makes. An append carries the entries it is
    for; the stream sees their envelopes. *)
Inductive prog (A : Type) : Type :=
| Ret (a : A)
| CtxErr (k : bool → prog A)
| Claim (limit max : Z) (token : string) (ttl : Z) (k : res log_error (list Entry) → prog A)
| XAdd (stream : string) (e : Entry) (k : res log_error string → prog A)
| XAddMany (stream : string) (es : list Entry) (k : list string * list (option log_error) → prog A)
| MarkPublished (id : Z) (stream sid token : string) (k : option log_error → prog A)
| MarkPublishedBatch (ps : list PublishedEntry) (token : string) (k : option log_error → prog A)
| MarkPublishFailed (id : Z) (cause : log_error) (token : string) (k : option log_error → prog A).
Arguments Ret {A} a.
Arguments CtxErr {A} k.
Arguments Claim {A} limit max token ttl k.
Arguments XAdd {A} stream e k.
Arguments XAddMany {A} stream es k.
Arguments MarkPublished {A} id stream sid token k.
Arguments MarkPublishedBatch {A} ps token k.
Arguments MarkPublishFailed {A} id cause token k.

Abbreviation answer := (PublishResult * option log_error)%type.

(** The loop of [PublishPending] without batches. *)
Fixpoint publishEach (stream token : string) (entries : list Entry) (result : PublishResult) : prog answer :=
  match entries with
  | [] => Ret (result, None)
  | e :: rest =>
      CtxErr (λ cancelled,
        if cancelled then Ret (result, Some ErrContext)
        else XAdd stream e (λ r,
          match r with
          | Err err => MarkPublishFailed (EID e) err token (λ _, Ret (mkResult (Read result) (Published result) (Failed result + 1), Some err))
          | Ok sid => MarkPublished (EID e) stream sid token (λ m,
              match m with
              | Some err => Ret (result, Some err)
              | None => publishEach stream token rest (mkResult (Read result) (Published result + 1) (Failed result))
              end)
          end))
  end.

(** [markPublishedBatch], which sends nothing for no entries and a plain update for one. *)
Definition sendPublished (published : list PublishedEntry) (token : string) (k : option log_error → prog answer) : prog answer :=
  match published with
  | [] => k None
  | [p] => MarkPublished (PID p) (PStream p) (PStreamID p) token k
  | _ => MarkPublishedBatch published token k
  end.

(** The loop of [finishPublishPendingBatch]. *)
Fixpoint finishEach (stream token : string) (todo : list (Entry * (string * option log_error))) (published : list PublishedEntry) (result : PublishResult)
    (firstErr : option log_error) : prog answer :=
  match todo with
  | [] => sendPublished published token (λ m, match m with Some err => Ret (result, Some err) | None => Ret (result, firstErr) end)
  | (e, (sid, appendErr)) :: rest =>
      CtxErr (λ cancelled,
        if cancelled then Ret (result, Some ErrContext)
        else match appendErr with
             | Some err =>
                 let result := mkResult (Read result) (Published result) (Failed result + 1) in
                 MarkPublishFailed (EID e) err token (λ m,
                   let firstErr := match firstErr, m with
                                   | None, Some markErr => Some (ErrJoin err markErr)
                                   | None, None => Some err
                                   | Some _, _ => firstErr
                                   end in
                   finishEach stream token rest published result firstErr)
             | None =>
                 finishEach stream token rest (published ++ [mkPublished (EID e) stream sid]) (mkResult (Read result) (Published result + 1) (Failed result)) firstErr
             end)
  end.

Definition finishPublishPendingBatch (stream token : string) (entries : list Entry) (result : PublishResult) (reply : list string * list (option log_error)) : prog answer :=
  let '(streamIDs, appendErrs) := reply in
  if negb (length streamIDs =? length entries)%nat || negb (length appendErrs =? length entries)%nat then Ret (result, Some ErrBatchShape)
  else finishEach stream token (zip entries (zip streamIDs appendErrs)) [] result None.

(** [PublishPending]; [batching]: the appender appends batches; [raw]: the bytes of
    a generated token. *)
Definition PublishPending (batching : bool) (raw : string) (opts : PublishOptions) : prog answer :=
  let stream := TrimSpace (OStream opts) in
  if String.eqb stream "" then Ret (mkResult 0 0 0, Some ErrStreamRequired)
  else
    let token := if String.eqb (TrimSpace (OClaimToken opts)) "" then newClaimToken raw else TrimSpace (OClaimToken opts) in
    Claim (normalizeLimit (OLimit opts)) (normalizeMaxAttempts (OMaxAttempts opts)) token (normalizeClaimTTL (OClaimTTL opts)) (λ r,
      match r with
      | Err err => Ret (mkResult 0 0 0, Some err)
      | Ok entries =>
          let result := mkResult (Z.of_nat (length entries)) 0 0 in
          if (1 <? Z.of_nat (length entries)) && batching then XAddMany stream entries (finishPublishPendingBatch stream token entries result)
          else publishEach stream token entries result
      end).

(** ** Publishers at work *)

(** One entry on the stream: stream, its id there, and the row and envelope it is of. *)
Abbreviation delivery := (string * string * (Z * string))%type.

(** A publisher, with the rows it claimed and has not tried to append yet. *)
Record publisher := mkPublisher { todo : prog answer; held : gmap Z string }.

(** The table, the stream and the publishers; [claims] and [takeovers] count, per
    row, the claims made and those that replaced a claim whose lease had run out. *)
Record world := mkWorld {
  tbl : table; seq : Z; clock : Z; delivered : list delivery; publishers : gmap nat publisher; claims : Z → Z; takeovers : Z → Z
}.

Definition heldOf (es : list Entry) : gmap Z string := list_to_map (map (λ e, (EID e, Envelope (EFact e))) es).
Definition deliveryOf (stream sid : string) (e : Entry) : delivery := (stream, sid, (EID e, Envelope (EFact e))).
Definition bump (c : Z → Z) (ids : list Z) : Z → Z := λ id, if bool_decide (id ∈ ids) then c id + 1 else c id.
Definition replaced (t : table) (ids : list Z) : list Z := filter (λ id, (t !! id ≫= claimToken) ≠ None) ids.

Definition setTable (w : world) (t : table) : world := mkWorld t (seq w) (clock w) (delivered w) (publishers w) (claims w) (takeovers w).
Definition setPublisher (w : world) (pid : nat) (p : publisher) : world :=
  mkWorld (tbl w) (seq w) (clock w) (delivered w) (<[pid := p]> (publishers w)) (claims w) (takeovers w).
Definition deliverAll (w : world) (ds : list delivery) : world :=
  mkWorld (tbl w) (seq w) (clock w) (delivered w ++ ds) (publishers w) (claims w) (takeovers w).

(** The world after a claim statement that committed. *)
Definition claimIn (w : world) (locked : gset Z) (limit max : Z) (token : string) (ttl : Z) : world :=
  let ids := candidates locked (clock w) limit max (tbl w) in
  mkWorld (claimPendingRows locked (clock w) limit max token ttl (tbl w)).1 (seq w) (clock w) (delivered w) (publishers w)
    (bump (claims w) ids) (bump (takeovers w) (replaced (tbl w) ids)).

(** [execClaimedUpdate] of a statement that ran and changed [n] rows. *)
Definition execClaimedUpdate (hasResults : bool) (want n : Z) : option log_error := if hasResults && negb (n =? want) then Some ErrPublishClaimLost else None.

(** What such an update answers and whether it committed: a statement that fails may
    have committed all the same. *)
Inductive updateReply (hasResults : bool) (want n : Z) : bool → option log_error → Prop :=
| reply_ran : updateReply hasResults want n true (execClaimedUpdate hasResults want n)
| reply_failed committed message : updateReply hasResults want n committed (Some (ErrDatabase message)).

(** What a batch append of [es] answers and what it left on the stream: an entry
    reported without an error is there under the id reported for it; any other may be. *)
Definition batchReply (es : list Entry) (reply : list string * list (option log_error)) (left : list (string * Entry)) : Prop :=
  map snd left `sublist_of` es ∧
  (length reply.1 = length es → length reply.2 = length es → ∀ e sid, (e, (sid, None)) ∈ zip es (zip reply.1 reply.2) → (sid, e) ∈ left).

Section World.
Context (hasResults : bool) (render : log_error → string).

Inductive step : world → world → Prop :=
| append_step w f : step w (let '(t, s, _) := Append (tbl w) (seq w) (clock w) f in mkWorld t s (clock w) (delivered w) (publishers w) (claims w) (takeovers w))
| tick_step w d : 0 ≤ d → step w (mkWorld (tbl w) (seq w) (clock w + d) (delivered w) (publishers w) (claims w) (takeovers w))
| start_step w pid batching raw opts : publishers w !! pid = None → step w (setPublisher w pid (mkPublisher (PublishPending batching raw opts) ∅))
| crash_step w pid : step w (mkWorld (tbl w) (seq w) (clock w) (delivered w) (delete pid (publishers w)) (claims w) (takeovers w))
| ctx_step w pid h k (cancelled : bool) : publishers w !! pid = Some (mkPublisher (CtxErr k) h) → step w (setPublisher w pid (mkPublisher (k cancelled) h))
| claim_step w pid h limit max token ttl k locked es : publishers w !! pid = Some (mkPublisher (Claim limit max token ttl k) h) →
    es ≡ₚ (claimPendingRows locked (clock w) limit max token ttl (tbl w)).2 →
    step w (setPublisher (claimIn w locked limit max token ttl) pid (mkPublisher (k (Ok es)) (heldOf es)))
| claim_fails w pid h limit max token ttl k locked (committed : bool) message : publishers w !! pid = Some (mkPublisher (Claim limit max token ttl k) h) →
    step w (setPublisher (if committed then claimIn w locked limit max token ttl else w) pid (mkPublisher (k (Err (ErrDatabase message))) ∅))
| xadd_step w pid h stream e k sid : publishers w !! pid = Some (mkPublisher (XAdd stream e k) h) →
    step w (setPublisher (deliverAll w [deliveryOf stream sid e]) pid (mkPublisher (k (Ok sid)) (delete (EID e) h)))
| xadd_fails w pid h stream e k (left : option string) message : publishers w !! pid = Some (mkPublisher (XAdd stream e k) h) →
    step w (setPublisher (deliverAll w (match left with Some sid => [deliveryOf stream sid e] | None => [] end)) pid
      (mkPublisher (k (Err (ErrAppend message))) (delete (EID e) h)))
| xadd_many_step w pid h stream es k reply left : publishers w !! pid = Some (mkPublisher (XAddMany stream es k) h) → batchReply es reply left →
    step w (setPublisher (deliverAll w (map (λ se, deliveryOf stream se.1 se.2) left)) pid (mkPublisher (k reply) (h ∖ heldOf es)))
| mark_step w pid h id stream sid token k committed reply : publishers w !! pid = Some (mkPublisher (MarkPublished id stream sid token k) h) →
    updateReply hasResults 1 (markPublished (tbl w) (clock w) id stream sid token).2 committed reply →
    step w (setPublisher (setTable w (if committed : bool then (markPublished (tbl w) (clock w) id stream sid token).1 else tbl w)) pid (mkPublisher (k reply) h))
| mark_batch_step w pid h ps token k committed reply : publishers w !! pid = Some (mkPublisher (MarkPublishedBatch ps token k) h) →
    updateReply hasResults (Z.of_nat (length ps)) (markPublishedBatch (tbl w) (clock w) ps token).2 committed reply →
    step w (setPublisher (setTable w (if committed : bool then (markPublishedBatch (tbl w) (clock w) ps token).1 else tbl w)) pid (mkPublisher (k reply) h))
| mark_failed_step w pid h id cause token k committed reply : publishers w !! pid = Some (mkPublisher (MarkPublishFailed id cause token k) h) →
    updateReply hasResults 1 (markPublishFailed (tbl w) (clock w) id (errorMessage render cause) token).2 committed reply →
    step w (setPublisher (setTable w (if committed : bool then (markPublishFailed (tbl w) (clock w) id (errorMessage render cause) token).1 else tbl w)) pid
      (mkPublisher (k reply) h)).

Definition initial : world := mkWorld ∅ 1 0 [] ∅ (λ _, 0) (λ _, 0).

Inductive reachable : world → Prop :=
| reach_start : reachable initial
| reach_step w w' : reachable w → step w w' → reachable w'.

(** *** What a publisher's program may do

    [safe S h p]: the program appends only rows of [h], each at most once, and marks
    published only what it put on the stream ([S]), always under a token. *)
Fixpoint safe (S : delivery → Prop) (h : gmap Z string) (p : prog answer) : Prop :=
  match p with
  | Ret _ => True
  | CtxErr k => ∀ b, safe S h (k b)
  | Claim _ _ _ _ k => (∀ es, NoDup (map EID es) → safe S (heldOf es) (k (Ok es))) ∧ ∀ err, safe S ∅ (k (Err err))
  | XAdd stream e k => h !! EID e = Some (Envelope (EFact e)) ∧ (∀ sid, safe (λ d, S d ∨ d = deliveryOf stream sid e) (delete (EID e) h) (k (Ok sid))) ∧
      ∀ err, safe S (delete (EID e) h) (k (Err err))
  | XAddMany stream es k => NoDup (map EID es) ∧ (∀ e, e ∈ es → h !! EID e = Some (Envelope (EFact e))) ∧
      ∀ reply left, batchReply es reply left → safe (λ d, S d ∨ d ∈ map (λ se, deliveryOf stream se.1 se.2) left) (h ∖ heldOf es) (k reply)
  | MarkPublished id stream sid token k => TrimSpace token ≠ "" ∧ (∃ x, S (stream, sid, (id, x))) ∧ ∀ m, safe S h (k m)
  | MarkPublishedBatch ps token k => TrimSpace token ≠ "" ∧ (∀ p, p ∈ ps → ∃ x, S (PStream p, PStreamID p, (PID p, x))) ∧ ∀ m, safe S h (k m)
  | MarkPublishFailed _ _ token k => TrimSpace token ≠ "" ∧ ∀ m, safe S h (k m)
  end.

Lemma safe_mono p : ∀ (S S' : delivery → Prop) h, (∀ d, S d → S' d) → safe S h p → safe S' h p.
Proof.
  induction p as [a|k IH|limit max token ttl k IH|stream e k IH|stream es k IH|id stream sid token k IH|ps token k IH|id cause token k IH];
    intros S S' h HS; cbn [safe]; [done|..].
  - intros H b. eauto.
  - intros [H1 H2]. split; eauto.
  - intros (H1 & H2 & H3). split_and!; [done| |eauto]. intros sid. eapply IH; [|apply H2]. intros d [?|?]; auto.
  - intros (H1 & H2 & H3). split_and!; [done|done|]. intros reply left Hb. eapply IH; [|apply (H3 reply left Hb)]. intros d [?|?]; auto.
  - intros (H1 & [x H2] & H3). split_and!; [done|eauto|eauto].
  - intros (H1 & H2 & H3). split_and!; [done| |eauto]. intros p Hp. destruct (H2 p Hp). eauto.
  - intros (H1 & H2). split; eauto.
Qed.

Lemma publish_each_safe stream token es : TrimSpace token ≠ "" → NoDup (map EID es) → ∀ S h result,
  (∀ e, e ∈ es → h !! EID e = Some (Envelope (EFact e))) → safe S h (publishEach stream token es result).
Proof.
  intros Ht. induction es as [|e es IH]; cbn [map publishEach]; [done|]. intros [Hn Hnd]%NoDup_cons S h result Hh.
  intros cancelled. destruct cancelled; [done|]. split_and!; [apply Hh; by constructor| |done]. intros sid. split_and!; [done|exists (Envelope (EFact e)); by right|].
  intros [err|]; [done|]. apply IH; [done|]. intros e' He'. rewrite lookup_delete_ne; [apply Hh; by constructor|].
  intros E. apply Hn. rewrite E. apply list_elem_of_In, in_map, list_elem_of_In, He'.
Qed.

Lemma finish_each_safe stream token l : TrimSpace token ≠ "" → ∀ (S : delivery → Prop) h ps result first,
  (∀ p, p ∈ ps → ∃ x, S (PStream p, PStreamID p, (PID p, x))) →
  (∀ e sid, (e, (sid, None)) ∈ l → S (deliveryOf stream sid e)) → safe S h (finishEach stream token l ps result first).
Proof.
  intros Ht. induction l as [|[e [sid err]] l IH]; intros S h ps result first Hps Hl; cbn [finishEach].
  - assert (∀ m : option log_error, safe S h (match m with Some err' => Ret (result, Some err') | None => Ret (result, first) end)) as Hk by (by intros []).
    unfold sendPublished. destruct ps as [|p [|q ps]]; [apply (Hk None)|split_and!; [done|apply Hps; by constructor|done]|by split_and!].
  - intros [|]; [done|]. destruct err as [err|].
    + split; [done|]. intros m. apply IH; [done|]. intros e' sid' H. apply Hl. by right.
    + apply IH; [|intros e' sid' H; apply Hl; by right]. intros p [Hp|Hp]%elem_of_app; [by apply Hps|]. apply list_elem_of_singleton in Hp as ->.
      exists (Envelope (EFact e)). apply (Hl e sid). by constructor.
Qed.

Lemma new_claim_token_plain raw : TrimSpace (newClaimToken raw) = newClaimToken raw ∧ newClaimToken raw ≠ "".
Proof.
  split; [|unfold newClaimToken; by rewrite append_cons]. apply trim_space_plain. unfold newClaimToken, newEventID.
  rewrite trim_prefix_app. repeat apply plain_append; first [apply plain_substring, hex_encode_plain|by repeat constructor].
Qed.

Lemma publish_pending_safe S h batching raw opts : safe S h (PublishPending batching raw opts).
Proof.
  unfold PublishPending. destruct (String.eqb _ ""); [done|].
  set (token := if String.eqb (TrimSpace (OClaimToken opts)) "" then _ else _).
  assert (TrimSpace token ≠ "") as Ht.
  { subst token. destruct (String.eqb_spec (TrimSpace (OClaimToken opts)) ""); [|by rewrite trim_space_idemp].
    destruct (new_claim_token_plain raw) as [E Hne]. by rewrite E. }
  split; [|done]. intros es Hnd. assert (∀ e, e ∈ es → heldOf es !! EID e = Some (Envelope (EFact e))) as Hh.
  { intros e He. apply elem_of_list_to_map; [by rewrite map_map|]. apply list_elem_of_In, in_map_iff. exists e. split; [done|by apply list_elem_of_In]. }
  destruct (_ && _); [|by apply publish_each_safe]. split_and!; [done|done|]. intros [ids errs] left [Hsub Hb]. unfold finishPublishPendingBatch.
  destruct (Nat.eqb_spec (length ids) (length es)); [|done]. destruct (Nat.eqb_spec (length errs) (length es)); [|done]. cbn [negb orb].
  apply finish_each_safe; [done|intros p Hp; by apply elem_of_nil in Hp|]. intros e1 sid He. right. apply list_elem_of_In, in_map_iff. exists (sid, e1). split; [done|]. apply list_elem_of_In, Hb; done.
Qed.

(** *** Tables only move forward *)

(** Rows keep their fact, and a published row never changes again. *)
Definition evolves (t t' : table) : Prop :=
  ∀ id r, t !! id = Some r → ∃ r', t' !! id = Some r' ∧ fact r' = fact r ∧ (publishedAt r ≠ None → r' = r).

Lemma evolves_refl t : evolves t t.
Proof. intros id r H. eauto. Qed.

Lemma evolves_trans t1 t2 t3 : evolves t1 t2 → evolves t2 t3 → evolves t1 t3.
Proof.
  intros H1 H2 id r Hr. destruct (H1 id r Hr) as (r2 & E2 & F2 & P2). destruct (H2 id r2 E2) as (r3 & E3 & F3 & P3).
  exists r3. split_and!; [done|congruence|]. intros Hp. specialize (P2 Hp) as ->. auto.
Qed.

(** What a row owes: claims made against it, and where its publication can be seen. *)
Definition open_ (r : row) : Z := if bool_decide (claimToken r = None) && bool_decide (publishedAt r = None) then 0 else 1.

Record row_ok (ds : list delivery) (id claimed taken : Z) (r : row) : Prop := {
  ro_published : publishedAt r ≠ None → ∃ stream sid, publishStream r = Some stream ∧ publishStreamID r = Some sid ∧ (stream, sid, (id, Envelope (fact r))) ∈ ds;
  ro_books : claimed ≤ taken + publishAttempts r + open_ r;
  ro_attempts : 0 ≤ publishAttempts r;
  ro_lease : claimToken r = None ↔ claimExpiresAt r = None
}.

Record table_ok (w : world) : Prop := {
  to_rows : ∀ id r, tbl w !! id = Some r → row_ok (delivered w) id (claims w id) (takeovers w id) r;
  to_none : ∀ id, tbl w !! id = None → claims w id = 0 ∧ takeovers w id = 0;
  to_seq : ∀ id, is_Some (tbl w !! id) → id < seq w;
  to_from : ∀ stream sid id x, (stream, sid, (id, x)) ∈ delivered w → ∃ r, tbl w !! id = Some r ∧ Envelope (fact r) = x
}.

Lemma table_ok_insert w id r r' : table_ok w → tbl w !! id = Some r → fact r' = fact r → row_ok (delivered w) id (claims w id) (takeovers w id) r' →
  table_ok (setTable w (<[id := r']> (tbl w))).
Proof.
  intros [H1 H2 H3 H4] Hr Hf Hok. split; cbn [setTable tbl delivered claims takeovers seq].
  - intros id' r1. destruct (decide (id' = id)) as [->|]; [rewrite lookup_insert_eq; by intros [= <-]|rewrite lookup_insert_ne by done; apply H1].
  - intros id'. destruct (decide (id' = id)) as [->|]; [by rewrite lookup_insert_eq|rewrite lookup_insert_ne by done; apply H2].
  - intros id'. destruct (decide (id' = id)) as [->|]; [intros _; apply H3; by rewrite Hr|rewrite lookup_insert_ne by done; apply H3].
  - intros stream sid id' x Hd. destruct (H4 _ _ _ _ Hd) as (r1 & E1 & E2). destruct (decide (id' = id)) as [->|]; [|rewrite lookup_insert_ne by done; eauto].
    exists r'. rewrite lookup_insert_eq. split; [done|]. rewrite Hf. congruence.
Qed.

Lemma evolves_insert t id r r' : t !! id = Some r → fact r' = fact r → publishedAt r = None → evolves t (<[id := r']> t).
Proof.
  intros Hr Hf Hp id' r1 E. destruct (decide (id' = id)) as [->|]; [|rewrite lookup_insert_ne by done; eauto]. rewrite lookup_insert_eq.
  assert (r1 = r) as -> by congruence. exists r'. split_and!; [done|done|congruence].
Qed.

Lemma claimed_by_spec token r : claimedBy token r = true → publishedAt r = None ∧ claimToken r = Some token.
Proof. unfold claimedBy. intros [H1%bool_decide_eq_true_1 H2%bool_decide_eq_true_1]%andb_prop. done. Qed.

Lemma open_claimed token r : claimedBy token r = true → open_ r = 1.
Proof. intros [_ H]%claimed_by_spec. unfold open_. by rewrite H. Qed.

(** The update of a claimed row. *)
Lemma update_claimed_ok w id token f : table_ok w →
  (∀ r, tbl w !! id = Some r → claimedBy token r = true → fact (f r) = fact r ∧ row_ok (delivered w) id (claims w id) (takeovers w id) (f r)) →
  table_ok (setTable w (updateRow (tbl w) id (claimedBy token) f).1) ∧ evolves (tbl w) (updateRow (tbl w) id (claimedBy token) f).1.
Proof.
  intros Hok Hf. assert (table_ok (setTable w (tbl w)) ∧ evolves (tbl w) (tbl w)) as Hid by (split; [by destruct Hok|apply evolves_refl]).
  unfold updateRow. destruct (tbl w !! id) as [r|] eqn:Hr; [|exact Hid]. destruct (claimedBy token r) eqn:E; [|exact Hid]. destruct (Hf r eq_refl E) as [F1 F2].
  split; [by eapply table_ok_insert|]. eapply evolves_insert; [done|done|]. by apply claimed_by_spec in E as [? _].
Qed.

Lemma mark_published_ok w id stream sid token : table_ok w → TrimSpace token ≠ "" → (∃ x, (stream, sid, (id, x)) ∈ delivered w) →
  table_ok (setTable w (markPublished (tbl w) (clock w) id stream sid token).1) ∧ evolves (tbl w) (markPublished (tbl w) (clock w) id stream sid token).1.
Proof.
  intros Hok Ht [x Hx]. unfold markPublished. destruct (String.eqb_spec (TrimSpace token) ""); [done|]. cbn [negb]. apply update_claimed_ok; [done|].
  intros r Hr Hc. split; [done|]. destruct (to_rows w Hok id r Hr) as [R1 R2 R3 R4]. destruct (to_from w Hok _ _ _ _ Hx) as (r0 & E0 & E1).
  assert (r0 = r) as -> by congruence. pose proof (open_claimed _ _ Hc) as Ho. split; cbn [publishedRow publishedAt publishStream publishStreamID publishAttempts claimToken claimExpiresAt fact].
  - intros _. exists stream, sid. split_and!; [done|done|by rewrite E1].
  - rewrite Ho in R2. exact R2.
  - done.
  - done.
Qed.

Lemma mark_failed_ok w id message token : table_ok w → TrimSpace token ≠ "" →
  table_ok (setTable w (markPublishFailed (tbl w) (clock w) id message token).1) ∧ evolves (tbl w) (markPublishFailed (tbl w) (clock w) id message token).1.
Proof.
  intros Hok Ht. unfold markPublishFailed. destruct (String.eqb_spec (TrimSpace token) ""); [done|]. cbn [negb]. apply update_claimed_ok; [done|].
  intros r Hr Hc. split; [done|]. destruct (to_rows w Hok id r Hr) as [R1 R2 R3 R4]. pose proof (open_claimed _ _ Hc) as Ho. apply claimed_by_spec in Hc as [Hp _].
  split; cbn [failedRow publishedAt publishStream publishStreamID publishAttempts claimToken claimExpiresAt fact]; [done| |lia|done].
  rewrite Ho in R2. unfold open_. cbn. rewrite Hp. cbn. lia.
Qed.

Lemma mark_batch_ok token ps : TrimSpace token ≠ "" → ∀ w n, table_ok w → (∀ p, p ∈ ps → ∃ x, (PStream p, PStreamID p, (PID p, x)) ∈ delivered w) →
  let t' := (foldl (λ tn e, let '(t, n) := markPublished tn.1 (clock w) (PID e) (PStream e) (PStreamID e) token in (t, tn.2 + n)) (tbl w, n) ps).1 in
  table_ok (setTable w t') ∧ evolves (tbl w) t'.
Proof.
  intros Ht. induction ps as [|p ps IH]; intros w n Hok Hps; cbn [foldl fst]; [split; [by destruct Hok|apply evolves_refl]|].
  destruct (mark_published_ok w (PID p) (PStream p) (PStreamID p) token Hok Ht (Hps p ltac:(by constructor))) as [H1 H2].
  destruct (markPublished (tbl w) (clock w) (PID p) (PStream p) (PStreamID p) token) as [t m]. cbn [fst snd] in *.
  destruct (IH (setTable w t) (n + m) H1 ltac:(intros q Hq; apply Hps; by right)) as [I1 I2]. cbn [setTable tbl clock] in *. split; [exact I1|by eapply evolves_trans].
Qed.

(** *** Claims *)

Lemma first_ids_spec limit p t : NoDup (firstIds limit p t) ∧ ∀ id, id ∈ firstIds limit p t → ∃ r, t !! id = Some r ∧ p id r = true.
Proof.
  unfold firstIds. set (l := map fst _). assert (NoDup l ∧ ∀ id, id ∈ l → ∃ r, t !! id = Some r ∧ p id r = true) as [H1 H2].
  { split; [apply NoDup_fst_map_to_list|]. intros id. unfold l. rewrite list_elem_of_In, in_map_iff. intros ([id' r] & <- & Hin%list_elem_of_In).
    apply elem_of_map_to_list, map_lookup_filter_Some in Hin. exists r. exact Hin. }
  split; [eapply sublist_NoDup; [|apply sublist_take]; by rewrite (merge_sort_Permutation Z.le)|].
  intros id Hin. apply H2. rewrite <- (merge_sort_Permutation Z.le l). eapply elem_of_sublist; [exact Hin|apply sublist_take].
Qed.

Lemma candidate_spec locked now limit max t id : id ∈ candidates locked now limit max t →
  ∃ r, t !! id = Some r ∧ publishedAt r = None ∧ publishAttempts r < max ∧ leaseFree now r = true ∧ id ∉ locked.
Proof.
  intros Hin. destruct (first_ids_spec limit (λ id r, pending max r && leaseFree now r && bool_decide (id ∉ locked)) t) as [_ H].
  destruct (H id Hin) as (r & Hr & Hp). exists r. apply andb_prop in Hp as [[Hp Hl]%andb_prop Hk%bool_decide_eq_true_1].
  unfold pending in Hp. apply andb_prop in Hp as [Hp%bool_decide_eq_true_1 Ha%Z.ltb_lt]. done.
Qed.

Lemma alter_all_lookup (f : row → row) ids : NoDup ids → ∀ (t : table) id,
  foldl (λ t id, alter f id t) t ids !! id = if bool_decide (id ∈ ids) then f <$> t !! id else t !! id.
Proof.
  induction ids as [|i ids IH]; intros Hnd t id; cbn [foldl]; [by rewrite bool_decide_false by apply not_elem_of_nil|].
  apply NoDup_cons in Hnd as [Hi Hnd]. rewrite IH by done. destruct (decide (id = i)) as [->|Hne].
  - rewrite bool_decide_false by done. rewrite bool_decide_true by constructor. apply lookup_alter_eq.
  - rewrite lookup_alter_ne by done. erewrite bool_decide_ext; [done|]. rewrite elem_of_cons. naive_solver.
Qed.

Lemma entries_of_spec t ids : (∀ id, id ∈ ids → is_Some (t !! id)) →
  map EID (entriesOf t ids) = ids ∧ ∀ e, e ∈ entriesOf t ids → ∃ r, t !! EID e = Some r ∧ e = scanPendingEntry (EID e) r.
Proof.
  unfold entriesOf. induction ids as [|id ids IH]; intros Hids; [by split; [|intros e He; apply elem_of_nil in He]|].
  destruct (Hids id ltac:(by constructor)) as [r Hr]. destruct (IH ltac:(intros i Hi; apply Hids; by right)) as [I1 I2].
  cbn. rewrite Hr. cbn. split; [by f_equal|]. intros e [->|He]%elem_of_cons; [by exists r|by apply I2].
Qed.

Lemma claim_spec locked now limit max token ttl t :
  let '(t', es) := claimPendingRows locked now limit max token ttl t in let ids := candidates locked now limit max t in
  NoDup ids ∧ map EID es = ids ∧ (∀ e, e ∈ es → ∃ r, t !! EID e = Some r ∧ EFact e = fact r) ∧
  ∀ id, t' !! id = if bool_decide (id ∈ ids) then claimRow now (now + 1000 * (ttl / millisecond)) token <$> t !! id else t !! id.
Proof.
  unfold claimPendingRows. set (ids := candidates locked now limit max t). set (t' := foldl _ t ids). cbn zeta.
  assert (NoDup ids) as Hnd by apply first_ids_spec. pose proof (alter_all_lookup (claimRow now (now + 1000 * (ttl / millisecond)) token) ids Hnd t) as Hl. fold t' in Hl.
  destruct (entries_of_spec t' ids) as [E1 E2].
  { intros id Hid. rewrite Hl, bool_decide_true by done. destruct (candidate_spec _ _ _ _ _ _ Hid) as (r & -> & _). eauto. }
  split_and!; [done|done| |done]. intros e He. destruct (E2 e He) as (r & Hr & ->). rewrite Hl in Hr. cbn [EID scanPendingEntry] in Hr.
  case_bool_decide; [|exists r; done]. destruct (t !! EID e) as [r0|] eqn:E0; [|done]. injection Hr as <-. exists r0. done.
Qed.

Lemma claim_in_ok w locked limit max token ttl : table_ok w →
  table_ok (claimIn w locked limit max token ttl) ∧ evolves (tbl w) (tbl (claimIn w locked limit max token ttl)).
Proof.
  intros [H1 H2 H3 H4]. pose proof (claim_spec locked (clock w) limit max token ttl (tbl w)) as Hs. unfold claimIn.
  destruct (claimPendingRows locked (clock w) limit max token ttl (tbl w)) as [t' es]. cbn [fst] in *. destruct Hs as (Hnd & _ & _ & Hl).
  pose proof (λ id, candidate_spec locked (clock w) limit max (tbl w) id) as Hc. set (ids := candidates _ _ _ _ _) in *.
  set (expires := clock w + _) in *. clearbody ids expires. split; [split|]; cbn [tbl delivered claims takeovers seq].
  - intros id r. rewrite Hl. unfold bump at 1. case_bool_decide as Hin; [|intros Hr; destruct (H1 id r Hr) as [R1 R2 R3 R4]; split; try done].
    2: { unfold bump. rewrite bool_decide_false; [done|]. unfold replaced. rewrite list_elem_of_filter. tauto. }
    destruct (Hc id Hin) as (r0 & Hr0 & Hp & Ha & Hf & _). rewrite Hr0. intros [= <-]. destruct (H1 id r0 Hr0) as [R1 R2 R3 R4].
    split; cbn [claimRow publishedAt publishAttempts claimToken claimExpiresAt fact publishStream publishStreamID]; [done| |done|done].
    unfold open_ in *. cbn. rewrite Hp in R2. unfold bump, replaced. destruct (claimToken r0) as [tok|] eqn:Et; cbn in R2.
    + rewrite bool_decide_true; [lia|]. rewrite list_elem_of_filter, Hr0. cbn. by rewrite Et.
    + rewrite bool_decide_false; [lia|]. rewrite list_elem_of_filter, Hr0. cbn. rewrite Et. tauto.
  - intros id. rewrite Hl. unfold bump. case_bool_decide as Hin; [destruct (Hc id Hin) as (r0 & -> & _); done|].
    rewrite bool_decide_false; [apply H2|]. unfold replaced. rewrite list_elem_of_filter. tauto.
  - intros id [r Hr]. rewrite Hl in Hr. apply H3. case_bool_decide; [|eauto]. destruct (tbl w !! id); [eauto|done].
  - intros stream sid id x Hd. destruct (H4 _ _ _ _ Hd) as (r & Hr & Hx). rewrite Hl. case_bool_decide; [rewrite Hr; by eexists|eauto].
  - intros id r Hr. rewrite Hl. case_bool_decide as Hin; [|eauto]. rewrite Hr. eexists. split_and!; [done|done|]. destruct (Hc id Hin) as (r0 & Hr0 & Hp & _). congruence.
Qed.

(** *** Every reachable world *)

Definition countFor (id : Z) (ds : list delivery) : Z := Z.of_nat (length (filter (λ d : delivery, d.2.1 = id) ds)).
Definition holds (id : Z) (p : publisher) : Z := match held p !! id with Some _ => 1 | None => 0 end.

Record world_ok (w : world) : Prop := {
  wo_table : table_ok w;
  wo_safe : ∀ pid p, publishers w !! pid = Some p → safe (λ d, d ∈ delivered w) (held p) (todo p);
  wo_held : ∀ pid p id x, publishers w !! pid = Some p → held p !! id = Some x → ∃ r, tbl w !! id = Some r ∧ Envelope (fact r) = x;
  wo_claims : ∀ id, countFor id (delivered w) + msum (holds id) (publishers w) ≤ claims w id
}.

Lemma holds_nonneg id p : 0 ≤ holds id p.
Proof. unfold holds. destruct (held p !! id); lia. Qed.

Lemma evolves_held t t' id x : evolves t t' → (∃ r, t !! id = Some r ∧ Envelope (fact r) = x) → ∃ r, t' !! id = Some r ∧ Envelope (fact r) = x.
Proof. intros He (r & Hr & <-). destruct (He id r Hr) as (r' & Hr' & Hf & _). exists r'. split; [done|congruence]. Qed.

(** The world without its publishers moves, and one publisher goes on. *)
Lemma publisher_moves w w1 pid p p' : world_ok w → publishers w !! pid = Some p → publishers w1 = publishers w → table_ok w1 → evolves (tbl w) (tbl w1) →
  (∀ d, d ∈ delivered w → d ∈ delivered w1) → safe (λ d, d ∈ delivered w1) (held p') (todo p') →
  (∀ id x, held p' !! id = Some x → ∃ r, tbl w1 !! id = Some r ∧ Envelope (fact r) = x) →
  (∀ id, countFor id (delivered w1) + holds id p' - claims w1 id ≤ countFor id (delivered w) + holds id p - claims w id) →
  world_ok (setPublisher w1 pid p').
Proof.
  intros [H1 H2 H3 H4] Hp Hpub Ht He Hd Hsafe Hheld Hcount. split; cbn [setPublisher tbl delivered publishers claims]; rewrite ?Hpub.
  - by destruct Ht.
  - intros q x. destruct (decide (q = pid)) as [->|]; [rewrite lookup_insert_eq; by intros [= <-]|rewrite lookup_insert_ne by done].
    intros Hq. eapply safe_mono; [exact Hd|by apply (H2 q)].
  - intros q x id y. destruct (decide (q = pid)) as [->|]; [rewrite lookup_insert_eq; intros [= <-]; apply Hheld|rewrite lookup_insert_ne by done].
    intros Hq Hx. eapply evolves_held; [exact He|by eapply H3].
  - intros id. rewrite (msum_update _ _ _ _ _ Hp). specialize (H4 id). specialize (Hcount id). lia.
Qed.

Lemma count_app id ds ds' : countFor id (ds ++ ds') = countFor id ds + countFor id ds'.
Proof. unfold countFor. rewrite filter_app, length_app. lia. Qed.

Lemma log_deliver_ok w ds : table_ok w → (∀ stream sid id x, (stream, sid, (id, x)) ∈ ds → ∃ r, tbl w !! id = Some r ∧ Envelope (fact r) = x) → table_ok (deliverAll w ds).
Proof.
  intros [H1 H2 H3 H4] Hds. split; cbn [deliverAll tbl delivered claims takeovers seq]; [|done|done|].
  - intros id r Hr. destruct (H1 id r Hr) as [R1 R2 R3 R4]. split; try done. intros Hp. destruct (R1 Hp) as (stream & sid & ? & ? & Hd).
    exists stream, sid. split_and!; [done|done|]. apply elem_of_app. by left.
  - intros stream sid id x [Hd|Hd]%elem_of_app; eauto.
Qed.

(** A publisher that tried to append [es], which left [ds] on the stream. *)
Lemma append_moves w pid p ds k' (h' : gmap Z string) : world_ok w → publishers w !! pid = Some p →
  (∀ stream sid id x, (stream, sid, (id, x)) ∈ ds → held p !! id = Some x) → (∀ id, countFor id ds + holds id (mkPublisher k' h') ≤ holds id p) →
  (∀ id x, h' !! id = Some x → held p !! id = Some x) → safe (λ d, d ∈ delivered w ++ ds) h' k' →
  world_ok (setPublisher (deliverAll w ds) pid (mkPublisher k' h')).
Proof.
  intros Hok Hp Hds Hcount Hsub Hsafe. pose proof (wo_held w Hok pid p) as Hheld. eapply publisher_moves; [done|done|done|..].
  - apply log_deliver_ok; [apply Hok|]. intros stream sid id x Hd. eapply Hheld; [done|by eapply Hds].
  - apply evolves_refl.
  - intros d Hd. apply elem_of_app. by left.
  - exact Hsafe.
  - intros id x Hx. eapply Hheld; [done|by apply Hsub].
  - intros id. cbn [deliverAll delivered claims]. rewrite count_app. specialize (Hcount id). unfold holds in *. cbn [held] in *. lia.
Qed.

(** A publisher that ran a statement on the table. *)
Lemma statement_moves w pid p t k h : world_ok w → publishers w !! pid = Some p → h = held p → table_ok (setTable w t) ∧ evolves (tbl w) t →
  safe (λ d, d ∈ delivered w) h k → world_ok (setPublisher (setTable w t) pid (mkPublisher k h)).
Proof.
  intros Hok Hp -> [Ht He] Hsafe. eapply publisher_moves; [done|done|done|done|done|done|done| |done].
  intros id x Hx. eapply evolves_held; [exact He|]. by eapply (wo_held w Hok).
Qed.

Lemma no_statement_ok w : table_ok w → table_ok (setTable w (tbl w)) ∧ evolves (tbl w) (tbl w).
Proof. intros H. split; [by destruct H|apply evolves_refl]. Qed.

Lemma append_fact_ok w f : world_ok w →
  world_ok (let '(t, s, _) := Append (tbl w) (seq w) (clock w) f in mkWorld t s (clock w) (delivered w) (publishers w) (claims w) (takeovers w)).
Proof.
  intros [[H1 H2 H3 H4] P1 P2 P3]. unfold Append. destruct (existsb _ _); [split; [split|..]; cbn; try done; intros id Hid; specialize (H3 id Hid); lia|].
  assert (tbl w !! seq w = None) as Hn by (apply eq_None_not_Some; intros Hs; specialize (H3 _ Hs); lia).
  split; [split|..]; cbn [tbl delivered claims takeovers seq publishers]; [| | | |done| |done].
  - intros id r. destruct (decide (id = seq w)) as [->|]; [rewrite lookup_insert_eq; intros [= <-]|rewrite lookup_insert_ne by done; apply H1].
    split; cbn; [done| |lia|done]. destruct (H2 _ Hn) as [-> ->]. done.
  - intros id. destruct (decide (id = seq w)) as [->|]; [by rewrite lookup_insert_eq|rewrite lookup_insert_ne by done; apply H2].
  - intros id. destruct (decide (id = seq w)) as [->|]; [lia|rewrite lookup_insert_ne by done]. intros Hid. specialize (H3 id Hid). lia.
  - intros stream sid id x Hd. destruct (H4 _ _ _ _ Hd) as (r & Hr & Hx). exists r. rewrite lookup_insert_ne; [done|congruence].
  - intros pid p id x Hp Hx. destruct (P2 _ _ _ _ Hp Hx) as (r & Hr & Hx'). exists r. rewrite lookup_insert_ne; [done|congruence].
Qed.

Lemma crash_ok w pid : world_ok w → world_ok (mkWorld (tbl w) (seq w) (clock w) (delivered w) (delete pid (publishers w)) (claims w) (takeovers w)).
Proof.
  intros [H1 H2 H3 H4]. split; cbn [tbl delivered publishers claims]; [by destruct H1| | |].
  - intros q p [_ Hq]%lookup_delete_Some. by apply (H2 q).
  - intros q p id x [_ Hq]%lookup_delete_Some. by apply (H3 q).
  - intros id. specialize (H4 id). destruct (publishers w !! pid) as [p|] eqn:E; [rewrite (msum_delete _ _ _ _ E); pose proof (holds_nonneg id p); lia|by rewrite delete_id].
Qed.

Lemma log_start_ok w pid prg : world_ok w → publishers w !! pid = None → (∀ S, safe S ∅ prg) → world_ok (setPublisher w pid (mkPublisher prg ∅)).
Proof.
  intros [H1 H2 H3 H4] Hn Hsafe. split; cbn [setPublisher tbl delivered publishers claims]; [by destruct H1| | |].
  - intros q p [[-> <-]|[_ Hq]]%lookup_insert_Some; [apply Hsafe|by apply (H2 q)].
  - intros q p id x [[-> <-]|[_ Hq]]%lookup_insert_Some; [cbn; by rewrite lookup_empty|by apply (H3 q)].
  - intros id. rewrite msum_insert by done. unfold holds at 1. cbn [held]. rewrite lookup_empty. apply H4.
Qed.

Lemma held_of_lookup es id x : heldOf es !! id = Some x → ∃ e, e ∈ es ∧ EID e = id ∧ Envelope (EFact e) = x.
Proof. intros H%elem_of_list_to_map_2. apply list_elem_of_In, in_map_iff in H as (e & [= <- <-] & He%list_elem_of_In). eauto. Qed.

Lemma claim_moves w pid h limit max token ttl k locked es : world_ok w → publishers w !! pid = Some (mkPublisher (Claim limit max token ttl k) h) →
  es ≡ₚ (claimPendingRows locked (clock w) limit max token ttl (tbl w)).2 →
  world_ok (setPublisher (claimIn w locked limit max token ttl) pid (mkPublisher (k (Ok es)) (heldOf es))).
Proof.
  intros Hok Hp Hperm. pose proof (wo_safe w Hok pid _ Hp) as [Hsafe _]. destruct (claim_in_ok w locked limit max token ttl (wo_table w Hok)) as [Ht He].
  pose proof (claim_spec locked (clock w) limit max token ttl (tbl w)) as Hs. destruct (claimPendingRows locked (clock w) limit max token ttl (tbl w)) as [t' es0] eqn:E.
  cbn [snd] in Hperm. destruct Hs as (Hnd & Hids & Hes & _). assert (map EID es ≡ₚ candidates locked (clock w) limit max (tbl w)) as Hp' by (rewrite <- Hids; by apply Permutation_map).
  eapply publisher_moves; [done|done|done|done|done|done| | |]; cbn [held todo].
  - apply Hsafe. by rewrite Hp'.
  - intros id x (e & Hin & <- & <-)%held_of_lookup. rewrite Hperm in Hin. destruct (Hes e Hin) as (r & Hr & ->). eapply evolves_held; [exact He|eauto].
  - intros id. cbn [claimIn delivered claims]. pose proof (holds_nonneg id (mkPublisher (Claim limit max token ttl k) h)). unfold bump. unfold holds at 1. cbn [held].
    destruct (heldOf es !! id) as [x|] eqn:Eh; [|case_bool_decide; lia]. apply held_of_lookup in Eh as (e & Hin & <- & _).
    rewrite bool_decide_true; [lia|]. rewrite <- Hp'. apply list_elem_of_In, in_map, list_elem_of_In, Hin.
Qed.

Lemma claim_fails_moves w pid h limit max token ttl k locked (committed : bool) err : world_ok w → publishers w !! pid = Some (mkPublisher (Claim limit max token ttl k) h) →
  world_ok (setPublisher (if committed then claimIn w locked limit max token ttl else w) pid (mkPublisher (k (Err err)) ∅)).
Proof.
  intros Hok Hp. pose proof (wo_safe w Hok pid _ Hp) as [_ Hsafe]. destruct (claim_in_ok w locked limit max token ttl (wo_table w Hok)) as [Ht He].
  assert (∀ id, holds id (mkPublisher (k (Err err)) ∅) = 0) as Hz by (intros id; unfold holds; cbn [held]; by rewrite lookup_empty).
  eapply publisher_moves; [done|done|by destruct committed|by destruct committed; [|apply Hok]|destruct committed; [done|apply evolves_refl]|by destruct committed|..]; cbn [held todo].
  - destruct committed; apply Hsafe.
  - intros id x. by rewrite lookup_empty.
  - intros id. rewrite Hz. pose proof (holds_nonneg id (mkPublisher (Claim limit max token ttl k) h)). destruct committed; cbn [claimIn delivered claims]; [|lia].
    unfold bump. case_bool_decide; lia.
Qed.

Lemma count_nil id : countFor id [] = 0.
Proof. done. Qed.

Lemma count_cons id d ds : countFor id (d :: ds) = (if bool_decide (d.2.1 = id) then 1 else 0) + countFor id ds.
Proof. unfold countFor. rewrite filter_cons. case_decide; [rewrite bool_decide_true by done; cbn [length]; lia|rewrite bool_decide_false by done; lia]. Qed.

Lemma count_left stream left : NoDup (map (λ se : string * Entry, EID se.2) left) → ∀ id,
  countFor id (map (λ se, deliveryOf stream se.1 se.2) left) ≤ (if bool_decide (id ∈ map (λ se : string * Entry, EID se.2) left) then 1 else 0).
Proof.
  induction left as [|[sid e] left IH]; cbn [map]; intros Hnd id; [done|]. apply NoDup_cons in Hnd as [Hn Hnd]. specialize (IH Hnd id).
  rewrite count_cons. cbn [snd deliveryOf fst] in *. destruct (decide (EID e = id)) as [<-|Hne].
  - rewrite !bool_decide_true by (done || constructor). rewrite bool_decide_false in IH by done. lia.
  - rewrite bool_decide_false by done. assert (bool_decide (id ∈ EID e :: map (λ se : string * Entry, EID se.2) left) = bool_decide (id ∈ map (λ se : string * Entry, EID se.2) left)) as ->.
    { apply bool_decide_ext. rewrite elem_of_cons. naive_solver. } exact IH.
Qed.

Lemma xadd_moves w pid h stream e k ds k' : world_ok w → publishers w !! pid = Some (mkPublisher (XAdd stream e k) h) →
  ds = [] ∨ (∃ sid, ds = [deliveryOf stream sid e]) → safe (λ d, d ∈ delivered w ++ ds) (delete (EID e) h) k' →
  world_ok (setPublisher (deliverAll w ds) pid (mkPublisher k' (delete (EID e) h))).
Proof.
  intros Hok Hp Hds Hsafe. pose proof (wo_safe w Hok pid _ Hp) as [He _]. cbn [held] in He.
  apply (append_moves w pid _ ds k' (delete (EID e) h) Hok Hp); cbn [held]; [| | |done].
  - intros st sd id x. destruct Hds as [->|[sid ->]]; [intros Hd; by apply elem_of_nil in Hd|]. intros [= -> -> -> ->]%list_elem_of_singleton. done.
  - intros id. unfold holds. cbn [held]. destruct (decide (id = EID e)) as [->|Hne].
    + rewrite lookup_delete_eq, He. destruct Hds as [->|[sid ->]]; rewrite ?count_cons, count_nil; [lia|]. case_bool_decide; lia.
    + rewrite lookup_delete_ne by done. destruct Hds as [->|[sid ->]]; rewrite ?count_cons, count_nil; [lia|]. cbn [deliveryOf snd fst].
      rewrite bool_decide_false by done. lia.
  - intros id x [_ Hx]%lookup_delete_Some. done.
Qed.

Lemma xadd_many_moves w pid h stream es k reply left : world_ok w → publishers w !! pid = Some (mkPublisher (XAddMany stream es k) h) → batchReply es reply left →
  world_ok (setPublisher (deliverAll w (map (λ se, deliveryOf stream se.1 se.2) left)) pid (mkPublisher (k reply) (h ∖ heldOf es))).
Proof.
  intros Hok Hp Hb. pose proof (wo_safe w Hok pid _ Hp) as (Hnd & Hes & Hsafe). cbn [held] in Hes, Hsafe. set (ds := map _ left).
  assert (∀ se, se ∈ left → se.2 ∈ es) as Hsub.
  { intros se Hse. eapply elem_of_sublist; [|apply Hb]. apply list_elem_of_In, in_map, list_elem_of_In, Hse. }
  assert (NoDup (map (λ se : string * Entry, EID se.2) left)) as Hndl.
  { rewrite <- (map_map snd EID). eapply sublist_NoDup; [exact Hnd|]. apply (fmap_sublist EID), Hb. }
  assert (∀ id, heldOf es !! id = None → id ∉ map (λ se : string * Entry, EID se.2) left) as Hout.
  { intros id Hn Hin. apply list_elem_of_In, in_map_iff in Hin as (se & <- & Hse%list_elem_of_In). apply not_elem_of_list_to_map in Hn. apply Hn.
    rewrite map_map. apply list_elem_of_In, in_map_iff. exists se.2. split; [done|]. by apply list_elem_of_In, Hsub. }
  apply (append_moves w pid _ ds (k reply) (h ∖ heldOf es) Hok Hp); cbn [held].
  - intros st sd id x Hd. apply list_elem_of_In, in_map_iff in Hd as ([sid e] & [= <- <- <- <-] & Hse%list_elem_of_In). apply Hes, (Hsub _ Hse).
  - intros id. pose proof (count_left stream left Hndl id) as Hc. unfold holds. cbn [held]. rewrite lookup_difference. destruct (heldOf es !! id) as [x|] eqn:Eh.
    + apply held_of_lookup in Eh as (e & He & <- & _). rewrite (Hes e He). fold ds in Hc. case_bool_decide; lia.
    + fold ds in Hc. rewrite bool_decide_false in Hc by (by apply Hout). destruct (h !! id); lia.
  - intros id x [Hx _]%lookup_difference_Some. done.
  - eapply safe_mono; [|apply (Hsafe reply left Hb)]. intros d [Hd|Hd]; apply elem_of_app; [by left|by right].
Qed.

Lemma log_step_ok w w' : step w w' → world_ok w → world_ok w'.
Proof.
  intros Hstep Hok. destruct Hstep as [w f|w d Hd|w pid batching raw opts Hn|w pid|w pid h k c Hp|w pid h limit max token ttl k locked es Hp Hes|
    w pid h limit max token ttl k locked committed msg Hp|w pid h stream e k sid Hp|w pid h stream e k left msg Hp|w pid h stream es k reply left Hp Hb|
    w pid h id stream sid token k committed reply Hp Hr|w pid h ps token k committed reply Hp Hr|w pid h id cause token k committed reply Hp Hr].
  - by apply append_fact_ok.
  - by destruct Hok as [[] ? ? ?].
  - apply log_start_ok; [done|done|]. intros S. apply publish_pending_safe.
  - by apply crash_ok.
  - pose proof (wo_safe w Hok pid _ Hp) as Hs. replace w with (setTable w (tbl w)) by (by destruct w).
    eapply statement_moves; [done|done|done|apply no_statement_ok, Hok|apply Hs].
  - by eapply claim_moves.
  - by eapply claim_fails_moves.
  - pose proof (wo_safe w Hok pid _ Hp) as (_ & Hs & _). eapply xadd_moves; [done|exact Hp|eauto|].
    eapply safe_mono; [|apply (Hs sid)]. intros d [Hd|Hd]; apply elem_of_app; [by left|right; by apply list_elem_of_singleton].
  - pose proof (wo_safe w Hok pid _ Hp) as (_ & _ & Hs). eapply xadd_moves; [done|exact Hp|destruct left; eauto|].
    eapply safe_mono; [|apply Hs]. intros d Hd. apply elem_of_app. by left.
  - by eapply xadd_many_moves.
  - pose proof (wo_safe w Hok pid _ Hp) as (Ht & Hd & Hs). eapply statement_moves; [done|done|done| |apply Hs].
    destruct committed; [apply mark_published_ok; [apply Hok|done|done]|apply no_statement_ok, Hok].
  - pose proof (wo_safe w Hok pid _ Hp) as (Ht & Hd & Hs). eapply statement_moves; [done|done|done| |apply Hs].
    destruct committed; [apply mark_batch_ok; [done|apply Hok|done]|apply no_statement_ok, Hok].
  - pose proof (wo_safe w Hok pid _ Hp) as (Ht & Hs). eapply statement_moves; [done|done|done| |apply Hs].
    destruct committed; [apply mark_failed_ok; [apply Hok|done]|apply no_statement_ok, Hok].
Qed.

Lemma log_initial_ok : world_ok initial.
Proof.
  split; cbn [initial tbl delivered publishers claims].
  - split; cbn [initial tbl delivered claims takeovers seq]; [intros id r; by rewrite lookup_empty|done|intros id [r Hr]; by rewrite lookup_empty in Hr|].
    intros stream sid id x Hd. by apply elem_of_nil in Hd.
  - intros pid p. by rewrite lookup_empty.
  - intros pid p id x. by rewrite lookup_empty.
  - intros id. by rewrite msum_empty, count_nil.
Qed.

Lemma log_reachable_ok w : reachable w → world_ok w.
Proof. induction 1 as [|w w' _ IH Hs]; [apply log_initial_ok|by eapply log_step_ok]. Qed.

Lemma step_evolves w w' : step w w' → world_ok w → evolves (tbl w) (tbl w').
Proof.
  intros Hstep Hok. destruct Hstep as [w f|w d Hd|w pid batching raw opts Hn|w pid|w pid h k c Hp|w pid h limit max token ttl k locked es Hp Hes|
    w pid h limit max token ttl k locked committed msg Hp|w pid h stream e k sid Hp|w pid h stream e k left msg Hp|w pid h stream es k reply left Hp Hb|
    w pid h id stream sid token k committed reply Hp Hr|w pid h ps token k committed reply Hp Hr|w pid h id cause token k committed reply Hp Hr];
    try apply evolves_refl; try (destruct committed; [|apply evolves_refl]).
  - unfold Append. destruct (existsb _ _); [apply evolves_refl|]. intros id r Hr. exists r. cbn [tbl]. rewrite lookup_insert_ne; [done|].
    intros <-. pose proof (to_seq w (wo_table w Hok) (seq w)). rewrite Hr in H. specialize (H ltac:(eauto)). lia.
  - by apply claim_in_ok, Hok.
  - by apply claim_in_ok, Hok.
  - pose proof (wo_safe w Hok pid _ Hp) as (Ht & Hd & Hs). by apply mark_published_ok; [apply Hok|..].
  - pose proof (wo_safe w Hok pid _ Hp) as (Ht & Hd & Hs). by apply mark_batch_ok; [|apply Hok|].
  - pose proof (wo_safe w Hok pid _ Hp) as (Ht & Hs). by apply mark_failed_ok; [apply Hok|].
Qed.

End World.

(** C21: facts are neither lost, forged nor altered on their way to the stream, and
    duplicates are accounted for. However appends, publishers, crashes, failing
    statements and lost answers interleave: a row marked published is on the stream,
    under the stream and id it records, with its own envelope; whatever is on the
    stream is the envelope of a row; no step removes a fact, changes it, or touches a
    row once it is published; and a row is on the stream at most once more than its
    counted failures and the leases that ran out under a publisher. *)
Theorem facts_reach_the_stream_intact hasResults render w : reachable hasResults render w →
  (∀ id r, tbl w !! id = Some r → publishedAt r ≠ None →
     ∃ stream sid, publishStream r = Some stream ∧ publishStreamID r = Some sid ∧ (stream, sid, (id, Envelope (fact r))) ∈ delivered w) ∧
  (∀ stream sid id x, (stream, sid, (id, x)) ∈ delivered w → ∃ r, tbl w !! id = Some r ∧ Envelope (fact r) = x) ∧
  (∀ w', step hasResults render w w' → evolves (tbl w) (tbl w')) ∧
  (∀ id r, tbl w !! id = Some r → countFor id (delivered w) ≤ 1 + publishAttempts r + takeovers w id).
Proof.
  intros Hr. pose proof (log_reachable_ok hasResults render w Hr) as Hok. split_and!.
  - intros id r Hid. apply (to_rows w (wo_table w Hok) id r Hid).
  - apply Hok.
  - intros w' Hs. by eapply step_evolves.
  - intros id r Hid. destruct (to_rows w (wo_table w Hok) id r Hid) as [_ Hb _ _]. pose proof (wo_claims w Hok id) as Hc.
    pose proof (msum_nonneg (holds id) (publishers w) (holds_nonneg id)). unfold open_ in Hb. destruct (_ && _); lia.
Qed.

(** ** Healthy services *)

Section Healthy.
Context (hasResults : bool) (newID : nat → string) (order : list Entry → list Entry) (now : Z).

(** A program when every call works: ids come from the stream, a claim returns its
    rows in some order. *)
Fixpoint healthy (p : prog answer) (t : table) (ds : list delivery) : answer * (table * list delivery) :=
  match p with
  | Ret a => (a, (t, ds))
  | CtxErr k => healthy (k false) t ds
  | Claim limit max token ttl k => let '(t, es) := claimPendingRows ∅ now limit max token ttl t in healthy (k (Ok (order es))) t ds
  | XAdd stream e k => let sid := newID (length ds) in healthy (k (Ok sid)) t (ds ++ [deliveryOf stream sid e])
  | XAddMany stream es k =>
      let sids := imap (λ i _, newID (length ds + i)) es in
      healthy (k (sids, map (λ _, None) es)) t (ds ++ zip_with (deliveryOf stream) sids es)
  | MarkPublished id stream sid token k => let '(t, n) := markPublished t now id stream sid token in healthy (k (execClaimedUpdate hasResults 1 n)) t ds
  | MarkPublishedBatch ps token k =>
      let '(t, n) := markPublishedBatch t now ps token in healthy (k (execClaimedUpdate hasResults (Z.of_nat (length ps)) n)) t ds
  | MarkPublishFailed id cause token k => let '(t, n) := markPublishFailed t now id "" token in healthy (k (execClaimedUpdate hasResults 1 n)) t ds
  end.

End Healthy.

(** Publishing again and again. *)
Fixpoint drain (hasResults : bool) (newID : nat → string) (order : list Entry → list Entry) (batching : bool) (raw : string) (opts : PublishOptions)
    (nows : list Z) (t : table) (ds : list delivery) : table * list delivery :=
  match nows with
  | [] => (t, ds)
  | now :: rest =>
      let '(_, (t, ds)) := healthy hasResults newID order now (PublishPending batching raw opts) t ds in
      drain hasResults newID order batching raw opts rest t ds
  end.

(** The rows [ids] were published, the others are as they were. *)
Definition marked (t t' : table) (ids : list Z) : Prop :=
  ∀ id, if bool_decide (id ∈ ids) then ∃ r r', t !! id = Some r ∧ t' !! id = Some r' ∧ fact r' = fact r ∧ publishedAt r' ≠ None else t' !! id = t !! id.

Lemma marked_nil t : marked t t [].
Proof. intros id. by rewrite bool_decide_false by apply not_elem_of_nil. Qed.

Lemma marked_cons t t' id r r' ids : t !! id = Some r → fact r' = fact r → publishedAt r' ≠ None → id ∉ ids → marked (<[id := r']> t) t' ids → marked t t' (id :: ids).
Proof.
  intros Hr Hf Hp Hn Hm i. specialize (Hm i). destruct (decide (i = id)) as [->|Hne].
  - rewrite bool_decide_true by constructor. rewrite bool_decide_false in Hm by done. rewrite lookup_insert_eq in Hm. eauto 6.
  - rewrite lookup_insert_ne in Hm by done. erewrite (bool_decide_ext _ (i ∈ ids)); [exact Hm|]. rewrite elem_of_cons. naive_solver.
Qed.

Section Draining.
Context (hasResults : bool) (newID : nat → string) (order : list Entry → list Entry) (now : Z) (stream token : string).
Context (order_perm : ∀ l, order l ≡ₚ l) (token_trimmed : TrimSpace token = token) (token_named : token ≠ "").

Lemma mark_claimed t id sid r : t !! id = Some r → claimedBy token r = true →
  markPublished t now id stream sid token = (<[id := publishedRow now stream sid true r]> t, 1).
Proof. intros Hr Hc. unfold markPublished. rewrite token_trimmed. destruct (String.eqb_spec token ""); [done|]. cbn [negb]. unfold updateRow. by rewrite Hr, Hc. Qed.

Lemma exec_ok want : execClaimedUpdate hasResults want want = None.
Proof. unfold execClaimedUpdate. rewrite Z.eqb_refl. by destruct hasResults. Qed.

(** Rows this publisher has claimed. *)
Definition claimedAll (t : table) (ids : list Z) : Prop := ∀ id, id ∈ ids → ∃ r, t !! id = Some r ∧ claimedBy token r = true.

Lemma claimed_rest t id r ids : id ∉ ids → claimedAll t (id :: ids) → claimedAll (<[id := r]> t) ids.
Proof. intros Hn H i Hi. destruct (H i ltac:(by right)) as (ri & E & Hc). exists ri. split; [|done]. rewrite lookup_insert_ne; [done|]. by intros <-. Qed.

Lemma each_healthy es : NoDup (map EID es) → ∀ t ds result, claimedAll t (map EID es) →
  ∃ t' ds', healthy hasResults newID order now (publishEach stream token es result) t ds =
    ((mkResult (Read result) (Published result + Z.of_nat (length es)) (Failed result), None), (t', ds ++ ds')) ∧
  map snd ds' = map (λ e, (EID e, Envelope (EFact e))) es ∧ marked t t' (map EID es).
Proof.
  induction es as [|e es IH]; intros Hnd t ds result Hc; cbn [map publishEach healthy].
  { exists t, []. rewrite app_nil_r. split_and!; [|done|apply marked_nil]. cbn. destruct result. by rewrite Z.add_0_r. }
  apply NoDup_cons in Hnd as [Hn Hnd]. destruct (Hc (EID e) ltac:(by constructor)) as (r & Hr & Hcl). set (sid := newID (length ds)).
  rewrite (mark_claimed t (EID e) sid r Hr Hcl), exec_ok. set (t1 := <[EID e := _]> t).
  destruct (IH Hnd t1 (ds ++ [deliveryOf stream sid e]) (mkResult (Read result) (Published result + 1) (Failed result))) as (t' & ds' & E & Hm & Hk).
  { by apply claimed_rest. }
  exists t', (deliveryOf stream sid e :: ds'). rewrite E. split_and!.
  - rewrite <- app_assoc. cbn [app Read Published Failed length]. do 3 f_equal. lia.
  - cbn [map]. by rewrite Hm.
  - eapply marked_cons; [exact Hr| | |exact Hn|exact Hk]; done.
Qed.

Lemma batch_marks ps : NoDup (map PID ps) → ∀ t n, claimedAll t (map PID ps) → (∀ p, p ∈ ps → PStream p = stream) →
  ∃ t', foldl (λ tn e, let '(t, m) := markPublished tn.1 now (PID e) (PStream e) (PStreamID e) token in (t, tn.2 + m)) (t, n) ps = (t', n + Z.of_nat (length ps)) ∧
    marked t t' (map PID ps).
Proof.
  induction ps as [|p ps IH]; intros Hnd t n Hc Hs; cbn [map foldl fst snd].
  { exists t. rewrite Z.add_0_r. split; [done|apply marked_nil]. }
  apply NoDup_cons in Hnd as [Hn Hnd]. destruct (Hc (PID p) ltac:(by constructor)) as (r & Hr & Hcl).
  rewrite (Hs p) by constructor. rewrite (mark_claimed t (PID p) (PStreamID p) r Hr Hcl). set (t1 := <[PID p := _]> t).
  destruct (IH Hnd t1 (n + 1)) as (t' & E & Hk); [by apply claimed_rest|intros q Hq; apply Hs; by right|].
  exists t'. rewrite E. split; [cbn [length]; f_equal; lia|]. eapply marked_cons; [exact Hr| | |exact Hn|exact Hk]; done.
Qed.

Lemma finish_healthy (es : list Entry) (sids : list string) : length sids = length es → ∀ ps result t ds,
  healthy hasResults newID order now (finishEach stream token (zip es (zip sids (map (λ _, None) es))) ps result None) t ds =
  healthy hasResults newID order now (sendPublished (ps ++ zip_with (λ e sid, mkPublished (EID e) stream sid) es sids) token
    (λ m, match m with
          | Some err => Ret (mkResult (Read result) (Published result + Z.of_nat (length es)) (Failed result), Some err)
          | None => Ret (mkResult (Read result) (Published result + Z.of_nat (length es)) (Failed result), None)
          end)) t ds.
Proof.
  revert sids. induction es as [|e es IH]; intros [|sid sids] Hl ps result t ds; try done; cbn [map zip zip_with finishEach healthy].
  - rewrite app_nil_r. cbn [length]. destruct result. by rewrite Z.add_0_r.
  - injection Hl as Hl. rewrite IH by done. rewrite <- app_assoc. cbn [app Read Published Failed length].
    replace (Published result + 1 + Z.of_nat (length es)) with (Published result + Z.of_nat (S (length es))) by lia. done.
Qed.

Lemma append_healthy batching es t ds result : NoDup (map EID es) → claimedAll t (map EID es) → Published result = 0 →
  ∃ t' ds', healthy hasResults newID order now
      (if (1 <? Z.of_nat (length es)) && batching then XAddMany stream es (finishPublishPendingBatch stream token es result) else publishEach stream token es result) t ds =
    ((mkResult (Read result) (Z.of_nat (length es)) (Failed result), None), (t', ds ++ ds')) ∧
  map snd ds' = map (λ e, (EID e, Envelope (EFact e))) es ∧ marked t t' (map EID es).
Proof.
  intros Hnd Hc Hz. destruct (_ && batching) eqn:Eb.
  2: { destruct (each_healthy es Hnd t ds result Hc) as (t' & ds' & E & H1 & H2). exists t', ds'. rewrite E, Hz. by split_and!. }
  apply andb_prop in Eb as [Eb%Z.ltb_lt _]. cbn [healthy]. set (sids := imap _ es). assert (length sids = length es) as Hl by apply length_imap.
  unfold finishPublishPendingBatch. rewrite Hl, length_map, Nat.eqb_refl. cbn [negb orb]. rewrite finish_healthy by done. cbn [app].
  set (ps := zip_with _ es sids).
  assert (map PID ps = map EID es) as Hps.
  { unfold ps. clearbody sids. clear -Hl. revert sids Hl. induction es as [|e es IH]; intros [|sid sids] Hl; try done. cbn. f_equal. apply IH. by injection Hl. }
  assert (∀ p, p ∈ ps → PStream p = stream) as Hst.
  { intros p Hp. apply elem_of_lookup_zip_with_1 in Hp as (i & e & sid & -> & _). done. }
  destruct (batch_marks ps ltac:(by rewrite Hps) t 0 ltac:(by rewrite Hps) Hst) as (t' & E & Hm).
  assert (length ps = length es) as Hlp by (rewrite <- (length_map PID ps), Hps; apply length_map).
  exists t', (zip_with (deliveryOf stream) sids es). rewrite Hps in Hm. split_and!; [| |done].
  - assert (∃ p q l, ps = p :: q :: l) as (p & q & l & Ep) by (destruct ps as [|p [|q l]]; [cbn in Hlp; lia..|eauto]).
    unfold sendPublished. rewrite Ep. cbn [healthy]. rewrite <- Ep. unfold markPublishedBatch. rewrite E, Z.add_0_l, exec_ok. cbn [healthy]. by rewrite Hz.
  - clearbody sids. clear -Hl. revert sids Hl. induction es as [|e es IH]; intros [|sid sids] Hl; try done. cbn. f_equal. apply IH. by injection Hl.
Qed.

End Draining.

Definition pendingIds (max : Z) (t : table) : list Z := merge_sort Z.le (map fst (map_to_list (filter (λ ir, pending max ir.2 = true) t))).

Lemma pending_ids_spec max t : StronglySorted Z.le (pendingIds max t) ∧ NoDup (pendingIds max t) ∧
  ∀ id, id ∈ pendingIds max t ↔ ∃ r, t !! id = Some r ∧ pending max r = true.
Proof.
  unfold pendingIds. split_and!; [apply (StronglySorted_merge_sort Z.le)|rewrite (merge_sort_Permutation Z.le); apply NoDup_fst_map_to_list|].
  intros id. rewrite (merge_sort_Permutation Z.le), list_elem_of_In, in_map_iff. split.
  - intros ([i r] & <- & Hin%list_elem_of_In). apply elem_of_map_to_list, map_lookup_filter_Some in Hin. eauto.
  - intros (r & Hr). exists (id, r). split; [done|]. apply list_elem_of_In, elem_of_map_to_list, map_lookup_filter_Some. done.
Qed.

Lemma candidates_free now limit max t : (∀ id r, t !! id = Some r → pending max r = true → leaseFree now r = true) →
  candidates ∅ now limit max t = take (Z.to_nat limit) (pendingIds max t).
Proof.
  intros H. unfold candidates, firstIds, pendingIds. do 4 f_equal. apply map_filter_ext. intros id r Hr. cbn.
  specialize (H id r Hr). destruct (pending max r); [|done]. rewrite H by done. rewrite bool_decide_true by set_solver. done.
Qed.

Lemma sorted_ids_unique l k : StronglySorted Z.le l → StronglySorted Z.le k → NoDup l → NoDup k → (∀ id : Z, id ∈ l ↔ id ∈ k) → l = k.
Proof. intros Hl Hk Nl Nk H. apply (StronglySorted_unique Z.le); [done|done|]. by apply NoDup_Permutation. Qed.

(** Publishing takes the rows it marks off the front of the pending ones. *)
Lemma marked_pending max t t' n : marked t t' (take n (pendingIds max t)) → pendingIds max t' = drop n (pendingIds max t).
Proof.
  intros Hm. destruct (pending_ids_spec max t) as (S1 & N1 & M1). destruct (pending_ids_spec max t') as (S2 & N2 & M2).
  pose proof (take_drop n (pendingIds max t)) as Etd. set (a := take n _) in *. set (b := drop n _) in *.
  rewrite <- Etd in S1, N1, M1. apply NoDup_app in N1 as (Na & Hd & Nb).
  apply sorted_ids_unique; [done| |done|done|].
  - eapply sorted_sublist; [|exact S1]. by apply sublist_inserts_l.
  - intros id. rewrite M2. specialize (Hm id). specialize (M1 id). rewrite elem_of_app in M1. case_bool_decide as Hin.
    + destruct Hm as (r & r' & _ & Hr' & _ & Hp). split; [|intros Hb; by destruct (Hd id Hin)]. intros (r1 & Hr1 & Hpe). assert (r1 = r') as -> by congruence.
      unfold pending in Hpe. by rewrite bool_decide_false in Hpe.
    + rewrite Hm. split; [intros H; apply M1 in H; tauto|intros Hb; apply M1; by right].
Qed.

Definition tokenOf (raw : string) (opts : PublishOptions) : string :=
  if String.eqb (TrimSpace (OClaimToken opts)) "" then newClaimToken raw else TrimSpace (OClaimToken opts).

Lemma token_of_ok raw opts : TrimSpace (tokenOf raw opts) = tokenOf raw opts ∧ tokenOf raw opts ≠ "".
Proof.
  unfold tokenOf. destruct (String.eqb_spec (TrimSpace (OClaimToken opts)) ""); [apply new_claim_token_plain|]. by rewrite trim_space_idemp.
Qed.

Section Rounds.
Context (hasResults : bool) (newID : nat → string) (order : list Entry → list Entry) (order_perm : ∀ l, order l ≡ₚ l).
Context (batching : bool) (raw : string) (opts : PublishOptions) (named : TrimSpace (OStream opts) ≠ "").

Definition roundLimit : nat := Z.to_nat (normalizeLimit (OLimit opts)).
Definition roundMax : Z := normalizeMaxAttempts (OMaxAttempts opts).

(** The entries put on the stream are the rows [ids], with their envelopes. *)
Definition carries (t : table) (ds : list delivery) (ids : list Z) : Prop :=
  map (λ d : delivery, d.2.1) ds ≡ₚ ids ∧ ∀ d, d ∈ ds → ∃ r, t !! d.2.1 = Some r ∧ Envelope (fact r) = d.2.2.

Lemma round_healthy now t ds : (∀ id r, t !! id = Some r → pending roundMax r = true → leaseFree now r = true) →
  let ids := take roundLimit (pendingIds roundMax t) in
  ∃ t' ds', healthy hasResults newID order now (PublishPending batching raw opts) t ds =
    ((mkResult (Z.of_nat (length ids)) (Z.of_nat (length ids)) 0, None), (t', ds ++ ds')) ∧ carries t ds' ids ∧ marked t t' ids.
Proof.
  intros Hfree ids. unfold PublishPending. destruct (String.eqb_spec (TrimSpace (OStream opts)) ""); [done|]. fold (tokenOf raw opts) roundMax.
  destruct (token_of_ok raw opts) as [Ht Hne]. set (token := tokenOf raw opts) in *. cbn [healthy].
  pose proof (claim_spec ∅ now (normalizeLimit (OLimit opts)) roundMax token (normalizeClaimTTL (OClaimTTL opts)) t) as Hs.
  destruct (claimPendingRows _ _ _ _ _ _ t) as [t1 es0]. cbn zeta in Hs. rewrite (candidates_free now _ roundMax t Hfree) in Hs. fold roundLimit ids in Hs.
  destruct Hs as (Hnd & Hids & Hes & Hl). set (es := order es0). assert (map EID es ≡ₚ ids) as Hp by (rewrite <- Hids; apply Permutation_map, order_perm).
  assert (∀ id, id ∈ ids → ∃ r, t !! id = Some r ∧ pending roundMax r = true) as Hrow.
  { intros id Hid. apply (pending_ids_spec roundMax t). eapply elem_of_sublist; [exact Hid|apply sublist_take]. }
  destruct (append_healthy hasResults newID order now (TrimSpace (OStream opts)) token Ht Hne batching es t1 ds (mkResult (Z.of_nat (length es)) 0 0)) as (t' & ds' & E & Hd & Hm).
  { by rewrite Hp. }
  { intros id Hid. rewrite Hp in Hid. destruct (Hrow id Hid) as (r & Hr & Hpe). rewrite Hl, bool_decide_true, Hr by done. eexists. split; [done|].
    unfold claimedBy. cbn. unfold pending in Hpe. apply andb_prop in Hpe as [-> _]. cbn. by apply bool_decide_eq_true_2. }
  { done. }
  assert (length es = length ids) as Hlen by (rewrite <- (length_map EID es); by apply Permutation_length).
  exists t', ds'. rewrite E. cbn [Read Failed]. rewrite Hlen. split_and!; [done|split|].
  - rewrite <- (map_map snd fst), Hd, map_map. exact Hp.
  - intros d Hin. assert (d.2 ∈ map snd ds') as Hin' by (apply list_elem_of_In, in_map, list_elem_of_In, Hin). rewrite Hd in Hin'.
    apply list_elem_of_In, in_map_iff in Hin' as (e & <- & He%list_elem_of_In). unfold es in He. rewrite order_perm in He. cbn.
    destruct (Hes e He) as (r & Hr & ->). eauto.
  - intros id. specialize (Hm id). specialize (Hl id). erewrite (bool_decide_ext (id ∈ map EID es) (id ∈ ids)) in Hm by (by rewrite Hp).
    case_bool_decide; [|by rewrite Hm]. destruct Hm as (r1 & r' & Hr1 & Hr' & Hf & Hpub). rewrite Hl in Hr1. destruct (t !! id) as [r|]; [|done].
    injection Hr1 as <-. exists r, r'. done.
Qed.

Lemma drained nows : ∀ t ds, (∀ now id r, now ∈ nows → t !! id = Some r → pending roundMax r = true → leaseFree now r = true) →
  let n := (roundLimit * length nows)%nat in let ids := take n (pendingIds roundMax t) in
  ∃ t' ds', drain hasResults newID order batching raw opts nows t ds = (t', ds ++ ds') ∧ carries t ds' ids ∧ marked t t' ids ∧
    pendingIds roundMax t' = drop n (pendingIds roundMax t).
Proof.
  induction nows as [|now nows IH]; intros t ds Hfree n ids; cbn [drain].
  { exists t, []. unfold ids, n. cbn [length]. rewrite Nat.mul_0_r, app_nil_r. cbn [take drop]. split_and!; [done|split; [done|]|apply marked_nil|done].
    intros d Hd. by apply elem_of_nil in Hd. }
  destruct (round_healthy now t ds) as (t1 & ds1 & E & [C1 C2] & Hm).
  { intros id r. apply (Hfree now). constructor. }
  rewrite E. pose proof (marked_pending roundMax t t1 roundLimit Hm) as Hp1. set (first := take roundLimit (pendingIds roundMax t)) in *.
  destruct (IH t1 (ds ++ ds1)) as (t' & ds2 & E2 & [D1 D2] & Hm2 & Hp2).
  { intros now' id r Hn Hr Hpe. specialize (Hm id). case_bool_decide; [destruct Hm as (r0 & r' & _ & Hr' & _ & Hpub)|].
    - assert (r' = r) as -> by congruence. unfold pending in Hpe. by rewrite bool_decide_false in Hpe.
    - rewrite Hm in Hr. apply (Hfree now' id r); [by right|done|done]. }
  rewrite Hp1 in D1, Hm2, Hp2. set (rest := take _ _) in D1, Hm2.
  assert (ids = first ++ rest) as Eids.
  { unfold ids, first, rest, n. cbn [length]. rewrite Nat.mul_succ_r, Nat.add_comm. symmetry. apply take_take_drop. }
  exists t', (ds1 ++ ds2). rewrite E2, <- app_assoc, Eids. split_and!; [done|split|..].
  - rewrite map_app. by rewrite C1, D1.
  - intros d [Hd|Hd]%elem_of_app; [by apply C2|]. destruct (D2 d Hd) as (r & Hr & He). specialize (Hm (d.2.1)). case_bool_decide; [|rewrite Hm in Hr; eauto].
    destruct Hm as (r0 & r' & Hr0 & Hr' & Hf & _). exists r0. split; [done|]. rewrite <- He. assert (r' = r) as -> by congruence. by rewrite Hf.
  - intros id. specialize (Hm id). specialize (Hm2 id). rewrite (bool_decide_ext (id ∈ first ++ rest) (id ∈ first ∨ id ∈ rest)) by apply elem_of_app.
    destruct (bool_decide_reflect (id ∈ first)) as [H1|H1], (bool_decide_reflect (id ∈ rest)) as [H2|H2].
    + rewrite bool_decide_true by auto. destruct Hm as (r & r' & A1 & A2 & A3 & A4), Hm2 as (s & s' & B1 & B2 & B3 & B4). exists r, s'. split_and!; [done|done|congruence|done].
    + rewrite bool_decide_true by auto. destruct Hm as (r & r' & A1 & A2 & A3 & A4). exists r, r'. split_and!; [done|congruence|done|done].
    + rewrite bool_decide_true by auto. rewrite Hm in Hm2. exact Hm2.
    + rewrite bool_decide_false by tauto. congruence.
  - rewrite Hp2. unfold n. cbn [length]. rewrite drop_drop, Nat.mul_succ_r. f_equal. lia.
Qed.

End Rounds.

(** C22: once the services work again every waiting fact is delivered. From any table
    whatsoever, as crashes and failures may have left it, when the leases have run out:
    rounds of [PublishPending] put exactly the next pending rows by id on the stream,
    each once, with their own envelopes, a full batch per round; mark them published and leave every other row alone; and
    when the rounds cover the backlog nothing is left pending. *)
Theorem pending_facts_drain hasResults newID order batching raw opts nows t ds :
  (∀ l, order l ≡ₚ l) → TrimSpace (OStream opts) ≠ "" →
  let max := normalizeMaxAttempts (OMaxAttempts opts) in let n := (Z.to_nat (normalizeLimit (OLimit opts)) * length nows)%nat in
  (∀ now id r, now ∈ nows → t !! id = Some r → pending max r = true → leaseFree now r = true) →
  let ids := take n (pendingIds max t) in
  ∃ t' ds', drain hasResults newID order batching raw opts nows t ds = (t', ds ++ ds') ∧ carries t ds' ids ∧ marked t t' ids ∧
    pendingIds max t' = drop n (pendingIds max t) ∧ ((length (pendingIds max t) ≤ n)%nat → pendingIds max t' = []).
Proof.
  intros Ho Hs max n Hfree ids. destruct (drained hasResults newID order Ho batching raw opts Hs nows t ds Hfree) as (t' & ds' & E & Hc & Hm & Hp).
  exists t', ds'. split_and!; [done|done|done|done|]. intros Hn. etrans; [exact Hp|]. by apply drop_ge.
Qed.

Definition demoFact (id : string) : Fact := mkFact id "order:create:success" "org" "c1" "v1" "json" ("bytes of " +:+ id) 5.
Definition demoOptions : PublishOptions := mkOptions " facts " "" 2 0 0 "me".
Definition demoTable : table := foldl (λ t i, (Append t i 0 (demoFact (String.String (ascii_of_nat (Z.to_nat (64 + i))) ""))).1.1) ∅ [1; 2; 3].

Lemma pending_facts_drain_witness :
  ∃ t' ds', drain true (λ _, "sid") (@reverse Entry) true "" demoOptions [10; 20] demoTable [] = (t', ds') ∧
    map (λ d : delivery, d.2.1) ds' ≡ₚ [1; 2; 3] ∧ pendingIds 25 t' = [].
Proof.
  assert (∀ l : list Entry, reverse l ≡ₚ l) as Ho by (intros l; apply reverse_Permutation).
  destruct (pending_facts_drain true (λ _, "sid") (@reverse Entry) true "" demoOptions [10; 20] demoTable [] Ho ltac:(by vm_compute)) as (t' & ds' & E & [Hc _] & _ & _ & Hp).
  { intros now id r _ Hr _. assert (map_Forall (λ _ r, claimExpiresAt r = None) demoTable) as Hall by (apply (bool_decide_unpack _); vm_compute; exact I).
    unfold leaseFree. by rewrite (Hall id r Hr). }
  exists t', ds'. split_and!; [exact E|exact Hc|]. apply Hp. vm_compute. lia.
Defined.

Lemma facts_reach_the_stream_intact_witness :
  ∃ w r, reachable true (λ _, "") w ∧ tbl w !! 1 = Some r ∧ publishedAt r = Some 0 ∧ (publishStream r, publishStreamID r) = (Some "facts", Some "0-1") ∧
    ("facts", "0-1", (1, "bytes of A")) ∈ delivered w ∧ countFor 1 (delivered w) ≤ 1 + publishAttempts r + takeovers w 1.
Proof.
  eassert (reachable true (λ _, "") _) as R1 by (eapply reach_step; [apply reach_start|apply (append_step _ _ _ (demoFact "A"))]).
  eassert (reachable true (λ _, "") _) as R2 by (eapply reach_step; [exact R1|apply (start_step _ _ _ 0%nat false "" demoOptions); reflexivity]).
  eassert (reachable true (λ _, "") _) as R3 by (eapply reach_step; [exact R2|eapply (claim_step _ _ _ 0%nat _ _ _ _ _ _ ∅); [reflexivity|reflexivity]]).
  eassert (reachable true (λ _, "") _) as R4 by (eapply reach_step; [exact R3|eapply (ctx_step _ _ _ 0%nat _ _ false); reflexivity]).
  eassert (reachable true (λ _, "") _) as R5 by (eapply reach_step; [exact R4|eapply (xadd_step _ _ _ 0%nat _ _ _ _ "0-1"); reflexivity]).
  eassert (reachable true (λ _, "") _) as R6 by (eapply reach_step; [exact R5|eapply (mark_step _ _ _ 0%nat); [reflexivity|apply reply_ran]]).
  match type of R6 with reachable _ _ ?w => exists w end. eexists. split; [exact R6|].
  destruct (facts_reach_the_stream_intact true (λ _, "") _ R6) as (H1 & _ & _ & H4). split; [reflexivity|]. split; [reflexivity|]. split; [reflexivity|].
  split; [|apply (H4 1); reflexivity]. destruct (H1 1 _ eq_refl) as (stream & sid & E1 & E2 & Hd); [done|]. vm_compute in E1, E2. injection E1 as <-. injection E2 as <-. exact Hd.
Defined.

(** ** Findings *)

(** A batch that is cancelled after it was appended reports entries as published, but
    marks none of them: all are appended again when the lease has run out. *)
Theorem cancelled_batch_marks_nothing stream token e1 e2 sid1 sid2 :
  ∃ k k', finishPublishPendingBatch stream token [e1; e2] (mkResult 2 0 0) ([sid1; sid2], [None; None]) = CtxErr k ∧
    k false = CtxErr k' ∧ k' true = Ret (mkResult 2 1 0, Some ErrContext).
Proof. eexists _, _. split_and!; reflexivity. Qed.

(** A row of a batch whose claim was lost is reported as published. *)
Theorem lost_claim_is_reported_published :
  let t := (claimPendingRows ∅ 0 2 25 "me" DefaultClaimTTL demoTable).1 in
  let t := <[2 := claimRow 40000000 90000000 "other" (mkRow (demoFact "B") 0 None None None 0 None None None None 0)]> t in
  let es := [scanPendingEntry 1 (mkRow (demoFact "A") 0 None None None 0 None None None None 0); scanPendingEntry 2 (mkRow (demoFact "B") 0 None None None 0 None None None None 0)] in
  let '(r, (t', _)) := healthy true (λ _, "sid") id 40000000 (XAddMany "facts" es (finishPublishPendingBatch "facts" "me" es (mkResult 2 0 0))) t [] in
  r = (mkResult 2 2 0, Some ErrPublishClaimLost) ∧ (publishedAt <$> t' !! 1) = Some (Some 40000000) ∧ (publishedAt <$> t' !! 2) = Some None.
Proof. vm_compute. split_and!; reflexivity. Qed.

(** The message of a failure is cut at a byte: the cut can fall inside a character,
    and the text stored is then no longer valid UTF-8. *)
Theorem truncated_error_splits_a_character :
  let message := String.concat "" (replicate 2047 "a") +:+ String (ascii_of_nat 195) (String (ascii_of_nat 169) "") in
  String.get 2047 (errorMessage (λ _, message) ErrContext) = Some (ascii_of_nat 195) ∧ String.length (errorMessage (λ _, message) ErrContext) = 2048%nat.
Proof. vm_compute. split; reflexivity. Qed.
