(* ===== verification/WorkerDedupe.v ===== *)
(** * WorkerDedupe: replay protection of the worker engine (src/server-kit/go/worker/dedupe.go)

    Successful idempotency keys with a fixed time to live: a map for lookups and a
    queue in insertion order for expiry and eviction, whose consumed front is a head
    index until it is compacted away. Every method runs under the set's lock; instants
    are nanoseconds. *)

From Stdlib Require Import ZArith Lia String Sorting.Sorted.
From stdpp Require Import base strings gmap fin_maps fin_sets numbers sorting list.
From S2P Require Import Prelude.

Open Scope string_scope.
Open Scope list_scope.
Open Scope Z_scope.

Definition dedupeTTL : Z := 24 * 3600 * 1000000000.

Abbreviation dedupeEntry := (string * Z)%type.

Record dedupeSet := mkDedupe { entries : gmap string Z; order : list dedupeEntry; head : nat; dmax : Z }.

Definition newDedupeSet (maxEntries : Z) : dedupeSet := mkDedupe ∅ [] 0 maxEntries.

Definition has (d : dedupeSet) (key : string) (now : Z) : dedupeSet * bool :=
  match entries d !! key with
  | None => (d, false)
  | Some expiry => if expiry <? now then (mkDedupe (delete key (entries d)) (order d) (head d) (dmax d), false) else (d, true)
  end.

(** One turn of [popLocked]. *)
Definition popFront (d : dedupeSet) (front : dedupeEntry) : dedupeSet :=
  mkDedupe (if bool_decide (entries d !! front.1 = Some front.2) then delete front.1 (entries d) else entries d)
    (<[head d := ("", 0)]> (order d)) (S (head d)) (dmax d).

(** [popLocked]; the fuel is the length of the queue. *)
Fixpoint popLoop (fuel : nat) (more : dedupeSet → dedupeEntry → bool) (d : dedupeSet) : dedupeSet :=
  match fuel with
  | O => d
  | S fuel =>
      match order d !! head d with
      | Some front => if more d front then popLoop fuel more (popFront d front) else d
      | None => d
      end
  end.

Definition popLocked (more : dedupeSet → dedupeEntry → bool) (d : dedupeSet) : dedupeSet := popLoop (length (order d)) more d.

Definition compactLocked (d : dedupeSet) : dedupeSet :=
  if (1024 <? head d)%nat && (length (order d) <? head d * 2)%nat then mkDedupe (entries d) (drop (head d) (order d)) 0 (dmax d) else d.

Definition overfull (d : dedupeSet) (_ : dedupeEntry) : bool := dmax d <? Z.of_nat (size (entries d)).

Definition mark (d : dedupeSet) (key : string) (now : Z) : dedupeSet :=
  let expiry := now + dedupeTTL in
  compactLocked (popLocked overfull (mkDedupe (<[key := expiry]> (entries d)) (order d ++ [(key, expiry)]) (head d) (dmax d))).

Definition prune (d : dedupeSet) (now : Z) : dedupeSet := compactLocked (popLocked (λ _ front, front.2 <? now) d).

Definition len (d : dedupeSet) : Z := Z.of_nat (size (entries d)).

(** ** Histories *)

Inductive event := Mark (key : string) (now : Z) | Has (key : string) (now : Z) | Prune (now : Z).

Definition instant (e : event) : Z := match e with Mark _ now => now | Has _ now => now | Prune now => now end.

Definition dedupeStep (d : dedupeSet) (e : event) : dedupeSet :=
  match e with Mark key now => mark d key now | Has key now => (has d key now).1 | Prune now => prune d now end.

Definition dedupeRun (max : Z) (es : list event) : dedupeSet := foldl dedupeStep (newDedupeSet max) es.

(** The marks of a history. *)
Definition marks (es : list event) : list (string * Z) := omap (λ e, match e with Mark key now => Some (key, now) | _ => None end) es.

(** [max] other keys were marked no earlier than [t]. *)
Definition displaced (max : Z) (M : list (string * Z)) (key : string) (t : Z) : Prop :=
  ∃ L : list string, NoDup L ∧ (key ∉ L) ∧ max ≤ Z.of_nat (length L) ∧ ∀ x, x ∈ L → ∃ t', (x, t') ∈ M ∧ t ≤ t'.

(** *** The part of the queue still in use *)

Definition live (d : dedupeSet) : list dedupeEntry := drop (head d) (order d).

Record queue_ok (max c : Z) (M : list (string * Z)) (d : dedupeSet) : Prop := {
  qo_max : dmax d = max;
  qo_head : (head d ≤ length (order d))%nat;
  qo_in : ∀ k e, entries d !! k = Some e → (k, e) ∈ live d;
  qo_sorted : StronglySorted (λ a b : dedupeEntry, a.2 ≤ b.2) (live d);
  qo_from : ∀ k e, (k, e) ∈ live d → (k, e - dedupeTTL) ∈ M;
  qo_last : ∀ k e t, entries d !! k = Some e → (k, t) ∈ M → t ≤ e - dedupeTTL;
  qo_gone : ∀ k t, entries d !! k = None → (k, t) ∈ M → t + dedupeTTL < c ∨ displaced max M k t;
  qo_clock : ∀ k t, (k, t) ∈ M → t ≤ c
}.

Lemma displaced_mono max M M' k t t' : (∀ x, x ∈ M → x ∈ M') → t' ≤ t → displaced max M k t → displaced max M' k t'.
Proof. intros HM Ht (L & H1 & H2 & H3 & H4). exists L. split_and!; [done|done|done|]. intros x Hx. destruct (H4 x Hx) as (u & Hu & Hle). exists u. split; [auto|lia]. Qed.

Lemma pop_live d front : order d !! head d = Some front → live d = front :: live (popFront d front) ∧ (head (popFront d front) ≤ length (order (popFront d front)))%nat.
Proof.
  intros H. pose proof (lookup_lt_Some _ _ _ H). unfold live, popFront. cbn [order head]. rewrite (drop_S _ _ _ H), drop_insert_lt by lia. rewrite length_insert. split; [done|lia].
Qed.

(** Dropping the front keeps the books when its key, if it goes, has expired or was
    displaced. *)
Lemma pop_ok max c M d front : queue_ok max c M d → order d !! head d = Some front →
  (entries d !! front.1 = Some front.2 → front.2 < c ∨ displaced max M front.1 (front.2 - dedupeTTL)) → queue_ok max c M (popFront d front).
Proof.
  intros [H1 H2 H3 H4 H5 H6 H7 H8] Hf Hgone. destruct (pop_live d front Hf) as [El Hh]. rewrite El in H3, H4, H5. apply StronglySorted_inv in H4 as [H4 _].
  destruct front as [fk fe]. cbn [fst snd] in *.
  assert (∀ k e, entries (popFront d (fk, fe)) !! k = Some e → entries d !! k = Some e ∧ (k, e) ≠ (fk, fe)) as Hsub.
  { intros k e. unfold popFront. cbn [entries fst snd]. case_bool_decide as Hb; [rewrite lookup_delete_Some; intros [Hne He]; split; [done|congruence]|].
    intros He. split; [done|]. intros [= -> ->]. done. }
  split; [done|done| | | | | |done].
  - intros k e He. destruct (Hsub k e He) as [He' Hne]. by destruct (proj1 (elem_of_cons _ _ _) (H3 k e He')).
  - done.
  - intros k e He. apply H5. by right.
  - intros k e t He. apply H6. by apply Hsub.
  - intros k t. unfold popFront. cbn [entries fst snd]. case_bool_decide as Hb; [|apply H7]. rewrite lookup_delete_None. intros [<-|He] Hm; [|by apply H7].
    destruct (Hgone Hb) as [Hx|Hx]; [left; specialize (H6 fk fe t Hb Hm); lia|right; eapply displaced_mono; [done| |exact Hx]]. by apply (H6 fk fe).
Qed.

Lemma pop_loop_ok max c M more : (∀ d front, queue_ok max c M d → order d !! head d = Some front → more d front = true →
    entries d !! front.1 = Some front.2 → front.2 < c ∨ displaced max M front.1 (front.2 - dedupeTTL)) →
  ∀ fuel d, queue_ok max c M d → queue_ok max c M (popLoop fuel more d).
Proof.
  intros Hmore. induction fuel as [|fuel IH]; intros d Hd; cbn [popLoop]; [done|]. destruct (order d !! head d) as [front|] eqn:E; [|done].
  destruct (more d front) eqn:Em; [|done]. apply IH. apply pop_ok; [done|done|]. by apply Hmore.
Qed.

Lemma pop_stops more : ∀ fuel d, (length (live d) ≤ fuel)%nat → let d' := popLoop fuel more d in live d' = [] ∨ ∃ front, order d' !! head d' = Some front ∧ more d' front = false.
Proof.
  induction fuel as [|fuel IH]; intros d Hl; cbn [popLoop]; [left; by apply nil_length_inv, Nat.le_0_r|]. destruct (order d !! head d) as [front|] eqn:E.
  - destruct (more d front) eqn:Em; [|eauto]. apply IH. destruct (pop_live d front E) as [El _]. rewrite El in Hl. cbn [length] in Hl. lia.
  - left. apply lookup_ge_None in E. by apply drop_ge.
Qed.

Lemma dedupe_compact_ok max c M d : queue_ok max c M d → queue_ok max c M (compactLocked d).
Proof.
  intros [H1 H2 H3 H4 H5 H6 H7 H8]. unfold compactLocked. destruct (_ && _); [|done]. set (d' := mkDedupe _ _ _ _). assert (live d' = live d) as E by (unfold live; cbn; apply drop_0).
  split; rewrite ?E; try done. cbn. lia.
Qed.

Lemma overfull_displaces max c M d front : queue_ok max c M d → order d !! head d = Some front → overfull d front = true →
  entries d !! front.1 = Some front.2 → displaced max M front.1 (front.2 - dedupeTTL).
Proof.
  intros [H1 H2 H3 H4 H5 H6 H7 H8] Hf Hov%Z.ltb_lt He. destruct (pop_live d front Hf) as [El _]. rewrite El in H4, H3. apply StronglySorted_inv in H4 as [_ Hmin].
  set (rest := delete front.1 (entries d)). assert (size (entries d) = S (size rest)) as Hsz.
  { unfold rest. rewrite map_size_delete_Some by eauto. assert (size (entries d) ≠ 0)%nat; [|lia]. rewrite map_size_ne_0_lookup. eauto. }
  exists (map fst (map_to_list rest)). split_and!.
  - apply NoDup_fst_map_to_list.
  - rewrite list_elem_of_In, in_map_iff. intros ([k e] & Ek & Hin%list_elem_of_In). cbn in Ek. subst k. apply elem_of_map_to_list, lookup_delete_Some in Hin as [? _]. done.
  - rewrite length_map, length_map_to_list. lia.
  - intros x. rewrite list_elem_of_In, in_map_iff. intros ([k e] & <- & Hin%list_elem_of_In). apply elem_of_map_to_list, lookup_delete_Some in Hin as [Hne Hk]. cbn.
    specialize (H3 k e Hk). exists (e - dedupeTTL). split; [apply H5; by rewrite El|]. apply elem_of_cons in H3 as [<-|Hin]; [done|].
    rewrite Forall_forall in Hmin. specialize (Hmin _ Hin). cbn in Hmin. lia.
Qed.

Lemma live_length d : (length (live d) ≤ length (order d))%nat.
Proof. unfold live. rewrite length_drop. lia. Qed.

Lemma marked_ok max c M d key now : queue_ok max c M d → c ≤ now →
  queue_ok max now (M ++ [(key, now)]) (mkDedupe (<[key := now + dedupeTTL]> (entries d)) (order d ++ [(key, now + dedupeTTL)]) (head d) (dmax d)).
Proof.
  intros [H1 H2 H3 H4 H5 H6 H7 H8] Hc. set (e := now + dedupeTTL). set (d' := mkDedupe _ _ _ _).
  assert (live d' = live d ++ [(key, e)]) as El by (unfold live; cbn; by rewrite drop_app_le by done).
  assert (∀ k t, (k, t) ∈ M ++ [(key, now)] ↔ (k, t) ∈ M ∨ (k = key ∧ t = now)) as HM by (intros k t; rewrite elem_of_app, list_elem_of_singleton; naive_solver).
  split; rewrite ?El; cbn [d' dmax head order entries].
  - done.
  - rewrite length_app. lia.
  - intros k x. destruct (decide (k = key)) as [->|]; [rewrite lookup_insert_eq; intros [= <-]; apply elem_of_app; right; by apply list_elem_of_singleton|].
    rewrite lookup_insert_ne by done. intros Hk. apply elem_of_app. left. by apply H3.
  - apply StronglySorted_app_2; [|done|repeat constructor]. intros [k x] y Hx Hy%list_elem_of_singleton. subst y. cbn. specialize (H5 k x Hx). apply H8 in H5. unfold e. lia.
  - intros k x [Hx|Hx%list_elem_of_singleton]%elem_of_app; apply HM; [left; by apply H5|right]. injection Hx as -> ->. unfold e. split; [done|lia].
  - intros k x t Hk Ht%HM. destruct (decide (k = key)) as [->|]; [rewrite lookup_insert_eq in Hk; injection Hk as <-|rewrite lookup_insert_ne in Hk by done].
    + unfold e. destruct Ht as [Ht|[_ ->]]; [specialize (H8 _ _ Ht)|]; lia.
    + destruct Ht as [Ht|[-> _]]; [by apply (H6 k)|done].
  - intros k t Hk Ht%HM. destruct (decide (k = key)) as [->|]; [by rewrite lookup_insert_eq in Hk|rewrite lookup_insert_ne in Hk by done].
    destruct Ht as [Ht|[-> _]]; [|done]. destruct (H7 k t Hk Ht) as [?|Hd]; [left; lia|right]. eapply displaced_mono; [|reflexivity|exact Hd]. intros x Hx. apply elem_of_app. by left.
  - intros k t Ht%HM. destruct Ht as [Ht|[_ ->]]; [specialize (H8 _ _ Ht)|]; lia.
Qed.

Lemma later_ok max c c' M d : queue_ok max c M d → c ≤ c' → queue_ok max c' M d.
Proof.
  intros [H1 H2 H3 H4 H5 H6 H7 H8] Hc. split; try done; [|intros k t Ht; specialize (H8 k t Ht); lia].
  intros k t Hk Ht. destruct (H7 k t Hk Ht) as [?|?]; [left; lia|by right].
Qed.

Lemma mark_ok max c M d key now : 0 ≤ max → queue_ok max c M d → c ≤ now → queue_ok max now (M ++ [(key, now)]) (mark d key now) ∧ len (mark d key now) ≤ max.
Proof.
  intros Hmax Hok Hc. unfold mark. set (d1 := mkDedupe _ _ _ _). pose proof (marked_ok max c M d key now Hok Hc) as Hd1. fold d1 in Hd1.
  assert (queue_ok max now (M ++ [(key, now)]) (popLocked overfull d1)) as Hd2.
  { apply pop_loop_ok; [|done]. intros d' front Hd' Hf Hm He. right. by eapply overfull_displaces. }
  split; [by apply dedupe_compact_ok|]. assert (len (compactLocked (popLocked overfull d1)) = len (popLocked overfull d1)) as -> by (unfold compactLocked; by destruct (_ && _)).
  pose proof (pop_stops overfull (length (order d1)) d1 (live_length d1)) as Hs. cbn zeta in Hs. change (popLoop (length (order d1)) overfull d1) with (popLocked overfull d1) in Hs.
  unfold len. destruct Hs as [Hl|(front & Hf & Hm)].
  - destruct (decide (entries (popLocked overfull d1) = ∅)) as [->|Hne]; [rewrite map_size_empty; lia|]. apply map_choose in Hne as (k & x & Hk).
    apply (qo_in _ _ _ _ Hd2) in Hk. rewrite Hl in Hk. by apply elem_of_nil in Hk.
  - rewrite <- (qo_max _ _ _ _ Hd2). apply Z.ltb_ge. exact Hm.
Qed.

Lemma pop_shrinks more : ∀ fuel d, entries (popLoop fuel more d) ⊆ entries d.
Proof.
  induction fuel as [|fuel IH]; intros d; cbn [popLoop]; [done|]. destruct (order d !! head d) as [front|]; [|done]. destruct (more d front); [|done].
  etrans; [apply IH|]. unfold popFront. cbn [entries]. case_bool_decide; [apply delete_subseteq|done].
Qed.

Lemma dedupe_prune_ok max c M d now : queue_ok max c M d → c ≤ now → queue_ok max now M (prune d now) ∧ len (prune d now) ≤ len d.
Proof.
  intros Hok Hc. unfold prune. split.
  - apply dedupe_compact_ok, pop_loop_ok; [|by eapply later_ok]. intros d' front _ _ Hm _. left. by apply Z.ltb_lt.
  - assert (∀ d', len (compactLocked d') = len d') as -> by (intros d'; unfold compactLocked; by destruct (_ && _)).
    unfold len. apply Nat2Z.inj_le, map_subseteq_size, pop_shrinks.
Qed.

Lemma has_ok max c M d key now : queue_ok max c M d → c ≤ now → let '(d', b) := has d key now in
  queue_ok max now M d' ∧ len d' ≤ len d ∧ (b = true → ∃ t, (key, t) ∈ M ∧ t ≤ now ≤ t + dedupeTTL) ∧
  (b = false → ∀ t, (key, t) ∈ M → t + dedupeTTL < now ∨ displaced max M key t).
Proof.
  intros Hok0 Hc. pose proof (later_ok max c now M d Hok0 Hc) as Hok. unfold has. destruct (entries d !! key) as [e|] eqn:E.
  2: { split_and!; [done|done|done|]. intros _ t. by apply (qo_gone _ _ _ _ Hok). }
  destruct (Z.ltb_spec e now) as [He|He].
  - assert (∀ t, (key, t) ∈ M → t + dedupeTTL < now) as Hexp by (intros t Ht; pose proof (qo_last _ _ _ _ Hok key e t E Ht); lia).
    split_and!; [|unfold len; apply Nat2Z.inj_le, map_subseteq_size, delete_subseteq|done|intros _ t Ht; left; by apply Hexp].
    destruct Hok as [H1 H2 H3 H4 H5 H6 H7 H8]. split; try done; cbn [entries].
    + intros k x [_ Hk]%lookup_delete_Some. by apply H3.
    + intros k x t [_ Hk]%lookup_delete_Some. by apply H6.
    + intros k t [<-|Hk]%lookup_delete_None Ht; [left; by apply Hexp|by apply H7].
  - split_and!; [done|done| |done]. intros _. exists (e - dedupeTTL). pose proof (qo_from _ _ _ _ Hok key e (qo_in _ _ _ _ Hok key e E)) as Hm.
    split; [done|]. pose proof (qo_clock _ _ _ _ Hok _ _ Hm). lia.
Qed.

(** The clock of a history does not run backwards. *)
Fixpoint clocked (from : Z) (es : list event) : Prop :=
  match es with [] => True | e :: es => from ≤ instant e ∧ clocked (instant e) es end.

Lemma clocked_app es : ∀ from e, clocked from (es ++ [e]) → clocked from es ∧ (∀ c, c = foldl (λ _ e, instant e) from es → c ≤ instant e).
Proof.
  induction es as [|x es IH]; intros from e; cbn [app clocked foldl]; [by intros [? _]; split; [|intros c ->]|]. intros [H1 H2].
  destruct (IH _ _ H2) as [H3 H4]. done.
Qed.

Lemma run_queue_ok max es : 0 ≤ max → ∀ from, clocked from es → ∃ c, c = foldl (λ _ e, instant e) from es ∧
  queue_ok max c (marks es) (dedupeRun max es) ∧ len (dedupeRun max es) ≤ max.
Proof.
  intros Hmax. induction es as [|e es IH] using rev_ind; intros from Hcl.
  { exists from. split_and!; [done| |change (Z.of_nat (size (∅ : gmap string Z)) ≤ max); rewrite map_size_empty; lia].
    split; cbn [marks dedupeRun foldl newDedupeSet dmax head order entries omap list_omap live length]; [done|lia|intros k e; by rewrite lookup_empty|constructor|..].
    all: try (intros k e t; by rewrite lookup_empty). all: intros k e; intros; by match goal with H : _ ∈ [] |- _ => apply elem_of_nil in H | H : _ ∈ live _ |- _ => apply elem_of_nil in H end. }
  destruct (clocked_app es from e Hcl) as [Hes Hle]. destruct (IH from Hes) as (c & Ec & Hok & Hl). exists (instant e). rewrite foldl_app. split; [done|].
  specialize (Hle c Ec). unfold dedupeRun, marks. rewrite foldl_app, omap_app. fold (dedupeRun max es) (marks es). cbn [foldl omap list_omap].
  destruct e as [key now|key now|now]; cbn [dedupeStep instant] in *.
  - by eapply mark_ok.
  - rewrite app_nil_r. pose proof (has_ok max c (marks es) (dedupeRun max es) key now Hok Hle) as Hh. destruct (has _ key now) as [d' b]. destruct Hh as (H1 & H2 & _). split; [done|]. cbn. lia.
  - rewrite app_nil_r. destruct (dedupe_prune_ok max c (marks es) (dedupeRun max es) now Hok Hle). split; [done|lia].
Qed.

(** Replay protection is exact. After any history of marks, checks and sweeps, in
    the order of the clock: the set holds at most [max] keys; a key it reports was
    marked within the last day; and a key it does not report has not been marked within
    the last day, or [max] other keys have been marked since, the oldest going first. *)
Theorem dedupe_window_exact max es key now from : 0 ≤ max → clocked from (es ++ [Has key now]) →
  len (dedupeRun max es) ≤ max ∧
  ((has (dedupeRun max es) key now).2 = true → ∃ t, (key, t) ∈ marks es ∧ t ≤ now ≤ t + dedupeTTL) ∧
  ((has (dedupeRun max es) key now).2 = false → ∀ t, (key, t) ∈ marks es → t + dedupeTTL < now ∨ displaced max (marks es) key t).
Proof.
  intros Hmax Hcl. destruct (clocked_app es from _ Hcl) as [Hes Hle]. destruct (run_queue_ok max es Hmax from Hes) as (c & Ec & Hok & Hl). split; [done|].
  pose proof (has_ok max c (marks es) (dedupeRun max es) key now Hok (Hle c Ec)) as H. destruct (has _ key now) as [d b]. cbn [snd]. tauto.
Qed.

Lemma dedupe_window_exact_witness :
  let es := [Mark "mail:1" 5; Mark "mail:2" 6; Prune 7; Mark "mail:3" 8] in
  clocked 0 (es ++ [Has "mail:3" 9]) ∧ (has (dedupeRun 2 es) "mail:3" 9).2 = true ∧ (∃ t, ("mail:3", t) ∈ marks es ∧ t ≤ 9 ≤ t + dedupeTTL) ∧
  (has (dedupeRun 2 es) "mail:1" 9).2 = false ∧ displaced 2 (marks es) "mail:1" 5.
Proof.
  intros es. assert (clocked 0 (es ++ [Has "mail:3" 9])) as H3 by (cbn; lia). assert (clocked 0 (es ++ [Has "mail:1" 9])) as H1 by (cbn; lia).
  split_and!; [done|vm_compute; reflexivity| |vm_compute; reflexivity|].
  - apply (dedupe_window_exact 2 es "mail:3" 9 0); [lia|done|vm_compute; reflexivity].
  - destruct (dedupe_window_exact 2 es "mail:1" 9 0 ltac:(lia) H1) as (_ & _ & H). destruct (H ltac:(vm_compute; reflexivity) 5 ltac:(apply list_elem_of_In; vm_compute; tauto)) as [He|He]; [|exact He].
    vm_compute in He. discriminate He.
Defined.

(** The instant of a mark is read before the lock is taken: an overtaken mark
    shortens the window of the key. *)
Theorem overtaken_mark_shortens_window :
  let d := dedupeRun 10 [Mark "k" 10; Mark "k" 5] in (has d "k" (9 + dedupeTTL)).2 = false ∧ (has (dedupeRun 10 [Mark "k" 10]) "k" (9 + dedupeTTL)).2 = true.
Proof. vm_compute. split; reflexivity. Qed.
