(* ===== verification/Worker.v ===== *)
(** * Worker: jobs, retries and the in-memory engine (src/server-kit/go/worker/job.go, engine.go, health.go, maplet.go, predictor.go)

    Jobs enter bounded queues, workers take them one at a time, skip replays
    ([WorkerDedupe]), run the processor and retry with backoff in their own hands. The
    engine's methods are functions on [Engine]; [world] adds the workers, the clock and
    the context, and [step] interleaves them at every point where the code lets go of a
    lock, waits or calls a processor. What a processor answers is an input. The engine
    without a River client is modelled. *)

From Stdlib Require Import ZArith Lia Ascii String Sorting.Sorted.
From stdpp Require Import base strings gmap fin_maps fin_sets numbers pretty sorting list.
From S2P Require Import Prelude GoStrings Extension WorkerDedupe.

Open Scope string_scope.
Open Scope list_scope.
Open Scope Z_scope.

Definition defaultQueueCapacity : Z := 1024.
Definition queueScaleThreshold : Z := defaultQueueCapacity / 2.
Definition maxAdaptiveWorkers : Z := 64.
Definition maxDedupeEntries : Z := 100000.
Definition maxJobHealthEntries : Z := 10000.
Definition DefaultJobTimeoutMS : Z := 30000.

(** ** Jobs *)

(** The zero time is 0. *)
Record Job := mkJob {
  JID : string; JobKind : string; Queue : string; Metadata : Object; CorrelationID : string; IdempotencyKey : string;
  Attempt : Z; MaxAttempts : Z; ScheduledAt : Z; CreatedAt : Z; TimeoutMS : Z
}.

Inductive job_error := ErrKindRequired | ErrQueueRequired | ErrMaxAttempts | ErrAttemptExceeds | ErrProcessorRequired
| ErrNoProcessor (kind : string) | ErrQueueUnknown (queue : string) | ErrWrongQueue (kind : string) | ErrQueueFull (queue : string) | ErrContext
| ErrHandler (message : string) (timedOut : bool).

(** A float of metadata as a positive int, when it is one. *)
Section Jobs.
Context (floatInt : Z → option Z) (formatTime : Z → string).

Definition positiveInt (v : Value) : option Z :=
  match v with
  | VInt z | VUint z => if (0 <? z) && (z <=? maxInt64) then Some z else None
  | VFloat bits => floatInt bits
  | _ => None
  end.

Fixpoint positiveIntFromMetadata (metadata : Object) (keys : list string) : Z :=
  match keys with
  | [] => 0
  | key :: rest =>
      match mapGet metadata key with
      | Some v => match positiveInt v with Some z => z | None => positiveIntFromMetadata metadata rest end
      | None => positiveIntFromMetadata metadata rest
      end
  end.

Definition Normalize (now : Z) (j : Job) : Job :=
  let timeout := if TimeoutMS j <=? 0 then positiveIntFromMetadata (Metadata j) ["timeout_ms"; "timeoutMs"; "job_timeout_ms"; "jobTimeoutMs"] else TimeoutMS j in
  mkJob (JID j) (JobKind j) (if String.eqb (TrimSpace (Queue j)) "" then "default" else Queue j) (Metadata j) (CorrelationID j) (IdempotencyKey j)
    (if Attempt j <? 0 then 0 else Attempt j) (if MaxAttempts j <=? 0 then 3 else MaxAttempts j) (ScheduledAt j)
    (if CreatedAt j =? 0 then now else CreatedAt j) (if timeout <=? 0 then DefaultJobTimeoutMS else timeout).

Definition Validate (j : Job) : option job_error :=
  if String.eqb (TrimSpace (JobKind j)) "" then Some ErrKindRequired
  else if String.eqb (TrimSpace (Queue j)) "" then Some ErrQueueRequired
  else if MaxAttempts j <=? 0 then Some ErrMaxAttempts
  else if MaxAttempts j <? Attempt j then Some ErrAttemptExceeds
  else None.

Definition millisecond : Z := 1000000.

(** A duration is 64 bits wide, so the product of a huge timeout wraps. *)
Definition Timeout (j : Job) : Z := i64 ((if TimeoutMS j <=? 0 then DefaultJobTimeoutMS else TimeoutMS j) * millisecond).

(** The doubling loop of [NextBackoff]; the fuel is the number of attempts. *)
Fixpoint backoffLoop (fuel : nat) (attempt upto backoff max : Z) : Z :=
  match fuel with
  | O => backoff
  | S fuel => if (attempt <? upto) && (backoff <? max) then backoffLoop fuel (attempt + 1) upto (Z.min (backoff * 2) max) max else backoff
  end.

Definition backoffBase (j : Job) : Z :=
  let max := 30000 * millisecond in Z.min (backoffLoop (Z.to_nat (Attempt j)) 1 (Attempt j) (250 * millisecond) max) max.

(** [NextBackoff]; [random]: what [rand.Int63n] returned for half the backoff. *)
Definition NextBackoff (j : Job) (random : Z) : Z := backoffBase j + (random - backoffBase j / 4).

Definition HealthKey (j : Job) : string :=
  if negb (String.eqb (TrimSpace (JID j)) "") then TrimSpace (JID j)
  else if negb (String.eqb (TrimSpace (CorrelationID j)) "") then "corr:" +:+ TrimSpace (CorrelationID j)
  else if negb (String.eqb (TrimSpace (IdempotencyKey j)) "") then "idem:" +:+ TrimSpace (IdempotencyKey j)
  else TrimSpace (Queue j) +:+ ":" +:+ TrimSpace (JobKind j) +:+ ":" +:+ formatTime (CreatedAt j).

Definition dedupeKey (j : Job) : string :=
  if negb (String.eqb (IdempotencyKey j) "") then JobKind j +:+ ":" +:+ IdempotencyKey j
  else match mapGet (Metadata j) "idempotency_key" with
       | Some (VString v) => if negb (String.eqb v "") then JobKind j +:+ ":" +:+ v else ""
       | _ => ""
       end.

(** ** Health *)

Inductive JobHealthState := JobHealthQueued | JobHealthProcessing | JobHealthRetryScheduled | JobHealthSucceeded | JobHealthTimedOut
| JobHealthFailedExhausted | JobHealthDroppedNoProcessor | JobHealthRejectedQueueFull | JobHealthDeduped.

Record JobHealthSnapshot := mkHealth {
  HKey : string; HKind : string; HQueue : string; HState : JobHealthState; HAttempt : Z; HMaxAttempts : Z; HTimeoutMS : Z; HCorrelationID : string;
  HLastError : option job_error; HScheduledAt : Z; HStartedAt : Z; HFinishedAt : Z; HUpdatedAt : Z
}.

Record health := mkHealthState { jobHealth : gmap string JobHealthSnapshot; healthOrder : list string }.

(** The eviction loop; the fuel is the length of the order. *)
Fixpoint evictOldest (fuel : nat) (h : health) : health :=
  match fuel, healthOrder h with
  | S fuel, oldest :: rest =>
      if maxJobHealthEntries <=? Z.of_nat (size (jobHealth h)) then evictOldest fuel (mkHealthState (delete oldest (jobHealth h)) rest) else h
  | _, _ => h
  end.

Definition recordHealth (h : health) (now : Z) (j : Job) (state : JobHealthState) (err : option job_error) (startedAt finishedAt : Z) : health :=
  let key := HealthKey j in
  if String.eqb key "" then h
  else
    let known := jobHealth h !! key in
    let h := match known with
             | Some _ => h
             | None => evictOldest (S (length (healthOrder h))) (mkHealthState (jobHealth h) (healthOrder h ++ [key]))
             end in
    let old f zero := match known with Some s => f s | None => zero end in
    let snapshot := mkHealth key (JobKind j) (Queue j) state (Attempt j) (MaxAttempts j) (Timeout j `quot` millisecond) (CorrelationID j)
      (match err with Some _ => err | None => match known with Some s => HLastError s | None => None end end) (ScheduledAt j)
      (if startedAt =? 0 then old HStartedAt 0 else startedAt) (if finishedAt =? 0 then old HFinishedAt 0 else finishedAt) now in
    mkHealthState (<[key := snapshot]> (jobHealth h)) (healthOrder h).

(** ** The engine *)

Record Processor := mkProcessor { PKind : string; PQueue : string }.

(** A job that was accepted, with the number it was accepted under. *)
Record ticket := mkTicket { tid : nat; tjob : Job }.

Record Engine := mkEngine {
  processors : gmap string Processor; queues : gmap string (list ticket); workers : gmap string Z; dedupe : dedupeSet; jobs : health
}.

Definition NewEngine (queueWorkers : gmap string Z) : Engine :=
  mkEngine ∅ ∅ (filter (λ qc, 0 < qc.2) queueWorkers) (newDedupeSet maxDedupeEntries) (mkHealthState ∅ []).

Definition Register (e : Engine) (p : Processor) : Engine * option job_error :=
  if String.eqb (PKind p) "" then (e, Some ErrKindRequired)
  else
    (mkEngine (<[PKind p := p]> (processors e))
       (match queues e !! PQueue p with Some _ => queues e | None => <[PQueue p := []]> (queues e) end)
       (match workers e !! PQueue p with Some _ => workers e | None => <[PQueue p := 1]> (workers e) end) (dedupe e) (jobs e), None).

Definition setHealth (e : Engine) (h : health) : Engine := mkEngine (processors e) (queues e) (workers e) (dedupe e) h.

(** [EnqueueTx]; [id]: the number of an accepted job; [cancelled]: the caller's context
    is done; [pickDone]: what the select picks when it is and the queue has room as well. *)
Definition EnqueueTx (e : Engine) (id : nat) (now : Z) (cancelled pickDone : bool) (job : Job) : Engine * option job_error :=
  let job := Normalize now job in
  match Validate job with
  | Some err => (e, Some err)
  | None =>
      let e := setHealth e (recordHealth (jobs e) now job JobHealthQueued None 0 0) in
      let reject e state err := (setHealth e (recordHealth (jobs e) now job state (Some err) 0 now), Some err) in
      match processors e !! JobKind job with
      | None => reject e JobHealthDroppedNoProcessor (ErrNoProcessor (JobKind job))
      | Some p =>
          match queues e !! Queue job with
          | None => reject e JobHealthDroppedNoProcessor (ErrQueueUnknown (Queue job))
          | Some q =>
              if negb (String.eqb (PQueue p) (Queue job)) then reject e JobHealthDroppedNoProcessor (ErrWrongQueue (JobKind job))
              else if Z.of_nat (length q) <? defaultQueueCapacity then
                if cancelled && pickDone then (e, Some ErrContext)
                else (mkEngine (processors e) (<[Queue job := q ++ [mkTicket id job]]> (queues e)) (workers e) (dedupe e) (jobs e), None)
              else if cancelled then (e, Some ErrContext)
              else reject e JobHealthRejectedQueueFull (ErrQueueFull (Queue job))
          end
      end
  end.

(** What becomes of a job once a worker is done with it. *)
Inductive fate := Succeeded | Exhausted | Deduplicated | Dropped.

#[global] Instance fate_eq_dec : EqDecision fate.
Proof. solve_decision. Defined.

(** [handleJob] up to the processor: it ends the job, waits for its time, or runs it. Its
    readings of the clock are one instant. *)
Inductive beginning := Ends (f : fate) | Sleeps | Starts.

Definition beginJob (e : Engine) (now : Z) (j : Job) : Engine * beginning :=
  match processors e !! JobKind j with
  | None => (setHealth e (recordHealth (jobs e) now j JobHealthDroppedNoProcessor (Some (ErrNoProcessor (JobKind j))) 0 now), Ends Dropped)
  | Some _ =>
      let key := dedupeKey j in
      let '(d, replay) := if String.eqb key "" then (dedupe e, false) else has (dedupe e) key now in
      let e := mkEngine (processors e) (queues e) (workers e) d (jobs e) in
      if replay then (setHealth e (recordHealth (jobs e) now j JobHealthDeduped None 0 now), Ends Deduplicated)
      else if negb (ScheduledAt j =? 0) && (now <? ScheduledAt j) then (e, Sleeps)
      else (e, Starts)
  end.

Definition startJob (e : Engine) (now : Z) (j : Job) : Engine := setHealth e (recordHealth (jobs e) now j JobHealthProcessing None now 0).

(** [handleJob] after the processor answered: the job's next form when it is retried. *)
Definition finishJob (e : Engine) (startedAt now random : Z) (j : Job) (err : option job_error) : Engine * (fate + Job) :=
  match err with
  | Some cause =>
      let timedOut := match cause with ErrHandler _ b => b | _ => false end in
      let withAttempt a at_ := mkJob (JID j) (JobKind j) (Queue j) (Metadata j) (CorrelationID j) (IdempotencyKey j) a (MaxAttempts j) at_ (CreatedAt j) (TimeoutMS j) in
      let j := withAttempt (Attempt j + 1) (ScheduledAt j) in
      if MaxAttempts j <=? Attempt j then
        (setHealth e (recordHealth (jobs e) now j (if timedOut then JobHealthTimedOut else JobHealthFailedExhausted) (Some cause) startedAt now), inl Exhausted)
      else
        let j := withAttempt (Attempt j) (now + NextBackoff j random) in
        (setHealth e (recordHealth (jobs e) now j JobHealthRetryScheduled (Some cause) startedAt now), inr j)
  | None =>
      let d := if String.eqb (dedupeKey j) "" then dedupe e else mark (dedupe e) (dedupeKey j) now in
      let e := mkEngine (processors e) (queues e) (workers e) d (jobs e) in
      (setHealth e (recordHealth (jobs e) now j JobHealthSucceeded None startedAt now), inl Succeeded)
  end.

End Jobs.

(** ** Lists kept in a map *)

Section MapConcat.
Context {K V A : Type} `{Countable K} (f : V → list A).

Definition mcat (m : gmap K V) : list A := concat (map (λ kv, f kv.2) (map_to_list m)).

Lemma mcat_insert m k v : m !! k = None → mcat (<[k := v]> m) ≡ₚ f v ++ mcat m.
Proof. intros E. unfold mcat. assert (map_to_list (<[k := v]> m) ≡ₚ (k, v) :: map_to_list m) as -> by (by apply map_to_list_insert). done. Qed.

Lemma mcat_lookup m k v : m !! k = Some v → mcat m ≡ₚ f v ++ mcat (delete k m).
Proof. intros E. rewrite <- (insert_delete_id m k v) at 1 by done. apply mcat_insert, lookup_delete_eq. Qed.

Lemma mcat_update m k v : mcat (<[k := v]> m) ≡ₚ f v ++ mcat (delete k m).
Proof. rewrite <- insert_delete_eq. apply mcat_insert, lookup_delete_eq. Qed.

Lemma mcat_in m k v x : m !! k = Some v → x ∈ f v → x ∈ mcat m.
Proof. intros E Hx. rewrite (mcat_lookup m k v E). apply elem_of_app. by left. Qed.

Lemma mcat_elem m x : x ∈ mcat m → ∃ k v, m !! k = Some v ∧ x ∈ f v.
Proof.
  unfold mcat. rewrite list_elem_of_In, in_concat. intros (l & (kv & <- & Hin%list_elem_of_In)%in_map_iff & Hx%list_elem_of_In).
  destruct kv as [k v]. apply elem_of_map_to_list in Hin. eauto.
Qed.

End MapConcat.

(** ** Workers *)

(** What a worker holds: nothing, a job it just took (or takes up again after its
    backoff), a job whose time has not come, a running job, a job backing off. *)
Inductive hand := Waiting | Taken (t : ticket) | Sleeping (t : ticket) | Running (t : ticket) (startedAt : Z) | BackingOff (t : ticket) | Stopped.

Definition inHand (h : hand) : list ticket :=
  match h with Taken t | Sleeping t | Running t _ | BackingOff t => [t] | Waiting | Stopped => [] end.

(** [accepted]: the jobs as they were accepted; [runs]: how often the processor was
    called for each; [events]: the calls the replay protection has seen. *)
Record world := mkWorld {
  eng : Engine; hands : gmap nat (string * hand); clock : Z; stopping : bool;
  accepted : list ticket; finished : list (nat * fate); abandoned : list nat; runs : nat → Z; events : list event
}.

Definition queued (e : Engine) : list ticket := mcat id (queues e).
Definition handed (hs : gmap nat (string * hand)) : list ticket := mcat (λ qh, inHand qh.2) hs.

Section Steps.
Context (floatInt : Z → option Z) (formatTime : Z → string).

Definition setHand (w : world) (i : nat) (q : string) (h : hand) : world :=
  mkWorld (eng w) (<[i := (q, h)]> (hands w)) (clock w) (stopping w) (accepted w) (finished w) (abandoned w) (runs w) (events w).
Definition setEngine (w : world) (e : Engine) : world :=
  mkWorld e (hands w) (clock w) (stopping w) (accepted w) (finished w) (abandoned w) (runs w) (events w).
Definition addEvents (w : world) (es : list event) : world :=
  mkWorld (eng w) (hands w) (clock w) (stopping w) (accepted w) (finished w) (abandoned w) (runs w) (events w ++ es).
Definition endTicket (w : world) (id : nat) (f : fate) : world :=
  mkWorld (eng w) (hands w) (clock w) (stopping w) (accepted w) (finished w ++ [(id, f)]) (abandoned w) (runs w) (events w).
Definition abandon (w : world) (ts : list ticket) : world :=
  mkWorld (eng w) (hands w) (clock w) (stopping w) (accepted w) (finished w) (abandoned w ++ map tid ts) (runs w) (events w).
Definition countRun (w : world) (id : nat) : world :=
  mkWorld (eng w) (hands w) (clock w) (stopping w) (accepted w) (finished w) (abandoned w) (λ i, if decide (i = id) then runs w i + 1 else runs w i) (events w).

(** What the replay protection sees of a job that begins, and of one that succeeds. *)
Definition hasEvent (now : Z) (j : Job) : list event := if String.eqb (dedupeKey j) "" then [] else [Has (dedupeKey j) now].
Definition markEvent (now : Z) (j : Job) : list event := if String.eqb (dedupeKey j) "" then [] else [Mark (dedupeKey j) now].

(** A worker runs the job it holds. *)
Definition runTicket (w : world) (i : nat) (q : string) (t : ticket) : world :=
  setHand (countRun (setEngine w (startJob formatTime (eng w) (clock w) (tjob t))) (tid t)) i q (Running t (clock w)).

Inductive step : world → world → Prop :=
| register_step w p e err : Register (eng w) p = (e, err) → step w (setEngine w e)
| enqueue_ok w cancelled pick job e : EnqueueTx floatInt formatTime (eng w) (length (accepted w)) (clock w) cancelled pick job = (e, None) →
    step w (mkWorld e (hands w) (clock w) (stopping w) (accepted w ++ [mkTicket (length (accepted w)) (Normalize floatInt (clock w) job)])
      (finished w) (abandoned w) (runs w) (events w))
| enqueue_refused w cancelled pick job e err : EnqueueTx floatInt formatTime (eng w) (length (accepted w)) (clock w) cancelled pick job = (e, Some err) → step w (setEngine w e)
| tick_step w d : 0 ≤ d → step w (mkWorld (eng w) (hands w) (clock w + d) (stopping w) (accepted w) (finished w) (abandoned w) (runs w) (events w))
| cancel_step w : step w (mkWorld (eng w) (hands w) (clock w) true (accepted w) (finished w) (abandoned w) (runs w) (events w))
| spawn_step w i q : hands w !! i = None → step w (setHand w i q Waiting)
| take_step w i q t rest : hands w !! i = Some (q, Waiting) → queues (eng w) !! q = Some (t :: rest) →
    step w (setHand (setEngine w (mkEngine (processors (eng w)) (<[q := rest]> (queues (eng w))) (workers (eng w)) (dedupe (eng w)) (jobs (eng w)))) i q (Taken t))
| begin_ends w i q t e f : hands w !! i = Some (q, Taken t) → beginJob formatTime (eng w) (clock w) (tjob t) = (e, Ends f) →
    step w (setHand (endTicket (addEvents (setEngine w e) (if decide (f = Dropped) then [] else hasEvent (clock w) (tjob t))) (tid t) f) i q Waiting)
| begin_sleeps w i q t e : hands w !! i = Some (q, Taken t) → beginJob formatTime (eng w) (clock w) (tjob t) = (e, Sleeps) →
    step w (setHand (addEvents (setEngine w e) (hasEvent (clock w) (tjob t))) i q (Sleeping t))
| begin_starts w i q t e : hands w !! i = Some (q, Taken t) → beginJob formatTime (eng w) (clock w) (tjob t) = (e, Starts) →
    step w (runTicket (addEvents (setEngine w e) (hasEvent (clock w) (tjob t))) i q t)
| wake_step w i q t : hands w !! i = Some (q, Sleeping t) → ScheduledAt (tjob t) ≤ clock w → step w (runTicket w i q t)
| finish_ends w i q t s random err e f : hands w !! i = Some (q, Running t s) → finishJob formatTime (eng w) s (clock w) random (tjob t) err = (e, inl f) →
    step w (setHand (endTicket (addEvents (setEngine w e) (if decide (f = Succeeded) then markEvent (clock w) (tjob t) else [])) (tid t) f) i q Waiting)
| finish_retries w i q t s random err e j : hands w !! i = Some (q, Running t s) → finishJob formatTime (eng w) s (clock w) random (tjob t) err = (e, inr j) →
    step w (setHand (setEngine w e) i q (BackingOff (mkTicket (tid t) j)))
| retry_step w i q t : hands w !! i = Some (q, BackingOff t) → step w (setHand w i q (Taken t))
| stop_step w i q h : hands w !! i = Some (q, h) → stopping w = true → (∀ t s, h ≠ Running t s) → step w (setHand (abandon w (inHand h)) i q Stopped).

Definition initial (queueWorkers : gmap string Z) : world := mkWorld (NewEngine queueWorkers) ∅ 0 false [] [] [] (λ _, 0) [].

Inductive reachable (queueWorkers : gmap string Z) : world → Prop :=
| reach_start : reachable queueWorkers (initial queueWorkers)
| reach_step w w' : reachable queueWorkers w → step w w' → reachable queueWorkers w'.

(** *** Health is bounded and forgets the oldest *)

Record health_ok (h : health) : Prop := {
  ho_bound : Z.of_nat (size (jobHealth h)) ≤ maxJobHealthEntries;
  ho_nodup : NoDup (healthOrder h);
  ho_keys : ∀ k, k ∈ healthOrder h ↔ is_Some (jobHealth h !! k)
}.

(** With one key in the order that the map does not have yet. *)
Lemma evict_oldest_ok m key l : ∀ fuel, (length l < fuel)%nat → NoDup (l ++ [key]) → m !! key = None → (∀ k, k ∈ l ↔ is_Some (m !! k)) → Z.of_nat (size m) ≤ maxJobHealthEntries →
  ∃ n, let h := evictOldest fuel (mkHealthState m (l ++ [key])) in healthOrder h = drop n l ++ [key] ∧ jobHealth h !! key = None ∧
  (∀ k, k ∈ drop n l ↔ is_Some (jobHealth h !! k)) ∧ Z.of_nat (size (jobHealth h)) < maxJobHealthEntries.
Proof.
  revert m. induction l as [|x l IH]; intros m [|fuel] Hf Hnd Hk Hkeys Hsz; try (cbn in Hf; lia); cbn [evictOldest healthOrder app jobHealth].
  - exists 0%nat. assert (m = ∅) as -> by (apply map_empty; intros k; apply eq_None_not_Some; intros Hs; apply Hkeys in Hs; by apply elem_of_nil in Hs).
    rewrite map_size_empty. change (maxJobHealthEntries <=? Z.of_nat 0) with false. cbn [healthOrder jobHealth drop app].
    split_and!; [done|done|intros k; by rewrite lookup_empty, elem_of_nil, is_Some_alt|by rewrite map_size_empty].
  - apply NoDup_cons in Hnd as [Hx Hnd]. destruct (Z.leb_spec maxJobHealthEntries (Z.of_nat (size m))) as [Hge|Hlt].
    2: { exists 0%nat. cbn [healthOrder jobHealth drop app]. done. }
    assert (is_Some (m !! x)) as Hxm by (apply Hkeys; by constructor). rewrite elem_of_app in Hx.
    destruct (IH (delete x m) fuel) as (n & I1 & I2 & I3 & I4).
    + cbn in Hf. lia.
    + done.
    + by rewrite lookup_delete_None; right.
    + intros k. destruct (decide (k = x)) as [->|Hne]; [rewrite lookup_delete_eq; split; [tauto|by intros [? ?]]|]. rewrite lookup_delete_ne by done. rewrite <- Hkeys, elem_of_cons. naive_solver.
    + rewrite map_size_delete_Some by done. lia.
    + exists (S n). cbn [drop]. done.
Qed.

Lemma record_health_ok h now j state err s f : health_ok h → health_ok (recordHealth formatTime h now j state err s f).
Proof.
  intros [H1 H2 H3]. unfold recordHealth. destruct (String.eqb (HealthKey formatTime j) ""); [done|]. set (key := HealthKey formatTime j). set (snap := mkHealth _ _ _ _ _ _ _ _ _ _ _ _ _).
  clearbody snap. destruct (jobHealth h !! key) as [old|] eqn:E.
  - split; cbn [jobHealth healthOrder]; [by rewrite map_size_insert_Some by eauto|done|]. intros k. rewrite H3.
    destruct (decide (k = key)) as [->|]; [rewrite lookup_insert_eq, E; split; eauto|by rewrite lookup_insert_ne].
  - assert (key ∉ healthOrder h) as Hn by (rewrite H3, E; by intros [? ?]).
    destruct (evict_oldest_ok (jobHealth h) key (healthOrder h) (S (length (healthOrder h)))) as (n & I1 & I2 & I3 & I4); [lia| |done|done|done|].
    { apply NoDup_app. split_and!; [done|intros x Hx ->%list_elem_of_singleton; done|apply NoDup_singleton]. }
    set (h' := evictOldest _ _) in *. split; cbn [jobHealth healthOrder].
    + rewrite map_size_insert_None by done. lia.
    + rewrite I1. apply NoDup_app. split_and!; [eapply sublist_NoDup; [exact H2|apply sublist_drop]| |apply NoDup_singleton].
      intros x Hx ->%list_elem_of_singleton. apply I3 in Hx. rewrite I2 in Hx. by destruct Hx.
    + intros k. rewrite I1, elem_of_app, I3, list_elem_of_singleton. destruct (decide (k = key)) as [->|]; [rewrite lookup_insert_eq; naive_solver|rewrite lookup_insert_ne by done; naive_solver].
Qed.

(** *** Tickets *)

(** A ticket in hand: retries of an accepted job, with one call of the processor per
    attempt used up, and [extra] for the one that is running. *)
Definition progress (acc : list ticket) (rs : nat → Z) (t : ticket) (extra : Z) : Prop :=
  ∃ o, o ∈ acc ∧ tid o = tid t ∧ dedupeKey (tjob t) = dedupeKey (tjob o) ∧ MaxAttempts (tjob t) = MaxAttempts (tjob o) ∧ Attempt (tjob o) ≤ Attempt (tjob t) ∧
    (Attempt (tjob t) < MaxAttempts (tjob t) ∨ Attempt (tjob t) = Attempt (tjob o)) ∧ rs (tid t) = Attempt (tjob t) - Attempt (tjob o) + extra.

Definition hand_ok (acc : list ticket) (rs : nat → Z) (h : hand) : Prop :=
  match h with
  | Taken t | Sleeping t | BackingOff t => progress acc rs t 0
  | Running t _ => progress acc rs t 1
  | Waiting | Stopped => True
  end.

Definition settled (w : world) : list nat := map fst (finished w) ++ abandoned w.

(** A job with this key has succeeded. *)
Definition succeeded (w : world) (key : string) : Prop := ∃ o, o ∈ accepted w ∧ dedupeKey (tjob o) = key ∧ (tid o, Succeeded) ∈ finished w.

Record world_ok (w : world) : Prop := {
  wo_tickets : map tid (accepted w) ≡ₚ map tid (queued (eng w)) ++ map tid (handed (hands w)) ++ settled w;
  wo_numbers : map tid (accepted w) = seq 0 (length (accepted w));
  wo_capacity : ∀ q l, queues (eng w) !! q = Some l → Z.of_nat (length l) ≤ defaultQueueCapacity;
  wo_queued : ∀ t, t ∈ queued (eng w) → progress (accepted w) (runs w) t 0;
  wo_hands : ∀ i q h, hands w !! i = Some (q, h) → hand_ok (accepted w) (runs w) h;
  wo_runs : ∀ o, o ∈ accepted w → 0 ≤ runs w (tid o) ≤ Z.max 1 (MaxAttempts (tjob o) - Attempt (tjob o));
  wo_fresh : ∀ n, (length (accepted w) ≤ n)%nat → runs w n = 0;
  wo_stop : abandoned w ≠ [] → stopping w = true;
  wo_dedupe : dedupe (eng w) = dedupeRun maxDedupeEntries (events w);
  wo_clock : clocked 0 (events w ++ [Prune (clock w)]);
  wo_health : health_ok (jobs (eng w));
  wo_marks : ∀ key t, (key, t) ∈ marks (events w) → succeeded w key
}.

Lemma progress_mono acc acc' rs rs' t x : (∀ o, o ∈ acc → o ∈ acc') → rs' (tid t) = rs (tid t) → progress acc rs t x → progress acc' rs' t x.
Proof. intros Ha Hr (o & H1 & H2 & H3 & H4 & H5 & H6 & H7). exists o. rewrite Hr. split_and!; auto. Qed.

Lemma hand_ok_mono acc acc' rs rs' h : (∀ o, o ∈ acc → o ∈ acc') → (∀ t, t ∈ inHand h → rs' (tid t) = rs (tid t)) → hand_ok acc rs h → hand_ok acc' rs' h.
Proof. intros Ha Hr. destruct h; cbn [hand_ok inHand] in *; try done; apply progress_mono; auto; apply Hr; by constructor. Qed.

Lemma tickets_nodup w : world_ok w → NoDup (map tid (queued (eng w)) ++ map tid (handed (hands w)) ++ settled w).
Proof. intros H. rewrite <- (wo_tickets w H), (wo_numbers w H). apply NoDup_seq. Qed.

Lemma in_hand_apart w i q h i' q' h' t t' : world_ok w → hands w !! i = Some (q, h) → hands w !! i' = Some (q', h') → i ≠ i' → t ∈ inHand h → t' ∈ inHand h' → tid t' ≠ tid t.
Proof.
  intros Hok Hi Hi' Hne Ht Ht' E. pose proof (tickets_nodup w Hok) as Hnd. apply NoDup_app in Hnd as (_ & _ & Hnd). apply NoDup_app in Hnd as (Hnd & _ & _).
  unfold handed in Hnd. rewrite (mcat_lookup _ _ _ _ Hi), map_app in Hnd. apply NoDup_app in Hnd as (_ & Hd & _). cbn [snd] in Hd.
  apply (Hd (tid t)); [apply list_elem_of_In, in_map, list_elem_of_In, Ht|]. rewrite <- E. apply list_elem_of_In, in_map, list_elem_of_In.
  eapply mcat_in; [rewrite lookup_delete_ne by done; exact Hi'|done].
Qed.

Lemma queued_apart w i q h t t' : world_ok w → hands w !! i = Some (q, h) → t ∈ inHand h → t' ∈ queued (eng w) → tid t' ≠ tid t.
Proof.
  intros Hok Hi Ht Ht' E. pose proof (tickets_nodup w Hok) as Hnd. apply NoDup_app in Hnd as (_ & Hd & _).
  apply (Hd (tid t')); [apply list_elem_of_In, in_map, list_elem_of_In, Ht'|]. apply elem_of_app. left. rewrite E. apply list_elem_of_In, in_map, list_elem_of_In. by eapply mcat_in.
Qed.

(** The hands after one worker goes on. *)
Lemma handed_update hs i q h q' h' : hs !! i = Some (q, h) → inHand h ++ handed (<[i := (q', h')]> hs) ≡ₚ inHand h' ++ handed hs.
Proof.
  intros E. unfold handed. rewrite (mcat_update _ hs i (q', h')), (mcat_lookup _ hs i (q, h) E). cbn [snd]. rewrite !app_assoc. apply Permutation_app_tail, Permutation_app_comm.
Qed.

(** A worker goes on with the same tickets, or fewer that are settled. *)
Lemma worker_moves w w' i q h h' gone : world_ok w → hands w !! i = Some (q, h) → hands w' = <[i := (q, h')]> (hands w) → accepted w' = accepted w →
  map tid (inHand h) ≡ₚ map tid (inHand h') ++ gone → settled w' ≡ₚ gone ++ settled w → queues (eng w') = queues (eng w) →
  (∀ n, runs w' n = runs w n) → hand_ok (accepted w) (runs w) h' → (abandoned w' ≠ [] → stopping w' = true) →
  dedupe (eng w') = dedupeRun maxDedupeEntries (events w') → clocked 0 (events w' ++ [Prune (clock w')]) → health_ok (jobs (eng w')) →
  (∀ key t, (key, t) ∈ marks (events w') → succeeded w' key) → world_ok w'.
Proof.
  intros [H1 H2 H3 H4 H5 H6 H7 H8 H9 H10 H11 H12] Hi Eh Ea Ht Es Eq Er Hh Hs Hd Hc Hhe Hma.
  split; rewrite ?Ea, ?Eh; try done; unfold queued in *; rewrite ?Eq; try done.
  - rewrite H1. apply Permutation_app_head. rewrite Es, !app_assoc. apply Permutation_app_tail. pose proof (handed_update (hands w) i q h q h' Hi) as Hp.
    apply (Permutation_map tid) in Hp. rewrite !map_app, Ht in Hp. rewrite <- app_assoc in Hp. apply Permutation_app_inv_l in Hp. rewrite Permutation_app_comm. by rewrite Hp.
  - intros t Hin. eapply progress_mono; [done|apply Er|by apply H4].
  - intros i' q' x [[-> [= <- <-]]|[Hne Hx]]%lookup_insert_Some; [eapply hand_ok_mono; [done| |exact Hh]|eapply hand_ok_mono; [done| |by apply (H5 i' q')]]; intros; apply Er.
  - intros o Ho. rewrite Er. by apply H6.
  - intros n Hn. rewrite Er. by apply H7.
Qed.

Lemma same_ticket w o o' : world_ok w → o ∈ accepted w → o' ∈ accepted w → tid o = tid o' → o = o'.
Proof.
  intros Hok Ho Ho' E. apply list_elem_of_lookup_1 in Ho as [a Ha]. apply list_elem_of_lookup_1 in Ho' as [b Hb].
  assert (NoDup (map tid (accepted w))) as Hnd by (rewrite (wo_numbers w Hok); apply NoDup_seq).
  assert (map tid (accepted w) !! a = Some (tid o) ∧ map tid (accepted w) !! b = Some (tid o')) as [Ea Eb] by (split; apply list_lookup_fmap_Some; eauto).
  rewrite <- E in Eb. pose proof (NoDup_lookup _ _ _ _ Hnd Ea Eb) as <-. congruence.
Qed.

Lemma engine_moves w e es : world_ok w → queues e = queues (eng w) → dedupe e = dedupeRun maxDedupeEntries (events w ++ es) →
  clocked 0 ((events w ++ es) ++ [Prune (clock w)]) → marks (events w ++ es) = marks (events w) → health_ok (jobs e) → world_ok (addEvents (setEngine w e) es).
Proof.
  intros [H1 H2 H3 H4 H5 H6 H7 H8 H9 H10 H11 H12] Eq Hd Hc Hm Hh. split; unfold queued in *; cbn [addEvents setEngine eng hands accepted runs stopping abandoned clock events]; rewrite ?Eq, ?Hm; try done.
Qed.

Lemma run_moves w i q h t : world_ok w → hands w !! i = Some (q, h) → inHand h = [t] → progress (accepted w) (runs w) t 0 → world_ok (runTicket w i q t).
Proof.
  intros Hok Hi Eh Hp. pose proof Hok as [H1 H2 H3 H4 H5 H6 H7 H8 H9 H10 H11 H12].
  assert (∀ n, n ≠ tid t → runs (runTicket w i q t) n = runs w n) as Hother by (intros n Hn; cbn; by rewrite decide_False).
  assert (runs (runTicket w i q t) (tid t) = runs w (tid t) + 1) as Hself by (cbn; by rewrite decide_True).
  destruct Hp as (o & P1 & P2 & P0 & P3 & P4 & P5 & P6).
  split; try done; cbn [runTicket setHand countRun setEngine startJob setHealth eng hands accepted jobs].
  - rewrite H1. apply Permutation_app_head, Permutation_app_tail, Permutation_map. pose proof (handed_update (hands w) i q h q (Running t (clock w)) Hi) as Hp.
    rewrite Eh in Hp. by apply Permutation_app_inv_l in Hp.
  - intros t' Ht'. eapply progress_mono; [done| |by apply H4]. apply Hother. eapply queued_apart; [done|exact Hi|rewrite Eh; by constructor|done].
  - intros i' q' x [[-> [= <- <-]]|[Hne Hx]]%lookup_insert_Some.
    + exists o. split_and!; try done. rewrite Hself. lia.
    + eapply hand_ok_mono; [done| |by apply (H5 i' q')]. intros t' Ht'. apply Hother. eapply (in_hand_apart w i q h i' q' x); try done. rewrite Eh. by constructor.
  - intros o' Ho'. destruct (decide (tid o' = tid t)) as [E|Hne]; [|rewrite Hother by done; by apply H6].
    assert (o' = o) as -> by (eapply same_ticket; [exact Hok|done|done|congruence]). rewrite E, Hself. rewrite P6. lia.
  - intros n Hn. rewrite Hother; [by apply H7|]. intros ->. assert (tid t ∈ map tid (accepted w)) as Hin by (rewrite <- P2; apply list_elem_of_In, in_map, list_elem_of_In, P1).
    rewrite H2 in Hin. apply elem_of_seq in Hin. lia.
  - by apply record_health_ok.
Qed.

(** *** The replay protection sees its calls in order *)

Lemma clocked_snoc es from a b : clocked from (es ++ [a]) → instant a ≤ instant b → clocked from ((es ++ [a]) ++ [b]).
Proof. revert from. induction es as [|x es IH]; intros from; cbn [app clocked]; [tauto|]. intros [H1 H2] Hb. split; [done|]. by apply IH. Qed.

Lemma clocked_swap es from a b : clocked from (es ++ [a]) → instant a ≤ instant b → clocked from (es ++ [b]).
Proof. revert from. induction es as [|x es IH]; intros from; cbn [app clocked]; [intros [? _]; split; [lia|done]|]. intros [H1 H2] Hb. split; [done|]. by eapply IH. Qed.

Lemma dedupe_run_app es es' : dedupeRun maxDedupeEntries (es ++ es') = foldl dedupeStep (dedupeRun maxDedupeEntries es) es'.
Proof. apply foldl_app. Qed.

Lemma events_clocked w ev : world_ok w → instant ev = clock w → clocked 0 ((events w ++ [ev]) ++ [Prune (clock w)]).
Proof. intros Hok E. apply clocked_snoc; [|cbn; lia]. eapply clocked_swap; [apply (wo_clock w Hok)|cbn; lia]. Qed.

(** *** What the engine's operations leave alone *)

Lemma enqueue_spec e id now cancelled pick job e' r : EnqueueTx floatInt formatTime e id now cancelled pick job = (e', r) → health_ok (jobs e) →
  health_ok (jobs e') ∧ dedupe e' = dedupe e ∧
  match r with
  | Some _ => queues e' = queues e
  | None => let j := Normalize floatInt now job in Validate j = None ∧
      ∃ q, queues e !! Queue j = Some q ∧ Z.of_nat (length q) < defaultQueueCapacity ∧ queues e' = <[Queue j := q ++ [mkTicket id j]]> (queues e)
  end.
Proof.
  unfold EnqueueTx. set (j := Normalize floatInt now job). destruct (Validate j) as [err|] eqn:Ev; [by intros [= <- <-] H|].
  set (e1 := setHealth e _). intros E Hh. assert (health_ok (jobs e1)) as Hh1 by (by apply record_health_ok). clearbody j.
  assert (∀ state err, health_ok (jobs (setHealth e1 (recordHealth formatTime (jobs e1) now j state (Some err) 0 now)))) as Hr by (intros; by apply record_health_ok).
  revert E. destruct (processors e1 !! JobKind j); [|intros [= <- <-]; by split_and!]. destruct (queues e1 !! Queue j) as [q|] eqn:Eq; [|intros [= <- <-]; by split_and!].
  destruct (negb _); [intros [= <- <-]; by split_and!|]. destruct (Z.ltb_spec (Z.of_nat (length q)) defaultQueueCapacity) as [Hlt|_].
  - destruct (_ && _); intros [= <- <-]; [by split_and!|]. cbn [jobs dedupe queues]. split_and!; [done|done|done|]. exists q. done.
  - destruct cancelled; intros [= <- <-]; by split_and!.
Qed.

Lemma begin_spec e now j e' b : beginJob formatTime e now j = (e', b) → health_ok (jobs e) →
  health_ok (jobs e') ∧ queues e' = queues e ∧
  dedupe e' = match b with Ends Dropped => dedupe e | _ => foldl dedupeStep (dedupe e) (hasEvent now j) end.
Proof.
  unfold beginJob, hasEvent. intros E Hh. destruct (processors e !! JobKind j); [|injection E as <- <-; split_and!; [by apply record_health_ok|done|done]].
  destruct (String.eqb (dedupeKey j) ""); [destruct (_ && _); by injection E as <- <-|].
  cbn [foldl dedupeStep]. destruct (has (dedupe e) (dedupeKey j) now) as [d replay]. cbn [fst]. destruct replay; [injection E as <- <-; split_and!; [by apply record_health_ok|done|done]|].
  destruct (_ && _); by injection E as <- <-.
Qed.

Lemma finish_job_spec e s now random j err e' r : finishJob formatTime e s now random j err = (e', r) → health_ok (jobs e) →
  health_ok (jobs e') ∧ queues e' = queues e ∧
  match r with
  | inl f => dedupe e' = foldl dedupeStep (dedupe e) (if decide (f = Succeeded) then markEvent now j else [])
  | inr j' => dedupe e' = dedupe e ∧ dedupeKey j' = dedupeKey j ∧ MaxAttempts j' = MaxAttempts j ∧ Attempt j' = Attempt j + 1 ∧ Attempt j' < MaxAttempts j
  end.
Proof.
  unfold finishJob, markEvent. intros E Hh. destruct err as [cause|].
  - cbn [MaxAttempts Attempt] in E. destruct (Z.leb_spec (MaxAttempts j) (Attempt j + 1)) as [Hge|Hlt]; injection E as <- <-; (split; [by apply record_health_ok|]); [done|].
    cbn [MaxAttempts Attempt]. split_and!; [done|done|done|done|done|lia].
  - injection E as <- <-. split; [by apply record_health_ok|]. split; [done|]. cbn [setHealth dedupe]. rewrite decide_True by done. by destruct (String.eqb _ "").
Qed.

(** *** Every step *)

Lemma queued_push e q l t : queues e !! q = Some l → mcat id (<[q := l ++ [t]]> (queues e)) ≡ₚ t :: queued e.
Proof.
  intros E. unfold queued. rewrite (mcat_update id (queues e) q), (mcat_lookup id (queues e) q l E). cbn [id]. rewrite <- app_assoc. symmetry. apply (Permutation_middle l _ t).
Qed.

Lemma enqueue_moves w e t q : world_ok w → tid t = length (accepted w) → Validate (tjob t) = None → queues (eng w) !! Queue (tjob t) = Some q →
  Z.of_nat (length q) < defaultQueueCapacity → queues e = <[Queue (tjob t) := q ++ [t]]> (queues (eng w)) → dedupe e = dedupe (eng w) → health_ok (jobs e) →
  world_ok (mkWorld e (hands w) (clock w) (stopping w) (accepted w ++ [t]) (finished w) (abandoned w) (runs w) (events w)).
Proof.
  intros [H1 H2 H3 H4 H5 H6 H7 H8 H9 H10 H11 H12] Et Hv Eq Hl Hq Hd Hh. pose proof (queued_push (eng w) _ _ t Eq) as Hp. rewrite <- Hq in Hp. fold (queued e) in Hp.
  assert (progress (accepted w ++ [t]) (runs w) t 0) as Hnew.
  { exists t. split_and!; [apply elem_of_app; right; by apply list_elem_of_singleton|done|done|done|lia|by right|]. rewrite Et, H7 by done. lia. }
  assert (∀ o, o ∈ accepted w → o ∈ accepted w ++ [t]) as Hsub by (intros o Ho; apply elem_of_app; by left).
  split; cbn [eng hands accepted runs finished abandoned stopping events clock]; try done.
  - rewrite Hp, map_app, H1. cbn [map]. rewrite <- Permutation_cons_append. done.
  - rewrite map_app, H2, length_app, seq_app. cbn. by rewrite Et.
  - rewrite Hq. intros q' l [[<- <-]|[_ Hl']]%lookup_insert_Some; [rewrite length_app; cbn; lia|by apply (H3 q')].
  - intros t' Ht'. rewrite Hp in Ht'. apply elem_of_cons in Ht' as [->|Ht']; [done|]. eapply progress_mono; [exact Hsub|done|by apply H4].
  - intros i q' h Hi. eapply hand_ok_mono; [exact Hsub|done|by apply (H5 i q')].
  - intros o [Ho|Ho%list_elem_of_singleton]%elem_of_app; [by apply H6|]. subst o. rewrite Et, H7 by done. lia.
  - intros n. rewrite length_app. cbn. intros Hn. apply H7. lia.
  - by rewrite Hd.
  - intros key t0 Hk. destruct (H12 key t0 Hk) as (o & O1 & O2 & O3). exists o. split_and!; [by apply Hsub|done|done].
Qed.

Lemma take_moves w i q t rest : world_ok w → hands w !! i = Some (q, Waiting) → queues (eng w) !! q = Some (t :: rest) →
  world_ok (setHand (setEngine w (mkEngine (processors (eng w)) (<[q := rest]> (queues (eng w))) (workers (eng w)) (dedupe (eng w)) (jobs (eng w)))) i q (Taken t)).
Proof.
  intros [H1 H2 H3 H4 H5 H6 H7 H8 H9 H10 H11 H12] Hi Eq. assert (queued (eng w) ≡ₚ t :: mcat id (<[q := rest]> (queues (eng w)))) as Hp.
  { unfold queued. by rewrite (mcat_lookup id _ q _ Eq), (mcat_update id (queues (eng w)) q rest). }
  pose proof (handed_update (hands w) i q Waiting q (Taken t) Hi) as Hh. cbn [inHand app] in Hh.
  split; cbn [setHand setEngine eng hands accepted runs finished abandoned stopping events clock dedupe jobs queues]; try done.
  - change (queued (mkEngine _ _ _ _ _)) with (mcat id (<[q := rest]> (queues (eng w)))). rewrite H1, Hp, Hh. cbn [map app]. by rewrite <- Permutation_middle.
  - intros q' l [[<- <-]|[_ Hl']]%lookup_insert_Some; [specialize (H3 q _ Eq); cbn in H3; lia|by apply (H3 q')].
  - intros t' Ht'. apply H4. rewrite Hp. by right.
  - intros i' q' h [[-> [= <- <-]]|[_ Hx]]%lookup_insert_Some; [|by apply (H5 i' q')]. apply H4. rewrite Hp. by constructor.
Qed.

Lemma engine_only w e : world_ok w → queues e = queues (eng w) → dedupe e = dedupe (eng w) → health_ok (jobs e) → world_ok (setEngine w e).
Proof.
  intros Hok Eq Ed Hh. replace (setEngine w e) with (addEvents (setEngine w e) []) by (unfold addEvents; cbn; by rewrite app_nil_r).
  apply engine_moves; [done|done|rewrite app_nil_r, Ed; apply Hok|rewrite app_nil_r; apply Hok|by rewrite app_nil_r|done].
Qed.

Lemma register_moves w p e err : world_ok w → Register (eng w) p = (e, err) → world_ok (setEngine w e).
Proof.
  intros Hok. unfold Register. destruct (String.eqb (PKind p) ""); intros [= <- <-]; [by apply engine_only; [| | |apply Hok]|].
  destruct (queues (eng w) !! PQueue p) as [l|] eqn:E; [by apply engine_only; [| | |apply Hok]|].
  pose proof Hok as [H1 H2 H3 H4 H5 H6 H7 H8 H9 H10 H11 H12].
  assert (mcat id (<[PQueue p := []]> (queues (eng w))) ≡ₚ queued (eng w)) as Hp by (by rewrite (mcat_insert id)).
  split; cbn [setEngine eng hands accepted runs finished abandoned stopping events clock dedupe jobs queues]; try done.
  - change (queued (mkEngine _ _ _ _ _)) with (mcat id (<[PQueue p := []]> (queues (eng w)))). by rewrite Hp.
  - intros q l [[_ <-]|[_ Hl]]%lookup_insert_Some; [done|by apply (H3 q)].
  - intros t Ht. apply H4. by rewrite <- Hp.
Qed.

(** The calls of one step, as the replay protection has seen them. *)
Lemma events_step w ev e : world_ok w → (∀ x, x ∈ ev → instant x = clock w) → (length ev ≤ 1)%nat → dedupe e = foldl dedupeStep (dedupe (eng w)) ev →
  dedupe e = dedupeRun maxDedupeEntries (events w ++ ev) ∧ clocked 0 ((events w ++ ev) ++ [Prune (clock w)]).
Proof.
  intros Hok Hev Hl E. rewrite dedupe_run_app, <- (wo_dedupe w Hok). split; [done|]. destruct ev as [|x [|y ev]]; [rewrite app_nil_r; apply Hok| |cbn in Hl; lia].
  apply events_clocked; [done|]. apply Hev. by constructor.
Qed.

Lemma has_event_spec now j : (∀ x, x ∈ hasEvent now j → instant x = now) ∧ (length (hasEvent now j) ≤ 1)%nat.
Proof. unfold hasEvent. destruct (String.eqb _ ""); (split; [|cbn; lia]); intros x Hx; [by apply elem_of_nil in Hx|]. by apply list_elem_of_singleton in Hx as ->. Qed.

Lemma mark_event_spec now j : (∀ x, x ∈ markEvent now j → instant x = now) ∧ (length (markEvent now j) ≤ 1)%nat.
Proof. unfold markEvent. destruct (String.eqb _ ""); (split; [|cbn; lia]); intros x Hx; [by apply elem_of_nil in Hx|]. by apply list_elem_of_singleton in Hx as ->. Qed.

Lemma nil_event_spec now : (∀ x, x ∈ @nil event → instant x = now) ∧ (length (@nil event) ≤ 1)%nat.
Proof. split; [|cbn; lia]. intros x Hx. by apply elem_of_nil in Hx. Qed.

(** A worker that ends its job. *)
Lemma end_moves w i q h t e ev f : world_ok w → hands w !! i = Some (q, h) → inHand h = [t] → health_ok (jobs e) → queues e = queues (eng w) →
  dedupe e = dedupeRun maxDedupeEntries (events w ++ ev) ∧ clocked 0 ((events w ++ ev) ++ [Prune (clock w)]) →
  (∀ key x, (key, x) ∈ marks ev → key = dedupeKey (tjob t) ∧ f = Succeeded) →
  world_ok (setHand (endTicket (addEvents (setEngine w e) ev) (tid t) f) i q Waiting).
Proof.
  intros Hok Hi Eh Hh Eq [Hd Hc] Hev. eapply (worker_moves w _ i q h Waiting [tid t]); try done.
  - by rewrite Eh.
  - unfold settled. cbn. rewrite map_app, <- app_assoc. cbn. symmetry. apply Permutation_middle.
  - apply Hok.
  - intros key x. cbn. unfold marks. rewrite omap_app, elem_of_app. unfold succeeded. cbn. intros [Hk|Hk].
    + destruct (wo_marks w Hok key x Hk) as (o & O1 & O2 & O3). exists o. split_and!; [done|done|]. apply elem_of_app. by left.
    + destruct (Hev key x Hk) as [-> ->]. assert (∃ c, progress (accepted w) (runs w) t c) as [c (o & P1 & P2 & P0 & _)].
      { pose proof (wo_hands w Hok _ _ _ Hi) as Hx. destruct h; cbn in Eh; try done; injection Eh as ->; eexists; exact Hx. }
      exists o. split_and!; [done|done|]. apply elem_of_app. right. rewrite P2. by apply list_elem_of_singleton.
Qed.

(** A worker that goes on with its job. *)
Lemma keep_moves w i q h h' t t' e ev : world_ok w → hands w !! i = Some (q, h) → inHand h = [t] → inHand h' = [t'] → tid t' = tid t → hand_ok (accepted w) (runs w) h' →
  health_ok (jobs e) → queues e = queues (eng w) → dedupe e = dedupeRun maxDedupeEntries (events w ++ ev) ∧ clocked 0 ((events w ++ ev) ++ [Prune (clock w)]) → marks ev = [] →
  world_ok (setHand (addEvents (setEngine w e) ev) i q h').
Proof.
  intros Hok Hi Eh Eh' Et Hhand Hh Eq [Hd Hc] Hm. eapply (worker_moves w _ i q h h' []); try done.
  - rewrite Eh, Eh'. cbn. by rewrite Et.
  - apply Hok.
  - intros key x. cbn. unfold marks in *. rewrite omap_app, Hm, app_nil_r. apply (wo_marks w Hok).
Qed.

Lemma has_event_marks now j : marks (hasEvent now j) = [].
Proof. unfold hasEvent. by destruct (String.eqb _ ""). Qed.

Lemma mark_event_marks now j key x : (key, x) ∈ marks (markEvent now j) → key = dedupeKey j.
Proof. unfold markEvent. destruct (String.eqb _ ""); intros Hk; [by apply elem_of_nil in Hk|]. cbn in Hk. apply list_elem_of_singleton in Hk. congruence. Qed.

Lemma add_no_events w : addEvents w [] = w.
Proof. destruct w. unfold addEvents. cbn. by rewrite app_nil_r. Qed.

Lemma begin_ends_moves w i q t e f : world_ok w → hands w !! i = Some (q, Taken t) → beginJob formatTime (eng w) (clock w) (tjob t) = (e, Ends f) →
  world_ok (setHand (endTicket (addEvents (setEngine w e) (if decide (f = Dropped) then [] else hasEvent (clock w) (tjob t))) (tid t) f) i q Waiting).
Proof.
  intros Hok Hi E. destruct (begin_spec _ _ _ _ _ E (wo_health w Hok)) as (Hh & Eq & Ed). eapply end_moves; [done|exact Hi|done|done|done| |].
  2: { intros key x. case_decide; [intros Hk; by apply elem_of_nil in Hk|rewrite has_event_marks; intros Hk; by apply elem_of_nil in Hk]. }
  case_decide as Hf; [subst f; apply (events_step w [] e); [done|apply (nil_event_spec (clock w))..|done]|].
  apply (events_step w (hasEvent (clock w) (tjob t)) e); [done|apply has_event_spec..|]. by destruct f.
Qed.

Lemma finish_retries_moves w i q t s random err e j : world_ok w → hands w !! i = Some (q, Running t s) →
  finishJob formatTime (eng w) s (clock w) random (tjob t) err = (e, inr j) → world_ok (setHand (setEngine w e) i q (BackingOff (mkTicket (tid t) j))).
Proof.
  intros Hok Hi E. destruct (finish_job_spec _ _ _ _ _ _ _ _ E (wo_health w Hok)) as (Hh & Eq & Ed & Ek & Em & Ea & Hlt).
  rewrite <- (add_no_events (setEngine w e)). eapply (keep_moves w i q (Running t s) _ t (mkTicket (tid t) j)); [done|exact Hi|done|done|done| |done|done| |done].
  - destruct (wo_hands w Hok _ _ _ Hi) as (o & P1 & P2 & P0 & P3 & P4 & P5 & P6). exists o. cbn [tid tjob]. split_and!; [done|done|congruence|congruence|lia|left; congruence|lia].
  - apply (events_step w [] e); [done|apply (nil_event_spec (clock w))..|done].
Qed.

Lemma stop_moves w i q h : world_ok w → hands w !! i = Some (q, h) → stopping w = true → world_ok (setHand (abandon w (inHand h)) i q Stopped).
Proof.
  intros Hok Hi Hs. eapply (worker_moves w _ i q h Stopped (map tid (inHand h))); try done; try apply Hok.
  unfold settled. cbn. rewrite app_assoc, Permutation_app_comm. done.
Qed.

Lemma engine_step_ok w w' : step w w' → world_ok w → world_ok w'.
Proof.
  intros Hstep Hok. destruct Hstep as [w p e err E|w cancelled pick job e E|w cancelled pick job e err E|w d Hd|w|w i q Hi|w i q t rest Hi Eq|w i q t e f Hi E|
    w i q t e Hi E|w i q t e Hi E|w i q t Hi Ht|w i q t s random err e f Hi E|w i q t s random err e j Hi E|w i q t Hi|w i q h Hi Hs Hr].
  - by eapply register_moves.
  - destruct (enqueue_spec _ _ _ _ _ _ _ _ E (wo_health w Hok)) as (Hh & Ed & Hv & l & El & Hl & Eq). by eapply (enqueue_moves w e (mkTicket _ _) l).
  - destruct (enqueue_spec _ _ _ _ _ _ _ _ E (wo_health w Hok)) as (Hh & Ed & Eq). by apply engine_only.
  - destruct Hok as [H1 H2 H3 H4 H5 H6 H7 H8 H9 H10 H11 H12]. split; try done. eapply clocked_swap; [exact H10|cbn; lia].
  - by destruct Hok as [H1 H2 H3 H4 H5 H6 H7 H8 H9 H10 H11 H12].
  - destruct Hok as [H1 H2 H3 H4 H5 H6 H7 H8 H9 H10 H11 H12]. split; try done; cbn [setHand hands eng accepted runs].
    + unfold handed. by rewrite (mcat_insert _ _ _ _ Hi).
    + intros i' q' h [[-> [= <- <-]]|[_ Hx]]%lookup_insert_Some; [done|by apply (H5 i' q')].
  - by eapply take_moves.
  - by apply begin_ends_moves.
  - destruct (begin_spec _ _ _ _ _ E (wo_health w Hok)) as (Hh & Eq & Ed). eapply (keep_moves w i q (Taken t)); [done|exact Hi|done|done|done|apply (wo_hands w Hok _ _ _ Hi)|done|done| |apply has_event_marks].
    apply (events_step w (hasEvent (clock w) (tjob t)) e); [done|apply has_event_spec..|done].
  - destruct (begin_spec _ _ _ _ _ E (wo_health w Hok)) as (Hh & Eq & Ed). destruct (events_step w (hasEvent (clock w) (tjob t)) e Hok) as [D1 D2]; [apply has_event_spec..|done|].
    eapply (run_moves _ i q (Taken t)); [apply engine_moves; try done; unfold marks; rewrite omap_app; change (omap _ (hasEvent _ _)) with (marks (hasEvent (clock w) (tjob t))); by rewrite has_event_marks, app_nil_r|exact Hi|done|apply (wo_hands w Hok _ _ _ Hi)].
  - eapply (run_moves _ i q (Sleeping t)); [done|exact Hi|done|apply (wo_hands w Hok _ _ _ Hi)].
  - destruct (finish_job_spec _ _ _ _ _ _ _ _ E (wo_health w Hok)) as (Hh & Eq & Ed). eapply end_moves; [done|exact Hi|done|done|done| |].
    2: { intros key x. case_decide as Hf; [intros Hk%mark_event_marks; done|intros Hk; by apply elem_of_nil in Hk]. }
    case_decide; [apply (events_step w (markEvent (clock w) (tjob t)) e); [done|apply mark_event_spec..|done]|apply (events_step w [] e); [done|apply (nil_event_spec (clock w))..|done]].
  - by eapply finish_retries_moves.
  - replace w with (setEngine w (eng w)) at 1 by (by destruct w). rewrite <- (add_no_events (setEngine w (eng w))).
    eapply (keep_moves w i q (BackingOff t)); [done|exact Hi|done|done|done|apply (wo_hands w Hok _ _ _ Hi)|apply Hok|done| |done]. apply (events_step w [] (eng w)); [done|apply (nil_event_spec (clock w))..|done].
  - by apply stop_moves.
Qed.

Lemma engine_initial_ok qw : world_ok (initial qw).
Proof.
  split; cbn [initial eng NewEngine queues hands accepted jobs jobHealth healthOrder runs abandoned dedupe events clock length map]; try done.
  - intros t (k & v & Hk & _)%mcat_elem. cbn [NewEngine queues] in Hk. by rewrite lookup_empty in Hk.
  - intros o Ho. by apply elem_of_nil in Ho.
  - split; cbn [jobHealth healthOrder]; [by rewrite map_size_empty|constructor|]. intros k. rewrite lookup_empty. split; [intros Hk; by apply elem_of_nil in Hk|by intros [? ?]].
  - intros key t Hk. by apply elem_of_nil in Hk.
Qed.

Lemma engine_reachable_ok qw w : reachable qw w → world_ok w.
Proof. induction 1 as [|w w' _ IH Hs]; [apply engine_initial_ok|by eapply engine_step_ok]. Qed.

End Steps.

(** C23: every accepted job is accounted for, and retried no more than it asked for. In
    every interleaving of callers, workers, the clock and the stop of the engine: each
    accepted job is in exactly one place, a queue, a worker's hands, the finished jobs
    or the abandoned ones, and abandoned only if the engine is being stopped; no queue
    exceeds its capacity; the processor is called for a job at most as often as it had
    attempts left, or once; and the health reports stay within their bound, listed in
    the order they came. *)
Theorem accepted_jobs_are_accounted floatInt formatTime qw w : reachable floatInt formatTime qw w →
  let places := map tid (queued (eng w)) ++ map tid (handed (hands w)) ++ map fst (finished w) ++ abandoned w in
  (map tid (accepted w) ≡ₚ places ∧ NoDup places) ∧ (abandoned w ≠ [] → stopping w = true) ∧
  (∀ q l, queues (eng w) !! q = Some l → Z.of_nat (length l) ≤ defaultQueueCapacity) ∧
  (∀ o, o ∈ accepted w → 0 ≤ runs w (tid o) ≤ Z.max 1 (MaxAttempts (tjob o) - Attempt (tjob o))) ∧
  Z.of_nat (size (jobHealth (jobs (eng w)))) ≤ maxJobHealthEntries ∧ NoDup (healthOrder (jobs (eng w))) ∧
  (∀ k, k ∈ healthOrder (jobs (eng w)) ↔ is_Some (jobHealth (jobs (eng w)) !! k)).
Proof.
  intros Hr. pose proof (engine_reachable_ok floatInt formatTime qw w Hr) as Hok. pose proof (tickets_nodup w Hok) as Hnd.
  destruct Hok as [H1 H2 H3 H4 H5 H6 H7 H8 H9 H10 [K1 K2 K3] H12]. by split_and!.
Qed.


(** ** Backoff *)

Lemma backoff_loop_range fuel : ∀ attempt upto b max, 0 < b ≤ max → b ≤ backoffLoop fuel attempt upto b max ≤ max.
Proof.
  induction fuel as [|fuel IH]; intros attempt upto b max Hb; cbn [backoffLoop]; [lia|]. destruct (_ && _); [|lia].
  specialize (IH (attempt + 1) upto (Z.min (b * 2) max) max). lia.
Qed.

(** A retry waits between three quarters and five quarters of its backoff: at least
    187.5 milliseconds and less than 37.5 seconds. *)
Theorem next_backoff_range j random : 0 ≤ random < backoffBase j / 2 → 187500000 ≤ NextBackoff j random < 37500000000.
Proof.
  unfold NextBackoff, backoffBase. cbv zeta. pose proof (backoff_loop_range (Z.to_nat (Attempt j)) 1 (Attempt j) (250 * millisecond) (30000 * millisecond) ltac:(unfold millisecond; lia)) as Hb.
  set (b := Z.min _ _). assert (250000000 ≤ b ≤ 30000000000) as Hb' by (unfold b, millisecond in *; lia). clearbody b. intros Hr.
  pose proof (Z.div_mod b 2 ltac:(lia)). pose proof (Z.mod_pos_bound b 2 ltac:(lia)). pose proof (Z.div_mod b 4 ltac:(lia)). pose proof (Z.mod_pos_bound b 4 ltac:(lia)). lia.
Qed.

(** ** Scaling *)

Abbreviation history := (gmap string (list Z)).

Definition Predict (hs : history) (queue : string) (currentDepth currentWorkers : Z) : history * Z :=
  let h := default [] (hs !! queue) ++ [currentDepth] in
  let h := if (10 <? length h)%nat then drop 1 h else h in
  let hs := <[queue := h]> hs in
  if (length h <? 3)%nat then (hs, 0)
  else
    let velocity := default 0 (h !! (length h - 1)%nat) - default 0 (h !! (length h - 2)%nat) in
    if (50 <? velocity) && (currentWorkers <? 64) then (hs, if Z.quot velocity 100 =? 0 then 1 else Z.quot velocity 100) else (hs, 0).

Definition spawnWorkers (ws : gmap string Z) (queue : string) (count : Z) : gmap string Z := <[queue := default 0 (ws !! queue) + Z.max 0 count]> ws.

(** One queue of a tick of [adaptiveScaler]. *)
Definition scaleQueue (st : gmap string Z * history) (qd : string * Z) : gmap string Z * history :=
  let '(ws, hs) := st in let '(queue, depth) := qd in
  let currentWorkers := default 0 (ws !! queue) in
  if (queueScaleThreshold <? depth) && (currentWorkers <? maxAdaptiveWorkers) then
    let newWorkers := if maxAdaptiveWorkers <? currentWorkers + 4 then maxAdaptiveWorkers - currentWorkers else 4 in
    (spawnWorkers ws queue newWorkers, hs)
  else
    let '(hs, needed) := Predict hs queue depth currentWorkers in
    if 0 <? needed then (spawnWorkers ws queue needed, hs) else (ws, hs).

Definition scaleAll (ws : gmap string Z) (ticks : list (string * Z)) : gmap string Z * history := foldl scaleQueue (ws, ∅) ticks.

Definition depths_ok (hs : history) : Prop := ∀ q h d, hs !! q = Some h → d ∈ h → 0 ≤ d ≤ defaultQueueCapacity.

Lemma predict_ok hs queue depth cur : depths_ok hs → 0 ≤ depth ≤ defaultQueueCapacity → let '(hs', needed) := Predict hs queue depth cur in
  depths_ok hs' ∧ (0 < needed → needed ≤ Z.max 1 (depth / 100) ∧ cur < 64).
Proof.
  intros Hhs Hd. unfold Predict. set (h0 := default [] (hs !! queue) ++ [depth]). set (h := if (10 <? length h0)%nat then drop 1 h0 else h0).
  assert (∀ d, d ∈ h0 → 0 ≤ d ≤ defaultQueueCapacity) as H0.
  { intros d. unfold h0. rewrite elem_of_app, list_elem_of_singleton. intros [Hin| ->]; [|done]. destruct (hs !! queue) as [l|] eqn:E; [by eapply Hhs|by apply elem_of_nil in Hin]. }
  assert (∀ d, d ∈ h → 0 ≤ d ≤ defaultQueueCapacity) as Hh.
  { unfold h. destruct (_ <? _)%nat; [|done]. intros d Hin. apply H0. eapply elem_of_sublist; [exact Hin|apply sublist_drop]. }
  assert (depths_ok (<[queue := h]> hs)) as Hok by (intros q l d [[_ <-]|[_ Hl]]%lookup_insert_Some Hin; [by apply Hh|by eapply Hhs]).
  destruct (Nat.ltb_spec (length h) 3) as [|Hlen]; [done|]. set (v := _ - _). destruct (_ && _) eqn:E; [|done]. split; [done|]. apply andb_prop in E as [E1%Z.ltb_lt E2%Z.ltb_lt].
  intros _. split; [|done]. assert (default 0 (h !! (length h - 1)%nat) = depth) as Hlast.
  { assert (last h = Some depth) as Hl; [|rewrite last_lookup in Hl; replace (length h - 1)%nat with (pred (length h)) by lia; by rewrite Hl].
    unfold h. destruct (Nat.ltb_spec 10 (length h0)) as [Hgt|_]; [|apply last_snoc]. unfold h0 in *. rewrite length_app in Hgt. cbn [length] in Hgt.
    rewrite drop_app_le by lia. apply last_snoc. }
  assert (v ≤ depth) as Hv.
  { unfold v. rewrite Hlast. destruct (h !! (length h - 2)%nat) as [d|] eqn:Ed; cbn [default]; [|cbn; lia]. pose proof (Hh d (list_elem_of_lookup_2 _ _ _ Ed)). cbn. lia. }
  pose proof (Z.quot_div_nonneg v 100 ltac:(lia) ltac:(lia)) as Eq. rewrite Eq. pose proof (Z.div_le_mono v depth 100 ltac:(lia) Hv). destruct (Z.eqb_spec (v / 100) 0); lia.
Qed.

Lemma spawn_bound ws queue count q bound : 68 ≤ bound → default 0 (ws !! queue) + Z.max 0 count ≤ bound ∨ q ≠ queue → default 0 (ws !! q) ≤ bound →
  default 0 (spawnWorkers ws queue count !! q) ≤ bound.
Proof. intros Hb Hc Hq. unfold spawnWorkers. destruct (decide (q = queue)) as [->|]; [rewrite lookup_insert_eq; cbn; tauto|by rewrite lookup_insert_ne]. Qed.

Lemma scale_queue_ok ws hs queue depth q bound : depths_ok hs → 0 ≤ depth ≤ defaultQueueCapacity → 68 ≤ bound → default 0 (ws !! q) ≤ bound →
  let '(ws', hs') := scaleQueue (ws, hs) (queue, depth) in depths_ok hs' ∧ default 0 (ws' !! q) ≤ bound.
Proof.
  intros Hhs Hd Hb Hq. unfold scaleQueue. set (cur := default 0 (ws !! queue)). destruct (_ && _) eqn:E.
  - apply andb_prop in E as [_ E%Z.ltb_lt]. split; [done|]. apply spawn_bound; [done|left|done]. fold cur. unfold maxAdaptiveWorkers in *. destruct (Z.ltb_spec 64 (cur + 4)); lia.
  - pose proof (predict_ok hs queue depth cur Hhs Hd) as Hp. destruct (Predict hs queue depth cur) as [hs' needed]. destruct Hp as [Hhs' Hp].
    destruct (Z.ltb_spec 0 needed) as [Hn|_]; [|done]. split; [done|]. destruct (Hp Hn) as [H1 H2]. apply spawn_bound; [done|left|done]. fold cur.
    destruct (Z.leb_spec depth queueScaleThreshold) as [Hlow|Hhigh].
    + assert (depth / 100 < 6) by (apply Z.div_lt_upper_bound; [lia|]; unfold queueScaleThreshold, defaultQueueCapacity in Hlow; change (1024 / 2) with 512 in Hlow; lia). lia.
    + apply andb_false_iff in E as [E%Z.ltb_ge|E%Z.ltb_ge]; unfold maxAdaptiveWorkers in *; lia.
Qed.

(** Scaling is bounded. Whatever the depths of the queues over time, a queue
    grows to at most 68 workers, or stays with what it was configured with. *)
Theorem scaling_is_bounded ws ticks q : Forall (λ qd, 0 ≤ qd.2 ≤ defaultQueueCapacity) ticks →
  default 0 ((scaleAll ws ticks).1 !! q) ≤ Z.max 68 (default 0 (ws !! q)).
Proof.
  unfold scaleAll. intros Ht. set (bound := Z.max 68 _).
  enough (∀ ws0 hs, depths_ok hs → default 0 (ws0 !! q) ≤ bound → default 0 ((foldl scaleQueue (ws0, hs) ticks).1 !! q) ≤ bound) as Hall.
  { apply Hall; [|lia]. intros q' h d Hq'. by rewrite lookup_empty in Hq'. }
  induction Ht as [|[queue depth] ticks Hd _ IH]; intros ws0 hs Hhs Hle; cbn [foldl]; [done|].
  pose proof (scale_queue_ok ws0 hs queue depth q bound Hhs Hd ltac:(lia) Hle) as Hs. destruct (scaleQueue (ws0, hs) (queue, depth)) as [ws1 hs1]. destruct Hs. by apply IH.
Qed.

Lemma scaling_is_bounded_witness :
  let ticks := [("mail", 0); ("mail", 0); ("mail", 512)] in
  Forall (λ qd, 0 ≤ qd.2 ≤ defaultQueueCapacity) ticks ∧ default 0 ((scaleAll {["mail" := 63]} ticks).1 !! "mail") ≤ 68.
Proof.
  intros ticks. assert (Forall (λ qd, 0 ≤ qd.2 ≤ defaultQueueCapacity) ticks) as Ht by (unfold defaultQueueCapacity; repeat constructor; cbn; lia).
  split; [exact Ht|]. exact (scaling_is_bounded {["mail" := 63]} ticks "mail" Ht).
Defined.

(** *** Runs of the engine *)

Definition mail (id idem : string) : Job := mkJob id "mail" "out" [] "" idem 0 2 0 0 0.

(** The engines that a queue of mail jobs reaches, with no job that fails and no
    replay recorded. *)
Abbreviation mails := (reachable (λ _, None) (λ _, "") ∅).
Definition mailTicket (n : nat) (id : string) : ticket := mkTicket n (Normalize (λ _, None) 0 (mail id "k")).

Lemma mails_start w i q t : mails w → hands w !! i = Some (q, Taken t) → (beginJob (λ _, "") (eng w) (clock w) (tjob t)).2 = Starts →
  mails (runTicket (λ _, "") (addEvents (setEngine w (beginJob (λ _, "") (eng w) (clock w) (tjob t)).1) (hasEvent (clock w) (tjob t))) i q t).
Proof. intros R Hi E. eapply reach_step; [exact R|]. eapply begin_starts; [exact Hi|]. by rewrite <- E, <- surjective_pairing. Qed.

Lemma mails_take w i q t rest : mails w → hands w !! i = Some (q, Waiting) → queues (eng w) !! q = Some (t :: rest) →
  mails (setHand (setEngine w (mkEngine (processors (eng w)) (<[q := rest]> (queues (eng w))) (workers (eng w)) (dedupe (eng w)) (jobs (eng w)))) i q (Taken t)).
Proof. intros R Hi Eq. eapply reach_step; [exact R|]. by eapply take_step. Qed.

Lemma mails_succeed w i q t s : mails w → hands w !! i = Some (q, Running t s) →
  mails (setHand (endTicket (addEvents (setEngine w (finishJob (λ _, "") (eng w) s (clock w) 0 (tjob t) None).1) (markEvent (clock w) (tjob t))) (tid t) Succeeded) i q Waiting).
Proof. intros R Hi. eapply reach_step; [exact R|]. exact (finish_ends (λ _, None) (λ _, "") w i q t s 0 None _ Succeeded Hi eq_refl). Qed.

(** The first is run and succeeds, then a worker takes up the second. *)
Lemma first_mail_done : ∃ w, mails w ∧ hands w !! 0%nat = Some ("out", Taken (mailTicket 1 "b")) ∧ clock w = 0 ∧ accepted w = [mailTicket 0 "a"; mailTicket 1 "b"] ∧
  is_Some (processors (eng w) !! "mail") ∧ marks (events w) = [("mail:k", 0)] ∧ finished w = [(0%nat, Succeeded)].
Proof.
  eassert (mails _) as R1 by (eapply reach_step; [apply reach_start|eapply (register_step _ _ _ (mkProcessor "mail" "out")); reflexivity]).
  eassert (mails _) as R2 by (eapply reach_step; [exact R1|eapply (enqueue_ok _ _ _ false false (mail "a" "k")); reflexivity]). vm_compute in R2.
  eassert (mails _) as R3 by (eapply reach_step; [exact R2|eapply (enqueue_ok _ _ _ false false (mail "b" "k")); reflexivity]). vm_compute in R3.
  eassert (mails _) as R4 by (eapply reach_step; [exact R3|apply (spawn_step _ _ _ 0%nat "out"); reflexivity]). vm_compute in R4.
  pose proof (mails_take _ 0 "out" (mailTicket 0 "a") [mailTicket 1 "b"] R4 eq_refl ltac:(vm_compute; reflexivity)) as R5. vm_compute in R5.
  pose proof (mails_start _ 0 _ _ R5 eq_refl ltac:(vm_compute; reflexivity)) as R6. vm_compute in R6.
  pose proof (mails_succeed _ 0 _ _ _ R6 eq_refl) as R7. vm_compute in R7.
  pose proof (mails_take _ 0 "out" (mailTicket 1 "b") [] R7 eq_refl ltac:(vm_compute; reflexivity)) as R8. vm_compute in R8.
  eexists. split; [exact R8|]. split_and!; first [reflexivity|vm_compute; reflexivity|vm_compute; eauto].
Qed.

Lemma accepted_jobs_are_accounted_witness :
  ∃ w, mails w ∧ (abandoned w ≠ [] → stopping w = true) ∧ 0 ≤ runs w 0%nat ≤ 2 ∧ [0; 1]%nat ≡ₚ map tid (queued (eng w)) ++ map tid (handed (hands w)) ++ map fst (finished w) ++ abandoned w.
Proof.
  destruct first_mail_done as (w & R & _ & _ & Ha & _). exists w. destruct (accepted_jobs_are_accounted (λ _, None) (λ _, "") ∅ w R) as ((Hp & _) & Hs & _ & Hr & _).
  rewrite Ha in Hp, Hr. split_and!; [exact R|exact Hs| | |exact Hp]; apply (Hr (mailTicket 0 "a")); constructor.
Defined.

Lemma not_displaced key max : 0 < max → ¬ displaced max [(key, 0)] key 0.
Proof.
  intros Hm (L & _ & Hk & Hl & HL). destruct L as [|x L]; [cbn in Hl; lia|]. destruct (HL x ltac:(by constructor)) as (t & Hin & _).
  apply list_elem_of_singleton in Hin as [= -> ->]. apply Hk. constructor.
Qed.


(** ** Findings *)

(** Replays are looked for before a job runs and recorded after it succeeded: two jobs
    of one key that are in flight together both run, and both succeed. *)
Theorem replays_in_flight_both_run : ∃ w, mails w ∧ finished w = [(0%nat, Succeeded); (1%nat, Succeeded)] ∧ runs w 0%nat = 1 ∧ runs w 1%nat = 1 ∧
  dedupeKey (mail "a" "k") = dedupeKey (mail "b" "k") ∧ accepted w = [mailTicket 0 "a"; mailTicket 1 "b"].
Proof.
  eassert (mails _) as R1 by (eapply reach_step; [apply reach_start|eapply (register_step _ _ _ (mkProcessor "mail" "out")); reflexivity]).
  eassert (mails _) as R2 by (eapply reach_step; [exact R1|eapply (enqueue_ok _ _ _ false false (mail "a" "k")); reflexivity]). vm_compute in R2.
  eassert (mails _) as R3 by (eapply reach_step; [exact R2|eapply (enqueue_ok _ _ _ false false (mail "b" "k")); reflexivity]). vm_compute in R3.
  eassert (mails _) as R4 by (eapply reach_step; [exact R3|apply (spawn_step _ _ _ 0%nat "out"); reflexivity]). vm_compute in R4.
  eassert (mails _) as R5 by (eapply reach_step; [exact R4|apply (spawn_step _ _ _ 1%nat "out"); reflexivity]). vm_compute in R5.
  pose proof (mails_take _ 0 "out" (mailTicket 0 "a") [mailTicket 1 "b"] R5 eq_refl ltac:(vm_compute; reflexivity)) as R6. vm_compute in R6.
  pose proof (mails_take _ 1 "out" (mailTicket 1 "b") [] R6 eq_refl ltac:(vm_compute; reflexivity)) as R7. vm_compute in R7.
  pose proof (mails_start _ 0 _ _ R7 eq_refl ltac:(vm_compute; reflexivity)) as R8. vm_compute in R8.
  pose proof (mails_start _ 1 _ _ R8 eq_refl ltac:(vm_compute; reflexivity)) as R9. vm_compute in R9.
  pose proof (mails_succeed _ 0 _ _ _ R9 eq_refl) as Ra. vm_compute in Ra.
  pose proof (mails_succeed _ 1 _ _ _ Ra eq_refl) as Rb. vm_compute in Rb.
  eexists. split; [exact Rb|]. split_and!; vm_compute; reflexivity.
Qed.

(** The prediction adds workers without looking at the maximum. *)
Theorem prediction_exceeds_maximum : maxAdaptiveWorkers < default 0 ((scaleAll {["mail" := 63]} [("mail", 0); ("mail", 0); ("mail", 512)]).1 !! "mail").
Proof. vm_compute. reflexivity. Qed.

(** A backoff is capped at thirty seconds before the jitter is added. *)
Theorem backoff_exceeds_its_cap : ∃ random, 0 ≤ random < backoffBase (mkJob "" "mail" "out" [] "" "" 9 20 0 0 0) / 2 ∧
  30000 * millisecond < NextBackoff (mkJob "" "mail" "out" [] "" "" 9 20 0 0 0) random.
Proof. exists 14000000000. vm_compute. split_and!; [done|done|done]. Qed.
