(* ===== verification/Segments.v ===== *)
(** * Segments: positions in a text and the parts between separators

    [strings.IndexByte] and its relatives, slices, and how [strings.Split] and
    [strings.Join] at a one-byte separator invert each other. *)

From Stdlib Require Import ZArith Lia Ascii String.
From stdpp Require Import base strings numbers list.
From S2P Require Import Prelude GoStrings.

Open Scope string_scope.
Open Scope list_scope.
Open Scope nat_scope.

(** [strings.IndexByte] and [strings.LastIndexByte]; [None] is -1. *)
Fixpoint IndexByte (s : string) (c : ascii) : option nat :=
  match s with
  | EmptyString => None
  | String d rest => if Ascii.eqb d c then Some 0 else S <$> IndexByte rest c
  end.

Fixpoint LastIndexByte (s : string) (c : ascii) : option nat :=
  match s with
  | EmptyString => None
  | String d rest => match LastIndexByte rest c with Some i => Some (S i) | None => if Ascii.eqb d c then Some 0 else None end
  end.

(** [s[i:j]], [s[i:]] and [s[:i]] *)
Definition slice (s : string) (i j : nat) : string := String.substring i (j - i) s.
Definition sliceFrom (s : string) (i : nat) : string := slice s i (String.length s).
Definition sliceTo (s : string) (i : nat) : string := slice s 0 i.

(** ** Positions and parts *)

Section Parts.
Context (sep : ascii).

Abbreviation free s := (Contains s (String sep "") = false).

Lemma index_none s : free s → IndexByte s sep = None.
Proof.
  induction s as [|d s IH]; [done|]. intros [Hd Hs]%contains_char_cons. cbn [IndexByte].
  destruct (Ascii.eqb_spec d sep); [congruence|]. by rewrite IH.
Qed.

Lemma index_first d r : free d → IndexByte (d +:+ String sep r) sep = Some (String.length d).
Proof.
  induction d as [|x d IH]; [intros _; rewrite append_empty_l; cbn [IndexByte]; by rewrite Ascii.eqb_refl|]. intros [Hx Hd]%contains_char_cons. rewrite append_cons. cbn [IndexByte String.length].
  destruct (Ascii.eqb_spec x sep); [congruence|]. by rewrite IH.
Qed.

Lemma last_index_none s : free s → LastIndexByte s sep = None.
Proof.
  induction s as [|d s IH]; [done|]. intros [Hd Hs]%contains_char_cons. cbn [LastIndexByte]. rewrite IH by done.
  destruct (Ascii.eqb_spec d sep); congruence.
Qed.

Lemma last_index_last h t : free t → LastIndexByte (h +:+ String sep t) sep = Some (String.length h).
Proof.
  intros Ht. induction h as [|x h IH].
  - rewrite append_empty_l. cbn [LastIndexByte]. rewrite last_index_none by done. by rewrite Ascii.eqb_refl.
  - rewrite append_cons. cbn [LastIndexByte String.length]. by rewrite IH.
Qed.

Lemma slice_to_prefix h r : sliceTo (h +:+ r) (String.length h) = h.
Proof. unfold sliceTo, slice. rewrite Nat.sub_0_r. apply substring_prefix. Qed.

Lemma slice_middle a b r : slice (a +:+ b +:+ r) (String.length a) (String.length a + String.length b) = b.
Proof.
  unfold slice. replace (String.length a + String.length b - String.length a) with (String.length b) by lia.
  induction a as [|x a IH]; [exact (substring_prefix b r)|]. rewrite append_cons. cbn [String.substring String.length]. exact IH.
Qed.

Lemma slice_from_suffix a r : sliceFrom (a +:+ r) (String.length a) = r.
Proof. unfold sliceFrom. rewrite length_append. pose proof (slice_middle a r "") as H. by rewrite append_nil_r in H. Qed.

Lemma slice_from_after a r : sliceFrom (a +:+ String sep r) (S (String.length a)) = r.
Proof.
  pose proof (slice_from_suffix (a +:+ String sep "") r) as H. rewrite length_append, append_assoc in H. cbn [String.length] in H.
  by rewrite Nat.add_1_r in H.
Qed.

Lemma split_sep_free s : Forall (λ w, free w) (Split sep s).
Proof.
  induction s as [|c s IH]; [by repeat constructor|]. cbn [Split]. destruct (Ascii.eqb_spec c sep) as [->|Hc].
  - by constructor.
  - destruct (Split sep s) as [|w ws]; [by repeat constructor; apply contains_char_cons|]. inversion IH; subst. constructor; [by apply contains_char_cons|done].
Qed.

Lemma join_cons x y l : Join (String sep "") (x :: y :: l) = x +:+ String sep (Join (String sep "") (y :: l)).
Proof. done. Qed.

Lemma join_split s : Join (String sep "") (Split sep s) = s.
Proof.
  induction s as [|c s IH]; [done|]. cbn [Split]. pose proof (split_nonempty sep s) as Hne. destruct (Split sep s) as [|w ws]; [done|].
  destruct (Ascii.eqb_spec c sep) as [->|Hc]; [by rewrite join_cons, IH|].
  destruct ws as [|w' ws]; cbn [Join] in *; rewrite append_cons || idtac; by rewrite IH.
Qed.

Lemma split_free w : free w → Split sep w = [w].
Proof.
  induction w as [|c w IH]; [done|]. intros [Hc Hw]%contains_char_cons. cbn [Split]. destruct (Ascii.eqb_spec c sep); [congruence|]. by rewrite IH.
Qed.

Lemma split_part w r : free w → Split sep (w +:+ String sep r) = w :: Split sep r.
Proof.
  induction w as [|c w IH]; [intros _; rewrite append_empty_l; cbn [Split]; by rewrite Ascii.eqb_refl|]. intros [Hc Hw]%contains_char_cons. rewrite append_cons. cbn [Split].
  destruct (Ascii.eqb_spec c sep); [congruence|]. by rewrite IH.
Qed.

Lemma split_join ws : ws ≠ [] → Forall (λ w, free w) ws → Split sep (Join (String sep "") ws) = ws.
Proof.
  intros Hne Hf. induction Hf as [|w ws Hw Hf IH]; [done|]. destruct ws as [|w' ws]; [by apply split_free|].
  rewrite join_cons, split_part by done. by rewrite IH.
Qed.

(** Texts part by part: one without the separator, or one before a separator and a rest. *)
Lemma parts_ind (P : string → Prop) : (∀ w, free w → P w) → (∀ w r, free w → P r → P (w +:+ String sep r)) → ∀ s, P s.
Proof.
  intros Hlast Hmore s. rewrite <- (join_split s). pose proof (split_nonempty sep s) as Hne. induction (split_sep_free s) as [|w ws Hw _ IH]; [done|].
  destruct ws as [|w' ws]; [by apply Hlast|]. rewrite join_cons. apply Hmore; [done|]. by apply IH.
Qed.

Lemma join_snoc ws t : ws ≠ [] → Join (String sep "") (ws ++ [t]) = Join (String sep "") ws +:+ String sep t.
Proof.
  induction ws as [|w [|w' ws] IH]; intros Hne; [done|done|]. cbn [app]. rewrite !join_cons, append_assoc, append_cons. f_equal. f_equal. by apply IH.
Qed.

Lemma join_empty ws : Join (String sep "") ws = "" → ws = [] ∨ ws = [""].
Proof.
  destruct ws as [|w [|w' ws]]; [by left|intros H; cbn in H; subst; by right|]. rewrite join_cons. intros H%(f_equal String.length).
  rewrite length_append in H. cbn in H. lia.
Qed.

End Parts.
