(* ===== verification/EventTypes.v ===== *)
(** * EventTypes: the grammar of event types (src/server-kit/go/events/contract.go)

    An event type is [domain:action[:vN]:state]. The code reads it twice: the validator
    walks byte positions, the parser splits at colons. Both are modelled as written, and
    each is related to the colon-free parts of the text. Bytes stand for runes: a rune
    beyond ASCII is in none of the classes tested, nor are its bytes. *)

From Stdlib Require Import ZArith Lia Ascii String.
From stdpp Require Import base strings numbers list.
From S2P Require Import Prelude GoStrings Segments.

Open Scope string_scope.
Open Scope list_scope.
Open Scope nat_scope.

Abbreviation colon := (":"%char).
Abbreviation colonFree s := (Contains s ":" = false).

(** ** Terminal states *)

(** The source of truth of the terminal states, and the perfect hash table built for it. *)
Definition terminalStates : list string := ["requested"; "success"; "failed"; "ack"].
Definition terminalAsso (b : ascii) : Z := if Ascii.eqb b "s" then 1 else 0.
Definition terminalTable : list string := ["success"; "requested"; "failed"; "ack"].

Definition IsValidTerminalState (state : string) : bool :=
  if (String.length state <? 3) || (9 <? String.length state) then false
  else match state with
       | EmptyString => false
       | String c _ =>
           let slot := Z.land (Z.of_nat (String.length state) + terminalAsso c) 3 in
           match terminalTable !! Z.to_nat slot with Some known => String.eqb known state | None => false end
       end.

(** ** Segments *)

Definition isSnakeByte (c : ascii) : bool := byteIn c 97 122 || byteIn c 48 57 || byteIs c 95.

Definition isLowerSnake (seg : string) : bool :=
  if String.eqb seg "" then false else forallb isSnakeByte (list_ascii_of_string seg).

Definition isDigits (s : string) : bool :=
  if String.eqb s "" then false else forallb (λ c, byteIn c 48 57) (list_ascii_of_string s).

Definition isVersionSegment (seg : string) : bool :=
  match seg with
  | String "v" rest => if String.length seg <? 2 then false else isDigits rest
  | _ => false
  end.

Inductive event_error := ErrRequired | ErrSegments | ErrTerminal (terminal : string) | ErrDomain (domain : string) | ErrNoAction | ErrAction (segment : string).

(** The loop of [validateActionSegments]; the fuel is one more than the length. *)
Fixpoint validateLoop (fuel start : nat) (segments : string) : option event_error :=
  match fuel with
  | O => None
  | S fuel =>
      if start <=? String.length segments then
        let next := IndexByte (sliceFrom segments start) colon in
        let end_ := match next with Some n => start + n | None => String.length segments end in
        let segment := slice segments start end_ in
        if negb (isLowerSnake segment) then Some (ErrAction segment)
        else match next with None => None | Some _ => validateLoop fuel (S end_) segments end
      else None
  end.

Definition validateActionSegments (segments : string) : option event_error := validateLoop (S (String.length segments)) 0 segments.

Definition ValidateEventType (eventType : string) : option event_error :=
  let et := TrimSpace eventType in
  if String.eqb et "" then Some ErrRequired
  else
    match LastIndexByte et colon with
    | None => Some ErrSegments
    | Some lastColon =>
        if (lastColon =? 0) || (lastColon =? String.length et - 1) then Some ErrSegments
        else
          let terminal := sliceFrom et (S lastColon) in
          if negb (IsValidTerminalState terminal) then Some (ErrTerminal terminal)
          else
            let head := sliceTo et lastColon in
            match IndexByte head colon with
            | None => Some ErrSegments
            | Some firstColon =>
                if (firstColon =? 0) || (firstColon =? String.length head - 1) then Some ErrSegments
                else
                  let domain := sliceTo head firstColon in
                  if negb (isLowerSnake domain) then Some (ErrDomain domain)
                  else
                    let actionSegments := sliceFrom head (S firstColon) in
                    let actionSegments :=
                      match LastIndexByte actionSegments colon with
                      | Some versionColon => if isVersionSegment (sliceFrom actionSegments (S versionColon)) then sliceTo actionSegments versionColon else actionSegments
                      | None => actionSegments
                      end in
                    if String.eqb actionSegments "" then Some ErrNoAction else validateActionSegments actionSegments
            end
    end.

(** ** Parsing *)

Record ParsedEventType := mkParsed { Raw : string; Domain : string; Action : string; Version : string; State : string }.

Definition firstInvalid (segs : list string) : option string := head (filter (λ seg, isLowerSnake seg = false) segs).

Definition ParseEventType (eventType : string) : res event_error ParsedEventType :=
  let et := TrimSpace eventType in
  if String.eqb et "" then Err ErrRequired
  else
    let parts := Split colon et in
    if length parts <? 3 then Err ErrSegments
    else
      let terminal := default "" (last parts) in
      if negb (IsValidTerminalState terminal) then Err (ErrTerminal terminal)
      else
        let domain := default "" (head parts) in
        if negb (isLowerSnake domain) then Err (ErrDomain domain)
        else
          let actionSegments := drop 1 (take (length parts - 1) parts) in
          let candidate := default "" (last actionSegments) in
          let '(version, actionSegments) :=
            if isVersionSegment candidate then (candidate, take (length actionSegments - 1) actionSegments) else ("", actionSegments) in
          match actionSegments with
          | [] => Err ErrNoAction
          | _ => match firstInvalid actionSegments with
                 | Some seg => Err (ErrAction seg)
                 | None => Ok (mkParsed et domain (Join ":" actionSegments) version terminal)
                 end
          end.

Definition TerminalState (eventType : string) : string :=
  let et := TrimSpace eventType in
  match LastIndexByte et colon with
  | None => ""
  | Some lastColon =>
      if (lastColon =? 0) || (lastColon =? String.length et - 1) then ""
      else
        let terminal := sliceFrom et (S lastColon) in
        if negb (IsValidTerminalState terminal) then ""
        else match ValidateEventType et with Some _ => "" | None => terminal end
  end.

Definition EnsureTerminalState (eventType terminal : string) : string :=
  let terminal := TrimSpace terminal in
  if negb (IsValidTerminalState terminal) then TrimSpace eventType
  else
    match ParseEventType eventType with
    | Err _ =>
        let trimmed := TrimSpace eventType in
        if String.eqb trimmed "" then terminal
        else match LastIndexByte trimmed colon with
             | Some lastColon =>
                 if (0 <? lastColon) && IsValidTerminalState (sliceFrom trimmed (S lastColon)) then sliceTo trimmed lastColon +:+ ":" +:+ terminal
                 else trimmed +:+ ":" +:+ terminal
             | None => trimmed +:+ ":" +:+ terminal
             end
    | Ok parsed =>
        let parts := Domain parsed :: Split colon (Action parsed) in
        let parts := if String.eqb (Version parsed) "" then parts else parts ++ [Version parsed] in
        Join ":" (parts ++ [terminal])
    end.

(** ** What the validator and the parser accept *)

Lemma invalid_cons w ws : firstInvalid (w :: ws) = if isLowerSnake w then firstInvalid ws else Some w.
Proof. unfold firstInvalid. rewrite filter_cons. by destruct (isLowerSnake w); case_decide. Qed.

Lemma invalid_none segs : firstInvalid segs = None ↔ Forall (λ seg, isLowerSnake seg = true) segs.
Proof.
  induction segs as [|w ws IH]; [by split|]. rewrite Forall_cons, invalid_cons. destruct (isLowerSnake w); naive_solver.
Qed.

Lemma snake_nonempty w : isLowerSnake w = true → w ≠ "".
Proof. by intros H ->. Qed.

Lemma terminal_nonempty t : IsValidTerminalState t = true → t ≠ "".
Proof. by intros H ->. Qed.

(** The positions of [validateActionSegments] walk the parts in order. *)
Lemma validate_loop_parts ws : ∀ fuel a, ws ≠ [] → Forall (λ w, colonFree w) ws → String.length (Join ":" ws) < fuel →
  validateLoop fuel (String.length a) (a +:+ Join ":" ws) = ErrAction <$> firstInvalid ws.
Proof.
  induction ws as [|w ws IH]; intros [|fuel] a Hne Hf Hl; [done|done|lia|]. apply Forall_cons in Hf as [Hw Hf]. cbn [validateLoop].
  rewrite (proj2 (Nat.leb_le _ _)) by (rewrite length_append; lia). rewrite slice_from_suffix, invalid_cons.
  destruct ws as [|w' ws].
  - cbn [Join]. rewrite index_none by done. pose proof (slice_from_suffix a w) as E. unfold sliceFrom in E. rewrite E. by destruct (isLowerSnake w).
  - rewrite join_cons, index_first by done. rewrite slice_middle. destruct (isLowerSnake w); [|done]. cbn [negb].
    pose proof (IH fuel (a +:+ w +:+ ":")) as E. rewrite !append_assoc, !length_append in E. cbn [String.length] in E.
    rewrite join_cons, length_append in Hl. cbn [String.length] in Hl. rewrite <- E by (done || lia). f_equal. lia.
Qed.

(** The version is the last action segment, where another one is left before it. *)
Definition withoutVersion (init : list string) (v : string) : list string :=
  match init with [] => [v] | _ => if isVersionSegment v then init else init ++ [v] end.

Lemma validate_actions init v : Forall (λ w, colonFree w) (init ++ [v]) →
  let segs := Join ":" (init ++ [v]) in
  match LastIndexByte segs colon with
  | Some i => if isVersionSegment (sliceFrom segs (S i)) then sliceTo segs i else segs
  | None => segs
  end = Join ":" (withoutVersion init v).
Proof.
  intros [Hi Hv]%Forall_app. inversion Hv; subst. cbn zeta. destruct init as [|w init]; [cbn [app Join]; by rewrite last_index_none|].
  rewrite join_snoc by done. rewrite last_index_last, slice_from_after by done. rewrite slice_to_prefix. unfold withoutVersion.
  destruct (isVersionSegment v); [done|]. by rewrite join_snoc.
Qed.

Lemma without_version_free init v : Forall (λ w, colonFree w) (init ++ [v]) → Forall (λ w, colonFree w) (withoutVersion init v) ∧ withoutVersion init v ≠ [].
Proof. unfold withoutVersion. intros H. destruct init; [done|]. destruct (isVersionSegment v); [by apply Forall_app in H as [? _]|done]. Qed.

Lemma validate_parts et d init v t : TrimSpace et = Join ":" (d :: (init ++ [v]) ++ [t]) → Forall (λ w, colonFree w) (d :: (init ++ [v]) ++ [t]) →
  ValidateEventType et = None ↔ IsValidTerminalState t = true ∧ isLowerSnake d = true ∧ Forall (λ seg, isLowerSnake seg = true) (withoutVersion init v).
Proof.
  intros E [Hd [Ha Ht]%Forall_app]%Forall_cons. inversion Ht; subst. set (acts := init ++ [v]) in *. assert (acts ≠ []) as Hne by (by destruct init).
  destruct (without_version_free init v Ha) as [Hf Hne']. unfold ValidateEventType. rewrite E. rewrite app_comm_cons, join_snoc by done.
  assert (Join ":" (d :: acts) = d +:+ String colon (Join ":" acts)) as Ej by (by destruct acts).
  rewrite Ej. set (h := d +:+ String colon (Join ":" acts)). rewrite last_index_last, slice_from_after, slice_to_prefix by done.
  assert (IndexByte h colon = Some (String.length d)) as -> by (by apply index_first). assert (sliceTo h (String.length d) = d) as -> by apply slice_to_prefix.
  assert (sliceFrom h (S (String.length d)) = Join ":" acts) as -> by apply slice_from_after.
  pose proof (validate_actions init v Ha) as Ev. fold acts in Ev. cbn zeta in Ev |- *. rewrite Ev.
  destruct (String.eqb_spec (h +:+ String colon t) "") as [H0|_]; [by apply (f_equal String.length) in H0; rewrite length_append in H0; cbn in H0; lia|].
  destruct (IsValidTerminalState t) eqn:Et; cbn [negb]; [|destruct (_ || _); naive_solver]. pose proof (terminal_nonempty t Et). destruct t as [|c t]; [done|].
  rewrite (proj2 (orb_false_iff _ _)); [|unfold h; rewrite !length_append; cbn; split; apply Nat.eqb_neq; lia].
  destruct (isLowerSnake d) eqn:Ed; cbn [negb]; [|destruct (_ || _); naive_solver]. pose proof (snake_nonempty d Ed). destruct d as [|c' d]; [done|].
  unfold h. rewrite length_append. cbn [String.length].
  destruct (_ || _) eqn:B.
  - split; [done|]. intros (_ & _ & Hs). rewrite orb_true_iff, !Nat.eqb_eq in B. assert (Join ":" acts = "") as Ea by (destruct (Join ":" acts); [done|cbn in B; lia]).
    apply join_empty in Ea as [?|Ea]; [done|]. assert (init = [] ∧ v = "") as [-> ->] by (destruct init as [|? [|]]; by simplify_eq/=). by inversion Hs.
  - destruct (String.eqb_spec (Join ":" (withoutVersion init v)) "") as [Ea|_].
    + split; [done|]. intros (_ & _ & Hs). apply join_empty in Ea as [?|Ea]; [done|]. rewrite Ea in Hs. by inversion Hs.
    + unfold validateActionSegments. pose proof (validate_loop_parts (withoutVersion init v) (S (String.length (Join ":" (withoutVersion init v)))) "" Hne' Hf ltac:(lia)) as El.
      rewrite append_empty_l in El. cbn [String.length] in El. rewrite El, <- invalid_none. destruct (firstInvalid _); cbn; naive_solver.
Qed.

Lemma parse_parts et d init v t : TrimSpace et = Join ":" (d :: (init ++ [v]) ++ [t]) → Forall (λ w, colonFree w) (d :: (init ++ [v]) ++ [t]) →
  let '(version, acts) := if isVersionSegment v then (v, init) else ("", init ++ [v]) in
  ∀ p, ParseEventType et = Ok p ↔ IsValidTerminalState t = true ∧ isLowerSnake d = true ∧ acts ≠ [] ∧ Forall (λ seg, isLowerSnake seg = true) acts ∧
    p = mkParsed (TrimSpace et) d (Join ":" acts) version t.
Proof.
  intros E Hf. unfold ParseEventType. rewrite E, split_join by done.
  assert (Join ":" (d :: (init ++ [v]) ++ [t]) ≠ "") as Hne by (intros [?|H]%join_empty; [done|by destruct init]). apply String.eqb_neq in Hne as ->.
  assert ((length (d :: (init ++ [v]) ++ [t]) <? 3) = false) as -> by (apply Nat.ltb_ge; cbn; rewrite !length_app; cbn; lia).
  rewrite app_comm_cons, last_snoc, length_app, Nat.add_sub, take_app_length. cbn [from_option id head drop app]. rewrite skipn_O, last_snoc.
  cbn [from_option id]. rewrite length_app, Nat.add_sub, take_app_length.
  destruct (IsValidTerminalState t), (isLowerSnake d); cbn [negb]; try (destruct (isVersionSegment v); naive_solver).
  destruct (if isVersionSegment v then (v, init) else ("", init ++ [v])) as [version acts]. intros p. destruct acts as [|a acts]; [naive_solver|].
  pose proof (invalid_none (a :: acts)) as Hi. destruct (firstInvalid (a :: acts)) as [s|]; naive_solver.
Qed.

(** Three parts or more are a domain, action segments and a state. *)
Lemma parts_cases et : let parts := Split colon (TrimSpace et) in
  (length parts < 3 ∧ ValidateEventType et ≠ None ∧ ∀ p, ParseEventType et ≠ Ok p) ∨ ∃ d init v t, parts = d :: (init ++ [v]) ++ [t].
Proof.
  intros parts. unfold parts. pose proof (join_split colon (TrimSpace et)) as Ej. pose proof (split_sep_free colon (TrimSpace et)) as Hf.
  assert (∀ p, length (Split colon (TrimSpace et)) < 3 → ParseEventType et ≠ Ok p) as Hp.
  { intros p Hl. unfold ParseEventType. rewrite (proj2 (Nat.ltb_lt _ _) Hl). by destruct (String.eqb _ _). }
  destruct (Split colon (TrimSpace et)) as [|d [|a [|b rest]]] eqn:Es; [by apply split_nonempty in Es|..].
  - left. split_and!; [cbn; lia| |intros p; apply Hp; cbn; lia]. unfold ValidateEventType. rewrite <- Ej. cbn [Join]. inversion Hf; subst.
    rewrite last_index_none by done. by destruct (String.eqb _ _).
  - left. split_and!; [cbn; lia| |intros p; apply Hp; cbn; lia]. apply Forall_cons in Hf as [Hd Ha]. inversion Ha; subst. unfold ValidateEventType. rewrite <- Ej, join_cons. cbn [Join].
    rewrite last_index_last, slice_to_prefix, index_none by done. by repeat (match goal with |- context [if ?b then _ else _] => destruct b end).
  - right. exists d. destruct (exists_last (l := a :: b :: rest)) as (l' & t & E'); [done|].
    destruct (exists_last (l := l')) as (init & v & ->); [by destruct l'|]. exists init, v, t. by rewrite E'.
Qed.

(** ** The perfect hash table *)

Lemma terminal_table_exact s : IsValidTerminalState s = true ↔ s ∈ terminalStates.
Proof.
  split.
  - unfold IsValidTerminalState. destruct (_ || _); [done|]. destruct s as [|c s]; [done|]. set (slot := Z.to_nat _). intros H.
    destruct (terminalTable !! slot) as [known|] eqn:E; [|done]. apply String.eqb_eq in H as <-. apply list_elem_of_lookup_2 in E.
    unfold terminalTable in E. unfold terminalStates. rewrite !elem_of_cons in *. naive_solver.
  - unfold terminalStates. intros H. repeat (apply elem_of_cons in H as [->|H]; [reflexivity|]). by apply elem_of_nil in H.
Qed.

(** ** Well-formed event types *)

Record wellFormed (d : string) (acts : list string) (version t : string) : Prop := {
  wf_domain : isLowerSnake d = true;
  wf_acts : acts ≠ [];
  wf_snake : Forall (λ seg, isLowerSnake seg = true) acts;
  wf_version : isVersionSegment version = true ∨ version = "" ∧ isVersionSegment (default "" (last acts)) = false;
  wf_state : IsValidTerminalState t = true
}.

Definition format (d : string) (acts : list string) (version t : string) : string :=
  Join ":" ((if String.eqb version "" then d :: acts else (d :: acts) ++ [version]) ++ [t]).

Lemma snake_plain w : forallb isSnakeByte (list_ascii_of_string w) = true → plainText w ∧ colonFree w.
Proof.
  induction w as [|c w IH]; cbn [forallb list_ascii_of_string]; [by repeat constructor|]. rewrite andb_true_iff. intros [Hc Hw]. destruct (IH Hw) as [Hp Hf].
  assert (byteIn c 33 127 = true ∧ c ≠ colon) as [Hb Hn].
  { unfold isSnakeByte, byteIn, byteIs in Hc. rewrite !orb_true_iff, !andb_true_iff, !Nat.leb_le, Nat.eqb_eq in Hc. split.
    - unfold byteIn. rewrite andb_true_iff, !Nat.leb_le. lia.
    - intros ->. change (nat_of_ascii ":") with 58 in Hc. lia. }
  split; [by constructor|by apply contains_char_cons].
Qed.

Lemma lower_snake_plain w : isLowerSnake w = true → plainText w ∧ colonFree w.
Proof. unfold isLowerSnake. destruct (String.eqb w ""); [done|]. apply snake_plain. Qed.

Lemma version_snake v : isVersionSegment v = true → isLowerSnake v = true.
Proof.
  unfold isVersionSegment. destruct v as [|c r]; [done|]. destruct (Ascii.eqb_spec c "v"%char) as [->|Hc]; [|destruct c as [[] [] [] [] [] [] [] []]; done].
  destruct (_ <? _); [done|]. unfold isDigits, isLowerSnake. destruct (String.eqb r ""); [done|]. cbn [String.eqb list_ascii_of_string forallb]. intros H.
  change (isSnakeByte "v") with true. cbn [andb]. eapply forallb_forall. intros x Hx. apply (proj1 (forallb_forall _ _) H) in Hx. unfold isSnakeByte. by rewrite Hx, orb_true_r.
Qed.

Lemma terminal_snake t : IsValidTerminalState t = true → isLowerSnake t = true ∧ TrimSpace t = t.
Proof.
  rewrite terminal_table_exact. unfold terminalStates. intros H. repeat (apply elem_of_cons in H as [->|H]; [by split; vm_compute|]). by apply elem_of_nil in H.
Qed.

Lemma join_plain ws : Forall plainText ws → plainText (Join ":" ws).
Proof.
  induction 1 as [|w ws Hw Hf IH]; [constructor|]. destruct ws; [done|]. rewrite join_cons. apply plain_append; [done|]. by constructor.
Qed.

Lemma format_snake d acts version t : wellFormed d acts version t →
  Forall (λ seg, isLowerSnake seg = true) ((if String.eqb version "" then d :: acts else (d :: acts) ++ [version]) ++ [t]).
Proof.
  intros [Hd _ Ha Hv Ht]. apply Forall_app. split; [|repeat constructor; by apply terminal_snake].
  assert (Forall (λ seg, isLowerSnake seg = true) (d :: acts)) by (by constructor). destruct (String.eqb_spec version ""); [done|].
  apply Forall_app. split; [done|]. repeat constructor. destruct Hv as [Hv|[? _]]; [by apply version_snake|done].
Qed.

Lemma format_trimmed d acts version t : wellFormed d acts version t → TrimSpace (format d acts version t) = format d acts version t.
Proof. intros H%format_snake. apply trim_space_plain, join_plain. eapply Forall_impl; [exact H|]. intros w. apply lower_snake_plain. Qed.

(** A version after the action segments. *)
Lemma version_nonempty v : isVersionSegment v = true → String.eqb v "" = false.
Proof. by destruct v. Qed.

Lemma parse_format et d acts version t : wellFormed d acts version t → TrimSpace et = format d acts version t →
  ParseEventType et = Ok (mkParsed (TrimSpace et) d (Join ":" acts) version t).
Proof.
  intros Hwf E. pose proof (format_snake _ _ _ _ Hwf) as Hs. pose proof Hwf as [Hd Hne Ha Hv Ht]. unfold format in E.
  assert (∀ l, Forall (λ seg, isLowerSnake seg = true) l → Forall (λ w, colonFree w) l) as Hfree.
  { intros l Hl. eapply Forall_impl; [exact Hl|]. intros w. apply lower_snake_plain. }
  destruct Hv as [Hv|[-> Hv]].
  - rewrite version_nonempty in * by done. pose proof (parse_parts et d acts version t E (Hfree _ Hs)) as H. rewrite Hv in H. by apply H.
  - cbn [String.eqb] in *. destruct (exists_last Hne) as (init & v & ->). rewrite last_snoc in Hv. cbn in Hv.
    pose proof (parse_parts et d init v t E (Hfree _ Hs)) as H. rewrite Hv in H. by apply H.
Qed.

Lemma parse_inv et p : ParseEventType et = Ok p → ∃ d acts version t,
  wellFormed d acts version t ∧ TrimSpace et = format d acts version t ∧ p = mkParsed (TrimSpace et) d (Join ":" acts) version t.
Proof.
  intros Hp. destruct (parts_cases et) as [(_ & _ & H)|(d & init & v & t & E)]; [by apply H in Hp|].
  pose proof (join_split colon (TrimSpace et)) as Ej. pose proof (split_sep_free colon (TrimSpace et)) as Hf. rewrite E in Ej, Hf. symmetry in Ej.
  pose proof (parse_parts et d init v t Ej Hf) as H. destruct (isVersionSegment v) eqn:Ev; destruct (proj1 (H p) Hp) as (Ht & Hd & Hne & Hs & ->); clear H.
  - exists d, init, v, t. split_and!; [|by unfold format; rewrite version_nonempty|done]. split; auto.
  - exists d, (init ++ [v]), "", t. split_and!; [|done|done]. split; auto. right. by rewrite last_snoc.
Qed.

Lemma parsed_validates et p : ParseEventType et = Ok p → ValidateEventType et = None.
Proof.
  intros Hp. destruct (parts_cases et) as [(_ & _ & H)|(d & init & v & t & E)]; [by apply H in Hp|].
  pose proof (join_split colon (TrimSpace et)) as Ej. pose proof (split_sep_free colon (TrimSpace et)) as Hf. rewrite E in Ej, Hf. symmetry in Ej.
  apply (validate_parts et d init v t Ej Hf). pose proof (parse_parts et d init v t Ej Hf) as H. unfold withoutVersion.
  destruct (isVersionSegment v); destruct (proj1 (H p) Hp) as (? & ? & Hne & Hs & _); (split_and!; [done|done|]); destruct init; done.
Qed.

Lemma validate_trim et : ValidateEventType (TrimSpace et) = ValidateEventType et.
Proof. unfold ValidateEventType. by rewrite trim_space_idemp. Qed.

Lemma terminal_state_format et d acts version t : wellFormed d acts version t → TrimSpace et = format d acts version t → TerminalState et = t.
Proof.
  intros Hwf E. pose proof (parsed_validates et _ (parse_format et _ _ _ _ Hwf E)) as Hv. unfold TerminalState. rewrite validate_trim, Hv, E. unfold format.
  set (ws := if String.eqb version "" then _ else _). assert (ws ≠ [] ∧ ws ≠ [""]) as [Hne He].
  { unfold ws. destruct Hwf as [Hd Hne]. destruct (String.eqb version ""); (split; [done|]); [|by destruct acts]. by destruct acts. }
  destruct Hwf as [_ _ _ _ Ht]. destruct (lower_snake_plain t) as [_ Hf]; [by apply terminal_snake|].
  rewrite join_snoc, last_index_last, slice_from_after, Ht by done. cbn [negb].
  rewrite (proj2 (orb_false_iff _ _)); [done|]. pose proof (terminal_nonempty t Ht). rewrite length_append, !Nat.eqb_neq. split; [|destruct t; [done|cbn; lia]].
  intros H0. destruct (Join ":" ws) eqn:Ew; [|done]. apply join_empty in Ew as [?|?]; done.
Qed.

Lemma ensure_format et d acts version t t' : wellFormed d acts version t → TrimSpace et = format d acts version t → IsValidTerminalState t' = true →
  EnsureTerminalState et t' = format d acts version t'.
Proof.
  intros Hwf E Ht'. unfold EnsureTerminalState. destruct (terminal_snake t' Ht') as [_ ->]. rewrite Ht'. cbn [negb].
  rewrite (parse_format et d acts version t Hwf E). cbn [Domain Action Version]. unfold format. rewrite split_join; [done|apply Hwf|].
  eapply Forall_impl; [apply (wf_snake _ _ _ _ Hwf)|]. intros w. apply lower_snake_plain.
Qed.

(** ** Main theorems *)

(** C32: the two readers of an event type agree. The hash table accepts exactly the
    terminal states, and the validator accepts what the parser accepts, and beyond it
    only a domain and a state with a lone version segment for an action. *)
Theorem validator_agrees_with_parser et :
  (∀ s, IsValidTerminalState s = true ↔ s ∈ terminalStates) ∧
  (ValidateEventType et = None ↔ (∃ p, ParseEventType et = Ok p) ∨
     ∃ d v t, TrimSpace et = Join ":" [d; v; t] ∧ isLowerSnake d = true ∧ isVersionSegment v = true ∧ IsValidTerminalState t = true).
Proof.
  split; [apply terminal_table_exact|]. split.
  - intros Hv. destruct (parts_cases et) as [(_ & H & _)|(d & init & v & t & E)]; [done|].
    pose proof (join_split colon (TrimSpace et)) as Ej. pose proof (split_sep_free colon (TrimSpace et)) as Hf. rewrite E in Ej, Hf. symmetry in Ej.
    destruct (proj1 (validate_parts et d init v t Ej Hf) Hv) as (Ht & Hd & Hs). pose proof (parse_parts et d init v t Ej Hf) as H. unfold withoutVersion in Hs.
    destruct init as [|w init].
    + destruct (isVersionSegment v) eqn:Ev; [by right; exists d, v, t|]. left. eexists. apply H. by split_and!.
    + left. destruct (isVersionSegment v); eexists; apply H; by split_and!.
  - intros [[p Hp]|(d & v & t & E & Hd & Hv & Ht)]; [by eapply parsed_validates|].
    apply (validate_parts et d [] v t E); [|split_and!; [done|done|by repeat constructor; apply version_snake]].
    repeat constructor; apply lower_snake_plain; [done|by apply version_snake|by apply terminal_snake].
Qed.

(** Event types survive being taken apart and put together. What parses is its own
    domain, action, version and state joined again; another terminal state replaces the
    state and nothing else; and the terminal state read off is the parsed one. *)
Theorem event_type_round_trip et p t : ParseEventType et = Ok p → t ∈ terminalStates →
  let et' := EnsureTerminalState et t in
  EnsureTerminalState et (State p) = TrimSpace et ∧ TerminalState et = State p ∧
  ParseEventType et' = Ok (mkParsed et' (Domain p) (Action p) (Version p) t) ∧ TerminalState et' = t.
Proof.
  intros Hp Ht%terminal_table_exact et'. destruct (parse_inv et p Hp) as (d & acts & version & s & Hwf & E & ->). cbn [State Domain Action Version].
  assert (wellFormed d acts version t) as Hwf' by (by destruct Hwf; split). assert (et' = format d acts version t) as Ee by (by apply (ensure_format et d acts version s)).
  assert (TrimSpace et' = et') as Htr by (rewrite Ee; by apply format_trimmed). split_and!.
  - rewrite E. apply (ensure_format et d acts version s); [done|done|apply Hwf].
  - by apply (terminal_state_format et d acts version s).
  - rewrite <- Htr at 2. apply parse_format; [done|]. by rewrite Htr.
  - eapply terminal_state_format; [done|]. by rewrite Htr.
Qed.

Lemma event_type_round_trip_witness :
  ∃ p, ParseEventType " media:upload:part:v2:requested " = Ok p ∧ "success" ∈ terminalStates ∧
  EnsureTerminalState " media:upload:part:v2:requested " "success" = "media:upload:part:v2:success" ∧
  TerminalState " media:upload:part:v2:requested " = State p ∧ TerminalState (EnsureTerminalState " media:upload:part:v2:requested " "success") = "success".
Proof.
  eexists. split; [vm_compute; reflexivity|]. assert ("success" ∈ terminalStates) as Hs by (apply elem_of_cons; right; apply elem_of_cons; by left).
  split; [exact Hs|]. split; [vm_compute; reflexivity|].
  destruct (event_type_round_trip " media:upload:part:v2:requested " _ "success" ltac:(vm_compute; reflexivity) Hs) as (_ & H1 & _ & H2). split; [exact H1|exact H2].
Defined.

(** The validator takes a lone version segment for an action, the parser does not. *)
Theorem lone_version_validates : ValidateEventType "media:v1:success" = None ∧ ParseEventType "media:v1:success" = Err ErrNoAction ∧
  TerminalState "media:v1:success" = "success" ∧ EnsureTerminalState "media:v1:success" "failed" = "media:v1:failed".
Proof. vm_compute. done. Qed.
