(* ===== verification/Transfer.v ===== *)
(** * Transfer: long-running transfers (src/server-kit/go/transfer/transfer.go, tracker.go, manager.go)

    A transfer is a tracker: a phase, byte counts and a sequence number, changed under
    its own lock. The manager keeps the live trackers by identifier in a bounded map and
    brackets each with bookend events. Trackers are objects with an address, because
    callers keep them after the manager forgot them; [world] holds them, the manager's
    map, the calls in progress and the bookends handed to the bus, and [step] interleaves
    calls wherever the code holds no lock. *)

From Stdlib Require Import ZArith Lia Ascii String.
From stdpp Require Import base strings gmap fin_maps fin_sets numbers relations list.
From S2P Require Import Prelude GoStrings Extension Segments EventTypes.

Open Scope string_scope.
Open Scope list_scope.
Open Scope Z_scope.

(** ** Phases *)

Abbreviation Phase := string.
Definition PhasePending : Phase := "pending".
Definition PhaseUploading : Phase := "uploading".
Definition PhaseStaged : Phase := "staged".
Definition PhaseProcessing : Phase := "processing".
Definition PhaseReady : Phase := "ready".
Definition PhaseFailed : Phase := "failed".
Definition PhaseAborted : Phase := "aborted".

Definition terminalPhases : list Phase := [PhaseReady; PhaseFailed; PhaseAborted].
Definition forwardEdges : list (Phase * Phase) :=
  [(PhasePending, PhaseUploading); (PhaseUploading, PhaseStaged); (PhaseStaged, PhaseProcessing); (PhaseProcessing, PhaseReady)].

Definition IsTerminal (p : Phase) : bool := bool_decide (p ∈ terminalPhases).

Definition IsValidPhase (p : Phase) : bool :=
  bool_decide (p ∈ [PhasePending; PhaseUploading; PhaseStaged; PhaseProcessing; PhaseReady; PhaseFailed; PhaseAborted]).

Definition CanTransition (from to : Phase) : bool :=
  if negb (IsValidPhase from) || negb (IsValidPhase to) then false
  else if IsTerminal from || String.eqb from to then false
  else if String.eqb to PhaseFailed || String.eqb to PhaseAborted then true
  else match mapGet forwardEdges from with Some next => String.eqb next to | None => false end.

(** ** Trackers *)

Inductive transfer_error := ErrInvalidTransition | ErrTerminal | ErrEmptyID | ErrEmptyCorrelation | ErrIdentifier | ErrNegativeBytes | ErrNotFound
| ErrCapacity | ErrDuplicate | ErrDomainRequired | ErrActionRequired | ErrIdentity | ErrPublish.

Record Update := mkUpdate {
  TransferID : string; CorrelationID : string; UPhase : Phase; BytesDone : Z; BytesTotal : Z; Checksum : string; Reason : string; Seq : Z; Timestamp : Z
}.

Definition zeroUpdate : Update := mkUpdate "" "" "" 0 0 "" "" 0 0.

Definition Terminal (u : Update) : bool := IsTerminal (UPhase u).

Inductive identifier := ForID | ForCorrelation.

Definition ContainsAny (s chars : string) : bool :=
  existsb (λ c, bool_decide (c ∈ list_ascii_of_string chars)) (list_ascii_of_string s).

Definition identifierBreaks : string := String ":" (String " " (String "009" (String "010" ""))).

Definition validateIdentifier (kind : identifier) (value : string) : res transfer_error string :=
  let v := TrimSpace value in
  if String.eqb v "" then Err (match kind with ForID => ErrEmptyID | ForCorrelation => ErrEmptyCorrelation end)
  else if ContainsAny v identifierBreaks then Err ErrIdentifier
  else Ok v.

(** [subs]: the subscribers, by the number they were given. *)
Record Tracker := mkTracker {
  tid : string; correlationID : string; phase : Phase; bytesDone : Z; bytesTotal : Z; checksum : string; reason : string; seq : Z; updatedAt : Z;
  subs : gset nat; nextID : nat
}.

Definition newTracker (id correlation : string) (total now : Z) : Tracker :=
  mkTracker id correlation PhasePending 0 (if total <? 0 then 0 else total) "" "" 0 now ∅ 0.

Definition NewTracker (id correlation : string) (total now : Z) : res transfer_error Tracker :=
  match validateIdentifier ForID id with
  | Err e => Err e
  | Ok validID => match validateIdentifier ForCorrelation correlation with Err e => Err e | Ok validCorrelation => Ok (newTracker validID validCorrelation total now) end
  end.

Definition snapshotLocked (t : Tracker) : Update :=
  mkUpdate (tid t) (correlationID t) (phase t) (bytesDone t) (bytesTotal t) (checksum t) (reason t) (seq t) (updatedAt t).

(** Assign the fields a change sets, then bump the sequence ([advanceSeqLocked]). *)
Definition changeTo (t : Tracker) (now : Z) (p : Phase) (done total : Z) (sum why : string) : Tracker :=
  mkTracker (tid t) (correlationID t) p done total sum why (u64 (seq t + 1)) now (subs t) (nextID t).

Definition SetTotal (t : Tracker) (now total : Z) : Tracker * (Update * bool) :=
  if IsTerminal (phase t) || (total <=? 0) || (total =? bytesTotal t) || (total <? bytesDone t) then (t, (snapshotLocked t, false))
  else let t := changeTo t now (phase t) (bytesDone t) total (checksum t) (reason t) in (t, (snapshotLocked t, true)).

Definition Advance (t : Tracker) (now done : Z) : Tracker * (Update * option transfer_error) :=
  if done <? 0 then (t, (zeroUpdate, Some ErrNegativeBytes))
  else if IsTerminal (phase t) then (t, (snapshotLocked t, Some ErrTerminal))
  else if (done <=? bytesDone t) && negb (String.eqb (phase t) PhasePending) then (t, (snapshotLocked t, None))
  else
    let done := if bytesDone t <? done then done else bytesDone t in
    let total := if (0 <? bytesTotal t) && (bytesTotal t <? done) then done else bytesTotal t in
    let p := if String.eqb (phase t) PhasePending then PhaseUploading else phase t in
    let t := changeTo t now p done total (checksum t) (reason t) in (t, (snapshotLocked t, None)).

Record transitionConfig := mkOptions { oreason : string; ochecksum : string }.

Definition Transition (t : Tracker) (now : Z) (to : Phase) (cfg : transitionConfig) : Tracker * (Update * option transfer_error) :=
  if IsTerminal (phase t) then (t, (snapshotLocked t, Some ErrTerminal))
  else if negb (CanTransition (phase t) to) then (t, (snapshotLocked t, Some ErrInvalidTransition))
  else
    let why := if String.eqb (oreason cfg) "" then reason t else oreason cfg in
    let sum := if String.eqb (ochecksum cfg) "" then checksum t else ochecksum cfg in
    let done := if String.eqb to PhaseReady && (0 <? bytesTotal t) then bytesTotal t else bytesDone t in
    let t := changeTo t now to done (bytesTotal t) sum why in (t, (snapshotLocked t, None)).

(** [Subscribe] returns the number to cancel with and the snapshot delivered at once. *)
Definition setSubs (t : Tracker) (s : gset nat) (next : nat) : Tracker :=
  mkTracker (tid t) (correlationID t) (phase t) (bytesDone t) (bytesTotal t) (checksum t) (reason t) (seq t) (updatedAt t) s next.

Definition Subscribe (t : Tracker) : Tracker * (nat * Update) := (setSubs t ({[nextID t]} ∪ subs t) (S (nextID t)), (nextID t, snapshotLocked t)).
Definition Unsubscribe (t : Tracker) (id : nat) : Tracker := setSubs t (subs t ∖ {[id]}) (nextID t).

(** ** The manager *)

Definition DefaultMaxActive : Z := 4096.

Record Manager := mkManager { domain : string; action : string; version : string; bus : bool; maxActive : Z }.

Definition eventType (m : Manager) (state : string) : string :=
  let head := domain m +:+ ":" +:+ action m in
  let head := if String.eqb (version m) "" then head else head +:+ ":" +:+ version m in
  head +:+ ":" +:+ state.

Record Config := mkConfig { CDomain : string; CAction : string; CVersion : string; CBus : bool; CMaxActive : Z }.

Definition NewManager (cfg : Config) : res transfer_error Manager :=
  let domain := TrimSpace (CDomain cfg) in
  if String.eqb domain "" then Err ErrDomainRequired
  else
    let action := TrimSpace (CAction cfg) in
    if String.eqb action "" then Err ErrActionRequired
    else
      let m := mkManager domain action (TrimSpace (CVersion cfg)) (CBus cfg) (if CMaxActive cfg <=? 0 then DefaultMaxActive else CMaxActive cfg) in
      match ValidateEventType (eventType m "requested") with Some _ => Err ErrIdentity | None => Ok m end.

(** What [Complete], [Fail] and [Abort] ask of [settle]. *)
Inductive settlement := Complete (checksum : string) | Fail (reason : string) | Abort (reason : string).

Definition target (g : settlement) : Phase := match g with Complete _ => PhaseReady | Fail _ => PhaseFailed | Abort _ => PhaseAborted end.
Definition stateOf (g : settlement) : string := match g with Complete _ => "success" | Fail _ | Abort _ => "failed" end.
Definition optionsOf (g : settlement) : transitionConfig :=
  match g with Complete c => mkOptions "" (TrimSpace c) | Fail r | Abort r => mkOptions (TrimSpace r) "" end.

Definition phaseRank (p : Phase) : Z :=
  if String.eqb p PhasePending then 0 else if String.eqb p PhaseUploading then 1 else if String.eqb p PhaseStaged then 2
  else if String.eqb p PhaseProcessing then 3 else if String.eqb p PhaseReady then 4 else -1.

Definition needsHop (cur next tgt : Phase) : bool := (phaseRank cur <? phaseRank next) && (phaseRank next <=? phaseRank tgt).

Definition pipeline : list Phase := [PhaseUploading; PhaseStaged; PhaseProcessing; PhaseReady].

(** The options go with the last hop only. *)
Definition hopOptions (g : settlement) (next : Phase) : transitionConfig := if String.eqb next (target g) then optionsOf g else mkOptions "" "".

(** The payload of a bookend. *)
Definition bookendPayload (u : Update) : Object :=
  [("transfer_id", VString (TransferID u)); ("phase", VString (UPhase u)); ("bytes_done", VInt (BytesDone u)); ("bytes_total", VInt (BytesTotal u))]
  ++ (if String.eqb (Checksum u) "" then [] else [("checksum", VString (Checksum u))])
  ++ (if String.eqb (Reason u) "" then [] else [("reason", VString (Reason u))]).

(** ** The world *)

(** Where a call to the manager stands; [Returned] holds its error. *)
Inductive call :=
| Beginning (n : nat)
| Requesting (n : nat) (snap : Update)
| Driving (n : nat) (g : settlement) (todo : list Phase) (snap : Update)
| Hopping (n : nat) (g : settlement) (next : Phase) (todo : list Phase)
| Reaping (n : nat) (g : settlement) (snap : Update)
| Settling (n : nat) (g : settlement) (snap : Update)
| Returned (err : option transfer_error).

(** A call of [publishBookend]: its state, tracker and snapshot, and whether the bus
    took it; with no bus it counts as taken. *)
Record bookend := mkBookend { bstate : string; bobj : nat; bsnap : Update; btaken : bool }.

(** [rollbacks]: the calls of [Begin] that the bus refused; [outside]: the trackers whose
    holder settled them without the manager. *)
Record world := mkWorld {
  objs : list Tracker; registry : gmap string nat; calls : gmap nat call; clock : Z; bookends : list bookend; rollbacks : nat; outside : list nat
}.

Definition setObj (w : world) (n : nat) (t : Tracker) : world :=
  mkWorld (<[n := t]> (objs w)) (registry w) (calls w) (clock w) (bookends w) (rollbacks w) (outside w).
Definition setCall (w : world) (pid : nat) (c : call) : world :=
  mkWorld (objs w) (registry w) (<[pid := c]> (calls w)) (clock w) (bookends w) (rollbacks w) (outside w).
Definition setRegistry (w : world) (r : gmap string nat) : world :=
  mkWorld (objs w) r (calls w) (clock w) (bookends w) (rollbacks w) (outside w).
Definition addBookend (w : world) (b : bookend) : world :=
  mkWorld (objs w) (registry w) (calls w) (clock w) (bookends w ++ [b]) (rollbacks w) (outside w).

(** The part of [Begin] under the lock. *)
Definition beginLocked (m : Manager) (reg : gmap string nat) (now : Z) (id correlation : string) (total : Z) : res transfer_error Tracker :=
  match validateIdentifier ForID id with
  | Err e => Err e
  | Ok id =>
      match validateIdentifier ForCorrelation correlation with
      | Err e => Err e
      | Ok correlation =>
          if total <? 0 then Err ErrNegativeBytes
          else match reg !! id with
               | Some _ => Err ErrDuplicate
               | None => if maxActive m <=? Z.of_nat (size reg) then Err ErrCapacity else Ok (newTracker id correlation total now)
               end
      end
  end.

(** How [settle] starts on the tracker it found: the failures take one hop. *)
Definition startSettle (n : nat) (g : settlement) : call :=
  match g with Complete _ => Driving n g pipeline zeroUpdate | Fail _ | Abort _ => Hopping n g (target g) [] end.

(** A hop that succeeded: the last one leads out of the loop, whose final check it passes. *)
Definition afterHop (n : nat) (g : settlement) (next : Phase) (todo : list Phase) (snap : Update) : call :=
  if String.eqb next (target g) then Reaping n g snap else Driving n g todo snap.

Section Manager.
Context (m : Manager).

(** What one call does between two points where it holds no lock. *)
Inductive callStep (pid : nat) : world → world → Prop :=
| begin_refused w id correlation total e : calls w !! pid = None → beginLocked m (registry w) (clock w) id correlation total = Err e →
    callStep pid w (setCall w pid (Returned (Some e)))
| begin_registers w id correlation total t : calls w !! pid = None → beginLocked m (registry w) (clock w) id correlation total = Ok t →
    callStep pid w (mkWorld (objs w ++ [t]) (<[tid t := length (objs w)]> (registry w)) (<[pid := Beginning (length (objs w))]> (calls w)) (clock w)
      (bookends w) (rollbacks w) (outside w))
| begin_snapshot w n t : calls w !! pid = Some (Beginning n) → objs w !! n = Some t → callStep pid w (setCall w pid (Requesting n (snapshotLocked t)))
| begin_published w n snap : calls w !! pid = Some (Requesting n snap) →
    callStep pid w (addBookend (setCall w pid (Returned None)) (mkBookend "requested" n snap true))
| begin_rolls_back w n snap t : calls w !! pid = Some (Requesting n snap) → bus m = true → objs w !! n = Some t →
    callStep pid w (mkWorld (objs w) (delete (tid t) (registry w)) (<[pid := Returned (Some ErrPublish)]> (calls w)) (clock w)
      (bookends w ++ [mkBookend "requested" n snap false]) (S (rollbacks w)) (outside w))
| settle_unknown w id : calls w !! pid = None → registry w !! TrimSpace id = None → callStep pid w (setCall w pid (Returned (Some ErrNotFound)))
| settle_found w id g n : calls w !! pid = None → registry w !! TrimSpace id = Some n → callStep pid w (setCall w pid (startSettle n g))
| drive_look w n g next todo snap t : calls w !! pid = Some (Driving n g (next :: todo) snap) → objs w !! n = Some t →
    callStep pid w (setCall w pid (if needsHop (phase t) next (target g) then Hopping n g next todo else Driving n g todo snap))
| drive_ends w n g snap : calls w !! pid = Some (Driving n g [] snap) →
    callStep pid w (setCall w pid (if String.eqb (UPhase snap) (target g) then Reaping n g snap else Returned (Some ErrInvalidTransition)))
| hop_ok w n g next todo t t' snap : calls w !! pid = Some (Hopping n g next todo) → objs w !! n = Some t →
    Transition t (clock w) next (hopOptions g next) = (t', (snap, None)) → callStep pid w (setCall (setObj w n t') pid (afterHop n g next todo snap))
| hop_refused w n g next todo t t' snap e : calls w !! pid = Some (Hopping n g next todo) → objs w !! n = Some t →
    Transition t (clock w) next (hopOptions g next) = (t', (snap, Some e)) → callStep pid w (setCall (setObj w n t') pid (Returned (Some e)))
| reap w n g snap t : calls w !! pid = Some (Reaping n g snap) → objs w !! n = Some t →
    callStep pid w (setCall (setRegistry w (delete (tid t) (registry w))) pid (Settling n g snap))
| settle_published w n g snap taken : calls w !! pid = Some (Settling n g snap) → (taken = false → bus m = true) →
    callStep pid w (addBookend (setCall w pid (Returned (if taken then None else Some ErrPublish))) (mkBookend (stateOf g) n snap taken)).

(** Whoever holds a tracker may use it at any time. *)
Inductive step : world → world → Prop :=
| call_step pid w w' : callStep pid w w' → step w w'
| hold_total w n t total : objs w !! n = Some t → step w (setObj w n (SetTotal t (clock w) total).1)
| hold_advance w n t done : objs w !! n = Some t → step w (setObj w n (Advance t (clock w) done).1)
| hold_refused w n t to cfg t' snap e : objs w !! n = Some t → Transition t (clock w) to cfg = (t', (snap, Some e)) → step w (setObj w n t')
| hold_transition w n t to cfg t' snap : objs w !! n = Some t → Transition t (clock w) to cfg = (t', (snap, None)) →
    step w (mkWorld (<[n := t']> (objs w)) (registry w) (calls w) (clock w) (bookends w) (rollbacks w) (if IsTerminal to then n :: outside w else outside w))
| hold_subscribe w n t : objs w !! n = Some t → step w (setObj w n (Subscribe t).1)
| hold_unsubscribe w n t id : objs w !! n = Some t → step w (setObj w n (Unsubscribe t id))
| tick w d : 0 ≤ d → step w (mkWorld (objs w) (registry w) (calls w) (clock w + d) (bookends w) (rollbacks w) (outside w)).

Definition initial : world := mkWorld [] ∅ ∅ 0 [] 0 [].

Inductive reachable : world → Prop :=
| reach_start : reachable initial
| reach_step w w' : reachable w → step w w' → reachable w'.

End Manager.

(** ** Trackers only move forward *)

Record tracker_ok (t : Tracker) : Prop := {
  to_phase : IsValidPhase (phase t) = true;
  to_done : 0 ≤ bytesDone t;
  to_total : 0 ≤ bytesTotal t;
  to_within : 0 < bytesTotal t → bytesDone t ≤ bytesTotal t;
  to_ready : phase t = PhaseReady → 0 < bytesTotal t → bytesDone t = bytesTotal t
}.

(** A later state of a tracker: the same to its readers, or one update further. *)
Definition moves (t t' : Tracker) : Prop :=
  IsTerminal (phase t) = false ∧ seq t' = u64 (seq t + 1) ∧ bytesDone t ≤ bytesDone t' ∧ (phase t' = phase t ∨ CanTransition (phase t) (phase t') = true).

Definition evolves (t t' : Tracker) : Prop :=
  tid t' = tid t ∧ correlationID t' = correlationID t ∧ (snapshotLocked t' = snapshotLocked t ∨ moves t t').

Lemma can_transition_valid p q : CanTransition p q = true → IsValidPhase p = true ∧ IsValidPhase q = true ∧ IsTerminal p = false.
Proof. unfold CanTransition. destruct (IsValidPhase p), (IsValidPhase q), (IsTerminal p); done. Qed.

Lemma tracker_evolves_refl t : evolves t t.
Proof. split_and!; [done|done|by left]. Qed.

Lemma new_tracker_ok id correlation total now : tracker_ok (newTracker id correlation total now).
Proof. unfold newTracker. split; cbn; destruct (Z.ltb_spec total 0); try done; lia. Qed.

Lemma set_total_ok t now total : tracker_ok t → let t' := (SetTotal t now total).1 in tracker_ok t' ∧ evolves t t' ∧ IsTerminal (phase t') = IsTerminal (phase t).
Proof.
  intros H. unfold SetTotal. destruct (IsTerminal (phase t)) eqn:Ep; cbn [orb fst]; [by split_and!; [|apply tracker_evolves_refl|]|].
  destruct (Z.leb_spec total 0), (Z.eqb_spec total (bytesTotal t)), (Z.ltb_spec total (bytesDone t)); cbn [orb fst]; try (by split_and!; [|apply tracker_evolves_refl|]).
  destruct H as [K1 K2 K3 K4 K5]. split_and!; [|split_and!; [done|done|right; split_and!; cbn; (done || lia || by left)]|done].
  split; cbn; try done; try lia. intros E. exfalso. unfold IsTerminal in Ep. rewrite E in Ep. done.
Qed.

Lemma advance_ok t now done : tracker_ok t → let t' := (Advance t now done).1 in tracker_ok t' ∧ evolves t t' ∧ IsTerminal (phase t') = IsTerminal (phase t).
Proof.
  intros H. unfold Advance. destruct (Z.ltb_spec done 0); [by split_and!; [|apply tracker_evolves_refl|]|].
  destruct (IsTerminal (phase t)) eqn:Ep; [by split_and!; [|apply tracker_evolves_refl|]|].
  destruct (_ && negb _) eqn:B; [by split_and!; [|apply tracker_evolves_refl|]|]. cbn zeta. cbn [fst]. destruct H as [K1 K2 K3 K4 K5].
  assert (phase t ≠ PhaseReady) as Hr by (intros E; unfold IsTerminal in Ep; by rewrite E in Ep).
  destruct (String.eqb_spec (phase t) PhasePending) as [E|E].
  - split_and!; [|split_and!; [done|done|right; split_and!; cbn; [done|done|destruct (Z.ltb_spec (bytesDone t) done); lia|right; by rewrite E]]|done].
    split; cbn; try done; repeat (case_match; rewrite ?andb_true_iff, ?andb_false_iff, ?Z.ltb_lt, ?Z.ltb_ge in *); lia.
  - split_and!; [|split_and!; [done|done|right; split_and!; cbn; [done|done|destruct (Z.ltb_spec (bytesDone t) done); lia|by left]]|done].
    split; cbn; try done; repeat (case_match; rewrite ?andb_true_iff, ?andb_false_iff, ?Z.ltb_lt, ?Z.ltb_ge in *); lia.
Qed.

Lemma transition_refused t now to cfg t' snap e : Transition t now to cfg = (t', (snap, Some e)) → t' = t.
Proof. unfold Transition. destruct (IsTerminal _); [congruence|]. destruct (negb _); congruence. Qed.

Lemma tracker_transition_ok t now to cfg t' snap : tracker_ok t → Transition t now to cfg = (t', (snap, None)) →
  tracker_ok t' ∧ evolves t t' ∧ IsTerminal (phase t) = false ∧ phase t' = to ∧ snap = snapshotLocked t'.
Proof.
  unfold Transition. intros [K1 K2 K3 K4 K5] E. destruct (IsTerminal (phase t)) eqn:Ep; [done|]. destruct (CanTransition (phase t) to) eqn:Ec; [|done]. cbn [negb] in E.
  injection E as <- <-. destruct (can_transition_valid _ _ Ec) as (_ & Hv & _). set (done := if _ && _ then _ else _).
  assert (bytesDone t ≤ done ∧ (0 < bytesTotal t → done ≤ bytesTotal t) ∧ (to = PhaseReady → 0 < bytesTotal t → done = bytesTotal t)) as (D1 & D2 & D3).
  { unfold done. destruct (String.eqb_spec to PhaseReady), (Z.ltb_spec 0 (bytesTotal t)); cbn [andb]; naive_solver lia. }
  split_and!; [|split_and!; [done|done|right; split_and!; cbn; auto]|done|done|done]. split; cbn; auto; lia.
Qed.

(** ** Calls and bookends account for every settlement *)

Definition isObj (n n' : nat) : Z := if decide (n' = n) then 1 else 0.
Definition settleCalls (n : nat) (c : call) : Z := match c with Reaping n' _ _ | Settling n' _ _ => isObj n n' | _ => 0 end.
Definition reapCalls (n : nat) (c : call) : Z := match c with Reaping n' _ _ => isObj n n' | _ => 0 end.
Definition requestCalls (n : nat) (c : call) : Z := match c with Beginning n' | Requesting n' _ => isObj n n' | _ => 0 end.

Definition requestedOf (n : nat) (bs : list bookend) : Z := zsum (map (λ b, if String.eqb (bstate b) "requested" then isObj n (bobj b) else 0) bs).
Definition settledOf (n : nat) (bs : list bookend) : Z := zsum (map (λ b, if String.eqb (bstate b) "requested" then 0 else isObj n (bobj b)) bs).
Definition outsideOf (n : nat) (l : list nat) : Z := zsum (map (isObj n) l).

Definition existsOf (os : list Tracker) (n : nat) : Z := match os !! n with Some _ => 1 | None => 0 end.
Definition ended (t : Tracker) : Z := if IsTerminal (phase t) then 1 else 0.
Definition terminalOf (os : list Tracker) (n : nat) : Z := match os !! n with Some t => ended t | None => 0 end.

(** Every tracker is still there, further on. *)
Definition later (os os' : list Tracker) : Prop := ∀ n t, os !! n = Some t → ∃ t', os' !! n = Some t' ∧ evolves t t'.

Definition settledAs (t : Tracker) (snap : Update) (g : settlement) : Prop := snapshotLocked t = snap ∧ phase t = target g.

Definition ofTracker (t : Tracker) (snap : Update) : Prop := TransferID snap = tid t ∧ CorrelationID snap = correlationID t.

(** The hops a settlement still takes settle the transfer only where it ends. *)
Definition hops_ok (g : settlement) (l : list Phase) : Prop := Forall (λ p, p = target g ∨ IsTerminal p = false) l.

Definition call_ok (os : list Tracker) (c : call) : Prop :=
  match c with
  | Beginning n => is_Some (os !! n)
  | Hopping n g next todo => is_Some (os !! n) ∧ hops_ok g (next :: todo)
  | Requesting n snap => ∃ t, os !! n = Some t ∧ ofTracker t snap
  | Driving n g todo snap => (is_Some (os !! n) ∧ UPhase snap ≠ target g) ∧ hops_ok g todo
  | Reaping n g snap | Settling n g snap => ∃ t, os !! n = Some t ∧ settledAs t snap g
  | Returned _ => True
  end.

Definition bookend_ok (os : list Tracker) (b : bookend) : Prop :=
  ∃ t, os !! bobj b = Some t ∧ ofTracker t (bsnap b) ∧ (bstate b = "requested" ∨ ∃ g, bstate b = stateOf g ∧ settledAs t (bsnap b) g).

Record world_ok (m : Manager) (w : world) : Prop := {
  wo_objs : ∀ n t, objs w !! n = Some t → tracker_ok t;
  wo_settled : ∀ n, msum (settleCalls n) (calls w) + settledOf n (bookends w) + outsideOf n (outside w) = terminalOf (objs w) n;
  wo_requested : ∀ n, msum (requestCalls n) (calls w) + requestedOf n (bookends w) = existsOf (objs w) n;
  wo_registry : ∀ id n, registry w !! id = Some n → ∃ t, objs w !! n = Some t ∧ tid t = id;
  wo_size : Z.of_nat (size (registry w)) ≤ maxActive m;
  wo_calls : ∀ pid c, calls w !! pid = Some c → call_ok (objs w) c;
  wo_bookends : ∀ b, b ∈ bookends w → bookend_ok (objs w) b;
  wo_active : rollbacks w = 0%nat → ∀ n t, objs w !! n = Some t →
    registry w !! tid t = Some n ↔ IsTerminal (phase t) = false ∨ 0 < msum (reapCalls n) (calls w) ∨ n ∈ outside w
}.

Lemma target_terminal g : IsTerminal (target g) = true.
Proof. by destruct g. Qed.

Lemma state_not_requested g : String.eqb (stateOf g) "requested" = false.
Proof. by destruct g. Qed.

Lemma is_obj_nonneg n n' : 0 ≤ isObj n n'.
Proof. unfold isObj. case_decide; lia. Qed.

Lemma is_obj_self n : isObj n n = 1.
Proof. unfold isObj. by rewrite decide_True. Qed.

Lemma sum_snoc {A} (f : A → Z) l x : zsum (map f (l ++ [x])) = zsum (map f l) + f x.
Proof. rewrite map_app, zsum_app. cbn. lia. Qed.

Lemma settle_calls_nonneg n c : 0 ≤ settleCalls n c.
Proof. destruct c; cbn; try done; apply is_obj_nonneg. Qed.

Lemma reap_calls_nonneg n c : 0 ≤ reapCalls n c.
Proof. destruct c; cbn; try done; apply is_obj_nonneg. Qed.

Lemma request_calls_nonneg n c : 0 ≤ requestCalls n c.
Proof. destruct c; cbn; try done; apply is_obj_nonneg. Qed.

Lemma outside_pos n l : n ∈ l → 0 < outsideOf n l.
Proof.
  unfold outsideOf. intros H. induction l as [|k l IH]; [by apply elem_of_nil in H|]. cbn [map zsum].
  assert (0 ≤ zsum (map (isObj n) l)) by (apply zsum_nonneg, Forall_map, Forall_forall; intros x _; apply is_obj_nonneg).
  apply elem_of_cons in H as [->|H]; [rewrite is_obj_self; lia|]. specialize (IH H). pose proof (is_obj_nonneg n k). lia.
Qed.

Lemma outside_nonneg n l : 0 ≤ outsideOf n l.
Proof. unfold outsideOf. apply zsum_nonneg, Forall_map, Forall_forall. intros x _. apply is_obj_nonneg. Qed.

Lemma settled_nonneg n bs : 0 ≤ settledOf n bs.
Proof. unfold settledOf. apply zsum_nonneg, Forall_map, Forall_forall. intros b _. cbn. destruct (String.eqb _ _); [done|apply is_obj_nonneg]. Qed.

(** *** Trackers across a step *)

Lemma later_refl os : later os os.
Proof. intros n t Hn. exists t. split; [done|apply tracker_evolves_refl]. Qed.

Lemma later_insert os n t t' : os !! n = Some t → evolves t t' → later os (<[n := t']> os).
Proof.
  intros Hn He k s Hk. destruct (decide (k = n)) as [->|Hkn].
  - exists t'. rewrite list_lookup_insert_eq by (by eapply lookup_lt_Some). simplify_eq. done.
  - exists s. rewrite list_lookup_insert_ne by done. split; [done|apply tracker_evolves_refl].
Qed.

Lemma later_snoc os t : later os (os ++ [t]).
Proof. intros n s Hn. exists s. split; [by apply lookup_app_l_Some|apply tracker_evolves_refl]. Qed.

Lemma subs_evolve t s k : evolves t (setSubs t s k).
Proof. split_and!; [done|done|by left]. Qed.

Lemma step_later m w w' : world_ok m w → step m w w' → later (objs w) (objs w').
Proof.
  intros Hok Hs. destruct Hs as [pid w w' Hc| | | | | | |]; cbn [objs setObj]; try apply later_refl.
  - destruct Hc; cbn [objs setObj setCall setRegistry addBookend]; try apply later_refl.
    + apply later_snoc.
    + eapply later_insert; [done|]. eapply tracker_transition_ok; [|done]. by eapply (wo_objs m).
    + apply transition_refused in H1 as ->. eapply later_insert; [done|apply tracker_evolves_refl].
  - eapply later_insert; [done|]. apply set_total_ok. by eapply (wo_objs m).
  - eapply later_insert; [done|]. apply advance_ok. by eapply (wo_objs m).
  - apply transition_refused in H0 as ->. eapply later_insert; [done|apply tracker_evolves_refl].
  - eapply later_insert; [done|]. eapply tracker_transition_ok; [|done]. by eapply (wo_objs m).
  - eapply later_insert; [done|apply subs_evolve].
  - eapply later_insert; [done|apply subs_evolve].
Qed.

Lemma evolves_settled t t' snap g : evolves t t' → settledAs t snap g → settledAs t' snap g.
Proof.
  intros (_ & _ & [E|(Hn & _)]) [Hs Hp]; [|by rewrite Hp, target_terminal in Hn]. split; [congruence|]. rewrite <- Hp. by apply (f_equal UPhase) in E.
Qed.

Lemma evolves_of t t' snap : evolves t t' → ofTracker t snap → ofTracker t' snap.
Proof. intros (E1 & E2 & _) [H1 H2]. split; congruence. Qed.

Lemma call_ok_later os os' c : later os os' → call_ok os c → call_ok os' c.
Proof.
  intros Hl. destruct c; cbn; try done.
  - intros [t Ht]. destruct (Hl _ _ Ht) as (t' & -> & _). done.
  - intros (t & Ht & Ho). destruct (Hl _ _ Ht) as (t' & ? & He). exists t'. split; [done|by eapply evolves_of].
  - intros [[[t Ht] Hn] Hh]. destruct (Hl _ _ Ht) as (t' & -> & _). done.
  - intros [[t Ht] Hh]. destruct (Hl _ _ Ht) as (t' & -> & _). done.
  - intros (t & Ht & Ho). destruct (Hl _ _ Ht) as (t' & ? & He). exists t'. split; [done|by eapply evolves_settled].
  - intros (t & Ht & Ho). destruct (Hl _ _ Ht) as (t' & ? & He). exists t'. split; [done|by eapply evolves_settled].
Qed.

Lemma bookend_ok_later os os' b : later os os' → bookend_ok os b → bookend_ok os' b.
Proof.
  intros Hl (t & Ht & Ho & Hg). destruct (Hl _ _ Ht) as (t' & Ht' & He). exists t'. split_and!; [done|by eapply evolves_of|].
  destruct Hg as [?|(g & ? & Hs)]; [by left|right]. exists g. split; [done|by eapply evolves_settled].
Qed.

(** *** The sums across a step *)

Lemma terminal_insert os n t t' k : os !! n = Some t → terminalOf (<[n := t']> os) k = terminalOf os k + isObj k n * (ended t' - ended t).
Proof.
  intros Hn. unfold terminalOf, isObj. destruct (decide (n = k)) as [<-|Hk].
  - rewrite list_lookup_insert_eq, Hn by (by eapply lookup_lt_Some). lia.
  - rewrite list_lookup_insert_ne by done. lia.
Qed.

Lemma exists_insert os n t k : existsOf (<[n := t]> os) k = existsOf os k.
Proof.
  unfold existsOf. destruct (decide (n = k)) as [<-|Hk]; [|by rewrite list_lookup_insert_ne].
  destruct (os !! n) eqn:E; [by rewrite list_lookup_insert_eq by (by eapply lookup_lt_Some)|]. rewrite list_insert_ge by (by apply lookup_ge_None). by rewrite E.
Qed.

Lemma terminal_snoc os t k : IsTerminal (phase t) = false → terminalOf (os ++ [t]) k = terminalOf os k.
Proof.
  intros Ht. unfold terminalOf. destruct (decide (k < length os)%nat) as [Hk|Hk]; [by rewrite lookup_app_l|].
  rewrite (lookup_ge_None_2 os) by lia. rewrite lookup_app_r by lia. destruct (k - length os)%nat; cbn; [unfold ended; by rewrite Ht|done].
Qed.

Lemma exists_snoc os t k : existsOf (os ++ [t]) k = existsOf os k + isObj k (length os).
Proof.
  unfold existsOf, isObj. destruct (decide (k < length os)%nat) as [Hk|Hk].
  - rewrite lookup_app_l by done. rewrite decide_False by lia. lia.
  - rewrite (lookup_ge_None_2 os) by lia. rewrite lookup_app_r by lia. case_decide.
    + by replace (k - length os)%nat with 0%nat by lia.
    + destruct (k - length os)%nat eqn:E; [lia|]. done.
Qed.

Lemma begin_locked_ok m reg now id correlation total t : beginLocked m reg now id correlation total = Ok t →
  reg !! tid t = None ∧ Z.of_nat (size reg) < maxActive m ∧ tracker_ok t ∧ IsTerminal (phase t) = false.
Proof.
  unfold beginLocked. destruct (validateIdentifier ForID id) as [i|]; [|done]. destruct (validateIdentifier _ _) as [c|]; [|done].
  destruct (_ <? 0); [done|]. destruct (reg !! i) eqn:Ei; [done|]. destruct (Z.leb_spec (maxActive m) (Z.of_nat (size reg))); [done|].
  intros [= <-]. split_and!; [done|done|apply new_tracker_ok|done].
Qed.

(** What a step does to the sum of a measure of the calls. *)
Ltac call_sum :=
  cbn [calls bookends outside objs registry rollbacks setObj setCall setRegistry addBookend];
  match goal with
  | H : calls ?w !! ?pid = None |- context [msum ?f (<[?pid := ?c]> (calls ?w))] => rewrite (msum_insert f (calls w) pid c H)
  | H : calls ?w !! ?pid = Some ?old |- context [msum ?f (<[?pid := ?c]> (calls ?w))] => rewrite (msum_update f (calls w) pid c old H)
  | _ => idtac
  end.

Lemma requested_step m w w' : world_ok m w → step m w w' → ∀ n, msum (requestCalls n) (calls w') + requestedOf n (bookends w') = existsOf (objs w') n.
Proof.
  intros Hok Hs n. pose proof (wo_requested m w Hok n) as Hn.
  destruct Hs as [pid w w' Hc| | | | | | |]; cbn [objs setObj calls bookends]; rewrite ?exists_insert; try done.
  destruct Hc; call_sum; rewrite ?exists_insert, ?exists_snoc; unfold requestedOf in *; rewrite ?sum_snoc; cbn [requestCalls bstate bobj String.eqb Ascii.eqb Bool.eqb];
    rewrite ?state_not_requested; try lia.
  - destruct g; cbn; lia.
  - destruct (needsHop _ _ _); cbn; lia.
  - destruct (String.eqb _ _); cbn; lia.
  - unfold afterHop. destruct (String.eqb _ _); cbn; lia.
Qed.

Lemma settled_call_step m pid w w' : world_ok m w → callStep m pid w w' →
  ∀ n, msum (settleCalls n) (calls w') + settledOf n (bookends w') + outsideOf n (outside w') = terminalOf (objs w') n.
Proof.
  intros Hok Hc k. pose proof (wo_settled m w Hok k) as Hk.
  destruct Hc as [| |w n t Hp Hn|w n snap Hp|w n snap t Hp Hb Hn| | |w n g next todo snap t Hp Hn|w n g snap Hp|w n g next todo t t' snap Hp Hn E|w n g next todo t t' snap e Hp Hn E| |w n g snap taken Hp Ht];
    call_sum; unfold settledOf in *; rewrite ?sum_snoc; cbn [settleCalls bstate bobj String.eqb Ascii.eqb Bool.eqb]; rewrite ?state_not_requested; try lia.
  - rewrite terminal_snoc by (by eapply begin_locked_ok). lia.
  - destruct g; cbn; lia.
  - destruct (needsHop _ _ _); cbn; lia.
  - destruct (wo_calls m w Hok _ _ Hp) as [[_ Hne] _]. apply String.eqb_neq in Hne as ->. cbn. lia.
  - rewrite (terminal_insert _ _ _ _ _ Hn). destruct (tracker_transition_ok _ _ _ _ _ _ (wo_objs m w Hok _ _ Hn) E) as (_ & Hev & Ep & E2 & _).
    unfold afterHop, ended. rewrite Ep. destruct (String.eqb_spec next (target g)) as [Eg|Eg]; cbn [settleCalls].
    + rewrite E2, Eg, target_terminal. lia.
    + destruct (wo_calls m w Hok _ _ Hp) as [_ Hh]. apply Forall_cons in Hh as [[?|Hh] _]; [done|]. rewrite E2, Hh. lia.
  - apply transition_refused in E as ->. rewrite (terminal_insert _ _ _ _ _ Hn). lia.
Qed.

Lemma settled_step m w w' : world_ok m w → step m w w' →
  ∀ n, msum (settleCalls n) (calls w') + settledOf n (bookends w') + outsideOf n (outside w') = terminalOf (objs w') n.
Proof.
  intros Hok Hs k. pose proof (wo_settled m w Hok k) as Hk.
  destruct Hs as [pid w w' Hc|w n t total Hn|w n t done Hn|w n t to cfg t' snap e Hn E|w n t to cfg t' snap Hn E|w n t Hn|w n t id Hn|]; cbn [objs setObj calls bookends outside]; rewrite ?(terminal_insert _ _ _ _ _ Hn); try done.
  - by eapply settled_call_step.
  - destruct (set_total_ok t (clock w) total (wo_objs m w Hok _ _ Hn)) as (_ & _ & E). unfold ended. rewrite E. lia.
  - destruct (advance_ok t (clock w) done (wo_objs m w Hok _ _ Hn)) as (_ & _ & E). unfold ended. rewrite E. lia.
  - apply transition_refused in E as ->. lia.
  - destruct (tracker_transition_ok _ _ _ _ _ _ (wo_objs m w Hok _ _ Hn) E) as (_ & _ & Ep & <- & _). unfold ended. rewrite Ep.
    destruct (IsTerminal (phase t')); unfold outsideOf in *; cbn [map zsum]; lia.
  - unfold ended. cbn. lia.
  - unfold ended. cbn. lia.
  - exact Hk.
Qed.

(** *** Calls, bookends and trackers across a step *)

Lemma calls_insert (cs : gmap nat call) os os' pid c : (∀ pid' c', cs !! pid' = Some c' → call_ok os c') → later os os' → call_ok os' c →
  ∀ pid' c', <[pid := c]> cs !! pid' = Some c' → call_ok os' c'.
Proof.
  intros Hcs Hl Hc pid' c'. destruct (decide (pid' = pid)) as [->|Hne]; [rewrite lookup_insert_eq; by intros [= <-]|].
  rewrite lookup_insert_ne by done. intros H. eapply call_ok_later; [done|by eapply Hcs].
Qed.

Lemma start_settle_ok os n g : is_Some (os !! n) → call_ok os (startSettle n g).
Proof.
  intros Hn. destruct g; cbn [startSettle call_ok target]; (split; [by try split|]); unfold hops_ok, pipeline; cbn [target]; repeat constructor; (by left) || by right.
Qed.

Lemma registered_exists m w id n : world_ok m w → registry w !! id = Some n → is_Some (objs w !! n).
Proof. intros Hok H. destruct (wo_registry m w Hok _ _ H) as (t & -> & _). done. Qed.

Lemma snapshot_of t : ofTracker t (snapshotLocked t).
Proof. done. Qed.

Lemma calls_step m w w' : world_ok m w → step m w w' → ∀ pid c, calls w' !! pid = Some c → call_ok (objs w') c.
Proof.
  intros Hok Hs. pose proof (step_later m w w' Hok Hs) as Hl. pose proof (wo_calls m w Hok) as Hcs.
  destruct Hs as [pid w w' Hc| | | | | | |]; cbn [objs setObj calls] in *; try (intros pid' c' Hp'; eapply call_ok_later; [exact Hl|by eapply Hcs]).
  destruct Hc as [|w id cor total t Hp E|w n t Hp Hn| | | |w id g n Hp Hr|w n g next todo snap t Hp Hn|w n g snap Hp|w n g next todo t t' snap Hp Hn E| |w n g snap t Hp Hn|];
    cbn [objs setObj setCall setRegistry addBookend calls] in *; eapply calls_insert; try done; cbn [call_ok].
  - exists t. by rewrite lookup_app_r, Nat.sub_diag by lia.
  - exists t. split; [done|apply snapshot_of].
  - apply start_settle_ok. by eapply registered_exists.
  - destruct (Hcs _ _ Hp) as [[Ho Hne] Hh]. apply Forall_cons in Hh as [H1 H2]. destruct (needsHop _ _ _); cbn; [by split; [|constructor]|by split_and!].
  - destruct (Hcs _ _ Hp) as [[Ho Hne] Hh]. by apply String.eqb_neq in Hne as ->.
  - destruct (Hcs _ _ Hp) as [Ho Hh]. apply Forall_cons in Hh as [H1 H2]. destruct (tracker_transition_ok _ _ _ _ _ _ (wo_objs m w Hok _ _ Hn) E) as (_ & _ & _ & E2 & ->).
    unfold afterHop. assert (<[n := t']> (objs w) !! n = Some t') as Hn' by (apply list_lookup_insert_eq; by eapply lookup_lt_Some).
    destruct (String.eqb_spec next (target g)) as [->|Hne]; cbn; [by exists t'|]. split_and!; [by exists t'|by rewrite E2|done].
  - exact (Hcs _ _ Hp).
Qed.

Lemma bookends_step m w w' : world_ok m w → step m w w' → ∀ b, b ∈ bookends w' → bookend_ok (objs w') b.
Proof.
  intros Hok Hs. pose proof (step_later m w w' Hok Hs) as Hl. pose proof (wo_bookends m w Hok) as Hbs.
  assert (∀ b, b ∈ bookends w → bookend_ok (objs w') b) as Hold by (intros b Hb; eapply bookend_ok_later; [done|by apply Hbs]).
  destruct Hs as [pid w w' Hc| | | | | | |]; try exact Hold.
  destruct Hc as [| | |w n snap Hp|w n snap t Hp Hb Hn| | | | | | | |w n g snap taken Hp Ht]; try exact Hold; intros b [Hin|Hin]%elem_of_app; try (by apply Hold);
    apply list_elem_of_singleton in Hin as ->; pose proof (wo_calls m w Hok _ _ Hp) as Hc; cbn [call_ok] in Hc; destruct Hc as (s & Hs & Hc); exists s; (split; [done|]).
  - by split; [|left].
  - by split; [|left].
  - split; [|right; by exists g]. destruct Hc as [<- _]. apply snapshot_of.
Qed.

Lemma objs_step m w w' : world_ok m w → step m w w' → ∀ n t, objs w' !! n = Some t → tracker_ok t.
Proof.
  intros Hok Hs. pose proof (wo_objs m w Hok) as Ho.
  assert (∀ n t, tracker_ok t → ∀ k s, <[n := t]> (objs w) !! k = Some s → tracker_ok s) as Hins.
  { intros n t Ht k s [(-> & <- & _)|[_ Hk]]%list_lookup_insert_Some; [done|by eapply Ho]. }
  destruct Hs as [pid w w' Hc|w n t total Hn|w n t done Hn|w n t to cfg t' snap e Hn E|w n t to cfg t' snap Hn E|w n t Hn|w n t id Hn|]; cbn [objs setObj]; try exact Ho.
  - destruct Hc as [|w id cor total t Hp E| | | | | | | |w n g next todo t t' snap Hp Hn E|w n g next todo t t' snap e Hp Hn E| |]; cbn [objs setObj setCall setRegistry addBookend]; try exact Ho.
    + intros n s [Hn|[_ Hn]]%lookup_app_Some; [by eapply Ho|]. apply list_lookup_singleton_Some in Hn as [_ <-]. by eapply begin_locked_ok.
    + apply Hins. eapply tracker_transition_ok; [|done]. by eapply Ho.
    + apply transition_refused in E as ->. apply Hins. by eapply Ho.
  - apply Hins, set_total_ok. by eapply Ho.
  - apply Hins, advance_ok. by eapply Ho.
  - apply transition_refused in E as ->. apply Hins. by eapply Ho.
  - apply Hins. eapply tracker_transition_ok; [|done]. by eapply Ho.
  - apply Hins. by destruct (Ho _ _ Hn); split.
  - apply Hins. by destruct (Ho _ _ Hn); split.
Qed.

Lemma registry_step m w w' : world_ok m w → step m w w' →
  (∀ id n, registry w' !! id = Some n → ∃ t, objs w' !! n = Some t ∧ tid t = id) ∧ Z.of_nat (size (registry w')) ≤ maxActive m.
Proof.
  intros Hok Hs. pose proof (step_later m w w' Hok Hs) as Hl. pose proof (wo_size m w Hok) as Hz.
  assert (∀ id n, registry w !! id = Some n → ∃ t, objs w' !! n = Some t ∧ tid t = id) as Hold.
  { intros id n Hr. destruct (wo_registry m w Hok _ _ Hr) as (t & Hn & <-). destruct (Hl _ _ Hn) as (t' & Hn' & Et & _). by exists t'. }
  assert (∀ key, (∀ id n, delete key (registry w) !! id = Some n → ∃ t, objs w' !! n = Some t ∧ tid t = id) ∧ Z.of_nat (size (delete key (registry w))) ≤ maxActive m) as Hdel.
  { intros key. split; [intros id n [_ Hr]%lookup_delete_Some; by apply Hold|]. pose proof (map_subseteq_size _ _ (delete_subseteq (registry w) key)). lia. }
  destruct Hs as [pid w w' Hc| | | | | | |]; try (by split). destruct Hc as [|w id cor total t Hp E| | | | | | | | | | |]; try (by split); try (by apply Hdel).
  destruct (begin_locked_ok _ _ _ _ _ _ _ E) as (Hnone & Hlt & _). cbn [registry objs] in *. split; [|rewrite map_size_insert_None by done; lia].
  intros i n. destruct (decide (i = tid t)) as [->|Hne]; [rewrite lookup_insert_eq|rewrite lookup_insert_ne by done; apply Hold].
  intros [= <-]. exists t. by rewrite lookup_app_r, Nat.sub_diag by lia.
Qed.

Lemma reap_le_settle n (cs : gmap nat call) : msum (reapCalls n) cs ≤ msum (settleCalls n) cs.
Proof.
  unfold msum. induction (map_to_list cs) as [|[pid c] l IH]; cbn; [done|]. enough (reapCalls n c ≤ settleCalls n c) by lia.
  destruct c; cbn; try done; pose proof (is_obj_nonneg n n0); lia.
Qed.

(** Whether a tracker is registered, and why it should be. *)
Definition active (w : world) (n : nat) (t : Tracker) : Prop :=
  registry w !! tid t = Some n ↔ IsTerminal (phase t) = false ∨ 0 < msum (reapCalls n) (calls w) ∨ n ∈ outside w.

(** A tracker whose identifier, phase and settlement are as before stays where it was. *)
Lemma active_same w w' n t t' : active w n t → tid t' = tid t → IsTerminal (phase t') = IsTerminal (phase t) →
  registry w' !! tid t = registry w !! tid t → msum (reapCalls n) (calls w') = msum (reapCalls n) (calls w) → (n ∈ outside w' ↔ n ∈ outside w) → active w' n t'.
Proof. unfold active. intros H E1 E2 E3 E4 E5. by rewrite E1, E2, E3, E4, E5. Qed.

Lemma evolves_terminal t t' : evolves t t' → IsTerminal (phase t') = false → IsTerminal (phase t) = false.
Proof. intros (_ & _ & [E|(H & _)]) Ht; [|done]. by rewrite <- (f_equal UPhase E : phase t' = phase t). Qed.

(** Trackers changed one at a time. *)
Lemma active_update w w' n t t' : (∀ k s, objs w !! k = Some s → active w k s) → objs w !! n = Some t → objs w' = <[n := t']> (objs w) → tid t' = tid t →
  registry w' = registry w → (∀ k, k ≠ n → msum (reapCalls k) (calls w') = msum (reapCalls k) (calls w) ∧ (k ∈ outside w' ↔ k ∈ outside w)) →
  active w' n t' → ∀ k s, objs w' !! k = Some s → active w' k s.
Proof.
  intros Ha Hn Eo Et Er Hk Ht k s. rewrite Eo. intros [(-> & <- & _)|[Hne Hs]]%list_lookup_insert_Some; [done|].
  destruct (Hk k ltac:(done)) as [Hm Ho]. eapply active_same; [by apply Ha|done|done|by rewrite Er|done|done].
Qed.

Lemma active_reap m pid w n g snap t : world_ok m w → rollbacks w = 0%nat → calls w !! pid = Some (Reaping n g snap) → objs w !! n = Some t →
  (∀ k s, objs w !! k = Some s → active w k s) →
  ∀ k s, objs w !! k = Some s → active (setCall (setRegistry w (delete (tid t) (registry w))) pid (Settling n g snap)) k s.
Proof.
  intros Hok H0 Hp Hn Ha k s Hk. destruct (wo_calls m w Hok _ _ Hp) as (t0 & Hn0 & _ & Ephase). simplify_eq.
  assert (∀ j, msum (reapCalls j) (<[pid := Settling n g snap]> (calls w)) = msum (reapCalls j) (calls w) - isObj j n) as Hm by (intros j; call_sum; cbn; lia).
  pose proof (wo_settled m w Hok n) as Hn1. unfold terminalOf, ended in Hn1. rewrite Hn, Ephase, target_terminal in Hn1.
  pose proof (reap_le_settle n (calls w)) as Hle. pose proof (settled_nonneg n (bookends w)) as Hb.
  assert (isObj n n ≤ msum (reapCalls n) (calls w)) as Hge.
  { pose proof (Hm n) as Hmn. pose proof (msum_nonneg (reapCalls n) (<[pid := Settling n g snap]> (calls w)) (reap_calls_nonneg n)). lia. }
  rewrite is_obj_self in Hge. assert (registry w !! tid t = Some n) as Hreg by (apply (Ha n t Hn); lia).
  unfold active. cbn [registry calls outside setCall setRegistry]. rewrite Hm. destruct (decide (k = n)) as [->|Hkn].
  - simplify_eq. rewrite lookup_delete_eq, Ephase, target_terminal, is_obj_self. split; [done|]. intros [?|[?|Hout]]; [done| |].
    + pose proof (outside_nonneg n (outside w)). lia.
    + apply outside_pos in Hout. lia.
  - unfold isObj. rewrite decide_False, Z.sub_0_r by done. destruct (decide (tid s = tid t)) as [Et|Et].
    + rewrite Et, lookup_delete_eq. split; [done|]. intros H%(Ha k s Hk). rewrite Et in H. congruence.
    + rewrite lookup_delete_ne by done. by apply Ha.
Qed.

Lemma active_begin w pid t : registry w !! tid t = None → IsTerminal (phase t) = false → (∀ k s, objs w !! k = Some s → active w k s) →
  calls w !! pid = None →
  let w' := mkWorld (objs w ++ [t]) (<[tid t := length (objs w)]> (registry w)) (<[pid := Beginning (length (objs w))]> (calls w)) (clock w) (bookends w) (rollbacks w) (outside w) in
  ∀ k s, objs w' !! k = Some s → active w' k s.
Proof.
  intros Hnone Hnt Ha Hp w' k s. cbn [objs w']. intros [Hk|[Hge Hk]]%lookup_app_Some.
  - unfold active. cbn [registry calls outside w']. rewrite (msum_insert _ _ _ _ Hp). cbn [reapCalls]. rewrite Z.add_0_l. transitivity (registry w !! tid s = Some k); [|exact (Ha k s Hk)].
    destruct (decide (tid s = tid t)) as [Et|Et]; [|by rewrite lookup_insert_ne].
    rewrite Et, lookup_insert_eq, Hnone. apply lookup_lt_Some in Hk. split; intros [= ?]; lia.
  - apply list_lookup_singleton_Some in Hk as [Hlen <-]. assert (k = length (objs w)) as -> by lia.
    unfold active. cbn [registry w']. rewrite lookup_insert_eq. split; [by left|done].
Qed.

Lemma active_call_step m pid w w' : world_ok m w → callStep m pid w w' → rollbacks w' = 0%nat → (∀ k s, objs w !! k = Some s → active w k s) →
  ∀ k s, objs w' !! k = Some s → active w' k s.
Proof.
  intros Hok Hc H0 Ha.
  assert (∀ c, (∀ k, msum (reapCalls k) (<[pid := c]> (calls w)) = msum (reapCalls k) (calls w)) → ∀ k s, objs w !! k = Some s → active (setCall w pid c) k s) as Hsame.
  { intros c Hc' k s Hk. eapply active_same; [by apply Ha|done..|by cbn|done]. }
  destruct Hc as [|w id cor total t Hp E|w n t Hp Hn|w n snap Hp|w n snap t Hp Hb Hn| |w id g n Hp Hr|w n g next todo snap t Hp Hn|w n g snap Hp|w n g next todo t t' snap Hp Hn E|w n g next todo t t' snap e Hp Hn E|w n g snap t Hp Hn|w n g snap taken Hp Ht];
    cbn [rollbacks] in H0; try done.
  - apply Hsame. intros k. call_sum. cbn. lia.
  - apply active_begin; [by eapply begin_locked_ok..|done|done].
  - apply Hsame. intros k. call_sum. cbn. lia.
  - apply (Hsame (Returned None)). intros k. call_sum. cbn. lia.
  - apply Hsame. intros k. call_sum. cbn. lia.
  - apply Hsame. intros k. call_sum. by destruct g.
  - apply Hsame. intros k. call_sum. destruct (needsHop _ _ _); cbn; lia.
  - apply Hsame. intros k. call_sum. destruct (wo_calls m w Hok _ _ Hp) as [[_ Hne] _]. apply String.eqb_neq in Hne as ->. cbn. lia.
  - destruct (tracker_transition_ok _ _ _ _ _ _ (wo_objs m w Hok _ _ Hn) E) as (_ & (Et & _) & Ep & E2 & _).
    assert (∀ k, msum (reapCalls k) (<[pid := afterHop n g next todo snap]> (calls w)) = msum (reapCalls k) (calls w) + if String.eqb next (target g) then isObj k n else 0) as Hm.
    { intros k. call_sum. unfold afterHop. destruct (String.eqb _ _); cbn; lia. }
    eapply (active_update w); [done|exact Hn|reflexivity|exact Et|reflexivity| |].
    + intros k Hk. cbn [calls setCall setObj outside]. rewrite Hm. unfold isObj. rewrite decide_False by done. split; [by destruct (String.eqb _ _); lia|done].
    + unfold active. cbn [registry calls setCall setObj outside]. rewrite Hm, Et, is_obj_self. pose proof (proj2 (Ha n t Hn) (or_introl Ep)) as Hreg. rewrite Hreg.
      split; [intros _|done]. destruct (String.eqb_spec next (target g)) as [Eg|Eg]; [right; left; pose proof (msum_nonneg (reapCalls n) (calls w) (reap_calls_nonneg n)); lia|].
      left. destruct (wo_calls m w Hok _ _ Hp) as [_ Hh]. apply Forall_cons in Hh as [[?|Hh] _]; [done|]. by rewrite E2.
  - apply transition_refused in E as ->. cbn [setObj objs setCall]. rewrite list_insert_id by done. apply (Hsame (Returned (Some e))). intros k. call_sum. cbn. lia.
  - exact (active_reap m pid w n g snap t Hok H0 Hp Hn Ha).
  - apply (Hsame (Returned (if taken then None else Some ErrPublish))). intros k. call_sum. cbn. lia.
Qed.

Lemma rollbacks_grow m w w' : step m w w' → (rollbacks w ≤ rollbacks w')%nat.
Proof. intros Hs. destruct Hs as [pid w w' Hc| | | | | | |]; cbn; try lia. destruct Hc; cbn; lia. Qed.

Lemma active_step m w w' : world_ok m w → step m w w' → rollbacks w' = 0%nat → ∀ k s, objs w' !! k = Some s → active w' k s.
Proof.
  intros Hok Hs H0. assert (rollbacks w = 0%nat) as Hr by (pose proof (rollbacks_grow m w w' Hs); lia).
  assert (∀ k s, objs w !! k = Some s → active w k s) as Ha by exact (wo_active m w Hok Hr).
  assert (∀ n t t', objs w !! n = Some t → evolves t t' → IsTerminal (phase t') = IsTerminal (phase t) → ∀ k s, objs (setObj w n t') !! k = Some s → active (setObj w n t') k s) as Hset.
  { intros n t t' Hn (Et & _) Ep. eapply (active_update w); [exact Ha|exact Hn|reflexivity|exact Et|reflexivity|done|].
    eapply active_same; [by apply (Ha n t)|done|done|done|done|done]. }
  destruct Hs as [pid w w' Hc|w n t total Hn|w n t done Hn|w n t to cfg t' snap e Hn E|w n t to cfg t' snap Hn E|w n t Hn|w n t id Hn|w d].
  - by eapply active_call_step.
  - eapply Hset; [exact Hn|apply set_total_ok..]; by eapply (wo_objs m).
  - eapply Hset; [exact Hn|apply advance_ok..]; by eapply (wo_objs m).
  - apply transition_refused in E as ->. eapply Hset; [exact Hn|apply tracker_evolves_refl|done].
  - destruct (tracker_transition_ok _ _ _ _ _ _ (wo_objs m w Hok _ _ Hn) E) as (_ & (Et & _) & Ep & E2 & _).
    eapply (active_update w); [done|exact Hn|reflexivity|exact Et|reflexivity| |].
    + intros k Hk. split; [done|]. cbn [outside]. destruct (IsTerminal to); [|done]. rewrite elem_of_cons. naive_solver.
    + unfold active. cbn [registry calls outside]. rewrite Et, E2. pose proof (proj2 (Ha n t Hn) (or_introl Ep)) as ->. split; [intros _|done].
      destruct (IsTerminal to) eqn:Et'; [right; right; apply elem_of_cons; by left|by left].
  - eapply Hset; [exact Hn|apply subs_evolve|done].
  - eapply Hset; [exact Hn|apply subs_evolve|done].
  - intros k s Hk. eapply active_same; [by apply Ha|done..].
Qed.

Lemma world_step m w w' : world_ok m w → step m w w' → world_ok m w'.
Proof.
  intros Hok Hs. destruct (registry_step m w w' Hok Hs) as [H1 H2]. split; [by eapply objs_step|by eapply settled_step|by eapply requested_step|done|done|by eapply calls_step|by eapply bookends_step|].
  intros H0. by eapply active_step.
Qed.

Lemma reachable_world m w : 0 ≤ maxActive m → reachable m w → world_ok m w.
Proof.
  intros Hm. induction 1 as [|w w' _ IH Hs]; [|by eapply world_step].
  split; cbn [objs registry calls bookends outside rollbacks initial]; try (intros n; by rewrite msum_empty); try (intros ? ? H; by rewrite ?lookup_nil, ?lookup_empty in H).
  - by rewrite map_size_empty.
  - intros b Hb. by apply elem_of_nil in Hb.
Qed.

Lemma new_manager_active cfg m : NewManager cfg = Ok m → 0 < maxActive m.
Proof.
  unfold NewManager. destruct (String.eqb _ _); [done|]. destruct (String.eqb _ _); [done|]. destruct (ValidateEventType _); [done|].
  intros [= <-]. cbn. destruct (Z.leb_spec (CMaxActive cfg) 0); [done|lia].
Qed.

(** ** Bookends are legal events *)

Lemma list_ascii_append a b : list_ascii_of_string (a +:+ b) = list_ascii_of_string a ++ list_ascii_of_string b.
Proof. induction a as [|c a IH]; [done|]. rewrite append_cons. cbn. by rewrite IH. Qed.

Lemma trimmed_no_token s : TrimSpace s = s → noToken space1 space2 space3 (list_ascii_of_string s).
Proof.
  intros E. rewrite <- E. unfold TrimSpace. rewrite list_ascii_of_string_of_list_ascii. eapply no_token_prefix; [apply trim_right_prefix|apply trim_by_no_token].
Qed.

(** A trimmed text, a colon, and a terminal state at the end are trimmed together. *)
Lemma trimmed_event a r t : TrimSpace a = a → a ≠ "" → t ∈ terminalStates → let s := a +:+ String colon r +:+ t in TrimSpace s = s.
Proof.
  intros Ea Hne Ht s. unfold s, TrimSpace. rewrite <- (string_of_list_ascii_of_string (a +:+ _)) at 2. f_equal. rewrite !list_ascii_append.
  assert (∀ x, trimLeft (list_ascii_of_string a ++ colon :: x) = list_ascii_of_string a ++ colon :: x) as Hl.
  { intros x. apply trim_by_id. pose proof (trimmed_no_token a Ea) as Hn. destruct a as [|c a]; [done|].
    destruct a as [|d [|e a]]; cbn in *; destruct Hn as [Hc Hn]; (split; [done|]); unfold space2, space3 in *; rewrite ?andb_false_r in *; cbn in *.
    - split; [done|]. destruct x; [done|]. by rewrite ?andb_false_r.
    - destruct Hn as [Hd _]. split; [done|]. by rewrite ?andb_false_r.
    - done. }
  cbn [list_ascii_of_string app]. rewrite Hl. unfold trimRight. rewrite trim_by_id; [apply reverse_involutive|].
  rewrite app_comm_cons, app_assoc, reverse_app. unfold terminalStates in Ht. repeat (apply elem_of_cons in Ht as [->|Ht]; [cbn; by rewrite ?andb_false_r|]). by apply elem_of_nil in Ht.
Qed.

Lemma split_snoc h t : colonFree t → Split colon (h +:+ String colon t) = Split colon h ++ [t].
Proof.
  intros Ht. rewrite <- (join_split colon h) at 1. rewrite <- join_snoc by apply split_nonempty. apply split_join; [by destruct (Split colon h)|].
  apply Forall_app. split; [apply split_sep_free|by repeat constructor].
Qed.

Lemma validate_state h t t' : TrimSpace (h +:+ String colon t) = h +:+ String colon t → TrimSpace (h +:+ String colon t') = h +:+ String colon t' →
  t ∈ terminalStates → t' ∈ terminalStates → ValidateEventType (h +:+ String colon t) = None → ValidateEventType (h +:+ String colon t') = None.
Proof.
  intros E E' Ht Ht' Hv. assert (∀ x, x ∈ terminalStates → colonFree x) as Hfree.
  { intros x Hx%terminal_table_exact. by apply lower_snake_plain, terminal_snake. }
  destruct (parts_cases (h +:+ String colon t)) as [(_ & H & _)|(d & init & v & t0 & Ep)]; [done|]. cbn zeta in Ep. rewrite E, split_snoc in Ep by (by apply Hfree).
  rewrite app_comm_cons in Ep. apply app_inj_tail in Ep as [Eh <-].
  assert (∀ x, x ∈ terminalStates → Forall (λ w, colonFree w) (d :: (init ++ [v]) ++ [x]) ∧ h +:+ String colon x = Join ":" (d :: (init ++ [v]) ++ [x])) as Hx.
  { intros x Hx. rewrite app_comm_cons, <- Eh. split; [apply Forall_app; split; [apply split_sep_free|repeat constructor; by apply Hfree]|].
    rewrite join_snoc by apply split_nonempty. by rewrite join_split. }
  destruct (Hx t Ht) as [Hf Ej], (Hx t' Ht') as [Hf' Ej'].
  destruct (proj1 (validate_parts _ d init v t (eq_trans E Ej) Hf) Hv) as (_ & Hd & Hs).
  apply (validate_parts _ d init v t' (eq_trans E' Ej') Hf'). by split_and!; [apply terminal_table_exact| |].
Qed.

Lemma bookend_types_valid cfg m state : NewManager cfg = Ok m → state ∈ terminalStates → ValidateEventType (eventType m state) = None.
Proof.
  unfold NewManager. destruct (String.eqb_spec (TrimSpace (CDomain cfg)) "") as [|Hd]; [done|]. destruct (String.eqb _ _); [done|].
  set (m0 := mkManager _ _ _ _ _). destruct (ValidateEventType (eventType m0 "requested")) eqn:Ev; [done|]. intros [= <-] Hst.
  assert (∃ r, ∀ t, eventType m0 t = domain m0 +:+ String colon r +:+ String colon t) as [r Er].
  { unfold eventType. destruct (String.eqb (version m0) "").
    - exists (action m0). intros t. by rewrite append_assoc, !append_cons, append_empty_l.
    - exists (action m0 +:+ ":" +:+ version m0). intros t. rewrite !append_assoc, !append_cons, !append_empty_l. by rewrite !append_assoc, !append_cons. }
  assert (∀ t, t ∈ terminalStates → TrimSpace (eventType m0 t) = eventType m0 t) as Htr.
  { intros t Ht. rewrite Er. replace (String colon r +:+ String colon t) with (String colon (r +:+ ":") +:+ t) by (by rewrite append_cons, append_assoc).
    apply trimmed_event; [apply trim_space_idemp|done|done]. }
  assert (∀ t, eventType m0 t = (domain m0 +:+ String colon r) +:+ String colon t) as Eh by (intros t; by rewrite Er, append_assoc).
  assert ("requested" ∈ terminalStates) as Hreq by (apply elem_of_cons; by left). pose proof (Htr _ Hreq) as H1. pose proof (Htr _ Hst) as H2.
  rewrite Eh in Ev, H1, H2 |- *. exact (validate_state _ "requested" state H1 H2 Hreq Hst Ev).
Qed.

(** ** A settlement left alone *)

(** The pipeline takes a phase to ready. *)
Fixpoint drives (p : Phase) (todo : list Phase) : bool :=
  match todo with
  | [] => false
  | next :: rest =>
      if needsHop p next PhaseReady then CanTransition p next && (if String.eqb next PhaseReady then true else negb (IsTerminal next) && drives next rest)
      else drives p rest
  end.

Lemma live_phase_drives p : IsValidPhase p = true → IsTerminal p = false → drives p pipeline = true.
Proof.
  unfold IsValidPhase. rewrite bool_decide_eq_true. intros Hp Ht. repeat (apply elem_of_cons in Hp as [->|Hp]; [by first [reflexivity|discriminate Ht]|]).
  by apply elem_of_nil in Hp.
Qed.

Lemma can_transition_hops t now to cfg : CanTransition (phase t) to = true → ∃ t', Transition t now to cfg = (t', (snapshotLocked t', None)) ∧ phase t' = to ∧ tid t' = tid t.
Proof. intros H. destruct (can_transition_valid _ _ H) as (_ & _ & Ht). unfold Transition. rewrite Ht, H. cbn [negb]. eexists. by split_and!. Qed.

(** The tracker is settled and waits to be reaped, nothing else having changed. *)
Definition drivenTo (pid n : nat) (g : settlement) (t : Tracker) (w w' : world) : Prop :=
  ∃ t', objs w' !! n = Some t' ∧ phase t' = target g ∧ tid t' = tid t ∧ calls w' !! pid = Some (Reaping n g (snapshotLocked t')) ∧
    registry w' = registry w ∧ bookends w' = bookends w.

Lemma hop_runs m pid n g next todo t w : calls w !! pid = Some (Hopping n g next todo) → objs w !! n = Some t → CanTransition (phase t) next = true →
  ∃ w' t', callStep m pid w w' ∧ objs w' !! n = Some t' ∧ phase t' = next ∧ tid t' = tid t ∧ calls w' !! pid = Some (afterHop n g next todo (snapshotLocked t')) ∧
    registry w' = registry w ∧ bookends w' = bookends w.
Proof.
  intros Hp Hn Hc. destruct (can_transition_hops t (clock w) next (hopOptions g next) Hc) as (t' & E & Ep & Et).
  eexists _, t'. split; [by eapply hop_ok|]. split_and!; [|done|done|apply lookup_insert_eq|done|done]. apply list_lookup_insert_eq. by eapply lookup_lt_Some.
Qed.

Lemma drive_runs m pid n c todo : ∀ t w snap, calls w !! pid = Some (Driving n (Complete c) todo snap) → objs w !! n = Some t → drives (phase t) todo = true →
  ∃ w', rtc (callStep m pid) w w' ∧ drivenTo pid n (Complete c) t w w'.
Proof.
  induction todo as [|next todo IH]; intros t w snap Hp Hn Hd; [done|]. cbn [drives] in Hd.
  pose proof (drive_look m pid w n (Complete c) next todo snap t Hp Hn) as Hlook. cbn [target] in Hlook. destruct (needsHop (phase t) next PhaseReady).
  - apply andb_true_iff in Hd as [Hc Hd]. destruct (hop_runs m pid n (Complete c) next todo t (setCall w pid (Hopping n (Complete c) next todo))) as (w' & t' & Hhop & Hn' & Ep & Et & Hp' & Er & Eb);
      [apply lookup_insert_eq|done|done|]. unfold afterHop in Hp'. cbn [target] in Hp'. destruct (String.eqb_spec next PhaseReady) as [Eq|Hne].
    + exists w'. split; [by do 2 (eapply rtc_l; [done|])|]. exists t'. by rewrite Ep, Er, Eb.
    + apply andb_true_iff in Hd as [_ Hd]. destruct (IH t' w' _ Hp' Hn') as (w2 & Hr & t2 & H1 & H2 & H3 & H4 & H5 & H6); [by rewrite Ep|].
      exists w2. split; [eapply rtc_l; [done|]; by eapply rtc_l|]. exists t2. rewrite H5, H6, Er, Eb, H3. by split_and!.
  - destruct (IH t (setCall w pid (Driving n (Complete c) todo snap)) snap) as (w2 & Hr & Hdr); [apply lookup_insert_eq|done|done|].
    exists w2. split; [by eapply rtc_l|done].
Qed.

Lemma settle_drives m pid id n g t w : calls w !! pid = None → registry w !! TrimSpace id = Some n → objs w !! n = Some t → tracker_ok t → IsTerminal (phase t) = false →
  ∃ w', rtc (callStep m pid) w w' ∧ drivenTo pid n g t w w'.
Proof.
  intros Hp Hr Hn Hok Ht. pose proof (settle_found m pid w id g n Hp Hr) as Hfound. pose proof (to_phase t Hok) as Hv.
  assert (∀ g', (target g' = PhaseFailed ∨ target g' = PhaseAborted) → startSettle n g' = Hopping n g' (target g') [] → g = g' → ∃ w', rtc (callStep m pid) w w' ∧ drivenTo pid n g t w w') as Hone.
  { intros g' Hg Eg <-. rewrite Eg in Hfound. assert (CanTransition (phase t) (target g) = true) as Hc.
    { unfold CanTransition. rewrite Hv, Ht. destruct (String.eqb_spec (phase t) (target g)) as [E|_]; [by rewrite E, target_terminal in Ht|].
      by destruct Hg as [-> | ->]. }
    destruct (hop_runs m pid n g (target g) [] t (setCall w pid (Hopping n g (target g) []))) as (w' & t' & Hhop & Hn' & Ep & Et & Hp' & Er & Eb); [apply lookup_insert_eq|done|done|].
    unfold afterHop in Hp'. rewrite String.eqb_refl in Hp'. exists w'. split; [by do 2 (eapply rtc_l; [done|])|]. exists t'. by rewrite Er, Eb. }
  destruct g as [c|r|r]; [|apply (Hone (Fail r)); [by left|done|done]|apply (Hone (Abort r)); [by right|done|done]].
  destruct (drive_runs m pid n c pipeline t (setCall w pid (Driving n (Complete c) pipeline zeroUpdate)) zeroUpdate) as (w' & Hrun & Hdr);
    [apply lookup_insert_eq|done|by apply live_phase_drives|]. exists w'. split; [by eapply rtc_l|done].
Qed.

(** ** Main theorems *)

(** A transfer only moves forward. In every interleaving of the manager's calls and of
    those who hold its trackers, byte counts stay within the declared total, a ready
    transfer is complete, and a step leaves a tracker's update as it is or, if it has not
    settled, replaces it by the next in sequence, with at least as many bytes, in the
    same phase or one the pipeline allows. *)
Theorem transfer_moves_forward cfg m w : NewManager cfg = Ok m → reachable m w →
  (∀ n t, objs w !! n = Some t → tracker_ok t) ∧
  (∀ w' n t, step m w w' → objs w !! n = Some t → ∃ t', objs w' !! n = Some t' ∧ evolves t t').
Proof.
  intros Hm Hr. pose proof (new_manager_active cfg m Hm). assert (world_ok m w) as Hok by (apply reachable_world; [lia|done]).
  split; [apply Hok|]. intros w' n t Hs. by apply (step_later m w w' Hok Hs).
Qed.

(** No call in progress, no contribution to a sum. *)
Lemma calls_at_rest (f : call → Z) (cs : gmap nat call) : (∀ pid c, cs !! pid = Some c → ∃ e, c = Returned e) → (∀ e, f (Returned e) = 0) → msum f cs = 0.
Proof.
  intros Hc Hf. unfold msum. assert (Forall (λ kc : nat * call, f kc.2 = 0) (map_to_list cs)) as Hz.
  { apply Forall_forall. intros [pid c] Hin%elem_of_map_to_list. destruct (Hc _ _ Hin) as [e ->]. apply Hf. }
  induction Hz as [|x l Hx _ IH]; [done|]. cbn. rewrite Hx, IH. done.
Qed.

(** C27: transfers are bracketed by their bookends. Whatever the interleaving and the
    answers of the bus: every bookend has a legal event type and the identity of its
    tracker; a transfer is announced at most once and ended at most once, with success
    exactly when it is ready, and the last word is the state the tracker keeps. No more
    trackers are active than the limit. Between calls, if no announcement was refused,
    each transfer was announced once, has its final bookend exactly when the manager
    settled it, and is registered as active exactly while it has not settled, or for
    good when its holder settled it through its tracker, behind the manager's back. *)
Theorem bookends_bracket_transfers cfg m w : NewManager cfg = Ok m → reachable m w →
  (∀ b, b ∈ bookends w → ValidateEventType (eventType m (bstate b)) = None ∧ ∃ t, objs w !! bobj b = Some t ∧ ofTracker t (bsnap b) ∧
     (bstate b = "requested" ∨ bsnap b = snapshotLocked t ∧ IsTerminal (phase t) = true ∧ (bstate b = "success" ↔ phase t = PhaseReady))) ∧
  (∀ n, requestedOf n (bookends w) ≤ 1 ∧ settledOf n (bookends w) ≤ 1) ∧ Z.of_nat (size (registry w)) ≤ maxActive m ∧
  (rollbacks w = 0%nat → (∀ pid c, calls w !! pid = Some c → ∃ e, c = Returned e) → ∀ n t, objs w !! n = Some t →
     requestedOf n (bookends w) = 1 ∧ settledOf n (bookends w) + outsideOf n (outside w) = ended t ∧
     (registry w !! tid t = Some n ↔ IsTerminal (phase t) = false ∨ n ∈ outside w)).
Proof.
  intros Hm Hr. pose proof (new_manager_active cfg m Hm). assert (world_ok m w) as Hok by (apply reachable_world; [lia|done]). split_and!.
  - intros b Hb. destruct (wo_bookends m w Hok b Hb) as (t & Hn & Ho & Hg). split.
    + apply (bookend_types_valid cfg m _ Hm). destruct Hg as [->|([]& -> & _)]; by apply terminal_table_exact.
    + exists t. split; [done|]. split; [done|]. destruct Hg as [?|(g & -> & <- & ->)]; [by left|right]. by destruct g.
  - intros n. pose proof (wo_settled m w Hok n) as H1. pose proof (wo_requested m w Hok n) as H2. pose proof (msum_nonneg (settleCalls n) (calls w) (settle_calls_nonneg n)).
    pose proof (msum_nonneg (requestCalls n) (calls w) (request_calls_nonneg n)). pose proof (outside_nonneg n (outside w)).
    unfold terminalOf, existsOf, ended in *. destruct (objs w !! n); [|lia]. destruct (IsTerminal _); lia.
  - apply Hok.
  - intros H0 Hrest n t Hn. pose proof (wo_settled m w Hok n) as H1. pose proof (wo_requested m w Hok n) as H2. pose proof (wo_active m w Hok H0 n t Hn) as H3.
    rewrite calls_at_rest in H1, H2, H3 by done. unfold terminalOf, existsOf in *. rewrite Hn in H1, H2. split_and!; [lia|lia|].
    rewrite H3. split; [intros [?|[?|?]]; [by left|lia|by right]|naive_solver].
Qed.

(** A transfer that is left alone can be settled. From every reachable state a call
    that settles an active, unsettled transfer, run with a bus that answers, returns
    without error: the tracker is in the phase asked for, no longer active, and its final
    bookend is published last. *)
Theorem settle_alone_succeeds cfg m w pid id n t g : NewManager cfg = Ok m → reachable m w → calls w !! pid = None →
  registry w !! TrimSpace id = Some n → objs w !! n = Some t → IsTerminal (phase t) = false →
  ∃ w' t', rtc (callStep m pid) w w' ∧ calls w' !! pid = Some (Returned None) ∧ objs w' !! n = Some t' ∧ phase t' = target g ∧
    registry w' !! TrimSpace id = None ∧ bookends w' = bookends w ++ [mkBookend (stateOf g) n (snapshotLocked t') true].
Proof.
  intros Hm Hr Hp Hreg Hn Ht. pose proof (new_manager_active cfg m Hm). assert (world_ok m w) as Hok by (apply reachable_world; [lia|done]).
  destruct (settle_drives m pid id n g t w Hp Hreg Hn (wo_objs m w Hok n t Hn) Ht) as (w1 & Hrun & t' & Hn1 & Ep & Et & Hp1 & Er & Eb).
  destruct (wo_registry m w Hok _ _ Hreg) as (t0 & Hn0 & Eid). simplify_eq.
  pose proof (reap m pid w1 n g _ t' Hp1 Hn1) as Hreap. set (w2 := setCall _ _ _) in Hreap.
  pose proof (settle_published m pid w2 n g (snapshotLocked t') true ltac:(apply lookup_insert_eq) ltac:(done)) as Hpub.
  eexists _, t'. split; [eapply rtc_r; [eapply rtc_r; [exact Hrun|exact Hreap]|exact Hpub]|]. cbn [calls objs registry bookends addBookend setCall setRegistry w2].
  split_and!; [apply lookup_insert_eq|done|done| |by rewrite Eb]. by rewrite Er, <- Eid, Et, lookup_delete_eq.
Qed.

(** ** Runs of the manager *)

Definition mediaConfig : Config := mkConfig " media" "upload" "v1" true 2.
Definition media : Manager := mkManager "media" "upload" "v1" true 2.

Lemma media_manager : NewManager mediaConfig = Ok media.
Proof. vm_compute. reflexivity. Qed.

Abbreviation runsTo := (reachable media).

Lemma calls_to pid w w' : runsTo w → callStep media pid w w' → runsTo w'.
Proof. intros R H. eapply reach_step; [exact R|]. by eapply call_step. Qed.

Lemma hops_to pid w n g next todo t : runsTo w → calls w !! pid = Some (Hopping n g next todo) → objs w !! n = Some t →
  let r := Transition t (clock w) next (hopOptions g next) in
  runsTo (setCall (setObj w n r.1) pid (match r.2.2 with None => afterHop n g next todo r.2.1 | Some e => Returned (Some e) end)).
Proof.
  intros R Hp Hn r. destruct (Transition t (clock w) next (hopOptions g next)) as [t' [snap [e|]]] eqn:E; eapply calls_to; [done| |done|].
  - by eapply hop_refused.
  - by eapply hop_ok.
Qed.

(** A transfer of a hundred bytes is begun and announced, and ten bytes arrive. *)
Lemma media_uploading : ∃ w, runsTo w ∧ calls w = {[0%nat := Returned None]} ∧ registry w = {["up-1" := 0%nat]} ∧
  objs w = [mkTracker "up-1" "c-1" PhaseUploading 10 100 "" "" 1 0 ∅ 0] ∧ rollbacks w = 0%nat ∧ outside w = [] ∧ clock w = 0 ∧
  bookends w = [mkBookend "requested" 0 (mkUpdate "up-1" "c-1" PhasePending 0 100 "" "" 0 0) true].
Proof.
  eassert (runsTo _) as R1 by (eapply (calls_to 0); [apply reach_start|]; eapply (begin_registers _ _ _ " up-1" "c-1" 100); [reflexivity|vm_compute; reflexivity]). vm_compute in R1.
  eassert (runsTo _) as R2 by (eapply (calls_to 0); [exact R1|]; eapply begin_snapshot; (vm_compute; reflexivity)). vm_compute in R2.
  eassert (runsTo _) as R3 by (eapply (calls_to 0); [exact R2|]; eapply begin_published; (vm_compute; reflexivity)). vm_compute in R3.
  eassert (runsTo _) as R4 by (eapply reach_step; [exact R3|]; eapply (hold_advance _ _ 0 _ 10); (vm_compute; reflexivity)). vm_compute in R4.
  eexists. split; [exact R4|]. split_and!; vm_compute; reflexivity.
Qed.

Lemma transfer_moves_forward_witness : NewManager mediaConfig = Ok media ∧ ∃ w, runsTo w ∧ ∃ t, objs w !! 0%nat = Some t ∧ bytesDone t = 10 ∧ bytesDone t ≤ bytesTotal t.
Proof.
  split; [exact media_manager|]. destruct media_uploading as (w & R & _ & _ & Eo & _). exists w. split; [exact R|]. eexists. rewrite Eo. split; [reflexivity|]. split; [reflexivity|].
  destruct (transfer_moves_forward mediaConfig media w media_manager R) as [H _]. specialize (H 0%nat). rewrite Eo in H. apply (to_within _ (H _ eq_refl)). reflexivity.
Defined.

Lemma bookends_bracket_transfers_witness : ∃ w, NewManager mediaConfig = Ok media ∧ runsTo w ∧ rollbacks w = 0%nat ∧ requestedOf 0 (bookends w) = 1 ∧ settledOf 0 (bookends w) = 0 ∧
  registry w !! "up-1" = Some 0%nat.
Proof.
  destruct media_uploading as (w & R & Ec & Er & Eo & H0 & Hout & _ & Eb). exists w. split; [exact media_manager|]. split; [exact R|]. split; [exact H0|].
  destruct (bookends_bracket_transfers mediaConfig media w media_manager R) as (_ & _ & _ & H). specialize (H H0). rewrite Ec, Eo in H.
  assert (∀ pid c, ({[0%nat := Returned None]} : gmap nat call) !! pid = Some c → ∃ e, c = Returned e) as Hrest.
  { intros pid c Hc. apply lookup_singleton_Some in Hc as [_ <-]. by eexists. }
  destruct (H Hrest 0%nat _ eq_refl) as (H1 & H2 & H3). split; [exact H1|]. rewrite Hout in H2, H3. change (settledOf 0 (bookends w) + 0 = 0) in H2. split; [lia|]. apply H3. left. reflexivity.
Defined.

Lemma settle_alone_succeeds_witness : ∃ w w' t', NewManager mediaConfig = Ok media ∧ runsTo w ∧ calls w' !! 1%nat = Some (Returned None) ∧ objs w' !! 0%nat = Some t' ∧ phase t' = PhaseReady ∧
  registry w' !! "up-1" = None.
Proof.
  destruct media_uploading as (w & R & Ec & Er & Eo & _). exists w.
  destruct (settle_alone_succeeds mediaConfig media w 1 "up-1 " 0 _ (Complete "sum") media_manager R ltac:(rewrite Ec; vm_compute; reflexivity)
    ltac:(rewrite Er; vm_compute; reflexivity) ltac:(rewrite Eo; vm_compute; reflexivity) eq_refl) as (w' & t' & _ & H1 & H2 & H3 & H4 & _).
  exists w', t'. split; [exact media_manager|]. split; [exact R|]. split; [exact H1|]. split; [exact H2|]. split; [exact H3|exact H4].
Defined.

(** A refused announcement forgets whatever is registered under its identifier: here a
    later transfer, begun after the first was aborted, which nobody can settle any more. *)
Theorem rollback_forgets_another_transfer : ∃ w t, runsTo w ∧ calls w !! 2%nat = Some (Returned None) ∧ objs w !! 1%nat = Some t ∧ tid t = "up-1" ∧ phase t = PhasePending ∧
  registry w !! "up-1" = None.
Proof.
  eassert (runsTo _) as R1 by (eapply (calls_to 0); [apply reach_start|]; eapply (begin_registers _ _ _ "up-1" "c-1" 100); [reflexivity|vm_compute; reflexivity]). vm_compute in R1.
  eassert (runsTo _) as R2 by (eapply (calls_to 0); [exact R1|]; eapply begin_snapshot; (vm_compute; reflexivity)). vm_compute in R2.
  eassert (runsTo _) as R3 by (eapply (calls_to 1); [exact R2|]; eapply (settle_found _ _ _ "up-1" (Abort "gone")); (vm_compute; reflexivity)). vm_compute in R3.
  eassert (runsTo _) as R4 by (eapply (hops_to 1); [exact R3|vm_compute; reflexivity|vm_compute; reflexivity]). vm_compute in R4.
  eassert (runsTo _) as R5 by (eapply (calls_to 1); [exact R4|]; eapply reap; (vm_compute; reflexivity)). vm_compute in R5.
  eassert (runsTo _) as R6 by (eapply (calls_to 2); [exact R5|]; eapply (begin_registers _ _ _ "up-1" "c-2" 50); (vm_compute; reflexivity)). vm_compute in R6.
  eassert (runsTo _) as R7 by (eapply (calls_to 2); [exact R6|]; eapply begin_snapshot; (vm_compute; reflexivity)). vm_compute in R7.
  eassert (runsTo _) as R8 by (eapply (calls_to 2); [exact R7|]; eapply begin_published; (vm_compute; reflexivity)). vm_compute in R8.
  eassert (runsTo _) as R9 by (eapply (calls_to 0); [exact R8|]; eapply begin_rolls_back; (vm_compute; reflexivity)). vm_compute in R9.
  eexists _, _. split; [exact R9|]. split_and!; vm_compute; reflexivity.
Qed.

(** The first bytes of a transfer arrive between the look and the hop of [Complete], which
    then fails though nothing is wrong with the transfer. *)
Theorem racing_progress_fails_completion : ∃ w t, runsTo w ∧ calls w !! 1%nat = Some (Returned (Some ErrInvalidTransition)) ∧ objs w !! 0%nat = Some t ∧ phase t = PhaseUploading ∧ bytesDone t = 100.
Proof.
  eassert (runsTo _) as R1 by (eapply (calls_to 0); [apply reach_start|]; eapply (begin_registers _ _ _ "up-1" "c-1" 100); [reflexivity|vm_compute; reflexivity]). vm_compute in R1.
  eassert (runsTo _) as R2 by (eapply (calls_to 1); [exact R1|]; eapply (settle_found _ _ _ "up-1" (Complete "sum")); (vm_compute; reflexivity)). vm_compute in R2.
  eassert (runsTo _) as R3 by (eapply (calls_to 1); [exact R2|]; eapply drive_look; (vm_compute; reflexivity)). vm_compute in R3.
  eassert (runsTo _) as R4 by (eapply reach_step; [exact R3|]; eapply (hold_advance _ _ 0 _ 100); (vm_compute; reflexivity)). vm_compute in R4.
  eassert (runsTo _) as R5 by (eapply (hops_to 1); [exact R4|vm_compute; reflexivity|vm_compute; reflexivity]). vm_compute in R5.
  eexists _, _. split; [exact R5|]. split_and!; vm_compute; reflexivity.
Qed.

(** The declared total can shrink. *)
Theorem total_can_shrink : let t := (SetTotal (newTracker "up-1" "c-1" 0 0) 1 100).1 in bytesTotal t = 100 ∧ (SetTotal t 2 50).2.2 = true ∧ bytesTotal (SetTotal t 2 50).1 = 50.
Proof. vm_compute. done. Qed.
