(* ===== verification/ObjectStore.v ===== *)
(** * ObjectStore: the in-memory object store (src/server-kit/go/objectstore/object_store.go)

    Objects by normalised key. A reader is the bytes it yields and how it ends; every key
    passes through [normalizeKey], which cleans it as a path. *)

From Stdlib Require Import ZArith Lia Ascii String.
From stdpp Require Import base strings gmap numbers list.
From S2P Require Import Prelude GoStrings Segments.

Open Scope string_scope.
Open Scope list_scope.
Open Scope Z_scope.

Definition blen (s : string) : Z := Z.of_nat (String.length s).

Lemma blen_app a b : blen (a +:+ b) = blen a + blen b.
Proof. unfold blen. rewrite length_append. lia. Qed.

Lemma blen_nonneg s : 0 ≤ blen s.
Proof. unfold blen. lia. Qed.

(** ** Keys *)

Abbreviation slash := ("/"%char).

(** [path.Clean]: the segments kept so far, the last one first. *)
Fixpoint cleanSegments (rooted : bool) (kept segs : list string) : list string :=
  match segs with
  | [] => kept
  | seg :: rest =>
      if String.eqb seg "" || String.eqb seg "." then cleanSegments rooted kept rest
      else if String.eqb seg ".." then
        match kept with
        | top :: below => cleanSegments rooted (if String.eqb top ".." then seg :: kept else below) rest
        | [] => cleanSegments rooted (if rooted then [] else [seg]) rest
        end
      else cleanSegments rooted (seg :: kept) rest
  end.

Definition Clean (path : string) : string :=
  if String.eqb path "" then "."
  else
    let rooted := HasPrefix path "/" in
    let out := Join "/" (reverse (cleanSegments rooted [] (Split slash path))) in
    if rooted then "/" +:+ out else if String.eqb out "" then "." else out.

Definition normalizeKey (key : string) : string :=
  let key := Clean (TrimSpace key) in
  let key := TrimPrefix key "./" in
  let key := TrimPrefix key "/" in
  if String.eqb key "." then "" else key.

(** ** Readers *)

(** What a reader reports at its end when it is not the end of the data: that it holds
    more than it may, or a failure of its source. *)
Inductive read_error := ErrExceeds | ErrSource.

Record stream := mkStream { sbytes : string; sfails : option read_error }.

(** Reading through a limit: more bytes are an error after the allowed ones. *)
Definition bounded (s : stream) (limit : Z) : stream :=
  if limit <? blen (sbytes s) then mkStream (String.substring 0 (Z.to_nat limit) (sbytes s)) (Some ErrExceeds) else s.

(** ** The store *)

Inductive store_error := ErrKeyRequired | ErrTooLarge | ErrSizeMismatch | ErrRange | ErrAbsent | ErrRead (e : read_error).

Abbreviation blobs := (gmap string string).

Definition maxMemoryStreamSize : Z := 64 * 1024 * 1024.

Definition readStream (s : stream) (size : Z) : res store_error string :=
  let n := blen (sbytes s) in
  if maxMemoryStreamSize <? size then Err ErrTooLarge
  else if size <=? 0 then
    if maxMemoryStreamSize <? n then Err ErrTooLarge
    else match sfails s with Some e => Err (ErrRead e) | None => Ok (sbytes s) end
  else if n <? size then match sfails s with Some e => Err (ErrRead e) | None => Ok (sbytes s) end
  else if size <? n then Ok (String.substring 0 (Z.to_nat (size + 1)) (sbytes s))
  else match sfails s with Some e => Err (ErrRead e) | None => Ok (sbytes s) end.

(** [PutStream]; the key of the object it returns. A negative [size] is unknown. *)
Definition PutStream (b : blobs) (key : string) (s : stream) (size : Z) : res store_error (blobs * string) :=
  let key := normalizeKey key in
  if String.eqb key "" then Err ErrKeyRequired
  else match readStream s size with
       | Err e => Err e
       | Ok payload => if (0 <=? size) && negb (blen payload =? size) then Err ErrSizeMismatch else Ok (<[key := payload]> b, key)
       end.

Definition GetRange (b : blobs) (key : string) (offset length : Z) : res store_error string :=
  if (offset <? 0) || (length <=? 0) || (maxInt64 - offset <? length) then Err ErrRange
  else
    let key := normalizeKey key in
    if String.eqb key "" then Err ErrKeyRequired
    else match b !! key with
         | None => Err ErrAbsent
         | Some payload =>
             if blen payload <? offset then Err ErrRange
             else let end_ := Z.min (offset + length) (blen payload) in Ok (String.substring (Z.to_nat offset) (Z.to_nat (end_ - offset)) payload)
         end.

Definition Delete (b : blobs) (key : string) : blobs :=
  let key := normalizeKey key in if String.eqb key "" then b else delete key b.

(** ** Keys that are paths stay as they are *)

(** A segment that cleaning keeps. *)
Definition keptSegment (seg : string) : Prop := seg ≠ "" ∧ seg ≠ "." ∧ seg ≠ "..".

Abbreviation slashFree s := (Contains s "/" = false).

Lemma clean_segments_id rooted segs : ∀ kept, Forall keptSegment segs → cleanSegments rooted kept segs = reverse segs ++ kept.
Proof.
  induction segs as [|seg segs IH]; intros kept Hs; [done|]. apply Forall_cons in Hs as [(H1 & H2 & H3) Hs]. cbn [cleanSegments].
  apply String.eqb_neq in H1 as ->, H2 as ->, H3 as ->. cbn [orb]. rewrite IH by done. rewrite reverse_cons, <- app_assoc. done.
Qed.

(** A path that cleaning leaves alone: no empty, [.] or [..] segment, no white space. *)
Definition plainPath (s : string) : Prop := plainText s ∧ Forall keptSegment (Split slash s).

Lemma split_head_kept s w r : Forall keptSegment (Split slash s) → slashFree w → s = w +:+ String slash r → keptSegment w.
Proof. intros Hs Hw ->. rewrite split_part in Hs by done. by apply Forall_cons in Hs as [? _]. Qed.

Lemma kept_path_id s : plainPath s → s ≠ "" → normalizeKey s = s.
Proof.
  intros [Hp Hs] Hne. assert (∀ w, slashFree w → ¬ keptSegment w → HasPrefix s (w +:+ "/") = false) as Hpre.
  { intros w Hw Hk. destruct (HasPrefix s (w +:+ "/")) eqn:E; [|done]. apply has_prefix_spec in E as [r E]. rewrite append_assoc in E.
    destruct Hk. exact (split_head_kept s w r Hs Hw E). }
  pose proof (Hpre "" eq_refl ltac:(intros (H & _); done)) as H1. pose proof (Hpre "." eq_refl ltac:(intros (_ & H & _); done)) as H2. cbn in H1, H2.
  assert (Clean s = s) as Hc.
  { unfold Clean. pose proof (proj2 (String.eqb_neq s "") Hne) as He. rewrite He. change (HasPrefix s "/") with (HasPrefix s ("" +:+ "/")). rewrite H1. rewrite clean_segments_id by done.
    rewrite app_nil_r, reverse_involutive, join_split. by rewrite He. }
  unfold normalizeKey. rewrite trim_space_plain, Hc by done. unfold TrimPrefix. change "./" with ("." +:+ "/"). rewrite H2.
  change (HasPrefix s "/") with (HasPrefix s ("" +:+ "/")). rewrite H1. destruct (String.eqb_spec s "."); [|done]. subst s. cbn in Hs. by apply Forall_cons in Hs as [(_ & ? & _) _].
Qed.

Lemma plain_path_app a b : plainPath a → plainPath b → plainPath (a +:+ String slash b).
Proof.
  intros [Ha Hsa] [Hb Hsb]. split; [apply plain_append; [done|constructor; [reflexivity|exact Hb]]|].
  rewrite <- (join_split slash a), <- (join_split slash b). 
  assert (∀ l m, l ≠ [] → m ≠ [] → Join "/" l +:+ String slash (Join "/" m) = Join "/" (l ++ m)) as Hj.
  { intros l m Hl Hm. induction l as [|x [|y l] IH]; [done|by destruct m|]. cbn [app]. rewrite !join_cons, append_assoc, append_cons. f_equal. f_equal. by apply IH. }
  rewrite Hj by apply split_nonempty. rewrite split_join; [by apply Forall_app|intros [E _]%app_nil; by apply split_nonempty in E|].
  apply Forall_app. split; apply split_sep_free.
Qed.

Lemma plain_path_segment s : plainText s → slashFree s → keptSegment s → plainPath s.
Proof. intros Hp Hf Hk. split; [done|]. rewrite split_free by done. by constructor. Qed.

(** ** What was put is what is read *)

Lemma put_stream_ok b key s size b' k : PutStream b key s size = Ok (b', k) →
  k = normalizeKey key ∧ k ≠ "" ∧ ∃ payload, readStream s size = Ok payload ∧ b' = <[k := payload]> b ∧ (0 ≤ size → blen payload = size).
Proof.
  unfold PutStream. destruct (String.eqb_spec (normalizeKey key) "") as [|Hne]; [done|]. destruct (readStream s size) as [payload|]; [|done].
  destruct (_ && _) eqn:E; [done|]. intros [= <- <-]. split_and!; [done|done|]. exists payload. split_and!; [done|done|]. intros Hs.
  rewrite (proj2 (Z.leb_le 0 size)) in E by done. cbn in E. apply negb_false_iff, Z.eqb_eq in E. done.
Qed.

Lemma length_prefix s : ∀ n, (n ≤ String.length s)%nat → String.length (String.substring 0 n s) = n.
Proof. induction s as [|c s IH]; intros [|n] H; cbn in *; try done; try lia. rewrite IH; lia. Qed.

(** A bounded reader that is stored at its bound gave all its bytes. *)
Lemma read_bounded s limit payload : 0 ≤ limit → readStream (bounded s limit) limit = Ok payload → blen payload = limit → payload = sbytes s ∧ blen (sbytes s) = limit ∧ sfails s = None.
Proof.
  intros Hl. unfold bounded. destruct (Z.ltb_spec limit (blen (sbytes s))) as [Hlt|Hge].
  - set (p := String.substring _ _ _). assert (blen p = limit) as Hp.
    { unfold p, blen in *. rewrite length_prefix; lia. }
    unfold readStream. cbn [sbytes sfails]. rewrite Hp. repeat (match goal with |- context [if ?c then _ else _] => destruct c eqn:? end); try done; intros; lia.
  - unfold readStream. destruct s as [bs [e|]]; cbn [sbytes sfails] in *; repeat (match goal with |- context [if ?c then _ else _] => destruct c eqn:? end);
      rewrite ?Z.ltb_lt, ?Z.ltb_ge, ?Z.leb_le, ?Z.leb_gt in *; intros [=] Hb; subst; try done; try lia. 
Qed.

Lemma get_range_ok b key offset length payload : normalizeKey key = key → key ≠ "" → b !! key = Some payload → 0 ≤ offset → 0 < length → offset + length ≤ blen payload → blen payload ≤ maxInt64 →
  GetRange b key offset length = Ok (String.substring (Z.to_nat offset) (Z.to_nat length) payload).
Proof.
  intros Hn Hne Hk Ho Hl He Hm. unfold GetRange. rewrite (proj2 (Z.ltb_ge offset 0)), (proj2 (Z.leb_gt length 0)), (proj2 (Z.ltb_ge (maxInt64 - offset) length)) by lia.
  cbn [orb]. rewrite Hn. apply String.eqb_neq in Hne as ->. rewrite Hk, (proj2 (Z.ltb_ge (blen payload) offset)) by lia.
  rewrite Z.min_l by lia. do 2 f_equal. lia.
Qed.
