(* ===== verification/Bulk.v ===== *)
(** * Bulk: multipart transfers (src/server-kit/go/bulk/manager.go, state.go, status.go)

    A transfer is planned, its parts are stored and recorded one by one, and a manifest
    that tiles the whole payload completes it; completed transfers are read by range. The
    manager works on the in-memory state store and the object store of [ObjectStore].
    Each call is a function on [service]; the digest, the codecs, generated identifiers
    and whether the bus takes an event are inputs. *)

From Stdlib Require Import ZArith Lia Ascii String Sorting.Sorted.
From stdpp Require Import base strings gmap fin_maps numbers pretty sorting list.
From S2P Require Import Prelude GoStrings Segments ObjectStore.

Open Scope string_scope.
Open Scope list_scope.
Open Scope Z_scope.

Definition DefaultChunkSize : Z := 4 * 1024 * 1024.
Definition DefaultMaxChunk : Z := 64 * 1024 * 1024.
Definition DefaultMaxParts : Z := 10000.

Definition EncodingIdentity : string := "identity".
Definition EncodingAuto : string := "auto".
Definition EncodingBrotli : string := "br".
Definition EncodingZstd : string := "zstd".
Definition EncodingGzip : string := "gzip".

Definition StateInitiated : string := "initiated".
Definition StateCompleted : string := "completed".
Definition StateAborted : string := "aborted".

(** Application errors: their code and message. [CodeRaw] is for an error of a reader or of
    the store that is passed on as it is. *)
Inductive code := CodeValidation | CodeQuotaExceeded | CodeExpired | CodeUnauthorized | CodeForbidden | CodeNotFound | CodeInvalidState | CodeConflict
| CodePrecondition | CodeNotImplemented | CodeDependency | CodeRaw.
Abbreviation berror := (code * string)%type.

(** ** Arithmetic and text helpers *)

Definition checkedAddInt64 (a b : Z) : option Z :=
  if (a <? 0) || (b <? 0) then None else if (0 <? b) && (maxInt64 - b <? a) then None else Some (a + b).

Definition ceilDiv (n d : Z) : Z := if n =? 0 then 0 else 1 + (n - 1) `quot` d.

Definition firstPositive (a b : Z) : Z := if 0 <? a then a else if 0 <? b then b else 0.

Definition firstNonEmpty (values : list string) : string :=
  match filter (λ v, TrimSpace v ≠ "") values with v :: _ => TrimSpace v | [] => "" end.

Definition normalizeEncoding (value : string) : string :=
  let v := ToLower (TrimSpace value) in
  if String.eqb v "" || String.eqb v EncodingIdentity then EncodingIdentity
  else if String.eqb v EncodingAuto then EncodingAuto
  else if String.eqb v EncodingBrotli || String.eqb v "brotli" then EncodingBrotli
  else if String.eqb v EncodingZstd then EncodingZstd
  else if String.eqb v EncodingGzip then EncodingGzip
  else "".

Definition validSHA256 (value : string) : bool :=
  (String.length value =? 64)%nat && match hexDecode value with Some _ => true | None => false end.

(** [transferIDPattern]: one to 128 letters, digits, dots, underscores, colons and dashes. *)
Definition idByte (c : ascii) : bool := byteIn c 65 90 || byteIn c 97 122 || byteIn c 48 57 || byteIs c 46 || byteIs c 95 || byteIs c 58 || byteIs c 45.

Definition validTransferID (id : string) : bool :=
  let n := String.length id in (1 <=? n)%nat && (n <=? 128)%nat && forallb idByte (list_ascii_of_string id).

(** ** Plans, parts and manifests

    Attributes, content types of single parts and entity tags are carried along and never
    read; they are left out. *)

Record TransferPlan := mkPlan {
  PTransferID : string; POrganizationID : string; PCorrelationID : string; PIdempotencyKey : string; PTotalSize : Z; PChunkSize : Z; PMaxMemory : Z; PMaxParts : Z;
  PContentType : string; PCompression : string; PObjectPrefix : string; PManifestKey : string; PState : string; PCreatedAt : Z; PDeadline : Z
}.

Record PartDescriptor := mkDescriptor { DPartNumber : Z; DOffset : Z; DSize : Z; DExpectedRawSHA256 : string }.

Record PartReceipt := mkReceipt {
  RTransferID : string; ROrganizationID : string; RCorrelationID : string; RPartNumber : Z; ROffset : Z; RRawSize : Z; REncodedSize : Z;
  RRawSHA256 : string; REncodedSHA256 : string; REncoding : string; RObjectKey : string; RCreatedAt : Z; RIdempotentReplay : bool
}.

Record TransferManifest := mkManifest {
  MTransferID : string; MOrganizationID : string; MCorrelationID : string; MTotalSize : Z; MChunkSize : Z; MContentType : string; MCompression : string;
  MRootSHA256 : string; MManifestKey : string; MParts : list PartReceipt; MCompletedAt : Z
}.

(** ** The in-memory state store *)

Definition stateKey (orgID transferID : string) : string := orgID +:+ "/" +:+ transferID.

Record MemoryStateStore := mkState { plans : gmap string TransferPlan; receipts : gmap string (gmap Z PartReceipt); manifests : gmap string TransferManifest }.

Definition SavePlan (s : MemoryStateStore) (p : TransferPlan) : MemoryStateStore :=
  mkState (<[stateKey (POrganizationID p) (PTransferID p) := p]> (plans s)) (receipts s) (manifests s).
Definition LoadPlan (s : MemoryStateStore) (orgID transferID : string) : option TransferPlan := plans s !! stateKey orgID transferID.

Definition receiptsAt (s : MemoryStateStore) (orgID transferID : string) : gmap Z PartReceipt := default ∅ (receipts s !! stateKey orgID transferID).
Definition SaveReceipt (s : MemoryStateStore) (r : PartReceipt) : MemoryStateStore :=
  mkState (plans s) (<[stateKey (ROrganizationID r) (RTransferID r) := <[RPartNumber r := r]> (receiptsAt s (ROrganizationID r) (RTransferID r))]> (receipts s)) (manifests s).
Definition LoadReceipt (s : MemoryStateStore) (orgID transferID : string) (partNumber : Z) : option PartReceipt := receiptsAt s orgID transferID !! partNumber.

(** The receipts in the order of their part numbers. *)
Definition byPart (r r' : PartReceipt) : Prop := RPartNumber r ≤ RPartNumber r'.
#[global] Instance by_part_dec r r' : Decision (byPart r r').
Proof. unfold byPart. apply _. Defined.

Definition ListReceipts (s : MemoryStateStore) (orgID transferID : string) : list PartReceipt :=
  merge_sort byPart (map snd (map_to_list (receiptsAt s orgID transferID))).

Definition SaveManifest (s : MemoryStateStore) (m : TransferManifest) : MemoryStateStore :=
  mkState (plans s) (receipts s) (<[stateKey (MOrganizationID m) (MTransferID m) := m]> (manifests s)).
Definition LoadManifest (s : MemoryStateStore) (orgID transferID : string) : option TransferManifest := manifests s !! stateKey orgID transferID.

(** ** The manager *)

Record Manager := mkManager { namespace : string; defaultChunkSize : Z; maxChunkSize : Z; maxParts : Z; receiptTTL : Z }.

(** [strings.Trim(s, "/ ")] *)
Fixpoint trimSet (l : list ascii) : list ascii := match l with c :: r => if Ascii.eqb c "/" || Ascii.eqb c " " then trimSet r else l | [] => [] end.
Definition trimNamespace (s : string) : string := string_of_list_ascii (reverse (trimSet (reverse (trimSet (list_ascii_of_string s))))).

Definition NewManager (ns : string) (chunk maxChunk parts ttl : Z) : Manager :=
  let ns := trimNamespace ns in
  mkManager (if String.eqb ns "" then "bulk" else ns) (if chunk <=? 0 then DefaultChunkSize else chunk) (if maxChunk <=? 0 then DefaultMaxChunk else maxChunk)
    (if parts <=? 0 then DefaultMaxParts else parts) (if ttl <=? 0 then 3600000000000 else ttl).

(** Who calls: the authenticated organization, the one of the metadata, its correlation
    and idempotency key, and the time. *)
Record caller := mkCaller { authOrg : string; mdOrg : string; correlation : string; mdIdempotency : string; now : Z }.

Record service := mkService { state : MemoryStateStore; objects : blobs }.

Definition setState (sv : service) (s : MemoryStateStore) : service := mkService s (objects sv).
Definition setObjects (sv : service) (b : blobs) : service := mkService (state sv) b.

Definition contextScope (c : caller) : res berror string :=
  let org := TrimSpace (authOrg c) in
  if String.eqb org "" then Err (CodeUnauthorized, "organization context is required")
  else if negb (String.eqb (TrimSpace (mdOrg c)) "") && negb (String.eqb (TrimSpace (mdOrg c)) org) then
    Err (CodeForbidden, "metadata organization does not match authenticated context")
  else Ok org.

Definition loadPlanForRead (sv : service) (c : caller) (transferID : string) : res berror TransferPlan :=
  match contextScope c with
  | Err e => Err e
  | Ok org =>
      let id := TrimSpace transferID in
      if String.eqb id "" then Err (CodeValidation, "transfer_id is required")
      else match LoadPlan (state sv) org id with Some p => Ok p | None => Err (CodeNotFound, "transfer was not found") end
  end.

Definition loadPlanForMutation (sv : service) (c : caller) (transferID : string) : res berror TransferPlan :=
  match loadPlanForRead sv c transferID with
  | Err e => Err e
  | Ok p =>
      if negb (String.eqb (PState p) StateInitiated) then Err (CodeInvalidState, "transfer is not accepting mutations")
      else if negb (PDeadline p =? 0) && (PDeadline p <=? now c) then Err (CodeExpired, "transfer deadline expired")
      else Ok p
  end.

(** *** Initiate *)

Record InitiateRequest := mkInitiate {
  ITransferID : string; ITotalSize : Z; IChunkSize : Z; IMaxMemory : Z; IMaxParts : Z; IContentType : string; ICompression : string; IDeadline : Z; IIdempotencyKey : string
}.

Definition validateInitiate (req : InitiateRequest) (chunkSize maxMemory parts maxChunk at_ : Z) : option berror :=
  if ITotalSize req <? 0 then Some (CodeValidation, "total_size must be non-negative")
  else if (chunkSize <=? 0) || (maxChunk <? chunkSize) then Some (CodeValidation, "chunk_size is outside allowed bounds")
  else if (maxMemory <=? 0) || (maxChunk <? maxMemory) then Some (CodeValidation, "max_memory is outside allowed bounds")
  else if maxMemory <? chunkSize then Some (CodeValidation, "chunk_size cannot exceed max_memory")
  else if (parts <=? 0) || (DefaultMaxParts <? parts) then Some (CodeValidation, "max_parts is outside allowed bounds")
  else if (0 <? ITotalSize req) && (parts <? ceilDiv (ITotalSize req) chunkSize) then Some (CodeQuotaExceeded, "transfer exceeds part budget")
  else if negb (IDeadline req =? 0) && (IDeadline req <=? at_) then Some (CodeExpired, "deadline has already expired")
  else if negb (String.eqb (TrimSpace (ICompression req)) "") && String.eqb (normalizeEncoding (ICompression req)) "" then Some (CodeValidation, "unsupported compression")
  else None.

(** [buildPlan]; [generated]: the identifier made up for a request without one. *)
Definition buildPlan (m : Manager) (req : InitiateRequest) (org : string) (c : caller) (generated : string) : res berror TransferPlan :=
  let chunkSize := firstPositive (IChunkSize req) (defaultChunkSize m) in
  let maxMemory := firstPositive (IMaxMemory req) chunkSize in
  let parts := if IMaxParts req <=? 0 then maxParts m else IMaxParts req in
  match validateInitiate req chunkSize maxMemory parts (maxChunkSize m) (now c) with
  | Some e => Err e
  | None =>
      let id := TrimSpace (ITransferID req) in
      let id := if String.eqb id "" then generated else id in
      if negb (validTransferID id) then Err (CodeValidation, "transfer_id has invalid format")
      else
        let contentType := TrimSpace (IContentType req) in
        let prefix := namespace m +:+ "/" +:+ org +:+ "/" +:+ id in
        Ok (mkPlan id org (correlation c) (firstNonEmpty [IIdempotencyKey req; mdIdempotency c]) (ITotalSize req) chunkSize maxMemory parts
              (if String.eqb contentType "" then "application/octet-stream" else contentType) (normalizeEncoding (ICompression req)) prefix (prefix +:+ "/manifest.json")
              StateInitiated (now c) (IDeadline req))
  end.

Definition replayInitiate (existing candidate : TransferPlan) : res berror TransferPlan :=
  if negb (String.eqb (POrganizationID existing) (POrganizationID candidate)) then Err (CodeForbidden, "transfer belongs to another organization")
  else if negb (String.eqb (PIdempotencyKey existing) "") && String.eqb (PIdempotencyKey existing) (PIdempotencyKey candidate) then Ok existing
  else Err (CodeConflict, "transfer_id already exists").

Definition publishFailed : berror := (CodeDependency, "publish bulk event").

(** [requested], [success]: whether the bus takes the event before and after. *)
Definition Initiate (m : Manager) (sv : service) (c : caller) (req : InitiateRequest) (generated : string) (requested success : bool) : service * res berror TransferPlan :=
  match contextScope c with
  | Err e => (sv, Err e)
  | Ok org =>
      match buildPlan m req org c generated with
      | Err e => (sv, Err e)
      | Ok plan =>
          match LoadPlan (state sv) org (PTransferID plan) with
          | Some existing => (sv, replayInitiate existing plan)
          | None =>
              if negb requested then (sv, Err publishFailed)
              else let sv := setState sv (SavePlan (state sv) plan) in (sv, if success then Ok plan else Err publishFailed)
          end
      end
  end.

(** *** Parts *)

Section Service.
(** The hexadecimal digest of some bytes, and what a codec makes of them. *)
Context (sha256 : string → string) (codec : string → string → string).

(** Six digits for a part number below a million. *)
Fixpoint sixDigits (width n : nat) : string :=
  match width with O => "" | S w => String (ascii_of_nat (48 + n / 10 ^ w mod 10)) (sixDigits w n) end.

Definition partObjectKey (p : TransferPlan) (partNumber : Z) : string :=
  PObjectPrefix p +:+ "/parts/" +:+ (if partNumber <? 1000000 then sixDigits 6 (Z.to_nat partNumber) else pretty (Z.to_N partNumber)).

Definition validatePart (p : TransferPlan) (d : PartDescriptor) : option berror :=
  if (DPartNumber d <? 0) || (PMaxParts p <=? DPartNumber d) then Some (CodeValidation, "part_number is outside allowed bounds")
  else if (DOffset d <? 0) || (DSize d <? 0) then Some (CodeValidation, "part offset and size must be non-negative")
  else if (PChunkSize p <? DSize d) || (PMaxMemory p <? DSize d) then Some (CodeQuotaExceeded, "part exceeds chunk or memory budget")
  else match checkedAddInt64 (DOffset d) (DSize d) with
       | None => Some (CodeValidation, "part offset and size overflow")
       | Some partEnd =>
           if (0 <=? PTotalSize p) && (PTotalSize p <? partEnd) then Some (CodeValidation, "part exceeds transfer total_size")
           else if negb (validSHA256 (DExpectedRawSHA256 d)) then Some (CodeValidation, "expected raw sha256 is required")
           else None
       end.

Definition verifyPartDigest (d : PartDescriptor) (rawSize : Z) (digest : string) : option berror :=
  if negb (rawSize =? DSize d) then Some (CodeValidation, "part size does not match descriptor")
  else if negb (EqualFold digest (DExpectedRawSHA256 d)) then Some (CodeValidation, "part sha256 does not match descriptor")
  else None.

Definition newReceipt (p : TransferPlan) (d : PartDescriptor) (objectKey : string) (rawSize encodedSize : Z) (rawDigest encodedDigest encoding : string) (at_ : Z) : PartReceipt :=
  mkReceipt (PTransferID p) (POrganizationID p) (PCorrelationID p) (DPartNumber d) (DOffset d) rawSize encodedSize rawDigest encodedDigest encoding objectKey at_ false.

Definition replayPart (existing : PartReceipt) (d : PartDescriptor) : res berror PartReceipt :=
  if negb (String.eqb (DExpectedRawSHA256 d) "") && negb (EqualFold (DExpectedRawSHA256 d) (RRawSHA256 existing)) then
    Err (CodeConflict, "part replay hash does not match existing receipt")
  else if (0 <=? DSize d) && negb (DSize d =? RRawSize existing) then Err (CodeConflict, "part replay size does not match existing receipt")
  else Ok (mkReceipt (RTransferID existing) (ROrganizationID existing) (RCorrelationID existing) (RPartNumber existing) (ROffset existing) (RRawSize existing)
             (REncodedSize existing) (RRawSHA256 existing) (REncodedSHA256 existing) (REncoding existing) (RObjectKey existing) (RCreatedAt existing) true).

(** An application error of the reader passes through; other store errors are wrapped. *)
Definition storePartError (e : store_error) (message : string) : berror :=
  match e with ErrRead ErrExceeds => (CodeQuotaExceeded, "part exceeds memory budget") | _ => (CodeDependency, message) end.

(** Store through [PutStream], or fail ([available]: the store answers) and clean up. *)
Definition putPart (b : blobs) (key : string) (s : stream) (size : Z) (available : bool) (message : string) : blobs * res berror string :=
  match PutStream b key s size with
  | Ok (b', k) => if available then (b', Ok k) else (Delete b key, Err (CodeDependency, message))
  | Err e => (Delete b key, Err (storePartError e message))
  end.

(** Keep a stored part whose digest is as announced, remove it otherwise. *)
Definition keepVerified (b : blobs) (p : TransferPlan) (d : PartDescriptor) (key objectKey : string) (raw encoded encoding : string) (at_ : Z) : blobs * res berror PartReceipt :=
  match verifyPartDigest d (blen raw) (sha256 raw) with
  | Some e => (Delete b key, Err e)
  | None => (b, Ok (newReceipt p d objectKey (blen raw) (blen encoded) (sha256 raw) (sha256 encoded) encoding at_))
  end.

Definition storeIdentityPart (b : blobs) (p : TransferPlan) (d : PartDescriptor) (body : stream) (available : bool) (at_ : Z) : blobs * res berror PartReceipt :=
  let key := partObjectKey p (DPartNumber d) in
  let raw := bounded body (DSize d) in
  match putPart b key raw (DSize d) available "store transfer part" with
  | (b, Err e) => (b, Err e)
  | (b, Ok k) => keepVerified b p d key k (sbytes raw) (sbytes raw) EncodingIdentity at_
  end.

Definition storeCompressedPart (b : blobs) (p : TransferPlan) (d : PartDescriptor) (body : stream) (encoding : string) (available : bool) (at_ : Z) : blobs * res berror PartReceipt :=
  let key := partObjectKey p (DPartNumber d) in
  let raw := bounded body (DSize d) in
  let encoded := codec encoding (sbytes raw) in
  match putPart b key (mkStream encoded (sfails raw)) (-1) available "store compressed transfer part" with
  | (b, Err e) => (b, Err e)
  | (b, Ok k) => keepVerified b p d key k (sbytes raw) encoded encoding at_
  end.

Definition autoMinBytes : Z := 128.
Definition autoSampleBytes : Z := 64 * 1024.

(** The sample must shrink to nine tenths of 65536, that is to 58982 bytes. *)
Definition compressAuto (payload : string) : string * string :=
  if blen payload <? autoMinBytes then (payload, EncodingIdentity)
  else if (autoSampleBytes <? blen payload) && (58982 <? blen (codec EncodingZstd (String.substring 0 (Z.to_nat autoSampleBytes) payload))) then (payload, EncodingIdentity)
  else let compressed := codec EncodingZstd payload in
       if blen payload <=? blen compressed then (payload, EncodingIdentity) else (compressed, EncodingZstd).

Definition readBoundedPart (body : stream) (limit : Z) : res berror string :=
  if limit <? blen (sbytes body) then Err (CodeQuotaExceeded, "part exceeds memory budget")
  else match sfails body with
       | Some _ => Err (CodeRaw, "source")
       | None => if blen (sbytes body) <? limit then Err (CodeRaw, if blen (sbytes body) =? 0 then "EOF" else "unexpected EOF") else Ok (sbytes body)
       end.

Definition storeAutoPart (b : blobs) (p : TransferPlan) (d : PartDescriptor) (body : stream) (available : bool) (at_ : Z) : blobs * res berror PartReceipt :=
  match readBoundedPart body (DSize d) with
  | Err e => (b, Err e)
  | Ok payload =>
      match verifyPartDigest d (blen payload) (sha256 payload) with
      | Some e => (b, Err e)
      | None =>
          let '(encoded, encoding) := compressAuto payload in
          let key := partObjectKey p (DPartNumber d) in
          match putPart b key (mkStream encoded None) (blen encoded) available "store auto-compressed transfer part" with
          | (b, Err e) => (b, Err e)
          | (b, Ok k) => (b, Ok (newReceipt p d k (blen payload) (blen encoded) (sha256 payload) (sha256 encoded) encoding at_))
          end
      end
  end.

Definition storePart (b : blobs) (p : TransferPlan) (d : PartDescriptor) (body : stream) (available : bool) (at_ : Z) : blobs * res berror PartReceipt :=
  if String.eqb (PCompression p) EncodingAuto then storeAutoPart b p d body available at_
  else if String.eqb (PCompression p) EncodingBrotli || String.eqb (PCompression p) EncodingZstd || String.eqb (PCompression p) EncodingGzip then
    storeCompressedPart b p d body (PCompression p) available at_
  else storeIdentityPart b p d body available at_.

Definition AcceptPart (sv : service) (c : caller) (transferID : string) (d : PartDescriptor) (body : stream) (available requested success : bool) : service * res berror PartReceipt :=
  match loadPlanForMutation sv c transferID with
  | Err e => (sv, Err e)
  | Ok p =>
      match LoadReceipt (state sv) (POrganizationID p) (PTransferID p) (DPartNumber d) with
      | Some existing => (sv, replayPart existing d)
      | None =>
          match validatePart p d with
          | Some e => (sv, Err e)
          | None =>
              if negb requested then (sv, Err publishFailed)
              else match storePart (objects sv) p d body available (now c) with
                   | (b, Err e) => (setObjects sv b, Err e)
                   | (b, Ok r) => (mkService (SaveReceipt (state sv) r) b, if success then Ok r else Err publishFailed)
                   end
          end
      end
  end.

(** *** Completion *)

Fixpoint verifyFrom (i nextOffset : Z) (rs : list PartReceipt) : res berror Z :=
  match rs with
  | [] => Ok nextOffset
  | r :: rest =>
      if negb (RPartNumber r =? i) then Err (CodePrecondition, "part numbers must be contiguous")
      else if negb (ROffset r =? nextOffset) then Err (CodePrecondition, "part offsets must be contiguous")
      else match checkedAddInt64 nextOffset (RRawSize r) with
           | None => Err (CodePrecondition, "part offsets overflow transfer size")
           | Some next => verifyFrom (i + 1) next rest
           end
  end.

Definition verifyReceiptsCoverPlan (p : TransferPlan) (rs : list PartReceipt) : option berror :=
  match rs with
  | [] => if PTotalSize p =? 0 then None else Some (CodePrecondition, "received parts do not cover total_size")
  | _ => match verifyFrom 0 0 rs with
         | Err e => Some e
         | Ok next => if next =? PTotalSize p then None else Some (CodePrecondition, "received parts do not cover total_size")
         end
  end.

(** The digest over the parts' digests, decoded where they decode. *)
Definition manifestRoot (rs : list PartReceipt) : string :=
  sha256 (foldr (λ r acc, (match hexDecode (RRawSHA256 r) with Some raw => raw | None => RRawSHA256 r end) +:+ acc) "" rs).

Definition buildManifest (p : TransferPlan) (rs : list PartReceipt) (expectedRoot : string) (at_ : Z) : res berror TransferManifest :=
  let rs := merge_sort byPart rs in
  match verifyReceiptsCoverPlan p rs with
  | Some e => Err e
  | None =>
      let root := manifestRoot rs in
      if negb (String.eqb expectedRoot "") && negb (EqualFold expectedRoot root) then Err (CodeValidation, "manifest root sha256 does not match")
      else Ok (mkManifest (PTransferID p) (POrganizationID p) (PCorrelationID p) (PTotalSize p) (PChunkSize p) (PContentType p) (PCompression p) root (PManifestKey p) rs at_)
  end.

Definition setPlanState (p : TransferPlan) (s : string) : TransferPlan :=
  mkPlan (PTransferID p) (POrganizationID p) (PCorrelationID p) (PIdempotencyKey p) (PTotalSize p) (PChunkSize p) (PMaxMemory p) (PMaxParts p)
    (PContentType p) (PCompression p) (PObjectPrefix p) (PManifestKey p) s (PCreatedAt p) (PDeadline p).

(** [json]: the manifest as text; [persistManifest] stores it before it saves the state. *)
Definition Complete (sv : service) (c : caller) (transferID expectedRoot : string) (json : TransferManifest → string) (available requested success : bool) : service * res berror TransferManifest :=
  match loadPlanForMutation sv c transferID with
  | Err e => (sv, Err e)
  | Ok p =>
      if negb requested then (sv, Err publishFailed)
      else match buildManifest p (ListReceipts (state sv) (POrganizationID p) (PTransferID p)) expectedRoot (now c) with
           | Err e => (sv, Err e)
           | Ok m =>
               let text := json m in
               match PutStream (objects sv) (MManifestKey m) (mkStream text None) (blen text) with
               | Err _ => (sv, Err (CodeDependency, "store transfer manifest"))
               | Ok (b, _) =>
                   if negb available then (sv, Err (CodeDependency, "store transfer manifest"))
                   else (mkService (SavePlan (SaveManifest (state sv) m) (setPlanState p StateCompleted)) b, if success then Ok m else Err publishFailed)
               end
           end
  end.

Definition Abort (sv : service) (c : caller) (transferID : string) (requested success : bool) : service * option berror :=
  match loadPlanForRead sv c transferID with
  | Err e => (sv, Some e)
  | Ok p =>
      if String.eqb (PState p) StateAborted then (sv, None)
      else match loadPlanForMutation sv c transferID with
           | Err e => (sv, Some e)
           | Ok p => if negb requested then (sv, Some publishFailed)
                     else (setState sv (SavePlan (state sv) (setPlanState p StateAborted)), if success then None else Some publishFailed)
           end
  end.

(** *** Reading by range *)

(** [openPartRange]: nothing, or the bytes of the part within the range and their number. *)
Definition openPartRange (b : blobs) (r : PartReceipt) (offset length : Z) : res berror (option (string * Z)) :=
  match checkedAddInt64 (ROffset r) (RRawSize r) with
  | None => Err (CodePrecondition, "part range overflows transfer bounds")
  | Some partEnd =>
      match checkedAddInt64 offset length with
      | None => Err (CodeValidation, "range is outside transfer bounds")
      | Some rangeEnd =>
          if (partEnd <=? offset) || (rangeEnd <=? ROffset r) then Ok None
          else
            let start := Z.max offset (ROffset r) in
            let end_ := Z.min rangeEnd partEnd in
            match GetRange b (RObjectKey r) (start - ROffset r) (end_ - start) with
            | Ok bytes => Ok (Some (bytes, end_ - start))
            | Err _ => Err (CodeRaw, "object store")
            end
      end
  end.

Fixpoint readParts (b : blobs) (parts : list PartReceipt) (position remaining : Z) (bytes : string) (numbers : list Z) : res berror (string * list Z) :=
  match parts with
  | [] => if negb (remaining =? 0) then Err (CodePrecondition, "range does not resolve against manifest") else Ok (bytes, numbers)
  | r :: rest =>
      if remaining =? 0 then Ok (bytes, numbers)
      else if negb (String.eqb (REncoding r) EncodingIdentity) then Err (CodeNotImplemented, "range reads require identity-encoded chunks")
      else match openPartRange b r position remaining with
           | Err e => Err e
           | Ok None => readParts b rest position remaining bytes numbers
           | Ok (Some (chunk, used)) => readParts b rest (position + used) (remaining - used) (bytes +:+ chunk) (numbers ++ [RPartNumber r])
           end
  end.

Definition openIdentityRange (b : blobs) (m : TransferManifest) (offset length : Z) : res berror (string * list Z) :=
  match checkedAddInt64 offset length with
  | Some rangeEnd =>
      if (offset <? 0) || (length <=? 0) || (MTotalSize m <? rangeEnd) then Err (CodeValidation, "range is outside transfer bounds")
      else readParts b (MParts m) offset length "" []
  | None => Err (CodeValidation, "range is outside transfer bounds")
  end.

Definition OpenRange (sv : service) (c : caller) (transferID : string) (offset length : Z) : res berror (string * list Z) :=
  match loadPlanForRead sv c transferID with
  | Err e => Err e
  | Ok p =>
      match LoadManifest (state sv) (POrganizationID p) (PTransferID p) with
      | None => Err (CodeNotFound, "manifest is not available")
      | Some m => openIdentityRange (objects sv) m offset length
      end
  end.

(** A piece of a range that is handed to a callback. *)
Record RangePart := mkRangePart { GTransferID : string; GPartNumber : Z; GOffset : Z; GLength : Z; GBytes : string }.

(** [fn] is the callback, a function on a state of its own; closing a reader of the store
    does not fail. *)
Fixpoint eachPart {A} (fn : A → RangePart → A * option berror) (b : blobs) (id : string) (parts : list PartReceipt) (position remaining : Z) (a : A) (numbers : list Z) : A * res berror (list Z) :=
  match parts with
  | [] => (a, if negb (remaining =? 0) then Err (CodePrecondition, "range does not resolve against manifest") else Ok numbers)
  | r :: rest =>
      if remaining =? 0 then (a, Ok numbers)
      else if negb (String.eqb (REncoding r) EncodingIdentity) then (a, Err (CodeNotImplemented, "range reads require identity-encoded chunks"))
      else match openPartRange b r position remaining with
           | Err e => (a, Err e)
           | Ok None => eachPart fn b id rest position remaining a numbers
           | Ok (Some (chunk, used)) =>
               match fn a (mkRangePart id (RPartNumber r) position used chunk) with
               | (a, Some e) => (a, Err e)
               | (a, None) => eachPart fn b id rest (position + used) (remaining - used) a (numbers ++ [RPartNumber r])
               end
           end
  end.

Definition forEachIdentityRange {A} (fn : A → RangePart → A * option berror) (b : blobs) (m : TransferManifest) (offset length : Z) (a : A) : A * res berror (list Z) :=
  match checkedAddInt64 offset length with
  | Some rangeEnd =>
      if (offset <? 0) || (length <=? 0) || (MTotalSize m <? rangeEnd) then (a, Err (CodeValidation, "range is outside transfer bounds"))
      else eachPart fn b (MTransferID m) (MParts m) offset length a []
  | None => (a, Err (CodeValidation, "range is outside transfer bounds"))
  end.

Definition ForEachRange {A} (fn : A → RangePart → A * option berror) (sv : service) (c : caller) (transferID : string) (offset length : Z) (a : A) : A * res berror (list Z) :=
  match loadPlanForRead sv c transferID with
  | Err e => (a, Err e)
  | Ok p =>
      match LoadManifest (state sv) (POrganizationID p) (PTransferID p) with
      | None => (a, Err (CodeNotFound, "manifest is not available"))
      | Some m => forEachIdentityRange fn (objects sv) m offset length a
      end
  end.

(** *** Status *)

Record MissingPart := mkMissing { XPartNumber : Z; XOffset : Z; XSize : Z }.

Record TransferStatus := mkStatus {
  STransferID : string; SOrganizationID : string; SCorrelationID : string; SState : string; STotalSize : Z; SChunkSize : Z; SBytesAccepted : Z; SPartsAccepted : Z; SMissingParts : list MissingPart; SManifestKey : string; SRootSHA256 : string;
  SResumeToken : string; SUpdatedAt : Z
}.

Definition expectedPartCount (p : TransferPlan) : Z :=
  if PTotalSize p =? 0 then 0 else let count := ceilDiv (PTotalSize p) (PChunkSize p) in if PMaxParts p <? count then PMaxParts p else count.

(** [accepted]: whether each expected part has a receipt. *)
Definition acceptedParts (count : Z) (rs : list PartReceipt) : list bool :=
  map (λ n, existsb (λ r, RPartNumber r =? n) rs) (seqZ 0 count).

Definition missingPart (p : TransferPlan) (n : Z) : MissingPart :=
  let offset := i64 (n * PChunkSize p) in mkMissing n offset (Z.min (PChunkSize p) (PTotalSize p - offset)).

Definition missingParts (p : TransferPlan) (accepted : list bool) : list MissingPart :=
  omap (λ '(n, ok), if ok : bool then None else Some (missingPart p n)) (zip (seqZ 0 (Z.of_nat (length accepted))) accepted).

Definition zeroByte : string := String "000" "".

Definition resumeToken (p : TransferPlan) (rs : list PartReceipt) (bytesAccepted : Z) : string :=
  "bulk1_" +:+ sha256 (POrganizationID p +:+ zeroByte +:+ PTransferID p +:+ zeroByte +:+ PIdempotencyKey p +:+ zeroByte +:+ pretty bytesAccepted
    +:+ foldr (λ r acc, zeroByte +:+ pretty (RPartNumber r) +:+ ":" +:+ RRawSHA256 r +:+ acc) "" rs).

Definition transferStatus (p : TransferPlan) (rs : list PartReceipt) (at_ : Z) : TransferStatus :=
  let bytes := foldl (λ acc r, i64 (acc + RRawSize r)) 0 rs in
  mkStatus (PTransferID p) (POrganizationID p) (PCorrelationID p) (PState p) (PTotalSize p) (PChunkSize p) bytes (Z.of_nat (length rs)) (missingParts p (acceptedParts (expectedPartCount p) rs)) (PManifestKey p) ""
    (resumeToken p rs bytes) at_.

Definition Status (sv : service) (c : caller) (transferID : string) : res berror TransferStatus :=
  match loadPlanForRead sv c transferID with
  | Err e => Err e
  | Ok p =>
      let s := transferStatus p (ListReceipts (state sv) (POrganizationID p) (PTransferID p)) (now c) in
      Ok (match LoadManifest (state sv) (POrganizationID p) (PTransferID p) with
          | Some m => mkStatus (STransferID s) (SOrganizationID s) (SCorrelationID s) StateCompleted (STotalSize s) (SChunkSize s) (SBytesAccepted s) (SPartsAccepted s) (SMissingParts s) (MManifestKey m) (MRootSHA256 m) (SResumeToken s) (SUpdatedAt s)
          | None => s
          end)
  end.

(** *** Parts uploaded to a signed address *)

(** [GrantSignedPart] answers with the key that may be written, and until when; the object
    store is one that signs addresses. *)
Definition GrantSignedPart (m : Manager) (sv : service) (c : caller) (transferID : string) (d : PartDescriptor) (expiry : Z) : res berror (string * Z) :=
  match loadPlanForMutation sv c transferID with
  | Err e => Err e
  | Ok p =>
      match validatePart p d with
      | Some e => Err e
      | None =>
          let expiry := if (expiry <=? 0) || (receiptTTL m <? expiry) then receiptTTL m else expiry in
          Ok (partObjectKey p (DPartNumber d), now c + expiry)
      end
  end.

Definition verifySignedPart (b : blobs) (p : TransferPlan) (d : PartDescriptor) (at_ : Z) : res berror PartReceipt :=
  if negb (String.eqb (PCompression p) EncodingIdentity) then Err (CodeNotImplemented, "signed part verification requires identity encoding")
  else
    let key := partObjectKey p (DPartNumber d) in
    match GetRange b key 0 (DSize d + 1) with
    | Err _ => Err (CodeDependency, "read signed transfer part")
    | Ok raw =>
        if DSize d <? blen raw then Err (CodeQuotaExceeded, "signed part exceeds descriptor size")
        else match verifyPartDigest d (blen raw) (sha256 raw) with
             | Some e => Err e
             | None => Ok (newReceipt p d key (blen raw) (blen raw) (sha256 raw) (sha256 raw) EncodingIdentity at_)
             end
    end.

Definition AcceptSignedPart (sv : service) (c : caller) (transferID : string) (d : PartDescriptor) (success : bool) : service * res berror PartReceipt :=
  match loadPlanForMutation sv c transferID with
  | Err e => (sv, Err e)
  | Ok p =>
      match LoadReceipt (state sv) (POrganizationID p) (PTransferID p) (DPartNumber d) with
      | Some existing => (sv, replayPart existing d)
      | None =>
          match validatePart p d with
          | Some e => (sv, Err e)
          | None =>
              match verifySignedPart (objects sv) p d (now c) with
              | Err e => (sv, Err e)
              | Ok r => (setState sv (SaveReceipt (state sv) r), if success then Ok r else Err publishFailed)
              end
          end
      end
  end.

End Service.

(** ** Reading a range of tiled parts *)

Lemma checked_add_some a b : 0 ≤ a → 0 ≤ b → a + b ≤ maxInt64 → checkedAddInt64 a b = Some (a + b).
Proof.
  intros Ha Hb Hm. unfold checkedAddInt64. rewrite (proj2 (Z.ltb_ge a 0)), (proj2 (Z.ltb_ge b 0)) by lia. cbn [orb].
  destruct (Z.ltb_spec 0 b), (Z.ltb_spec (maxInt64 - b) a); cbn [andb]; (done || lia).
Qed.

Lemma checked_add_inv a b c : checkedAddInt64 a b = Some c → 0 ≤ a ∧ 0 ≤ b ∧ c = a + b ∧ (a ≤ maxInt64 → c ≤ maxInt64).
Proof.
  unfold checkedAddInt64. destruct (Z.ltb_spec a 0), (Z.ltb_spec b 0); cbn [orb]; try done. destruct (Z.ltb_spec 0 b), (Z.ltb_spec (maxInt64 - b) a); cbn [andb]; try done; intros [= <-]; lia.
Qed.

(** The parts [rs] lie end to end from [from], each stored whole under its key. *)
Inductive tiles (b : blobs) : Z → list PartReceipt → string → Prop :=
| tiles_nil from : tiles b from [] ""
| tiles_cons from r rs bytes rest : ROffset r = from → 0 ≤ RRawSize r → REncoding r = EncodingIdentity → normalizeKey (RObjectKey r) = RObjectKey r → RObjectKey r ≠ "" →
    b !! RObjectKey r = Some bytes → blen bytes = RRawSize r → tiles b (from + RRawSize r) rs rest → tiles b from (r :: rs) (bytes +:+ rest).

Lemma substring_zero s : ∀ i, String.substring i 0 s = "".
Proof. induction s as [|c s IH]; intros [|i]; cbn; try done. Qed.

(** A slice across the end of the first part is the end of it and a slice of the rest. *)
Lemma substring_app a b : ∀ i n, String.substring i n (a +:+ b) =
  String.substring i (Nat.min n (String.length a - i)) a +:+ String.substring (i - String.length a) (n - (String.length a - i)) b.
Proof.
  induction a as [|c a IH]; intros i n.
  - rewrite append_empty_l. cbn [String.length]. rewrite Nat.sub_0_l, Nat.min_0_r, !Nat.sub_0_r. by destruct i.
  - rewrite append_cons. cbn [String.length]. destruct i as [|i].
    + destruct n as [|n]; [cbn [Nat.min Nat.sub]; by rewrite !substring_zero|]. cbn [String.substring Nat.sub Nat.min]. rewrite append_cons. f_equal. rewrite IH, !Nat.sub_0_r. done.
    + cbn [String.substring Nat.sub]. apply IH.
Qed.

Lemma read_parts_done b rs position bytes numbers : readParts b rs position 0 bytes numbers = Ok (bytes, numbers).
Proof. by destruct rs. Qed.

Lemma read_parts_exact b rs : ∀ from content position remaining bytes numbers, tiles b from rs content → 0 ≤ from → 0 ≤ position → 0 ≤ remaining →
  remaining = 0 ∨ from ≤ position ∧ position + remaining ≤ from + blen content → from + blen content ≤ maxInt64 →
  ∃ numbers', readParts b rs position remaining bytes numbers = Ok (bytes +:+ String.substring (Z.to_nat (position - from)) (Z.to_nat remaining) content, numbers').
Proof.
  induction rs as [|r rs IH]; intros from content position remaining bytes numbers Ht Hf Hpos Hr Hle Hm; (destruct (decide (remaining = 0)) as [->|Hnz];
    [exists numbers; rewrite read_parts_done; change (Z.to_nat 0) with 0%nat; by rewrite substring_zero, append_nil_r|]);
    inversion Ht as [|? ? ? chunk rest Ho Hs He Hk Hne Hb Hlen Hrest]; subst; (destruct Hle as [?|[Hp Hle]]; [done|]).
  - change (blen "") with 0 in Hle. lia.
  - cbn [readParts]. rewrite (proj2 (Z.eqb_neq remaining 0) Hnz), He, String.eqb_refl. cbn [negb]. rewrite blen_app in Hle, Hm. pose proof (blen_nonneg rest).
    unfold openPartRange. rewrite !checked_add_some by lia. destruct (Z.leb_spec (ROffset r + RRawSize r) position) as [Hskip|Hin]; cbn [orb].
    + destruct (IH _ _ position remaining bytes numbers Hrest) as [ns E]; [lia..|]. exists ns. rewrite E. do 3 f_equal. rewrite substring_app.
      unfold blen in *. replace (Nat.min _ _) with 0%nat by lia. rewrite substring_zero, append_empty_l. f_equal; lia.
    + rewrite (proj2 (Z.leb_gt (position + remaining) (ROffset r))) by lia. rewrite Z.max_l by lia. set (end_ := Z.min _ _).
      rewrite (get_range_ok b _ _ _ chunk Hk Hne Hb) by lia.
      destruct (IH _ _ (position + (end_ - position)) (remaining - (end_ - position)) (bytes +:+ String.substring (Z.to_nat (position - ROffset r)) (Z.to_nat (end_ - position)) chunk)
        (numbers ++ [RPartNumber r]) Hrest) as [ns E]; [lia..|].
      exists ns. rewrite E, append_assoc. do 3 f_equal. rewrite substring_app. unfold blen in *. f_equal; f_equal; lia.
Qed.

(** ** The callback sees what a reader reads *)

(** Hand the pieces over until the callback refuses one. *)
Fixpoint visit {A} (fn : A → RangePart → A * option berror) (a : A) (xs : list RangePart) : A * option berror :=
  match xs with
  | [] => (a, None)
  | x :: rest => match fn a x with (a, Some e) => (a, Some e) | (a, None) => visit fn a rest end
  end.

(** The pieces lie end to end. *)
Fixpoint endToEnd (position : Z) (xs : list RangePart) : Prop :=
  match xs with [] => True | x :: rest => GOffset x = position ∧ endToEnd (position + GLength x) rest end.

Definition seenBytes (xs : list RangePart) : string := foldr (λ x acc, GBytes x +:+ acc) "" xs.

(** What the parts of a range contribute, piece by piece. *)
Lemma pieces_exist b id parts : ∀ position remaining, ∃ xs, endToEnd position xs ∧
  (∀ A (fn : A → RangePart → A * option berror) a numbers bytes, let '(a', refused) := visit fn a xs in
     eachPart fn b id parts position remaining a numbers =
       (a', match refused with Some e => Err e | None => match readParts b parts position remaining bytes numbers with Ok (_, ns) => Ok ns | Err e => Err e end end)) ∧
  (∀ bytes numbers out ns, readParts b parts position remaining bytes numbers = Ok (out, ns) → out = bytes +:+ seenBytes xs ∧ ns = numbers ++ map GPartNumber xs).
Proof.
  induction parts as [|r parts IH]; intros position remaining; cbn [eachPart readParts].
  - exists []. split; [done|]. cbn [visit]. destruct (negb _); split; [done..|]. intros bytes numbers out ns [= <- <-]. cbn. by rewrite append_nil_r, app_nil_r.
  - destruct (remaining =? 0); [|destruct (negb _); [|destruct (openPartRange b r position remaining) as [[[chunk used]|]|e]]].
    + exists []. split; [done|]. split; [done|]. intros bytes numbers out ns [= <- <-]. cbn. by rewrite append_nil_r, app_nil_r.
    + by exists [].
    + destruct (IH (position + used) (remaining - used)) as (xs & H1 & H2 & H3). exists (mkRangePart id (RPartNumber r) position used chunk :: xs). split; [by split|]. split.
      * intros A fn a numbers bytes. cbn [visit]. destruct (fn a _) as [a1 [e|]]; [done|]. apply H2.
      * intros bytes numbers out ns E. apply H3 in E as [-> ->]. cbn. by rewrite append_assoc, <- app_assoc.
    + apply IH.
    + by exists [].
Qed.

(** C26: reading a range piece by piece agrees with reading it whole. There is a list of
    pieces, the same for every callback, that lie end to end from the start of the range;
    the callback is given these in order until it refuses one, whose error is returned,
    and otherwise the outcome is that of the reader; when the reader has the range, the
    pieces are its bytes and its part numbers. *)
Theorem for_each_agrees_with_open sv c id offset length : ∃ xs, endToEnd offset xs ∧
  (∀ A (fn : A → RangePart → A * option berror) a, let '(a', refused) := visit fn a xs in
     ForEachRange fn sv c id offset length a = (a', match refused with Some e => Err e | None => match OpenRange sv c id offset length with Ok (_, ns) => Ok ns | Err e => Err e end end)) ∧
  (∀ bytes ns, OpenRange sv c id offset length = Ok (bytes, ns) → bytes = seenBytes xs ∧ ns = map GPartNumber xs).
Proof.
  unfold ForEachRange, OpenRange, forEachIdentityRange, openIdentityRange. destruct (loadPlanForRead sv c id) as [p|]; [|by exists []].
  destruct (LoadManifest _ _ _) as [mf|]; [|by exists []]. destruct (checkedAddInt64 offset length); [|by exists []]. destruct (_ || _ || _); [by exists []|].
  destruct (pieces_exist (objects sv) (MTransferID mf) (MParts mf) offset length) as (xs & H1 & H2 & H3). exists xs. split; [done|]. split; [intros A fn a; apply (H2 A fn a [] "")|].
  intros bytes ns E. apply H3 in E as [-> ->]. by rewrite append_empty_l.
Qed.

(** ** Object keys *)

Lemma split_slash_app a b : Split slash (a +:+ String slash b) = Split slash a ++ Split slash b.
Proof.
  rewrite <- (join_split slash a) at 1. remember (Split slash a) as l eqn:El. assert (Forall (λ w, slashFree w) l) as Hf by (subst; apply split_sep_free).
  assert (l ≠ []) as Hne by (subst; apply split_nonempty). clear El a. induction Hf as [|w l Hw Hf IH]; [done|]. destruct l as [|w' l]; [cbn [Join]; by rewrite split_part|].
  rewrite join_cons, append_assoc, append_cons, split_part by done. rewrite IH by done. done.
Qed.

Lemma digit_bound x : (48 + x mod 10 < 256)%nat.
Proof. pose proof (Nat.mod_upper_bound x 10 ltac:(lia)). lia. Qed.

Lemma six_digits_inj w : ∀ n n', sixDigits w n = sixDigits w n' → (n mod 10 ^ w = n' mod 10 ^ w)%nat.
Proof.
  induction w as [|w IH]; intros n n' E; [by rewrite !Nat.mod_1_r|]. cbn [sixDigits] in E.
  assert (sixDigits w n = sixDigits w n') as Er%IH by (by injection E). assert (ascii_of_nat (48 + n / 10 ^ w mod 10) = ascii_of_nat (48 + n' / 10 ^ w mod 10)) as Ec by (by injection E). clear E.
  apply (f_equal nat_of_ascii) in Ec. rewrite !nat_ascii_embedding in Ec by apply digit_bound.
  apply Nat.add_cancel_l in Ec. by rewrite Nat.pow_succ_r', Nat.mul_comm, !Nat.Div0.mod_mul_r, Er, Ec.
Qed.

Lemma six_digits_length w n : String.length (sixDigits w n) = w.
Proof. induction w as [|w IH]; cbn [sixDigits String.length]; [done|by rewrite IH]. Qed.

Lemma digit_plain n : byteIn (ascii_of_nat (48 + n mod 10)) 33 127 = true ∧ ascii_of_nat (48 + n mod 10) ≠ slash ∧ ascii_of_nat (48 + n mod 10) ≠ "."%char.
Proof. pose proof (Nat.mod_upper_bound n 10 ltac:(lia)) as H. remember (n mod 10)%nat as d. do 10 (destruct d as [|d]; [done|]). lia. Qed.

Lemma six_digits_segment w n : plainText (sixDigits (S w) n) ∧ slashFree (sixDigits (S w) n) ∧ keptSegment (sixDigits (S w) n).
Proof.
  assert (∀ v, plainText (sixDigits v n) ∧ slashFree (sixDigits v n)) as H.
  { induction v as [|v [IH1 IH2]]; [by split; [constructor|]|]. destruct (digit_plain (n / 10 ^ v)) as (H1 & H2 & _). cbn [sixDigits]. split; [by constructor|by apply contains_char_cons]. }
  destruct (H (S w)) as [H1 H2]. split_and!; [done|done|]. destruct (digit_plain (n / 10 ^ w)) as (_ & _ & H3). cbn [sixDigits]. split_and!; [done|..]; intros [= E _]; by apply H3.
Qed.

Lemma id_text id : validTransferID id = true → id ≠ "." → id ≠ ".." → plainText id ∧ slashFree id ∧ keptSegment id.
Proof.
  unfold validTransferID. rewrite !andb_true_iff. intros [[H1 _] H2] Hd Hdd. assert (id ≠ "") as Hne by (by intros ->).
  assert (plainText id ∧ slashFree id) as [Hp Hf]; [|by split_and!]. clear H1 Hd Hdd Hne. induction id as [|c id IH]; [by split; [constructor|]|].
  cbn [list_ascii_of_string forallb] in H2. apply andb_true_iff in H2 as [Hc H2]. destruct (IH H2) as [IH1 IH2].
  unfold idByte, byteIn, byteIs in Hc. rewrite !orb_true_iff, !andb_true_iff, !Nat.leb_le, !Nat.eqb_eq in Hc. split.
  - constructor; [|done]. unfold byteIn. rewrite andb_true_iff, !Nat.leb_le. lia.
  - apply contains_char_cons. split; [|done]. intros ->. change (nat_of_ascii "/") with 47%nat in Hc. lia.
Qed.

(** A plan as [buildPlan] makes it, for an organization whose name is a path and an
    identifier that is not a step within one. *)
Record plan_ok (m : Manager) (p : TransferPlan) : Prop := {
  po_prefix : PObjectPrefix p = namespace m +:+ String slash (POrganizationID p +:+ String slash (PTransferID p));
  po_manifest : PManifestKey p = PObjectPrefix p +:+ String slash "manifest.json";
  po_org : plainPath (POrganizationID p);
  po_id : plainText (PTransferID p) ∧ slashFree (PTransferID p) ∧ keptSegment (PTransferID p);
  po_parts : PMaxParts p ≤ DefaultMaxParts;
  po_encoding : PCompression p = EncodingAuto ∨ PCompression p = EncodingBrotli ∨ PCompression p = EncodingZstd ∨ PCompression p = EncodingGzip ∨ PCompression p = EncodingIdentity
}.

Lemma part_key_shape p n : 0 ≤ n < DefaultMaxParts → partObjectKey p n = PObjectPrefix p +:+ String slash ("parts" +:+ String slash (sixDigits 6 (Z.to_nat n))).
Proof. intros Hn. unfold partObjectKey, DefaultMaxParts in *. rewrite (proj2 (Z.ltb_lt n 1000000)) by lia. done. Qed.

Lemma prefix_split m p : plan_ok m p → Split slash (PObjectPrefix p) = Split slash (namespace m) ++ Split slash (POrganizationID p) ++ [PTransferID p].
Proof. intros Hp. rewrite (po_prefix m p Hp), !split_slash_app. destruct (po_id m p Hp) as (_ & Hf & _). by rewrite (split_free slash (PTransferID p)). Qed.

Lemma part_key_split m p n : plan_ok m p → 0 ≤ n < DefaultMaxParts →
  Split slash (partObjectKey p n) = (Split slash (namespace m) ++ Split slash (POrganizationID p)) ++ [PTransferID p; "parts"; sixDigits 6 (Z.to_nat n)].
Proof.
  intros Hp Hn. rewrite part_key_shape, !split_slash_app, (prefix_split m) by done. destruct (six_digits_segment 5 (Z.to_nat n)) as (_ & Hf & _).
  rewrite (split_free slash (sixDigits 6 _)) by done. by rewrite <- !app_assoc.
Qed.

Lemma manifest_key_split m p : plan_ok m p → Split slash (PManifestKey p) = (Split slash (namespace m) ++ Split slash (POrganizationID p)) ++ [PTransferID p; "manifest.json"].
Proof. intros Hp. rewrite (po_manifest m p Hp), split_slash_app, (prefix_split m) by done. by rewrite <- !app_assoc. Qed.

Lemma part_number_small n : 0 ≤ n < DefaultMaxParts → (Z.to_nat n < 10 ^ 6)%nat.
Proof. unfold DefaultMaxParts. intros Hn. apply Nat2Z.inj_lt. rewrite Nat2Z.inj_pow, Z2Nat.id by lia. change (Z.of_nat 10 ^ Z.of_nat 6) with 1000000. lia. Qed.

(** Different parts, of different transfers or tenants, have different keys. *)
Lemma part_key_inj m p p' n n' : plan_ok m p → plan_ok m p' → 0 ≤ n < DefaultMaxParts → 0 ≤ n' < DefaultMaxParts → partObjectKey p n = partObjectKey p' n' →
  POrganizationID p = POrganizationID p' ∧ PTransferID p = PTransferID p' ∧ n = n'.
Proof.
  intros Hp Hp' Hn Hn' E. apply (f_equal (Split slash)) in E. rewrite !(part_key_split m) in E by done.
  apply app_inj_2 in E as [E1 E2]; [|done]. remember (sixDigits 6 (Z.to_nat n)) as x eqn:Ex. remember (sixDigits 6 (Z.to_nat n')) as y eqn:Ey.
  injection E2 as Eid Ed. rewrite Ex, Ey in Ed. apply app_inv_head in E1.
  apply (f_equal (Join "/")) in E1. rewrite !join_split in E1. apply six_digits_inj in Ed.
  rewrite !Nat.mod_small in Ed by (by apply part_number_small). split_and!; [done|done|]. apply Z2Nat.inj in Ed; lia.
Qed.

Lemma part_key_not_manifest m p p' n : plan_ok m p → plan_ok m p' → 0 ≤ n < DefaultMaxParts → partObjectKey p n ≠ PManifestKey p'.
Proof.
  intros Hp Hp' Hn E. apply (f_equal (λ s, last (Split slash s))) in E. rewrite (part_key_split m), (manifest_key_split m) in E by done.
  rewrite !last_app in E. remember (sixDigits 6 (Z.to_nat n)) as x eqn:Ex. cbn [last] in E. injection E as E. apply (f_equal String.length) in E. by rewrite Ex, six_digits_length in E.
Qed.

Lemma part_key_normal m p n : plainPath (namespace m) → plan_ok m p → 0 ≤ n < DefaultMaxParts → normalizeKey (partObjectKey p n) = partObjectKey p n ∧ partObjectKey p n ≠ "".
Proof.
  intros Hm Hp Hn. assert (partObjectKey p n ≠ "") as Hne.
  { intros E. apply (f_equal blen) in E. rewrite part_key_shape in E by done. unfold blen in E. rewrite length_append in E. cbn [String.length] in E. lia. }
  split; [|done]. apply kept_path_id; [|done]. rewrite part_key_shape, (po_prefix m p Hp) by done. destruct (po_id m p Hp) as (H1 & H2 & H3).
  destruct (six_digits_segment 5 (Z.to_nat n)) as (D1 & D2 & D3).
  repeat (apply plain_path_app || apply Hm || apply (po_org m p Hp) || by apply plain_path_segment).
  by apply plain_path_segment; [repeat constructor|..].
Qed.

(** ** What storing a part leaves behind *)

Section Histories.
Context (sha256 : string → string) (codec : string → string → string) (json : TransferManifest → string) (m : Manager).

(** The bytes stored for a part with these raw bytes. *)
Definition storedAs (encoding raw stored : string) : Prop := encoding = EncodingIdentity ∧ stored = raw ∨ encoding ≠ EncodingIdentity ∧ stored = codec encoding raw.

Definition sameBut (key : string) (b b' : blobs) : Prop := ∀ k, k ≠ normalizeKey key → b' !! k = b !! k.

Lemma same_but_refl key b : sameBut key b b.
Proof. done. Qed.

Lemma same_but_trans key b b' b'' : sameBut key b b' → sameBut key b' b'' → sameBut key b b''.
Proof. intros H H' k Hk. by rewrite H', H. Qed.

Lemma delete_same_but b key : sameBut key b (Delete b key).
Proof. intros k Hk. unfold Delete. destruct (String.eqb _ _); [done|]. by rewrite lookup_delete_ne. Qed.

Lemma put_part_spec b key s size available message b' x : putPart b key s size available message = (b', x) → sameBut key b b' ∧
  ∀ k, x = Ok k → k = normalizeKey key ∧ k ≠ "" ∧ ∃ payload, readStream s size = Ok payload ∧ b' !! k = Some payload ∧ (0 ≤ size → blen payload = size).
Proof.
  unfold putPart. destruct (PutStream b key s size) as [[b1 k1]|e] eqn:E; [|intros [= <- <-]; split; [apply delete_same_but|done]].
  apply put_stream_ok in E as (-> & Hne & payload & Hr & -> & Hl). destruct available; [|intros [= <- <-]; split; [apply delete_same_but|done]].
  intros [= <- <-]. split; [intros k Hk; by rewrite lookup_insert_ne|]. intros k [= <-]. split_and!; [done|done|]. exists payload. by rewrite lookup_insert_eq.
Qed.

(** The receipt of a part that was stored: its raw bytes are the whole body, of the size
    and digest announced. *)
Definition receiptFor (p : TransferPlan) (d : PartDescriptor) (body : stream) (at_ : Z) (b' : blobs) (r : PartReceipt) : Prop :=
  ∃ stored encoding, let raw := sbytes body in let key := normalizeKey (partObjectKey p (DPartNumber d)) in
    r = newReceipt p d key (blen raw) (blen stored) (sha256 raw) (sha256 stored) encoding at_ ∧ storedAs encoding raw stored ∧ b' !! key = Some stored ∧
    blen raw = DSize d ∧ EqualFold (sha256 raw) (DExpectedRawSHA256 d) = true ∧ (PCompression p = EncodingIdentity → encoding = EncodingIdentity).

Lemma verify_digest_ok d n digest : verifyPartDigest d n digest = None → n = DSize d ∧ EqualFold digest (DExpectedRawSHA256 d) = true.
Proof. unfold verifyPartDigest. destruct (Z.eqb_spec n (DSize d)); [|done]. by destruct (EqualFold _ _). Qed.

Lemma keep_verified_spec b p d k raw encoded encoding at_ b' x : keepVerified sha256 b p d (partObjectKey p (DPartNumber d)) k raw encoded encoding at_ = (b', x) →
  sameBut (partObjectKey p (DPartNumber d)) b b' ∧
  ∀ r, x = Ok r → b' = b ∧ r = newReceipt p d k (blen raw) (blen encoded) (sha256 raw) (sha256 encoded) encoding at_ ∧ blen raw = DSize d ∧ EqualFold (sha256 raw) (DExpectedRawSHA256 d) = true.
Proof.
  unfold keepVerified. destruct (verifyPartDigest d _ _) eqn:E; intros [= <- <-]; [split; [apply delete_same_but|done]|].
  apply verify_digest_ok in E as [E1 E2]. split; [done|]. intros r [= <-]. by split_and!.
Qed.

Lemma bounded_whole s limit : sfails (bounded s limit) = None → sbytes (bounded s limit) = sbytes s.
Proof. unfold bounded. by destruct (limit <? blen (sbytes s)). Qed.

Lemma store_identity_spec b p d body available at_ b' x : 0 ≤ DSize d → storeIdentityPart sha256 b p d body available at_ = (b', x) →
  sameBut (partObjectKey p (DPartNumber d)) b b' ∧ ∀ r, x = Ok r → receiptFor p d body at_ b' r.
Proof.
  intros Hs. unfold storeIdentityPart. destruct (putPart _ _ _ _ _ _) as [b1 y] eqn:E. apply put_part_spec in E as [Hb Hk].
  destruct y as [k|e]; [|intros [= <- <-]; by split]. intros E. apply keep_verified_spec in E as [Hb' Hr]. split; [by eapply same_but_trans|].
  intros r ->. destruct (Hk k eq_refl) as (-> & _ & payload & Er & Hl & Hlen). destruct (Hr r eq_refl) as (-> & -> & Hsize & Hd).
  destruct (read_bounded body (DSize d) payload Hs Er (Hlen Hs)) as (-> & E1 & E2).
  assert (bounded body (DSize d) = body) as Eb by (unfold bounded; by rewrite E1, Z.ltb_irrefl). rewrite Eb in *.
  exists (sbytes body), EncodingIdentity. split_and!; try done. by left.
Qed.

Lemma store_compressed_spec b p d body encoding available at_ b' x : encoding ≠ EncodingIdentity → PCompression p ≠ EncodingIdentity → storeCompressedPart sha256 codec b p d body encoding available at_ = (b', x) →
  sameBut (partObjectKey p (DPartNumber d)) b b' ∧ ∀ r, x = Ok r → receiptFor p d body at_ b' r.
Proof.
  intros Hne Hp. unfold storeCompressedPart. destruct (putPart _ _ _ _ _ _) as [b1 y] eqn:E. apply put_part_spec in E as [Hb Hk].
  destruct y as [k|e]; [|intros [= <- <-]; by split]. intros E. apply keep_verified_spec in E as [Hb' Hr]. split; [by eapply same_but_trans|].
  intros r ->. destruct (Hk k eq_refl) as (-> & _ & payload & Er & Hl & _). destruct (Hr r eq_refl) as (-> & -> & Hsize & Hd).
  unfold readStream in Er. cbn [sbytes sfails] in Er. change (maxMemoryStreamSize <? -1) with false in Er. change (-1 <=? 0) with true in Er. cbv match in Er.
  destruct (_ <? _); [done|]. destruct (sfails (bounded body (DSize d))) eqn:Ef; [done|]. injection Er as <-. rewrite (bounded_whole body _ Ef) in *.
  eexists _, encoding. split_and!; try done. by right.
Qed.

Lemma store_auto_spec b p d body available at_ b' x : PCompression p ≠ EncodingIdentity → storeAutoPart sha256 codec b p d body available at_ = (b', x) →
  sameBut (partObjectKey p (DPartNumber d)) b b' ∧ ∀ r, x = Ok r → receiptFor p d body at_ b' r.
Proof.
  intros Hp. unfold storeAutoPart. destruct (readBoundedPart body (DSize d)) as [payload|e] eqn:Er; [|intros [= <- <-]; by split].
  assert (payload = sbytes body) as ->.
  { unfold readBoundedPart in Er. destruct (_ <? _); [done|]. destruct (sfails body); [done|]. destruct (_ <? _); [done|]. congruence. }
  destruct (verifyPartDigest d _ _) eqn:Ev; [intros [= <- <-]; by split|]. apply verify_digest_ok in Ev as [E1 E2].
  destruct (compressAuto codec (sbytes body)) as [encoded encoding] eqn:Ec.
  assert (storedAs encoding (sbytes body) encoded) as Hst.
  { unfold compressAuto in Ec. repeat (case_match; [injection Ec as <- <-; by left|]). injection Ec as <- <-. by right. }
  destruct (putPart _ _ _ _ _ _) as [b1 y] eqn:E. apply put_part_spec in E as [Hb Hk]. destruct y as [k|e]; intros [= <- <-]; (split; [done|]); [|done].
  intros r [= <-]. destruct (Hk k eq_refl) as (-> & _ & stored & Er' & Hl & _).
  assert (stored = encoded) as ->.
  { unfold readStream in Er'. cbn [sbytes sfails] in Er'. rewrite !Z.ltb_irrefl in Er'. repeat case_match; congruence. }
  exists encoded, encoding. by split_and!.
Qed.

Lemma store_part_spec b p d body available at_ b' x : 0 ≤ DSize d → plan_ok m p → storePart sha256 codec b p d body available at_ = (b', x) →
  sameBut (partObjectKey p (DPartNumber d)) b b' ∧ ∀ r, x = Ok r → receiptFor p d body at_ b' r.
Proof.
  intros Hs Hp. unfold storePart. destruct (po_encoding m p Hp) as [E|[E|[E|[E|E]]]]; rewrite E; cbn [String.eqb orb Ascii.eqb Bool.eqb];
    [apply store_auto_spec; by rewrite E|apply store_compressed_spec; by rewrite ?E..|by apply store_identity_spec].
Qed.

(** ** Histories of calls *)

Inductive op :=
| OpInitiate (c : caller) (req : InitiateRequest) (generated : string) (requested success : bool)
| OpAccept (c : caller) (id : string) (d : PartDescriptor) (body : stream) (available requested success : bool)
| OpComplete (c : caller) (id root : string) (available requested success : bool)
| OpAbort (c : caller) (id : string) (requested success : bool).

Definition serve (sv : service) (o : op) : service :=
  match o with
  | OpInitiate c req generated requested success => (Initiate m sv c req generated requested success).1
  | OpAccept c id d body available requested success => (AcceptPart sha256 codec sv c id d body available requested success).1
  | OpComplete c id root available requested success => (Complete sha256 sv c id root json available requested success).1
  | OpAbort c id requested success => (Abort sv c id requested success).1
  end.

Definition emptyService : service := mkService (mkState ∅ ∅ ∅) ∅.
Definition run (ops : list op) : service := foldl serve emptyService ops.

(** A transfer is begun for an organization whose name is a path, under an identifier that
    is not a step within one. *)
Definition chosenID (req : InitiateRequest) (generated : string) : string := if String.eqb (TrimSpace (ITransferID req)) "" then generated else TrimSpace (ITransferID req).

Definition safe (o : op) : Prop :=
  match o with
  | OpInitiate c req generated _ _ => plainPath (TrimSpace (authOrg c)) ∧ chosenID req generated ≠ "." ∧ chosenID req generated ≠ ".."
  | _ => True
  end.

(** A receipt whose part is in the store. *)
Record receipt_ok (b : blobs) (p : TransferPlan) (n : Z) (r : PartReceipt) : Prop := {
  ro_number : RPartNumber r = n;
  ro_range : 0 ≤ n < DefaultMaxParts;
  ro_key : RObjectKey r = partObjectKey p n;
  ro_offset : 0 ≤ ROffset r;
  ro_stored : ∃ raw stored, b !! RObjectKey r = Some stored ∧ storedAs (REncoding r) raw stored ∧ blen raw = RRawSize r ∧ sha256 raw = RRawSHA256 r;
  ro_identity : PCompression p = EncodingIdentity → REncoding r = EncodingIdentity
}.

Definition receiptList (rs : gmap string (gmap Z PartReceipt)) (k : string) : list PartReceipt := map snd (map_to_list (default ∅ (rs !! k))).

Record manifest_ok (rs : gmap string (gmap Z PartReceipt)) (k : string) (p : TransferPlan) (mf : TransferManifest) : Prop := {
  mo_state : PState p = StateCompleted;
  mo_parts : MParts mf ≡ₚ receiptList rs k;
  mo_cover : verifyReceiptsCoverPlan p (MParts mf) = None;
  mo_total : MTotalSize mf = PTotalSize p;
  mo_root : MRootSHA256 mf = manifestRoot sha256 (MParts mf)
}.

Record service_ok (sv : service) : Prop := {
  so_plans : ∀ k p, plans (state sv) !! k = Some p → plan_ok m p ∧ k = stateKey (POrganizationID p) (PTransferID p);
  so_receipts : ∀ k rs n r, receipts (state sv) !! k = Some rs → rs !! n = Some r → ∃ p, plans (state sv) !! k = Some p ∧ receipt_ok (objects sv) p n r;
  so_manifests : ∀ k mf, manifests (state sv) !! k = Some mf → ∃ p, plans (state sv) !! k = Some p ∧ manifest_ok (receipts (state sv)) k p mf
}.

Context (Hns : plainPath (namespace m)).

Lemma normalize_encoding_cases v : normalizeEncoding v ≠ "" →
  normalizeEncoding v = EncodingAuto ∨ normalizeEncoding v = EncodingBrotli ∨ normalizeEncoding v = EncodingZstd ∨ normalizeEncoding v = EncodingGzip ∨ normalizeEncoding v = EncodingIdentity.
Proof. unfold normalizeEncoding. repeat case_match; tauto. Qed.

Lemma build_plan_ok req org c generated p : buildPlan m req org c generated = Ok p → plainPath org → chosenID req generated ≠ "." → chosenID req generated ≠ ".." →
  plan_ok m p ∧ POrganizationID p = org ∧ PState p = StateInitiated.
Proof.
  unfold buildPlan. set (chunk := firstPositive _ _). set (parts := if _ <=? 0 then _ else _). destruct (validateInitiate _ _ _ _ _ _) eqn:Ev; [done|].
  fold (chosenID req generated). destruct (validTransferID (chosenID req generated)) eqn:Eid; [|done]. cbn [negb]. intros [= <-] Horg Hd Hdd.
  split_and!; [|done|done]. unfold validateInitiate in Ev. repeat (case_match; [done|]).
  split; cbn [PObjectPrefix POrganizationID PTransferID PManifestKey PMaxParts PCompression]; [done|done|done|by apply id_text|..].
  - match goal with H : (parts <=? 0) || _ = false |- _ => apply orb_false_iff in H as [_ H]; apply Z.ltb_ge in H; exact H end.
  - match goal with H : negb _ && String.eqb (normalizeEncoding _) "" = false |- _ => apply andb_false_iff in H as [Hc|Hc] end.
    + apply negb_false_iff, String.eqb_eq in Hc. unfold normalizeEncoding. rewrite Hc. tauto.
    + apply normalize_encoding_cases. by apply String.eqb_neq.
Qed.

Lemma load_read_ok sv c id p : service_ok sv → loadPlanForRead sv c id = Ok p → plans (state sv) !! stateKey (POrganizationID p) (PTransferID p) = Some p ∧ plan_ok m p.
Proof.
  unfold loadPlanForRead, LoadPlan. intros Hok. destruct (contextScope c) as [org|]; [|done]. destruct (String.eqb _ _); [done|].
  destruct (plans (state sv) !! stateKey org (TrimSpace id)) as [q|] eqn:E; [|done]. intros [= ->]. destruct (so_plans sv Hok _ _ E) as [H1 H2]. by rewrite <- H2.
Qed.

Lemma load_mutation_ok sv c id p : service_ok sv → loadPlanForMutation sv c id = Ok p →
  plans (state sv) !! stateKey (POrganizationID p) (PTransferID p) = Some p ∧ plan_ok m p ∧ PState p = StateInitiated.
Proof.
  unfold loadPlanForMutation. intros Hok. destruct (loadPlanForRead sv c id) as [q|] eqn:E; [|done]. destruct (String.eqb_spec (PState q) StateInitiated); [|done]. cbn [negb].
  destruct (negb _ && _); [done|]. intros [= ->]. by destruct (load_read_ok sv c id p Hok E).
Qed.

Lemma validate_part_ok p d : validatePart p d = None → 0 ≤ DPartNumber d < PMaxParts p ∧ 0 ≤ DOffset d ∧ 0 ≤ DSize d.
Proof.
  unfold validatePart. destruct (Z.ltb_spec (DPartNumber d) 0), (Z.leb_spec (PMaxParts p) (DPartNumber d)), (Z.ltb_spec (DOffset d) 0), (Z.ltb_spec (DSize d) 0); cbn [orb]; done || lia.
Qed.

(** Two plans of the service with the same part key are the same plan, and the same part. *)
Lemma plan_of_key sv k k' p p' n n' : service_ok sv → plans (state sv) !! k = Some p → plans (state sv) !! k' = Some p' → 0 ≤ n < DefaultMaxParts → 0 ≤ n' < DefaultMaxParts →
  partObjectKey p n = partObjectKey p' n' → k = k' ∧ n = n'.
Proof.
  intros Hok Hk Hk' Hn Hn' E. destruct (so_plans sv Hok _ _ Hk) as [Hp ->], (so_plans sv Hok _ _ Hk') as [Hp' ->].
  destruct (part_key_inj m p p' n n' Hp Hp' Hn Hn' E) as (-> & -> & ->). done.
Qed.

Lemma receipt_ok_same b b' p n r : b' !! RObjectKey r = b !! RObjectKey r → receipt_ok b p n r → receipt_ok b' p n r.
Proof. intros E [H1 H2 H3 H4 (raw & stored & H5 & H6) H7]. split; auto. exists raw, stored. by rewrite E. Qed.

Lemma receipt_ok_state b p n r s : receipt_ok b p n r → receipt_ok b (setPlanState p s) n r.
Proof. intros [H1 H2 H3 H4 H5 H6]. by split. Qed.

Lemma plan_ok_state p s : plan_ok m p → plan_ok m (setPlanState p s).
Proof. intros [H1 H2 H3 H4 H5 H6]. by split. Qed.

(** Plans are added or change their state; receipts stay. *)
Lemma initiate_ok sv c req generated requested success : service_ok sv → safe (OpInitiate c req generated requested success) →
  service_ok (serve sv (OpInitiate c req generated requested success)).
Proof.
  intros Hok (Horg & Hd & Hdd). cbn [serve]. unfold Initiate, contextScope. destruct (String.eqb _ _); [done|]. destruct (negb _ && _); [done|].
  destruct (buildPlan m req _ c generated) as [p|] eqn:Eb; [|done]. destruct (build_plan_ok _ _ _ _ _ Eb Horg Hd Hdd) as (Hp & Eo & _). rewrite <- Eo.
  unfold LoadPlan. destruct (plans (state sv) !! stateKey _ _) eqn:El; [done|]. destruct requested; [|done]. cbn [negb fst]. set (k := stateKey _ _) in *.
  split; cbn [state objects setState SavePlan plans receipts manifests].
  - intros k' q. fold k. destruct (decide (k' = k)) as [->|Hne]; [rewrite lookup_insert_eq; by intros [= <-]|]. rewrite lookup_insert_ne by done. apply Hok.
  - intros k' rs n r Hrs Hr. destruct (so_receipts sv Hok _ _ _ _ Hrs Hr) as (q & Hq & Hro). exists q. split; [|done]. fold k. rewrite lookup_insert_ne; [done|]. intros ->. congruence.
  - intros k' mf Hm. destruct (so_manifests sv Hok _ _ Hm) as (q & Hq & Hmo). exists q. split; [|done]. fold k. rewrite lookup_insert_ne; [done|]. intros ->. congruence.
Qed.

(** Objects change only under the key of a part that has no receipt. *)
Lemma objects_ok sv p n b' : service_ok sv → let k := stateKey (POrganizationID p) (PTransferID p) in plans (state sv) !! k = Some p → plan_ok m p → 0 ≤ n < DefaultMaxParts →
  default ∅ (receipts (state sv) !! k) !! n = None → sameBut (partObjectKey p n) (objects sv) b' → service_ok (setObjects sv b').
Proof.
  intros Hok k Hk Hp Hn Hnone Hsame. destruct (part_key_normal m p n Hns Hp Hn) as [Enorm _]. split; cbn [state objects setObjects]; [apply Hok| |apply Hok].
  intros k' rs n' r Hrs Hr. destruct (so_receipts sv Hok _ _ _ _ Hrs Hr) as (q & Hq & Hro). exists q. split; [done|]. eapply receipt_ok_same; [|done].
  apply Hsame. rewrite Enorm, (ro_key _ _ _ _ Hro). intros E. destruct (plan_of_key sv k' k q p n' n Hok Hq Hk (ro_range _ _ _ _ Hro) Hn E) as [-> ->].
  rewrite Hrs in Hnone. cbn in Hnone. congruence.
Qed.

Lemma accept_ok sv c id d body available requested success : service_ok sv → service_ok (serve sv (OpAccept c id d body available requested success)).
Proof.
  intros Hok. cbn [serve]. unfold AcceptPart. destruct (loadPlanForMutation sv c id) as [p|] eqn:El; [|done]. destruct (load_mutation_ok sv c id p Hok El) as (Hk & Hp & Hst).
  unfold LoadReceipt, receiptsAt. set (k := stateKey _ _) in *. destruct (default ∅ _ !! _) eqn:En; [done|]. destruct (validatePart p d) eqn:Ev; [done|].
  destruct (validate_part_ok p d Ev) as (Hn & Ho & Hs). assert (0 ≤ DPartNumber d < DefaultMaxParts) as Hn' by (pose proof (po_parts m p Hp); lia).
  destruct requested; [|done]. cbn [negb]. destruct (storePart sha256 codec (objects sv) p d body available (now c)) as [b' x] eqn:Es.
  destruct (store_part_spec _ _ _ _ _ _ _ _ Hs Hp Es) as [Hsame Hr]. pose proof (objects_ok sv p (DPartNumber d) b' Hok Hk Hp Hn' En Hsame) as Hobj.
  destruct x as [r|e]; [|exact Hobj]. destruct (Hr r eq_refl) as (stored & enc & -> & Hsa & Hl & Hlen & Hdig & Hid). clear Hr.
  destruct (part_key_normal m p _ Hns Hp Hn') as [Enorm _]. rewrite Enorm in *. cbn [fst]. unfold SaveReceipt, receiptsAt.
  cbn [newReceipt ROrganizationID RTransferID RPartNumber]. fold k. split; cbn [state objects plans receipts manifests].
  - apply Hok.
  - intros k' rs n r. destruct (decide (k' = k)) as [->|Hne]; [|rewrite lookup_insert_ne by done; intros Hrs Hr; exact (so_receipts _ Hobj _ _ _ _ Hrs Hr)].
    rewrite lookup_insert_eq. intros [= <-]. destruct (decide (n = DPartNumber d)) as [->|Hnn].
    + rewrite lookup_insert_eq. intros [= <-]. exists p. split; [done|]. split; cbn; [done|done|done|done|by exists (sbytes body), stored|done].
    + rewrite lookup_insert_ne by done. destruct (receipts (state sv) !! k) as [rs0|] eqn:Er0; simpl; [|by rewrite lookup_empty].
      intros Hr. exact (so_receipts _ Hobj _ _ _ _ Er0 Hr).
  - intros k' mf Hm. destruct (so_manifests sv Hok _ _ Hm) as (q & Hq & Hmo). exists q. split; [done|]. assert (k' ≠ k) as Hne by (intros ->; rewrite Hk in Hq; injection Hq as <-; pose proof (mo_state _ _ _ _ Hmo) as M; by rewrite Hst in M).
    destruct Hmo as [M1 M2 M3 M4 M5]. split; auto. unfold receiptList in *. by rewrite lookup_insert_ne.
Qed.

(** A change of state of an initiated plan. *)
Lemma plan_state_ok sv p s : service_ok sv → let k := stateKey (POrganizationID p) (PTransferID p) in plans (state sv) !! k = Some p → plan_ok m p → PState p = StateInitiated →
  service_ok (setState sv (SavePlan (state sv) (setPlanState p s))) ∧ manifests (state sv) !! k = None.
Proof.
  intros Hok k Hk Hp Hst. assert (manifests (state sv) !! k = None) as Hnone.
  { destruct (manifests (state sv) !! k) eqn:E; [|done]. destruct (so_manifests sv Hok _ _ E) as (q & Hq & [M1 _ _ _ _]). rewrite Hk in Hq. simplify_eq. rewrite Hst in M1. done. }
  split; [|done]. assert (∀ k' q, plans (state sv) !! k' = Some q → ∃ q', <[k := setPlanState p s]> (plans (state sv)) !! k' = Some q' ∧ (q' = q ∨ k' = k ∧ q = p ∧ q' = setPlanState p s)) as Hget.
  { intros k' q Hq. destruct (decide (k' = k)) as [->|Hne]; [rewrite lookup_insert_eq|rewrite lookup_insert_ne by done]; [|by eauto]. eexists. split; [done|]. right. by simplify_eq. }
  split; cbn [state objects setState SavePlan plans receipts manifests setPlanState POrganizationID PTransferID]; fold k.
  - intros k' q. destruct (decide (k' = k)) as [->|Hne]; [rewrite lookup_insert_eq; intros [= <-]; split; [by apply plan_ok_state|done]|]. rewrite lookup_insert_ne by done. apply Hok.
  - intros k' rs n r Hrs Hr. destruct (so_receipts sv Hok _ _ _ _ Hrs Hr) as (q & Hq & Hro). destruct (Hget _ _ Hq) as (q' & Hq' & [->|(-> & -> & ->)]); eexists; (split; [exact Hq'|]); [done|by apply receipt_ok_state].
  - intros k' mf Hm. destruct (so_manifests sv Hok _ _ Hm) as (q & Hq & Hmo). exists q. split; [|done]. rewrite lookup_insert_ne; [done|]. intros ->. congruence.
Qed.

Lemma abort_ok sv c id requested success : service_ok sv → service_ok (serve sv (OpAbort c id requested success)).
Proof.
  intros Hok. cbn [serve]. unfold Abort. destruct (loadPlanForRead sv c id); [|done]. destruct (String.eqb _ _); [done|].
  destruct (loadPlanForMutation sv c id) as [p|] eqn:El; [|done]. destruct requested; [|done]. cbn [negb fst]. destruct (load_mutation_ok sv c id p Hok El) as (Hk & Hp & Hst).
  by apply plan_state_ok.
Qed.

Lemma manifest_key_normal p : plan_ok m p → normalizeKey (PManifestKey p) = PManifestKey p.
Proof.
  intros Hp. apply kept_path_id.
  - rewrite (po_manifest m p Hp), (po_prefix m p Hp). destruct (po_id m p Hp) as (H1 & H2 & H3).
    repeat (apply plain_path_app || apply Hns || apply (po_org m p Hp) || by apply plain_path_segment). by apply plain_path_segment; [repeat constructor|..].
  - intros E. apply (f_equal blen) in E. rewrite (po_manifest m p Hp) in E. unfold blen in E. rewrite length_append in E. cbn [String.length] in E. lia.
Qed.

Lemma build_manifest_ok p rs root at_ mf : buildManifest sha256 p rs root at_ = Ok mf →
  MOrganizationID mf = POrganizationID p ∧ MTransferID mf = PTransferID p ∧ MManifestKey mf = PManifestKey p ∧ MTotalSize mf = PTotalSize p ∧
  MParts mf ≡ₚ rs ∧ verifyReceiptsCoverPlan p (MParts mf) = None ∧ MRootSHA256 mf = manifestRoot sha256 (MParts mf).
Proof.
  unfold buildManifest. destruct (verifyReceiptsCoverPlan p _) eqn:Ev; [done|]. destruct (negb _ && _); [done|]. intros [= <-]. cbn. split_and!; try done. apply merge_sort_Permutation.
Qed.

Lemma save_manifest_ok sv k p mf : service_ok sv → k = stateKey (MOrganizationID mf) (MTransferID mf) → plans (state sv) !! k = Some p → manifest_ok (receipts (state sv)) k p mf →
  service_ok (setState sv (SaveManifest (state sv) mf)).
Proof.
  intros Hok -> Hk Hmo. split; cbn [state objects setState SaveManifest plans receipts manifests]; [apply Hok|apply Hok|].
  intros k' mf'. set (k := stateKey _ _) in *. destruct (decide (k' = k)) as [->|Hne]; [rewrite lookup_insert_eq; intros [= <-]; by exists p|]. rewrite lookup_insert_ne by done. apply Hok.
Qed.

Lemma complete_ok sv c id root available requested success : service_ok sv → service_ok (serve sv (OpComplete c id root available requested success)).
Proof.
  intros Hok. cbn [serve]. unfold Complete. destruct (loadPlanForMutation sv c id) as [p|] eqn:El; [|done]. destruct (load_mutation_ok sv c id p Hok El) as (Hk & Hp & Hst).
  destruct requested; [|done]. cbn [negb]. destruct (buildManifest sha256 p _ root (now c)) as [mf|] eqn:Eb; [|done]. apply build_manifest_ok in Eb as (E1 & E2 & E3 & E4 & E5 & E6 & E7).
  destruct (PutStream (objects sv) _ _ _) as [[b key]|] eqn:Ep; [|done]. destruct available; [|done]. cbn [negb fst].
  apply put_stream_ok in Ep as (-> & _ & text & _ & -> & _). rewrite E3, manifest_key_normal in * by done.
  assert (service_ok (setObjects sv (<[PManifestKey p := text]> (objects sv)))) as Hok1.
  { split; cbn [state objects setObjects]; [apply Hok| |apply Hok]. intros k rs n r Hrs Hr. destruct (so_receipts sv Hok _ _ _ _ Hrs Hr) as (q & Hq & Hro). exists q. split; [done|].
    eapply receipt_ok_same; [|done]. rewrite lookup_insert_ne; [done|]. rewrite (ro_key _ _ _ _ Hro). intros E. symmetry in E. revert E.
    apply (part_key_not_manifest m); [by eapply so_plans|done|apply Hro]. }
  destruct (plan_state_ok _ p StateCompleted Hok1 Hk Hp Hst) as [Hok2 _]. set (sv2 := setState _ _) in Hok2.
  change (service_ok (setState sv2 (SaveManifest (state sv2) mf))). set (k := stateKey (POrganizationID p) (PTransferID p)) in *.
  apply (save_manifest_ok sv2 k (setPlanState p StateCompleted)); [done|by rewrite E1, E2|apply lookup_insert_eq|]. split; [done| |done|done|done].
  rewrite E5. unfold ListReceipts, receiptsAt, receiptList. fold k. apply merge_sort_Permutation.
Qed.

Lemma serve_ok sv o : service_ok sv → safe o → service_ok (serve sv o).
Proof. destruct o; intros Hok Hs; [by apply initiate_ok|by apply accept_ok|by apply complete_ok|by apply abort_ok]. Qed.

Lemma served_ok ops : Forall safe ops → service_ok (run ops).
Proof.
  unfold run. intros Hs. assert (service_ok emptyService) as Hok by (split; cbn; intros *; by rewrite lookup_empty).
  revert Hok. generalize emptyService. induction Hs as [|o ops Ho _ IH]; intros sv Hok; [done|]. cbn [foldl]. by apply IH, serve_ok.
Qed.

(** ** Completed transfers *)

Definition cat (raws : list string) : string := foldr String.append "" raws.

(** The raw bytes of a part that is in the store. *)
Definition partOf (b : blobs) (r : PartReceipt) (raw : string) : Prop :=
  blen raw = RRawSize r ∧ sha256 raw = RRawSHA256 r ∧ ∃ stored, b !! RObjectKey r = Some stored ∧ storedAs (REncoding r) raw stored.

Lemma verify_from_spec b rs : ∀ i from next, verifyFrom i from rs = Ok next → 0 ≤ from ≤ maxInt64 → Forall (λ r, ∃ raw, partOf b r raw) rs →
  ∃ raws, Forall2 (partOf b) rs raws ∧ next = from + blen (cat raws) ∧ next ≤ maxInt64 ∧ map RPartNumber rs = seqZ i (Z.of_nat (length rs)) ∧
    (∀ j r, rs !! j = Some r → ROffset r = from + blen (cat (take j raws))) ∧
    (Forall (λ r, REncoding r = EncodingIdentity ∧ normalizeKey (RObjectKey r) = RObjectKey r ∧ RObjectKey r ≠ "") rs → tiles b from rs (cat raws)).
Proof.
  induction rs as [|r rs IH]; intros i from next E Hf Hparts.
  - injection E as <-. exists []. split; [apply Forall2_nil_2|]. split_and!; [change (blen (cat [])) with 0; lia|lia|done|done|intros _; constructor].
  - cbn [verifyFrom] in E. destruct (Z.eqb_spec (RPartNumber r) i) as [Ei|]; [|done]. destruct (Z.eqb_spec (ROffset r) from) as [Eo|]; [|done]. cbn [negb] in E.
    destruct (checkedAddInt64 from (RRawSize r)) as [from'|] eqn:Ec; [|done]. apply checked_add_inv in Ec as (_ & Hr & -> & Hm).
    apply Forall_cons in Hparts as [[raw Hraw] Hparts]. destruct (IH _ _ _ E) as (raws & H1 & H2 & H3 & H4 & H5 & H6); [lia|done|].
    pose proof Hraw as (Hl & Hsha & stored & Hst & Hsa). exists (raw :: raws). cbn [cat foldr] in *. change (foldr append "" raws) with (cat raws) in *.
    split_and!; [by constructor|rewrite blen_app; lia|done| | |].
    + cbn [map]. rewrite H4, Ei, length_cons, (seqZ_cons i) by lia. f_equal. f_equal; lia.
    + intros [|j] r' Hj; cbn in Hj; [injection Hj as <-; cbn; change (blen "") with 0; lia|]. rewrite (H5 j r' Hj). cbn [take cat foldr]. rewrite blen_app.
      change (foldr append "" (take j raws)) with (cat (take j raws)). lia.
    + intros [(Hid & Hk & Hne) Hall]%Forall_cons. destruct Hsa as [[_ ->]|[? _]]; [|done]. econstructor; eauto.
Qed.

Lemma manifest_kept sv o k mf : service_ok sv → safe o → manifests (state sv) !! k = Some mf → manifests (state (serve sv o)) !! k = Some mf.
Proof.
  intros Hok Hs Hm. destruct o as [c req g rq su|c id d body av rq su|c id root av rq su|c id rq su]; cbn [serve].
  - unfold Initiate. destruct (contextScope c); [|done]. destruct (buildPlan _ _ _ _ _); [|done]. destruct (LoadPlan _ _ _); [done|]. by destruct rq.
  - unfold AcceptPart. destruct (loadPlanForMutation sv c id); [|done]. destruct (LoadReceipt _ _ _ _); [done|]. destruct (validatePart _ _); [done|].
    destruct rq; [|done]. cbn [negb]. destruct (storePart _ _ _ _ _ _ _ _) as [b [r|e]]; done.
  - unfold Complete. destruct (loadPlanForMutation sv c id) as [p|] eqn:El; [|done]. destruct (load_mutation_ok sv c id p Hok El) as (Hk & Hp & Hst). destruct rq; [|done]. cbn [negb].
    destruct (buildManifest sha256 p _ root (now c)) as [mf'|] eqn:Eb; [|done]. apply build_manifest_ok in Eb as (E1 & E2 & _).
    destruct (PutStream _ _ _ _) as [[b key]|]; [|done]. destruct av; [|done]. cbn [negb fst state SavePlan SaveManifest manifests]. rewrite E1, E2.
    rewrite lookup_insert_ne; [done|]. intros <-. destruct (plan_state_ok sv p StateCompleted Hok Hk Hp Hst) as [_ Hnone]. congruence.
  - unfold Abort. destruct (loadPlanForRead sv c id); [|done]. destruct (String.eqb _ _); [done|]. destruct (loadPlanForMutation sv c id); [|done]. by destruct rq.
Qed.

Lemma manifest_parts_ok sv k p mf : service_ok sv → plans (state sv) !! k = Some p → manifest_ok (receipts (state sv)) k p mf → ∀ r, r ∈ MParts mf → receipt_ok (objects sv) p (RPartNumber r) r.
Proof.
  intros Hok Hk Hmo r Hr. rewrite (mo_parts _ _ _ _ Hmo) in Hr. unfold receiptList in Hr. apply list_elem_of_In, in_map_iff in Hr as ([n r'] & Er & Hin). cbn in Er. subst r'.
  apply list_elem_of_In, elem_of_map_to_list in Hin. destruct (receipts (state sv) !! k) as [rs|] eqn:Ers; simpl in Hin; [|by rewrite lookup_empty in Hin].
  destruct (so_receipts sv Hok _ _ _ _ Ers Hin) as (q & Hq & Hro). rewrite Hk in Hq. injection Hq as <-. by rewrite (ro_number _ _ _ _ Hro).
Qed.

Lemma cover_spec p rs : verifyReceiptsCoverPlan p rs = None → verifyFrom 0 0 rs = Ok (PTotalSize p).
Proof.
  unfold verifyReceiptsCoverPlan. intros Hc. destruct rs as [|r rs]; [by destruct (Z.eqb_spec (PTotalSize p) 0) as [->|]|].
  destruct (verifyFrom 0 0 (r :: rs)) as [next|]; [|done]. destruct (Z.eqb_spec next (PTotalSize p)) as [E|]; [by rewrite E|done].
Qed.

(** C25: completed transfers are whole. After any history of initiations, parts received
    by the service, completions and aborts (nothing written behind it, as through a
    signed address), for organizations that are paths and identifiers that are not steps
    within one: the parts of a manifest are numbered from nought and lie end to end over
    the whole size; each is in the store, its bytes of the size and digest recorded; the
    root is the digest of theirs; where no part was stored compressed, any range within
    the size reads exactly those bytes, and a range outside is refused; and no later
    call changes the manifest. *)
Theorem completed_transfers_are_whole ops k mf : Forall safe ops → let sv := run ops in manifests (state sv) !! k = Some mf →
  ∃ raws, Forall2 (partOf (objects sv)) (MParts mf) raws ∧ blen (cat raws) = MTotalSize mf ∧ map RPartNumber (MParts mf) = seqZ 0 (Z.of_nat (length (MParts mf))) ∧
    (∀ j r, MParts mf !! j = Some r → ROffset r = blen (cat (take j raws))) ∧ MRootSHA256 mf = manifestRoot sha256 (MParts mf) ∧
    (Forall (λ r, REncoding r = EncodingIdentity) (MParts mf) → ∀ offset length,
       (0 ≤ offset → 0 < length → offset + length ≤ MTotalSize mf →
          ∃ numbers, openIdentityRange (objects sv) mf offset length = Ok (String.substring (Z.to_nat offset) (Z.to_nat length) (cat raws), numbers)) ∧
       (offset < 0 ∨ length ≤ 0 ∨ MTotalSize mf < offset + length → openIdentityRange (objects sv) mf offset length = Err (CodeValidation, "range is outside transfer bounds"))) ∧
    (∀ o, safe o → manifests (state (serve sv o)) !! k = Some mf).
Proof.
  intros Hs sv Hm. pose proof (served_ok ops Hs) as Hok. fold sv in Hok. destruct (so_manifests sv Hok _ _ Hm) as (p & Hk & Hmo). pose proof (manifest_parts_ok sv k p mf Hok Hk Hmo) as Hro.
  assert (Forall (λ r, ∃ raw, partOf (objects sv) r raw) (MParts mf)) as Hparts.
  { apply Forall_forall. intros r Hr. destruct (ro_stored _ _ _ _ (Hro r Hr)) as (raw & stored & H1 & H2 & H3 & H4). exists raw. split_and!; [done|done|]. by exists stored. }
  pose proof (cover_spec p _ (mo_cover _ _ _ _ Hmo)) as Hv. rewrite <- (mo_total _ _ _ _ Hmo) in Hv.
  destruct (verify_from_spec (objects sv) _ _ _ _ Hv ltac:(unfold maxInt64; lia) Hparts) as (raws & H1 & H2 & H3 & H4 & H5 & H6). rewrite Z.add_0_l in H2.
  exists raws. split_and!; [done|done|done|intros j r Hj; rewrite (H5 j r Hj); lia|apply Hmo| |intros o Ho; by apply manifest_kept].
  intros Hid offset length. split.
  - intros Ho Hl Hle. unfold openIdentityRange. rewrite checked_add_some by lia. rewrite (proj2 (Z.ltb_ge offset 0)), (proj2 (Z.leb_gt length 0)), (proj2 (Z.ltb_ge (MTotalSize mf) (offset + length))) by lia. cbn [orb].
    assert (tiles (objects sv) 0 (MParts mf) (cat raws)) as Ht.
    { apply H6. apply Forall_forall. intros r Hr. split; [by apply (proj1 (Forall_forall _ _) Hid)|]. rewrite (ro_key _ _ _ _ (Hro r Hr)).
      apply (part_key_normal m); [done|by eapply so_plans|apply (Hro r Hr)]. }
    destruct (read_parts_exact _ _ _ _ offset length "" [] Ht) as [ns E]; [lia..|]. exists ns. rewrite E, append_empty_l. by rewrite Z.sub_0_r.
  - intros Hout. unfold openIdentityRange. destruct (checkedAddInt64 offset length) as [e|] eqn:Ec; [|done]. apply checked_add_inv in Ec as (A & B & -> & _).
    destruct (Z.ltb_spec offset 0), (Z.leb_spec length 0), (Z.ltb_spec (MTotalSize mf) (offset + length)); cbn [orb]; (done || lia).
Qed.

End Histories.

(** ** Runs of the service *)

(** A digest of 64 digits that tells short texts apart, and texts as their own codec. *)
Definition toyDigest (s : string) : string := String.substring 0 64 (hexEncode s +:+ "0000000000000000000000000000000000000000000000000000000000000000").
Definition toyCodec (encoding s : string) : string := s.
Definition toyJSON (mf : TransferManifest) : string := "{}".

Definition desk : Manager := NewManager "" 0 0 0 0.
Definition by_ (org : string) : caller := mkCaller org "" "c-1" "" 1.
Definition asked (id : string) (total chunk : Z) : InitiateRequest := mkInitiate id total chunk 0 0 "" "" 0 "".
Definition part (n offset : Z) (body : string) : PartDescriptor := mkDescriptor n offset (blen body) (toyDigest body).

Abbreviation serves := (run toyDigest toyCodec toyJSON desk).
Definition opens (org id : string) (total chunk : Z) : op := OpInitiate (by_ org) (asked id total chunk) "" true true.
Definition sends (org id : string) (n offset : Z) (body : string) : op := OpAccept (by_ org) id (part n offset body) (mkStream body None) true true true.
Definition ends (org id : string) : op := OpComplete (by_ org) id "" true true true.

(** Two parts of a transfer of six bytes in chunks of four, the last first. *)
Definition sixBytes : list op := [opens "acme" "t1" 6 4; sends "acme" "t1" 1 4 "ef"; sends "acme" "t1" 0 0 "abcd"; ends "acme" "t1"].

Lemma desk_plain : plainPath (namespace desk).
Proof. split; [repeat constructor|vm_compute]. repeat constructor; discriminate. Qed.

Lemma six_bytes_safe : Forall safe sixBytes.
Proof. repeat constructor; try (vm_compute; discriminate). Qed.

Lemma completed_transfers_are_whole_witness : ∃ mf raws, Forall safe sixBytes ∧ manifests (state (serves sixBytes)) !! "acme/t1" = Some mf ∧
  blen (cat raws) = 6 ∧ ∃ numbers, openIdentityRange (objects (serves sixBytes)) mf 3 2 = Ok (String.substring 3 2 (cat raws), numbers).
Proof.
  destruct (manifests (state (serves sixBytes)) !! "acme/t1") as [mf|] eqn:E; [|vm_compute in E; discriminate E].
  destruct (completed_transfers_are_whole toyDigest toyCodec toyJSON desk desk_plain sixBytes "acme/t1" mf six_bytes_safe E) as (raws & _ & Hl & _ & _ & _ & Hr & _).
  assert (MTotalSize mf = 6 ∧ Forall (λ r, REncoding r = EncodingIdentity) (MParts mf)) as [Et Hid].
  { vm_compute in E. injection E as <-. split; [reflexivity|]. cbn [MParts]. repeat constructor. }
  exists mf, raws. split; [exact six_bytes_safe|]. split; [reflexivity|]. split; [congruence|].
  destruct (Hr Hid 3 2) as [H _]. exact (H ltac:(lia) ltac:(lia) ltac:(lia)).
Defined.

(** The identifier [..] passes the pattern, and cleaning the key it is part of removes the
    organization: a part of one tenant replaces that of another, whose completed transfer
    then reads the other's bytes. *)
Example dotdot_transfer_crosses_tenants :
  let ops := [opens "acme" ".." 4 4; sends "acme" ".." 0 0 "mine"; ends "acme" ".."; opens "rival" ".." 4 4; sends "rival" ".." 0 0 "ours"] in
  OpenRange (serves ops) (by_ "acme") ".." 0 4 = Ok ("ours", [0]) ∧ validTransferID ".." = true.
Proof. vm_compute. done. Qed.

(** Reading takes any identifier: an organization reaches a transfer of an organization
    whose name extends its own by a segment. *)
Example slash_in_id_crosses_tenants :
  let ops := [opens "acme/labs" "t1" 4 4; sends "acme/labs" "t1" 0 0 "labs"; ends "acme/labs" "t1"] in
  OpenRange (serves ops) (by_ "acme") "labs/t1" 0 4 = Ok ("labs", [0]) ∧ validTransferID "labs/t1" = false.
Proof. vm_compute. done. Qed.

(** Parts may be shorter than a chunk, and the status counts parts: after a first part of
    three bytes out of four nothing is missing, and the transfer cannot be completed nor
    the part sent again. *)
Example short_part_hides_missing_bytes :
  let sv := serves [opens "acme" "t1" 4 4; sends "acme" "t1" 0 0 "abc"] in
  match Status toyDigest sv (by_ "acme") "t1" with Ok s => (SMissingParts s, SBytesAccepted s, STotalSize s) = ([], 3, 4) | Err _ => False end ∧
  (Complete toyDigest sv (by_ "acme") "t1" "" toyJSON true true true).2 = Err (CodePrecondition, "received parts do not cover total_size") ∧
  (AcceptPart toyDigest toyCodec sv (by_ "acme") "t1" (part 0 0 "abcd") (mkStream "abcd" None) true true true).2 = Err (CodeConflict, "part replay hash does not match existing receipt").
Proof. vm_compute. done. Qed.

(** A part sent again at another offset is answered with the receipt of the first, which
    stays at its offset: the transfer can no longer be completed. *)
Example replay_ignores_offset :
  let sv := serves [opens "acme" "t1" 4 2; sends "acme" "t1" 0 2 "ab"; sends "acme" "t1" 1 2 "cd"] in
  match (AcceptPart toyDigest toyCodec sv (by_ "acme") "t1" (part 0 0 "ab") (mkStream "ab" None) true true true).2 with
  | Ok r => (ROffset r, RIdempotentReplay r) = (2, true) | Err _ => False end ∧
  (Complete toyDigest sv (by_ "acme") "t1" "" toyJSON true true true).2 = Err (CodePrecondition, "part offsets must be contiguous").
Proof. vm_compute. done. Qed.

(** A signed address is given for a part that was already accepted; writing to it replaces
    bytes whose digest is on the receipt, and the transfer completes with them. *)
Example signed_grant_overwrites_accepted_part :
  let sv := serves [opens "acme" "t1" 4 4; sends "acme" "t1" 0 0 "mine"] in
  match GrantSignedPart desk sv (by_ "acme") "t1" (part 0 0 "mine") 0 with
  | Ok (key, until) =>
      let sv := setObjects sv (<[key := "evil"]> (objects sv)) in
      let sv := (Complete toyDigest sv (by_ "acme") "t1" "" toyJSON true true true).1 in
      until = 3600000000001 ∧ OpenRange sv (by_ "acme") "t1" 0 4 = Ok ("evil", [0]) ∧
      match LoadManifest (state sv) "acme" "t1" with Some mf => map RRawSHA256 (MParts mf) = [toyDigest "mine"] | None => False end
  | Err _ => False
  end.
Proof. vm_compute. done. Qed.
