(* ===== verification/Compress.v ===== *)
(** * Compress: bounded decoding, runtime frames and the choice of an encoding
    (src/server-kit/go/compress/compress.go, frame.go)

    The codecs are libraries: a decoder is what it yields for some bytes, the data and how
    it ends, and the model is given it. What is modelled is what the package makes of
    them: the bound on every decode, the frame around compressed messages, sniffing, and
    the scan of an Accept-Encoding header. *)

From Stdlib Require Import ZArith Lia Ascii String.
From stdpp Require Import base strings numbers list.
From S2P Require Import Prelude GoStrings Segments ObjectStore.

Open Scope string_scope.
Open Scope list_scope.
Open Scope Z_scope.

(** ** Bounded decoding *)

Definition EncodingIdentity : string := "identity".
Definition EncodingBrotli : string := "br".
Definition EncodingZstd : string := "zstd".
Definition EncodingGzip : string := "gzip".
Definition EncodingDeflate : string := "deflate".

Definition DefaultMaxDecodedBytes : Z := 64 * 2 ^ 20.

Inductive frame_error := MissingHeader | OtherVersion (v : Z) | TruncatedPayload | OtherLength | UnknownEncoding (id : Z) | PayloadTooLong.
Inductive decode_error :=
| ErrRuntimeFrame (why : frame_error) | ErrDecodedTooLarge | ErrDecoderSizeExceeded | ErrCorrupt | ErrUnsupported (encoding : string).

(** What a decoder yields: bytes, and the error they end with instead of their end. An
    error comes with no bytes of its own. *)
Record decoding := mkDecoding { dbytes : string; dfails : option decode_error }.

(** The libraries' decoders. Opening a gzip or zlib reader can already fail. The zstd
    decoder also decodes in one go, and tells the size a first frame declares. *)
Record codecs := mkCodecs {
  gunzip : string → option decoding; unzlib : string → option decoding; unbrotli : string → decoding; unflate : string → decoding;
  unzstd : string → option decoding; unzstdAll : string → res decode_error string; zstdDeclared : string → option Z
}.

Definition normalizeDecodeLimit (maxDecoded : Z) : Z := if maxDecoded <=? 0 then DefaultMaxDecodedBytes else maxDecoded.

(** [readAllInto] of a reader limited to [n] bytes. *)
Definition readAllInto (d : decoding) (n : Z) : res decode_error string :=
  if n <=? 0 then Ok ""
  else if n <=? blen (dbytes d) then Ok (String.substring 0 (Z.to_nat n) (dbytes d))
  else match dfails d with Some e => Err e | None => Ok (dbytes d) end.

Definition readLimited (d : decoding) (maxDecoded : Z) : res decode_error string :=
  match readAllInto d (i64 (maxDecoded + 1)) with
  | Err e => Err e
  | Ok out => if maxDecoded <? blen out then Err ErrDecodedTooLarge else Ok out
  end.

Section Codecs.
Context (C : codecs).

Definition decompressBrotli (data : string) (maxDecoded : Z) : res decode_error string := readLimited (unbrotli C data) maxDecoded.

Definition decompressGzip (data : string) (maxDecoded : Z) : res decode_error string :=
  match gunzip C data with None => Err ErrCorrupt | Some d => readLimited d maxDecoded end.

Definition decompressFlate (data : string) (maxDecoded : Z) : res decode_error string := readLimited (unflate C data) maxDecoded.

Definition zstdDeclaredTooLarge (data : string) (maxDecoded : Z) : bool := match zstdDeclared C data with Some size => maxDecoded <? size | None => false end.

Definition sizeExceeded (r : res decode_error string) : res decode_error string := match r with Err ErrDecoderSizeExceeded => Err ErrDecodedTooLarge | _ => r end.

Definition decodeZstdLimited (data : string) (maxDecoded : Z) : res decode_error string :=
  if zstdDeclaredTooLarge data maxDecoded then Err ErrDecodedTooLarge
  else
    let out := if DefaultMaxDecodedBytes <=? maxDecoded then unzstdAll C data
               else match unzstd C data with None => Err ErrCorrupt | Some d => readAllInto d (i64 (maxDecoded + 1)) end in
    match sizeExceeded out with
    | Err e => Err e
    | Ok out => if maxDecoded <? blen out then Err ErrDecodedTooLarge else Ok out
    end.

Definition DecompressWithEncodingLimit (data encoding : string) (maxDecoded : Z) : res decode_error string :=
  let maxDecoded := normalizeDecodeLimit maxDecoded in
  let e := ToLower (TrimSpace encoding) in
  if String.eqb e "" || String.eqb e EncodingIdentity then if maxDecoded <? blen data then Err ErrDecodedTooLarge else Ok data
  else if String.eqb e EncodingBrotli then decompressBrotli data maxDecoded
  else if String.eqb e EncodingZstd then decodeZstdLimited data maxDecoded
  else if String.eqb e EncodingGzip then decompressGzip data maxDecoded
  else if String.eqb e EncodingDeflate then decompressFlate data maxDecoded
  else Err (ErrUnsupported encoding).

(** One codec of the sniffing sequence: done, refused for good, or on to the next. *)
Definition orNext (r : res decode_error string) (next : res decode_error string) : res decode_error string :=
  match r with Ok out => Ok out | Err ErrDecodedTooLarge => Err ErrDecodedTooLarge | Err _ => next end.

Definition DecompressLimit (data : string) (maxDecoded : Z) : res decode_error string :=
  let maxDecoded := normalizeDecodeLimit maxDecoded in
  orNext (decompressBrotli data maxDecoded) (orNext (decodeZstdLimited data maxDecoded) (orNext (decompressGzip data maxDecoded) (decompressFlate data maxDecoded))).

(** With an arena zstd comes first, and whatever it refuses is sniffed again. *)
Definition DecompressLimitArena (data : string) (maxDecoded : Z) : res decode_error string :=
  let maxDecoded := normalizeDecodeLimit maxDecoded in
  match decodeZstdLimited data maxDecoded with Ok out => Ok out | Err _ => DecompressLimit data maxDecoded end.

(** ** Runtime frames *)

Definition RuntimeFrameMagic : Z := 1331057236.
Definition RuntimeFrameVersion : Z := 1.
Definition RuntimeFrameHeaderBytes : Z := 16.
Definition runtimeFrameIdentity : Z := 0.
Definition runtimeFrameGzip : Z := 1.
Definition runtimeFrameBrotli : Z := 2.
Definition runtimeFrameDeflate : Z := 3.

Definition byteOf (n : Z) : ascii := ascii_of_nat (Z.to_nat (n mod 256)).
Definition byteAt (s : string) (i : nat) : Z := match String.get i s with Some c => Z.of_nat (nat_of_ascii c) | None => 0 end.

(** [binary.BigEndian]: four bytes, the highest first. *)
Definition PutUint32 (v : Z) : string :=
  String (byteOf (Z.shiftr v 24)) (String (byteOf (Z.shiftr v 16)) (String (byteOf (Z.shiftr v 8)) (String (byteOf v) ""))).
Definition Uint32 (s : string) (i : nat) : Z := byteAt s i * 16777216 + byteAt s (i + 1) * 65536 + byteAt s (i + 2) * 256 + byteAt s (i + 3).

Definition IsRuntimeFrame (data : string) : bool := (RuntimeFrameHeaderBytes <=? blen data) && (Uint32 data 0 =? RuntimeFrameMagic).

Definition normalizeGzipLevel (level : Z) : Z := if level <? -2 then -1 else if 9 <? level then 1 else level.

(** [gzip]: what the library's writer makes of the data at a level. *)
Context (gzip : Z → string → string).

Definition CompressGzip (data : string) (level : Z) : string := gzip (normalizeGzipLevel level) data.

Definition frameHeader (encoding raw payload : Z) : string :=
  PutUint32 RuntimeFrameMagic +:+ String (byteOf RuntimeFrameVersion) (String (byteOf encoding) (String (byteOf 0) (String (byteOf 0) (PutUint32 raw +:+ PutUint32 payload)))).

Definition EncodeRuntimeFrameGzip (raw : string) (level : Z) : res decode_error (option string) :=
  if 4294967295 <? blen raw then Err (ErrRuntimeFrame PayloadTooLong)
  else
    let compressed := CompressGzip raw level in
    if blen raw <=? RuntimeFrameHeaderBytes + blen compressed then Ok None
    else Ok (Some (frameHeader runtimeFrameGzip (blen raw) (blen compressed) +:+ compressed)).

Definition decodeRuntimeFramePayload (encoding : Z) (payload : string) (maxDecoded : Z) : res decode_error string :=
  if encoding =? runtimeFrameIdentity then if maxDecoded <? blen payload then Err ErrDecodedTooLarge else Ok payload
  else if encoding =? runtimeFrameGzip then decompressGzip payload maxDecoded
  else if encoding =? runtimeFrameDeflate then match unzlib C payload with None => Err ErrCorrupt | Some d => readLimited d maxDecoded end
  else if encoding =? runtimeFrameBrotli then decompressBrotli payload maxDecoded
  else Err (ErrRuntimeFrame (UnknownEncoding encoding)).

Definition DecodeRuntimeFrame (frame : string) (maxDecoded : Z) : res decode_error string :=
  if negb (IsRuntimeFrame frame) then Err (ErrRuntimeFrame MissingHeader)
  else if negb (byteAt frame 4 =? RuntimeFrameVersion) then Err (ErrRuntimeFrame (OtherVersion (byteAt frame 4)))
  else
    let rawLength := Uint32 frame 8 in
    let payloadLength := Uint32 frame 12 in
    if blen frame - RuntimeFrameHeaderBytes <? payloadLength then Err (ErrRuntimeFrame TruncatedPayload)
    else
      let maxDecoded := normalizeDecodeLimit maxDecoded in
      if maxDecoded <? rawLength then Err ErrDecodedTooLarge
      else
        let payload := String.substring 16 (Z.to_nat payloadLength) frame in
        match decodeRuntimeFramePayload (byteAt frame 5) payload maxDecoded with
        | Err e => Err e
        | Ok decoded => if (0 <? rawLength) && negb (blen decoded =? rawLength) then Err (ErrRuntimeFrame OtherLength) else Ok decoded
        end.

End Codecs.

(** ** What the bound lets through *)

Lemma length_substring s : ∀ i n, String.length (String.substring i n s) = Nat.min n (String.length s - i).
Proof. induction s as [|c s IH]; intros [|i] [|n]; cbn [String.substring String.length]; rewrite ?IH; lia. Qed.

Lemma read_limited_spec d limit : 0 ≤ limit < maxInt64 →
  readLimited d limit = if limit <? blen (dbytes d) then Err ErrDecodedTooLarge else match dfails d with Some e => Err e | None => Ok (dbytes d) end.
Proof.
  unfold maxInt64. intros Hl. unfold readLimited, readAllInto. rewrite i64_id by (unfold in_i64, minInt64, maxInt64; lia). rewrite (proj2 (Z.leb_gt (limit + 1) 0)) by lia.
  destruct (Z.leb_spec (limit + 1) (blen (dbytes d))), (Z.ltb_spec limit (blen (dbytes d))); try lia.
  - assert (blen (String.substring 0 (Z.to_nat (limit + 1)) (dbytes d)) = limit + 1) as -> by (unfold blen in *; rewrite length_substring; lia).
    by rewrite (proj2 (Z.ltb_lt limit (limit + 1))) by lia.
  - destruct (dfails d); [done|]. by rewrite (proj2 (Z.ltb_ge _ _)) by lia.
Qed.

Lemma read_limited_bound d limit out : readLimited d limit = Ok out → blen out ≤ limit.
Proof. unfold readLimited. destruct (readAllInto _ _); [|done]. destruct (Z.ltb_spec limit (blen a)); [done|]. by intros [= <-]. Qed.

Lemma limit_pos n : 0 < normalizeDecodeLimit n.
Proof. unfold normalizeDecodeLimit, DefaultMaxDecodedBytes. destruct (Z.leb_spec n 0); lia. Qed.

Lemma size_exceeded_ok r out : sizeExceeded r = Ok out → r = Ok out.
Proof. by destruct r as [|[]]. Qed.

Section Decoding.
Context (C : codecs).

Lemma zstd_bound data limit out : decodeZstdLimited C data limit = Ok out → blen out ≤ limit.
Proof.
  unfold decodeZstdLimited. destruct (zstdDeclaredTooLarge C data limit); [done|]. destruct (sizeExceeded _) as [o|]; [|done].
  destruct (Z.ltb_spec limit (blen o)); [done|]. by intros [= <-].
Qed.

Lemma gzip_bound data limit out : decompressGzip C data limit = Ok out → blen out ≤ limit.
Proof. unfold decompressGzip. destruct (gunzip C data); [apply read_limited_bound|done]. Qed.

Lemma identity_bound limit data out : (if limit <? blen data then Err ErrDecodedTooLarge else Ok data) = Ok out → blen out ≤ limit.
Proof. destruct (Z.ltb_spec limit (blen data)); [done|]. by intros [= <-]. Qed.

Lemma or_next_bound limit r next : (∀ out, r = Ok out → blen out ≤ limit) → (∀ out, next = Ok out → blen out ≤ limit) → ∀ out, orNext r next = Ok out → blen out ≤ limit.
Proof. intros Hr Hn out. destruct r as [o|[]]; cbn; try done; try apply Hn. intros [= <-]. by apply Hr. Qed.

Lemma encoding_bound data encoding n out : DecompressWithEncodingLimit C data encoding n = Ok out → blen out ≤ normalizeDecodeLimit n.
Proof.
  unfold DecompressWithEncodingLimit. set (e := ToLower _). destruct (_ || _); [apply identity_bound|]. destruct (String.eqb e EncodingBrotli); [apply read_limited_bound|].
  destruct (String.eqb e EncodingZstd); [apply zstd_bound|]. destruct (String.eqb e EncodingGzip); [apply gzip_bound|]. destruct (String.eqb e EncodingDeflate); [apply read_limited_bound|done].
Qed.

Lemma limit_idemp n : normalizeDecodeLimit (normalizeDecodeLimit n) = normalizeDecodeLimit n.
Proof. unfold normalizeDecodeLimit at 1. by rewrite (proj2 (Z.leb_gt _ _)) by apply limit_pos. Qed.

Lemma sniff_bound data n out : DecompressLimit C data n = Ok out → blen out ≤ normalizeDecodeLimit n.
Proof.
  revert out. unfold DecompressLimit. apply or_next_bound; [intros out; apply read_limited_bound|]. apply or_next_bound; [intros out; apply zstd_bound|].
  apply or_next_bound; [intros out; apply gzip_bound|intros out; apply read_limited_bound].
Qed.

Lemma arena_bound data n out : DecompressLimitArena C data n = Ok out → blen out ≤ normalizeDecodeLimit n.
Proof.
  unfold DecompressLimitArena. destruct (decodeZstdLimited _ _ _) as [o|] eqn:E; [intros [= <-]; by eapply zstd_bound|].
  intros H. apply sniff_bound in H. by rewrite limit_idemp in H.
Qed.

Lemma payload_bound encoding payload limit out : decodeRuntimeFramePayload C encoding payload limit = Ok out → blen out ≤ limit.
Proof.
  unfold decodeRuntimeFramePayload. destruct (_ =? runtimeFrameIdentity); [apply identity_bound|]. destruct (_ =? runtimeFrameGzip); [apply gzip_bound|].
  destruct (_ =? runtimeFrameDeflate); [destruct (unzlib C payload); [apply read_limited_bound|done]|]. destruct (_ =? runtimeFrameBrotli); [apply read_limited_bound|done].
Qed.

(** The decoders of the encodings other than zstd, by their lower-case name. *)
Definition decoderOf (e data : string) : option (option decoding) :=
  if String.eqb e "" || String.eqb e EncodingIdentity then Some (Some (mkDecoding data None))
  else if String.eqb e EncodingBrotli then Some (Some (unbrotli C data))
  else if String.eqb e EncodingGzip then Some (gunzip C data)
  else if String.eqb e EncodingDeflate then Some (Some (unflate C data))
  else None.

(** What decoding under a limit is to be: nothing beyond the limit, else all of it. *)
Definition within (limit : Z) (d : option decoding) : res decode_error string :=
  match d with
  | None => Err ErrCorrupt
  | Some d => if limit <? blen (dbytes d) then Err ErrDecodedTooLarge else match dfails d with Some e => Err e | None => Ok (dbytes d) end
  end.

Lemma frame_bound frame n out : DecodeRuntimeFrame C frame n = Ok out → blen out ≤ normalizeDecodeLimit n.
Proof.
  unfold DecodeRuntimeFrame. destruct (IsRuntimeFrame frame); [|done]. destruct (byteAt frame 4 =? _); [|done]. cbn [negb]. destruct (_ <? _); [done|].
  destruct (_ <? Uint32 frame 8); [done|]. destruct (decodeRuntimeFramePayload _ _ _ _) as [o|] eqn:E; [|done]. destruct (_ && _); [done|]. intros [= <-]. by eapply payload_bound.
Qed.

(** One past the largest limit wraps: nothing is read. *)
Lemma read_limited_largest d : readLimited d maxInt64 = Ok "".
Proof. done. Qed.

(** What the zstd decoder is asked for: its default ceiling bounds the one that decodes in
    one go, which serves every limit from there on. *)
Definition zstdDecoding (limit : Z) (data : string) : option decoding :=
  if DefaultMaxDecodedBytes <=? limit then Some (match unzstdAll C data with Ok out => mkDecoding out None | Err e => mkDecoding "" (Some e) end)
  else unzstd C data.

Lemma zstd_spec data limit : 0 < limit →
  decodeZstdLimited C data limit = if zstdDeclaredTooLarge C data limit then Err ErrDecodedTooLarge else sizeExceeded (within limit (zstdDecoding limit data)).
Proof.
  intros Hl. unfold decodeZstdLimited, zstdDecoding. destruct (zstdDeclaredTooLarge C data limit); [done|]. destruct (Z.leb_spec DefaultMaxDecodedBytes limit) as [Hb|Hb].
  - destruct (unzstdAll C data) as [out|e]; cbn [within dbytes dfails sizeExceeded]; [by destruct (limit <? blen out)|].
    rewrite (proj2 (Z.ltb_ge limit (blen ""))) by (unfold blen; cbn [String.length]; lia). by destruct e.
  - destruct (unzstd C data) as [d|]; [|done]. change DefaultMaxDecodedBytes with 67108864 in Hb. cbn [within]. pose proof (read_limited_spec d limit ltac:(unfold maxInt64; lia)) as E.
    unfold readLimited in E. destruct (readAllInto d (i64 (limit + 1))) as [out|e]; cbn [sizeExceeded].
    + rewrite E. destruct (limit <? blen (dbytes d)); [done|]. destruct (dfails d) as [e|]; [|done]. destruct (limit <? blen out); by inversion E.
    + rewrite <- E. by destruct e.
Qed.

(** C31: no decode exceeds its limit. Whatever the bytes, the encoding and the codecs do,
    every way to decode returns at most the limit, the default where none is stated. The
    named encodings refuse as too large exactly what their decoder yields more of than the
    limit, and return all of what it yields otherwise, with one exception: under the
    largest limit there is, where one byte more wraps around, brotli, gzip and deflate
    return nothing at all. Zstd also refuses what declares itself too large, and its own
    ceiling counts as too large. Other names are refused. *)
Theorem decode_is_bounded data encoding n : n ≤ maxInt64 → let limit := normalizeDecodeLimit n in let e := ToLower (TrimSpace encoding) in
  (∀ out, DecompressWithEncodingLimit C data encoding n = Ok out ∨ DecompressLimit C data n = Ok out ∨ DecompressLimitArena C data n = Ok out ∨ DecodeRuntimeFrame C data n = Ok out →
     blen out ≤ limit) ∧
  (∀ d, decoderOf e data = Some d → DecompressWithEncodingLimit C data encoding n =
     if (limit =? maxInt64) && negb (String.eqb e "" || String.eqb e EncodingIdentity) then match d with Some _ => Ok "" | None => Err ErrCorrupt end else within limit d) ∧
  (e = EncodingZstd → DecompressWithEncodingLimit C data encoding n =
     if zstdDeclaredTooLarge C data limit then Err ErrDecodedTooLarge else sizeExceeded (within limit (zstdDecoding limit data))) ∧
  (decoderOf e data = None → e ≠ EncodingZstd → DecompressWithEncodingLimit C data encoding n = Err (ErrUnsupported encoding)).
Proof.
  intros Hn limit e. split; [|split; [|split]].
  - intros out [H|[H|[H|H]]]; [by eapply encoding_bound|by eapply sniff_bound|by eapply arena_bound|by eapply frame_bound].
  - intros d. unfold DecompressWithEncodingLimit, decoderOf. fold limit e. assert (0 < limit ≤ maxInt64) as Hr.
    { split; [apply limit_pos|]. unfold limit, normalizeDecodeLimit, DefaultMaxDecodedBytes, maxInt64 in *. destruct (n <=? 0); lia. }
    assert (∀ d, readLimited d limit = if limit =? maxInt64 then Ok "" else within limit (Some d)) as Hread.
    { intros x. destruct (Z.eqb_spec limit maxInt64) as [->|]; [apply read_limited_largest|apply read_limited_spec; lia]. }
    destruct (String.eqb e "" || String.eqb e EncodingIdentity); [rewrite andb_false_r; by intros [= <-]|]. rewrite andb_true_r. unfold decompressBrotli, decompressGzip, decompressFlate.
    destruct (String.eqb_spec e EncodingBrotli); [by intros [= <-]; rewrite Hread|]. destruct (String.eqb_spec e EncodingZstd) as [->|]; [done|].
    destruct (String.eqb e EncodingGzip); [intros [= <-]; destruct (gunzip C data); [by rewrite Hread|by destruct (limit =? maxInt64)]|].
    destruct (String.eqb e EncodingDeflate); [by intros [= <-]; rewrite Hread|done].
  - intros E. unfold DecompressWithEncodingLimit. fold limit e. rewrite E. apply zstd_spec, limit_pos.
  - unfold DecompressWithEncodingLimit, decoderOf. fold limit e. destruct (_ || _); [done|]. destruct (String.eqb e EncodingBrotli); [done|].
    destruct (String.eqb_spec e EncodingZstd); [done|]. destruct (String.eqb e EncodingGzip); [done|]. by destruct (String.eqb e EncodingDeflate).
Qed.

End Decoding.

(** ** The header *)

Lemma byte_of_value n : Z.of_nat (nat_of_ascii (byteOf n)) = n mod 256.
Proof. unfold byteOf. pose proof (Z.mod_pos_bound n 256 ltac:(lia)). rewrite nat_ascii_embedding by lia. lia. Qed.

Lemma four_bytes v : 0 ≤ v < 4294967296 → Z.shiftr v 24 mod 256 * 16777216 + Z.shiftr v 16 mod 256 * 65536 + Z.shiftr v 8 mod 256 * 256 + v mod 256 = v.
Proof.
  intros Hv. rewrite !Z.shiftr_div_pow2 by lia. change (2 ^ 24) with (256 * 256 * 256). change (2 ^ 16) with (256 * 256). change (2 ^ 8) with 256.
  rewrite <- !Z.div_div by lia. rewrite (Z.mod_small (v / 256 / 256 / 256) 256); [|split; [repeat apply Z.div_pos; lia|repeat apply Z.div_lt_upper_bound; lia]].
  pose proof (Z.div_mod v 256 ltac:(lia)). pose proof (Z.div_mod (v / 256) 256 ltac:(lia)). pose proof (Z.div_mod (v / 256 / 256) 256 ltac:(lia)). lia.
Qed.

(** The fields of a header, whatever follows it. *)
Lemma header_fields encoding raw payload rest : 0 ≤ raw < 4294967296 → 0 ≤ payload < 4294967296 → 0 ≤ encoding < 256 →
  let f := frameHeader encoding raw payload +:+ rest in
  blen f = RuntimeFrameHeaderBytes + blen rest ∧ Uint32 f 0 = RuntimeFrameMagic ∧ byteAt f 4 = RuntimeFrameVersion ∧ byteAt f 5 = encoding ∧ Uint32 f 8 = raw ∧ Uint32 f 12 = payload ∧
  ∀ n, String.substring 16 n f = String.substring 0 n rest.
Proof.
  intros Hr Hp He f. unfold Uint32, byteAt, f, frameHeader, PutUint32. repeat (rewrite append_cons || rewrite append_empty_l).
  cbn [String.get Nat.add]. rewrite !byte_of_value. split_and!; [unfold blen; cbn [String.length]; unfold RuntimeFrameHeaderBytes; lia|done|done|by apply Z.mod_small|by apply four_bytes..|].
  intros n. done.
Qed.

Lemma frame_of_header encoding raw payload rest : 0 ≤ raw < 4294967296 → 0 ≤ payload < 4294967296 → 0 ≤ encoding < 256 →
  IsRuntimeFrame (frameHeader encoding raw payload +:+ rest) = true.
Proof.
  intros Hr Hp He. destruct (header_fields encoding raw payload rest Hr Hp He) as (Hl & Hm & _). unfold IsRuntimeFrame. rewrite Hl, Hm, Z.eqb_refl, andb_true_r.
  apply Z.leb_le. unfold blen. lia.
Qed.

(** ** A framed message *)

Lemma gzip_within C (gzip : Z → string → string) level raw : gunzip C (gzip level raw) = Some (mkDecoding raw None) → ∀ limit, 0 ≤ limit < maxInt64 →
  decompressGzip C (gzip level raw) limit = if limit <? blen raw then Err ErrDecodedTooLarge else Ok raw.
Proof. intros E limit Hl. unfold decompressGzip. rewrite E. by apply read_limited_spec. Qed.

Lemma byte_at_cut s n i : (i < n)%nat → byteAt (String.substring 0 n s) i = byteAt s i.
Proof. intros Hi. unfold byteAt. pose proof (String.substring_correct1 s 0 n i Hi) as E. rewrite Nat.add_0_r in E. by rewrite E. Qed.

Lemma uint32_cut s n i : (i + 3 < n)%nat → Uint32 (String.substring 0 n s) i = Uint32 s i.
Proof. intros Hi. unfold Uint32. by rewrite !byte_at_cut by lia. Qed.

(** C30: a framed message comes back. With a gzip reader that reads what the writer wrote:
    a frame is shorter than the message and is recognised; followed by whatever, it
    decodes to the message under every limit the message fits but the largest there is,
    under which it is refused as of another length, and is refused as too large under
    every other; cut short anywhere it is refused as no frame or as truncated. *)
Theorem frame_round_trip C gzip raw level frame : (∀ level raw, gunzip C (gzip level raw) = Some (mkDecoding raw None)) → EncodeRuntimeFrameGzip gzip raw level = Ok (Some frame) →
  blen frame < blen raw ∧
  (∀ rest n, n ≤ maxInt64 → let limit := normalizeDecodeLimit n in
     IsRuntimeFrame (frame +:+ rest) = true ∧ DecodeRuntimeFrame C (frame +:+ rest) n =
       if limit =? maxInt64 then Err (ErrRuntimeFrame OtherLength) else if limit <? blen raw then Err ErrDecodedTooLarge else Ok raw) ∧
  (∀ k n, (k < String.length frame)%nat → DecodeRuntimeFrame C (String.substring 0 k frame) n = Err (ErrRuntimeFrame (if (k <? 16)%nat then MissingHeader else TruncatedPayload))).
Proof.
  intros Hg. unfold EncodeRuntimeFrameGzip. destruct (Z.ltb_spec 4294967295 (blen raw)) as [|Hraw]; [done|]. set (z := CompressGzip gzip raw level).
  destruct (Z.leb_spec (blen raw) (RuntimeFrameHeaderBytes + blen z)) as [|Hz]; [done|]. intros [= <-]. pose proof (blen_nonneg raw) as Hr0. pose proof (blen_nonneg z) as Hz0.
  unfold RuntimeFrameHeaderBytes in Hz. pose proof (λ rest, header_fields runtimeFrameGzip (blen raw) (blen z) rest ltac:(lia) ltac:(lia) ltac:(done)) as H.
  pose proof (λ rest, frame_of_header runtimeFrameGzip (blen raw) (blen z) rest ltac:(lia) ltac:(lia) ltac:(done)) as Hf. set (h := frameHeader _ _ _) in *. split_and!.
  - destruct (H z) as (Hl & _). rewrite Hl. unfold RuntimeFrameHeaderBytes. lia.
  - intros rest n Hn. set (limit := normalizeDecodeLimit n). rewrite append_assoc. split; [apply Hf|]. destruct (H (z +:+ rest)) as (Hlen & _ & Hv & He & Hr & Hp & Hsub). unfold DecodeRuntimeFrame.
    rewrite Hf, Hv, He, Hr, Hp, Hlen, Hsub. cbn [negb Z.eqb RuntimeFrameVersion]. rewrite Pos.eqb_refl. cbn [negb]. rewrite blen_app. pose proof (blen_nonneg rest).
    rewrite (proj2 (Z.ltb_ge _ (blen z))) by lia. fold limit. assert (limit ≤ maxInt64) as Hlm.
    { unfold limit, normalizeDecodeLimit, DefaultMaxDecodedBytes, maxInt64 in *. destruct (n <=? 0); lia. }
    destruct (Z.ltb_spec limit (blen raw)) as [Hlt|Hle]; [by rewrite (proj2 (Z.eqb_neq limit maxInt64)) by (unfold maxInt64 in *; lia)|].
    unfold blen at 1. rewrite Nat2Z.id, substring_prefix. change (decodeRuntimeFramePayload C runtimeFrameGzip z limit) with (decompressGzip C z limit).
    unfold z, CompressGzip. destruct (Z.eqb_spec limit maxInt64) as [->|Hl].
    { unfold decompressGzip. rewrite Hg, read_limited_largest. change (blen "") with 0. by rewrite (proj2 (Z.ltb_lt 0 (blen raw))), (proj2 (Z.eqb_neq 0 (blen raw))) by lia. }
    rewrite gzip_within; [|apply Hg|split; [by apply Z.lt_le_incl, limit_pos|lia]]. rewrite (proj2 (Z.ltb_ge limit (blen raw))) by lia.
    by rewrite Z.eqb_refl, andb_false_r.
  - intros k n Hk. destruct (H z) as (Hlen & Hm & Hv & He & Hr & Hp & _). set (f := h +:+ z) in *. unfold DecodeRuntimeFrame, IsRuntimeFrame.
    assert (blen (String.substring 0 k f) = Z.of_nat k) as Hk' by (unfold blen; rewrite length_substring; lia). rewrite Hk'. unfold RuntimeFrameHeaderBytes in *.
    destruct (Nat.ltb_spec k 16) as [Hs|Hs]; [by rewrite (proj2 (Z.leb_gt 16 (Z.of_nat k))) by lia|]. rewrite (proj2 (Z.leb_le 16 (Z.of_nat k))) by lia.
    rewrite !uint32_cut, byte_at_cut, Hm, Hv, Hp by lia. rewrite !Z.eqb_refl. cbn [negb andb]. unfold blen in Hlen at 1. by rewrite (proj2 (Z.ltb_lt _ (blen z))) by lia.
Qed.

(** ** Concrete messages *)

(** A codec that knows one message of 64 bytes by a single byte and marks all others;
    the other decoders pass their input on. *)
Definition known : string := "0000000000000000000000000000000000000000000000000000000000000000".
Definition toyGzip (level : Z) (raw : string) : string := if String.eqb raw known then "z" else String "i" raw.
Definition toyGunzip (z : string) : option decoding :=
  if String.eqb z "z" then Some (mkDecoding known None) else match z with String "i" raw => Some (mkDecoding raw None) | _ => None end.
Definition pass (data : string) : decoding := mkDecoding data None.
Definition toyCodecs : codecs := mkCodecs toyGunzip (λ s, Some (pass s)) pass pass (λ s, Some (pass s)) Ok (λ _, None).

Lemma toy_gzip_reads level raw : gunzip toyCodecs (toyGzip level raw) = Some (mkDecoding raw None).
Proof. unfold toyGzip. destruct (String.eqb_spec raw known) as [->|]; reflexivity. Qed.

Lemma decode_is_bounded_witness : DecompressWithEncodingLimit toyCodecs "four" " BR" 3 = Err ErrDecodedTooLarge ∧
  DecompressWithEncodingLimit toyCodecs "four" "zstd" 4 = Ok "four" ∧ DecompressWithEncodingLimit toyCodecs "four" "lz4" 3 = Err (ErrUnsupported "lz4").
Proof.
  destruct (decode_is_bounded toyCodecs "four" " BR" 3 ltac:(unfold maxInt64; lia)) as (_ & H & _).
  destruct (decode_is_bounded toyCodecs "four" "zstd" 4 ltac:(unfold maxInt64; lia)) as (_ & _ & H' & _).
  destruct (decode_is_bounded toyCodecs "four" "lz4" 3 ltac:(unfold maxInt64; lia)) as (_ & _ & _ & H'').
  split; [exact (H (Some (pass "four")) ltac:(reflexivity))|]. split; [exact (H' ltac:(reflexivity))|].
  apply H''; [reflexivity|]. intros E. vm_compute in E. discriminate E.
Defined.

Lemma frame_round_trip_witness : ∃ frame, EncodeRuntimeFrameGzip toyGzip known 6 = Ok (Some frame) ∧ blen frame = 17 ∧ DecodeRuntimeFrame toyCodecs (frame +:+ "!") 64 = Ok known ∧
  DecodeRuntimeFrame toyCodecs frame 63 = Err ErrDecodedTooLarge ∧ DecodeRuntimeFrame toyCodecs (String.substring 0 16 frame) 64 = Err (ErrRuntimeFrame TruncatedPayload).
Proof.
  eexists. split; [reflexivity|]. split; [reflexivity|]. destruct (frame_round_trip toyCodecs toyGzip known 6 _ toy_gzip_reads eq_refl) as (_ & H & H').
  split; [exact (proj2 (H "!" 64 ltac:(unfold maxInt64; lia)))|]. split; [rewrite <- (append_nil_r (_ +:+ _)); exact (proj2 (H "" 63 ltac:(unfold maxInt64; lia)))|]. exact (H' 16%nat 64 ltac:(apply Nat.ltb_lt; reflexivity)).
Defined.

(** A frame that declares no length decodes to whatever its payload holds. *)
Example undeclared_length_is_not_checked : DecodeRuntimeFrame toyCodecs (frameHeader runtimeFrameIdentity 0 4 +:+ "evil") 100 = Ok "evil".
Proof. reflexivity. Qed.

(** Under the largest limit one byte more overflows, and everything decodes to nothing. *)
Example largest_limit_decodes_nothing : DecompressWithEncodingLimit toyCodecs "data" "br" maxInt64 = Ok "".
Proof. reflexivity. Qed.
