(* ===== verification/AcceptEncoding.v ===== *)
(** * AcceptEncoding: the choice of an encoding (src/server-kit/go/compress/compress.go)

    The scan of an Accept-Encoding header in one pass, as the text that is left at each
    position, and the choice it leads to. Scores are compared with nought only, so a score
    is whether it is positive. *)

From Stdlib Require Import ZArith Lia Ascii String.
From stdpp Require Import base strings numbers list.
From S2P Require Import Prelude GoStrings Segments Compress.

Open Scope string_scope.
Open Scope list_scope.

Abbreviation comma := (","%char).
Abbreviation semicolon := (";"%char).

Definition blank (c : ascii) : bool := byteIs c 32 || byteIs c 9.
Definition isComma (c : ascii) : bool := Ascii.eqb c comma.
Definition isSemicolon (c : ascii) : bool := Ascii.eqb c semicolon.

(** The longest prefix of such bytes, and what is left. *)
Fixpoint span (p : ascii → bool) (s : string) : string * string :=
  match s with
  | EmptyString => ("", "")
  | String c rest => if p c then let '(a, b) := span p rest in (String c a, b) else ("", s)
  end.
Definition skip (p : ascii → bool) (s : string) : string := (span p s).2.

Fixpoint trimBlankRight (s : string) : string :=
  match s with
  | EmptyString => ""
  | String c rest => match trimBlankRight rest with EmptyString => if blank c then "" else String c "" | rest => String c rest end
  end.

Record encodingScores := mkScores { sbr : bool; szstd : bool; sgzip : bool; sdeflate : bool; sany : bool }.
Definition noScores : encodingScores := mkScores false false false false false.

Section Parsing.
(** [strconv.ParseFloat]: whether it takes the text, and whether the number is positive. *)
Context (positive : string → option bool).

(** The score after one parameter. *)
Definition afterParam (q : bool) (param : string) : bool :=
  if HasPrefix param "q=" || HasPrefix param "Q=" then default q (positive (String.substring 2 (String.length param - 2) param)) else q.

Fixpoint parseParams (fuel : nat) (s : string) (q : bool) : bool * string :=
  match fuel, s with
  | S fuel, String c rest =>
      if isSemicolon c then
        let '(param, rest) := span (λ c, negb (isSemicolon c || isComma c)) (skip blank rest) in parseParams fuel rest (afterParam q (trimBlankRight param))
      else (q, s)
  | _, _ => (q, s)
  end.

Definition score (name : string) (q : bool) (sc : encodingScores) : encodingScores :=
  if EqualFold name EncodingBrotli then mkScores q (szstd sc) (sgzip sc) (sdeflate sc) (sany sc)
  else if EqualFold name EncodingZstd then mkScores (sbr sc) q (sgzip sc) (sdeflate sc) (sany sc)
  else if EqualFold name EncodingGzip then mkScores (sbr sc) (szstd sc) q (sdeflate sc) (sany sc)
  else if EqualFold name EncodingDeflate then mkScores (sbr sc) (szstd sc) (sgzip sc) q (sany sc)
  else if String.eqb name "*" then mkScores (sbr sc) (szstd sc) (sgzip sc) (sdeflate sc) q
  else sc.

Fixpoint parseLoop (fuel : nat) (s : string) (sc : encodingScores) : encodingScores :=
  match fuel with
  | O => sc
  | S fuel =>
      match skip (λ c, blank c || isComma c) s with
      | EmptyString => sc
      | s =>
          let '(name, s) := span (λ c, negb (isSemicolon c || isComma c || blank c)) s in
          let s := skip blank s in
          let '(q, s) := parseParams (String.length s) s true in
          let s := skip (λ c, negb (isComma c)) s in
          parseLoop fuel (match s with String _ rest => rest | EmptyString => "" end) (score name q sc)
      end
  end.

Definition parseEncodingScores (s : string) : encodingScores := parseLoop (S (String.length s)) s noScores.

Definition PreferredEncoding (acceptEncoding : string) : string :=
  if String.eqb acceptEncoding "" then ""
  else
    let sc := parseEncodingScores acceptEncoding in
    if sbr sc then EncodingBrotli else if szstd sc then EncodingZstd else if sgzip sc then EncodingGzip else if sdeflate sc then EncodingDeflate
    else if sany sc then EncodingBrotli else "".

(** A window of the text is the other, in any case. *)
Fixpoint containsFoldASCII (s substr : string) : bool :=
  EqualFold (String.substring 0 (String.length substr) s) substr || match s with String _ rest => containsFoldASCII rest substr | EmptyString => false end.

Definition CanGzip (acceptEncoding : string) : bool := containsFoldASCII acceptEncoding "gzip".

(** ** The header as a list

    The reference reads the header as the standard has it: elements between commas, each a
    name and parameters between semicolons; the last weight that is a number counts. *)

Definition strip (s : string) : string := trimBlankRight (skip blank s).

Definition weight (params : list string) : bool := foldl (λ q p, afterParam q (strip p)) true params.

Definition scoreElement (sc : encodingScores) (element : string) : encodingScores :=
  match skip blank element with
  | EmptyString => sc
  | e =>
      let '(name, rest) := span (λ c, negb (isSemicolon c || blank c)) e in
      match skip blank rest with
      | String c params => score name (if isSemicolon c then weight (Split semicolon params) else true) sc
      | EmptyString => score name true sc
      end
  end.

Definition scoresOf (header : string) : encodingScores := foldl scoreElement noScores (Split comma header).

(** ** Spans *)

(** The bytes of a text, and where a span stops for good. *)
Definition every (p : ascii → bool) (s : string) : Prop := Forall (λ c, p c = true) (list_ascii_of_string s).
Definition stops (p : ascii → bool) (s : string) : Prop := match s with EmptyString => True | String c _ => p c = false end.

Lemma span_app p s t : stops p t → span p (s +:+ t) = ((span p s).1, (span p s).2 +:+ t).
Proof.
  intros Ht. induction s as [|c s IH]; [rewrite append_empty_l; destruct t as [|c t]; [done|]; cbn in *; by rewrite Ht|]. rewrite append_cons. cbn [span].
  destruct (p c); [|done]. rewrite IH. by destruct (span p s).
Qed.

Lemma span_inside p s t : (span p s).2 ≠ "" → span p (s +:+ t) = ((span p s).1, (span p s).2 +:+ t).
Proof.
  induction s as [|c s IH]; [done|]. rewrite append_cons. cbn [span]. destruct (p c); [|done]. destruct (span p s) as [a b]. cbn. intros Hb. by rewrite (IH Hb).
Qed.

Lemma span_all p s : every p s → span p s = (s, "").
Proof. induction s as [|c s IH]; [done|]. intros H. inversion H as [|? ? H1 H2]; subst. cbn [span]. by rewrite H1, (IH H2). Qed.

Lemma span_ext p p' s : every (λ c, Bool.eqb (p c) (p' c)) s → span p s = span p' s.
Proof. induction s as [|c s IH]; [done|]. intros H. inversion H as [|? ? H1 H2]; subst. apply eqb_prop in H1. cbn [span]. by rewrite H1, (IH H2). Qed.

Lemma skip_every p q s : every q s → every q (skip p s).
Proof.
  unfold skip. induction s as [|c s IH]; [done|]. intros H. inversion H as [|? ? H1 H2]; subst. cbn [span]. destruct (p c); [|done]. specialize (IH H2). by destruct (span p s).
Qed.

Lemma free_every sep s : Contains s (String sep "") = false → every (λ c, negb (Ascii.eqb c sep)) s.
Proof. induction s as [|c s IH]; [constructor|]. intros [Hc Hs]%contains_char_cons. constructor; [|by apply IH]. by destruct (Ascii.eqb_spec c sep). Qed.

Lemma every_impl p q s : (∀ c, p c = true → q c = true) → every p s → every q s.
Proof. intros H Hp. by eapply Forall_impl. Qed.

Lemma every_and p q s : every p s → every q s → every (λ c, p c && q c) s.
Proof. unfold every. rewrite !Forall_forall. intros Hp Hq c Hc. apply andb_true_iff. auto. Qed.

Lemma every_append p a b : every p (a +:+ b) ↔ every p a ∧ every p b.
Proof.
  unfold every. induction a as [|c a IH]; [rewrite append_empty_l; split; [by split; [constructor|]|by intros [_ ?]]|]. rewrite append_cons. cbn [list_ascii_of_string].
  rewrite !Forall_cons, IH. tauto.
Qed.

(** ** Parameters *)

Abbreviation noComma := (λ c, negb (isComma c)).
Abbreviation inParam := (λ c, negb (isSemicolon c || isComma c)).

(** What follows an element: nothing, or a comma. *)
Definition ending (s : string) : Prop := match s with EmptyString => True | String c _ => c = comma end.

Lemma ending_stops p s : p comma = false → ending s → stops p s.
Proof. intros Hp. destruct s as [|c s]; [done|]. by intros ->. Qed.

(** One parameter before a byte that ends it. *)
Lemma param_read w rest : every noComma w → Contains w ";" = false → stops blank rest → stops inParam rest → span inParam (skip blank (w +:+ rest)) = (skip blank w, rest).
Proof.
  intros Hw Hf Hb Hp. unfold skip at 1. rewrite span_app by done. cbn [snd]. change (span blank w).2 with (skip blank w). rewrite span_app by done.
  assert (every inParam (skip blank w)) as Ha.
  { apply skip_every. eapply every_impl; [|exact (every_and _ _ _ (free_every _ _ Hf) Hw)]. intros c [H1 H2]%andb_true_iff. apply negb_true_iff in H1, H2. unfold isSemicolon. by rewrite H1, H2. }
  by rewrite (span_all _ _ Ha).
Qed.

Lemma params_read ps : ∀ fuel q tail, ending tail → every noComma ps → (String.length ps < fuel)%nat →
  parseParams fuel (String semicolon ps +:+ tail) q = (foldl (λ q p, afterParam q (strip p)) q (Split semicolon ps), tail).
Proof.
  induction ps as [w Hw|w r Hw IH] using (parts_ind semicolon); intros fuel q tail Ht Hc Hf; (destruct fuel as [|fuel]; [lia|]); rewrite append_cons; cbn [parseParams].
  - change (isSemicolon semicolon) with true. cbv iota. rewrite param_read by (done || by apply ending_stops). rewrite split_free by done. cbn [foldl]. fold (strip w).
    destruct tail as [|c tail]; [by destruct fuel|]. cbn in Ht. subst c. by destruct fuel.
  - apply every_append in Hc as [Hcw Hcr]. inversion Hcr as [|? ? _ Hcr']; subst. rewrite length_append in Hf. cbn [String.length] in Hf.
    change (isSemicolon semicolon) with true. cbv iota. rewrite append_assoc, param_read by done. rewrite split_part by done. cbn [foldl]. fold (strip w). apply IH; [done|done|lia].
Qed.

(** ** Elements *)

Definition elementWeight (rest : string) : bool :=
  match rest with String c params => if isSemicolon c then weight (Split semicolon params) else true | EmptyString => true end.

(** The name, the weight and what is left of an element before its end. *)
Lemma name_read x tail : ending tail → every noComma x →
  (let '(name, s) := span (λ c, negb (isSemicolon c || isComma c || blank c)) (x +:+ tail) in
   let s := skip blank s in let '(q, s) := parseParams (String.length s) s true in (name, q, skip noComma s)) =
  (let '(name, rest) := span (λ c, negb (isSemicolon c || blank c)) x in (name, elementWeight (skip blank rest), tail)).
Proof.
  intros Ht Hc. rewrite span_app by (by apply ending_stops). rewrite (span_ext _ (λ c, negb (isSemicolon c || blank c))).
  2: { eapply every_impl; [|exact Hc]. intros c Hcc. apply negb_true_iff in Hcc. rewrite Hcc, orb_false_r. apply eqb_reflx. }
  pose proof (skip_every (λ c, negb (isSemicolon c || blank c)) _ _ Hc) as Hr. unfold skip in Hr at 1. destruct (span _ x) as [name rest]. cbn [fst snd] in *. cbv zeta.
  unfold skip at 1 2. rewrite span_app by (by apply ending_stops). cbn [snd]. change (span blank rest).2 with (skip blank rest). apply (skip_every blank) in Hr.
  destruct (skip blank rest) as [|c ps]; cbn [elementWeight].
  - rewrite append_empty_l. assert (parseParams (String.length tail) tail true = (true, tail)) as -> by (by destruct tail as [|d tail]; [|cbn in Ht; subst d]).
    unfold skip. by destruct tail as [|d tail]; [|cbn in Ht; subst d].
  - destruct (isSemicolon c) eqn:Es.
    + apply Ascii.eqb_eq in Es. subst c. inversion Hr; subst. rewrite params_read; [|done|done|rewrite length_append; cbn [String.length]; lia].
      unfold skip. fold (weight (Split semicolon ps)). by destruct tail as [|d tail]; [|cbn in Ht; subst d].
    + assert (∀ n, parseParams n (String c ps +:+ tail) true = (true, String c ps +:+ tail)) as -> by (intros [|n]; [done|]; rewrite append_cons; cbn [parseParams]; by rewrite Es).
      unfold skip. rewrite span_app by (by apply ending_stops). by rewrite (span_all _ _ Hr).
Qed.

Lemma score_element_eq sc e : skip blank e ≠ "" → scoreElement sc e = let '(name, rest) := span (λ c, negb (isSemicolon c || blank c)) (skip blank e) in score name (elementWeight (skip blank rest)) sc.
Proof. intros He. unfold scoreElement. destruct (skip blank e); [done|]. destruct (span _ _) as [name rest]. by destruct (skip blank rest). Qed.

Lemma element_read e tail sc fuel : ending tail → every noComma e → skip blank e ≠ "" →
  parseLoop (S fuel) (e +:+ tail) sc = parseLoop fuel (match tail with String _ rest => rest | EmptyString => "" end) (scoreElement sc e).
Proof.
  intros Ht Hc Hne. rewrite score_element_eq by done. cbn [parseLoop]. assert (span (λ c, blank c || isComma c) e = span blank e) as Es.
  { apply span_ext. eapply every_impl; [|exact Hc]. intros c Hcc. apply negb_true_iff in Hcc. rewrite Hcc, orb_false_r. apply eqb_reflx. }
  unfold skip at 1. rewrite span_inside by (rewrite Es; exact Hne). rewrite Es. cbn [snd]. change (span blank e).2 with (skip blank e).
  pose proof (name_read (skip blank e) tail Ht (skip_every blank _ _ Hc)) as Hn. destruct (skip blank e) as [|c e'] eqn:Ee; [done|]. rewrite append_cons in *.
  destruct (span _ (String c (e' +:+ tail))) as [name s]. destruct (span _ (String c e')) as [name' rest]. cbv zeta in Hn |- *.
  destruct (parseParams _ (skip blank s) true) as [q s']. by injection Hn as -> -> ->.
Qed.

Lemma skip_all p a t : every p a → skip p (a +:+ t) = skip p t.
Proof.
  unfold skip. induction a as [|c a IH]; [by rewrite append_empty_l|]. intros H. inversion H as [|? ? H1 H2]; subst. rewrite append_cons. cbn [span]. rewrite H1.
  specialize (IH H2). by destruct (span p (a +:+ t)).
Qed.

Lemma skip_nothing p s : skip p s = "" → every p s.
Proof.
  unfold skip. induction s as [|c s IH]; [constructor|]. cbn [span]. destruct (p c) eqn:Hc; [|done]. intros E. constructor; [done|]. apply IH. by destruct (span p s).
Qed.

Lemma blank_element e tail sc fuel : skip blank e = "" → parseLoop fuel (e +:+ String comma tail) sc = parseLoop fuel tail sc.
Proof.
  intros He%skip_nothing. destruct fuel as [|fuel]; [done|]. cbn [parseLoop]. rewrite skip_all by (eapply every_impl; [|exact He]; intros c ->; done).
  change (String comma tail) with (String comma "" +:+ tail). by rewrite skip_all by (repeat constructor).
Qed.

Lemma scan_is_fold s : ∀ fuel sc, (String.length s < fuel)%nat → parseLoop fuel s sc = foldl scoreElement sc (Split comma s).
Proof.
  induction s as [w Hw|w r Hw IH] using (parts_ind comma); intros fuel sc Hf; pose proof (free_every _ _ Hw) as Hc.
  - rewrite split_free by done. cbn [foldl]. destruct fuel as [|fuel]; [lia|]. destruct (decide (skip blank w = "")) as [He|He].
    + unfold scoreElement. rewrite He. apply skip_nothing in He. cbn [parseLoop]. rewrite <- (append_nil_r w), skip_all; [done|]. eapply every_impl; [|exact He]. by intros c ->.
    + rewrite <- (append_nil_r w) at 1. rewrite element_read by done. by destruct fuel.
  - rewrite split_part by done. cbn [foldl]. rewrite length_append in Hf. cbn [String.length] in Hf. destruct (decide (skip blank w = "")) as [He|He].
    + rewrite blank_element by done. rewrite IH by lia. assert (scoreElement sc w = sc) as -> by (unfold scoreElement; by rewrite He). done.
    + destruct fuel as [|fuel]; [lia|]. rewrite element_read by done. apply IH. lia.
Qed.

(** The one pass over an Accept-Encoding header reads it as the list it is: the scores
    are those of its elements between commas, each with a name and the last weight among
    its parameters that is a number, one where there is none; so the chosen encoding is
    the first of brotli, zstd, gzip and deflate whose last mention has a positive weight,
    brotli where only the wildcard has, and none otherwise. *)
Theorem scan_reads_the_list header : let sc := scoresOf header in
  parseEncodingScores header = sc ∧
  PreferredEncoding header =
    (if sbr sc then EncodingBrotli else if szstd sc then EncodingZstd else if sgzip sc then EncodingGzip else if sdeflate sc then EncodingDeflate
     else if sany sc then EncodingBrotli else "").
Proof.
  intros sc. assert (parseEncodingScores header = sc) as E by (apply scan_is_fold; lia). split; [done|]. unfold PreferredEncoding. rewrite E.
  destruct (String.eqb_spec header ""); [|done]. subst header. done.
Qed.

End Parsing.

(** ** Headers *)

(** A parser that knows the weights used here. *)
Definition toyWeight (s : string) : option bool := if String.eqb s "0" then Some false else if String.eqb s "1" || String.eqb s "0.1" then Some true else None.

(** A header that refuses brotli by name and takes anything else is answered in brotli. *)
Example wildcard_overrides_refusal : PreferredEncoding toyWeight "br;q=0, *" = EncodingBrotli.
Proof. reflexivity. Qed.

(** Weights order nothing: brotli at a tenth is taken before gzip at one. *)
Example weights_do_not_order : PreferredEncoding toyWeight "gzip;q=1, br;q=0.1" = EncodingBrotli.
Proof. reflexivity. Qed.

(** A header that refuses gzip is taken to accept it. *)
Example refused_gzip_is_accepted : CanGzip "gzip;q=0" = true ∧ PreferredEncoding toyWeight "gzip;q=0" = "".
Proof. split; reflexivity. Qed.
