(* ===== verification/Chain.v ===== *)
(** * Chain: operations run in parallel under one cancellation (src/server-kit/go/chain/chain.go)

    [RunParallel] with two operations or more, as interleaved steps: the loop that starts
    the goroutines, the operations, any number of calls of [Done] on the context they
    share, the goroutine that watches the parent, and [Cancel], each cut at its atomic
    accesses. What an operation returns, and when, is open. *)

From Stdlib Require Import ZArith Lia String.
From stdpp Require Import base strings gmap list relations.
From S2P Require Import Prelude.

Open Scope string_scope.
Open Scope list_scope.

Section Chain.
Context {V E : Type} (zero : V) (ErrNilOperationRun : E).

(** [Runs]: whether the operation has a function to run. *)
Record Operation := mkOperation { Name : string; Critical : bool; Runs : bool }.
Record Result := mkResult { RName : string; Value : V; Error : option E }.

(** ** The shared context *)

Inductive once_state := Fresh | Busy (pid : nat) | Spent.

(** [published]: the channel of [done], known by the call that made it; [shut]: it is
    closed. A channel that loses the race to be published is dropped. *)
Record chainContext := mkContext { closed : bool; published : option nat; shut : bool; once : once_state }.

Definition newChainContext : chainContext := mkContext false None false Fresh.

(** Where a call of [Done] is: at the first look at [closed], at the first load of [done],
    at the swap, at the second look at [closed], at [closeDone], at the second load. *)
Inductive donePC := AtCheck | AtLoad | AtSwap | AtRecheck | AtCloseDone | AtReload.

(** The next step of a call of [Done] by [pid]: it goes on, or has a channel, [None] for
    the one that is always closed. *)
Definition stepDone (pid : nat) (c : chainContext) (pc : donePC) : chainContext * (donePC + option nat) :=
  match pc with
  | AtCheck => (c, if closed c then inr None else inl AtLoad)
  | AtLoad => (c, match published c with Some ch => inr (Some ch) | None => inl AtSwap end)
  | AtSwap => match published c with
              | None => (mkContext (closed c) (Some pid) (shut c) (once c), inl AtRecheck)
              | Some _ => (c, inl AtReload)
              end
  | AtRecheck => (c, if closed c then inl AtCloseDone else inr (Some pid))
  | AtCloseDone => (mkContext (closed c) (published c) (match published c with Some _ => true | None => shut c end) (once c), inr (Some pid))
  | AtReload => (c, inr (published c))
  end.

(** Where a call of [Cancel] is: at the once, at the store, at the load of [done], at the
    close of the channel loaded. *)
Inductive cancelPC := AtOnce | AtStore | AtDone | AtClose.

(** The next step of a call of [Cancel]: [None] when it returns. Another caller waits while
    the first is busy. *)
Definition stepCancel (pid : nat) (c : chainContext) (pc : cancelPC) : option (chainContext * option cancelPC) :=
  match pc with
  | AtOnce => match once c with
              | Fresh => Some (mkContext (closed c) (published c) (shut c) (Busy pid), Some AtStore)
              | Busy _ => None
              | Spent => Some (c, None)
              end
  | AtStore => Some (mkContext true (published c) (shut c) (once c), Some AtDone)
  | AtDone => match published c with
              | Some _ => Some (c, Some AtClose)
              | None => Some (mkContext (closed c) (published c) (shut c) Spent, None)
              end
  | AtClose => Some (mkContext (closed c) (published c) true Spent, None)
  end.

(** [Err], given that of the parent. *)
Definition Err (c : chainContext) (canceled : E) (parentErr : option E) : option E := if closed c then Some canceled else parentErr.

(** ** Runs *)

(** Who cancels: an operation, the goroutine that watches the parent, or the deferred call. *)
Inductive owner := ByOp (i : nat) | ByParent | ByMain.

Inductive proc :=
| Spawning (k : nat) | Waiting | Running (i : nat) | Cancelling (pc : cancelPC) (o : owner) | Over (o : owner) | Doing (pc : donePC) | Got (ch : option nat).

Record world := mkWorld { ctx : chainContext; procs : gmap nat proc; results : list Result; parentDone : bool; returned : gmap nat (V * option E) }.

Definition setProc (w : world) (pid : nat) (p : proc) : world := mkWorld (ctx w) (<[pid := p]> (procs w)) (results w) (parentDone w) (returned w).
Definition setCtx (w : world) (c : chainContext) : world := mkWorld c (procs w) (results w) (parentDone w) (returned w).

(** Process 0 runs [RunParallel], process [S i] operation [i]. *)
Definition start (operations : list Operation) : world :=
  mkWorld newChainContext {[0%nat := Spawning 0]} (replicate (length operations) (mkResult "" zero None)) false ∅.

(** The end of an operation: its result is written to its own slot. *)
Definition finishOperation (w : world) (i : nat) (op : Operation) (v : V) (err : option E) : world :=
  let w := mkWorld (ctx w) (procs w) (<[i := mkResult (Name op) v err]> (results w)) (parentDone w) (<[i := (v, err)]> (returned w)) in
  setProc w (S i) (match err with Some _ => if Critical op then Cancelling AtOnce (ByOp i) else Over (ByOp i) | None => Over (ByOp i) end).

Inductive step (operations : list Operation) : world → world → Prop :=
| spawn w k op : procs w !! 0%nat = Some (Spawning k) → operations !! k = Some op →
    step operations w (mkWorld (ctx w) (<[S k := Running k]> (<[0%nat := Spawning (S k)]> (procs w))) (<[k := mkResult (Name op) zero None]> (results w)) (parentDone w) (returned w))
| wait w k : procs w !! 0%nat = Some (Spawning k) → k = length operations → step operations w (setProc w 0 Waiting)
| op_missing w i op : procs w !! S i = Some (Running i) → operations !! i = Some op → Runs op = false → step operations w (finishOperation w i op zero (Some ErrNilOperationRun))
| op_returns w i op v err : procs w !! S i = Some (Running i) → operations !! i = Some op → Runs op = true → step operations w (finishOperation w i op v err)
| all_over w : procs w !! 0%nat = Some Waiting → (∀ i, (i < length operations)%nat → procs w !! S i = Some (Over (ByOp i))) → step operations w (setProc w 0 (Cancelling AtOnce ByMain))
| cancel_step w pid pc o c next : procs w !! pid = Some (Cancelling pc o) → stepCancel pid (ctx w) pc = Some (c, next) →
    step operations w (setProc (setCtx w c) pid (match next with Some pc => Cancelling pc o | None => Over o end))
| call_done w pid : procs w !! pid = None → (length operations < pid)%nat → step operations w (setProc w pid (Doing AtCheck))
| done_step w pid pc : procs w !! pid = Some (Doing pc) →
    step operations w (setProc (setCtx w (stepDone pid (ctx w) pc).1) pid (match (stepDone pid (ctx w) pc).2 with inl pc => Doing pc | inr ch => Got ch end))
| parent_ends w : step operations w (mkWorld (ctx w) (procs w) (results w) true (returned w))
| parent_watched w pid : procs w !! pid = None → (length operations < pid)%nat → parentDone w = true → step operations w (setProc w pid (Cancelling AtOnce ByParent)).

Definition reachable (operations : list Operation) (w : world) : Prop := rtc (step operations) (start operations) w.

(** ** Looking at the results *)

Definition failed (r : Result) : bool := match Error r with Some _ => true | None => false end.

Definition HasCriticalFailureOrdered (operations : list Operation) (rs : list Result) : bool := existsb (λ '(op, r), Critical op && failed r) (zip operations rs).

Definition HasCriticalFailure (operations : list Operation) (rs : list Result) : bool :=
  let critical : gmap string bool := foldl (λ m op, <[Name op := Critical op]> m) ∅ operations in
  existsb (λ r, failed r && default false (critical !! RName r)) rs.

(** ** The protocol of cancellation *)

Definition calm (p : proc) : bool :=
  match p with Cancelling AtOnce _ => true | Cancelling _ _ => false | Doing (AtRecheck | AtCloseDone | AtReload) => false | Got (Some _) => false | _ => true end.

(** What a process knows of the context. *)
Definition knows (c : chainContext) (pid : nat) (p : proc) : Prop :=
  match p with
  | Cancelling AtStore _ => once c = Busy pid ∧ closed c = false
  | Cancelling AtDone _ => once c = Busy pid ∧ closed c = true
  | Cancelling AtClose _ => once c = Busy pid ∧ closed c = true ∧ published c ≠ None
  | Doing AtRecheck => published c = Some pid
  | Doing AtCloseDone => published c = Some pid ∧ closed c = true
  | Doing AtReload => published c ≠ None
  | Got (Some ch) => published c = Some ch
  | _ => True
  end.

Record protocol (c : chainContext) (ps : gmap nat proc) : Prop := {
  pr_knows : ∀ pid p, ps !! pid = Some p → knows c pid p;
  pr_once : match once c with Fresh => closed c = false | Spent => closed c = true | Busy b => ∃ pc o, ps !! b = Some (Cancelling pc o) ∧ pc ≠ AtOnce end;
  pr_shut : shut c = true → closed c = true ∧ published c ≠ None;
  pr_lost : ∀ ch, once c = Spent → published c = Some ch → shut c = false → ps !! ch = Some (Doing AtRecheck) ∨ ps !! ch = Some (Doing AtCloseDone)
}.

Lemma calm_knows c pid p : calm p = true → knows c pid p.
Proof. by destruct p as [| | |[]| |[]|[]]. Qed.

(** A process that neither held nor gains a part in the protocol. *)
Lemma protocol_calm c ps pid p : protocol c ps → (∀ q, ps !! pid = Some q → calm q = true) → calm p = true → protocol c (<[pid := p]> ps).
Proof.
  intros [Hk Ho Hs Hl] Hq Hp. split; [|destruct (once c)|done|].
  - intros pid' p' [[<- <-]|[Hne H]]%lookup_insert_Some; [by apply calm_knows|by apply Hk].
  - done.
  - destruct Ho as (pc & o & Hb & Hne). exists pc, o. rewrite lookup_insert_ne; [done|]. intros ->. specialize (Hq _ Hb). by destruct pc.
  - done.
  - intros ch H1 H2 H3. destruct (decide (pid = ch)) as [->|Hne]; [|rewrite lookup_insert_ne by done; by apply Hl]. by destruct (Hl ch H1 H2 H3) as [H|H]; specialize (Hq _ H).
Qed.

Lemma protocol_cancel c ps pid pc o c' next : protocol c ps → ps !! pid = Some (Cancelling pc o) → stepCancel pid c pc = Some (c', next) →
  protocol c' (<[pid := match next with Some pc => Cancelling pc o | None => Over o end]> ps) ∧ (next = None → once c' = Spent).
Proof.
  intros Hpr Hp Hst. pose proof (pr_knows _ _ Hpr) as Hk. pose proof (Hk _ _ Hp) as Hme. destruct pc; cbn [stepCancel knows] in *.
  - destruct (once c) eqn:Eo; [|done|].
    + injection Hst as <- <-. split; [|done]. split; cbn; [|by eexists _, _; rewrite lookup_insert_eq|apply Hpr|done].
      pose proof (pr_once _ _ Hpr) as Hc. rewrite Eo in Hc. intros pid' p' [[<- <-]|[Hne H]]%lookup_insert_Some; [done|]. specialize (Hk _ _ H).
      destruct p' as [| | |[]| |[]|[]]; cbn in *; naive_solver congruence.
    + injection Hst as <- <-. split; [|done]. apply protocol_calm; [done|by rewrite Hp; intros ? [= <-]|done].
  - injection Hst as <- <-. destruct Hme as [Eb Ec]. split; [|done]. split; cbn.
    + intros pid' p' [[<- <-]|[Hne H]]%lookup_insert_Some; [done|]. specialize (Hk _ _ H). destruct p' as [| | |[]| |[]|[]]; cbn in *; naive_solver congruence.
    + rewrite Eb. by eexists _, _; rewrite lookup_insert_eq.
    + intros Hs. split; [done|]. by destruct (pr_shut _ _ Hpr Hs).
    + congruence.
  - destruct Hme as [Eb Ec]. destruct (published c) as [ch|] eqn:Ep; injection Hst as <- <-; (split; [|done]).
    + split; cbn.
      * intros pid' p' [[<- <-]|[Hne H]]%lookup_insert_Some; [cbn; by rewrite Ep|by apply Hk].
      * rewrite Eb. by eexists _, _; rewrite lookup_insert_eq.
      * apply Hpr.
      * congruence.
    + split; cbn; [|done| |congruence].
      * intros pid' p' [[<- <-]|[Hne H]]%lookup_insert_Some; [done|]. specialize (Hk _ _ H). destruct p' as [| | |[]| |[]|[]]; cbn in *; naive_solver congruence.
      * intros Hs. by destruct (pr_shut _ _ Hpr Hs).
  - destruct Hme as (Eb & Ec & Ep). injection Hst as <- <-. split; [|done]. split; cbn; [|done|done|done].
    intros pid' p' [[<- <-]|[Hne H]]%lookup_insert_Some; [done|]. specialize (Hk _ _ H). destruct p' as [| | |[]| |[]|[]]; cbn in *; naive_solver congruence.
Qed.

Lemma protocol_done c ps pid pc : protocol c ps → ps !! pid = Some (Doing pc) →
  let '(c', r) := stepDone pid c pc in protocol c' (<[pid := match r with inl pc => Doing pc | inr ch => Got ch end]> ps) ∧ once c' = once c ∧ closed c' = closed c.
Proof.
  intros Hpr Hp. pose proof (pr_knows _ _ Hpr) as Hk. pose proof (Hk _ _ Hp) as Hme.
  assert (∀ p, knows c pid p → (once c = Spent → published c = Some pid → shut c = false → p = Doing AtRecheck ∨ p = Doing AtCloseDone) → protocol c (<[pid := p]> ps)) as Hsame.
  { intros p Hkn Hlost. destruct Hpr as [_ Ho Hs Hl]. split; [|destruct (once c)|done|].
    - intros pid' p' [[<- <-]|[Hne H]]%lookup_insert_Some; [done|by apply Hk].
    - done.
    - destruct Ho as (pc' & o & Hb & Hne). exists pc', o. rewrite lookup_insert_ne; [done|]. intros ->. congruence.
    - done.
    - intros ch H1 H2 H3. destruct (decide (pid = ch)) as [->|Hne]; [rewrite lookup_insert_eq; by destruct (Hlost H1 H2 H3) as [->| ->]; [left|right]|]. rewrite lookup_insert_ne by done. by apply Hl. }
  assert (calm (Doing pc) = true → once c = Spent → published c = Some pid → shut c = false → False) as Hcalm.
  { intros Hc H1 H2 H3. destruct (pr_lost _ _ Hpr pid H1 H2 H3) as [H|H]; rewrite Hp in H; injection H as ->; done. }
  destruct pc; cbn [stepDone knows] in *.
  - split; [|done]. apply Hsame; destruct (closed c); try done; intros; by destruct Hcalm.
  - split; [|done]. destruct (published c) as [ch|] eqn:Ep; apply Hsame; try done; intros; by destruct Hcalm.
  - destruct (published c) as [ch|] eqn:Ep; [split; [|done]; apply Hsame; cbn; [by rewrite Ep|]; intros; by destruct Hcalm|]. split; [|done]. split; cbn.
    + intros pid' p' [[<- <-]|[Hne H]]%lookup_insert_Some; [done|]. specialize (Hk _ _ H). destruct p' as [| | |[]| |[]|[]]; cbn in *; naive_solver congruence.
    + pose proof (pr_once _ _ Hpr) as Ho. destruct (once c); [done| |done]. destruct Ho as (pc' & o & Hb & Hne). exists pc', o. rewrite lookup_insert_ne; [done|]. intros ->. congruence.
    + intros Hs. destruct (pr_shut _ _ Hpr Hs). congruence.
    + intros ch _ [= <-] _. left. apply lookup_insert_eq.
  - split; [|done]. destruct (closed c) eqn:Ec; apply Hsame; [done|by right|done|]. intros Hs. pose proof (pr_once _ _ Hpr) as Ho. rewrite Hs in Ho. congruence.
  - destruct Hme as [Ep Ec]. rewrite Ep. split; [|done]. split; cbn; [|apply (pr_once _ _) in Hpr; destruct (once c); [done| |done]|done|done].
    + intros pid' p' [[<- <-]|[Hne H]]%lookup_insert_Some; [done|]. specialize (Hk _ _ H). destruct p' as [| | |[]| |[]|[]]; cbn in *; naive_solver congruence.
    + destruct Hpr as (pc' & o & Hb & Hne). exists pc', o. rewrite lookup_insert_ne; [done|]. intros ->. congruence.
  - split; [|done]. apply Hsame; [cbn; by destruct (published c)|]. intros H1 H2 H3. destruct (pr_lost _ _ Hpr pid H1 H2 H3) as [H|H]; congruence.
Qed.

(** ** The run *)

Section Run.
Context (operations : list Operation).

Definition ownedAt (pid : nat) (o : owner) : Prop := match o with ByOp i => pid = S i ∧ (i < length operations)%nat | ByParent => (length operations < pid)%nat | ByMain => pid = 0%nat end.

Definition placed (pid : nat) (p : proc) : Prop :=
  match p with
  | Spawning k => pid = 0%nat ∧ (k ≤ length operations)%nat
  | Waiting => pid = 0%nat
  | Running i => pid = S i ∧ (i < length operations)%nat
  | Cancelling _ o | Over o => ownedAt pid o
  | Doing _ | Got _ => (length operations < pid)%nat
  end.

(** Operation [i] is critical and failed. *)
Definition criticalFailure (w : world) (i : nat) : Prop := ∃ op v e, operations !! i = Some op ∧ Critical op = true ∧ returned w !! i = Some (v, Some e).

Definition allOver (w : world) : Prop := ∀ i, (i < length operations)%nat → procs w !! S i = Some (Over (ByOp i)).

(** What gives an owner reason to cancel. *)
Definition caused (w : world) (o : owner) : Prop := match o with ByOp i => criticalFailure w i | ByParent => parentDone w = true | ByMain => allOver w end.

(** The slot of an operation that has ended. *)
Definition recorded (w : world) (i : nat) : Prop :=
  ∃ op v e, operations !! i = Some op ∧ returned w !! i = Some (v, e) ∧ results w !! i = Some (mkResult (Name op) v e) ∧ (Runs op = false → v = zero ∧ e = Some ErrNilOperationRun).

Record run_ok (w : world) : Prop := {
  ro_protocol : protocol (ctx w) (procs w);
  ro_placed : ∀ pid p, procs w !! pid = Some p → placed pid p;
  ro_spawning : ∀ k i, procs w !! 0%nat = Some (Spawning k) → (k ≤ i < length operations)%nat → procs w !! S i = None;
  ro_length : length (results w) = length operations;
  ro_recorded : ∀ i p, procs w !! S i = Some p → (∃ pc, p = Cancelling pc (ByOp i)) ∨ p = Over (ByOp i) → recorded w i;
  ro_running : ∀ i, procs w !! S i = Some (Running i) ∨ procs w !! S i = None → (i < length operations)%nat → returned w !! i = None;
  ro_caused : ∀ pid pc o, procs w !! pid = Some (Cancelling pc o) → caused w o;
  ro_closed : closed (ctx w) = true → ∃ o, caused w o;
  ro_main : procs w !! 0%nat = Some (Over ByMain) → allOver w;
  ro_over : ∀ pid o, procs w !! pid = Some (Over o) → match o with ByOp i => criticalFailure w i | _ => True end → once (ctx w) = Spent
}.

Definition notOver (p : option proc) : Prop := ∀ o, p ≠ Some (Over o).

Lemma all_over_insert w pid p w' : allOver w → notOver (procs w !! pid) → procs w' = <[pid := p]> (procs w) → allOver w'.
Proof. intros Ha Hn Ep i Hi. rewrite Ep, lookup_insert_ne; [by apply Ha|]. intros ->. exact (Hn _ (Ha i Hi)). Qed.

(** One process moves and the results stay as they are. *)
Lemma move_ok w pid p c : run_ok w → notOver (procs w !! pid) → (procs w !! pid = None → (length operations < pid)%nat) → protocol c (<[pid := p]> (procs w)) → placed pid p →
  match p with Spawning _ | Running _ => False | Cancelling _ o => caused w o ∧ (∀ i, o = ByOp i → recorded w i)
             | Over o => caused w o ∧ once c = Spent ∧ (∀ i, o = ByOp i → recorded w i) | _ => True end →
  (once (ctx w) = Spent → once c = Spent) → (closed c = true → ∃ o, caused w o) → run_ok (setProc (setCtx w c) pid p).
Proof.
  intros Hok Hn Hnone Hpr Hpl Hp Hsp Hcl. assert (∀ o, caused w o → caused (setProc (setCtx w c) pid p) o) as Hmono.
  { intros [i| |]; [done|done|]. intros Ha. by eapply all_over_insert. }
  split; cbn [ctx procs results returned parentDone setProc setCtx].
  - done.
  - intros pid' p' [[<- <-]|[Hne H]]%lookup_insert_Some; [done|by apply Hok].
  - intros k i H0 Hi. destruct (decide (pid = 0%nat)) as [->|Hz]; [rewrite lookup_insert_eq in H0; injection H0 as ->; done|]. rewrite lookup_insert_ne in H0 by done.
    pose proof (ro_spawning w Hok k i H0 Hi) as Hs. rewrite lookup_insert_ne; [done|]. intros ->. specialize (Hnone Hs). lia.
  - apply Hok.
  - intros i p' [[-> <-]|[Hne H]]%lookup_insert_Some Hc; [|exact (ro_recorded w Hok i p' H Hc)]. destruct Hc as [[pc ->]| ->]; [by apply Hp|by apply Hp].
  - intros i Hi Hlt. apply (ro_running w Hok i); [|done]. destruct (decide (pid = S i)) as [->|Hne]; [|by rewrite lookup_insert_ne in Hi].
    rewrite lookup_insert_eq in Hi. destruct Hi as [Hi|Hi]; [injection Hi as ->; done|done].
  - intros pid' pc o [[<- ->]|[Hne H]]%lookup_insert_Some; apply Hmono; [by apply Hp|by eapply ro_caused].
  - intros Hc. destruct (Hcl Hc) as [o Ho]. exists o. by apply Hmono.
  - intros [[-> ->]|[Hne H]]%lookup_insert_Some; [by apply (Hmono ByMain), Hp|]. apply (Hmono ByMain). by apply (ro_main w Hok).
  - intros pid' o [[<- ->]|[Hne H]]%lookup_insert_Some Hc; [apply Hp|]. apply Hsp. exact (ro_over w Hok pid' o H Hc).
Qed.

Lemma fresh_run_ok : run_ok (start operations).
Proof.
  assert (∀ pid p, procs (start operations) !! pid = Some p → pid = 0%nat ∧ p = Spawning 0) as Hs by (intros pid p; cbn [procs start]; intros [<- <-]%lookup_singleton_Some; done).
  split; cbn [ctx results start returned].
  - split; cbn; [|done|done|done]. intros pid p H. apply Hs in H as [-> ->]. done.
  - intros pid p [-> ->]%Hs. cbn. lia.
  - intros k i _ _. cbn [procs start]. by rewrite lookup_singleton_ne.
  - apply length_replicate.
  - intros i p [? _]%Hs. done.
  - intros i _ _. apply lookup_empty.
  - intros pid pc o [_ ?]%Hs. done.
  - done.
  - intros [_ ?]%Hs. done.
  - intros pid o [_ ?]%Hs. done.
Qed.

Lemma no_failure_yet w i : run_ok w → procs w !! S i = Some (Running i) → (i < length operations)%nat → ¬ criticalFailure w i.
Proof. intros Hok Hr Hi (op & v & e & _ & _ & Hret). rewrite (ro_running w Hok i (or_introl Hr) Hi) in Hret. done. Qed.

(** An operation ends. *)
Lemma operation_end_ok w i op v err : run_ok w → procs w !! S i = Some (Running i) → operations !! i = Some op → (Runs op = false → v = zero ∧ err = Some ErrNilOperationRun) →
  run_ok (finishOperation w i op v err).
Proof.
  intros Hok Hr Hop Hruns. pose proof (lookup_lt_Some _ _ _ Hop) as Hi. unfold finishOperation. set (p := match err with Some _ => _ | None => _ end).
  set (w' := setProc _ _ _). assert (procs w' = <[S i := p]> (procs w)) as Ep by done. assert (notOver (procs w !! S i)) as Hn by (rewrite Hr; by intros o).
  assert (∀ j, criticalFailure w j → criticalFailure w' j) as Hcf.
  { intros j (op' & v' & e' & H1 & H2 & H3). exists op', v', e'. split_and!; [done|done|]. cbn. rewrite lookup_insert_ne; [done|]. intros <-.
    by rewrite (ro_running w Hok i (or_introl Hr) Hi) in H3. }
  assert (∀ o, caused w o → caused w' o) as Hmono by (intros [j| |]; [apply Hcf|done|intros Ha; by eapply all_over_insert]).
  assert (∀ j, i ≠ j → recorded w j → recorded w' j) as Hrec.
  { intros j Hne (op' & v' & e' & H1 & H2 & H3 & H4). exists op', v', e'. cbn. rewrite lookup_insert_ne, list_lookup_insert_ne by done. done. }
  assert (recorded w' i) as Hrec_i.
  { exists op, v, err. cbn. rewrite lookup_insert_eq, list_lookup_insert_eq by (rewrite (ro_length w Hok); done). done. }
  assert (∀ pc o, p = Cancelling pc o → pc = AtOnce ∧ o = ByOp i ∧ caused w' o) as Hcan.
  { unfold p. intros pc o. destruct err as [e|] eqn:Ee; [|done]. destruct (Critical op) eqn:Ec; [|done]. intros [= <- <-]. split_and!; [done|done|]. exists op, v, e. cbn. by rewrite lookup_insert_eq. }
  assert (∀ o, p = Over o → o = ByOp i ∧ ¬ criticalFailure w' i) as Hov.
  { unfold p. intros o Eo. assert (o = ByOp i ∧ (err = None ∨ Critical op = false)) as [-> Hc] by (destruct err as [e|]; [destruct (Critical op)|]; [done|injection Eo as <-; auto..]). split; [done|].
    intros (op' & v' & e' & H1 & H2 & H3). cbn in H3. rewrite lookup_insert_eq in H3. injection H3 as _ H3. rewrite Hop in H1. injection H1 as <-. destruct Hc; congruence. }
  split; try rewrite Ep.
  - cbn [ctx w' setProc]. apply protocol_calm; [apply Hok|rewrite Hr; by intros ? [= <-]|]. unfold p. destruct err; [by destruct (Critical op)|done].
  - intros pid' p' [[<- <-]|[Hne H]]%lookup_insert_Some; [|by apply Hok]. unfold p. destruct err; [destruct (Critical op)|]; done.
  - intros k j H0 Hj. rewrite lookup_insert_ne in H0 by done. pose proof (ro_spawning w Hok k j H0 Hj) as Hs. rewrite lookup_insert_ne; [done|]. congruence.
  - cbn. by rewrite length_insert, (ro_length w Hok).
  - intros j p' [[Ej <-]|[Hne H]]%lookup_insert_Some Hc; [injection Ej as <-; done|]. apply Hrec; [congruence|]. exact (ro_recorded w Hok j p' H Hc).
  - intros j Hj Hlt. cbn [returned w' setProc]. destruct (decide (i = j)) as [<-|Hne].
    + rewrite lookup_insert_eq in Hj. unfold p in Hj. destruct err; [destruct (Critical op)|]; destruct Hj as [Hj|Hj]; discriminate Hj.
    + rewrite lookup_insert_ne in Hj by congruence. rewrite lookup_insert_ne by done. by apply (ro_running w Hok).
  - intros pid' pc o [[<- Hc]|[Hne H]]%lookup_insert_Some; [by apply (Hcan pc)|]. apply Hmono. by eapply ro_caused.
  - intros Hc. destruct (ro_closed w Hok Hc) as [o Ho]. exists o. by apply Hmono.
  - rewrite lookup_insert_ne by done. intros H. apply (Hmono ByMain). by apply (ro_main w Hok).
  - intros pid' o [[<- Ho]|[Hne H]]%lookup_insert_Some Hc; [destruct (Hov o Ho) as [-> Hno]; done|]. apply (ro_over w Hok pid' o H). destruct o as [j| |]; [|done|done].
    destruct (ro_placed w Hok _ _ H) as [-> Hj]. destruct Hc as (op' & v' & e' & H1 & H2 & H3). exists op', v', e'. cbn in H3. rewrite lookup_insert_ne in H3 by congruence. done.
Qed.

(** The loop starts an operation. *)
Lemma spawn_ok w k op : run_ok w → procs w !! 0%nat = Some (Spawning k) → operations !! k = Some op →
  run_ok (mkWorld (ctx w) (<[S k := Running k]> (<[0%nat := Spawning (S k)]> (procs w))) (<[k := mkResult (Name op) zero None]> (results w)) (parentDone w) (returned w)).
Proof.
  intros Hok H0 Hop. pose proof (lookup_lt_Some _ _ _ Hop) as Hk. pose proof (ro_spawning w Hok k k H0 ltac:(lia)) as Hnone. set (w' := mkWorld _ _ _ _ _).
  assert (¬ allOver w) as Hna by (intros Ha; rewrite (Ha k Hk) in Hnone; done).
  assert (∀ o, caused w o → caused w' o) as Hmono by (intros [j| |]; done).
  assert (∀ pid p, procs w' !! pid = Some p → (pid = S k ∧ p = Running k) ∨ (pid = 0%nat ∧ p = Spawning (S k)) ∨ (pid ≠ 0%nat ∧ pid ≠ S k ∧ procs w !! pid = Some p)) as Hin.
  { intros pid p. cbn. intros [[<- <-]|[Hne [[<- <-]|[Hne' H]]%lookup_insert_Some]]%lookup_insert_Some; [by left|by right; left|by right; right]. }
  split; cbn [ctx results returned w'].
  - apply protocol_calm; [apply protocol_calm; [apply Hok|rewrite H0; by intros ? [= <-]|done]|rewrite lookup_insert_ne, Hnone by done; done|done].
  - intros pid p [[-> ->]|[[-> ->]|(_ & _ & H)]]%Hin; [done|cbn; lia|by apply Hok].
  - intros k' j [[? _]|[[_ [= ->]]|(? & _)]]%Hin Hj; [done| |done]. cbn [procs w']. rewrite !lookup_insert_ne by lia. apply (ro_spawning w Hok k j H0). lia.
  - by rewrite length_insert, (ro_length w Hok).
  - intros j p [[_ ->]|[[? _]|(_ & Hne & H)]]%Hin Hc; [by destruct Hc as [[? ?]|?]|done|]. destruct (ro_recorded w Hok j p H Hc) as (op' & v & e & H1 & H2 & H3 & H4).
    exists op', v, e. cbn. rewrite list_lookup_insert_ne by congruence. done.
  - intros j Hj Hlt. apply (ro_running w Hok j); [|done]. destruct (decide (k = j)) as [->|Hne]; [by right|]. cbn [procs w'] in Hj. by rewrite !lookup_insert_ne in Hj by congruence.
  - intros pid pc o [[_ ?]|[[_ ?]|(_ & _ & H)]]%Hin; [done|done|]. apply Hmono. by eapply ro_caused.
  - intros Hc. destruct (ro_closed w Hok Hc) as [o Ho]. exists o. by apply Hmono.
  - intros [[? _]|[[_ ?]|(? & _)]]%Hin; done.
  - intros pid o [[_ ?]|[[_ ?]|(_ & _ & H)]]%Hin Hc; [done|done|]. exact (ro_over w Hok pid o H Hc).
Qed.

(** The owner of a process that cancels has its slot written. *)
Lemma owner_recorded w pid pc o : run_ok w → procs w !! pid = Some (Cancelling pc o) → ∀ i, o = ByOp i → recorded w i.
Proof. intros Hok H i ->. destruct (ro_placed w Hok _ _ H) as [-> _]. eapply (ro_recorded w Hok); [exact H|]. left. by eexists. Qed.

Lemma step_cancel_keeps pid c pc c' next : stepCancel pid c pc = Some (c', next) → (once c = Spent → once c' = Spent) ∧ (closed c' = true → closed c = true ∨ pc = AtStore).
Proof. intros H. destruct pc; cbn in H; [destruct (once c) eqn:?|..|]; try (destruct (published c)); simplify_eq; cbn; split; try done; auto; congruence. Qed.

Lemma run_step_ok w w' : run_ok w → step operations w w' → run_ok w'.
Proof.
  intros Hok Hs. revert Hok. destruct Hs as [w0 k op H0 Hop|w0 k H0 Hk|w0 i op Hr Hop Hn|w0 i op v err Hr Hop Hy|w0 H0 Ha|w0 pid pc o c next Hp Hst|w0 pid Hp Hlt|w0 pid pc Hp|w0|w0 pid Hp Hlt Hpd]; intros Hok.
  - by apply (spawn_ok w0 k op).
  - change (run_ok (setProc (setCtx w0 (ctx w0)) 0 Waiting)). apply move_ok; rewrite ?H0; try done; [apply protocol_calm; [apply Hok|rewrite H0; by intros ? [= <-]|done]|apply Hok].
  - apply operation_end_ok; done.
  - apply operation_end_ok; [done|done|done|congruence].
  - change (run_ok (setProc (setCtx w0 (ctx w0)) 0 (Cancelling AtOnce ByMain))).
    apply move_ok; rewrite ?H0; try done; [apply protocol_calm; [apply Hok|rewrite H0; by intros ? [= <-]|done]|apply Hok].
  - destruct (protocol_cancel _ _ _ _ _ _ _ (ro_protocol w0 Hok) Hp Hst) as [Hpr Hsp]. destruct (step_cancel_keeps _ _ _ _ _ Hst) as [H1 H2].
    pose proof (ro_caused w0 Hok _ _ _ Hp) as Hc. pose proof (owner_recorded w0 _ _ _ Hok Hp) as Hrec. pose proof (ro_placed w0 Hok _ _ Hp) as Hpl.
    apply move_ok; rewrite ?Hp; try done; [by destruct next|by destruct next; auto|]. intros Hcl. destruct (H2 Hcl) as [?|_]; [by apply Hok|by exists o].
  - change (run_ok (setProc (setCtx w0 (ctx w0)) pid (Doing AtCheck))). apply move_ok; rewrite ?Hp; try done; [apply protocol_calm; [apply Hok|by rewrite Hp|done]|apply Hok].
  - pose proof (protocol_done _ _ _ _ (ro_protocol w0 Hok) Hp) as Hpr. pose proof (ro_placed w0 Hok _ _ Hp) as Hpl. destruct (stepDone pid (ctx w0) pc) as [c r]. destruct Hpr as (Hpr & E1 & E2).
    cbn [fst snd]. apply move_ok; rewrite ?Hp; try done; [by destruct r|by destruct r|by rewrite E1|rewrite E2; apply Hok].
  - destruct Hok as [R1 R2 R3 R4 R5 R6 R7 R8 R9 R10]. split; try done; cbn.
    + intros pid pc o H. specialize (R7 pid pc o H). by destruct o.
    + intros Hc. destruct (R8 Hc) as [o Ho]. exists o. by destruct o.
  - change (run_ok (setProc (setCtx w0 (ctx w0)) pid (Cancelling AtOnce ByParent))). apply move_ok; rewrite ?Hp; try done; [apply protocol_calm; [apply Hok|by rewrite Hp|done]|apply Hok].
Qed.

Lemma reachable_run_ok w : reachable operations w → run_ok w.
Proof.
  intros H. assert (∀ u v, rtc (step operations) u v → run_ok u → run_ok v) as Hr by (induction 1; [done|]; eauto using run_step_ok). eapply Hr; [exact H|apply fresh_run_ok].
Qed.

(** ** What a finished run shows *)

Lemma critical_ordered w : run_ok w → allOver w → (HasCriticalFailureOrdered operations (results w) = true ↔ ∃ i, criticalFailure w i).
Proof.
  intros Hok Ha. unfold HasCriticalFailureOrdered. rewrite existsb_exists. split.
  - intros ([op r] & Hin & Hc). apply list_elem_of_In, list_elem_of_lookup in Hin as [i Hi]. apply lookup_zip_Some in Hi as [Hop Hr]. apply andb_true_iff in Hc as [Hc Hf].
    destruct (ro_recorded w Hok i _ (Ha i (lookup_lt_Some _ _ _ Hop)) (or_intror eq_refl)) as (op' & v & e & H1 & H2 & H3 & _). rewrite Hop in H1. injection H1 as <-. rewrite Hr in H3. injection H3 as ->.
    exists i, op, v. cbn in Hf. destruct e as [e|]; [|done]. by exists e.
  - intros (i & op & v & e & Hop & Hc & Hret). destruct (ro_recorded w Hok i _ (Ha i (lookup_lt_Some _ _ _ Hop)) (or_intror eq_refl)) as (op' & v' & e' & H1 & H2 & H3 & _).
    rewrite Hop in H1. injection H1 as <-. rewrite Hret in H2. injection H2 as <- <-. exists (op, mkResult (Name op) v (Some e)). rewrite Hc. split; [|done].
    apply list_elem_of_In, list_elem_of_lookup. exists i. apply lookup_zip_Some. done.
Qed.

Lemma critical_names ops (m : gmap string bool) name : name ∉ map Name ops → foldl (λ m op, <[Name op := Critical op]> m) m ops !! name = m !! name.
Proof. revert m. induction ops as [|op ops IH]; intros m Hn; [done|]. cbn in *. apply not_elem_of_cons in Hn as [H1 H2]. rewrite IH by done. by rewrite lookup_insert_ne. Qed.

Lemma critical_lookup ops (m : gmap string bool) op : NoDup (map Name ops) → op ∈ ops → foldl (λ m op, <[Name op := Critical op]> m) m ops !! Name op = Some (Critical op).
Proof.
  revert m. induction ops as [|op' ops IH]; intros m Hd Hin; [by apply not_elem_of_nil in Hin|]. cbn in *. apply NoDup_cons in Hd as [Hn Hd].
  apply elem_of_cons in Hin as [->|Hin]; [|by apply IH]. rewrite critical_names by done. apply lookup_insert_eq.
Qed.

(** Looking by name agrees with looking by position when the names differ. *)
Lemma by_name_agrees w : run_ok w → allOver w → NoDup (map Name operations) → HasCriticalFailure operations (results w) = HasCriticalFailureOrdered operations (results w).
Proof.
  intros Hok Ha Hd. apply eq_true_iff_eq. unfold HasCriticalFailure, HasCriticalFailureOrdered. rewrite !existsb_exists.
  assert (∀ i op r, operations !! i = Some op → results w !! i = Some r → RName r = Name op) as Hname.
  { intros i op r Hop Hr. destruct (ro_recorded w Hok i _ (Ha i (lookup_lt_Some _ _ _ Hop)) (or_intror eq_refl)) as (op' & v & e & H1 & _ & H3 & _). by simplify_eq. }
  split.
  - intros (r & Hin & Hc). apply list_elem_of_In, list_elem_of_lookup in Hin as [i Hr]. destruct (lookup_lt_is_Some_2 operations i) as [op Hop]; [rewrite <- (ro_length w Hok); by eapply lookup_lt_Some|].
    apply andb_true_iff in Hc as [Hf Hc]. rewrite (Hname i op r Hop Hr), (critical_lookup _ _ op Hd) in Hc by (by eapply list_elem_of_lookup_2). exists (op, r).
    split; [apply list_elem_of_In, list_elem_of_lookup; exists i; by apply lookup_zip_Some|]. cbn in Hc. by rewrite Hf, Hc.
  - intros ([op r] & Hin & Hc). apply list_elem_of_In, list_elem_of_lookup in Hin as [i Hi]. apply lookup_zip_Some in Hi as [Hop Hr]. apply andb_true_iff in Hc as [Hc Hf]. exists r.
    split; [apply list_elem_of_In; by eapply list_elem_of_lookup_2|]. rewrite (Hname i op r Hop Hr), (critical_lookup _ _ op Hd) by (by eapply list_elem_of_lookup_2). by rewrite Hf, Hc.
Qed.

(** The call that published the channel closes it when it moves on. *)
Lemma publisher_closes w ch : run_ok w → closed (ctx w) = true → published (ctx w) = Some ch → procs w !! ch = Some (Doing AtRecheck) ∨ procs w !! ch = Some (Doing AtCloseDone) →
  ∃ w', rtc (step operations) w w' ∧ shut (ctx w') = true ∧ ∀ pid, pid ≠ ch → procs w' !! pid = procs w !! pid.
Proof.
  intros Hok Hc Hp Hd. assert (∀ u, closed (ctx u) = true → published (ctx u) = Some ch → procs u !! ch = Some (Doing AtCloseDone) →
    ∃ w', rtc (step operations) u w' ∧ shut (ctx w') = true ∧ ∀ pid, pid ≠ ch → procs w' !! pid = procs u !! pid) as Hlast.
  { intros u _ Hp' Hu. eexists. split; [eapply rtc_once, (done_step operations u ch AtCloseDone Hu)|]. cbn [stepDone fst snd]. rewrite Hp'. cbn. split; [done|].
    intros pid Hne. by rewrite lookup_insert_ne. }
  destruct Hd as [Hd|Hd]; [|by apply Hlast]. pose proof (done_step operations w ch AtRecheck Hd) as Hst. cbn [stepDone fst snd] in Hst. rewrite Hc in Hst.
  destruct (Hlast (setProc (setCtx w (ctx w)) ch (Doing AtCloseDone)) Hc Hp (lookup_insert_eq _ _ _)) as (w' & Hr & Hs & Hsame). exists w'. split; [by eapply rtc_l|]. split; [done|].
  intros pid Hne. rewrite Hsame by done. cbn. by rewrite lookup_insert_ne.
Qed.

End Run.

(** C28: cancellation reaches everyone, and nobody else causes it. In every interleaving
    of the operations, calls of [Done], the watcher of the parent and the deferred call:
    those who wait for a channel that [Done] published all wait for the same one (a call
    made after the cancellation gets the shared closed channel instead); the context is
    cancelled only after a critical operation failed, the parent ended, or all
    operations are over; once a critical failure has been handled, every held channel is
    closed, or the call that published it closes it in its own next steps; and when
    [RunParallel] is through, every slot holds the name of its operation and what that
    operation returned, and the critical failures found by position are those that
    happened, and by name too where the names differ. *)
Theorem cancellation_reaches_everyone operations w : reachable operations w →
  (∀ pid ch, procs w !! pid = Some (Got (Some ch)) → published (ctx w) = Some ch) ∧
  (closed (ctx w) = true ∨ shut (ctx w) = true → (∃ i, criticalFailure operations w i) ∨ parentDone w = true ∨ allOver operations w) ∧
  (∀ i, procs w !! S i = Some (Over (ByOp i)) → criticalFailure operations w i → closed (ctx w) = true ∧
     ∀ pid ch, procs w !! pid = Some (Got (Some ch)) → shut (ctx w) = true ∨
       ∃ w', rtc (step operations) w w' ∧ shut (ctx w') = true ∧ ∀ pid', pid' ≠ ch → procs w' !! pid' = procs w !! pid') ∧
  (procs w !! 0%nat = Some (Over ByMain) →
     (∀ i op, operations !! i = Some op → ∃ v e, returned w !! i = Some (v, e) ∧ results w !! i = Some (mkResult (Name op) v e)) ∧
     (HasCriticalFailureOrdered operations (results w) = true ↔ ∃ i, criticalFailure operations w i) ∧
     (NoDup (map Name operations) → HasCriticalFailure operations (results w) = HasCriticalFailureOrdered operations (results w))).
Proof.
  intros Hr. pose proof (reachable_run_ok operations w Hr) as Hok. pose proof (ro_protocol _ _ Hok) as Hpr. split_and!.
  - intros pid ch H. exact (pr_knows _ _ Hpr _ _ H).
  - intros Hc. assert (closed (ctx w) = true) as Hcl by (destruct Hc as [?|Hs]; [done|by apply (pr_shut _ _ Hpr)]). destruct (ro_closed _ _ Hok Hcl) as [[i| |] Ho]; eauto.
  - intros i Hov Hcf. pose proof (ro_over _ _ Hok _ _ Hov Hcf) as Hsp. pose proof (pr_once _ _ Hpr) as Ho. rewrite Hsp in Ho. split; [done|]. intros pid ch Hg.
    pose proof (pr_knows _ _ Hpr _ _ Hg) as Hp. cbn in Hp. destruct (shut (ctx w)) eqn:Es; [by left|right]. exact (publisher_closes operations w ch Hok Ho Hp (pr_lost _ _ Hpr ch Hsp Hp Es)).
  - intros Hm. pose proof (ro_main _ _ Hok Hm) as Ha. split_and!; [|by apply critical_ordered|by apply by_name_agrees].
    intros i op Hop. destruct (ro_recorded _ _ Hok i _ (Ha i (lookup_lt_Some _ _ _ Hop)) (or_intror eq_refl)) as (op' & v & e & H1 & H2 & H3 & _). exists v, e. by simplify_eq.
Qed.

End Chain.

(** ** Two operations *)

Definition pair_ : list Operation := [mkOperation "charge" true true; mkOperation "notify" false true].

Abbreviation Reaches := (reachable (V := Z) 0%Z "nil run" pair_).

Lemma goes w w' : Reaches w → step 0%Z "nil run" pair_ w w' → Reaches w'.
Proof. intros H Hs. eapply rtc_r; [exact H|exact Hs]. Qed.

Lemma cancels pid pc o c next w : Reaches w → procs w !! pid = Some (Cancelling pc o) → stepCancel pid (ctx w) pc = Some (c, next) →
  Reaches (setProc (setCtx w c) pid (match next with Some pc => Cancelling pc o | None => Over o end)).
Proof. intros H H1 H2. eapply goes; [exact H|]. by eapply cancel_step. Qed.

Lemma asks pid pc w : Reaches w → procs w !! pid = Some (Doing pc) →
  Reaches (setProc (setCtx w (stepDone pid (ctx w) pc).1) pid (match (stepDone pid (ctx w) pc).2 with inl pc => Doing pc | inr ch => Got ch end)).
Proof. intros H H1. eapply goes; [exact H|]. by eapply done_step. Qed.

(** The channel is asked for, then the first operation fails and cancels, and the channel
    is asked for again. *)
Lemma charge_fails : ∃ w, Reaches w ∧ procs w !! 1%nat = Some (Over (ByOp 0)) ∧ procs w !! 3%nat = Some (Got (Some 3%nat)) ∧ procs w !! 4%nat = Some (Got None) ∧ returned w !! 0%nat = Some (0%Z, Some "declined").
Proof.
  eassert (Reaches _) as R1 by (eapply goes; [apply rtc_refl|]; eapply (spawn _ _ _ _ 0); reflexivity). vm_compute in R1.
  eassert (Reaches _) as R2 by (eapply goes; [exact R1|]; eapply (spawn _ _ _ _ 1); reflexivity). vm_compute in R2.
  eassert (Reaches _) as R3 by (eapply goes; [exact R2|]; eapply (call_done _ _ _ _ 3); [reflexivity|apply Nat.ltb_lt; reflexivity]). vm_compute in R3.
  pose proof (asks 3 AtCheck _ R3 eq_refl) as R4. vm_compute in R4. pose proof (asks 3 AtLoad _ R4 eq_refl) as R5. vm_compute in R5.
  pose proof (asks 3 AtSwap _ R5 eq_refl) as R6. vm_compute in R6. pose proof (asks 3 AtRecheck _ R6 eq_refl) as R7. vm_compute in R7.
  eassert (Reaches _) as R8 by (eapply goes; [exact R7|]; eapply (op_returns _ _ _ _ 0 _ 0%Z (Some "declined")); reflexivity). vm_compute in R8.
  pose proof (cancels 1 AtOnce _ _ _ _ R8 eq_refl eq_refl) as R9. vm_compute in R9. pose proof (cancels 1 AtStore _ _ _ _ R9 eq_refl eq_refl) as R10. vm_compute in R10.
  pose proof (cancels 1 AtDone _ _ _ _ R10 eq_refl eq_refl) as R11. vm_compute in R11. pose proof (cancels 1 AtClose _ _ _ _ R11 eq_refl eq_refl) as R12. vm_compute in R12.
  eassert (Reaches _) as R13 by (eapply goes; [exact R12|]; eapply (call_done _ _ _ _ 4); [reflexivity|apply Nat.ltb_lt; reflexivity]). vm_compute in R13.
  pose proof (asks 4 AtCheck _ R13 eq_refl) as R14. vm_compute in R14. eexists. split; [exact R14|]. split_and!; reflexivity.
Qed.

(** After a cancellation [Done] answers with another channel than before. *)
Example done_channel_changes : ∃ w, Reaches w ∧ procs w !! 3%nat = Some (Got (Some 3%nat)) ∧ procs w !! 4%nat = Some (Got None).
Proof. destruct charge_fails as (w & R & _ & H3 & H4 & _). by exists w. Qed.

Lemma cancellation_reaches_everyone_witness : ∃ w, Reaches w ∧ published (ctx w) = Some 3%nat ∧ closed (ctx w) = true.
Proof.
  destruct charge_fails as (w & R & H1 & H3 & _ & Hr). exists w. split; [exact R|].
  destruct (cancellation_reaches_everyone 0%Z "nil run" pair_ w R) as (Ha & _ & Hc & _). split; [exact (Ha 3%nat 3%nat H3)|].
  exact (proj1 (Hc 0%nat H1 (ex_intro _ _ (ex_intro _ 0%Z (ex_intro _ "declined" (conj eq_refl (conj eq_refl Hr))))))).
Defined.

(** Of two operations of one name only the last one's mark counts when looking by name. *)
Example shared_name_hides_failure : let ops := [mkOperation "charge" true true; mkOperation "charge" false true] in
  let rs := [mkResult "charge" 0%Z (Some "declined"); mkResult "charge" 0%Z None] in
  HasCriticalFailureOrdered ops rs = true ∧ HasCriticalFailure ops rs = false.
Proof. split; reflexivity. Qed.
