(* ===== verification/Binding.v ===== *)
(** * Binding: resources and operations bound to them (src/server-kit/go/placement/binding.go,
    binding_execute.go)

    A registry of tenants' immutable resource versions and the operations that run on
    them. Versions and slots are shared objects: a lookup yields a reference that an
    execution keeps while the registry moves on, so both live in a heap here. Every body
    under the registry's mutex is one step; executions run between [acquire] and [finish],
    any number of them interleaved. *)

From Stdlib Require Import ZArith Lia String.
From stdpp Require Import base strings gmap numbers relations list.
From S2P Require Import Prelude.

Open Scope string_scope.
Open Scope list_scope.
Open Scope Z_scope.

Definition BindingSchemaVersion : Z := 1.
Definition MaxBindingOutputBytes : Z := 2 * 2 ^ 20.
Definition MaxBindingTimeoutMillis : Z := 30000.
Definition RuntimeBindingRequestBytes : Z := 104.
Definition RuntimeBindingReceiptBytes : Z := 72.
Definition maxUint64 : Z := 18446744073709551615.

(** [ErrContext]: the error of the caller's context or of the operation. *)
Inductive binding_error := ErrBindingInvalid | ErrBindingStale | ErrBindingForbidden | ErrBindingBudget | ErrBindingBusy | ErrBindingExecution | ErrContext.

Inductive BindingAction := BindingPublish | BindingConfigure | BindingExecute.

(** What a validator makes of some bytes; it may panic. *)
Inductive verdict := Accepts | Refuses | Panics.

Record BindingLimits := mkLimits { Resources : Z; Bindings : Z; ResidentBytes : Z; InFlight : Z }.

(** [Operates]: there is an operation to run. *)
Record BindingSpec := mkSpec {
  InputCopiesKnown : bool; InputCopies : Z; SID : Z; SResourceID : Z; SResourceGeneration : Z; SInputTypeID : Z; SOutputTypeID : Z; MaxInputBytes : Z; MaxOutputBytes : Z;
  MaxConcurrency : Z; Operates : bool
}.

Record RuntimeBindingRequest := mkRequest {
  QSchemaVersion : Z; QRegistryID : Z; QBindingID : Z; QBindingRevision : Z; QResourceID : Z; QResourceGeneration : Z; QInputTypeID : Z; QOutputTypeID : Z; QOutputCapacity : Z;
  QMaxTransferBytes : Z; QTimeoutMillis : Z; QMaxInputCopyBytes : Z
}.

Record RuntimeBindingReceipt := mkReceipt {
  CSchemaVersion : Z; CBindingRevision : Z; CResourceGeneration : Z; COutputTypeID : Z; COutputBytes : Z; CTransferredBytes : Z; CInputCopiedBytes : Z;
  CStatus : Z
}.

Abbreviation bindingKey := (string * Z)%type.

(** Freed data are empty. *)
Record resourceVersion := mkVersion { data : string; typeID : Z; generation : Z; readers : Z; retired : bool }.
Record bindingVersion := mkBinding { spec : BindingSpec; revision : Z }.
Record bindingSlot := mkSlot { current : bindingVersion; slotInFlight : Z }.

Definition len (s : string) : Z := Z.of_nat (String.length s).

(** [versions] and [slots] are the objects allocated so far; the maps refer to them. *)
Record BindingRegistry := mkRegistry {
  rid : Z; limits : BindingLimits; types : gmap Z (string → verdict); versions : list resourceVersion; slots : list bindingSlot;
  resources : gmap bindingKey nat; bindings : gmap bindingKey nat; residentBytes : Z; inFlight : Z; closed : bool
}.

Fixpoint collectTypes (ts : list (Z * option (string → verdict))) (m : gmap Z (string → verdict)) : option (gmap Z (string → verdict)) :=
  match ts with
  | [] => Some m
  | (id, Some validate) :: rest => if (id =? 0) || bool_decide (m !! id ≠ None) then None else collectTypes rest (<[id := validate]> m)
  | (_, None) :: _ => None
  end.

Definition NewBindingRegistry (id : Z) (l : BindingLimits) (authorizes : bool) (ts : list (Z * option (string → verdict))) : res binding_error BindingRegistry :=
  if (id =? 0) || negb authorizes || (Resources l =? 0) || (65536 <? Resources l) || (Bindings l =? 0) || (65536 <? Bindings l) || (ResidentBytes l =? 0) || (512 * 2 ^ 20 <? ResidentBytes l)
     || (InFlight l =? 0) || (65536 <? InFlight l) || (Z.of_nat (length ts) =? 0) || (256 <? Z.of_nat (length ts)) then Err ErrBindingInvalid
  else match collectTypes ts ∅ with
       | None => Err ErrBindingInvalid
       | Some validators => Ok (mkRegistry id l validators [] [] ∅ ∅ 0 0 false)
       end.

(** Who calls: whether the context has ended, its organization, what the authorizer says,
    the correlation of its metadata, and how long until its deadline. *)
Record caller := mkCaller { ended : bool; organization : string; allows : BindingAction → Z → Z → bool; correlation : option string; untilDeadline : option Z }.

Definition authority (c : caller) (action : BindingAction) (resource binding : Z) : res binding_error string :=
  if ended c then Err ErrContext
  else if String.eqb (organization c) "" || (256 <? len (organization c)) then Err ErrBindingForbidden
  else if negb (allows c action resource binding) then Err ErrBindingForbidden
  else Ok (organization c).

Definition mutationCorrelation (c : caller) : bool := match correlation c with Some id => (0 <? len id) && (len id <=? 128) | None => false end.

Definition validateBindingValue (validate : option (string → verdict)) (data : string) : option binding_error :=
  match validate with
  | None => Some ErrBindingInvalid
  | Some validate => match validate data with Accepts => None | Refuses => Some ErrBindingInvalid | Panics => Some ErrBindingExecution end
  end.

(** ** Steps under the mutex *)

Definition setVersions (r : BindingRegistry) (vs : list resourceVersion) (bytes : Z) : BindingRegistry :=
  mkRegistry (rid r) (limits r) (types r) vs (slots r) (resources r) (bindings r) bytes (inFlight r) (closed r).

Definition releaseRetired (r : BindingRegistry) (n : nat) : BindingRegistry :=
  match versions r !! n with
  | Some v => if retired v && (readers v =? 0) then setVersions r (<[n := mkVersion "" (typeID v) (generation v) (readers v) (retired v)]> (versions r)) (u64 (residentBytes r - len (data v))) else r
  | None => r
  end.

Definition retire (r : BindingRegistry) (n : nat) : BindingRegistry :=
  match versions r !! n with
  | Some v => setVersions r (<[n := mkVersion (data v) (typeID v) (generation v) (readers v) true]> (versions r)) (residentBytes r)
  | None => r
  end.

Definition currentVersion (r : BindingRegistry) (key : bindingKey) : option resourceVersion := n ← resources r !! key; versions r !! n.

(** Allocate the next version of a key and retire the one before. *)
Definition publishVersion (r : BindingRegistry) (key : bindingKey) (next : resourceVersion) : BindingRegistry :=
  let previous := resources r !! key in
  let r := mkRegistry (rid r) (limits r) (types r) (versions r ++ [next]) (slots r) (<[key := length (versions r)]> (resources r)) (bindings r)
             (u64 (residentBytes r + len (data next))) (inFlight r) (closed r) in
  match previous with Some n => releaseRetired (retire r n) n | None => r end.

Definition PublishResource (r : BindingRegistry) (c : caller) (id type expected : Z) (bytes : string) : BindingRegistry * res binding_error Z :=
  match authority c BindingPublish id 0 with
  | Err e => (r, Err e)
  | Ok tenant =>
      if (id =? 0) || (type =? 0) || (len bytes =? 0) || negb (mutationCorrelation c) then (r, Err ErrBindingInvalid)
      else if ResidentBytes (limits r) <? len bytes then (r, Err ErrBindingBudget)
      else match validateBindingValue (types r !! type) bytes with
           | Some e => (r, Err e)
           | None =>
               if closed r then (r, Err ErrBindingBusy)
               else
                 let key := (tenant, id) in
                 let previous := currentVersion r key in
                 if (match previous with None => negb (expected =? 0) | Some v => negb (generation v =? expected) end) || (expected =? maxUint64) then (r, Err ErrBindingStale)
                 else if (match previous with None => Resources (limits r) <=? Z.of_nat (size (resources r)) | Some _ => false end) || (u64 (ResidentBytes (limits r) - residentBytes r) <? len bytes) then
                   (r, Err ErrBindingBudget)
                 else (publishVersion r key (mkVersion bytes type (expected + 1) 0 false), Ok (expected + 1))
           end
  end.

Definition requestFor (r : BindingRegistry) (s : BindingSpec) (v : resourceVersion) (rev : Z) : RuntimeBindingRequest :=
  mkRequest BindingSchemaVersion (rid r) (SID s) rev (SResourceID s) (generation v) (SInputTypeID s) (SOutputTypeID s) (MaxOutputBytes s)
    (MaxOutputBytes s + RuntimeBindingRequestBytes + RuntimeBindingReceiptBytes) MaxBindingTimeoutMillis (len (data v) * InputCopies s).

Definition bindLocked (r : BindingRegistry) (tenant : string) (s : BindingSpec) (expected : Z) : BindingRegistry * res binding_error RuntimeBindingRequest :=
  if closed r then (r, Err ErrBindingBusy)
  else match currentVersion r (tenant, SResourceID s) with
       | None => (r, Err ErrBindingStale)
       | Some v =>
           if negb (generation v =? SResourceGeneration s) then (r, Err ErrBindingStale)
           else if negb (typeID v =? SInputTypeID s) || (MaxInputBytes s <? len (data v)) then (r, Err ErrBindingInvalid)
           else
             let key := (tenant, SID s) in
             let next := mkBinding s (expected + 1) in
             match bindings r !! key with
             | None =>
                 if negb (expected =? 0) || (expected =? maxUint64) then (r, Err ErrBindingStale)
                 else if Bindings (limits r) <=? Z.of_nat (size (bindings r)) then (r, Err ErrBindingBudget)
                 else (mkRegistry (rid r) (limits r) (types r) (versions r) (slots r ++ [mkSlot next 0]) (resources r) (<[key := length (slots r)]> (bindings r)) (residentBytes r) (inFlight r) (closed r),
                       Ok (requestFor r s v (expected + 1)))
             | Some n =>
                 match slots r !! n with
                 | None => (r, Err ErrBindingStale)
                 | Some slot =>
                     if negb (revision (current slot) =? expected) || (expected =? maxUint64) then (r, Err ErrBindingStale)
                     else (mkRegistry (rid r) (limits r) (types r) (versions r) (<[n := mkSlot next (slotInFlight slot)]> (slots r)) (resources r) (bindings r) (residentBytes r) (inFlight r) (closed r),
                           Ok (requestFor r s v (expected + 1)))
                 end
             end
       end.

Definition Bind (r : BindingRegistry) (c : caller) (s : BindingSpec) (expected : Z) : BindingRegistry * res binding_error RuntimeBindingRequest :=
  match authority c BindingConfigure (SResourceID s) (SID s) with
  | Err e => (r, Err e)
  | Ok tenant =>
      if negb (mutationCorrelation c) || (SID s =? 0) || negb (Operates s) || (SInputTypeID s =? 0) || (SOutputTypeID s =? 0) || (MaxInputBytes s =? 0) || (MaxOutputBytes s =? 0)
         || (MaxBindingOutputBytes <? MaxOutputBytes s) || (MaxConcurrency s =? 0) || (InFlight (limits r) <? MaxConcurrency s) || bool_decide (types r !! SOutputTypeID s = None)
         || negb (InputCopiesKnown s) || (16 <? InputCopies s) then (r, Err ErrBindingInvalid)
      else bindLocked r tenant s expected
  end.

(** *** Executions *)

(** The references [acquire] hands out. *)
Definition acquire (r : BindingRegistry) (tenant : string) (q : RuntimeBindingRequest) : BindingRegistry * res binding_error (nat * nat * bindingVersion) :=
  if closed r then (r, Err ErrBindingBusy)
  else match resources r !! (tenant, QResourceID q), bindings r !! (tenant, QBindingID q) with
       | Some n, Some m =>
           match versions r !! n, slots r !! m with
           | Some v, Some slot =>
               let b := current slot in
               let s := spec b in
               if negb (generation v =? QResourceGeneration q) || negb (revision b =? QBindingRevision q) then (r, Err ErrBindingStale)
               else if negb (SResourceID s =? QResourceID q) || negb (SResourceGeneration s =? QResourceGeneration q) || negb (SInputTypeID s =? QInputTypeID q)
                       || negb (typeID v =? QInputTypeID q) || negb (SOutputTypeID s =? QOutputTypeID q) then (r, Err ErrBindingInvalid)
               else if (MaxOutputBytes s <? QOutputCapacity q) || (MaxInputBytes s <? len (data v)) || (QMaxInputCopyBytes q <? len (data v) * InputCopies s) then (r, Err ErrBindingBudget)
               else if (InFlight (limits r) <=? inFlight r) || (MaxConcurrency s <=? slotInFlight slot) then (r, Err ErrBindingBusy)
               else (mkRegistry (rid r) (limits r) (types r) (<[n := mkVersion (data v) (typeID v) (generation v) (u32 (readers v + 1)) (retired v)]> (versions r))
                       (<[m := mkSlot b (u32 (slotInFlight slot + 1))]> (slots r)) (resources r) (bindings r) (residentBytes r) (u32 (inFlight r + 1)) (closed r), Ok (n, m, b))
           | _, _ => (r, Err ErrBindingStale)
           end
       | _, _ => (r, Err ErrBindingStale)
       end.

Definition begin_ (r : BindingRegistry) (c : caller) (q : RuntimeBindingRequest) (corr : string) (capacity : Z) : BindingRegistry * res binding_error (nat * nat * bindingVersion) :=
  if (len corr =? 0) || (128 <? len corr) || negb (QSchemaVersion q =? BindingSchemaVersion) || negb (QRegistryID q =? rid r) || (QOutputCapacity q =? 0)
     || (MaxBindingOutputBytes <? QOutputCapacity q) || (capacity <? QOutputCapacity q) || (QTimeoutMillis q =? 0) || (MaxBindingTimeoutMillis <? QTimeoutMillis q) then (r, Err ErrBindingInvalid)
  else match untilDeadline c with
       | None => (r, Err ErrBindingInvalid)
       | Some remaining => if QTimeoutMillis q * 1000000 <? remaining then (r, Err ErrBindingInvalid)
                      else match authority c BindingExecute (QResourceID q) (QBindingID q) with Err e => (r, Err e) | Ok tenant => acquire r tenant q end
       end.

(** What the operation answers: how much it says it wrote and the output, or an error, or
    a panic; and whether the context has ended by then. *)
Inductive answer := Wrote (written : Z) (output : string) | Fails | Crashes.

Definition run_ (r : BindingRegistry) (q : RuntimeBindingRequest) (v : resourceVersion) (b : bindingVersion) (a : answer) (endedBy : bool) : res binding_error RuntimeBindingReceipt :=
  match a with
  | Crashes => Err ErrBindingExecution
  | Fails => Err ErrContext
  | Wrote written output =>
      if endedBy then Err ErrContext
      else if QOutputCapacity q <? written then Err ErrBindingBudget
      else match validateBindingValue (types r !! SOutputTypeID (spec b)) (String.substring 0 (Z.to_nat written) output) with
           | Some e => Err e
           | None => Ok (mkReceipt BindingSchemaVersion (revision b) (generation v) (SOutputTypeID (spec b)) written 0 (len (data v) * InputCopies (spec b)) 0)
           end
  end.

Definition finish (r : BindingRegistry) (n m : nat) : BindingRegistry :=
  match versions r !! n, slots r !! m with
  | Some v, Some slot =>
      releaseRetired (mkRegistry (rid r) (limits r) (types r) (<[n := mkVersion (data v) (typeID v) (generation v) (u32 (readers v - 1)) (retired v)]> (versions r))
        (<[m := mkSlot (current slot) (u32 (slotInFlight slot - 1))]> (slots r)) (resources r) (bindings r) (residentBytes r) (u32 (inFlight r - 1)) (closed r)) n
  | _, _ => r
  end.

Definition Close (r : BindingRegistry) : BindingRegistry * option binding_error :=
  if negb (inFlight r =? 0) then (r, Some ErrBindingBusy)
  else (mkRegistry (rid r) (limits r) (types r) (versions r) (slots r) ∅ ∅ 0 (inFlight r) true, None).

Definition Stats (r : BindingRegistry) : Z * Z * Z * Z := (Z.of_nat (size (resources r)), Z.of_nat (size (bindings r)), residentBytes r, inFlight r).

(** ** Histories *)

(** An execution between [acquire] and [finish]: its tenant, the request, the references it
    holds, and the bytes its reference held when it got it. *)
Record execution := mkExecution { etenant : string; erequest : RuntimeBindingRequest; eversion : nat; eslot : nat; ebinding : bindingVersion; einput : string }.

(** [origins]: for each version the key it was published under and its bytes. *)
Record world := mkWorld { registry : BindingRegistry; executions : gmap nat execution; origins : list (bindingKey * string) }.

Inductive step : world → world → Prop :=
| publishes w c id type expected bytes r g : PublishResource (registry w) c id type expected bytes = (r, Ok g) →
    step w (mkWorld r (executions w) (origins w ++ [((organization c, id), bytes)]))
| binds w c s expected r q : Bind (registry w) c s expected = (r, Ok q) → step w (mkWorld r (executions w) (origins w))
| begins w pid c q corr capacity r n m b v : executions w !! pid = None → begin_ (registry w) c q corr capacity = (r, Ok (n, m, b)) → versions (registry w) !! n = Some v →
    step w (mkWorld r (<[pid := mkExecution (organization c) q n m b (data v)]> (executions w)) (origins w))
| finishes w pid e : executions w !! pid = Some e → step w (mkWorld (finish (registry w) (eversion e) (eslot e)) (delete pid (executions w)) (origins w))
| closes w r : Close (registry w) = (r, None) → step w (mkWorld r (executions w) (origins w)).

Definition reachable (r : BindingRegistry) (w : world) : Prop := rtc step (mkWorld r ∅ []) w.

(** ** Books *)

Definition reads (n : nat) (e : execution) : Z := if decide (eversion e = n) then 1 else 0.
Definition holds (m : nat) (e : execution) : Z := if decide (eslot e = m) then 1 else 0.

Definition heldBytes (r : BindingRegistry) : Z := zsum (map (λ v, len (data v)) (versions r)).

(** A version is freed exactly when it is retired and nobody reads it; until then it holds
    the bytes it was published with. While its release is [due] it still holds them. *)
Definition version_ok (w : world) (due : bool) (n : nat) (v : resourceVersion) : Prop :=
  readers v = msum (reads n) (executions w) ∧
  ∃ o, origins w !! n = Some o ∧ o.2 ≠ "" ∧ data v = if negb due && retired v && (readers v =? 0) then "" else o.2.

Definition isDue (due : option nat) (n : nat) : bool := bool_decide (due = Some n).

Section Books.
Context (l : BindingLimits) (Hl : 0 ≤ ResidentBytes l ≤ 512 * 2 ^ 20 ∧ 0 ≤ InFlight l ≤ 65536 ∧ 0 ≤ Resources l ∧ 0 ≤ Bindings l).

Record books (due : option nat) (w : world) : Prop := {
  bk_limits : limits (registry w) = l;
  bk_bytes : residentBytes (registry w) = if closed (registry w) then 0 else heldBytes (registry w);
  bk_versions : ∀ n v, versions (registry w) !! n = Some v → version_ok w (isDue due n) n v;
  bk_origins : length (origins w) = length (versions (registry w));
  bk_current : ∀ k n, resources (registry w) !! k = Some n → ∃ v o, versions (registry w) !! n = Some v ∧ retired v = false ∧ origins w !! n = Some (k, o);
  bk_retired : closed (registry w) = false → ∀ n v, versions (registry w) !! n = Some v → retired v = false → ∃ k, resources (registry w) !! k = Some n;
  bk_slots : ∀ m slot, slots (registry w) !! m = Some slot → slotInFlight slot = msum (holds m) (executions w);
  bk_bound : ∀ k m, bindings (registry w) !! k = Some m → is_Some (slots (registry w) !! m);
  bk_flight : inFlight (registry w) = Z.of_nat (size (executions w));
  bk_exec : ∀ pid e, executions w !! pid = Some e → is_Some (slots (registry w) !! eslot e) ∧
    ∃ v, versions (registry w) !! eversion e = Some v ∧ origins w !! eversion e = Some ((etenant e, QResourceID (erequest e)), einput e) ∧
      generation v = QResourceGeneration (erequest e) ∧ typeID v = QInputTypeID (erequest e) ∧ revision (ebinding e) = QBindingRevision (erequest e);
  bk_closed : closed (registry w) = true → executions w = ∅ ∧ resources (registry w) = ∅ ∧ bindings (registry w) = ∅;
  bk_within : residentBytes (registry w) ≤ ResidentBytes l ∧ Z.of_nat (size (resources (registry w))) ≤ Resources l ∧
    Z.of_nat (size (bindings (registry w))) ≤ Bindings l ∧ inFlight (registry w) ≤ InFlight l
}.

Lemma count_le_size (f : execution → Z) (m : gmap nat execution) : (∀ e, f e ≤ 1) → msum f m ≤ Z.of_nat (size m).
Proof.
  intros Hf. induction m as [|k e m Hk IH] using map_ind; [by rewrite msum_empty|]. rewrite msum_insert, map_size_insert_None by done. specialize (Hf e). lia.
Qed.

Lemma count_pos (f : execution → Z) (m : gmap nat execution) pid e : (∀ e, 0 ≤ f e) → m !! pid = Some e → f e ≤ msum f m.
Proof. intros Hf E. pose proof (msum_delete f m pid e E). pose proof (msum_nonneg f (delete pid m) Hf). lia. Qed.

Lemma reads_range n e : 0 ≤ reads n e ≤ 1.
Proof. unfold reads. destruct (decide _); lia. Qed.
Lemma holds_range m e : 0 ≤ holds m e ≤ 1.
Proof. unfold holds. destruct (decide _); lia. Qed.

Lemma reads_self e : reads (eversion e) e = 1.
Proof. unfold reads. by rewrite decide_True. Qed.
Lemma holds_self e : holds (eslot e) e = 1.
Proof. unfold holds. by rewrite decide_True. Qed.

Lemma flight_range due w n : books due w → 0 ≤ msum (reads n) (executions w) ≤ 65536 ∧ ∀ m, 0 ≤ msum (holds m) (executions w) ≤ 65536.
Proof.
  intros Hb. destruct (bk_within due w Hb) as (_ & _ & _ & H). rewrite (bk_flight due w Hb) in H.
  split; [|intros m]; (split; [apply msum_nonneg; intros e; first [apply reads_range|apply holds_range]|]).
  - pose proof (count_le_size (reads n) (executions w) (λ e, proj2 (reads_range n e))). lia.
  - pose proof (count_le_size (holds m) (executions w) (λ e, proj2 (holds_range m e))). lia.
Qed.

Lemma len_nonneg s : 0 ≤ len s.
Proof. unfold len. lia. Qed.

Lemma held_nonneg r : 0 ≤ heldBytes r.
Proof. apply zsum_nonneg, Forall_map, Forall_forall. intros v _. apply len_nonneg. Qed.

Lemma held_update r n v d t g rd rt bytes : versions r !! n = Some v → heldBytes (setVersions r (<[n := mkVersion d t g rd rt]> (versions r)) bytes) = heldBytes r - len (data v) + len d.
Proof. intros E. unfold heldBytes. cbn [versions setVersions]. rewrite list_fmap_insert. cbn. rewrite (zsum_insert _ _ (len (data v))); [done|]. by rewrite list_lookup_fmap, E. Qed.

(** Nothing is due of a version that is read or current. *)
Lemma nothing_due w n : books (Some n) w → (∀ v, versions (registry w) !! n = Some v → retired v && (readers v =? 0) = false) → books None w.
Proof.
  intros Hb Hf. destruct Hb as [? ? Hvs]. split; try done. intros n' v Hv. destruct (Hvs n' v Hv) as (H1 & o & H2 & H3 & H4). split; [done|]. exists o. split_and!; [done|done|].
  unfold isDue in *. rewrite bool_decide_eq_false_2 by done. destruct (decide (n = n')) as [<-|Hne]; [|by rewrite bool_decide_eq_false_2 in H4 by congruence].
  rewrite bool_decide_eq_true_2 in H4 by done. cbn [negb andb] in *. by rewrite (Hf v Hv).
Qed.

Lemma u64_small z : 0 ≤ z < 2 ^ 64 → u64 z = z.
Proof. apply Z.mod_small. Qed.
Lemma u32_small z : 0 ≤ z < 2 ^ 32 → u32 z = z.
Proof. apply Z.mod_small. Qed.

(** Releasing what is due. *)
Lemma release_books w n : books (Some n) w → closed (registry w) = false → books None (mkWorld (releaseRetired (registry w) n) (executions w) (origins w)).
Proof.
  intros Hb Hc. unfold releaseRetired. assert (w = mkWorld (registry w) (executions w) (origins w)) as Ew by (by destruct w).
  destruct (versions (registry w) !! n) as [v|] eqn:Ev; [|rewrite <- Ew; apply (nothing_due w n Hb); by rewrite Ev].
  destruct (retired v && (readers v =? 0)) eqn:Ef; [|rewrite <- Ew; apply (nothing_due w n Hb); rewrite Ev; by intros ? [= <-]].
  destruct Hb as [B1 B2 B3 B4 B5 B6 B7 B8 B9 B10 B11 B12]. rewrite Hc in B2. pose proof Hl as ([_ Hbig] & _). destruct B12 as (W1 & W2 & W3 & W4).
  assert (len (data v) ≤ heldBytes (registry w)) as Hle.
  { unfold heldBytes. apply (zsum_lookup_le _ n); [apply Forall_map, Forall_forall; intros x _; apply len_nonneg|]. by rewrite list_lookup_fmap, Ev. }
  pose proof (len_nonneg (data v)). apply andb_true_iff in Ef as [Er Ez].
  split; cbn [registry executions origins limits residentBytes closed versions slots resources bindings inFlight setVersions]; try done.
  - rewrite Hc. change (len (data v)) with (len (data v)). rewrite u64_small by lia. rewrite (held_update _ n v) by done. change (len "") with 0. lia.
  - intros n' v' [(-> & <- & _)|[Hne Hv']]%list_lookup_insert_Some.
    + destruct (B3 n' v Ev) as (H1 & o & H2 & H3 & _). split; [done|]. exists o. split_and!; [done|done|]. cbn. by rewrite Er, Ez.
    + specialize (B3 n' v' Hv'). unfold isDue in *. rewrite bool_decide_eq_false_2 in B3 by congruence. by rewrite bool_decide_eq_false_2 by done.
  - by rewrite length_insert.
  - intros k n' Hk. destruct (B5 k n' Hk) as (v' & o & H1 & H2 & H3). exists v', o. split_and!; [|done|done]. rewrite list_lookup_insert_ne; [done|]. intros <-. congruence.
  - intros _ n' v' [(-> & <- & _)|[Hne Hv']]%list_lookup_insert_Some Hnr; [cbn in Hnr; congruence|by apply (B6 Hc n' v')].
  - intros pid e He. destruct (B10 pid e He) as (H1 & v' & H2 & H3 & H4). split; [done|]. destruct (decide (n = eversion e)) as [->|Hne].
    + rewrite Ev in H2. injection H2 as <-. eexists. split; [by rewrite list_lookup_insert_eq by (by eapply lookup_lt_Some)|]. done.
    + exists v'. by rewrite list_lookup_insert_ne.
  - split_and!; [|done..]. rewrite u64_small by lia. lia.
Qed.

(** What a successful publication has checked. *)
Lemma publish_checked r c id type expected bytes r' g : PublishResource r c id type expected bytes = (r', Ok g) →
  closed r = false ∧ bytes ≠ "" ∧ len bytes ≤ u64 (ResidentBytes (limits r) - residentBytes r) ∧ (currentVersion r (organization c, id) = None → Z.of_nat (size (resources r)) < Resources (limits r)) ∧
  r' = publishVersion r (organization c, id) (mkVersion bytes type (expected + 1) 0 false).
Proof.
  unfold PublishResource, authority. destruct (ended c); [done|]. destruct (_ || _); [done|]. destruct (allows c _ _ _); [|done]. cbn [negb].
  destruct (_ || _ || _ || _) eqn:E1; [done|]. destruct (ResidentBytes (limits r) <? len bytes); [done|]. destruct (validateBindingValue _ _); [done|]. destruct (closed r); [done|].
  match goal with |- context [if ?b then (r, Err ErrBindingStale) else _] => destruct b; [done|] end.
  match goal with |- context [if ?b then (r, Err ErrBindingBudget) else _] => destruct b eqn:E2; [done|] end. intros H. injection H as <- _. apply orb_false_iff in E2 as [E2 E3]. apply Z.ltb_ge in E3. split_and!; [done| |done| |done].
  - intros ->. apply orb_false_iff in E1 as [E1 _]. by apply orb_false_iff in E1 as [_ E1].
  - intros En. rewrite En in E2. by apply Z.leb_gt in E2.
Qed.

Lemma held_app r v : zsum (map (λ v, len (data v)) (versions r ++ [v])) = heldBytes r + len (data v).
Proof. unfold heldBytes. rewrite map_app, zsum_app. cbn. lia. Qed.

Lemma sum_zero (f : execution → Z) (m : gmap nat execution) : (∀ pid e, m !! pid = Some e → f e = 0) → msum f m = 0.
Proof.
  induction m as [|k e m Hk IH] using map_ind; intros H; [apply msum_empty|]. rewrite msum_insert by done. rewrite (H k e) by apply lookup_insert_eq. rewrite IH; [done|].
  intros pid e' He. apply (H pid). rewrite lookup_insert_ne; [done|]. congruence.
Qed.

(** An object just allocated: no execution has its reference. *)
Lemma unread due w : books due w → msum (reads (length (versions (registry w)))) (executions w) = 0 ∧ msum (holds (length (slots (registry w)))) (executions w) = 0.
Proof.
  intros Hb. split; apply sum_zero; intros pid e He; destruct (bk_exec due w Hb pid e He) as ([x Hx] & v & Hv & _); apply lookup_lt_Some in Hv, Hx; unfold reads, holds; rewrite decide_False by lia; done.
Qed.

Definition asRetired (v : resourceVersion) : resourceVersion := mkVersion (data v) (typeID v) (generation v) (readers v) true.

(** The objects after an allocation, the version before it retired. *)
Lemma appended vs next (due : option nat) : (∀ n, due = Some n → is_Some (vs !! n)) → ∃ vs',
  (match due with Some n => match (vs ++ [next]) !! n with Some v => <[n := asRetired v]> (vs ++ [next]) | None => vs ++ [next] end | None => vs ++ [next] end) = vs' ∧
  length vs' = S (length vs) ∧ zsum (map (λ v, len (data v)) vs') = zsum (map (λ v, len (data v)) vs) + len (data next) ∧ vs' !! length vs = Some next ∧
  (∀ n v, vs !! n = Some v → vs' !! n = Some (if isDue due n then asRetired v else v)) ∧ (∀ n v, vs' !! n = Some v → n = length vs ∨ is_Some (vs !! n)).
Proof.
  intros Hin. destruct due as [k|].
  - destruct (Hin k eq_refl) as [v Hv]. pose proof (lookup_lt_Some _ _ _ Hv) as Hk. eexists. split; [rewrite (lookup_app_l_Some _ _ _ _ Hv); reflexivity|]. split_and!.
    + rewrite length_insert, length_app. cbn. lia.
    + rewrite list_fmap_insert, (zsum_insert _ _ (len (data v))); [rewrite map_app, zsum_app; cbn; lia|]. by rewrite list_lookup_fmap, (lookup_app_l_Some _ _ _ _ Hv).
    + rewrite list_lookup_insert_ne by lia. apply list_lookup_middle. done.
    + intros n v' Hn. unfold isDue. destruct (decide (k = n)) as [<-|Hne].
      * rewrite list_lookup_insert_eq by (rewrite length_app; lia). rewrite bool_decide_eq_true_2 by done. congruence.
      * rewrite list_lookup_insert_ne by done. rewrite bool_decide_eq_false_2 by congruence. by apply lookup_app_l_Some.
    + intros n v' Hn. apply lookup_lt_Some in Hn. rewrite length_insert, length_app in Hn. cbn in Hn. destruct (decide (n = length vs)); [by left|right]. apply lookup_lt_is_Some. lia.
  - exists (vs ++ [next]). split_and!; [done|rewrite length_app; cbn; lia|rewrite map_app, zsum_app; cbn; lia|by apply list_lookup_middle|intros n v Hn; by apply lookup_app_l_Some|].
    intros n v' Hn. apply lookup_lt_Some in Hn. rewrite length_app in Hn. cbn in Hn. destruct (decide (n = length vs)); [by left|right]. apply lookup_lt_is_Some. lia.
Qed.

(** The new version, with the one before it retired but not yet released. *)
Lemma publish_append r ex os key next vs : books None (mkWorld r ex os) → closed r = false → data next ≠ "" → readers next = 0 → retired next = false →
  len (data next) ≤ ResidentBytes l - residentBytes r → (resources r !! key = None → Z.of_nat (size (resources r)) < Resources l) →
  (match resources r !! key with
   | Some n => match (versions r ++ [next]) !! n with Some v => <[n := asRetired v]> (versions r ++ [next]) | None => versions r ++ [next] end
   | None => versions r ++ [next] end) = vs →
  books (resources r !! key) (mkWorld
    (mkRegistry (rid r) (limits r) (types r) vs (slots r) (<[key := length (versions r)]> (resources r)) (bindings r) (u64 (residentBytes r + len (data next))) (inFlight r) (closed r))
    ex (os ++ [(key, data next)])).
Proof.
  intros Hb Hc Hd Hr Ht Hroom Hcount. set (due := resources r !! key). intros Evs. destruct (unread None _ Hb) as [Hun _]. destruct Hb as [B1 B2 B3 B4 B5 B6 B7 B8 B9 B10 B11 B12].
  cbn [registry executions origins] in *. rewrite Hc in B2.
  pose proof (len_nonneg (data next)) as Hn. pose proof (held_nonneg r) as Hh. destruct B12 as (W1 & W2 & W3 & W4). pose proof Hl as ([_ Hbig] & _).
  assert (u64 (residentBytes r + len (data next)) = residentBytes r + len (data next)) as Hu by (apply u64_small; lia).
  destruct (appended (versions r) next due) as (vs' & E & L1 & L2 & L3 & L4 & L5). { intros n Hdue. destruct (B5 key n Hdue) as (v & _ & Hv & _). by eexists. }
  rewrite Evs in E. subst vs'. clear Evs. assert (∀ n v, vs !! n = Some v → (n = length (versions r) ∧ v = next) ∨ ∃ v0, versions r !! n = Some v0 ∧ v = if isDue due n then asRetired v0 else v0) as Hin.
  { intros n v Hv. destruct (L5 n v Hv) as [->|[v0 Hv0]]; [left; split; [done|congruence]|right]. exists v0. split; [done|]. rewrite (L4 n v0 Hv0) in Hv. congruence. }
  split; cbn [registry executions origins limits residentBytes closed versions slots resources bindings inFlight].
  - done.
  - rewrite Hc, Hu. unfold heldBytes. cbn [versions]. rewrite L2. fold (heldBytes r). lia.
  - intros n v [[-> ->]|(v0 & Hv0 & ->)]%Hin.
    + split; [rewrite Hr; symmetry; exact Hun|]. exists (key, data next). split; [rewrite <- B4; by apply list_lookup_middle|]. split; [done|]. cbn. by rewrite Ht, andb_false_r.
    + destruct (B3 n v0 Hv0) as (H1 & o & H2 & H3 & H4). cbn [executions origins]. split; [by destruct (isDue due n)|]. exists o. split; [by apply lookup_app_l_Some|]. split; [done|].
      unfold isDue in H4 at 1. rewrite bool_decide_eq_false_2 in H4 by done. destruct (isDue due n) eqn:Ed; [|done]. cbn. unfold isDue in Ed. apply bool_decide_eq_true in Ed.
      destruct (B5 key n Ed) as (v1 & o1 & Hv1 & Hnr & _). assert (v1 = v0) as -> by congruence. rewrite H4, Hnr. done.
  - rewrite length_app, L1. cbn. lia.
  - intros k n [[<- <-]|[Hne Hk]]%lookup_insert_Some.
    + exists next, (data next). split_and!; [done|done|]. rewrite <- B4. by apply list_lookup_middle.
    + destruct (B5 k n Hk) as (v & o & H1 & H2 & H3). exists v, o. split_and!; [|done|by apply lookup_app_l_Some]. rewrite (L4 n v H1). unfold isDue. rewrite bool_decide_eq_false_2; [done|].
      intros Ed. destruct (B5 key n Ed) as (v' & o' & _ & _ & H4). congruence.
  - intros _ n v [[-> ->]|(v0 & Hv0 & ->)]%Hin Hnr; [exists key; apply lookup_insert_eq|]. destruct (isDue due n) eqn:Ed; [done|]. destruct (B6 Hc n v0 Hv0 Hnr) as [k Hk]. exists k.
    rewrite lookup_insert_ne; [done|]. intros <-. unfold isDue in Ed. apply bool_decide_eq_false in Ed. done.
  - done.
  - done.
  - done.
  - intros pid e He. destruct (B10 pid e He) as (H1 & v & H2 & H3 & H4 & H5 & H6). split; [done|]. eexists. split; [exact (L4 _ v H2)|]. split; [by apply lookup_app_l_Some|]. by destruct (isDue due (eversion e)).
  - congruence.
  - rewrite Hu. split_and!; [lia| |done|done]. destruct (resources r !! key) as [n|] eqn:Ek; [rewrite map_size_insert_Some by (by eexists); lia|rewrite map_size_insert_None by done; specialize (Hcount eq_refl); lia].
Qed.

Lemma publish_books w c id type expected bytes r g : books None w → PublishResource (registry w) c id type expected bytes = (r, Ok g) →
  books None (mkWorld r (executions w) (origins w ++ [((organization c, id), bytes)])).
Proof.
  intros Hb Hp. destruct w as [r0 ex os]. cbn [registry executions origins] in *. apply publish_checked in Hp as (Hc & Hne & Hroom & Hcount & ->). pose proof (bk_limits _ _ Hb) as B1. cbn [registry] in B1.
  rewrite B1 in Hroom, Hcount. pose proof Hl as ([_ Hbig] & _). destruct (bk_within _ _ Hb) as (W1 & _). cbn [registry] in W1. pose proof (bk_bytes _ _ Hb) as B2. cbn [registry] in B2. rewrite Hc in B2.
  pose proof (held_nonneg r0). rewrite u64_small in Hroom by lia. set (key := (organization c, id)) in *. set (next := mkVersion bytes type (expected + 1) 0 false).
  assert (resources r0 !! key = None → Z.of_nat (size (resources r0)) < Resources l) as Hcount' by (intros En; apply Hcount; unfold currentVersion; by rewrite En).
  pose proof (publish_append r0 ex os key next _ Hb Hc Hne eq_refl eq_refl Hroom Hcount' eq_refl) as Hbk. unfold publishVersion. destruct (resources r0 !! key) as [n|] eqn:Ek; [|done].
  unfold retire. cbn [versions]. destruct ((versions r0 ++ [next]) !! n) as [v|]; apply (release_books _ _ Hbk); done.
Qed.

Definition acquired (r : BindingRegistry) (n m : nat) (v : resourceVersion) (slot : bindingSlot) (reading holding flight : Z) : BindingRegistry :=
  mkRegistry (rid r) (limits r) (types r) (<[n := mkVersion (data v) (typeID v) (generation v) reading (retired v)]> (versions r)) (<[m := mkSlot (current slot) holding]> (slots r))
    (resources r) (bindings r) (residentBytes r) flight (closed r).

Lemma acquire_checked r tenant q r' n m b : acquire r tenant q = (r', Ok (n, m, b)) → ∃ v slot,
  closed r = false ∧ resources r !! (tenant, QResourceID q) = Some n ∧ versions r !! n = Some v ∧ slots r !! m = Some slot ∧ b = current slot ∧
  generation v = QResourceGeneration q ∧ revision b = QBindingRevision q ∧ typeID v = QInputTypeID q ∧ inFlight r < InFlight (limits r) ∧
  r' = acquired r n m v slot (u32 (readers v + 1)) (u32 (slotInFlight slot + 1)) (u32 (inFlight r + 1)).
Proof.
  unfold acquire. destruct (closed r) eqn:Ec; [done|]. destruct (resources r !! _) as [n'|] eqn:En; [|done]. destruct (bindings r !! _) as [m'|]; [|done].
  destruct (versions r !! n') as [v|] eqn:Ev; [|done]. destruct (slots r !! m') as [slot|] eqn:Es; [|done].
  match goal with |- context [if ?b then (r, Err ErrBindingStale) else _] => destruct b eqn:E1; [done|] end.
  match goal with |- context [if ?b then (r, Err ErrBindingInvalid) else _] => destruct b eqn:E2; [done|] end.
  match goal with |- context [if ?b then (r, Err ErrBindingBudget) else _] => destruct b; [done|] end.
  match goal with |- context [if ?b then (r, Err ErrBindingBusy) else _] => destruct b eqn:E3; [done|] end. intros H. injection H as <- <- <- <-.
  apply orb_false_iff in E1 as [G1 G2], E3 as [G3 _]. apply orb_false_iff in E2 as [E2 _]. apply orb_false_iff in E2 as [_ G4]. apply negb_false_iff, Z.eqb_eq in G1, G2, G4. apply Z.leb_gt in G3.
  exists v, slot. split_and!; try done. unfold acquired. by rewrite Ec.
Qed.

Lemma begin_checked r c q corr capacity r' x : begin_ r c q corr capacity = (r', Ok x) → acquire r (organization c) q = (r', Ok x).
Proof.
  unfold begin_, authority. match goal with |- context [if ?b then (r, Err ErrBindingInvalid) else _] => destruct b; [done|] end. destruct (untilDeadline c); [|done]. destruct (_ <? _); [done|].
  destruct (ended c); [done|]. destruct (_ || _); [done|]. by destruct (allows c _ _ _).
Qed.

Lemma held_acquired r n m v slot a b f : versions r !! n = Some v → heldBytes (acquired r n m v slot a b f) = heldBytes r.
Proof.
  intros E. change (heldBytes (setVersions r (<[n := mkVersion (data v) (typeID v) (generation v) a (retired v)]> (versions r)) 0) = heldBytes r). rewrite (held_update r n v) by done. lia.
Qed.

(** The counters of one version and one slot move with the executions that hold them. *)
Lemma counters_ok due w n m v slot d ex : books None w → closed (registry w) = false → versions (registry w) !! n = Some v → slots (registry w) !! m = Some slot →
  due = None ∧ retired v = false ∨ due = Some n ∧ data v ≠ "" →
  (∀ k, msum (reads k) ex = msum (reads k) (executions w) + if decide (k = n) then d else 0) → (∀ k, msum (holds k) ex = msum (holds k) (executions w) + if decide (k = m) then d else 0) →
  Z.of_nat (size ex) = Z.of_nat (size (executions w)) + d → Z.of_nat (size ex) ≤ InFlight l →
  (∀ pid e, ex !! pid = Some e → executions w !! pid = Some e ∨ eversion e = n ∧ eslot e = m ∧ origins w !! n = Some ((etenant e, QResourceID (erequest e)), einput e) ∧
     generation v = QResourceGeneration (erequest e) ∧ typeID v = QInputTypeID (erequest e) ∧ revision (ebinding e) = QBindingRevision (erequest e)) →
  books due (mkWorld (acquired (registry w) n m v slot (u32 (readers v + d)) (u32 (slotInFlight slot + d)) (u32 (inFlight (registry w) + d))) ex (origins w)).
Proof.
  intros Hb Hc Hv Hm Hdue Hr Hh Hsz Hfl Hex. pose proof Hl as (_ & [_ Hil] & _). destruct Hb as [B1 B2 B3 B4 B5 B6 B7 B8 B9 B10 B11 B12].
  destruct (B3 n v Hv) as (Hrd & o & Ho & Hone & Hdata). unfold isDue in Hdata at 1. rewrite bool_decide_eq_false_2 in Hdata by done. pose proof (B7 m slot Hm) as Hsl.
  pose proof (count_le_size (reads n) ex (λ e, proj2 (reads_range n e))) as R1. pose proof (msum_nonneg (reads n) ex (λ e, proj1 (reads_range n e))) as R2.
  pose proof (count_le_size (holds m) ex (λ e, proj2 (holds_range m e))) as R3. pose proof (msum_nonneg (holds m) ex (λ e, proj1 (holds_range m e))) as R4.
  assert (u32 (readers v + d) = msum (reads n) ex) as E1 by (rewrite Hr, decide_True in * by done; rewrite Hrd; apply u32_small; lia).
  assert (u32 (slotInFlight slot + d) = msum (holds m) ex) as E2 by (rewrite Hh, decide_True in * by done; rewrite Hsl; apply u32_small; lia).
  assert (u32 (inFlight (registry w) + d) = Z.of_nat (size ex)) as E3 by (rewrite B9, <- Hsz; apply u32_small; lia).
  rewrite E1, E2, E3. pose proof (lookup_lt_Some _ _ _ Hv) as Hn. pose proof (lookup_lt_Some _ _ _ Hm) as Hm'.
  split; unfold acquired; cbn [registry executions origins limits residentBytes closed versions slots resources bindings inFlight]; try done.
  - rewrite B2. destruct (closed (registry w)); [done|]. symmetry. by apply (held_acquired _ _ m v slot (msum (reads n) ex) 0 0).
  - intros n' v' [(-> & <- & _)|[Hne Hv']]%list_lookup_insert_Some.
    + split; [done|]. exists o. split_and!; [done|done|]. cbn [data retired readers]. destruct Hdue as [[-> Hnr]|[-> Hd]].
      * rewrite Hnr, andb_false_r in Hdata |- *. done.
      * unfold isDue. rewrite bool_decide_eq_true_2 by done. cbn. destruct (_ && _); [congruence|done].
    + destruct (B3 n' v' Hv') as (H1 & o' & H2 & H3 & H4). cbn [executions origins]. split; [rewrite Hr, decide_False by congruence; by rewrite Z.add_0_r|]. exists o'. split_and!; [done|done|].
      unfold isDue in *. rewrite bool_decide_eq_false_2 in H4 by done. rewrite bool_decide_eq_false_2; [done|]. destruct Hdue as [[-> _]|[-> _]]; congruence.
  - by rewrite length_insert.
  - intros k n' Hk. destruct (B5 k n' Hk) as (v' & o' & H1 & H2 & H3). destruct (decide (n = n')) as [<-|Hne].
    + rewrite Hv in H1. injection H1 as <-. eexists _, o'. split; [by apply list_lookup_insert_eq|done].
    + exists v', o'. by rewrite list_lookup_insert_ne.
  - intros _ n' v' [(-> & <- & _)|[Hne Hv']]%list_lookup_insert_Some Hnr; [by apply (B6 Hc n' v)|by apply (B6 Hc n' v')].
  - intros m' slot' [(-> & <- & _)|[Hne Hs']]%list_lookup_insert_Some; [done|]. rewrite (B7 m' slot' Hs'), Hh, decide_False by congruence. by rewrite Z.add_0_r.
  - intros k m' Hk. destruct (B8 k m' Hk) as [x Hx]. apply lookup_lt_is_Some. rewrite length_insert. by eapply lookup_lt_Some.
  - intros pid e He. assert (is_Some (<[m := mkSlot (current slot) (msum (holds m) ex)]> (slots (registry w)) !! eslot e)) as Hs.
    { apply lookup_lt_is_Some. rewrite length_insert. destruct (Hex pid e He) as [He'|(_ & -> & _)]; [|done]. destruct (B10 pid e He') as ([x Hx] & _). by eapply lookup_lt_Some. }
    split; [done|]. destruct (Hex pid e He) as [He'|(-> & _ & H)]; [|eexists; split; [by apply list_lookup_insert_eq|done]].
    destruct (B10 pid e He') as (_ & v' & H1 & H2 & H3). destruct (decide (n = eversion e)) as [->|Hne]; [|exists v'; by rewrite list_lookup_insert_ne].
    rewrite Hv in H1. injection H1 as <-. eexists. split; [by apply list_lookup_insert_eq|done].
  - congruence.
  - destruct B12 as (W1 & W2 & W3 & W4). split_and!; done.
Qed.

(** One execution more, or one less. *)
Lemma sum_more (f : execution → Z) (m : gmap nat execution) pid e : m !! pid = None → msum f (<[pid := e]> m) = msum f m + f e.
Proof. intros E. rewrite msum_insert by done. lia. Qed.

Lemma reads_at k e : reads k e = if decide (k = eversion e) then 1 else 0.
Proof. unfold reads. destruct (decide (eversion e = k)), (decide (k = eversion e)); congruence. Qed.
Lemma holds_at k e : holds k e = if decide (k = eslot e) then 1 else 0.
Proof. unfold holds. destruct (decide (eslot e = k)), (decide (k = eslot e)); congruence. Qed.

Lemma begin_books w pid c q corr capacity r n m b v : books None w → executions w !! pid = None → begin_ (registry w) c q corr capacity = (r, Ok (n, m, b)) → versions (registry w) !! n = Some v →
  books None (mkWorld r (<[pid := mkExecution (organization c) q n m b (data v)]> (executions w)) (origins w)).
Proof.
  intros Hb Hp Hbe Hv. apply begin_checked, acquire_checked in Hbe as (v' & slot & Hc & Hk & Hv' & Hs & -> & Hg & Hrev & Ht & Hfl & ->). rewrite Hv in Hv'. injection Hv' as <-.
  pose proof (bk_flight _ _ Hb) as Hf. pose proof (bk_limits _ _ Hb) as Hlim. destruct (bk_current _ _ Hb _ _ Hk) as (v0 & o & Hv0 & Hnr & Ho). rewrite Hv in Hv0. injection Hv0 as <-.
  assert (data v = o) as Hd.
  { destruct (bk_versions _ _ Hb n v Hv) as (_ & o' & Ho' & _ & Hd). rewrite Ho in Ho'. injection Ho' as <-. by rewrite Hnr, andb_false_r in Hd. }
  apply (counters_ok None w n m v slot 1); try done.
  - by left.
  - intros k. rewrite sum_more by done. by rewrite reads_at.
  - intros k. rewrite sum_more by done. by rewrite holds_at.
  - rewrite map_size_insert_None by done. lia.
  - rewrite map_size_insert_None by done. rewrite Hf, Hlim in Hfl. lia.
  - intros pid' e [[<- <-]|[Hne He]]%lookup_insert_Some; [right; cbn; by rewrite Hd|by left].
Qed.

Lemma finish_books w pid e : books None w → executions w !! pid = Some e → books None (mkWorld (finish (registry w) (eversion e) (eslot e)) (delete pid (executions w)) (origins w)).
Proof.
  intros Hb He. destruct (bk_exec _ _ Hb pid e He) as ([slot Hs] & v & Hv & Ho & _). assert (closed (registry w) = false) as Hc.
  { destruct (closed (registry w)) eqn:Ec; [|done]. destruct (bk_closed _ _ Hb Ec) as (Hem & _). by rewrite Hem, lookup_empty in He. }
  assert (data v ≠ "") as Hd.
  { destruct (bk_versions _ _ Hb _ v Hv) as (Hr & o & Ho' & Hne & Hd). pose proof (count_pos (reads (eversion e)) _ pid e (λ e', proj1 (reads_range _ e')) He) as Hp. rewrite reads_self in Hp.
    rewrite (proj2 (Z.eqb_neq (readers v) 0)), andb_false_r in Hd by lia. congruence. }
  unfold finish. rewrite Hv, Hs. pose proof (bk_flight _ _ Hb) as Hf. destruct (bk_within _ _ Hb) as (_ & _ & _ & Hfl). rewrite Hf in Hfl.
  assert (size (executions w) = S (size (delete pid (executions w)))) as Hsz by (rewrite <- (insert_delete_id _ _ _ He) at 1; by rewrite map_size_insert_None by apply lookup_delete_eq).
  pose proof (release_books (mkWorld (acquired (registry w) (eversion e) (eslot e) v slot (u32 (readers v - 1)) (u32 (slotInFlight slot - 1)) (u32 (inFlight (registry w) - 1)))
    (delete pid (executions w)) (origins w)) (eversion e)) as Hrel. apply Hrel; [|done]. clear Hrel.
  apply (counters_ok (Some (eversion e)) w (eversion e) (eslot e) v slot (-1)); try done.
  - by right.
  - intros k. rewrite (msum_delete _ _ _ _ He), reads_at. destruct (decide _); lia.
  - intros k. rewrite (msum_delete _ _ _ _ He), holds_at. destruct (decide _); lia.
  - lia.
  - lia.
  - intros pid' e' He'. left. by apply lookup_delete_Some in He' as [_ ?].
Qed.

Lemma bind_books w c s expected r q : books None w → Bind (registry w) c s expected = (r, Ok q) → books None (mkWorld r (executions w) (origins w)).
Proof.
  intros Hb. destruct (unread None w Hb) as [_ Hun]. unfold Bind, authority. destruct (ended c); [done|]. destruct (_ || _); [done|]. destruct (allows c _ _ _); [|done]. cbn [negb].
  match goal with |- context [if ?b then (_, Err ErrBindingInvalid) else _] => destruct b; [done|] end. unfold bindLocked. destruct (closed (registry w)) eqn:Ec; [done|].
  destruct (currentVersion _ _) as [v|]; [|done]. destruct (negb _); [done|]. destruct (_ || _); [done|]. destruct Hb as [B1 B2 B3 B4 B5 B6 B7 B8 B9 B10 B11 B12]. rewrite Ec in B2.
  destruct (bindings (registry w) !! (organization c, SID s)) as [m|] eqn:Em.
  - destruct (slots (registry w) !! m) as [slot|] eqn:Es; [|done]. destruct (_ || _); [done|]. intros H. injection H as <- _. pose proof (lookup_lt_Some _ _ _ Es).
    split; cbn [registry executions origins limits residentBytes closed versions slots resources bindings inFlight]; try done; try exact B3; try (intros _; exact (B6 Ec)).
    + intros m' slot' [(-> & <- & _)|[Hne Hs']]%list_lookup_insert_Some; [exact (B7 _ _ Es)|by apply B7].
    + intros k m' Hk. destruct (B8 k m' Hk) as [x Hx]. apply lookup_lt_is_Some. rewrite length_insert. by eapply lookup_lt_Some.
    + intros pid e He. destruct (B10 pid e He) as ([x Hx] & H1). split; [|done]. apply lookup_lt_is_Some. rewrite length_insert. by eapply lookup_lt_Some.
  - destruct (_ || _); [done|]. destruct (Z.leb_spec (Bindings (limits (registry w))) (Z.of_nat (size (bindings (registry w))))) as [|Hlt]; [done|]. intros H. injection H as <- _.
    split; cbn [registry executions origins limits residentBytes closed versions slots resources bindings inFlight]; try done; try exact B3; try (intros _; exact (B6 Ec)).
    + intros m' slot' [[Hl' Hs']|[-> <-]]%lookup_snoc_Some; [by apply B7|]. symmetry. exact Hun.
    + intros k m' [[<- <-]|[Hne Hk]]%lookup_insert_Some; [eexists; by apply list_lookup_middle|]. destruct (B8 k m' Hk) as [x Hx]. eexists. by apply lookup_app_l_Some.
    + intros pid e He. destruct (B10 pid e He) as ([x Hx] & H1). split; [|done]. eexists. by apply lookup_app_l_Some.
    + rewrite map_size_insert_None by done. rewrite B1 in Hlt. destruct B12 as (W1 & W2 & W3 & W4). split_and!; [done|done|lia|done].
Qed.

Lemma close_books w r : books None w → Close (registry w) = (r, None) → books None (mkWorld r (executions w) (origins w)).
Proof.
  intros Hb. unfold Close. destruct (Z.eqb_spec (inFlight (registry w)) 0) as [Ez|]; [|done]. cbn [negb]. intros H. injection H as <-. pose proof Hl as (_ & [Hi _] & Hres & Hbi).
  destruct Hb as [B1 B2 B3 B4 B5 B6 B7 B8 B9 B10 B11 B12]. assert (executions w = ∅) as Hem by (apply map_size_empty_inv; lia).
  split; cbn [registry executions origins limits residentBytes closed versions slots resources bindings inFlight]; try done; try exact B3.
  rewrite !map_size_empty. split_and!; lia.
Qed.

Lemma step_books w w' : books None w → step w w' → books None w'.
Proof.
  intros Hb Hs. revert Hb. destruct Hs; intros Hb; [by eapply publish_books|by eapply bind_books|by eapply begin_books|by apply finish_books|by eapply close_books].
Qed.

Lemma reachable_books r w : books None (mkWorld r ∅ []) → reachable r w → books None w.
Proof. intros H0 Hr. assert (∀ u v, rtc step u v → books None u → books None v) as H by (induction 1; [done|]; eauto using step_books). by eapply H. Qed.

(** Nobody reads a version exactly when its readers are none. *)
Lemma no_reader (m : gmap nat execution) n : msum (reads n) m = 0 ↔ ∀ pid e, m !! pid = Some e → eversion e ≠ n.
Proof.
  split.
  - intros Hz pid e He <-. pose proof (count_pos (reads (eversion e)) m pid e (λ e', proj1 (reads_range _ e')) He) as Hp. rewrite reads_self in Hp. lia.
  - intros H. apply sum_zero. intros pid e He. unfold reads. by rewrite decide_False by (by eapply H).
Qed.

Lemma version_freed w n v : books None w → versions (registry w) !! n = Some v → ∃ k bytes, origins w !! n = Some (k, bytes) ∧
  (data v = "" ↔ retired v = true ∧ ∀ pid e, executions w !! pid = Some e → eversion e ≠ n) ∧ (data v ≠ "" → data v = bytes).
Proof.
  intros Hb Hv. destruct (bk_versions _ _ Hb n v Hv) as (Hr & [k bytes] & Ho & Hne & Hd). cbn in Hne, Hd. exists k, bytes. split; [done|]. rewrite <- no_reader, <- Hr.
  unfold isDue in Hd. rewrite bool_decide_eq_false_2 in Hd by done. cbn [negb andb] in Hd. destruct (retired v), (Z.eqb_spec (readers v) 0); cbn [andb] in Hd; split; try (split; intros); try congruence; naive_solver.
Qed.

Lemma execution_reads w pid e : books None w → executions w !! pid = Some e → ∃ v, versions (registry w) !! eversion e = Some v ∧ data v = einput e ∧
  origins w !! eversion e = Some ((etenant e, QResourceID (erequest e)), einput e) ∧ generation v = QResourceGeneration (erequest e) ∧ revision (ebinding e) = QBindingRevision (erequest e).
Proof.
  intros Hb He. destruct (bk_exec _ _ Hb pid e He) as (_ & v & Hv & Ho & Hg & _ & Hrev). exists v. destruct (version_freed w _ v Hb Hv) as (k & bytes & Ho' & Hf & Hd).
  rewrite Ho in Ho'. injection Ho' as <- <-. split_and!; try done. apply Hd. intros Hz. apply Hf in Hz as [_ Hz]. by apply (Hz pid e He).
Qed.

End Books.

Lemma new_books id l authorizes ts r : NewBindingRegistry id l authorizes ts = Ok r → 0 ≤ Resources l → 0 ≤ Bindings l → 0 ≤ ResidentBytes l → 0 ≤ InFlight l →
  (0 ≤ ResidentBytes l ≤ 512 * 2 ^ 20 ∧ 0 ≤ InFlight l ≤ 65536 ∧ 0 ≤ Resources l ∧ 0 ≤ Bindings l) ∧ books l None (mkWorld r ∅ []).
Proof.
  unfold NewBindingRegistry. match goal with |- context [if ?b then _ else _] => destruct b eqn:E; [done|] end. destruct (collectTypes ts ∅) as [m|]; [|done]. intros [= <-] H1 H2 H3 H4.
  rewrite !orb_false_iff in E. destruct E as [[[[[[[[[[[_ _] _] _] _] _] _] E1] _] E2] _] _]. apply Z.ltb_ge in E1, E2. split; [lia|].
  split; cbn; try done; intros *; rewrite ?lookup_nil, ?lookup_empty; done.
Qed.

(** C29: the registry keeps its books. Whatever is published, bound, executed and closed, in
    any interleaving: bytes, resources, bindings and executions stay within their limits,
    and the bytes accounted are those held; a version is freed exactly when it is retired
    and no execution reads it, and holds what was published until then, as every current
    version does; and an execution reads, until it finishes, the bytes its own tenant
    published under the identifier and generation it asked for, with the revision of the
    operation it asked for, whatever replaces them meanwhile. *)
Theorem bindings_keep_their_books id l authorizes ts r w : 0 ≤ Resources l → 0 ≤ Bindings l → 0 ≤ ResidentBytes l → 0 ≤ InFlight l →
  NewBindingRegistry id l authorizes ts = Ok r → reachable r w →
  (residentBytes (registry w) ≤ ResidentBytes l ∧ Z.of_nat (size (resources (registry w))) ≤ Resources l ∧ Z.of_nat (size (bindings (registry w))) ≤ Bindings l ∧
   inFlight (registry w) = Z.of_nat (size (executions w)) ∧ inFlight (registry w) ≤ InFlight l ∧ residentBytes (registry w) = if closed (registry w) then 0 else heldBytes (registry w)) ∧
  (∀ n v, versions (registry w) !! n = Some v → ∃ k bytes, origins w !! n = Some (k, bytes) ∧
     (data v = "" ↔ retired v = true ∧ ∀ pid e, executions w !! pid = Some e → eversion e ≠ n) ∧ (data v ≠ "" → data v = bytes)) ∧
  (∀ k n, resources (registry w) !! k = Some n → ∃ v bytes, versions (registry w) !! n = Some v ∧ retired v = false ∧ origins w !! n = Some (k, bytes)) ∧
  (∀ pid e, executions w !! pid = Some e → ∃ v, versions (registry w) !! eversion e = Some v ∧ data v = einput e ∧
     origins w !! eversion e = Some ((etenant e, QResourceID (erequest e)), einput e) ∧ generation v = QResourceGeneration (erequest e) ∧ revision (ebinding e) = QBindingRevision (erequest e)).
Proof.
  intros H1 H2 H3 H4 Hn Hr. destruct (new_books id l authorizes ts r Hn H1 H2 H3 H4) as [Hl H0]. pose proof (reachable_books l Hl r w H0 Hr) as Hb. destruct (bk_within _ _ _ Hb) as (W1 & W2 & W3 & W4).
  split; [split_and!; [done|done|done|apply Hb|done|apply Hb]|]. split; [intros n v Hv; by apply (version_freed l Hl)|]. split; [apply Hb|]. intros pid e He. by apply (execution_reads l Hl w pid).
Qed.

(** ** A version replaced while it is read *)

Definition deskLimits : BindingLimits := mkLimits 4 4 64 2.
Definition anyBytes : Z * option (string → verdict) := (7, Some (λ _, Accepts)).
Definition desk : BindingRegistry := mkRegistry 1 deskLimits {[7 := λ _, Accepts]} [] [] ∅ ∅ 0 0 false.

Lemma new_desk : NewBindingRegistry 1 deskLimits true [anyBytes] = Ok desk.
Proof. reflexivity. Qed.

Definition acme : caller := mkCaller false "acme" (λ _ _ _, true) (Some "c-1") (Some 1000).
Definition doubling : BindingSpec := mkSpec true 1 5 3 1 7 7 32 32 2 true.
Definition runIt : RuntimeBindingRequest := mkRequest 1 1 5 1 3 1 7 7 32 208 30000 32.

(** The resource is published, bound and read, and replaced before the execution ends. *)
Lemma replaced_while_read : ∃ w, reachable desk w ∧ executions w !! 0%nat = Some (mkExecution "acme" runIt 0 0 (mkBinding doubling 1) "one") ∧ residentBytes (registry w) = 8 ∧
  resources (registry w) !! ("acme", 3) = Some 1%nat.
Proof.
  eassert (reachable desk _) as R1 by (eapply rtc_r; [apply rtc_refl|]; eapply (publishes _ acme 3 7 0 "one"); vm_compute; reflexivity). vm_compute in R1.
  eassert (reachable desk _) as R2 by (eapply rtc_r; [exact R1|]; eapply (binds _ acme doubling 0); vm_compute; reflexivity). vm_compute in R2.
  eassert (reachable desk _) as R3 by (eapply rtc_r; [exact R2|]; eapply (begins _ 0 acme runIt "c-1" 32); [reflexivity|vm_compute; reflexivity|reflexivity]). vm_compute in R3.
  eassert (reachable desk _) as R4 by (eapply rtc_r; [exact R3|]; eapply (publishes _ acme 3 7 1 "other"); vm_compute; reflexivity). vm_compute in R4.
  eexists. split; [exact R4|]. split_and!; vm_compute; reflexivity.
Qed.

Lemma bindings_keep_their_books_witness : ∃ w v, NewBindingRegistry 1 deskLimits true [anyBytes] = Ok desk ∧ reachable desk w ∧ residentBytes (registry w) ≤ 64 ∧
  resources (registry w) !! ("acme", 3) = Some 1%nat ∧ versions (registry w) !! 0%nat = Some v ∧ data v = "one".
Proof.
  destruct replaced_while_read as (w & R & He & _ & Hk). exists w.
  destruct (bindings_keep_their_books 1 deskLimits true [anyBytes] desk w ltac:(vm_compute; discriminate) ltac:(vm_compute; discriminate) ltac:(vm_compute; discriminate) ltac:(vm_compute; discriminate)
    new_desk R) as ((Hb & _) & _ & _ & Hex). destruct (Hex 0%nat _ He) as (v & Hv & Hd & _). exists v.
  split; [exact new_desk|]. split; [exact R|]. split; [exact Hb|]. split; [exact Hk|]. split; [exact Hv|exact Hd].
Defined.
